(* ===== verification/_CoqProject ===== *)
-Q . S2P
Prelude.v
SimpleGraph.v
Components.v
BasicPaths.v
CycleJoin.v
InternalId.v
MultiwayIntersect.v
FactorizedTable.v
JoinHashTable.v
MultiwayOperator.v
MultiwayBuild.v
NullMask.v
SelVector.v
Intersect.v
Int128.v
CheckedArith.v
Date.v
Timestamp.v
StringCast.v
Interval.v
Serialize.v
BitPacking.v
Compression.v
FreeSpace.v
VersionInfo.v
NodeGroup.v
LocalTable.v
ColumnUpdates.v
Transactions.v
