(* ===== verification/Prelude.v ===== *)
(** * Verification of the cycle-join graph database

    The program is a graph database (a fork of Kuzu) with a multiway join for cyclic patterns. Paths
    below are relative to the repository, which is [src/]; its C++ sources are under [src/src/].

    ** The program and its parts

    A cyclic pattern of a query is a graph over its variables. The planner splits it into connected
    components, prunes it to its 2-core, collects its basic paths, and searches for a cycle join: probe
    nodes that are bound first, and for every other node the paths that build it. At run time each probe
    node has a hash table from its identifier to lists of neighbours, filled by the build operator; the
    multiway operator probes the tables of the bound nodes and intersects the lists of every unbound
    node; the older pairwise operator does so for one unbound node. Both read tuples of factorized
    tables through value vectors, whose selected positions and nulls are selection vectors and null
    masks. The values of the columns (integers, 128-bit integers, decimals, dates, timestamps,
    intervals) are computed, printed and parsed by the type library.

    Below them is the storage. The rows of a node table are in node groups of chunked groups; each row
    carries the versions of its insertion and its deletion. A transaction inserts into a local table and
    marks the rows it deletes; at its commit the local rows are appended, and the records of its undo
    buffer say which versions get the timestamp of the commit, or are taken back by a rollback. An updated
    value goes to a version of its vector of 2048 rows, in a chain of versions beside the column. The
    integers of a column are packed into the pages of its file with as few bits as their minimum and
    maximum allow, and are updated in place where the new values keep that packing. Pages of the file are
    handed out by the page manager, which keeps free pages in lists by size, merges them at the end of a
    checkpoint and serializes them with the metadata.

    ** Files

    - [Prelude]: ordered iteration of sets and maps, folds that can fail, machine integers, the error
      monad [Res], lists.
    - [SimpleGraph], [Components], [BasicPaths], [CycleJoin]: [query_graph_simple.hpp] of
      [src/src/include/binder/query/]: [struct Graph]; [getConnectedSubgraphs]; [extendPath] and
      [findBasicCycleIntersection]; [findCycleJoin], [compareCycleJoin] and [findBestCycleJoin].
    - [InternalId]: [internalID_t] of [src/src/common/types/types.cpp].
    - [MultiwayIntersect], [MultiwayOperator]: [intersect_multiway.cpp] of
      [src/src/processor/operator/intersect/]: cursors and the intersection of sorted lists; probing,
      ordering, and the enumeration of the results.
    - [MultiwayBuild]: [intersect_multiway_build.h] of
      [src/src/include/processor/operator/intersect/].
    - [Intersect]: [intersect.cpp] of [src/src/processor/operator/intersect/].
    - [FactorizedTable], [JoinHashTable]: [factorized_table.cpp] of [src/src/processor/result/] and
      [join_hash_table.cpp] of [src/src/processor/operator/hash_join/].
    - [NullMask], [SelVector]: [null_mask.cpp], [sel_vector.cpp] and parts of [value_vector.cpp] of
      [src/src/common/].
    - [Int128], [CheckedArith]: [int128_t.cpp] of [src/src/common/types/] and the overflow-checked
      operations of [src/src/function/arithmetic/].
    - [Date], [Timestamp], [Interval]: [date_t.cpp], [dtime_t.cpp], [timestamp_t.cpp] and
      [interval_t.cpp] of [src/src/common/types/] with the printers of [cast_helpers.h].
    - [StringCast]: [cast_string_non_nested_functions.h] of
      [src/src/include/function/cast/functions/].
    - [Serialize]: [in_mem_file_writer.cpp], [serializer.h] and [deserializer.h] of
      [src/src/common/serializer/] and its headers.
    - [BitPacking]: [bitpacking_utils.cpp] and [bitpacking_int128.cpp] of [src/src/storage/compression/], and
      [bitpacking.cpp] and [bitpackinghelpers.h] of [src/third_party/fastpfor/fastpfor/].
    - [Compression]: [compression.cpp] of [src/src/storage/compression/] for integers, with its headers, and
      the choice of the compression in [column_chunk_metadata.cpp] of [src/src/storage/table/].
    - [FreeSpace]: [free_space_manager.cpp], [page_manager.cpp] and [optimistic_allocator.cpp] of
      [src/src/storage/], with what they use of [file_handle.cpp] and [checkpointer.cpp].
    - [VersionInfo], [NodeGroup]: [version_info.cpp], [chunked_node_group.cpp], [node_group.cpp],
      [node_group_collection.cpp] and [node_table.cpp] of [src/src/storage/table/], and
      [undo_buffer.cpp] of [src/src/storage/].
    - [ColumnUpdates]: [update_info.cpp] and [column_chunk.cpp] of [src/src/storage/table/], and the records
      of updates of [undo_buffer.cpp].
    - [LocalTable]: [local_node_table.cpp] of [src/src/storage/local_storage/].
    - [Transactions]: [transaction_manager.cpp] and [transaction.cpp] of [src/src/transaction/], and
      [local_storage.cpp] of [src/src/storage/local_storage/].

    ** State, effects and errors

    Sets and maps of names are [gset] and [gmap], read in the order of the keys where the code iterates.
    Functions that change an object return the new one; memory shared by lists that alias each other
    (the lists sorted in place by the multiway operator) is an explicit store. In the graph, join,
    vector and storage files a failed assertion or an access out of range is [None]; in the type files a
    result is [Ret] or [Throw] with the kind of exception. A storage operation that throws returns the
    state it leaves behind together with the exception. Transactions interleave as sequences of the
    operations of the manager and of the table, in the order in which their locks serialise them. A run of
    operations of a column lists what each of them returned or threw. Versions of updated values, which
    point to each other, are objects of a heap from which destroyed ones are removed. A page of [BitPacking] and
    [Compression] is its list of bytes, read and written in little-endian fields. Integers are in [Z], with the
    wrap-around of their width written out; signed overflow wraps around as on the targets. A character is an
    [ascii], a buffer a list.

    Parameters stand for code outside of the sources: [std::shuffle] (any permutation), [std::sort] (any
    sorted permutation; also in the free space manager), the hash of a key in the join theorems (any
    function), lower-casing by the UTF-8 library (which keeps lower-case ASCII letters). Arguments stand
    for parts of the sources that are not modelled: whether a zone map skips a scan ([cg_scan]), whether
    an index finds a key ([local_insert], [nt_insert]), whether the insertion into an index fails at the
    commit ([ls_commit]), and when the active transactions leave ([waitUntilAllTransactionsLeave]); the
    theorems hold for all of their values.

    ** What is shown

    - Graphs ([SimpleGraph], [Components], [BasicPaths], [CycleJoin]): operations are those of sets of
      edges; components are the classes of connectedness; pruning returns the 2-core and the basic paths
      are exactly its maximal chains; the join that the search returns is valid for the pattern. The order
      of joins by [compareCycleJoin] is characterised: two joins can each be preferred to the other.
    - Joins ([MultiwayIntersect] to [Intersect]): a filled and finalized hash table returns for a key
      exactly its tuples; the interface [ProbeLaw] carries that to the multiway operator. The intersection
      returns each common value as often as the product of its repetitions modulo [2 ^ 64]. The output
      vectors share the size of their selection, so results of the operator are results of the join, and
      all of them exactly when no vector is cut short by the size that another one set; a row that is lost
      is [sample_output]. The pairwise operator returns the intersection for lists without repetitions,
      and there agrees with the multiway one.
    - Vectors ([NullMask], [SelVector]): copies and fills of bit ranges at any offsets change exactly the
      bits they should, and the flag that promises the absence of nulls stays true.
    - Numbers ([Int128], [CheckedArith], [StringCast]): operations are exact or report the overflow; both
      ways of multiplying agree; a cast from a string succeeds exactly for numerals in range. The loop
      over the digits is proved once against the interface [CastLaw], with an instance for machine
      integers and one for 128-bit integers.
    - Times ([Date], [Timestamp], [Interval]): conversions agree with the Gregorian calendar; arithmetic
      moves by exact amounts; what is printed is read back.
    - Pages ([Serialize], [FreeSpace]): allocated and free ranges never overlap, whatever the order of
      allocations, frees and checkpoints; a request gets the least sufficient range; a checkpoint merges
      neighbours and gives the end of the file back; the pages reserved for the metadata suffice, and the
      free space that is written is read back.
    - Bytes of columns ([BitPacking], [Compression]): the unrolled routines for chunks of 32 values agree with
      those for single values, for every integer type and width, against the interface [WordLaws] that
      machine words and 128-bit integers implement; values that are compressed are read back, unless one is
      the least of a signed type, and an update in place that the check allows is one of the list of the
      values; a chunk with the least value of a signed type returns zero for it, and the check before an
      update reads the null mask at a wrong position and so allows updates that fail.
    - Versions ([VersionInfo], [NodeGroup], [LocalTable]): a scan selects the rows that are visible one by
      one; a deletion throws exactly for a row that another transaction deleted; each operation of a table
      is one of the list of its rows' versions.
    - Updates ([ColumnUpdates]): with one writer at a time, what transactions read of a column is what a store
      of snapshots holds; scans read what lookups read; as long as nothing was rolled back, every update and
      commit returns and throws nothing; in every run, an update of a vector below a version that was rolled
      back reads through a pointer to a destroyed object.
    - Transactions ([Transactions]): without concurrent writers, in every reachable database there is at most one writer, the snapshot
      of a transaction is not changed by others, a commit makes exactly the inserted rows visible and the
      deleted ones invisible to later transactions, a rollback leaves nothing, and every operation returns
      as long as no commit failed.

    Theorems without a number state where the code departs from what it means to do, such as
    [numOfEdge_ignores_edges], [int128_cast_drops_zeros] or [interval_comparison_inconsistent].

    ** Fuel

    Loops that are not structural take fuel, and the theorems show that what the code's entry points pass
    is enough: [closure], [extendPath] and [prune] get more rounds than there are nodes; the loops over
    cursors, chunks and combinations as many as there are elements; [raise] and [lower] of [Date] the
    number of 400-year periods; [format_loop] 32 rounds, more than a 64-bit number has digits;
    [toString_loop] 39, the digits of a 128-bit number; [interval_loop] one more than there are
    characters, which [interval_parser_terminates] shows to be as good as any larger number; [write_loop]
    the number of bytes; [checkpointed_loop] the number of entries; [ng_append_loop] the number
    of rows; [search_version], [own_version] and [destroy] one more than there are addresses of versions;
    [set_chunks] and [unpack_chunks] the number of values;
    [waitUntilAllTransactionsLeave] one more than the number of waits within the timeout.
    [ngc_append_loop] has no bound of its own, since the code can loop forever
    ([append_blocked_after_rollback]); [operations_return] gives one for the states in which it does not.

    ** Not modelled

    Parser, binder, catalog, the rest of the planner and the optimizer, and the application interfaces:
    they manipulate trees of polymorphic objects, and no code above depends on more of them than the
    parameters say. Of the storage: the buffer manager, the write-ahead log, the shadow file and the
    checkpoint of tables (files and frames), the buffers of column chunks, the compression of booleans and
    of floating point numbers, indexes, and relationship tables; a database of [Transactions] has one node
    table, whose columns are not connected to the pages of [Compression]. Within the modelled files: the bytes of a column and the overflow buffers of a factorized table, unflat blocks, the
    vectorised and type-generic hashing and comparison of keys, locks and atomics (a table is filled by one
    thread at a time), floating point numbers, regular expressions, metrics and printing for debugging. *)

From stdpp Require Export gmap strings list sorting fin_maps.
From Stdlib Require Export ZArith Lia.

(** ** Ordered iteration of [std::set<std::string>] and [std::map] *)

(** A [std::set<Node>] is a [gset string]; a range-for over it visits the
    elements in increasing lexicographic order. *)
Definition set_iter (X : gset string) : list string :=
  merge_sort String.le (elements X).

(** A range-for over a [std::map<Node, A>] visits the keys in increasing order. *)
Definition map_iter {A} (m : gmap string A) : list (string * A) :=
  omap (λ k, (k,.) <$> m !! k) (set_iter (dom m)).

(** The element an iterator of [X] standing on [x] moves to. *)
Definition set_next (X : gset string) (x : string) : option string :=
  head (filter (λ y, String.ltb x y) (set_iter X)).

(** ** [operator[]] of a map of sets *)

(** Reading through [operator[]]: a missing key reads as the empty set. *)
Definition set_at (m : gmap string (gset string)) (k : string) : gset string :=
  default ∅ (m !! k).

(** [operator[]] inserts an empty set for a missing key. *)
Definition map_touch (m : gmap string (gset string)) (k : string) :
    gmap string (gset string) :=
  match m !! k with Some _ => m | None => <[k := ∅]> m end.

(** [m[k].insert(x)] and [m[k].erase(x)]. *)
Definition map_insert_elem (m : gmap string (gset string)) (k x : string) :
    gmap string (gset string) :=
  <[k := {[x]} ∪ set_at m k]> m.
Definition map_erase_elem (m : gmap string (gset string)) (k x : string) :
    gmap string (gset string) :=
  <[k := set_at m k ∖ {[x]}]> m.

(** ** Loops whose body can fail an assertion *)

Fixpoint ofold {A B} (f : B → A → option B) (b : B) (l : list A) : option B :=
  match l with
  | [] => Some b
  | a :: l => b' ← f b a; ofold f b' l
  end.

(** ** Machine integers *)

Definition u32 (z : Z) : Z := z `mod` 2 ^ 32.
Definition u64 (z : Z) : Z := z `mod` 2 ^ 64.

(** The values of 64 and 32 bits read as signed numbers. *)
Definition i64 (z : Z) : Z := ((z + 2 ^ 63) `mod` 2 ^ 64 - 2 ^ 63)%Z.
Definition i32 (z : Z) : Z := ((z + 2 ^ 31) `mod` 2 ^ 32 - 2 ^ 31)%Z.

(** ** Results and exceptions *)

(** The exceptions of the code; [AssertionFailure] stands for a failed assertion and for an access
    out of range. *)
Inductive exn :=
  | OverflowException | std_overflow_error | RuntimeException | ConversionException | AssertionFailure
  | TransactionManagerException | StorageException | NotImplementedException.

Inductive Res (A : Type) := Ret (a : A) | Throw (e : exn).
Arguments Ret {A} _.
Arguments Throw {A} _.

#[export] Instance Res_bind : MBind Res := λ A B f m, match m with Ret a => f a | Throw e => Throw e end.

#[export] Instance exn_eq_dec : EqDecision exn.
Proof. solve_decision. Defined.

#[export] Instance Res_eq_dec {A} `{EqDecision A} : EqDecision (Res A).
Proof. solve_decision. Defined.

(** ** Lists *)

(** Number of occurrences of [x]. *)
Fixpoint occ {A} `{EqDecision A} (x : A) (l : list A) : nat :=
  match l with
  | [] => 0
  | y :: l => (if decide (x = y) then 1 else 0) + occ x l
  end.

Definition prod_list (l : list nat) : nat := foldr Nat.mul 1 l.

Create HintDb cj.
Create Rewrite HintDb cj.

Declare Scope cj_scope.
Delimit Scope cj_scope with cj.
Notation "m ⟪ k ⟫" := (set_at m k) (at level 1, format "m ⟪ k ⟫") : cj_scope.
Open Scope cj_scope.

(** Decides a closed goal by evaluating its [Decision] instance. *)
Ltac by_eval := refine (bool_decide_unpack _ _); vm_compute; exact I.

(** Closes the goals left by case analysis on decidable tests of a model. *)
Ltac dec_tac :=
  repeat (first [case_decide | case_match]); simplify_eq/=; try done; try lia.

(** ** Facts on machine integers *)

Section MachineIntegers.
#[local] Open Scope Z_scope.

Lemma i64_id z : - 2 ^ 63 ≤ z < 2 ^ 63 → i64 z = z.
Proof. intros H. unfold i64. rewrite Z.mod_small; lia. Qed.

Lemma i64_range z : - 2 ^ 63 ≤ i64 z < 2 ^ 63.
Proof. unfold i64. pose proof (Z.mod_pos_bound (z + 2 ^ 63) (2 ^ 64)). lia. Qed.

Lemma i64_plus x y : i64 (i64 x + y) = i64 (x + y).
Proof.
  unfold i64. f_equal. rewrite <-(Zplus_mod_idemp_l (x + y)).
  replace ((x + 2 ^ 63) `mod` 2 ^ 64 - 2 ^ 63 + y + 2 ^ 63) with ((x + 2 ^ 63) `mod` 2 ^ 64 + y) by lia.
  rewrite Zplus_mod_idemp_l. rewrite Zplus_mod_idemp_l. f_equal. lia.
Qed.

Lemma i64_minus x y : i64 (i64 x - y) = i64 (x - y).
Proof. apply (i64_plus x (- y)). Qed.

Lemma u64_range z : 0 ≤ u64 z < 2 ^ 64.
Proof. unfold u64. apply Z.mod_pos_bound. lia. Qed.

Lemma u64_id z : 0 ≤ z < 2 ^ 64 → u64 z = z.
Proof. apply Z.mod_small. Qed.

(** A 64-bit sum or difference in range up to one wrap. *)
Lemma u64_over z : 2 ^ 64 ≤ z < 2 ^ 65 → u64 z = z - 2 ^ 64.
Proof. intros H. unfold u64. symmetry. apply Z.mod_unique_pos with 1; lia. Qed.

Lemma u64_under z : - 2 ^ 64 ≤ z < 0 → u64 z = z + 2 ^ 64.
Proof. intros H. unfold u64. symmetry. apply Z.mod_unique_pos with (-1); lia. Qed.

Lemma u32_id z : 0 ≤ z < 2 ^ 32 → u32 z = z.
Proof. apply Z.mod_small. Qed.

Lemma i32_id z : - 2 ^ 31 ≤ z < 2 ^ 31 → i32 z = z.
Proof. intros H. unfold i32. rewrite Z.mod_small; lia. Qed.

Lemma i32_plus x y : i32 (i32 x + y) = i32 (x + y).
Proof.
  unfold i32. f_equal. rewrite <-(Zplus_mod_idemp_l (x + y)).
  replace ((x + 2 ^ 31) `mod` 2 ^ 32 - 2 ^ 31 + y + 2 ^ 31) with ((x + 2 ^ 31) `mod` 2 ^ 32 + y) by lia.
  rewrite Zplus_mod_idemp_l. rewrite Zplus_mod_idemp_l. f_equal. lia.
Qed.

End MachineIntegers.

(** ** Facts on ordered iteration *)

Lemma elem_of_set_iter X x : x ∈ set_iter X ↔ x ∈ X.
Proof. unfold set_iter. by rewrite merge_sort_Permutation, elem_of_elements. Qed.

Lemma NoDup_set_iter X : NoDup (set_iter X).
Proof. unfold set_iter. rewrite merge_sort_Permutation. apply NoDup_elements. Qed.

Lemma set_iter_sorted X : StronglySorted String.le (set_iter X).
Proof. apply (StronglySorted_merge_sort _). Qed.

Lemma length_set_iter X : length (set_iter X) = size X.
Proof. unfold set_iter. by rewrite merge_sort_Permutation. Qed.

Lemma set_iter_empty : set_iter ∅ = [].
Proof. reflexivity. Qed.

Lemma list_to_set_set_iter X : list_to_set (set_iter X) = X.
Proof. apply set_eq. intros x. rewrite elem_of_list_to_set. apply elem_of_set_iter. Qed.

Lemma elem_of_map_iter {A} (m : gmap string A) k a :
  (k, a) ∈ map_iter m ↔ m !! k = Some a.
Proof.
  unfold map_iter. rewrite list_elem_of_omap. split.
  - intros (k' & _ & Hk). destruct (m !! k') eqn:E; simplify_eq/=; done.
  - intros Hk. exists k. rewrite elem_of_set_iter, elem_of_dom, Hk.
    split; [by eexists | done].
Qed.

Lemma map_iter_fst {A} (m : gmap string A) : (map_iter m).*1 = set_iter (dom m).
Proof.
  unfold map_iter.
  assert (∀ l, (∀ k, k ∈ l → k ∈ dom m) →
    (omap (λ k, (k,.) <$> m !! k) l).*1 = l) as H.
  { induction l as [|k l IH]; intros Hl; [done|]. simpl.
    destruct (proj1 (elem_of_dom m k) (Hl k ltac:(set_solver))) as [a Ha].
    rewrite Ha. simpl. f_equal. apply IH. set_solver. }
  apply H. intros k. by rewrite elem_of_set_iter.
Qed.

Lemma NoDup_map_iter {A} (m : gmap string A) : NoDup (map_iter m).
Proof. apply (NoDup_fmap_1 fst). rewrite map_iter_fst. apply NoDup_set_iter. Qed.

(** ** The string order *)

Lemma string_ltb_spec x y : String.ltb x y = true ↔ String.le x y ∧ x ≠ y.
Proof.
  unfold String.ltb, String.le, String.leb.
  destruct (String.compare x y) eqn:E.
  - apply String.compare_eq_iff in E. naive_solver.
  - split; [intros _; split; [done|]|done]. intros ->.
    pose proof (String.compare_antisym y y) as Hc. rewrite E in Hc. done.
  - naive_solver.
Qed.

Lemma set_next_Some X x y :
  set_next X x = Some y →
  y ∈ X ∧ String.ltb x y = true ∧
  (∀ z, z ∈ X → String.ltb x z = true → String.le y z).
Proof.
  unfold set_next. intros H.
  assert (StronglySorted String.le (filter (λ y, String.ltb x y) (set_iter X))) as Hs.
  { pose proof (set_iter_sorted X) as Hs. revert Hs.
    generalize (set_iter X) as l. clear H. induction 1 as [|a l Hl IH Ha]; [constructor|].
    rewrite filter_cons. case_decide; [|done]. constructor; [done|].
    rewrite Forall_forall in Ha |- *. intros z [_ ?]%list_elem_of_filter. auto. }
  destruct (filter _ _) as [|a l] eqn:E; simplify_eq/=.
  assert (y ∈ filter (λ y, String.ltb x y) (set_iter X)) as Hy by (rewrite E; set_solver).
  apply list_elem_of_filter in Hy as [Hlt Hy]. rewrite elem_of_set_iter in Hy.
  split; [done|]. split; [by apply Is_true_true|]. intros z Hz Hxz.
  assert (z ∈ filter (λ y, String.ltb x y) (set_iter X)) as Hz'.
  { apply list_elem_of_filter. rewrite elem_of_set_iter. split; [by apply Is_true_true|done]. }
  rewrite E in Hz'. apply elem_of_cons in Hz' as [->|Hz']; [reflexivity|].
  inversion Hs as [|? ? _ Hall]; subst. rewrite Forall_forall in Hall. by apply Hall.
Qed.

Lemma set_next_None X x : set_next X x = None → ∀ z, z ∈ X → String.ltb x z = false.
Proof.
  unfold set_next. intros H z Hz. destruct (String.ltb x z) eqn:E; [|done].
  assert (z ∈ filter (λ y, String.ltb x y) (set_iter X)) as Hz'.
  { apply list_elem_of_filter. rewrite elem_of_set_iter. split; [by apply Is_true_true|done]. }
  destruct (filter _ _); [by apply not_elem_of_nil in Hz'|done].
Qed.

(** ** Invariant rules for loops *)

Lemma ofold_app {A B} (f : B → A → option B) b l1 l2 :
  ofold f b (l1 ++ l2) = ofold f b l1 ≫= λ b', ofold f b' l2.
Proof.
  revert b. induction l1 as [|a l1 IH]; intros b; simpl; [done|].
  destruct (f b a); simpl; auto.
Qed.

(** Total rule: the invariant may mention the elements already visited. *)
Lemma ofold_total {A B} (f : B → A → option B) (I : list A → B → Prop) l b :
  I [] b →
  (∀ done a rest b, l = done ++ a :: rest → I done b →
     ∃ b', f b a = Some b' ∧ I (done ++ [a]) b') →
  ∃ b', ofold f b l = Some b' ∧ I l b'.
Proof.
  intros H0 Hstep.
  assert (∀ rest done b, l = done ++ rest → I done b →
    ∃ b', ofold f b rest = Some b' ∧ I l b') as Haux.
  { induction rest as [|a rest IH]; intros dn b0 El Hb.
    - rewrite app_nil_r in El. subst. by exists b0.
    - destruct (Hstep dn a rest b0 El Hb) as (b1 & Hf & Hb1). simpl. rewrite Hf. simpl.
      apply (IH (dn ++ [a])); [by rewrite <-app_assoc|done]. }
  by apply (Haux l []).
Qed.

(** Partial rule: if the loop returns, the invariant holds. *)
Lemma ofold_partial {A B} (f : B → A → option B) (I : list A → B → Prop) l b b' :
  I [] b →
  (∀ done a rest b b', l = done ++ a :: rest → I done b → f b a = Some b' →
     I (done ++ [a]) b') →
  ofold f b l = Some b' → I l b'.
Proof.
  intros H0 Hstep.
  assert (∀ rest done b, l = done ++ rest → I done b →
    ofold f b rest = Some b' → I l b') as Haux.
  { induction rest as [|a rest IH]; intros dn b0 El Hb; simpl.
    - rewrite app_nil_r in El. intros. by simplify_eq.
    - intros Hf. destruct (f b0 a) as [b1|] eqn:E; simplify_eq/=.
      apply (IH (dn ++ [a]) b1); [by rewrite <-app_assoc|eauto|done]. }
  by apply (Haux l []).
Qed.

Lemma foldl_inv {A B} (f : B → A → B) (I : list A → B → Prop) l b :
  I [] b →
  (∀ done a rest b, l = done ++ a :: rest → I done b → I (done ++ [a]) (f b a)) →
  I l (foldl f b l).
Proof.
  intros H0 Hstep.
  assert (∀ rest done b, l = done ++ rest → I done b → I l (foldl f b rest)) as Haux.
  { induction rest as [|a rest IH]; intros dn b0 El Hb; simpl.
    - rewrite app_nil_r in El. by subst.
    - apply (IH (dn ++ [a])); [by rewrite <-app_assoc|eauto]. }
  by apply (Haux l []).
Qed.

Lemma ofold_fmap {A A' B} (f : B → A' → option B) (h : A → A') b l :
  ofold f b (h <$> l) = ofold (λ b a, f b (h a)) b l.
Proof.
  revert b. induction l as [|a l IH]; intros b; simpl; [done|].
  destruct (f b (h a)); simpl; auto.
Qed.

Lemma ofold_ext {A B} (f g : B → A → option B) b l :
  (∀ b a, a ∈ l → f b a = g b a) → ofold f b l = ofold g b l.
Proof.
  revert b. induction l as [|a l IH]; intros b H; simpl; [done|].
  rewrite H by set_solver. destruct (g b a); simpl; [|done]. apply IH. set_solver.
Qed.

(** A loop whose body never fails is a fold. *)
Lemma ofold_Some {A B} (f : B → A → B) b l :
  ofold (λ b a, Some (f b a)) b l = Some (foldl f b l).
Proof. revert b. induction l as [|a l IH]; intros b; simpl; auto. Qed.

Lemma NoDup_reverse {A} (l : list A) : NoDup (reverse l) ↔ NoDup l.
Proof. by rewrite reverse_Permutation. Qed.

(** ** Occurrence counts *)

Section Occ.
Context {A : Type} `{EqDecision A}.
Implicit Types (x : A) (l : list A).

Lemma occ_app x l1 l2 : occ x (l1 ++ l2) = occ x l1 + occ x l2.
Proof. induction l1 as [|y l1 IH]; simpl; [done|rewrite IH; lia]. Qed.

Lemma occ_replicate x y n : occ x (replicate n y) = if decide (x = y) then n else 0.
Proof. induction n as [|n IH]; simpl; [by case_decide|rewrite IH; case_decide; lia]. Qed.

Lemma occ_Permutation x l1 l2 : l1 ≡ₚ l2 → occ x l1 = occ x l2.
Proof. induction 1; simpl; lia. Qed.

Lemma occ_pos x l : 0 < occ x l ↔ x ∈ l.
Proof.
  induction l as [|y l IH]; simpl; [rewrite elem_of_nil; lia|].
  rewrite elem_of_cons, <-IH. case_decide; [naive_solver lia|].
  split; [lia|naive_solver].
Qed.

Lemma occ_zero x l : occ x l = 0 ↔ x ∉ l.
Proof. rewrite <-occ_pos. lia. Qed.

Lemma occ_concat x (ls : list (list A)) : occ x (concat ls) = sum_list (occ x <$> ls).
Proof. induction ls as [|l ls IH]; simpl; [done|]. by rewrite occ_app, IH. Qed.

Lemma Permutation_occ l1 l2 : (∀ x, occ x l1 = occ x l2) → l1 ≡ₚ l2.
Proof.
  revert l2. induction l1 as [|x l1 IH]; intros l2 H.
  - destruct l2 as [|y l2]; [done|]. specialize (H y). simpl in H. rewrite decide_True in H; done.
  - assert (x ∈ l2) as Hx.
    { apply occ_pos. rewrite <-H. simpl. rewrite decide_True by done. lia. }
    apply list_elem_of_split in Hx as (k1 & k2 & ->).
    rewrite <-Permutation_middle. constructor. apply IH. intros y.
    specialize (H y). simpl in H. rewrite occ_app in *. simpl in H. lia.
Qed.
End Occ.

Lemma prod_list_pos l : 0 < prod_list l ↔ Forall (λ n, 0 < n) l.
Proof.
  induction l as [|n l IH]; simpl; [split; [by constructor|lia]|].
  rewrite Forall_cons, <-IH. nia.
Qed.

(** ** Facts on [operator[]] *)

Lemma set_at_insert m k k' X :
  set_at (<[k := X]> m) k' = if decide (k = k') then X else set_at m k'.
Proof. unfold set_at. rewrite lookup_insert. by case_decide. Qed.

Lemma set_at_touch m k k' : set_at (map_touch m k) k' = set_at m k'.
Proof.
  unfold map_touch. destruct (m !! k) eqn:E; [done|]. rewrite set_at_insert.
  case_decide; [|done]. subst. unfold set_at. by rewrite E.
Qed.

Lemma set_at_lookup m k X : m !! k = Some X → set_at m k = X.
Proof. unfold set_at. by intros ->. Qed.

Lemma dom_touch m k : dom (map_touch m k) = {[k]} ∪ dom m.
Proof.
  unfold map_touch. destruct (m !! k) eqn:E; [|apply dom_insert_L].
  apply elem_of_dom_2 in E. set_solver.
Qed.

#[export] Hint Rewrite set_at_insert set_at_touch : cj.
#[export] Hint Resolve NoDup_set_iter set_iter_sorted : cj.

Lemma map_iter_length {A} (m : gmap string A) : length (map_iter m) = size m.
Proof. by rewrite <-(length_fmap fst), map_iter_fst, length_set_iter, size_dom. Qed.

(** ** Filters *)

Lemma filter_fmap {A B} (f : A → B) (P : B → Prop) `{∀ x, Decision (P x)} (l : list A) :
  filter P (f <$> l) = f <$> filter (λ x, P (f x)) l.
Proof.
  induction l as [|x l IH]; [done|]. cbn [fmap list_fmap]. rewrite !filter_cons.
  destruct (decide (P (f x))); cbn [fmap list_fmap]; by rewrite <-IH.
Qed.

Lemma filter_all {A} (P : A → Prop) `{∀ x, Decision (P x)} (l : list A) : Forall P l → filter P l = l.
Proof. induction 1 as [|x l Hx _ IH]; [done|]. by rewrite filter_cons_True, IH. Qed.

Lemma filter_none {A} (P : A → Prop) `{∀ x, Decision (P x)} (l : list A) : Forall (λ x, ¬ P x) l → filter P l = [].
Proof. induction 1 as [|x l Hx _ IH]; [done|]. by rewrite filter_cons_False, IH. Qed.

Lemma filter_reverse {A} (P : A → Prop) `{∀ x, Decision (P x)} (l : list A) :
  filter P (reverse l) = reverse (filter P l).
Proof.
  induction l as [|x l IH]; [done|]. rewrite reverse_cons, filter_app, IH, !filter_cons, filter_nil.
  case_decide; [by rewrite reverse_cons|by rewrite app_nil_r].
Qed.

Lemma filter_ext_in {A} (P Q : A → Prop) `{∀ x, Decision (P x)} `{∀ x, Decision (Q x)} (l : list A) :
  Forall (λ x, P x ↔ Q x) l → filter P l = filter Q l.
Proof.
  induction 1 as [|x l Hx _ IH]; [done|]. rewrite !filter_cons, IH.
  destruct (decide (P x)), (decide (Q x)); tauto.
Qed.

(** The positions of a list paired with its elements. *)
Lemma imap_pair_fst {A} (l : list A) : (imap (λ i x, (i, x)) l).*1 = seq 0 (length l).
Proof.
  apply list_eq. intros i. rewrite list_lookup_fmap, list_lookup_imap.
  destruct (l !! i) as [x|] eqn:E; simpl.
  - apply lookup_lt_Some in E. symmetry. by apply lookup_seq_lt.
  - apply lookup_ge_None in E. symmetry. by apply lookup_seq_ge.
Qed.

Lemma imap_pair_snd {A} (l : list A) : (imap (λ i x, (i, x)) l).*2 = l.
Proof.
  apply list_eq. intros i. rewrite list_lookup_fmap, list_lookup_imap. by destruct (l !! i).
Qed.

Lemma elem_of_concat {A} (x : A) (ls : list (list A)) : x ∈ concat ls ↔ ∃ l, x ∈ l ∧ l ∈ ls.
Proof.
  induction ls as [|l ls IH]; simpl; [set_solver|]. rewrite elem_of_app, IH.
  setoid_rewrite elem_of_cons. naive_solver.
Qed.

Lemma length_omap_le {A B} (f : A → option B) l : length (omap f l) ≤ length l.
Proof. induction l as [|x l IH]; [done|]. csimpl. destruct (f x); simpl; lia. Qed.

(** The element of [seq] after a prefix. *)
Lemma seq_middle n (dn rest : list nat) i : seq 0 n = dn ++ i :: rest → i = length dn ∧ length dn < n.
Proof.
  intros El. pose proof (f_equal length El) as Hlen. rewrite length_seq, length_app in Hlen. simpl in Hlen.
  assert (seq 0 n !! length dn = Some i) as Hi by (rewrite El; by apply list_lookup_middle).
  apply lookup_seq in Hi. lia.
Qed.

(** ** Lists split into blocks of one size *)

Section Blocks.
Context {A : Type}.
Implicit Types (ls : list (list A)).

Lemma concat_lookup_div cap ls i :
  0 < cap → Forall (λ l, length l = cap) ls →
  (l ← ls !! (i / cap); l !! (i `mod` cap)) = concat ls !! i.
Proof.
  intros Hcap Hls. revert i. induction Hls as [|l ls Hl _ IH]; intros i; [done|].
  cbn [concat]. destruct (decide (i < cap)).
  - by rewrite Nat.div_small, Nat.mod_small, lookup_app_l by lia.
  - rewrite lookup_app_r by lia. rewrite Hl, <-IH.
    assert (i / cap = S ((i - cap) / cap)) as ->.
    { replace i with ((i - cap) + 1 * cap) at 1 by lia. rewrite Nat.div_add by lia. lia. }
    assert (i `mod` cap = (i - cap) `mod` cap) as ->; [|done].
    replace i with ((i - cap) + 1 * cap) at 1 by lia. by rewrite Nat.Div0.mod_add.
Qed.

Lemma length_concat_blocks cap ls :
  Forall (λ l, length l = cap) ls → length (concat ls) = length ls * cap.
Proof. induction 1 as [|l ls Hl _ IH]; simpl; [done|]. rewrite length_app. lia. Qed.

End Blocks.
