(* ===== verification/SimpleGraph.v ===== *)
(** The undirected query graph of [src/src/include/binder/query/query_graph_simple.hpp]:
    [struct Graph] with every operation, and [pathToGraph].
    [None] stands for a failed [KU_ASSERT_UNCONDITIONAL] (or, where the comment says so,
    for undefined behaviour). *)

From S2P Require Import Prelude.

Abbreviation Node := string.
Abbreviation Nodes := (gset string).
Abbreviation Path := (list string).

Record Graph := mkGraph {
  nodes : gset string;
  edges : gmap string (gset string)
}.

Definition emptyGraph : Graph := mkGraph ∅ ∅.

Module Graph.

Definition isEmpty (g : Graph) : bool := bool_decide (size (nodes g) = 0).

Definition getNeighbors (g : Graph) (src : Node) : option Nodes := edges g !! src.

Definition isConnectedAndDifferent (g other : Graph) : bool :=
  let '(is_connected, has_new_node) :=
    foldl (λ '(is_connected, has_new_node) v,
             if decide (v ∉ nodes g) then (is_connected, true) else (true, has_new_node))
          (false, false) (set_iter (nodes other)) in
  is_connected && has_new_node.

Definition addNodeMayExists (g : Graph) (new_node : Node) : Graph :=
  if decide (new_node ∈ nodes g) then g
  else mkGraph ({[new_node]} ∪ nodes g) (<[new_node := ∅]> (edges g)).

Definition addNode (g : Graph) (new_node : Node) : option Graph :=
  if decide (new_node ∈ nodes g) then None
  else Some (mkGraph ({[new_node]} ∪ nodes g) (<[new_node := ∅]> (edges g))).

Definition addEdgeMayExists (g : Graph) (src dst : Node) : Graph :=
  let e := map_touch (edges g) src in
  if decide (dst ∈ set_at e src) then mkGraph (nodes g) e
  else mkGraph (nodes g) (map_insert_elem (map_insert_elem e src dst) dst src).

Definition addEdge (g : Graph) (src dst : Node) : option Graph :=
  if decide (src ∈ nodes g) then
    if decide (dst ∈ nodes g) then
      Some (mkGraph (nodes g) (map_insert_elem (map_insert_elem (edges g) src dst) dst src))
    else None
  else None.

(** The loop runs over [edges[node]] itself; with a self loop on [node] it erases the
    element it stands on, which is undefined behaviour: [None]. *)
Definition removeNode (g : Graph) (node : Node) : option Graph :=
  let e := map_touch (edges g) node in
  let neighbors := set_at e node in
  if decide (node ∈ neighbors) then None
  else
    let e' := foldl (λ e neighbor, map_erase_elem e neighbor node) e (set_iter neighbors) in
    Some (mkGraph (nodes g ∖ {[node]}) (delete node e')).

Definition removeEdge (g : Graph) (src dst : Node) : Graph :=
  mkGraph (nodes g) (map_erase_elem (map_erase_elem (edges g) src dst) dst src).

Definition removeEdgesFrom (g other : Graph) : option Graph :=
  ofold (λ g u,
    if decide (u ∈ nodes g) then
      nbrs ← getNeighbors other u;
      Some (foldl (λ g v,
              let e := map_touch (edges g) u in
              if decide (v ∈ set_at e u) then removeEdge (mkGraph (nodes g) e) u v
              else mkGraph (nodes g) e) g (set_iter nbrs))
    else Some g) g (set_iter (nodes other)).

Definition numOfNode (g : Graph) : nat := size (nodes g).

(** [count += edges.size()], as written in the source. *)
Definition numOfEdge (g : Graph) : option nat :=
  let count := foldl (λ count _, count + size (edges g)) 0 (map_iter (edges g)) in
  if decide (count `mod` 2 = 0) then Some (count / 2) else None.

Definition copy (g : Graph) : option Graph :=
  c ← ofold addNode emptyGraph (set_iter (nodes g));
  ofold (λ c '(src, dsts), ofold (λ c dst, addEdge c src dst) c (set_iter dsts))
    c (map_iter (edges g)).

Definition merge (g other : Graph) : option Graph :=
  merged ← copy g;
  let merged := foldl addNodeMayExists merged (set_iter (nodes other)) in
  ofold (λ merged u,
    nbrs ← getNeighbors other u;
    ofold (λ merged v, addEdge merged u v) merged (set_iter nbrs))
    merged (set_iter (nodes other)).

(** The pairs [(path[k-1], path[k])]. *)
Definition path_pairs (path : Path) : list (Node * Node) := zip path (tail path).

Definition mergeFrom (g : Graph) (path : Path) : Graph :=
  let g := foldl addNodeMayExists g path in
  foldl (λ g '(a, b), addEdgeMayExists g a b) g (path_pairs path).

Definition eqb (g other : Graph) : bool :=
  if decide (size (nodes g) ≠ size (nodes other)) then false
  else forallb (λ '(k, s), match edges other !! k with
                           | None => false
                           | Some s' => bool_decide (s' = s)
                           end) (map_iter (edges g)).

Definition toString (g : Graph) : string :=
  foldl (λ s node,
    let s := s +:+ "Node:" +:+ node +:+ ",Nbr:{" in
    let s := foldl (λ s nbr, s +:+ nbr +:+ ",") s (set_iter (set_at (edges g) node)) in
    s +:+ "},") "" (set_iter (nodes g)).

End Graph.

Definition pathToGraph (path : Path) : option Graph :=
  match path with
  | [] => Some emptyGraph
  | p0 :: _ =>
      g ← Graph.addNode emptyGraph p0;
      ofold (λ g '(a, b), g ← Graph.addNode g b; Graph.addEdge g a b) g
            (Graph.path_pairs path)
  end.

(** ** Well-formed graphs *)

(** The neighbours of [u] in [g]; [adj g u v]: [v] is one of them. *)
Definition nbrs_of (g : Graph) (u : Node) : Nodes := (edges g)⟪u⟫.
Definition adj (g : Graph) (u v : Node) : Prop := v ∈ (edges g)⟪u⟫.

#[export] Instance adj_dec g u v : Decision (adj g u v).
Proof. unfold adj. apply _. Defined.

(** The class invariant: [edges] has exactly the keys [nodes], and adjacency is symmetric. *)
Record graph_wf (g : Graph) : Prop := {
  wf_dom : dom (edges g) = nodes g;
  wf_sym : ∀ u v, adj g u v → adj g v u
}.

Definition loop_free (g : Graph) : Prop := ∀ u, ¬ adj g u u.

(** Consecutive nodes of a path, in either direction. *)
Definition path_edge (path : Path) (u v : Node) : Prop :=
  (u, v) ∈ Graph.path_pairs path ∨ (v, u) ∈ Graph.path_pairs path.

(** Reachability in a graph, by rules. *)
Inductive connected (g : Graph) (u : Node) : Node → Prop :=
  | connected_refl : u ∈ nodes g → connected g u u
  | connected_step v w : connected g u v → adj g v w → connected g u w.

Ltac adj_tac :=
  unfold adj, map_insert_elem, map_erase_elem in *; simpl in *;
  autorewrite with cj in *.

Section WfFacts.
Implicit Types (g other : Graph).

Lemma adj_nodes g u v : graph_wf g → adj g u v → u ∈ nodes g ∧ v ∈ nodes g.
Proof.
  intros [Hd Hs] H. rewrite <-Hd.
  assert (∀ a b, adj g a b → a ∈ dom (edges g)) as Hdom.
  { intros a b. unfold adj, set_at. rewrite elem_of_dom. destruct (edges g !! a); set_solver. }
  eauto.
Qed.

Lemma wf_lookup g u : graph_wf g → u ∈ nodes g → edges g !! u = Some (set_at (edges g) u).
Proof.
  intros [Hd _] Hu. rewrite <-Hd, elem_of_dom in Hu. destruct Hu as [X HX].
  by rewrite (set_at_lookup _ _ _ HX).
Qed.

Lemma getNeighbors_wf g u :
  graph_wf g → u ∈ nodes g → Graph.getNeighbors g u = Some (set_at (edges g) u).
Proof. apply wf_lookup. Qed.

Lemma graph_ext g1 g2 :
  graph_wf g1 → graph_wf g2 → nodes g1 = nodes g2 →
  (∀ u v, adj g1 u v ↔ adj g2 u v) → g1 = g2.
Proof.
  intros H1 H2 Hn Ha. destruct g1 as [n1 e1] eqn:E1, g2 as [n2 e2] eqn:E2. simpl in Hn. subst n2.
  f_equal. apply map_eq. intros k. destruct (decide (k ∈ n1)) as [Hk|Hk].
  - pose proof (wf_lookup _ k H1 Hk) as L1. pose proof (wf_lookup _ k H2 Hk) as L2.
    simpl in *. rewrite L1, L2. f_equal. apply set_eq. intros v. apply (Ha k v).
  - pose proof (wf_dom _ H1) as D1. pose proof (wf_dom _ H2) as D2. simpl in *.
    rewrite <-D1 in Hk at 1. rewrite D1, <-D2 in Hk.
    assert (k ∉ dom e1) as Hk1 by by rewrite D1, <-D2.
    apply not_elem_of_dom in Hk, Hk1. by rewrite Hk, Hk1.
Qed.

Lemma emptyGraph_wf : graph_wf emptyGraph.
Proof. split; [done|]. intros u v. unfold adj, set_at. simpl. by rewrite lookup_empty. Qed.

Lemma adj_empty u v : ¬ adj emptyGraph u v.
Proof. unfold adj, set_at. simpl. rewrite lookup_empty. set_solver. Qed.

(** *** Adding nodes *)

Lemma addNodeMayExists_nodes g n : nodes (Graph.addNodeMayExists g n) = {[n]} ∪ nodes g.
Proof. unfold Graph.addNodeMayExists. case_decide; set_solver. Qed.

Lemma addNodeMayExists_adj g n u v :
  graph_wf g → adj (Graph.addNodeMayExists g n) u v ↔ adj g u v.
Proof.
  intros Hg. unfold Graph.addNodeMayExists. case_decide as Hn; [done|]. adj_tac.
  case_decide; [subst|done]. split; [set_solver|].
  intros Ha. by destruct (adj_nodes _ _ _ Hg Ha).
Qed.

Lemma addNodeMayExists_wf g n : graph_wf g → graph_wf (Graph.addNodeMayExists g n).
Proof.
  intros Hg. split.
  - unfold Graph.addNodeMayExists. case_decide; [apply Hg|]. simpl.
    by rewrite dom_insert_L, (wf_dom _ Hg).
  - intros u v. rewrite !addNodeMayExists_adj by done. apply Hg.
Qed.

Lemma addNode_eq g n :
  n ∉ nodes g → Graph.addNode g n = Some (Graph.addNodeMayExists g n).
Proof. intros. unfold Graph.addNode, Graph.addNodeMayExists. by rewrite !decide_False. Qed.

(** *** Adding edges *)

Lemma addEdge_Some g s d :
  s ∈ nodes g → d ∈ nodes g →
  ∃ g', Graph.addEdge g s d = Some g' ∧ nodes g' = nodes g ∧
        ∀ u v, adj g' u v ↔ adj g u v ∨ (u = s ∧ v = d) ∨ (u = d ∧ v = s).
Proof.
  intros Hs Hd. unfold Graph.addEdge. rewrite !decide_True by done.
  eexists; split_and!; [done|done|]. intros u v. adj_tac.
  repeat case_decide; subst; set_solver.
Qed.

Lemma addEdge_wf g s d g' : graph_wf g → Graph.addEdge g s d = Some g' → graph_wf g'.
Proof.
  intros Hg. unfold Graph.addEdge. repeat case_decide; intros; simplify_eq.
  split; simpl.
  - unfold map_insert_elem. rewrite !dom_insert_L, (wf_dom _ Hg). set_solver.
  - intros u v. pose proof (wf_sym _ Hg u v) as Hsym. pose proof (wf_sym _ Hg v u) as Hsym'.
    adj_tac. repeat case_decide; subst; set_solver.
Qed.

Lemma addEdge_None g s d : Graph.addEdge g s d = None ↔ s ∉ nodes g ∨ d ∉ nodes g.
Proof. unfold Graph.addEdge. repeat case_decide; naive_solver. Qed.

(** On a well-formed graph that has both nodes, the unchecked variant is [addEdge]. *)
Lemma addEdgeMayExists_eq g s d :
  graph_wf g → s ∈ nodes g → d ∈ nodes g →
  Graph.addEdge g s d = Some (Graph.addEdgeMayExists g s d).
Proof.
  intros Hg Hs Hd. unfold Graph.addEdge, Graph.addEdgeMayExists.
  rewrite !decide_True by done.
  assert (map_touch (edges g) s = edges g) as ->.
  { unfold map_touch. by rewrite (wf_lookup _ _ Hg Hs). }
  case_decide as Hin; [|done]. f_equal. f_equal.
  pose proof (wf_sym _ Hg _ _ Hin) as Hin'. unfold adj in Hin'.
  assert (map_insert_elem (edges g) s d = edges g) as ->.
  { unfold map_insert_elem. apply insert_id. rewrite (wf_lookup _ _ Hg Hs). f_equal. set_solver. }
  unfold map_insert_elem. apply insert_id. rewrite (wf_lookup _ _ Hg Hd). f_equal. set_solver.
Qed.

(** *** Removing *)

Lemma removeEdge_adj g s d u v :
  adj (Graph.removeEdge g s d) u v ↔
  adj g u v ∧ ¬ (u = s ∧ v = d) ∧ ¬ (u = d ∧ v = s).
Proof. unfold Graph.removeEdge. adj_tac. repeat case_decide; subst; set_solver. Qed.

Lemma removeEdge_wf g s d :
  graph_wf g → s ∈ nodes g → d ∈ nodes g → graph_wf (Graph.removeEdge g s d).
Proof.
  intros Hg Hs Hd. split.
  - simpl. unfold map_erase_elem. rewrite !dom_insert_L, (wf_dom _ Hg). set_solver.
  - intros u v. rewrite !removeEdge_adj. intros (?%(wf_sym _ Hg) & ? & ?). naive_solver.
Qed.

Lemma erase_all_spec e l n k :
  set_at (foldl (λ e neighbor, map_erase_elem e neighbor n) e l) k =
  if decide (k ∈ l) then set_at e k ∖ {[n]} else set_at e k.
Proof.
  revert e. induction l as [|a l IH]; intros e; [done|]. cbn [foldl].
  rewrite IH. unfold map_erase_elem. rewrite set_at_insert.
  repeat case_decide; subst; set_solver.
Qed.

Lemma erase_all_dom e l n :
  dom (foldl (λ e neighbor, map_erase_elem e neighbor n) e l) = dom e ∪ list_to_set l.
Proof.
  revert e. induction l as [|a l IH]; intros e; simpl; [set_solver|].
  rewrite IH. unfold map_erase_elem. rewrite dom_insert_L. set_solver.
Qed.

Lemma removeNode_spec g n :
  graph_wf g → n ∈ nodes g → ¬ adj g n n →
  ∃ g', Graph.removeNode g n = Some g' ∧ graph_wf g' ∧ nodes g' = nodes g ∖ {[n]} ∧
        ∀ u v, adj g' u v ↔ adj g u v ∧ u ≠ n ∧ v ≠ n.
Proof.
  intros Hg Hn Hloop. unfold Graph.removeNode.
  assert (map_touch (edges g) n = edges g) as ->.
  { unfold map_touch. by rewrite (wf_lookup _ _ Hg Hn). }
  rewrite decide_False by done. eexists; split; [done|].
  set (g' := mkGraph _ _).
  assert (∀ u v, adj g' u v ↔ adj g u v ∧ u ≠ n ∧ v ≠ n) as Hadj.
  { intros u v. unfold g', adj; simpl. unfold set_at at 1.
    rewrite lookup_delete. case_decide; [set_solver|].
    change (default ∅ ?o) with (set_at (foldl (λ e neighbor, map_erase_elem e neighbor n)
      (edges g) (set_iter (set_at (edges g) n))) u).
    rewrite erase_all_spec. case_decide as Hu; rewrite elem_of_set_iter in Hu; [set_solver|].
    split; [|set_solver]. intros Hv. split_and!; [done|done|]. intros ->.
    apply Hu. by apply (wf_sym _ Hg). }
  split_and!; [|done|done]. split.
  - unfold g'; simpl. rewrite dom_delete_L, erase_all_dom, list_to_set_set_iter, (wf_dom _ Hg).
    assert (set_at (edges g) n ⊆ nodes g); [|set_solver].
    intros v Hv. by destruct (adj_nodes g n v Hg Hv).
  - intros u v. rewrite !Hadj. intros (?%(wf_sym _ Hg) & ? & ?). done.
Qed.

(** *** Loops that add edges *)

Lemma add_nbrs_spec c src dsts :
  graph_wf c → src ∈ nodes c → dsts ⊆ nodes c →
  ∃ c', ofold (λ c dst, Graph.addEdge c src dst) c (set_iter dsts) = Some c' ∧
        graph_wf c' ∧ nodes c' = nodes c ∧
        ∀ u v, adj c' u v ↔ adj c u v ∨ (u = src ∧ v ∈ dsts) ∨ (v = src ∧ u ∈ dsts).
Proof.
  intros Hc Hs Hd.
  destruct (ofold_total (λ c dst, Graph.addEdge c src dst)
    (λ dn c', graph_wf c' ∧ nodes c' = nodes c ∧ ∀ u v, adj c' u v ↔
       adj c u v ∨ (u = src ∧ v ∈ dn) ∨ (v = src ∧ u ∈ dn)) (set_iter dsts) c)
    as (c' & Hf & Hw & Hn & Ha).
  - set_solver.
  - intros dn a rest b El (Hb & Hbn & Hba).
    assert (a ∈ dsts) as Ha by (apply elem_of_set_iter; rewrite El; set_solver).
    destruct (addEdge_Some b src a) as (b' & Hb' & Hbn' & Hba'); [set_solver..|].
    exists b'. split_and!; [done|by eapply addEdge_wf|congruence|].
    intros u v. rewrite Hba', Hba. set_solver.
  - exists c'. split_and!; [done..|]. intros u v. rewrite Ha. by rewrite !elem_of_set_iter.
Qed.

Lemma add_all_spec c (l : list (Node * Nodes)) :
  graph_wf c → (∀ s D, (s, D) ∈ l → s ∈ nodes c ∧ D ⊆ nodes c) →
  ∃ c', ofold (λ c '(src, dsts), ofold (λ c dst, Graph.addEdge c src dst) c (set_iter dsts))
          c l = Some c' ∧
        graph_wf c' ∧ nodes c' = nodes c ∧
        ∀ u v, adj c' u v ↔ adj c u v ∨
          ∃ s D, (s, D) ∈ l ∧ ((u = s ∧ v ∈ D) ∨ (v = s ∧ u ∈ D)).
Proof.
  intros Hc Hl.
  apply (ofold_total _ (λ dn c', graph_wf c' ∧ nodes c' = nodes c ∧ ∀ u v, adj c' u v ↔
       adj c u v ∨ ∃ s D, (s, D) ∈ dn ∧ ((u = s ∧ v ∈ D) ∨ (v = s ∧ u ∈ D)))).
  - split_and!; [done..|]. set_solver.
  - intros dn [s D] rest b El (Hb & Hbn & Hba).
    destruct (Hl s D) as [Hs HD]; [rewrite El; set_solver|].
    destruct (add_nbrs_spec b s D) as (b' & Hb' & Hbw & Hbn' & Hba'); [done|set_solver..|].
    exists b'. split_and!; [done|done|congruence|]. intros u v. rewrite Hba', Hba.
    setoid_rewrite elem_of_app. setoid_rewrite list_elem_of_singleton. clear.
    split.
    + intros [[?|(s' & D' & ? & ?)]|?]; [by left|right; exists s', D'; by auto|].
      right. exists s, D. by auto.
    + intros [?|(s' & D' & [?|?] & HsD)]; [by auto| |simplify_eq; by auto].
      left. right. exists s', D'. by auto.
Qed.

Lemma over_neighbors g other :
  graph_wf other →
  ofold (λ m u, nbrs ← Graph.getNeighbors other u;
                ofold (λ m v, Graph.addEdge m u v) m (set_iter nbrs)) g (set_iter (nodes other)) =
  ofold (λ c '(src, dsts), ofold (λ c dst, Graph.addEdge c src dst) c (set_iter dsts))
        g ((λ u, (u, set_at (edges other) u)) <$> set_iter (nodes other)).
Proof.
  intros Ho. rewrite ofold_fmap. apply ofold_ext. intros m u Hu. rewrite elem_of_set_iter in Hu.
  by rewrite (getNeighbors_wf other u Ho Hu).
Qed.

Lemma neighbors_list_spec other u v :
  graph_wf other →
  (∃ s D, (s, D) ∈ ((λ u, (u, set_at (edges other) u)) <$> set_iter (nodes other)) ∧
          ((u = s ∧ v ∈ D) ∨ (v = s ∧ u ∈ D))) ↔ adj other u v.
Proof.
  intros Ho. split.
  - intros (s & D & (u' & E & Hu')%list_elem_of_fmap & H). simplify_eq.
    destruct H as [[-> H]|[-> H]]; [done|by apply (wf_sym _ Ho)].
  - intros Ha. destruct (adj_nodes _ _ _ Ho Ha). exists u, (set_at (edges other) u).
    split; [apply list_elem_of_fmap; exists u; by rewrite elem_of_set_iter|by left].
Qed.

Lemma add_nodes_spec g l :
  graph_wf g →
  graph_wf (foldl Graph.addNodeMayExists g l) ∧
  nodes (foldl Graph.addNodeMayExists g l) = nodes g ∪ list_to_set l ∧
  ∀ u v, adj (foldl Graph.addNodeMayExists g l) u v ↔ adj g u v.
Proof.
  revert g. induction l as [|a l IH]; intros g Hg; simpl; [split_and!; [done|set_solver|done]|].
  destruct (IH (Graph.addNodeMayExists g a)) as (H1 & H2 & H3);
    [by apply addNodeMayExists_wf|].
  split_and!; [done| |].
  - rewrite H2, addNodeMayExists_nodes. set_solver.
  - intros u v. by rewrite H3, addNodeMayExists_adj.
Qed.

Lemma addNodes_fresh l g :
  NoDup l → (∀ x, x ∈ l → x ∉ nodes g) →
  ofold Graph.addNode g l = Some (foldl Graph.addNodeMayExists g l).
Proof.
  revert g. induction l as [|a l IH]; intros g Hl Hf; [done|].
  apply NoDup_cons in Hl as [Ha Hl]. simpl. rewrite addNode_eq by set_solver. simpl.
  apply IH; [done|]. intros x Hx. rewrite addNodeMayExists_nodes. set_solver.
Qed.

Lemma copy_id g : graph_wf g → Graph.copy g = Some g.
Proof.
  intros Hg. unfold Graph.copy.
  rewrite addNodes_fresh by (try apply NoDup_set_iter; set_solver). cbn [mbind option_bind].
  destruct (add_nodes_spec emptyGraph (set_iter (nodes g)) emptyGraph_wf) as (Hw & Hn & Ha).
  destruct (add_all_spec (foldl Graph.addNodeMayExists emptyGraph (set_iter (nodes g)))
    (map_iter (edges g)) Hw) as (c' & Hc' & Hcw & Hcn & Hca).
  { intros s D HsD%elem_of_map_iter. rewrite Hn, list_to_set_set_iter.
    assert (s ∈ nodes g). { rewrite <-(wf_dom _ Hg), elem_of_dom. by eexists. }
    split; [set_solver|]. intros v Hv. rewrite elem_of_union. right.
    apply (adj_nodes g s v Hg). unfold adj. by rewrite (set_at_lookup _ _ _ HsD). }
  etransitivity; [exact Hc'|]. f_equal. apply graph_ext; [done..| |].
  { rewrite Hcn, Hn, list_to_set_set_iter. set_solver. }
  intros u v. rewrite Hca, Ha. split.
  - intros [[]%adj_empty|(s & D & HsD%elem_of_map_iter & H)].
    apply set_at_lookup in HsD. destruct H as [[-> H]|[-> H]]; [|apply (wf_sym _ Hg)];
      unfold adj; by rewrite HsD.
  - intros H. right. exists u, (set_at (edges g) u). split; [|by left].
    apply elem_of_map_iter. apply wf_lookup; [done|]. by destruct (adj_nodes _ _ _ Hg H).
Qed.

Lemma merge_Some g other :
  graph_wf g → graph_wf other →
  ∃ m, Graph.merge g other = Some m ∧ graph_wf m ∧ nodes m = nodes g ∪ nodes other ∧
       ∀ u v, adj m u v ↔ adj g u v ∨ adj other u v.
Proof.
  intros Hg Ho. unfold Graph.merge. rewrite copy_id by done. cbn [mbind option_bind].
  destruct (add_nodes_spec g (set_iter (nodes other)) Hg) as (Hw & Hn & Ha).
  rewrite list_to_set_set_iter in Hn. rewrite over_neighbors by done.
  destruct (add_all_spec (foldl Graph.addNodeMayExists g (set_iter (nodes other)))
    ((λ u, (u, set_at (edges other) u)) <$> set_iter (nodes other)) Hw)
    as (m & Hm & Hmw & Hmn & Hma).
  { intros s D (u & E & Hu)%list_elem_of_fmap. rewrite elem_of_set_iter in Hu. simplify_eq.
    rewrite Hn. split; [set_solver|]. intros v Hv. rewrite elem_of_union. right.
    by apply (adj_nodes other u v Ho). }
  exists m. split_and!; [done|done|congruence|]. intros u v.
  by rewrite Hma, Ha, neighbors_list_spec.
Qed.

(** *** [removeEdgesFrom] *)

Lemma remove_nbrs_spec g u l :
  graph_wf g → u ∈ nodes g →
  let g' := foldl (λ g v,
              let e := map_touch (edges g) u in
              if decide (v ∈ set_at e u) then Graph.removeEdge (mkGraph (nodes g) e) u v
              else mkGraph (nodes g) e) g l in
  graph_wf g' ∧ nodes g' = nodes g ∧
  ∀ a b, adj g' a b ↔ adj g a b ∧ ¬ (a = u ∧ b ∈ l) ∧ ¬ (b = u ∧ a ∈ l).
Proof.
  revert g. induction l as [|v l IH]; intros g Hg Hu; cbn [foldl]; [set_solver|].
  assert (map_touch (edges g) u = edges g) as ->.
  { unfold map_touch. by rewrite (wf_lookup _ _ Hg Hu). }
  assert (mkGraph (nodes g) (edges g) = g) as -> by by destruct g.
  cbv zeta. case_decide as Hv.
  - destruct (adj_nodes g u v Hg Hv) as [_ Hvn].
    destruct (IH (Graph.removeEdge g u v)) as (H1 & H2 & H3);
      [by apply removeEdge_wf|done|].
    split_and!; [done..|]. intros a b. rewrite H3, removeEdge_adj, !elem_of_cons. clear. naive_solver.
  - destruct (IH g Hg Hu) as (H1 & H2 & H3). split_and!; [done..|].
    intros a b. rewrite H3, !elem_of_cons. split; [|clear; naive_solver]. intros (Ha & Hx & Hy).
    split_and!; [done| |].
    + intros [-> [->|?]]; [done|naive_solver].
    + intros [-> [->|?]]; [by apply (wf_sym _ Hg) in Ha|naive_solver].
Qed.

Lemma removeEdgesFrom_Some g other :
  graph_wf g → graph_wf other →
  ∃ g', Graph.removeEdgesFrom g other = Some g' ∧ graph_wf g' ∧ nodes g' = nodes g ∧
        ∀ u v, adj g' u v ↔ adj g u v ∧ ¬ adj other u v.
Proof.
  intros Hg Ho. unfold Graph.removeEdgesFrom.
  match goal with |- context [ofold ?f _ _] =>
    destruct (ofold_total f (λ dn g', graph_wf g' ∧ nodes g' = nodes g ∧ ∀ a b, adj g' a b ↔
      adj g a b ∧ ¬ (a ∈ dn ∧ adj other a b) ∧ ¬ (b ∈ dn ∧ adj other b a))
      (set_iter (nodes other)) g) as (g' & Hf & Hw & Hn & Ha)
  end; [| |exists g'; split; [exact Hf|]].
  - split_and!; [done..|]. set_solver.
  - intros dn u rest b El (Hb & Hbn & Hba). rewrite Hbn.
    assert (u ∈ nodes other) as Hu by (apply elem_of_set_iter; rewrite El; set_solver).
    case_decide as Hug.
    + rewrite (getNeighbors_wf other u Ho Hu). cbn [mbind option_bind].
      destruct (remove_nbrs_spec b u (set_iter (set_at (edges other) u)) Hb)
        as (H1 & H2 & H3); [congruence|].
      eexists; split; [done|]. split_and!; [exact H1|etrans; [exact H2|done]|].
      intros x y. etrans; [apply H3|]. rewrite Hba, !elem_of_set_iter, !elem_of_app,
        !list_elem_of_singleton. unfold adj. clear. naive_solver.
    + exists b. split_and!; [done..|]. intros x y. rewrite Hba, !elem_of_app,
        !list_elem_of_singleton. split; [|clear; naive_solver].
      intros (Hxy & ? & ?). destruct (adj_nodes _ _ _ Hg Hxy). naive_solver.
  - split_and!; [done..|]. intros u v. rewrite Ha, !elem_of_set_iter. split.
    + intros (? & ? & ?). split; [done|]. intros Huv. destruct (adj_nodes _ _ _ Ho Huv). naive_solver.
    + intros (? & ?). split_and!; [done|naive_solver|]. intros [_ ?%(wf_sym _ Ho)]. done.
Qed.

(** *** Paths *)

Lemma path_pairs_cons a b l :
  Graph.path_pairs (a :: b :: l) = (a, b) :: Graph.path_pairs (b :: l).
Proof. done. Qed.

Lemma path_pairs_elem path u v : (u, v) ∈ Graph.path_pairs path → u ∈ path ∧ v ∈ path.
Proof.
  unfold Graph.path_pairs. intros H. split.
  - by apply elem_of_zip_l in H.
  - apply elem_of_zip_r in H. destruct path; [done|]. by right.
Qed.

Lemma path_edge_cons a b l u v :
  path_edge (a :: b :: l) u v ↔
  (u = a ∧ v = b) ∨ (u = b ∧ v = a) ∨ path_edge (b :: l) u v.
Proof.
  unfold path_edge. rewrite path_pairs_cons, !elem_of_cons. split; [|naive_solver].
  intros [[?|?]|[?|?]]; simplify_eq; auto.
Qed.

Lemma path_edge_sym path u v : path_edge path u v ↔ path_edge path v u.
Proof. unfold path_edge. tauto. Qed.

Lemma path_edge_elem path u v : path_edge path u v → u ∈ path ∧ v ∈ path.
Proof. intros [H|H]; by apply path_pairs_elem in H as []. Qed.

Lemma mergeFrom_edges g l :
  graph_wf g → (∀ a b, (a, b) ∈ l → a ∈ nodes g ∧ b ∈ nodes g) →
  let g' := foldl (λ g '(a, b), Graph.addEdgeMayExists g a b) g l in
  graph_wf g' ∧ nodes g' = nodes g ∧
  ∀ u v, adj g' u v ↔ adj g u v ∨ (u, v) ∈ l ∨ (v, u) ∈ l.
Proof.
  revert g. induction l as [|[a b] l IH]; intros g Hg Hl; cbn [foldl]; [set_solver|].
  destruct (Hl a b) as [Ha Hb]; [set_solver|].
  destruct (addEdge_Some g a b Ha Hb) as (g1 & Hg1 & Hn1 & Ha1).
  pose proof (addEdge_wf _ _ _ _ Hg Hg1) as Hw1.
  rewrite (addEdgeMayExists_eq g a b Hg Ha Hb) in Hg1. simplify_eq.
  destruct (IH (Graph.addEdgeMayExists g a b) Hw1) as (H1 & H2 & H3).
  { rewrite Hn1. intros ???. apply Hl. set_solver. }
  split_and!; [done|congruence|]. intros u v. rewrite H3, Ha1, !elem_of_cons.
  split; [naive_solver|]. intros [?|[[?|?]|[?|?]]]; simplify_eq; auto.
Qed.

Lemma mergeFrom_spec g path :
  graph_wf g →
  graph_wf (Graph.mergeFrom g path) ∧
  nodes (Graph.mergeFrom g path) = nodes g ∪ list_to_set path ∧
  ∀ u v, adj (Graph.mergeFrom g path) u v ↔ adj g u v ∨ path_edge path u v.
Proof.
  intros Hg. unfold Graph.mergeFrom.
  destruct (add_nodes_spec g path Hg) as (Hw & Hn & Ha).
  destruct (mergeFrom_edges (foldl Graph.addNodeMayExists g path) (Graph.path_pairs path) Hw)
    as (H1 & H2 & H3).
  { intros a b [??]%path_pairs_elem. rewrite Hn. set_solver. }
  split_and!; [exact H1|etrans; [exact H2|exact Hn]|].
  intros u v. etrans; [apply H3|]. by rewrite Ha.
Qed.

Lemma pathToGraph_aux l a g :
  graph_wf g → a ∈ nodes g → NoDup l → (∀ x, x ∈ l → x ∉ nodes g) →
  ∃ g', ofold (λ g '(a, b), g ← Graph.addNode g b; Graph.addEdge g a b) g
          (Graph.path_pairs (a :: l)) = Some g' ∧
        graph_wf g' ∧ nodes g' = nodes g ∪ list_to_set l ∧
        ∀ u v, adj g' u v ↔ adj g u v ∨ path_edge (a :: l) u v.
Proof.
  revert a g. induction l as [|b l IH]; intros a g Hg Ha Hnd Hf.
  { exists g. split_and!; [done|done|set_solver|]. unfold path_edge, Graph.path_pairs. simpl.
    set_solver. }
  apply NoDup_cons in Hnd as [Hb Hnd]. rewrite path_pairs_cons. cbn [ofold].
  rewrite addNode_eq by set_solver. cbn [mbind option_bind].
  destruct (addEdge_Some (Graph.addNodeMayExists g b) a b) as (g1 & Hg1 & Hn1 & Ha1);
    [rewrite addNodeMayExists_nodes; set_solver..|].
  rewrite Hg1. cbn [mbind option_bind].
  rewrite addNodeMayExists_nodes in Hn1.
  pose proof (addEdge_wf _ _ _ _ (addNodeMayExists_wf g b Hg) Hg1) as Hw1.
  destruct (IH b g1 Hw1) as (g' & Hg' & Hw' & Hn' & Ha'); [set_solver|done| |].
  { intros x Hx. rewrite Hn1. set_solver. }
  exists g'. split_and!; [done|done|rewrite Hn', Hn1; simpl; clear; set_solver|].
  intros u v. rewrite Ha', Ha1, addNodeMayExists_adj, path_edge_cons by done. tauto.
Qed.

Lemma pathToGraph_Some path :
  NoDup path →
  ∃ g, pathToGraph path = Some g ∧ graph_wf g ∧ nodes g = list_to_set path ∧
       ∀ u v, adj g u v ↔ path_edge path u v.
Proof.
  destruct path as [|a l]; intros Hnd.
  { exists emptyGraph. split_and!; [done|apply emptyGraph_wf|done|]. intros u v.
    unfold path_edge, Graph.path_pairs. simpl. pose proof (adj_empty u v). set_solver. }
  apply NoDup_cons in Hnd as [Ha Hnd]. cbn [pathToGraph].
  rewrite addNode_eq by set_solver. cbn [mbind option_bind].
  destruct (pathToGraph_aux l a (Graph.addNodeMayExists emptyGraph a))
    as (g & Hg & Hw & Hn & Hadj).
  - apply addNodeMayExists_wf, emptyGraph_wf.
  - rewrite addNodeMayExists_nodes. set_solver.
  - done.
  - intros x Hx. rewrite addNodeMayExists_nodes. set_solver.
  - exists g. split_and!; [done|done| |].
    + rewrite Hn, addNodeMayExists_nodes. set_solver.
    + intros u v. rewrite Hadj, addNodeMayExists_adj by apply emptyGraph_wf.
      pose proof (adj_empty u v). tauto.
Qed.

(** *** Comparison *)

Lemma eqb_true g other :
  graph_wf g → graph_wf other → Graph.eqb g other = true ↔ g = other.
Proof.
  intros Hg Ho. unfold Graph.eqb. split.
  - case_decide as Hsz; [done|]. intros H%Is_true_true_2%forallb_True.
    rewrite Forall_forall in H.
    assert (∀ k s, edges g !! k = Some s → edges other !! k = Some s) as Hsub.
    { intros k s Hk%elem_of_map_iter. apply H in Hk. simpl in Hk.
      destruct (edges other !! k); [|done]. apply bool_decide_unpack in Hk. by subst. }
    assert (nodes g = nodes other) as Hn.
    { apply leibniz_equiv, set_subseteq_size_equiv; [|lia]. intros x Hx.
      rewrite <-(wf_dom _ Ho), elem_of_dom. eexists.
      apply Hsub. by apply wf_lookup. }
    apply graph_ext; [done..|]. intros u v. unfold adj.
    destruct (decide (u ∈ nodes g)) as [Hu|Hu].
    + by rewrite (set_at_lookup (edges other) u _ (Hsub _ _ (wf_lookup _ _ Hg Hu))).
    + split; intros Ha; [destruct (adj_nodes g u v Hg Ha)|destruct (adj_nodes other u v Ho Ha)];
        congruence.
  - intros <-. rewrite decide_False by lia. apply Is_true_true, forallb_True, Forall_forall.
    intros [k s] Hk%elem_of_map_iter. rewrite Hk. by apply bool_decide_pack.
Qed.

Lemma isConnectedAndDifferent_true g other :
  Graph.isConnectedAndDifferent g other = true ↔
  (∃ v, v ∈ nodes other ∧ v ∈ nodes g) ∧ (∃ v, v ∈ nodes other ∧ v ∉ nodes g).
Proof.
  unfold Graph.isConnectedAndDifferent.
  assert (∀ l c n, ∃ c' n', foldl (λ '(is_connected, has_new_node) v,
      if decide (v ∉ nodes g) then (is_connected, true) else (true, has_new_node)) (c, n) l
      = (c', n') ∧ (c' = true ↔ c = true ∨ ∃ v, v ∈ l ∧ v ∈ nodes g) ∧
      (n' = true ↔ n = true ∨ ∃ v, v ∈ l ∧ v ∉ nodes g)) as H.
  { induction l as [|a l IH]; intros c n; cbn [foldl].
    - exists c, n. set_solver.
    - case_decide as Ha.
      + destruct (IH c true) as (c' & n' & E & H1 & H2). exists c', n'.
        split_and!; [done| |]; set_solver.
      + destruct (decide (a ∈ nodes g)) as [Ha'|]; [|done].
        destruct (IH true n) as (c' & n' & E & H1 & H2). exists c', n'.
        split_and!; [done| |]; set_solver. }
  destruct (H (set_iter (nodes other)) false false) as (c & n & -> & H1 & H2).
  rewrite andb_true_iff, H1, H2. setoid_rewrite elem_of_set_iter. naive_solver.
Qed.

End WfFacts.

(** ** Properties *)

Definition edge_example : Graph :=
  Graph.addEdgeMayExists (Graph.addNodeMayExists (Graph.addNodeMayExists emptyGraph "a") "b") "a" "b".

Definition path_example : Graph := Graph.mergeFrom emptyGraph ["b"; "c"; "d"].

Lemma edge_example_wf : graph_wf edge_example.
Proof. apply (mergeFrom_spec emptyGraph ["a"; "b"]), emptyGraph_wf. Qed.

Lemma path_example_wf : graph_wf path_example.
Proof. apply (mergeFrom_spec emptyGraph ["b"; "c"; "d"]), emptyGraph_wf. Qed.

(** C7. [merge] never fails on well-formed graphs and returns their union: well formed, with
    the nodes of both and exactly the edges of either. *)
Theorem merge_is_union g other :
  graph_wf g → graph_wf other →
  ∃ m, Graph.merge g other = Some m ∧ graph_wf m ∧ nodes m = nodes g ∪ nodes other ∧
       ∀ u v, adj m u v ↔ adj g u v ∨ adj other u v.
Proof. apply merge_Some. Qed.

Lemma merge_is_union_witness :
  ∃ m, Graph.merge edge_example path_example = Some m ∧ graph_wf m ∧
    nodes m = nodes edge_example ∪ nodes path_example ∧
    ∀ u v, adj m u v ↔ adj edge_example u v ∨ adj path_example u v.
Proof. apply (merge_is_union edge_example path_example edge_example_wf path_example_wf). Defined.

(** [removeEdgesFrom] never fails on well-formed graphs, keeps every node and removes
    exactly the edges of the other graph, in both directions. *)
Theorem removeEdgesFrom_is_difference g other :
  graph_wf g → graph_wf other →
  ∃ g', Graph.removeEdgesFrom g other = Some g' ∧ graph_wf g' ∧ nodes g' = nodes g ∧
        ∀ u v, adj g' u v ↔ adj g u v ∧ ¬ adj other u v.
Proof. apply removeEdgesFrom_Some. Qed.

(** [copy] rebuilds the same graph, and [operator==] accepts a graph exactly when it is
    equal to it. *)
Theorem copy_roundtrip g other :
  graph_wf g → graph_wf other →
  ∃ c, Graph.copy g = Some c ∧ (Graph.eqb c other = true ↔ g = other).
Proof. intros Hg Ho. exists g. rewrite copy_id by done. split; [done|]. by apply eqb_true. Qed.

(** [removeNode] of a node without a self loop deletes the node and its incident edges,
    keeps the graph well formed and touches no other edge. *)
Theorem removeNode_deletes g n :
  graph_wf g → n ∈ nodes g → ¬ adj g n n →
  ∃ g', Graph.removeNode g n = Some g' ∧ graph_wf g' ∧ nodes g' = nodes g ∖ {[n]} ∧
        ∀ u v, adj g' u v ↔ adj g u v ∧ u ≠ n ∧ v ≠ n.
Proof. apply removeNode_spec. Qed.

Lemma numOfEdge_fold {A} (c k : nat) (l : list A) : foldl (λ n _, n + c) k l = k + c * length l.
Proof. revert k; induction l as [|x l IH]; intros k; simpl; [lia|]. rewrite IH. lia. Qed.

(** [numOfEdge] adds the number of nodes once per node instead of each node's number of
    neighbours: on a well-formed graph it returns half the square of the number of nodes,
    whatever the edges are, and its parity assertion fails when that square is odd. *)
Theorem numOfEdge_ignores_edges g :
  graph_wf g →
  Graph.numOfEdge g =
    let n := size (nodes g) in
    if decide ((n * n) `mod` 2 = 0) then Some (n * n / 2) else None.
Proof.
  intros Hg. unfold Graph.numOfEdge. rewrite numOfEdge_fold, map_iter_length, Nat.add_0_l.
  by rewrite <-(size_dom (edges g)), (wf_dom _ Hg).
Qed.
