(* ===== verification/Components.v ===== *)
(** [getConnectedSubgraphs] of [src/src/include/binder/query/query_graph_simple.hpp]: the
    decomposition of a query graph into connected components, including the loops that
    insert into a [std::set] while iterating over it. *)

From S2P Require Import Prelude SimpleGraph.

(** Body of the inner loops for one [src]: adds the unseen neighbours. *)
Definition grow_from (graph : Graph) (st : Graph * Nodes * bool) (src : Node) :
    option (Graph * Nodes * bool) :=
  nbrs ← Graph.getNeighbors graph src;
  ofold (λ '(sub, visited, updated) dst,
    if decide (dst ∈ nodes sub) then Some (sub, visited, updated)
    else sub' ← Graph.addNode sub dst; Some (sub', {[dst]} ∪ visited, true))
    st (set_iter nbrs).

(** One pass [for (auto& src : subgraph.nodes)]: the set grows under the iterator, so the
    loop moves to the least element of the current set above [src]. *)
Fixpoint pass (fuel : nat) (graph : Graph) (st : Graph * Nodes * bool) (src : Node) :
    option (Graph * Nodes * bool) :=
  match fuel with
  | 0 => None
  | S fuel =>
      st' ← grow_from graph st src;
      match set_next (nodes st'.1.1) src with
      | None => Some st'
      | Some src' => pass fuel graph st' src'
      end
  end.

(** The [do ... while (updated)] loop. *)
Fixpoint closure (fuel : nat) (graph : Graph) (sub : Graph) (visited : Nodes) :
    option (Graph * Nodes) :=
  match fuel with
  | 0 => None
  | S fuel =>
      first ← head (set_iter (nodes sub));
      '(sub', visited', updated) ←
        pass (S (size (nodes graph))) graph (sub, visited, false) first;
      if updated : bool then closure fuel graph sub' visited' else Some (sub', visited')
  end.

Definition all_edges (graph sub : Graph) : option Graph :=
  ofold (λ s node,
    nbrs ← Graph.getNeighbors graph node;
    ofold (λ s neighbor,
      if decide (neighbor ∈ nodes s) then Graph.addEdge s node neighbor else Some s)
      s (set_iter nbrs)) sub (set_iter (nodes sub)).

Definition getConnectedSubgraphs (graph : Graph) : option (list Graph) :=
  fst <$> ofold (λ '(subgraphs, visited) start_node,
    if decide (start_node ∈ visited) then Some (subgraphs, visited)
    else
      sub ← Graph.addNode emptyGraph start_node;
      '(sub, visited) ← closure (S (size (nodes graph))) graph sub visited;
      sub ← all_edges graph sub;
      Some (subgraphs ++ [sub], visited)) ([], ∅) (set_iter (nodes graph)).

(** ** The closure loops *)

(** What the loops maintain, relative to the subgraph [sub0] and the set [vis0] they started
    from: only nodes reachable from [start] are added, and [updated] records growth. *)
Record grow_inv (graph : Graph) (start : Node) (sub0 : Graph) (vis0 : Nodes)
    (st : Graph * Nodes * bool) : Prop := {
  gi_wf : graph_wf st.1.1;
  gi_noadj : ∀ u v, ¬ adj st.1.1 u v;
  gi_mono : nodes sub0 ⊆ nodes st.1.1;
  gi_conn : ∀ x, x ∈ nodes st.1.1 → connected graph start x;
  gi_vis : st.1.2 = vis0 ∪ (nodes st.1.1 ∖ nodes sub0);
  gi_grew : st.2 = true → nodes st.1.1 ≠ nodes sub0;
  gi_same : st.2 = false → nodes st.1.1 = nodes sub0
}.

(** The nodes of [graph] above [src]: what bounds the rest of a pass. *)
Definition above (graph : Graph) (src : Node) : nat :=
  length (filter (λ y, String.ltb src y) (set_iter (nodes graph))).

Definition component (graph : Graph) (start : Node) (sub : Graph) : Prop :=
  graph_wf sub ∧ (∀ x, x ∈ nodes sub ↔ connected graph start x) ∧
  (∀ u v, adj sub u v ↔ u ∈ nodes sub ∧ adj graph u v).

Section ComponentFacts.
Context (graph : Graph) (Hgraph : graph_wf graph).

Lemma connected_nodes start x : connected graph start x → x ∈ nodes graph.
Proof. induction 1 as [|v w _ _ Ha]; [done|]. by destruct (adj_nodes _ _ _ Hgraph Ha). Qed.

Lemma connected_trans a b c : connected graph a b → connected graph b c → connected graph a c.
Proof. intros Hab. induction 1; [done|]. by eapply connected_step. Qed.

Lemma connected_sym a b : connected graph a b → connected graph b a.
Proof.
  induction 1 as [|v w Hav IH Ha]; [by constructor|].
  apply (connected_trans _ v); [|done].
  apply (connected_step _ _ w); [constructor|by apply (wf_sym _ Hgraph)].
  by destruct (adj_nodes _ _ _ Hgraph Ha).
Qed.

Lemma grow_from_spec start sub0 vis0 st src :
  grow_inv graph start sub0 vis0 st → src ∈ nodes st.1.1 →
  ∃ st', grow_from graph st src = Some st' ∧ grow_inv graph start sub0 vis0 st' ∧
         nodes st.1.1 ⊆ nodes st'.1.1 ∧
         (st'.2 = false → st.2 = false ∧ nbrs_of graph src ⊆ nodes st.1.1).
Proof.
  intros Hst Hsrc. unfold grow_from.
  pose proof (gi_conn _ _ _ _ _ Hst _ Hsrc) as Hc. pose proof (connected_nodes _ _ Hc) as Hg.
  rewrite (getNeighbors_wf _ _ Hgraph Hg). cbn [mbind option_bind].
  match goal with |- context [ofold ?f _ _] =>
    destruct (ofold_total f (λ dn st', grow_inv graph start sub0 vis0 st' ∧
      nodes st.1.1 ⊆ nodes st'.1.1 ∧
      (st'.2 = false → st.2 = false ∧ ∀ x, x ∈ dn → x ∈ nodes st.1.1))
      (set_iter (set_at (edges graph) src)) st) as (st' & Hf & Hi & Hm & Hu)
  end.
  - split_and!; [done..|]. set_solver.
  - clear Hsrc. intros dn dst rest [[sub vis] upd] El (Hi & Hm & Hu). simpl in *.
    assert (adj graph src dst) as Ha.
    { unfold adj. apply elem_of_set_iter. rewrite El. set_solver. }
    case_decide as Hd.
    + eexists; split; [done|]. split_and!; [done..|]. simpl. intros Eu.
      pose proof (gi_same _ _ _ _ _ Hi Eu) as E. simpl in E.
      destruct (Hu Eu) as [Hu1 Hu2]. split; [done|].
      pose proof (gi_same _ _ _ _ _ Hst Hu1) as E'. rewrite E' in *. rewrite E in Hd.
      intros x [?| ->%list_elem_of_singleton]%elem_of_app; auto.
    + rewrite addNode_eq by done. cbn [mbind option_bind]. eexists; split; [done|]. simpl.
      rewrite addNodeMayExists_nodes. split_and!; [|set_solver|done].
      destruct Hi as [H1 H2 H3 H4 H5 H6 H7]; simpl in *.
      split; simpl; rewrite ?addNodeMayExists_nodes.
      * by apply addNodeMayExists_wf.
      * intros u v. rewrite addNodeMayExists_adj by done. auto.
      * set_solver.
      * intros x [->%elem_of_singleton|Hx]%elem_of_union; [|auto].
        by apply (connected_step _ _ src).
      * subst vis. clear - H3 Hd. set_solver.
      * set_solver.
      * done.
  - exists st'. split_and!; [done..|]. intros Hf'. destruct (Hu Hf') as [H1 H2].
    split; [done|]. intros x Hx. apply H2. by apply elem_of_set_iter.
Qed.

Lemma above_lt src src' :
  src' ∈ nodes graph → String.ltb src src' = true → above graph src' < above graph src.
Proof.
  intros Hin Hlt. unfold above.
  assert (filter (λ y, String.ltb src' y) (set_iter (nodes graph)) ⊆+
          filter (λ y, y ≠ src') (filter (λ y, String.ltb src y) (set_iter (nodes graph)))) as Hsub.
  { apply NoDup_submseteq; [apply NoDup_filter, NoDup_set_iter|].
    intros x. rewrite !list_elem_of_filter, !Is_true_true, !string_ltb_spec.
    apply string_ltb_spec in Hlt as [Hle Hne]. intros [[Hle' Hne'] ?].
    split_and!; [congruence|by etrans| |done]. intros ->.
    apply Hne. by apply (anti_symm String.le). }
  apply submseteq_length in Hsub. eapply Nat.le_lt_trans; [exact Hsub|].
  apply (length_filter_lt _ _ src'); [|naive_solver].
  apply list_elem_of_filter. rewrite elem_of_set_iter. by rewrite Hlt.
Qed.

(** One pass of the iterator loop returns, and if it added nothing then the set is closed
    under the neighbours of every element from [src] on. *)
Lemma pass_spec start sub0 vis0 fuel st src :
  above graph src < fuel →
  grow_inv graph start sub0 vis0 st → src ∈ nodes st.1.1 →
  ∃ st', pass fuel graph st src = Some st' ∧ grow_inv graph start sub0 vis0 st' ∧
         (st'.2 = false → st.2 = false ∧
            ∀ x, x ∈ nodes sub0 → String.le src x → nbrs_of graph x ⊆ nodes sub0).
Proof.
  revert st src. induction fuel as [|fuel IH]; intros st src Hfuel Hst Hsrc; [lia|].
  cbn [pass]. destruct (grow_from_spec _ _ _ _ _ Hst Hsrc) as (st1 & -> & Hi1 & Hm & Hu).
  cbn [mbind option_bind].
  destruct (set_next (nodes st1.1.1) src) as [src'|] eqn:En.
  - apply set_next_Some in En as (Hin & Hlt & Hleast).
    pose proof (connected_nodes _ _ (gi_conn _ _ _ _ _ Hi1 _ Hin)) as Hg.
    destruct (IH st1 src') as (st2 & -> & Hi2 & Hu2);
      [pose proof (above_lt _ _ Hg Hlt); lia|done..|].
    exists st2. split_and!; [done..|]. intros E2. destruct (Hu2 E2) as [E1 Hcl].
    destruct (Hu E1) as [E0 Hn]. split; [done|]. intros x Hx Hle.
    rewrite (gi_same _ _ _ _ _ Hst E0) in Hn.
    destruct (decide (x = src)) as [->|Hne]; [done|]. apply Hcl; [done|].
    apply Hleast; [by rewrite (gi_same _ _ _ _ _ Hi1 E1)|]. apply string_ltb_spec. naive_solver.
  - exists st1. split_and!; [done..|]. intros E1. destruct (Hu E1) as [E0 Hn]. split; [done|].
    intros x Hx Hle. rewrite (gi_same _ _ _ _ _ Hst E0) in Hn.
    destruct (decide (x = src)) as [->|Hne]; [done|]. exfalso.
    assert (String.ltb src x = false) as Hf.
    { apply (set_next_None _ _ En). by rewrite (gi_same _ _ _ _ _ Hi1 E1). }
    assert (String.ltb src x = true) by (apply string_ltb_spec; naive_solver). congruence.
Qed.

Lemma set_iter_head X x : x ∈ X → ∃ f, head (set_iter X) = Some f ∧ f ∈ X ∧ ∀ y, y ∈ X → String.le f y.
Proof.
  intros Hx. pose proof (set_iter_sorted X) as Hs. destruct (set_iter X) as [|f l] eqn:E.
  { apply elem_of_set_iter in Hx. rewrite E in Hx. by apply not_elem_of_nil in Hx. }
  exists f. split; [done|]. split; [apply elem_of_set_iter; rewrite E; set_solver|].
  intros y Hy%elem_of_set_iter. rewrite E in Hy. inversion Hs as [|? ? _ Hall]; subst.
  apply elem_of_cons in Hy as [->|Hy]; [reflexivity|]. rewrite Forall_forall in Hall. auto.
Qed.

(** The [do ... while] loop returns the nodes reachable from [start]. *)
Lemma closure_spec start fuel sub vis :
  size (nodes graph) < fuel + size (nodes sub) →
  graph_wf sub → (∀ u v, ¬ adj sub u v) → start ∈ nodes sub →
  (∀ x, x ∈ nodes sub → connected graph start x) →
  ∃ sub' vis', closure fuel graph sub vis = Some (sub', vis') ∧
    graph_wf sub' ∧ (∀ u v, ¬ adj sub' u v) ∧
    (∀ x, x ∈ nodes sub' ↔ connected graph start x) ∧
    vis' = vis ∪ (nodes sub' ∖ nodes sub).
Proof.
  revert sub vis. induction fuel as [|fuel IH]; intros sub vis Hf Hw Hna Hs Hc.
  { assert (size (nodes sub) ≤ size (nodes graph)); [|lia]. apply subseteq_size.
    intros x Hx. by apply (connected_nodes start), Hc. }
  cbn [closure]. destruct (set_iter_head _ _ Hs) as (f & -> & Hfin & Hleast).
  cbn [mbind option_bind].
  destruct (pass_spec start sub vis (S (size (nodes graph))) (sub, vis, false) f)
    as ([[sub1 vis1] upd] & -> & Hi & Hu); [|split; simpl; auto; set_solver|done|].
  { unfold above. pose proof (length_filter (λ y, String.ltb f y) (set_iter (nodes graph))) as H.
    rewrite length_set_iter in H. lia. }
  cbn [mbind option_bind]. destruct Hi as [H1 H2 H3 H4 H5 H6 H7]; simpl in *.
  destruct upd.
  - assert (size (nodes sub) < size (nodes sub1)).
    { apply subset_size. split; [done|]. intros ?. apply H6; [done|]. set_solver. }
    destruct (IH sub1 vis1) as (sub2 & vis2 & -> & Hw2 & Hn2 & Hc2 & Hv2);
      [lia|done|done|set_solver|done|].
    exists sub2, vis2. split_and!; [done..|]. subst.
    assert (nodes sub1 ⊆ nodes sub2) as H12 by (intros x Hx; apply Hc2; auto).
    clear - H3 H12. apply set_eq. intros x. destruct (decide (x ∈ nodes sub1)); set_solver.
  - exists sub1, vis1. destruct (Hu eq_refl) as [_ Hcl].
    assert (nodes sub1 = nodes sub) as E by auto.
    split_and!; [done..| |by subst]. intros x. split; [auto|].
    induction 1 as [|v w _ IHc Ha]; [by apply H3|]. rewrite E in *.
    apply (Hcl v); [done|by apply Hleast|done].
Qed.

Lemma all_edges_spec sub :
  graph_wf sub → (∀ u v, ¬ adj sub u v) →
  (∀ x y, x ∈ nodes sub → adj graph x y → y ∈ nodes sub) → nodes sub ⊆ nodes graph →
  ∃ sub', all_edges graph sub = Some sub' ∧ graph_wf sub' ∧ nodes sub' = nodes sub ∧
          ∀ u v, adj sub' u v ↔ u ∈ nodes sub ∧ adj graph u v.
Proof.
  intros Hw Hna Hcl Hsub. unfold all_edges.
  assert (∀ s node, nodes s = nodes sub → node ∈ nodes sub →
    (nbrs ← Graph.getNeighbors graph node;
     ofold (λ s neighbor, if decide (neighbor ∈ nodes s) then Graph.addEdge s node neighbor
                          else Some s) s (set_iter nbrs)) =
    ofold (λ c dst, Graph.addEdge c node dst) s (set_iter (nbrs_of graph node))) as Hinner.
  { intros s node Hs Hnode. rewrite (getNeighbors_wf _ _ Hgraph) by auto.
    cbn [mbind option_bind]. change (set_at (edges graph) node) with (nbrs_of graph node).
    assert (∀ x, x ∈ set_iter (nbrs_of graph node) → x ∈ nodes sub) as Hin.
    { intros x Hx%elem_of_set_iter. by apply (Hcl node). }
    revert s Hs Hin. generalize (set_iter (nbrs_of graph node)) as l.
    induction l as [|a l IH]; intros s Hs Hin; [done|]. cbn [ofold].
    rewrite decide_True by (rewrite Hs; set_solver).
    destruct (addEdge_Some s node a) as (s' & -> & Hs' & _); [set_solver..|].
    cbn [mbind option_bind]. apply IH; [congruence|set_solver]. }
  match goal with |- context [ofold ?f sub ?l] =>
    destruct (ofold_total f (λ dn s, graph_wf s ∧ nodes s = nodes sub ∧ ∀ u v, adj s u v ↔
      (u ∈ dn ∧ adj graph u v) ∨ (v ∈ dn ∧ adj graph v u)) l sub) as (s & Hf & Hsw & Hsn & Hsa)
  end; [| |exists s; split; [exact Hf|]].
  - split_and!; [done..|]. set_solver.
  - intros dn node rest b El (Hb & Hbn & Hba).
    assert (node ∈ nodes sub) by (apply elem_of_set_iter; rewrite El; set_solver).
    rewrite Hinner by done.
    destruct (add_nbrs_spec b node (nbrs_of graph node) Hb) as (b' & -> & Hbw & Hbn' & Hba').
    { by rewrite Hbn. }
    { rewrite Hbn. intros y Hy. by apply (Hcl node). }
    exists b'. split_and!; [done|done|congruence|]. intros u v.
    rewrite Hba', Hba, !elem_of_app, !list_elem_of_singleton. unfold nbrs_of, adj. clear.
    naive_solver.
  - split_and!; [done..|]. intros u v. rewrite Hsa, !elem_of_set_iter. split; [|tauto].
    intros [?|[Hv Ha]]; [done|]. split; [by apply (Hcl v)|by apply (wf_sym _ Hgraph)].
Qed.

(** What [getConnectedSubgraphs] has produced after the start nodes [dn]. *)
Definition comps_inv (dn : list Node) (st : list Graph * Nodes) : Prop :=
  Forall (λ sub, ∃ start, component graph start sub) st.1 ∧
  (∀ i j s1 s2, st.1 !! i = Some s1 → st.1 !! j = Some s2 → i ≠ j → nodes s1 ## nodes s2) ∧
  (∀ x, x ∈ dn → ∃ sub, sub ∈ st.1 ∧ x ∈ nodes sub) ∧
  (∀ x, x ∈ st.2 → ∃ sub, sub ∈ st.1 ∧ x ∈ nodes sub) ∧
  (∀ x sub, sub ∈ st.1 → x ∈ nodes sub → x ∈ st.2 ∨ x ∈ dn).

Lemma component_disjoint start sub start' sub' :
  component graph start sub → component graph start' sub' →
  start' ∉ nodes sub → nodes sub ## nodes sub'.
Proof.
  intros (_ & H1 & _) (_ & H2 & _) Hn x Hx Hx'. apply Hn, H1.
  apply (connected_trans _ x); [by apply H1|]. by apply connected_sym, H2.
Qed.

Lemma comps_step dn start rest subs vis :
  set_iter (nodes graph) = dn ++ start :: rest → start ∉ vis →
  comps_inv dn (subs, vis) →
  ∃ sub vis', (sub ← Graph.addNode emptyGraph start;
     '(sub, visited) ← closure (S (size (nodes graph))) graph sub vis;
     sub ← all_edges graph sub; Some (subs ++ [sub], visited)) = Some (subs ++ [sub], vis') ∧
     comps_inv (dn ++ [start]) (subs ++ [sub], vis').
Proof.
  intros El Hnv (Hcomp & Hdisj & Hdn & Hvis & Hback). cbn [fst snd] in *.
  assert (start ∈ nodes graph) as Hstart by (apply elem_of_set_iter; rewrite El; set_solver).
  rewrite addNode_eq by set_solver. cbn [mbind option_bind].
  set (sub0 := Graph.addNodeMayExists emptyGraph start).
  assert (nodes sub0 = {[start]}) as E0.
  { unfold sub0. rewrite addNodeMayExists_nodes. set_solver. }
  destruct (closure_spec start (S (size (nodes graph))) sub0 vis)
    as (sub1 & vis1 & -> & Hw1 & Hn1 & Hc1 & Hv1).
  { lia. }
  { apply addNodeMayExists_wf, emptyGraph_wf. }
  { intros u v. unfold sub0. rewrite addNodeMayExists_adj by apply emptyGraph_wf. apply adj_empty. }
  { rewrite E0. set_solver. }
  { intros x. rewrite E0. intros ->%elem_of_singleton. by constructor. }
  cbn [mbind option_bind].
  destruct (all_edges_spec sub1 Hw1 Hn1) as (sub2 & -> & Hw2 & Hn2 & Ha2).
  { intros x y Hx Ha. apply Hc1. apply (connected_step _ _ x); [by apply Hc1|done]. }
  { intros x Hx. by apply (connected_nodes start), Hc1. }
  cbn [mbind option_bind]. exists sub2, vis1. split; [done|].
  assert (component graph start sub2) as Hcs.
  { split_and!; [done| |]; rewrite Hn2; done. }
  assert (start ∈ nodes sub2) as Hs2 by (rewrite Hn2; apply Hc1; by constructor).
  assert (∀ sub, sub ∈ subs → start ∉ nodes sub) as Hfresh.
  { intros sub Hsub Hin. destruct (Hback _ _ Hsub Hin) as [?|Hd]; [done|].
    pose proof (NoDup_set_iter (nodes graph)) as Hnd. rewrite El in Hnd.
    apply NoDup_app in Hnd as (_ & Hnd & _). apply (Hnd start Hd). set_solver. }
  assert (∀ sub, sub ∈ subs → nodes sub ## nodes sub2) as Hd2.
  { intros sub Hsub. rewrite Forall_forall in Hcomp. destruct (Hcomp _ Hsub) as [st Hst].
    by apply (component_disjoint st _ start); [| |apply Hfresh]. }
  split_and!; simpl.
  - apply Forall_app. split; [done|]. constructor; [|done]. by exists start.
  - intros i j s1 s2 Hi Hj Hne. rewrite !lookup_app_Some in *.
    destruct Hi as [Hi|[Hil Hi]], Hj as [Hj|[Hjl Hj]].
    + by apply (Hdisj i j).
    + apply list_lookup_singleton_Some in Hj as [_ <-]. apply Hd2. by eapply list_elem_of_lookup_2.
    + apply list_lookup_singleton_Some in Hi as [_ <-]. symmetry. apply Hd2.
      by eapply list_elem_of_lookup_2.
    + apply list_lookup_singleton_Some in Hi as [? _], Hj as [? _]. lia.
  - intros x [Hx| ->%list_elem_of_singleton]%elem_of_app; [|by exists sub2; set_solver].
    destruct (Hdn x Hx) as (sub & ? & ?). exists sub. set_solver.
  - intros x. subst vis1. rewrite <-Hn2. intros [Hx|[Hx _]%elem_of_difference]%elem_of_union.
    + destruct (Hvis x Hx) as (sub & ? & ?). exists sub. set_solver.
    + exists sub2. set_solver.
  - intros x sub [Hsub| ->%list_elem_of_singleton]%elem_of_app Hx.
    + destruct (Hback x sub Hsub Hx); [left|right]; set_solver.
    + destruct (decide (x = start)) as [->|]; [right; set_solver|left]. set_solver.
Qed.

Lemma getConnectedSubgraphs_Some :
  ∃ subs, getConnectedSubgraphs graph = Some subs ∧
    Forall (λ sub, ∃ start, component graph start sub) subs ∧
    (∀ i j s1 s2, subs !! i = Some s1 → subs !! j = Some s2 → i ≠ j → nodes s1 ## nodes s2) ∧
    (∀ x, x ∈ nodes graph → ∃ sub, sub ∈ subs ∧ x ∈ nodes sub).
Proof.
  unfold getConnectedSubgraphs.
  match goal with |- context [ofold ?f ?b ?l] =>
    destruct (ofold_total f comps_inv l b) as ([subs vis] & -> & H1 & H2 & H3 & _)
  end.
  - unfold comps_inv. simpl. split_and!; set_solver.
  - intros dn start rest [subs vis] El Hinv. case_decide as Hv.
    + eexists; split; [done|]. destruct Hinv as (Hcomp & Hdisj & Hdn & Hvis & Hback).
      split_and!; simpl in *; [done|done| |done|].
      * intros x [?| ->%list_elem_of_singleton]%elem_of_app; auto.
      * intros x sub ? ?. destruct (Hback x sub) as [|]; [done..|by left|right; set_solver].
    + destruct (comps_step _ _ _ _ _ El Hv Hinv) as (sub & vis' & -> & ?). eauto.
  - exists subs. split_and!; [done..|]. intros x Hx. apply H3. by apply elem_of_set_iter.
Qed.

End ComponentFacts.

(** ** Properties *)

Definition two_parts : Graph :=
  Graph.mergeFrom (Graph.mergeFrom emptyGraph ["a"; "c"; "e"]) ["b"; "d"].

(** C6. [getConnectedSubgraphs] terminates on every well-formed graph and splits it into its
    connected components: each subgraph has exactly the nodes reachable from one of its nodes
    and all their edges, different subgraphs share no node, and every node is in one. *)
Theorem getConnectedSubgraphs_components graph :
  graph_wf graph →
  ∃ subs, getConnectedSubgraphs graph = Some subs ∧
    Forall (λ sub, ∃ start, component graph start sub) subs ∧
    (∀ i j s1 s2, subs !! i = Some s1 → subs !! j = Some s2 → i ≠ j → nodes s1 ## nodes s2) ∧
    (∀ x, x ∈ nodes graph → ∃ sub, sub ∈ subs ∧ x ∈ nodes sub).
Proof. apply getConnectedSubgraphs_Some. Qed.

Lemma getConnectedSubgraphs_components_witness :
  (fmap (M := list) (λ g, set_iter (nodes g)) <$> getConnectedSubgraphs two_parts) =
    Some [["a"; "c"; "e"]; ["b"; "d"]] ∧
  ∃ subs, getConnectedSubgraphs two_parts = Some subs ∧
    Forall (λ sub, ∃ start, component two_parts start sub) subs ∧
    (∀ i j s1 s2, subs !! i = Some s1 → subs !! j = Some s2 → i ≠ j → nodes s1 ## nodes s2) ∧
    (∀ x, x ∈ nodes two_parts → ∃ sub, sub ∈ subs ∧ x ∈ nodes sub).
Proof.
  split; [by vm_compute|]. apply (getConnectedSubgraphs_components two_parts).
  apply mergeFrom_spec, mergeFrom_spec, emptyGraph_wf.
Defined.
