(* ===== verification/BasicPaths.v ===== *)
(** Basic paths of a query graph ([extendPath] and [findBasicCycleIntersection] of
    [src/src/include/binder/query/query_graph_simple.hpp]): the graph is pruned to its
    2-core, and the chains of degree-2 nodes between branching nodes are collected. *)

From S2P Require Import Prelude SimpleGraph.

(** The last neighbour, in set order, that is not the node the path comes from. *)
Definition next_node (nbrs : Nodes) (prev : Node) : Node :=
  foldl (λ next nbr, if decide (nbr = prev) then next else nbr) "" (set_iter nbrs).

(** [None]: an assertion fails, [path] is too short, or the fuel is exhausted. *)
Fixpoint extendPath (fuel : nat) (path : Path) (graph : Graph) (visited : Nodes) :
    option Path :=
  match fuel with
  | 0 => None
  | S fuel =>
      endn ← last path;
      nbrs ← Graph.getNeighbors graph endn;
      if decide (size nbrs ≠ 2) then
        p0 ← path !! 0;
        Some (if decide (endn ∈ visited ∨ endn = p0) then [] else path)
      else
        prev ← path !! (length path - 2);
        extendPath fuel (path ++ [next_node nbrs prev]) graph visited
  end.

Definition degree (g : Graph) (u : Node) : nat := size (nbrs_of g u).

(** The nodes of degree below two, each read with [getNeighbors]. *)
Definition to_remove (graph : Graph) : option Nodes :=
  ofold (λ acc u,
    nbrs ← Graph.getNeighbors graph u;
    Some (if decide (size nbrs < 2) then {[u]} ∪ acc else acc)) ∅ (set_iter (nodes graph)).

(** The [do ... while (true)] loop that removes the nodes of degree below two. *)
Fixpoint prune (fuel : nat) (graph : Graph) : option Graph :=
  match fuel with
  | 0 => None
  | S fuel =>
      rem ← to_remove graph;
      if decide (size rem = 0) then Some graph
      else graph' ← ofold Graph.removeNode graph (set_iter rem); prune fuel graph'
  end.

Definition paths_from (graph : Graph) (start : Node) (visited : Nodes) (paths : list Path) :
    option (list Path) :=
  nbrs ← Graph.getNeighbors graph start;
  ofold (λ paths nbr,
    path ← extendPath (S (size (nodes graph))) [start; nbr] graph visited;
    Some (if decide (0 < length path) then paths ++ [path] else paths)) paths (set_iter nbrs).

Definition collect_paths (graph : Graph) : option (list Path) :=
  fst <$> ofold (λ '(paths, visited) start,
    nbrs ← Graph.getNeighbors graph start;
    if decide (size nbrs ≤ 2) then Some (paths, visited)
    else
      paths ← paths_from graph start visited paths;
      Some (paths, {[start]} ∪ visited)) ([], ∅) (set_iter (nodes graph)).

Definition findBasicCycleIntersection (graph_ : Graph) : option (list Path) :=
  graph ← Graph.copy graph_;
  graph ← prune (S (size (nodes graph))) graph;
  collect_paths graph.

(** ** Specifications *)

(** [g'] is the 2-core of [g]: the largest induced subgraph of minimum degree two. *)
Definition is_2core (g g' : Graph) : Prop :=
  graph_wf g' ∧ nodes g' ⊆ nodes g ∧
  (∀ u v, adj g' u v ↔ adj g u v ∧ u ∈ nodes g' ∧ v ∈ nodes g') ∧
  (∀ u, u ∈ nodes g' → 2 ≤ degree g' u) ∧
  (∀ X : Nodes, X ⊆ nodes g → (∀ u, u ∈ X → 2 ≤ size (nbrs_of g u ∩ X)) → X ⊆ nodes g').

(** A basic path: a simple path whose ends branch and whose inner nodes do not. *)
Definition basic_path (g : Graph) (p : Path) : Prop :=
  2 ≤ length p ∧ NoDup p ∧
  (∀ u v, (u, v) ∈ Graph.path_pairs p → adj g u v) ∧
  (∀ x, x ∈ p → head p = Some x ∨ last p = Some x → 2 < degree g x) ∧
  (∀ x, x ∈ p → head p ≠ Some x → last p ≠ Some x → degree g x = 2).

(** ** Pruning *)

Section Prune.
Implicit Types (g : Graph).

Lemma to_remove_spec g :
  graph_wf g →
  ∃ R, to_remove g = Some R ∧ ∀ u, u ∈ R ↔ u ∈ nodes g ∧ degree g u < 2.
Proof.
  intros Hg. unfold to_remove.
  match goal with |- context [ofold ?f _ _] =>
    destruct (ofold_total f (λ dn R, ∀ u, u ∈ R ↔ u ∈ dn ∧ degree g u < 2)
      (set_iter (nodes g)) ∅) as (R & HR & Hspec) end.
  - set_solver.
  - intros dn u rest R El HR.
    assert (u ∈ nodes g) as Hu by (apply elem_of_set_iter; rewrite El; set_solver).
    rewrite (getNeighbors_wf _ _ Hg Hu). cbn [mbind option_bind].
    eexists; split; [done|]. fold (degree g u). intros x.
    rewrite elem_of_app, list_elem_of_singleton.
    case_decide; [rewrite elem_of_union, elem_of_singleton|]; rewrite HR; naive_solver.
  - exists R. split; [done|]. intros u. by rewrite Hspec, elem_of_set_iter.
Qed.

Lemma removeNodes_spec g l :
  graph_wf g → loop_free g → NoDup l → (∀ x, x ∈ l → x ∈ nodes g) →
  ∃ g', ofold Graph.removeNode g l = Some g' ∧ graph_wf g' ∧
        nodes g' = nodes g ∖ list_to_set l ∧
        ∀ u v, adj g' u v ↔ adj g u v ∧ (u ∉ l) ∧ (v ∉ l).
Proof.
  revert g. induction l as [|a l IH]; intros g Hg Hlf Hnd Hin; cbn [ofold].
  { exists g. split_and!; [done|done|set_solver|]. set_solver. }
  apply NoDup_cons in Hnd as [Ha Hnd].
  destruct (removeNode_spec g a Hg) as (g1 & -> & Hw1 & Hn1 & Ha1);
    [apply Hin; set_solver|apply Hlf|].
  cbn [mbind option_bind].
  destruct (IH g1 Hw1) as (g' & -> & Hw' & Hn' & Ha'); [|done| |].
  - intros u [Hu _]%Ha1. by apply (Hlf u).
  - intros x Hx. rewrite Hn1, elem_of_difference, elem_of_singleton. split; [apply Hin; set_solver|].
    by intros ->.
  - exists g'. split_and!; [done|done|rewrite Hn', Hn1; simpl; clear; set_solver|].
    intros u v. rewrite Ha', Ha1, !not_elem_of_cons. clear. naive_solver.
Qed.

Lemma induced_degree g g' (X : Nodes) :
  (∀ u v, adj g' u v ↔ adj g u v ∧ u ∈ X ∧ v ∈ X) →
  ∀ u, u ∈ X → nbrs_of g' u = nbrs_of g u ∩ X.
Proof. intros H u Hu. apply set_eq. intros v. unfold nbrs_of, adj in *. rewrite H. set_solver. Qed.

Lemma prune_spec fuel g :
  graph_wf g → loop_free g → size (nodes g) < fuel →
  ∃ g', prune fuel g = Some g' ∧ is_2core g g' ∧ loop_free g'.
Proof.
  revert g. induction fuel as [|fuel IH]; intros g Hg Hlf Hf; [lia|]. cbn [prune].
  destruct (to_remove_spec g Hg) as (R & -> & HR). cbn [mbind option_bind].
  case_decide as Hsz.
  - exists g. split_and!; [done| |done]. apply size_empty_inv in Hsz.
    split_and!; [done|done| | |done].
    + intros u v. split; [|tauto]. intros Ha. by pose proof (adj_nodes _ _ _ Hg Ha).
    + intros u Hu. destruct (decide (degree g u < 2)); [|lia].
      assert (u ∈ R) by by apply HR. set_solver.
  - destruct (removeNodes_spec g (set_iter R)) as (g1 & -> & Hw1 & Hn1 & Ha1);
      [done|done|apply NoDup_set_iter| |].
    { intros x Hx%elem_of_set_iter%HR. tauto. }
    cbn [mbind option_bind]. rewrite list_to_set_set_iter in Hn1.
    assert (R ⊆ nodes g) as HRs by (intros x Hx%HR; tauto).
    assert (∀ u v, adj g1 u v ↔ adj g u v ∧ u ∈ nodes g1 ∧ v ∈ nodes g1) as Hind.
    { intros u v. rewrite Ha1, Hn1, !elem_of_set_iter. split; [|set_solver].
      intros (Ha & ? & ?). destruct (adj_nodes _ _ _ Hg Ha). set_solver. }
    destruct (IH g1 Hw1) as (g' & -> & (Hw' & Hs' & Hi' & Hd' & Hm') & Hlf').
    { intros u [Hu _]%Ha1. by apply (Hlf u). }
    { assert (size (nodes g1) < size (nodes g)); [|lia]. apply subset_size.
      destruct (set_choose_or_empty R) as [[x Hx]|He]; [|by rewrite He in Hsz].
      split; rewrite Hn1; set_solver. }
    exists g'. split_and!; [done| |done]. split_and!; [done| | |done|].
    + rewrite Hn1 in Hs'. set_solver.
    + intros u v. rewrite Hi', Hind. set_solver.
    + intros X HX Hdeg.
      assert (X ⊆ nodes g1) as HX1.
      { intros u Hu. rewrite Hn1, elem_of_difference. split; [by apply HX|]. intros [_ Hlt]%HR.
        specialize (Hdeg u Hu). unfold degree in Hlt.
        assert (size (nbrs_of g u ∩ X) ≤ size (nbrs_of g u)); [|lia].
        apply subseteq_size. set_solver. }
      apply Hm'; [done|]. intros u Hu. rewrite (induced_degree _ _ _ Hind u (HX1 u Hu)).
      assert (nbrs_of g u ∩ nodes g1 ∩ X = nbrs_of g u ∩ X) as -> by set_solver. auto.
Qed.

End Prune.

(** ** Walking along a chain *)

(** The paths [extendPath] builds, latest node first: every node it walks through has
    degree two, and it never turns back. *)
Inductive chain (g : Graph) : list Node → Prop :=
  | chain_two s n : adj g s n → degree g s ≠ 2 → chain g [n; s]
  | chain_ext x e l : chain g (e :: l) → degree g e = 2 → adj g e x → head l ≠ Some x →
      chain g (x :: e :: l).

Lemma next_node_spec nbrs prev :
  size nbrs = 2 → prev ∈ nbrs →
  next_node nbrs prev ≠ prev ∧ nbrs = {[prev; next_node nbrs prev]}.
Proof.
  intros Hsz Hp. unfold next_node.
  pose proof (list_to_set_set_iter nbrs) as Hls.
  pose proof (NoDup_set_iter nbrs) as Hnd. pose proof (length_set_iter nbrs) as Hl.
  apply elem_of_set_iter in Hp.
  destruct (set_iter nbrs) as [|a [|b [|]]]; simpl in *; try lia.
  rewrite NoDup_cons, list_elem_of_singleton in Hnd. destruct Hnd as [Hab _].
  rewrite !elem_of_cons, elem_of_nil in Hp. rewrite <-Hls. clear Hls Hl Hsz.
  destruct Hp as [->|[->|[]]].
  - rewrite (decide_False (P := b = a)) by congruence. set_solver.
  - rewrite decide_True, decide_False by congruence. set_solver.
Qed.

Section Chains.
Context (g : Graph) (Hg : graph_wf g) (Hlf : loop_free g).

Lemma chain_nodes l x : chain g l → x ∈ l → x ∈ nodes g.
Proof.
  induction 1 as [s n Ha|y e l Hc IH Hd Ha Hne]; intros Hx.
  - destruct (adj_nodes _ _ _ Hg Ha). set_solver.
  - destruct (adj_nodes _ _ _ Hg Ha). set_solver.
Qed.

(** An inner node of a simple chain sits between its only two neighbours. *)
Lemma chain_inner e l x :
  chain g (e :: l) → NoDup (e :: l) → x ∈ l → last l ≠ Some x →
  ∃ l1 a b l2, e :: l = l1 ++ a :: x :: b :: l2 ∧ nbrs_of g x = {[a; b]}.
Proof.
  remember (e :: l) as p eqn:Ep. intros Hc. revert e l Ep.
  induction Hc as [s n Ha Hs|y e' l' Hc IH Hd Ha Hne]; intros e l Ep Hnd Hx Hlast; simplify_eq.
  - apply list_elem_of_singleton in Hx as ->. done.
  - apply NoDup_cons in Hnd as [Hy Hnd].
    apply elem_of_cons in Hx as [->|Hx].
    + destruct l' as [|b l2]; [done|]. exists [], e, b, l2. split; [done|].
      assert (adj g e' b) as Hb.
      { inversion Hc; subst; by apply (wf_sym _ Hg). }
      symmetry. apply leibniz_equiv, set_subseteq_size_equiv.
      * unfold adj in *. unfold nbrs_of. set_solver.
      * unfold degree in Hd. rewrite Hd, size_union, !size_singleton; [lia|].
        simpl in Hne. set_solver.
    + destruct (IH e' l' eq_refl Hnd Hx) as (l1 & a & b & l2 & E & HN).
      { intros E. apply Hlast. destruct l'; [done|]. done. }
      exists (e :: l1), a, b, l2. split; [|done]. simpl. by rewrite E.
Qed.

(** The walk visits new nodes only, until it reaches a node that branches. *)
Lemma chain_simple x l :
  chain g (x :: l) → NoDup l ∧ (x ∈ l → last l = Some x ∧ degree g x ≠ 2).
Proof.
  remember (x :: l) as p eqn:Ep. intros Hc. revert x l Ep.
  induction Hc as [s n Ha Hs|y e l' Hc IH Hd Ha Hne]; intros x l Ep; simplify_eq.
  - split; [apply NoDup_singleton|]. intros ->%list_elem_of_singleton. by apply Hlf in Ha.
  - destruct (IH e l' eq_refl) as [Hnd He].
    assert (e ∉ l') as Hel by naive_solver.
    split; [by apply NoDup_cons|].
    intros [->|Hx]%elem_of_cons; [by apply Hlf in Ha|].
    destruct l' as [|p l']; [by apply not_elem_of_nil in Hx|].
    destruct (decide (last (p :: l') = Some x)) as [Hl|Hl].
    { split; [done|]. clear -Hc Hl. remember (e :: p :: l') as q eqn:Eq.
      revert e p l' Eq Hl. induction Hc as [s n|y e0 l0 Hc IH]; intros e p l' Eq Hl; simplify_eq/=.
      - done.
      - destruct l'; [inversion Hc|]. by apply (IH p s l'). }
    exfalso.
    destruct (chain_inner e (p :: l') x) as (l1 & a & b & l2 & E & HN);
      [done|by apply NoDup_cons|done|done|].
    assert (e ∈ nbrs_of g x) as Hin by by apply (wf_sym _ Hg).
    rewrite HN in Hin. destruct l1 as [|c l1]; [by simplify_eq/=|]. injection E as _ E.
    apply Hel. rewrite E, elem_of_app, !elem_of_cons. clear - Hin. set_solver.
Qed.

Lemma chain_length x l : chain g (x :: l) → length l ≤ size (nodes g).
Proof.
  intros Hc. destruct (chain_simple _ _ Hc) as [Hnd _].
  rewrite <-(size_list_to_set (C:=gset string)) by done. apply subseteq_size.
  intros y Hy%elem_of_list_to_set. apply (chain_nodes _ _ Hc). by right.
Qed.

Lemma extendPath_unfold fuel e p l visited :
  e ∈ nodes g →
  extendPath (S fuel) (reverse (e :: p :: l)) g visited =
  if decide (degree g e ≠ 2) then
    Some (if decide (e ∈ visited ∨ last (p :: l) = Some e) then [] else reverse (e :: p :: l))
  else extendPath fuel (reverse (next_node (nbrs_of g e) p :: e :: p :: l)) g visited.
Proof.
  intros He. cbn [extendPath].
  assert (last (reverse (e :: p :: l)) = Some e) as -> by by rewrite reverse_cons, last_snoc.
  cbn [mbind option_bind]. rewrite (getNeighbors_wf _ _ Hg He). cbn [mbind option_bind].
  fold (nbrs_of g e). fold (degree g e). destruct (decide (degree g e ≠ 2)).
  - assert (reverse (e :: p :: l) !! 0 = last (p :: l)) as ->.
    { rewrite <-head_lookup, head_reverse. done. }
    destruct (last (p :: l)) as [p0|] eqn:El; [|by apply last_None in El].
    cbn [mbind option_bind]. f_equal. repeat case_decide; naive_solver.
  - assert (reverse (e :: p :: l) !! (length (reverse (e :: p :: l)) - 2) = Some p) as ->.
    { rewrite length_reverse. rewrite !reverse_cons. simpl.
      rewrite lookup_app_l by (rewrite length_app, length_reverse; simpl; lia).
      apply list_lookup_middle. rewrite length_reverse. lia. }
    cbn [mbind option_bind]. rewrite (reverse_cons (e :: p :: l)). reflexivity.
Qed.

(** [extendPath] terminates and returns either nothing or a maximal chain. *)
Lemma extendPath_spec fuel e p l visited :
  chain g (e :: p :: l) → size (nodes g) < fuel + length (p :: l) →
  ∃ path, extendPath fuel (reverse (e :: p :: l)) g visited = Some path ∧
    (path = [] ∨ ∃ x k, path = reverse (x :: k) ∧ chain g (x :: k) ∧
       (e :: p :: l) `suffix_of` (x :: k) ∧ degree g x ≠ 2 ∧ (x ∉ visited) ∧ last k ≠ Some x).
Proof.
  revert e p l. induction fuel as [|fuel IH]; intros e p l Hc Hf.
  { pose proof (chain_length _ _ Hc). lia. }
  rewrite extendPath_unfold by (apply (chain_nodes _ _ Hc); set_solver).
  case_decide as Hd.
  - eexists; split; [done|]. case_decide as Hv; [by left|]. right.
    exists e, (p :: l). split_and!; [done..| |]; naive_solver.
  - assert (degree g e = 2) as Hd2 by lia.
    assert (adj g p e) as Hpe by (inversion Hc; subst; done).
    destruct (next_node_spec (nbrs_of g e) p Hd2) as [Hne HN]; [by apply (wf_sym _ Hg)|].
    destruct (IH (next_node (nbrs_of g e) p) e (p :: l)) as (path & -> & Hpath).
    + constructor; [done|done| |simpl; congruence]. unfold adj. fold (nbrs_of g e).
      rewrite HN at 2. set_solver.
    + simpl in *. lia.
    + exists path. split; [done|]. destruct Hpath as [?|(x & k & ? & ? & Hs & ? & ? & ?)]; [by left|right].
      exists x, k. split_and!; [done|done| |done|done|done].
      etrans; [|exact Hs]. by exists [next_node (nbrs_of g e) p].
Qed.

Lemma chain_edge l u v : chain g l → (v, u) ∈ Graph.path_pairs l → adj g u v.
Proof.
  induction 1 as [s n Ha|y e l Hc IH Hd Ha Hne].
  - unfold Graph.path_pairs. simpl. intros ?%list_elem_of_singleton. by simplify_eq.
  - rewrite path_pairs_cons, elem_of_cons. intros [?|?]; [by simplify_eq|auto].
Qed.

Lemma chain_inner_degree l x :
  chain g l → x ∈ l → head l ≠ Some x → last l ≠ Some x → degree g x = 2.
Proof.
  induction 1 as [s n Ha|y e l Hc IH Hd Ha Hne]; intros Hx Hh Hl.
  - simpl in *. set_solver.
  - apply elem_of_cons in Hx as [->|Hx]; [done|].
    destruct (decide (x = e)) as [->|Hxe]; [done|]. apply IH; [done|naive_solver|].
    intros E. apply Hl. by destruct l.
Qed.

Lemma chain_last_degree l x : chain g l → last l = Some x → degree g x ≠ 2.
Proof.
  induction 1 as [s n Ha|y e l Hc IH Hd Ha Hne]; intros Hx; [by simplify_eq/=|].
  apply IH. by destruct l.
Qed.

End Chains.

Lemma path_pairs_app_last l a b :
  Graph.path_pairs (l ++ [a; b]) = Graph.path_pairs (l ++ [a]) ++ [(a, b)].
Proof.
  induction l as [|x l IH]; [done|]. destruct l as [|y l]; [done|].
  change (Graph.path_pairs ((x :: y :: l) ++ [a; b])) with
    ((x, y) :: Graph.path_pairs ((y :: l) ++ [a; b])). by rewrite IH.
Qed.

Lemma path_pairs_middle l1 a b l2 : (a, b) ∈ Graph.path_pairs (l1 ++ a :: b :: l2).
Proof.
  induction l1 as [|x l1 IH]; simpl app; [rewrite path_pairs_cons; set_solver|].
  destruct l1 as [|y l1]; simpl app in *; rewrite path_pairs_cons; set_solver.
Qed.

Lemma path_pairs_reverse l u v :
  (u, v) ∈ Graph.path_pairs (reverse l) ↔ (v, u) ∈ Graph.path_pairs l.
Proof.
  induction l as [|a l IH]; [split; intros []%elem_of_nil|].
  destruct l as [|b l]; [split; intros []%elem_of_nil|].
  rewrite !reverse_cons, <-app_assoc. simpl app. rewrite path_pairs_app_last.
  rewrite elem_of_app, list_elem_of_singleton, path_pairs_cons, elem_of_cons.
  rewrite reverse_cons in IH. rewrite IH. split; intros [?|?]; simplify_eq; auto.
Qed.

(** ** The collected paths are exactly the basic paths, one orientation each *)

Section Collect.
Context (g : Graph) (Hg : graph_wf g) (Hlf : loop_free g).
Context (Hmin : ∀ u, u ∈ nodes g → 2 ≤ degree g u).

Lemma chain_basic x k :
  chain g (x :: k) → degree g x ≠ 2 → last k ≠ Some x → basic_path g (reverse (x :: k)).
Proof.
  intros Hc Hd Hl. destruct (chain_simple g Hg Hlf _ _ Hc) as [Hnd Hx].
  assert (k ≠ []) as Hk by (inversion Hc; done).
  assert (∀ y, last (x :: k) = Some y ↔ last k = Some y) as Hlast by (intros; by destruct k).
  split_and!.
  - rewrite length_reverse. destruct k; [done|]. simpl. lia.
  - apply NoDup_reverse, NoDup_cons. split; [|done]. intros Hin. by destruct (Hx Hin).
  - intros u v Huv. rewrite path_pairs_reverse in Huv. apply (chain_edge g _ _ _ Hc Huv).
  - intros y Hy. rewrite elem_of_reverse in Hy. rewrite head_reverse, last_reverse. intros Hy'.
    assert (degree g y ≠ 2) as Hy2.
    { destruct Hy' as [Hy'|Hy']; [by apply (chain_last_degree g _ _ Hc)|by simplify_eq/=]. }
    pose proof (Hmin y (chain_nodes g Hg Hlf _ _ Hc Hy)). lia.
  - intros y Hy. rewrite elem_of_reverse in Hy. rewrite head_reverse, last_reverse. intros ??.
    by eapply chain_inner_degree.
Qed.

Lemma basic_path_reverse p : basic_path g p → basic_path g (reverse p).
Proof.
  intros (H1 & H2 & H3 & H4 & H5). split_and!.
  - by rewrite length_reverse.
  - by apply NoDup_reverse.
  - intros u v Huv. rewrite path_pairs_reverse in Huv. by apply (wf_sym _ Hg), H3.
  - intros x Hx. rewrite elem_of_reverse in Hx. rewrite head_reverse, last_reverse. naive_solver.
  - intros x Hx. rewrite elem_of_reverse in Hx. rewrite head_reverse, last_reverse. naive_solver.
Qed.

Lemma basic_path_nodes p x : basic_path g p → x ∈ p → x ∈ nodes g.
Proof.
  intros (_ & _ & _ & H4 & H5) Hx.
  assert (degree g x ≠ 0) as Hd.
  { destruct (decide (head p = Some x)); [specialize (H4 x Hx); naive_solver lia|].
    destruct (decide (last p = Some x)); [specialize (H4 x Hx); naive_solver lia|].
    rewrite H5; [lia|done..]. }
  unfold degree in Hd. destruct (set_choose_or_empty (nbrs_of g x)) as [[y Hy]|He].
  - by destruct (adj_nodes g x y Hg Hy).
  - by rewrite He, size_empty in Hd.
Qed.

Lemma basic_path_length p : basic_path g p → length p ≤ size (nodes g).
Proof.
  intros Hp. rewrite <-(size_list_to_set (C:=gset string)) by apply Hp. apply subseteq_size.
  intros y Hy%elem_of_list_to_set. by eapply basic_path_nodes.
Qed.

(** Started on the first two nodes of a basic path, [extendPath] follows it to its end. *)
Lemma extendPath_follow p z fuel rest e pr l visited :
  basic_path g p → last p = Some z → p = reverse (e :: pr :: l) ++ rest → length rest < fuel →
  extendPath fuel (reverse (e :: pr :: l)) g visited =
  Some (if decide (z ∈ visited) then [] else p).
Proof.
  intros Hp Hz. revert fuel e pr l. induction rest as [|y rest IH]; intros fuel e pr l Ep Hf;
    destruct fuel as [|fuel]; simpl in Hf; try lia.
  all: assert (e ∈ p) as He by (rewrite Ep, elem_of_app, elem_of_reverse; set_solver).
  all: rewrite extendPath_unfold by (try done; by apply (basic_path_nodes p)).
  all: pose proof Hp as (_ & Hnd & Hadj & Hend & Hin).
  all: assert (head p = last (pr :: l)) as Hh
    by (rewrite Ep, head_app, head_reverse; change (last (e :: pr :: l)) with (last (pr :: l));
        destruct (last (pr :: l)) eqn:E; [done|by apply last_None in E]).
  all: assert (e ∉ pr :: l) as Hel
    by (rewrite Ep in Hnd; apply NoDup_app in Hnd as [Hnd _];
        apply NoDup_reverse, NoDup_cons in Hnd; tauto).
  all: assert (last (pr :: l) ≠ Some e) as Hle by (intros E; apply last_Some_elem_of in E; done).
  - rewrite app_nil_r in Ep. assert (z = e) as ->.
    { rewrite Ep, last_reverse in Hz. by simplify_eq/=. }
    rewrite decide_True by (specialize (Hend e He); naive_solver lia).
    f_equal. rewrite <-Ep. repeat case_decide; naive_solver.
  - assert (last p ≠ Some e) as Hlp.
    { intros E. rewrite Ep, last_app_cons in E. apply last_Some_elem_of in E.
      rewrite Ep in Hnd. apply NoDup_app in Hnd as (_ & Hnd & _).
      apply (Hnd e); [rewrite elem_of_reverse; set_solver|done]. }
    assert (degree g e = 2) as Hd2 by (apply Hin; congruence).
    rewrite decide_False by lia.
    assert (adj g pr e) as H1.
    { apply Hadj. rewrite Ep, !reverse_cons, <-!app_assoc. apply path_pairs_middle. }
    assert (adj g e y) as H2.
    { apply Hadj. rewrite Ep, (reverse_cons (pr :: l)), <-!app_assoc. apply path_pairs_middle. }
    assert (y ≠ pr) as Hne.
    { intros ->. rewrite Ep in Hnd. apply NoDup_app in Hnd as (_ & Hnd & _).
      apply (Hnd pr); [rewrite elem_of_reverse|]; set_solver. }
    destruct (next_node_spec (nbrs_of g e) pr Hd2) as [Hn HN]; [by apply (wf_sym _ Hg)|].
    assert (y = next_node (nbrs_of g e) pr) as <-.
    { unfold adj in H2. fold (nbrs_of g e) in H2. rewrite HN in H2. set_solver. }
    apply IH; [|lia]. rewrite Ep, (reverse_cons (e :: pr :: l)), <-app_assoc. done.
Qed.

(** The paths collected from one branching node. *)
Definition new_path (start : Node) (visited : Nodes) (p : Path) : Prop :=
  basic_path g p ∧ head p = Some start ∧ ∀ z, last p = Some z → z ∉ visited.

Lemma walk_spec start nbr visited :
  2 < degree g start → adj g start nbr →
  ∃ path, extendPath (S (size (nodes g))) [start; nbr] g visited = Some path ∧
    (path = [] ∨ (new_path start visited path ∧ path !! 1 = Some nbr)) ∧
    (∀ p, new_path start visited p → p !! 1 = Some nbr → path = p).
Proof.
  intros Hd Ha.
  destruct (extendPath_spec g Hg Hlf (S (size (nodes g))) nbr start [] visited)
    as (path & Hpath & Hres); [constructor; [done|lia]|simpl; lia|].
  change (reverse [nbr; start]) with [start; nbr] in Hpath.
  exists path. split; [done|]. split.
  - destruct Hres as [->|(x & k & -> & Hc & Hs & Hx & Hv & Hl)]; [by left|right].
    split; [split_and!; [by apply chain_basic| |]|].
    + rewrite head_reverse. destruct Hs as [k' ->]. by rewrite last_app_cons.
    + intros z. rewrite last_reverse. intros. by simplify_eq/=.
    + destruct Hs as [k' ->]. rewrite reverse_app, lookup_app_l; [done|]. simpl. lia.
  - intros p (Hp & Hh & Hlast) H1.
    destruct p as [|a [|b rest]]; try done.
    cbn in Hh, H1. injection Hh as ->. injection H1 as ->.
    destruct (last (start :: nbr :: rest)) as [z|] eqn:Hz; [|by apply last_None in Hz].
    pose proof (basic_path_length _ Hp) as Hlen. simpl in Hlen.
    pose proof (extendPath_follow _ z (S (size (nodes g))) rest nbr start [] visited Hp Hz
      eq_refl ltac:(lia)) as Hfol.
    change (reverse [nbr; start]) with [start; nbr] in Hfol.
    rewrite decide_False in Hfol by auto. congruence.
Qed.

Lemma paths_from_spec start visited paths :
  start ∈ nodes g → 2 < degree g start →
  ∃ paths', paths_from g start visited paths = Some paths' ∧
    ∀ p, p ∈ paths' ↔ p ∈ paths ∨ new_path start visited p.
Proof.
  intros Hs Hd. unfold paths_from. rewrite (getNeighbors_wf _ _ Hg Hs). cbn [mbind option_bind].
  match goal with |- context [ofold ?f ?b ?l] =>
    destruct (ofold_total f (λ dn ps, ∀ p, p ∈ ps ↔ p ∈ paths ∨
      (new_path start visited p ∧ ∃ n, n ∈ dn ∧ p !! 1 = Some n)) l b) as (ps & -> & Hps) end.
  - set_solver.
  - intros dn nbr rest ps El Hps.
    assert (adj g start nbr) as Ha by (unfold adj; apply elem_of_set_iter; rewrite El; set_solver).
    destruct (walk_spec start nbr visited Hd Ha) as (path & -> & Hnew & Huniq).
    cbn [mbind option_bind]. eexists; split; [done|]. intros p.
    setoid_rewrite elem_of_app. setoid_rewrite list_elem_of_singleton.
    assert (new_path start visited p ∧ p !! 1 = Some nbr → path = p) as Hu.
    { intros [Hp H1]. by apply Huniq. }
    case_decide as Hlen.
    + rewrite elem_of_app, list_elem_of_singleton, Hps. split.
      * intros [?| ->]; [naive_solver|]. destruct Hnew as [->|?]; [simpl in Hlen; lia|naive_solver].
      * intros [?|(? & n & [?| ->] & ?)]; naive_solver.
    + rewrite Hps. split; [naive_solver|]. intros [?|(? & n & [?| ->] & ?)]; [naive_solver..|].
      rewrite <-Hu in * by done. exfalso. destruct path; simpl in *; [done|lia].
  - exists ps. split; [done|]. intros p. rewrite Hps. split; [naive_solver|].
    intros [?|Hp]; [by left|right]. split; [done|]. destruct Hp as ((Hl & _ & Hadj & _) & Hh & _).
    destruct p as [|a [|b p]]; simplify_eq/=; try lia. exists b. split; [|done].
    apply elem_of_set_iter. apply (Hadj start b). rewrite path_pairs_cons. set_solver.
Qed.

(** After the start nodes [dn]: every collected path is basic and starts at a visited node,
    no path is collected in both directions, and every basic path that starts in [dn] is
    collected in one of them. *)
Definition collect_inv (dn : list Node) (st : list Path * Nodes) : Prop :=
  (∀ x, x ∈ st.2 ↔ x ∈ dn ∧ 2 < degree g x) ∧
  (∀ p, p ∈ st.1 → basic_path g p ∧ ∃ h, head p = Some h ∧ h ∈ st.2) ∧
  (∀ p, p ∈ st.1 → reverse p ∉ st.1) ∧
  (∀ p h, basic_path g p → head p = Some h → h ∈ dn → p ∈ st.1 ∨ reverse p ∈ st.1).

Lemma collect_step dn start paths visited paths' :
  start ∉ dn → 2 < degree g start → collect_inv dn (paths, visited) →
  (∀ p, p ∈ paths' ↔ p ∈ paths ∨ new_path start visited p) →
  collect_inv (dn ++ [start]) (paths', {[start]} ∪ visited).
Proof.
  intros Hdn Hd (Hv & Hs & Ho & Hc) Hp'. simpl in *. split_and!; simpl.
  - intros x. rewrite elem_of_union, elem_of_singleton, Hv, elem_of_app, list_elem_of_singleton.
    naive_solver.
  - intros p [Hp|(Hb & Hh & _)]%Hp'.
    + destruct (Hs p Hp) as (? & h & ? & ?). split; [done|]. exists h. set_solver.
    + split; [done|]. exists start. set_solver.
  - intros p Hp Hr. apply Hp' in Hp, Hr.
    destruct Hp as [Hp|(Hb & Hh & Hl)], Hr as [Hr|(Hb' & Hh' & Hl')].
    + by apply (Ho p).
    + destruct (Hs p Hp) as (_ & h & Hh & Hhv). apply (Hl' h); [by rewrite last_reverse|done].
    + destruct (Hs _ Hr) as (_ & h & Hh' & Hhv). rewrite head_reverse in Hh'. by apply (Hl h).
    + rewrite head_reverse in Hh'. destruct Hb as (H2 & Hnd & _).
      destruct p as [|a p]; [done|]. simplify_eq/=. apply NoDup_cons in Hnd as [Hn _].
      destruct p as [|b p]; [simpl in H2; lia|]. apply Hn. by apply last_Some_elem_of.
  - intros p h Hb Hh [Hin| ->%list_elem_of_singleton]%elem_of_app.
    { destruct (Hc p h Hb Hh Hin) as [?|?]; [left|right]; apply Hp'; by left. }
    destruct (last p) as [z|] eqn:Hz; [|apply last_None in Hz; by subst].
    destruct (decide (z ∈ visited)) as [Hzv|Hzv].
    + apply Hv in Hzv as [Hzd _].
      destruct (Hc (reverse p) z) as [?|Hrr]; [by apply basic_path_reverse|by rewrite head_reverse|done| |].
      * right. apply Hp'. by left.
      * rewrite reverse_involutive in Hrr. left. apply Hp'. by left.
    + left. apply Hp'. right. split_and!; [done..|]. intros z' ?. by simplify_eq.
Qed.

Lemma collect_paths_spec :
  ∃ paths, collect_paths g = Some paths ∧
    (∀ p, p ∈ paths → basic_path g p) ∧
    (∀ p, p ∈ paths → reverse p ∉ paths) ∧
    (∀ p, basic_path g p → p ∈ paths ∨ reverse p ∈ paths).
Proof.
  unfold collect_paths.
  match goal with |- context [ofold ?f ?b ?l] =>
    destruct (ofold_total f collect_inv l b) as ([paths vis] & -> & Hv & Hs & Ho & Hc) end.
  - split_and!; set_solver.
  - intros dn start rest [paths vis] El Hinv.
    assert (start ∈ nodes g) as Hst by (apply elem_of_set_iter; rewrite El; set_solver).
    assert (start ∉ dn) as Hdn.
    { pose proof (NoDup_set_iter (nodes g)) as Hnd. rewrite El in Hnd.
      apply NoDup_app in Hnd as (_ & Hnd & _). intros Hin. apply (Hnd start Hin). set_solver. }
    rewrite (getNeighbors_wf _ _ Hg Hst). cbn [mbind option_bind].
    change (size (set_at (edges g) start)) with (degree g start).
    case_decide as Hd.
    + eexists; split; [done|]. destruct Hinv as (Hv & Hs & Ho & Hc).
      split_and!; [|done..|]; simpl in *.
      * intros x. rewrite Hv, elem_of_app, list_elem_of_singleton. split; [tauto|].
        intros [[?| ->] ?]; [done|lia].
      * intros p h Hb Hh [?| ->%list_elem_of_singleton]%elem_of_app; [by eapply Hc|].
        exfalso. destruct Hb as (_ & _ & _ & He & _). destruct p as [|? p]; [done|].
        simplify_eq/=. specialize (He start ltac:(set_solver) ltac:(by left)). lia.
    + destruct (paths_from_spec start vis paths Hst ltac:(lia)) as (ps & -> & Hps).
      cbn [mbind option_bind]. eexists; split; [done|]. eapply collect_step; [done|lia|done..].
  - exists paths. split; [done|]. simpl in *.
    split_and!; [intros p Hp; by destruct (Hs p Hp)|done|].
    intros p Hp. destruct (head p) as [h|] eqn:Hh.
    + eapply Hc; [done..|]. apply elem_of_set_iter. eapply basic_path_nodes; [done|].
      destruct p; simplify_eq/=. set_solver.
    + destruct p; [|done]. destruct Hp as [? _]. simpl in *. lia.
Qed.

End Collect.

Lemma findBasicCycleIntersection_Some g :
  graph_wf g → loop_free g →
  ∃ core paths, findBasicCycleIntersection g = Some paths ∧ is_2core g core ∧
    loop_free core ∧
    (∀ p, p ∈ paths → basic_path core p) ∧
    (∀ p, p ∈ paths → reverse p ∉ paths) ∧
    (∀ p, basic_path core p → p ∈ paths ∨ reverse p ∈ paths).
Proof.
  intros Hg Hlf. unfold findBasicCycleIntersection. rewrite copy_id by done.
  cbn [mbind option_bind].
  destruct (prune_spec (S (size (nodes g))) g Hg Hlf ltac:(lia)) as (core & -> & Hcore & Hlf').
  cbn [mbind option_bind]. pose proof Hcore as (Hw & _ & _ & Hmin & _).
  destruct (collect_paths_spec core Hw Hlf' Hmin) as (paths & -> & ? & ? & ?).
  exists core, paths. split_and!; done.
Qed.

(** ** Properties *)

(** A square with one diagonal and a pendant node. *)
Definition kite : Graph := Graph.mergeFrom emptyGraph ["a"; "b"; "c"; "d"; "a"; "c"; "p"].

Lemma kite_wf : graph_wf kite.
Proof. apply mergeFrom_spec, emptyGraph_wf. Qed.

Lemma loop_free_check g : graph_wf g → set_Forall (λ u, ¬ adj g u u) (nodes g) → loop_free g.
Proof. intros Hg H u Hu. destruct (adj_nodes _ _ _ Hg Hu) as [Hn _]. by apply (H u Hn). Qed.

(** C5. The pruning loop of [findBasicCycleIntersection] terminates and computes the 2-core:
    the induced subgraph on the largest set of nodes that have at least two neighbours in it. *)
Theorem prune_2core g :
  graph_wf g → loop_free g →
  ∃ core, prune (S (size (nodes g))) g = Some core ∧ is_2core g core.
Proof.
  intros Hg Hlf. destruct (prune_spec (S (size (nodes g))) g Hg Hlf ltac:(lia)) as (core & ? & ? & _).
  eauto.
Qed.

Lemma prune_2core_witness :
  ∃ core, prune (S (size (nodes kite))) kite = Some core ∧ is_2core kite core.
Proof. apply (prune_2core kite kite_wf). apply (loop_free_check _ kite_wf). by_eval. Defined.

(** C4. [findBasicCycleIntersection] returns, on every loop-free graph, exactly the basic
    paths of its 2-core (simple paths between branching nodes through nodes of degree two),
    each in one of its two directions. *)
Theorem findBasicCycleIntersection_exact g :
  graph_wf g → loop_free g →
  ∃ core paths, findBasicCycleIntersection g = Some paths ∧ is_2core g core ∧
    (∀ p, p ∈ paths → basic_path core p ∧ reverse p ∉ paths) ∧
    (∀ p, basic_path core p → p ∈ paths ∨ reverse p ∈ paths).
Proof.
  intros Hg Hlf.
  destruct (findBasicCycleIntersection_Some g Hg Hlf) as (core & paths & ? & ? & _ & ? & ? & ?).
  exists core, paths. split_and!; auto.
Qed.

Lemma findBasicCycleIntersection_exact_witness :
  findBasicCycleIntersection kite = Some [["a"; "b"; "c"]; ["a"; "c"]; ["a"; "d"; "c"]] ∧
  ∃ core paths, findBasicCycleIntersection kite = Some paths ∧ is_2core kite core ∧
    (∀ p, p ∈ paths → basic_path core p ∧ reverse p ∉ paths) ∧
    (∀ p, basic_path core p → p ∈ paths ∨ reverse p ∈ paths).
Proof.
  split; [by vm_compute|].
  apply (findBasicCycleIntersection_exact kite kite_wf). apply (loop_free_check _ kite_wf). by_eval.
Defined.
