(* ===== verification/CycleJoin.v ===== *)
(** Cycle joins of a query graph: [findCycleJoin], [compareCycleJoin], [findBestCycleJoin]
    and [findCyclePathIntersection] of
    [src/src/include/binder/query/query_graph_simple.hpp].  [std::shuffle] with a random
    generator is the parameter [shuffle]. *)

From S2P Require Import Prelude SimpleGraph BasicPaths.

Definition BuildPathLengthLimit : nat := 3.

(** [building_graphs]: for each probe node, the path to each intersection node. *)
Abbreviation Building := (gmap string (gmap string (list string))).

Definition ensure (bg : Building) (v : Node) : Building :=
  match bg !! v with Some _ => bg | None => <[v := ∅]> bg end.

Definition set_path (bg : Building) (v i : Node) (p : Path) : Building :=
  let bg := ensure bg v in
  <[v := <[i := p]> (default ∅ (bg !! v))]> bg.

(** [if (!bg[v].contains(i) || bg[v][i].size() > path.size())] *)
Definition better (bg : Building) (v i : Node) (path : Path) : bool :=
  match default ∅ (ensure bg v !! v) !! i with
  | None => true
  | Some q => bool_decide (length path < length q)
  end.

Definition interior (path : Path) : Path := take (length path - 2) (drop 1 path).

(** The body of [for (auto& path : basic_paths)]; [path[0]] and [path.back()] need a
    non-empty path. *)
Definition add_basic_path (V_probe : Nodes) (bg : Building) (path : Path) : option Building :=
  hd ← path !! 0;
  tl ← last path;
  if existsb (λ x, bool_decide (x ∈ V_probe)) (interior path) then Some bg
  else if decide (hd ∈ V_probe) then
    if decide (tl ∈ V_probe) then
      if decide (length path < 2 * BuildPathLengthLimit ∧ 2 < length path) then
        let mid := length path / 2 in
        let from_head := take (mid + 1) path in
        let from_tail := reverse (drop mid path) in
        intersect ← path !! mid;
        Some (set_path (set_path bg hd intersect from_head) tl intersect from_tail)
      else Some bg
    else if decide (BuildPathLengthLimit < length path) then Some bg
    else Some (if better bg hd tl path then set_path bg hd tl path else ensure bg hd)
  else if decide (tl ∈ V_probe) then
    if decide (BuildPathLengthLimit < length path) then Some bg
    else Some (if better bg tl hd path then set_path bg tl hd (reverse path) else ensure bg tl)
  else Some bg.

(** [intersect_node_counts]: in how many entries each intersection node occurs. *)
Definition intersect_counts (bg : Building) : gmap string nat :=
  foldl (λ counts '(_, intersect_nodes),
    foldl (λ counts '(v_intersect, _),
      match counts !! v_intersect with
      | Some n => <[v_intersect := n + 1]> counts
      | None => <[v_intersect := 1]> counts
      end) counts (map_iter (intersect_nodes : gmap string (list string)))) ∅ (map_iter bg).

Definition probe_removals (bg : Building) : Nodes :=
  foldl (λ acc '(v_probe, intersect_nodes),
    if decide (size (intersect_nodes : gmap string (list string)) < 2) then {[v_probe]} ∪ acc
    else acc) ∅ (map_iter bg).

Definition intersect_removals (counts : gmap string nat) : Nodes :=
  foldl (λ acc '(v, count), if decide (count < 2) then {[v]} ∪ acc else acc) ∅ (map_iter counts).

(** [for (remove_node) for (entry) if (entry.contains(remove_node)) erase, removal = true]. *)
Definition erase_intersects (st : Building * bool) (rem : Nodes) : Building * bool :=
  foldl (λ '(bg, removal) remove_node,
    foldl (λ '(bg, removal) '(v_probe, intersect_nodes),
      match (intersect_nodes : gmap string (list string)) !! remove_node with
      | Some _ => (<[v_probe := delete remove_node intersect_nodes]> bg, true)
      | None => (bg, removal)
      end) (bg, removal) (map_iter bg)) st (set_iter rem).

(** One iteration of the [do ... while (removal)] loop. *)
Definition prune_round (bg : Building) : Building * bool :=
  let probe_remove := probe_removals bg in
  let counts := intersect_counts bg in
  let bg' := foldl (λ bg v, delete v bg) bg (set_iter probe_remove) in
  erase_intersects (bg', bool_decide (probe_remove ≠ ∅)) (intersect_removals counts).

Fixpoint prune_building (fuel : nat) (bg : Building) : option Building :=
  match fuel with
  | 0 => None
  | S fuel => let '(bg', removal) := prune_round bg in
              if removal : bool then prune_building fuel bg' else Some bg'
  end.

(** Probe nodes and (probe, intersection) pairs left: what the pruning loop consumes. *)
Definition bg_pairs (bg : Building) : gset (string * string) :=
  list_to_set (concat ((λ '(v, m), (v,.) <$> elements (dom (m : gmap string (list string))))
                       <$> map_to_list bg)).
Definition building_size (bg : Building) : nat := size (dom bg) + size (bg_pairs bg).

Definition trees_of (bg : Building) : list (list Path) :=
  (λ '(_, m), (map_iter (m : gmap string (list string))).*2) <$> map_iter bg.

Definition findCycleJoin (V_probe : Nodes) (basic_paths : list Path) :
    option (list (list Path)) :=
  bg ← ofold (add_basic_path V_probe) ∅ basic_paths;
  bg ← prune_building (S (building_size bg)) bg;
  Some (trees_of bg).

(** [size_t] sums of [paths.size() - 1] and of [path.size() - 2]. *)
Definition tree_score (trees : list (list Path)) : Z :=
  foldl (λ s paths, u64 (s + u64 (Z.of_nat (length paths) - 1))) 0%Z trees.
Definition path_score (trees : list (list Path)) : Z :=
  foldl (λ t paths,
    foldl (λ t (path : Path), u64 (t + u64 (Z.of_nat (length path) - 2))) t paths) 0%Z trees.

Definition compareCycleJoin (a b : Nodes) (basic_paths : list Path) : option bool :=
  trees_a ← findCycleJoin a basic_paths;
  trees_b ← findCycleJoin b basic_paths;
  Some (
    if decide (length trees_a = 0) then false
    else if decide (length trees_b = 0) then true
    else
      let s_a := tree_score trees_a in let s_b := tree_score trees_b in
      if decide (s_b < s_a ∧ 0 < s_a)%Z then true
      else
        let t_a := path_score trees_a in let t_b := path_score trees_b in
        if decide (t_a < t_b)%Z then true
        else bool_decide (size a < size b)).

(** [for i: if (compareCycleJoin(P[i].nodes, G_probe.nodes)) G_probe = P[i]]; the flag is
    [!no_improvement]. *)
Definition best_of (P : list Graph) (G_probe : Graph) (P_basic : list Path) :
    option (Graph * bool) :=
  ofold (λ '(G, improved) Pi,
    b ← compareCycleJoin (nodes Pi) (nodes G) P_basic;
    Some (if b : bool then (Pi, true) else (G, improved))) (G_probe, false) P.

Definition next_candidates (G_probe : Graph) (P_basic : list Path) : option (list Graph) :=
  ofold (λ acc basic,
    G_basic ← pathToGraph basic;
    if Graph.isConnectedAndDifferent G_probe G_basic then
      m ← Graph.merge G_probe G_basic; Some (acc ++ [m])
    else Some acc) [] P_basic.

Fixpoint search (fuel : nat) (P : list Graph) (G_probe : Graph) (P_basic : list Path) :
    option Graph :=
  match fuel with
  | 0 => None
  | S fuel =>
      '(G, improved) ← best_of P G_probe P_basic;
      if improved : bool then
        P_next ← next_candidates G P_basic;
        if decide (0 < length P_next) then search fuel P_next G P_basic else Some G
      else Some G
  end.

(** The induced edges of [Q] between probe nodes. *)
Definition close_edges (Q G_probe : Graph) : option Graph :=
  ofold (λ G u,
    nbrs ← Graph.getNeighbors Q u;
    ofold (λ G v, if decide (v ∈ nodes G) then Graph.addEdge G u v else Some G) G
      (set_iter nbrs)) G_probe (set_iter (nodes G_probe)).

Definition findBestCycleJoin (shuffle : list Path → list Path) (Q : Graph)
    (shuffle_basic_paths : bool) : option (Graph * list (list Path)) :=
  P_basic ← findBasicCycleIntersection Q;
  if decide (length P_basic = 0) then Some (emptyGraph, [])
  else
    let P_basic := if shuffle_basic_paths then shuffle P_basic else P_basic in
    P ← ofold (λ acc basic, g ← pathToGraph basic; Some (acc ++ [g])) [] P_basic;
    G_probe ← search (S (size (nodes Q))) P emptyGraph P_basic;
    G_probe ← close_edges Q G_probe;
    paths ← findCycleJoin (nodes G_probe) P_basic;
    Some (G_probe, paths).

(** [findCyclePathIntersection]: the first common position, then both directions. *)
Definition first_common (cycle_a cycle_b : Path) : option (nat * nat) :=
  i ← fst <$> list_find (λ a, a ∈ cycle_b) cycle_a;
  a ← cycle_a !! i;
  j ← fst <$> list_find (λ b, a = b) cycle_b;
  Some (i, j).

(** The loop [for (step = 1; step < limit; step++)]: extends while the two cycles agree. *)
Fixpoint extend_common (n step : nat) (at_a at_b : nat → option Node) : Path :=
  match n with
  | 0 => []
  | S n => match at_a step, at_b step with
           | Some x, Some y => if decide (x = y) then x :: extend_common n (S step) at_a at_b else []
           | _, _ => []
           end
  end.

Definition findCyclePathIntersection (cycle_a cycle_b : Path) : Path :=
  match first_common cycle_a cycle_b with
  | None => []
  | Some (i, j) =>
      let la := length cycle_a in let lb := length cycle_b in
      let fwd := extend_common (la `min` lb - 1) 1
        (λ s, cycle_a !! ((i + s) `mod` la)) (λ s, cycle_b !! ((j + s) `mod` lb)) in
      let bwd := extend_common (la `min` lb - 1) 1
        (λ s, cycle_a !! ((i + la - s) `mod` la)) (λ s, cycle_b !! ((j + lb - s) `mod` lb)) in
      let intersect := option_list (cycle_a !! i) ++ fwd ++ bwd in
      match head intersect, last intersect with
      | Some x, Some y =>
          if decide (2 ≤ length intersect) then
            if String.ltb y x then reverse intersect else intersect
          else intersect
      | _, _ => intersect
      end
  end.

(** ** What a building graph contains *)

(** A path of a building tree: from a probe node [v] to an intersection node [i] outside the
    probe side, through nodes outside the probe side, along the edges of one basic path. *)
Record entry_ok (V : Nodes) (basics : list Path) (v i : Node) (p : Path) : Prop := {
  eo_probe : v ∈ V;
  eo_head : head p = Some v;
  eo_last : last p = Some i;
  eo_len : 2 ≤ length p ≤ BuildPathLengthLimit;
  eo_nodup : NoDup p;
  eo_outside : ∀ x, x ∈ tail p → x ∉ V;
  eo_edges : ∃ b, b ∈ basics ∧ ∀ x y, path_edge p x y → path_edge b x y
}.

Definition bg_ok (V : Nodes) (basics : list Path) (bg : Building) : Prop :=
  ∀ v (m : gmap string (list string)) i p,
    bg !! v = Some m → m !! i = Some p → entry_ok V basics v i p.

Section Entries.
Context (V : Nodes) (basics : list Path).
Implicit Types (bg : Building).

Lemma ensure_lookup bg v w :
  ensure bg v !! w = if decide (v = w) then Some (default ∅ (bg !! w)) else bg !! w.
Proof.
  unfold ensure. destruct (bg !! v) eqn:E.
  - case_decide; subst; [by rewrite E|done].
  - rewrite lookup_insert. case_decide; subst; [by rewrite E|done].
Qed.

Lemma set_path_lookup bg v i p w :
  set_path bg v i p !! w =
  if decide (v = w) then Some (<[i := p]> (default ∅ (bg !! w))) else bg !! w.
Proof.
  unfold set_path. rewrite lookup_insert, !ensure_lookup. repeat case_decide; naive_solver.
Qed.

Lemma ensure_ok bg v : bg_ok V basics bg → bg_ok V basics (ensure bg v).
Proof.
  intros H w m i p. rewrite ensure_lookup. case_decide; [|apply H].
  intros [= <-]. destruct (bg !! w) eqn:E; simpl; [by apply H|done].
Qed.

Lemma set_path_ok bg v i p :
  bg_ok V basics bg → entry_ok V basics v i p → bg_ok V basics (set_path bg v i p).
Proof.
  intros H Hp w m j q. rewrite set_path_lookup. case_decide; [subst|apply H].
  intros [= <-]. rewrite lookup_insert. case_decide; subst; [by intros [= <-]|].
  destruct (bg !! w) eqn:E; simpl; [by apply H|done].
Qed.

Lemma interior_outside path :
  existsb (λ x, bool_decide (x ∈ V)) (interior path) = false →
  ∀ x, x ∈ interior path → x ∉ V.
Proof.
  intros H x Hx Hv. apply not_true_iff_false in H. apply H, existsb_exists.
  exists x. split; [by apply list_elem_of_In|]. by apply bool_decide_eq_true.
Qed.

Lemma path_edge_reverse p x y : path_edge (reverse p) x y ↔ path_edge p x y.
Proof. unfold path_edge. rewrite !path_pairs_reverse. tauto. Qed.

Lemma path_edge_two a b x y : path_edge [a; b] x y ↔ (x = a ∧ y = b) ∨ (x = b ∧ y = a).
Proof. rewrite path_edge_cons. unfold path_edge, Graph.path_pairs. simpl. set_solver. Qed.

Lemma entry_two a b :
  a ∈ V → b ∉ V → (∃ q, q ∈ basics ∧ path_edge q a b) → entry_ok V basics a b [a; b].
Proof.
  intros Ha Hb (q & Hq & He). split; [done..|unfold BuildPathLengthLimit; simpl; lia| | |].
  - rewrite NoDup_cons. split; [|apply NoDup_singleton]. intros ->%list_elem_of_singleton. done.
  - simpl. set_solver.
  - exists q. split; [done|]. intros x y [[-> ->]|[-> ->]]%path_edge_two; [done|].
    by rewrite path_edge_sym.
Qed.

Lemma entry_three a b c :
  a ∈ V → b ∉ V → c ∉ V → b ≠ c → (∃ q, q ∈ basics ∧ path_edge q a b ∧ path_edge q b c) →
  entry_ok V basics a c [a; b; c].
Proof.
  intros Ha Hb Hc Hbc (q & Hq & He1 & He2).
  split; [done..|unfold BuildPathLengthLimit; simpl; lia| | |].
  - rewrite !NoDup_cons, NoDup_nil. set_solver.
  - simpl. set_solver.
  - exists q. split; [done|]. intros x y [[-> ->]|[[-> ->]|[[-> ->]|[-> ->]]%path_edge_two]]%path_edge_cons;
      [done|by rewrite path_edge_sym|done|by rewrite path_edge_sym].
Qed.

(** The edges of a path, by position. *)
Lemma path_edge_here a b l : path_edge (a :: b :: l) a b.
Proof. rewrite path_edge_cons. auto. Qed.
Lemma path_edge_there a b l x y : path_edge (b :: l) x y → path_edge (a :: b :: l) x y.
Proof. rewrite path_edge_cons. auto. Qed.
Lemma path_edge_flip p x y : path_edge p y x → path_edge p x y.
Proof. by rewrite path_edge_sym. Qed.
#[local] Hint Resolve path_edge_here path_edge_there : cj.

Lemma add_basic_path_ok bg path :
  path ∈ basics → 2 ≤ length path → NoDup path → bg_ok V basics bg →
  ∃ bg', add_basic_path V bg path = Some bg' ∧ bg_ok V basics bg'.
Proof.
  intros Hin Hlen Hnd Hbg. unfold add_basic_path.
  destruct path as [|a [|b path]]; simpl in Hlen; try lia. cbn [lookup list_lookup mbind option_bind].
  destruct (last (a :: b :: path)) as [z|] eqn:Hz; [|by apply last_None in Hz].
  cbn [mbind option_bind].
  destruct (existsb _ _) eqn:Hex; [by eauto|].
  pose proof (interior_outside _ Hex) as Hout. clear Hex. unfold interior in Hout.
  unfold BuildPathLengthLimit.
  destruct (decide (a ∈ V)) as [Ha|Ha]; [destruct (decide (z ∈ V)) as [Hzv|Hzv]|
    destruct (decide (z ∈ V)) as [Hzv|Hzv]].
  all: try (case_decide as Hl; [|by eauto]).
  all: try (case_decide as Hl; [by eauto|]).
  - destruct path as [|c [|d [|e [|f path]]]]; simpl in Hl; try lia; simpl in Hz; simplify_eq;
      rewrite !NoDup_cons in Hnd;
      (eexists; split; [reflexivity|]); repeat apply set_path_ok; try done.
    + apply entry_two; [done|apply Hout; set_solver|]. exists [a; b; z]. auto with cj.
    + apply entry_two; [done|apply Hout; set_solver|]. exists [a; b; z].
      split; [done|]. apply path_edge_flip. auto with cj.
    + apply entry_three; [done|apply Hout; set_solver..|set_solver|]. exists [a; b; c; z]. auto with cj.
    + apply entry_two; [done|apply Hout; set_solver|]. exists [a; b; c; z].
      split; [done|]. apply path_edge_flip. auto with cj.
    + apply entry_three; [done|apply Hout; set_solver..|set_solver|].
      exists [a; b; c; d; z]. auto with cj.
    + apply entry_three; [done|apply Hout; set_solver..|set_solver|].
      exists [a; b; c; d; z]. split; [done|]. split; apply path_edge_flip; auto 6 with cj.
  - eexists; split; [done|]. destruct (better _ _ _ _); [|by apply ensure_ok].
    apply set_path_ok; [done|]. rewrite !NoDup_cons in Hnd.
    destruct path as [|c [|d path]]; simpl in Hl; try lia; simpl in Hz; simplify_eq.
    + apply entry_two; [done..|]. eexists; split; [done|]; auto with cj.
    + apply entry_three; [done|apply Hout; set_solver|done|set_solver|]. eexists; split; [done|]; auto with cj.
  - eexists; split; [done|]. destruct (better _ _ _ _); [|by apply ensure_ok].
    apply set_path_ok; [done|]. rewrite !NoDup_cons in Hnd.
    destruct path as [|c [|d path]]; simpl in Hl; try lia; simpl in Hz; simplify_eq.
    + apply entry_two; [done..|]. eexists; split; [done|]. apply path_edge_flip. auto with cj.
    + apply entry_three; [done|apply Hout; set_solver|done|set_solver|].
      eexists; split; [done|]. split; apply path_edge_flip; auto with cj.
  - by eauto.
Qed.

End Entries.

(** ** The pruning loop *)

Abbreviation Entry := (gmap string (list string)).

(** [i] is an intersection node of the entry of [v]. *)
Definition bg_has (bg : Building) (v i : Node) : Prop :=
  ∃ m : Entry, bg !! v = Some m ∧ is_Some (m !! i).

(** The number of entries that contain [i]. *)
Definition cnt (bg : Building) (i : Node) : nat :=
  length (filter (λ vm : string * Entry, is_Some (vm.2 !! i)) (map_iter bg)).

(** Every probe node keeps two intersection nodes, every intersection node two probes. *)
Definition bg_stable (bg : Building) : Prop :=
  (∀ v (m : Entry), bg !! v = Some m → 2 ≤ size m) ∧
  (∀ v i, bg_has bg v i → 2 ≤ cnt bg i).

(** [bg'] keeps some of the entries of [bg], with their paths. *)
Definition bg_sub (bg' bg : Building) : Prop :=
  ∀ v (m' : Entry), bg' !! v = Some m' → ∃ m : Entry, bg !! v = Some m ∧ m' ⊆ m.

Section PruneRound.
Implicit Types (bg : Building).

Lemma count_inner (m : Entry) (counts : gmap string nat) i :
  default 0 (foldl (λ counts '(v_intersect, _),
      match counts !! v_intersect with
      | Some n => <[v_intersect := n + 1]> counts
      | None => <[v_intersect := 1]> counts
      end) counts (map_iter m) !! i) =
  default 0 (counts !! i) + (if decide (is_Some (m !! i)) then 1 else 0).
Proof.
  pose proof (foldl_inv (λ (counts : gmap string nat) '((v_intersect, _) : string * Path),
      match counts !! v_intersect with
      | Some n => <[v_intersect := n + 1]> counts
      | None => <[v_intersect := 1]> counts
      end)
    (λ dn c', default 0 (c' !! i) = default 0 (counts !! i) +
       (if decide (i ∈ dn.*1) then 1 else 0)) (map_iter m) counts) as H.
  rewrite H.
  - rewrite map_iter_fst. repeat case_decide; try done; rewrite elem_of_set_iter, elem_of_dom in *; done.
  - simpl. lia.
  - clear H. intros dn [v q] rest c El Hc. rewrite fmap_app. simpl.
    assert (v ∉ dn.*1) as Hv.
    { pose proof (NoDup_set_iter (dom m)) as Hnd. rewrite <-map_iter_fst, El, fmap_app in Hnd.
      apply NoDup_app in Hnd as (_ & Hnd & _). intros Hin. apply (Hnd v Hin). simpl. set_solver. }
    assert (match c !! v with Some n => <[v := n + 1]> c | None => <[v := 1]> c end =
            <[v := default 0 (c !! v) + 1]> c) as -> by by destruct (c !! v).
    rewrite lookup_insert. destruct (decide (v = i)) as [->|Hne]; simpl.
    + rewrite Hc. rewrite (decide_False (P := i ∈ dn.*1)), decide_True by set_solver. lia.
    + rewrite Hc. repeat case_decide; try lia; set_solver.
Qed.

Lemma counts_spec bg i : default 0 (intersect_counts bg !! i) = cnt bg i.
Proof.
  unfold intersect_counts, cnt.
  assert (∀ l (c : gmap string nat), default 0 (foldl (λ counts '(_, intersect_nodes),
    foldl (λ counts '(v_intersect, _),
      match counts !! v_intersect with
      | Some n => <[v_intersect := n + 1]> counts
      | None => <[v_intersect := 1]> counts
      end) counts (map_iter (intersect_nodes : Entry))) c l !! i) =
    default 0 (c !! i) + length (filter (λ vm : string * Entry, is_Some (vm.2 !! i)) l)) as H.
  { induction l as [|[v m] l IH]; intros c; [simpl; lia|]. cbn [foldl].
    rewrite IH, count_inner, filter_cons. simpl. repeat case_decide; simpl; lia. }
  rewrite H. by rewrite lookup_empty.
Qed.

Lemma counts_pos bg i n : intersect_counts bg !! i = Some n → 0 < n.
Proof.
  unfold intersect_counts. revert i n.
  apply (foldl_inv (λ counts '(_, intersect_nodes), _)
    (λ _ c, ∀ i n, c !! i = Some n → 0 < n) (map_iter bg) ∅); [done|].
  intros dn [v m] rest c _ Hc.
  apply (foldl_inv (λ (counts : gmap string nat) '(v_intersect, _), _)
    (λ _ c, ∀ i n, c !! i = Some n → 0 < n) (map_iter m) c); [done|].
  intros dn' [w q] rest' c' _ Hc' i n.
  destruct (c' !! w) eqn:E; rewrite lookup_insert; case_decide; naive_solver lia.
Qed.

Lemma intersect_removals_spec bg i : i ∈ intersect_removals (intersect_counts bg) ↔ cnt bg i = 1.
Proof.
  unfold intersect_removals.
  assert (∀ (l : list (string * nat)) (X : Nodes), i ∈ foldl (λ acc '(v, count),
      if decide (count < 2) then {[v]} ∪ acc else acc) X l ↔
      i ∈ X ∨ ∃ n, (i, n) ∈ l ∧ n < 2) as H.
  { induction l as [|[v n] l IH]; intros X; cbn [foldl]; [set_solver|].
    rewrite IH. setoid_rewrite elem_of_cons. case_decide; set_solver. }
  rewrite H. setoid_rewrite elem_of_map_iter. pose proof (counts_spec bg i) as Hc.
  split.
  - intros [?|(n & Hn & Hlt)]; [set_solver|]. pose proof (counts_pos _ _ _ Hn).
    rewrite Hn in Hc. simpl in Hc. lia.
  - intros E. right. destruct (intersect_counts bg !! i) as [n|]; simpl in Hc; [|lia].
    exists n. split; [done|lia].
Qed.

Lemma probe_removals_spec bg v :
  v ∈ probe_removals bg ↔ ∃ m : Entry, bg !! v = Some m ∧ size m < 2.
Proof.
  unfold probe_removals.
  assert (∀ (l : list (string * Entry)) (X : Nodes), v ∈ foldl (λ acc '(v_probe, intersect_nodes),
      if decide (size (intersect_nodes : Entry) < 2) then {[v_probe]} ∪ acc else acc) X l ↔
      v ∈ X ∨ ∃ m, (v, m) ∈ l ∧ size m < 2) as H.
  { induction l as [|[w m] l IH]; intros X; cbn [foldl]; [set_solver|].
    rewrite IH. setoid_rewrite elem_of_cons. case_decide; set_solver. }
  rewrite H. setoid_rewrite elem_of_map_iter. set_solver.
Qed.

Lemma delete_probes_lookup bg l v :
  foldl (λ bg v, delete v bg) bg l !! v = if decide (v ∈ l) then None else bg !! v.
Proof.
  revert bg. induction l as [|w l IH]; intros bg; [done|]. cbn [foldl]. rewrite IH.
  rewrite lookup_delete. repeat case_decide; set_solver.
Qed.

Lemma erase_one bg removal r :
  ∃ removal', foldl (λ '(bg, removal) '(v_probe, intersect_nodes),
      match (intersect_nodes : Entry) !! r with
      | Some _ => (<[v_probe := delete r intersect_nodes]> bg, true)
      | None => (bg, removal)
      end) (bg, removal) (map_iter bg) = (delete r <$> bg, removal') ∧
    (removal' = true ↔ removal = true ∨ ∃ v, bg_has bg v r).
Proof.
  match goal with |- context [foldl ?f ?b0 ?l] =>
    pose proof (foldl_inv f (λ dn '(b, rm),
      (∀ v, b !! v = if decide (v ∈ dn.*1) then delete r <$> (bg !! v) else bg !! v) ∧
      (rm = true ↔ removal = true ∨ ∃ v (m : Entry), (v, m) ∈ dn ∧ is_Some (m !! r))) l b0) as H;
    destruct (foldl f b0 l) as [b' rm'] eqn:E
  end.
  destruct H as [Hb Hrm].
  - split; [done|]. set_solver.
  - intros dn [v m] rest [b rm] El [Hb Hrm].
    assert (v ∉ dn.*1) as Hv.
    { pose proof (NoDup_set_iter (dom bg)) as Hnd. rewrite <-map_iter_fst, El, fmap_app in Hnd.
      apply NoDup_app in Hnd as (_ & Hnd & _). intros Hin. apply (Hnd v Hin). simpl. set_solver. }
    assert (bg !! v = Some m) as Hm by (apply elem_of_map_iter; rewrite El; set_solver).
    rewrite fmap_app. simpl. destruct (m !! r) eqn:Er.
    + split.
      * intros w. rewrite lookup_insert. destruct (decide (v = w)) as [->|Hne].
        -- rewrite decide_True by set_solver. by rewrite Hm.
        -- rewrite Hb. repeat case_decide; set_solver.
      * split; [|done]. intros _. right. exists v, m. rewrite Er. set_solver.
    + split.
      * intros w. rewrite Hb. destruct (decide (v = w)) as [->|Hne].
        -- rewrite decide_False, decide_True by set_solver. rewrite Hm. simpl.
           by rewrite delete_id.
        -- repeat case_decide; set_solver.
      * rewrite Hrm. setoid_rewrite elem_of_app. setoid_rewrite list_elem_of_singleton.
        split; [naive_solver|]. intros [?|(w & m' & [?|?] & [? ?])]; simplify_eq; naive_solver.
  - exists rm'. split.
    + f_equal. apply map_eq. intros v. rewrite Hb, lookup_fmap, map_iter_fst.
      case_decide as Hv; [done|]. rewrite elem_of_set_iter in Hv.
      apply not_elem_of_dom in Hv. by rewrite Hv.
    + rewrite Hrm. setoid_rewrite elem_of_map_iter. unfold bg_has. naive_solver.
Qed.

Lemma erase_intersects_spec bg removal R :
  ∃ bg' removal', erase_intersects (bg, removal) R = (bg', removal') ∧
    (∀ v, bg' !! v = filter (λ ip : string * Path, ip.1 ∉ R) <$> (bg !! v)) ∧
    (removal' = true ↔ removal = true ∨ ∃ v i, bg_has bg v i ∧ i ∈ R).
Proof.
  unfold erase_intersects.
  assert (∀ l bg removal, ∃ bg' removal', foldl (λ '(bg, removal) remove_node,
    foldl (λ '(bg, removal) '(v_probe, intersect_nodes),
      match (intersect_nodes : Entry) !! remove_node with
      | Some _ => (<[v_probe := delete remove_node intersect_nodes]> bg, true)
      | None => (bg, removal)
      end) (bg, removal) (map_iter bg)) (bg, removal) l = (bg', removal') ∧
    (∀ v, bg' !! v = filter (λ ip : string * Path, ip.1 ∉ l) <$> (bg !! v)) ∧
    (removal' = true ↔ removal = true ∨ ∃ v i, bg_has bg v i ∧ i ∈ l)) as H.
  { clear bg removal R. induction l as [|r l IH]; intros bg removal.
    - exists bg, removal. split_and!; [done| |set_solver]. intros v.
      destruct (bg !! v) as [m|]; simpl; [|done]. f_equal. symmetry. apply map_filter_id.
      set_solver.
    - cbn [foldl]. destruct (erase_one bg removal r) as (rm1 & -> & Hrm1).
      destruct (IH (delete r <$> bg) rm1) as (bg' & rm' & -> & Hbg' & Hrm').
      exists bg', rm'. split_and!; [done| |].
      + intros v. rewrite Hbg', lookup_fmap. destruct (bg !! v) as [m|]; simpl; [|done]. f_equal.
        apply map_eq. intros i. apply option_eq. intros q.
        rewrite !map_lookup_filter_Some, lookup_delete_Some. simpl. set_solver.
      + rewrite Hrm', Hrm1. unfold bg_has. setoid_rewrite lookup_fmap.
        setoid_rewrite fmap_Some. setoid_rewrite elem_of_cons. split.
        * intros [[?|(v & m & ? & ?)]|(v & i & (m & (m0 & ? & ->) & Hi) & ?)]; [by left|right..].
          -- exists v, r. split; [by exists m|by left].
          -- exists v, i. rewrite lookup_delete_is_Some in Hi. split; [exists m0; tauto|by right].
        * intros [?|(v & i & (m & Hm & Hi) & [->|Hil])]; [by auto| |].
          -- left. right. by exists v, m.
          -- destruct (decide (r = i)) as [->|Hne]; [left; right; by exists v, m|].
             right. exists v, i. split; [|done]. exists (delete r m). split; [by exists m|].
             by rewrite lookup_delete_is_Some. }
  destruct (H (set_iter R) bg removal) as (bg' & rm' & E & Hb & Hr).
  exists bg', rm'. split_and!; [exact E| |].
  - intros v. rewrite Hb. destruct (bg !! v) as [m|]; simpl; [|done]. f_equal.
    apply map_filter_ext. intros i q _. simpl. by rewrite elem_of_set_iter.
  - rewrite Hr. by setoid_rewrite elem_of_set_iter.
Qed.

Lemma prune_round_spec bg :
  ∃ bg' removal, prune_round bg = (bg', removal) ∧
    (∀ v m', bg' !! v = Some m' ↔ ∃ m : Entry, bg !! v = Some m ∧ 2 ≤ size m ∧
       m' = filter (λ ip : string * Path, cnt bg ip.1 ≠ 1) m) ∧
    (removal = true ↔
       (∃ v (m : Entry), bg !! v = Some m ∧ size m < 2) ∨
       (∃ v i (m : Entry), bg !! v = Some m ∧ 2 ≤ size m ∧ is_Some (m !! i) ∧ cnt bg i = 1)).
Proof.
  unfold prune_round. set (bg1 := foldl _ _ _).
  assert (∀ v m, bg1 !! v = Some m ↔ bg !! v = Some m ∧ 2 ≤ size m) as H1.
  { intros v m. unfold bg1. rewrite delete_probes_lookup.
    case_decide as Hv; rewrite elem_of_set_iter, probe_removals_spec in Hv.
    - split; [done|]. intros [Hm ?]. destruct Hv as (m0 & Hm0 & ?). simplify_eq. lia.
    - split; [|tauto]. intros Hm. split; [done|].
      destruct (decide (size m < 2)); [|lia]. exfalso. apply Hv. by exists m. }
  destruct (erase_intersects_spec bg1 (bool_decide (probe_removals bg ≠ ∅))
    (intersect_removals (intersect_counts bg))) as (bg' & rm & -> & Hbg' & Hrm).
  exists bg', rm. split_and!; [done| |].
  - intros v m'. rewrite Hbg', fmap_Some. setoid_rewrite H1.
    assert (∀ m : Entry, filter (λ ip : string * Path, ip.1 ∉ intersect_removals (intersect_counts bg)) m =
              filter (λ ip : string * Path, cnt bg ip.1 ≠ 1) m) as Hext.
    { intros m. apply map_filter_ext. intros i q _. simpl. by rewrite intersect_removals_spec. }
    setoid_rewrite Hext. naive_solver.
  - rewrite Hrm, bool_decide_eq_true. unfold bg_has. setoid_rewrite H1.
    setoid_rewrite intersect_removals_spec.
    split.
    + intros [Hne|(v & i & (m & [? ?] & ?) & ?)]; [left|right; by eauto 10].
      destruct (set_choose_or_empty (probe_removals bg)) as [[v Hv]|He]; [|set_solver].
      apply probe_removals_spec in Hv as (m & ? & ?). by eauto.
    + intros [(v & m & ? & ?)|(v & i & m & ? & ? & ? & ?)]; [left|right; by eauto 10].
      intros He. assert (v ∈ probe_removals bg); [|set_solver]. apply probe_removals_spec. by eauto.
Qed.

Lemma elem_of_bg_pairs bg v i : (v, i) ∈ bg_pairs bg ↔ bg_has bg v i.
Proof.
  unfold bg_pairs, bg_has. rewrite elem_of_list_to_set, list_elem_of_In, in_concat.
  setoid_rewrite <-list_elem_of_In. split.
  - intros (l & Hl & Hvi). apply list_elem_of_fmap in Hl as ([w m] & -> & Hm).
    apply list_elem_of_fmap in Hvi as (j & Ej & Hj). simplify_eq. apply elem_of_map_to_list in Hm. rewrite elem_of_elements, elem_of_dom in Hj. eauto.
  - intros (m & Hm & Hi). eexists; split.
    + apply list_elem_of_fmap. exists (v, m). split; [done|]. by apply elem_of_map_to_list.
    + apply list_elem_of_fmap. exists i. by rewrite elem_of_elements, elem_of_dom.
Qed.

Lemma cnt_pos bg v i : bg_has bg v i → 0 < cnt bg i.
Proof.
  intros (m & Hm & Hi). unfold cnt.
  destruct (filter _ _) eqn:E; [|simpl; lia].
  assert ((v, m) ∈ filter (λ vm : string * Entry, is_Some (vm.2 !! i)) (map_iter bg)) as H.
  { apply list_elem_of_filter. rewrite elem_of_map_iter. done. }
  rewrite E in H. by apply not_elem_of_nil in H.
Qed.

Lemma cnt_mono bg' bg i : bg_sub bg' bg → cnt bg' i ≤ cnt bg i.
Proof.
  intros Hsub. unfold cnt. rewrite <-!(length_fmap fst).
  apply submseteq_length, NoDup_submseteq.
  - apply (sublist_NoDup _ (map_iter bg').*1); [rewrite map_iter_fst; apply NoDup_set_iter|].
    apply fmap_sublist, sublist_filter.
  - intros v. rewrite !list_elem_of_fmap. intros ([w m'] & -> & [Hi Hm]%list_elem_of_filter).
    apply elem_of_map_iter in Hm. destruct (Hsub _ _ Hm) as (m & Hm0 & Hmm).
    exists (w, m). split; [done|]. apply list_elem_of_filter. rewrite elem_of_map_iter.
    split; [|done]. simpl in *. destruct Hi as [q Hq]. exists q. by apply (lookup_weaken m').
Qed.

Lemma bg_sub_trans bg1 bg2 bg3 : bg_sub bg1 bg2 → bg_sub bg2 bg3 → bg_sub bg1 bg3.
Proof.
  intros H12 H23 v m1 Hm1. destruct (H12 _ _ Hm1) as (m2 & Hm2 & ?).
  destruct (H23 _ _ Hm2) as (m3 & ? & ?). exists m3. split; [done|]. by etrans.
Qed.

Lemma round_shrinks bg bg' :
  (∀ v m', bg' !! v = Some m' ↔ ∃ m : Entry, bg !! v = Some m ∧ 2 ≤ size m ∧
       m' = filter (λ ip : string * Path, cnt bg ip.1 ≠ 1) m) →
  (∃ v (m : Entry), bg !! v = Some m ∧ size m < 2) ∨
  (∃ v i (m : Entry), bg !! v = Some m ∧ 2 ≤ size m ∧ is_Some (m !! i) ∧ cnt bg i = 1) →
  building_size bg' < building_size bg.
Proof.
  intros Hbg' Hrm. unfold building_size.
  assert (dom bg' ⊆ dom bg) as Hd.
  { intros v. rewrite !elem_of_dom. intros [m' (m & -> & _)%Hbg']. done. }
  assert (∀ v i, bg_has bg' v i → bg_has bg v i ∧ cnt bg i ≠ 1) as Hhas.
  { intros v i (m' & (m & Hm & _ & ->)%Hbg' & [q [? ?]%map_lookup_filter_Some]).
    split; [exists m; split; [done|by exists q]|done]. }
  assert (bg_pairs bg' ⊆ bg_pairs bg) as Hp.
  { intros [v i]. rewrite !elem_of_bg_pairs. intros ?%Hhas. tauto. }
  destruct Hrm as [(v & m & Hm & Hlt)|(v & i & m & Hm & _ & Hi & Hc)].
  - assert (size (dom bg') < size (dom bg)); [|pose proof (subseteq_size _ _ Hp); lia].
    apply subset_size. split; [done|]. intros Hsub.
    assert (v ∈ dom bg') as [m' (m0 & ? & ? & _)%Hbg']%elem_of_dom.
    { apply Hsub, elem_of_dom. by exists m. }
    simplify_eq. lia.
  - assert (size (bg_pairs bg') < size (bg_pairs bg)); [|pose proof (subseteq_size _ _ Hd); lia].
    apply subset_size. split; [done|]. intros Hsub.
    assert ((v, i) ∈ bg_pairs bg') as Hin by (apply Hsub, elem_of_bg_pairs; by exists m).
    apply elem_of_bg_pairs, Hhas in Hin. tauto.
Qed.

(** The loop terminates with the largest stable part of the building graphs. *)
Lemma prune_building_spec fuel bg :
  building_size bg < fuel →
  ∃ bg', prune_building fuel bg = Some bg' ∧ bg_sub bg' bg ∧ bg_stable bg' ∧
         (∀ S, bg_sub S bg → bg_stable S → bg_sub S bg').
Proof.
  revert bg. induction fuel as [|fuel IH]; intros bg Hf; [lia|]. cbn [prune_building].
  destruct (prune_round_spec bg) as (bg1 & rm & -> & Hbg1 & Hrm).
  assert (bg_sub bg1 bg) as Hsub.
  { intros v m' (m & ? & _ & ->)%Hbg1. exists m. split; [done|]. apply map_filter_subseteq. }
  destruct rm.
  - pose proof (round_shrinks _ _ Hbg1 (proj1 Hrm eq_refl)) as Hlt.
    destruct (IH bg1 ltac:(lia)) as (bg' & -> & Hs' & Hst & Hmax).
    exists bg'. split_and!; [done|by eapply bg_sub_trans|done|].
    intros S HS HSst. apply Hmax; [|done]. intros v mS HmS.
    destruct (HS _ _ HmS) as (m & Hm & Hmm). destruct HSst as [Hsz Hcn].
    exists (filter (λ ip : string * Path, cnt bg ip.1 ≠ 1) m). split.
    + apply Hbg1. exists m. split_and!; [done| |done].
      pose proof (Hsz _ _ HmS). pose proof (map_subseteq_size _ _ Hmm). lia.
    + apply map_subseteq_spec. intros i q Hq. apply map_lookup_filter_Some.
      split; [by apply (lookup_weaken mS)|]. simpl. pose proof (cnt_mono S bg i HS).
      assert (bg_has S v i) as Hh by (exists mS; split; [done|by exists q]).
      pose proof (Hcn _ _ Hh). lia.
  - exists bg1. assert (bg1 = bg) as ->.
    { assert (∀ v (m : Entry), bg !! v = Some m → 2 ≤ size m) as Hall.
      { intros v m Hm. destruct (decide (size m < 2)); [|lia].
        assert (false = true) by (apply Hrm; left; eauto). done. }
      apply map_eq. intros v. apply option_eq. intros m'. rewrite Hbg1. split.
      - intros (m & Hm & Hsz & ->). rewrite Hm. f_equal. symmetry. apply map_filter_id.
        intros i q Hq Hc. assert (false = true); [|done]. apply Hrm. right.
        exists v, i, m. rewrite Hq. eauto.
      - intros Hm. exists m'. split_and!; [done|by eapply Hall|]. symmetry. apply map_filter_id.
        intros i q Hq Hc. assert (false = true); [|done]. apply Hrm. right.
        exists v, i, m'. rewrite Hq. eauto. }
    split_and!; [done|done| |done]. split.
    + intros v m Hm. destruct (decide (size m < 2)); [|lia].
      assert (false = true) by (apply Hrm; left; eauto). done.
    + intros v i Hh. pose proof (cnt_pos _ _ _ Hh). destruct (decide (cnt bg i = 1)) as [E|]; [|lia].
      destruct Hh as (m & Hm & Hi). apply Hbg1 in Hm as (m0 & Hm0 & Hsz & ->).
      destruct Hi as [q [Hq Hne]%map_lookup_filter_Some]. done.
Qed.

End PruneRound.

(** ** [findCycleJoin] *)

(** What the returned trees guarantee: each has at least two paths, all from one probe node
    and to pairwise distinct intersection nodes; distinct trees have distinct probe nodes;
    and each intersection node is reached from at least two trees. *)
Record cycle_join_ok (V : Nodes) (basics : list Path) (trees : list (list Path)) : Prop := {
  cj_probe : ∀ k tree, trees !! k = Some tree →
    2 ≤ length tree ∧ ∃ v, ∀ p, p ∈ tree → ∃ i, entry_ok V basics v i p;
  cj_ends : ∀ k tree, trees !! k = Some tree → NoDup (last <$> tree);
  cj_heads : ∀ k1 k2 t1 t2 p1 p2, trees !! k1 = Some t1 → trees !! k2 = Some t2 →
    p1 ∈ t1 → p2 ∈ t2 → head p1 = head p2 → k1 = k2;
  cj_shared : ∀ k tree p, trees !! k = Some tree → p ∈ tree →
    ∃ k' tree' p', k' ≠ k ∧ trees !! k' = Some tree' ∧ p' ∈ tree' ∧ last p' = last p
}.

Definition good_basics (basics : list Path) : Prop :=
  ∀ p, p ∈ basics → 2 ≤ length p ∧ NoDup p.

Section FindCycleJoin.
Context (V : Nodes) (basics : list Path).
Implicit Types (bg : Building).

Lemma trees_of_lookup bg k tree :
  trees_of bg !! k = Some tree ↔
  ∃ v (m : Entry), map_iter bg !! k = Some (v, m) ∧ tree = (map_iter m).*2.
Proof.
  unfold trees_of. rewrite list_lookup_fmap, fmap_Some. split.
  - intros ([v m] & Hk & ->). eauto.
  - intros (v & m & Hk & ->). by exists (v, m).
Qed.

Lemma other_probe bg v i : 2 ≤ cnt bg i → ∃ w, w ≠ v ∧ bg_has bg w i.
Proof.
  unfold cnt. intros Hc.
  assert (NoDup (filter (λ vm : string * Entry, is_Some (vm.2 !! i)) (map_iter bg)).*1) as Hnd.
  { apply (sublist_NoDup _ (map_iter bg).*1); [rewrite map_iter_fst; apply NoDup_set_iter|].
    apply fmap_sublist, sublist_filter. }
  assert (∀ w m, (w, m) ∈ filter (λ vm : string * Entry, is_Some (vm.2 !! i)) (map_iter bg) →
    bg_has bg w i) as Hin.
  { intros w m [? ?%elem_of_map_iter]%list_elem_of_filter. by exists m. }
  destruct (filter _ _) as [|[w1 m1] [|[w2 m2] l]]; simpl in *; try lia.
  apply NoDup_cons in Hnd as [Hne _]. rewrite elem_of_cons in Hne.
  destruct (decide (w1 = v)) as [->|]; [exists w2|exists w1]; split; try naive_solver.
  - apply (Hin w2 m2). set_solver.
  - apply (Hin w1 m1). set_solver.
Qed.

Lemma elem_of_tree (m : Entry) p : p ∈ (map_iter m).*2 ↔ ∃ i, m !! i = Some p.
Proof.
  rewrite list_elem_of_fmap. split.
  - intros ([i q] & -> & Hq%elem_of_map_iter). eauto.
  - intros [i Hi]. exists (i, p). by rewrite elem_of_map_iter.
Qed.

Lemma trees_ok bg : bg_ok V basics bg → bg_stable bg → cycle_join_ok V basics (trees_of bg).
Proof.
  intros Hok [Hsz Hcnt].
  assert (∀ k v m, map_iter bg !! k = Some (v, m) → bg !! v = Some m) as Hlk.
  { intros k v m Hk. apply elem_of_map_iter. by eapply list_elem_of_lookup_2. }
  split.
  - intros k tree (v & m & Hk%Hlk & ->)%trees_of_lookup. split.
    + rewrite length_fmap, map_iter_length. by eapply Hsz.
    + exists v. intros p [i Hi]%elem_of_tree. exists i. by eapply Hok.
  - intros k tree (v & m & Hk%Hlk & ->)%trees_of_lookup.
    assert (last <$> (map_iter m).*2 = Some <$> (map_iter m).*1) as ->.
    { rewrite <-!list_fmap_compose. apply list_fmap_ext. intros j [i p] Hj. simpl.
      apply list_elem_of_lookup_2, elem_of_map_iter in Hj. by apply (eo_last _ _ _ _ _ (Hok _ _ _ _ Hk Hj)). }
    rewrite map_iter_fst. apply NoDup_fmap_2; [apply _|apply NoDup_set_iter].
  - intros k1 k2 t1 t2 p1 p2 (v1 & m1 & Hk1 & ->)%trees_of_lookup
      (v2 & m2 & Hk2 & ->)%trees_of_lookup [i1 Hi1]%elem_of_tree [i2 Hi2]%elem_of_tree Hh.
    rewrite (eo_head _ _ _ _ _ (Hok _ _ _ _ (Hlk _ _ _ Hk1) Hi1)) in Hh.
    rewrite (eo_head _ _ _ _ _ (Hok _ _ _ _ (Hlk _ _ _ Hk2) Hi2)) in Hh. simplify_eq.
    eapply (NoDup_lookup (map_iter bg).*1 k1 k2 v2).
    + rewrite map_iter_fst. apply NoDup_set_iter.
    + by rewrite list_lookup_fmap, Hk1.
    + by rewrite list_lookup_fmap, Hk2.
  - intros k tree p (v & m & Hk & ->)%trees_of_lookup [i Hi]%elem_of_tree.
    destruct (other_probe bg v i) as (w & Hwv & m' & Hm' & [p' Hp']).
    { apply (Hcnt v). exists m. split; [by eapply Hlk|by exists p]. }
    pose proof Hm' as Hw. apply elem_of_map_iter, list_elem_of_lookup in Hw as [k' Hk'].
    exists k', ((map_iter m').*2), p'. split_and!.
    + intros ->. congruence.
    + apply trees_of_lookup. eauto.
    + apply elem_of_tree. eauto.
    + rewrite (eo_last _ _ _ _ _ (Hok _ _ _ _ Hm' Hp')).
      by rewrite (eo_last _ _ _ _ _ (Hok _ _ _ _ (Hlk _ _ _ Hk) Hi)).
Qed.

Lemma bg_sub_ok bg' bg : bg_sub bg' bg → bg_ok V basics bg → bg_ok V basics bg'.
Proof.
  intros Hs Hok v m' i p Hv Hi. destruct (Hs _ _ Hv) as (m & Hm & Hmm).
  eapply Hok; [done|]. by eapply lookup_weaken.
Qed.

Lemma collect_building :
  good_basics basics →
  ∃ bg, ofold (add_basic_path V) ∅ basics = Some bg ∧ bg_ok V basics bg.
Proof.
  intros Hb.
  destruct (ofold_total (add_basic_path V) (λ _ bg, bg_ok V basics bg) basics ∅) as (bg & ? & ?).
  - intros v m i p. by rewrite lookup_empty.
  - intros dn p rest bg El Hbg. destruct (Hb p) as [? ?]; [rewrite El; set_solver|].
    apply add_basic_path_ok; [rewrite El; set_solver|done..].
  - eauto.
Qed.

Lemma findCycleJoin_Some :
  good_basics basics →
  ∃ trees, findCycleJoin V basics = Some trees ∧ cycle_join_ok V basics trees.
Proof.
  intros Hb. unfold findCycleJoin. destruct (collect_building Hb) as (bg & -> & Hok).
  cbn [mbind option_bind].
  destruct (prune_building_spec (S (building_size bg)) bg ltac:(lia)) as (bg' & -> & Hs & Hst & _).
  cbn [mbind option_bind]. eexists; split; [done|]. apply trees_ok; [by eapply bg_sub_ok|done].
Qed.

End FindCycleJoin.

(** ** [findBestCycleJoin] *)

Section Best.
Context (Q : Graph) (HQ : graph_wf Q).
Context (basics : list Path) (Hgood : good_basics basics).
Context (Hadj : ∀ p u v, p ∈ basics → path_edge p u v → adj Q u v).

(** A candidate probe graph: a well-formed subgraph of the query graph. *)
Definition candidate (g : Graph) : Prop :=
  graph_wf g ∧ nodes g ⊆ nodes Q ∧ ∀ u v, adj g u v → adj Q u v.

Lemma compare_total a b : is_Some (compareCycleJoin a b basics).
Proof.
  unfold compareCycleJoin.
  destruct (findCycleJoin_Some a basics Hgood) as (ta & -> & _).
  destruct (findCycleJoin_Some b basics Hgood) as (tb & -> & _). by eexists.
Qed.

Lemma path_in_Q p x : p ∈ basics → x ∈ p → x ∈ nodes Q.
Proof.
  intros Hp Hx. destruct (Hgood p Hp) as [Hl _].
  assert (∃ y, path_edge p x y) as [y Hy].
  { apply list_elem_of_split in Hx as (l1 & l2 & ->). destruct l2 as [|y l2].
    - destruct l1 as [|a l1] using rev_ind; [simpl in Hl; lia|]. exists a. right.
      rewrite <-app_assoc. apply path_pairs_middle.
    - exists y. left. apply path_pairs_middle. }
  by destruct (adj_nodes _ _ _ HQ (Hadj _ _ _ Hp Hy)).
Qed.

Lemma path_candidate p :
  p ∈ basics → ∃ g, pathToGraph p = Some g ∧ candidate g ∧ 0 < size (nodes g).
Proof.
  intros Hp. destruct (Hgood p Hp) as [Hl Hnd].
  destruct (pathToGraph_Some p Hnd) as (g & -> & Hw & Hn & Ha). exists g.
  unfold candidate. split_and!; [done|done| | |].
  - rewrite Hn. intros x Hx%elem_of_list_to_set. by eapply path_in_Q.
  - intros u v Huv%Ha. by eapply Hadj.
  - rewrite Hn, size_list_to_set by done. lia.
Qed.

Lemma best_of_spec P G :
  ∃ G' improved, best_of P G basics = Some (G', improved) ∧
    (improved = true → G' ∈ P) ∧ (improved = false → G' = G).
Proof.
  unfold best_of.
  match goal with |- context [ofold ?f ?b ?l] =>
    destruct (ofold_total f (λ dn '(G', imp), (imp = true → G' ∈ dn) ∧ (imp = false → G' = G)) l b)
      as ([G' imp] & -> & ?) end.
  - done.
  - intros dn g rest [G' imp] El [H1 H2].
    destruct (compare_total (nodes g) (nodes G')) as [[] ->]; cbn [mbind option_bind].
    + eexists; split; [done|]. set_solver.
    + eexists; split; [done|]. split; [intros; set_solver|done].
  - exists G', imp. naive_solver.
Qed.

Lemma next_candidates_spec G :
  candidate G →
  ∃ P, next_candidates G basics = Some P ∧
    ∀ g, g ∈ P → candidate g ∧ size (nodes G) < size (nodes g).
Proof.
  intros (Hw & Hn & Ha). unfold next_candidates.
  match goal with |- context [ofold ?f ?b ?l] =>
    destruct (ofold_total f (λ _ P, ∀ g, g ∈ P → candidate g ∧ size (nodes G) < size (nodes g)) l b)
      as (P & -> & ?) end.
  - set_solver.
  - intros dn p rest P El HP.
    destruct (path_candidate p) as (g & -> & (Hgw & Hgn & Hga) & _); [rewrite El; set_solver|].
    cbn [mbind option_bind].
    destruct (Graph.isConnectedAndDifferent G g) eqn:E; [|by eauto].
    apply isConnectedAndDifferent_true in E as [_ (x & Hx & HxG)].
    destruct (merge_Some G g Hw Hgw) as (m & -> & Hmw & Hmn & Hma). cbn [mbind option_bind].
    eexists; split; [done|]. intros g' [?| ->%list_elem_of_singleton]%elem_of_app; [auto|].
    split; [unfold candidate; split_and!; [done|set_solver|]|].
    + intros u v. rewrite Hma. naive_solver.
    + rewrite Hmn. apply subset_size. set_solver.
  - eauto.
Qed.

(** The search terminates: every round that continues has enlarged the probe graph. *)
Lemma search_spec fuel P G :
  size (nodes Q) < fuel + size (nodes G) →
  candidate G → (∀ g, g ∈ P → candidate g ∧ size (nodes G) < size (nodes g)) →
  ∃ G', search fuel P G basics = Some G' ∧ candidate G'.
Proof.
  revert P G. induction fuel as [|fuel IH]; intros P G Hf HG HP.
  { destruct HG as (_ & Hn & _). pose proof (subseteq_size _ _ Hn). lia. }
  cbn [search]. destruct (best_of_spec P G) as (G1 & imp & -> & H1 & H2).
  cbn [mbind option_bind]. destruct imp; [|rewrite H2 by done; eauto].
  destruct (HP G1 (H1 eq_refl)) as [HG1 Hlt].
  destruct (next_candidates_spec G1 HG1) as (P1 & -> & HP1). cbn [mbind option_bind].
  case_decide; [|eauto]. apply IH; [lia|done..].
Qed.

Lemma close_edges_spec G :
  candidate G →
  ∃ G', close_edges Q G = Some G' ∧ graph_wf G' ∧ nodes G' = nodes G ∧
    ∀ u v, adj G' u v ↔ adj Q u v ∧ u ∈ nodes G ∧ v ∈ nodes G.
Proof.
  intros (Hw & Hn & Ha). unfold close_edges.
  match goal with |- context [ofold ?f ?b ?l] =>
    destruct (ofold_total f (λ dn G', graph_wf G' ∧ nodes G' = nodes G ∧ ∀ u v, adj G' u v ↔
      adj G u v ∨ (adj Q u v ∧ u ∈ nodes G ∧ v ∈ nodes G ∧ (u ∈ dn ∨ v ∈ dn))) l b)
      as (G' & -> & Hw' & Hn' & Ha') end.
  - split_and!; [done..|]. set_solver.
  - intros dn u rest G1 El (Hw1 & Hn1 & Ha1).
    assert (u ∈ nodes G) as Hu by (apply elem_of_set_iter; rewrite El; set_solver).
    rewrite (getNeighbors_wf Q u HQ) by auto. cbn [mbind option_bind].
    match goal with |- context [ofold ?f ?b ?l] =>
      destruct (ofold_total f (λ dn' G', graph_wf G' ∧ nodes G' = nodes G ∧ ∀ x y, adj G' x y ↔
        adj G1 x y ∨ (x = u ∧ y ∈ dn' ∧ y ∈ nodes G) ∨ (y = u ∧ x ∈ dn' ∧ x ∈ nodes G)) l b)
        as (G2 & -> & Hw2 & Hn2 & Ha2) end.
    + split_and!; [done..|]. set_solver.
    + intros dn' v rest' G2 El' (Hw2 & Hn2 & Ha2). rewrite Hn2. case_decide as Hv.
      * destruct (addEdge_Some G2 u v) as (G3 & HG3 & Hn3 & Ha3); [congruence..|].
        exists G3. split_and!; [done|by eapply addEdge_wf|congruence|].
        intros x y. rewrite Ha3, Ha2, !elem_of_app, !list_elem_of_singleton. clear -Hv. naive_solver.
      * exists G2. split_and!; [done..|]. intros x y.
        rewrite Ha2, !elem_of_app, !list_elem_of_singleton. clear -Hv. naive_solver.
    + exists G2. split_and!; [done..|]. intros x y.
      rewrite Ha2, Ha1, !elem_of_set_iter, !elem_of_app, !list_elem_of_singleton.
      pose proof (wf_sym _ HQ u x) as Hs1. pose proof (wf_sym _ HQ x u) as Hs2.
      change (y ∈ (edges Q)⟪u⟫) with (adj Q u y). change (x ∈ (edges Q)⟪u⟫) with (adj Q u x).
      clear -Hu Hs1 Hs2.
      split; [intros [[?|?]|[(-> & ? & ?)|(-> & ? & ?)]]; tauto|].
      intros [?|(? & ? & ? & [[?| ->]|[?| ->]])]; tauto.
  - exists G'. split_and!; [done..|]. intros u v. rewrite Ha', !elem_of_set_iter. split.
    + intros [Huv|?]; [|tauto]. destruct (adj_nodes _ _ _ Hw Huv). auto.
    + naive_solver.
Qed.

End Best.

Definition induced (Q G : Graph) : Prop :=
  graph_wf G ∧ nodes G ⊆ nodes Q ∧
  ∀ u v, adj G u v ↔ adj Q u v ∧ u ∈ nodes G ∧ v ∈ nodes G.

Lemma initial_candidates Q basics :
  graph_wf Q → good_basics basics →
  (∀ p u v, p ∈ basics → path_edge p u v → adj Q u v) →
  ∃ P, ofold (λ acc basic, g ← pathToGraph basic; Some (acc ++ [g])) [] basics = Some P ∧
    ∀ g, g ∈ P → candidate Q g ∧ 0 < size (nodes g).
Proof.
  intros HQ Hgood Hadj.
  match goal with |- context [ofold ?f ?b ?l] =>
    destruct (ofold_total f (λ _ P, ∀ g, g ∈ P → candidate Q g ∧ 0 < size (nodes g)) l b)
      as (P & -> & ?) end.
  - set_solver.
  - intros dn p rest P El HP.
    destruct (path_candidate Q HQ basics Hgood Hadj p) as (g & -> & Hc); [rewrite El; set_solver|].
    cbn [mbind option_bind]. eexists; split; [done|].
    intros g' [?| ->%list_elem_of_singleton]%elem_of_app; auto.
  - eauto.
Qed.

Lemma basics_good core (basics : list Path) :
  (∀ p, p ∈ basics → basic_path core p) → good_basics basics.
Proof. intros Hb p Hp. destruct (Hb p Hp) as (? & ? & _). done. Qed.

Lemma basics_adj Q core (basics : list Path) :
  is_2core Q core → (∀ p, p ∈ basics → basic_path core p) →
  ∀ p u v, p ∈ basics → path_edge p u v → adj Q u v.
Proof.
  intros (Hw & _ & Hcore & _) Hb p u v Hp Huv. destruct (Hb p Hp) as (_ & _ & Hpp & _).
  apply Hcore. destruct Huv as [Huv|Huv]; apply Hpp in Huv; [done|]. by apply (wf_sym _ Hw).
Qed.

Lemma cycle_join_ok_perm V basics basics' trees :
  basics ≡ₚ basics' → cycle_join_ok V basics trees → cycle_join_ok V basics' trees.
Proof.
  intros Hp [H1 H2 H3 H4]. split; [|done..].
  intros k tree Hk. destruct (H1 k tree Hk) as [? [v Hv]]. split; [done|]. exists v.
  intros p Hpt. destruct (Hv p Hpt) as [i [??????(b & Hb & ?)]]. exists i. split; [done..|].
  exists b. by rewrite <-Hp.
Qed.

Lemma findBestCycleJoin_Some shuffle Q b :
  graph_wf Q → loop_free Q → (∀ l, shuffle l ≡ₚ l) →
  ∃ G basics trees, findBestCycleJoin shuffle Q b = Some (G, trees) ∧
    findBasicCycleIntersection Q = Some basics ∧
    induced Q G ∧ cycle_join_ok (nodes G) basics trees.
Proof.
  intros HQ Hlf Hsh. unfold findBestCycleJoin.
  destruct (findBasicCycleIntersection_Some Q HQ Hlf) as (core & basics & -> & Hcore & _ & Hb & _).
  cbn [mbind option_bind]. case_decide as Hl.
  { exists emptyGraph, basics, []. split_and!; [done|done| |split; by intros ?? ?].
    split; [apply emptyGraph_wf|]. split; [set_solver|]. intros u v. split; [by intros ?%adj_empty|set_solver]. }
  set (basics' := if b then shuffle basics else basics).
  assert (basics' ≡ₚ basics) as Hp by (subst basics'; destruct b; auto).
  assert (∀ p, p ∈ basics' → basic_path core p) as Hb' by (intros p; rewrite Hp; apply Hb).
  pose proof (basics_good core basics' Hb') as Hgood.
  pose proof (basics_adj Q core basics' Hcore Hb') as Hadj.
  destruct (initial_candidates Q basics' HQ Hgood Hadj) as (P & -> & HP). cbn [mbind option_bind].
  destruct (search_spec Q HQ basics' Hgood Hadj (S (size (nodes Q))) P emptyGraph) as (G & -> & HG).
  { lia. }
  { split; [apply emptyGraph_wf|]. split; [set_solver|]. by intros u v ?%adj_empty. }
  { done. }
  cbn [mbind option_bind].
  destruct (close_edges_spec Q HQ basics' Hgood Hadj G HG) as (G' & -> & Hw' & Hn' & Ha'). cbn [mbind option_bind].
  destruct (findCycleJoin_Some (nodes G') basics' Hgood) as (trees & -> & Hok). cbn [mbind option_bind].
  exists G', basics, trees. split_and!; [done|done| |].
  - split; [done|]. rewrite Hn'. split; [apply HG|]. intros u v. by rewrite Ha'.
  - by apply (cycle_join_ok_perm _ basics').
Qed.

(** ** What [compareCycleJoin] compares *)

(** Intersections saved: per tree, one less than it has paths. *)
Definition intersections (trees : list (list Path)) : nat := sum_list ((λ paths : list Path, length paths - 1) <$> trees).

(** Inner nodes on the paths of the trees. *)
Definition inner_nodes (trees : list (list Path)) : nat := sum_list ((λ p : Path, length p - 2) <$> concat trees).

(** The sums are numbers a [size_t] holds. *)
Definition scores_fit (trees : list (list Path)) : Prop :=
  (Z.of_nat (intersections trees) < 2 ^ 64)%Z ∧ (Z.of_nat (inner_nodes trees) < 2 ^ 64)%Z.

(** Probe side [a] is at least as good as [b] in every respect. *)
Definition as_good (a : Nodes) (ta : list (list Path)) (b : Nodes) (tb : list (list Path)) : Prop :=
  intersections tb ≤ intersections ta ∧ inner_nodes ta ≤ inner_nodes tb ∧ size a ≤ size b.

Lemma score_sum {A} (f : A → Z) (g : A → nat) l s :
  (∀ x, x ∈ l → f x = Z.of_nat (g x)) → u64 s = s →
  foldl (λ s x, u64 (s + u64 (f x))) s l = u64 (s + Z.of_nat (sum_list (g <$> l))).
Proof.
  intros Hf. revert s. induction l as [|x l IH]; intros s Hs; cbn [foldl fmap list_fmap sum_list]; [by rewrite Z.add_0_r|].
  rewrite IH; [|intros y Hy; apply Hf; by right|apply u64_id, u64_range].
  rewrite (Hf x) by (by left). unfold u64. rewrite Zplus_mod_idemp_r, Zplus_mod_idemp_l. f_equal. simpl. lia.
Qed.

Lemma foldl_concat {A B} (f : B → A → B) b (ls : list (list A)) : foldl (λ b l, foldl f b l) b ls = foldl f b (concat ls).
Proof. revert b. induction ls as [|l ls IH]; intros b; simpl; [done|]. by rewrite foldl_app, IH. Qed.

Lemma scores_exact V basics trees :
  cycle_join_ok V basics trees → scores_fit trees →
  tree_score trees = Z.of_nat (intersections trees) ∧ path_score trees = Z.of_nat (inner_nodes trees).
Proof.
  intros [Hp _ _ _] [H1 H2]. unfold tree_score, path_score. rewrite foldl_concat.
  rewrite (score_sum (λ paths : list Path, Z.of_nat (length paths) - 1)%Z (λ paths, length paths - 1)).
  - rewrite (score_sum (λ p : Path, Z.of_nat (length p) - 2)%Z (λ p, length p - 2)).
    + unfold intersections, inner_nodes in *. by rewrite !Z.add_0_l, !u64_id by lia.
    + intros p (tree & Hin & [k Hk]%list_elem_of_lookup)%elem_of_concat.
      destruct (Hp k tree Hk) as (_ & v & Hv). destruct (Hv p Hin) as [i Hi].
      pose proof (eo_len _ _ _ _ _ Hi). lia.
    + done.
  - intros tree [k Hk]%list_elem_of_lookup. destruct (Hp k tree Hk) as [? _]. lia.
  - done.
Qed.

Lemma compare_spec a b basics ta tb :
  findCycleJoin a basics = Some ta → findCycleJoin b basics = Some tb →
  cycle_join_ok a basics ta → cycle_join_ok b basics tb → scores_fit ta → scores_fit tb →
  compareCycleJoin a b basics = Some true ↔ ta ≠ [] ∧
    (tb = [] ∨ intersections tb < intersections ta ∨ inner_nodes ta < inner_nodes tb ∨ size a < size b).
Proof.
  intros Ha Hb Hoka Hokb Hfa Hfb. unfold compareCycleJoin. rewrite Ha, Hb. cbn [mbind option_bind].
  destruct (scores_exact a basics ta Hoka Hfa) as [-> ->], (scores_exact b basics tb Hokb Hfb) as [-> ->].
  rewrite (inj_iff Some).
  destruct (decide (length ta = 0)) as [Hta|Hta]; rewrite length_zero_iff_nil in Hta; [naive_solver|].
  destruct (decide (length tb = 0)) as [Htb|Htb]; rewrite length_zero_iff_nil in Htb; [naive_solver|].
  repeat case_decide; try (split; [intros _; split; [done|]; lia|done]). rewrite bool_decide_eq_true. naive_solver lia.
Qed.

(** ** Properties *)

Definition diamond_basics : list Path :=
  [["a1"; "x"]; ["a1"; "y"]; ["a2"; "x"]; ["a2"; "m"; "y"]].

Lemma diamond_good : good_basics diamond_basics.
Proof.
  intros p Hp. assert (2 ≤ length p ∧ bool_decide (NoDup p)) as [? ?%bool_decide_unpack]; [|done].
  revert p Hp. apply Forall_forall. repeat constructor; vm_compute; done.
Qed.

(** C2. [findCycleJoin] always returns. Each returned tree has at least two paths, all
    starting at one probe node and running outside the probe side, along basic paths, to
    pairwise distinct intersection nodes; different trees have different probe nodes; and
    every intersection node is reached by at least two trees. *)
Theorem findCycleJoin_builds V basics :
  good_basics basics →
  ∃ trees, findCycleJoin V basics = Some trees ∧ cycle_join_ok V basics trees.
Proof. apply findCycleJoin_Some. Qed.

Lemma findCycleJoin_builds_witness :
  findCycleJoin {["a1"; "a2"]} diamond_basics =
    Some [[["a1"; "x"]; ["a1"; "y"]]; [["a2"; "x"]; ["a2"; "m"; "y"]]] ∧
  ∃ trees, findCycleJoin {["a1"; "a2"]} diamond_basics = Some trees ∧
    cycle_join_ok {["a1"; "a2"]} diamond_basics trees.
Proof.
  split; [by vm_compute|].
  apply (findCycleJoin_builds {["a1"; "a2"]} diamond_basics diamond_good).
Defined.

(** C3. The pruning loop of [findCycleJoin] terminates within one round more than there are probe
    nodes and pairs of a probe and an intersection node in the building graph, and keeps exactly the largest part of the building graph in which every probe node has
    at least two paths and every intersection node at least two probe nodes. *)
Theorem prune_building_greatest bg :
  ∃ bg', prune_building (S (building_size bg)) bg = Some bg' ∧
    bg_sub bg' bg ∧ bg_stable bg' ∧
    ∀ bs, bg_sub bs bg → bg_stable bs → bg_sub bs bg'.
Proof.
  destruct (prune_building_spec (S (building_size bg)) bg ltac:(lia)) as (bg' & ? & ? & ? & ?).
  exists bg'. split_and!; done.
Qed.

Definition diamond_graph : Graph :=
  foldl (λ g p, Graph.mergeFrom g p) emptyGraph
    [["a1"; "x"; "a2"; "y"; "a1"; "a2"]].

Lemma diamond_graph_wf : graph_wf diamond_graph.
Proof. apply mergeFrom_spec, emptyGraph_wf. Qed.

(** C1. [findBestCycleJoin] terminates on every loop-free query graph, whatever the order
    [std::shuffle] gives the basic paths: the probe graph it returns is the subgraph of the
    query induced by its nodes, and the trees it returns form a valid cycle join for it. *)
Theorem findBestCycleJoin_valid shuffle Q b :
  graph_wf Q → loop_free Q → (∀ l, shuffle l ≡ₚ l) →
  ∃ G basics trees, findBestCycleJoin shuffle Q b = Some (G, trees) ∧
    findBasicCycleIntersection Q = Some basics ∧
    induced Q G ∧ cycle_join_ok (nodes G) basics trees.
Proof. apply findBestCycleJoin_Some. Qed.

Lemma findBestCycleJoin_valid_witness :
  ∃ G basics trees, findBestCycleJoin reverse diamond_graph true = Some (G, trees) ∧
    findBasicCycleIntersection diamond_graph = Some basics ∧
    induced diamond_graph G ∧ cycle_join_ok (nodes G) basics trees.
Proof.
  apply (findBestCycleJoin_valid reverse diamond_graph true diamond_graph_wf).
  - apply (loop_free_check _ diamond_graph_wf). by_eval.
  - apply reverse_Permutation.
Defined.

(** The graph of two probe sides each of which is preferred to the other. *)
Definition rivals_graph : Graph :=
  foldl (λ g p, Graph.mergeFrom g p) emptyGraph
    [["a"; "x"; "b"; "y"; "a"; "z"; "b"]; ["c"; "x"; "d"; "m"; "y"; "c"]; ["d"; "z"; "c"]; ["a"; "b"]; ["c"; "d"]].

Lemma rivals_graph_wf : graph_wf rivals_graph.
Proof. unfold rivals_graph. cbn [foldl]. repeat apply mergeFrom_spec. apply emptyGraph_wf. Qed.

(** C8. [compareCycleJoin] is not a strict order. For the basic paths of any loop-free query graph,
    each of two probe sides is preferred to the other exactly when both have a cycle join and neither
    is at least as good as the other in all three respects that are compared: intersections saved,
    inner nodes on the paths, and probe nodes (as long as the two sums stay below [2 ^ 64]). The code
    returns true at the first respect in which the first side is better, and goes on to the next one
    also where it is worse. *)
Theorem compareCycleJoin_not_asymmetric Q basics a b :
  graph_wf Q → loop_free Q → findBasicCycleIntersection Q = Some basics →
  ∃ ta tb, findCycleJoin a basics = Some ta ∧ findCycleJoin b basics = Some tb ∧
    (scores_fit ta → scores_fit tb →
      (compareCycleJoin a b basics = Some true ∧ compareCycleJoin b a basics = Some true ↔
        ta ≠ [] ∧ tb ≠ [] ∧ ¬ as_good a ta b tb ∧ ¬ as_good b tb a ta)).
Proof.
  intros HQ Hlf Hbasics. destruct (findBasicCycleIntersection_Some Q HQ Hlf) as (core & bs & Hbs & _ & _ & Hb & _).
  rewrite Hbasics in Hbs. injection Hbs as <-. pose proof (basics_good core basics Hb) as Hgood.
  destruct (findCycleJoin_Some a basics Hgood) as (ta & Ha & Hoka).
  destruct (findCycleJoin_Some b basics Hgood) as (tb & Hb' & Hokb). exists ta, tb. split_and!; [done..|]. intros Hfa Hfb.
  rewrite (compare_spec a b basics ta tb), (compare_spec b a basics tb ta) by done.
  unfold as_good. split.
  - intros [[H1 H2] [H3 H4]]. split_and!; [done|done|..]; intros (? & ? & ?).
    + destruct H4 as [|[|[|]]]; [done|lia..].
    + destruct H2 as [|[|[|]]]; [done|lia..].
  - intros (H1 & H2 & H3 & H4). split; (split; [done|]); right; lia.
Qed.

Lemma compareCycleJoin_not_asymmetric_witness :
  let a := {["a"; "b"]} in let b := {["a"; "b"; "c"; "d"]} in
  ∃ basics, findBasicCycleIntersection rivals_graph = Some basics ∧
    compareCycleJoin a b basics = Some true ∧ compareCycleJoin b a basics = Some true ∧
    ∃ ta tb, findCycleJoin a basics = Some ta ∧ findCycleJoin b basics = Some tb ∧
      (scores_fit ta → scores_fit tb →
        (compareCycleJoin a b basics = Some true ∧ compareCycleJoin b a basics = Some true ↔
          ta ≠ [] ∧ tb ≠ [] ∧ ¬ as_good a ta b tb ∧ ¬ as_good b tb a ta)).
Proof.
  intros a b. eexists. split; [vm_compute; reflexivity|]. split; [by vm_compute|]. split; [by vm_compute|].
  apply (compareCycleJoin_not_asymmetric rivals_graph).
  - apply rivals_graph_wf.
  - apply (loop_free_check _ rivals_graph_wf). by_eval.
  - by vm_compute.
Defined.
