(* ===== verification/InternalId.v ===== *)
(** Internal node identifiers ([internalID_t] of [src/src/common/types/types.cpp]): their
    comparison operators and the lexicographic order (table first, offset second) they
    implement, with the facts on sorted lists of identifiers that the intersection uses. *)

From S2P Require Import Prelude.

Record nodeID := mkID { offset : Z; tableID : Z }.

#[export] Instance nodeID_eq_dec : EqDecision nodeID.
Proof. solve_decision. Defined.

Module internalID.

Definition eqb (l r : nodeID) : bool :=
  (offset l =? offset r)%Z && (tableID l =? tableID r)%Z.

Definition neqb (l r : nodeID) : bool :=
  negb (offset l =? offset r)%Z || negb (tableID l =? tableID r)%Z.

Definition gtb (l r : nodeID) : bool :=
  (tableID r <? tableID l)%Z || ((tableID l =? tableID r)%Z && (offset r <? offset l)%Z).

Definition geb (l r : nodeID) : bool :=
  (tableID r <? tableID l)%Z || ((tableID l =? tableID r)%Z && (offset r <=? offset l)%Z).

Definition ltb (l r : nodeID) : bool :=
  (tableID l <? tableID r)%Z || ((tableID l =? tableID r)%Z && (offset l <? offset r)%Z).

Definition leb (l r : nodeID) : bool :=
  (tableID l <? tableID r)%Z || ((tableID l =? tableID r)%Z && (offset l <=? offset r)%Z).

End internalID.

(** The orders as propositions, for the specifications. *)
Definition id_le (a b : nodeID) : Prop :=
  (tableID a < tableID b ∨ (tableID a = tableID b ∧ offset a ≤ offset b))%Z.

Definition id_lt (a b : nodeID) : Prop :=
  (tableID a < tableID b ∨ (tableID a = tableID b ∧ offset a < offset b))%Z.

(** Decides goals on the order by linear arithmetic on the two fields. *)
Ltac id_tac :=
  unfold id_le, id_lt, internalID.eqb, internalID.neqb, internalID.gtb, internalID.geb,
    internalID.ltb, internalID.leb in *;
  repeat match goal with x : nodeID |- _ => destruct x end; simpl in *;
  rewrite ?bool_decide_eq_true in *; try lia.

Lemma eqb_spec a b : internalID.eqb a b = true ↔ a = b.
Proof.
  destruct a as [o t], b as [o' t']. unfold internalID.eqb. simpl.
  rewrite andb_true_iff, !Z.eqb_eq. naive_solver.
Qed.

Lemma gtb_spec a b : internalID.gtb a b = true ↔ id_lt b a.
Proof. id_tac. Qed.

Lemma ltb_spec a b : internalID.ltb a b = true ↔ id_lt a b.
Proof. id_tac. Qed.

Lemma geb_spec a b : internalID.geb a b = true ↔ id_le b a.
Proof. id_tac. Qed.

Lemma leb_spec a b : internalID.leb a b = true ↔ id_le a b.
Proof. id_tac. Qed.

Lemma neqb_spec a b : internalID.neqb a b = negb (internalID.eqb a b).
Proof. id_tac. Qed.

#[export] Instance id_le_preorder : PreOrder id_le.
Proof. split; [intros a; id_tac|intros a b c ??; id_tac]. Qed.

#[export] Instance id_lt_dec a b : Decision (id_lt a b).
Proof. unfold id_lt. apply _. Defined.

#[export] Instance id_le_dec a b : Decision (id_le a b).
Proof. unfold id_le. apply _. Defined.

Lemma id_lt_irrefl a : ¬ id_lt a a.
Proof. id_tac. Qed.

Lemma id_lt_le a b : id_lt a b → id_le a b.
Proof. id_tac. Qed.

Lemma id_le_lt_trans a b c : id_le a b → id_lt b c → id_lt a c.
Proof. intros; id_tac. Qed.

Lemma id_lt_le_trans a b c : id_lt a b → id_le b c → id_lt a c.
Proof. intros; id_tac. Qed.

Lemma id_not_lt a b : ¬ id_lt a b ↔ id_le b a.
Proof. id_tac. Qed.

Lemma id_not_le a b : ¬ id_le a b ↔ id_lt b a.
Proof. id_tac. Qed.

Lemma id_le_eq_lt a b : id_le a b → a = b ∨ id_lt a b.
Proof.
  destruct a as [o t], b as [o' t']. unfold id_le, id_lt; simpl. intros [?|[-> ?]]; [auto|].
  destruct (decide (o = o')) as [->|]; [by left|right; lia].
Qed.

Lemma id_trichotomy a b : id_lt a b ∨ a = b ∨ id_lt b a.
Proof.
  destruct (decide (id_lt a b)) as [|H%id_not_lt]; [by left|right].
  apply id_le_eq_lt in H as [->|]; auto.
Qed.

(** ** Sorted lists of identifiers *)

Definition sorted (l : list nodeID) : Prop := StronglySorted id_le l.

Lemma sorted_cons x l : sorted (x :: l) ↔ Forall (id_le x) l ∧ sorted l.
Proof. unfold sorted. split; [by inversion 1|]. intros [??]. by constructor. Qed.

#[export] Instance sorted_dec l : Decision (sorted l).
Proof.
  induction l as [|x l IH]; [left; constructor|].
  destruct (decide (Forall (id_le x) l)); [|right; by intros [??]%sorted_cons].
  destruct IH; [left; by apply sorted_cons|right; by intros [??]%sorted_cons].
Defined.

Lemma sorted_app l1 l2 :
  sorted (l1 ++ l2) ↔ sorted l1 ∧ sorted l2 ∧ ∀ x y, x ∈ l1 → y ∈ l2 → id_le x y.
Proof.
  induction l1 as [|a l1 IH]; simpl; [set_solver by constructor|].
  rewrite !sorted_cons, IH, Forall_app, (Forall_forall _ l2).
  setoid_rewrite elem_of_cons. naive_solver.
Qed.

Lemma sorted_head_le x l y : sorted (x :: l) → y ∈ x :: l → id_le x y.
Proof.
  intros [Hx _]%sorted_cons [->|Hy]%elem_of_cons; [done|]. rewrite Forall_forall in Hx. auto.
Qed.

Lemma occ_below_head x l v : sorted (x :: l) → id_lt v x → occ v (x :: l) = 0.
Proof.
  intros Hs Hv. apply occ_zero. intros Hin. apply (id_lt_irrefl v).
  eapply id_lt_le_trans; [done|]. by eapply sorted_head_le.
Qed.

Lemma sorted_replicate n x : sorted (replicate n x).
Proof.
  induction n as [|n IH]; simpl; [constructor|]. apply sorted_cons. split; [|done].
  apply Forall_forall. by intros y [-> _]%elem_of_replicate.
Qed.

(** The six comparison operators of [internalID_t] agree with one strict total order: exactly
    one of [<], [==], [>] holds, [<=] and [>=] are its reflexive closures, [!=] negates [==], and
    [<] is transitive. *)
Theorem internalID_strict_total_order a b c :
  ((internalID.ltb a b = true ∧ internalID.eqb a b = false ∧ internalID.gtb a b = false) ∨
   (internalID.ltb a b = false ∧ internalID.eqb a b = true ∧ internalID.gtb a b = false) ∨
   (internalID.ltb a b = false ∧ internalID.eqb a b = false ∧ internalID.gtb a b = true)) ∧
  internalID.leb a b = internalID.ltb a b || internalID.eqb a b ∧
  internalID.geb a b = internalID.gtb a b || internalID.eqb a b ∧
  internalID.neqb a b = negb (internalID.eqb a b) ∧
  (internalID.ltb a b && internalID.ltb b c = true → internalID.ltb a c = true).
Proof. id_tac. Qed.
