(* ===== verification/MultiwayIntersect.v ===== *)
(** The multiway intersection of sorted lists ([TupleCursor] and
    [IntersectMultiway::multiway_intersect_on_sorted_tuples] of
    [src/src/processor/operator/intersect/intersect_multiway.cpp]): cursors over chunked lists,
    the leapfrogging loop and the result cache made of vectors of bounded capacity. *)

From S2P Require Import Prelude InternalId.

(** ** [TupleCursor] *)

(** [tuples] are the lists the probed tuples point to; [tuple_idx] and [ele_idx] the position.
    An access out of range, undefined in the code, is [None]. *)
Record TupleCursor := mkCursor {
  tuple_idx : nat;
  ele_idx : nat;
  tuples : list (list nodeID);
  finished : bool
}.

Module TupleCursor.

Definition create (tuples : list (list nodeID)) : TupleCursor := mkCursor 0 0 tuples false.

Definition hasFinished (c : TupleCursor) : bool := finished c.

(** The [do ... while (tuples[tuple_idx].numElements == 0)] loop of [gotoNext]. *)
Fixpoint skip_empty (fuel : nat) (tuples : list (list nodeID)) (tuple_idx : nat) :
    option (nat * bool) :=
  match fuel with
  | 0 => None
  | S fuel =>
      let tuple_idx := S tuple_idx in
      if decide (length tuples < tuple_idx + 1) then Some (tuple_idx, true)
      else
        t ← tuples !! tuple_idx;
        if decide (length t = 0) then skip_empty fuel tuples tuple_idx
        else Some (tuple_idx, false)
  end.

Definition gotoNext (c : TupleCursor) : option TupleCursor :=
  t ← tuples c !! tuple_idx c;
  if decide (ele_idx c + 1 < length t) then
    Some (mkCursor (tuple_idx c) (S (ele_idx c)) (tuples c) (finished c))
  else
    '(idx, fin) ← skip_empty (S (length (tuples c))) (tuples c) (tuple_idx c);
    Some (mkCursor idx 0 (tuples c) (fin || finished c)).

Definition getCurrentID (c : TupleCursor) : option nodeID :=
  t ← tuples c !! tuple_idx c; t !! ele_idx c.

(** [goUtil]: at least one step, then on until [target] is reached or passed. *)
Fixpoint goUtil (fuel : nat) (c : TupleCursor) (target : nodeID) : option TupleCursor :=
  match fuel with
  | 0 => None
  | S fuel =>
      c ← gotoNext c;
      if hasFinished c then Some c
      else
        cur ← getCurrentID c;
        if internalID.geb cur target then Some c else goUtil fuel c target
  end.

(** Number of elements behind a cursor: the bound of the loops that advance it. *)
Definition budget (c : TupleCursor) : nat := S (length (concat (tuples c))).

End TupleCursor.

(** ** The loop of [multiway_intersect_on_sorted_tuples] *)

(** How forwarding one cursor ends: beyond the target, on the target, or with no element. *)
Inductive outcome :=
  | Missed (cur_id : nodeID)
  | Reached
  | Exhausted.

Fixpoint forward_cursor (fuel : nat) (c : TupleCursor) (target : nodeID) :
    option (TupleCursor * outcome) :=
  match fuel with
  | 0 => None
  | S fuel =>
      cur_id ← TupleCursor.getCurrentID c;
      if internalID.gtb cur_id target then Some (c, Missed cur_id)
      else if internalID.eqb cur_id target then Some (c, Reached)
      else
        c ← TupleCursor.goUtil (TupleCursor.budget c) c target;
        if TupleCursor.hasFinished c then Some (c, Exhausted) else forward_cursor fuel c target
  end.

(** The range-for over the cursors, left at the first cursor that misses or is exhausted. *)
Fixpoint forward_all (cursors : list TupleCursor) (target : nodeID) :
    option (list TupleCursor * outcome) :=
  match cursors with
  | [] => Some ([], Reached)
  | c :: cursors =>
      '(c, o) ← forward_cursor (TupleCursor.budget c) c target;
      match o with
      | Reached => '(cursors, o) ← forward_all cursors target; Some (c :: cursors, o)
      | _ => Some (c :: cursors, o)
      end
  end.

(** [while (!cursor.hasFinished())]: passes the repetitions of [v], counting them. *)
Fixpoint skip_repeated (fuel : nat) (c : TupleCursor) (v : nodeID) (count : nat) :
    option (TupleCursor * nat) :=
  match fuel with
  | 0 => None
  | S fuel =>
      if TupleCursor.hasFinished c then Some (c, count)
      else
        cur ← TupleCursor.getCurrentID c;
        if internalID.eqb cur v then c ← TupleCursor.gotoNext c; skip_repeated fuel c v (S count)
        else Some (c, count)
  end.

(** The range-for that moves every cursor past the intersected value. The product
    [multiplied_count] is a [size_t] and wraps; a count that itself had wrapped would give the same
    product. *)
Fixpoint consume_all (cursors : list TupleCursor) (intersect_value target : nodeID)
    (multiplied_count : Z) (fin : bool) :
    option (list TupleCursor * nodeID * Z * bool) :=
  match cursors with
  | [] => Some ([], target, multiplied_count, fin)
  | c :: cursors =>
      c ← TupleCursor.gotoNext c;
      '(c, count) ← skip_repeated (TupleCursor.budget c) c intersect_value 1;
      let multiplied_count := u64 (multiplied_count * Z.of_nat count) in
      if TupleCursor.hasFinished c then
        '(cursors, target, m, fin) ← consume_all cursors intersect_value target multiplied_count true;
        Some (c :: cursors, target, m, fin)
      else
        current ← TupleCursor.getCurrentID c;
        let target := if internalID.gtb current target then current else target in
        '(cursors, target, m, fin) ← consume_all cursors intersect_value target multiplied_count fin;
        Some (c :: cursors, target, m, fin)
  end.

Definition VECTOR_CAPACITY_LOG_2 : nat := 11.
Definition DEFAULT_VECTOR_CAPACITY : nat := Nat.pow 2 VECTOR_CAPACITY_LOG_2.

(** A cached vector is the list of its selected values; [getCapacity] is [cap];
    [multiplied_count] is the value of the [size_t], which only decreases from here on. *)
Fixpoint fill_cache (cap : nat) (fuel : nat) (cache : list (list nodeID)) (id : nat)
    (multiplied_count : nat) (v : nodeID) : option (list (list nodeID) * nat) :=
  match fuel with
  | 0 => None
  | S fuel =>
      if decide (0 < multiplied_count) then
        vec ← cache !! id;
        let movableSize := cap - length vec in
        if decide (multiplied_count ≤ movableSize) then
          fill_cache cap fuel (<[id := vec ++ replicate multiplied_count v]> cache) id 0 v
        else
          let cache := <[id := vec ++ replicate movableSize v]> cache in
          let id := S id in
          let cache := if decide (id = length cache) then cache ++ [[]] else cache in
          fill_cache cap fuel cache id (multiplied_count - movableSize) v
      else Some (cache, id)
  end.

(** The [while (true)] loop; returns the cache and [emptyIntersect]. *)
Fixpoint intersect_loop (cap : nat) (fuel : nat) (cursors : list TupleCursor) (target : nodeID)
    (cache : list (list nodeID)) (id : nat) (emptyIntersect : bool) :
    option (list (list nodeID) * bool) :=
  match fuel with
  | 0 => None
  | S fuel =>
      '(cursors, o) ← forward_all cursors target;
      match o with
      | Exhausted => Some (cache, emptyIntersect)
      | Missed cur_id => intersect_loop cap fuel cursors cur_id cache id emptyIntersect
      | Reached =>
          '(cursors, target', count, fin) ← consume_all cursors target target 1%Z false;
          let multiplied_count := Z.to_nat count in
          '(cache, id) ← fill_cache cap (S (S (multiplied_count + multiplied_count))) cache id multiplied_count target;
          if fin : bool then Some (cache, false)
          else intersect_loop cap fuel cursors target' cache id false
      end
  end.

(** [probed]: for each probe node of the intersected node, the lists of its probed tuples. *)
Definition multiway_intersect_on_sorted_tuples (cap : nat) (probed : list (list (list nodeID)))
    (resultCache : list (list nodeID)) : option (list (list nodeID) * bool) :=
  let cursors := TupleCursor.create <$> probed in
  let resultCache := (λ _, []) <$> resultCache in
  c0 ← head cursors;
  target ← TupleCursor.getCurrentID c0;
  intersect_loop cap (S (length (concat (concat probed)) + length (concat (concat probed))))
    cursors target resultCache 0 true.

(** ** Cursors as lists *)

(** The elements from the current one on. *)
Definition rest (c : TupleCursor) : list nodeID :=
  if finished c then []
  else drop (ele_idx c) (default [] (tuples c !! tuple_idx c)) ++ concat (drop (S (tuple_idx c)) (tuples c)).

(** [c] is a legal cursor position with the elements [l] ahead. *)
Definition rep (c : TupleCursor) (l : list nodeID) : Prop :=
  rest c = l ∧ length l < TupleCursor.budget c ∧
  (finished c = false → ∃ t, tuples c !! tuple_idx c = Some t ∧ ele_idx c < length t).

Lemma concat_drop_length {A} n (ls : list (list A)) : length (concat (drop n ls)) ≤ length (concat ls).
Proof.
  revert n. induction ls as [|l ls IH]; intros [|n]; simpl; [done..|]. rewrite length_app.
  specialize (IH n). lia.
Qed.

Lemma concat_drop_lookup {A} n (ls : list (list A)) t :
  ls !! n = Some t → concat (drop n ls) = t ++ concat (drop (S n) ls).
Proof. intros H. by rewrite (drop_S _ _ _ H). Qed.

Lemma rep_create ts t ts' :
  ts = t :: ts' → t ≠ [] → rep (TupleCursor.create ts) (concat ts).
Proof.
  intros -> Ht. unfold rep, rest, TupleCursor.budget. simpl. rewrite drop_0. split_and!; [done|lia|].
  intros _. exists t. split; [done|]. destruct t; simpl; [done|lia].
Qed.

Lemma rep_finished c l : rep c l → finished c = bool_decide (l = []).
Proof.
  intros (<- & _ & Hok). unfold rest. destruct (finished c).
  - by rewrite bool_decide_true.
  - destruct (Hok eq_refl) as (t & -> & Hlt). simpl. rewrite bool_decide_false; [done|].
    intros [Hd _]%app_nil. apply (f_equal length) in Hd. rewrite length_drop in Hd. simpl in Hd. lia.
Qed.

Lemma rep_current c x l : rep c (x :: l) → TupleCursor.getCurrentID c = Some x.
Proof.
  intros Hr. pose proof (rep_finished _ _ Hr) as Hf. rewrite bool_decide_false in Hf by done.
  destruct Hr as (Hr & _ & Hok). destruct (Hok Hf) as (t & Ht & Hlt).
  unfold rest in Hr. rewrite Hf, Ht in Hr. simpl in Hr.
  unfold TupleCursor.getCurrentID. rewrite Ht. simpl.
  destruct (lookup_lt_is_Some_2 _ _ Hlt) as [y Hy].
  rewrite (drop_S _ _ _ Hy) in Hr. simpl in Hr. by injection Hr as <- _.
Qed.

Lemma skip_empty_spec fuel ts i :
  0 < fuel → length ts ≤ i + fuel →
  ∃ i' fin, TupleCursor.skip_empty fuel ts i = Some (i', fin) ∧
    if fin : bool then concat (drop (S i) ts) = []
    else ∃ t, ts !! i' = Some t ∧ t ≠ [] ∧ concat (drop (S i) ts) = concat (drop i' ts).
Proof.
  revert i. induction fuel as [|fuel IH]; intros i Hpos Hf; [lia|].
  cbn [TupleCursor.skip_empty]. case_decide as Hlen.
  { eexists _, true. split; [done|]. by rewrite drop_ge by lia. }
  destruct (lookup_lt_is_Some_2 ts (S i)) as [t Ht]; [lia|]. rewrite Ht. cbn [mbind option_bind].
  case_decide as Ht0.
  - destruct (IH (S i)) as (i' & fin & -> & Hfin); [lia..|]. exists i', fin. split; [done|].
    apply length_zero_iff_nil in Ht0 as ->. by rewrite (concat_drop_lookup _ _ _ Ht).
  - exists (S i), false. split; [done|]. exists t. split_and!; [done| |done]. by intros ->.
Qed.

Lemma gotoNext_spec c x l :
  rep c (x :: l) → ∃ c', TupleCursor.gotoNext c = Some c' ∧ rep c' l ∧ tuples c' = tuples c.
Proof.
  intros Hr. pose proof (rep_finished _ _ Hr) as Hf. rewrite bool_decide_false in Hf by done.
  destruct Hr as (Hr & Hb & Hok). destruct (Hok Hf) as (t & Ht & Hlt).
  unfold rest in Hr. rewrite Hf, Ht in Hr. cbn [from_option id] in Hr.
  destruct (lookup_lt_is_Some_2 _ _ Hlt) as [y Hy].
  rewrite (drop_S _ _ _ Hy) in Hr. cbn [app] in Hr. injection Hr as -> Hr.
  unfold TupleCursor.gotoNext. rewrite Ht. cbn [mbind option_bind]. case_decide as Hn.
  - eexists; split; [done|]. split; [|done]. split_and!; simpl; [|unfold TupleCursor.budget in *; simpl in *; lia|].
    + unfold rest. simpl. by rewrite Hf, Ht.
    + intros _. exists t. split; [done|lia].
  - destruct (skip_empty_spec (S (length (tuples c))) (tuples c) (tuple_idx c)) as (i' & fin & -> & Hfin);
      [lia..|]. cbn [mbind option_bind].
    eexists; split; [done|]. split; [|done]. rewrite Hf, orb_false_r.
    rewrite drop_ge in Hr by lia. simpl in Hr.
    split_and!; [|unfold TupleCursor.budget in *; simpl in *; lia|].
    + unfold rest. cbn [finished tuples tuple_idx ele_idx]. destruct fin; [congruence|].
      destruct Hfin as (t' & Ht' & _ & Hc). rewrite Ht'. cbn [from_option id].
      by rewrite drop_0, <-(concat_drop_lookup _ _ _ Ht'), <-Hc.
    + cbn [finished tuples tuple_idx ele_idx]. intros ->. destruct Hfin as (t' & Ht' & Hne & _).
      exists t'. split; [done|]. destruct t'; simpl; [done|lia].
Qed.

(** The elements below [target] at the front of a list. *)
Fixpoint skip_below (target : nodeID) (l : list nodeID) : list nodeID :=
  match l with
  | [] => []
  | x :: l' => if decide (id_lt x target) then skip_below target l' else l
  end.

Lemma goUtil_spec fuel c x l target :
  length l < fuel → rep c (x :: l) →
  ∃ c', TupleCursor.goUtil fuel c target = Some c' ∧ rep c' (skip_below target l) ∧
    tuples c' = tuples c.
Proof.
  revert c x l. induction fuel as [|fuel IH]; intros c x l Hf Hr; [lia|].
  cbn [TupleCursor.goUtil]. destruct (gotoNext_spec _ _ _ Hr) as (c1 & -> & Hr1 & Ht1).
  cbn [mbind option_bind]. unfold TupleCursor.hasFinished. rewrite (rep_finished _ _ Hr1).
  destruct l as [|y l]; [by rewrite bool_decide_true; eauto|]. rewrite bool_decide_false by done.
  rewrite (rep_current _ _ _ Hr1). cbn [mbind option_bind skip_below].
  destruct (internalID.geb y target) eqn:E.
  - apply geb_spec, id_not_lt in E. rewrite decide_False by done. eauto.
  - rewrite decide_True.
    + destruct (IH c1 y l) as (c' & -> & ? & ?); [simpl in Hf; lia|done|]. exists c'. split_and!; [done..|congruence].
    + destruct (decide (id_lt y target)) as [|H%id_not_lt]; [done|]. apply geb_spec in H. congruence.
Qed.

Lemma skip_below_suffix target l : skip_below target l `suffix_of` l.
Proof. induction l as [|x l IH]; simpl; [done|]. case_decide; [|done]. by apply suffix_cons_r. Qed.

Lemma skip_below_sorted target l : sorted l → sorted (skip_below target l).
Proof.
  induction l as [|x l IH]; simpl; [done|]. case_decide; [|done]. intros [_ ?]%sorted_cons. auto.
Qed.

Lemma skip_below_head target l y k : skip_below target l = y :: k → id_le target y.
Proof.
  induction l as [|x l IH]; simpl; [done|]. case_decide as H; [auto|].
  apply id_not_lt in H. naive_solver.
Qed.

Lemma skip_below_occ target l v :
  (id_le target v → occ v (skip_below target l) = occ v l) ∧ occ v (skip_below target l) ≤ occ v l.
Proof.
  induction l as [|x l [IH1 IH2]]; [done|]. cbn [skip_below]. case_decide as Hx; [|done].
  cbn [occ]. split; [intros Hv|lia]. rewrite IH1 by done. rewrite decide_False; [done|].
  intros ->. by apply id_not_lt in Hv.
Qed.

(** ** Forwarding and consuming *)

(** [R'] is [R] without some elements below [target]. *)
Definition trimmed (target : nodeID) (R R' : list nodeID) : Prop :=
  sorted R' ∧ R' `suffix_of` R ∧
  ∀ v, occ v R' ≤ occ v R ∧ (id_le target v → occ v R' = occ v R).

Lemma trimmed_skip target R : sorted R → trimmed target R (skip_below target R).
Proof.
  intros HR. split_and!; [by apply skip_below_sorted|apply skip_below_suffix|].
  intros v. destruct (skip_below_occ target R v). auto.
Qed.

Lemma trimmed_refl target R : sorted R → trimmed target R R.
Proof. intros HR. split_and!; auto. Qed.

(** What the list ahead of a forwarded cursor looks like. *)
Definition outcome_ok (target : nodeID) (R : list nodeID) (o : outcome) : Prop :=
  match o with
  | Missed v => id_lt target v ∧ head R = Some v
  | Reached => head R = Some target
  | Exhausted => R = []
  end.

Lemma forward_cursor_spec fuel c R target :
  1 < fuel → rep c R → R ≠ [] → sorted R →
  ∃ c' R' o, forward_cursor fuel c target = Some (c', o) ∧ rep c' R' ∧ trimmed target R R' ∧
    outcome_ok target R' o.
Proof.
  intros Hf Hr Hne Hs. destruct R as [|x l]; [done|]. destruct fuel as [|[|fuel]]; [lia..|].
  assert (∀ fuel c x l, rep c (x :: l) → id_le target x →
    ∃ o, forward_cursor (S fuel) c target = Some (c, o) ∧ outcome_ok target (x :: l) o) as Hstop.
  { intros f c0 y k Hr0 Hle. cbn [forward_cursor]. rewrite (rep_current _ _ _ Hr0). cbn [mbind option_bind].
    apply id_le_eq_lt in Hle as [->|Hlt].
    - destruct (internalID.gtb y y) eqn:E; [by apply gtb_spec, id_lt_irrefl in E|].
      rewrite (proj2 (eqb_spec y y)) by done. by eexists.
    - rewrite (proj2 (gtb_spec y target)) by done. eexists; split; [done|]. done. }
  destruct (decide (id_le target x)) as [Hle|Hlt].
  { destruct (Hstop (S fuel) c x l Hr Hle) as (o & ? & ?).
    exists c, (x :: l), o. split_and!; [done|done|by apply trimmed_refl|done]. }
  pose proof Hlt as Hx%id_not_le.
  cbn [forward_cursor]. rewrite (rep_current _ _ _ Hr). cbn [mbind option_bind].
  destruct (internalID.gtb x target) eqn:E1.
  { apply gtb_spec, id_lt_le in E1. done. }
  destruct (internalID.eqb x target) eqn:E2.
  { apply eqb_spec in E2 as ->. by apply id_lt_irrefl in Hx. }
  destruct (goUtil_spec (TupleCursor.budget c) c x l target) as (c1 & -> & Hr1 & _); [|done|].
  { destruct Hr as (_ & Hb & _). simpl in Hb. lia. }
  cbn [mbind option_bind]. unfold TupleCursor.hasFinished. rewrite (rep_finished _ _ Hr1).
  pose proof (trimmed_skip target (x :: l) Hs) as Htr. cbn [skip_below] in Htr.
  rewrite decide_True in Htr by done.
  destruct (skip_below target l) as [|y k] eqn:Ek.
  - rewrite bool_decide_true by done. eexists _, [], Exhausted. done.
  - rewrite bool_decide_false by done.
    destruct (Hstop fuel c1 y k Hr1) as (o & ? & ?); [by eapply skip_below_head|].
    exists c1, (y :: k), o. done.
Qed.

Definition all_ok (target : nodeID) (Rs : list (list nodeID)) (o : outcome) : Prop :=
  match o with
  | Missed v => id_lt target v ∧ Forall (λ R, R ≠ []) Rs ∧ Exists (λ R, head R = Some v) Rs
  | Reached => Forall (λ R, head R = Some target) Rs
  | Exhausted => [] ∈ Rs
  end.

Lemma forward_all_spec cs Rs target :
  Forall2 rep cs Rs → Forall (λ R, R ≠ []) Rs → Forall sorted Rs →
  ∃ cs' Rs' o, forward_all cs target = Some (cs', o) ∧ Forall2 rep cs' Rs' ∧
    Forall2 (trimmed target) Rs Rs' ∧ all_ok target Rs' o.
Proof.
  intros Hrep. induction Hrep as [|c R cs Rs Hr Hrs IH]; intros Hne Hso.
  { exists [], [], Reached. split_and!; constructor. }
  apply Forall_cons in Hne as [Hne Hnes], Hso as [Hso Hsos]. cbn [forward_all].
  destruct (forward_cursor_spec (TupleCursor.budget c) c R target) as (c' & R' & o & -> & Hr' & Htr & Ho);
    [|done..|].
  { destruct Hr as (_ & Hb & _). destruct R; [done|]. simpl in Hb. lia. }
  cbn [mbind option_bind].
  assert (Forall2 (trimmed target) Rs Rs) as Hid.
  { clear -Hsos. induction Hsos; constructor; [by apply trimmed_refl|done]. }
  destruct o as [v| |].
  - eexists _, (R' :: Rs), (Missed v). destruct Ho as [Hlt Hh].
    split_and!; [done|by constructor|by constructor|]. split_and!; [done| |by left].
    constructor; [by intros ->|done].
  - destruct (IH Hnes Hsos) as (cs' & Rs' & o & -> & Hrs' & Htrs & Ho'). cbn [mbind option_bind].
    exists (c' :: cs'), (R' :: Rs'), o. split_and!; [done|by constructor|by constructor|].
    simpl in Ho. destruct o; simpl in *.
    + destruct Ho' as (? & ? & ?). split_and!; [done| |by right]. constructor; [by intros ->|done].
    + by constructor.
    + by right.
  - eexists _, (R' :: Rs), Exhausted. simpl in Ho. subst.
    split_and!; [done|by constructor|by constructor|]. by left.
Qed.

(** [R] is [n] copies of [v] followed by [R'], which has none. *)
Definition consumed (v : nodeID) (R R' : list nodeID) : Prop :=
  R = replicate (occ v R) v ++ R' ∧ occ v R' = 0 ∧ 0 < occ v R.

Lemma skip_repeated_spec fuel c R v count :
  length R < fuel → rep c R → sorted R → Forall (id_le v) R →
  ∃ c' R', skip_repeated fuel c v count = Some (c', count + occ v R) ∧ rep c' R' ∧
    R = replicate (occ v R) v ++ R' ∧ occ v R' = 0.
Proof.
  revert c R count. induction fuel as [|fuel IH]; intros c R count Hf Hr Hs Hall; [lia|].
  cbn [skip_repeated]. unfold TupleCursor.hasFinished. rewrite (rep_finished _ _ Hr).
  destruct R as [|x l].
  { rewrite bool_decide_true by done. exists c, []. simpl. by rewrite Nat.add_0_r. }
  rewrite bool_decide_false, (rep_current _ _ _ Hr) by done. cbn [mbind option_bind].
  destruct (internalID.eqb x v) eqn:E.
  - apply eqb_spec in E as ->. destruct (gotoNext_spec _ _ _ Hr) as (c1 & -> & Hr1 & _).
    cbn [mbind option_bind]. apply sorted_cons in Hs as [_ Hs]. apply Forall_cons in Hall as [_ Hall].
    destruct (IH c1 l (S count)) as (c' & R' & -> & Hr' & HR' & Hz); [simpl in Hf; lia|done..|].
    exists c', R'. cbn [occ]. rewrite decide_True by done. split_and!; [f_equal; f_equal; lia|done| |done].
    simpl. by rewrite <-HR'.
  - assert (occ v (x :: l) = 0) as Hz.
    { apply occ_below_head; [done|]. apply Forall_cons in Hall as [Hx _].
      apply id_le_eq_lt in Hx as [->|]; [|done]. by rewrite (proj2 (eqb_spec x x)) in E. }
    exists c, (x :: l). rewrite Hz, Nat.add_0_r. done.
Qed.

Lemma consume_one c R v :
  rep c R → sorted R → head R = Some v →
  ∃ c1 c' R', TupleCursor.gotoNext c = Some c1 ∧
    skip_repeated (TupleCursor.budget c1) c1 v 1 = Some (c', occ v R) ∧ rep c' R' ∧ consumed v R R'.
Proof.
  intros Hr Hs Hh. destruct R as [|x l]; [done|]. injection Hh as ->.
  destruct (gotoNext_spec _ _ _ Hr) as (c1 & -> & Hr1 & _).
  apply sorted_cons in Hs as [Hall Hs].
  destruct (skip_repeated_spec (TupleCursor.budget c1) c1 l v 1) as (c' & R' & Hsk & Hr' & HR' & Hz);
    [by destruct Hr1 as (_ & ? & _)|done..|].
  exists c1, c', R'. rewrite Hsk. unfold consumed. cbn [occ]. rewrite decide_True by done.
  split_and!; [done|done|done| |done|lia]. simpl. by rewrite <-HR'.
Qed.

Lemma consumed_sorted v R R' : consumed v R R' → sorted R → sorted R'.
Proof. intros (HR & _) Hs. rewrite HR in Hs. by apply sorted_app in Hs as (_ & ? & _). Qed.

Lemma u64_mul_l a b : u64 (u64 a * b) = u64 (a * b).
Proof. unfold u64. by rewrite Zmult_mod_idemp_l. Qed.

Lemma consume_all_spec cs Rs v target m fin :
  u64 m = m → Forall2 rep cs Rs → Forall sorted Rs → Forall (λ R, head R = Some v) Rs →
  ∃ cs' Rs' target', consume_all cs v target m fin =
      Some (cs', target', u64 (m * Z.of_nat (prod_list (occ v <$> Rs))), fin || bool_decide ([] ∈ Rs')) ∧
    Forall2 rep cs' Rs' ∧ Forall2 (consumed v) Rs Rs' ∧ id_le target target' ∧
    (target' = target ∨ Exists (λ R, head R = Some target') Rs') ∧
    Forall (λ R, ∀ y, head R = Some y → id_le y target') Rs'.
Proof.
  intros Hm Hrep. revert target m fin Hm. induction Hrep as [|c R cs Rs Hr Hrs IH]; intros target m fin Hm Hso Hhd.
  { exists [], [], target. simpl. rewrite Z.mul_1_r, Hm, orb_false_r. split_and!; auto; by constructor. }
  assert (u64 (u64 (m * Z.of_nat (occ v R))) = u64 (m * Z.of_nat (occ v R))) as Hm' by (apply u64_id, u64_range).
  apply Forall_cons in Hso as [Hso Hsos], Hhd as [Hhd Hhds]. cbn [consume_all].
  destruct (consume_one c R v Hr Hso Hhd) as (c1 & c' & R' & -> & Hsk & Hr' & Hc).
  cbn [mbind option_bind]. rewrite Hsk. cbn [mbind option_bind]. unfold TupleCursor.hasFinished.
  rewrite (rep_finished _ _ Hr'). destruct R' as [|y k].
  - rewrite bool_decide_true by done.
    destruct (IH target _ true Hm' Hsos Hhds) as (cs' & Rs' & t' & -> & ? & ? & ? & ? & ?).
    cbn [mbind option_bind]. exists (c' :: cs'), ([] :: Rs'), t'. split_and!; try (by constructor); auto.
    + rewrite (bool_decide_true ([] ∈ [] :: Rs')) by set_solver.
      rewrite orb_true_r, orb_true_l. cbn [fmap list_fmap prod_list foldr]. by rewrite u64_mul_l, Nat2Z.inj_mul, Z.mul_assoc.
    + naive_solver.
  - rewrite bool_decide_false, (rep_current _ _ _ Hr') by done. cbn [mbind option_bind].
    set (t1 := if internalID.gtb y target then y else target).
    assert (id_le target t1 ∧ id_le y t1 ∧ (t1 = target ∨ t1 = y)) as (H1 & H2 & H3).
    { subst t1. destruct (internalID.gtb y target) eqn:E.
      - apply gtb_spec, id_lt_le in E. split_and!; [done|done|by right].
      - split_and!; [done| |by left]. destruct (decide (id_le y target)) as [|H%id_not_le%gtb_spec]; [done|congruence]. }
    destruct (IH t1 _ fin Hm' Hsos Hhds) as (cs' & Rs' & t' & -> & ? & ? & Hle & Hor & ?).
    cbn [mbind option_bind]. exists (c' :: cs'), ((y :: k) :: Rs'), t'. split_and!; try (by constructor).
    + cbn [fmap list_fmap prod_list foldr]. rewrite u64_mul_l, Nat2Z.inj_mul, Z.mul_assoc. repeat f_equal.
      apply bool_decide_ext. set_solver.
    + by etrans.
    + destruct Hor as [->|]; [|auto]. destruct H3 as [->| ->]; [by left|]. right. by left.
    + constructor; [|done]. intros z [= <-]. by etrans.
Qed.

(** ** The result cache *)

(** Full vectors, then the one being filled, then emptied ones. *)
Definition cache_ok (cap : nat) (cache : list (list nodeID)) (id : nat) : Prop :=
  ∃ full vec n, cache = full ++ vec :: replicate n [] ∧ length full = id ∧
    Forall (λ w, length w = cap) full ∧ length vec ≤ cap ∧ (full ≠ [] → vec ≠ []).

Lemma fill_cache_spec cap fuel full vec n count v :
  0 < cap → length vec ≤ cap → Forall (λ w, length w = cap) full →
  2 * count + (if decide (length vec = cap) then 1 else 0) < fuel →
  ∃ full' vec' n', fill_cache cap fuel (full ++ vec :: replicate n []) (length full) count v =
      Some (full' ++ vec' :: replicate n' [], length full') ∧
    Forall (λ w, length w = cap) full' ∧ length vec' ≤ cap ∧ (0 < count → vec' ≠ []) ∧
    (count = 0 → full' = full ∧ vec' = vec) ∧
    concat full' ++ vec' = concat full ++ vec ++ replicate count v.
Proof.
  intros Hcap. revert full vec n count. induction fuel as [|fuel IH]; intros full vec n count Hv Hfull Hf; [lia|].
  cbn [fill_cache]. destruct (decide (0 < count)) as [Hc|Hc].
  2:{ assert (count = 0) as -> by lia. exists full, vec, n. simpl. rewrite app_nil_r. split_and!; auto; lia. }
  rewrite list_lookup_middle by done. cbn [mbind option_bind].
  destruct (decide (count ≤ cap - length vec)) as [Hm|Hm].
  - rewrite insert_app_r_alt, Nat.sub_diag by lia. cbn [insert list_insert].
    destruct (IH full (vec ++ replicate count v) n 0) as (full' & vec' & n' & -> & H1 & H2 & _ & H4 & H5).
    { rewrite length_app, length_replicate. lia. }
    { done. }
    { case_decide; case_decide; lia. }
    destruct (H4 eq_refl) as [-> ->]. exists full, (vec ++ replicate count v), n'.
    split_and!; auto; [|lia]. intros _ [_ Hnil]%app_nil. destruct count; [lia|done].
  - rewrite insert_app_r_alt, Nat.sub_diag by lia. cbn [insert list_insert].
    set (vec1 := vec ++ replicate (cap - length vec) v).
    assert (length vec1 = cap) as Hv1 by (subst vec1; rewrite length_app, length_replicate; lia).
    assert (∃ n1, (if decide (S (length full) = length (full ++ vec1 :: replicate n []))
      then (full ++ vec1 :: replicate n []) ++ [[]] else full ++ vec1 :: replicate n []) =
      (full ++ [vec1]) ++ [] :: replicate n1 []) as [n1 ->].
    { rewrite length_app, length_cons, length_replicate.
      destruct (decide (S (length full) = length full + S n)).
      - assert (n = 0) as -> by lia. exists 0. simpl. by rewrite <-!app_assoc.
      - destruct n as [|n]; [lia|]. exists n. by rewrite <-!app_assoc. }
    replace (S (length full)) with (length (full ++ [vec1])) by (rewrite length_app; simpl; lia).
    destruct (IH (full ++ [vec1]) [] n1 (count - (cap - length vec))) as (full' & vec' & n' & -> & H1 & H2 & H3 & H4 & H5).
    { simpl. lia. }
    { apply Forall_app. split; [done|by constructor]. }
    { simpl. destruct (decide (0 = cap)); [lia|]. case_decide; lia. }
    exists full', vec', n'. split_and!; auto; [intros _; apply H3; lia|lia|].
    rewrite H5, concat_app. simpl. rewrite app_nil_r. subst vec1. rewrite <-!app_assoc.
    do 2 f_equal. rewrite <-replicate_add. f_equal. lia.
Qed.

(** ** The leapfrogging loop *)

(** How often [v] is in the intersection of the lists: once per choice of one occurrence in
    each of them. *)
Definition isect (Rs : list (list nodeID)) (v : nodeID) : nat := prod_list (occ v <$> Rs).

Lemma isect_cons R Rs v : isect (R :: Rs) v = occ v R * isect Rs v.
Proof. done. Qed.

Lemma isect_zero Rs R v : R ∈ Rs → occ v R = 0 → isect Rs v = 0.
Proof.
  intros HR Hz. destruct (isect Rs v) eqn:E; [done|]. exfalso.
  assert (0 < isect Rs v) as Hp by lia. apply prod_list_pos in Hp. rewrite Forall_fmap, Forall_forall in Hp.
  specialize (Hp R HR). simpl in Hp. lia.
Qed.

Lemma isect_zero_iff (probed : list (list (list nodeID))) v :
  isect (@concat _ <$> probed) v = 0 ↔ ∃ ts, ts ∈ probed ∧ v ∉ concat ts.
Proof.
  split.
  - induction probed as [|ts probed IH]; [done|]. rewrite fmap_cons, isect_cons. intros [H|H]%Nat.mul_eq_0.
    + exists ts. split; [by left|]. by apply occ_zero.
    + destruct (IH H) as (ts' & ? & ?). exists ts'. split; [by right|done].
  - intros (ts & Hts & Hv). apply (isect_zero _ (concat ts)); [by apply list_elem_of_fmap_2|by apply occ_zero].
Qed.

Lemma isect_ext Rs Rs' v : Forall2 (λ R R', occ v R' = occ v R) Rs Rs' → isect Rs' v = isect Rs v.
Proof. induction 1 as [|R R' Rs Rs' H _ IH]; [done|]. by rewrite !isect_cons, H, IH. Qed.

Lemma isect_le Rs Rs' v : Forall2 (λ R R', occ v R' ≤ occ v R) Rs Rs' → isect Rs' v ≤ isect Rs v.
Proof. induction 1 as [|R R' Rs Rs' H _ IH]; [done|]. rewrite !isect_cons. by apply Nat.mul_le_mono. Qed.

(** No value below [target] is in the intersection. *)
Definition bounded (Rs : list (list nodeID)) (target : nodeID) : Prop :=
  ∀ v, id_lt v target → isect Rs v = 0.

Lemma trimmed_isect target Rs Rs' :
  bounded Rs target → Forall2 (trimmed target) Rs Rs' →
  (∀ v, isect Rs' v = isect Rs v) ∧ Forall sorted Rs'.
Proof.
  intros Hb Htr. split.
  - intros v. destruct (decide (id_lt v target)) as [Hv|Hv%id_not_lt].
    + rewrite (Hb v Hv). enough (isect Rs' v ≤ isect Rs v) by (rewrite (Hb v Hv) in *; lia).
      apply isect_le. eapply Forall2_impl; [done|]. intros R R' (_ & _ & H). apply H.
    + apply isect_ext. eapply Forall2_impl; [done|]. intros R R' (_ & _ & H). by apply H.
  - eapply Forall2_Forall_r; [done|]. apply Forall_forall. by intros R _ R' (? & _).
Qed.

Lemma bounded_head Rs R y :
  Forall sorted Rs → R ∈ Rs → head R = Some y → bounded Rs y.
Proof.
  intros Hs HR Hh v Hv. apply (isect_zero _ R); [done|]. destruct R as [|x l]; [done|].
  injection Hh as ->. rewrite Forall_forall in Hs. apply occ_below_head; auto.
Qed.

Lemma consumed_isect v Rs Rs' :
  Rs ≠ [] → Forall2 (consumed v) Rs Rs' →
  isect Rs' v = 0 ∧ ∀ w, w ≠ v → isect Rs' w = isect Rs w.
Proof.
  intros Hne Hc. split.
  - destruct Hc as [|R R' Rs Rs' (_ & Hz & _) _]; [done|]. by apply (isect_zero _ R'); [left|].
  - intros w Hw. apply isect_ext. eapply Forall2_impl; [done|]. intros R R' (HR & _).
    rewrite HR, occ_app, occ_replicate, decide_False by done. done.
Qed.

Lemma consumed_all_sorted v Rs Rs' : Forall sorted Rs → Forall2 (consumed v) Rs Rs' → Forall sorted Rs'.
Proof.
  intros Hs Hc. eapply Forall2_Forall_r; [done|]. eapply Forall_impl; [done|].
  intros R HsR R' HR. by eapply consumed_sorted.
Qed.

(** Occurrences above the target. *)
Definition above (target : nodeID) (R : list nodeID) : nat := length (filter (id_lt target) R).

(** The measure of the loop: elements ahead, and elements above the target. *)
Definition weight (target : nodeID) (Rs : list (list nodeID)) : nat :=
  sum_list_with (λ R, length R + above target R) Rs.

Lemma above_suffix t t' R R' : R' `suffix_of` R → id_le t t' → above t' R' ≤ above t R.
Proof.
  intros [k ->] Ht. unfold above. rewrite filter_app, length_app.
  enough (length (filter (id_lt t') R') ≤ length (filter (id_lt t) R')) by lia.
  clear k. induction R' as [|x R IH]; [done|]. rewrite !filter_cons.
  destruct (decide (id_lt t' x)); destruct (decide (id_lt t x)) as [|Hn]; simpl; try lia.
  destruct Hn. by eapply id_le_lt_trans.
Qed.

Lemma above_strict t t' R : t' ∈ R → id_lt t t' → above t' R < above t R.
Proof.
  intros Hin Ht. apply list_elem_of_split in Hin as (l1 & l2 & ->). unfold above.
  rewrite !filter_app, !length_app, !filter_cons, decide_False, decide_True by (done || apply id_lt_irrefl).
  pose proof (above_suffix t t' l1 l1 ltac:(done) (id_lt_le _ _ Ht)).
  pose proof (above_suffix t t' l2 l2 ltac:(done) (id_lt_le _ _ Ht)). unfold above in *. simpl. lia.
Qed.

Lemma weight_le t t' Rs Rs' :
  Forall2 (λ R R', R' `suffix_of` R) Rs Rs' → id_le t t' → weight t' Rs' ≤ weight t Rs.
Proof.
  intros Hs Ht. unfold weight. induction Hs as [|R R' Rs Rs' H _ IH]; simpl; [done|].
  pose proof (above_suffix t t' R R' H Ht). pose proof (suffix_length _ _ H). lia.
Qed.

Lemma weight_missed t t' Rs Rs' :
  Forall2 (λ R R', R' `suffix_of` R) Rs Rs' → id_lt t t' →
  Exists (λ R', head R' = Some t') Rs' → weight t' Rs' < weight t Rs.
Proof.
  intros Hs Ht. induction Hs as [|R R' Rs Rs' H Hs IH]; [by inversion 1|].
  pose proof (above_suffix t t' R R' H (id_lt_le _ _ Ht)). pose proof (suffix_length _ _ H).
  unfold weight in *. simpl. intros [Hh|He]%Exists_cons; [|specialize (IH He); lia].
  pose proof (weight_le t t' Rs Rs' Hs (id_lt_le _ _ Ht)) as Hw. unfold weight in Hw.
  assert (t' ∈ R') as Hin by (destruct R'; [done|]; injection Hh as ->; by left).
  pose proof (above_strict t t' R' Hin Ht).
  pose proof (above_suffix t t R R' H ltac:(done)). lia.
Qed.

Lemma weight_consumed t t' v Rs Rs' :
  Rs ≠ [] → Forall2 (consumed v) Rs Rs' → id_le t t' → weight t' Rs' < weight t Rs.
Proof.
  intros Hne Hc Ht.
  assert (∀ R R', consumed v R R' → R' `suffix_of` R ∧ length R' < length R) as Hcs.
  { intros R R' (HR & _ & Hp). rewrite HR at 1. split; [by eexists|].
    rewrite HR, length_app, length_replicate. lia. }
  destruct Hc as [|R R' Rs Rs' H Hs]; [done|]. apply Hcs in H as [H1 H2].
  pose proof (above_suffix t t' R R' H1 Ht).
  assert (weight t' Rs' ≤ weight t Rs) as Hw.
  { apply weight_le; [|done]. eapply Forall2_impl; [done|]. apply Hcs. }
  unfold weight in *. simpl. lia.
Qed.

Lemma weight_bound t Rs : weight t Rs ≤ length (concat Rs) + length (concat Rs).
Proof.
  unfold weight. induction Rs as [|R Rs IH]; simpl; [done|]. rewrite length_app.
  assert (above t R ≤ length R) by (apply length_filter). lia.
Qed.

Lemma concat_replicate_nil {A} n : concat (replicate n []) = @nil A.
Proof. by induction n. Qed.

Lemma fill_cache_ok cap cache id count v :
  0 < cap → cache_ok cap cache id →
  ∃ cache' id', fill_cache cap (S (S (count + count))) cache id count v = Some (cache', id') ∧
    cache_ok cap cache' id' ∧ concat cache' = concat cache ++ replicate count v.
Proof.
  intros Hcap Hok. destruct (decide (count = 0)) as [->|Hcount].
  { exists cache, id. simpl. by rewrite app_nil_r. }
  destruct Hok as (full & vec & n & -> & <- & Hfull & Hvec & _).
  destruct (fill_cache_spec cap (S (S (count + count))) full vec n count v)
    as (full' & vec' & n' & -> & H1 & H2 & H3 & _ & H5); [done..|case_decide; lia|].
  eexists _, _. split_and!; [done| |].
  - exists full', vec', n'. split_and!; auto with lia.
  - rewrite !concat_app. simpl. rewrite !concat_replicate_nil, !app_nil_r, H5. by rewrite app_assoc.
Qed.

(** A number as a [size_t]. *)
Definition wrapped (n : nat) : nat := Z.to_nat (u64 (Z.of_nat n)).

Lemma wrapped_zero : wrapped 0 = 0.
Proof. done. Qed.

Lemma wrapped_id n : (Z.of_nat n < 2 ^ 64)%Z → wrapped n = n.
Proof. intros H. unfold wrapped. rewrite u64_id by lia. lia. Qed.

(** The values appended to the cache from a state of the loop on. *)
Definition appended (Rs : list (list nodeID)) (target : nodeID) (res : list nodeID) : Prop :=
  sorted res ∧ Forall (id_le target) res ∧ ∀ v, occ v res = wrapped (isect Rs v).

Lemma appended_nil Rs target : [] ∈ Rs → appended Rs target [].
Proof.
  intros H. split_and!; [constructor..|]. intros v. by rewrite (isect_zero _ []).
Qed.

Lemma appended_reached Rs Rs' target target' res :
  Rs ≠ [] → Forall sorted Rs → Forall (λ R, head R = Some target) Rs →
  Forall2 (consumed target) Rs Rs' → id_le target target' → appended Rs' target' res →
  appended Rs target (replicate (wrapped (isect Rs target)) target ++ res).
Proof.
  intros Hne Hso Hhd Hc Ht (Hs & Hall & Ho). destruct (consumed_isect _ _ _ Hne Hc) as [Hz Hw].
  assert (Forall (id_le target) res) as Hall'.
  { eapply Forall_impl; [done|]. intros x. by etrans. }
  split_and!.
  - apply sorted_app. split_and!; [apply sorted_replicate|done|].
    intros x y [-> _]%elem_of_replicate Hy. rewrite Forall_forall in Hall'. auto.
  - apply Forall_app. split; [|done]. by apply Forall_replicate.
  - intros v. rewrite occ_app, occ_replicate, Ho. case_decide as Hv.
    + subst v. by rewrite Hz, wrapped_zero, Nat.add_0_r.
    + by rewrite Hw.
Qed.

Lemma reached_count (target : nodeID) Rs :
  Forall (λ R, head R = Some target) Rs → 0 < isect Rs target.
Proof.
  intros Ho. apply prod_list_pos. rewrite Forall_fmap. eapply Forall_impl; [done|].
  intros [|x R]; [done|]. intros [= ->]. simpl. rewrite decide_True by done. lia.
Qed.

(** The state after a match, when no cursor is exhausted. *)
Lemma reached_next target target' Rs Rs' :
  Rs ≠ [] → Forall sorted Rs → bounded Rs target → Forall2 (consumed target) Rs Rs' →
  (target' = target ∨ Exists (λ R, head R = Some target') Rs') →
  Rs' ≠ [] ∧ Forall sorted Rs' ∧ bounded Rs' target'.
Proof.
  intros Hne Hso Hb Hcons Hor. split_and!; [intros ->; inversion Hcons; congruence| |].
  { by eapply consumed_all_sorted. }
  destruct Hor as [->|Hex].
  - intros v Hv. destruct (consumed_isect _ _ _ Hne Hcons) as [_ Hwv].
    rewrite Hwv by (intros ->; by apply id_lt_irrefl in Hv). by apply Hb.
  - apply Exists_exists in Hex as (R & HR & Hh).
    apply (bounded_head Rs' R); [by eapply consumed_all_sorted|done..].
Qed.

(** The flag the loop returns: it is set when it was and there is no common value. *)
Definition no_match (e empty : bool) (Rs : list (list nodeID)) : Prop :=
  e = true ↔ empty = true ∧ ∀ v, isect Rs v = 0.

Lemma no_match_false empty Rs target :
  Forall (λ R, head R = Some target) Rs → no_match false empty Rs.
Proof. intros Ho%reached_count. split; [done|]. intros [_ Hz]. rewrite Hz in Ho. lia. Qed.

Lemma no_match_ext e empty Rs Rs' : (∀ v, isect Rs' v = isect Rs v) → no_match e empty Rs' → no_match e empty Rs.
Proof. intros H. unfold no_match. by setoid_rewrite H. Qed.

Lemma intersect_loop_spec cap fuel cs Rs target cache id empty :
  0 < cap → Forall2 rep cs Rs → Rs ≠ [] → Forall (λ R, R ≠ []) Rs → Forall sorted Rs →
  bounded Rs target → weight target Rs < fuel → cache_ok cap cache id →
  ∃ cache' id' res e, intersect_loop cap fuel cs target cache id empty = Some (cache', e) ∧
    no_match e empty Rs ∧
    cache_ok cap cache' id' ∧ concat cache' = concat cache ++ res ∧ appended Rs target res.
Proof.
  intros Hcap. revert cs Rs target cache id empty.
  induction fuel as [|fuel IH]; intros cs Rs target cache id empty Hrep Hne Hnes Hso Hb Hw Hc; [lia|].
  cbn [intersect_loop].
  destruct (forward_all_spec cs Rs target Hrep Hnes Hso) as (cs1 & Rs1 & o & -> & Hrep1 & Htr & Ho).
  cbn [mbind option_bind]. destruct (trimmed_isect _ _ _ Hb Htr) as [Heq Hso1].
  assert (Forall2 (λ R R', R' `suffix_of` R) Rs Rs1) as Hsuf.
  { eapply Forall2_impl; [done|]. by intros R R' (_ & ? & _). }
  assert (Rs1 ≠ []) as Hne1 by (intros ->; inversion Hsuf; congruence).
  assert (∀ t res, appended Rs1 t res → id_le target t → appended Rs target res) as Hback.
  { intros t res (? & ? & Hocc) Ht. split_and!; [done| |by setoid_rewrite <-Heq].
    eapply Forall_impl; [done|]. intros x. by etrans. }
  pose proof (λ e b, no_match_ext e b Rs Rs1 Heq) as Hflag.
  destruct o as [v| |]; simpl in Ho.
  - destruct Ho as (Hlt & Hnes1 & Hex).
    destruct (IH cs1 Rs1 v cache id empty) as (cache' & id' & res & e & -> & ? & ? & ? & ?); try done.
    { apply Exists_exists in Hex as (R & HR & Hh). by eapply bounded_head. }
    { pose proof (weight_missed _ _ _ _ Hsuf Hlt Hex). lia. }
    exists cache', id', res, e. split_and!; [done|by apply Hflag|done..|]. eapply Hback; [done|]. by apply id_lt_le.
  - destruct (consume_all_spec cs1 Rs1 target target 1 false eq_refl Hrep1 Hso1 Ho)
      as (cs2 & Rs2 & t2 & -> & Hrep2 & Hcons & Ht2 & Hor & _).
    cbn [mbind option_bind]. rewrite orb_false_l, Z.mul_1_l. fold (isect Rs1 target). fold (wrapped (isect Rs1 target)).
    destruct (fill_cache_ok cap cache id (wrapped (isect Rs1 target)) target Hcap Hc) as (cache1 & id1 & -> & Hc1 & Hcat1).
    cbn [mbind option_bind]. pose proof (appended_reached Rs1 Rs2 target) as Happ.
    destruct (bool_decide_reflect ([] ∈ Rs2)) as [Hfin|Hnfin].
    + eexists _, _, (replicate (wrapped (isect Rs1 target)) target ++ []), false.
      split_and!; [done|by eapply Hflag, no_match_false|done|by rewrite app_nil_r|].
      apply (Hback target); [|done]. eapply Happ; try done. by apply appended_nil.
    + destruct (reached_next target t2 Rs1 Rs2) as (Hne2 & Hso2 & Hb2); try done.
      { intros v Hv. rewrite Heq. by apply Hb. }
      destruct (IH cs2 Rs2 t2 cache1 id1 false) as (cache' & id' & res & e & -> & He & ? & Hcat & ?); try done.
      { apply Forall_forall. intros R HR ->. done. }
      { pose proof (weight_le _ _ _ _ Hsuf (reflexivity target)).
        pose proof (weight_consumed target t2 _ _ _ Hne1 Hcons Ht2). lia. }
      assert (e = false) as -> by (destruct e; [|done]; by destruct He as [[? _] _]).
      eexists cache', id', (replicate (wrapped (isect Rs1 target)) target ++ res), false.
      split_and!; [done|by eapply Hflag, no_match_false|done|by rewrite Hcat, Hcat1, app_assoc|].
      apply (Hback target); [|done]. by eapply Happ.
  - exists cache, id, [], empty. rewrite app_nil_r. split_and!; [done| |done..|].
    + apply Hflag. split; [|by intros [? _]]. intros ->. split; [done|]. intros v. by apply (isect_zero _ []).
    + eapply Hback; [by apply appended_nil|done].
Qed.

Lemma concat_concat_length {A} (lss : list (list (list A))) :
  length (concat (concat lss)) = length (concat (@concat _ <$> lss)).
Proof.
  induction lss as [|ls lss IH]; simpl; [done|]. by rewrite concat_app, !length_app, IH.
Qed.

(** The result in general: every number of copies is the product modulo [2 ^ 64]. *)
Lemma multiway_intersect_wrapped cap probed cache :
  0 < cap → cache ≠ [] → probed ≠ [] →
  Forall (λ ts, head ts ≠ Some [] ∧ ts ≠ [] ∧ sorted (concat ts)) probed →
  ∃ cache' id e, multiway_intersect_on_sorted_tuples cap probed cache = Some (cache', e) ∧
    (e = true ↔ ∀ v, isect (@concat _ <$> probed) v = 0) ∧
    cache_ok cap cache' id ∧ sorted (concat cache') ∧
    ∀ v, occ v (concat cache') = wrapped (isect (@concat _ <$> probed) v).
Proof.
  intros Hcap Hcache Hne Hall. unfold multiway_intersect_on_sorted_tuples.
  assert (∃ ts probed', probed = ts :: probed') as (ts & probed' & ->) by (destruct probed; [done|eauto]).
  assert (Forall2 rep (TupleCursor.create <$> ts :: probed') (@concat _ <$> ts :: probed')) as Hrep.
  { apply Forall2_fmap_2, Forall_Forall2_diag. eapply Forall_impl; [done|].
    intros [|t l] (H1 & H2 & _); [done|]. apply (rep_create _ t l); [done|]. intros ->. done. }
  assert (Forall (λ R, R ≠ []) (@concat _ <$> ts :: probed')) as Hnes.
  { apply Forall_fmap. eapply Forall_impl; [done|]. intros [|t l] (H1 & H2 & _); [done|].
    simpl. by intros [-> _]%app_nil. }
  assert (Forall sorted (@concat _ <$> ts :: probed')) as Hso.
  { apply Forall_fmap. eapply Forall_impl; [done|]. by intros ? (_ & _ & ?). }
  assert (∃ x R, concat ts = x :: R) as (x & R & HR).
  { apply Forall_cons in Hnes as [Hx _]. destruct (concat ts); [done|eauto]. }
  cbn [fmap list_fmap head mbind option_bind] in *.
  rewrite (rep_current (TupleCursor.create ts) x R); [|rewrite <-HR; by inversion Hrep].
  cbn [mbind option_bind].
  destruct (intersect_loop_spec cap (S (length (concat (concat (ts :: probed'))) + length (concat (concat (ts :: probed')))))
    (TupleCursor.create ts :: (TupleCursor.create <$> probed')) (concat ts :: (@concat _ <$> probed')) x ((λ _, []) <$> cache) 0 true)
    as (cache' & id & res & e & Hrun & He & Hok & Hcat & Hs & _ & Hocc); try done.
  - apply (bounded_head _ (concat ts)); [done|by left|by rewrite HR].
  - pose proof (weight_bound x (@concat _ <$> ts :: probed')) as Hw.
    rewrite concat_concat_length. unfold lt. by apply le_n_S.
  - destruct cache as [|w cache]; [done|]. exists [], [], (length cache). simpl.
    split_and!; [|done|constructor|lia|done]. f_equal. clear.
    induction cache; simpl; by f_equal.
  - assert (concat ((λ _ : list nodeID, []) <$> cache) = @nil nodeID) as Hz.
    { clear. by induction cache. }
    rewrite Hz in Hcat. simpl in Hcat. subst res. exists cache', id, e. split_and!; [done| |done..].
    unfold no_match in He. rewrite He. naive_solver.
Qed.

Lemma occ_all_zero (l : list nodeID) : (∀ v, occ v l = 0) → l = [].
Proof. destruct l as [|x l]; [done|]. intros H. specialize (H x). simpl in H. by rewrite decide_True in H. Qed.

(** Every product is a number a [size_t] holds. *)
Definition counts_fit (Rs : list (list nodeID)) : Prop := ∀ v, (Z.of_nat (isect Rs v) < 2 ^ 64)%Z.

Lemma occ_NoDup (l : list nodeID) v : NoDup l → occ v l ≤ 1.
Proof.
  induction 1 as [|x l Hx _ IH]; simpl; [lia|]. case_decide as Hv; [|lia]. subst x.
  apply occ_zero in Hx. lia.
Qed.

Lemma counts_fit_NoDup Rs : Forall NoDup Rs → counts_fit Rs.
Proof.
  intros Hnd v. enough (isect Rs v ≤ 1) by lia. induction Hnd as [|R Rs HR _ IH]; [done|].
  rewrite isect_cons. pose proof (occ_NoDup R v HR). nia.
Qed.

Lemma multiway_intersect_Some cap probed cache :
  0 < cap → cache ≠ [] → probed ≠ [] →
  Forall (λ ts, head ts ≠ Some [] ∧ ts ≠ [] ∧ sorted (concat ts)) probed →
  counts_fit (@concat _ <$> probed) →
  ∃ cache' id, multiway_intersect_on_sorted_tuples cap probed cache =
      Some (cache', bool_decide (concat cache' = [])) ∧
    cache_ok cap cache' id ∧ sorted (concat cache') ∧
    ∀ v, occ v (concat cache') = isect (@concat _ <$> probed) v.
Proof.
  intros Hcap Hcache Hne Hall Hfit.
  destruct (multiway_intersect_wrapped cap probed cache Hcap Hcache Hne Hall) as (cache' & id & e & Hrun & He & Hok & Hs & Hocc).
  assert (∀ v, occ v (concat cache') = isect (@concat _ <$> probed) v) as Hocc'.
  { intros v. rewrite Hocc. apply wrapped_id, Hfit. }
  exists cache', id. split_and!; [|done..]. rewrite Hrun. do 2 f_equal.
  apply eq_true_iff_eq. rewrite He, bool_decide_eq_true. setoid_rewrite <-Hocc'.
  split; [apply occ_all_zero|by intros ->].
Qed.

(** ** Claims *)

(** C10. [multiway_intersect_on_sorted_tuples] returns for every input of one or more non-empty
    probed lists, each sorted by (table, offset) across its chunks and not starting with an empty
    chunk: the cached vectors then hold, sorted and in vectors filled to the capacity one after the
    other, a value [v] as often as the product of its numbers of occurrences in the lists modulo
    [2 ^ 64], the width of [multiplied_count], and the returned flag says whether no value is common
    to all the lists. So where every product is below [2 ^ 64], the vectors hold exactly the common
    values with their multiplicities, and the flag says whether the vectors are empty. *)
Theorem multiway_intersection_exact cap probed cache :
  0 < cap → cache ≠ [] → probed ≠ [] →
  Forall (λ ts, head ts ≠ Some [] ∧ ts ≠ [] ∧ sorted (concat ts)) probed →
  let product v := prod_list ((λ ts, occ v (concat ts)) <$> probed) in
  ∃ cache' id e, multiway_intersect_on_sorted_tuples cap probed cache = Some (cache', e) ∧
    cache_ok cap cache' id ∧ sorted (concat cache') ∧
    (∀ v, Z.of_nat (occ v (concat cache')) = u64 (Z.of_nat (product v))) ∧
    (e = true ↔ ∀ v, ∃ ts, ts ∈ probed ∧ v ∉ concat ts) ∧
    ((∀ v, (Z.of_nat (product v) < 2 ^ 64)%Z) →
      (∀ v, occ v (concat cache') = product v) ∧ e = bool_decide (concat cache' = [])).
Proof.
  intros Hcap Hcache Hne Hall product.
  assert (∀ v, isect (@concat _ <$> probed) v = product v) as Hp.
  { intros v. unfold isect, product. by rewrite <-list_fmap_compose. }
  destruct (multiway_intersect_wrapped cap probed cache Hcap Hcache Hne Hall) as (cache' & id & e & Hrun & He & Hok & Hs & Hocc).
  exists cache', id, e. split_and!; [done..| | |].
  - intros v. rewrite Hocc, Hp. unfold wrapped. rewrite Z2Nat.id; [done|]. apply u64_range.
  - rewrite He. apply forall_proper. intros v. apply isect_zero_iff.
  - intros Hfit. destruct (multiway_intersect_Some cap probed cache) as (c & i & Hrun' & _ & _ & Hocc'); try done.
    { intros v. by rewrite Hp. }
    rewrite Hrun in Hrun'. injection Hrun' as -> ->. split; [|done]. intros v. by rewrite Hocc', Hp.
Qed.

Lemma multiway_intersection_exact_witness :
  let probed := [[[mkID 1 0; mkID 3 0]; [mkID 3 0; mkID 5 0]]; [[mkID 3 0]; [mkID 4 0; mkID 5 0]]] in
  let product v := prod_list ((λ ts, occ v (concat ts)) <$> probed) in
  ∃ cache' id e, multiway_intersect_on_sorted_tuples 2 probed [[]] = Some (cache', e) ∧
    cache_ok 2 cache' id ∧ sorted (concat cache') ∧
    (∀ v, Z.of_nat (occ v (concat cache')) = u64 (Z.of_nat (product v))) ∧
    (e = true ↔ ∀ v, ∃ ts, ts ∈ probed ∧ v ∉ concat ts) ∧
    ((∀ v, (Z.of_nat (product v) < 2 ^ 64)%Z) →
      (∀ v, occ v (concat cache') = product v) ∧ e = bool_decide (concat cache' = [])).
Proof.
  apply (multiway_intersection_exact 2 [[[mkID 1 0; mkID 3 0]; [mkID 3 0; mkID 5 0]]; [[mkID 3 0]; [mkID 4 0; mkID 5 0]]] [[]]).
  - lia.
  - done.
  - done.
  - by_eval.
Defined.

(** The routine needs the chunks of a list to be sorted across chunk boundaries: with one
    list given as the chunks [3] and [1], each sorted on its own, and the other as the chunk
    [1, 3], the common value 1 is not reported. *)
Theorem multiway_intersection_unsorted_chunks :
  multiway_intersect_on_sorted_tuples 4 [[[mkID 3 0]; [mkID 1 0]]; [[mkID 1 0; mkID 3 0]]] [[]] =
    Some ([[mkID 3 0]], false) ∧
  isect [[mkID 3 0; mkID 1 0]; [mkID 1 0; mkID 3 0]] (mkID 1 0) = 1.
Proof. split; by vm_compute. Qed.
