(* ===== verification/FactorizedTable.v ===== *)
(** The flat part of a factorized table ([DataBlock], [DataBlockCollection] and
    [FactorizedTable] of [src/src/processor/result/factorized_table.cpp]): tuples of one size in
    blocks of one capacity, appending, merging and addressing by index. *)

From S2P Require Import Prelude.

Module FT.

Section FactorizedTable.
Context {T : Type} (zero : T).

(** [buf] is the whole buffer, one entry per tuple it has room for, initialised to [zero];
    the first [numTuples] entries are in use. [freeSize] counts bytes. *)
Record DataBlock := mkBlock { buf : list T; numTuples : nat; freeSize : Z }.

(** [DataBlock(mm, size)]: a buffer with room for [cap] tuples. *)
Definition newDataBlock (cap : nat) (size : Z) : DataBlock := mkBlock (replicate cap zero) 0 size.

Definition resetNumTuplesAndFreeSize (size : Z) (b : DataBlock) : DataBlock :=
  mkBlock (buf b) 0 size.

(** The [memcpy] loop; [src] gives the buffer read at each step, from the one written. *)
Fixpoint copy_loop (src : list T → list T) (n from to : nat) (dst : list T) : option (list T) :=
  match n with
  | 0 => Some dst
  | S n =>
      x ← src dst !! from;
      if decide (to < length dst) then copy_loop src n (S from) (S to) (<[to := x]> dst) else None
  end.

(** [copyTuples]: [src] is the source buffer, or the identity when it is the target block. *)
Definition copyTuples (src : list T → list T) (from : nat) (into : DataBlock) (to n : nat)
    (numBytesPerTuple : Z) : option DataBlock :=
  b ← copy_loop src n from to (buf into);
  Some (mkBlock b (numTuples into + n) (freeSize into - Z.of_nat n * numBytesPerTuple)%Z).

Record DataBlockCollection := mkCollection {
  numBytesPerTuple : Z;
  numTuplesPerBlock : nat;
  blocks : list DataBlock
}.

Definition setBlocks (c : DataBlockCollection) (bs : list DataBlock) : DataBlockCollection :=
  mkCollection (numBytesPerTuple c) (numTuplesPerBlock c) bs.

Definition append_block (c : DataBlockCollection) (b : DataBlock) : DataBlockCollection :=
  setBlocks c (blocks c ++ [b]).

Definition needAllocation (c : DataBlockCollection) (size : Z) : bool :=
  match last (blocks c) with
  | None => true
  | Some b => bool_decide (freeSize b < size)%Z
  end.

(** [DataBlockCollection::merge]; [size] is the size of a block's buffer. *)
Definition merge_blocks (size : Z) (c other : DataBlockCollection) : option DataBlockCollection :=
  match last (blocks c) with
  | None => Some (setBlocks c (blocks other))
  | Some oldLastBlock =>
      let blocks' := removelast (blocks c) ++ blocks other in
      newLastBlock ← last blocks';
      let n := Nat.min (numTuplesPerBlock c - numTuples newLastBlock) (numTuples oldLastBlock) in
      newLastBlock' ← copyTuples (λ _, buf oldLastBlock) 0 newLastBlock (numTuples newLastBlock) n
        (numBytesPerTuple c);
      let blocks' := removelast blocks' ++ [newLastBlock'] in
      let numTuplesLeftForNewBlock := numTuples oldLastBlock - n in
      if decide (0 < numTuplesLeftForNewBlock) then
        old ← copyTuples (λ b, b) n (resetNumTuplesAndFreeSize size oldLastBlock) 0
          numTuplesLeftForNewBlock (numBytesPerTuple c);
        Some (setBlocks c (blocks' ++ [old]))
      else Some (setBlocks c blocks')
  end.

(** ** [FactorizedTable] *)

Record FactorizedTable := mkTable {
  flatTupleBlockSize : Z;
  flatTupleBlockCollection : DataBlockCollection;
  ftNumTuples : nat
}.

(** [FactorizedTable(mm, schema)] for tuples of [bytes] bytes; [None]: the exception for tuples
    larger than a block. *)
Definition createTable (TEMP_PAGE_SIZE bytes : Z) : option FactorizedTable :=
  if decide (TEMP_PAGE_SIZE < bytes)%Z then None
  else Some (mkTable TEMP_PAGE_SIZE
    (mkCollection bytes (Z.to_nat (TEMP_PAGE_SIZE / bytes)) []) 0).

(** A [BlockAppendingInfo]: the block, the first tuple and the number of tuples in it. *)
Record BlockAppendingInfo := mkInfo { infoBlock : nat; infoStart : nat; infoNum : nat }.

(** The loop of [allocateFlatTupleBlocks]. *)
Fixpoint allocate_loop (fuel : nat) (size : Z) (c : DataBlockCollection) (numTuplesToAppend : nat)
    (infos : list BlockAppendingInfo) : option (DataBlockCollection * list BlockAppendingInfo) :=
  match fuel with
  | 0 => None
  | S fuel =>
      if decide (0 < numTuplesToAppend) then
        let c := if needAllocation c (numBytesPerTuple c)
                 then append_block c (newDataBlock (numTuplesPerBlock c) size) else c in
        block ← last (blocks c);
        let n := Nat.min numTuplesToAppend (Z.to_nat (freeSize block / numBytesPerTuple c)) in
        let block' := mkBlock (buf block) (numTuples block + n)
          (freeSize block - Z.of_nat n * numBytesPerTuple c)%Z in
        allocate_loop fuel size (setBlocks c (removelast (blocks c) ++ [block']))
          (numTuplesToAppend - n)
          (infos ++ [mkInfo (length (blocks c) - 1) (numTuples block) n])
      else Some (c, infos)
  end.

Definition allocateFlatTupleBlocks (t : FactorizedTable) (n : nat) :
    option (FactorizedTable * list BlockAppendingInfo) :=
  '(c, infos) ← allocate_loop (S n) (flatTupleBlockSize t) (flatTupleBlockCollection t) n [];
  Some (mkTable (flatTupleBlockSize t) c (ftNumTuples t), infos).

(** [copyVectorToColumn] for every column: the rows [numAppended], [numAppended + 1], ... of the
    appended vectors are written to the tuples of the info. *)
Definition write_info (rows : list T) (st : DataBlockCollection * nat) (info : BlockAppendingInfo) :
    option (DataBlockCollection * nat) :=
  let '(c, numAppended) := st in
  b ← blocks c !! infoBlock info;
  b' ← copy_loop (λ _, rows) (infoNum info) numAppended (infoStart info) (buf b);
  Some (setBlocks c (<[infoBlock info := mkBlock b' (numTuples b) (freeSize b)]> (blocks c)),
        numAppended + infoNum info).

(** [append]: allocates and fills the tuples, row by row. *)
Definition append (t : FactorizedTable) (rows : list T) : option FactorizedTable :=
  '(t, infos) ← allocateFlatTupleBlocks t (length rows);
  '(c, _) ← ofold (write_info rows) (flatTupleBlockCollection t, 0) infos;
  Some (mkTable (flatTupleBlockSize t) c (ftNumTuples t + length rows)).

Definition mergeTable (t other : FactorizedTable) : option FactorizedTable :=
  if decide (ftNumTuples other = 0) then Some t
  else
    c ← merge_blocks (flatTupleBlockSize t) (flatTupleBlockCollection t)
      (flatTupleBlockCollection other);
    Some (mkTable (flatTupleBlockSize t) c (ftNumTuples t + ftNumTuples other)).

Definition getBlockIdxAndTupleIdxInBlock (t : FactorizedTable) (tupleIdx : nat) : nat * nat :=
  let n := numTuplesPerBlock (flatTupleBlockCollection t) in (tupleIdx / n, tupleIdx `mod` n).

Definition getTuple (t : FactorizedTable) (tupleIdx : nat) : option T :=
  let '(blockIdx, tupleIdxInBlock) := getBlockIdxAndTupleIdxInBlock t tupleIdx in
  b ← blocks (flatTupleBlockCollection t) !! blockIdx; buf b !! tupleIdxInBlock.

Definition clear (t : FactorizedTable) : FactorizedTable :=
  mkTable (flatTupleBlockSize t) (setBlocks (flatTupleBlockCollection t) []) 0.

(** [appendEmptyTuple]: room for one tuple, whose content is what the buffer holds. *)
Definition appendEmptyTuple (t : FactorizedTable) : option FactorizedTable :=
  let c := flatTupleBlockCollection t in
  let c := if needAllocation c (numBytesPerTuple c)
           then append_block c (newDataBlock (numTuplesPerBlock c) (flatTupleBlockSize t)) else c in
  block ← last (blocks c);
  let block' := mkBlock (buf block) (S (numTuples block)) (freeSize block - numBytesPerTuple c)%Z in
  Some (mkTable (flatTupleBlockSize t) (setBlocks c (removelast (blocks c) ++ [block']))
    (S (ftNumTuples t))).

(** ** The invariant *)

Definition used (b : DataBlock) : list T := take (numTuples b) (buf b).

(** The tuples of the table, in block order: what [forEach] visits. *)
Definition contents (t : FactorizedTable) : list T :=
  concat (used <$> blocks (flatTupleBlockCollection t)).

Record block_ok (size bytes : Z) (cap : nat) (b : DataBlock) : Prop := {
  bo_buf : length (buf b) = cap;
  bo_num : numTuples b ≤ cap;
  bo_free : (freeSize b = size - Z.of_nat (numTuples b) * bytes)%Z
}.

(** Every block but the last is full. *)
Record blocks_ok (size bytes : Z) (cap : nat) (bs : list DataBlock) : Prop := {
  bs_all : Forall (block_ok size bytes cap) bs;
  bs_full : ∀ k b, bs !! k = Some b → S k < length bs → numTuples b = cap
}.

Record table_ok (t : FactorizedTable) : Prop := {
  to_bytes : (0 < numBytesPerTuple (flatTupleBlockCollection t) ≤ flatTupleBlockSize t)%Z;
  to_cap : numTuplesPerBlock (flatTupleBlockCollection t) =
    Z.to_nat (flatTupleBlockSize t / numBytesPerTuple (flatTupleBlockCollection t));
  to_blocks : blocks_ok (flatTupleBlockSize t) (numBytesPerTuple (flatTupleBlockCollection t))
    (numTuplesPerBlock (flatTupleBlockCollection t)) (blocks (flatTupleBlockCollection t));
  to_num : ftNumTuples t = length (contents t)
}.

(** ** Copy loops *)

Lemma copy_loop_spec src n from to dst :
  from + n ≤ length src → to + n ≤ length dst →
  copy_loop (λ _, src) n from to dst =
    Some (take to dst ++ take n (drop from src) ++ drop (to + n) dst).
Proof.
  revert from to dst. induction n as [|n IH]; intros from to dst Hf Ht; cbn [copy_loop].
  { simpl. by rewrite Nat.add_0_r, take_drop. }
  destruct (lookup_lt_is_Some_2 src from) as [x Hx]; [lia|]. rewrite Hx. cbn [mbind option_bind].
  rewrite decide_True by lia. rewrite IH by (rewrite ?length_insert; lia). f_equal.
  rewrite (drop_S _ _ _ Hx). simpl.
  rewrite (take_S_r _ _ x) by (by rewrite list_lookup_insert_eq by lia).
  rewrite take_insert_ge, drop_insert_lt by lia. rewrite <-app_assoc. simpl.
  by replace (S (to + n)) with (to + S n) by lia.
Qed.

Lemma copy_loop_self n from to dst :
  to ≤ from → from + n ≤ length dst →
  copy_loop (λ b, b) n from to dst =
    Some (take to dst ++ take n (drop from dst) ++ drop (to + n) dst).
Proof.
  revert from to dst. induction n as [|n IH]; intros from to dst Hf Ht; cbn [copy_loop].
  { simpl. by rewrite Nat.add_0_r, take_drop. }
  destruct (lookup_lt_is_Some_2 dst from) as [x Hx]; [lia|]. rewrite Hx. cbn [mbind option_bind].
  rewrite decide_True by lia. rewrite IH by (rewrite ?length_insert; lia). f_equal.
  rewrite (drop_S _ _ _ Hx). simpl.
  rewrite (take_S_r _ _ x) by (by rewrite list_lookup_insert_eq by lia).
  rewrite take_insert_ge, !drop_insert_lt by lia. rewrite <-app_assoc. simpl.
  by replace (S (to + n)) with (to + S n) by lia.
Qed.

(** ** Blocks as one buffer *)

Definition flat (bs : list DataBlock) : list T := concat (buf <$> bs).
Definition total (bs : list DataBlock) : nat := sum_list_with numTuples bs.

Lemma blocks_ok_snoc size bytes cap bs b :
  blocks_ok size bytes cap (bs ++ [b]) ↔
  Forall (block_ok size bytes cap) bs ∧ Forall (λ b, numTuples b = cap) bs ∧ block_ok size bytes cap b.
Proof.
  split.
  - intros [Hall Hfull]. apply Forall_app in Hall as [Hbs Hb].
    split_and!; [done| |by inversion Hb]. apply Forall_lookup. intros k b' Hk.
    apply (Hfull k); [by apply lookup_app_l_Some|]. apply lookup_lt_Some in Hk. rewrite length_app. simpl. lia.
  - intros (Hbs & Hf & Hb). split; [apply Forall_app; auto|].
    intros k b' Hk Hlt. rewrite length_app in Hlt. simpl in Hlt.
    rewrite lookup_app_l in Hk by lia. rewrite Forall_lookup in Hf. eauto.
Qed.

Lemma last_case (bs : list DataBlock) : bs = [] ∨ ∃ bs' b, bs = bs' ++ [b].
Proof. destruct bs as [|b bs _] using rev_ind; [by left|right; eauto]. Qed.

Lemma full_used size bytes cap bs :
  Forall (block_ok size bytes cap) bs → Forall (λ b, numTuples b = cap) bs →
  concat (used <$> bs) = flat bs ∧ length (flat bs) = length bs * cap ∧ total bs = length bs * cap.
Proof.
  induction bs as [|b bs IH]; [done|]. intros [[Hl _ _] Hok]%Forall_cons [Hf Hfs]%Forall_cons.
  destruct (IH Hok Hfs) as (IH1 & IH2 & IH3). unfold flat, total in *.
  cbn [fmap list_fmap concat sum_list_with length]. rewrite IH1, length_app, IH2, IH3.
  split_and!; [|lia..]. f_equal. unfold used. by rewrite take_ge by lia.
Qed.

Lemma total_snoc bs b : total (bs ++ [b]) = total bs + numTuples b.
Proof. unfold total. rewrite sum_list_with_app. simpl. lia. Qed.

Lemma flat_app bs bs' : flat (bs ++ bs') = flat bs ++ flat bs'.
Proof. unfold flat. by rewrite fmap_app, concat_app. Qed.

Lemma flat_cons b bs : flat (b :: bs) = buf b ++ flat bs.
Proof. done. Qed.

Lemma flat_singleton b : flat [b] = buf b.
Proof. unfold flat. simpl. by rewrite app_nil_r. Qed.

Lemma used_app bs bs' : concat (used <$> bs ++ bs') = concat (used <$> bs) ++ concat (used <$> bs').
Proof. by rewrite fmap_app, concat_app. Qed.

Lemma flat_length cap bs : Forall (λ b, length (buf b) = cap) bs → length (flat bs) = length bs * cap.
Proof. intros H. unfold flat. by rewrite (length_concat_blocks cap), length_fmap by (by apply Forall_fmap). Qed.

Lemma bufs_ok size bytes cap bs :
  Forall (block_ok size bytes cap) bs → Forall (λ b, length (buf b) = cap) bs.
Proof. intros H. eapply Forall_impl; [done|]. by intros b []. Qed.

(** The tuples in use are a prefix of the buffers taken together. *)
Lemma contents_take size bytes cap bs :
  blocks_ok size bytes cap bs →
  concat (used <$> bs) = take (total bs) (flat bs) ∧ total bs ≤ length (flat bs) ∧
  length (concat (used <$> bs)) = total bs.
Proof.
  intros Hok. destruct (last_case bs) as [->|(bs' & b & ->)]; [done|].
  apply blocks_ok_snoc in Hok as (Hbs & Hf & [Hl Hn _]).
  destruct (full_used _ _ _ _ Hbs Hf) as (H1 & H2 & H3).
  rewrite used_app, H1, total_snoc, flat_app, flat_singleton. cbn [fmap list_fmap concat].
  rewrite app_nil_r, H3, <-H2, take_app_add, !length_app. unfold used.
  split_and!; [done|lia|]. rewrite length_take. lia.
Qed.

Lemma flat_lookup cap bs i :
  0 < cap → Forall (λ b, length (buf b) = cap) bs →
  (b ← bs !! (i / cap); buf b !! (i `mod` cap)) = flat bs !! i.
Proof.
  intros Hcap Hbs. unfold flat. rewrite <-(concat_lookup_div cap) by (done || by apply Forall_fmap).
  rewrite list_lookup_fmap. by destruct (bs !! (i / cap)).
Qed.

(** ** Allocation *)

(** The infos cover the tuples from [start] to [stop], in order and without gap. *)
Fixpoint segments (cap start : nat) (infos : list BlockAppendingInfo) (stop : nat) : Prop :=
  match infos with
  | [] => start = stop
  | i :: infos => infoBlock i * cap + infoStart i = start ∧ 0 < infoNum i ∧ infoStart i + infoNum i ≤ cap ∧
      segments cap (start + infoNum i) infos stop
  end.

Lemma segments_stop cap start infos stop : segments cap start infos stop → start ≤ stop.
Proof.
  revert start. induction infos as [|i infos IH]; intros start; simpl; [lia|].
  intros (_ & _ & _ & ?%IH). lia.
Qed.

Section Alloc.
Context (size bytes : Z) (cap : nat).
Context (Hbytes : (0 < bytes ≤ size)%Z) (Hcap : cap = Z.to_nat (size / bytes)).

Lemma cap_pos : 0 < cap.
Proof. subst cap. assert (1 ≤ size / bytes)%Z; [|lia]. apply Z.div_le_lower_bound; lia. Qed.

Lemma room b : block_ok size bytes cap b → Z.to_nat (freeSize b / bytes) = cap - numTuples b.
Proof.
  intros [_ Hn ->]. assert (0 ≤ size / bytes)%Z by (apply Z.div_pos; lia).
  replace (size - Z.of_nat (numTuples b) * bytes)%Z with (size + - Z.of_nat (numTuples b) * bytes)%Z by lia.
  rewrite Z.div_add by lia. lia.
Qed.

Lemma full_iff b : block_ok size bytes cap b → (freeSize b < bytes)%Z ↔ numTuples b = cap.
Proof.
  intros Hb. pose proof (room b Hb) as Hr. destruct Hb as [_ Hn Hf].
  split; intros H.
  - rewrite Z.div_small in Hr; [simpl in Hr; lia|].
    assert (0 ≤ size - Z.of_nat (numTuples b) * bytes)%Z; [|lia].
    assert (Z.of_nat (numTuples b) ≤ size / bytes)%Z as Hle by (subst cap; lia).
    pose proof (Z.mul_div_le size bytes). nia.
  - assert (Z.of_nat cap = size / bytes)%Z as Hc.
    { subst cap. assert (0 ≤ size / bytes)%Z by (apply Z.div_pos; lia). lia. }
    rewrite Hf, H, Hc. pose proof (Z.mod_pos_bound size bytes ltac:(lia)).
    rewrite Z.mod_eq in * by lia. nia.
Qed.

Lemma new_block_ok : block_ok size bytes cap (newDataBlock cap size).
Proof. split; simpl; [apply length_replicate|lia|lia]. Qed.

(** After the check for a new block, the last block has room. *)
Lemma ensure_room c :
  numBytesPerTuple c = bytes → numTuplesPerBlock c = cap → blocks_ok size bytes cap (blocks c) →
  ∃ bs b, (if needAllocation c (numBytesPerTuple c)
     then append_block c (newDataBlock (numTuplesPerBlock c) size) else c) = setBlocks c (bs ++ [b]) ∧
    Forall (block_ok size bytes cap) bs ∧ Forall (λ b, numTuples b = cap) bs ∧
    block_ok size bytes cap b ∧ numTuples b < cap ∧ total (bs ++ [b]) = total (blocks c) ∧
    ∃ ext, flat (bs ++ [b]) = flat (blocks c) ++ ext.
Proof.
  intros Hb Hc Hok. pose proof cap_pos. unfold needAllocation. rewrite Hb, Hc.
  destruct c as [by_ cp bks]. cbn [blocks numBytesPerTuple numTuplesPerBlock] in *. subst by_ cp.
  destruct (last_case bks) as [->|(bs & b & ->)].
  - simpl. exists [], (newDataBlock cap size). split_and!; try done; [apply new_block_ok|].
    eexists. done.
  - rewrite last_snoc. pose proof Hok as (Hbs & Hf & Hob)%blocks_ok_snoc.
    case_bool_decide as Hfree.
    + exists (bs ++ [b]), (newDataBlock cap size). apply (full_iff b Hob) in Hfree. split_and!.
      * done.
      * apply Forall_app. auto.
      * apply Forall_app. auto.
      * apply new_block_ok.
      * simpl. lia.
      * rewrite total_snoc. simpl. lia.
      * rewrite (flat_app (bs ++ [b])). by eexists.
    + exists bs, b. split_and!; try done.
      * assert (numTuples b ≠ cap) by (intros ?%full_iff; done). destruct Hob. lia.
      * exists []. by rewrite app_nil_r.
Qed.

Lemma allocate_loop_spec fuel c n infos :
  n < fuel → numBytesPerTuple c = bytes → numTuplesPerBlock c = cap → blocks_ok size bytes cap (blocks c) →
  ∃ bs' new ext, allocate_loop fuel size c n infos = Some (setBlocks c bs', infos ++ new) ∧
    blocks_ok size bytes cap bs' ∧ total bs' = total (blocks c) + n ∧
    flat bs' = flat (blocks c) ++ ext ∧ segments cap (total (blocks c)) new (total (blocks c) + n).
Proof.
  revert c n infos. induction fuel as [|fuel IH]; intros c n infos Hf Hb Hc Hok; [lia|].
  cbn [allocate_loop]. case_decide as Hn.
  2:{ assert (n = 0) as -> by lia. exists (blocks c), [], []. rewrite !app_nil_r, !Nat.add_0_r.
      destruct c; by split_and!. }
  destruct (ensure_room c Hb Hc Hok) as (bs & b & -> & Hbs & Hfull & Hob & Hroom & Htot & ext & Hext).
  cbn [setBlocks blocks numBytesPerTuple numTuplesPerBlock].
  rewrite last_snoc, removelast_last. cbn [mbind option_bind]. rewrite Hb, (room b Hob), length_app.
  set (k := Nat.min n (cap - numTuples b)).
  destruct (full_used _ _ _ _ Hbs Hfull) as (_ & _ & Htbs). rewrite total_snoc in Htot.
  match goal with |- context [allocate_loop fuel size ?c1 ?n1 ?i1] =>
    destruct (IH c1 n1 i1) as (bs' & new & ext' & -> & H1 & H2 & H3 & H4) end; [lia|done..| |].
  { apply blocks_ok_snoc. split_and!; [done..|]. destruct Hob as [Hl _ Hfr].
    split; simpl; [done|lia|]. rewrite Hfr. lia. }
  cbn [setBlocks blocks] in *. rewrite total_snoc in H2, H4. cbn [numTuples] in H2, H4.
  rewrite flat_app, flat_singleton in H3. cbn [buf] in H3.
  rewrite flat_app, flat_singleton in Hext.
  eexists bs', (_ :: new), (ext ++ ext'). rewrite <-app_assoc. split_and!; [done|done|lia| |].
  - by rewrite H3, Hext, app_assoc.
  - simpl. split_and!; [lia..|].
    replace (total (blocks c) + k) with (total bs + (numTuples b + k)) by lia.
    by replace (total (blocks c) + n) with (total bs + (numTuples b + k) + (n - k)) by lia.
Qed.

End Alloc.

(** ** Writing the rows *)

Definition same_shape (bs bs' : list DataBlock) : Prop :=
  Forall2 (λ b b', numTuples b' = numTuples b ∧ freeSize b' = freeSize b ∧
                   length (buf b') = length (buf b)) bs bs'.

Lemma same_shape_total bs bs' : same_shape bs bs' → total bs' = total bs.
Proof.
  unfold total. induction 1 as [|b b' bs bs' (H & _) _ IH]; simpl; [done|]. lia.
Qed.

Lemma same_shape_ok size bytes cap bs bs' :
  same_shape bs bs' → blocks_ok size bytes cap bs → blocks_ok size bytes cap bs'.
Proof.
  intros Hs [Hall Hfull]. split.
  - eapply Forall2_Forall_r; [done|]. eapply Forall_impl; [done|].
    intros b [H1 H2 H3] b' (H4 & H5 & H6). split; congruence.
  - intros k b' Hk Hlt. destruct (Forall2_lookup_r _ _ _ _ _ Hs Hk) as (b & Hb & (-> & _)).
    apply (Hfull k b Hb). by rewrite (Forall2_length _ _ _ Hs).
Qed.

Lemma same_shape_trans bs1 bs2 bs3 : same_shape bs1 bs2 → same_shape bs2 bs3 → same_shape bs1 bs3.
Proof.
  unfold same_shape. intros H12. revert bs3. induction H12 as [|b1 b2 bs1 bs2 (? & ? & ?) _ IH];
    intros bs3 H23; inversion H23 as [|? b3 ? bs (? & ? & ?)]; subst; constructor; auto.
  split_and!; congruence.
Qed.

Lemma flat_insert cap bs k b :
  Forall (λ b, length (buf b) = cap) bs → bs !! k = Some b →
  ∃ l1 l2, flat bs = l1 ++ buf b ++ l2 ∧ length l1 = k * cap ∧
    ∀ b' n f, flat (<[k := mkBlock b' n f]> bs) = l1 ++ b' ++ l2.
Proof.
  intros Hbs Hk. pose proof (lookup_lt_Some _ _ _ Hk).
  exists (flat (take k bs)), (flat (drop (S k) bs)). split_and!.
  - by rewrite <-flat_cons, <-flat_app, take_drop_middle.
  - rewrite (flat_length cap) by (by apply Forall_take). by rewrite length_take_le by lia.
  - intros b' n f. by rewrite insert_take_drop, flat_app, flat_cons by done.
Qed.

Lemma write_info_spec cap c rows a i :
  Forall (λ b, length (buf b) = cap) (blocks c) → infoBlock i < length (blocks c) →
  infoStart i + infoNum i ≤ cap → a + infoNum i ≤ length rows →
  ∃ bs', write_info rows (c, a) i = Some (setBlocks c bs', a + infoNum i) ∧
    same_shape (blocks c) bs' ∧
    flat bs' = let p := infoBlock i * cap + infoStart i in
      take p (flat (blocks c)) ++ take (infoNum i) (drop a rows) ++ drop (p + infoNum i) (flat (blocks c)).
Proof.
  intros Hbs Hk Hi Ha. unfold write_info. destruct (lookup_lt_is_Some_2 _ _ Hk) as [b Hb].
  rewrite Hb. cbn [mbind option_bind]. pose proof Hbs as Hbs'. rewrite Forall_lookup in Hbs'.
  specialize (Hbs' _ _ Hb) as Hl. rewrite copy_loop_spec by lia. cbn [mbind option_bind].
  eexists. split; [done|]. set (new := take (infoStart i) (buf b) ++ _).
  assert (length new = cap) as Hnew.
  { subst new. rewrite !length_app, !length_take, length_drop, length_drop. lia. }
  split.
  - apply Forall2_same_length_lookup. split; [by rewrite length_insert|].
    intros j x y Hx Hy. destruct (decide (j = infoBlock i)) as [->|].
    + rewrite list_lookup_insert_eq in Hy by done. simplify_eq/=. split_and!; congruence.
    + rewrite list_lookup_insert_ne in Hy by done. simplify_eq. done.
  - destruct (flat_insert cap _ _ _ Hbs Hb) as (l1 & l2 & -> & Hl1 & ->). cbn zeta.
    subst new. rewrite <-Hl1, <-Nat.add_assoc, take_app_add, drop_app_add, take_app_le, drop_app_le by lia.
    by rewrite <-!app_assoc.
Qed.

Lemma write_infos_spec cap c rows infos a start :
  Forall (λ b, length (buf b) = cap) (blocks c) → 0 < cap →
  segments cap start infos (start + (length rows - a)) → a ≤ length rows →
  start + (length rows - a) ≤ length (blocks c) * cap →
  ∃ bs', ofold (write_info rows) (c, a) infos = Some (setBlocks c bs', length rows) ∧
    same_shape (blocks c) bs' ∧
    flat bs' = take start (flat (blocks c)) ++ drop a rows ++
      drop (start + (length rows - a)) (flat (blocks c)).
Proof.
  revert c a start. induction infos as [|i infos IH]; intros c a start Hbs Hcap Hseg Ha Hlen; simpl in Hseg.
  { assert (length rows = a) as <- by lia. exists (blocks c). destruct c. simpl. split_and!; [done| |].
    - apply Forall_Forall2_diag, Forall_forall. done.
    - by rewrite drop_all, Nat.sub_diag, Nat.add_0_r, app_nil_l, take_drop. }
  destruct Hseg as (Hst & Hpos & Hi & Hseg). pose proof (segments_stop _ _ _ _ Hseg) as Hstop.
  destruct (write_info_spec cap c rows a i) as (bs1 & Hw & Hsh1 & Hf1); [done|nia|done|lia|].
  cbn [ofold]. rewrite Hw. cbn [mbind option_bind]. cbn zeta in Hf1. rewrite Hst in Hf1.
  assert (length (flat (blocks c)) = length (blocks c) * cap) as Hfl by (by apply flat_length).
  destruct (IH (setBlocks c bs1) (a + infoNum i) (start + infoNum i)) as (bs' & -> & Hsh & Hf).
  { simpl. eapply Forall2_Forall_r; [exact Hsh1|]. eapply Forall_impl; [done|].
    intros b Hb b' (_ & _ & ->). done. }
  { done. }
  { by replace (start + infoNum i + (length rows - (a + infoNum i))) with (start + (length rows - a)) by lia. }
  { lia. }
  { simpl. rewrite <-(Forall2_length _ _ _ Hsh1). lia. }
  exists bs'. cbn [setBlocks blocks] in *. split_and!; [done|by eapply same_shape_trans|].
  rewrite Hf, Hf1.
  replace (start + infoNum i + (length rows - (a + infoNum i))) with (start + (length rows - a)) by lia.
  rewrite (take_app_add' _ _ start), (take_app_length' _ _ (infoNum i)), <-app_assoc;
    [|rewrite length_take, length_drop; lia|rewrite length_take; lia].
  f_equal. rewrite (app_assoc (take _ _)), <-drop_drop, take_drop. f_equal.
  replace (start + (length rows - a)) with (start + (infoNum i + (length rows - (a + infoNum i)))) at 1 by lia.
  rewrite drop_app_add' by (rewrite length_take; lia).
  rewrite drop_app_add' by (rewrite length_take, length_drop; lia).
  rewrite drop_drop. f_equal. lia.
Qed.

(** ** The operations *)

Lemma createTable_ok size bytes :
  (0 < bytes ≤ size)%Z → ∃ t, createTable size bytes = Some t ∧ table_ok t ∧ contents t = [] ∧ ftNumTuples t = 0.
Proof.
  intros Hb. unfold createTable. rewrite decide_False by lia. eexists. split; [done|]. split_and!; [split|done|done]; simpl; done.
Qed.

Lemma append_Some t rows :
  table_ok t → ∃ t', append t rows = Some t' ∧ table_ok t' ∧ contents t' = contents t ++ rows.
Proof.
  intros [Hbytes Hcap Hok Hnum]. pose proof (cap_pos _ _ _ Hbytes Hcap) as Hpos.
  unfold append, allocateFlatTupleBlocks.
  destruct (allocate_loop_spec _ _ _ Hbytes Hcap (S (length rows)) (flatTupleBlockCollection t) (length rows) [])
    as (bs1 & infos & ext & -> & Hok1 & Htot1 & Hflat1 & Hseg); [lia|done..|].
  cbn [mbind option_bind flatTupleBlockCollection flatTupleBlockSize ftNumTuples app].
  set (c1 := setBlocks (flatTupleBlockCollection t) bs1).
  destruct (contents_take _ _ _ _ Hok1) as (Hc1 & Hle1 & _).
  pose proof (bufs_ok _ _ _ _ (bs_all _ _ _ _ Hok1)) as Hbufs1.
  destruct (write_infos_spec (numTuplesPerBlock (flatTupleBlockCollection t)) c1 rows infos 0
    (total (blocks (flatTupleBlockCollection t)))) as (bs2 & -> & Hsh & Hflat2); simpl; try done; try lia.
  { by rewrite Nat.sub_0_r. }
  { rewrite <-(flat_length _ _ Hbufs1). lia. }
  cbn [mbind option_bind]. pose proof (same_shape_ok _ _ _ _ _ Hsh Hok1) as Hok2.
  assert (contents (mkTable (flatTupleBlockSize t) (setBlocks c1 bs2) (ftNumTuples t + length rows)) =
    contents t ++ rows) as Hcont.
  { unfold contents. cbn [flatTupleBlockCollection setBlocks blocks c1].
    destruct (contents_take _ _ _ _ Hok2) as (-> & _ & _).
    destruct (contents_take _ _ _ _ Hok) as (-> & Hle & _).
    rewrite (same_shape_total _ _ Hsh). cbn [c1 setBlocks blocks]. rewrite Htot1, Hflat2. cbn [c1 setBlocks blocks].
    rewrite drop_0, take_app_add' by (rewrite length_take; lia).
    by rewrite take_app_length, Hflat1, take_app_le by lia. }
  eexists. split_and!; [done| |done]. split; simpl; try done. rewrite Hcont, length_app. lia.
Qed.

Lemma getTuple_lookup t i : table_ok t → i < ftNumTuples t → getTuple t i = contents t !! i.
Proof.
  intros [Hbytes Hcap Hok Hnum] Hi. unfold getTuple, getBlockIdxAndTupleIdxInBlock.
  rewrite flat_lookup; [|by eapply cap_pos|by eapply bufs_ok, bs_all].
  destruct (contents_take _ _ _ _ Hok) as (Hc & Hle & Hlen). unfold contents in *.
  rewrite Hc, lookup_take_lt; [done|]. lia.
Qed.

Lemma copy_used size bytes cap src b n :
  block_ok size bytes cap b → numTuples b + n ≤ cap → n ≤ length src →
  ∃ b', copyTuples (λ _, src) 0 b (numTuples b) n bytes = Some b' ∧ block_ok size bytes cap b' ∧
    numTuples b' = numTuples b + n ∧ used b' = used b ++ take n src.
Proof.
  intros [Hl Hn Hf] Hroom Hsrc. unfold copyTuples. rewrite copy_loop_spec by lia.
  cbn [mbind option_bind]. eexists; split_and!; [done| |done|].
  - split; simpl; [|lia|lia]. rewrite !length_app, !length_take, !length_drop. lia.
  - unfold used. cbn [numTuples buf]. rewrite drop_0.
    rewrite take_app_add' by (rewrite length_take; lia).
    by rewrite take_app_length' by (rewrite length_take; lia).
Qed.

Lemma shift_used size bytes cap b n :
  block_ok size bytes cap b → n ≤ numTuples b →
  ∃ b', copyTuples (λ b, b) n (resetNumTuplesAndFreeSize size b) 0 (numTuples b - n) bytes = Some b' ∧
    block_ok size bytes cap b' ∧ used b' = drop n (used b).
Proof.
  intros [Hl Hn Hf] Hle. unfold copyTuples, resetNumTuplesAndFreeSize. cbn [buf numTuples freeSize].
  rewrite copy_loop_self by lia. cbn [mbind option_bind]. eexists; split_and!; [done| |].
  - split; simpl; [|lia|lia]. rewrite !length_app, !length_take, !length_drop. simpl. lia.
  - unfold used. cbn [numTuples buf]. rewrite take_0, app_nil_l.
    rewrite take_app_length' by (rewrite length_take, length_drop; lia). by rewrite skipn_firstn_comm.
Qed.

Lemma merge_blocks_spec size c other :
  (0 < numBytesPerTuple c)%Z →
  blocks_ok size (numBytesPerTuple c) (numTuplesPerBlock c) (blocks c) →
  blocks_ok size (numBytesPerTuple c) (numTuplesPerBlock c) (blocks other) → blocks other ≠ [] →
  ∃ bs, merge_blocks size c other = Some (setBlocks c bs) ∧
    blocks_ok size (numBytesPerTuple c) (numTuplesPerBlock c) bs ∧
    concat (used <$> bs) = concat (used <$> removelast (blocks c)) ++ concat (used <$> blocks other) ++
      default [] (used <$> last (blocks c)).
Proof.
  intros Hbytes Hok Hoko Hne. unfold merge_blocks.
  destruct (last_case (blocks c)) as [Hc|(bs & old & Hc)]; rewrite Hc in *.
  { simpl. exists (blocks other). split_and!; [done|done|]. by rewrite app_nil_r. }
  destruct (last_case (blocks other)) as [Ho|(bo & new & Ho)]; [congruence|]. rewrite Ho in *.
  rewrite last_snoc, removelast_last, (app_assoc bs), last_snoc, removelast_last. cbn [mbind option_bind].
  apply blocks_ok_snoc in Hok as (Hbs & Hfull & Hold), Hoko as (Hbo & Hfullo & Hnew).
  set (cap := numTuplesPerBlock c) in *. set (n := Nat.min (cap - numTuples new) (numTuples old)).
  pose proof Hold as [Hlo Hno _]. pose proof Hnew as [_ Hnn _].
  destruct (copy_used _ _ _ (buf old) new n Hnew) as (new' & -> & Hnew' & Hnum' & Hu'); [lia..|].
  cbn [mbind option_bind].
  assert (take n (used old) = take n (buf old)) as Htake by (unfold used; rewrite take_take; f_equal; lia).
  assert (Forall (block_ok size (numBytesPerTuple c) cap) (bs ++ bo)) as Hall by (apply Forall_app; auto).
  assert (Forall (λ b, numTuples b = cap) (bs ++ bo)) as Hallf by (apply Forall_app; auto).
  case_decide as Hleft.
  - destruct (shift_used _ _ _ old n Hold) as (old' & -> & Hold' & Huo'); [lia|]. cbn [mbind option_bind].
    eexists; split_and!; [done| |].
    + apply blocks_ok_snoc. split_and!; [apply Forall_app; auto| |done]. apply Forall_app; split; [done|].
      apply Forall_singleton. lia.
    + rewrite !used_app. simpl. rewrite !app_nil_r, Hu', Huo', <-Htake, <-!app_assoc.
      by rewrite take_drop.
  - eexists; split_and!; [done| |].
    + apply blocks_ok_snoc. auto.
    + rewrite !used_app. simpl. rewrite !app_nil_r, Hu', <-Htake, <-!app_assoc.
      rewrite (take_ge (used old)); [done|]. unfold used. rewrite length_take. lia.
Qed.

Lemma mergeTable_Some t other :
  table_ok t → table_ok other →
  flatTupleBlockSize other = flatTupleBlockSize t →
  numBytesPerTuple (flatTupleBlockCollection other) = numBytesPerTuple (flatTupleBlockCollection t) →
  ∃ t', mergeTable t other = Some t' ∧ table_ok t' ∧ contents t' ≡ₚ contents t ++ contents other.
Proof.
  intros [Hbytes Hcap Hok Hnum] [Hbo Hco Hoko Hno] Hsize Hby. unfold mergeTable.
  case_decide as Hz.
  { exists t. split_and!; [done|by split|]. rewrite Hz in Hno. symmetry in Hno.
    apply length_zero_iff_nil in Hno as ->. by rewrite app_nil_r. }
  rewrite Hsize, Hby in Hoko. rewrite Hco, Hsize, Hby, <-Hcap in Hoko.
  destruct (merge_blocks_spec (flatTupleBlockSize t) (flatTupleBlockCollection t) (flatTupleBlockCollection other))
    as (bs & -> & Hok' & Hcont); [lia|done..| |].
  { intros Hnil. apply Hz. rewrite Hno. unfold contents. by rewrite Hnil. }
  cbn [mbind option_bind].
  assert (contents (mkTable (flatTupleBlockSize t) (setBlocks (flatTupleBlockCollection t) bs)
    (ftNumTuples t + ftNumTuples other)) ≡ₚ contents t ++ contents other) as Hperm.
  { unfold contents at 1. cbn [flatTupleBlockCollection setBlocks blocks]. rewrite Hcont.
    unfold contents. destruct (last_case (blocks (flatTupleBlockCollection t))) as [->|(bs0 & b & ->)].
    - simpl. by rewrite app_nil_r.
    - rewrite last_snoc, removelast_last, used_app. simpl. rewrite app_nil_r, <-app_assoc. f_equiv.
      apply Permutation_app_comm. }
  eexists; split_and!; [done| |done]. split; simpl; try done.
  rewrite Hperm, length_app. lia.
Qed.

(** Appending tuples keeps the table well formed and is inverse to reading: [append] returns,
    the tuples already in the table keep their indices and [getTuple] at the indices after them
    reads back exactly the appended tuples, across block boundaries. *)
Theorem append_getTuple_roundtrip t rows :
  table_ok t →
  ∃ t', append t rows = Some t' ∧ table_ok t' ∧ ftNumTuples t' = ftNumTuples t + length rows ∧
    (∀ i, i < ftNumTuples t → getTuple t' i = getTuple t i) ∧
    (∀ i x, rows !! i = Some x → getTuple t' (ftNumTuples t + i) = Some x).
Proof.
  intros Hok. destruct (append_Some t rows Hok) as (t' & Ha & Hok' & Hc).
  pose proof (to_num _ Hok) as Hn. pose proof (to_num _ Hok') as Hn'. rewrite Hc, length_app, <-Hn in Hn'.
  exists t'. split_and!; [done..| |].
  - intros i Hi. rewrite !getTuple_lookup by (done || lia). rewrite Hc. apply lookup_app_l. lia.
  - intros i x Hx. pose proof (lookup_lt_Some _ _ _ Hx). rewrite getTuple_lookup by (done || lia).
    rewrite Hc, lookup_app_r by lia. by replace (ftNumTuples t + i - length (contents t)) with i by lia.
Qed.

(** Merging two tables with the same tuple and block size returns a well-formed table that
    holds the tuples of both, each as often as before, whether or not the other table's last
    block fits into the free space of the first one's. *)
Theorem merge_keeps_tuples t other :
  table_ok t → table_ok other →
  flatTupleBlockSize other = flatTupleBlockSize t →
  numBytesPerTuple (flatTupleBlockCollection other) = numBytesPerTuple (flatTupleBlockCollection t) →
  ∃ t', mergeTable t other = Some t' ∧ table_ok t' ∧ contents t' ≡ₚ contents t ++ contents other ∧
    ftNumTuples t' = ftNumTuples t + ftNumTuples other.
Proof.
  intros Hok Hoko Hs Hb. destruct (mergeTable_Some t other Hok Hoko Hs Hb) as (t' & Hm & Hok' & Hp).
  exists t'. split_and!; [done..|]. rewrite !to_num by done. by rewrite Hp, length_app.
Qed.

End FactorizedTable.

(** Three tuples in a block of four, and two tables to append and merge with. *)
Definition sample : FactorizedTable := mkTable 16 (mkCollection 4 4 [mkBlock [1; 2; 3; 0]%Z 3 4]) 3.
Definition sample2 : FactorizedTable :=
  mkTable 16 (mkCollection 4 4 [mkBlock [4; 5; 6; 7]%Z 4 0; mkBlock [8; 9; 0; 0]%Z 2 8]) 6.

Lemma sample_ok : table_ok sample.
Proof.
  split; simpl; [lia|done| |done]. split; [repeat constructor|]. intros [|k] b; simpl; [lia|done].
Qed.

Lemma sample2_ok : table_ok sample2.
Proof.
  split; simpl; [lia|done| |done]. split; [repeat constructor; simpl; lia|].
  intros [|[|k]] b Hb Hk; simpl in *; [by simplify_eq|lia|done].
Qed.

End FT.
