(* ===== verification/JoinHashTable.v ===== *)
(** The chained hash table of the hash join and of the multiway join ([JoinHashTable] of
    [src/src/processor/operator/hash_join/join_hash_table.cpp] on top of
    [src/src/processor/result/base_hash_table.cpp]): tuples in a factorized table, one slot per
    hash residue, and the chain of the tuples of a slot, newest first. *)

From S2P Require Import Prelude FactorizedTable.

(** [nextPowerOfTwo] of [src/src/common/utils.cpp], on 64-bit words. *)
Definition nextPowerOfTwo (v : Z) : Z :=
  let v := u64 (v - 1) in
  let v := Z.lor v (Z.shiftr v 1) in
  let v := Z.lor v (Z.shiftr v 2) in
  let v := Z.lor v (Z.shiftr v 4) in
  let v := Z.lor v (Z.shiftr v 8) in
  let v := Z.lor v (Z.shiftr v 16) in
  let v := Z.lor v (Z.shiftr v 32) in
  u64 (v + 1).

Definition prevPowerOfTwo (v : Z) : Z := nextPowerOfTwo (v / 2 + 1).

(** [all1sMaskForLeastSignificantBits<uint64_t>]. *)
Definition all1sMask (numBits : Z) : Z :=
  if decide (numBits = 64)%Z then 2 ^ 64 - 1 else u64 (Z.shiftl 1 numBits - 1).

(** [murmurhash64] and the hash of an internal identifier, from
    [src/src/include/function/hash/hash_functions.h]. *)
Definition murmurhash64 (x : Z) : Z :=
  let x := Z.lxor x (Z.shiftr x 32) in
  let x := u64 (x * 0xd6e8feb86659fd93) in
  let x := Z.lxor x (Z.shiftr x 32) in
  let x := u64 (x * 0xd6e8feb86659fd93) in
  Z.lxor x (Z.shiftr x 32).

Definition combineHashScalar (a b : Z) : Z := Z.lxor (u64 (a * 0xbf58476d1ce4e5b9)) b.

#[local] Opaque nextPowerOfTwo.

Section JoinHashTable.
Context {K P : Type} `{EqDecision K} (zero : K * P * Z) (hash : K → Z).

(** A tuple is its key, its payload and the hash of its key; a pointer to a tuple is its
    position in the factorized table, the null pointer is [None]. [prevPtrs] is the last column
    of the tuples, [hashSlotsBlocks] the blocks of slots. *)
Record JoinHashTable := mkJoinHashTable {
  factorizedTable : FT.FactorizedTable (T := K * P * Z);
  prevPtrs : list (option nat);
  maxNumHashSlots : Z;
  numSlotsPerBlockLog2 : Z;
  hashSlotsBlocks : list (list (option nat))
}.

(** The constructor; a slot is a pointer of 8 bytes and [HASH_BLOCK_SIZE] is the page size. *)
Definition createJoinHashTable (TEMP_PAGE_SIZE bytes : Z) : option JoinHashTable :=
  ft ← FT.createTable TEMP_PAGE_SIZE bytes;
  Some (mkJoinHashTable ft [] 0 (Z.log2 (TEMP_PAGE_SIZE / 8)) []).

Definition slotIdxInBlockMask (t : JoinHashTable) : Z := all1sMask (numSlotsPerBlockLog2 t).

Definition getNumEntries (t : JoinHashTable) : nat := FT.ftNumTuples (factorizedTable t).

Definition getSlotIdxForHash (t : JoinHashTable) (h : Z) : Z := h `mod` maxNumHashSlots t.

(** [appendVectors]: one tuple per selected key, with its hash. *)
Definition appendVectors (t : JoinHashTable) (rows : list (K * P)) : option JoinHashTable :=
  ft ← FT.append zero (factorizedTable t) ((λ '(k, p), (k, p, hash k)) <$> rows);
  Some (mkJoinHashTable ft (prevPtrs t ++ replicate (length rows) None) (maxNumHashSlots t)
    (numSlotsPerBlockLog2 t) (hashSlotsBlocks t)).

Definition mergeHashTable (t other : JoinHashTable) : option JoinHashTable :=
  ft ← FT.mergeTable (factorizedTable t) (factorizedTable other);
  Some (mkJoinHashTable ft (prevPtrs t ++ prevPtrs other) (maxNumHashSlots t)
    (numSlotsPerBlockLog2 t) (hashSlotsBlocks t)).

(** [allocateHashSlots]: blocks of zero-initialised slots until there are enough. *)
Fixpoint add_slot_blocks (fuel : nat) (perBlock needed : nat) (bs : list (list (option nat))) :
    list (list (option nat)) :=
  match fuel with
  | 0 => bs
  | S fuel =>
      if decide (length bs < needed)
      then add_slot_blocks fuel perBlock needed (bs ++ [replicate perBlock None]) else bs
  end.

Definition allocateHashSlots (t : JoinHashTable) (numTuples : Z) : JoinHashTable :=
  let slots := nextPowerOfTwo (u64 (numTuples * 2)) in
  let numSlotsPerBlock := Z.shiftl 1 (numSlotsPerBlockLog2 t) in
  let numBlocksNeeded := Z.to_nat ((slots + numSlotsPerBlock - 1) / numSlotsPerBlock) in
  mkJoinHashTable (factorizedTable t) (prevPtrs t) slots (numSlotsPerBlockLog2 t)
    (add_slot_blocks numBlocksNeeded (Z.to_nat numSlotsPerBlock) numBlocksNeeded (hashSlotsBlocks t)).

(** The address of a slot: its block and its place in the block. *)
Definition slot_addr (t : JoinHashTable) (slotIdx : Z) : nat * nat :=
  (Z.to_nat (Z.shiftr slotIdx (numSlotsPerBlockLog2 t)),
   Z.to_nat (Z.land slotIdx (slotIdxInBlockMask t))).

Definition read_slot (t : JoinHashTable) (slotIdx : Z) : option (option nat) :=
  let '(b, i) := slot_addr t slotIdx in blk ← hashSlotsBlocks t !! b; blk !! i.

Definition write_slot (t : JoinHashTable) (slotIdx : Z) (p : option nat) : JoinHashTable :=
  let '(b, i) := slot_addr t slotIdx in
  mkJoinHashTable (factorizedTable t) (prevPtrs t) (maxNumHashSlots t) (numSlotsPerBlockLog2 t)
    (alter (λ blk, <[i := p]> blk) b (hashSlotsBlocks t)).

(** [insertEntry]: puts the tuple at the head of its slot and returns the previous head. *)
Definition insertEntry (t : JoinHashTable) (tuple : nat) (h : Z) : option (JoinHashTable * option nat) :=
  let slotIdx := getSlotIdxForHash t h in
  prevPtr ← read_slot t slotIdx;
  Some (write_slot t slotIdx (Some tuple), prevPtr).

Definition setPrev (t : JoinHashTable) (tuple : nat) (p : option nat) : JoinHashTable :=
  mkJoinHashTable (factorizedTable t) (<[tuple := p]> (prevPtrs t)) (maxNumHashSlots t)
    (numSlotsPerBlockLog2 t) (hashSlotsBlocks t).

Definition build_step (t : JoinHashTable) (it : nat * (K * P * Z)) : option JoinHashTable :=
  '(t', prev) ← insertEntry t it.1 it.2.2;
  Some (setPrev t' it.1 prev).

Definition buildHashSlots (t : JoinHashTable) : option JoinHashTable :=
  ofold build_step t (imap (λ i x, (i, x)) (FT.contents (factorizedTable t))).

(** [HashJoinBuild::finalizeInternal]. *)
Definition finalizeInternal (t : JoinHashTable) : option JoinHashTable :=
  buildHashSlots (allocateHashSlots t (Z.of_nat (getNumEntries t))).

Definition getTupleForHash (t : JoinHashTable) (h : Z) : option (option nat) :=
  read_slot t (getSlotIdxForHash t h).

Definition getPrevTuple (t : JoinHashTable) (tuple : nat) : option nat :=
  default None (prevPtrs t !! tuple).

Definition tupleAt (t : JoinHashTable) (tuple : nat) : option (K * P * Z) :=
  FT.contents (factorizedTable t) !! tuple.

(** The loop [while (flatTuple) { ...; flatTuple = *getPrevTuple(flatTuple); }]. *)
Fixpoint walk (fuel : nat) (t : JoinHashTable) (tuple : option nat) : option (list nat) :=
  match tuple with
  | None => Some []
  | Some i =>
      match fuel with
      | 0 => None
      | S fuel => rest ← walk fuel t (getPrevTuple t i); Some (i :: rest)
      end
  end.

(** The tuples of the chain a hash leads to, in the order of the walk. *)
Definition chain (t : JoinHashTable) (h : Z) : option (list (K * P * Z)) :=
  p ← getTupleForHash t h;
  ptrs ← walk (S (getNumEntries t)) t p;
  mapM (tupleAt t) ptrs.

(** [matchFlatKeys]: the matching tuples of a chain, at most [cap] per call; also returns where
    the next call goes on. *)
Fixpoint matchFlatKeys (cap fuel : nat) (t : JoinHashTable) (k : K) (probed : option nat)
    (matched : list nat) : option (list nat * option nat) :=
  match probed with
  | None => Some (matched, None)
  | Some i =>
      if decide (length matched = cap) then Some (matched, Some i)
      else
        match fuel with
        | 0 => None
        | S fuel =>
            x ← tupleAt t i;
            matchFlatKeys cap fuel t k (getPrevTuple t i)
              (if decide (x.1.1 = k) then matched ++ [i] else matched)
        end
  end.

(** [matchUnFlatKey] for one position: the first tuple of the chain with the key. *)
Fixpoint matchUnFlatKey (fuel : nat) (t : JoinHashTable) (k : K) (probed : option nat) :
    option (option nat) :=
  match probed with
  | None => Some None
  | Some i =>
      match fuel with
      | 0 => None
      | S fuel =>
          x ← tupleAt t i;
          if decide (x.1.1 = k) then Some (Some i) else matchUnFlatKey fuel t k (getPrevTuple t i)
      end
  end.

(** ** Slots *)

Record slots_ok (t : JoinHashTable) : Prop := {
  so_log : (0 ≤ numSlotsPerBlockLog2 t < 64)%Z;
  so_max : (0 < maxNumHashSlots t)%Z;
  so_blocks : Forall (λ b, length b = Z.to_nat (2 ^ numSlotsPerBlockLog2 t)) (hashSlotsBlocks t);
  so_room : (maxNumHashSlots t ≤ Z.of_nat (length (hashSlotsBlocks t)) * 2 ^ numSlotsPerBlockLog2 t)%Z
}.

Lemma mask_land log i : (0 ≤ log < 64)%Z → Z.land i (all1sMask log) = (i `mod` 2 ^ log)%Z.
Proof.
  intros H. unfold all1sMask. rewrite decide_False by lia. unfold u64.
  assert (0 < 2 ^ log)%Z by (apply Z.pow_pos_nonneg; lia).
  assert (2 ^ log < 2 ^ 64)%Z by (apply Z.pow_lt_mono_r; lia).
  rewrite Z.shiftl_1_l, Z.mod_small by lia. rewrite <-Z.land_ones by lia. by rewrite Z.ones_equiv.
Qed.

Lemma slot_addr_eq t i :
  slots_ok t → (0 ≤ i)%Z →
  slot_addr t i = (Z.to_nat i / Z.to_nat (2 ^ numSlotsPerBlockLog2 t),
                   Z.to_nat i `mod` Z.to_nat (2 ^ numSlotsPerBlockLog2 t)).
Proof.
  intros [Hlog _ _ _] Hi. unfold slot_addr, slotIdxInBlockMask. rewrite mask_land by done.
  rewrite Z.shiftr_div_pow2 by lia. assert (0 < 2 ^ numSlotsPerBlockLog2 t)%Z by (apply Z.pow_pos_nonneg; lia).
  by rewrite Z2Nat.inj_div, Z2Nat.inj_mod by lia.
Qed.

Lemma read_slot_some t i :
  slots_ok t → (0 ≤ i < maxNumHashSlots t)%Z → is_Some (read_slot t i).
Proof.
  intros Hok Hi. pose proof Hok as [Hlog Hmax Hbs Hroom]. unfold read_slot. rewrite slot_addr_eq by (done || lia).
  assert (0 < 2 ^ numSlotsPerBlockLog2 t)%Z by (apply Z.pow_pos_nonneg; lia).
  rewrite concat_lookup_div by (done || lia). apply lookup_lt_is_Some_2.
  rewrite (length_concat_blocks _ _ Hbs). nia.
Qed.

Lemma write_slot_ok t i p : slots_ok t → slots_ok (write_slot t i p).
Proof.
  intros [Hlog Hmax Hbs Hroom]. unfold write_slot. destruct (slot_addr t i) as [b j]. split; simpl; try done.
  - apply Forall_alter; [done|]. intros l Hl. by rewrite length_insert.
  - by rewrite length_alter.
Qed.

Lemma read_write_slot t i j p :
  slots_ok t → (0 ≤ i < maxNumHashSlots t)%Z → (0 ≤ j < maxNumHashSlots t)%Z →
  read_slot (write_slot t i p) j = if decide (i = j) then Some p else read_slot t j.
Proof.
  intros Hok Hi Hj. pose proof Hok as [Hlog Hmax Hbs Hroom].
  assert (0 < 2 ^ numSlotsPerBlockLog2 t)%Z as Hpow by (apply Z.pow_pos_nonneg; lia).
  unfold read_slot. rewrite (slot_addr_eq (write_slot t i p)) by (lia || by apply write_slot_ok).
  rewrite (slot_addr_eq t) by (done || lia). unfold write_slot. rewrite slot_addr_eq by (done || lia).
  cbn [hashSlotsBlocks numSlotsPerBlockLog2]. set (n := Z.to_nat (2 ^ numSlotsPerBlockLog2 t)) in *.
  assert (0 < n) by lia. case_decide as Hij.
  - subst j. rewrite list_lookup_alter_eq.
    destruct (read_slot_some t i Hok Hi) as [x Hx]. unfold read_slot in Hx. rewrite slot_addr_eq in Hx by (done || lia).
    fold n in Hx. destruct (hashSlotsBlocks t !! (Z.to_nat i / n)) as [blk|]; [|done]. simpl in *.
    rewrite list_lookup_insert_eq; [done|]. by apply lookup_lt_Some in Hx.
  - destruct (decide (Z.to_nat i / n = Z.to_nat j / n)) as [Hd|Hd].
    + rewrite Hd, list_lookup_alter_eq. destruct (hashSlotsBlocks t !! (Z.to_nat j / n)); [|done]. simpl.
      rewrite list_lookup_insert_ne; [done|]. intros Hm. apply Hij.
      pose proof (Nat.div_mod_eq (Z.to_nat i) n). pose proof (Nat.div_mod_eq (Z.to_nat j) n).
      assert (Z.to_nat i = Z.to_nat j) by congruence. lia.
    + by rewrite list_lookup_alter_ne.
Qed.

(** ** Chains *)

(** [l] is the list of the tuples met from [p] on. *)
Fixpoint linked (prevs : list (option nat)) (p : option nat) (l : list nat) : Prop :=
  match l with
  | [] => p = None
  | i :: l => p = Some i ∧ linked prevs (default None (prevs !! i)) l
  end.

Lemma linked_insert prevs p l i q : i ∉ l → linked prevs p l → linked (<[i := q]> prevs) p l.
Proof.
  revert p. induction l as [|j l IH]; intros p Hi; simpl; [done|]. intros [-> Hl]. split; [done|].
  apply not_elem_of_cons in Hi as [Hne Hi]. rewrite list_lookup_insert_ne by done. auto.
Qed.

Lemma walk_linked fuel t p l :
  linked (prevPtrs t) p l → length l ≤ fuel → walk fuel t p = Some l.
Proof.
  revert p fuel. induction l as [|i l IH]; intros p fuel; simpl.
  - intros -> _. by destruct fuel.
  - intros [-> Hl] Hf. destruct fuel as [|fuel]; [lia|]. simpl. unfold getPrevTuple.
    rewrite (IH _ fuel Hl) by lia. done.
Qed.

(** The tuples, of a list with positions, whose hash falls into slot [s]. *)
Definition slot_of (max : Z) (l : list (nat * (K * P * Z))) (s : Z) : list (nat * (K * P * Z)) :=
  filter (λ it, (it.2.2 `mod` max)%Z = s) l.

(** What the loop of [buildHashSlots] maintains: each slot leads to the tuples inserted so far
    that fall into it, the last one first. *)
Record build_inv (t0 : JoinHashTable) (dn : list (nat * (K * P * Z))) (t : JoinHashTable) : Prop := {
  bi_slots : slots_ok t;
  bi_max : maxNumHashSlots t = maxNumHashSlots t0;
  bi_table : factorizedTable t = factorizedTable t0;
  bi_prev : length (prevPtrs t) = length (prevPtrs t0);
  bi_chain : ∀ s, (0 ≤ s < maxNumHashSlots t0)%Z →
    ∃ p, read_slot t s = Some p ∧
      linked (prevPtrs t) p (reverse (slot_of (maxNumHashSlots t0) dn s).*1)
}.

Lemma build_step_inv t0 dn it t :
  NoDup (dn ++ [it]).*1 → it.1 < length (prevPtrs t0) → build_inv t0 dn t →
  ∃ t', build_step t it = Some t' ∧ build_inv t0 (dn ++ [it]) t'.
Proof.
  intros Hnd Hlt [Hsl Hmax Htab Hprev Hch]. pose proof (so_max _ Hsl) as Hpos.
  unfold build_step, insertEntry, getSlotIdxForHash. rewrite Hmax.
  set (s0 := (it.2.2 `mod` maxNumHashSlots t0)%Z).
  assert (0 ≤ s0 < maxNumHashSlots t0)%Z as Hs0 by (subst s0; apply Z.mod_pos_bound; lia).
  destruct (Hch s0 Hs0) as (p & Hp & Hlink). rewrite Hp. cbn [mbind option_bind].
  eexists; split; [done|].
  assert (prevPtrs (write_slot t s0 (Some it.1)) = prevPtrs t) as Hpp.
  { unfold write_slot. by destruct (slot_addr t s0). }
  assert (∀ s, it.1 ∉ reverse (slot_of (maxNumHashSlots t0) dn s).*1) as Hfresh.
  { intros s Hin. rewrite elem_of_reverse in Hin. rewrite fmap_app in Hnd. apply NoDup_app in Hnd as (_ & Hd & _).
    apply list_elem_of_fmap in Hin as (x & Hx & [_ Hdn]%list_elem_of_filter).
    apply (Hd it.1); [|by left]. rewrite Hx. by apply list_elem_of_fmap_2. }
  split.
  - destruct (write_slot_ok t s0 (Some it.1) Hsl). split; done.
  - unfold setPrev, write_slot. destruct (slot_addr t s0). simpl. done.
  - unfold setPrev, write_slot. destruct (slot_addr t s0). simpl. done.
  - unfold setPrev. cbn [prevPtrs]. rewrite length_insert, Hpp. done.
  - intros s Hs. change (read_slot (setPrev ?t _ _) s) with (read_slot t s).
    unfold slot_of. rewrite filter_app, fmap_app, reverse_app. fold (slot_of (maxNumHashSlots t0) dn s).
    unfold setPrev at 1. change (read_slot (mkJoinHashTable _ _ _ _ _) s) with (read_slot (write_slot t s0 (Some it.1)) s).
    rewrite read_write_slot by (rewrite ?Hmax; done || lia). cbn [prevPtrs setPrev]. rewrite Hpp.
    rewrite filter_cons, filter_nil. fold s0. destruct (decide (s0 = s)) as [<-|Hne].
    + exists (Some it.1). split; [done|]. simpl. split; [done|].
      rewrite list_lookup_insert_eq by lia. apply linked_insert; auto.
    + destruct (Hch s Hs) as (q & Hq & Hl). exists q. split; [done|]. simpl. apply linked_insert; auto.
Qed.

Lemma buildHashSlots_spec t :
  slots_ok t → length (prevPtrs t) = length (FT.contents (factorizedTable t)) →
  (∀ s, (0 ≤ s < maxNumHashSlots t)%Z → read_slot t s = Some None) →
  ∃ t', buildHashSlots t = Some t' ∧
    build_inv t (imap (λ i x, (i, x)) (FT.contents (factorizedTable t))) t'.
Proof.
  intros Hok Hlen Hempty. unfold buildHashSlots.
  destruct (ofold_total build_step (build_inv t)
    (imap (λ i x, (i, x)) (FT.contents (factorizedTable t))) t) as (t' & -> & Hinv); [..|by eauto].
  - split; try done. intros s Hs. exists None. rewrite Hempty by done. done.
  - intros dn it rest t1 El Hinv. apply build_step_inv; [| |done].
    + assert (NoDup (imap (λ i x, (i, x)) (FT.contents (factorizedTable t))).*1) as Hnd.
      { rewrite imap_pair_fst. apply NoDup_seq. }
      rewrite El, cons_middle, app_assoc, fmap_app in Hnd. by apply NoDup_app in Hnd as (? & _).
    + assert (it ∈ imap (λ i x, (i, x)) (FT.contents (factorizedTable t))) as Hin.
      { rewrite El. set_solver. }
      apply elem_of_lookup_imap in Hin as (i & x & -> & Hx). apply lookup_lt_Some in Hx. simpl. lia.
Qed.

(** ** Allocation of the slots *)

(** Every bit of [x] is the disjunction of [k] consecutive bits of [w]. *)
Definition smeared (k : Z) (w x : Z) : Prop :=
  ∀ j, (0 ≤ j)%Z → Z.testbit x j = true ↔ ∃ i, (0 ≤ i < k)%Z ∧ Z.testbit w (j + i) = true.

Lemma smeared_double k w x :
  (0 < k)%Z → smeared k w x → smeared (2 * k) w (Z.lor x (Z.shiftr x k)).
Proof.
  intros Hk Hx j Hj. rewrite Z.lor_spec, orb_true_iff, Z.shiftr_spec by lia.
  rewrite (Hx j), (Hx (j + k)%Z) by lia. split.
  - intros [(i & ? & Hi)|(i & ? & Hi)]; [exists i; split; [lia|done]|].
    exists (i + k)%Z. split; [lia|]. rewrite <-Hi. f_equal. lia.
  - intros (i & ? & Hi). destruct (decide (i < k)%Z); [left; exists i; split; [lia|done]|].
    right. exists (i - k)%Z. split; [lia|]. rewrite <-Hi. f_equal. lia.
Qed.

Lemma smeared_ones w x :
  (0 < w < 2 ^ 64)%Z → (0 ≤ x)%Z → smeared 64 w x → x = Z.ones (Z.log2 w + 1).
Proof.
  intros Hw Hx Hs. pose proof (Z.log2_nonneg w). assert (Z.log2 w < 64)%Z by (apply Z.log2_lt_pow2; lia).
  apply Z.bits_inj'. intros j Hj. rewrite Z.testbit_ones by lia.
  destruct (decide (j < Z.log2 w + 1)%Z) as [Hlt|Hge].
  - transitivity true; [|symmetry; rewrite andb_true_iff, Z.leb_le, Z.ltb_lt; lia].
    apply Hs; [done|]. exists (Z.log2 w - j)%Z. split; [lia|].
    replace (j + (Z.log2 w - j))%Z with (Z.log2 w) by lia. apply Z.bit_log2. lia.
  - transitivity false; [|symmetry; rewrite andb_false_iff, Z.ltb_ge; lia].
    apply not_true_is_false. intros Hb. apply Hs in Hb as (i & Hi & Hb); [|done].
    rewrite Z.bits_above_log2 in Hb by lia. done.
Qed.

#[local] Transparent nextPowerOfTwo.

Lemma nextPowerOfTwo_eq v : (1 < v ≤ 2 ^ 63)%Z → nextPowerOfTwo v = (2 ^ (Z.log2 (v - 1) + 1))%Z.
Proof.
  intros Hv. pose (w := u64 (v - 1)). pose (smear := λ k x, Z.lor x (Z.shiftr x k)).
  change (nextPowerOfTwo v) with
    (u64 (smear 32 (smear 16 (smear 8 (smear 4 (smear 2 (smear 1 w))))) + 1)%Z).
  assert (w = v - 1)%Z as Hw by (subst w; unfold u64; by rewrite Z.mod_small by lia).
  assert (smeared 1 w w ∧ (0 ≤ w)%Z) as H0.
  { split; [|lia]. intros j Hj. split; [intros H; exists 0%Z; rewrite Z.add_0_r; split; [lia|done]|].
    intros (i & ? & Hi). by assert (i = 0)%Z as -> by lia; rewrite Z.add_0_r in Hi. }
  assert (∀ k x, (0 < k)%Z → smeared k w x ∧ (0 ≤ x)%Z → smeared (2 * k) w (smear k x) ∧ (0 ≤ smear k x)%Z) as Hstep.
  { intros k x Hk [Hs Hx]. split; [by apply smeared_double|]. apply Z.lor_nonneg. by rewrite Z.shiftr_nonneg. }
  apply (Hstep 1%Z), (Hstep 2%Z), (Hstep 4%Z), (Hstep 8%Z), (Hstep 16%Z), (Hstep 32%Z) in H0; [|lia..].
  destruct H0 as [Hs Hx]. rewrite (smeared_ones w _ ltac:(lia) Hx Hs).
  rewrite <-Hw, Z.ones_equiv. pose proof (Z.log2_nonneg w).
  assert (Z.log2 w < 63)%Z by (apply Z.log2_lt_pow2; lia).
  assert (2 ^ (Z.log2 w + 1) < 2 ^ 64)%Z by (apply Z.pow_lt_mono_r; lia).
  assert (0 < 2 ^ (Z.log2 w + 1))%Z by (apply Z.pow_pos_nonneg; lia).
  unfold u64. rewrite Z.mod_small by lia. lia.
Qed.

#[local] Opaque nextPowerOfTwo.

Lemma nextPowerOfTwo_ge v : (1 < v ≤ 2 ^ 63)%Z → (v ≤ nextPowerOfTwo v)%Z.
Proof.
  intros Hv. rewrite nextPowerOfTwo_eq by done. pose proof (Z.log2_spec (v - 1) ltac:(lia)).
  unfold Z.succ in *. lia.
Qed.

Lemma add_slot_blocks_spec fuel per needed bs :
  needed ≤ fuel + length bs → length bs ≤ needed →
  add_slot_blocks fuel per needed bs = bs ++ replicate (needed - length bs) (replicate per None).
Proof.
  revert bs. induction fuel as [|fuel IH]; intros bs Hf Hle; cbn [add_slot_blocks].
  { replace (needed - length bs) with 0 by lia. by rewrite app_nil_r. }
  case_decide as Hlt.
  - rewrite IH by (rewrite length_app; simpl; lia). rewrite length_app, <-app_assoc. simpl. f_equal.
    replace (needed - length bs) with (S (needed - (length bs + 1))) by lia. done.
  - replace (needed - length bs) with 0 by lia. by rewrite app_nil_r.
Qed.

(** A table that is still being filled: no slots yet, and the hash column is right. *)
Record filling (t : JoinHashTable) : Prop := {
  fi_table : FT.table_ok (factorizedTable t);
  fi_prev : length (prevPtrs t) = getNumEntries t;
  fi_log : (0 ≤ numSlotsPerBlockLog2 t < 64)%Z;
  fi_slots : hashSlotsBlocks t = [];
  fi_hash : Forall (λ x, x.2 = hash x.1.1) (FT.contents (factorizedTable t))
}.

(** The tuples of a table, with their keys and payloads only. *)
Definition rows (t : JoinHashTable) : list (K * P) := fst <$> FT.contents (factorizedTable t).

Lemma create_filling size bytes :
  (0 < bytes ≤ size)%Z → (8 ≤ size < 2 ^ 64)%Z →
  ∃ t, createJoinHashTable size bytes = Some t ∧ filling t ∧ rows t = [] ∧ getNumEntries t = 0.
Proof.
  intros Hb Hs. unfold createJoinHashTable. destruct (FT.createTable_ok (T := K * P * Z) size bytes Hb) as (ft & -> & Hok & Hc & Hn).
  cbn [mbind option_bind]. eexists. split; [done|]. unfold rows, getNumEntries.
  cbn [factorizedTable]. rewrite Hc. split_and!; [split|done|done]; unfold getNumEntries; cbn [factorizedTable prevPtrs numSlotsPerBlockLog2 hashSlotsBlocks]; [done..|split; [apply Z.log2_nonneg|]|done|by rewrite Hc].
  assert (0 < size / 8)%Z by (apply Z.div_str_pos; lia).
  apply Z.log2_lt_pow2; [done|]. apply Z.div_lt_upper_bound; lia.
Qed.

Lemma appendVectors_Some t new :
  filling t → ∃ t', appendVectors t new = Some t' ∧ filling t' ∧ rows t' = rows t ++ new ∧
    numSlotsPerBlockLog2 t' = numSlotsPerBlockLog2 t ∧
    getNumEntries t' = getNumEntries t + length new.
Proof.
  intros [Hok Hprev Hlog Hsl Hh]. unfold appendVectors, rows, getNumEntries in *.
  destruct (FT.append_Some zero (factorizedTable t) ((λ '(k, p), (k, p, hash k)) <$> new) Hok)
    as (ft & -> & Hok' & Hc). cbn [mbind option_bind]. eexists; split; [done|].
  pose proof (FT.to_num _ Hok) as Hn. pose proof (FT.to_num _ Hok') as Hn'.
  rewrite Hc, length_app, length_fmap in Hn'.
  split_and!; cbn [factorizedTable numSlotsPerBlockLog2]; [split; simpl; try done| |done|lia].
  - unfold getNumEntries. simpl. rewrite length_app, length_replicate. lia.
  - rewrite Hc. apply Forall_app. split; [done|]. apply Forall_fmap, Forall_forall. by intros [k p] _.
  - rewrite Hc, fmap_app. f_equal. rewrite <-list_fmap_compose. rewrite <-(list_fmap_id new) at 2.
    apply list_fmap_ext. by intros ? [k p] _.
Qed.

Lemma read_empty log bs per i :
  (0 ≤ i)%Z → ∀ t, hashSlotsBlocks t = replicate bs (replicate per None) → numSlotsPerBlockLog2 t = log →
  slots_ok t → (i < maxNumHashSlots t)%Z → read_slot t i = Some None.
Proof.
  intros Hi t Hb Hlog Hok Hlt. destruct (read_slot_some t i Hok ltac:(lia)) as [x Hx].
  rewrite Hx. f_equal. unfold read_slot in Hx. destruct (slot_addr t i) as [b j].
  rewrite Hb in Hx. apply bind_Some in Hx as (blk & [-> _]%lookup_replicate & [-> _]%lookup_replicate). done.
Qed.

Lemma allocateHashSlots_ok t :
  filling t → 0 < getNumEntries t → (Z.of_nat (getNumEntries t) < 2 ^ 62)%Z →
  let t' := allocateHashSlots t (Z.of_nat (getNumEntries t)) in
  slots_ok t' ∧ factorizedTable t' = factorizedTable t ∧ prevPtrs t' = prevPtrs t ∧
  (∀ s, (0 ≤ s < maxNumHashSlots t')%Z → read_slot t' s = Some None).
Proof.
  intros [_ _ Hlog Hsl _] Hpos Hbig. set (t' := allocateHashSlots t _). cbn zeta.
  assert (0 < 2 ^ numSlotsPerBlockLog2 t)%Z as Hpow by (apply Z.pow_pos_nonneg; lia).
  assert (1 < Z.of_nat (getNumEntries t) * 2 ≤ 2 ^ 63)%Z as Hn by lia.
  pose proof (nextPowerOfTwo_ge _ Hn) as Hge.
  assert (maxNumHashSlots t' = nextPowerOfTwo (Z.of_nat (getNumEntries t) * 2)) as Hmax.
  { subst t'. unfold allocateHashSlots. cbn [maxNumHashSlots]. unfold u64. by rewrite Z.mod_small by lia. }
  assert (∃ n, hashSlotsBlocks t' = replicate n (replicate (Z.to_nat (2 ^ numSlotsPerBlockLog2 t)) None) ∧
    (maxNumHashSlots t' ≤ Z.of_nat n * 2 ^ numSlotsPerBlockLog2 t)%Z) as (n & Hbs & Hroom).
  { subst t'. unfold allocateHashSlots in *. cbn [hashSlotsBlocks maxNumHashSlots] in *.
    rewrite Hmax, Hsl, Z.shiftl_1_l, add_slot_blocks_spec by (cbn [length]; lia).
    cbn [app length]. eexists; split; [done|].
    set (m := nextPowerOfTwo _) in *. set (d := (2 ^ numSlotsPerBlockLog2 t)%Z) in *.
    rewrite Nat.sub_0_r, Z2Nat.id by (apply Z.div_pos; lia).
    pose proof (Z.div_mod (m + d - 1) d ltac:(lia)). pose proof (Z.mod_pos_bound (m + d - 1) d ltac:(lia)). lia. }
  assert (slots_ok t') as Hok.
  { split; [done|lia| |].
    - rewrite Hbs. apply Forall_replicate, length_replicate.
    - rewrite Hbs, length_replicate. done. }
  split_and!; [done..|]. intros s Hs. eapply read_empty; [lia|done|done|done|lia].
Qed.

Lemma mapM_tupleAt t l :
  (∀ i x, (i, x) ∈ l → tupleAt t i = Some x) → mapM (tupleAt t) l.*1 = Some l.*2.
Proof.
  intros H. apply mapM_Some. apply Forall2_fmap, Forall_Forall2_diag, Forall_forall.
  intros [i x] Hx. simpl. auto.
Qed.

(** After [finalizeInternal], a hash leads to the tuples of its slot, newest first. *)
Lemma finalize_chain t :
  filling t → 0 < getNumEntries t → (Z.of_nat (getNumEntries t) < 2 ^ 62)%Z →
  ∃ t', finalizeInternal t = Some t' ∧ factorizedTable t' = factorizedTable t ∧
    ∀ h, chain t' h =
      Some (reverse (filter (λ x, (x.2 `mod` maxNumHashSlots t')%Z = (h `mod` maxNumHashSlots t')%Z)
        (FT.contents (factorizedTable t)))).
Proof.
  intros Hfi Hpos Hbig. unfold finalizeInternal.
  destruct (allocateHashSlots_ok t Hfi Hpos Hbig) as (Hok & Htab & Hpp & Hempty).
  set (t1 := allocateHashSlots t _) in *. pose proof Hfi as [Hft Hprev _ _ _].
  pose proof (FT.to_num _ Hft) as Hnum. unfold getNumEntries in Hprev.
  destruct (buildHashSlots_spec t1 Hok) as (t' & -> & [Hsl Hmax Htab' Hprev' Hch]); [congruence|done|].
  exists t'. split; [done|]. split; [congruence|]. intros h. unfold chain, getTupleForHash, getSlotIdxForHash.
  rewrite Hmax. set (m := maxNumHashSlots t1). pose proof (so_max _ Hok) as Hm.
  destruct (Hch (h `mod` m)%Z) as (p & -> & Hlink); [by apply Z.mod_pos_bound|]. cbn [mbind option_bind].
  rewrite Htab in *. set (L := slot_of m (imap (λ i x, (i, x)) (FT.contents (factorizedTable t))) (h `mod` m)) in *.
  fold m in Hlink. fold L in Hlink.
  rewrite (walk_linked _ _ _ _ Hlink).
  2:{ rewrite length_reverse, length_fmap. unfold getNumEntries. rewrite Htab', Hnum.
      transitivity (length (imap (λ i x, (i, x)) (FT.contents (factorizedTable t))));
        [apply length_filter|rewrite length_imap; lia]. }
  cbn [mbind option_bind]. rewrite <-fmap_reverse, mapM_tupleAt.
  - f_equal. rewrite fmap_reverse. f_equal. subst L. unfold slot_of.
    rewrite <-(imap_pair_snd (FT.contents (factorizedTable t))) at 2. by rewrite filter_fmap.
  - intros i x Hx. rewrite elem_of_reverse in Hx. apply list_elem_of_filter in Hx as [_ Hx].
    apply elem_of_lookup_imap in Hx as (j & y & [= -> ->] & Hy). unfold tupleAt. by rewrite Htab'.
Qed.

Lemma finalize_empty t :
  filling t → getNumEntries t = 0 → ∃ t', finalizeInternal t = Some t' ∧ factorizedTable t' = factorizedTable t.
Proof.
  intros Hf Hz. pose proof (FT.to_num _ (fi_table _ Hf)) as Hn. unfold getNumEntries in Hz. rewrite Hz in Hn.
  symmetry in Hn. apply length_zero_iff_nil in Hn. unfold finalizeInternal, buildHashSlots, allocateHashSlots.
  cbn [factorizedTable]. rewrite Hn. eexists. split; [done|]. done.
Qed.

(** The tuples a probe of key [k] matches, in the order of the walk. *)
Definition with_key (k : K) (l : list (K * P * Z)) : list P :=
  (λ x : K * P * Z, x.1.2) <$> filter (λ x : K * P * Z, x.1.1 = k) l.

Definition matches (t : JoinHashTable) (k : K) : option (list P) := with_key k <$> chain t (hash k).

Lemma matches_spec t t' k :
  filling t → finalizeInternal t = Some t' → 0 < getNumEntries t → (Z.of_nat (getNumEntries t) < 2 ^ 62)%Z →
  matches t' k = Some (reverse (filter (λ x : K * P, x.1 = k) (rows t)).*2).
Proof.
  intros Hfi Hfin Hpos Hbig. destruct (finalize_chain t Hfi Hpos Hbig) as (t2 & Hfin2 & _ & Hch).
  rewrite Hfin in Hfin2. injection Hfin2 as <-. unfold matches, with_key. rewrite Hch. cbn [fmap option_fmap option_map]. f_equal.
  pose proof (fi_hash _ Hfi) as Hh. unfold rows. rewrite filter_fmap, <-list_fmap_compose, <-fmap_reverse.
  rewrite filter_reverse. do 2 f_equal. rewrite list_filter_filter.
  apply filter_ext_in. eapply Forall_impl; [done|]. intros x Hx. simpl. split; [naive_solver|].
  intros Hk. split; [done|]. by rewrite Hx, Hk.
Qed.

(** A table that is filled, finalized and probed returns, for every key, exactly the payloads
    appended with that key, each once and the newest first, although other keys may share the
    slot: the slots are allocated and linked without an access out of range and every walk ends. *)
Theorem fill_finalize_probe size bytes new k :
  (0 < bytes ≤ size)%Z → (8 ≤ size < 2 ^ 64)%Z → new ≠ [] → (Z.of_nat (length new) < 2 ^ 62)%Z →
  ∃ t0 t1 t2, createJoinHashTable size bytes = Some t0 ∧ appendVectors t0 new = Some t1 ∧
    finalizeInternal t1 = Some t2 ∧ matches t2 k = Some (reverse (filter (λ x : K * P, x.1 = k) new).*2).
Proof.
  intros Hb Hs Hne Hbig. destruct (create_filling size bytes Hb Hs) as (t0 & H0 & Hf0 & Hr0 & Hn0).
  destruct (appendVectors_Some t0 new Hf0) as (t1 & H1 & Hf1 & Hr1 & _ & Hn1). rewrite Hn0 in Hn1. rewrite Hr0 in Hr1.
  assert (0 < getNumEntries t1) as Hpos by (rewrite Hn1; destruct new; [done|simpl; lia]).
  destruct (finalize_chain t1 Hf1 Hpos ltac:(rewrite Hn1; done)) as (t2 & H2 & _).
  exists t0, t1, t2. split_and!; [done..|]. rewrite (matches_spec t1 t2 k); try done.
  - by rewrite Hr1.
  - by rewrite Hn1.
Qed.

End JoinHashTable.

(** [nextPowerOfTwo] returns, for [2 .. 2^63], the least power of two that is not below its
    argument. *)
Theorem nextPowerOfTwo_least v :
  (1 < v ≤ 2 ^ 63)%Z →
  (v ≤ nextPowerOfTwo v)%Z ∧ ∃ e, (0 ≤ e)%Z ∧ nextPowerOfTwo v = (2 ^ e)%Z ∧
    ∀ e', (0 ≤ e')%Z → (v ≤ 2 ^ e')%Z → (e ≤ e')%Z.
Proof.
  intros Hv. split; [by apply nextPowerOfTwo_ge|]. exists (Z.log2 (v - 1) + 1)%Z.
  pose proof (Z.log2_nonneg (v - 1)). split_and!; [lia|by apply nextPowerOfTwo_eq|].
  intros e' He' Hle. enough (Z.log2 (v - 1) < e')%Z by lia. apply Z.log2_lt_pow2; lia.
Qed.
