(* ===== verification/MultiwayOperator.v ===== *)
(** The multiway intersection operator ([IntersectMultiway], [IntersectMultiwayDataInfo] and
    [IntersectionLoopState] of
    [src/src/processor/operator/intersect/intersect_multiway.cpp] and its header): probing the
    hash tables of the probe nodes, intersecting per build node, and enumerating the Cartesian
    product of the cached intersections chunk by chunk. *)

From S2P Require Import Prelude InternalId MultiwayIntersect.

(** What the operator uses of a hash table: the number of its entries and the chain of tuples a
    hash leads to. A tuple is its key and, per build node, a pointer to its list. *)
Record ProbeTable := mkProbeTable {
  pt_numEntries : nat;
  pt_chain : Z → option (list (nodeID * gmap nat nat))
}.

(** The law the hash table of the build side satisfies: a key leads to the tuples appended with
    it, the last one first. *)
Class ProbeLaw (hash : nodeID → Z) (pt : ProbeTable) (rows : list (nodeID * gmap nat nat)) : Prop := {
  pl_num : pt_numEntries pt = length rows;
  pl_chain : ∀ k, pt_numEntries pt ≠ 0 →
    ∃ l, pt_chain pt (hash k) = Some l ∧
      filter (λ x, x.1 = k) l = reverse (filter (λ x, x.1 = k) rows)
}.

(** ** [IntersectMultiwayDataInfo] *)

Definition Connectivity := list (list bool).

Definition hasConnection (c : Connectivity) (i j : nat) : bool :=
  default false (c !! i ≫= λ r, r !! j).

(** The constructor's loops over the connectivity matrix. *)
Definition left2right_idx (c : Connectivity) (numRightNodes i : nat) : list nat :=
  foldl (λ acc j, if hasConnection c i j then acc ++ [j] else acc) [] (seq 0 numRightNodes).

Definition right2left_idx (c : Connectivity) (numLeftNodes j : nat) : list nat :=
  foldl (λ acc i, if hasConnection c i j then acc ++ [i] else acc) [] (seq 0 numLeftNodes).

(** ** The operator *)

(** [mem] is the overflow memory the tuples point to: it is shared with the hash tables and
    sorted in place. A cached vector and an output vector are the values in their buffers.
    [outSelSizes] holds per build node the selection size of the [DataChunkState] of its output
    vector, which [initLocalStateInternal] gives to the first cached vector of the node as well:
    the two vectors have one size between them. The size of a later cached vector, which has a state
    of its own, is the number of its values. *)
Record IntersectMultiway := mkOp {
  mem : gmap nat (list nodeID);
  probedIds : list (list (list nat));
  cachedIntersectionResults : list (list (list nodeID));
  outSelSizes : list nat;
  outKeyVectors : list (list nodeID);
  tuple_cursors : list nat;
  loop_finished : bool
}.

Section Operator.
Context (hash : nodeID → Z).
Context (std_sort : list nodeID → list nodeID) (sort_order : list Z → list nat).
Context (cap : nat) (enable_dynamic_order : bool).
Context (conn : Connectivity) (numLeftNodes numRightNodes : nat).
Context (sharedHTs : list ProbeTable).

Definition numElements (m : gmap nat (list nodeID)) (p : nat) : nat := length (default [] (m !! p)).

(** [initLocalStateInternal]: one cached vector per build node, on the state of the output vector,
    whose size is set to 0. *)
Definition initLocalStateInternal (m : gmap nat (list nodeID)) : IntersectMultiway :=
  mkOp m (replicate numLeftNodes (replicate numRightNodes []))
    (replicate numRightNodes [[]]) (replicate numRightNodes 0) (replicate numRightNodes [])
    (replicate numRightNodes 0) true.

(** *** [probeHTs] *)

(** One tuple of the chain: its lists for the build nodes of probe node [i]. *)
Definition collect_tuple (m : gmap nat (list nodeID)) (js : list nat) (tuple : gmap nat nat)
    (row : list (list nat)) : option (list (list nat)) :=
  ofold (λ row j,
    p ← tuple !! j;
    Some (if decide (numElements m p = 0) then row else alter (λ l, l ++ [p]) j row)) row js.

(** The [while (flatTuple)] loop. *)
Definition collect_chain (m : gmap nat (list nodeID)) (js : list nat) (key : nodeID)
    (chain : list (nodeID * gmap nat nat)) (row : list (list nat)) :
    option (list (list nat) * bool) :=
  ofold (λ '(row, has_match) '(k, tuple),
    if internalID.eqb k key then row ← collect_tuple m js tuple row; Some (row, true)
    else Some (row, has_match)) (row, false) chain.

(** The swap loop [for (k = 0; k < n / 2; k++) std::swap(v[k], v[n - 1 - k])]. *)
Definition swap {A} (l : list A) (a b : nat) : list A :=
  match l !! a, l !! b with
  | Some x, Some y => <[b := x]> (<[a := y]> l)
  | _, _ => l
  end.

Definition swap_reverse {A} (l : list A) : list A :=
  foldl (λ acc k, swap acc k (length l - 1 - k)) l (seq 0 (length l / 2)).

(** The loop that reverses the collected lists, left when one of them is empty. *)
Fixpoint reverse_rows (js : list nat) (row : list (list nat)) : option (list (list nat) * bool) :=
  match js with
  | [] => Some (row, true)
  | j :: js =>
      l ← row !! j;
      if decide (length l = 0) then Some (row, false) else reverse_rows js (<[j := swap_reverse l]> row)
  end.

(** The body of the loop over the probe nodes; [None] for an access out of range. *)
Definition probe_one (m : gmap nat (list nodeID)) (i : nat) (key : nodeID) :
    option (list (list nat) * bool) :=
  let row := replicate numRightNodes [] in
  ht ← sharedHTs !! i;
  if decide (pt_numEntries ht = 0) then Some (row, false)
  else
    chain ← pt_chain ht (hash key);
    let js := left2right_idx conn numRightNodes i in
    '(row, has_match) ← collect_chain m js key chain row;
    '(row, ok) ← reverse_rows js row;
    Some (row, (ok : bool) && (has_match : bool)).

Fixpoint probe_from (m : gmap nat (list nodeID)) (i : nat) (keys : list nodeID)
    (probed : list (list (list nat))) : option (list (list (list nat)) * bool) :=
  match keys with
  | [] => Some (probed, true)
  | key :: keys =>
      '(row, ok) ← probe_one m i key;
      let probed := <[i := row]> probed in
      if ok : bool then probe_from m (S i) keys probed else Some (probed, false)
  end.

Definition probeHTs (st : IntersectMultiway) (keys : list nodeID) : option (IntersectMultiway * bool) :=
  '(probed, ok) ← probe_from (mem st) 0 keys (probedIds st);
  Some (mkOp (mem st) probed (cachedIntersectionResults st) (outSelSizes st) (outKeyVectors st)
    (tuple_cursors st) (loop_finished st), ok).

(** *** Ordering and intersecting *)

Definition probed_at (st : IntersectMultiway) (i j : nat) : list nat :=
  default [] (probedIds st !! i ≫= λ r, r !! j).

(** [card_prod]: per build node, the 64-bit product of the sizes of its lists. *)
Definition card_prod (st : IntersectMultiway) : list Z :=
  (λ j, foldl (λ prod i,
      u64 (prod * foldl (λ sum p, u64 (sum + Z.of_nat (numElements (mem st) p))) 0%Z (probed_at st i j)))
    1%Z (right2left_idx conn numLeftNodes j)) <$> seq 0 numRightNodes.

Definition dynamic_order (st : IntersectMultiway) : list nat :=
  if enable_dynamic_order then sort_order (card_prod st) else seq 0 numRightNodes.

(** Sorts, in place, the lists build node [j] has been given. *)
Definition sort_lists (m : gmap nat (list nodeID)) (probed : list (list (list nat))) (j : nat) :
    gmap nat (list nodeID) :=
  foldl (λ m i,
    foldl (λ m p, alter std_sort p m) m (default [] (probed !! i ≫= λ r, r !! j)))
    m (seq 0 numLeftNodes).

Definition lists_of (m : gmap nat (list nodeID)) (ps : list nat) : list (list nodeID) :=
  (λ p, default [] (m !! p)) <$> ps.

(** [multiway_intersect_on_sorted_tuples(j)] on the operator's state: it sets the size of the first
    cached vector, and with it that of the output vector. *)
Definition intersect_at (st : IntersectMultiway) (j : nat) : option (IntersectMultiway * bool) :=
  cache ← cachedIntersectionResults st !! j;
  '(cache, empty) ← multiway_intersect_on_sorted_tuples cap
    ((λ i, lists_of (mem st) (probed_at st i j)) <$> right2left_idx conn numLeftNodes j) cache;
  v0 ← cache !! 0;
  Some (mkOp (mem st) (probedIds st) (<[j := cache]> (cachedIntersectionResults st))
    (<[j := length v0]> (outSelSizes st)) (outKeyVectors st) (tuple_cursors st) (loop_finished st), empty).

(** The loop over the build nodes, left at the first empty intersection. *)
Fixpoint intersect_all (st : IntersectMultiway) (order : list nat) : option (IntersectMultiway * bool) :=
  match order with
  | [] => Some (st, false)
  | j :: order =>
      let st := mkOp (sort_lists (mem st) (probedIds st) j) (probedIds st)
        (cachedIntersectionResults st) (outSelSizes st) (outKeyVectors st) (tuple_cursors st) (loop_finished st) in
      '(st, empty) ← intersect_at st j;
      if empty : bool then Some (st, true) else intersect_all st order
  end.

(** *** [IntersectionLoopState] *)

(** [getSelSize] of a cached vector; [size] is the one of the state shared with the output. *)
Definition cachedSize (size : nat) (cache : list (list nodeID)) (c : nat) : option nat :=
  v ← cache !! c; Some (if decide (c = 0) then size else length v).

Definition cursorFinished (size : nat) (cache : list (list nodeID)) (c : nat) : bool :=
  match cachedSize size cache c with
  | None => true
  | Some n => bool_decide (n = 0)
  end.

(** [fill_output_vector_with_cache]: copies as many values as the size of the cached vector says,
    and sets the size of the output vector to it; [None] for a copy beyond the values written. *)
Definition fill_output (size : nat) (cache : list (list nodeID)) (c : nat) : option (nat * list nodeID) :=
  v ← cache !! c;
  n ← cachedSize size cache c;
  if decide (n ≤ length v) then Some (n, take n v) else None.

Definition reset (st : IntersectMultiway) : option IntersectMultiway :=
  outs ← mapM (λ '(size, cache), fill_output size cache 0) (zip (outSelSizes st) (cachedIntersectionResults st));
  Some (mkOp (mem st) (probedIds st) (cachedIntersectionResults st) outs.*1 outs.*2
    (replicate (length (tuple_cursors st)) 0) false).

(** The loop of [gotoNext] over the build nodes; [outs] are the sizes and values of the output
    vectors, the flag is [finished]. *)
Fixpoint goto_from (cursors : list nat) (caches : list (list (list nodeID)))
    (outs : list (nat * list nodeID)) : option (list nat * list (nat * list nodeID) * bool) :=
  match cursors, caches, outs with
  | [], [], [] => Some ([], [], false)
  | c :: cursors, cache :: caches, out :: outs =>
      let c := S c in
      if cursorFinished out.1 cache c then
        if decide (cursors = []) then Some (c :: cursors, out :: outs, true)
        else
          out ← (if decide (c ≠ 1) then fill_output out.1 cache 0 else Some out);
          '(cursors, outs, fin) ← goto_from cursors caches outs;
          Some (0 :: cursors, out :: outs, fin)
      else out ← fill_output out.1 cache c; Some (c :: cursors, out :: outs, false)
  | _, _, _ => None
  end.

Definition gotoNext (st : IntersectMultiway) : option IntersectMultiway :=
  '(cursors, outs, fin) ← goto_from (tuple_cursors st) (cachedIntersectionResults st)
    (zip (outSelSizes st) (outKeyVectors st));
  Some (mkOp (mem st) (probedIds st) (cachedIntersectionResults st) outs.*1 outs.*2 cursors fin).

(** *** [getNextTuplesInternal] *)

(** The [while (loopState->hasFinished())] loop: [rows] are the tuples the child still has. *)
Fixpoint fetch (st : IntersectMultiway) (rows : list (list nodeID)) :
    option (IntersectMultiway * list (list nodeID) * option (list nodeID)) :=
  match rows with
  | [] => Some (st, [], None)
  | keys :: rows =>
      '(st, ok) ← probeHTs st keys;
      if ok : bool then
        '(st, has_empty) ← intersect_all st (dynamic_order st);
        if has_empty : bool then fetch st rows
        else st ← reset st; Some (st, rows, Some keys)
      else fetch st rows
  end.

(** One call: [cur] is the child's current tuple, the result [None] the end of the stream. *)
Definition getNextTuplesInternal (st : IntersectMultiway) (rows : list (list nodeID))
    (cur : list nodeID) :
    option (IntersectMultiway * list (list nodeID) * option (list nodeID)) :=
  if loop_finished st then fetch st rows
  else
    st ← gotoNext st;
    if loop_finished st then fetch st rows else Some (st, rows, Some cur).

(** What the next operator reads of the output vectors: as many values as their sizes say. *)
Definition output_vectors (st : IntersectMultiway) : list (list nodeID) :=
  zip_with take (outSelSizes st) (outKeyVectors st).

(** All the batches the operator outputs: the child's tuple and a vector per build node. *)
Fixpoint drain (fuel : nat) (st : IntersectMultiway) (rows : list (list nodeID)) (cur : list nodeID) :
    option (list (list nodeID * list (list nodeID))) :=
  match fuel with
  | 0 => None
  | S fuel =>
      '(st, rows, res) ← getNextTuplesInternal st rows cur;
      match res with
      | None => Some []
      | Some cur => rest ← drain fuel st rows cur; Some ((cur, output_vectors st) :: rest)
      end
  end.

End Operator.

(** ** Index lists and the swap loop *)

Lemma push_filter (f : nat → bool) l acc :
  foldl (λ acc j, if f j then acc ++ [j] else acc) acc l = acc ++ filter (λ j, f j = true) l.
Proof.
  revert acc. induction l as [|x l IH]; intros acc; simpl; [by rewrite app_nil_r|].
  rewrite IH, filter_cons. destruct (f x) eqn:E; [|by rewrite decide_False].
  rewrite decide_True by done. by rewrite <-app_assoc.
Qed.

Lemma elem_of_left2right c R i j : j ∈ left2right_idx c R i ↔ hasConnection c i j = true ∧ j < R.
Proof.
  unfold left2right_idx. rewrite push_filter. simpl. rewrite list_elem_of_filter, elem_of_seq. naive_solver lia.
Qed.

Lemma elem_of_right2left c L i j : i ∈ right2left_idx c L j ↔ hasConnection c i j = true ∧ i < L.
Proof.
  unfold right2left_idx. rewrite (push_filter (λ i, hasConnection c i j)). simpl.
  rewrite list_elem_of_filter, elem_of_seq. naive_solver lia.
Qed.

Lemma NoDup_left2right c R i : NoDup (left2right_idx c R i).
Proof. unfold left2right_idx. rewrite push_filter. apply NoDup_filter, NoDup_seq. Qed.

Lemma swap_length {A} (l : list A) a b : length (swap l a b) = length l.
Proof.
  unfold swap. destruct (l !! a), (l !! b); try done. by rewrite !length_insert.
Qed.

Lemma swap_fold_length {A} (f : nat → nat) ks (l : list A) :
  length (foldl (λ acc k, swap acc k (f k)) l ks) = length l.
Proof. revert l. induction ks as [|k ks IH]; intros l; simpl; [done|]. by rewrite IH, swap_length. Qed.

Lemma swap_lookup {A} (l : list A) a b i :
  a < length l → b < length l → a ≠ b →
  swap l a b !! i = if decide (i = a) then l !! b else if decide (i = b) then l !! a else l !! i.
Proof.
  intros Ha Hb Hne. unfold swap. destruct (lookup_lt_is_Some_2 _ _ Ha) as [x Hx].
  destruct (lookup_lt_is_Some_2 _ _ Hb) as [y Hy]. rewrite Hx, Hy.
  destruct (decide (i = a)) as [->|]; [|destruct (decide (i = b)) as [->|]].
  - rewrite list_lookup_insert_ne, list_lookup_insert_eq; done.
  - rewrite list_lookup_insert_eq; [done|]. by rewrite length_insert.
  - rewrite !list_lookup_insert_ne; done.
Qed.

Lemma swap_reverse_prefix {A} (l : list A) k i :
  k ≤ length l / 2 → i < length l →
  foldl (λ acc k, swap acc k (length l - 1 - k)) l (seq 0 k) !! i =
    if decide (i < k ∨ length l - k ≤ i) then l !! (length l - 1 - i) else l !! i.
Proof.
  intros Hk Hi. assert (length l / 2 * 2 ≤ length l) as Hdiv.
  { pose proof (Nat.Div0.mul_div_le (length l) 2). lia. }
  revert i Hi. induction k as [|k IH]; intros i Hi.
  { simpl. rewrite decide_False by lia. done. }
  rewrite seq_S, foldl_app. simpl. set (acc := foldl _ l (seq 0 k)) in *.
  assert (length acc = length l) as Hlen.
  { apply (swap_fold_length (λ k, length l - 1 - k)). }
  rewrite swap_lookup by lia. rewrite !IH by lia.
  destruct (decide (i = k)) as [->|]; [|destruct (decide (i = length l - 1 - k)) as [->|]].
  - rewrite decide_False, decide_True by lia. done.
  - rewrite decide_False, decide_True by lia. f_equal. lia.
  - destruct (decide (i < k ∨ length l - k ≤ i)); [rewrite decide_True by lia|rewrite decide_False by lia]; done.
Qed.

Lemma swap_reverse_eq {A} (l : list A) : swap_reverse l = reverse l.
Proof.
  apply list_eq. intros i. unfold swap_reverse. destruct (decide (i < length l)) as [Hi|Hi].
  - rewrite swap_reverse_prefix by lia. rewrite reverse_lookup by done.
    pose proof (Nat.div_mod_eq (length l) 2). pose proof (Nat.mod_upper_bound (length l) 2 ltac:(lia)).
    case_decide; f_equal; lia.
  - rewrite !lookup_ge_None_2; [done|rewrite length_reverse; lia|].
    rewrite (swap_fold_length (λ k, length l - 1 - k)). lia.
Qed.

(** ** Probing *)

(** The pointers, for build node [j], of the tuples with key [k]. *)
Definition ptrs_of (rows : list (nodeID * gmap nat nat)) (k : nodeID) (j : nat) : list nat :=
  omap (λ t, t.2 !! j) (filter (λ t, t.1 = k) rows).

(** The pointers to lists that are not empty. *)
Definition live (m : gmap nat (list nodeID)) (ps : list nat) : list nat :=
  filter (λ p, numElements m p ≠ 0) ps.

Lemma ptrs_of_snoc rows k tuple key j :
  ptrs_of (rows ++ [(k, tuple)]) key j =
  ptrs_of rows key j ++ (if decide (k = key) then option_list (tuple !! j) else []).
Proof.
  unfold ptrs_of. rewrite filter_app, omap_app, filter_cons, filter_nil. simpl. f_equal.
  case_decide; [|done]. simpl. by destruct (tuple !! j).
Qed.

(** Every tuple has a list for each build node of its probe node. *)
Definition rows_ok (rows : list (nodeID * gmap nat nat)) (js : list nat) : Prop :=
  ∀ t j, t ∈ rows → j ∈ js → is_Some (t.2 !! j).

Section Probe.
Context (m : gmap nat (list nodeID)) (js : list nat) (Hjs : NoDup js).

(** [row'] is [row] with [f j] appended for each build node in [js]. *)
Definition extends (f : nat → list nat) (row row' : list (list nat)) : Prop :=
  length row' = length row ∧
  ∀ j l, row !! j = Some l → row' !! j = Some (l ++ (if decide (j ∈ js) then f j else [])).

Lemma collect_tuple_spec tuple row :
  (∀ j, j ∈ js → is_Some (tuple !! j) ∧ j < length row) →
  ∃ row', collect_tuple m js tuple row = Some row' ∧
    extends (λ j, live m (option_list (tuple !! j))) row row'.
Proof.
  intros Htup. unfold collect_tuple.
  match goal with |- context [ofold ?f ?b ?l] =>
    destruct (ofold_total f (λ dn row', length row' = length row ∧ ∀ j l, row !! j = Some l →
      row' !! j = Some (l ++ (if decide (j ∈ dn) then live m (option_list (tuple !! j)) else []))) l b)
      as (row' & -> & H) end.
  - split; [done|]. intros j l Hj. rewrite decide_False by set_solver. by rewrite app_nil_r.
  - intros dn j rest row' El [Hlen Hrow].
    assert ((j ∉ dn) ∧ j ∈ js) as [Hnew Hin].
    { rewrite El in Hjs. apply NoDup_app in Hjs as (_ & Hd & _). split; [intros Hdn; apply (Hd j Hdn); by left|].
      rewrite El. set_solver. }
    destruct (Htup j Hin) as [[p Hp] Hlt]. rewrite Hp. cbn [mbind option_bind]. eexists; split; [done|].
    split; [destruct (decide (numElements m p = 0)); [done|by rewrite length_alter]|]. intros j' l Hj'. specialize (Hrow j' l Hj').
    destruct (decide (j = j')) as [<-|Hne].
    + rewrite (decide_True _ _ (P := j ∈ dn ++ [j])) by set_solver. rewrite decide_False, app_nil_r in Hrow by done.
      rewrite Hp. change (option_list (Some p)) with [p]. unfold live. rewrite filter_cons, filter_nil.
      destruct (decide (numElements m p = 0)).
      * rewrite decide_False by auto. by rewrite app_nil_r.
      * rewrite decide_True by done. by rewrite list_lookup_alter_eq, Hrow.
    + assert (∀ row1, (if decide (numElements m p = 0) then row1 else alter (λ l0, l0 ++ [p]) j row1) !! j' = row1 !! j') as ->.
      { intros row1. destruct (decide (numElements m p = 0)); [done|]. by rewrite list_lookup_alter_ne. }
      rewrite Hrow. do 2 f_equal. apply decide_ext. set_solver.
  - by exists row'.
Qed.

Lemma extends_trans f g row1 row2 row3 :
  extends f row1 row2 → extends g row2 row3 → extends (λ j, f j ++ g j) row1 row3.
Proof.
  intros [L1 H1] [L2 H2]. split; [congruence|]. intros j l Hj. rewrite (H2 j _ (H1 j l Hj)), <-app_assoc.
  do 2 f_equal. by case_decide.
Qed.

Lemma extends_ext f g row row' : (∀ j, j ∈ js → f j = g j) → extends f row row' → extends g row row'.
Proof.
  intros Hfg [L H]. split; [done|]. intros j l Hj. rewrite (H j l Hj). do 2 f_equal.
  case_decide; auto.
Qed.

Lemma collect_chain_spec key chain row :
  rows_ok (filter (λ t, t.1 = key) chain) js → (∀ j, j ∈ js → j < length row) →
  ∃ row' hm, collect_chain m js key chain row = Some (row', hm) ∧
    extends (λ j, live m (ptrs_of chain key j)) row row' ∧
    (hm = false → filter (λ t, t.1 = key) chain = []).
Proof.
  intros Hok Hrow. unfold collect_chain.
  match goal with |- context [ofold ?f ?b ?l] =>
    destruct (ofold_total f (λ dn '(row', hm), extends (λ j, live m (ptrs_of dn key j)) row row' ∧
      (hm = false → filter (λ t, t.1 = key) dn = [])) l b) as ([row' hm] & -> & H1 & H2) end.
  - split; [|done]. split; [done|]. intros j l Hj. rewrite Hj. case_decide; by rewrite app_nil_r.
  - intros dn [k tuple] rest [row' hm] El [Hext Hhm].
    destruct (internalID.eqb k key) eqn:E.
    + apply eqb_spec in E as ->. destruct (collect_tuple_spec tuple row') as (row2 & -> & Hext2).
      { intros j Hj. destruct Hext as [-> _]. split; [|auto].
        apply (Hok (key, tuple) j); [|done]. apply list_elem_of_filter. split; [done|]. rewrite El. set_solver. }
      cbn [mbind option_bind]. eexists; split; [done|]. split; [|done].
      eapply extends_ext; [|by eapply extends_trans]. intros j Hj. simpl.
      rewrite ptrs_of_snoc, decide_True by done. unfold live. by rewrite filter_app.
    + assert (k ≠ key) as Hk by (intros ->; by rewrite (proj2 (eqb_spec key key)) in E).
      eexists; split; [done|]. split.
      * eapply extends_ext; [|done]. intros j Hj. simpl. by rewrite ptrs_of_snoc, decide_False, app_nil_r.
      * intros Hf. rewrite filter_app, filter_cons, filter_nil, (Hhm Hf). by rewrite decide_False.
  - by exists row', hm.
Qed.

End Probe.

Lemma reverse_rows_spec js row :
  NoDup js → (∀ j, j ∈ js → j < length row) →
  ∃ row' ok, reverse_rows js row = Some (row', ok) ∧ length row' = length row ∧
    if ok : bool then (∀ j l, row !! j = Some l → row' !! j = Some (if decide (j ∈ js) then reverse l else l)) ∧
      (∀ j, j ∈ js → row !! j ≠ Some [])
    else ∃ j, j ∈ js ∧ row !! j = Some [].
Proof.
  intros Hnd. revert row. induction Hnd as [|j js Hj Hnd IH]; intros row Hlt; cbn [reverse_rows].
  { exists row, true. split_and!; [done..| |set_solver]. intros j l ->. by rewrite decide_False by set_solver. }
  destruct (lookup_lt_is_Some_2 row j) as [l Hl]; [set_solver|]. rewrite Hl. cbn [mbind option_bind].
  destruct (decide (length l = 0)) as [Hz|Hz].
  { apply length_zero_iff_nil in Hz as ->. exists row, false. split_and!; [done..|]. exists j. set_solver. }
  destruct (IH (<[j := swap_reverse l]> row)) as (row' & ok & -> & Hlen & H).
  { intros j' Hj'. rewrite length_insert. set_solver. }
  exists row', ok. rewrite length_insert in Hlen. split_and!; [done|done|]. destruct ok.
  - destruct H as [H1 H2]. split.
    + intros j' l' Hl'. destruct (decide (j = j')) as [<-|Hne].
      * rewrite (H1 j (swap_reverse l)) by (rewrite list_lookup_insert_eq; [done|by eapply lookup_lt_Some]).
        rewrite decide_False by done. rewrite decide_True by set_solver. simplify_eq. by rewrite swap_reverse_eq.
      * rewrite (H1 j' l') by (by rewrite list_lookup_insert_ne). f_equal.
        destruct (decide (j' ∈ js)); [rewrite decide_True by set_solver|rewrite decide_False by set_solver]; done.
    + intros j' [->|Hj']%elem_of_cons; [rewrite Hl; by intros [= ->]|].
      rewrite <-(list_lookup_insert_ne row j j' (swap_reverse l)) by set_solver. auto.
  - destruct H as (j' & Hj' & Hnil). exists j'. split; [by right|].
    rewrite list_lookup_insert_ne in Hnil by set_solver. done.
Qed.

Section ProbeAll.
Context (hash : nodeID → Z) (conn : Connectivity) (R : nat).
Context (HTs : list ProbeTable) (build : list (list (nodeID * gmap nat nat))).
Context (Hlaw : Forall2 (ProbeLaw hash) HTs build).
Context (Hrows : ∀ i rows, build !! i = Some rows → rows_ok rows (left2right_idx conn R i)).
Context (Hconn : ∀ i, i < length HTs → left2right_idx conn R i ≠ []).

(** The lists probe node [i] contributes to build node [j] for key [k]. *)
Definition found (m : gmap nat (list nodeID)) (i : nat) (k : nodeID) (j : nat) : list nat :=
  live m (ptrs_of (default [] (build !! i)) k j).

Lemma ptrs_of_filter l l' k j :
  filter (λ t, t.1 = k) l = reverse (filter (λ t, t.1 = k) l') → ptrs_of l k j = reverse (ptrs_of l' k j).
Proof.
  unfold ptrs_of. intros ->. generalize (filter (λ t, t.1 = k) l'). intros ts.
  induction ts as [|t ts IH]; [done|]. rewrite reverse_cons, omap_app, IH. simpl.
  destruct (t.2 !! j); [by rewrite reverse_cons|by rewrite app_nil_r].
Qed.

Lemma probe_one_spec m i key :
  i < length HTs →
  ∃ row ok, probe_one hash conn R HTs m i key = Some (row, ok) ∧ length row = R ∧
    if ok : bool then
      (∀ j, j < R → row !! j = Some (if decide (j ∈ left2right_idx conn R i) then found m i key j else [])) ∧
      (∀ j, j ∈ left2right_idx conn R i → found m i key j ≠ [])
    else ∃ j, j ∈ left2right_idx conn R i ∧ found m i key j = [].
Proof.
  intros Hi. destruct (lookup_lt_is_Some_2 _ _ Hi) as [ht Hht].
  destruct (Forall2_lookup_l _ _ _ _ _ Hlaw Hht) as (rows & Hbuild & [Hnum Hchain]).
  unfold probe_one, found. rewrite Hht, Hbuild. cbn [mbind option_bind from_option id].
  specialize (Hconn i Hi). set (js := left2right_idx conn R i) in *.
  assert (∃ j0, j0 ∈ js) as [j0 Hj0] by (destruct js as [|j0 js']; [done|]; exists j0; by left).
  case_decide as Hz.
  { exists (replicate R []), false. split_and!; [done|apply length_replicate|]. exists j0. split; [done|].
    rewrite Hz in Hnum. symmetry in Hnum. apply length_zero_iff_nil in Hnum as ->. done. }
  destruct (Hchain key Hz) as (chain & -> & Hfil). cbn [mbind option_bind].
  assert (∀ j, j ∈ js → j < length (replicate R (@nil nat))) as Hlt.
  { intros j [_ ?]%elem_of_left2right. by rewrite length_replicate. }
  destruct (collect_chain_spec m js (NoDup_left2right _ _ _) key chain (replicate R []))
    as (row1 & hm & -> & [Hlen1 Hrow1] & Hhm); [|done|].
  { rewrite Hfil. intros t j Ht Hj. rewrite elem_of_reverse in Ht. apply list_elem_of_filter in Ht as [_ Ht].
    by eapply Hrows. }
  cbn [mbind option_bind]. rewrite length_replicate in Hlen1.
  assert (∀ j, j < R → row1 !! j = Some (if decide (j ∈ js) then reverse (live m (ptrs_of rows key j)) else [])) as Hrow.
  { intros j Hj. rewrite (Hrow1 j []) by (by rewrite lookup_replicate_2). simpl.
    rewrite (ptrs_of_filter _ _ _ _ Hfil). unfold live. by rewrite filter_reverse. }
  destruct (reverse_rows_spec js row1 (NoDup_left2right _ _ _)) as (row2 & ok & -> & Hlen2 & Hok).
  { intros j [_ ?]%elem_of_left2right. lia. }
  cbn [mbind option_bind]. destruct ok.
  - destruct Hok as [Hrev Hne].
    assert (∀ j, j ∈ js → live m (ptrs_of rows key j) ≠ []) as Hfound.
    { intros j Hj Hnil. apply (Hne j Hj). rewrite Hrow by (by apply elem_of_left2right in Hj as [_ ?]).
      by rewrite decide_True, Hnil. }
    destruct hm.
    + exists row2, true. split_and!; [done|lia| |done]. intros j Hj.
      rewrite (Hrev j _ (Hrow j Hj)). f_equal. case_decide; [apply reverse_involutive|done].
    + exfalso. apply (Hfound j0 Hj0). rewrite <-(reverse_involutive (ptrs_of rows key j0)).
      rewrite <-(ptrs_of_filter _ _ _ _ Hfil). unfold ptrs_of. by rewrite Hhm.
  - exists row2, false. split_and!; [done|lia|]. destruct Hok as (j & Hj & Hnil). exists j. split; [done|].
    rewrite Hrow in Hnil by (by apply elem_of_left2right in Hj as [_ ?]). rewrite decide_True in Hnil by done.
    injection Hnil as Hnil. apply (f_equal reverse) in Hnil. by rewrite reverse_involutive in Hnil.
Qed.

Lemma probe_from_spec m i keys probed :
  i + length keys = length HTs → length probed = length HTs →
  ∃ probed' ok, probe_from hash conn R HTs m i keys probed = Some (probed', ok) ∧
    length probed' = length HTs ∧
    (∀ i', i' < i → probed' !! i' = probed !! i') ∧
    if ok : bool then ∀ k key, keys !! k = Some key →
        (∃ row, probed' !! (i + k) = Some row ∧ length row = R ∧
          ∀ j, j < R → row !! j =
            Some (if decide (j ∈ left2right_idx conn R (i + k)) then found m (i + k) key j else [])) ∧
        (∀ j, j ∈ left2right_idx conn R (i + k) → found m (i + k) key j ≠ [])
    else ∃ k key j, keys !! k = Some key ∧ j ∈ left2right_idx conn R (i + k) ∧ found m (i + k) key j = [].
Proof.
  revert i probed. induction keys as [|key keys IH]; intros i probed Hi Hlen; cbn [probe_from].
  { exists probed, true. split_and!; [done..|]. intros k key Hk. done. }
  simpl in Hi. destruct (probe_one_spec m i key ltac:(lia)) as (row & ok & -> & Hrl & Hok). cbn [mbind option_bind].
  destruct ok.
  2:{ destruct Hok as (j & Hj & Hnil). eexists _, false. split_and!; [done|by rewrite length_insert| |].
      - intros i' Hi'. by rewrite list_lookup_insert_ne by lia.
      - exists 0, key, j. rewrite Nat.add_0_r. done. }
  destruct (IH (S i) (<[i := row]> probed)) as (probed' & ok & -> & Hlen' & Hpre & Hrest);
    [lia|by rewrite length_insert|].
  exists probed', ok. split_and!; [done|done| |].
  - intros i' Hi'. rewrite Hpre by lia. by rewrite list_lookup_insert_ne by lia.
  - destruct ok.
    + intros [|k] key' Hk.
      * injection Hk as <-. rewrite Nat.add_0_r. destruct Hok as [H1 H2]. split; [|done].
        exists row. split_and!; [|done..]. rewrite Hpre by lia. rewrite list_lookup_insert_eq by lia. done.
      * replace (i + S k) with (S i + k) by lia. by apply Hrest.
    + destruct Hrest as (k & key' & j & Hk & Hrest). exists (S k), key', j.
      replace (i + S k) with (S i + k) by lia. done.
Qed.

End ProbeAll.

(** ** Sorting in place and intersecting *)

Definition lst (m : gmap nat (list nodeID)) (p : nat) : list nodeID := default [] (m !! p).

(** Memories that differ only in the order of the elements within each list. *)
Definition mem_equiv (m m' : gmap nat (list nodeID)) : Prop := ∀ p, lst m' p ≡ₚ lst m p.

#[export] Instance mem_equiv_equivalence : Equivalence mem_equiv.
Proof.
  unfold mem_equiv. split.
  - by intros m p.
  - intros m m' H p. by rewrite H.
  - intros m1 m2 m3 H12 H23 p. by rewrite H23, H12.
Qed.

#[export] Instance numElements_proper : Proper (mem_equiv ==> eq ==> eq) numElements.
Proof. intros m m' Hm p ? <-. symmetry. apply (Permutation_length (Hm p)). Qed.

Lemma live_equiv m m' ps : mem_equiv m m' → live m' ps = live m ps.
Proof.
  intros Hm. apply filter_ext_in, Forall_forall. intros p _. by rewrite (numElements_proper m m' Hm p p eq_refl).
Qed.

Lemma lists_of_occ m m' ps v :
  mem_equiv m m' → occ v (concat (lists_of m' ps)) = occ v (concat (lists_of m ps)).
Proof.
  intros Hm. induction ps as [|p ps IH]; [done|]. cbn [lists_of fmap list_fmap concat].
  rewrite !occ_app. f_equal; [|apply IH]. apply occ_Permutation, Hm.
Qed.

(** The order [std::sort] is called with compares offsets only. *)
Definition offset_sorted (l : list nodeID) : Prop :=
  StronglySorted (λ a b, offset a ≤ offset b)%Z l.

(** The lists of one probe node and one build node, in the order of the chain, hold nodes of one
    table, and no element of a list has a larger offset than one of a later list. *)
Definition chunks_ok (ls : list (list nodeID)) : Prop :=
  (∃ T, ∀ l x, l ∈ ls → x ∈ l → tableID x = T) ∧
  ∀ a b la lb x y, ls !! a = Some la → ls !! b = Some lb → a < b → x ∈ la → y ∈ lb →
    (offset x ≤ offset y)%Z.

Lemma chunks_ok_cons l ls : chunks_ok (l :: ls) → chunks_ok ls ∧
  ∀ l' x y, l' ∈ ls → x ∈ l → y ∈ l' → id_le x y.
Proof.
  intros [[T HT] Hord]. split; [split|].
  - exists T. intros l' x Hl'. apply HT. by right.
  - intros a b la lb x y Ha Hb Hab. apply (Hord (S a) (S b)); [done..|lia].
  - intros l' x y Hl' Hx Hy. pose proof Hl' as [b Hb]%list_elem_of_lookup. right. split.
    + rewrite (HT l x), (HT l' y); [done|by right|done|by left|done].
    + apply (Hord 0 (S b) l l'); [done|done|lia|done..].
Qed.

Lemma same_table_sorted T l : offset_sorted l → (∀ x, x ∈ l → tableID x = T) → sorted l.
Proof.
  induction 1 as [|x l Hl IH Hx]; intros HT; [constructor|]. apply sorted_cons. split.
  - rewrite Forall_forall in Hx |- *. intros y Hy. right. split; [|by apply Hx].
    rewrite !HT; [done|by right|by left].
  - apply IH. intros y Hy. apply HT. by right.
Qed.

Lemma chunks_sorted ls : chunks_ok ls → Forall offset_sorted ls → sorted (concat ls).
Proof.
  induction ls as [|l ls IH]; intros Hok Hs; [constructor|].
  apply Forall_cons in Hs as [Hl Hs]. pose proof (chunks_ok_cons _ _ Hok) as [Hok' Hle].
  cbn [concat]. apply sorted_app. split_and!; [|by apply IH|].
  - destruct Hok as [[T HT] _]. apply (same_table_sorted T); [done|]. intros x. apply HT. by left.
  - intros x y Hx (l' & Hy & Hl')%elem_of_concat. by apply (Hle l').
Qed.

Lemma lists_of_lookup m ps a l : lists_of m ps !! a = Some l ↔ ∃ p, ps !! a = Some p ∧ l = lst m p.
Proof. unfold lists_of. rewrite list_lookup_fmap, fmap_Some. done. Qed.

Lemma chunks_ok_equiv m m' ps : mem_equiv m m' → chunks_ok (lists_of m ps) → chunks_ok (lists_of m' ps).
Proof.
  intros Hm [[T HT] Hord]. split.
  - exists T. intros l x (p & -> & Hp)%list_elem_of_fmap Hx. apply (HT (lst m p)).
    + by apply list_elem_of_fmap_2.
    + by rewrite <-(Hm p).
  - intros a b la lb x y (p & Hp & ->)%lists_of_lookup (q & Hq & ->)%lists_of_lookup Hab Hx Hy.
    apply (Hord a b (lst m p) (lst m q)); [apply lists_of_lookup; eauto..|done| |].
    + by rewrite <-(Hm p).
    + by rewrite <-(Hm q).
Qed.

Section Sorting.
Context (std_sort : list nodeID → list nodeID).
Context (Hsort : ∀ l, std_sort l ≡ₚ l ∧ offset_sorted (std_sort l)).

Lemma foldl_nested {A B C} (f : B → A → B) (g : C → list A) b l :
  foldl (λ b i, foldl f b (g i)) b l = foldl f b (concat (g <$> l)).
Proof. revert b. induction l as [|i l IH]; intros b; simpl; [done|]. by rewrite foldl_app, IH. Qed.

Lemma sort_nil : std_sort [] = [].
Proof. by apply Permutation_nil_r, Hsort. Qed.

Lemma lst_alter m p q : lst (alter std_sort p m) q = if decide (p = q) then std_sort (lst m q) else lst m q.
Proof.
  unfold lst. case_decide as H; [subst q|by rewrite lookup_alter_ne].
  rewrite lookup_alter_eq. destruct (m !! p); simpl; [done|]. by rewrite sort_nil.
Qed.

Lemma sort_lists_spec L m probed j :
  mem_equiv m (sort_lists std_sort L m probed j) ∧
  ∀ i p, i < L → p ∈ default [] (probed !! i ≫= λ r, r !! j) →
    offset_sorted (lst (sort_lists std_sort L m probed j) p).
Proof.
  unfold sort_lists. rewrite foldl_nested.
  set (ps := concat ((λ i, default [] (probed !! i ≫= λ r, r !! j)) <$> seq 0 L)).
  destruct (foldl_inv (λ m p, alter std_sort p m)
    (λ dn m', mem_equiv m m' ∧ ∀ p, p ∈ dn → offset_sorted (lst m' p)) ps m) as [H1 H2].
  - split; [done|set_solver].
  - intros dn p rest m' _ [Hm Hs]. split.
    + intros q. rewrite lst_alter. case_decide; [|apply Hm]. rewrite (proj1 (Hsort _)). apply Hm.
    + intros q Hq. rewrite lst_alter. case_decide as Hpq; [apply Hsort|]. apply Hs.
      apply elem_of_app in Hq as [?| ->%list_elem_of_singleton]; done.
  - split; [done|]. intros i p Hi Hp. apply H2. subst ps. apply elem_of_concat.
    eexists; split; [done|]. apply (list_elem_of_fmap_2 (λ i, default [] (probed !! i ≫= λ r, r !! j))).
    apply elem_of_seq. lia.
Qed.

End Sorting.

Section Intersecting.
Context (std_sort : list nodeID → list nodeID).
Context (Hsort : ∀ l, std_sort l ≡ₚ l ∧ offset_sorted (std_sort l)).
Context (cap : nat) (Hcap : 0 < cap) (conn : Connectivity) (L R : nat).
Context (Hright : ∀ j, j < R → right2left_idx conn L j ≠ []).

(** A state in which every probe has succeeded, over the memory [m] up to the order within the
    lists. *)
Record ready (m : gmap nat (list nodeID)) (st : IntersectMultiway) : Prop := {
  rd_mem : mem_equiv m (mem st);
  rd_len : length (cachedIntersectionResults st) = R;
  rd_sizes : length (outSelSizes st) = R;
  rd_caches : Forall (λ c, c ≠ []) (cachedIntersectionResults st);
  rd_probed : ∀ i j, i < L → j < R → hasConnection conn i j = true →
    probed_at st i j ≠ [] ∧ Forall (λ p, lst m p ≠ []) (probed_at st i j) ∧
    chunks_ok (lists_of m (probed_at st i j));
  rd_fit : ∀ j, j < R → counts_fit ((λ i, concat (lists_of m (probed_at st i j))) <$> right2left_idx conn L j)
}.

(** How often [v] is in the intersection for build node [j]. *)
Definition want (m : gmap nat (list nodeID)) (st : IntersectMultiway) (j : nat) (v : nodeID) : nat :=
  isect ((λ i, concat (lists_of m (probed_at st i j))) <$> right2left_idx conn L j) v.

(** Only the memory, the caches and their sizes differ. *)
Definition same_frame (st st' : IntersectMultiway) : Prop :=
  probedIds st' = probedIds st ∧ outKeyVectors st' = outKeyVectors st ∧
  tuple_cursors st' = tuple_cursors st ∧ loop_finished st' = loop_finished st.

(** The cache of build node [j] holds its intersection. *)
Definition cached (m : gmap nat (list nodeID)) (st : IntersectMultiway) (j : nat) : Prop :=
  ∃ cache id, cachedIntersectionResults st !! j = Some cache ∧ cache_ok cap cache id ∧
    outSelSizes st !! j = length <$> cache !! 0 ∧
    ∀ v, occ v (concat cache) = want m st j v.

Definition sorted_state (st : IntersectMultiway) (j : nat) : IntersectMultiway :=
  mkOp (sort_lists std_sort L (mem st) (probedIds st) j) (probedIds st)
    (cachedIntersectionResults st) (outSelSizes st) (outKeyVectors st) (tuple_cursors st) (loop_finished st).

Lemma isect_equiv m m' (ps : nat → list nat) rights v :
  mem_equiv m m' →
  isect ((λ i, concat (lists_of m' (ps i))) <$> rights) v = isect ((λ i, concat (lists_of m (ps i))) <$> rights) v.
Proof.
  intros Hm. apply isect_ext, Forall2_fmap, Forall_Forall2_diag, Forall_forall.
  intros i _. by apply lists_of_occ.
Qed.

Lemma intersect_step m st j :
  j < R → ready m st →
  ∃ st' e, intersect_at cap conn L (sorted_state st j) j = Some (st', e) ∧
    ready m st' ∧ same_frame st st' ∧
    (∀ k, k ≠ j → cachedIntersectionResults st' !! k = cachedIntersectionResults st !! k ∧
      outSelSizes st' !! k = outSelSizes st !! k) ∧
    cached m st' j ∧ (e = true → ∀ v, want m st j v = 0) ∧
    (e = false → ∃ cache, cachedIntersectionResults st' !! j = Some cache ∧ concat cache ≠ []).
Proof.
  intros Hj [Hmem Hlen Hsizes Hcaches Hprobed Hfit].
  destruct (sort_lists_spec std_sort Hsort L (mem st) (probedIds st) j) as [Hm1 Hs1].
  set (m1 := sort_lists std_sort L (mem st) (probedIds st) j) in *.
  assert (mem_equiv m m1) as Hmm1 by (by etrans).
  unfold intersect_at. cbn [sorted_state cachedIntersectionResults mem probed_at]. fold m1.
  destruct (lookup_lt_is_Some_2 (cachedIntersectionResults st) j) as [cache Hcache]; [lia|].
  rewrite Hcache. cbn [mbind option_bind].
  set (probed := (λ i, lists_of m1 (probed_at (sorted_state st j) i j)) <$> right2left_idx conn L j).
  assert (∀ v, isect (@concat _ <$> probed) v = want m st j v) as Hprod.
  { intros v. subst probed. rewrite <-list_fmap_compose. by apply (isect_equiv m m1 (λ i, probed_at st i j)). }
  destruct (multiway_intersect_Some cap probed cache) as (cache' & id & -> & Hok & _ & Hocc).
  { done. }
  { rewrite Forall_lookup in Hcaches. eauto. }
  { subst probed. intros Hnil%fmap_nil_inv. by apply (Hright j Hj). }
  { subst probed. apply Forall_fmap, Forall_forall. intros i [Hc Hi]%elem_of_right2left. simpl.
    change (probed_at (sorted_state st j) i j) with (probed_at st i j).
    destruct (Hprobed i j Hi Hj Hc) as (Hne & Hlive & Hch). split_and!.
    - destruct (probed_at st i j) as [|p ps] eqn:E; [done|]. simpl. intros [= Hnil].
      apply Forall_cons in Hlive as [Hp _]. apply Hp. apply Permutation_nil_r. rewrite <-(Hmm1 p).
      unfold lst. by rewrite Hnil.
    - by intros Hnil%fmap_nil_inv.
    - apply chunks_sorted; [by eapply chunks_ok_equiv|]. apply Forall_fmap, Forall_forall. intros p Hp.
      apply (Hs1 i p Hi). done. }
  { intros v. rewrite Hprod. apply (Hfit j Hj). }
  cbn [mbind option_bind].
  assert (∃ v0, cache' !! 0 = Some v0) as [v0 Hv0].
  { destruct Hok as (full & vec & n & -> & _). destruct full; by eexists. }
  rewrite Hv0. cbn [mbind option_bind]. eexists _, _. split; [done|].
  assert (∀ v, occ v (concat cache') = want m st j v) as Hw.
  { intros v. by rewrite Hocc, Hprod. }
  split_and!.
  - split; cbn [mem cachedIntersectionResults outSelSizes]; [done|by rewrite length_insert..| |done|done].
    apply Forall_insert; [done|]. destruct Hok as (full & vec & n & -> & _). by destruct full.
  - split_and!; done.
  - intros k Hk. cbn [cachedIntersectionResults outSelSizes]. by rewrite !list_lookup_insert_ne.
  - exists cache', id. cbn [cachedIntersectionResults outSelSizes sorted_state]. by rewrite !list_lookup_insert_eq, Hv0 by lia.
  - intros Hnil%bool_decide_eq_true v. by rewrite <-Hw, Hnil.
  - intros Hne%bool_decide_eq_false. exists cache'. cbn [cachedIntersectionResults].
    by rewrite list_lookup_insert_eq by lia.
Qed.

Lemma intersect_all_spec m st order :
  NoDup order → (∀ j, j ∈ order → j < R) → ready m st →
  ∃ st' e, intersect_all std_sort cap conn L st order = Some (st', e) ∧
    ready m st' ∧ same_frame st st' ∧
    (∀ k, k ∉ order → cachedIntersectionResults st' !! k = cachedIntersectionResults st !! k ∧
      outSelSizes st' !! k = outSelSizes st !! k) ∧
    (e = true → ∃ j, j ∈ order ∧ ∀ v, want m st j v = 0) ∧
    (e = false → ∀ j, j ∈ order → cached m st' j ∧
      ∃ cache, cachedIntersectionResults st' !! j = Some cache ∧ concat cache ≠ []).
Proof.
  intros Hnd. revert st. induction Hnd as [|j order Hj Hnd IH]; intros st Hlt Hr; cbn [intersect_all].
  { exists st, false. split_and!; try done. intros _ j Hj. set_solver. }
  fold (sorted_state st j).
  destruct (intersect_step m st j (Hlt j ltac:(by left)) Hr)
    as (st1 & e & -> & Hr1 & Hf1 & Hother & Hcached & He1 & He2). cbn [mbind option_bind].
  assert (∀ k v, want m st1 k v = want m st k v) as Hwant.
  { intros k v. unfold want, probed_at. by destruct Hf1 as (-> & _). }
  destruct e.
  { exists st1, true. split_and!; try done; [intros k Hk; apply Hother; set_solver|].
    intros _. exists j. split; [by left|]. by apply He1. }
  destruct (IH st1) as (st2 & e & -> & Hr2 & Hf2 & Hother2 & He & Hne); [intros k Hk; apply Hlt; by right|done|].
  exists st2, e. split_and!; try done.
  - destruct Hf1 as (? & ? & ? & ?), Hf2 as (? & ? & ? & ?). split_and!; congruence.
  - intros k Hk. destruct (Hother2 k) as [-> ->]; [set_solver|]. apply Hother. set_solver.
  - intros (k & Hk & Hw)%He. exists k. split; [by right|]. intros v. by rewrite <-Hwant.
  - intros Hf k [->|Hk]%elem_of_cons; [|by apply Hne].
    destruct (He2 eq_refl) as (cache & Hc & Hcne). destruct (Hother2 j Hj) as [Ho2 Hs2]. split.
    + destruct Hcached as (cache' & id & Hc' & Hok' & Hs' & Hocc'). exists cache', id. rewrite Ho2, Hs2.
      split_and!; [done..|]. intros v. rewrite Hocc'. unfold want, probed_at. by destruct Hf2 as (-> & _).
    + exists cache. by rewrite Ho2.
Qed.

End Intersecting.

(** ** The loop state enumerates the product of the cached chunks *)

(** The Cartesian product, the first component varying fastest. *)
Fixpoint cprod {A} (ls : list (list A)) : list (list A) :=
  match ls with
  | [] => [[]]
  | l :: ls => concat ((λ t, (λ x, x :: t) <$> l) <$> cprod ls)
  end.

(** Non-empty vectors, all but the last one full. *)
Definition chunks (cap : nat) (ch : list (list nodeID)) : Prop :=
  ∃ full vec, ch = full ++ [vec] ∧ Forall (λ w, length w = cap) full ∧ 0 < length vec ≤ cap.

(** [ch] are the non-empty vectors of a cache, which come first. *)
Definition chunk_view (cap : nat) (cache ch : list (list nodeID)) : Prop :=
  chunks cap ch ∧ ∃ n, cache = ch ++ replicate n [].

(** The vectors as they are output from the second pass over them on: when the cursor wraps around,
    the state shared with the output has the size of the last vector, and the first one is copied
    up to that size. *)
Definition again (ch : list (list nodeID)) : list (list nodeID) :=
  match ch with
  | o :: (_ :: _) as rest => take (length (default [] (last rest))) o :: tail ch
  | _ => ch
  end.

(** What an output vector may hold when the cursor is [c]. *)
Definition shown (ch : list (list nodeID)) (c : nat) (o : list nodeID) : Prop :=
  ch !! c = Some o ∨ c = 0 ∧ again ch !! 0 = Some o.

(** The output vectors hold the chunks at the cursors, and their sizes are right. *)
Fixpoint at_pos (cs : list nat) (chs : list (list (list nodeID))) (outs : list (nat * list nodeID)) : Prop :=
  match cs, chs, outs with
  | [], [], [] => True
  | c :: cs, ch :: chs, o :: outs => c < length ch ∧ shown ch c o.2 ∧ o.1 = length o.2 ∧ at_pos cs chs outs
  | _, _, _ => False
  end.

(** The combinations of chunks after the current one. *)
Fixpoint remaining (cs : list nat) (chs : list (list (list nodeID))) (outs : list (list nodeID)) :
    list (list (list nodeID)) :=
  match cs, chs, outs with
  | c :: cs, ch :: chs, _ :: outs =>
      ((λ o, o :: outs) <$> drop (S c) ch) ++
      concat ((λ t, (λ o, o :: t) <$> again ch) <$> remaining cs chs outs)
  | _, _, _ => []
  end.

(** All the combinations the loop state goes through. *)
Fixpoint emitted (chs : list (list (list nodeID))) : list (list (list nodeID)) :=
  match chs with
  | [] => [[]]
  | ch :: chs =>
      match emitted chs with
      | [] => []
      | t :: ts => ((λ o, o :: t) <$> ch) ++ concat ((λ t, (λ o, o :: t) <$> again ch) <$> ts)
      end
  end.

Lemma chunks_nonempty cap ch : 0 < cap → chunks cap ch → ch ≠ [] ∧ Forall (λ o, o ≠ []) ch.
Proof.
  intros Hcap (full & vec & -> & Hfull & Hvec). split; [by destruct full|]. apply Forall_app. split.
  - eapply Forall_impl; [done|]. intros [|] Hw; simpl in *; [lia|done].
  - constructor; [|constructor]. destruct vec; simpl in *; [lia|done].
Qed.

(** Chunks from the second pass on: the same number, the first one shortened to the last one. *)
Lemma again_cases cap ch :
  chunks cap ch →
  (∃ o, ch = [o] ∧ again ch = [o]) ∨
  ∃ o rest lst, ch = o :: rest ++ [lst] ∧ again ch = take (length lst) o :: rest ++ [lst] ∧
    length o = cap ∧ 0 < length lst ≤ cap ∧ Forall (λ w, length w = cap) rest.
Proof.
  intros (full & vec & -> & Hfull & Hvec). destruct full as [|o full]; [left; by exists vec|].
  apply Forall_cons in Hfull as [Ho Hfull]. right. exists o, full, vec. split_and!; try done; try lia.
  cbn [app again]. destruct (full ++ [vec]) as [|w ws] eqn:E; [by destruct full|]. cbn [tail].
  rewrite <-E, last_snoc. done.
Qed.

Lemma cursorFinished_view cap size cache ch c :
  0 < cap → chunk_view cap cache ch → 0 < c → cursorFinished size cache c = bool_decide (length ch ≤ c).
Proof.
  intros Hcap [Hch [n ->]] Hc. destruct (chunks_nonempty cap ch Hcap Hch) as [_ Hne].
  unfold cursorFinished, cachedSize. case_bool_decide as Hlen.
  - rewrite lookup_app_r by done. destruct (replicate n [] !! (c - length ch)) as [w|] eqn:E; [|done].
    apply lookup_replicate in E as [-> _]. simpl. rewrite decide_False by lia. done.
  - rewrite lookup_app_l by lia. destruct (lookup_lt_is_Some_2 ch c) as [w Hw]; [lia|]. rewrite Hw. simpl.
    rewrite decide_False by lia. rewrite Forall_lookup in Hne. specialize (Hne _ _ Hw).
    apply bool_decide_eq_false. by destruct w.
Qed.

Lemma fill_output_later size cache c o : 0 < c → cache !! c = Some o → fill_output size cache c = Some (length o, o).
Proof.
  intros Hc Ho. unfold fill_output, cachedSize. rewrite Ho. cbn [mbind option_bind].
  rewrite (decide_False (P := c = 0)) by lia. rewrite decide_True by done. by rewrite take_ge.
Qed.

Lemma fill_output_first size cache o : cache !! 0 = Some o → size ≤ length o → fill_output size cache 0 = Some (size, take size o).
Proof.
  intros Ho Hs. unfold fill_output, cachedSize. rewrite Ho. cbn [mbind option_bind]. by rewrite !decide_True.
Qed.

(** A cursor that wraps around leaves the first chunk of a later pass in the output. *)
Lemma wrap_output cap cache ch c out :
  0 < cap → chunk_view cap cache ch → length ch = S c → shown ch c out.2 → out.1 = length out.2 →
  ∃ o rest, (if decide (S c ≠ 1) then fill_output out.1 cache 0 else Some out) = Some (length o, o) ∧ again ch = o :: rest ∧
    drop 1 ch = rest.
Proof.
  intros Hcap [Hch [n ->]] Hlen Hsh Hsize. destruct (again_cases cap ch Hch) as [(o & -> & Hag)|(o & rest & lst & -> & Hag & Ho & Hl & _)].
  - simpl in Hlen. assert (c = 0) as -> by lia. rewrite decide_False by lia. exists o, []. split_and!; try done.
    destruct out as [k o']. simpl in *. destruct Hsh as [[= ->]|[_ [= ->]]]; by subst k.
  - cbn [length] in Hlen. rewrite length_app in Hlen. simpl in Hlen. rewrite decide_True by lia.
    assert (out.2 = lst) as Hout.
    { destruct Hsh as [Hsh|[-> _]]; [|lia]. change (o :: rest ++ [lst]) with ((o :: rest) ++ [lst]) in Hsh.
      rewrite lookup_app_r in Hsh by (simpl; lia). replace (c - length (o :: rest)) with 0 in Hsh by (simpl; lia). by injection Hsh. }
    rewrite Hsize, Hout, (fill_output_first _ _ o) by (done || lia).
    exists (take (length lst) o), (rest ++ [lst]). split_and!; [|done..]. do 2 f_equal. rewrite length_take. lia.
Qed.

Lemma goto_from_spec cap cs caches chs outs :
  0 < cap → cs ≠ [] → Forall2 (chunk_view cap) caches chs → at_pos cs chs outs →
  ∃ cs' outs' fin, goto_from cs caches outs = Some (cs', outs', fin) ∧ length cs' = length cs ∧
    length outs' = length outs ∧
    if fin : bool then remaining cs chs outs.*2 = []
    else remaining cs chs outs.*2 = outs'.*2 :: remaining cs' chs outs'.*2 ∧ at_pos cs' chs outs'.
Proof.
  intros Hcap Hne Hv. revert cs outs Hne. induction Hv as [|cache ch caches chs Hview Hv IH];
    intros [|c cs] [|out outs] Hne Hpos; try done. destruct Hpos as (Hc & Hsh & Hsize & Hpos).
  cbn [goto_from remaining fmap list_fmap]. rewrite (cursorFinished_view cap _ _ ch) by (done || lia).
  case_bool_decide as Hge.
  - rewrite drop_ge by lia. cbn [fmap list_fmap app]. destruct (decide (cs = [])) as [->|Hcs].
    { eexists _, _, true. split_and!; [done..|]. by destruct chs, outs. }
    destruct (wrap_output cap cache ch c out) as (o & rest & -> & Hag & Hrest); [done|done|lia|done..|].
    cbn [mbind option_bind]. destruct (IH cs outs Hcs Hpos) as (cs' & outs' & fin & -> & Hl & Hlo & Hfin).
    cbn [mbind option_bind]. eexists _, _, fin. split_and!; [done|simpl; by f_equal..|]. destruct fin.
    + by rewrite Hfin.
    + destruct Hfin as [-> Hpos']. cbn [fmap list_fmap concat remaining at_pos snd fst]. rewrite Hag, Hrest. split; [done|].
      split_and!; [lia| |done..]. right. by rewrite Hag.
  - destruct (lookup_lt_is_Some_2 ch (S c)) as [o Ho]; [lia|].
    rewrite (fill_output_later _ _ _ o); [|lia|]; [|destruct Hview as [_ [n ->]]; by apply lookup_app_l_Some].
    cbn [mbind option_bind]. eexists _, _, false. split; [done|]. split; [done|]. split; [done|].
    cbn [fmap list_fmap remaining at_pos fst snd]. rewrite (drop_S _ _ _ Ho). split; [done|].
    split_and!; [lia|by left|done..].
Qed.

Lemma remaining_start chs outs :
  Forall2 (λ ch o, ch !! 0 = Some o) chs outs → emitted chs = outs :: remaining (replicate (length chs) 0) chs outs.
Proof.
  induction 1 as [|ch o chs outs Ho _ IH]; [done|]. cbn [emitted length replicate remaining]. rewrite IH.
  destruct ch as [|o1 ch]; [done|]. by injection Ho as ->.
Qed.

(** ** Products of chunks and of whole lists *)

Lemma concat_fmap_Permutation {A B} (f : A → list B) l l' :
  l ≡ₚ l' → concat (f <$> l) ≡ₚ concat (f <$> l').
Proof.
  induction 1 as [|x k k' _ IHk|x y k|k1 k2 k3 _ IH1 _ IH2]; simpl; [done|..].
  - by rewrite IHk.
  - rewrite !app_assoc. f_equiv. apply Permutation_app_comm.
  - by etrans.
Qed.

Lemma concat_fmap_ext {A B} (f g : A → list B) l :
  (∀ x, x ∈ l → f x ≡ₚ g x) → concat (f <$> l) ≡ₚ concat (g <$> l).
Proof.
  induction l as [|x l IH]; intros H; [done|]. cbn [fmap list_fmap concat].
  rewrite (H x) by (by left). rewrite IH; [done|]. intros y Hy. apply H. by right.
Qed.

Lemma cprod_Permutation {A} (ls ls' : list (list A)) : Forall2 Permutation ls ls' → cprod ls ≡ₚ cprod ls'.
Proof.
  induction 1 as [|l l' ls ls' Hl _ IH]; [done|]. cbn [cprod].
  rewrite (concat_fmap_Permutation _ _ _ IH). apply concat_fmap_ext. intros t _. by rewrite Hl.
Qed.

Lemma lengths_Permutation {A} (ls ls' : list (list A)) : Forall2 Permutation ls ls' → length <$> ls = length <$> ls'.
Proof. induction 1 as [|l l' ls ls' Hl _ IH]; [done|]. cbn [fmap list_fmap]. f_equal; [by apply Permutation_length|done]. Qed.

Lemma cprod_nil_in {A} (ls : list (list A)) : [] ∈ ls → cprod ls = [].
Proof.
  induction ls as [|l ls IH]; [set_solver|]. intros [<-|Hin]%elem_of_cons; cbn [cprod].
  - clear IH. induction (cprod ls) as [|t ts IHt]; [done|exact IHt].
  - by rewrite IH.
Qed.

Lemma concat_fmap_app {A B} (f g : A → list B) l :
  concat ((λ x, f x ++ g x) <$> l) ≡ₚ concat (f <$> l) ++ concat (g <$> l).
Proof.
  induction l as [|x l IH]; [done|]. cbn [fmap list_fmap concat]. rewrite IH.
  rewrite <-!app_assoc. f_equiv. rewrite !app_assoc. f_equiv. apply Permutation_app_comm.
Qed.

Lemma cprod_cons_concat {A} (ch : list (list A)) (t : list (list A)) :
  concat ((λ o, cprod (o :: t)) <$> ch) ≡ₚ cprod (concat ch :: t).
Proof.
  induction ch as [|o ch IH].
  - cbn [cprod concat]. induction (cprod t) as [|u us IHu]; [done|exact IHu].
  - cbn [fmap list_fmap concat]. rewrite IH. cbn [cprod concat].
    setoid_rewrite fmap_app. symmetry. apply (concat_fmap_app (λ u, (λ x, x :: u) <$> o) (λ u, (λ x, x :: u) <$> concat ch)).
Qed.

Lemma concat_concat_fmap {A B} (f : A → list B) (ls : list (list A)) :
  concat (f <$> concat ls) = concat ((λ l, concat (f <$> l)) <$> ls).
Proof.
  induction ls as [|l ls IH]; [done|]. cbn [concat fmap list_fmap]. by rewrite fmap_app, concat_app, IH.
Qed.

(** ** What the combinations of chunks lose *)

(** The numbers of values per build node for which the combinations are complete: of two nodes that
    both fill more than one vector, the earlier one fills its last vector. *)
Definition complete (cap : nat) (ns : list nat) : Prop :=
  ∀ j k nj nk, j < k → ns !! j = Some nj → ns !! k = Some nk → nj ≤ cap ∨ nj `mod` cap = 0 ∨ nk ≤ cap.

(** The number of values in a sequence of vectors. *)
Definition total (ch : list (list nodeID)) : nat := length (concat ch).

Lemma complete_nil cap : complete cap [].
Proof. by intros j k nj nk _ Hj. Qed.

Lemma complete_cons cap n ns :
  complete cap (n :: ns) ↔ complete cap ns ∧ ((n ≤ cap ∨ n `mod` cap = 0) ∨ Forall (λ k, k ≤ cap) ns).
Proof.
  split.
  - intros H. split; [intros j k nj nk Hjk Hj Hk; apply (H (S j) (S k)); [lia|done..]|].
    destruct (decide (n ≤ cap ∨ n `mod` cap = 0)) as [|Hn]; [by left|right]. apply Forall_lookup. intros k nk Hk.
    destruct (H 0 (S k) n nk) as [?|[?|?]]; [lia|done|done|naive_solver..].
  - intros [H1 H2] [|j] [|k] nj nk Hjk Hj Hk; try lia.
    + injection Hj as ->. rewrite Forall_lookup in H2. destruct H2 as [[?|?]|H2]; [auto..|]. right; right. by eapply H2.
    + apply (H1 j k); [lia|done..].
Qed.

Lemma length_concat_full {A} cap (ls : list (list A)) :
  Forall (λ w, length w = cap) ls → length (concat ls) = length ls * cap.
Proof. induction 1 as [|w ls Hw _ IH]; simpl; [done|]. by rewrite length_app, IH, Hw. Qed.

(** The values in the chunks and in those of a later pass. *)
Lemma chunks_count cap ch :
  0 < cap → chunks cap ch →
  0 < length (concat (again ch)) ≤ length (concat ch) ∧
  (length (concat (again ch)) = length (concat ch) ↔ length (concat ch) ≤ cap ∨ length (concat ch) `mod` cap = 0) ∧
  (length ch = 1 ↔ length (concat ch) ≤ cap).
Proof.
  intros Hcap Hch. pose proof Hch as (full & vec & Hfv & _ & Hv).
  destruct (again_cases cap ch Hch) as [(o & -> & ->)|(o & rest & lst & -> & -> & Ho & Hl & Hr)].
  - destruct full as [|? [|]]; simplify_eq/=. rewrite app_nil_r. split_and!; [lia..|split; auto; lia|lia].
  - cbn [concat length]. rewrite !concat_app, !length_app, (length_concat_full cap rest Hr), length_take. cbn [concat length].
    rewrite app_nil_r, Ho, Nat.min_l by lia. split_and!; [lia..| |split; lia].
    assert ((cap + (length rest * cap + length lst)) `mod` cap = length lst `mod` cap) as ->.
    { replace (cap + (length rest * cap + length lst)) with (length lst + (S (length rest)) * cap) by lia. apply Nat.Div0.mod_add. }
    destruct (decide (length lst = cap)) as [Hf|Hf].
    + rewrite Hf, Nat.Div0.mod_same. split; [auto|lia].
    + rewrite Nat.mod_small by lia. split; lia.
Qed.

Lemma length_cprod_cons {A} (l : list A) ls : length (cprod (l :: ls)) = length l * length (cprod ls).
Proof.
  cbn [cprod]. rewrite (length_concat_full (length l)); [rewrite length_fmap; lia|].
  apply Forall_fmap, Forall_forall. intros t _. apply length_fmap.
Qed.

Lemma length_concat_cprod {A} (l : list A) (ts : list (list (list A))) :
  length (concat ((λ t, cprod (l :: t)) <$> ts)) = length l * length (concat (cprod <$> ts)).
Proof.
  induction ts as [|t ts IH]; cbn [fmap list_fmap concat]; [simpl; lia|]. rewrite !length_app, length_cprod_cons, IH. lia.
Qed.

(** The tuples of the combinations in which one more node takes its chunks. *)
Lemma emitted_flat (ch : list (list nodeID)) ts :
  concat (cprod <$> concat ((λ t, (λ o, o :: t) <$> ch) <$> ts)) ≡ₚ concat ((λ t, cprod (concat ch :: t)) <$> ts).
Proof.
  rewrite concat_concat_fmap, <-list_fmap_compose. unfold compose. apply concat_fmap_ext. intros t _.
  rewrite <-list_fmap_compose. apply cprod_cons_concat.
Qed.

Lemma emitted_cons_flat ch chs t ts :
  emitted chs = t :: ts →
  concat (cprod <$> emitted (ch :: chs)) ≡ₚ cprod (concat ch :: t) ++ concat ((λ t, cprod (concat (again ch) :: t)) <$> ts).
Proof.
  intros E. cbn [emitted]. rewrite E, fmap_app, concat_app, emitted_flat. f_equiv.
  rewrite <-list_fmap_compose. apply cprod_cons_concat.
Qed.

Lemma concat_fmap_submseteq {A B} (f : A → list B) l l' : l ⊆+ l' → concat (f <$> l) ⊆+ concat (f <$> l').
Proof. intros [k Hp]%submseteq_Permutation. rewrite (concat_fmap_Permutation f _ _ Hp), fmap_app, concat_app. by apply submseteq_inserts_r. Qed.

Lemma cprod_submseteq_head {A} (l l' : list A) t : l ⊆+ l' → cprod (l :: t) ⊆+ cprod (l' :: t).
Proof.
  intros H. cbn [cprod]. induction (cprod t) as [|u us IH]; [done|]. cbn [fmap list_fmap concat].
  apply submseteq_app; [by apply fmap_submseteq|done].
Qed.

Lemma again_submseteq cap ch : chunks cap ch → concat (again ch) ⊆+ concat ch.
Proof.
  intros [(o & -> & ->)|(o & rest & lst & -> & -> & _)]%again_cases; [done|]. cbn [concat].
  apply submseteq_app; [|done]. apply sublist_submseteq, sublist_take.
Qed.

Lemma again_nonempty cap ch : 0 < cap → chunks cap ch → Forall (λ o, o ≠ []) (again ch).
Proof.
  intros Hcap Hch. destruct (chunks_nonempty cap ch Hcap Hch) as [_ Hne].
  destruct (again_cases cap ch Hch) as [(o & -> & ->)|(o & rest & lst & -> & -> & Ho & Hl & _)]; [done|].
  apply Forall_cons in Hne as [_ Hne]. constructor; [|done]. intros Hz%(f_equal length). rewrite length_take in Hz. simpl in Hz. lia.
Qed.

Lemma emitted_nonempty cap chs : 0 < cap → Forall (chunks cap) chs → Forall (λ t, cprod t ≠ []) (emitted chs).
Proof.
  intros Hcap. induction 1 as [|ch chs Hch _ IH]; [by repeat constructor|]. cbn [emitted].
  assert (∀ l t, Forall (λ o, o ≠ []) l → cprod t ≠ [] → Forall (λ t, cprod t ≠ []) ((λ o : list nodeID, o :: t) <$> l)) as Hrow.
  { intros l t Hl Ht. apply Forall_fmap. eapply Forall_impl; [done|]. intros o Ho Hz%(f_equal length).
    rewrite length_cprod_cons in Hz. destruct o, (cprod t); simpl in Hz; done. }
  destruct (emitted chs) as [|t ts]; [constructor|]. apply Forall_cons in IH as [Ht Hts]. apply Forall_app. split.
  - apply Hrow; [|done]. by apply (chunks_nonempty cap).
  - apply Forall_concat, Forall_fmap. eapply Forall_impl; [done|]. intros t' Ht'. apply Hrow; [by apply (again_nonempty cap)|done].
Qed.

Lemma emitted_single cap chs :
  0 < cap → Forall (chunks cap) chs → ∃ t ts, emitted chs = t :: ts ∧ (ts = [] ↔ Forall (λ n, n ≤ cap) (total <$> chs)).
Proof.
  intros Hcap. induction 1 as [|ch chs Hch _ (t & ts & E & Hone)]; [exists [], []; split; [done|]; split; constructor|].
  destruct (chunks_count cap ch Hcap Hch) as (_ & _ & Hsingle).
  assert (Forall (λ n, n ≤ cap) (total <$> ch :: chs) ↔ length ch = 1 ∧ ts = []) as Hall.
  { rewrite fmap_cons, Forall_cons. change (total ch) with (length (concat ch)). by rewrite Hone, Hsingle. }
  cbn [emitted]. rewrite E.
  destruct (again_cases cap ch Hch) as [(o & -> & ->)|(o & rest & lst & -> & -> & _)]; eexists _, _; (split; [done|]); rewrite Hall.
  - split; [|by intros [_ ->]]. intros H. split; [done|]. destruct ts; [done|]. simpl in H. done.
  - split; [|intros [H _]; simpl in H; rewrite length_app in H; simpl in H; lia].
    intros [H _]%app_nil. apply (fmap_nil_inv (λ o, o :: t) (rest ++ [lst])) in H. by destruct rest.
Qed.

(** Nothing is output that is not in the whole product, and nothing twice. *)
Lemma emitted_sub cap chs : Forall (chunks cap) chs → concat (cprod <$> emitted chs) ⊆+ cprod (@concat _ <$> chs).
Proof.
  induction 1 as [|ch chs Hch _ IH]; [done|]. destruct (emitted chs) as [|t ts] eqn:E.
  { cbn [emitted]. rewrite E. apply submseteq_nil_l. }
  rewrite (emitted_cons_flat ch chs t ts E).
  transitivity (concat ((λ t, cprod (concat ch :: t)) <$> t :: ts)).
  - cbn [fmap list_fmap concat]. apply submseteq_app; [done|]. clear -Hch. induction ts as [|u us IH]; [done|].
    cbn [fmap list_fmap concat]. apply submseteq_app; [|done]. by eapply cprod_submseteq_head, again_submseteq.
  - transitivity (concat ((λ u, (λ x, x :: u) <$> concat ch) <$> concat (cprod <$> t :: ts))).
    + by rewrite concat_concat_fmap, <-list_fmap_compose.
    + rewrite fmap_cons. cbn [cprod]. by apply concat_fmap_submseteq.
Qed.

(** Nothing is lost just when the numbers of values are [complete]. *)
Lemma emitted_count cap chs :
  0 < cap → Forall (chunks cap) chs →
  length (concat (cprod <$> emitted chs)) = length (cprod (@concat _ <$> chs)) ↔ complete cap (total <$> chs).
Proof.
  intros Hcap. induction 1 as [|ch chs Hch Hchs IH]; [split; [intros _; apply complete_nil|done]|].
  destruct (emitted_single cap chs Hcap Hchs) as (t & ts & E & Hone).
  destruct (chunks_count cap ch Hcap Hch) as (Hlen & Heq & _).
  pose proof (submseteq_length _ _ (emitted_sub cap chs Hchs)) as Hle.
  pose proof (emitted_nonempty cap chs Hcap Hchs) as Hne.
  rewrite (Permutation_length (emitted_cons_flat ch chs t ts E)), length_app, length_cprod_cons, length_concat_cprod.
  rewrite !fmap_cons, length_cprod_cons, complete_cons, <-Hone, <-IH. change (total ch) with (length (concat ch)).
  rewrite <-Heq. rewrite E in *. cbn [fmap list_fmap concat] in Hle |- *. rewrite length_app in Hle |- *.
  apply Forall_cons in Hne as [_ Hts].
  assert (ts = [] ↔ length (concat (cprod <$> ts)) = 0) as ->.
  { split; [by intros ->|]. intros Hz%length_zero_iff_nil. destruct ts as [|u us]; [done|]. cbn [fmap list_fmap concat] in Hz.
    apply app_nil in Hz as [Hz _]. by apply Forall_cons in Hts as [? _]. }
  generalize dependent (length (concat (cprod <$> ts))). generalize dependent (length (cprod (@concat _ <$> chs))).
  generalize (length (cprod t)). generalize dependent (length (concat ch)). generalize dependent (length (concat (again ch))).
  intros a n Ha _ p N X HN. split; [intros Hs; split; nia|intros [<- [->| ->]]; nia].
Qed.

(** ** The whole operator *)

Lemma cache_view cap cache id :
  0 < cap → cache_ok cap cache id → concat cache ≠ [] →
  ∃ ch, chunk_view cap cache ch ∧ concat ch = concat cache.
Proof.
  intros Hcap (full & vec & n & -> & _ & Hfull & Hle & Hvec) Hne.
  assert (vec ≠ []) as Hv.
  { destruct full as [|w full]; [|by apply Hvec]. intros ->. apply Hne. simpl. apply concat_replicate_nil. }
  exists (full ++ [vec]). split.
  - split; [|exists n; by rewrite <-app_assoc]. exists full, vec. split_and!; [done..| |done].
    destruct vec; [done|simpl; lia].
  - rewrite !concat_app. simpl. by rewrite concat_replicate_nil.
Qed.

(** The reference: every value as often as it is in the intersection. *)
Definition mw_ref (Rs : list (list nodeID)) : list nodeID :=
  concat ((λ v, replicate (isect Rs v) v) <$> remove_dups (concat Rs)).

Lemma occ_replicates (f : nodeID → nat) l v :
  NoDup l → occ v (concat ((λ x, replicate (f x) x) <$> l)) = if decide (v ∈ l) then f v else 0.
Proof.
  induction 1 as [|x l Hx _ IH]; [by rewrite decide_False by set_solver|].
  cbn [fmap list_fmap concat]. rewrite occ_app, IH, occ_replicate.
  destruct (decide (v = x)) as [->|Hne].
  - rewrite decide_False by done. rewrite decide_True by set_solver. lia.
  - simpl. destruct (decide (v ∈ l)); [rewrite decide_True by set_solver|rewrite decide_False by set_solver]; done.
Qed.

Lemma occ_mw_ref Rs v : Rs ≠ [] → occ v (mw_ref Rs) = isect Rs v.
Proof.
  intros Hne. unfold mw_ref. rewrite occ_replicates by apply NoDup_remove_dups.
  case_decide as Hin; [done|]. rewrite elem_of_remove_dups in Hin. destruct Rs as [|r Rs]; [done|].
  symmetry. apply (isect_zero _ r); [by left|]. apply occ_zero. intros Hv. apply Hin. cbn [concat]. set_solver.
Qed.

Lemma mw_ref_nil Rs : Rs ≠ [] → (∀ v, isect Rs v = 0) → mw_ref Rs = [].
Proof.
  intros Hne Hz. destruct (mw_ref Rs) as [|x l] eqn:E; [done|]. exfalso.
  assert (0 < occ x (mw_ref Rs)) as Hp by (rewrite E; simpl; rewrite decide_True by done; lia).
  rewrite occ_mw_ref, Hz in Hp by done. lia.
Qed.

Section Whole.
Context (hash : nodeID → Z).
Context (std_sort : list nodeID → list nodeID) (sort_order : list Z → list nat).
Context (cap : nat) (dyn : bool) (conn : Connectivity) (L R : nat).
Context (HTs : list ProbeTable) (build : list (list (nodeID * gmap nat nat))).
Context (m : gmap nat (list nodeID)).

(** The lists probe node [i] has for key [k] and build node [j], one per tuple of the build. *)
Definition neighbours (i : nat) (k : nodeID) (j : nat) : list (list nodeID) :=
  lists_of m (found build m i k j).

(** The lists that are intersected for build node [j]. *)
Definition to_join (keys : list nodeID) (j : nat) : list (list nodeID) :=
  (λ i, concat (neighbours i (default (mkID 0 0) (keys !! i)) j)) <$> right2left_idx conn L j.

(** The intersection for build node [j] given the probe keys. *)
Definition joined (keys : list nodeID) (j : nat) : list nodeID := mw_ref (to_join keys j).

(** The tuples the join has for one tuple of the probe side. *)
Definition join_row (keys : list nodeID) : list (list nodeID * list nodeID) :=
  (λ t, (keys, t)) <$> cprod (joined keys <$> seq 0 R).

Definition join_all (rows : list (list nodeID)) : list (list nodeID * list nodeID) :=
  concat (join_row <$> rows).

(** The tuples of a sequence of output batches. *)
Definition flatten (outs : list (list nodeID * list (list nodeID))) : list (list nodeID * list nodeID) :=
  concat ((λ o, (λ t, (o.1, t)) <$> cprod o.2) <$> outs).

(** What the operator relies on. *)
Record operator_ok (rows : list (list nodeID)) : Prop := {
  ok_cap : 0 < cap;
  ok_sort : ∀ l, std_sort l ≡ₚ l ∧ offset_sorted (std_sort l);
  ok_order : ∀ c, length c = R → sort_order c ≡ₚ seq 0 R;
  ok_len : length HTs = L;
  ok_right : 0 < R;
  ok_law : Forall2 (ProbeLaw hash) HTs build;
  ok_rows : ∀ i b, build !! i = Some b → rows_ok b (left2right_idx conn R i);
  ok_left2right : ∀ i, i < L → left2right_idx conn R i ≠ [];
  ok_right2left : ∀ j, j < R → right2left_idx conn L j ≠ [];
  ok_keys : ∀ keys, keys ∈ rows → length keys = L;
  ok_chunks : ∀ keys i k j, keys ∈ rows → keys !! i = Some k → chunks_ok (neighbours i k j);
  ok_fit : ∀ keys j, keys ∈ rows → j < R → counts_fit (to_join keys j)
}.

(** The operator outputs all the tuples of the join for a tuple of the probe side when there are
    none, or the numbers of common neighbours of its build nodes are [complete]. *)
Definition complete_row (keys : list nodeID) : Prop :=
  join_row keys = [] ∨ complete cap ((λ j, length (joined keys j)) <$> seq 0 R).

(** [out] are tuples of the join, each at most as often as in it, and all of them just when every
    tuple of the probe side is [complete_row]. *)
Definition covers (rows : list (list nodeID)) (out : list (list nodeID * list nodeID)) : Prop :=
  out ⊆+ join_all rows ∧ (length out = length (join_all rows) ↔ ∀ keys, keys ∈ rows → complete_row keys).

(** The invariant between two tuples of the probe side. *)
Record op_inv (st : IntersectMultiway) : Prop := {
  oi_mem : mem_equiv m (mem st);
  oi_len : length (cachedIntersectionResults st) = R;
  oi_caches : Forall (λ c, c ≠ []) (cachedIntersectionResults st);
  oi_cursors : length (tuple_cursors st) = R;
  oi_sizes : length (outSelSizes st) = R;
  oi_outs : length (outKeyVectors st) = R;
  oi_probed : length (probedIds st) = L
}.

Lemma op_inv_init : op_inv (initLocalStateInternal L R m).
Proof.
  split; simpl; [done|apply length_replicate| |apply length_replicate..]. by apply Forall_replicate.
Qed.

(** The state at one of the combinations of the chunks [chs]. *)
Record at_row (st : IntersectMultiway) (chs : list (list (list nodeID))) : Prop := {
  ar_inv : op_inv st;
  ar_view : Forall2 (chunk_view cap) (cachedIntersectionResults st) chs;
  ar_pos : at_pos (tuple_cursors st) chs (zip (outSelSizes st) (outKeyVectors st));
  ar_run : loop_finished st = false
}.

Lemma join_row_nil keys j : j < R → joined keys j = [] → join_row keys = [].
Proof.
  intros Hj Hnil. unfold join_row. rewrite cprod_nil_in; [done|]. rewrite <-Hnil.
  apply list_elem_of_fmap_2, elem_of_seq. lia.
Qed.

Lemma joined_nil rows keys i k j :
  operator_ok rows → i < L → keys !! i = Some k → j ∈ left2right_idx conn R i → found build m i k j = [] →
  join_row keys = [].
Proof.
  intros Hok Hi Hk [Hc Hj]%elem_of_left2right Hnil. apply (join_row_nil keys j Hj). unfold joined.
  apply mw_ref_nil; [by intros H%fmap_nil_inv; eapply ok_right2left|]. intros v.
  apply (isect_zero _ []); [|done]. apply list_elem_of_fmap. exists i. rewrite Hk. simpl.
  unfold neighbours. rewrite Hnil. split; [done|]. by apply elem_of_right2left.
Qed.

(** A successful probe leaves the state ready for the intersections of its tuple. *)
Lemma probe_ready rows keys st :
  operator_ok rows → keys ∈ rows → op_inv st →
  ∃ st' ok, probeHTs hash conn R HTs st keys = Some (st', ok) ∧ op_inv st' ∧
    if ok : bool then ready conn L R m st' ∧
      (∀ j, j < R → ∀ v, want conn L m st' j v = isect (to_join keys j) v)
    else join_row keys = [].
Proof.
  intros Hok Hin [Hm Hlen Hc Hcur Hsz Hout Hpr]. unfold probeHTs.
  pose proof (ok_keys _ Hok keys Hin) as Hkl. pose proof (ok_len _ Hok) as HL.
  destruct (probe_from_spec hash conn R HTs build (ok_law _ Hok) (ok_rows _ Hok)) with (m := mem st) (i := 0)
    (keys := keys) (probed := probedIds st) as (probed' & ok & -> & Hl' & _ & H); [|lia..|].
  { intros i Hi. apply (ok_left2right _ Hok). lia. }
  cbn [mbind option_bind]. eexists _, ok. split; [done|]. split; [split; simpl; try done; lia|].
  assert (∀ i k j, found build (mem st) i k j = found build m i k j) as Hfound.
  { intros i k j. unfold found. by apply live_equiv. }
  destruct ok.
  2:{ destruct H as (i & k & j & Hk & Hj & Hnil). simpl in *. rewrite Hfound in Hnil.
      eapply joined_nil; [done| |done..]. apply lookup_lt_Some in Hk. lia. }
  assert (∀ i j, i < L → j < R → hasConnection conn i j = true →
    probed_at (mkOp (mem st) probed' (cachedIntersectionResults st) (outSelSizes st) (outKeyVectors st) (tuple_cursors st) (loop_finished st)) i j =
      found build m i (default (mkID 0 0) (keys !! i)) j ∧
    found build m i (default (mkID 0 0) (keys !! i)) j ≠ [] ∧ ∃ k, keys !! i = Some k) as Hat.
  { intros i j Hi Hj Hcij. destruct (lookup_lt_is_Some_2 keys i) as [k Hk]; [lia|]. rewrite Hk. cbn [from_option id].
    destruct (H i k Hk) as [(row & Hrow & _ & Hrowj) Hne]. simpl in *.
    assert (j ∈ left2right_idx conn R i) as Hji by (by apply elem_of_left2right).
    unfold probed_at. cbn [probedIds]. rewrite Hrow. cbn [mbind option_bind]. rewrite Hrowj by done.
    rewrite decide_True by done. cbn [from_option id]. rewrite Hfound. split_and!; [done| |by eauto].
    rewrite <-Hfound. auto. }
  assert (∀ j, j < R → (λ i, concat (lists_of m (probed_at (mkOp (mem st) probed' (cachedIntersectionResults st) (outSelSizes st)
    (outKeyVectors st) (tuple_cursors st) (loop_finished st)) i j))) <$> right2left_idx conn L j = to_join keys j) as Hjoin.
  { intros j Hj. apply list_fmap_ext. intros a i Ha.
    apply list_elem_of_lookup_2, elem_of_right2left in Ha as [Hcij Hi]. destruct (Hat i j Hi Hj Hcij) as (-> & _). done. }
  split.
  - split; simpl; try done; [|intros j Hj; rewrite Hjoin by done; by apply (ok_fit _ Hok)].
    intros i j Hi Hj Hcij. destruct (Hat i j Hi Hj Hcij) as (-> & Hne & k & Hk).
    rewrite Hk in *. simpl in *. split_and!; [done| |by eapply ok_chunks].
    apply Forall_forall. intros p [Hp _]%list_elem_of_filter Hnil. apply Hp. unfold numElements. unfold lst in Hnil. by rewrite Hnil.
  - intros j Hj v. unfold want. by rewrite Hjoin.
Qed.

(** The intersections are complete: the chunks of the caches make up the lists of [joined]. *)
Lemma caches_view rows keys st :
  operator_ok rows → op_inv st →
  (∀ j, j < R → cached cap conn L m st j ∧
     ∃ cache, cachedIntersectionResults st !! j = Some cache ∧ concat cache ≠ []) →
  (∀ j, j < R → ∀ v, want conn L m st j v = isect (to_join keys j) v) →
  ∃ chs, Forall2 (chunk_view cap) (cachedIntersectionResults st) chs ∧
    Forall2 Permutation (@concat _ <$> chs) (joined keys <$> seq 0 R).
Proof.
  intros Hok [_ Hlen _ _ _ _ _] Hcached Hwant.
  assert (∀ j cache, cachedIntersectionResults st !! j = Some cache →
    ∃ ch, chunk_view cap cache ch ∧ concat ch ≡ₚ joined keys j) as Hview.
  { intros j cache Hj. pose proof (lookup_lt_Some _ _ _ Hj) as Hlt. rewrite Hlen in Hlt.
    destruct (Hcached j Hlt) as [(c1 & id & Hc1 & Hcok & _ & Hocc) (c2 & Hc2 & Hne)].
    rewrite Hj in Hc1, Hc2. injection Hc1 as <-. injection Hc2 as <-.
    destruct (cache_view cap cache id (ok_cap _ Hok) Hcok Hne) as (ch & Hv & Hcat). exists ch. split; [done|].
    rewrite Hcat. apply Permutation_occ. intros v. rewrite Hocc, Hwant by done. unfold joined.
    rewrite occ_mw_ref; [done|]. intros H%fmap_nil_inv. by apply (ok_right2left _ Hok j). }
  rewrite <-Hlen.
  clear -Hview. revert Hview. generalize (joined keys). induction (cachedIntersectionResults st) as [|cache caches IH]; intros f Hview.
  { exists []. split; constructor. }
  destruct (Hview 0 cache eq_refl) as (ch & Hv & Hp).
  destruct (IH (λ j, f (S j))) as (chs & Hvs & Hps). { intros j c Hj. apply (Hview (S j) c Hj). }
  exists (ch :: chs). split; [by constructor|]. cbn [length seq fmap list_fmap]. constructor; [done|].
  by rewrite <-fmap_S_seq, <-list_fmap_compose.
Qed.

(** The tuples output for one tuple of the probe side. *)
Lemma covers_row keys chs :
  0 < cap → Forall (chunks cap) chs → Forall2 Permutation (@concat _ <$> chs) (joined keys <$> seq 0 R) →
  covers [keys] ((λ t, (keys, t)) <$> concat (cprod <$> emitted chs)).
Proof.
  intros Hcap Hch Hp. unfold covers, join_all. cbn [fmap list_fmap concat]. rewrite app_nil_r. unfold join_row.
  pose proof (cprod_Permutation _ _ Hp) as Hcp. split.
  - apply fmap_submseteq. rewrite <-Hcp. by apply (emitted_sub cap).
  - rewrite !length_fmap, <-Hcp, (emitted_count cap chs Hcap Hch).
    assert (total <$> chs = (λ j, length (joined keys j)) <$> seq 0 R) as ->.
    { rewrite (list_fmap_compose (joined keys) length), <-(lengths_Permutation _ _ Hp). by rewrite <-list_fmap_compose. }
    unfold complete_row. split; [set_solver|]. intros H. destruct (H keys) as [Hnil|]; [by left| |done].
    exfalso. unfold join_row in Hnil. apply fmap_nil_inv in Hnil. rewrite Hnil in Hcp. apply Permutation_nil_r in Hcp.
    pose proof (emitted_nonempty cap chs Hcap Hch) as Hne. destruct (emitted_single cap chs Hcap Hch) as (t & ts & E & _).
    pose proof (emitted_sub cap chs Hch) as Hsub. rewrite Hcp in Hsub. apply submseteq_nil_r in Hsub.
    rewrite E in *. apply Forall_cons in Hne as [Hne _]. cbn [fmap list_fmap concat] in Hsub. by apply app_nil in Hsub as [? _].
Qed.

Lemma join_all_app rows1 rows2 : join_all (rows1 ++ rows2) = join_all rows1 ++ join_all rows2.
Proof. unfold join_all. by rewrite fmap_app, concat_app. Qed.

Lemma covers_app rows1 rows2 out1 out2 : covers rows1 out1 → covers rows2 out2 → covers (rows1 ++ rows2) (out1 ++ out2).
Proof.
  intros [H1 H2] [H3 H4]. unfold covers. rewrite join_all_app. split; [by apply submseteq_app|].
  rewrite !length_app. apply submseteq_length in H1, H3. setoid_rewrite elem_of_app.
  assert (length out1 + length out2 = length (join_all rows1) + length (join_all rows2) ↔
    length out1 = length (join_all rows1) ∧ length out2 = length (join_all rows2)) as -> by lia.
  rewrite H2, H4. naive_solver.
Qed.

Lemma covers_nil rows : join_all rows = [] → covers rows [].
Proof.
  intros Hnil. unfold covers. rewrite Hnil. split; [done|]. split; [|done]. intros _ keys Hk. left.
  apply list_elem_of_split in Hk as (l1 & l2 & ->). rewrite join_all_app in Hnil.
  apply app_nil in Hnil as [_ Hnil]. unfold join_all in Hnil. cbn [fmap list_fmap concat] in Hnil. by apply app_nil in Hnil as [? _].
Qed.

Lemma covers_Permutation rows out out' : out ≡ₚ out' → covers rows out → covers rows out'.
Proof. intros Hp. unfold covers. by rewrite Hp. Qed.

Lemma reset_spec st chs :
  op_inv st → Forall2 (chunk_view cap) (cachedIntersectionResults st) chs → 0 < cap →
  Forall2 (λ n cache, Some n = length <$> cache !! 0) (outSelSizes st) (cachedIntersectionResults st) →
  ∃ st', reset st = Some st' ∧ at_row st' chs ∧ tuple_cursors st' = replicate (length chs) 0 ∧
    Forall2 (λ ch o, ch !! 0 = Some o) chs (outKeyVectors st').
Proof.
  intros [Hm Hlen Hc Hcur Hsz Hout Hpr] Hv Hcap Hfirst. unfold reset.
  assert (∃ outs, mapM (λ '(size, cache), fill_output size cache 0) (zip (outSelSizes st) (cachedIntersectionResults st)) = Some outs ∧
    at_pos (replicate (length chs) 0) chs outs ∧ Forall2 (λ ch o, ch !! 0 = Some o) chs outs.*2 ∧ length outs = length chs)
    as (outs & -> & Hpos & H0 & Hlo).
  { clear -Hv Hcap Hfirst. revert Hfirst. generalize (outSelSizes st).
    induction Hv as [|cache ch caches chs Hview _ IH]; intros sizes Hfirst; inversion_clear Hfirst as [|n ? ns ? Hn Hns].
    { exists []. split_and!; constructor. }
    destruct (IH ns Hns) as (outs & Ho & Hp & H0 & Hlo). destruct Hview as [Hch [k ->]].
    destruct (chunks_nonempty cap ch Hcap Hch) as [Hne _]. destruct ch as [|o ch]; [done|].
    simpl in Hn. injection Hn as ->. cbn [zip zip_with mapM].
    rewrite (fill_output_first _ _ o), take_ge by done. cbn [mbind option_bind]. rewrite Ho. cbn [mbind option_bind].
    eexists. split; [done|]. cbn [at_pos length replicate fmap list_fmap fst snd]. split_and!; [lia|by left|done|done| |simpl; lia].
    by constructor. }
  cbn [mbind option_bind]. eexists; split; [done|].
  assert (length chs = R) as HR by (rewrite <-(Forall2_length _ _ _ Hv); congruence).
  assert (length (tuple_cursors st) = length chs) as -> by congruence.
  split; [|done]. split; simpl; try done; [|by rewrite zip_fst_snd].
  split; simpl; try done; [by rewrite length_replicate|rewrite length_fmap; congruence..].
Qed.

Lemma fetch_spec all rows st :
  operator_ok all → (∀ keys, keys ∈ rows → keys ∈ all) → op_inv st →
  ∃ st' rows' res, fetch hash std_sort sort_order cap dyn conn L R HTs st rows = Some (st', rows', res) ∧
    match res with
    | None => join_all rows = []
    | Some keys => ∃ pre chs, rows = pre ++ keys :: rows' ∧ join_all pre = [] ∧ at_row st' chs ∧
        tuple_cursors st' = replicate (length chs) 0 ∧ Forall2 (λ ch o, ch !! 0 = Some o) chs (outKeyVectors st') ∧
        Forall2 Permutation (@concat _ <$> chs) (joined keys <$> seq 0 R)
    end.
Proof.
  intros Hok. revert st. induction rows as [|keys rows IH]; intros st Hsub Hinv; cbn [fetch].
  { by eexists _, _, None. }
  assert (keys ∈ all) as Hin by (apply Hsub; by left).
  assert (∀ st1, op_inv st1 → join_row keys = [] →
    ∃ st' rows' res, fetch hash std_sort sort_order cap dyn conn L R HTs st1 rows = Some (st', rows', res) ∧
    match res with
    | None => join_all (keys :: rows) = []
    | Some keys' => ∃ pre chs, keys :: rows = pre ++ keys' :: rows' ∧ join_all pre = [] ∧ at_row st' chs ∧
        tuple_cursors st' = replicate (length chs) 0 ∧ Forall2 (λ ch o, ch !! 0 = Some o) chs (outKeyVectors st') ∧
        Forall2 Permutation (@concat _ <$> chs) (joined keys' <$> seq 0 R)
    end) as Hskip.
  { intros st1 Hinv1 Hnil. destruct (IH st1) as (st' & rows' & res & -> & Hres); [set_solver|done|].
    eexists _, _, res. split; [done|]. destruct res as [keys'|].
    - destruct Hres as (pre & chs & -> & Hpre & Hres). exists (keys :: pre), chs. split_and!; [done| |apply Hres..].
      unfold join_all. cbn [fmap list_fmap concat]. by rewrite Hnil.
    - unfold join_all. cbn [fmap list_fmap concat]. by rewrite Hnil. }
  destruct (probe_ready all keys st Hok Hin Hinv) as (st1 & ok & -> & Hinv1 & Hres). cbn [mbind option_bind].
  destruct ok; [|by apply Hskip]. destruct Hres as [Hready Hwant].
  assert (dynamic_order sort_order dyn conn L R st1 ≡ₚ seq 0 R) as Hord.
  { unfold dynamic_order. destruct dyn; [|done]. apply (ok_order _ Hok). unfold card_prod. by rewrite length_fmap, length_seq. }
  destruct (intersect_all_spec std_sort (ok_sort _ Hok) cap (ok_cap _ Hok) conn L R (ok_right2left _ Hok) m st1
    (dynamic_order sort_order dyn conn L R st1)) as (st2 & e & -> & Hready2 & Hframe & _ & He1 & He2); [| |done|].
  { rewrite Hord. apply NoDup_seq. }
  { intros j. rewrite Hord, elem_of_seq. lia. }
  cbn [mbind option_bind].
  assert (op_inv st2) as Hinv2.
  { destruct Hframe as (Hf1 & Hf2 & Hf3 & _), Hready2 as [? ? ? ? _ _], Hinv1 as [_ _ _ ? _ ? ?]. split; [done..|congruence|done|congruence|congruence]. }
  destruct e.
  - apply Hskip; [done|]. destruct (He1 eq_refl) as (j & Hj & Hz). rewrite Hord, elem_of_seq in Hj.
    apply (join_row_nil keys j); [lia|]. apply mw_ref_nil.
    + intros H%fmap_nil_inv. by apply (ok_right2left _ Hok j); [lia|].
    + intros v. rewrite <-Hwant by lia. apply Hz.
  - destruct (caches_view all keys st2 Hok Hinv2) as (chs & Hv & Hp).
    + intros j Hj. apply (He2 eq_refl). rewrite Hord, elem_of_seq. lia.
    + intros j Hj v. rewrite <-Hwant by done. unfold want, probed_at. by destruct Hframe as (-> & _).
    + destruct (reset_spec st2 chs Hinv2 Hv (ok_cap _ Hok)) as (st3 & -> & Hat & Hcur & H0).
      { apply Forall2_same_length_lookup_2; [by rewrite (oi_sizes _ Hinv2), (oi_len _ Hinv2)|].
        intros j n cache Hn Hj. destruct (He2 eq_refl j) as [(c & id & Hc & _ & Hs & _) _]; [|congruence].
        rewrite Hord, elem_of_seq. apply lookup_lt_Some in Hn. rewrite (oi_sizes _ Hinv2) in Hn. lia. }
      cbn [mbind option_bind].
      eexists _, _, (Some keys). split; [done|]. exists [], chs. done.
Qed.

Lemma flatten_cons keys outs rest :
  flatten ((keys, outs) :: rest) = ((λ t, (keys, t)) <$> cprod outs) ++ flatten rest.
Proof. done. Qed.

Lemma flatten_app o1 o2 : flatten (o1 ++ o2) = flatten o1 ++ flatten o2.
Proof. unfold flatten. by rewrite fmap_app, concat_app. Qed.

Lemma flatten_row keys combos :
  flatten ((λ o, (keys, o)) <$> combos) = (λ t, (keys, t)) <$> concat (cprod <$> combos).
Proof.
  induction combos as [|o combos IH]; [done|]. cbn [fmap list_fmap concat].
  rewrite flatten_cons, fmap_app. f_equal. apply IH.
Qed.

#[local] Abbreviation drain' := (drain hash std_sort sort_order cap dyn conn L R HTs).
#[local] Abbreviation fetch' := (fetch hash std_sort sort_order cap dyn conn L R HTs).

Lemma output_at_pos st chs : op_inv st → at_pos (tuple_cursors st) chs (zip (outSelSizes st) (outKeyVectors st)) →
  output_vectors st = outKeyVectors st.
Proof.
  intros [_ _ _ _ Hsz Hout _]. unfold output_vectors. rewrite <-Hout in Hsz. clear Hout. revert Hsz.
  generalize (outSelSizes st), (outKeyVectors st), (tuple_cursors st). intros ns. revert chs.
  induction ns as [|n ns IH]; intros chs [|o os] cs Hlen Hpos; try done. destruct cs, chs; try done.
  destruct Hpos as (_ & _ & Hn & Hpos). simpl in Hn, Hlen. cbn [zip_with]. f_equal; [rewrite take_ge; [done|lia]|].
  eapply IH; [lia|done].
Qed.

(** From a fetch on, the operator outputs the remaining tuples. *)
Definition drains (rows : list (list nodeID)) : Prop :=
  ∀ st, op_inv st → ∃ st' rows' res, fetch' st rows = Some (st', rows', res) ∧
    match res with
    | None => covers rows []
    | Some keys => ∃ fuel outs, drain' fuel st' rows' keys = Some outs ∧
        covers rows (flatten ((keys, output_vectors st') :: outs))
    end.

(** From a combination of chunks on: the remaining combinations, then the remaining tuples. *)
Lemma drain_row rows keys chs n st :
  0 < cap → 0 < R → drains rows → at_row st chs → length (remaining (tuple_cursors st) chs (outKeyVectors st)) ≤ n →
  ∃ fuel outs out, drain' fuel st rows keys = Some outs ∧ covers rows out ∧
    flatten outs = flatten ((λ o, (keys, o)) <$> remaining (tuple_cursors st) chs (outKeyVectors st)) ++ out.
Proof.
  intros Hcap HR Hrows. revert st. induction n as [n IH] using lt_wf_ind. intros st [Hinv Hv Hpos Hrun] Hn.
  assert ((zip (outSelSizes st) (outKeyVectors st)).*2 = outKeyVectors st) as Hsnd.
  { apply snd_zip. destruct Hinv. lia. }
  destruct (goto_from_spec cap (tuple_cursors st) (cachedIntersectionResults st) chs (zip (outSelSizes st) (outKeyVectors st)))
    as (cs & outs & fin & Hgo & Hlen & Hlo & Hfin); [done| |done..|].
  { intros Hnil. pose proof (oi_cursors _ Hinv) as Hc. rewrite Hnil in Hc. simpl in Hc. lia. }
  rewrite length_zip_with in Hlo. rewrite Hsnd in Hfin.
  set (st1 := mkOp (mem st) (probedIds st) (cachedIntersectionResults st) outs.*1 outs.*2 cs fin).
  assert (gotoNext st = Some st1) as Hnext by (unfold gotoNext; by rewrite Hgo).
  assert (op_inv st1) as Hinv1 by (destruct Hinv; split; simpl; try rewrite length_fmap; done || lia).
  destruct fin.
  - destruct (Hrows st1 Hinv1) as (st' & rows' & res & Hf & Hres). rewrite Hfin. simpl.
    destruct res as [keys'|].
    + destruct Hres as (fuel & outs' & Hd & Hp). exists (S fuel). eexists _, _. split_and!; [|exact Hp|done].
      cbn [drain]. unfold getNextTuplesInternal. rewrite Hrun, Hnext. cbn [mbind option_bind loop_finished st1].
      rewrite Hf. cbn [mbind option_bind]. by rewrite Hd.
    + exists 1, [], []. split_and!; [|done..].
      cbn [drain]. unfold getNextTuplesInternal. rewrite Hrun, Hnext. cbn [mbind option_bind loop_finished st1].
      by rewrite Hf.
  - destruct Hfin as [Hrem Hpos1]. rewrite Hrem in Hn. simpl in Hn.
    assert (at_row st1 chs) as Hat by (split; [done|done| |done]; simpl; by rewrite zip_fst_snd).
    destruct (IH (length (remaining cs chs outs.*2))) with (st := st1) as (fuel & outs' & out & Hd & Hc & Hp);
      [lia|done|done|].
    exists (S fuel). eexists _, out. split_and!; [|done|].
    + cbn [drain]. unfold getNextTuplesInternal. rewrite Hrun, Hnext. cbn [mbind option_bind loop_finished st1].
      rewrite Hd. done.
    + rewrite Hrem. cbn [fmap list_fmap]. rewrite !flatten_cons, Hp, app_assoc.
      by rewrite (output_at_pos st1 chs) by (done || apply Hat).
Qed.

Lemma drains_all all rows :
  operator_ok all → (∀ keys, keys ∈ rows → keys ∈ all) → drains rows.
Proof.
  intros Hok. remember (length rows) as n eqn:Hn. revert rows Hn.
  induction n as [n IH] using lt_wf_ind. intros rows -> Hsub st Hinv.
  destruct (fetch_spec all rows st Hok Hsub Hinv) as (st' & rows' & res & -> & Hres).
  eexists _, _, res. split; [done|]. destruct res as [keys|]; [|by apply covers_nil].
  destruct Hres as (pre & chs & Hrows & Hpre & Hat & Hcur & H0 & Hp).
  assert (drains rows') as Hd.
  { apply (IH (length rows')); [|done|].
    - rewrite Hrows, length_app. simpl. lia.
    - intros k Hk. apply Hsub. rewrite Hrows. set_solver. }
  destruct (drain_row rows' keys chs _ st' (ok_cap _ Hok) (ok_right _ Hok) Hd Hat (reflexivity _)) as (fuel & outs & out & Hdr & Hc & Hflat).
  exists fuel, outs. split; [done|]. rewrite flatten_cons, Hflat, app_assoc.
  rewrite (output_at_pos st' chs) by apply Hat. rewrite Hcur, <-flatten_cons.
  change ((keys, outKeyVectors st') :: _) with ((λ o, (keys, o)) <$> outKeyVectors st' :: remaining (replicate (length chs) 0) chs (outKeyVectors st')).
  rewrite <-(remaining_start _ _ H0), flatten_row, Hrows.
  change (pre ++ keys :: rows') with (pre ++ [keys] ++ rows'). rewrite <-(app_nil_l (_ ++ out)).
  apply covers_app; [by apply covers_nil|]. apply covers_app; [|done].
  apply covers_row; [apply (ok_cap _ Hok)| |done]. eapply Forall2_Forall_r; [apply (ar_view _ _ Hat)|].
  apply Forall_forall. by intros cache _ ch [? _].
Qed.

Lemma drain_join rows cur :
  operator_ok rows →
  ∃ fuel outs, drain' fuel (initLocalStateInternal L R m) rows cur = Some outs ∧ covers rows (flatten outs).
Proof.
  intros Hok. destruct (drains_all rows rows Hok ltac:(done) _ op_inv_init) as (st' & rows' & res & Hf & Hres).
  destruct res as [keys|].
  - destruct Hres as (fuel & outs & Hd & Hp). exists (S fuel). eexists. split; [|exact Hp].
    cbn [drain]. unfold getNextTuplesInternal. cbn [initLocalStateInternal loop_finished] in *.
    rewrite Hf. cbn [mbind option_bind]. by rewrite Hd.
  - exists 1, []. split; [|done]. cbn [drain]. unfold getNextTuplesInternal.
    cbn [initLocalStateInternal loop_finished] in *. by rewrite Hf.
Qed.

(** C9. The operator computes the join, up to the tuples it loses on large intersections. Given hash
    tables that satisfy the law of the build side, tuples of the child with one key per probe node,
    for each probed key and build node lists of one node table whose chunks are ordered by offset,
    and multiplicities below [2 ^ 64], calling [getNextTuplesInternal] until it returns false ends,
    and the batches it outputs, each the Cartesian product of its vectors, are rows of the join, each
    at most as often as in it: a child tuple combined with a choice of one common neighbour per build
    node, with the multiplicity of the choice, whatever order the build nodes are intersected in.
    They are all the rows of the join exactly when, for each child tuple that has rows, of any two
    build nodes that both have more common neighbours than a vector holds, the number of those of the
    earlier one is a multiple of the capacity of a vector. Otherwise rows are lost: the first cached
    vector shares its size with the output vector, so when the cursor of the earlier node wraps
    around, the first vector is output only up to the size of the last one. *)
Theorem operator_computes_join rows cur :
  operator_ok rows →
  ∃ fuel outs, drain hash std_sort sort_order cap dyn conn L R HTs fuel (initLocalStateInternal L R m) rows cur = Some outs ∧
    flatten outs ⊆+ join_all rows ∧
    (flatten outs ≡ₚ join_all rows ↔
      ∀ keys, keys ∈ rows → join_row keys = [] ∨ complete cap ((λ j, length (joined keys j)) <$> seq 0 R)).
Proof.
  intros Hok. destruct (drain_join rows cur Hok) as (fuel & outs & Hd & Hsub & Hall).
  exists fuel, outs. split_and!; [done..|]. fold (complete_row). rewrite <-Hall. split; [by intros ->|].
  intros Hlen. apply submseteq_length_Permutation; [done|lia].
Qed.

End Whole.

(** ** A small instance: two probe nodes, two build nodes, vectors of two values *)

Definition by_offset (a b : nodeID) : Prop := (offset a ≤ offset b)%Z.

#[export] Instance by_offset_dec a b : Decision (by_offset a b).
Proof. unfold by_offset. apply _. Defined.

#[export] Instance by_offset_total : Total by_offset.
Proof. intros a b. unfold by_offset. lia. Qed.

#[export] Instance by_offset_trans : Transitive by_offset.
Proof. intros a b c. unfold by_offset. lia. Qed.

Definition sample_conn : Connectivity := [[true; true]; [true; true]].

Definition sample_rows : list (list (nodeID * gmap nat nat)) :=
  [[(mkID 0 0, {[0 := 0; 1 := 1]}); (mkID 7 0, {[0 := 2; 1 := 3]})]; [(mkID 1 0, {[0 := 4; 1 := 5]})]].

Definition sample_HTs : list ProbeTable :=
  (λ b, mkProbeTable (length b) (λ _, Some (reverse b))) <$> sample_rows.

Definition sample_mem : gmap nat (list nodeID) :=
  {[0 := [mkID 5 0; mkID 2 0; mkID 3 0]; 1 := [mkID 4 0; mkID 9 0];
    2 := [mkID 5 0; mkID 2 0; mkID 3 0]; 3 := [mkID 8 0; mkID 6 0; mkID 4 0];
    4 := [mkID 3 0; mkID 4 0; mkID 2 0; mkID 5 0]; 5 := [mkID 4 0; mkID 6 0; mkID 8 0]]}.

(** The tuples of the child: the first one has three common neighbours at the first build node and
    one at the second, the second one three at both. *)
Definition sample_keys : list (list nodeID) := [[mkID 0 0; mkID 1 0]; [mkID 7 0; mkID 1 0]].

Lemma sample_law : Forall2 (ProbeLaw offset) sample_HTs sample_rows.
Proof.
  unfold sample_HTs. apply Forall2_fmap_l, Forall_Forall2_diag, Forall_forall. intros b _. split; simpl; [done|].
  intros k _. eexists. split; [done|]. by rewrite filter_reverse.
Qed.

Lemma sample_table p : Forall (λ x, tableID x = 0%Z) (default [] (sample_mem !! p)).
Proof.
  assert (map_Forall (λ _, Forall (λ x, tableID x = 0%Z)) sample_mem) as H by by_eval.
  destruct (sample_mem !! p) eqn:E; [by apply (H p)|constructor].
Qed.

Lemma sample_single keys i k :
  keys ∈ sample_keys → keys !! i = Some k → length (filter (λ t, t.1 = k) (default [] (sample_rows !! i))) ≤ 1.
Proof.
  intros Hkeys Hk. apply list_elem_of_lookup in Hkeys as [n Hn].
  destruct n as [|[|n]]; simplify_eq/=; destruct i as [|[|i]]; simplify_eq/=; vm_compute; lia.
Qed.

Lemma sample_chunks keys i k j :
  keys ∈ sample_keys → keys !! i = Some k → chunks_ok (neighbours sample_rows sample_mem i k j).
Proof.
  intros Hkeys Hk. unfold neighbours, lists_of. split.
  - exists 0%Z. intros l x Hin Hx. apply list_elem_of_fmap in Hin as (p & -> & _).
    pose proof (sample_table p) as H. rewrite Forall_forall in H. by apply H.
  - pose proof (sample_single keys i k Hkeys Hk). intros a b la lb x y Ha Hb Hab. apply lookup_lt_Some in Ha, Hb.
    rewrite length_fmap in Ha, Hb. unfold found, live in *.
    pose proof (length_filter (λ p, numElements sample_mem p ≠ 0) (ptrs_of (default [] (sample_rows !! i)) k j)).
    unfold ptrs_of in *. pose proof (length_omap_le (λ t : nodeID * gmap nat nat, t.2 !! j) (filter (λ t, t.1 = k) (default [] (sample_rows !! i)))). lia.
Qed.

Lemma sample_tuples i b t j : sample_rows !! i = Some b → t ∈ b → j < 2 → is_Some (t.2 !! j).
Proof.
  intros Hb Ht Hj. assert (Forall (Forall (λ t, Forall (λ j, is_Some (t.2 !! j)) [0; 1])) sample_rows) as H by by_eval.
  rewrite Forall_lookup in H. specialize (H i b Hb). rewrite Forall_forall in H. specialize (H t Ht).
  rewrite Forall_forall in H. apply H. destruct j as [|[|j]]; [by left|right; by left|lia].
Qed.

Lemma sample_fit keys j : keys ∈ sample_keys → j < 2 → counts_fit (to_join sample_conn 2 sample_rows sample_mem keys j).
Proof.
  intros Hkeys Hj. apply counts_fit_NoDup.
  assert (Forall (λ keys, Forall (λ j, Forall NoDup (to_join sample_conn 2 sample_rows sample_mem keys j)) [0; 1]) sample_keys) as H by by_eval.
  rewrite Forall_forall in H. specialize (H keys Hkeys). rewrite Forall_forall in H. apply H.
  destruct j as [|[|j]]; [by left|right; by left|lia].
Qed.

Lemma sample_operator_ok rows : (∀ keys, keys ∈ rows → keys ∈ sample_keys) →
  operator_ok offset (merge_sort by_offset) (λ c, seq 0 (length c)) 2 sample_conn 2 2 sample_HTs sample_rows sample_mem rows.
Proof.
  intros Hsub. split.
  - lia.
  - intros l. split; [apply merge_sort_Permutation|]. apply (StronglySorted_merge_sort by_offset).
  - by intros c ->.
  - done.
  - lia.
  - apply sample_law.
  - intros i b Hb t j Ht Hj. apply elem_of_left2right in Hj as [_ Hj]. by eapply sample_tuples.
  - intros [|[|i]] Hi; [done..|lia].
  - intros [|[|j]] Hj; [done..|lia].
  - intros keys Hk%Hsub. repeat (apply elem_of_cons in Hk as [->|Hk]; [done|]). by apply elem_of_nil in Hk.
  - intros keys i k j Hk%Hsub. by apply sample_chunks.
  - intros keys j Hk%Hsub. by apply sample_fit.
Qed.

Lemma operator_computes_join_witness :
  ∃ fuel outs,
    drain offset (merge_sort by_offset) (λ c, seq 0 (length c)) 2 true sample_conn 2 2 sample_HTs fuel
      (initLocalStateInternal 2 2 sample_mem) sample_keys [] = Some outs ∧
    flatten outs ⊆+ join_all sample_conn 2 2 sample_rows sample_mem sample_keys ∧
    (flatten outs ≡ₚ join_all sample_conn 2 2 sample_rows sample_mem sample_keys ↔
      ∀ keys, keys ∈ sample_keys → join_row sample_conn 2 2 sample_rows sample_mem keys = [] ∨
        complete 2 ((λ j, length (joined sample_conn 2 sample_rows sample_mem keys j)) <$> seq 0 2)).
Proof.
  apply (operator_computes_join offset (merge_sort by_offset) (λ c, seq 0 (length c)) 2 true sample_conn 2 2
    sample_HTs sample_rows sample_mem), sample_operator_ok. done.
Defined.

(** On the sample the first tuple gets its three rows, the second one, with three common neighbours
    at both nodes and vectors of two values, eight of its nine: at the second pass over the vectors
    [2, 3] and [5] of the first node, only the 2 of the first vector is output. *)
Theorem sample_output :
  drain offset (merge_sort by_offset) (λ c, seq 0 (length c)) 2 true sample_conn 2 2 sample_HTs 10
    (initLocalStateInternal 2 2 sample_mem) sample_keys [] =
  Some (map (λ '(k, l), ([mkID k 0; mkID 1 0], map (map (λ o, mkID o 0)) l))
    [(0, [[2; 3]; [4]]); (0, [[5]; [4]]);
     (7, [[2; 3]; [4; 6]]); (7, [[5]; [4; 6]]); (7, [[2]; [8]]); (7, [[5]; [8]])]%Z) ∧
  length (join_all sample_conn 2 2 sample_rows sample_mem sample_keys) = 12.
Proof. split; by vm_compute. Qed.
