(* ===== verification/MultiwayBuild.v ===== *)
(** The build side of the multiway join ([IntersectMultiwayBuild] of
    [src/src/include/processor/operator/intersect/intersect_multiway_build.h]): the payloads of
    consecutive tuples with one key are cached in vectors of bounded capacity and dumped, chunk
    by chunk, as tuples of the hash table. *)

From S2P Require Import Prelude InternalId FactorizedTable JoinHashTable MultiwayIntersect MultiwayOperator.

(** What one call of the child's [getNextTuple] does to the vectors: the selected key, and per
    payload vector a new selection, or [None] when the vector is left as it is. *)
Record ChildTuple := mkChild { ct_key : nodeID; ct_payloads : list (option (list nodeID)) }.

Section Build.
Context (zero : nodeID * list nat * Z) (hash : nodeID → Z) (cap : nat).

(** [payloadVectors] are the selected values of the child's payload vectors, [cachedKey] those of
    the cached key vector, [bmem] the overflow memory of the table, filled from [next] on. *)
Record IntersectMultiwayBuild := mkBuild {
  keyVector : list nodeID;
  payloadVectors : list (list nodeID);
  cachedKey : list nodeID;
  cachedPayloadVectors : list (list (list nodeID));
  hashTable : JoinHashTable (K := nodeID) (P := list nat);
  bmem : gmap nat (list nodeID);
  next : nat
}.

Definition set_caches (b : IntersectMultiwayBuild) (k : list nodeID) (c : list (list (list nodeID))) :=
  mkBuild (keyVector b) (payloadVectors b) k c (hashTable b) (bmem b) (next b).

(** [-1u] in a [size_t]. *)
Definition done_idx : Z := 2 ^ 32 - 1.

(** [appendVectors] with unflat payloads: each list is copied to the overflow memory. *)
Definition append_row (b : IntersectMultiwayBuild) (keys : list nodeID) (payloads : list (list nodeID)) :
    option IntersectMultiwayBuild :=
  let ptrs := seq (next b) (length payloads) in
  ht ← appendVectors zero hash (hashTable b) ((λ k, (k, ptrs)) <$> keys);
  Some (mkBuild (keyVector b) (payloadVectors b) (cachedKey b) (cachedPayloadVectors b) ht
    (list_to_map (zip ptrs payloads) ∪ bmem b) (next b + length payloads)).

(** [append_payloads[i] = cachedPayloadVectors[i][indices[i] == -1u ? 0 : indices[i]]]. *)
Definition pick (cache : list (list nodeID)) (idx : Z) : option (list nodeID) :=
  cache !! Z.to_nat (if decide (idx = done_idx) then 0 else idx).

(** The update of one index: past the cached vectors it becomes [-1u] and the first vector is
    emptied. The flag is [has_unfinished]. *)
Definition advance (cache : list (list nodeID)) (idx : Z) : list (list nodeID) * Z * bool :=
  let idx := u64 (idx + 1) in
  if decide (Z.of_nat (length cache) ≤ idx)%Z
  then (<[0 := []]> cache, done_idx, false)
  else if decide (length (default [] (cache !! Z.to_nat idx)) = 0)
  then (<[0 := []]> cache, done_idx, false)
  else (cache, idx, true).

(** The [do ... while (has_unfinished)] loop. *)
Fixpoint dump_loop (fuel : nat) (b : IntersectMultiwayBuild) (indices : list Z) :
    option IntersectMultiwayBuild :=
  match fuel with
  | 0 => None
  | S fuel =>
      payloads ← mapM (λ ci, pick ci.1 ci.2) (zip (cachedPayloadVectors b) indices);
      b ← append_row b (cachedKey b) payloads;
      let steps := (λ ci, advance ci.1 ci.2) <$> zip (cachedPayloadVectors b) indices in
      let b := set_caches b (cachedKey b) ((λ s, s.1.1) <$> steps) in
      if existsb (λ s, s.2) steps then dump_loop fuel b ((λ s, s.1.2) <$> steps) else Some b
  end.

Definition dumpCachedKeyPayloads (b : IntersectMultiwayBuild) : option IntersectMultiwayBuild :=
  let skip_dumping := bool_decide (length (cachedKey b) = 0) ||
    existsb (λ cache, bool_decide (length (default [] (cache !! 0)) = 0)) (cachedPayloadVectors b) in
  b ← (if skip_dumping then Some b
       else dump_loop (S (length (concat (cachedPayloadVectors b)))) b
              (replicate (length (cachedPayloadVectors b)) 0%Z));
  Some (set_caches b [] (fmap (M := list) (λ _, []) <$> cachedPayloadVectors b)).

(** The first cached vector with room, or a new one. *)
Fixpoint cache_value (cache : list (list nodeID)) (v : nodeID) : list (list nodeID) :=
  match cache with
  | [] => [[v]]
  | w :: cache => if decide (length w < cap) then (w ++ [v]) :: cache else w :: cache_value cache v
  end.

Definition cacheKeyPayloads (b : IntersectMultiwayBuild) (is_new_key : bool) : IntersectMultiwayBuild :=
  let key := if is_new_key then cachedKey b ++ keyVector b else cachedKey b in
  mkBuild (keyVector b) ((λ _, []) <$> payloadVectors b) key
    (zip_with (λ cache src, foldl cache_value cache src) (cachedPayloadVectors b) (payloadVectors b))
    (hashTable b) (bmem b) (next b).

(** The vectors after the child's [getNextTuple]. *)
Definition receive (b : IntersectMultiwayBuild) (t : ChildTuple) : IntersectMultiwayBuild :=
  mkBuild [ct_key t] (zip_with (λ old new, default old new) (payloadVectors b) (ct_payloads t))
    (cachedKey b) (cachedPayloadVectors b) (hashTable b) (bmem b) (next b).

(** The body of the loop of [executeInternal]. *)
Definition execute_step (b : IntersectMultiwayBuild) (t : ChildTuple) : option IntersectMultiwayBuild :=
  let b := receive b t in
  let is_new_key := match cachedKey b with
                    | [] => true
                    | k :: _ => negb (bool_decide (head (keyVector b) = Some k))
                    end in
  b ← (if is_new_key then dumpCachedKeyPayloads b else Some b);
  Some (cacheKeyPayloads b is_new_key).

(** [executeInternal] up to the merge into the shared table. *)
Definition execute (b : IntersectMultiwayBuild) (child : list ChildTuple) : option IntersectMultiwayBuild :=
  b ← ofold execute_step b child; dumpCachedKeyPayloads b.

(** [initLocalStateInternal] for [n] payload vectors. *)
Definition initBuild (n : nat) (ht : JoinHashTable (K := nodeID) (P := list nat)) : IntersectMultiwayBuild :=
  mkBuild [] (replicate n []) [] (replicate n [[]]) ht ∅ 0.

End Build.

(** ** Appending rows *)

Section BuildProofs.
Context (zero : nodeID * list nat * Z) (hash : nodeID → Z) (cap : nat) (Hcap : 0 < cap).

(** The rows of the table, with the lists they point to. *)
Definition view (b : IntersectMultiwayBuild) : list (nodeID * list (list nodeID)) :=
  (λ r, (r.1, lists_of (bmem b) r.2)) <$> rows (hashTable b).

(** The table is being filled and its rows point to memory already written. *)
Record build_ok (b : IntersectMultiwayBuild) : Prop := {
  bk_filling : filling hash (hashTable b);
  bk_ptrs : ∀ r p, r ∈ rows (hashTable b) → p ∈ r.2 → p < next b
}.

Definition same_vectors (b b' : IntersectMultiwayBuild) : Prop :=
  keyVector b' = keyVector b ∧ payloadVectors b' = payloadVectors b ∧ cachedKey b' = cachedKey b ∧
  cachedPayloadVectors b' = cachedPayloadVectors b.

Lemma written_new start (payloads : list (list nodeID)) (m : gmap nat (list nodeID)) :
  lists_of (list_to_map (zip (seq start (length payloads)) payloads) ∪ m) (seq start (length payloads)) = payloads.
Proof.
  apply list_eq. intros i. unfold lists_of. rewrite list_lookup_fmap.
  destruct (payloads !! i) as [l|] eqn:E.
  - pose proof (lookup_lt_Some _ _ _ E). rewrite lookup_seq_lt by done. simpl.
    rewrite (lookup_union_Some_l _ _ _ l); [done|]. apply elem_of_list_to_map_1.
    + rewrite fst_zip by (rewrite length_seq; done). apply NoDup_seq.
    + apply list_elem_of_lookup. exists i. apply lookup_zip_with_Some. eexists _, _. split_and!; [done| |done].
      by apply lookup_seq_lt.
  - apply lookup_ge_None in E. by rewrite lookup_seq_ge by done.
Qed.

Lemma written_old start (payloads : list (list nodeID)) (m : gmap nat (list nodeID)) ps :
  (∀ p, p ∈ ps → p < start) →
  lists_of (list_to_map (zip (seq start (length payloads)) payloads) ∪ m) ps = lists_of m ps.
Proof.
  intros Hps. unfold lists_of. apply list_fmap_ext. intros i p Hp%list_elem_of_lookup_2. f_equal.
  apply lookup_union_r, not_elem_of_list_to_map_1. rewrite fst_zip by (rewrite length_seq; done).
  rewrite elem_of_seq. specialize (Hps p Hp). lia.
Qed.

Lemma append_row_Some b k payloads :
  build_ok b →
  ∃ b', append_row zero hash b [k] payloads = Some b' ∧ build_ok b' ∧ same_vectors b b' ∧
    view b' = view b ++ [(k, payloads)].
Proof.
  intros [Hf Hp]. unfold append_row.
  destruct (appendVectors_Some zero hash (hashTable b) [(k, seq (next b) (length payloads))] Hf)
    as (ht & Happ & Hf' & Hrows & _). cbn [fmap list_fmap]. rewrite Happ. cbn [mbind option_bind].
  eexists; split; [done|]. split_and!; [split| |]; cbn [hashTable next bmem].
  - done.
  - intros r p. rewrite Hrows. intros [Hr|Hr%list_elem_of_singleton]%elem_of_app Hpr.
    + specialize (Hp r p Hr Hpr). lia.
    + subst r. simpl in Hpr. apply elem_of_seq in Hpr. lia.
  - by split_and!.
  - unfold view. cbn [hashTable bmem]. rewrite Hrows, fmap_app. cbn [fmap list_fmap fst snd].
    rewrite written_new. f_equal. apply list_fmap_ext. intros i r Hr%list_elem_of_lookup_2. f_equal.
    apply written_old. intros p. by apply Hp.
Qed.

(** ** Dumping the chunks of one key *)

(** No values at position [c] of a cache. *)
Definition vec_empty (cache : list (list nodeID)) (c : nat) : bool :=
  match cache !! c with
  | None => true
  | Some v => bool_decide (length v = 0)
  end.

(** [ch] are the non-empty vectors of a payload's cache, which come first. *)
Definition payload_view (cache ch : list (list nodeID)) : Prop :=
  ch ≠ [] ∧
  (∀ c, c < length ch → cache !! c = ch !! c ∧ vec_empty cache c = false) ∧
  ∀ c, length ch ≤ c → vec_empty cache c = true.

Lemma chunk_payload_view n cache ch : 0 < n → chunk_view n cache ch → payload_view cache ch.
Proof.
  intros Hn [Hch [k ->]]. destruct (chunks_nonempty n ch Hn Hch) as [Hne Hall]. split_and!; [done|..]; intros c Hc; unfold vec_empty.
  - rewrite lookup_app_l by done. split; [done|]. destruct (lookup_lt_is_Some_2 _ _ Hc) as [w Hw]. rewrite Hw.
    rewrite Forall_lookup in Hall. specialize (Hall c w Hw). apply bool_decide_eq_false. by destruct w.
  - rewrite lookup_app_r by done. destruct (replicate k [] !! (c - length ch)) as [w|] eqn:E; [|done].
    apply lookup_replicate in E as [-> _]. done.
Qed.

(** Row [r] of a dump: chunk [r] of every payload, empty where a payload has no more chunks. *)
Definition dump_row (k : nodeID) (chs : list (list (list nodeID))) (r : nat) : nodeID * list (list nodeID) :=
  (k, (λ ch, default [] (ch !! r)) <$> chs).

(** The cache and the index of one payload in round [r]. *)
Definition dump_state (r : nat) (cache ch : list (list nodeID)) (cache' : list (list nodeID)) (idx : Z) : Prop :=
  (r < length ch ∧ idx = Z.of_nat r ∧ cache' = cache) ∨
  (length ch ≤ r ∧ idx = done_idx ∧ cache' = <[0 := []]> cache).

Lemma dump_state_pick r cache ch cache' idx :
  payload_view cache ch → (Z.of_nat (length cache) < done_idx)%Z → dump_state r cache ch cache' idx →
  pick cache' idx = Some (default [] (ch !! r)).
Proof.
  intros (Hne & Hlive & _) Hbig [(Hr & -> & ->)|(Hr & -> & ->)]; unfold pick.
  - destruct (Hlive r Hr) as [Heq _]. pose proof (lookup_lt_is_Some_2 ch r Hr) as [w Hw].
    rewrite decide_False, Nat2Z.id, Heq, Hw; [done|].
    rewrite Hw in Heq. apply lookup_lt_Some in Heq. lia.
  - rewrite decide_True by done. simpl. rewrite (lookup_ge_None_2 ch r) by done. simpl.
    destruct (Hlive 0) as [Heq _]; [destruct ch; [done|simpl; lia]|].
    apply list_lookup_insert_eq. destruct cache; [|simpl; lia]. destruct ch; done.
Qed.

Lemma dump_state_advance r cache ch cache' idx :
  payload_view cache ch → (Z.of_nat (length cache) < done_idx)%Z → dump_state r cache ch cache' idx →
  ∃ cache2 idx2, advance cache' idx = (cache2, idx2, bool_decide (S r < length ch)) ∧
    dump_state (S r) cache ch cache2 idx2.
Proof.
  intros (Hne & Hlive & Hend) Hbig [(Hr & -> & ->)|(Hr & -> & ->)]; unfold advance.
  - assert (length ch ≤ length cache) as Hle.
    { destruct (decide (length ch ≤ length cache)) as [|Hgt]; [done|]. exfalso.
      destruct (Hlive (length cache)) as [Heq _]; [lia|]. rewrite lookup_ge_None_2 in Heq by done.
      symmetry in Heq. apply lookup_ge_None in Heq. lia. }
    unfold done_idx in *. unfold u64. rewrite Z.mod_small by lia.
    replace (Z.of_nat r + 1)%Z with (Z.of_nat (S r)) by lia. rewrite Nat2Z.id.
    destruct (decide (S r < length ch)) as [Hlt|Hge].
    + rewrite (bool_decide_true (S r < length ch)) by done. rewrite decide_False by lia.
      destruct (Hlive (S r) Hlt) as [Heq Hfin]. unfold vec_empty in Hfin.
      destruct (lookup_lt_is_Some_2 ch _ Hlt) as [w Hw]. rewrite Heq, Hw in Hfin. rewrite Heq, Hw. simpl.
      apply bool_decide_eq_false in Hfin. rewrite decide_False by done.
      eexists _, _. split; [done|]. left. done.
    + rewrite (bool_decide_false (S r < length ch)) by done.
      pose proof (Hend (S r) ltac:(lia)) as Hfin. unfold vec_empty in Hfin.
      eexists _, _. split; [|by right; split_and!; [lia|done..]].
      case_decide; [done|]. destruct (cache !! S r) as [w|] eqn:Ew; simpl.
      * apply bool_decide_eq_true in Hfin. by rewrite decide_True.
      * done.
  - rewrite bool_decide_false by lia. unfold done_idx in *.
    change (u64 (2 ^ 32 - 1 + 1)) with (2 ^ 32)%Z. rewrite decide_True by (rewrite length_insert; lia).
    eexists _, _. split; [done|]. right. split_and!; [lia|done|]. by rewrite list_insert_insert_eq.
Qed.

Lemma dump_states_pick r b caches chs indices :
  Forall2 payload_view caches chs → Forall (λ c : list (list nodeID), Z.of_nat (length c) < done_idx)%Z caches →
  Forall3 (λ cc cache' idx, dump_state r cc.1 cc.2 cache' idx) (zip caches chs) (cachedPayloadVectors b) indices →
  mapM (λ ci, pick ci.1 ci.2) (zip (cachedPayloadVectors b) indices) = Some ((λ ch, default [] (ch !! r)) <$> chs).
Proof.
  intros Hv Hbig. generalize (cachedPayloadVectors b). revert indices.
  induction Hv as [|cache ch caches chs Hc Hv IH]; intros indices caches' H3; inversion H3; subst; [done|].
  apply Forall_cons in Hbig as [Hb Hbs]. cbn [zip zip_with mapM fmap list_fmap]. simpl in *.
  rewrite (dump_state_pick r cache ch) by done. cbn [mbind option_bind]. by rewrite IH.
Qed.

Lemma dump_states_advance r b caches chs indices :
  Forall2 payload_view caches chs → Forall (λ c : list (list nodeID), Z.of_nat (length c) < done_idx)%Z caches →
  Forall3 (λ cc cache' idx, dump_state r cc.1 cc.2 cache' idx) (zip caches chs) (cachedPayloadVectors b) indices →
  let steps := (λ ci, advance ci.1 ci.2) <$> zip (cachedPayloadVectors b) indices in
  Forall3 (λ cc cache' idx, dump_state (S r) cc.1 cc.2 cache' idx) (zip caches chs)
    ((λ s, s.1.1) <$> steps) ((λ s, s.1.2) <$> steps) ∧
  existsb (λ s, s.2) steps = existsb (λ ch : list (list nodeID), bool_decide (S r < length ch)) chs.
Proof.
  intros Hv Hbig. generalize (cachedPayloadVectors b). revert indices.
  induction Hv as [|cache ch caches chs Hc Hv IH]; intros indices caches' H3;
    inversion H3 as [|? c1 i1 ? cs1 is1 Hd Hds]; subst.
  { split; [constructor|done]. }
  apply Forall_cons in Hbig as [Hb Hbs]. simpl in *.
  destruct (dump_state_advance r cache ch c1 i1) as (c2 & i2 & Ha & Hs); [done..|].
  destruct (IH Hbs is1 cs1) as [IH1 IH2]; [done|]. rewrite Ha. simpl. split; [by constructor|]. f_equal. exact IH2.
Qed.

(** The number of rounds: the largest number of chunks. *)
Definition rounds (chs : list (list (list nodeID))) : nat := foldr Nat.max 0 (length <$> chs).

Lemma existsb_rounds r chs :
  existsb (λ ch : list (list nodeID), bool_decide (r < length ch)) chs = bool_decide (r < rounds chs).
Proof.
  induction chs as [|ch chs IH]; [done|]. cbn [existsb]. rewrite IH. unfold rounds. cbn [fmap list_fmap foldr].
  fold (rounds chs). repeat case_bool_decide; simpl; try done; lia.
Qed.

Lemma dump_loop_spec caches chs k fuel r b indices :
  Forall2 payload_view caches chs → Forall (λ c : list (list nodeID), Z.of_nat (length c) < done_idx)%Z caches →
  chs ≠ [] → r < rounds chs → rounds chs ≤ r + fuel →
  Forall3 (λ cc cache' idx, dump_state r cc.1 cc.2 cache' idx) (zip caches chs) (cachedPayloadVectors b) indices →
  cachedKey b = [k] → build_ok b →
  ∃ b', dump_loop zero hash fuel b indices = Some b' ∧ build_ok b' ∧
    view b' = view b ++ (dump_row k chs <$> seq r (rounds chs - r)) ∧
    payloadVectors b' = payloadVectors b ∧ keyVector b' = keyVector b ∧ cachedKey b' = cachedKey b ∧
    Forall2 (λ c c', length c' = length c) caches (cachedPayloadVectors b').
Proof.
  intros Hv Hbig Hne. revert r b indices. induction fuel as [|fuel IH]; intros r b indices Hr Hf H3 Hk Hok; [lia|].
  cbn [dump_loop]. rewrite (dump_states_pick r b caches chs) by done. cbn [mbind option_bind]. rewrite Hk.
  destruct (append_row_Some b k ((λ ch, default [] (ch !! r)) <$> chs) Hok) as (b1 & -> & Hok1 & (Hf1 & Hf2 & Hf3 & Hf4) & Hview).
  cbn [mbind option_bind]. rewrite Hf4, Hf3, Hk.
  destruct (dump_states_advance r b caches chs indices Hv Hbig H3) as [Hstep Hex]. cbn zeta in Hstep, Hex.
  rewrite Hex, existsb_rounds. set (steps := (λ ci, advance ci.1 ci.2) <$> zip (cachedPayloadVectors b) indices) in *.
  set (b2 := set_caches b1 [k] ((λ s, s.1.1) <$> steps)).
  assert (view b2 = view b ++ [dump_row k chs r]) as Hview2 by done.
  assert (build_ok b2) as Hok2 by (by destruct Hok1).
  case_bool_decide as Hmore.
  - destruct (IH (S r) b2 ((λ s, s.1.2) <$> steps)) as (b' & -> & Hok' & Hv' & Hp' & Hk' & Hc' & Hl'); try done; [lia|].
    exists b'. split_and!; try done.
    + rewrite Hv', Hview2, <-app_assoc. f_equal. replace (rounds chs - r) with (S (rounds chs - S r)) by lia. done.
    + rewrite Hp'. done.
    + rewrite Hk'. done.
  - exists b2. split_and!; try done.
    + rewrite Hview2. replace (rounds chs - r) with 1 by lia. done.
    + cbn [cachedPayloadVectors b2 set_caches]. clear -Hstep Hv. revert Hstep. generalize ((λ s, s.1.1) <$> steps), ((λ s, s.1.2) <$> steps).
      induction Hv as [|c ch cs chs Hcv Hv IH]; intros l1 l2 H3; inversion H3 as [|? c1 i1 ? cs1 is1 Hd Hds]; subst; constructor.
      * destruct Hd as [(_ & _ & ->)|(_ & _ & ->)]; [done|]. apply length_insert.
      * by eapply IH.
Qed.

Lemma rounds_ge chs i (ch : list (list nodeID)) : chs !! i = Some ch → length ch ≤ rounds chs.
Proof.
  revert i. induction chs as [|c chs IH]; intros [|i] Hi; [done..| |];
    change (rounds (c :: chs)) with (Nat.max (length c) (rounds chs)).
  - injection Hi as ->. lia.
  - specialize (IH i Hi). lia.
Qed.

(** Each payload's chunks over the rounds are its values. *)
Lemma dump_concat k chs i ch :
  chs !! i = Some ch →
  concat ((λ r : nodeID * list (list nodeID), default [] (r.2 !! i)) <$> (dump_row k chs <$> seq 0 (rounds chs))) = concat ch.
Proof.
  intros Hi. rewrite <-list_fmap_compose.
  assert (∀ n, length ch ≤ n → concat ((λ r, default [] (ch !! r)) <$> seq 0 n) = concat ch) as Hgen.
  { clear Hi. induction ch as [|w ch IH]; intros n Hn.
    - generalize 0. induction n as [|n IHn]; intros s; [done|]. simpl. by rewrite IHn by (simpl; lia).
    - destruct n as [|n]; [simpl in Hn; lia|]. cbn [seq fmap list_fmap concat]. f_equal.
      rewrite <-fmap_S_seq, <-list_fmap_compose. apply IH. simpl in Hn. lia. }
  rewrite <-(Hgen (rounds chs)).
  - f_equal. apply list_fmap_ext. intros j r Hr. simpl. by rewrite list_lookup_fmap, Hi.
  - by eapply rounds_ge.
Qed.

(** ** Caching values *)

(** A cache that holds the values [P] in vectors filled one after the other, and at most [N]
    vectors after the first. *)
Definition holds (N : nat) (cache : list (list nodeID)) (P : list nodeID) : Prop :=
  (∃ id, cache_ok cap cache id) ∧ concat cache = P ∧ length cache ≤ S N.

Lemma cache_value_full full cache v :
  Forall (λ w : list nodeID, length w = cap) full → cache_value cap (full ++ cache) v = full ++ cache_value cap cache v.
Proof.
  induction 1 as [|w full Hw _ IH]; [done|]. cbn [app cache_value]. rewrite decide_False by lia. by rewrite IH.
Qed.

Lemma cache_value_holds N cache P v : holds N cache P → holds (S N) (cache_value cap cache v) (P ++ [v]).
Proof.
  intros [(id & full & vec & n & -> & Hid & Hfull & Hvec & Hne) [<- Hlen]].
  rewrite cache_value_full by done. cbn [cache_value]. rewrite length_app in Hlen. simpl in Hlen.
  rewrite length_replicate in Hlen. unfold holds. rewrite !concat_app. cbn [concat].
  rewrite concat_replicate_nil, app_nil_r. destruct (decide (length vec < cap)) as [Hlt|Hge].
  - split_and!.
    + exists id, full, (vec ++ [v]), n. split_and!; [done..| |intros _; by destruct vec]. rewrite length_app. simpl. lia.
    + cbn [concat]. by rewrite concat_replicate_nil, app_nil_r, app_assoc.
    + rewrite length_app. simpl. rewrite length_replicate. lia.
  - assert (∃ n', cache_value cap (replicate n []) v = [v] :: replicate n' [] ∧ n' ≤ n) as (n' & -> & Hn').
    { destruct n as [|n]; simpl; [exists 0; split; [done|lia]|]. rewrite decide_True by lia. exists n. split; [done|lia]. }
    split_and!.
    + exists (length (full ++ [vec])), (full ++ [vec]), [v], n'. split_and!; [by rewrite <-app_assoc|done| |simpl; lia|done].
      apply Forall_app. split; [done|]. apply Forall_singleton. lia.
    + cbn [concat]. rewrite concat_replicate_nil, app_nil_r. by rewrite <-app_assoc.
    + rewrite length_app. simpl. rewrite length_replicate. lia.
Qed.

Lemma cache_values_holds N cache P src :
  holds N cache P → holds (N + length src) (foldl (cache_value cap) cache src) (P ++ src).
Proof.
  revert N cache P. induction src as [|v src IH]; intros N cache P H; simpl.
  { by rewrite Nat.add_0_r, app_nil_r. }
  apply (cache_value_holds _ _ _ v), IH in H. rewrite <-app_assoc in H. by replace (N + S (length src)) with (S N + length src) by lia.
Qed.

Lemma holds_mono N N' cache P : N ≤ N' → holds N cache P → holds N' cache P.
Proof. intros HN (? & ? & ?). split_and!; [done..|lia]. Qed.

Lemma holds_clean N (cache cache' : list (list nodeID)) P :
  holds N cache P → length cache' = length cache → holds N ((λ _, []) <$> cache') [].
Proof.
  intros [(id & full & vec & n & -> & _) [_ Hlen]] Hl.
  assert (∃ k, length cache' = S k) as [k Hk] by (rewrite Hl, length_app; simpl; exists (length full + length (replicate n (@nil nodeID))); lia).
  assert (((λ _ : list nodeID, []) <$> cache') = [] :: replicate k (@nil nodeID)) as ->.
  { clear -Hk. destruct cache' as [|w cache']; [done|]. injection Hk as <-. simpl. f_equal.
    induction cache'; simpl; by f_equal. }
  split_and!.
  - exists 0, [], [], k. split_and!; [done..|simpl; lia|done].
  - simpl. apply concat_replicate_nil.
  - simpl. rewrite length_replicate. lia.
Qed.

(** What dumping a key [k] with payloads [Ps] adds to the table: nothing if a payload is empty,
    else rows with key [k] whose lists, one after the other, are the payloads. *)
Definition run_rows (run : nodeID * list (list nodeID)) (rs : list (nodeID * list (list nodeID))) : Prop :=
  if decide ([] ∈ run.2) then rs = []
  else Forall (λ r, r.1 = run.1 ∧ length r.2 = length run.2) rs ∧
    ∀ i P, run.2 !! i = Some P → concat ((λ r : nodeID * list (list nodeID), default [] (r.2 !! i)) <$> rs) = P.

Lemma holds_views N caches Ps :
  Forall2 (holds N) caches Ps → [] ∉ Ps →
  ∃ chs, Forall2 payload_view caches chs ∧ Forall2 (λ ch P, concat ch = P) chs Ps.
Proof.
  induction 1 as [|cache P caches Ps [[id Hok] [Hcat _]] Hrest IH]; intros Hne.
  { exists []. split; constructor. }
  destruct IH as (chs & Hv & Hc); [set_solver|].
  destruct (cache_view cap cache id Hcap Hok) as (ch & Hcv%chunk_payload_view & Hcc); [rewrite Hcat; set_solver| |done].
  exists (ch :: chs). split; constructor; [done..|congruence|done].
Qed.

Lemma holds_first N cache P : holds N cache P → (length (default [] (cache !! 0)) = 0 ↔ P = []).
Proof.
  intros [(id & full & vec & n & -> & _ & Hfull & _ & Hne) [<- _]]. rewrite concat_app. cbn [concat].
  rewrite concat_replicate_nil, app_nil_r. destruct full as [|w full]; simpl.
  - rewrite length_zero_iff_nil. done.
  - apply Forall_cons in Hfull as [Hw _]. split; [lia|]. intros H. apply (f_equal length) in H. rewrite !length_app in H. simpl in H. lia.
Qed.

Lemma skip_iff N caches Ps :
  Forall2 (holds N) caches Ps →
  existsb (λ cache : list (list nodeID), bool_decide (length (default [] (cache !! 0)) = 0)) caches = bool_decide ([] ∈ Ps).
Proof.
  induction 1 as [|cache P caches Ps Hh _ IH]; [done|]. cbn [existsb]. rewrite IH.
  rewrite (bool_decide_ext _ _ (holds_first N cache P Hh)). rewrite <-bool_decide_or.
  apply bool_decide_ext. rewrite elem_of_cons. naive_solver.
Qed.

Lemma clean_hold N n caches Ps caches' :
  Forall2 (holds N) caches Ps → length Ps = n →
  Forall2 (λ c c' : list (list nodeID), length c' = length c) caches caches' →
  Forall2 (holds N) (fmap (M := list) (λ _, []) <$> caches') (replicate n []).
Proof.
  intros Hh <-. revert caches'. induction Hh as [|c P cs Ps Hc _ IH]; intros caches' Hl; inversion Hl; subst; simpl; constructor.
  - by eapply holds_clean.
  - by apply IH.
Qed.

Lemma dump_states_start caches chs :
  Forall2 payload_view caches chs →
  Forall3 (λ cc cache' idx, dump_state 0 cc.1 cc.2 cache' idx) (zip caches chs) caches (replicate (length caches) 0%Z).
Proof.
  induction 1 as [|c ch cs chs (Hne & _) _ IH]; [constructor|]. cbn [zip zip_with length replicate]. constructor; [|done].
  left. simpl. destruct ch; [done|]. simpl. split_and!; [lia|done..].
Qed.

Lemma rounds_fuel caches chs : Forall2 payload_view caches chs → rounds chs ≤ length (concat caches).
Proof.
  induction 1 as [|c ch cs chs (Hne & Hlive & _) _ IH]; [done|].
  change (rounds (ch :: chs)) with (Nat.max (length ch) (rounds chs)). cbn [concat]. rewrite length_app.
  enough (length ch ≤ length c) by lia.
  destruct (decide (length ch ≤ length c)) as [|Hgt]; [done|]. destruct (Hlive (length c)) as [Heq _]; [lia|].
  rewrite lookup_ge_None_2 in Heq by done. symmetry in Heq. apply lookup_ge_None in Heq. lia.
Qed.

Lemma dump_spec N b k Ps :
  (Z.of_nat (S N) < done_idx)%Z → Ps ≠ [] →
  cachedKey b = [k] → Forall2 (holds N) (cachedPayloadVectors b) Ps → build_ok b →
  ∃ b' rs, dumpCachedKeyPayloads zero hash b = Some b' ∧ build_ok b' ∧ view b' = view b ++ rs ∧ run_rows (k, Ps) rs ∧
    cachedKey b' = [] ∧ keyVector b' = keyVector b ∧ payloadVectors b' = payloadVectors b ∧
    Forall2 (holds N) (cachedPayloadVectors b') (replicate (length Ps) []).
Proof.
  intros HN Hps Hk Hh Hok. unfold dumpCachedKeyPayloads. rewrite Hk, (skip_iff N _ _ Hh), (bool_decide_false (length [k] = 0)) by done. cbn [orb].
  case_bool_decide as Hskip.
  - cbn [mbind option_bind]. eexists _, []. split_and!; [done|by destruct Hok| | |done..|].
    + by rewrite app_nil_r.
    + unfold run_rows. by rewrite decide_True.
    + cbn [set_caches cachedPayloadVectors]. eapply clean_hold; [done..|]. apply Forall_Forall2_diag, Forall_forall. done.
  - destruct (holds_views N _ _ Hh Hskip) as (chs & Hv & Hc).
    assert (chs ≠ []) as Hchs by (intros ->; inversion Hc; congruence).
    destruct (dump_loop_spec (cachedPayloadVectors b) chs k (S (length (concat (cachedPayloadVectors b)))) 0 b
      (replicate (length (cachedPayloadVectors b)) 0%Z)) as (b' & -> & Hok' & Hview & Hp & Hkv & _ & Hl); try done.
    { apply Forall_forall. intros c Hc'. apply list_elem_of_lookup in Hc' as [i Hi].
      destruct (Forall2_lookup_l _ _ _ _ _ Hh Hi) as (P & _ & _ & _ & Hlen). lia. }
    { destruct Hv as [|c ch cs chs (Hne & _) _]; [done|]. change (rounds (ch :: chs)) with (Nat.max (length ch) (rounds chs)).
      destruct ch; [done|simpl; lia]. }
    { simpl. apply rounds_fuel in Hv. lia. }
    { by apply dump_states_start. }
    rewrite Nat.sub_0_r in Hview. cbn [mbind option_bind]. eexists _, _. split_and!; [done|by destruct Hok'|exact Hview| |done..|].
    + unfold run_rows. rewrite decide_False by done. simpl. split.
      * apply Forall_fmap, Forall_forall. intros r _. split; [done|]. simpl. rewrite length_fmap. by eapply Forall2_length.
      * intros i P HP. destruct (Forall2_lookup_r _ _ _ _ _ Hc HP) as (ch & Hch & <-). by apply dump_concat.
    + by eapply clean_hold.
Qed.

(** ** The whole build *)

(** The payload values of one tuple of the child. *)
Definition pay (t : ChildTuple) : list (list nodeID) := default [] <$> ct_payloads t.

(** The maximal runs of tuples with the same key, with the values of each payload in order. *)
Fixpoint group (cur : option (nodeID * list (list nodeID))) (child : list ChildTuple) : list (nodeID * list (list nodeID)) :=
  match child with
  | [] => option_list cur
  | t :: child =>
      match cur with
      | None => group (Some (ct_key t, pay t)) child
      | Some (k, Ps) =>
          if decide (ct_key t = k) then group (Some (k, zip_with app Ps (pay t))) child
          else (k, Ps) :: group (Some (ct_key t, pay t)) child
      end
  end.

(** The number of values the child gives. *)
Definition weight (child : list ChildTuple) : nat := length (concat (concat (pay <$> child))).

(** The caches hold the current run of tuples. *)
Record caching (n N : nat) (b : IntersectMultiwayBuild) (cur : option (nodeID * list (list nodeID))) : Prop := {
  cg_ok : build_ok b;
  cg_vectors : payloadVectors b = replicate n [];
  cg_key : cachedKey b = option_list (fst <$> cur);
  cg_holds : Forall2 (holds N) (cachedPayloadVectors b) (default (replicate n []) (snd <$> cur));
  cg_len : length (default (replicate n []) (snd <$> cur)) = n
}.

Lemma received_vectors ps : zip_with (λ old new : _, default old new) (replicate (length ps) []) ps = default (@nil nodeID) <$> ps.
Proof. induction ps as [|p ps IH]; [done|]. cbn [length replicate zip_with fmap list_fmap]. by f_equal. Qed.

Lemma caches_hold N M caches Ps srcs :
  Forall2 (holds N) caches Ps → length (concat srcs) ≤ M → length srcs = length Ps →
  Forall2 (holds (N + M)) (zip_with (λ cache src, foldl (cache_value cap) cache src) caches srcs) (zip_with app Ps srcs).
Proof.
  intros H. revert M srcs. induction H as [|c P caches Ps Hc _ IH]; intros M [|src srcs] HM Hl; simpl in *; try constructor; try lia.
  - rewrite length_app in HM. eapply holds_mono, cache_values_holds, Hc. lia.
  - rewrite length_app in HM. apply IH; lia.
Qed.

Lemma zip_app_empty n (srcs : list (list nodeID)) : length srcs = n → zip_with app (replicate n []) srcs = srcs.
Proof. intros <-. induction srcs as [|src srcs IH]; [done|]. cbn [length replicate zip_with]. by f_equal. Qed.

Lemma dump_idle n N b Ps :
  cachedKey b = [] → Forall2 (holds N) (cachedPayloadVectors b) Ps → length Ps = n → build_ok b →
  ∃ b', dumpCachedKeyPayloads zero hash b = Some b' ∧ build_ok b' ∧ view b' = view b ∧
    cachedKey b' = [] ∧ keyVector b' = keyVector b ∧ payloadVectors b' = payloadVectors b ∧
    Forall2 (holds N) (cachedPayloadVectors b') (replicate n []).
Proof.
  intros Hk Hh Hl Hok. unfold dumpCachedKeyPayloads. rewrite Hk, (bool_decide_true (length [] = 0)) by done. cbn [orb mbind option_bind].
  eexists. split_and!; [done|by destruct Hok|done..|]. eapply clean_hold; [done..|]. apply Forall_Forall2_diag, Forall_forall. done.
Qed.

Lemma cacheKeyPayloads_spec n N b t Ps k flag :
  build_ok b → payloadVectors b = pay t → length (ct_payloads t) = n → length Ps = n →
  Forall2 (holds N) (cachedPayloadVectors b) Ps →
  (if flag : bool then cachedKey b ++ keyVector b else cachedKey b) = [k] →
  view (cacheKeyPayloads cap b flag) = view b ∧
  caching n (N + weight [t]) (cacheKeyPayloads cap b flag) (Some (k, zip_with app Ps (pay t))).
Proof.
  intros Hok Hpay Ht Hps Hh Hkey. split; [done|]. assert (length (pay t) = n) as Hlp by (unfold pay; by rewrite length_fmap).
  split; cbn [cacheKeyPayloads payloadVectors cachedKey cachedPayloadVectors option_list fmap option_fmap option_map fst snd default].
  - by destruct Hok.
  - rewrite Hpay, <-Hlp. clear. induction (pay t) as [|p ps IH]; [done|]. simpl. by f_equal.
  - done.
  - rewrite Hpay. apply caches_hold; [done| |lia]. unfold weight. simpl. by rewrite app_nil_r.
  - simpl. rewrite length_zip_with. lia.
Qed.

Lemma execute_step_spec n N b cur t :
  0 < n → (Z.of_nat (S N) < done_idx)%Z → length (ct_payloads t) = n → caching n N b cur →
  ∃ b' rs, execute_step zero hash cap b t = Some b' ∧ view b' = view b ++ concat rs ∧
    match cur with
    | Some (k, Ps) =>
        if decide (ct_key t = k) then rs = [] ∧ caching n (N + weight [t]) b' (Some (k, zip_with app Ps (pay t)))
        else Forall2 run_rows [(k, Ps)] rs ∧ caching n (N + weight [t]) b' (Some (ct_key t, pay t))
    | None => rs = [] ∧ caching n (N + weight [t]) b' (Some (ct_key t, pay t))
    end.
Proof.
  intros Hn HN Ht [Hok Hvec Hkey Hh Hl]. unfold execute_step. set (b1 := receive b t).
  assert (build_ok b1) as Hok1 by (by destruct Hok).
  assert (payloadVectors b1 = pay t) as Hp1.
  { cbn [payloadVectors b1 receive]. rewrite Hvec, <-Ht. apply received_vectors. }
  assert (length (pay t) = n) as Hlp by (unfold pay; by rewrite length_fmap).
  change (cachedKey b1) with (cachedKey b). rewrite Hkey.
  destruct cur as [[k Ps]|]; cbn [fmap option_fmap option_map option_list option_rect fst snd default from_option id] in *.
  - change (head (keyVector b1)) with (Some (ct_key t)). destruct (decide (ct_key t = k)) as [->|Hneq].
    + rewrite bool_decide_true by done. cbn [negb mbind option_bind]. eexists _, []. split; [done|].
      destruct (cacheKeyPayloads_spec n N b1 t Ps k false) as [Hv Hc]; try done.
      rewrite Hv. cbn [concat]. rewrite app_nil_r. done.
    + rewrite bool_decide_false by congruence. cbn [negb].
      destruct (dump_spec N b1 k Ps) as (b2 & rs & -> & Hok2 & Hv2 & Hrun & Hk2 & Hkv2 & Hp2 & Hh2); try done; [by destruct Ps; [simpl in Hl; lia|]|].
      cbn [mbind option_bind]. eexists _, [rs]. split; [done|].
      destruct (cacheKeyPayloads_spec n N b2 t (replicate n []) (ct_key t) true) as [Hv Hc]; try done.
      * congruence.
      * apply length_replicate.
      * by rewrite Hl in Hh2.
      * by rewrite Hk2, Hkv2.
      * rewrite zip_app_empty in Hc by done. rewrite Hv, Hv2. cbn [concat]. rewrite app_nil_r. split_and!; [done| |done].
        by constructor.
  - destruct (dump_idle n N b1 (replicate n [])) as (b2 & -> & Hok2 & Hv2 & Hk2 & Hkv2 & Hp2 & Hh2); try done.
    cbn [mbind option_bind]. eexists _, []. split; [done|].
    destruct (cacheKeyPayloads_spec n N b2 t (replicate n []) (ct_key t) true) as [Hv Hc]; try done.
    * congruence.
    * by rewrite Hk2, Hkv2.
    * rewrite zip_app_empty in Hc by done. rewrite Hv, Hv2. cbn [concat]. by rewrite app_nil_r.
Qed.

Lemma weight_cons t child : weight (t :: child) = weight [t] + weight child.
Proof. unfold weight. cbn [fmap list_fmap concat]. rewrite app_nil_r, concat_app, length_app. done. Qed.

Lemma execute_from n N b cur child :
  0 < n → (Z.of_nat (S (N + weight child)) < done_idx)%Z → Forall (λ t, length (ct_payloads t) = n) child →
  caching n N b cur →
  ∃ b' rss, execute zero hash cap b child = Some b' ∧ build_ok b' ∧ view b' = view b ++ concat rss ∧
    Forall2 run_rows (group cur child) rss.
Proof.
  intros Hn. revert N b cur. induction child as [|t child IH]; intros N b cur HN Hall Hc; unfold execute in *; cbn [ofold mbind option_bind].
  - destruct Hc as [Hok _ Hkey Hh Hl]. destruct cur as [[k Ps]|]; cbn [fmap option_fmap option_map option_list option_rect fst snd default from_option id group] in *.
    + destruct (dump_spec N b k Ps) as (b' & rs & -> & Hok' & Hv & Hrun & _); try done; [lia|by destruct Ps; [simpl in Hl; lia|]|].
      exists b', [rs]. cbn [concat]. rewrite app_nil_r. split_and!; [done..|]. by constructor.
    + destruct (dump_idle n N b (replicate n [])) as (b' & -> & Hok' & Hv & _); try done.
      exists b', []. cbn [concat]. rewrite app_nil_r. split_and!; [done..|constructor].
  - rewrite weight_cons in HN. apply Forall_cons in Hall as [Ht Hall].
    destruct (execute_step_spec n N b cur t) as (b1 & rs & -> & Hv1 & Hcase); [done|lia|done..|]. cbn [mbind option_bind].
    assert (∀ cur1, caching n (N + weight [t]) b1 cur1 → ∃ b' rss, (ofold (execute_step zero hash cap) b1 child ≫= dumpCachedKeyPayloads zero hash) = Some b' ∧
      build_ok b' ∧ view b' = view b1 ++ concat rss ∧ Forall2 run_rows (group cur1 child) rss) as Hrest.
    { intros cur1 Hc1. apply (IH (N + weight [t])); [lia|done..]. }
    enough (∃ cur1, caching n (N + weight [t]) b1 cur1 ∧ ∃ pre, group cur (t :: child) = pre ++ group cur1 child ∧ Forall2 run_rows pre rs) as (cur1 & Hc1 & pre & Hg & Hpre).
    { destruct (Hrest cur1 Hc1) as (b' & rss & Hb & Hok' & Hv' & Hrss). exists b', (rs ++ rss). split_and!; [exact Hb|done| |].
      - by rewrite Hv', Hv1, concat_app, app_assoc.
      - rewrite Hg. by apply Forall2_app. }
    cbn [group]. destruct cur as [[k Ps]|]; [destruct (decide (ct_key t = k))|].
    + destruct Hcase as [-> Hc1]. eexists. split; [exact Hc1|]. exists []. split; [done|constructor].
    + destruct Hcase as [Hrs Hc1]. eexists. split; [exact Hc1|]. by exists [(k, Ps)].
    + destruct Hcase as [-> Hc1]. eexists. split; [exact Hc1|]. exists []. split; [done|constructor].
Qed.

(** ** The table as the operator sees it *)

(** A tuple's payload columns are those of the build nodes [js] of the probe node. *)
Definition seen (js : list nat) (r : nodeID * list nat) : nodeID * gmap nat nat := (r.1, list_to_map (zip js r.2)).

Definition probe_table (js : list nat) (t : JoinHashTable (K := nodeID) (P := list nat)) : ProbeTable :=
  mkProbeTable (getNumEntries t) (λ h, fmap (M := list) (λ x : nodeID * list nat * Z, seen js x.1) <$> chain t h).

Lemma initBuild_caching n size bytes :
  (0 < bytes ≤ size)%Z → (8 ≤ size < 2 ^ 64)%Z →
  ∃ ht, createJoinHashTable size bytes = Some ht ∧ caching n 0 (initBuild n ht) None ∧ view (initBuild n ht) = [].
Proof.
  intros Hb Hs. destruct (create_filling (P := list nat) hash size bytes Hb Hs) as (ht & Hc & Hf & Hr & _).
  exists ht. split; [done|]. split; [split|].
  - split; [done|]. cbn [initBuild hashTable]. rewrite Hr. by intros r p ?%elem_of_nil.
  - done.
  - done.
  - cbn [initBuild cachedPayloadVectors fmap option_fmap option_map default from_option].
    apply Forall2_replicate. split_and!; [|done|simpl; lia]. exists 0, [], [], 0. split_and!; [done..|simpl; lia|done].
  - simpl. apply length_replicate.
  - unfold view. cbn [initBuild hashTable]. by rewrite Hr.
Qed.

(** C11. The build side keeps every value. Run on an empty table over a stream of child tuples with
    one list per payload, [executeInternal]'s loop returns, and the tuples of the hash table are,
    run by run of equal keys, tuples with the run's key whose lists for each payload, one after
    the other, are exactly the run's values in order; a run with an empty payload adds nothing. *)
Theorem build_roundtrip n size bytes child :
  0 < n → (0 < bytes ≤ size)%Z → (8 ≤ size < 2 ^ 64)%Z →
  Forall (λ t, length (ct_payloads t) = n) child → (Z.of_nat (S (weight child)) < done_idx)%Z →
  ∃ ht b rss, createJoinHashTable size bytes = Some ht ∧ execute zero hash cap (initBuild n ht) child = Some b ∧
    view b = concat rss ∧ Forall2 run_rows (group None child) rss.
Proof.
  intros Hn Hb Hs Hall Hw. destruct (initBuild_caching n size bytes Hb Hs) as (ht & Hc & Hcg & Hv).
  destruct (execute_from n 0 (initBuild n ht) None child Hn Hw Hall Hcg) as (b & rss & He & _ & Hvb & Hr).
  exists ht, b, rss. rewrite Hv in Hvb. done.
Qed.

Lemma finalized_law js (t : JoinHashTable (K := nodeID) (P := list nat)) :
  filling hash t → (Z.of_nat (getNumEntries t) < 2 ^ 62)%Z →
  ∃ t', finalizeInternal t = Some t' ∧ ProbeLaw hash (probe_table js t') (seen js <$> rows t).
Proof.
  clear Hcap. intros Hf Hbig. pose proof (FT.to_num _ (fi_table _ _ Hf)) as Hn.
  assert (getNumEntries t = length (rows t)) as Hlen by (unfold rows; by rewrite length_fmap).
  destruct (decide (getNumEntries t = 0)) as [Hz|Hnz].
  - destruct (finalize_empty hash t Hf Hz) as (t' & Ht' & Htab). exists t'. split; [done|].
    assert (getNumEntries t' = getNumEntries t) as He by (unfold getNumEntries; by rewrite Htab).
    split; cbn [probe_table pt_numEntries]; [rewrite length_fmap; congruence|]. intros k Hne. congruence.
  - destruct (finalize_chain hash t Hf ltac:(lia) Hbig) as (t' & Ht' & Htab & Hch). exists t'. split; [done|].
    assert (getNumEntries t' = getNumEntries t) as He by (unfold getNumEntries; by rewrite Htab).
    split; cbn [probe_table pt_numEntries pt_chain]; [rewrite length_fmap; congruence|].
    intros k _. rewrite Hch. eexists. split; [done|].
    unfold rows. rewrite <-list_fmap_compose, !filter_fmap, <-fmap_reverse, !filter_reverse, list_filter_filter. do 2 f_equal.
    apply filter_ext_in. eapply Forall_impl; [exact (fi_hash _ _ Hf)|]. intros x Hx. simpl. split; [naive_solver|].
    intros <-. split; [done|]. by rewrite Hx.
Qed.

(** C12. The build side meets the law the operator relies on: a table under construction finalizes,
    and the result, seen through [getNumEntries] and the chain of a hash, leads each key to the
    tuples appended with it, the last one first. *)
Theorem finalized_table_law js (t : JoinHashTable (K := nodeID) (P := list nat)) :
  filling hash t → (Z.of_nat (getNumEntries t) < 2 ^ 62)%Z →
  ∃ t', finalizeInternal t = Some t' ∧ ProbeLaw hash (probe_table js t') (seen js <$> rows t).
Proof. apply finalized_law. Qed.

End BuildProofs.

(** The hash of an internal identifier. *)
Definition hash_internalID (id : nodeID) : Z := Z.lxor (murmurhash64 (offset id)) (murmurhash64 (tableID id)).

Lemma build_roundtrip_witness :
  let child := [mkChild (mkID 1 0) [Some [mkID 5 0; mkID 6 0; mkID 7 0]; Some [mkID 8 0]];
                mkChild (mkID 1 0) [None; Some [mkID 9 0]]; mkChild (mkID 2 0) [Some [mkID 3 0]; Some []]] in
  ∃ ht b rss, createJoinHashTable 64 24 = Some ht ∧
    execute (mkID 0 0, [], 0%Z) hash_internalID 2 (initBuild 2 ht) child = Some b ∧
    view b = concat rss ∧ Forall2 run_rows (group None child) rss.
Proof.
  intros child.
  apply (build_roundtrip (mkID 0 0, [], 0%Z) hash_internalID 2 ltac:(lia) 2 64 24 child); [lia..| |].
  - repeat constructor.
  - by vm_compute.
Defined.

Definition sample_table_of_rows : JoinHashTable :=
  mkJoinHashTable (FT.mkTable 64 (FT.mkCollection 24 2 [FT.mkBlock [(mkID 1 0, [0; 1], hash_internalID (mkID 1 0)); (mkID 2 0, [2; 3], hash_internalID (mkID 2 0))] 2 16]) 2)
    [None; None] 0 3 [].

Lemma finalized_table_law_witness :
  ∃ t', finalizeInternal sample_table_of_rows = Some t' ∧
    ProbeLaw hash_internalID (probe_table [0; 1] t') (seen [0; 1] <$> rows sample_table_of_rows).
Proof.
  apply (finalized_table_law hash_internalID [0; 1] sample_table_of_rows); [|by vm_compute].
  split; [split|..]; simpl; try done; try lia.
  - split; [repeat constructor|]. intros [|k] b; simpl; [lia|done].
  - repeat constructor.
Defined.
