(* ===== verification/NullMask.v ===== *)
(** Null masks ([src/src/include/common/null_mask.h] and [src/src/common/null_mask.cpp]): bit
    arrays packed into 64-bit words, with the routines that set a range, copy a range between
    arbitrary bit offsets, and compute the minimum and maximum of a range word by word.

    Words are integers in [0, 2^64); a pointer to words is a list, and an access outside of it is
    [None]. The byte-wise copy assumes a little-endian layout of words, as the code does. *)

From S2P Require Import Prelude.

#[local] Open Scope Z_scope.

Definition NULL_BITMASKS_WITH_SINGLE_ONE : list Z := [
    0x1; 0x2; 0x4; 0x8; 0x10; 0x20; 0x40; 0x80; 0x100; 0x200; 0x400; 0x800; 0x1000; 0x2000; 0x4000;
    0x8000; 0x10000; 0x20000; 0x40000; 0x80000; 0x100000; 0x200000; 0x400000; 0x800000; 0x1000000;
    0x2000000; 0x4000000; 0x8000000; 0x10000000; 0x20000000; 0x40000000; 0x80000000; 0x100000000;
    0x200000000; 0x400000000; 0x800000000; 0x1000000000; 0x2000000000; 0x4000000000; 0x8000000000;
    0x10000000000; 0x20000000000; 0x40000000000; 0x80000000000; 0x100000000000; 0x200000000000;
    0x400000000000; 0x800000000000; 0x1000000000000; 0x2000000000000; 0x4000000000000;
    0x8000000000000; 0x10000000000000; 0x20000000000000; 0x40000000000000; 0x80000000000000;
    0x100000000000000; 0x200000000000000; 0x400000000000000; 0x800000000000000; 0x1000000000000000;
    0x2000000000000000; 0x4000000000000000; 0x8000000000000000]%Z.

Definition NULL_BITMASKS_WITH_SINGLE_ZERO : list Z := [
    0xfffffffffffffffe; 0xfffffffffffffffd; 0xfffffffffffffffb; 0xfffffffffffffff7;
    0xffffffffffffffef; 0xffffffffffffffdf; 0xffffffffffffffbf; 0xffffffffffffff7f;
    0xfffffffffffffeff; 0xfffffffffffffdff; 0xfffffffffffffbff; 0xfffffffffffff7ff;
    0xffffffffffffefff; 0xffffffffffffdfff; 0xffffffffffffbfff; 0xffffffffffff7fff;
    0xfffffffffffeffff; 0xfffffffffffdffff; 0xfffffffffffbffff; 0xfffffffffff7ffff;
    0xffffffffffefffff; 0xffffffffffdfffff; 0xffffffffffbfffff; 0xffffffffff7fffff;
    0xfffffffffeffffff; 0xfffffffffdffffff; 0xfffffffffbffffff; 0xfffffffff7ffffff;
    0xffffffffefffffff; 0xffffffffdfffffff; 0xffffffffbfffffff; 0xffffffff7fffffff;
    0xfffffffeffffffff; 0xfffffffdffffffff; 0xfffffffbffffffff; 0xfffffff7ffffffff;
    0xffffffefffffffff; 0xffffffdfffffffff; 0xffffffbfffffffff; 0xffffff7fffffffff;
    0xfffffeffffffffff; 0xfffffdffffffffff; 0xfffffbffffffffff; 0xfffff7ffffffffff;
    0xffffefffffffffff; 0xffffdfffffffffff; 0xffffbfffffffffff; 0xffff7fffffffffff;
    0xfffeffffffffffff; 0xfffdffffffffffff; 0xfffbffffffffffff; 0xfff7ffffffffffff;
    0xffefffffffffffff; 0xffdfffffffffffff; 0xffbfffffffffffff; 0xff7fffffffffffff;
    0xfeffffffffffffff; 0xfdffffffffffffff; 0xfbffffffffffffff; 0xf7ffffffffffffff;
    0xefffffffffffffff; 0xdfffffffffffffff; 0xbfffffffffffffff; 0x7fffffffffffffff]%Z.

Definition NULL_LOWER_MASKS : list Z := [
    0x0; 0x1; 0x3; 0x7; 0xf; 0x1f; 0x3f; 0x7f; 0xff; 0x1ff; 0x3ff; 0x7ff; 0xfff; 0x1fff; 0x3fff;
    0x7fff; 0xffff; 0x1ffff; 0x3ffff; 0x7ffff; 0xfffff; 0x1fffff; 0x3fffff; 0x7fffff; 0xffffff;
    0x1ffffff; 0x3ffffff; 0x7ffffff; 0xfffffff; 0x1fffffff; 0x3fffffff; 0x7fffffff; 0xffffffff;
    0x1ffffffff; 0x3ffffffff; 0x7ffffffff; 0xfffffffff; 0x1fffffffff; 0x3fffffffff; 0x7fffffffff;
    0xffffffffff; 0x1ffffffffff; 0x3ffffffffff; 0x7ffffffffff; 0xfffffffffff; 0x1fffffffffff;
    0x3fffffffffff; 0x7fffffffffff; 0xffffffffffff; 0x1ffffffffffff; 0x3ffffffffffff;
    0x7ffffffffffff; 0xfffffffffffff; 0x1fffffffffffff; 0x3fffffffffffff; 0x7fffffffffffff;
    0xffffffffffffff; 0x1ffffffffffffff; 0x3ffffffffffffff; 0x7ffffffffffffff; 0xfffffffffffffff;
    0x1fffffffffffffff; 0x3fffffffffffffff; 0x7fffffffffffffff; 0xffffffffffffffff]%Z.

Definition NULL_HIGH_MASKS : list Z := [
    0x0; 0x8000000000000000; 0xc000000000000000; 0xe000000000000000; 0xf000000000000000;
    0xf800000000000000; 0xfc00000000000000; 0xfe00000000000000; 0xff00000000000000;
    0xff80000000000000; 0xffc0000000000000; 0xffe0000000000000; 0xfff0000000000000;
    0xfff8000000000000; 0xfffc000000000000; 0xfffe000000000000; 0xffff000000000000;
    0xffff800000000000; 0xffffc00000000000; 0xffffe00000000000; 0xfffff00000000000;
    0xfffff80000000000; 0xfffffc0000000000; 0xfffffe0000000000; 0xffffff0000000000;
    0xffffff8000000000; 0xffffffc000000000; 0xffffffe000000000; 0xfffffff000000000;
    0xfffffff800000000; 0xfffffffc00000000; 0xfffffffe00000000; 0xffffffff00000000;
    0xffffffff80000000; 0xffffffffc0000000; 0xffffffffe0000000; 0xfffffffff0000000;
    0xfffffffff8000000; 0xfffffffffc000000; 0xfffffffffe000000; 0xffffffffff000000;
    0xffffffffff800000; 0xffffffffffc00000; 0xffffffffffe00000; 0xfffffffffff00000;
    0xfffffffffff80000; 0xfffffffffffc0000; 0xfffffffffffe0000; 0xffffffffffff0000;
    0xffffffffffff8000; 0xffffffffffffc000; 0xffffffffffffe000; 0xfffffffffffff000;
    0xfffffffffffff800; 0xfffffffffffffc00; 0xfffffffffffffe00; 0xffffffffffffff00;
    0xffffffffffffff80; 0xffffffffffffffc0; 0xffffffffffffffe0; 0xfffffffffffffff0;
    0xfffffffffffffff8; 0xfffffffffffffffc; 0xfffffffffffffffe; 0xffffffffffffffff]%Z.

Definition NO_NULL_ENTRY : Z := 0.
Definition ALL_NULL_ENTRY : Z := 2 ^ 64 - 1.

(** [~w] on 64-bit words. *)
Definition bnot (w : Z) : Z := Z.lxor w (Z.ones 64).

(** [p[i]] and [p[i] = f(p[i])]. *)
Definition at_ (es : list Z) (i : Z) : option Z := if decide (0 ≤ i) then es !! Z.to_nat i else None.

Definition upd (es : list Z) (i : Z) (f : Z → Z) : option (list Z) :=
  w ← at_ es i; Some (<[Z.to_nat i := f w]> es).

Definition getNullEntryAndBitPos (pos : Z) : Z * Z :=
  let nullEntryPos := Z.shiftr pos 6 in (nullEntryPos, pos - Z.shiftl nullEntryPos 6).

Definition getNumNullBits (data : list Z) : Z := Z.of_nat (length data) * 64.

Definition getNumNullEntries (numNullBits : Z) : Z :=
  Z.shiftr numNullBits 6 + (if decide (u64 (numNullBits - u64 (Z.shiftl numNullBits 6)) = 0) then 0 else 1).

Definition isNull (es : list Z) (pos : Z) : option bool :=
  let '(entryPos, bitPosInEntry) := getNullEntryAndBitPos (u32 pos) in
  w ← at_ es entryPos;
  m ← at_ NULL_BITMASKS_WITH_SINGLE_ONE bitPosInEntry;
  Some (negb (Z.land w m =? 0)).

Definition setNull (es : list Z) (pos : Z) (isNull : bool) : option (list Z) :=
  let pos := u32 pos in
  let entryPos := Z.shiftr pos 6 in
  let bitPosInEntry := pos - Z.shiftl entryPos 6 in
  if isNull then m ← at_ NULL_BITMASKS_WITH_SINGLE_ONE bitPosInEntry; upd es entryPos (λ w, Z.lor w m)
  else m ← at_ NULL_BITMASKS_WITH_SINGLE_ZERO bitPosInEntry; upd es entryPos (λ w, Z.land w m).

(** ** [copyUnaligned] *)

(** The three branches of the loop body: the word to merge into the destination, the number of
    bits read, and the next positions [(srcEntry, srcBit, dstEntry, dstBit)]. *)
Definition read_bits (src : list Z) (invert : bool) (left sE sB dE dB : Z) :
    option (Z * Z * (Z * Z * Z * Z)) :=
  w ← at_ src sE;
  let w := if invert then bnot w else w in
  if decide (dB < sB) then
    let n := Z.min (64 - sB) left in
    high ← at_ NULL_HIGH_MASKS (64 - (sB + n));
    low ← at_ NULL_LOWER_MASKS dB;
    let w := Z.land (Z.shiftr (Z.land w (bnot high)) (sB - dB)) (bnot low) in
    Some (w, n, (sE + 1, 0, dE, dB + n))
  else if decide (sB < dB) then
    let n := Z.min (64 - dB) left in
    low ← at_ NULL_LOWER_MASKS sB;
    high ← at_ NULL_HIGH_MASKS (64 - (dB + n));
    let w := Z.land (u64 (Z.shiftl (Z.land w (bnot low)) (dB - sB))) (bnot high) in
    Some (w, n, (sE, sB + n, dE + 1, 0))
  else
    let n := Z.min (64 - dB) left in
    low ← at_ NULL_LOWER_MASKS sB;
    high ← at_ NULL_HIGH_MASKS (64 - (dB + n));
    let w := Z.land (Z.land w (bnot low)) (bnot high) in
    Some (w, n, (sE + 1, 0, dE + 1, 0)).

Fixpoint copy_unaligned_loop (fuel : nat) (src : list Z) (invert : bool) (numBitsToCopy bitPos : Z)
    (pos : Z * Z * Z * Z) (dst : list Z) (hasNull : bool) : option (list Z * bool) :=
  if decide (bitPos < numBitsToCopy) then
    match fuel with
    | O => None
    | S fuel =>
        let '(sE, sB, dE, dB) := pos in
        '(w, n, pos) ← read_bits src invert (numBitsToCopy - bitPos) sE sB dE dB;
        low ← at_ NULL_LOWER_MASKS n;
        dst ← upd dst dE (λ d, Z.land d (bnot (u64 (Z.shiftl low dB))));
        dst ← (if decide (w = 0) then Some dst else upd dst dE (λ d, Z.lor d w));
        copy_unaligned_loop fuel src invert numBitsToCopy (bitPos + n) pos dst
          (hasNull || negb (w =? 0))
    end
  else Some (dst, hasNull).

Definition copyUnaligned (src : list Z) (srcOffset : Z) (dst : list Z) (dstOffset numBitsToCopy : Z)
    (invert : bool) : option (list Z * bool) :=
  let '(sE, sB) := getNullEntryAndBitPos srcOffset in
  let '(dE, dB) := getNullEntryAndBitPos dstOffset in
  copy_unaligned_loop (Z.to_nat numBitsToCopy) src invert numBitsToCopy 0 (sE, sB, dE, dB) dst false.

(** ** [copyNullMask] *)

(** The loop for at most three bits. *)
Definition copy_few (src : list Z) (srcOffset : Z) (dst : list Z) (dstOffset : Z) (n : nat)
    (invert : bool) : option (list Z * bool) :=
  ofold (λ '(dst, anyNull) i,
    b ← isNull src (srcOffset + Z.of_nat i);
    dst ← setNull dst (dstOffset + Z.of_nat i) (xorb b invert);
    Some (dst, (anyNull : bool) || (b : bool))) (dst, false) (seq 0 n).

(** Bytes of an array of words. *)
Definition byte_at (es : list Z) (k : Z) : option Z :=
  w ← at_ es (k / 8); Some (Z.land (Z.shiftr w (8 * (k `mod` 8))) 255).

Definition set_byte (es : list Z) (k v : Z) : option (list Z) :=
  upd es (k / 8) (λ w,
    Z.lor (Z.land w (bnot (Z.shiftl 255 (8 * (k `mod` 8))))) (Z.shiftl v (8 * (k `mod` 8)))).

(** [memcpy(dst, src, n)]; the flag is [any_of(src, src + n, val != 0)]. *)
Definition memcpy (src : list Z) (from : Z) (dst : list Z) (to : Z) (n : nat) : option (list Z * bool) :=
  ofold (λ '(dst, any) i,
    v ← byte_at src (from + Z.of_nat i);
    dst ← set_byte dst (to + Z.of_nat i) v;
    Some (dst, (any : bool) || negb (v =? 0))) (dst, false) (seq 0 n).

Definition copyNullMask (src : list Z) (srcOffset : Z) (dst : list Z) (dstOffset numBitsToCopy : Z)
    (invert : bool) : option (list Z * bool) :=
  if decide (numBitsToCopy ≤ 3) then copy_few src srcOffset dst dstOffset (Z.to_nat numBitsToCopy) invert
  else if decide (invert = false ∧ srcOffset `mod` 8 = dstOffset `mod` 8 ∧ 8 ≤ numBitsToCopy ∧
    8 ≤ numBitsToCopy - srcOffset `mod` 8) then
    let numBitsInFirstByte := if decide (srcOffset = 0) then 0 else 8 - srcOffset `mod` 8 in
    '(dst, hasNull) ← (if decide (srcOffset = 0) then Some (dst, false)
      else copyUnaligned src srcOffset dst dstOffset numBitsInFirstByte false);
    let numBytesForAlignedCopy := (numBitsToCopy - numBitsInFirstByte) / 8 in
    '(dst, any) ← memcpy src ((srcOffset + numBitsInFirstByte) / 8) dst
      ((dstOffset + numBitsInFirstByte) / 8) (Z.to_nat numBytesForAlignedCopy);
    let hasNull := (hasNull : bool) || (any : bool) in
    let lastByteStart := numBitsInFirstByte + numBytesForAlignedCopy * 8 in
    let numBitsInLastByte := numBitsToCopy - numBitsInFirstByte - numBytesForAlignedCopy * 8 in
    if decide (0 < numBitsInLastByte) then
      '(dst, last) ← copyUnaligned src (srcOffset + lastByteStart) dst (dstOffset + lastByteStart)
        numBitsInLastByte false;
      Some (dst, (last : bool) || hasNull)
    else Some (dst, hasNull)
  else copyUnaligned src srcOffset dst dstOffset numBitsToCopy invert.

(** ** [setNullRange] *)

(** [std::fill] over the words [from .. to). *)
Definition fill (es : list Z) (from to : Z) (v : Z) : option (list Z) :=
  ofold (λ es i, upd es (from + Z.of_nat i) (λ _, v)) es (seq 0 (Z.to_nat (to - from))).

Definition setNullRange (es : list Z) (offset numBitsToSet : Z) (isNull : bool) : option (list Z) :=
  if decide (numBitsToSet = 0) then Some es
  else
    let '(firstEntryPos, firstBitPos) := getNullEntryAndBitPos offset in
    let '(lastEntryPos, lastBitPos) := getNullEntryAndBitPos (offset + numBitsToSet) in
    es ← (if decide (firstEntryPos + 1 < lastEntryPos)
      then fill es (firstEntryPos + 1) lastEntryPos (if isNull then ALL_NULL_ENTRY else NO_NULL_ENTRY)
      else Some es);
    low ← at_ NULL_LOWER_MASKS firstBitPos;
    if decide (firstEntryPos = lastEntryPos) then
      high ← at_ NULL_HIGH_MASKS (64 - lastBitPos);
      if isNull then upd es firstEntryPos (λ w, Z.lor w (Z.land (bnot low) (bnot high)))
      else upd es firstEntryPos (λ w, Z.land w (Z.lor low high))
    else
      es ← (if isNull then upd es firstEntryPos (λ w, Z.lor w (bnot low))
        else upd es firstEntryPos (λ w, Z.land w low));
      if decide (0 < lastBitPos) then
        last ← at_ NULL_LOWER_MASKS lastBitPos;
        if isNull then upd es lastEntryPos (λ w, Z.lor w last)
        else upd es lastEntryPos (λ w, Z.land w (bnot last))
      else Some es.

(** ** [getMinMax] *)

(** The loop over the full words. *)
Fixpoint all_equal (n : nat) (es : list Z) (from baseline : Z) : option bool :=
  match n with
  | O => Some true
  | S n => w ← at_ es from; if decide (w = baseline) then all_equal n es (from + 1) baseline else Some false
  end.

Definition minmax_tail (es : list Z) (start numValues : Z) (min max : bool) : option (bool * bool) :=
  let baseline := if min then ALL_NULL_ENTRY else 0 in
  same ← all_equal (Z.to_nat (numValues / 64)) es start baseline;
  if negb same then Some (false, true)
  else
    let start := start + numValues / 64 in
    let numValues := numValues `mod` 64 in
    if decide (0 < numValues) then
      mask ← at_ NULL_LOWER_MASKS numValues;
      w ← at_ es start;
      let masked := Z.land w mask in
      if decide (masked = 0) then Some (false, max)
      else if decide (masked = mask) then Some (min, true) else Some (false, true)
    else Some (min, max).

Definition getMinMax (es : list Z) (offset numValues : Z) : option (bool * bool) :=
  let start := offset / 64 in
  let offset := offset `mod` 64 in
  if decide (offset + numValues ≤ 64) then
    high ← at_ NULL_HIGH_MASKS (64 - offset);
    low ← at_ NULL_LOWER_MASKS (offset + numValues);
    w ← at_ es start;
    let mask := Z.land high low in
    let masked := Z.land w mask in
    if decide (masked = 0) then Some (false, false)
    else if decide (masked = mask) then Some (true, true) else Some (false, true)
  else if decide (0 < offset) then
    mask ← at_ NULL_HIGH_MASKS (64 - offset);
    w ← at_ es start;
    let masked := Z.land w mask in
    if decide (masked = 0) then minmax_tail es (start + 1) (numValues - (64 - offset)) false false
    else if decide (masked = mask) then minmax_tail es (start + 1) (numValues - (64 - offset)) true true
    else Some (false, true)
  else
    b ← (w ← at_ es start; Some (negb (Z.land w 1 =? 0)));
    minmax_tail es start numValues b b.

(** ** The mask *)

Record NullMask := mkNullMask { data : list Z; mayContainNulls : bool }.

Definition createNullMask (capacity : Z) : NullMask :=
  mkNullMask (replicate (Z.to_nat ((capacity + 64 - 1) / 64)) NO_NULL_ENTRY) false.

Definition hasNoNullsGuarantee (m : NullMask) : bool := negb (mayContainNulls m).

Definition setAllNonNull (m : NullMask) : NullMask :=
  if negb (mayContainNulls m) then m else mkNullMask ((λ _, NO_NULL_ENTRY) <$> data m) false.

Definition setAllNull (m : NullMask) : NullMask := mkNullMask ((λ _, ALL_NULL_ENTRY) <$> data m) true.

Definition setNullAt (m : NullMask) (pos : Z) (isNull : bool) : option NullMask :=
  if decide (pos < getNumNullBits (data m)) then
    es ← setNull (data m) pos isNull;
    Some (mkNullMask es (if isNull then true else mayContainNulls m))
  else None.

Definition isNullAt (m : NullMask) (pos : Z) : option bool :=
  if decide (pos < getNumNullBits (data m)) then isNull (data m) pos else None.

Definition copyFromNullBits (m : NullMask) (src : list Z) (srcOffset dstOffset numBitsToCopy : Z)
    (invert : bool) : option (NullMask * bool) :=
  if decide (dstOffset + numBitsToCopy ≤ getNumNullBits (data m)) then
    '(es, any) ← copyNullMask src srcOffset (data m) dstOffset numBitsToCopy invert;
    Some (mkNullMask es (if any : bool then true else mayContainNulls m), any)
  else None.

Definition setNullFromRange (m : NullMask) (offset numBitsToSet : Z) (isNull : bool) : option NullMask :=
  if decide (offset + numBitsToSet ≤ getNumNullBits (data m)) then
    es ← setNullRange (data m) offset numBitsToSet isNull;
    Some (mkNullMask es (if isNull then true else mayContainNulls m))
  else None.

Definition copyFrom (m other : NullMask) (srcOffset dstOffset numBitsToCopy : Z) (invert : bool) :
    option (NullMask * bool) :=
  if hasNoNullsGuarantee other then
    m ← setNullFromRange m dstOffset numBitsToCopy invert; Some (m, invert)
  else copyFromNullBits m (data other) srcOffset dstOffset numBitsToCopy invert.

(** [resize]: [memcpy] of all the old words into the new buffer. *)
Definition resize (m : NullMask) (capacity : Z) : option NullMask :=
  let numNullEntries := Z.to_nat ((capacity + 64 - 1) / 64) in
  if decide (length (data m) ≤ numNullEntries)%nat then
    Some (mkNullMask (data m ++ replicate (numNullEntries - length (data m)) 0) (mayContainNulls m))
  else None.

(** [operator|=]. *)
Definition or_assign (m other : NullMask) : option NullMask :=
  if decide (length (data other) = length (data m)) then
    Some (mkNullMask (zip_with Z.lor (data m) (data other)) (mayContainNulls m))
  else None.

(** [std::popcount]. *)
Definition popcount (w : Z) : nat :=
  length (filter (λ i, Z.testbit w (Z.of_nat i) = true) (seq 0 64)).

Definition countNulls (m : NullMask) : Z := foldl (λ sum w, u64 (sum + Z.of_nat (popcount w))) 0 (data m).

(** ** Words and bits *)

Definition word_ok (w : Z) : Prop := 0 ≤ w < 2 ^ 64.

(** The flag at position [i]. *)
Definition bit (es : list Z) (i : Z) : bool :=
  Z.testbit (default 0 (es !! Z.to_nat (i / 64))) (i `mod` 64).

Lemma word_ok_high w j : word_ok w → 64 ≤ j → Z.testbit w j = false.
Proof.
  intros [H0 H1] Hj. destruct (decide (w = 0)) as [->|]; [apply Z.bits_0|].
  apply Z.bits_above_log2; [done|]. enough (Z.log2 w < 64) by lia. apply Z.log2_lt_pow2; lia.
Qed.

Lemma word_ok_bits w : 0 ≤ w → (∀ j, 64 ≤ j → Z.testbit w j = false) → word_ok w.
Proof.
  intros Hw H. split; [done|]. enough (w = w `mod` 2 ^ 64) as -> by (apply Z.mod_pos_bound; lia).
  apply Z.bits_inj'. intros j Hj. destruct (decide (j < 64)).
  - by rewrite Z.mod_pow2_bits_low by lia.
  - rewrite Z.mod_pow2_bits_high by lia. apply H. lia.
Qed.

Lemma word_ext w w' : word_ok w → word_ok w' → (∀ j, 0 ≤ j < 64 → Z.testbit w j = Z.testbit w' j) → w = w'.
Proof.
  intros Hw Hw' H. apply Z.bits_inj'. intros j Hj. destruct (decide (j < 64)); [apply H; lia|].
  by rewrite !word_ok_high by (done || lia).
Qed.

Lemma word_zero w : word_ok w → w = 0 ↔ ∀ j, 0 ≤ j < 64 → Z.testbit w j = false.
Proof.
  intros Hw. split; [intros -> j _; apply Z.bits_0|]. intros H. apply word_ext; [done|done|].
  intros j Hj. rewrite H by done. by rewrite Z.bits_0.
Qed.

Lemma bnot_spec w j : 0 ≤ j < 64 → Z.testbit (bnot w) j = negb (Z.testbit w j).
Proof.
  intros Hj. unfold bnot. rewrite Z.lxor_spec, Z.testbit_ones_nonneg by lia.
  replace (j <? 64) with true by lia. by destruct (Z.testbit w j).
Qed.

Lemma u64_spec w j : 0 ≤ j < 64 → Z.testbit (u64 w) j = Z.testbit w j.
Proof. intros Hj. unfold u64. by rewrite Z.mod_pow2_bits_low by lia. Qed.

Lemma ones_spec n j : 0 ≤ n → 0 ≤ j → Z.testbit (Z.ones n) j = bool_decide (j < n).
Proof. intros Hn Hj. rewrite Z.testbit_ones_nonneg by done. case_bool_decide; lia. Qed.

Lemma ones_nonneg n : 0 ≤ n → 0 ≤ Z.ones n.
Proof. intros Hn. rewrite Z.ones_equiv. pose proof (Z.pow_pos_nonneg 2 n). lia. Qed.

Lemma u64_ok w : word_ok (u64 w).
Proof. apply Z.mod_pos_bound. lia. Qed.

Lemma bnot_ok w : word_ok w → word_ok (bnot w).
Proof.
  intros Hw. apply word_ok_bits.
  - unfold bnot. apply Z.lxor_nonneg. destruct Hw. split; intros; [|done]. done.
  - intros j Hj. unfold bnot. rewrite Z.lxor_spec, (word_ok_high w), Z.testbit_ones_nonneg by (done || lia).
    replace (j <? 64) with false by lia. done.
Qed.

Lemma land_ok_l w v : word_ok w → word_ok (Z.land w v).
Proof.
  intros Hw. apply word_ok_bits; [apply Z.land_nonneg; left; by destruct Hw|].
  intros j Hj. by rewrite Z.land_spec, (word_ok_high w).
Qed.

Lemma lor_ok w v : word_ok w → word_ok v → word_ok (Z.lor w v).
Proof.
  intros Hw Hv. apply word_ok_bits; [apply Z.lor_nonneg; split; [by destruct Hw|by destruct Hv]|].
  intros j Hj. by rewrite Z.lor_spec, !word_ok_high.
Qed.

Lemma shiftr_ok w n : 0 ≤ n → word_ok w → word_ok (Z.shiftr w n).
Proof.
  intros Hn Hw. apply word_ok_bits; [apply Z.shiftr_nonneg; by destruct Hw|].
  intros j Hj. rewrite Z.shiftr_spec by lia. apply word_ok_high; [done|lia].
Qed.

Create HintDb words.
#[export] Hint Resolve u64_ok bnot_ok land_ok_l lor_ok shiftr_ok : words.

(** ** The tables *)

Lemma table_lookup (t : list Z) (f : Z → Z) (n : nat) i :
  Forall (λ k, t !! k = Some (f (Z.of_nat k))) (seq 0 n) → 0 ≤ i < Z.of_nat n → at_ t i = Some (f i).
Proof.
  intros H Hi. unfold at_. rewrite decide_True by lia. rewrite Forall_forall in H.
  rewrite (H (Z.to_nat i)) by (apply elem_of_seq; lia). by rewrite Z2Nat.id by lia.
Qed.

Lemma lower_mask n : 0 ≤ n ≤ 64 → at_ NULL_LOWER_MASKS n = Some (Z.ones n).
Proof. intros Hn. apply (table_lookup _ Z.ones 65); [by_eval|lia]. Qed.

Lemma high_mask n : 0 ≤ n ≤ 64 → at_ NULL_HIGH_MASKS n = Some (Z.shiftl (Z.ones n) (64 - n)).
Proof. intros Hn. apply (table_lookup _ (λ n, Z.shiftl (Z.ones n) (64 - n)) 65); [by_eval|lia]. Qed.

Lemma single_one n : 0 ≤ n < 64 → at_ NULL_BITMASKS_WITH_SINGLE_ONE n = Some (2 ^ n).
Proof. intros Hn. apply (table_lookup _ (λ n, 2 ^ n) 64); [by_eval|lia]. Qed.

Lemma single_zero n : 0 ≤ n < 64 → at_ NULL_BITMASKS_WITH_SINGLE_ZERO n = Some (bnot (2 ^ n)).
Proof. intros Hn. apply (table_lookup _ (λ n, bnot (2 ^ n)) 64); [by_eval|lia]. Qed.

Lemma high_spec n j : 0 ≤ n ≤ 64 → 0 ≤ j < 64 → Z.testbit (Z.shiftl (Z.ones n) (64 - n)) j = bool_decide (64 - n ≤ j).
Proof.
  intros Hn Hj. rewrite Z.shiftl_spec by lia. destruct (decide (64 - n ≤ j)).
  - rewrite ones_spec by lia. rewrite !bool_decide_true by lia. done.
  - rewrite Z.testbit_neg_r by lia. by rewrite bool_decide_false by lia.
Qed.

Lemma high_ok n : 0 ≤ n ≤ 64 → word_ok (Z.shiftl (Z.ones n) (64 - n)).
Proof.
  intros Hn. apply word_ok_bits; [apply Z.shiftl_nonneg; apply ones_nonneg; lia|].
  intros j Hj. rewrite Z.shiftl_spec, ones_spec by lia. by rewrite bool_decide_false by lia.
Qed.

Lemma ones_ok n : 0 ≤ n ≤ 64 → word_ok (Z.ones n).
Proof.
  intros Hn. apply word_ok_bits; [apply ones_nonneg; lia|]. intros j Hj. rewrite ones_spec by lia.
  by rewrite bool_decide_false by lia.
Qed.

#[export] Hint Resolve ones_ok high_ok : words.

(** Pushes a test of a bit below 64 through the operations on words. *)
Ltac bits :=
  repeat first [rewrite Z.land_spec | rewrite Z.lor_spec | rewrite bnot_spec by lia | rewrite u64_spec by lia
    | rewrite high_spec by lia | rewrite ones_spec by lia].

(** ** [copyUnaligned] *)

Lemma read_bits_spec src invert left sE sB dE dB w :
  at_ src sE = Some w → word_ok w → 0 ≤ sB < 64 → 0 ≤ dB < 64 → 0 < left →
  ∃ x n sE' sB' dE' dB', read_bits src invert left sE sB dE dB = Some (x, n, (sE', sB', dE', dB')) ∧
    0 < n ≤ left ∧ dB + n ≤ 64 ∧ sB + n ≤ 64 ∧ word_ok x ∧
    (∀ j, 0 ≤ j < 64 → Z.testbit x j = bool_decide (dB ≤ j < dB + n) && xorb (Z.testbit w (sB + (j - dB))) invert) ∧
    (n = left ∨ (64 * sE' + sB' = 64 * sE + sB + n ∧ 64 * dE' + dB' = 64 * dE + dB + n ∧ 0 ≤ sB' < 64 ∧ 0 ≤ dB' < 64)).
Proof.
  intros Hw Hok HsB HdB Hleft. unfold read_bits. rewrite Hw. cbn [mbind option_bind].
  set (v := if invert then bnot w else w).
  assert (word_ok v) as Hv by (unfold v; destruct invert; auto with words).
  assert (∀ j, 0 ≤ j < 64 → Z.testbit v j = xorb (Z.testbit w j) invert) as Hvb.
  { intros j Hj. unfold v. destruct invert; [rewrite bnot_spec by done|]; by destruct (Z.testbit w j). }
  clearbody v. destruct (decide (dB < sB)) as [Hlt|Hnlt]; [|destruct (decide (sB < dB)) as [Hgt|Hngt]].
  - rewrite high_mask, lower_mask by lia. cbn [mbind option_bind]. eexists _, _, _, _, _, _. split; [reflexivity|].
    split_and!; [lia..|auto with words lia| |lia]. intros j Hj. bits. rewrite Z.shiftr_spec by lia.
    destruct (decide (j + (sB - dB) < 64)).
    + bits. rewrite Hvb by lia. replace (sB + (j - dB)) with (j + (sB - dB)) by lia.
      repeat case_bool_decide; simpl; rewrite ?andb_true_r, ?andb_false_r; try done; lia.
    + rewrite Z.land_spec, (word_ok_high v) by (done || lia). repeat case_bool_decide; done || lia.
  - rewrite high_mask, lower_mask by lia. cbn [mbind option_bind]. eexists _, _, _, _, _, _. split; [reflexivity|].
    split_and!; [lia..|auto with words lia| |lia]. intros j Hj. bits. rewrite Z.shiftl_spec by lia.
    destruct (decide (0 ≤ j - (dB - sB))).
    + bits. rewrite Hvb by lia. replace (sB + (j - dB)) with (j - (dB - sB)) by lia.
      repeat case_bool_decide; simpl; rewrite ?andb_true_r, ?andb_false_r; try done; lia.
    + rewrite Z.testbit_neg_r by lia. repeat case_bool_decide; done || lia.
  - assert (sB = dB) as -> by lia. rewrite high_mask, lower_mask by lia. cbn [mbind option_bind]. eexists _, _, _, _, _, _. split; [reflexivity|].
    split_and!; [lia..|auto with words lia| |lia]. intros j Hj. bits. rewrite Hvb by lia. replace (dB + (j - dB)) with j by lia.
    repeat case_bool_decide; simpl; rewrite ?andb_true_r, ?andb_false_r; try done; lia.
Qed.

(** ** Accesses in range *)

Lemma at_Some (es : list Z) i : 0 ≤ i < Z.of_nat (length es) → ∃ w, at_ es i = Some w ∧ es !! Z.to_nat i = Some w.
Proof.
  intros Hi. unfold at_. rewrite decide_True by lia.
  destruct (lookup_lt_is_Some_2 es (Z.to_nat i)) as [w Hw]; [lia|]. by exists w.
Qed.

Lemma at_ok es i w : Forall word_ok es → at_ es i = Some w → word_ok w.
Proof.
  intros H. unfold at_. case_decide; [|done]. intros Hw. rewrite Forall_forall in H. apply H.
  by eapply list_elem_of_lookup_2.
Qed.

Lemma bit_at es i j w : at_ es i = Some w → 0 ≤ j < 64 → bit es (64 * i + j) = Z.testbit w j.
Proof.
  unfold at_. case_decide as Hi; [|done]. intros Hw Hj. unfold bit.
  assert ((64 * i + j) / 64 = i) as -> by (symmetry; apply (Z.div_unique _ _ _ j); lia).
  assert ((64 * i + j) `mod` 64 = j) as -> by (symmetry; apply (Z.mod_unique _ _ i j); lia).
  by rewrite Hw.
Qed.

Lemma upd_Some es i f w :
  at_ es i = Some w →
  ∃ es', upd es i f = Some es' ∧ length es' = length es ∧ at_ es' i = Some (f w) ∧
    (Forall word_ok es → word_ok (f w) → Forall word_ok es') ∧
    (∀ k, 0 ≤ k → bit es' k = if decide (k / 64 = i) then Z.testbit (f w) (k `mod` 64) else bit es k) ∧
    ∀ i', i' ≠ i → at_ es' i' = at_ es i'.
Proof.
  intros Hw. unfold upd. rewrite Hw. cbn [mbind option_bind]. eexists. split; [done|].
  unfold at_ in Hw. destruct (decide (0 ≤ i)) as [Hi|]; [|done]. pose proof (lookup_lt_Some _ _ _ Hw) as Hlt.
  split_and!.
  - apply length_insert.
  - unfold at_. rewrite decide_True by done. by apply list_lookup_insert_eq.
  - intros. by apply Forall_insert.
  - intros k Hk. unfold bit. destruct (decide (k / 64 = i)) as [<-|Hne].
    + by rewrite list_lookup_insert_eq by done.
    + rewrite list_lookup_insert_ne; [done|]. assert (0 ≤ k / 64) by (apply Z.div_pos; lia). lia.
  - intros i' Hne. unfold at_. case_decide; [|done]. apply list_lookup_insert_ne. lia.
Qed.

(** [dst'] is [dst] with the [n] bits from [dof] on replaced by the bits of [src] from [so] on,
    inverted if [inv]. *)
Definition copied (src : list Z) (so : Z) (dst : list Z) (dof n : Z) (inv : bool) (dst' : list Z) : Prop :=
  length dst' = length dst ∧ Forall word_ok dst' ∧
  ∀ k, 0 ≤ k → bit dst' k = if decide (dof ≤ k < dof + n) then xorb (bit src (so + (k - dof))) inv else bit dst k.

Lemma copied_0 src so dst dof n inv : n ≤ 0 → Forall word_ok dst → copied src so dst dof n inv dst.
Proof. intros Hn Hok. split_and!; [done..|]. intros k Hk. by rewrite decide_False by lia. Qed.

Lemma copied_trans src so dst dof n m inv dst1 dst2 :
  0 ≤ n → 0 ≤ m → 0 ≤ dof → copied src so dst dof n inv dst1 → copied src (so + n) dst1 (dof + n) m inv dst2 →
  copied src so dst dof (n + m) inv dst2.
Proof.
  intros Hn Hm Hd (Hl1 & Hok1 & Hb1) (Hl2 & Hok2 & Hb2). split_and!; [congruence|done|]. intros k Hk.
  rewrite Hb2 by done. destruct (decide (dof + n ≤ k < dof + n + m)).
  - rewrite decide_True by lia. do 2 f_equal. lia.
  - rewrite Hb1 by done. destruct (decide (dof ≤ k < dof + n)); [by rewrite decide_True by lia|].
    by rewrite decide_False by lia.
Qed.

(** Whether one of [n] bits from [so] on is set (after inversion). *)
Definition any_bit (src : list Z) (so n : Z) (inv : bool) : bool :=
  existsb (λ i, xorb (bit src (so + Z.of_nat i)) inv) (seq 0 (Z.to_nat n)).

Lemma any_bit_true src so n inv :
  any_bit src so n inv = true ↔ ∃ k, 0 ≤ k < n ∧ xorb (bit src (so + k)) inv = true.
Proof.
  unfold any_bit. rewrite existsb_exists. split.
  - intros (i & Hi%list_elem_of_In%elem_of_seq & Hb). exists (Z.of_nat i). split; [lia|done].
  - intros (k & Hk & Hb). exists (Z.to_nat k). split; [apply list_elem_of_In, elem_of_seq; lia|].
    by rewrite Z2Nat.id by lia.
Qed.

Lemma any_bit_add src so n m inv :
  0 ≤ n → 0 ≤ m → any_bit src so (n + m) inv = any_bit src so n inv || any_bit src (so + n) m inv.
Proof.
  intros Hn Hm. apply eq_true_iff_eq. rewrite orb_true_iff, !any_bit_true. split.
  - intros (k & Hk & Hb). destruct (decide (k < n)); [left; exists k; split; [lia|done]|].
    right. exists (k - n). split; [lia|]. by replace (so + n + (k - n)) with (so + k) by lia.
  - intros [(k & Hk & Hb)|(k & Hk & Hb)]; [exists k; split; [lia|done]|].
    exists (n + k). split; [lia|]. by replace (so + (n + k)) with (so + n + k) by lia.
Qed.

(** One iteration: the word at [dE] gets the bits read. *)
Lemma copy_word src dst inv sE sB dE dB x n w :
  at_ src sE = Some w → Forall word_ok dst → 0 ≤ dE < Z.of_nat (length dst) →
  0 ≤ sB < 64 → 0 ≤ dB → 0 < n → dB + n ≤ 64 → sB + n ≤ 64 → word_ok x →
  (∀ j, 0 ≤ j < 64 → Z.testbit x j = bool_decide (dB ≤ j < dB + n) && xorb (Z.testbit w (sB + (j - dB))) inv) →
  ∃ dst', (low ← at_ NULL_LOWER_MASKS n; dst ← upd dst dE (λ d, Z.land d (bnot (u64 (Z.shiftl low dB))));
      if decide (x = 0) then Some dst else upd dst dE (λ d, Z.lor d x)) = Some dst' ∧
    copied src (64 * sE + sB) dst (64 * dE + dB) n inv dst'.
Proof.
  intros Hw Hok HdE HsB HdB Hn Hd Hs Hx Hbits. rewrite lower_mask by lia. cbn [mbind option_bind].
  destruct (at_Some dst dE HdE) as (d & Hd0 & _). pose proof (at_ok _ _ _ Hok Hd0) as Hdok.
  destruct (upd_Some dst dE (λ d, Z.land d (bnot (u64 (Z.shiftl (Z.ones n) dB)))) d Hd0) as (dst1 & -> & Hl1 & Hd1 & Hok1 & Hb1 & _).
  cbn [mbind option_bind]. specialize (Hok1 Hok ltac:(auto with words)).
  assert (∃ dst2, (if decide (x = 0) then Some dst1 else upd dst1 dE (λ d, Z.lor d x)) = Some dst2 ∧ length dst2 = length dst1 ∧
    Forall word_ok dst2 ∧ ∀ k, 0 ≤ k → bit dst2 k = bit dst1 k || (if decide (k / 64 = dE) then Z.testbit x (k `mod` 64) else false))
    as (dst2 & -> & Hl2 & Hok2 & Hb2).
  { destruct (decide (x = 0)) as [->|].
    - exists dst1. split_and!; [done..|]. intros k Hk. rewrite Z.bits_0. by destruct (decide (_ = _)); rewrite orb_false_r.
    - destruct (upd_Some dst1 dE (λ d, Z.lor d x) _ Hd1) as (dst2 & -> & Hl2 & _ & Hok2 & Hb2 & _).
      exists dst2. split_and!; [done|done|auto with words|]. intros k Hk. rewrite Hb2 by done.
      destruct (decide (k / 64 = dE)); [|by rewrite orb_false_r]. rewrite Z.lor_spec. f_equal.
      rewrite Hb1 by done. by rewrite decide_True by done. }
  exists dst2. split; [done|]. split_and!; [congruence|done|]. intros k Hk. rewrite Hb2, Hb1 by done.
  pose proof (Z.div_mod k 64 ltac:(lia)) as Hkd. pose proof (Z.mod_pos_bound k 64 ltac:(lia)) as Hkm.
  destruct (decide (k / 64 = dE)) as [He|Hne].
  - bits. rewrite Hbits by done. rewrite Z.shiftl_spec by lia. rewrite He in Hkd.
    destruct (decide (64 * dE + dB ≤ k < 64 * dE + dB + n)) as [Hin|Hout].
    + rewrite ones_spec by lia. rewrite (bool_decide_true (k `mod` 64 - dB < n)), bool_decide_true by lia.
      cbn [negb andb]. rewrite andb_false_r. cbn [orb]. rewrite <-(bit_at src sE _ w Hw) by lia. do 2 f_equal. lia.
    + rewrite (bool_decide_false (dB ≤ _ < _)) by lia. cbn [andb]. rewrite orb_false_r.
      assert (Z.testbit (Z.ones n) (k `mod` 64 - dB) = false) as ->.
      { destruct (decide (k `mod` 64 < dB)); [apply Z.testbit_neg_r; lia|]. rewrite ones_spec by lia. apply bool_decide_false. lia. }
      cbn [negb]. rewrite andb_true_r, <-(bit_at dst dE _ d Hd0) by done. f_equal. lia.
  - rewrite orb_false_r. rewrite decide_False; [done|]. intros Hk'. apply Hne. symmetry. apply (Z.div_unique _ _ _ (k - 64 * dE)); lia.
Qed.

Lemma any_bit_word src sE sB dB n inv x w :
  at_ src sE = Some w → 0 ≤ sB → 0 ≤ dB → 0 < n → dB + n ≤ 64 → sB + n ≤ 64 → word_ok x →
  (∀ j, 0 ≤ j < 64 → Z.testbit x j = bool_decide (dB ≤ j < dB + n) && xorb (Z.testbit w (sB + (j - dB))) inv) →
  negb (x =? 0) = any_bit src (64 * sE + sB) n inv.
Proof.
  intros Hw HsB HdB Hn Hd Hs Hx Hbits. apply eq_true_iff_eq. rewrite any_bit_true, negb_true_iff, Z.eqb_neq.
  rewrite word_zero by done. split.
  - intros Hnz. destruct (decide (Exists (λ i : nat, Z.testbit x (Z.of_nat i) = true) (seq 0 64))) as [Hex|Hnex].
    + apply Exists_exists in Hex as (i & Hi%elem_of_seq & Hb). rewrite Hbits in Hb by lia.
      apply andb_true_iff in Hb as [Hr%bool_decide_eq_true Hb]. exists (Z.of_nat i - dB). split; [lia|].
      rewrite <-(bit_at src sE _ w Hw) in Hb by lia. by replace (64 * sE + sB + (Z.of_nat i - dB)) with (64 * sE + (sB + (Z.of_nat i - dB))) by lia.
    + exfalso. apply Hnz. intros j Hj. rewrite <-Forall_Exists_neg, Forall_forall in Hnex.
      specialize (Hnex (Z.to_nat j) ltac:(apply elem_of_seq; lia)). rewrite Z2Nat.id in Hnex by lia. by destruct (Z.testbit x j).
  - intros (k & Hk & Hb) Hall. specialize (Hall (dB + k) ltac:(lia)). rewrite Hbits, bool_decide_true in Hall by lia.
    cbn [andb] in Hall. rewrite <-(bit_at src sE _ w Hw) in Hall by lia.
    replace (64 * sE + (sB + (dB + k - dB))) with (64 * sE + sB + k) in Hall by lia. congruence.
Qed.

Lemma copy_unaligned_loop_spec fuel src inv num pos0 sE sB dE dB dst has :
  Forall word_ok src → Forall word_ok dst → 0 ≤ sE → 0 ≤ dE → 0 ≤ sB < 64 → 0 ≤ dB < 64 →
  0 ≤ num - pos0 ≤ Z.of_nat fuel →
  64 * sE + sB + (num - pos0) ≤ 64 * Z.of_nat (length src) → 64 * dE + dB + (num - pos0) ≤ 64 * Z.of_nat (length dst) →
  ∃ dst', copy_unaligned_loop fuel src inv num pos0 (sE, sB, dE, dB) dst has =
      Some (dst', has || any_bit src (64 * sE + sB) (num - pos0) inv) ∧
    copied src (64 * sE + sB) dst (64 * dE + dB) (num - pos0) inv dst'.
Proof.
  intros Hsrc. revert pos0 sE sB dE dB dst has.
  induction fuel as [|fuel IH]; intros pos0 sE sB dE dB dst has Hdst HsE HdE HsB HdB Hf Hrs Hrd; cbn [copy_unaligned_loop].
  { rewrite decide_False by lia. exists dst. split; [|apply copied_0; [lia|done]]. do 2 f_equal.
    unfold any_bit. replace (Z.to_nat (num - pos0)) with 0%nat by lia. by rewrite orb_false_r. }
  destruct (decide (pos0 < num)) as [Hlt|Hge].
  2:{ exists dst. split; [|apply copied_0; [lia|done]]. do 2 f_equal.
    unfold any_bit. replace (Z.to_nat (num - pos0)) with 0%nat by lia. by rewrite orb_false_r. }
  destruct (at_Some src sE ltac:(lia)) as (w & Hw & _).
  destruct (read_bits_spec src inv (num - pos0) sE sB dE dB w Hw) as
    (x & n & sE' & sB' & dE' & dB' & -> & Hn & Hdn & Hsn & Hx & Hbits & Hnext); [exact (at_ok _ _ _ Hsrc Hw)|lia..|].
  cbn [mbind option_bind].
  destruct (copy_word src dst inv sE sB dE dB x n w) as (dst1 & Hstep & Hcop); [done|done|lia..|done|done|].
  destruct (at_ NULL_LOWER_MASKS n) as [low|]; [|done]. cbn [mbind option_bind] in *.
  destruct (upd dst dE _) as [dst0|]; [|done]. cbn [mbind option_bind] in *. rewrite Hstep. cbn [mbind option_bind].
  rewrite (any_bit_word src sE sB dB n inv x w) by (done || lia).
  destruct Hnext as [Hlast|(Hs' & Hd' & HsB' & HdB')].
  - exists dst1. split.
    + destruct fuel; cbn [copy_unaligned_loop]; rewrite decide_False by lia; by rewrite Hlast.
    + by rewrite <-Hlast.
  - destruct Hcop as (Hl1 & Hok1 & Hb1).
    destruct (IH (pos0 + n) sE' sB' dE' dB' dst1 (has || any_bit src (64 * sE + sB) n inv)) as (dst2 & -> & Hcop2); try done; try lia.
    exists dst2. replace (num - pos0) with (n + (num - (pos0 + n))) by lia.
    rewrite any_bit_add, orb_assoc by lia. rewrite Hs', Hd' in *. split; [done|].
    eapply copied_trans; [lia..|by split_and!|done].
Qed.

Lemma entry_bit_pos pos : 0 ≤ pos →
  ∃ e b, getNullEntryAndBitPos pos = (e, b) ∧ 0 ≤ e ∧ 0 ≤ b < 64 ∧ pos = 64 * e + b ∧ e = pos / 64 ∧ b = pos `mod` 64.
Proof.
  intros Hp. unfold getNullEntryAndBitPos. rewrite Z.shiftr_div_pow2, Z.shiftl_mul_pow2 by lia. change (2 ^ 6) with 64.
  pose proof (Z.div_mod pos 64 ltac:(lia)). pose proof (Z.mod_pos_bound pos 64 ltac:(lia)). pose proof (Z.div_pos pos 64 Hp ltac:(lia)).
  eexists _, _. split_and!; [done|lia..].
Qed.

Lemma copyUnaligned_Some src so dst dof n inv :
  Forall word_ok src → Forall word_ok dst → 0 ≤ so → 0 ≤ dof → 0 ≤ n →
  so + n ≤ 64 * Z.of_nat (length src) → dof + n ≤ 64 * Z.of_nat (length dst) →
  ∃ dst', copyUnaligned src so dst dof n inv = Some (dst', any_bit src so n inv) ∧ copied src so dst dof n inv dst'.
Proof.
  intros Hsrc Hdst Hso Hdo Hn Hrs Hrd. unfold copyUnaligned.
  destruct (entry_bit_pos so Hso) as (sE & sB & -> & HsE & HsB & Hs & _).
  destruct (entry_bit_pos dof Hdo) as (dE & dB & -> & HdE & HdB & Hd & _).
  destruct (copy_unaligned_loop_spec (Z.to_nat n) src inv n 0 sE sB dE dB dst false) as (dst' & -> & Hc); try done; try lia.
  exists dst'. rewrite Z.sub_0_r, <-Hs, <-?Hd in *. done.
Qed.

(** ** Single bits and bytes *)

Lemma test_single w b : 0 ≤ b → negb (Z.land w (2 ^ b) =? 0) = Z.testbit w b.
Proof.
  intros Hb. destruct (Z.testbit w b) eqn:E.
  - apply negb_true_iff, Z.eqb_neq. intros H. apply (f_equal (λ z, Z.testbit z b)) in H.
    rewrite Z.land_spec, E, Z.pow2_bits_true, Z.bits_0 in H by done. done.
  - apply negb_false_iff, Z.eqb_eq, Z.bits_inj'. intros j Hj. rewrite Z.land_spec, Z.pow2_bits_eqb, Z.bits_0 by done.
    destruct (Z.eqb_spec b j) as [<-|]; [by rewrite E|apply andb_false_r].
Qed.

Lemma isNull_Some es pos : 0 ≤ pos < 2 ^ 32 → pos < getNumNullBits es → isNull es pos = Some (bit es pos).
Proof.
  intros Hp Hr. unfold isNull, u32. rewrite Z.mod_small by done. unfold getNumNullBits in Hr.
  destruct (entry_bit_pos pos) as (e & b & -> & He & Hb & Hpos & _); [lia|].
  destruct (at_Some es e ltac:(lia)) as (w & Hw & _). rewrite Hw. cbn [mbind option_bind].
  rewrite single_one by done. cbn [mbind option_bind]. rewrite test_single by lia. f_equal.
  rewrite Hpos. symmetry. by apply bit_at.
Qed.

Lemma pow2_ok b : 0 ≤ b < 64 → word_ok (2 ^ b).
Proof. intros Hb. split; [apply Z.pow_nonneg; lia|apply Z.pow_lt_mono_r; lia]. Qed.

Lemma setNull_Some es pos v :
  Forall word_ok es → 0 ≤ pos < 2 ^ 32 → pos < getNumNullBits es →
  ∃ es', setNull es pos v = Some es' ∧ length es' = length es ∧ Forall word_ok es' ∧
    ∀ k, 0 ≤ k → bit es' k = if decide (k = pos) then v else bit es k.
Proof.
  intros Hok Hp Hr. unfold setNull, u32. rewrite Z.mod_small by done. unfold getNumNullBits in Hr.
  destruct (entry_bit_pos pos) as (e & b & Hg & He & Hb & Hpos & He' & Hb'); [lia|].
  unfold getNullEntryAndBitPos in Hg. injection Hg as Hg1 Hg2. rewrite Hg2, Hg1.
  destruct (at_Some es e ltac:(lia)) as (w & Hw & _). pose proof (at_ok _ _ _ Hok Hw) as Hwok.
  set (f := λ w, if v then Z.lor w (2 ^ b) else Z.land w (bnot (2 ^ b))).
  assert ((if v then m ← at_ NULL_BITMASKS_WITH_SINGLE_ONE b; upd es e (λ w, Z.lor w m)
    else m ← at_ NULL_BITMASKS_WITH_SINGLE_ZERO b; upd es e (λ w, Z.land w m)) = upd es e f) as ->.
  { unfold f. destruct v; [rewrite single_one by lia|rewrite single_zero by lia]; done. }
  destruct (upd_Some es e f w Hw) as (es' & -> & Hl & _ & Hok' & Hbit & _). exists es'. split_and!; [done|done| |].
  { apply Hok'; [done|]. pose proof (pow2_ok b Hb). unfold f. destruct v; auto with words. }
  intros k Hk. rewrite Hbit by done. pose proof (Z.div_mod k 64 ltac:(lia)). pose proof (Z.mod_pos_bound k 64 ltac:(lia)).
  assert (Z.testbit (2 ^ b) (k `mod` 64) = bool_decide (k `mod` 64 = b)) as H2.
  { rewrite Z.pow2_bits_eqb by lia. case_bool_decide; lia. }
  destruct (decide (k / 64 = e)) as [Hke|Hke]; [|rewrite decide_False; [done|congruence]].
  unfold f. destruct v; bits; rewrite H2; case_bool_decide as Hkb; cbn [negb].
  - rewrite decide_True by lia. apply orb_true_r.
  - rewrite decide_False by lia. rewrite orb_false_r, <-(bit_at es e _ w) by done. f_equal. lia.
  - rewrite decide_True by lia. apply andb_false_r.
  - rewrite decide_False by lia. rewrite andb_true_r, <-(bit_at es e _ w) by done. f_equal. lia.
Qed.

Lemma any_bit_snoc src so (n : nat) inv :
  any_bit src so (Z.of_nat (S n)) inv = any_bit src so (Z.of_nat n) inv || xorb (bit src (so + Z.of_nat n)) inv.
Proof.
  replace (Z.of_nat (S n)) with (Z.of_nat n + 1) by lia. rewrite any_bit_add by lia. f_equal.
  unfold any_bit. change (Z.to_nat 1) with 1%nat. cbn [seq existsb]. rewrite orb_false_r. by rewrite Z.add_0_r.
Qed.

Lemma copy_few_Some src so dst dof n inv :
  Forall word_ok dst → 0 ≤ so → 0 ≤ dof → so + Z.of_nat n ≤ 2 ^ 32 → dof + Z.of_nat n ≤ 2 ^ 32 →
  so + Z.of_nat n ≤ getNumNullBits src → dof + Z.of_nat n ≤ getNumNullBits dst →
  ∃ dst', copy_few src so dst dof n inv = Some (dst', any_bit src so (Z.of_nat n) false) ∧
    copied src so dst dof (Z.of_nat n) inv dst'.
Proof.
  intros Hok Hso Hdo Hs32 Hd32 Hs Hd. unfold copy_few.
  match goal with |- context [ofold ?f ?b ?l] => destruct (ofold_total f
    (λ dn st, st.2 = any_bit src so (Z.of_nat (length dn)) false ∧ copied src so dst dof (Z.of_nat (length dn)) inv st.1) l b)
    as ([dst' any] & Hf & Hany & Hc) end.
  - simpl. split; [done|]. by apply copied_0.
  - intros dn i rest [dst1 any] El [Hany (Hl1 & Hok1 & Hb1)]. cbn [fst snd] in *.
    assert (i = length dn ∧ (length dn < n)%nat) as [-> Hlt] by (by eapply seq_middle).
    rewrite isNull_Some by (unfold getNumNullBits in *; lia). cbn [mbind option_bind].
    destruct (setNull_Some dst1 (dof + Z.of_nat (length dn)) (xorb (bit src (so + Z.of_nat (length dn))) inv))
      as (dst2 & -> & Hl2 & Hok2 & Hb2); [done|lia|unfold getNumNullBits in *; rewrite Hl1; lia|].
    cbn [mbind option_bind]. eexists. split; [done|]. cbn [fst snd]. rewrite length_app. cbn [length].
    rewrite Nat.add_1_r. split; [by rewrite any_bit_snoc, Hany, xorb_false_r|]. split_and!; [congruence|done|].
    intros k Hk. rewrite Hb2, Hb1 by done. destruct (decide (k = dof + Z.of_nat (length dn))) as [->|].
    + rewrite decide_True by lia. do 2 f_equal. lia.
    + destruct (decide (dof ≤ k < dof + Z.of_nat (length dn))); [by rewrite decide_True by lia|by rewrite decide_False by lia].
  - rewrite length_seq in *. cbn [fst snd] in *. subst any. by exists dst'.
Qed.

Lemma byte_at_Some es k :
  0 ≤ k < 8 * Z.of_nat (length es) →
  ∃ v, byte_at es k = Some v ∧ 0 ≤ v < 256 ∧ ∀ j, 0 ≤ j < 8 → Z.testbit v j = bit es (8 * k + j).
Proof.
  intros Hk. unfold byte_at. pose proof (Z.div_mod k 8 ltac:(lia)). pose proof (Z.mod_pos_bound k 8 ltac:(lia)).
  destruct (at_Some es (k / 8)) as (w & Hw & _); [split; [apply Z.div_pos; lia|apply Z.div_lt_upper_bound; lia]|].
  rewrite Hw. cbn [mbind option_bind]. eexists. split; [done|]. change 255 with (Z.ones 8). split.
  - rewrite Z.land_ones by lia. by apply Z.mod_pos_bound.
  - intros j Hj. rewrite Z.land_spec, ones_spec by lia. rewrite bool_decide_true by lia. rewrite andb_true_r, Z.shiftr_spec by lia.
    rewrite <-(bit_at es (k / 8) _ w Hw) by lia. f_equal. lia.
Qed.

Lemma byte_high v j : 0 ≤ v < 256 → 8 ≤ j → Z.testbit v j = false.
Proof.
  intros Hv Hj. destruct (decide (v = 0)) as [->|]; [apply Z.bits_0|]. apply Z.bits_above_log2; [lia|].
  enough (Z.log2 v < 8) by lia. apply Z.log2_lt_pow2; lia.
Qed.

Lemma set_byte_Some es k v :
  Forall word_ok es → 0 ≤ v < 256 → 0 ≤ k < 8 * Z.of_nat (length es) →
  ∃ es', set_byte es k v = Some es' ∧ length es' = length es ∧ Forall word_ok es' ∧
    ∀ i, 0 ≤ i → bit es' i = if decide (8 * k ≤ i < 8 * k + 8) then Z.testbit v (i - 8 * k) else bit es i.
Proof.
  intros Hok Hv Hk. unfold set_byte. pose proof (Z.div_mod k 8 ltac:(lia)) as Hkd. pose proof (Z.mod_pos_bound k 8 ltac:(lia)) as Hkm.
  destruct (at_Some es (k / 8)) as (w & Hw & _); [split; [apply Z.div_pos; lia|apply Z.div_lt_upper_bound; lia]|].
  pose proof (at_ok _ _ _ Hok Hw) as Hwok. set (s := 8 * (k `mod` 8)).
  destruct (upd_Some es (k / 8) (λ w, Z.lor (Z.land w (bnot (Z.shiftl 255 s))) (Z.shiftl v s)) w Hw)
    as (es' & -> & Hl & _ & Hok' & Hbit & _). exists es'. split_and!; [done|done| |].
  { apply Hok'; [done|]. apply lor_ok; [auto with words|]. apply word_ok_bits; [apply Z.shiftl_nonneg; lia|].
    intros j Hj. rewrite Z.shiftl_spec by lia. apply byte_high; [done|]. unfold s. lia. }
  intros i Hi. rewrite Hbit by done. pose proof (Z.div_mod i 64 ltac:(lia)). pose proof (Z.mod_pos_bound i 64 ltac:(lia)).
  destruct (decide (i / 64 = k / 8)) as [He|Hne].
  2:{ rewrite decide_False; [done|]. intros Hr. apply Hne. symmetry. apply (Z.div_unique _ _ _ (i - 64 * (k / 8))); lia. }
  bits. rewrite !Z.shiftl_spec by lia. change 255 with (Z.ones 8).
  destruct (decide (8 * k ≤ i < 8 * k + 8)) as [Hin|Hout].
  - rewrite ones_spec by lia. rewrite bool_decide_true by lia. cbn [negb]. rewrite andb_false_r. cbn [orb]. f_equal. lia.
  - assert (Z.testbit (Z.ones 8) (i `mod` 64 - s) = false ∧ Z.testbit v (i `mod` 64 - s) = false) as [-> ->].
    { destruct (decide (i `mod` 64 < s)); [split; apply Z.testbit_neg_r; lia|].
      split; [rewrite ones_spec by lia; apply bool_decide_false; lia|apply byte_high; [done|lia]]. }
    cbn [negb]. rewrite andb_true_r, orb_false_r, <-(bit_at es (k / 8) _ w Hw) by lia. f_equal. lia.
Qed.

Lemma any_bit_byte src k v :
  0 ≤ v < 256 → (∀ j, 0 ≤ j < 8 → Z.testbit v j = bit src (8 * k + j)) → negb (v =? 0) = any_bit src (8 * k) 8 false.
Proof.
  intros Hv Hb. apply eq_true_iff_eq. rewrite any_bit_true, negb_true_iff, Z.eqb_neq. split.
  - intros Hnz. exists (Z.log2 v). pose proof (Z.log2_nonneg v). assert (Z.log2 v < 8) by (apply Z.log2_lt_pow2; lia).
    split; [lia|]. rewrite xorb_false_r, <-Hb by lia. apply Z.bit_log2. lia.
  - intros (j & Hj & Hbit) ->. rewrite xorb_false_r, <-Hb, Z.bits_0 in Hbit by done. done.
Qed.

Lemma memcpy_Some src from dst to n :
  Forall word_ok dst → 0 ≤ from → 0 ≤ to →
  from + Z.of_nat n ≤ 8 * Z.of_nat (length src) → to + Z.of_nat n ≤ 8 * Z.of_nat (length dst) →
  ∃ dst', memcpy src from dst to n = Some (dst', any_bit src (8 * from) (8 * Z.of_nat n) false) ∧
    copied src (8 * from) dst (8 * to) (8 * Z.of_nat n) false dst'.
Proof.
  intros Hok Hfr Hto Hs Hd. unfold memcpy.
  match goal with |- context [ofold ?f ?b ?l] => destruct (ofold_total f
    (λ dn st, st.2 = any_bit src (8 * from) (8 * Z.of_nat (length dn)) false ∧
      copied src (8 * from) dst (8 * to) (8 * Z.of_nat (length dn)) false st.1) l b) as ([dst' any] & Hf & Hany & Hc) end.
  - simpl. split; [done|]. by apply copied_0.
  - intros dn i rest [dst1 any] El [Hany (Hl1 & Hok1 & Hb1)]. cbn [fst snd] in *.
    assert (i = length dn ∧ (length dn < n)%nat) as [-> Hlt] by (by eapply seq_middle).
    destruct (byte_at_Some src (from + Z.of_nat (length dn)) ltac:(lia)) as (v & -> & Hv & Hvb). cbn [mbind option_bind].
    destruct (set_byte_Some dst1 (to + Z.of_nat (length dn)) v Hok1 Hv) as (dst2 & -> & Hl2 & Hok2 & Hb2); [lia|].
    cbn [mbind option_bind]. eexists. split; [done|]. cbn [fst snd]. rewrite length_app. cbn [length]. rewrite Nat.add_1_r.
    replace (8 * Z.of_nat (S (length dn))) with (8 * Z.of_nat (length dn) + 8) by lia. split.
    + rewrite any_bit_add, Hany by lia. f_equal. rewrite (any_bit_byte src (from + Z.of_nat (length dn)) v) by done. f_equal. lia.
    + eapply copied_trans; [lia..|by split_and!|]. split_and!; [done..|]. intros k Hk. rewrite Hb2 by done.
      replace (8 * (to + Z.of_nat (length dn))) with (8 * to + 8 * Z.of_nat (length dn)) by lia.
      case_decide; [|done]. rewrite Hvb, xorb_false_r by lia. f_equal. lia.
  - rewrite length_seq in *. cbn [fst snd] in *. subst any. by exists dst'.
Qed.

(** ** [copyNullMask] *)

Lemma copyNullMask_Some src so dst dof n inv :
  Forall word_ok src → Forall word_ok dst → 0 ≤ so → 0 ≤ dof → 0 ≤ n → so + n ≤ 2 ^ 32 → dof + n ≤ 2 ^ 32 →
  so + n ≤ getNumNullBits src → dof + n ≤ getNumNullBits dst →
  ∃ dst', copyNullMask src so dst dof n inv =
      Some (dst', any_bit src so n (if decide (n ≤ 3) then false else inv)) ∧ copied src so dst dof n inv dst'.
Proof.
  intros Hsrc Hdst Hso Hdo Hn Hs32 Hd32 Hrs Hrd. unfold copyNullMask. unfold getNumNullBits in *.
  destruct (decide (n ≤ 3)) as [Hle|Hgt].
  { destruct (copy_few_Some src so dst dof (Z.to_nat n) inv) as (dst' & Hc & Hcop); unfold getNumNullBits; try done; try lia.
    rewrite Z2Nat.id in * by lia. by exists dst'. }
  case_decide as Hal.
  2:{ apply copyUnaligned_Some; done || lia. }
  destruct Hal as (-> & Hmod & Hn8 & Hn8'). pose proof (Z.mod_pos_bound so 8 ltac:(lia)). pose proof (Z.mod_pos_bound dof 8 ltac:(lia)).
  set (f := if decide (so = 0) then 0 else 8 - so `mod` 8).
  assert (0 ≤ f ≤ 8 ∧ f ≤ n ∧ (so + f) `mod` 8 = 0 ∧ (dof + f) `mod` 8 = 0) as (Hf & Hfn & Hfs & Hfd).
  { unfold f. destruct (decide (so = 0)) as [->|]; [rewrite !Z.add_0_r; change (0 `mod` 8) with 0 in *; lia|].
    pose proof (Z.div_mod so 8 ltac:(lia)). pose proof (Z.div_mod dof 8 ltac:(lia)). split_and!; try lia.
    - symmetry. apply (Z.mod_unique _ _ (so / 8 + 1)); lia.
    - symmetry. apply (Z.mod_unique _ _ (dof / 8 + 1)); lia. }
  assert (∃ dst1, (if decide (so = 0) then Some (dst, false) else copyUnaligned src so dst dof f false) =
    Some (dst1, any_bit src so f false) ∧ copied src so dst dof f false dst1) as (dst1 & -> & Hc1).
  { subst f. destruct (decide (so = 0)); [exists dst; split; [done|by apply copied_0]|]. apply copyUnaligned_Some; done || lia. }
  cbn [mbind option_bind]. pose proof Hc1 as (Hl1 & Hok1 & _). set (m := (n - f) / 8).
  assert (0 ≤ m) as Hm by (apply Z.div_pos; lia).
  pose proof (Z.div_mod (n - f) 8 ltac:(lia)) as Hnd. fold m in Hnd. pose proof (Z.mod_pos_bound (n - f) 8 ltac:(lia)) as Hnm.
  pose proof (Z.div_mod (so + f) 8 ltac:(lia)) as Hsd. pose proof (Z.div_mod (dof + f) 8 ltac:(lia)) as Hdd. rewrite Hfs in Hsd. rewrite Hfd in Hdd.
  destruct (memcpy_Some src ((so + f) / 8) dst1 ((dof + f) / 8) (Z.to_nat m)) as (dst2 & -> & Hc2); try done; try lia.
  cbn [mbind option_bind]. rewrite Z2Nat.id in * by done.
  replace (8 * ((so + f) / 8)) with (so + f) in * by lia. replace (8 * ((dof + f) / 8)) with (dof + f) in * by lia.
  assert (copied src so dst dof (f + 8 * m) false dst2) as Hc12 by (eapply copied_trans; [..|done|done]; lia).
  assert (any_bit src so f false || any_bit src (so + f) (8 * m) false = any_bit src so (f + 8 * m) false) as -> by (by rewrite any_bit_add by lia).
  pose proof Hc12 as (Hl2 & Hok2 & _). destruct (decide (0 < n - f - m * 8)) as [Hlast|Hno].
  - destruct (copyUnaligned_Some src (so + (f + m * 8)) dst2 (dof + (f + m * 8)) (n - f - m * 8) false) as (dst3 & -> & Hc3); try done; try lia.
    cbn [mbind option_bind]. exists dst3. replace (f + m * 8) with (f + 8 * m) in * by lia. split.
    + do 2 f_equal. rewrite orb_comm, <-any_bit_add by lia. f_equal. lia.
    + replace n with (f + 8 * m + (n - f - m * 8)) by lia. eapply copied_trans; [..|done|]; [lia..|].
      by replace (f + 8 * m + (n - f - m * 8) - f - m * 8) with (n - f - m * 8) by lia.
  - exists dst2. replace n with (f + 8 * m) by lia. done.
Qed.

(** ** [setNullRange] *)

(** [es'] is [es] with the bits [lo .. hi) set to [v]. *)
Definition ranged (es : list Z) (lo hi : Z) (v : bool) (es' : list Z) : Prop :=
  length es' = length es ∧ Forall word_ok es' ∧
  ∀ k, 0 ≤ k → bit es' k = if decide (lo ≤ k < hi) then v else bit es k.

Lemma ranged_0 es lo hi v : hi ≤ lo → Forall word_ok es → ranged es lo hi v es.
Proof. intros Hn Hok. split_and!; [done..|]. intros k Hk. by rewrite decide_False by lia. Qed.

Lemma ranged_app es a b c d v es1 es2 lo hi :
  ranged es a b v es1 → ranged es1 c d v es2 → lo = Z.min a c → hi = Z.max b d → (b = c ∨ d = a) → a ≤ b → c ≤ d →
  ranged es lo hi v es2.
Proof.
  intros (Hl1 & Hok1 & Hb1) (Hl2 & Hok2 & Hb2) Hlo Hhi Hadj Hab Hcd. split_and!; [congruence|done|]. intros k Hk.
  rewrite Hb2, Hb1 by done. destruct (decide (c ≤ k < d)); [by rewrite decide_True by lia|].
  destruct (decide (a ≤ k < b)); [by rewrite decide_True by lia|by rewrite decide_False by lia].
Qed.

Lemma ranged_word es e f lo hi v :
  Forall word_ok es → 0 ≤ e < Z.of_nat (length es) → 0 ≤ lo → hi ≤ 64 →
  (∀ w, word_ok w → word_ok (f w) ∧ ∀ j, 0 ≤ j < 64 → Z.testbit (f w) j = if decide (lo ≤ j < hi) then v else Z.testbit w j) →
  ∃ es', upd es e f = Some es' ∧ ranged es (64 * e + lo) (64 * e + hi) v es'.
Proof.
  intros Hok He Hlo Hhi Hf. destruct (at_Some es e He) as (w & Hw & _). destruct (Hf w (at_ok _ _ _ Hok Hw)) as [Hfok Hfb].
  destruct (upd_Some es e f w Hw) as (es' & -> & Hl & _ & Hok' & Hbit & _). exists es'. split; [done|].
  split_and!; [done|by apply Hok'|]. intros k Hk. rewrite Hbit by done.
  pose proof (Z.div_mod k 64 ltac:(lia)). pose proof (Z.mod_pos_bound k 64 ltac:(lia)).
  destruct (decide (k / 64 = e)) as [Hke|Hke].
  - rewrite Hfb by done. destruct (decide (lo ≤ k `mod` 64 < hi)); [by rewrite decide_True by lia|].
    rewrite decide_False by lia. rewrite <-(bit_at es e _ w Hw) by done. f_equal. lia.
  - rewrite decide_False; [done|]. intros Hr. apply Hke. symmetry. apply (Z.div_unique _ _ _ (k - 64 * e)); lia.
Qed.

Lemma fill_Some es from to (v : bool) :
  Forall word_ok es → 0 ≤ from ≤ to → to ≤ Z.of_nat (length es) →
  ∃ es', fill es from to (if v then ALL_NULL_ENTRY else NO_NULL_ENTRY) = Some es' ∧ ranged es (64 * from) (64 * to) v es'.
Proof.
  intros Hok Hft Hto. unfold fill.
  match goal with |- context [ofold ?f ?b ?l] => destruct (ofold_total f
    (λ dn es1, ranged es (64 * from) (64 * (from + Z.of_nat (length dn))) v es1) l b) as (es' & -> & Hr) end.
  - apply ranged_0; [simpl; lia|done].
  - intros dn i rest es1 El Hr. pose proof Hr as (Hl1 & Hok1 & _).
    assert (i = length dn ∧ (length dn < Z.to_nat (to - from))%nat) as [-> Hlt] by (by eapply seq_middle).
    destruct (ranged_word es1 (from + Z.of_nat (length dn)) (λ _, if v then ALL_NULL_ENTRY else NO_NULL_ENTRY) 0 64 v)
      as (es2 & -> & Hr2); [done|lia..| |].
    { intros w _. unfold ALL_NULL_ENTRY, NO_NULL_ENTRY. change (2 ^ 64 - 1) with (Z.ones 64). split; [destruct v; [auto with words lia|done]|].
      intros j Hj. rewrite decide_True by done. destruct v; [rewrite ones_spec by lia; apply bool_decide_true; lia|apply Z.bits_0]. }
    exists es2. split; [done|]. eapply ranged_app; [exact Hr|exact Hr2|rewrite ?length_app; simpl; lia..].
  - exists es'. split; [done|]. rewrite length_seq in Hr. by replace (from + Z.of_nat (Z.to_nat (to - from))) with to in Hr by lia.
Qed.

Ltac decide_bits := repeat case_bool_decide; repeat case_decide; simpl; rewrite ?andb_true_r, ?andb_false_r, ?orb_true_r, ?orb_false_r; done || lia.

Lemma setNullRange_Some es off n v :
  Forall word_ok es → 0 ≤ off → 0 ≤ n → off + n ≤ getNumNullBits es →
  ∃ es', setNullRange es off n v = Some es' ∧ ranged es off (off + n) v es'.
Proof.
  intros Hok Hoff Hn Hr. unfold getNumNullBits in Hr. unfold setNullRange. destruct (decide (n = 0)) as [->|Hnz].
  { exists es. split; [done|]. apply ranged_0; [lia|done]. }
  destruct (entry_bit_pos off Hoff) as (fE & fB & -> & HfE & HfB & Hf & _).
  destruct (entry_bit_pos (off + n) ltac:(lia)) as (lE & lB & -> & HlE & HlB & Hl & _).
  assert (∃ es1, (if decide (fE + 1 < lE) then fill es (fE + 1) lE (if v then ALL_NULL_ENTRY else NO_NULL_ENTRY) else Some es) = Some es1 ∧
    ranged es (64 * (fE + 1)) (64 * Z.max (fE + 1) lE) v es1) as (es1 & -> & Hr1).
  { case_decide; [|exists es; split; [done|apply ranged_0; [lia|done]]].
    destruct (fill_Some es (fE + 1) lE v) as (es1 & -> & Hr1); [done|lia..|]. exists es1. by rewrite Z.max_r by lia. }
  cbn [mbind option_bind]. rewrite (lower_mask fB) by lia. cbn [mbind option_bind]. pose proof Hr1 as (Hl1 & Hok1 & Hb1).
  destruct (decide (fE = lE)) as [He|Hne].
  - rewrite high_mask by lia. cbn [mbind option_bind].
    assert (∃ es2, (if v then upd es1 fE (λ w, Z.lor w (Z.land (bnot (Z.ones fB)) (bnot (Z.shiftl (Z.ones (64 - lB)) (64 - (64 - lB))))))
      else upd es1 fE (λ w, Z.land w (Z.lor (Z.ones fB) (Z.shiftl (Z.ones (64 - lB)) (64 - (64 - lB)))))) = Some es2 ∧
      ranged es1 (64 * fE + fB) (64 * fE + lB) v es2) as (es2 & -> & Hr2).
    { destruct v; apply ranged_word; try done; try lia; intros w Hw; (split; [auto 6 with words lia|]);
        intros j Hj; bits; destruct (Z.testbit w j); decide_bits. }
    exists es2. split; [done|]. destruct Hr2 as (Hl2 & Hok2 & Hb2). split_and!; [congruence|done|].
    intros k Hk. rewrite Hb2, Hb1 by done. destruct (decide (64 * fE + fB ≤ k < 64 * fE + lB)); [by rewrite decide_True by lia|].
    rewrite !decide_False by lia. done.
  - assert (∃ es2, (if v then upd es1 fE (λ w, Z.lor w (bnot (Z.ones fB))) else upd es1 fE (λ w, Z.land w (Z.ones fB))) = Some es2 ∧
      ranged es1 (64 * fE + fB) (64 * fE + 64) v es2) as (es2 & -> & Hr2).
    { destruct v; apply ranged_word; try done; try lia; intros w Hw; (split; [auto 6 with words lia|]);
        intros j Hj; bits; destruct (Z.testbit w j); decide_bits. }
    cbn [mbind option_bind]. pose proof Hr2 as (Hl2 & Hok2 & _).
    assert (ranged es off (64 * lE) v es2) as Hr12 by (eapply ranged_app; [exact Hr1|exact Hr2|lia..]).
    destruct (decide (0 < lB)); [|exists es2; split; [done|]; by replace (off + n) with (64 * lE) by lia].
    rewrite lower_mask by lia. cbn [mbind option_bind].
    assert (∃ es3, (if v then upd es2 lE (λ w, Z.lor w (Z.ones lB)) else upd es2 lE (λ w, Z.land w (bnot (Z.ones lB)))) = Some es3 ∧
      ranged es2 (64 * lE + 0) (64 * lE + lB) v es3) as (es3 & -> & Hr3).
    { destruct v; apply ranged_word; try done; try lia; intros w Hw; (split; [auto 6 with words lia|]);
        intros j Hj; bits; destruct (Z.testbit w j); decide_bits. }
    exists es3. split; [done|]. eapply ranged_app; [exact Hr12|exact Hr3|lia..].
Qed.

(** ** [getMinMax] *)

(** The minimum and the maximum of [n] flags from [off] on. *)
Definition min_max (es : list Z) (off n : Z) : bool * bool :=
  (negb (any_bit es off n true), any_bit es off n false).

Lemma any_bit_false es off n inv :
  any_bit es off n inv = false ↔ ∀ k, 0 ≤ k < n → bit es (off + k) = inv.
Proof.
  split.
  - intros H k Hk. destruct (bool_decide_reflect (bit es (off + k) = inv)) as [|Hne]; [done|]. exfalso.
    assert (any_bit es off n inv = true); [|congruence]. apply any_bit_true. exists k. split; [done|].
    by destruct (bit es (off + k)), inv.
  - intros H. apply not_true_iff_false. intros (k & Hk & Hb)%any_bit_true. rewrite H, xorb_nilpotent in Hb by done. done.
Qed.

Lemma min_max_uniform es off n b : 0 < n → any_bit es off n b = false → min_max es off n = (b, b).
Proof.
  intros Hn Hb. rewrite any_bit_false in Hb. pose proof (Hb 0 ltac:(lia)) as H0. unfold min_max. destruct b; f_equal.
  - apply negb_true_iff. by apply any_bit_false.
  - apply any_bit_true. exists 0. rewrite H0. split; [lia|done].
  - apply negb_false_iff, any_bit_true. exists 0. rewrite H0. split; [lia|done].
  - by apply any_bit_false.
Qed.

Lemma min_max_mixed es off n k k' :
  0 ≤ k < n → bit es (off + k) = true → 0 ≤ k' < n → bit es (off + k') = false → min_max es off n = (false, true).
Proof.
  intros Hk Hb Hk' Hb'. unfold min_max. f_equal.
  - apply negb_false_iff, any_bit_true. exists k'. by rewrite Hb'.
  - apply any_bit_true. exists k. by rewrite Hb.
Qed.

Lemma mask_test es e w lo hi mask :
  at_ es e = Some w → word_ok w → word_ok mask → 0 ≤ lo → hi ≤ 64 →
  (∀ j, 0 ≤ j < 64 → Z.testbit mask j = bool_decide (lo ≤ j < hi)) →
  (Z.land w mask = 0 ↔ any_bit es (64 * e + lo) (hi - lo) false = false) ∧
  (Z.land w mask = mask ↔ any_bit es (64 * e + lo) (hi - lo) true = false).
Proof.
  intros Hw Hok Hmok Hlo Hhi Hm. rewrite !any_bit_false. split; split.
  - intros H k Hk. rewrite <-Z.add_assoc, (bit_at es e (lo + k) w Hw) by lia.
    apply (f_equal (λ z, Z.testbit z (lo + k))) in H. rewrite Z.land_spec, Hm, Z.bits_0, bool_decide_true, andb_true_r in H by lia. done.
  - intros H. apply word_zero; [auto with words|]. intros j Hj. rewrite Z.land_spec, Hm by done. case_bool_decide; [|apply andb_false_r].
    rewrite andb_true_r, <-(bit_at es e j w Hw) by done. rewrite <-(H (j - lo)) by lia. f_equal. lia.
  - intros H k Hk. rewrite <-Z.add_assoc, (bit_at es e (lo + k) w Hw) by lia.
    apply (f_equal (λ z, Z.testbit z (lo + k))) in H. rewrite Z.land_spec, Hm, bool_decide_true, andb_true_r in H by lia. done.
  - intros H. apply word_ext; [auto with words|done|]. intros j Hj. rewrite Z.land_spec, Hm by done. case_bool_decide; [|apply andb_false_r].
    rewrite andb_true_r, <-(bit_at es e j w Hw) by done. rewrite <-(H (j - lo)) by lia. f_equal. lia.
Qed.

Lemma baseline_test es e w (b : bool) :
  at_ es e = Some w → word_ok w → w = (if b then ALL_NULL_ENTRY else 0) ↔ any_bit es (64 * e) 64 b = false.
Proof.
  intros Hw Hok. rewrite any_bit_false. split.
  - intros -> k Hk. rewrite (bit_at es e k _ Hw) by done. destruct b; [|apply Z.bits_0].
    change ALL_NULL_ENTRY with (Z.ones 64). rewrite ones_spec by lia. apply bool_decide_true. lia.
  - intros H. apply word_ext; [done|by destruct b|]. intros j Hj. rewrite <-(bit_at es e j w Hw) by done. rewrite H by done.
    destruct b; [|by rewrite Z.bits_0]. change ALL_NULL_ENTRY with (Z.ones 64). rewrite ones_spec by lia. symmetry. apply bool_decide_true. lia.
Qed.

Lemma all_equal_Some n es from (b : bool) :
  Forall word_ok es → 0 ≤ from → from + Z.of_nat n ≤ Z.of_nat (length es) →
  all_equal n es from (if b then ALL_NULL_ENTRY else 0) = Some (negb (any_bit es (64 * from) (64 * Z.of_nat n) b)).
Proof.
  intros Hok. revert from. induction n as [|n IH]; intros from Hfr Hr; cbn [all_equal]; [done|].
  destruct (at_Some es from ltac:(lia)) as (w & Hw & _). rewrite Hw. cbn [mbind option_bind].
  replace (64 * Z.of_nat (S n)) with (64 + 64 * Z.of_nat n) by lia. rewrite any_bit_add by lia.
  destruct (baseline_test es from w b Hw (at_ok _ _ _ Hok Hw)) as [Hb1 Hb2]. case_decide as Heq.
  - rewrite Hb1 by done. rewrite IH by lia. cbn [orb]. do 3 f_equal. lia.
  - destruct (any_bit es (64 * from) 64 b); [done|]. by rewrite Hb2 in Heq.
Qed.

Lemma minmax_tail_Some es start n b :
  Forall word_ok es → 0 ≤ start → 0 ≤ n → 64 * start + n ≤ getNumNullBits es →
  minmax_tail es start n b b = Some (if any_bit es (64 * start) n b then (false, true) else (b, b)).
Proof.
  intros Hok Hst Hn Hr. unfold minmax_tail, getNumNullBits in *. pose proof (Z.div_mod n 64 ltac:(lia)) as Hd.
  pose proof (Z.mod_pos_bound n 64 ltac:(lia)) as Hm. pose proof (Z.div_pos n 64 Hn ltac:(lia)) as Hp.
  rewrite all_equal_Some by (done || lia). cbn [mbind option_bind]. rewrite Z2Nat.id by done.
  replace n with (64 * (n / 64) + n `mod` 64) at 4 by lia. rewrite any_bit_add by lia.
  destruct (any_bit es (64 * start) (64 * (n / 64)) b); [done|]. cbn [negb orb].
  replace (64 * start + 64 * (n / 64)) with (64 * (start + n / 64)) by lia.
  destruct (decide (0 < n `mod` 64)) as [Hpos|Hz].
  - rewrite lower_mask by lia. cbn [mbind option_bind]. destruct (at_Some es (start + n / 64) ltac:(lia)) as (w & Hw & _).
    rewrite Hw. cbn [mbind option_bind].
    destruct (mask_test es _ w 0 (n `mod` 64) (Z.ones (n `mod` 64)) Hw (at_ok _ _ _ Hok Hw)) as [H0 H1]; [auto with words lia|lia..| |].
    { intros j Hj. rewrite ones_spec by lia. apply bool_decide_ext. lia. }
    rewrite Z.add_0_r, Z.sub_0_r in *. set (m := n `mod` 64) in *.
    destruct (any_bit es (64 * (start + n / 64)) m true) eqn:E1, (any_bit es (64 * (start + n / 64)) m false) eqn:E0.
    + rewrite !decide_False by naive_solver. by destruct b; rewrite ?E1, ?E0.
    + rewrite decide_True by naive_solver. by destruct b; rewrite ?E1, ?E0.
    + rewrite decide_False, decide_True by naive_solver. by destruct b; rewrite ?E1, ?E0.
    + exfalso. rewrite any_bit_false in E1, E0. specialize (E1 0 ltac:(lia)). specialize (E0 0 ltac:(lia)). congruence.
  - replace (n `mod` 64) with 0 by lia. done.
Qed.

Lemma min_max_split es off p n b :
  0 < p → 0 ≤ n → any_bit es off p b = false →
  min_max es off (p + n) = if any_bit es (off + p) n b then (false, true) else (b, b).
Proof.
  intros Hp Hn Hb. destruct (any_bit es (off + p) n b) eqn:E.
  - apply any_bit_true in E as (k & Hk & Hx). rewrite any_bit_false in Hb. pose proof (Hb 0 ltac:(lia)) as H0.
    replace (off + p + k) with (off + (p + k)) in Hx by lia. destruct b.
    + apply (min_max_mixed es off _ 0 (p + k)); [lia|done|lia|by destruct (bit es (off + (p + k)))].
    + apply (min_max_mixed es off _ (p + k) 0); [lia|by destruct (bit es (off + (p + k)))|lia|done].
  - apply min_max_uniform; [lia|]. rewrite any_bit_add by lia. by rewrite Hb, E.
Qed.

Lemma getMinMax_Some es off n :
  Forall word_ok es → 0 ≤ off → 0 < n → off + n ≤ getNumNullBits es → getMinMax es off n = Some (min_max es off n).
Proof.
  intros Hok Hoff Hn Hr. unfold getMinMax. unfold getNumNullBits in Hr. pose proof (Z.div_mod off 64 ltac:(lia)) as Hd.
  pose proof (Z.mod_pos_bound off 64 ltac:(lia)) as Hm. pose proof (Z.div_pos off 64 Hoff ltac:(lia)) as Hp.
  set (e := off / 64) in *. set (o := off `mod` 64) in *. destruct (at_Some es e ltac:(lia)) as (w & Hw & _).
  pose proof (at_ok _ _ _ Hok Hw) as Hwok. case_decide as Hone; [|destruct (decide (0 < o)) as [Ho|Ho]].
  - rewrite high_mask, lower_mask, Hw by lia. cbn [mbind option_bind].
    destruct (mask_test es e w o (o + n) (Z.land (Z.shiftl (Z.ones (64 - o)) (64 - (64 - o))) (Z.ones (o + n))) Hw Hwok)
      as [H0 H1]; [auto with words lia|lia..| |].
    { intros j Hj. bits. repeat case_bool_decide; done || lia. }
    rewrite <-Hd in H0, H1. replace (o + n - o) with n in * by lia. unfold min_max.
    destruct (any_bit es off n true) eqn:E1, (any_bit es off n false) eqn:E0.
    + by rewrite !decide_False by naive_solver.
    + by rewrite decide_True by naive_solver.
    + by rewrite decide_False, decide_True by naive_solver.
    + exfalso. rewrite any_bit_false in E1, E0. specialize (E1 0 ltac:(lia)). specialize (E0 0 ltac:(lia)). congruence.
  - rewrite high_mask, Hw by lia. cbn [mbind option_bind].
    destruct (mask_test es e w o 64 (Z.shiftl (Z.ones (64 - o)) (64 - (64 - o))) Hw Hwok) as [H0 H1]; [auto with words lia|lia..| |].
    { intros j Hj. bits. apply bool_decide_ext. lia. }
    rewrite <-Hd in H0, H1. rewrite !minmax_tail_Some by (unfold getNumNullBits; done || lia).
    replace (64 * (e + 1)) with (off + (64 - o)) by lia.
    destruct (any_bit es off (64 - o) true) eqn:E1, (any_bit es off (64 - o) false) eqn:E0.
    + rewrite !decide_False by naive_solver. f_equal. symmetry.
      apply any_bit_true in E1 as (k' & Hk' & Hb'), E0 as (k & Hk & Hb).
      apply (min_max_mixed es off n k k'); [lia|by destruct (bit es (off + k))|lia|by destruct (bit es (off + k'))].
    + rewrite decide_True by naive_solver. f_equal. rewrite <-min_max_split by (done || lia). f_equal. lia.
    + rewrite decide_False, decide_True by naive_solver. f_equal. rewrite <-min_max_split by (done || lia). f_equal. lia.
    + exfalso. rewrite any_bit_false in E1, E0. specialize (E1 0 ltac:(lia)). specialize (E0 0 ltac:(lia)). congruence.
  - rewrite Hw. cbn [mbind option_bind]. rewrite (test_single w 0 : _ → negb (Z.land w 1 =? 0) = _) by lia.
    rewrite minmax_tail_Some by (unfold getNumNullBits; done || lia). replace (64 * e) with off by lia.
    assert (Z.testbit w 0 = bit es off) as -> by (rewrite <-(bit_at es e 0 w Hw) by lia; f_equal; lia).
    set (b := bit es off). f_equal.
    assert (any_bit es off 1 b = false) as Hb1.
    { apply any_bit_false. intros k Hk. replace (off + k) with off by lia. done. }
    replace n with (1 + (n - 1)) by lia. rewrite (min_max_split es off 1 (n - 1) b) by (done || lia).
    by rewrite any_bit_add, Hb1 by lia.
Qed.

(** ** The guarantee of a mask *)

(** A mask that does not report possible nulls has none. *)
Definition mask_ok (m : NullMask) : Prop :=
  Forall word_ok (data m) ∧ (hasNoNullsGuarantee m = true → ∀ k, 0 ≤ k → bit (data m) k = false).

Lemma mask_ok_may m : Forall word_ok (data m) → mayContainNulls m = true → mask_ok m.
Proof. intros Hok Hm. split; [done|]. unfold hasNoNullsGuarantee. by rewrite Hm. Qed.

Lemma bit_const (v : Z) (es : list Z) k : 0 ≤ k → bit ((λ _, v) <$> es) k = true → Z.testbit v (k `mod` 64) = true.
Proof. unfold bit. rewrite list_lookup_fmap. destruct (es !! _); simpl; [done|]. by rewrite Z.bits_0. Qed.

Inductive mask_op :=
  | SetAllNonNull
  | SetAllNull
  | SetNull (pos : Z) (v : bool)
  | SetNullFromRange (offset numBitsToSet : Z) (v : bool)
  | CopyFrom (other : NullMask) (srcOffset dstOffset numBitsToCopy : Z) (invert : bool)
  | Resize (capacity : Z).

Definition exec (op : mask_op) (m : NullMask) : option NullMask :=
  match op with
  | SetAllNonNull => Some (setAllNonNull m)
  | SetAllNull => Some (setAllNull m)
  | SetNull pos v => setNullAt m pos v
  | SetNullFromRange off n v => setNullFromRange m off n v
  | CopyFrom other so dof n inv => fst <$> copyFrom m other so dof n inv
  | Resize capacity => resize m capacity
  end.

(** Ranges inside the masks, positions of 32 bits, and no inverted copy of at most three bits. *)
Definition op_pre (op : mask_op) (m : NullMask) : Prop :=
  match op with
  | SetAllNonNull | SetAllNull => True
  | SetNull pos _ => 0 ≤ pos < 2 ^ 32 ∧ pos < getNumNullBits (data m)
  | SetNullFromRange off n _ => 0 ≤ off ∧ 0 ≤ n ∧ off + n ≤ getNumNullBits (data m)
  | CopyFrom other so dof n inv =>
      mask_ok other ∧ 0 ≤ so ∧ 0 ≤ dof ∧ 0 ≤ n ∧ so + n ≤ 2 ^ 32 ∧ dof + n ≤ 2 ^ 32 ∧
      so + n ≤ getNumNullBits (data other) ∧ dof + n ≤ getNumNullBits (data m) ∧ (inv = true → 3 < n)
  | Resize capacity => Z.of_nat (length (data m)) * 64 ≤ capacity
  end.

Lemma setNullFromRange_ok m off n v :
  mask_ok m → 0 ≤ off → 0 ≤ n → off + n ≤ getNumNullBits (data m) →
  ∃ m', setNullFromRange m off n v = Some m' ∧ mask_ok m'.
Proof.
  intros [Hok Hg] Ho Hn Hr. unfold setNullFromRange. rewrite decide_True by done.
  destruct (setNullRange_Some (data m) off n v Hok Ho Hn Hr) as (es' & -> & _ & Hok' & Hb). cbn [mbind option_bind].
  eexists. split; [done|]. split; [done|]. unfold hasNoNullsGuarantee in *. cbn [mayContainNulls data]. destruct v; [done|].
  intros Hm k Hk. rewrite Hb by done. case_decide; [done|]. by apply Hg.
Qed.

Lemma copyFromNullBits_ok m src so dof n inv :
  mask_ok m → Forall word_ok src → 0 ≤ so → 0 ≤ dof → 0 ≤ n → so + n ≤ 2 ^ 32 → dof + n ≤ 2 ^ 32 →
  so + n ≤ getNumNullBits src → dof + n ≤ getNumNullBits (data m) → (inv = true → 3 < n) →
  ∃ m' any, copyFromNullBits m src so dof n inv = Some (m', any) ∧ mask_ok m'.
Proof.
  intros [Hok Hg] Hsrc Hso Hdo Hn Hs32 Hd32 Hrs Hrd Hinv. unfold copyFromNullBits. rewrite decide_True by done.
  destruct (copyNullMask_Some src so (data m) dof n inv) as (es' & -> & Hc); [done..|]. cbn [mbind option_bind].
  assert ((if decide (n ≤ 3) then false else inv) = inv) as ->.
  { case_decide; [|done]. destruct inv; [|done]. specialize (Hinv eq_refl). lia. }
  destruct Hc as (_ & Hok' & Hb). eexists _, _. split; [done|]. split; [done|]. unfold hasNoNullsGuarantee in *.
  cbn [mayContainNulls data]. destruct (any_bit src so n inv) eqn:E; [done|]. intros Hm k Hk. rewrite Hb by done.
  rewrite any_bit_false in E. case_decide as Hin; [|by apply Hg]. rewrite E by lia. apply xorb_nilpotent.
Qed.

Lemma resize_ok m capacity :
  mask_ok m → Z.of_nat (length (data m)) * 64 ≤ capacity → ∃ m', resize m capacity = Some m' ∧ mask_ok m'.
Proof.
  intros [Hok Hg] Hc. unfold resize. rewrite decide_True.
  2:{ enough (Z.of_nat (length (data m)) ≤ (capacity + 64 - 1) / 64) by lia. apply Z.div_le_lower_bound; lia. }
  eexists. split; [done|]. split; cbn [data].
  - apply Forall_app. split; [done|]. apply Forall_replicate. done.
  - unfold hasNoNullsGuarantee in *. cbn [mayContainNulls data]. intros Hm k Hk. specialize (Hg Hm k Hk). unfold bit in *.
    destruct (decide (Z.to_nat (k / 64) < length (data m))%nat).
    + by rewrite lookup_app_l by done.
    + rewrite lookup_app_r by lia. destruct (replicate _ 0 !! _) eqn:E; [|apply Z.bits_0].
      apply lookup_replicate in E as [-> _]. apply Z.bits_0.
Qed.

Lemma exec_ok op m : mask_ok m → op_pre op m → ∃ m', exec op m = Some m' ∧ mask_ok m'.
Proof.
  intros Hok Hpre. pose proof Hok as [Hw Hg]. destruct op; cbn [exec op_pre] in *.
  - eexists. split; [done|]. unfold setAllNonNull. destruct (mayContainNulls m) eqn:E; cbn [negb]; [|done]. split; cbn [data].
    + apply Forall_fmap, Forall_forall. done.
    + intros _ k Hk. apply not_true_iff_false. intros Hb%bit_const; [|done]. by rewrite Z.bits_0 in Hb.
  - eexists. split; [done|]. apply mask_ok_may; [|done]. apply Forall_fmap, Forall_forall. done.
  - unfold setNullAt. rewrite decide_True by tauto.
    destruct (setNull_Some (data m) pos v) as (es' & -> & _ & Hok' & Hb); [done|tauto..|]. cbn [mbind option_bind].
    eexists. split; [done|]. destruct v; [by apply mask_ok_may|]. split; [done|]. intros Hm k Hk. cbn [data].
    rewrite Hb by done. case_decide; [done|]. by apply Hg.
  - destruct Hpre as (? & ? & ?). by apply setNullFromRange_ok.
  - destruct Hpre as ([Ho Hog] & ? & ? & ? & ? & ? & ? & ? & ?). unfold copyFrom. destruct (hasNoNullsGuarantee other) eqn:E.
    + destruct (setNullFromRange_ok m dstOffset numBitsToCopy invert) as (m' & -> & Hm'); [done..|]. by exists m'.
    + destruct (copyFromNullBits_ok m (data other) srcOffset dstOffset numBitsToCopy invert) as (m' & any & -> & Hm'); [done..|]. by exists m'.
  - by apply resize_ok.
Qed.

(** ** Claims *)

(** C36. [copyNullMask] copies exactly the given bits: for every pair of bit offsets, aligned or
    not, the [n] bits of the destination from [dof] on become those of the source from [so] on,
    inverted on request, and no other bit changes; unless at most three bits are copied inverted,
    it returns whether a set bit was written. *)
Theorem copyNullMask_exact src so dst dof n inv :
  Forall word_ok src → Forall word_ok dst → 0 ≤ so → 0 ≤ dof → 0 ≤ n → so + n ≤ 2 ^ 32 → dof + n ≤ 2 ^ 32 →
  so + n ≤ getNumNullBits src → dof + n ≤ getNumNullBits dst → (inv = true → 3 < n) →
  ∃ dst' any, copyNullMask src so dst dof n inv = Some (dst', any) ∧ length dst' = length dst ∧
    (∀ k, 0 ≤ k → bit dst' k = if decide (dof ≤ k < dof + n) then xorb (bit src (so + (k - dof))) inv else bit dst k) ∧
    (any = true ↔ ∃ k, dof ≤ k < dof + n ∧ bit dst' k = true).
Proof.
  intros Hsrc Hdst Hso Hdo Hn Hs32 Hd32 Hrs Hrd Hinv.
  destruct (copyNullMask_Some src so dst dof n inv) as (dst' & Hc & Hl & _ & Hb); [done..|].
  assert ((if decide (n ≤ 3) then false else inv) = inv) as Hi.
  { case_decide; [|done]. destruct inv; [|done]. specialize (Hinv eq_refl). lia. }
  rewrite Hi in Hc. eexists _, _. split_and!; [done..|]. rewrite any_bit_true. split.
  - intros (k & Hk & Hbit). exists (dof + k). split; [lia|]. rewrite Hb, decide_True by lia. by replace (so + (dof + k - dof)) with (so + k) by lia.
  - intros (k & Hk & Hbit). rewrite Hb, decide_True in Hbit by lia. exists (k - dof). split; [lia|done].
Qed.

Lemma copyNullMask_exact_witness :
  ∃ dst' any, copyNullMask [0xF0F0; 0x1] 5 [0; 0xFF] 13 60 false = Some (dst', any) ∧ length dst' = 2%nat ∧
    (∀ k, 0 ≤ k → bit dst' k = if decide (13 ≤ k < 13 + 60) then xorb (bit [0xF0F0; 0x1] (5 + (k - 13))) false else bit [0; 0xFF] k) ∧
    (any = true ↔ ∃ k, 13 ≤ k < 13 + 60 ∧ bit dst' k = true).
Proof.
  apply (copyNullMask_exact [0xF0F0; 0x1] 5 [0; 0xFF] 13 60 false); try (unfold getNumNullBits; simpl; lia); try done;
    (apply Forall_cons_2; [|apply Forall_cons_2; [|apply Forall_nil_2]]); unfold word_ok; lia.
Defined.

(** [setNullRange] sets exactly the bits of its range and [getMinMax] returns the conjunction
    and the disjunction of the flags of a non-empty range, for every offset and length, including
    ranges inside one word and ranges that start or end at a word boundary. *)
Theorem range_operations_exact es off n v :
  Forall word_ok es → 0 ≤ off → 0 < n → off + n ≤ getNumNullBits es →
  (∃ es', setNullRange es off n v = Some es' ∧ length es' = length es ∧
    ∀ k, 0 ≤ k → bit es' k = if decide (off ≤ k < off + n) then v else bit es k) ∧
  ∃ min max, getMinMax es off n = Some (min, max) ∧
    (min = true ↔ ∀ k, off ≤ k < off + n → bit es k = true) ∧ (max = true ↔ ∃ k, off ≤ k < off + n ∧ bit es k = true).
Proof.
  intros Hok Ho Hn Hr. split.
  - destruct (setNullRange_Some es off n v Hok Ho ltac:(lia) Hr) as (es' & ? & ? & ? & ?). by exists es'.
  - rewrite getMinMax_Some by done. eexists _, _. split; [done|]. rewrite negb_true_iff, any_bit_false, any_bit_true. split.
    + split; intros H k Hk; [|apply H; lia]. rewrite <-(H (k - off)) by lia. f_equal. lia.
    + split; intros (k & Hk & Hb).
      * exists (off + k). split; [lia|]. by rewrite xorb_false_r in Hb.
      * exists (k - off). split; [lia|]. rewrite xorb_false_r, <-Hb. f_equal. lia.
Qed.

(** The operations of a null mask keep its guarantee: run inside their ranges, each of
    [setAllNonNull], [setAllNull], [setNull], [setNullFromRange], [copyFrom] (not inverted, or of
    more than three bits) and [resize] to a larger capacity returns a mask that has no null if it
    reports none. *)
Theorem mask_guarantee_preserved op m :
  mask_ok m → op_pre op m → ∃ m', exec op m = Some m' ∧ mask_ok m'.
Proof. apply exec_ok. Qed.

(** An inverted copy of at most three bits can write a null and not report it: copying the
    non-null first flag inverted into a fresh mask sets its first bit, returns false, and leaves
    the mask guaranteeing that it has no nulls. *)
Theorem short_inverted_copy_unreported :
  ∃ m', copyFrom (createNullMask 64) (mkNullMask [2] true) 0 0 1 true = Some (m', false) ∧
    isNullAt m' 0 = Some true ∧ hasNoNullsGuarantee m' = true.
Proof. eexists. split_and!; [by vm_compute..]. Qed.

(** [operator|=] does not update the flag either. *)
Theorem or_assign_unreported :
  ∃ m', or_assign (createNullMask 64) (mkNullMask [1] true) = Some m' ∧
    isNullAt m' 0 = Some true ∧ hasNoNullsGuarantee m' = true.
Proof. eexists. split_and!; [by vm_compute..]. Qed.

(** [getNumNullEntries] counts one word too many for every multiple of 64 up to 2^50. *)
Theorem getNumNullEntries_multiple k :
  0 < k < 2 ^ 50 → getNumNullEntries (64 * k) = k + 1.
Proof.
  intros Hk. unfold getNumNullEntries. rewrite Z.shiftr_div_pow2, Z.shiftl_mul_pow2 by lia. change (2 ^ 6) with 64.
  rewrite (Z.mul_comm 64 k), Z.div_mul by lia. f_equal. unfold u64. rewrite (Z.mod_small (k * 64 * 64)) by lia.
  rewrite decide_False; [done|]. intros H. apply Z.mod_divide in H as [q Hq]; [|lia]. lia.
Qed.
