(* ===== verification/SelVector.v ===== *)
(** Selection vectors ([src/src/include/common/data_chunk/sel_vector.h] and its [.cpp]) and the
    operations of a value vector that filter or count by nullness ([discardNull], [countNonNull],
    [forEachNonNull] of [src/src/common/vector/value_vector.cpp] and its header).

    A selection vector is STATIC (its positions are the constant array 0, 1, 2, ...) or DYNAMIC
    (its positions are its own buffer); the pointer [selectedPositions] of a [SelectionVector]
    always agrees with that state. An assertion failure or an access out of range is [None]. *)

From S2P Require Import Prelude NullMask MultiwayIntersect.

Inductive SelState := DYNAMIC | STATIC.

#[export] Instance SelState_eq_dec : EqDecision SelState.
Proof. solve_decision. Defined.

Record SelectionVector := mkSel {
  selectedSize : nat;
  state : SelState;
  selectedPositionsBuffer : list nat;
  capacity : nat
}.

(** The length of [INCREMENTAL_SELECTED_POS]. *)
Definition INCREMENTAL_SELECTED_POS : list nat := seq 0 DEFAULT_VECTOR_CAPACITY.

(** What [selectedPositions] points to. *)
Definition selectedPositions (sv : SelectionVector) : list nat :=
  match state sv with DYNAMIC => selectedPositionsBuffer sv | STATIC => INCREMENTAL_SELECTED_POS end.

Definition createSelectionVector (capacity : nat) : SelectionVector :=
  mkSel 0 STATIC (replicate capacity 0) capacity.

Definition isUnfiltered (sv : SelectionVector) : bool :=
  bool_decide (state sv = STATIC) && bool_decide (selectedPositions sv !! 0 = Some 0).

Definition setToUnfiltered (sv : SelectionVector) : SelectionVector :=
  mkSel (selectedSize sv) STATIC (selectedPositionsBuffer sv) (capacity sv).

Definition setToUnfilteredSize (sv : SelectionVector) (size : nat) : option SelectionVector :=
  if decide (size ≤ capacity sv) then Some (mkSel size STATIC (selectedPositionsBuffer sv) (capacity sv)) else None.

Definition setToFiltered (sv : SelectionVector) : SelectionVector :=
  mkSel (selectedSize sv) DYNAMIC (selectedPositionsBuffer sv) (capacity sv).

Definition setToFilteredSize (sv : SelectionVector) (size : nat) : option SelectionVector :=
  if decide (size ≤ capacity sv) then Some (mkSel size DYNAMIC (selectedPositionsBuffer sv) (capacity sv)) else None.

Definition setSelSize (sv : SelectionVector) (size : nat) : option SelectionVector :=
  if decide (size ≤ capacity sv) then Some (mkSel size (state sv) (selectedPositionsBuffer sv) (capacity sv)) else None.

Definition incrementSelSize (sv : SelectionVector) (increment : nat) : option SelectionVector :=
  if decide (selectedSize sv < capacity sv)
  then Some (mkSel (selectedSize sv + increment) (state sv) (selectedPositionsBuffer sv) (capacity sv)) else None.

(** [getMutableBuffer()[i] = v]. *)
Definition write_buffer (sv : SelectionVector) (i v : nat) : option SelectionVector :=
  if decide (i < length (selectedPositionsBuffer sv))
  then Some (mkSel (selectedSize sv) (state sv) (<[i := v]> (selectedPositionsBuffer sv)) (capacity sv)) else None.

(** [setRange]: the loop fills the buffer. *)
Definition setRange (sv : SelectionVector) (startPos size : nat) : option SelectionVector :=
  if decide (startPos + size ≤ capacity sv) then
    sv ← ofold (λ sv i, write_buffer sv i (startPos + i)) sv (seq 0 size);
    Some (mkSel size DYNAMIC (selectedPositionsBuffer sv) (capacity sv))
  else None.

(** [makeDynamic]: [memcpy] of the selected positions into the buffer. *)
Definition makeDynamic (sv : SelectionVector) : option SelectionVector :=
  if decide (selectedSize sv ≤ length (selectedPositionsBuffer sv) ∧ selectedSize sv ≤ length (selectedPositions sv)) then
    Some (mkSel (selectedSize sv) DYNAMIC
      (take (selectedSize sv) (selectedPositions sv) ++ drop (selectedSize sv) (selectedPositionsBuffer sv)) (capacity sv))
  else None.

(** [operator[]], read and written; a write to a STATIC vector would change the constant. *)
Definition sel_get (sv : SelectionVector) (i : nat) : option nat :=
  if decide (i < capacity sv) then selectedPositions sv !! i else None.

Definition sel_set (sv : SelectionVector) (i v : nat) : option SelectionVector :=
  if decide (i < capacity sv ∧ state sv = DYNAMIC) then write_buffer sv i v else None.

Definition getSelectedPositions (sv : SelectionVector) : list nat := take (selectedSize sv) (selectedPositions sv).

(** The positions [forEach] visits. *)
Definition forEach (sv : SelectionVector) : list nat :=
  match state sv with
  | DYNAMIC => take (selectedSize sv) (selectedPositionsBuffer sv)
  | STATIC => seq (default 0 (selectedPositions sv !! 0)) (selectedSize sv)
  end.

(** The positions visited until [f] is false. *)
Fixpoint visit_until (f : nat → bool) (l : list nat) : list nat :=
  match l with
  | [] => []
  | x :: l => if f x then x :: visit_until f l else [x]
  end.

Definition forEachBreakWhenFalse (f : nat → bool) (sv : SelectionVector) : list nat := visit_until f (forEach sv).

(** [slice]: a view of a part of the positions. *)
Definition slice (sv : SelectionVector) (startIndex size : nat) : option (list nat * SelState) :=
  if decide (startIndex + size ≤ selectedSize sv)
  then Some (take size (drop startIndex (getSelectedPositions sv)), state sv) else None.

(** What [forEach] of such a view visits. *)
Definition view_forEach (v : list nat * SelState) : option (list nat) :=
  match v.2 with
  | DYNAMIC => Some v.1
  | STATIC => start ← v.1 !! 0; Some (seq start (length v.1))
  end.

(** ** Value vectors *)

Record ValueVector := mkVector { nullMask : NullMask; sel : SelectionVector }.

Definition vec_isNull (v : ValueVector) (pos : nat) : option bool := isNullAt (nullMask v) (Z.of_nat pos).

(** The loop of [discardNull] for an unfiltered vector. *)
Definition discard_unfiltered (v : ValueVector) : option (SelectionVector * nat) :=
  ofold (λ '(sv, selectedPos) i,
    sv ← write_buffer sv selectedPos i;
    b ← vec_isNull v i;
    Some (sv, selectedPos + (if b : bool then 0 else 1))) (sel v, 0) (seq 0 (selectedSize (sel v))).

(** The loop for a filtered vector. *)
Definition discard_filtered (v : ValueVector) : option (SelectionVector * nat) :=
  ofold (λ '(sv, selectedPos) i,
    pos ← sel_get sv i;
    sv ← sel_set sv i pos;
    b ← vec_isNull v pos;
    Some (sv, selectedPos + (if b : bool then 0 else 1))) (sel v, 0) (seq 0 (selectedSize (sel v))).

Definition discardNull (v : ValueVector) : option (ValueVector * bool) :=
  if hasNoNullsGuarantee (nullMask v) then Some (v, true)
  else
    '(sv, selectedPos) ← (if isUnfiltered (sel v)
      then '(sv, n) ← discard_unfiltered v; Some (setToFiltered sv, n)
      else discard_filtered v);
    sv ← setSelSize sv selectedPos;
    Some (mkVector (nullMask v) sv, bool_decide (0 < selectedPos)).

(** The positions [forEachNonNull] visits. *)
Definition forEachNonNull (v : ValueVector) : option (list nat) :=
  if hasNoNullsGuarantee (nullMask v) then Some (forEach (sel v))
  else ofold (λ acc i, b ← vec_isNull v i; Some (if b : bool then acc else acc ++ [i])) [] (forEach (sel v)).

Definition countNonNull (v : ValueVector) : option Z :=
  if hasNoNullsGuarantee (nullMask v) then Some (Z.of_nat (selectedSize (sel v)))
  else if isUnfiltered (sel v) && bool_decide (selectedSize (sel v) = DEFAULT_VECTOR_CAPACITY)
  then Some (Z.of_nat DEFAULT_VECTOR_CAPACITY - countNulls (nullMask v))%Z
  else (λ l, Z.of_nat (length l)) <$> forEachNonNull v.

(** ** Selections *)

Record sel_ok (sv : SelectionVector) : Prop := {
  sk_buffer : length (selectedPositionsBuffer sv) = capacity sv;
  sk_size : selectedSize sv ≤ capacity sv;
  sk_capacity : capacity sv ≤ DEFAULT_VECTOR_CAPACITY
}.

Lemma capacity_pos : 0 < DEFAULT_VECTOR_CAPACITY.
Proof. unfold lt. by vm_compute; repeat constructor. Qed.

Lemma incremental_take n : n ≤ DEFAULT_VECTOR_CAPACITY → take n INCREMENTAL_SELECTED_POS = seq 0 n.
Proof. intros Hn. unfold INCREMENTAL_SELECTED_POS. rewrite take_seq. by rewrite Nat.min_l. Qed.

Lemma incremental_first : INCREMENTAL_SELECTED_POS !! 0 = Some 0.
Proof. apply lookup_seq_lt, capacity_pos. Qed.

Lemma static_positions sv : sel_ok sv → state sv = STATIC → getSelectedPositions sv = seq 0 (selectedSize sv).
Proof.
  intros [_ H1 H2] Hs. unfold getSelectedPositions, selectedPositions. rewrite Hs. apply incremental_take. lia.
Qed.

Lemma forEach_positions sv : sel_ok sv → forEach sv = getSelectedPositions sv.
Proof.
  intros Hok. unfold forEach. destruct (state sv) eqn:E.
  - unfold getSelectedPositions, selectedPositions. by rewrite E.
  - rewrite static_positions by done. unfold selectedPositions. rewrite E. by rewrite incremental_first.
Qed.

Lemma isUnfiltered_static sv : isUnfiltered sv = bool_decide (state sv = STATIC).
Proof.
  unfold isUnfiltered, selectedPositions. destruct (state sv); [done|]. rewrite incremental_first. done.
Qed.

Lemma length_positions sv : sel_ok sv → length (getSelectedPositions sv) = selectedSize sv.
Proof.
  intros Hok. pose proof Hok as [Hb H1 H2]. destruct (state sv) eqn:E.
  - unfold getSelectedPositions, selectedPositions. rewrite E, length_take. lia.
  - rewrite static_positions by done. apply length_seq.
Qed.

Lemma write_buffer_Some sv i v :
  i < length (selectedPositionsBuffer sv) →
  write_buffer sv i v = Some (mkSel (selectedSize sv) (state sv) (<[i := v]> (selectedPositionsBuffer sv)) (capacity sv)).
Proof. intros Hi. unfold write_buffer. by rewrite decide_True. Qed.

Lemma setRange_Some sv start size :
  sel_ok sv → start + size ≤ capacity sv →
  ∃ sv', setRange sv start size = Some sv' ∧ sel_ok sv' ∧ getSelectedPositions sv' = seq start size.
Proof.
  intros Hok Hr. pose proof Hok as [Hb H1 H2]. unfold setRange. rewrite decide_True by done.
  match goal with |- context [ofold ?f ?b ?l] => destruct (ofold_total f
    (λ dn sv1, length (selectedPositionsBuffer sv1) = capacity sv ∧ capacity sv1 = capacity sv ∧
      take (length dn) (selectedPositionsBuffer sv1) = seq start (length dn)) l b) as (sv1 & -> & Hl & Hc & Ht) end.
  - split_and!; [done..|]. by rewrite take_0.
  - intros dn i rest sv1 El (Hl & Hc & Ht). assert (i = length dn ∧ length dn < size) as [-> Hlt] by (by eapply seq_middle).
    rewrite write_buffer_Some by lia. eexists. split; [done|]. simpl. rewrite length_insert, length_app. split_and!; [done..|].
    simpl. rewrite Nat.add_1_r. rewrite (take_S_r _ _ (start + length dn)) by (apply list_lookup_insert_eq; lia).
    rewrite take_insert_ge by lia. by rewrite Ht, seq_S.
  - rewrite length_seq in Ht. cbn [mbind option_bind]. eexists. split; [done|]. split; [split; simpl; lia|].
    unfold getSelectedPositions. simpl. done.
Qed.

Lemma makeDynamic_Some sv :
  sel_ok sv → ∃ sv', makeDynamic sv = Some sv' ∧ sel_ok sv' ∧ state sv' = DYNAMIC ∧
    getSelectedPositions sv' = getSelectedPositions sv.
Proof.
  intros Hok. pose proof (length_positions sv Hok) as Hl. pose proof Hok as [Hb H1 H2]. unfold makeDynamic.
  assert (selectedSize sv ≤ length (selectedPositions sv)) as Hp.
  { unfold getSelectedPositions in Hl. rewrite length_take in Hl. lia. }
  rewrite decide_True by lia. eexists. split; [done|]. split_and!; [|done|].
  - split; simpl; [|done..]. rewrite length_app, length_take, length_drop. lia.
  - transitivity (take (selectedSize sv) (take (selectedSize sv) (selectedPositions sv) ++ drop (selectedSize sv) (selectedPositionsBuffer sv))); [done|].
    rewrite take_app_le by (rewrite length_take; lia). unfold getSelectedPositions. rewrite take_take. f_equal. lia.
Qed.

(** ** Nulls *)

(** The flag of position [i]. *)
Definition nul (v : ValueVector) (i : nat) : bool := bit (data (nullMask v)) (Z.of_nat i).

Record vector_ok (v : ValueVector) : Prop := {
  vk_sel : sel_ok (sel v);
  vk_mask : mask_ok (nullMask v);
  vk_bits : length (data (nullMask v)) = DEFAULT_VECTOR_CAPACITY / 64;
  vk_positions : Forall (λ i, i < DEFAULT_VECTOR_CAPACITY) (getSelectedPositions (sel v))
}.

Lemma mask_bits v : vector_ok v → getNumNullBits (data (nullMask v)) = Z.of_nat DEFAULT_VECTOR_CAPACITY.
Proof. intros Hok. unfold getNumNullBits. rewrite (vk_bits _ Hok). done. Qed.

Lemma vec_isNull_Some v i : vector_ok v → i < DEFAULT_VECTOR_CAPACITY → vec_isNull v i = Some (nul v i).
Proof.
  intros Hok Hi. unfold vec_isNull, isNullAt. rewrite (mask_bits v Hok), decide_True by lia.
  apply isNull_Some; [|rewrite (mask_bits v Hok); lia]. split; [lia|].
  enough (Z.of_nat DEFAULT_VECTOR_CAPACITY < 2 ^ 32)%Z by lia. done.
Qed.

Lemma no_nulls v : vector_ok v → hasNoNullsGuarantee (nullMask v) = true → ∀ i, nul v i = false.
Proof. intros Hok Hn i. apply (vk_mask _ Hok); [done|lia]. Qed.

(** The positions of [l] that are not null. *)
Definition non_null (v : ValueVector) (l : list nat) : list nat := filter (λ i, nul v i = false) l.

Lemma non_null_snoc v l i : non_null v (l ++ [i]) = non_null v l ++ (if nul v i then [] else [i]).
Proof. unfold non_null. rewrite filter_app, filter_cons, filter_nil. by destruct (nul v i). Qed.

Lemma non_null_all v l : (∀ i, nul v i = false) → non_null v l = l.
Proof. intros H. unfold non_null. induction l as [|x l IH]; [done|]. rewrite filter_cons, decide_True by done. by rewrite IH. Qed.

Lemma discard_unfiltered_Some v :
  vector_ok v → state (sel v) = STATIC →
  ∃ sv, discard_unfiltered v = Some (sv, length (non_null v (getSelectedPositions (sel v)))) ∧
    length (selectedPositionsBuffer sv) = capacity (sel v) ∧ capacity sv = capacity (sel v) ∧
    take (length (non_null v (getSelectedPositions (sel v)))) (selectedPositionsBuffer sv) =
      non_null v (getSelectedPositions (sel v)).
Proof.
  intros Hok Hs. pose proof (vk_sel _ Hok) as Hsel. rewrite (static_positions _ Hsel Hs). pose proof Hsel as [Hb H1 H2].
  unfold discard_unfiltered.
  match goal with |- context [ofold ?f ?b ?l] => destruct (ofold_total f
    (λ dn st, st.2 = length (non_null v dn) ∧ length (selectedPositionsBuffer st.1) = capacity (sel v) ∧
      capacity st.1 = capacity (sel v) ∧ take st.2 (selectedPositionsBuffer st.1) = non_null v dn) l b)
    as ([sv n] & -> & Hn & Hl & Hc & Ht) end.
  - simpl. by rewrite take_0.
  - intros dn i rest [sv n] El (Hn & Hl & Hc & Ht). cbn [fst snd] in *.
    assert (i = length dn ∧ length dn < selectedSize (sel v)) as [-> Hlt] by (by eapply seq_middle).
    assert (n ≤ length dn) as Hle by (rewrite Hn; apply length_filter).
    rewrite write_buffer_Some by lia. cbn [mbind option_bind]. rewrite vec_isNull_Some by (done || lia). cbn [mbind option_bind].
    eexists. split; [done|]. cbn [fst snd selectedPositionsBuffer capacity]. rewrite non_null_snoc, length_app, length_insert.
    split_and!; [rewrite Hn; by destruct (nul v (length dn))|done..|].
    destruct (nul v (length dn)).
    + rewrite Nat.add_0_r, app_nil_r, take_insert_ge by lia. done.
    + rewrite Nat.add_1_r, (take_S_r _ _ (length dn)) by (apply list_lookup_insert_eq; lia).
      rewrite take_insert_ge by lia. by rewrite Ht.
  - cbn [fst snd] in *. subst n. by exists sv.
Qed.

Lemma discard_filtered_Some v :
  vector_ok v → state (sel v) = DYNAMIC →
  discard_filtered v = Some (sel v, length (non_null v (getSelectedPositions (sel v)))).
Proof.
  intros Hok Hs. pose proof (vk_sel _ Hok) as Hsel. pose proof Hsel as [Hb H1 H2]. unfold discard_filtered.
  match goal with |- ofold ?f ?b ?l = _ => destruct (ofold_total f
    (λ dn st, st.1 = sel v ∧ st.2 = length (non_null v (take (length dn) (getSelectedPositions (sel v))))) l b)
    as ([sv n] & -> & Hsv & Hn) end.
  - done.
  - intros dn i rest [sv n] El [Hsv Hn]. cbn [fst snd] in *. subst sv.
    assert (i = length dn ∧ length dn < selectedSize (sel v)) as [-> Hlt] by (by eapply seq_middle).
    destruct (lookup_lt_is_Some_2 (getSelectedPositions (sel v)) (length dn)) as [pos Hpos]; [by rewrite length_positions|].
    assert (selectedPositionsBuffer (sel v) !! length dn = Some pos) as Hbuf.
    { unfold getSelectedPositions, selectedPositions in Hpos. rewrite Hs, lookup_take_lt in Hpos by done. done. }
    unfold sel_get, sel_set, selectedPositions. rewrite Hs, decide_True by lia. rewrite Hbuf. cbn [mbind option_bind].
    rewrite decide_True by (split; [lia|done]). rewrite write_buffer_Some by lia. cbn [mbind option_bind].
    pose proof (vk_positions _ Hok) as Hp. rewrite Forall_forall in Hp.
    rewrite vec_isNull_Some by (done || apply Hp; by eapply list_elem_of_lookup_2). cbn [mbind option_bind].
    eexists. split; [done|]. cbn [fst snd]. rewrite list_insert_id by done. split; [by destruct (sel v)|].
    rewrite length_app. simpl. rewrite Nat.add_1_r, (take_S_r _ _ pos) by done. rewrite non_null_snoc, length_app, <-Hn.
    by destruct (nul v pos).
  - cbn [fst snd] in *. rewrite length_seq in Hn. rewrite take_ge in Hn by (by rewrite length_positions). by subst.
Qed.

(** What [discardNull] selects: of an unfiltered vector the non-null positions, of a filtered one
    as many of the first positions as there are non-null ones. *)
Lemma discardNull_Some v :
  vector_ok v →
  ∃ v' r, discardNull v = Some (v', r) ∧ nullMask v' = nullMask v ∧
    (r = true ↔ hasNoNullsGuarantee (nullMask v) = true ∨ non_null v (getSelectedPositions (sel v)) ≠ []) ∧
    getSelectedPositions (sel v') =
      if isUnfiltered (sel v) then non_null v (getSelectedPositions (sel v))
      else take (length (non_null v (getSelectedPositions (sel v)))) (getSelectedPositions (sel v)).
Proof.
  intros Hok. pose proof (vk_sel _ Hok) as Hsel. pose proof Hsel as [Hb H1 H2]. unfold discardNull.
  pose proof (length_positions _ Hsel) as Hlen. set (P := getSelectedPositions (sel v)) in *.
  destruct (hasNoNullsGuarantee (nullMask v)) eqn:E.
  { exists v, true. pose proof (no_nulls v Hok E) as Hn. rewrite (non_null_all v P Hn), take_ge by done.
    split_and!; [done..|naive_solver|]. by destruct (isUnfiltered (sel v)). }
  assert (length (non_null v P) ≤ length P) as Hle by apply length_filter.
  assert ((bool_decide (0 < length (non_null v P)) = true ↔ false = true ∨ non_null v P ≠ [])) as Hr.
  { rewrite bool_decide_eq_true. destruct (non_null v P); simpl; split; intros; [lia|naive_solver|naive_solver|lia]. }
  rewrite isUnfiltered_static. destruct (state (sel v)) eqn:Hs.
  - rewrite bool_decide_false by done. rewrite (discard_filtered_Some v Hok Hs). fold P. cbn [mbind option_bind].
    unfold setSelSize. rewrite decide_True by lia. cbn [mbind option_bind]. eexists _, _. split_and!; [done|done|done|].
    unfold P, getSelectedPositions, selectedPositions. cbn [sel state selectedSize selectedPositionsBuffer]. rewrite Hs.
    rewrite take_take. f_equal. unfold P, getSelectedPositions, selectedPositions in Hle, Hlen. rewrite Hs in *. lia.
  - rewrite bool_decide_true by done. destruct (discard_unfiltered_Some v Hok Hs) as (sv & -> & Hl & Hc & Ht). fold P in Ht.
    fold P. cbn [mbind option_bind]. unfold setSelSize, setToFiltered. cbn [capacity selectedPositionsBuffer state].
    rewrite decide_True by lia. cbn [mbind option_bind]. eexists _, _. split_and!; done.
Qed.

Lemma forEachNonNull_Some v : vector_ok v → forEachNonNull v = Some (non_null v (getSelectedPositions (sel v))).
Proof.
  intros Hok. unfold forEachNonNull. rewrite forEach_positions by apply Hok.
  destruct (hasNoNullsGuarantee (nullMask v)) eqn:E; [by rewrite non_null_all by (by apply no_nulls)|].
  match goal with |- ofold ?f ?b ?l = _ => destruct (ofold_total f (λ dn acc, acc = non_null v dn) l b) as (acc & -> & ->) end; [done| |done].
  intros dn i rest acc El ->. pose proof (vk_positions _ Hok) as Hp. rewrite El, Forall_app, Forall_cons in Hp.
  rewrite vec_isNull_Some by (done || tauto). cbn [mbind option_bind]. eexists. split; [done|]. rewrite non_null_snoc.
  destruct (nul v i); by rewrite ?app_nil_r.
Qed.

(** ** Counting the set bits *)

Definition set_bits (es : list Z) : nat :=
  length (filter (λ i, bit es (Z.of_nat i) = true) (seq 0 (64 * length es))).

Lemma bit_cons_low w es i : (0 ≤ i < 64)%Z → bit (w :: es) i = Z.testbit w i.
Proof. intros Hi. unfold bit. rewrite Z.div_small, Z.mod_small by lia. done. Qed.

Lemma bit_cons_high w es i : (0 ≤ i)%Z → bit (w :: es) (64 + i) = bit es i.
Proof.
  intros Hi. unfold bit. replace (64 + i)%Z with (i + 1 * 64)%Z by lia. rewrite Z.div_add, Z.mod_add by lia.
  assert (0 ≤ i / 64)%Z by (apply Z.div_pos; lia). replace (Z.to_nat (i / 64 + 1)) with (S (Z.to_nat (i / 64))) by lia. done.
Qed.

Lemma set_bits_cons w es : set_bits (w :: es) = popcount w + set_bits es.
Proof.
  unfold set_bits, popcount. cbn [length]. replace (64 * S (length es)) with (64 + 64 * length es) by lia.
  rewrite seq_app, filter_app, length_app.
  rewrite (filter_ext_in (λ i, bit (w :: es) (Z.of_nat i) = true) (λ i, Z.testbit w (Z.of_nat i) = true) (seq 0 64)).
  2:{ apply Forall_forall. intros i Hi%elem_of_seq. by rewrite bit_cons_low by lia. }
  apply Nat.add_cancel_l. rewrite <-(fmap_add_seq 64 0), filter_fmap, length_fmap.
  f_equal. apply filter_ext_in, Forall_forall. intros i _. rewrite <-(bit_cons_high w es (Z.of_nat i)) by lia.
  by replace (Z.of_nat (64 + i)) with (64 + Z.of_nat i)%Z by lia.
Qed.

Lemma popcount_le w : popcount w ≤ 64.
Proof. unfold popcount. etrans; [apply length_filter|]. by rewrite length_seq. Qed.

Lemma set_bits_le es : set_bits es ≤ 64 * length es.
Proof. unfold set_bits. etrans; [apply length_filter|]. by rewrite length_seq. Qed.

Lemma countNulls_from acc es :
  (0 ≤ acc)%Z → (acc + Z.of_nat (64 * length es) < 2 ^ 64)%Z →
  foldl (λ sum w, u64 (sum + Z.of_nat (popcount w))) acc es = (acc + Z.of_nat (set_bits es))%Z.
Proof.
  revert acc. induction es as [|w es IH]; intros acc Ha Hb; [simpl; unfold set_bits; simpl; lia|].
  cbn [foldl]. pose proof (popcount_le w). cbn [length] in Hb. unfold u64 at 2. rewrite Z.mod_small by lia.
  rewrite IH, set_bits_cons by lia. lia.
Qed.

Lemma non_null_split (v : ValueVector) (l : list nat) :
  length (non_null v l) + length (filter (λ i, nul v i = true) l) = length l.
Proof.
  induction l as [|i l IH]; [done|]. unfold non_null in *. rewrite !filter_cons. cbn [length].
  destruct (nul v i); simpl; lia.
Qed.

Lemma countNonNull_Some v :
  vector_ok v → countNonNull v = Some (Z.of_nat (length (non_null v (getSelectedPositions (sel v))))).
Proof.
  intros Hok. unfold countNonNull. destruct (hasNoNullsGuarantee (nullMask v)) eqn:E.
  { rewrite non_null_all by (by apply no_nulls). by rewrite length_positions by apply Hok. }
  rewrite isUnfiltered_static. destruct (bool_decide (state (sel v) = STATIC)) eqn:Hs; cbn [andb].
  2:{ by rewrite forEachNonNull_Some. }
  apply bool_decide_eq_true in Hs. destruct (decide (selectedSize (sel v) = DEFAULT_VECTOR_CAPACITY)) as [Hf|Hf].
  2:{ rewrite bool_decide_false by done. by rewrite forEachNonNull_Some. }
  rewrite bool_decide_true by done. f_equal. rewrite (static_positions _ (vk_sel _ Hok) Hs), Hf.
  pose proof (non_null_split v (seq 0 DEFAULT_VECTOR_CAPACITY)) as Hsp. rewrite length_seq in Hsp.
  pose proof (vk_bits _ Hok) as Hbits. assert (64 * length (data (nullMask v)) = DEFAULT_VECTOR_CAPACITY) as H64 by (by rewrite Hbits).
  unfold countNulls. rewrite countNulls_from; [|lia|rewrite H64; done].
  assert (set_bits (data (nullMask v)) = length (filter (λ i, nul v i = true) (seq 0 DEFAULT_VECTOR_CAPACITY))) as -> by (unfold set_bits; by rewrite H64).
  lia.
Qed.

(** ** Claims *)

(** On a vector that is not filtered, [discardNull] selects exactly the non-null positions, in
    order, and reports whether one is left (or none was null to begin with). *)
Theorem discardNull_unfiltered_exact v :
  vector_ok v → isUnfiltered (sel v) = true →
  ∃ v' r, discardNull v = Some (v', r) ∧ nullMask v' = nullMask v ∧
    getSelectedPositions (sel v') = non_null v (getSelectedPositions (sel v)) ∧
    (r = true ↔ hasNoNullsGuarantee (nullMask v) = true ∨ non_null v (getSelectedPositions (sel v)) ≠ []).
Proof.
  intros Hok Hu. destruct (discardNull_Some v Hok) as (v' & r & ? & ? & ? & Hp). rewrite Hu in Hp. by exists v', r.
Qed.

(** [countNonNull] counts the selected positions that are not null, whichever of its three
    branches runs: no possible nulls, a full vector counted word by word from the mask, or a walk
    over the selection; [forEachNonNull] visits exactly these positions. *)
Theorem countNonNull_counts v :
  vector_ok v →
  countNonNull v = Some (Z.of_nat (length (non_null v (getSelectedPositions (sel v))))) ∧
  forEachNonNull v = Some (non_null v (getSelectedPositions (sel v))).
Proof. intros Hok. split; [by apply countNonNull_Some|by apply forEachNonNull_Some]. Qed.

(** A vector with a null at position 3: all 2048 positions, and positions 3 and 5 only. *)
Definition sample_nulls : NullMask := mkNullMask (8%Z :: replicate 31 0%Z) true.
Definition sample_full : ValueVector :=
  mkVector sample_nulls (mkSel DEFAULT_VECTOR_CAPACITY STATIC (replicate DEFAULT_VECTOR_CAPACITY 0) DEFAULT_VECTOR_CAPACITY).
Definition sample_filtered : ValueVector :=
  mkVector sample_nulls (mkSel 2 DYNAMIC ([3; 5] ++ replicate (DEFAULT_VECTOR_CAPACITY - 2) 0) DEFAULT_VECTOR_CAPACITY).

Lemma sample_full_ok : vector_ok sample_full.
Proof.
  assert (sel_ok (sel sample_full)) as Hs by (split; [apply length_replicate|done..]).
  split; [done| |by vm_compute|].
  - apply mask_ok_may; [|done]. apply Forall_cons_2; [by unfold word_ok|]. by apply Forall_replicate.
  - rewrite (static_positions _ Hs eq_refl). apply Forall_forall. intros i Hi%elem_of_seq. apply Hi.
Qed.

(** On a filtered vector [discardNull] shortens the selection to its first positions instead
    of dropping the null ones: with positions 3 (null) and 5 (not null) selected, it keeps the
    null position 3 and drops 5. *)
Theorem discardNull_filtered_keeps_null :
  ∃ v', discardNull sample_filtered = Some (v', true) ∧ getSelectedPositions (sel v') = [3] ∧
    nul sample_filtered 3 = true ∧ nul sample_filtered 5 = false.
Proof. eexists. split_and!; by vm_compute. Qed.
