(* ===== verification/Intersect.v ===== *)
(** The pairwise intersection operator ([Intersect] of
    [src/src/processor/operator/intersect/intersect.cpp]): for each tuple of the probe side and
    each combination of matching build tuples, the sorted lists of the tuples are intersected, the
    smallest first, keeping the positions of the common values in every list so that the payloads
    can be read in step. *)

From S2P Require Import Prelude InternalId MultiwayIntersect FactorizedTable JoinHashTable NullMask SelVector.

(** What a build tuple holds in its second column: a value, or a list of values. *)
Inductive IntersectColumn := FlatValue (id : nodeID) | UnflatList (l : list nodeID).

#[export] Instance IntersectColumn_eq_dec : EqDecision IntersectColumn.
Proof. solve_decision. Defined.

Definition HT := JoinHashTable (K := nodeID) (P := IntersectColumn).

(** ** [twoWayIntersect] *)

(** The [while] loop. [left] is the key buffer that is compacted in place. *)
Fixpoint two_way_loop (fuel : nat) (left : list nodeID) (lSel : SelectionVector) (right : list nodeID)
    (rSel : SelectionVector) (leftPosition rightPosition outputValuePosition : nat) :
    option (list nodeID * SelectionVector * SelectionVector * nat) :=
  if decide (leftPosition < selectedSize lSel ∧ rightPosition < selectedSize rSel) then
    match fuel with
    | 0 => None
    | S fuel =>
        leftNodeID ← left !! leftPosition;
        rightNodeID ← right !! rightPosition;
        if internalID.ltb leftNodeID rightNodeID
        then two_way_loop fuel left lSel right rSel (S leftPosition) rightPosition outputValuePosition
        else if internalID.gtb leftNodeID rightNodeID
        then two_way_loop fuel left lSel right rSel leftPosition (S rightPosition) outputValuePosition
        else
          lSel ← write_buffer lSel outputValuePosition leftPosition;
          rSel ← write_buffer rSel outputValuePosition rightPosition;
          if decide (outputValuePosition < length left) then
            two_way_loop fuel (<[outputValuePosition := leftNodeID]> left) lSel right rSel
              (S leftPosition) (S rightPosition) (S outputValuePosition)
          else None
    end
  else Some (left, lSel, rSel, outputValuePosition).

Definition twoWayIntersect (left : list nodeID) (lSel : SelectionVector) (right : list nodeID)
    (rSel : SelectionVector) : option (list nodeID * SelectionVector * SelectionVector) :=
  if decide (selectedSize lSel ≤ selectedSize rSel) then
    '(left, lSel, rSel, n) ←
      two_way_loop (selectedSize lSel + selectedSize rSel) left lSel right rSel 0 0 0;
    lSel ← setToFilteredSize lSel n;
    rSel ← setToFilteredSize rSel n;
    Some (left, lSel, rSel)
  else None.

(** ** Lists to intersect *)

Definition fetchListsToIntersectFromTuples (tuples : list IntersectColumn) (isFlatValue : list bool) :
    option (list (list nodeID)) :=
  mapM (λ '(t, flat), match t, flat : bool with
    | FlatValue id, true => Some [id]
    | UnflatList l, false => Some l
    | _, _ => None
    end) (zip tuples isFlatValue).

(** The index of the smallest list, the first one among equals. *)
Definition smallest_list (lists : list (list nodeID)) : nat :=
  foldl (λ best i,
    if decide (length (default [] (lists !! i)) < length (default [] (lists !! best))) then i else best)
    0 (seq 1 (length lists - 1)).

Definition swap_front {A} (l : list A) (i : nat) : list A :=
  match l !! i, l !! 0 with
  | Some x, Some y => <[0 := x]> (<[i := y]> l)
  | _, _ => l
  end.

Definition swapSmallestListToFront (lists : list (list nodeID)) : option (list (list nodeID) * list nat) :=
  if decide (2 ≤ length lists) then
    let listIdxes := seq 0 (length lists) in
    let smallestListIdx := smallest_list lists in
    if decide (smallestListIdx ≠ 0)
    then Some (swap_front lists smallestListIdx, swap_front listIdxes smallestListIdx)
    else Some (lists, listIdxes)
  else None.

(** [sliceSelVectors]: composes each selection with [slicer], in place. *)
Definition slice_one (selVec slicer : SelectionVector) : option SelectionVector :=
  selVec ← ofold (λ selVec i,
    pos ← sel_get slicer i;
    p ← sel_get selVec pos;
    write_buffer selVec i p) selVec (seq 0 (selectedSize slicer));
  setToFilteredSize selVec (selectedSize slicer).

Definition sliceSelVectors (selVectors : list SelectionVector) (slicer : SelectionVector) :
    option (list SelectionVector) := mapM (λ sv, slice_one sv slicer) selVectors.

(** ** [intersectLists] *)

(** The loop: [done] are the selections of the lists already intersected. *)
Fixpoint intersect_rest (out : list nodeID) (lSel : SelectionVector) (done : list SelectionVector)
    (lists : list (list nodeID)) (selVectors : list SelectionVector) :
    option (list nodeID * SelectionVector * list SelectionVector) :=
  match lists, selVectors with
  | [], [] => Some (out, lSel, done)
  | l :: lists, sv :: selVectors =>
      sv ← setToUnfilteredSize sv (length l);
      '(out, lSel, sv) ← twoWayIntersect out lSel l sv;
      done ← sliceSelVectors done lSel;
      intersect_rest out (setToUnfiltered lSel) (done ++ [sv]) lists selVectors
  | _, _ => None
  end.

(** [outBuf] is the data of the output vector; the result is its new data, the number of selected
    keys and the selections. *)
Definition intersectLists (lists : list (list nodeID)) (outBuf : list nodeID)
    (intersectSelVectors : list SelectionVector) :
    option (list nodeID * nat * list SelectionVector) :=
  match lists, intersectSelVectors with
  | first :: rest, sv0 :: svs =>
      if decide (length first = 0) then Some (outBuf, 0, intersectSelVectors)
      else if decide (length first ≤ DEFAULT_VECTOR_CAPACITY) then
        let out := first ++ drop (length first) outBuf in
        lSel ← setSelSize (createSelectionVector (length first)) (length first);
        sv0 ← setToUnfilteredSize sv0 (length first);
        '(out, lSel, svs) ← intersect_rest out lSel [sv0] rest svs;
        Some (out, selectedSize lSel, svs)
      else None
  | _, _ => None
  end.

(** ** The operator *)

(** One output: the keys, the build tuples they come from, and per entry of [listIdxes] the
    positions selected in that list, which [populatePayloads] reads the payloads at. *)
Record Batch := mkBatch {
  b_keys : list nodeID;
  b_tuples : list IntersectColumn;
  b_selections : list (nat * list nat)
}.

Record Intersect := mkIntersect {
  outKeyBuffer : list nodeID;
  intersectSelVectors : list SelectionVector;
  probedFlatTuples : list (list IntersectColumn);
  tupleIdxPerBuildSide : list nat;
  carryBuildSideIdx : option nat
}.

Section Operator.
Context (hash : nodeID → Z) (sharedHTs : list HT) (isIntersectListAFlatValue : list bool).

(** The tuples of a chain with the key. *)
Definition with_probe_key (key : nodeID) (l : list (nodeID * IntersectColumn * Z)) : list IntersectColumn :=
  (λ x : nodeID * IntersectColumn * Z, x.1.2) <$>
    filter (λ x : nodeID * IntersectColumn * Z, internalID.eqb x.1.1 key = true) l.

(** The matching tuples of one build side. *)
Definition probe_side (t : HT) (key : nodeID) : option (list IntersectColumn) :=
  if decide (getNumEntries t = 0) then Some [] else with_probe_key key <$> chain t (hash key).

Definition probeHTs (keys : list nodeID) : option (list (list IntersectColumn)) :=
  mapM (λ '(t, key), probe_side t key) (zip sharedHTs keys).

(** [hasNextTuplesToIntersect], recursive on the side to increment. *)
Fixpoint has_next (carry : nat) (idxs sizes : list nat) : option (list nat * bool) :=
  i ← idxs !! carry;
  n ← sizes !! carry;
  let idxs := <[carry := S i]> idxs in
  if decide (S i = n) then
    match carry with
    | 0 => Some (idxs, false)
    | S carry' => has_next carry' (<[carry := 0]> idxs) sizes
    end
  else Some (idxs, true).

(** [maxNumTuplesToIntersect], a 32-bit product. *)
Definition maxNumTuplesToIntersect (probed : list (list IntersectColumn)) : Z :=
  foldl (λ p l, u32 (p * Z.of_nat (length l))) 1%Z probed.

(** The [while (carryBuildSideIdx == -1u)] loop over the child's tuples. *)
Fixpoint fetch_row (st : Intersect) (rows : list (list nodeID)) :
    option (Intersect * list (list nodeID) * bool) :=
  match rows with
  | [] => Some (st, [], false)
  | keys :: rows =>
      probed ← probeHTs keys;
      if decide (maxNumTuplesToIntersect probed = 0)%Z
      then fetch_row (mkIntersect (outKeyBuffer st) (intersectSelVectors st) probed
        (tupleIdxPerBuildSide st) (carryBuildSideIdx st)) rows
      else Some (mkIntersect (outKeyBuffer st) (intersectSelVectors st) probed
        (replicate (length (tupleIdxPerBuildSide st)) 0) (Some (length sharedHTs - 1)), rows, true)
  end.

(** The body of the outer loop after the probe: one combination. *)
Definition intersect_step (st : Intersect) : option (Intersect * Batch) :=
  carry ← carryBuildSideIdx st;
  tuples ← mapM (λ '(p, i), p !! i) (zip (probedFlatTuples st) (tupleIdxPerBuildSide st));
  lists ← fetchListsToIntersectFromTuples tuples isIntersectListAFlatValue;
  '(lists, listIdxes) ← swapSmallestListToFront lists;
  '(out, n, svs) ← intersectLists lists (outKeyBuffer st) (intersectSelVectors st);
  '(idxs, more) ← has_next carry (tupleIdxPerBuildSide st) (length <$> probedFlatTuples st);
  Some (mkIntersect out svs (probedFlatTuples st) idxs (if more : bool then Some carry else None),
    mkBatch (take n out) tuples (if decide (n = 0) then [] else zip listIdxes (getSelectedPositions <$> svs))).

(** [getNextTuplesInternal]: the [do ... while] loop until a non-empty intersection. *)
Fixpoint getNextTuples (fuel : nat) (st : Intersect) (rows : list (list nodeID)) :
    option (Intersect * list (list nodeID) * option Batch) :=
  match fuel with
  | 0 => None
  | S fuel =>
      '(st, rows, more) ← (if decide (carryBuildSideIdx st = None) then fetch_row st rows
        else Some (st, rows, true));
      if negb more then Some (st, rows, None)
      else
        '(st, b) ← intersect_step st;
        if decide (b_keys b = []) then getNextTuples fuel st rows else Some (st, rows, Some b)
  end.

(** All the batches. *)
Fixpoint drainIntersect (fuel : nat) (st : Intersect) (rows : list (list nodeID)) : option (list Batch) :=
  match fuel with
  | 0 => None
  | S fuel' =>
      '(st, rows, b) ← getNextTuples fuel st rows;
      match b with
      | None => Some []
      | Some b => rest ← drainIntersect fuel' st rows; Some (b :: rest)
      end
  end.

(** [initLocalStateInternal] and the constructor. *)
Definition initIntersect (outBuf : list nodeID) : Intersect :=
  mkIntersect outBuf ((λ _, createSelectionVector DEFAULT_VECTOR_CAPACITY) <$> sharedHTs)
    ((λ _, []) <$> sharedHTs) (replicate (length sharedHTs) 0) None.

End Operator.

(** ** [twoWayIntersect] *)

Lemma increasing_from b l k x : StronglySorted lt l → Forall (le b) l → l !! k = Some x → b + k ≤ x.
Proof.
  intros Hs. revert b k. induction Hs as [|y l Hs IH Hy]; intros b k Hb Hk; [done|].
  apply Forall_cons in Hb as [Hb _].
  destruct k as [|k]; simpl in Hk; [injection Hk as <-; lia|].
  enough (S b + k ≤ x) by lia. apply IH; [|done]. eapply Forall_impl; [exact Hy|]. intros z. simpl. lia.
Qed.

Lemma increasing_ge l k x : StronglySorted lt l → l !! k = Some x → k ≤ x.
Proof. intros Hs Hk. apply (increasing_from 0 l k x Hs); [|done]. apply Forall_forall. intros. lia. Qed.

Lemma increasing_snoc l i j : StronglySorted lt (l ++ [i]) → i < j → StronglySorted lt (l ++ [j]) ∧ StronglySorted lt ((l ++ [i]) ++ [j]).
Proof.
  induction l as [|x l IH]; simpl; intros Hs Hij.
  - split; repeat constructor. done.
  - inversion Hs as [|? ? Hs' Hx]; subst. destruct (IH Hs' Hij) as [H1 H2]. rewrite Forall_app, Forall_singleton in Hx.
    split; constructor; [done| |done|]; rewrite ?Forall_app, ?Forall_singleton; split_and?; try tauto; lia.
Qed.

(** Where the loop stands: the pairs of positions found, their values, and what is still common
    to the rest of the two lists. *)
Record meeting (L R : list nodeID) (i j : nat) (ps : list (nat * nat)) (vs : list nodeID) : Prop := {
  me_pairs : Forall2 (λ p v, L !! p.1 = Some v ∧ R !! p.2 = Some v) ps vs;
  me_left : sorted (vs ++ drop i L);
  me_right : sorted (drop j R);
  me_incr : StronglySorted lt (ps.*1 ++ [i]);
  me_incr_right : StronglySorted lt (ps.*2 ++ [j]);
  me_occ : ∀ v, occ v vs + (occ v (drop i L) `min` occ v (drop j R)) = occ v L `min` occ v R
}.

Lemma meeting_length L R i j ps vs : meeting L R i j ps vs → length ps = length vs ∧ length vs ≤ i ∧ length vs ≤ j.
Proof.
  intros [Hp _ _ Hi Hj _]. pose proof (Forall2_length _ _ _ Hp) as Hl. split; [done|]. rewrite <-Hl. split.
  - apply (increasing_ge (ps.*1 ++ [i])); [done|]. rewrite lookup_app_r by (by rewrite length_fmap).
    rewrite length_fmap, Nat.sub_diag. done.
  - apply (increasing_ge (ps.*2 ++ [j])); [done|]. rewrite lookup_app_r by (by rewrite length_fmap).
    rewrite length_fmap, Nat.sub_diag. done.
Qed.

Lemma meeting_skip_left L R i j ps vs x y :
  L !! i = Some x → R !! j = Some y → id_lt x y → meeting L R i j ps vs → meeting L R (S i) j ps vs.
Proof.
  intros Hx Hy Hlt [Hp Hl Hr Hi Hj Ho]. rewrite (drop_S _ _ _ Hx) in *. rewrite (drop_S _ _ _ Hy) in *. split; try done.
  - apply sorted_app in Hl as (H1 & H2 & H3). apply sorted_cons in H2 as [_ H2]. apply sorted_app. split_and!; [done..|].
    intros a b Ha Hb. apply H3; [done|by right].
  - by rewrite (drop_S _ _ _ Hy).
  - by apply (increasing_snoc _ i); [|lia].
  - intros v. rewrite <-Ho, (drop_S _ _ _ Hy). cbn [occ]. destruct (decide (v = x)) as [->|]; [|lia].
    pose proof (occ_below_head y (drop (S j) R) x Hr Hlt) as Hz. cbn [occ] in Hz. rewrite Hz. lia.
Qed.

Lemma meeting_skip_right L R i j ps vs x y :
  L !! i = Some x → R !! j = Some y → id_lt y x → meeting L R i j ps vs → meeting L R i (S j) ps vs.
Proof.
  intros Hx Hy Hlt [Hp Hl Hr Hi Hj Ho]. rewrite (drop_S _ _ _ Hx) in *. rewrite (drop_S _ _ _ Hy) in *. split; try done.
  - by rewrite (drop_S _ _ _ Hx).
  - by apply sorted_cons in Hr as [_ Hr].
  - by apply (increasing_snoc _ j); [|lia].
  - intros v. rewrite <-Ho, (drop_S _ _ _ Hx). cbn [occ]. destruct (decide (v = y)) as [->|]; [|lia].
    apply sorted_app in Hl as (_ & Hl & _). pose proof (occ_below_head x (drop (S i) L) y Hl Hlt) as Hz. cbn [occ] in Hz. rewrite Hz. lia.
Qed.

Lemma meeting_match L R i j ps vs x :
  L !! i = Some x → R !! j = Some x → meeting L R i j ps vs → meeting L R (S i) (S j) (ps ++ [(i, j)]) (vs ++ [x]).
Proof.
  intros Hx Hy [Hp Hl Hr Hi Hj Ho]. rewrite (drop_S _ _ _ Hx) in *. rewrite (drop_S _ _ _ Hy) in *. split.
  - apply Forall2_app; [done|]. by constructor.
  - by rewrite <-app_assoc.
  - by apply sorted_cons in Hr as [_ Hr].
  - rewrite fmap_app. by apply (increasing_snoc _ i); [|lia].
  - rewrite fmap_app. by apply (increasing_snoc _ j); [|lia].
  - intros v. rewrite <-Ho, occ_app. cbn [occ]. destruct (decide (v = x)); lia.
Qed.

(** What a two-way intersection finds: pairs of positions with a common value, increasing on both
    sides, each value as often as in the list that has it least. *)
Record met (L R : list nodeID) (ps : list (nat * nat)) (vs : list nodeID) : Prop := {
  mt_pairs : Forall2 (λ p v, L !! p.1 = Some v ∧ R !! p.2 = Some v) ps vs;
  mt_sorted : sorted vs;
  mt_incr : StronglySorted lt ps.*1;
  mt_occ : ∀ v, occ v vs = occ v L `min` occ v R
}.

Lemma increasing_prefix l i : StronglySorted lt (l ++ [i]) → StronglySorted lt l.
Proof.
  induction l as [|x l IH]; simpl; intros Hs; [constructor|]. inversion Hs as [|? ? Hs' Hx]; subst.
  constructor; [by apply IH|]. by apply Forall_app in Hx as [Hx _].
Qed.

Lemma meeting_end L R i j ps vs : (length L ≤ i ∨ length R ≤ j) → meeting L R i j ps vs → met L R ps vs.
Proof.
  intros Hend [Hp Hl Hr Hi Hj Ho]. split; [done|by apply sorted_app in Hl as (? & _)|by eapply increasing_prefix|].
  intros v. rewrite <-Ho. destruct Hend as [Hend|Hend]; rewrite (drop_ge _ _ Hend); cbn [occ]; lia.
Qed.

Lemma meeting_start L R : sorted L → sorted R → meeting L R 0 0 [] [].
Proof.
  intros HL HR. split; simpl; rewrite ?drop_0; try done.
  - repeat constructor.
  - repeat constructor.
Qed.

(** The same selection vector with another buffer. *)
Definition sel_like (sv sv' : SelectionVector) : Prop :=
  selectedSize sv' = selectedSize sv ∧ state sv' = state sv ∧ capacity sv' = capacity sv ∧
  length (selectedPositionsBuffer sv') = length (selectedPositionsBuffer sv).

#[export] Instance sel_like_preorder : PreOrder sel_like.
Proof. split; unfold sel_like; [done|]. intros a b c (?&?&?&?) (?&?&?&?). split_and!; congruence. Qed.

Lemma write_next sv n (l : list nat) v :
  n = length l → take n (selectedPositionsBuffer sv) = l → n < length (selectedPositionsBuffer sv) →
  ∃ sv', write_buffer sv n v = Some sv' ∧ sel_like sv sv' ∧ take (S n) (selectedPositionsBuffer sv') = l ++ [v].
Proof.
  intros Hn Ht Hlt. rewrite write_buffer_Some by done. eexists. split; [done|]. split.
  - split_and!; try done. simpl. apply length_insert.
  - simpl. rewrite (take_S_r _ _ v) by (apply list_lookup_insert_eq; done). rewrite take_insert_ge by lia. by rewrite Ht.
Qed.

Lemma two_way_loop_Some fuel left0 left lSel right rSel i j ps vs :
  let L := take (selectedSize lSel) left0 in
  let R := take (selectedSize rSel) right in
  meeting L R i j ps vs →
  selectedSize lSel - i + (selectedSize rSel - j) ≤ fuel →
  selectedSize lSel ≤ length left0 → length left = length left0 → selectedSize rSel ≤ length right →
  selectedSize lSel ≤ length (selectedPositionsBuffer lSel) → selectedSize rSel ≤ length (selectedPositionsBuffer rSel) →
  take (length vs) left = vs → (∀ k, i ≤ k → left !! k = left0 !! k) →
  take (length vs) (selectedPositionsBuffer lSel) = ps.*1 → take (length vs) (selectedPositionsBuffer rSel) = ps.*2 →
  ∃ left' lSel' rSel' ps' vs', two_way_loop fuel left lSel right rSel i j (length vs) = Some (left', lSel', rSel', length vs') ∧
    met L R ps' vs' ∧ length left' = length left0 ∧ take (length vs') left' = vs' ∧ sel_like lSel lSel' ∧ sel_like rSel rSel' ∧
    take (length vs') (selectedPositionsBuffer lSel') = ps'.*1 ∧ take (length vs') (selectedPositionsBuffer rSel') = ps'.*2.
Proof.
  intros L R. revert left lSel rSel i j ps vs L R.
  induction fuel as [|fuel IH]; intros left lSel rSel i j ps vs L R Hm Hf Hll Hleft Hrl Hlb Hrb Hvs Hsame Hlp Hrp;
    destruct (meeting_length _ _ _ _ _ _ Hm) as (Hlen & Hoi & Hoj);
    assert (length L = selectedSize lSel) as HL by (unfold L; rewrite length_take; lia);
    assert (length R = selectedSize rSel) as HR by (unfold R; rewrite length_take; lia); cbn [two_way_loop].
  { rewrite decide_False by lia. exists left, lSel, rSel, ps, vs. split_and!; try done. eapply meeting_end; [|done]. lia. }
  destruct (decide (i < selectedSize lSel ∧ j < selectedSize rSel)) as [[Hi Hj]|Hend].
  2:{ exists left, lSel, rSel, ps, vs. split_and!; try done. eapply meeting_end; [|done]. lia. }
  destruct (lookup_lt_is_Some_2 left0 i) as [x Hx]; [lia|]. destruct (lookup_lt_is_Some_2 right j) as [y Hy]; [lia|].
  assert (L !! i = Some x) as HLx by (unfold L; by rewrite lookup_take_lt).
  assert (R !! j = Some y) as HRy by (unfold R; by rewrite lookup_take_lt).
  rewrite Hsame, Hx, Hy by lia. cbn [mbind option_bind].
  destruct (internalID.ltb x y) eqn:Elt.
  { apply ltb_spec in Elt. apply (IH left lSel rSel (S i) j ps vs); try done; try lia.
    - by eapply meeting_skip_left.
    - intros k Hk. apply Hsame. lia. }
  destruct (internalID.gtb x y) eqn:Egt.
  { apply gtb_spec in Egt. apply (IH left lSel rSel i (S j) ps vs); try done; try lia. by eapply meeting_skip_right. }
  assert (x = y) as <-.
  { destruct (id_trichotomy x y) as [H|[H|H]]; [|done|]; [apply ltb_spec in H|apply gtb_spec in H]; congruence. }
  destruct (write_next lSel (length vs) ps.*1 i) as (lSel' & -> & Hl' & Hlt'); [by rewrite length_fmap|done|lia|].
  destruct (write_next rSel (length vs) ps.*2 j) as (rSel' & -> & Hr' & Hrt'); [by rewrite length_fmap|done|lia|].
  cbn [mbind option_bind]. rewrite decide_True by lia. pose proof Hl' as (Hls & _ & _ & Hlbl). pose proof Hr' as (Hrs & _ & _ & Hrbl).
  destruct (IH (<[length vs := x]> left) lSel' rSel' (S i) (S j) (ps ++ [(i, j)]) (vs ++ [x])) as
    (left' & lSel2 & rSel2 & ps' & vs' & Hrun & Hmet & Hlf & Hv & Hl2 & Hr2 & Hlt2 & Hrt2); rewrite ?Hls, ?Hrs, ?length_app; try done; try lia.
  - by apply meeting_match.
  - by rewrite length_insert.
  - simpl. rewrite Nat.add_1_r, (take_S_r _ _ x) by (apply list_lookup_insert_eq; lia). rewrite take_insert_ge by lia. by rewrite Hvs.
  - intros k Hk. rewrite list_lookup_insert_ne by lia. apply Hsame. lia.
  - simpl. rewrite Nat.add_1_r, fmap_app. exact Hlt'.
  - simpl. rewrite Nat.add_1_r, fmap_app. exact Hrt'.
  - rewrite length_app in Hrun. simpl in Hrun. rewrite Nat.add_1_r in Hrun. rewrite Hls, Hrs in Hmet.
    exists left', lSel2, rSel2, ps', vs'. split_and!; try done; by etrans.
Qed.

Lemma twoWayIntersect_Some left lSel right rSel :
  let L := take (selectedSize lSel) left in
  let R := take (selectedSize rSel) right in
  sorted L → sorted R → selectedSize lSel ≤ selectedSize rSel →
  selectedSize lSel ≤ length left → selectedSize rSel ≤ length right → sel_ok lSel → sel_ok rSel →
  ∃ left' lSel' rSel' ps vs, twoWayIntersect left lSel right rSel = Some (left', lSel', rSel') ∧
    met L R ps vs ∧ length left' = length left ∧ take (length vs) left' = vs ∧ sel_ok lSel' ∧ sel_ok rSel' ∧
    selectedSize lSel' = length vs ∧ selectedSize rSel' = length vs ∧ state lSel' = DYNAMIC ∧ state rSel' = DYNAMIC ∧
    capacity lSel' = capacity lSel ∧ capacity rSel' = capacity rSel ∧
    getSelectedPositions lSel' = ps.*1 ∧ getSelectedPositions rSel' = ps.*2.
Proof.
  intros L R HL HR Hsz Hll Hrl [Hlb Hls Hlc] [Hrb Hrs Hrc]. unfold twoWayIntersect. rewrite decide_True by done.
  destruct (two_way_loop_Some (selectedSize lSel + selectedSize rSel) left left lSel right rSel 0 0 [] [])
    as (left' & lSel1 & rSel1 & ps & vs & Hrun & Hmet & Hlf & Hv & (Hl1 & Hl2 & Hl3 & Hl4) & (Hr1 & Hr2 & Hr3 & Hr4) & Hlt & Hrt); try done; try lia.
  { by apply meeting_start. }
  simpl in Hrun. rewrite Hrun. cbn [mbind option_bind]. pose proof Hmet as [Hp _ Hinc _].
  assert (length vs ≤ selectedSize lSel) as Hle.
  { pose proof (Forall2_length _ _ _ Hp) as Hlp. destruct (decide (length vs = 0)) as [|Hnz]; [lia|].
    destruct (lookup_lt_is_Some_2 ps (length vs - 1)) as [p Hpk]; [lia|].
    destruct (Forall2_lookup_l _ _ _ _ _ Hp Hpk) as (v & _ & HLp & _).
    apply lookup_lt_Some in HLp. unfold L in HLp. rewrite length_take in HLp.
    enough (length vs - 1 ≤ p.1) by lia. apply (increasing_ge ps.*1); [done|]. by rewrite list_lookup_fmap, Hpk. }
  unfold setToFilteredSize. rewrite !decide_True by lia. cbn [mbind option_bind].
  eexists _, _, _, ps, vs. split_and!; try done; try (split; simpl; lia).
Qed.

(** ** Slicing and intersecting a sequence of lists *)

Lemma sel_get_Some sv i p : sel_ok sv → getSelectedPositions sv !! i = Some p → sel_get sv i = Some p.
Proof.
  intros Hok Hp. pose proof (lookup_lt_Some _ _ _ Hp) as Hlt. rewrite length_positions in Hlt by done. destruct Hok as [_ H1 _].
  unfold sel_get. rewrite decide_True by lia. unfold getSelectedPositions in Hp. by rewrite lookup_take_lt in Hp by done.
Qed.

(** A read of a selection vector of which the buffer is being overwritten from the front. *)
Lemma sel_get_behind sv sv1 i q p :
  sel_ok sv → sel_like sv sv1 → (∀ k, i ≤ k → selectedPositionsBuffer sv1 !! k = selectedPositionsBuffer sv !! k) → i ≤ q →
  getSelectedPositions sv !! q = Some p → sel_get sv1 q = Some p.
Proof.
  intros Hok (_ & Hst & Hc & _) Hsame Hiq Hp. apply sel_get_Some in Hp; [|done]. unfold sel_get, selectedPositions in *.
  rewrite Hst, Hc. destruct (decide _); [|done]. destruct (state sv); [|done]. by rewrite Hsame.
Qed.

Lemma slice_one_Some sv slicer Q :
  sel_ok sv → sel_ok slicer → getSelectedPositions slicer = Q → StronglySorted lt Q → Forall (λ q, q < selectedSize sv) Q →
  ∃ sv', slice_one sv slicer = Some sv' ∧ sel_ok sv' ∧ capacity sv' = capacity sv ∧
    Forall2 (λ q p, getSelectedPositions sv !! q = Some p) Q (getSelectedPositions sv').
Proof.
  intros Hok Hsl HQ Hinc Hlt. pose proof Hok as [Hb Hs Hc]. unfold slice_one.
  assert (length Q = selectedSize slicer) as HlQ by (rewrite <-HQ; by apply length_positions).
  assert (length Q ≤ selectedSize sv) as HQs.
  { destruct (decide (length Q = 0)) as [|Hnz]; [lia|]. destruct (lookup_lt_is_Some_2 Q (length Q - 1)) as [q Hq]; [lia|].
    pose proof (increasing_ge _ _ _ Hinc Hq). rewrite Forall_forall in Hlt. specialize (Hlt q ltac:(by eapply list_elem_of_lookup_2)). lia. }
  match goal with |- context [ofold ?f ?b ?l] => destruct (ofold_total f
    (λ dn sv1, sel_like sv sv1 ∧ (∀ k, length dn ≤ k → selectedPositionsBuffer sv1 !! k = selectedPositionsBuffer sv !! k) ∧
      Forall2 (λ q p, getSelectedPositions sv !! q = Some p) (take (length dn) Q) (take (length dn) (selectedPositionsBuffer sv1))) l b)
    as (sv1 & -> & Hlike & Hsame & Hrel) end.
  - split_and!; [done..|]. simpl. constructor.
  - intros dn i rest sv1 El (Hlike & Hsame & Hrel).
    assert (i = length dn ∧ length dn < selectedSize slicer) as [-> Hi] by (by eapply seq_middle).
    destruct (lookup_lt_is_Some_2 Q (length dn)) as [q Hq]; [lia|].
    rewrite (sel_get_Some slicer _ q) by (done || by rewrite HQ). cbn [mbind option_bind].
    pose proof (increasing_ge _ _ _ Hinc Hq) as Hge. pose proof Hlt as Hlt'. rewrite Forall_forall in Hlt'.
    specialize (Hlt' q ltac:(by eapply list_elem_of_lookup_2)).
    destruct (lookup_lt_is_Some_2 (getSelectedPositions sv) q) as [p Hp]; [by rewrite length_positions|].
    rewrite (sel_get_behind sv sv1 (length dn) q p) by done. cbn [mbind option_bind].
    pose proof Hlike as (Hl1 & Hl2 & Hl3 & Hl4). rewrite write_buffer_Some by lia. eexists. split; [done|]. split_and!.
    + split_and!; try done. simpl. by rewrite length_insert.
    + intros k Hk. simpl. rewrite length_app in Hk. simpl in Hk. rewrite list_lookup_insert_ne by lia. apply Hsame. lia.
    + rewrite length_app. simpl. rewrite Nat.add_1_r, (take_S_r Q _ q) by done.
      rewrite (take_S_r _ _ p) by (apply list_lookup_insert_eq; lia). rewrite take_insert_ge by lia. apply Forall2_app; [done|]. by constructor.
  - rewrite length_seq in Hrel. cbn [mbind option_bind]. destruct Hlike as (Hl1 & Hl2 & Hl3 & Hl4).
    unfold setToFilteredSize. rewrite decide_True by lia. eexists. split; [done|]. split_and!; [split; simpl; lia|done|].
    rewrite take_ge in Hrel by lia. exact Hrel.
Qed.

(** The selection of [sv] picks the values [vs] from [l]. *)
Definition aligned (vs : list nodeID) (l : list nodeID) (sv : SelectionVector) : Prop :=
  sel_ok sv ∧ capacity sv = DEFAULT_VECTOR_CAPACITY ∧ Forall2 (λ p v, l !! p = Some v) (getSelectedPositions sv) vs.

Lemma aligned_slice vs vs' l sv slicer (ps : list (nat * nat)) :
  aligned vs l sv → sel_ok slicer → getSelectedPositions slicer = ps.*1 → StronglySorted lt ps.*1 →
  Forall2 (λ p v, vs !! p.1 = Some v) ps vs' →
  ∃ sv', slice_one sv slicer = Some sv' ∧ aligned vs' l sv'.
Proof.
  intros (Hok & Hcap & Hal) Hsl HQ Hinc Hps. pose proof (Forall2_length _ _ _ Hal) as Hlen. rewrite length_positions in Hlen by done.
  destruct (slice_one_Some sv slicer ps.*1) as (sv' & -> & Hok' & Hcap' & Hrel); [done..| |].
  { apply Forall_fmap, Forall_forall. intros p Hp%list_elem_of_lookup. destruct Hp as [k Hk].
    destruct (Forall2_lookup_l _ _ _ _ _ Hps Hk) as (v & _ & Hv). simpl. apply lookup_lt_Some in Hv. lia. }
  exists sv'. split; [done|]. split_and!; [done|congruence|].
  apply Forall2_fmap_l in Hrel. apply Forall2_same_length_lookup. split.
  - rewrite <-(Forall2_length _ _ _ Hrel). by eapply Forall2_length.
  - intros k p v Hp Hv. destruct (Forall2_lookup_r _ _ _ _ _ Hrel Hp) as (pr & Hpr & Hsel).
    destruct (Forall2_lookup_l _ _ _ _ _ Hps Hpr) as (v' & Hv' & Hvs). assert (v' = v) as -> by congruence.
    simpl in Hsel. destruct (Forall2_lookup_l _ _ _ _ _ Hal Hsel) as (v'' & Hv'' & Hl). congruence.
Qed.

Lemma sliceSelVectors_Some vs vs' ls svs slicer (ps : list (nat * nat)) :
  Forall2 (aligned vs) ls svs → sel_ok slicer → getSelectedPositions slicer = ps.*1 → StronglySorted lt ps.*1 →
  Forall2 (λ p v, vs !! p.1 = Some v) ps vs' →
  ∃ svs', sliceSelVectors svs slicer = Some svs' ∧ Forall2 (aligned vs') ls svs'.
Proof.
  intros Hal Hsl HQ Hinc Hps. unfold sliceSelVectors. induction Hal as [|l sv ls svs H _ IH].
  { exists []. split; [done|constructor]. }
  destruct (aligned_slice vs vs' l sv slicer ps H Hsl HQ Hinc Hps) as (sv' & Hs & Ha). destruct IH as (svs' & Hss & Has).
  exists (sv' :: svs'). cbn [mapM]. rewrite Hs. cbn [mbind option_bind]. rewrite Hss. split; [done|]. by constructor.
Qed.

(** [n] is the least number of occurrences of [v] in the lists. *)
Definition least_occ (v : nodeID) (lists : list (list nodeID)) (n : nat) : Prop :=
  Forall (λ l, n ≤ occ v l) lists ∧ Exists (λ l, n = occ v l) lists.

Lemma least_occ_snoc v lists n l : least_occ v lists n → least_occ v (lists ++ [l]) (n `min` occ v l).
Proof.
  intros [Hall Hex]. split.
  - apply Forall_app. split; [eapply Forall_impl; [done|]; simpl; lia|]. apply Forall_singleton. lia.
  - apply Exists_app. destruct (decide (n ≤ occ v l)); [left|right].
    + eapply Exists_impl; [done|]. simpl. lia.
    + apply Exists_cons. left. lia.
Qed.

Lemma intersect_rest_Some out lSel ds dls vs lists svs :
  Forall2 (aligned vs) dls ds → sorted vs → take (length vs) out = vs → length vs ≤ length out →
  sel_ok lSel → selectedSize lSel = length vs → (∀ v, least_occ v dls (occ v vs)) →
  length svs = length lists → Forall (λ sv, sel_ok sv ∧ capacity sv = DEFAULT_VECTOR_CAPACITY) svs →
  Forall (λ l, sorted l ∧ length vs ≤ length l ≤ DEFAULT_VECTOR_CAPACITY) lists →
  ∃ out' lSel' svs' vs', intersect_rest out lSel ds lists svs = Some (out', lSel', svs') ∧
    Forall2 (aligned vs') (dls ++ lists) svs' ∧ sorted vs' ∧ take (length vs') out' = vs' ∧ length out' = length out ∧
    selectedSize lSel' = length vs' ∧ ∀ v, least_occ v (dls ++ lists) (occ v vs').
Proof.
  revert out lSel ds dls vs svs. induction lists as [|l lists IH]; intros out lSel ds dls vs svs Hal Hso Hout Hlo Hlok Hls Hocc Hlen Hsvs Hlists;
    destruct svs as [|sv svs]; try done; cbn [intersect_rest].
  { exists out, lSel, ds, vs. rewrite app_nil_r. done. }
  apply Forall_cons in Hsvs as [[Hsv Hcap] Hsvs]. apply Forall_cons in Hlists as [(Hl1 & Hl2 & Hl3) Hlists].
  unfold setToUnfilteredSize at 1. rewrite decide_True by lia. cbn [mbind option_bind].
  set (sv1 := mkSel (length l) STATIC (selectedPositionsBuffer sv) (capacity sv)).
  assert (sel_ok sv1) as Hsv1 by (destruct Hsv; split; simpl; lia).
  destruct (twoWayIntersect_Some out lSel l sv1) as
    (out' & lSel' & sv2 & ps & vs' & -> & Hmet & Hlo' & Hv' & Hok1 & Hok2 & Hs1 & Hs2 & _ & _ & Hc1 & Hc2 & HQ1 & HQ2); rewrite ?Hls, ?Hout; try done.
  { cbn [selectedSize sv1]. by rewrite take_ge by done. }
  cbn [mbind option_bind]. cbn [selectedSize sv1] in Hmet. rewrite Hls, Hout, take_ge in Hmet by done.
  destruct Hmet as [Hp Hso' Hinc Hocc'].
  destruct (sliceSelVectors_Some vs vs' dls ds lSel' ps) as (ds' & -> & Hal'); [done..| |].
  { eapply Forall2_impl; [done|]. by intros p v [? _]. }
  cbn [mbind option_bind].
  assert (length vs' ≤ length vs) as Hle.
  { pose proof (Forall2_length _ _ _ Hp) as Hlp. destruct (decide (length vs' = 0)) as [|Hnz]; [lia|].
    destruct (lookup_lt_is_Some_2 ps (length vs' - 1)) as [p Hpk]; [lia|].
    destruct (Forall2_lookup_l _ _ _ _ _ Hp Hpk) as (v & _ & HLp & _). apply lookup_lt_Some in HLp.
    enough (length vs' - 1 ≤ p.1) by lia. apply (increasing_ge ps.*1); [done|]. by rewrite list_lookup_fmap, Hpk. }
  destruct (IH out' (setToUnfiltered lSel') (ds' ++ [sv2]) (dls ++ [l]) vs' svs) as (out2 & lSel2 & svs2 & vs2 & Hrun & Hal2 & Hso2 & Ht2 & Hl2' & Hs2' & Hocc2); try done.
  - apply Forall2_app; [done|]. constructor; [|constructor]. split_and!; [done|by rewrite Hc2|]. rewrite HQ2.
    apply Forall2_fmap_l. eapply Forall2_impl; [done|]. by intros p v [_ ?].
  - lia.
  - destruct Hok1. by split.
  - intros v. rewrite Hocc'. by apply least_occ_snoc.
  - by injection Hlen.
  - eapply Forall_impl; [exact Hlists|]. intros l' (? & ? & ?). split; [done|lia].
  - exists out2, lSel2, svs2, vs2. rewrite <-app_assoc in Hal2, Hocc2. split_and!; try done. congruence.
Qed.

Definition svs_ok (svs : list SelectionVector) : Prop :=
  Forall (λ sv, sel_ok sv ∧ capacity sv = DEFAULT_VECTOR_CAPACITY) svs.

Lemma aligned_svs_ok vs ls svs : Forall2 (aligned vs) ls svs → svs_ok svs.
Proof. induction 1 as [|l sv ls svs (? & ? & _) _ IH]; constructor; auto. Qed.

Lemma least_occ_nil v lists : [] ∈ lists → least_occ v lists 0.
Proof.
  intros Hin. split; [apply Forall_forall; intros; lia|]. apply Exists_exists. by exists [].
Qed.

Lemma intersectLists_Some first rest outBuf svs :
  length svs = S (length rest) → svs_ok svs → length outBuf = DEFAULT_VECTOR_CAPACITY →
  Forall sorted (first :: rest) → Forall (λ l, length first ≤ length l ≤ DEFAULT_VECTOR_CAPACITY) (first :: rest) →
  ∃ out vs svs', intersectLists (first :: rest) outBuf svs = Some (out, length vs, svs') ∧
    length out = DEFAULT_VECTOR_CAPACITY ∧ take (length vs) out = vs ∧ sorted vs ∧ svs_ok svs' ∧ length svs' = length svs ∧
    (vs ≠ [] → Forall2 (aligned vs) (first :: rest) svs') ∧ ∀ v, least_occ v (first :: rest) (occ v vs).
Proof.
  intros Hlen Hsvs Hout Hso Hsz. destruct svs as [|sv0 svs]; [done|]. cbn [intersectLists].
  destruct (decide (length first = 0)) as [Hz|Hnz].
  { apply length_zero_iff_nil in Hz as ->. exists outBuf, [], (sv0 :: svs). split_and!; try done; [by constructor|].
    intros v. apply least_occ_nil. by left. }
  pose proof Hsz as [[_ Hf] Hr]%Forall_cons. rewrite decide_True by done.
  unfold setSelSize. rewrite decide_True by (simpl; lia). cbn [mbind option_bind].
  apply Forall_cons in Hsvs as [[[Hb0 Hs0 Hc0] Hcap0] Hsvs]. unfold setToUnfilteredSize. rewrite decide_True by lia. cbn [mbind option_bind].
  set (sv1 := mkSel (length first) STATIC (selectedPositionsBuffer sv0) (capacity sv0)).
  assert (sel_ok sv1) as Hsv1 by (split; simpl; lia).
  destruct (intersect_rest_Some (first ++ drop (length first) outBuf)
    (mkSel (length first) (state (createSelectionVector (length first))) (selectedPositionsBuffer (createSelectionVector (length first)))
      (capacity (createSelectionVector (length first)))) [sv1] [first] first rest svs)
    as (out & lSel & svs' & vs & Hrun & Hal & Hso' & Ht & Hlo & Hls & Hocc); try done.
  - constructor; [|constructor]. split_and!; [done|done|]. rewrite (static_positions sv1 Hsv1 eq_refl). cbn [selectedSize sv1].
    apply Forall2_same_length_lookup. rewrite length_seq. split; [done|]. intros i p v Hp Hv. apply lookup_seq in Hp as [-> _]. done.
  - by apply Forall_cons in Hso as [? _].
  - apply take_app_length.
  - rewrite length_app. lia.
  - split; simpl; [apply length_replicate|lia|lia].
  - intros v. split; [by apply Forall_singleton|]. apply Exists_cons. by left.
  - by injection Hlen.
  - apply Forall_cons in Hso as [_ Hso]. apply Forall_forall. intros l Hl. rewrite Forall_forall in Hso, Hr. split; [by apply Hso|by apply Hr].
  - rewrite Hrun. cbn [mbind option_bind]. rewrite Hls. exists out, vs, svs'. split_and!; try done.
    + rewrite Hlo, length_app, length_drop. lia.
    + by eapply aligned_svs_ok.
    + rewrite <-(Forall2_length _ _ _ Hal). simpl in *. lia.
Qed.

(** ** The smallest list first *)

Lemma smallest_list_min (lists : list (list nodeID)) k :
  k < length lists →
  let best := foldl (λ best i, if decide (length (default [] (lists !! i)) < length (default [] (lists !! best))) then i else best) 0 (seq 1 k) in
  best ≤ k ∧ ∀ i, i ≤ k → length (default [] (lists !! best)) ≤ length (default [] (lists !! i)).
Proof.
  induction k as [|k IH]; intros Hk.
  { simpl. split; [done|]. intros i Hi. by assert (i = 0) as -> by lia. }
  destruct IH as [Hb Hmin]; [lia|]. rewrite seq_S, foldl_app. cbn [foldl]. set (best := foldl _ 0 (seq 1 k)) in *. simpl in *.
  case_decide as Hlt; (split; [lia|]); intros i Hi; destruct (decide (i = S k)) as [->|]; try lia;
    specialize (Hmin i ltac:(lia)); lia.
Qed.

Lemma swap_front_spec {A} (l : list A) k x y :
  l !! k = Some x → l !! 0 = Some y → k ≠ 0 → swap_front l k ≡ₚ l ∧ swap_front l k !! 0 = Some x ∧
    ∀ i, swap_front l k !! i = l !! (if decide (i = 0) then k else if decide (i = k) then 0 else i).
Proof.
  intros Hx Hy Hk. pose proof (lookup_lt_Some _ _ _ Hx). unfold swap_front. rewrite Hx, Hy.
  assert (∀ i, <[0:=x]> (<[k:=y]> l) !! i = l !! (if decide (i = 0) then k else if decide (i = k) then 0 else i)) as Hall.
  { intros i. destruct (decide (i = 0)) as [->|]; [|destruct (decide (i = k)) as [->|]].
    - rewrite list_lookup_insert_eq by (rewrite length_insert; lia). done.
    - rewrite list_lookup_insert_ne, list_lookup_insert_eq by done. done.
    - by rewrite !list_lookup_insert_ne by done. }
  split_and!; [|by rewrite Hall|done]. destruct l as [|y' l]; [done|]. injection Hy as ->. destruct k as [|k]; [done|].
  simpl in Hx. change (x :: <[k:=y]> l ≡ₚ y :: l). rewrite insert_take_drop by (simpl in *; lia).
  rewrite <-(take_drop_middle l k x Hx) at 3. rewrite <-!Permutation_middle. apply perm_swap.
Qed.

Lemma swapSmallestListToFront_Some (lists : list (list nodeID)) :
  2 ≤ length lists →
  ∃ first rest idxs, swapSmallestListToFront lists = Some (first :: rest, idxs) ∧ first :: rest ≡ₚ lists ∧
    Forall (λ l, length first ≤ length l) (first :: rest) ∧ Permutation idxs (seq 0 (length lists)) ∧
    Forall2 (λ l i, lists !! i = Some l) (first :: rest) idxs.
Proof.
  intros Hlen. unfold swapSmallestListToFront. rewrite decide_True by done.
  destruct (smallest_list_min lists (length lists - 1)) as [Hb Hmin]; [lia|]. fold (smallest_list lists) in Hb, Hmin.
  set (k := smallest_list lists) in *. destruct (lookup_lt_is_Some_2 lists k) as [x Hx]; [lia|].
  destruct (lookup_lt_is_Some_2 lists 0) as [y Hy]; [lia|].
  assert (∀ l, l ∈ lists → length x ≤ length l) as Hsm.
  { intros l Hl%list_elem_of_lookup. destruct Hl as [i Hi]. specialize (Hmin i). rewrite Hx, Hi in Hmin. apply Hmin.
    apply lookup_lt_Some in Hi. lia. }
  destruct (decide (k ≠ 0)) as [Hk|Hk].
  - destruct (swap_front_spec lists k x y Hx Hy Hk) as (Hp & H0 & Hall).
    assert (seq 0 (length lists) !! k = Some k ∧ seq 0 (length lists) !! 0 = Some 0) as [Hk1 Hk2] by (split; apply lookup_seq_lt; lia).
    destruct (swap_front_spec (seq 0 (length lists)) k k 0 Hk1 Hk2 Hk) as (Hp' & _ & Hall').
    destruct (swap_front lists k) as [|first rest] eqn:E; [done|]. injection H0 as ->.
    exists x, rest, (swap_front (seq 0 (length lists)) k). split_and!; try done.
    + apply Forall_forall. intros l Hl. apply Hsm. by rewrite <-Hp.
    + apply Forall2_same_length_lookup. split; [by rewrite Hp, Hp', length_seq|].
      intros i l j Hl Hj. rewrite Hall' in Hj. rewrite Hall in Hl. apply lookup_seq in Hj as [-> _]. done.
  - assert (k = 0) as Hk0 by lia. rewrite Hk0 in Hx. destruct lists as [|first rest]; [done|]. injection Hx as ->.
    exists x, rest, (seq 0 (length (x :: rest))). split_and!; try done.
    + apply Forall_forall. intros l Hl. by apply Hsm.
    + apply Forall2_same_length_lookup. rewrite length_seq. split; [done|]. intros i l j Hl Hj. by apply lookup_seq in Hj as [-> _].
Qed.

(** ** Enumerating the combinations *)

(** All the choices of one element per list, the last list varying fastest. *)
Fixpoint product {A} (ls : list (list A)) : list (list A) :=
  match ls with
  | [] => [[]]
  | l :: ls => concat ((λ x, (λ t, x :: t) <$> product ls) <$> l)
  end.

Lemma fmap_concat {A B} (f : A → B) (ls : list (list A)) : f <$> concat ls = concat (fmap (M := list) f <$> ls).
Proof. induction ls as [|l ls IH]; [done|]. cbn [concat fmap list_fmap]. rewrite fmap_app. by rewrite <-IH. Qed.

Lemma product_snoc {A} (ls : list (list A)) l :
  product (ls ++ [l]) = concat ((λ t, (λ a, t ++ [a]) <$> l) <$> product ls).
Proof.
  induction ls as [|l0 ls IH]; cbn [app product].
  - cbn [fmap list_fmap concat]. rewrite app_nil_r. induction l as [|a l IHl]; [done|]. cbn [fmap list_fmap concat app]. f_equal. exact IHl.
  - rewrite IH. clear IH. induction l0 as [|x l0 IHl]; [done|]. cbn [fmap list_fmap concat]. rewrite fmap_app, concat_app, <-IHl. f_equal.
    rewrite fmap_concat. f_equal. rewrite <-!list_fmap_compose. apply list_fmap_ext. intros i t _. simpl.
    rewrite <-list_fmap_compose. done.
Qed.

(** The index vectors after a given one; vectors are reversed, so that the head varies fastest. *)
Fixpoint after (rs rx : list nat) : list (list nat) :=
  match rs, rx with
  | n :: rs, i :: rx =>
      ((λ k, k :: rx) <$> seq (S i) (n - S i)) ++ concat ((λ y, (λ k, k :: y) <$> seq 0 n) <$> after rs rx)
  | _, _ => []
  end.

Definition in_range (rx rs : list nat) : Prop := Forall2 lt rx rs.

Lemma seq_head n : 0 < n → seq 0 n = 0 :: seq 1 (n - 1).
Proof. intros Hn. destruct n; [lia|]. simpl. by rewrite Nat.sub_0_r. Qed.

Lemma after_next rs rx y t :
  in_range rx rs → after rs rx = y :: t → t = after rs y ∧ in_range y rs.
Proof.
  intros Hr. revert y t. induction Hr as [|i n rx rs Hi Hr IH]; intros y t; cbn [after]; [done|].
  destruct (decide (S i < n)) as [Hlt|Hge].
  - replace (n - S i) with (S (n - S (S i))) by lia. cbn [seq fmap list_fmap app]. intros [= <- <-]. cbn [after].
    split; [done|]. by constructor.
  - replace (n - S i) with 0 by lia. cbn [seq fmap list_fmap app]. destruct (after rs rx) as [|z zs] eqn:E; [done|].
    destruct (IH z zs eq_refl) as [-> Hz]. cbn [fmap list_fmap concat]. rewrite seq_head by lia. cbn [fmap list_fmap app].
    intros [= <- <-]. cbn [after]. split; [done|]. constructor; [lia|done].
Qed.

Lemma has_next_after rs rx suf ssuf n i :
  in_range rx rs → i < n →
  ∃ idxs', has_next (length rs) (reverse rx ++ i :: suf) (reverse rs ++ n :: ssuf) =
    Some (idxs', negb (bool_decide (after (n :: rs) (i :: rx) = []))) ∧
    length idxs' = length (reverse rx ++ i :: suf) ∧
    ∀ y t, after (n :: rs) (i :: rx) = y :: t → idxs' = reverse y ++ suf.
Proof.
  intros Hr. revert i n suf ssuf. induction Hr as [|j m rx rs Hj Hr IH]; intros i n suf ssuf Hi.
  - cbn [length has_next reverse rev_append app lookup list_lookup mbind option_bind]. case_decide as Hlast.
    + cbn [after]. replace (n - S i) with 0 by lia. cbn [seq fmap list_fmap app concat].
      eexists. split; [done|]. split; [done|]. done.
    + cbn [after]. replace (n - S i) with (S (n - S (S i))) by lia. cbn [seq fmap list_fmap app].
      eexists. split; [done|]. split; [done|]. intros y t [= <- <-]. done.
  - pose proof (Forall2_length _ _ _ Hr) as Hlen. cbn [length]. rewrite !reverse_cons, <-!app_assoc. cbn [app has_next].
    assert (∀ (l : list nat) a b s, length l = length rs → (l ++ a :: b :: s) !! S (length rs) = Some b) as Hlk.
    { intros l a b s Hl. rewrite lookup_app_r by lia. replace (S (length rs) - length l) with 1 by lia. done. }
    rewrite !Hlk by (by rewrite length_reverse). cbn [mbind option_bind].
    assert (∀ (l : list nat) a b s b', length l = length rs → <[S (length rs) := b']> (l ++ a :: b :: s) = l ++ a :: b' :: s) as Hin.
    { intros l a b s b' Hl. rewrite insert_app_r_alt by lia. replace (S (length rs) - length l) with 1 by lia. done. }
    rewrite !Hin by (by rewrite length_reverse). case_decide as Hlast.
    + destruct (IH j m (0 :: suf) (n :: ssuf) Hj) as (idxs' & -> & Hl & Hy). exists idxs'.
      change (after (n :: m :: rs) (i :: j :: rx)) with
        (((λ k, k :: j :: rx) <$> seq (S i) (n - S i)) ++ concat ((λ y, (λ k, k :: y) <$> seq 0 n) <$> after (m :: rs) (j :: rx))).
      replace (n - S i) with 0 by lia. cbn [seq fmap list_fmap app]. rewrite seq_head by lia.
      destruct (after (m :: rs) (j :: rx)) as [|z zs] eqn:E; cbn [fmap list_fmap concat app].
      * split; [done|]. split; [rewrite Hl, !length_app; simpl; lia|done].
      * split; [done|]. split; [rewrite Hl, !length_app; simpl; lia|]. intros y t [= <- _].
        rewrite (Hy z zs eq_refl), reverse_cons, <-app_assoc. done.
    + eexists. change (after (n :: m :: rs) (i :: j :: rx)) with
        (((λ k, k :: j :: rx) <$> seq (S i) (n - S i)) ++ concat ((λ y, (λ k, k :: y) <$> seq 0 n) <$> after (m :: rs) (j :: rx))).
      replace (n - S i) with (S (n - S (S i))) by lia. cbn [seq fmap list_fmap app].
      split; [done|]. split; [rewrite !length_app; simpl; lia|]. intros y t [= <- _].
      by rewrite !reverse_cons, <-!app_assoc.
Qed.

(** All index vectors, reversed. *)
Definition vectors (rs : list nat) : list (list nat) := replicate (length rs) 0 :: after rs (replicate (length rs) 0).

Lemma vectors_cons n rs : 0 < n → vectors (n :: rs) = concat ((λ y, (λ k, k :: y) <$> seq 0 n) <$> vectors rs).
Proof.
  intros Hn. unfold vectors. cbn [length replicate after fmap list_fmap concat]. rewrite seq_head by done.
  cbn [fmap list_fmap app]. done.
Qed.

(** The elements an index vector picks. *)
Definition picks {A} (ls : list (list A)) (x : list nat) : option (list A) := mapM (λ '(l, i), l !! i) (zip ls x).

Lemma mapM_snoc {A B} (f : A → option B) l x : mapM f (l ++ [x]) = (ys ← mapM f l; y ← f x; Some (ys ++ [y])).
Proof.
  induction l as [|a l IH]; cbn [app mapM mbind option_bind]; [by destruct (f x)|].
  destruct (f a); [|done]. cbn [mbind option_bind]. rewrite IH. destruct (mapM f l); [|done]. cbn [mbind option_bind]. by destruct (f x).
Qed.

Lemma picks_snoc {A} (ls : list (list A)) l x i :
  length ls = length x → picks (ls ++ [l]) (x ++ [i]) = (ys ← picks ls x; y ← l !! i; Some (ys ++ [y])).
Proof. intros Hl. unfold picks. rewrite zip_with_app by done. change (zip_with pair [l] [i]) with [(l, i)]. by rewrite mapM_snoc. Qed.

Lemma after_length rs rx : in_range rx rs → Forall (λ y, length y = length rs) (after rs rx).
Proof.
  induction 1 as [|i n rx rs Hi Hr IH]; cbn [after]; [constructor|]. apply Forall_app. split.
  - apply Forall_fmap, Forall_forall. intros k _. simpl. by rewrite (Forall2_length _ _ _ Hr).
  - apply Forall_concat, Forall_fmap. eapply Forall_impl; [exact IH|]. intros y Hy. simpl.
    apply Forall_fmap, Forall_forall. intros k _. simpl. by rewrite Hy.
Qed.

Lemma zeros_in_range rs : Forall (λ n, 0 < n) rs → in_range (replicate (length rs) 0) rs.
Proof. induction 1; simpl; constructor; done. Qed.

(** The index vectors pick the elements of the product, in order. *)
Lemma vectors_product {A} (rls : list (list A)) :
  Forall (λ l, 0 < length l) rls →
  Forall2 (λ x t, picks (reverse rls) (reverse x) = Some t) (vectors (length <$> rls)) (product (reverse rls)).
Proof.
  induction 1 as [|l rls Hl Hrls IH].
  { unfold vectors. simpl. constructor; [done|constructor]. }
  cbn [fmap list_fmap]. rewrite vectors_cons by done. rewrite reverse_cons, product_snoc.
  assert (Forall (λ x, length x = length rls) (vectors (length <$> rls))) as Hlen.
  { unfold vectors. apply Forall_cons. rewrite length_replicate, length_fmap. split; [done|].
    eapply Forall_impl; [apply after_length|simpl; by rewrite length_fmap].
    rewrite <-(length_fmap length rls). apply zeros_in_range. by apply Forall_fmap. }
  revert IH Hlen. generalize (vectors (length <$> rls)) (product (reverse rls)). intros vsx prod H.
  induction H as [|x t vsx prod Hx _ IH]; intros Hlen; [constructor|]. apply Forall_cons in Hlen as [Hlx Hlen].
  cbn [fmap list_fmap concat]. apply Forall2_app; [|by apply IH]. apply Forall2_fmap, Forall2_same_length_lookup.
  rewrite length_seq. split; [done|]. intros i k a Hk Ha. apply lookup_seq in Hk as [-> _]. rewrite reverse_cons, picks_snoc.
  - rewrite Hx. cbn [mbind option_bind]. simpl. by rewrite Ha.
  - by rewrite !length_reverse.
Qed.

Lemma prod_list_zero l : prod_list l = 0 ↔ 0 ∈ l.
Proof.
  unfold prod_list. induction l as [|n l IH]; cbn [foldr]; [set_solver|]. rewrite elem_of_cons, <-IH. lia.
Qed.

(** ** The operator *)

Section OperatorProofs.
Context (hash : nodeID → Z) (sharedHTs : list HT) (flats : list bool).
Context (Hsides : 2 ≤ length sharedHTs).

(** The output for the combination [ts]: the common values of its lists, each as often as in the
    list that has it least, with the positions of each value in every list. *)
Definition batch_for (ts : list IntersectColumn) (b : Batch) : Prop :=
  ∃ lists, fetchListsToIntersectFromTuples ts flats = Some lists ∧ b_tuples b = ts ∧ sorted (b_keys b) ∧
    (∀ v, least_occ v lists (occ v (b_keys b))) ∧
    (b_keys b ≠ [] → Permutation (b_selections b).*1 (seq 0 (length lists)) ∧
      Forall (λ s, ∃ l, lists !! s.1 = Some l ∧ Forall2 (λ p v, l !! p = Some v) s.2 (b_keys b)) (b_selections b)).

(** The lists of a combination are sorted and fit into a vector. *)
Definition tuple_ok (ts : list IntersectColumn) : Prop :=
  ∃ lists, fetchListsToIntersectFromTuples ts flats = Some lists ∧ length lists = length sharedHTs ∧
    Forall (λ l, sorted l ∧ length l ≤ DEFAULT_VECTOR_CAPACITY) lists.

Record state_ok (st : Intersect) : Prop := {
  so_out : length (outKeyBuffer st) = DEFAULT_VECTOR_CAPACITY;
  so_svs : svs_ok (intersectSelVectors st);
  so_len : length (intersectSelVectors st) = length sharedHTs;
  so_idx : length (tupleIdxPerBuildSide st) = length sharedHTs
}.

Lemma intersect_combo ts out svs :
  tuple_ok ts → length out = DEFAULT_VECTOR_CAPACITY → svs_ok svs → length svs = length sharedHTs →
  ∃ lists lists' idxs out' n svs', fetchListsToIntersectFromTuples ts flats = Some lists ∧
    swapSmallestListToFront lists = Some (lists', idxs) ∧ intersectLists lists' out svs = Some (out', n, svs') ∧
    length out' = DEFAULT_VECTOR_CAPACITY ∧ svs_ok svs' ∧ length svs' = length sharedHTs ∧
    batch_for ts (mkBatch (take n out') ts (if decide (n = 0) then [] else zip idxs (getSelectedPositions <$> svs'))).
Proof.
  intros (lists & Hfetch & Hlen & Hls) Hout Hsvs Hsl.
  destruct (swapSmallestListToFront_Some lists) as (first & rest & idxs & Hswap & Hperm & Hsm & Hip & Hrel); [lia|].
  assert (Forall (λ l, sorted l ∧ length l ≤ DEFAULT_VECTOR_CAPACITY) (first :: rest)) as Hls' by (by rewrite Hperm).
  assert (length (first :: rest) = length sharedHTs) as Hlen' by (by rewrite Hperm).
  destruct (intersectLists_Some first rest out svs) as (out' & vs & svs' & Hint & Ho & Ht & Hso & Hsv & Hsvl & Hal & Hocc); try done.
  { simpl in Hlen'. lia. }
  { eapply Forall_impl; [exact Hls'|]. by intros l [? _]. }
  { apply Forall_forall. intros l Hl. rewrite Forall_forall in Hsm, Hls'. split; [by apply Hsm|by apply Hls']. }
  exists lists, (first :: rest), idxs, out', (length vs), svs'. split_and!; try done; [congruence|].
  exists lists. cbn [b_tuples b_keys b_selections]. rewrite Ht. split_and!; try done.
  - intros v. specialize (Hocc v) as [H1 H2]. split; [by rewrite <-Hperm|]. rewrite <-Hperm. done.
  - intros Hne. rewrite decide_False by (by destruct vs). specialize (Hal Hne). pose proof (Forall2_length _ _ _ Hal) as Hl1.
    pose proof (Forall2_length _ _ _ Hrel) as Hl2. split.
    + rewrite fst_zip by (rewrite length_fmap; lia). done.
    + apply Forall_forall. intros [i pos] Hin. apply list_elem_of_lookup in Hin as [k Hk].
      apply lookup_zip_with_Some in Hk as (i' & pos' & [= -> ->] & Hi & Hpos). rewrite list_lookup_fmap in Hpos.
      destruct (svs' !! k) as [sv|] eqn:Esv; [|done]. injection Hpos as <-.
      destruct (Forall2_lookup_r _ _ _ _ _ Hal Esv) as (l & Hl & _ & _ & Hv).
      destruct (Forall2_lookup_r _ _ _ _ _ Hrel Hi) as (l' & Hl' & Hli). exists l. simpl. split; [congruence|done].
Qed.

Lemma reverse_sizes {A} (ls : list (list A)) l rls :
  reverse ls = l :: rls → length <$> ls = reverse (length <$> rls) ++ [length l].
Proof. intros H. rewrite <-(reverse_involutive ls), H, reverse_cons, fmap_app, fmap_reverse. done. Qed.

Lemma intersect_step_Some st ls x ts :
  state_ok st → probedFlatTuples st = ls → length ls = length sharedHTs → carryBuildSideIdx st = Some (length sharedHTs - 1) →
  tupleIdxPerBuildSide st = reverse x → in_range x (length <$> reverse ls) → picks ls (reverse x) = Some ts → tuple_ok ts →
  ∃ st' b, intersect_step flats st = Some (st', b) ∧ batch_for ts b ∧ state_ok st' ∧ probedFlatTuples st' = ls ∧
    match after (length <$> reverse ls) x with
    | [] => carryBuildSideIdx st' = None
    | y :: _ => carryBuildSideIdx st' = Some (length sharedHTs - 1) ∧ tupleIdxPerBuildSide st' = reverse y
    end.
Proof.
  intros [Hout Hsvs Hsl Hidx] Hls Hlen Hcarry Hx Hr Hpick Hts. unfold intersect_step. rewrite Hcarry, Hls, Hx. cbn [mbind option_bind].
  unfold picks in Hpick. rewrite Hpick. cbn [mbind option_bind].
  destruct (intersect_combo ts (outKeyBuffer st) (intersectSelVectors st) Hts Hout Hsvs Hsl)
    as (lists & lists' & idxs & out' & n & svs' & -> & Hsw & Hint & Ho & Hsv & Hsvl & Hb).
  cbn [mbind option_bind]. rewrite Hsw. cbn [mbind option_bind]. rewrite Hint. cbn [mbind option_bind].
  destruct (reverse ls) as [|l rls] eqn:Erev; [apply (f_equal length) in Erev; rewrite length_reverse in Erev; simpl in Erev; lia|].
  cbn [fmap list_fmap] in *. inversion Hr as [|i m rx rs Hi Hr']; subst x m rs. clear Hr.
  pose proof (has_next_after (length <$> rls) rx [] [] (length l) i Hr' Hi) as (idxs' & Hn & Hnl & Hny).
  assert (length (length <$> rls) = length sharedHTs - 1) as Hlr.
  { rewrite length_fmap. apply (f_equal length) in Erev. rewrite length_reverse in Erev. simpl in Erev. lia. }
  rewrite Hlr in Hn. rewrite reverse_cons, (reverse_sizes ls l rls Erev), Hn. cbn [mbind option_bind].
  eexists _, _. split; [done|]. split; [done|].
  split; [split; cbn [outKeyBuffer intersectSelVectors tupleIdxPerBuildSide]; [done..|]|].
  { rewrite Hnl. rewrite Hx, reverse_cons in Hidx. exact Hidx. }
  split; [done|]. cbn [carryBuildSideIdx tupleIdxPerBuildSide].
  destruct (after (length l :: (length <$> rls)) (i :: rx)) as [|y t] eqn:E; [done|].
  split; [done|]. rewrite (Hny y t eq_refl). by rewrite app_nil_r.
Qed.

(** ** All the batches *)

Context (P : list nodeID → list (list IntersectColumn)).

(** The combinations of the tuples that match the rows. *)
Definition row_combos (rows : list (list nodeID)) : list (list IntersectColumn) :=
  concat ((λ keys, product (P keys)) <$> rows).

Record rows_ok (rows : list (list nodeID)) : Prop := {
  ro_probe : ∀ keys, keys ∈ rows → probeHTs hash sharedHTs keys = Some (P keys);
  ro_len : ∀ keys, keys ∈ rows → length (P keys) = length sharedHTs;
  ro_small : ∀ keys, keys ∈ rows → (Z.of_nat (prod_list (length <$> P keys)) < 2 ^ 32)%Z;
  ro_tuples : Forall tuple_ok (row_combos rows)
}.

(** The combinations of the current row that are still to come. *)
Definition at_combo (st : Intersect) (cur : list (list IntersectColumn)) : Prop :=
  (carryBuildSideIdx st = None ∧ cur = []) ∨
  ∃ ls x, probedFlatTuples st = ls ∧ length ls = length sharedHTs ∧ carryBuildSideIdx st = Some (length sharedHTs - 1) ∧
    tupleIdxPerBuildSide st = reverse x ∧ in_range x (length <$> reverse ls) ∧
    Forall2 (λ x t, picks ls (reverse x) = Some t) (x :: after (length <$> reverse ls) x) cur.

Lemma product_nil {A} (ls : list (list A)) : product ls = [] ↔ [] ∈ ls.
Proof.
  induction ls as [|l ls IH]; cbn [product]; [set_solver|]. rewrite elem_of_cons, <-IH. destruct l as [|x l].
  - split; [by left|done].
  - cbn [fmap list_fmap concat]. rewrite app_nil. split.
    + intros [H%fmap_nil_inv _]. by right.
    + intros [|H]; [done|]. rewrite H. split; [done|]. clear. induction l; done.
Qed.

Lemma max_zero (ls : list (list IntersectColumn)) acc :
  acc = 0%Z ∨ [] ∈ ls → foldl (λ p l, u32 (p * Z.of_nat (length l))) acc ls = 0%Z.
Proof.
  revert acc. induction ls as [|l ls IH]; intros acc; cbn [foldl]; [by intros [?|?%elem_of_nil]|].
  intros Hz. apply IH. destruct Hz as [->|[<-|?]%elem_of_cons]; [left; done|left; simpl; by rewrite Z.mul_0_r|by right].
Qed.

Lemma max_exact (ls : list (list IntersectColumn)) acc :
  (0 < acc)%Z → Forall (λ l, 0 < length l) ls → (acc * Z.of_nat (prod_list (length <$> ls)) < 2 ^ 32)%Z →
  foldl (λ p l, u32 (p * Z.of_nat (length l))) acc ls = (acc * Z.of_nat (prod_list (length <$> ls)))%Z.
Proof.
  intros Ha Hall. revert acc Ha. induction Hall as [|l ls Hl Hall IH]; intros acc Ha Hb; cbn [foldl fmap list_fmap] in *.
  { unfold prod_list. simpl. lia. }
  change (prod_list (length l :: (length <$> ls))) with (length l * prod_list (length <$> ls)) in *.
  rewrite Nat2Z.inj_mul in *. assert (0 < prod_list (length <$> ls)) as Hp.
  { destruct (decide (prod_list (length <$> ls) = 0)) as [Hz|]; [|lia]. apply prod_list_zero, list_elem_of_fmap in Hz as (l' & Hl' & Hin).
    rewrite Forall_forall in Hall. specialize (Hall l' Hin). lia. }
  assert (u32 (acc * Z.of_nat (length l)) = acc * Z.of_nat (length l))%Z as ->.
  { unfold u32. apply Z.mod_small. split; [lia|]. eapply Z.le_lt_trans; [|exact Hb]. rewrite Z.mul_assoc. nia. }
  rewrite IH by (rewrite <-?Z.mul_assoc; (lia || nia)). lia.
Qed.

Lemma max_zero_iff (ls : list (list IntersectColumn)) :
  (Z.of_nat (prod_list (length <$> ls)) < 2 ^ 32)%Z → maxNumTuplesToIntersect ls = 0%Z ↔ [] ∈ ls.
Proof.
  intros Hb. unfold maxNumTuplesToIntersect. split; [|intros Hin; apply max_zero; by right].
  intros Hz. destruct (decide ([] ∈ ls)) as [|Hni]; [done|]. exfalso.
  assert (Forall (λ l, 0 < length l) ls) as Hall.
  { apply Forall_forall. intros l Hl. destruct l; [done|simpl; lia]. }
  rewrite max_exact in Hz by (done || lia). assert (prod_list (length <$> ls) = 0) as H0 by lia.
  apply prod_list_zero, list_elem_of_fmap in H0 as (l' & Hl' & Hin). rewrite Forall_forall in Hall. specialize (Hall l' Hin). lia.
Qed.

Lemma rows_ok_tail keys rows : rows_ok (keys :: rows) → rows_ok rows.
Proof.
  intros [H1 H2 H3 H4]. split; [intros; apply H1; by right|intros; apply H2; by right|intros; apply H3; by right|].
  unfold row_combos in *. cbn [fmap list_fmap concat] in H4. by apply Forall_app in H4 as [_ ?].
Qed.

Lemma fetch_row_Some st rows :
  state_ok st → carryBuildSideIdx st = None → rows_ok rows →
  ∃ st' rows' more, fetch_row hash sharedHTs st rows = Some (st', rows', more) ∧ state_ok st' ∧ rows_ok rows' ∧
    if more : bool then ∃ cur, cur ≠ [] ∧ at_combo st' cur ∧ row_combos rows = cur ++ row_combos rows'
    else rows' = [] ∧ row_combos rows = [].
Proof.
  revert st. induction rows as [|keys rows IH]; intros st Hst Hc Hok; cbn [fetch_row]; [by eexists _, _, _|].
  rewrite (ro_probe _ Hok) by (by left). cbn [mbind option_bind].
  pose proof (max_zero_iff (P keys) (ro_small _ Hok keys ltac:(by left))) as Hmax.
  assert (row_combos (keys :: rows) = product (P keys) ++ row_combos rows) as Hrc by done.
  case_decide as Hz.
  - apply Hmax, product_nil in Hz. rewrite Hrc, Hz. cbn [app]. apply IH; [by destruct Hst|done|by eapply rows_ok_tail].
  - eexists _, _, _. split; [done|]. destruct Hst as [H1 H2 H3 H4].
    split; [split; try done; cbn [tupleIdxPerBuildSide]; by rewrite length_replicate|]. split; [by eapply rows_ok_tail|].
    exists (product (P keys)). split; [intros Hn%product_nil; by apply Hz, Hmax|]. split; [|done]. right.
    pose proof (ro_len _ Hok keys ltac:(by left)) as Hl.
    exists (P keys), (replicate (length (length <$> reverse (P keys))) 0). cbn [probedFlatTuples carryBuildSideIdx tupleIdxPerBuildSide].
    assert (Forall (λ l : list IntersectColumn, 0 < length l) (reverse (P keys))) as Hall.
    { apply Forall_forall. intros l Hin. rewrite elem_of_reverse in Hin. destruct l; [|simpl; lia]. exfalso. by apply Hz, Hmax. }
    split_and!; try done.
    + rewrite length_fmap, length_reverse, Hl, H4. by rewrite reverse_replicate.
    + apply zeros_in_range. by apply Forall_fmap.
    + pose proof (vectors_product (reverse (P keys)) Hall) as Hv. rewrite reverse_involutive in Hv. exact Hv.
Qed.

Lemma at_combo_step st cur :
  state_ok st → at_combo st cur → cur ≠ [] → Forall tuple_ok cur →
  ∃ t cur' st' b, cur = t :: cur' ∧ intersect_step flats st = Some (st', b) ∧ batch_for t b ∧ state_ok st' ∧ at_combo st' cur'.
Proof.
  intros Hst [[_ ->]|(ls & x & Hls & Hlen & Hca & Hx & Hr & Hrel)] Hne Hts; [done|].
  inversion Hrel as [|? t ? cur' Hpick Hrest]; subst. apply Forall_cons in Hts as [Ht Hts].
  destruct (intersect_step_Some st (probedFlatTuples st) x t) as (st' & b & Hstep & Hb & Hst' & Hls' & Hnext); try done.
  exists t, cur', st', b. split_and!; try done. destruct (after (length <$> reverse (probedFlatTuples st)) x) as [|y ys] eqn:E.
  - inversion Hrest; subst. by left.
  - destruct Hnext as [Hca' Hx']. destruct (after_next _ _ _ _ Hr E) as [-> Hry]. right.
    exists (probedFlatTuples st), y. split_and!; done.
Qed.

Lemma getNextTuples_Some fuel st cur rows :
  state_ok st → at_combo st cur → rows_ok rows → Forall tuple_ok cur → length (cur ++ row_combos rows) < fuel →
  ∃ st' rows' res pre bs, getNextTuples hash sharedHTs flats fuel st rows = Some (st', rows', res) ∧ state_ok st' ∧ rows_ok rows' ∧
    Forall2 batch_for pre bs ∧ Forall (λ b, b_keys b = []) bs ∧
    match res with
    | None => cur ++ row_combos rows = pre
    | Some b => ∃ t cur', cur ++ row_combos rows = pre ++ t :: cur' ++ row_combos rows' ∧ batch_for t b ∧ b_keys b ≠ [] ∧
        at_combo st' cur' ∧ Forall tuple_ok cur'
    end.
Proof.
  revert st cur rows. induction fuel as [|fuel IH]; intros st cur rows Hst Hat Hrows Hts Hf; [lia|]. cbn [getNextTuples].
  assert (∃ st1 rows1 more cur1, (if decide (carryBuildSideIdx st = None) then fetch_row hash sharedHTs st rows else Some (st, rows, true)) =
      Some (st1, rows1, more) ∧ state_ok st1 ∧ rows_ok rows1 ∧ cur ++ row_combos rows = cur1 ++ row_combos rows1 ∧ Forall tuple_ok cur1 ∧
      if more : bool then cur1 ≠ [] ∧ at_combo st1 cur1 else cur1 ++ row_combos rows1 = []) as (st1 & rows1 & more & cur1 & -> & Hst1 & Hrows1 & Hsame & Hts1 & Hmore).
  { case_decide as Hc.
    - assert (cur = []) as -> by (destruct Hat as [[_ ->]|(? & ? & _ & _ & ? & _)]; [done|congruence]).
      destruct (fetch_row_Some st rows Hst Hc Hrows) as (st1 & rows1 & more & -> & Hst1 & Hrows1 & Hm). destruct more.
      + destruct Hm as (cur1 & Hne & Hat1 & Heq). exists st1, rows1, true, cur1. split_and!; try done.
        pose proof (ro_tuples _ Hrows) as Ht. rewrite Heq in Ht. by apply Forall_app in Ht as [? _].
      + destruct Hm as [-> Hm]. exists st1, [], false, []. rewrite Hm. by split_and!; try done.
    - exists st, rows, true, cur. split_and!; try done. destruct Hat as [[? _]|(ls & x & _ & _ & _ & _ & _ & Hrel)]; [done|].
      intros ->. inversion Hrel. }
  cbn [mbind option_bind]. rewrite Hsame in *. destruct more; cbn [negb].
  2:{ exists st1, rows1, None, [], []. rewrite Hmore. split_and!; try done; constructor. }
  destruct Hmore as [Hne Hat1].
  destruct (at_combo_step st1 cur1 Hst1 Hat1 Hne Hts1) as (t & cur' & st2 & b & -> & -> & Hb & Hst2 & Hat2). cbn [mbind option_bind].
  apply Forall_cons in Hts1 as [_ Hts2]. case_decide as Hk.
  - destruct (IH st2 cur' rows1) as (st' & rows' & res & pre & bs & -> & Hst' & Hrows' & Hpre & Hemp & Hres); try done; [simpl in Hf; lia|].
    exists st', rows', res, (t :: pre), (b :: bs). split_and!; try done; [by constructor|by constructor|].
    destruct res as [b'|].
    + destruct Hres as (t' & cur2 & Heq & ?). exists t', cur2. split; [|done]. cbn [app]. by rewrite Heq.
    + cbn [app]. by rewrite Hres.
  - exists st2, rows1, (Some b), [], []. split_and!; try done. exists t, cur'. done.
Qed.

Lemma drainIntersect_Some fuel st cur rows :
  state_ok st → at_combo st cur → rows_ok rows → Forall tuple_ok cur → length (cur ++ row_combos rows) < fuel →
  ∃ bs, drainIntersect hash sharedHTs flats fuel st rows = Some (filter (λ b, b_keys b ≠ []) bs) ∧
    Forall2 batch_for (cur ++ row_combos rows) bs.
Proof.
  revert st cur rows. induction fuel as [|fuel IH]; intros st cur rows Hst Hat Hrows Hts Hf; [lia|].
  destruct (getNextTuples_Some (S fuel) st cur rows) as (st' & rows' & res & pre & bs & Hn & Hst' & Hrows' & Hpre & Hemp & Hres); try done.
  change (drainIntersect hash sharedHTs flats (S fuel) st rows) with ('(st, rows, b) ← getNextTuples hash sharedHTs flats (S fuel) st rows;
      match b with None => Some [] | Some b => rest ← drainIntersect hash sharedHTs flats fuel st rows; Some (b :: rest) end).
  rewrite Hn. cbn [mbind option_bind].
  assert (filter (λ b, b_keys b ≠ []) bs = []) as Hfil.
  { clear -Hemp. induction Hemp as [|b bs Hb _ IH]; [done|]. rewrite filter_cons, decide_False by naive_solver. done. }
  destruct res as [b|].
  - destruct Hres as (t & cur' & Heq & Hb & Hk & Hat' & Hts'). rewrite Heq in *.
    destruct (IH st' cur' rows') as (bs' & -> & Hbs'); try done.
    { rewrite length_app in Hf. simpl in Hf. lia. }
    cbn [mbind option_bind]. exists (bs ++ b :: bs'). split.
    + rewrite filter_app, Hfil. cbn [app]. rewrite filter_cons, decide_True by done. done.
    + apply Forall2_app; [done|]. by constructor.
  - exists bs. rewrite Hfil. subst. done.
Qed.

End OperatorProofs.

Lemma sorted_occ_eq l1 l2 : sorted l1 → sorted l2 → (∀ v, occ v l1 = occ v l2) → l1 = l2.
Proof.
  intros H1 H2 Ho. apply Permutation_occ in Ho. revert l2 H2 Ho.
  induction l1 as [|x l1 IH]; intros l2 H2 Hp; [by apply Permutation_nil_l in Hp|].
  destruct l2 as [|y l2]; [by apply Permutation_nil_r in Hp|].
  assert (x = y) as <-.
  { assert (id_le x y) by (apply (sorted_head_le x l1); [done|rewrite Hp; by left]).
    assert (id_le y x) as Hyx by (apply (sorted_head_le y l2); [done|rewrite <-Hp; by left]).
    apply id_le_eq_lt in Hyx as [|Hlt]; [done|]. by apply id_not_le in Hlt. }
  f_equal. apply sorted_cons in H1 as [_ H1], H2 as [_ H2]. apply IH; [done..|]. by apply Permutation_cons_inv in Hp.
Qed.

(** Without repetitions the least number of occurrences is the product. *)
Lemma least_occ_product v lists n : least_occ v lists n → Forall NoDup lists → n = isect lists v.
Proof.
  intros [Hall Hex] Hnd. unfold isect. destruct (decide (n = 0)) as [->|Hn].
  - symmetry. apply prod_list_zero. apply Exists_exists in Hex as (l & Hl & Ho). apply list_elem_of_fmap. by exists l.
  - assert (n = 1) as ->.
    { apply Exists_exists in Hex as (l & Hl & ->). rewrite Forall_forall in Hnd. pose proof (occ_NoDup l v (Hnd l Hl)). lia. }
    clear Hex Hn. unfold prod_list. induction Hnd as [|l lists Hl _ IH]; cbn [fmap list_fmap foldr]; [done|].
    apply Forall_cons in Hall as [H1 Hall]. pose proof (occ_NoDup l v Hl). specialize (IH Hall). lia.
Qed.

(** ** The operator on finalized tables *)

(** The tuples of a table appended with a key, the newest first. *)
Definition appended_with (t : HT) (k : nodeID) : list IntersectColumn :=
  reverse (filter (λ x : nodeID * IntersectColumn, x.1 = k) (rows t)).*2.

Lemma with_probe_key_eq k l : with_probe_key k l = with_key k l.
Proof.
  unfold with_probe_key, with_key. f_equal. apply list_filter_iff. intros x. apply eqb_spec.
Qed.

Lemma probe_side_finalized hash t :
  filling hash t → (Z.of_nat (getNumEntries t) < 2 ^ 62)%Z →
  ∃ t', finalizeInternal t = Some t' ∧ ∀ k, probe_side hash t' k = Some (appended_with t k).
Proof.
  intros Hf Hbig. unfold probe_side. destruct (decide (getNumEntries t = 0)) as [Hz|Hnz].
  - destruct (finalize_empty hash t Hf Hz) as (t' & Ht' & Htab). exists t'. split; [done|]. intros k.
    unfold getNumEntries in *. rewrite Htab, decide_True by done. unfold appended_with, rows.
    pose proof (FT.to_num _ (fi_table _ _ Hf)) as Hn. rewrite Hz in Hn. symmetry in Hn. apply length_zero_iff_nil in Hn. by rewrite Hn.
  - destruct (finalize_chain hash t Hf ltac:(lia) Hbig) as (t' & Ht' & Htab & _). exists t'. split; [done|]. intros k.
    rewrite decide_False by (unfold getNumEntries in *; by rewrite Htab).
    unfold appended_with. rewrite <-(matches_spec hash t t' k Hf Ht' ltac:(lia) Hbig). unfold matches.
    destruct (chain t' (hash k)); simpl; by rewrite ?with_probe_key_eq.
Qed.

Lemma probeHTs_finalized hash fs :
  Forall (λ t, filling hash t ∧ (Z.of_nat (getNumEntries t) < 2 ^ 62)%Z) fs →
  ∃ ts, mapM finalizeInternal fs = Some ts ∧ length ts = length fs ∧
    ∀ keys, probeHTs hash ts keys = Some (zip_with appended_with fs keys).
Proof.
  induction 1 as [|t fs [Hf Hb] _ (ts & Hts & Hl & IH)]; [by exists []|].
  destruct (probe_side_finalized hash t Hf Hb) as (t' & Ht' & Hp). exists (t' :: ts).
  cbn [mapM]. rewrite Ht'. cbn [mbind option_bind]. rewrite Hts. split; [done|]. split; [simpl; by rewrite Hl|].
  intros [|k keys]; [done|]. unfold probeHTs. cbn [zip_with mapM]. rewrite Hp. cbn [mbind option_bind].
  specialize (IH keys). unfold probeHTs in IH. rewrite IH. done.
Qed.

Lemma initIntersect_ok ts out : length out = DEFAULT_VECTOR_CAPACITY → state_ok ts (initIntersect ts out).
Proof.
  intros Ho. split; cbn [initIntersect outKeyBuffer intersectSelVectors tupleIdxPerBuildSide].
  - done.
  - apply Forall_fmap, Forall_forall. intros t _. split; [|done].
    split; unfold createSelectionVector; cbn [selectedPositionsBuffer selectedSize capacity state]; rewrite ?length_replicate; done || lia.
  - apply length_fmap.
  - apply length_replicate.
Qed.

(** The combinations of build tuples for a row of probe keys, in the order of the operator. *)
Definition combinations (fs : list HT) (rows : list (list nodeID)) : list (list IntersectColumn) :=
  row_combos (zip_with appended_with fs) rows.

(** C13. [Intersect] on two or more build tables and any rows of probe keys: the tables finalize,
    and draining the operator ends and returns, row by row and for every combination of build
    tuples appended with the keys, in order, one batch unless it is empty; a batch has, sorted,
    the values common to all lists of the combination, each as often as in the list that has it
    least, and for every list the positions of those values, in step. The lists must be sorted
    and fit a vector, and the number of combinations of a row must fit 32 bits. *)
Theorem intersect_computes hash fs flats out rows fuel :
  2 ≤ length fs → Forall (λ t, filling hash t ∧ (Z.of_nat (getNumEntries t) < 2 ^ 62)%Z) fs →
  length out = DEFAULT_VECTOR_CAPACITY → Forall (λ keys, length keys = length fs) rows →
  Forall (λ keys, (Z.of_nat (prod_list (length <$> zip_with appended_with fs keys)) < 2 ^ 32)%Z) rows →
  Forall (tuple_ok fs flats) (combinations fs rows) → length (combinations fs rows) < fuel →
  ∃ ts bs, mapM finalizeInternal fs = Some ts ∧
    drainIntersect hash ts flats fuel (initIntersect ts out) rows = Some (filter (λ b, b_keys b ≠ []) bs) ∧
    Forall2 (batch_for flats) (combinations fs rows) bs.
Proof.
  intros Hsides Hfs Hout Hkeys Hsmall Htuples Hfuel. destruct (probeHTs_finalized hash fs Hfs) as (ts & Hts & Hl & Hp).
  assert (∀ t, tuple_ok fs flats t → tuple_ok ts flats t) as Hok by (intros t; unfold tuple_ok; by rewrite Hl).
  destruct (drainIntersect_Some hash ts flats ltac:(lia) (zip_with appended_with fs) fuel (initIntersect ts out) [] rows) as (bs & Hd & Hbs).
  - by apply initIntersect_ok.
  - by left.
  - rewrite Forall_forall in Hkeys, Hsmall. split; [done| |done|].
    + intros keys Hk. rewrite length_zip_with, Hl, (Hkeys keys Hk). apply Nat.min_id.
    + eapply Forall_impl; [exact Htuples|done].
  - constructor.
  - done.
  - exists ts, bs. done.
Qed.

Definition sample_hash (id : nodeID) : Z := murmurhash64 (offset id).

(** A build table that holds [rows], in one block of their size. *)
Definition sample_HT (rows : list (nodeID * IntersectColumn)) : HT :=
  mkJoinHashTable (FT.mkTable (24 * Z.of_nat (length rows)) (FT.mkCollection 24 (length rows)
    [FT.mkBlock ((λ '(k, p), (k, p, sample_hash k)) <$> rows) (length rows) 0]) (length rows))
    (replicate (length rows) None) 0 4 [].

Lemma sample_HT_filling rows : rows ≠ [] → filling sample_hash (sample_HT rows).
Proof.
  intros Hne. assert (0 < length rows) by (destruct rows; [done|simpl; lia]).
  assert (length ((λ '(k, p), (k, p, sample_hash k)) <$> rows) = length rows) as Hl by apply length_fmap.
  split; [split|..]; unfold sample_HT, FT.contents, FT.used, getNumEntries; cbn -[Z.mul Z.div]; rewrite ?app_nil_r, ?length_replicate; try done; try lia.
  - rewrite Z.mul_comm, Z.div_mul by done. by rewrite Nat2Z.id.
  - split; cbn -[Z.mul]; [|intros [|k] b; simpl; [lia|done]]. constructor; [|done]. split; cbn -[Z.mul]; try done; lia.
  - by rewrite length_take, Hl, Nat.min_id.
  - rewrite take_ge by (by rewrite Hl). apply Forall_fmap, Forall_forall. by intros [k p] _.
Qed.

Definition sample_builds : list HT :=
  [sample_HT [(mkID 1 0, UnflatList [mkID 3 0; mkID 5 0; mkID 8 0]); (mkID 2 0, UnflatList [mkID 4 0]); (mkID 1 0, UnflatList [mkID 9 0])];
   sample_HT [(mkID 7 0, FlatValue (mkID 5 0)); (mkID 7 0, FlatValue (mkID 9 0))]].

Definition sample_probes : list (list nodeID) := [[mkID 2 0; mkID 6 0]; [mkID 1 0; mkID 7 0]].

Lemma intersect_computes_witness :
  ∃ ts bs, mapM finalizeInternal sample_builds = Some ts ∧
    drainIntersect sample_hash ts [false; true] 5 (initIntersect ts (replicate DEFAULT_VECTOR_CAPACITY (mkID 0 0))) sample_probes =
      Some (filter (λ b, b_keys b ≠ []) bs) ∧
    Forall2 (batch_for [false; true]) (combinations sample_builds sample_probes) bs.
Proof.
  apply (intersect_computes sample_hash sample_builds [false; true] (replicate DEFAULT_VECTOR_CAPACITY (mkID 0 0)) sample_probes 5).
  - by vm_compute.
  - constructor; [|constructor; [|constructor]]; (split; [by apply sample_HT_filling|by vm_compute]).
  - by vm_compute.
  - by_eval.
  - by_eval.
  - assert (combinations sample_builds sample_probes =
      [[UnflatList [mkID 9 0]; FlatValue (mkID 9 0)]; [UnflatList [mkID 9 0]; FlatValue (mkID 5 0)];
       [UnflatList [mkID 3 0; mkID 5 0; mkID 8 0]; FlatValue (mkID 9 0)]; [UnflatList [mkID 3 0; mkID 5 0; mkID 8 0]; FlatValue (mkID 5 0)]])
      as -> by (by vm_compute).
    repeat constructor; (eexists; split; [reflexivity|]; split; [done|by_eval]).
  - vm_compute. lia.
Defined.

Lemma concat_singletons (lists : list (list nodeID)) : @concat _ <$> ((λ l, [l]) <$> lists) = lists.
Proof.
  rewrite <-list_fmap_compose. rewrite <-(list_fmap_id lists) at 2. apply list_fmap_ext. intros ? l _. simpl. apply app_nil_r.
Qed.

(** The two intersection operators agree on lists without repetitions: for two or more sorted,
    non-empty, duplicate-free lists that fit a vector, the keys of [intersectLists], after the
    smallest list is swapped to the front, are the values [multiway_intersect_on_sorted_tuples]
    caches, in the same order and whatever the capacity of its vectors. *)
Theorem intersect_agrees_with_multiway cap lists out svs :
  0 < cap → 2 ≤ length lists → length svs = length lists → svs_ok svs → length out = DEFAULT_VECTOR_CAPACITY →
  Forall (λ l, l ≠ [] ∧ sorted l ∧ NoDup l ∧ length l ≤ DEFAULT_VECTOR_CAPACITY) lists →
  ∃ lists' idxs out' n svs' cache flag, swapSmallestListToFront lists = Some (lists', idxs) ∧
    intersectLists lists' out svs = Some (out', n, svs') ∧
    multiway_intersect_on_sorted_tuples cap ((λ l, [l]) <$> lists) [[]] = Some (cache, flag) ∧
    take n out' = concat cache.
Proof.
  intros Hcap Hlen Hsl Hsvs Hout Hall.
  destruct (swapSmallestListToFront_Some lists Hlen) as (first & rest & idxs & Hswap & Hperm & Hsm & _).
  assert (Forall (λ l, l ≠ [] ∧ sorted l ∧ NoDup l ∧ length l ≤ DEFAULT_VECTOR_CAPACITY) (first :: rest)) as Hall' by (by rewrite Hperm).
  destruct (intersectLists_Some first rest out svs) as (out' & vs & svs' & Hint & _ & Ht & Hso & _ & _ & _ & Hocc); try done.
  { apply Permutation_length in Hperm. simpl in Hperm. lia. }
  { eapply Forall_impl; [exact Hall'|]. by intros l (_ & ? & _). }
  { apply Forall_forall. intros l Hl. rewrite Forall_forall in Hsm, Hall'. split; [by apply Hsm|by apply Hall']. }
  destruct (multiway_intersect_Some cap ((λ l, [l]) <$> lists) [[]]) as (cache & id & Hm & _ & Hsc & Hoc); try done.
  { destruct lists; [simpl in Hlen; lia|done]. }
  { apply Forall_fmap. eapply Forall_impl; [exact Hall|]. intros l (? & ? & _). simpl. rewrite app_nil_r. split_and!; [congruence|done|done]. }
  { rewrite concat_singletons. apply counts_fit_NoDup. eapply Forall_impl; [exact Hall|]. by intros l (_ & _ & ? & _). }
  exists (first :: rest), idxs, out', (length vs), svs', cache, (bool_decide (concat cache = [])). split_and!; try done.
  rewrite Ht. apply sorted_occ_eq; [done..|]. intros v. rewrite Hoc. destruct (Hocc v) as [H1 H2]. rewrite Hperm in H1, H2.
  rewrite concat_singletons.
  apply least_occ_product; [by split|]. eapply Forall_impl; [exact Hall|]. by intros l (_ & _ & ? & _).
Qed.

(** With repetitions they do not: for two lists that hold the value 3 twice, [intersectLists]
    pairs the first with the first and the second with the second, where the join, and
    [multiway_intersect_on_sorted_tuples], have four matches. *)
Theorem intersect_pairs_duplicates :
  let l := [mkID 3 0; mkID 3 0] in
  let svs := [createSelectionVector DEFAULT_VECTOR_CAPACITY; createSelectionVector DEFAULT_VECTOR_CAPACITY] in
  (∃ out svs', intersectLists [l; l] (replicate DEFAULT_VECTOR_CAPACITY (mkID 0 0)) svs = Some (out, 2, svs') ∧
    getSelectedPositions <$> svs' = [[0; 1]; [0; 1]]) ∧
  multiway_intersect_on_sorted_tuples 8 [[l]; [l]] [[]] = Some ([[mkID 3 0; mkID 3 0; mkID 3 0; mkID 3 0]], false).
Proof. split; [|by vm_compute]. eexists _, _. split; by vm_compute. Qed.

(** The 32-bit product of the numbers of matches wraps: a row with 65536 matches on either of two
    sides is taken for a row without a match and skipped. *)
Theorem match_count_wraps hash sharedHTs st keys l1 l2 :
  length l1 = Nat.pow 2 16 → length l2 = Nat.pow 2 16 → probeHTs hash sharedHTs keys = Some [l1; l2] →
  ∃ st', fetch_row hash sharedHTs st [keys] = Some (st', [], false).
Proof.
  intros H1 H2 Hp. cbn [fetch_row]. rewrite Hp. cbn [mbind option_bind].
  assert (maxNumTuplesToIntersect [l1; l2] = 0%Z) as Hz.
  { unfold maxNumTuplesToIntersect. cbn [foldl]. rewrite H1, H2, Nat2Z.inj_pow. by vm_compute. }
  rewrite decide_True by done. by eexists.
Qed.
