(* ===== verification/Int128.v ===== *)
(** 128-bit integers as a pair of an unsigned low and a signed high word ([int128_t] and
    [Int128_t] of [src/src/common/types/int128_t.cpp] and [src/src/include/common/types/int128_t.h],
    and the tables and limits of [src/src/include/function/cast/functions/numeric_limits.h]).
    Signed arithmetic wraps around, as it does on the targets; where the result of the source's
    expression relies on that, [negate_intermediate_overflow] says so. *)

From Stdlib Require Import Ascii.
From S2P Require Import Prelude JoinHashTable.

#[local] Open Scope Z_scope.

(** ** Words *)

Definition INT64_MIN : Z := - 2 ^ 63.
Definition INT64_MAX : Z := 2 ^ 63 - 1.
Definition UINT64_MAX : Z := 2 ^ 64 - 1.

Record int128_t := mk128 { low : Z; high : Z }.

#[export] Instance int128_eq_dec : EqDecision int128_t.
Proof. solve_decision. Defined.

(** ** Comparisons *)

Definition Equals (lhs rhs : int128_t) : bool := (low lhs =? low rhs) && (high lhs =? high rhs).
Definition notEquals (lhs rhs : int128_t) : bool := negb (low lhs =? low rhs) || negb (high lhs =? high rhs).
Definition greaterThan (lhs rhs : int128_t) : bool :=
  (high lhs >? high rhs) || ((high lhs =? high rhs) && (low lhs >? low rhs)).
Definition greaterThanOrEquals (lhs rhs : int128_t) : bool :=
  (high lhs >? high rhs) || ((high lhs =? high rhs) && (low lhs >=? low rhs)).
Definition lessThan (lhs rhs : int128_t) : bool :=
  (high lhs <? high rhs) || ((high lhs =? high rhs) && (low lhs <? low rhs)).
Definition lessThanOrEquals (lhs rhs : int128_t) : bool :=
  (high lhs <? high rhs) || ((high lhs =? high rhs) && (low lhs <=? low rhs)).

(** ** Negation, addition and subtraction *)

Definition isMin (x : int128_t) : bool := (high x =? INT64_MIN) && (low x =? 0).

Definition negateInPlace (input : int128_t) : Res int128_t :=
  if isMin input then Throw std_overflow_error
  else
    let l := u64 (u64 (UINT64_MAX + 1) - low input) in
    Ret (mk128 l (i64 (i64 (i64 (- high input) - 1) + Z.b2z (l =? 0)))).

Definition negate (input : int128_t) : Res int128_t := negateInPlace input.

Definition negate_if (b : bool) (x : int128_t) : Res int128_t := if b then negateInPlace x else Ret x.

(** [addInPlace] returns what it leaves in [lhs] and whether there was no overflow. *)
Definition addInPlace (lhs rhs : int128_t) : int128_t * bool :=
  let lhsPositive := high lhs >=? 0 in
  let rhsPositive := high rhs >=? 0 in
  let overflow := Z.b2z (u64 (low lhs + low rhs) <? low lhs) in
  let failed :=
    if high rhs >=? 0 then high lhs >? i64 (i64 (INT64_MAX - high rhs) - overflow)
    else high lhs <? i64 (i64 (INT64_MIN - high rhs) - overflow) in
  if failed then (lhs, false)
  else
    let lhs := mk128 (u64 (low lhs + low rhs)) (i64 (i64 (high lhs + high rhs) + overflow)) in
    (lhs, negb (lhsPositive && rhsPositive && isMin lhs)).

Definition subInPlace (lhs rhs : int128_t) : int128_t * bool :=
  let underflow := Z.b2z (u64 (low lhs - low rhs) >? low lhs) in
  let failed :=
    if high rhs >=? 0 then high lhs <? i64 (i64 (INT64_MIN + high rhs) + underflow)
    else (high lhs >? INT64_MIN) && (i64 (high lhs - 1) >=? i64 (i64 (INT64_MAX + high rhs) + underflow)) in
  if failed then (lhs, false)
  else
    let lhs := mk128 (u64 (low lhs - low rhs)) (i64 (i64 (high lhs - high rhs) - underflow)) in
    (lhs, negb (isMin lhs)).

Definition Add (lhs rhs : int128_t) : Res int128_t :=
  let '(lhs, ok) := addInPlace lhs rhs in if ok : bool then Ret lhs else Throw OverflowException.

Definition Sub (lhs rhs : int128_t) : Res int128_t :=
  let '(lhs, ok) := subInPlace lhs rhs in if ok : bool then Ret lhs else Throw OverflowException.

(** ** Multiplication *)

(** With the compiler's 128-bit integers; the operands are not negative. *)
Definition multiply_builtin (lhs rhs : int128_t) : option int128_t :=
  let left := (low lhs + Z.shiftl (high lhs) 64) `mod` 2 ^ 128 in
  let right := (low rhs + Z.shiftl (high rhs) 64) `mod` 2 ^ 128 in
  if 2 ^ 128 <=? left * right then None
  else
    let h := u64 (Z.shiftr (left * right) 64) in
    if Z.land h 0x8000000000000000 =? 0
    then Some (mk128 (u64 (Z.land (left * right) 0xffffffffffffffff)) (i64 h)) else None.

(** Without them: the sixteen products of 32-bit digits, most significant digit first. *)
Definition digits32 (x : int128_t) : Z * Z * Z * Z :=
  (Z.shiftr (u64 (high x)) 32, Z.land (u64 (high x)) 0xffffffff, Z.shiftr (low x) 32, Z.land (low x) 0xffffffff).

Definition multiply_portable (lhs rhs : int128_t) : option int128_t :=
  let '(t0, t1, t2, t3) := digits32 lhs in
  let '(b0, b1, b2, b3) := digits32 rhs in
  let p x y := u64 (x * y) in
  let lo x := Z.land x 0xffffffff in
  let hi x := Z.shiftr x 32 in
  let set x := negb (x =? 0) in
  let top x := negb (Z.land x 0xffffffff80000000 =? 0) in
  if set (p t0 b0) || set (p t0 b1) || set (p t0 b2) || set (p t1 b0) || set (p t2 b0) || set (p t1 b1) then None
  else if top (p t0 b3) || top (p t1 b2) || top (p t2 b1) || top (p t3 b0) then None
  else
    let fourth32 := lo (p t3 b3) in
    let third32 := u64 (lo (p t3 b2) + hi (p t3 b3)) in
    let second32 := u64 (lo (p t3 b1) + hi (p t3 b2)) in
    let first32 := u64 (lo (p t3 b0) + hi (p t3 b1)) in
    let third32 := u64 (third32 + lo (p t2 b3)) in
    let second32 := u64 (second32 + u64 (lo (p t2 b2) + hi (p t2 b3))) in
    let first32 := u64 (first32 + u64 (lo (p t2 b1) + hi (p t2 b2))) in
    let second32 := u64 (second32 + lo (p t1 b3)) in
    let first32 := u64 (first32 + u64 (lo (p t1 b2) + hi (p t1 b3))) in
    let first32 := u64 (first32 + lo (p t0 b3)) in
    let third32 := u64 (third32 + hi fourth32) in
    let second32 := u64 (second32 + hi third32) in
    let first32 := u64 (first32 + hi second32) in
    if negb (Z.land first32 0xffffff80000000 =? 0) then None
    else
      Some (mk128 (Z.lor (u64 (Z.shiftl (lo third32) 32)) (lo fourth32))
        (i64 (Z.lor (u64 (Z.shiftl (lo first32) 32)) (lo second32)))).

(** [tryMultiply], for either way of multiplying. *)
Definition tryMultiply (multiply : int128_t → int128_t → option int128_t) (lhs rhs : int128_t) :
    Res (option int128_t) :=
  let lhs_negative := high lhs <? 0 in
  let rhs_negative := high rhs <? 0 in
  lhs ← negate_if lhs_negative lhs;
  rhs ← negate_if rhs_negative rhs;
  match multiply lhs rhs with
  | None => Ret None
  | Some result => result ← negate_if (xorb lhs_negative rhs_negative) result; Ret (Some result)
  end.

Definition Mul (lhs rhs : int128_t) : Res int128_t :=
  r ← tryMultiply multiply_builtin lhs rhs;
  match r with Some result => Ret result | None => Throw OverflowException end.

(** ** Division *)

(** The [while] loops of [PositiveInt128BitsAmount]: a 64-bit word is zero after 64 shifts. *)
Fixpoint shift_count (n : nat) (x : Z) : nat :=
  match n with
  | O => O
  | S n => if x =? 0 then O else S (shift_count n (Z.shiftr x 1))
  end.

Definition PositiveInt128BitsAmount (input : int128_t) : nat :=
  if negb (high input =? 0) then (64 + shift_count 64 (u64 (high input)))%nat
  else shift_count 64 (low input).

Definition PositiveInt128IsBitSet (input : int128_t) (bit : nat) : bool :=
  if (bit <? 64)%nat then negb (Z.land (low input) (Z.shiftl 1 (Z.of_nat bit)) =? 0)
  else negb (Z.land (u64 (high input)) (Z.shiftl 1 (Z.of_nat (bit - 64))) =? 0).

Definition PositiveInt128LeftShift (lhs : int128_t) (amount : Z) : int128_t :=
  mk128 (u64 (Z.shiftl (low lhs) amount))
    (i64 (u64 (i64 (Z.shiftl (high lhs) amount)) + Z.shiftr (low lhs) (64 - amount))).

Fixpoint divModPositive_loop (i : nat) (lhs : int128_t) (rhs : Z) (result : int128_t) (remainder : Z) :
    int128_t * Z :=
  match i with
  | O => (result, remainder)
  | S i =>
      let result := PositiveInt128LeftShift result 1 in
      let remainder := u64 (Z.shiftl remainder 1) in
      let remainder := if PositiveInt128IsBitSet lhs i then u64 (remainder + 1) else remainder in
      if remainder >=? rhs then
        let l := u64 (low result + 1) in
        divModPositive_loop i lhs rhs (mk128 l (if l =? 0 then i64 (high result + 1) else high result))
          (u64 (remainder - rhs))
      else divModPositive_loop i lhs rhs result remainder
  end.

Definition divModPositive (lhs : int128_t) (rhs : Z) : int128_t * Z :=
  divModPositive_loop (PositiveInt128BitsAmount lhs) lhs rhs (mk128 0 0) 0.

Fixpoint divMod_loop (x : nat) (lhs rhs div_result remainder : int128_t) : Res (int128_t * int128_t) :=
  match x with
  | O => Ret (div_result, remainder)
  | S x =>
      let div_result := PositiveInt128LeftShift div_result 1 in
      let remainder := PositiveInt128LeftShift remainder 1 in
      let remainder := if PositiveInt128IsBitSet lhs x then (addInPlace remainder (mk128 1 0)).1 else remainder in
      if greaterThanOrEquals remainder rhs then
        remainder ← Sub remainder rhs;
        divMod_loop x lhs rhs (addInPlace div_result (mk128 1 0)).1 remainder
      else divMod_loop x lhs rhs div_result remainder
  end.

(** Returns the quotient and the remainder. *)
Definition divMod (lhs rhs : int128_t) : Res (int128_t * int128_t) :=
  let lhs_negative := high lhs <? 0 in
  let rhs_negative := high rhs <? 0 in
  lhs ← negate_if lhs_negative lhs;
  rhs ← negate_if rhs_negative rhs;
  '(div_result, remainder) ← divMod_loop (PositiveInt128BitsAmount lhs) lhs rhs (mk128 0 0) (mk128 0 0);
  div_result ← negate_if (xorb lhs_negative rhs_negative) div_result;
  remainder ← negate_if lhs_negative remainder;
  Ret (div_result, remainder).

Definition Div (lhs rhs : int128_t) : Res int128_t :=
  if (high rhs =? 0) && (low rhs =? 0) then Throw RuntimeException
  else '(q, _) ← divMod lhs rhs; Ret q.

Definition Mod (lhs rhs : int128_t) : Res int128_t :=
  if (high rhs =? 0) && (low rhs =? 0) then Throw RuntimeException
  else '(_, r) ← divMod lhs rhs; Ret r.

(** ** Bits *)

Definition Xor (lhs rhs : int128_t) : int128_t := mk128 (Z.lxor (low lhs) (low rhs)) (Z.lxor (high lhs) (high rhs)).
Definition BinaryAnd (lhs rhs : int128_t) : int128_t := mk128 (Z.land (low lhs) (low rhs)) (Z.land (high lhs) (high rhs)).
Definition BinaryOr (lhs rhs : int128_t) : int128_t := mk128 (Z.lor (low lhs) (low rhs)) (Z.lor (high lhs) (high rhs)).
Definition BinaryNot (val : int128_t) : int128_t := mk128 (u64 (Z.lnot (low val))) (Z.lnot (high val)).

Definition LeftShift (lhs : int128_t) (amount : Z) : int128_t :=
  if amount >=? 64 then mk128 0 (i64 (u64 (Z.shiftl (low lhs) (amount - 64))))
  else if amount =? 0 then lhs
  else mk128 (u64 (Z.shiftl (low lhs) amount))
    (Z.lor (i64 (Z.shiftl (high lhs) amount)) (i64 (Z.shiftr (low lhs) (64 - amount)))).

Definition RightShift (lhs : int128_t) (amount : Z) : int128_t :=
  if amount >=? 64 then mk128 (u64 (Z.shiftr (high lhs) (amount - 64))) (Z.shiftr (high lhs) 63)
  else if amount =? 0 then lhs
  else mk128 (Z.lor (Z.shiftr (low lhs) amount) (u64 (i64 (Z.shiftl (high lhs) (64 - amount)))))
    (Z.shiftr (high lhs) amount).

(** ** Casts *)

Inductive IntType := INT8 | INT16 | INT32 | INT64 | UINT8 | UINT16 | UINT32 | UINT64.

#[export] Instance IntType_eq_dec : EqDecision IntType.
Proof. solve_decision. Defined.

Definition width (t : IntType) : Z :=
  match t with INT8 | UINT8 => 8 | INT16 | UINT16 => 16 | INT32 | UINT32 => 32 | INT64 | UINT64 => 64 end.

Definition isSigned (t : IntType) : bool := match t with INT8 | INT16 | INT32 | INT64 => true | _ => false end.

Definition minimum (t : IntType) : Z := if isSigned t then - 2 ^ (width t - 1) else 0.
Definition maximum (t : IntType) : Z := if isSigned t then 2 ^ (width t - 1) - 1 else 2 ^ width t - 1.

(** [static_cast] to an integer type. *)
Definition static_cast (t : IntType) (z : Z) : Z :=
  if isSigned t then (z + 2 ^ (width t - 1)) `mod` 2 ^ width t - 2 ^ (width t - 1) else z `mod` 2 ^ width t.

(** [TryCastInt128Template]: the value, or [None] where the source returns [false]. *)
Definition TryCastInt128Template (t : IntType) (input : int128_t) : Res (option Z) :=
  if high input =? 0 then
    Ret (if low input <=? u64 (maximum t) then Some (static_cast t (low input)) else None)
  else if high input =? -1 then
    if negb (isSigned t) then Throw OverflowException
    else Ret (if low input >=? UINT64_MAX - u64 (maximum t)
      then Some (static_cast t (- static_cast t (UINT64_MAX - low input) - 1)) else None)
  else Ret None.

Definition tryCast (t : IntType) (input : int128_t) : Res (option Z) := TryCastInt128Template t input.

Definition tryCastToTemplate (value : Z) : int128_t := mk128 (u64 value) (Z.b2z (value <? 0) * -1).

Definition tryCastTo (t : IntType) (value : Z) : int128_t * bool := (tryCastToTemplate value, true).

Definition castTo (t : IntType) (value : Z) : Res int128_t :=
  let '(result, ok) := tryCastTo t value in if ok : bool then Ret result else Throw std_overflow_error.

(** The constructors from integers. *)
Definition of_int (t : IntType) (value : Z) : Res int128_t := result ← castTo t value; Ret (mk128 (low result) (high result)).

(** The conversion operators. *)
Definition NarrowCast (t : IntType) (input : int128_t) : Z := static_cast t (low input).

(** ** Operators *)

Inductive Comparison := EQUALS | NOT_EQUALS | GREATER_THAN | GREATER_THAN_EQUALS | LESS_THAN | LESS_THAN_EQUALS.

Definition compare_op (op : Comparison) (lhs rhs : int128_t) : bool :=
  match op with
  | EQUALS => Equals lhs rhs
  | NOT_EQUALS => notEquals lhs rhs
  | GREATER_THAN => greaterThan lhs rhs
  | GREATER_THAN_EQUALS => greaterThanOrEquals lhs rhs
  | LESS_THAN => lessThan lhs rhs
  | LESS_THAN_EQUALS => lessThanOrEquals lhs rhs
  end.

Inductive BinaryOperator := PLUS | MINUS | TIMES | DIVIDE | MODULO.

Definition arith_op (op : BinaryOperator) (lhs rhs : int128_t) : Res int128_t :=
  match op with
  | PLUS => Add lhs rhs
  | MINUS => Sub lhs rhs
  | TIMES => Mul lhs rhs
  | DIVIDE => Div lhs rhs
  | MODULO => Mod lhs rhs
  end.

Inductive BitOperator := BIT_XOR | BIT_AND | BIT_OR.

Definition bit_op (op : BitOperator) (lhs rhs : int128_t) : int128_t :=
  match op with BIT_XOR => Xor lhs rhs | BIT_AND => BinaryAnd lhs rhs | BIT_OR => BinaryOr lhs rhs end.

(** [operator+=] and [operator*=]; [operator|=] and [operator&=] are [bit_op]. *)
Definition assign_add (lhs rhs : int128_t) : Res int128_t :=
  let '(lhs, ok) := addInPlace lhs rhs in if ok : bool then Ret lhs else Throw OverflowException.
Definition assign_mul (lhs rhs : int128_t) : Res int128_t := Mul lhs rhs.

(** The hash of a 128-bit integer. *)
Definition hash_int128 (key : int128_t) : Z := Z.lxor (murmurhash64 (low key)) (murmurhash64 (u64 (high key))).

(** ** Printing *)

Definition digit_char (d : Z) : Ascii.ascii := Ascii.ascii_of_nat (Z.to_nat (48 + d)).

(** The [while] loop; a value below [2^128] has at most 39 digits. *)
Fixpoint toString_loop (fuel : nat) (input : int128_t) (result : string) : option string :=
  if (high input =? 0) && (low input =? 0) then Some result
  else
    match fuel with
    | O => None
    | S fuel =>
        let '(input, remainder) := divModPositive input 10 in
        toString_loop fuel input (String (digit_char remainder) result)
    end.

(** [depth] bounds the calls of [ToString] on itself, which are at most two. *)
Fixpoint toString_rec (depth : nat) (input : int128_t) : option string :=
  match depth with
  | O => None
  | S depth =>
      if isMin input then
        let '(quotient, remainder) := divModPositive input 10 in
        result ← toString_rec depth quotient;
        Some ("-" +:+ (result +:+ String (digit_char remainder) ""))%string
      else
        let negative := high input <? 0 in
        match negate_if negative input with
        | Throw _ => None
        | Ret input =>
            result ← toString_loop 39 input ""%string;
            let result := if decide (result = ""%string) then "0"%string else result in
            Some (if negative then ("-" +:+ result)%string else result)
        end
  end.

Definition ToString (input : int128_t) : option string := toString_rec 2 input.

(** ** Tables and limits *)

(** [Int128_t::powerOf10]: 40 entries, the last one without an initializer. *)
Definition powerOf10 : list (Res int128_t) :=
  let times a b := x ← a; y ← b; Mul x y in
  let e18 := of_int INT64 1000000000000000000 in
  [of_int INT64 1; of_int INT64 10; of_int INT32 100] ++
  (of_int INT64 <$> [1000; 10000; 100000; 1000000; 10000000; 100000000; 1000000000; 10000000000;
     100000000000; 1000000000000; 10000000000000; 100000000000000; 1000000000000000;
     10000000000000000; 100000000000000000; 1000000000000000000]) ++
  ((λ n, times e18 (of_int INT64 n)) <$> [10; 100; 1000; 10000; 100000; 1000000; 10000000; 100000000;
     1000000000; 10000000000; 100000000000; 1000000000000; 10000000000000; 100000000000000;
     1000000000000000; 10000000000000000; 100000000000000000; 1000000000000000000]) ++
  [times (times e18 e18) (of_int INT64 10); times (times e18 e18) (of_int INT64 100); Ret (mk128 0 0)].

(** [pow10Sequence<int128_t>]. *)
Definition pow10Sequence : list int128_t :=
  [mk128 1 0; mk128 10 0; mk128 100 0; mk128 1000 0; mk128 10000 0; mk128 100000 0; mk128 1000000 0;
   mk128 10000000 0; mk128 100000000 0; mk128 1000000000 0; mk128 10000000000 0; mk128 100000000000 0;
   mk128 1000000000000 0; mk128 10000000000000 0; mk128 100000000000000 0; mk128 1000000000000000 0;
   mk128 10000000000000000 0; mk128 100000000000000000 0; mk128 1000000000000000000 0;
   mk128 10000000000000000000 0; mk128 7766279631452241920 5; mk128 3875820019684212736 54;
   mk128 1864712049423024128 542; mk128 200376420520689664 5421; mk128 2003764205206896640 54210;
   mk128 1590897978359414784 542101; mk128 15908979783594147840 5421010; mk128 11515845246265065472 54210108;
   mk128 4477988020393345024 542101086; mk128 7886392056514347008 5421010862;
   mk128 5076944270305263616 54210108624; mk128 13875954555633532928 542101086242;
   mk128 9632337040368467968 5421010862427; mk128 4089650035136921600 54210108624275;
   mk128 4003012203950112768 542101086242752; mk128 3136633892082024448 5421010862427522;
   mk128 12919594847110692864 54210108624275221; mk128 68739955140067328 542101086242752217;
   mk128 687399551400673280 5421010862427522170].

(** [NumericLimits<int128_t>::minimum] and [maximum]. *)
Definition int128_minimum : int128_t := mk128 (u64 INT64_MIN) 1.
Definition int128_maximum : int128_t := mk128 INT64_MAX (i64 UINT64_MAX).

(** [NumericLimits<T>::digits]. *)
Definition digits (t : IntType) : nat :=
  match t with INT8 => 3 | INT16 => 5 | INT32 => 10 | INT64 => 19 | UINT8 => 3 | UINT16 => 5 | UINT32 => 10 | UINT64 => 20 end.

(** The [pow10Sequence] of an integer type. *)
Fixpoint pow10_from (t : IntType) (n : nat) (v : Z) : list Z :=
  match n with O => [] | S n => v :: pow10_from t n (static_cast t (v * 10)) end.

Definition pow10Sequence_int (t : IntType) : list Z := pow10_from t (digits t) 1.

(** ** Values *)

Record wf (x : int128_t) : Prop := { wf_low : 0 ≤ low x < 2 ^ 64; wf_high : - 2 ^ 63 ≤ high x < 2 ^ 63 }.

Definition val (x : int128_t) : Z := high x * 2 ^ 64 + low x.

Definition of_Z (z : Z) : int128_t := mk128 (u64 z) (i64 (Z.shiftr z 64)).

#[export] Instance wf_dec x : Decision (wf x).
Proof.
  destruct (decide (0 ≤ low x < 2 ^ 64 ∧ - 2 ^ 63 ≤ high x < 2 ^ 63)) as [[??]|H]; [by left|right].
  intros [??]. tauto.
Defined.

Definition INT128_MIN : Z := - 2 ^ 127.

Lemma val_range x : wf x → - 2 ^ 127 ≤ val x < 2 ^ 127.
Proof. intros [??]. unfold val. lia. Qed.

Lemma wf_eq x y : wf x → wf y → val x = val y → x = y.
Proof. intros [??] [??]. unfold val. destruct x, y; simpl in *. intros. f_equal; lia. Qed.

Lemma isMin_spec x : wf x → isMin x = true ↔ val x = INT128_MIN.
Proof. intros [??]. unfold isMin, INT64_MIN, val, INT128_MIN. rewrite andb_true_iff, !Z.eqb_eq. lia. Qed.

Lemma high_neg x : wf x → (high x <? 0) = (val x <? 0).
Proof. intros [??]. unfold val. destruct (Z.ltb_spec (high x) 0), (Z.ltb_spec (high x * 2 ^ 64 + low x) 0); lia. Qed.

(** The result of an operation whose value is [z] when it returns. *)
Definition returns (r : Res int128_t) (z : Z) : Prop := ∃ x, r = Ret x ∧ wf x ∧ val x = z.

Lemma negateInPlace_spec x : wf x → val x ≠ INT128_MIN → returns (negateInPlace x) (- val x).
Proof.
  intros Hx Hm. unfold negateInPlace. destruct (isMin x) eqn:E; [by apply isMin_spec in E|].
  destruct Hx as [Hl Hh]. eexists. split; [done|]. rewrite i64_minus, i64_plus.
  assert (u64 (UINT64_MAX + 1) = 0) as -> by done. replace (0 - low x) with (- low x) by lia. unfold val, INT128_MIN in *.
  destruct (decide (low x = 0)) as [H0|H0].
  - rewrite H0 in *. change (u64 (- 0)) with 0. cbn [low high]. rewrite Z.eqb_refl. simpl (Z.b2z true). rewrite i64_id by lia.
    split; [split; simpl; lia|lia].
  - rewrite u64_under by lia. cbn [low high]. destruct (Z.eqb_spec (- low x + 2 ^ 64) 0); [lia|]. simpl (Z.b2z false).
    rewrite i64_id by lia. split; [split; simpl; lia|lia].
Qed.

Lemma negate_if_spec b x : wf x → val x ≠ INT128_MIN → returns (negate_if b x) (if b then - val x else val x).
Proof. intros Hx Hm. destruct b; simpl; [by apply negateInPlace_spec|by exists x]. Qed.

Lemma negate_min x : wf x → val x = INT128_MIN → negate_if true x = Throw std_overflow_error.
Proof. intros Hx Hm. unfold negate_if, negateInPlace. apply isMin_spec in Hm as ->; done. Qed.

Lemma carry_spec a b : 0 ≤ a < 2 ^ 64 → 0 ≤ b < 2 ^ 64 →
  u64 (a + b) + Z.b2z (u64 (a + b) <? a) * 2 ^ 64 = a + b.
Proof.
  intros Ha Hb. destruct (decide (a + b < 2 ^ 64)).
  - rewrite u64_id by lia. destruct (Z.ltb_spec (a + b) a); simpl; lia.
  - rewrite u64_over by lia. destruct (Z.ltb_spec (a + b - 2 ^ 64) a); simpl; lia.
Qed.

Lemma borrow_spec a b : 0 ≤ a < 2 ^ 64 → 0 ≤ b < 2 ^ 64 →
  u64 (a - b) - Z.b2z (u64 (a - b) >? a) * 2 ^ 64 = a - b.
Proof.
  intros Ha Hb. destruct (decide (0 ≤ a - b)).
  - rewrite u64_id by lia. rewrite Z.gtb_ltb. destruct (Z.ltb_spec a (a - b)); simpl; lia.
  - rewrite u64_under by lia. rewrite Z.gtb_ltb. destruct (Z.ltb_spec a (a - b + 2 ^ 64)); simpl; lia.
Qed.

Lemma b2z_range b : 0 ≤ Z.b2z b ≤ 1.
Proof. destruct b; simpl; lia. Qed.

(** [addInPlace] is exact when the sum is in range and reports the overflow otherwise. *)
Lemma addInPlace_spec x y : wf x → wf y →
  if decide (- 2 ^ 127 ≤ val x + val y < 2 ^ 127)
  then ∃ r, addInPlace x y = (r, true) ∧ wf r ∧ val r = val x + val y
  else (addInPlace x y).2 = false.
Proof.
  intros [Hxl Hxh] [Hyl Hyh]. unfold addInPlace. pose proof (carry_spec (low x) (low y) Hxl Hyl) as Hc.
  pose proof (u64_range (low x + low y)) as Hu. pose proof (b2z_range (u64 (low x + low y) <? low x)) as Hb.
  set (c := Z.b2z (u64 (low x + low y) <? low x)) in *. set (l := u64 (low x + low y)) in *. clearbody c l.
  rewrite i64_plus, !i64_minus. unfold val, INT64_MAX, INT64_MIN. rewrite Z.geb_leb, Z.gtb_ltb.
  assert ((if 0 <=? high y then i64 (2 ^ 63 - 1 - high y - c) <? high x else high x <? i64 (- 2 ^ 63 - high y - c)) =
    negb (bool_decide (- 2 ^ 63 ≤ high x + high y + c < 2 ^ 63))) as ->.
  { destruct (Z.leb_spec 0 (high y)); rewrite i64_id by lia;
      match goal with |- (?a <? ?b) = _ => destruct (Z.ltb_spec a b) end; symmetry.
    - apply negb_true_iff, bool_decide_eq_false. lia.
    - apply negb_false_iff, bool_decide_eq_true. lia.
    - apply negb_true_iff, bool_decide_eq_false. lia.
    - apply negb_false_iff, bool_decide_eq_true. lia. }
  case_bool_decide as Hr; case_decide as Hs; simpl; try (exfalso; lia); [|done].
  rewrite i64_id by lia. exists (mk128 l (high x + high y + c)). split; [|split; [split|]; cbn [low high]; lia].
  f_equal. apply negb_true_iff. destruct (Z.geb_spec (high x) 0), (Z.leb_spec 0 (high y)); simpl; try done.
  unfold isMin, INT64_MIN. cbn [low high]. destruct (Z.eqb_spec (high x + high y + c) (- 2 ^ 63)); [lia|done].
Qed.

(** [subInPlace] is exact when the difference is in range and not the least value, and reports
    failure otherwise. *)
Lemma subInPlace_spec x y : wf x → wf y →
  if decide (- 2 ^ 127 < val x - val y < 2 ^ 127)
  then ∃ r, subInPlace x y = (r, true) ∧ wf r ∧ val r = val x - val y
  else (subInPlace x y).2 = false.
Proof.
  intros [Hxl Hxh] [Hyl Hyh]. unfold subInPlace. pose proof (borrow_spec (low x) (low y) Hxl Hyl) as Hc.
  pose proof (u64_range (low x - low y)) as Hu. pose proof (b2z_range (u64 (low x - low y) >? low x)) as Hb.
  set (c := Z.b2z (u64 (low x - low y) >? low x)) in *. set (l := u64 (low x - low y)) in *. clearbody c l.
  rewrite i64_minus, !i64_plus. unfold val, INT64_MAX, INT64_MIN. rewrite !Z.geb_leb, !Z.gtb_ltb.
  assert ((if 0 <=? high y then high x <? i64 (- 2 ^ 63 + high y + c)
      else (- 2 ^ 63 <? high x) && (i64 (2 ^ 63 - 1 + high y + c) <=? i64 (high x - 1))) =
    negb (bool_decide (- 2 ^ 63 ≤ high x - high y - c < 2 ^ 63))) as ->.
  { destruct (Z.leb_spec 0 (high y)).
    - rewrite i64_id by lia. match goal with |- (?a <? ?b) = _ => destruct (Z.ltb_spec a b) end; symmetry.
      + apply negb_true_iff, bool_decide_eq_false. lia.
      + apply negb_false_iff, bool_decide_eq_true. lia.
    - rewrite (i64_id (2 ^ 63 - 1 + high y + c)) by lia. destruct (Z.ltb_spec (- 2 ^ 63) (high x)); cbn [andb]; symmetry.
      + rewrite (i64_id (high x - 1)) by lia.
        match goal with |- context [?a <=? ?b] => destruct (Z.leb_spec a b) end.
        * apply negb_true_iff, bool_decide_eq_false. lia.
        * apply negb_false_iff, bool_decide_eq_true. lia.
      + apply negb_false_iff, bool_decide_eq_true. lia. }
  case_bool_decide as Hr; cbn [negb].
  2:{ case_decide as Hs; [lia|done]. }
  rewrite i64_id by lia. unfold isMin, INT64_MIN. cbn [low high]. case_decide as Hs.
  - exists (mk128 l (high x - high y - c)). split; [|split; [split|]; cbn [low high]; lia]. f_equal. apply negb_true_iff.
    destruct (Z.eqb_spec (high x - high y - c) (- 2 ^ 63)), (Z.eqb_spec l 0); simpl; try done. lia.
  - cbn [snd]. apply negb_false_iff. destruct (Z.eqb_spec (high x - high y - c) (- 2 ^ 63)), (Z.eqb_spec l 0); simpl; try done; lia.
Qed.

(** ** Multiplication *)

Lemma land_shiftl_mask x m k : 0 ≤ k → Z.land x (Z.shiftl m k) = Z.shiftl (Z.land (Z.shiftr x k) m) k.
Proof.
  intros Hk. apply Z.bits_inj'. intros n Hn. rewrite Z.land_spec, !Z.shiftl_spec, Z.land_spec by lia.
  destruct (decide (k ≤ n)).
  - rewrite Z.shiftr_spec by lia. do 2 f_equal. lia.
  - rewrite (Z.testbit_neg_r m) by lia. by rewrite !andb_false_r.
Qed.

(** Testing the bits [k .. n-1] of an [n]-bit number. *)
Lemma land_high_bits x k n : 0 ≤ k ≤ n → 0 ≤ x < 2 ^ n → (Z.land x (2 ^ n - 2 ^ k) =? 0) = (x <? 2 ^ k).
Proof.
  intros Hk Hx. assert (2 ^ n - 2 ^ k = Z.shiftl (Z.ones (n - k)) k) as ->.
  { rewrite Z.shiftl_mul_pow2, Z.ones_equiv by lia. rewrite <-Z.sub_1_r, Z.mul_sub_distr_r, <-Z.pow_add_r by lia.
    do 2 f_equal; lia. }
  rewrite land_shiftl_mask, Z.land_ones, Z.shiftr_div_pow2, Z.shiftl_mul_pow2 by lia.
  assert (0 < 2 ^ k) by lia. rewrite Z.mod_small.
  2:{ split; [apply Z.div_pos; lia|]. apply Z.div_lt_upper_bound; [lia|]. rewrite <-Z.pow_add_r by lia. replace (k + (n - k)) with n by lia. lia. }
  destruct (Z.ltb_spec x (2 ^ k)).
  - rewrite Z.div_small by lia. done.
  - apply Z.eqb_neq. assert (1 ≤ x / 2 ^ k) by (apply Z.div_le_lower_bound; lia). lia.
Qed.

Definition nonneg (x : int128_t) : Prop := wf x ∧ 0 ≤ high x.

Lemma nonneg_val x : wf x → 0 ≤ val x → nonneg x.
Proof. intros Hx Hv. split; [done|]. destruct Hx as [??]. unfold val in Hv. lia. Qed.

(** A product of two non-negative values, or a failure when it does not fit 127 bits. *)
Definition product_of (r : option int128_t) (z : Z) : Prop :=
  if decide (z < 2 ^ 127) then ∃ x, r = Some x ∧ wf x ∧ val x = z else r = None.

Lemma multiply_builtin_spec x y : nonneg x → nonneg y → product_of (multiply_builtin x y) (val x * val y).
Proof.
  intros [[Hxl Hxh] Hx] [[Hyl Hyh] Hy]. unfold multiply_builtin. rewrite !Z.shiftl_mul_pow2 by lia.
  rewrite !Z.mod_small by lia. replace (low x + high x * 2 ^ 64) with (val x) by (unfold val; lia).
  replace (low y + high y * 2 ^ 64) with (val y) by (unfold val; lia).
  assert (0 ≤ val x * val y) as Hp by (unfold val; nia). set (p := val x * val y) in *. clearbody p.
  unfold product_of. destruct (Z.leb_spec (2 ^ 128) p); [by rewrite decide_False by lia|].
  rewrite Z.shiftr_div_pow2 by lia. assert (0 ≤ p / 2 ^ 64 < 2 ^ 64) as Hd.
  { split; [apply Z.div_pos; lia|]. apply Z.div_lt_upper_bound; lia. }
  rewrite (u64_id (p / 2 ^ 64)) by done. change 0x8000000000000000 with (2 ^ 64 - 2 ^ 63). rewrite land_high_bits by lia.
  pose proof (Z.div_mod p (2 ^ 64) ltac:(lia)) as Hdm. pose proof (Z.mod_pos_bound p (2 ^ 64) ltac:(lia)) as Hm.
  change 0xffffffffffffffff with (Z.ones 64). rewrite Z.land_ones by lia.
  destruct (Z.ltb_spec (p / 2 ^ 64) (2 ^ 63)); case_decide; try (exfalso; lia); [|done].
  eexists. split; [done|]. rewrite u64_id, i64_id by lia. split; [split; cbn [low high]; lia|]. unfold val. cbn [low high]. lia.
Qed.

Lemma digits32_spec x : nonneg x → ∃ t0 t1 t2 t3, digits32 x = (t0, t1, t2, t3) ∧
  0 ≤ t0 < 2 ^ 32 ∧ 0 ≤ t1 < 2 ^ 32 ∧ 0 ≤ t2 < 2 ^ 32 ∧ 0 ≤ t3 < 2 ^ 32 ∧ val x = t0 * 2 ^ 96 + t1 * 2 ^ 64 + t2 * 2 ^ 32 + t3.
Proof.
  intros [[Hl Hh] Hx]. unfold digits32. do 4 eexists. split; [done|]. rewrite u64_id by lia. change 0xffffffff with (Z.ones 32).
  rewrite !Z.land_ones, !Z.shiftr_div_pow2 by lia. unfold val.
  pose proof (Z.div_mod (high x) (2 ^ 32) ltac:(lia)). pose proof (Z.mod_pos_bound (high x) (2 ^ 32) ltac:(lia)).
  pose proof (Z.div_mod (low x) (2 ^ 32) ltac:(lia)). pose proof (Z.mod_pos_bound (low x) (2 ^ 32) ltac:(lia)).
  lia.
Qed.

Lemma word_product a b : 0 ≤ a < 2 ^ 32 → 0 ≤ b < 2 ^ 32 → u64 (a * b) = a * b ∧ 0 ≤ a * b ≤ (2 ^ 32 - 1) * (2 ^ 32 - 1).
Proof. intros Ha Hb. assert (0 ≤ a * b ≤ (2 ^ 32 - 1) * (2 ^ 32 - 1)) by nia. split; [apply u64_id; lia|done]. Qed.

(** Removes the wrap-around of sums that fit, innermost first. *)
Ltac no_wrap :=
  repeat match goal with
  | |- context [u64 ?e] => lazymatch e with context [u64 _] => fail | _ => rewrite (u64_id e) by lia end
  end.

(** The digits of a sum of digit products: the merge of [multiply_portable]. *)
Lemma merge_digits p33 p32 p31 p30 p23 p22 p21 p13 p12 p03 :
  let m := (2 ^ 32 - 1) * (2 ^ 32 - 1) in
  0 ≤ p33 ≤ m → 0 ≤ p32 ≤ m → 0 ≤ p31 ≤ m → 0 ≤ p23 ≤ m → 0 ≤ p22 ≤ m → 0 ≤ p13 ≤ m →
  0 ≤ p30 < 2 ^ 31 → 0 ≤ p21 < 2 ^ 31 → 0 ≤ p12 < 2 ^ 31 → 0 ≤ p03 < 2 ^ 31 →
  let lo x := Z.land x 0xffffffff in
  let hi x := Z.shiftr x 32 in
  let fourth32 := lo p33 in
  let third32 := u64 (u64 (u64 (lo p32 + hi p33) + lo p23) + hi fourth32) in
  let second32 := u64 (u64 (u64 (u64 (lo p31 + hi p32) + u64 (lo p22 + hi p23)) + lo p13) + hi third32) in
  let first32 := u64 (u64 (u64 (u64 (u64 (lo p30 + hi p31) + u64 (lo p21 + hi p22)) + u64 (lo p12 + hi p13)) + lo p03) + hi second32) in
  0 ≤ first32 < 2 ^ 56 ∧
  first32 * 2 ^ 96 + lo second32 * 2 ^ 64 + lo third32 * 2 ^ 32 + lo fourth32 =
    (p30 + p21 + p12 + p03) * 2 ^ 96 + (p31 + p22 + p13) * 2 ^ 64 + (p32 + p23) * 2 ^ 32 + p33.
Proof.
  intros m H33 H32 H31 H23 H22 H13 H30 H21 H12 H03 lo hi. subst m.
  assert (∀ x, 0 ≤ x < 2 ^ 64 → x = hi x * 2 ^ 32 + lo x ∧ 0 ≤ lo x < 2 ^ 32 ∧ 0 ≤ hi x < 2 ^ 32) as Hs.
  { intros x Hx. unfold lo, hi. change 0xffffffff with (Z.ones 32). rewrite Z.land_ones, Z.shiftr_div_pow2 by lia.
    pose proof (Z.div_mod x (2 ^ 32) ltac:(lia)). pose proof (Z.mod_pos_bound x (2 ^ 32) ltac:(lia)). lia. }
  destruct (Hs p33 ltac:(lia)), (Hs p32 ltac:(lia)), (Hs p31 ltac:(lia)), (Hs p30 ltac:(lia)), (Hs p23 ltac:(lia)),
    (Hs p22 ltac:(lia)), (Hs p21 ltac:(lia)), (Hs p13 ltac:(lia)), (Hs p12 ltac:(lia)), (Hs p03 ltac:(lia)).
  intros fourth32. assert (hi fourth32 = 0 ∧ lo fourth32 = lo p33) as [E1 E2].
  { unfold fourth32. destruct (Hs (lo p33) ltac:(lia)). lia. }
  intros third32. assert (third32 = lo p32 + hi p33 + lo p23) as Ht.
  { unfold third32. rewrite E1. no_wrap. lia. }
  clearbody third32. destruct (Hs third32 ltac:(lia)).
  intros second32. assert (second32 = lo p31 + hi p32 + lo p22 + hi p23 + lo p13 + hi third32) as Hsec.
  { unfold second32. no_wrap. lia. }
  clearbody second32. destruct (Hs second32 ltac:(lia)).
  intros first32. assert (first32 = lo p30 + hi p31 + lo p21 + hi p22 + lo p12 + hi p13 + lo p03 + hi second32) as Hf.
  { unfold first32. no_wrap. lia. }
  clearbody first32. rewrite E2. clearbody lo hi. lia.
Qed.

Lemma shift_land_zero a b n : 0 ≤ n → 0 ≤ b < 2 ^ n → Z.land (Z.shiftl a n) b = 0.
Proof.
  intros Hn Hb. apply Z.bits_inj'. intros k Hk. rewrite Z.land_spec, Z.bits_0, Z.shiftl_spec by lia.
  destruct (decide (k < n)).
  - by rewrite Z.testbit_neg_r by lia.
  - rewrite <-(Z.mod_small b (2 ^ n)) by done. rewrite Z.mod_pow2_bits_high by lia. apply andb_false_r.
Qed.

Lemma lor_add a b n : 0 ≤ n → 0 ≤ b < 2 ^ n → Z.lor (Z.shiftl a n) b = a * 2 ^ n + b.
Proof.
  intros Hn Hb. pose proof (shift_land_zero a b n Hn Hb) as Hz.
  rewrite <-Z.lxor_lor, <-Z.add_nocarry_lxor by done. by rewrite Z.shiftl_mul_pow2.
Qed.

Lemma multiply_portable_spec x y : nonneg x → nonneg y → product_of (multiply_portable x y) (val x * val y).
Proof.
  intros Hx Hy. destruct (digits32_spec x Hx) as (t0 & t1 & t2 & t3 & Ht & Ht0 & Ht1 & Ht2 & Ht3 & ->).
  destruct (digits32_spec y Hy) as (b0 & b1 & b2 & b3 & Hb & Hb0 & Hb1 & Hb2 & Hb3 & ->). clear Hx Hy.
  unfold multiply_portable. rewrite Ht, Hb. clear Ht Hb. cbv beta iota.
  replace ((t0 * 2 ^ 96 + t1 * 2 ^ 64 + t2 * 2 ^ 32 + t3) * (b0 * 2 ^ 96 + b1 * 2 ^ 64 + b2 * 2 ^ 32 + b3)) with
    ((t0 * b0) * 2 ^ 192 + (t0 * b1 + t1 * b0) * 2 ^ 160 + (t0 * b2 + t1 * b1 + t2 * b0) * 2 ^ 128 +
     (t3 * b0 + t2 * b1 + t1 * b2 + t0 * b3) * 2 ^ 96 + (t3 * b1 + t2 * b2 + t1 * b3) * 2 ^ 64 + (t3 * b2 + t2 * b3) * 2 ^ 32 + t3 * b3)
    by ring.
  repeat match goal with |- context [u64 (?a * ?b)] =>
    destruct (word_product a b) as [-> ?]; [done..|]; let p := fresh "p" in set (p := a * b) in *; clearbody p end.
  match goal with |- context [if ?b then None else _] => destruct b eqn:E1 end.
  { unfold product_of. rewrite decide_False; [done|]. rewrite !orb_true_iff, !negb_true_iff, !Z.eqb_neq in E1. lia. }
  rewrite !orb_false_iff, !negb_false_iff, !Z.eqb_eq in E1. destruct_and! E1. subst.
  change 0xffffffff80000000 with (2 ^ 64 - 2 ^ 31). rewrite !land_high_bits by lia.
  match goal with |- context [if ?b then None else _] => destruct b eqn:E2 end.
  { unfold product_of. rewrite decide_False; [done|]. rewrite !orb_true_iff, !negb_true_iff, !Z.ltb_ge in E2. lia. }
  rewrite !orb_false_iff, !negb_false_iff, !Z.ltb_lt in E2. destruct_and! E2.
  match goal with |- product_of (if negb (Z.land (u64 (u64 (u64 (u64 (u64 (Z.land ?p30 _ + Z.shiftr ?p31 _) + u64 (Z.land ?p21 _ + Z.shiftr ?p22 _)) +
      u64 (Z.land ?p12 _ + Z.shiftr ?p13 _)) + Z.land ?p03 _) + Z.shiftr (u64 (_ + Z.shiftr (u64 (u64 (u64 (Z.land ?p32 _ + Z.shiftr ?p33 _) + Z.land ?p23 _) + _)) _)) _)) _ =? _) then _ else _) _ =>
    pose proof (merge_digits p33 p32 p31 p30 p23 p22 p21 p13 p12 p03) as Hm end.
  cbv zeta in Hm. repeat (specialize (Hm ltac:(lia))). destruct Hm as [HF HV].
  match type of HV with ?f * _ + Z.land ?s _ * _ + Z.land ?t _ * _ + _ = _ => set (first32 := f) in *; set (second32 := s) in *; set (third32 := t) in * end.
  replace (0 * 2 ^ 192) with 0 by lia.
  match type of HV with _ = ?v => match goal with |- product_of _ ?w => replace w with v by lia end end.
  rewrite <-HV. clear HV.
  assert (∀ z, 0 ≤ Z.land z 0xffffffff < 2 ^ 32) as Hlo.
  { intros z. change 0xffffffff with (Z.ones 32). rewrite Z.land_ones by lia. apply Z.mod_pos_bound. lia. }
  pose proof (Hlo second32). pose proof (Hlo third32). match goal with |- context [_ + Z.land ?p 0xffffffff] => pose proof (Hlo p) end.
  change 0xffffff80000000 with (2 ^ 56 - 2 ^ 31). rewrite land_high_bits by lia. clearbody first32 second32 third32.
  destruct (Z.ltb_spec first32 (2 ^ 31)); cbn [negb]; unfold product_of; [|by rewrite decide_False by lia].
  rewrite decide_True by lia. eexists. split; [done|].
  assert (Z.land first32 0xffffffff = first32) as ->. { change 0xffffffff with (Z.ones 32). rewrite Z.land_ones by lia. apply Z.mod_small. lia. }
  rewrite !(u64_id (Z.shiftl _ 32)) by (rewrite Z.shiftl_mul_pow2 by lia; lia). rewrite !lor_add by (done || lia).
  rewrite i64_id by lia. split; [split; cbn [low high]; lia|]. unfold val. cbn [low high]. lia.
Qed.

Lemma tryMultiply_spec multiply x y :
  (∀ x y, nonneg x → nonneg y → product_of (multiply x y) (val x * val y)) → wf x → wf y →
  if decide (val x = INT128_MIN ∨ val y = INT128_MIN) then tryMultiply multiply x y = Throw std_overflow_error
  else if decide (- 2 ^ 127 < val x * val y < 2 ^ 127)
  then ∃ r, tryMultiply multiply x y = Ret (Some r) ∧ wf r ∧ val r = val x * val y
  else tryMultiply multiply x y = Ret None.
Proof.
  intros Hmul Hx Hy. unfold tryMultiply. pose proof (val_range x Hx) as Hxr. pose proof (val_range y Hy) as Hyr. rewrite !high_neg by done.
  assert (∀ z, wf z → val z = INT128_MIN → (val z <? 0) = true) as Hneg by (intros z _ ->; done).
  destruct (decide (val x = INT128_MIN)) as [Hxm|Hxm].
  { rewrite decide_True by auto. rewrite Hneg by done. rewrite negate_min by done. done. }
  destruct (negate_if_spec (val x <? 0) x Hx Hxm) as (x' & -> & Hx' & Hvx). cbn [mbind Res_bind].
  destruct (decide (val y = INT128_MIN)) as [Hym|Hym].
  { rewrite decide_True by auto. rewrite (Hneg y) by done. rewrite negate_min by done. done. }
  rewrite decide_False by tauto. unfold INT128_MIN in *.
  destruct (negate_if_spec (val y <? 0) y Hy Hym) as (y' & -> & Hy' & Hvy). cbn [mbind Res_bind].
  assert (val x' = Z.abs (val x)) as Hax by (destruct (Z.ltb_spec (val x) 0); lia).
  assert (val y' = Z.abs (val y)) as Hay by (destruct (Z.ltb_spec (val y) 0); lia).
  pose proof (Hmul x' y' (nonneg_val x' Hx' ltac:(lia)) (nonneg_val y' Hy' ltac:(lia))) as Hp. unfold product_of in Hp.
  rewrite Hax, Hay, <-Z.abs_mul in Hp. destruct (decide (Z.abs (val x * val y) < 2 ^ 127)).
  - rewrite decide_True by lia. destruct Hp as (r & -> & Hr & Hvr).
    destruct (negate_if_spec (xorb (val x <? 0) (val y <? 0)) r Hr ltac:(unfold INT128_MIN; lia)) as (r' & -> & Hr' & Hvr').
    cbn [mbind Res_bind]. exists r'. split_and!; [done..|]. rewrite Hvr', Hvr.
    destruct (Z.ltb_spec (val x) 0), (Z.ltb_spec (val y) 0); cbn [xorb]; nia.
  - rewrite decide_False by lia. by rewrite Hp.
Qed.

(** ** Division *)

Definition uval (x : int128_t) : Z := u64 (high x) * 2 ^ 64 + low x.

Lemma u64_i64 z : u64 (i64 z) = u64 z.
Proof.
  unfold u64, i64. rewrite Zminus_mod_idemp_l. f_equal. lia.
Qed.

Lemma uval_range x : wf x → 0 ≤ uval x < 2 ^ 128.
Proof. intros [??]. unfold uval. pose proof (u64_range (high x)). lia. Qed.

Lemma uval_val x : nonneg x → uval x = val x.
Proof. intros [[??] ?]. unfold uval, val. rewrite u64_id by lia. done. Qed.

Lemma uval_nonneg x : wf x → uval x < 2 ^ 127 → nonneg x.
Proof.
  intros [Hl Hh] Hu. split; [done|]. unfold uval in Hu. destruct (decide (high x < 0)); [|lia]. rewrite u64_under in Hu by lia. lia.
Qed.

Lemma shift_count_spec n x : 0 ≤ x < 2 ^ Z.of_nat n → 0 ≤ x < 2 ^ Z.of_nat (shift_count n x) ∧ (shift_count n x ≤ n)%nat.
Proof.
  revert x. induction n as [|n IH]; intros x Hx; [done|]. cbn [shift_count]. destruct (Z.eqb_spec x 0) as [->|]; [simpl; lia|].
  rewrite Nat2Z.inj_succ, Z.pow_succ_r in Hx by lia. destruct (IH (Z.shiftr x 1)) as [H1 H2].
  { rewrite Z.shiftr_div_pow2 by lia. change (2 ^ 1) with 2. split; [apply Z.div_pos; lia|apply Z.div_lt_upper_bound; lia]. }
  rewrite Z.shiftr_div_pow2 in * by lia. change (2 ^ 1) with 2 in *. split; [|lia].
  rewrite Nat2Z.inj_succ, Z.pow_succ_r by lia. pose proof (Z.div_mod x 2 ltac:(lia)). pose proof (Z.mod_pos_bound x 2 ltac:(lia)). lia.
Qed.

(** The value has no bit from the amount on. *)
Lemma bits_amount x : wf x → uval x < 2 ^ Z.of_nat (PositiveInt128BitsAmount x) ∧ (PositiveInt128BitsAmount x ≤ 128)%nat.
Proof.
  intros [Hl Hh]. unfold PositiveInt128BitsAmount, uval. destruct (Z.eqb_spec (high x) 0) as [->|]; cbn [negb].
  - destruct (shift_count_spec 64 (low x)) as [? ?]; [done|]. change (u64 0) with 0. lia.
  - destruct (shift_count_spec 64 (u64 (high x))) as [? ?]; [apply u64_range|]. split; [|lia].
    rewrite Nat2Z.inj_add, Z.pow_add_r by lia. change (Z.of_nat 64) with 64. lia.
Qed.

Lemma bit_set_test a k : 0 ≤ k → negb (Z.land a (Z.shiftl 1 k) =? 0) = Z.testbit a k.
Proof.
  intros Hk. rewrite Z.shiftl_1_l. destruct (Z.testbit a k) eqn:E.
  - apply negb_true_iff, Z.eqb_neq. intros H. apply (f_equal (λ z, Z.testbit z k)) in H.
    rewrite Z.land_spec, E, Z.pow2_bits_true, Z.bits_0 in H by done. done.
  - apply negb_false_iff, Z.eqb_eq, Z.bits_inj'. intros n Hn. rewrite Z.land_spec, Z.bits_0, Z.pow2_bits_eqb by done.
    destruct (Z.eqb_spec k n) as [->|]; [by rewrite E|apply andb_false_r].
Qed.

Lemma bit_set_spec x k : wf x → (k < 128)%nat → PositiveInt128IsBitSet x k = Z.testbit (uval x) (Z.of_nat k).
Proof.
  intros [Hl Hh] Hk. unfold PositiveInt128IsBitSet, uval. rewrite !bit_set_test by lia.
  rewrite <-lor_add, Z.lor_spec, Z.shiftl_spec by lia. destruct (Nat.ltb_spec k 64).
  - by rewrite (Z.testbit_neg_r _ (Z.of_nat k - 64)) by lia.
  - rewrite <-(Z.mod_small (low x) (2 ^ 64)) by lia. rewrite Z.mod_pow2_bits_high by lia. rewrite orb_false_r. f_equal. lia.
Qed.

Lemma shift_one x : wf x → uval x < 2 ^ 127 → wf (PositiveInt128LeftShift x 1) ∧ uval (PositiveInt128LeftShift x 1) = 2 * uval x.
Proof.
  intros [Hl Hh] Hu. destruct (uval_nonneg x (Build_wf x Hl Hh) Hu) as [_ Hn]. unfold PositiveInt128LeftShift.
  split; [split; cbn [low high]; [apply u64_range|apply i64_range]|].
  unfold uval. cbn [low high]. rewrite u64_i64, u64_i64, Z.shiftr_div_pow2, !Z.shiftl_mul_pow2 by lia. change (2 ^ 1) with 2.
  rewrite (u64_id (high x)), (u64_id (high x * 2)) by lia. change (64 - 1) with 63.
  pose proof (Z.div_mod (low x) (2 ^ 63) ltac:(lia)). pose proof (Z.mod_pos_bound (low x) (2 ^ 63) ltac:(lia)).
  assert (0 ≤ low x / 2 ^ 63 ≤ 1) by (split; [apply Z.div_pos; lia|apply Z.lt_succ_r, Z.div_lt_upper_bound; lia]).
  assert (u64 (low x * 2) = low x * 2 - low x / 2 ^ 63 * 2 ^ 64) as ->.
  { symmetry. apply Z.mod_unique_pos with (low x / 2 ^ 63); lia. }
  rewrite u64_id by lia. lia.
Qed.

Lemma increment x :
  wf x → uval x + 1 < 2 ^ 128 →
  let l := u64 (low x + 1) in
  let r := mk128 l (if l =? 0 then i64 (high x + 1) else high x) in wf r ∧ uval r = uval x + 1.
Proof.
  intros [Hl Hh] Hu. cbv zeta. pose proof (u64_range (high x)) as Hr. unfold uval in *.
  destruct (decide (low x = 2 ^ 64 - 1)) as [E|E].
  - rewrite E in *. change (u64 (2 ^ 64 - 1 + 1)) with 0. rewrite Z.eqb_refl. split; [split; cbn [low high]; [lia|apply i64_range]|].
    cbn [low high]. rewrite u64_i64. unfold u64 at 1. rewrite <-Zplus_mod_idemp_l. fold (u64 (high x)). rewrite Z.mod_small by lia. lia.
  - rewrite u64_id by lia. destruct (Z.eqb_spec (low x + 1) 0); [lia|]. split; [split; cbn [low high]; lia|]. cbn [low high]. lia.
Qed.

(** One more binary digit of [n]. *)
Lemma div_pow2_step n i : 0 ≤ n → n / 2 ^ Z.of_nat i = 2 * (n / 2 ^ Z.of_nat (S i)) + Z.b2z (Z.testbit n (Z.of_nat i)).
Proof.
  intros Hn. rewrite Z.testbit_spec' by lia. rewrite Nat2Z.inj_succ, <-Z.add_1_r, Z.pow_add_r by lia. change (2 ^ 1) with 2.
  rewrite <-Z.div_div by lia. apply Z.div_mod. lia.
Qed.

Lemma divModPositive_loop_spec i lhs rhs result rem :
  wf lhs → (i ≤ 128)%nat → 0 < rhs ≤ 2 ^ 63 → wf result → 0 ≤ rem < rhs →
  uval lhs / 2 ^ Z.of_nat i = uval result * rhs + rem →
  ∃ result' rem', divModPositive_loop i lhs rhs result rem = (result', rem') ∧ wf result' ∧ 0 ≤ rem' < rhs ∧
    uval lhs = uval result' * rhs + rem'.
Proof.
  intros Hlhs Hi Hrhs. revert result rem. induction i as [|i IH]; intros result rem Hr Hrem Heq; cbn [divModPositive_loop].
  { exists result, rem. split_and!; try done; try lia. by rewrite Z.div_1_r in Heq. }
  pose proof (uval_range lhs Hlhs) as Hu. pose proof (uval_range result Hr) as Hur. pose proof (div_pow2_step (uval lhs) i ltac:(lia)) as Hd.
  assert (uval lhs / 2 ^ Z.of_nat i < 2 ^ 128) as Hlt.
  { apply Z.le_lt_trans with (uval lhs); [|lia]. apply Z.div_le_upper_bound; [lia|]. nia. }
  rewrite bit_set_spec by (done || lia). pose proof (b2z_range (Z.testbit (uval lhs) (Z.of_nat i))) as Hb.
  set (b := Z.testbit (uval lhs) (Z.of_nat i)) in *. rewrite Z.shiftl_mul_pow2 by lia. change (2 ^ 1) with 2.
  destruct (shift_one result Hr ltac:(nia)) as [Hs Hsv]. set (res := PositiveInt128LeftShift result 1) in *.
  assert ((if b then u64 (u64 (rem * 2) + 1) else u64 (rem * 2)) = rem * 2 + Z.b2z b) as ->.
  { destruct b; simpl (Z.b2z _) in *; rewrite !u64_id by (rewrite ?u64_id by lia; lia); lia. }
  rewrite Z.geb_leb. destruct (Z.leb_spec rhs (rem * 2 + Z.b2z b)).
  - destruct (increment res Hs ltac:(nia)) as [Hi1 Hi2]. cbv zeta in *. apply IH; [lia|done|..].
    + rewrite u64_id by lia. lia.
    + rewrite Hi2, u64_id by lia. nia.
  - apply IH; [lia|done|lia|nia].
Qed.

Lemma divModPositive_spec lhs rhs :
  wf lhs → 0 < rhs ≤ 2 ^ 63 → ∃ q, divModPositive lhs rhs = (q, uval lhs `mod` rhs) ∧ wf q ∧ uval q = uval lhs / rhs.
Proof.
  intros Hl Hr. destruct (bits_amount lhs Hl) as [Hb Hn]. unfold divModPositive. pose proof (uval_range lhs Hl).
  destruct (divModPositive_loop_spec (PositiveInt128BitsAmount lhs) lhs rhs (mk128 0 0) 0) as (q & r & -> & Hq & Hr' & Heq); try done; try lia.
  { rewrite Z.div_small by lia. done. }
  exists q. rewrite Heq at 1 2. split_and!; [|done|].
  - f_equal. apply Z.mod_unique_pos with (uval q); lia.
  - apply Z.div_unique_pos with r; lia.
Qed.

Lemma nonneg_bound x : nonneg x → 0 ≤ val x < 2 ^ 127.
Proof. intros [[??] ?]. unfold val. lia. Qed.

Lemma greaterThanOrEquals_spec x y : wf x → wf y → greaterThanOrEquals x y = (val y <=? val x).
Proof.
  intros [??] [??]. unfold greaterThanOrEquals, val. rewrite Z.gtb_ltb, Z.geb_leb.
  destruct (Z.ltb_spec (high y) (high x)), (Z.eqb_spec (high x) (high y)), (Z.leb_spec (low y) (low x)); cbn [andb orb]; symmetry;
    first [apply Z.leb_le; lia|apply Z.leb_gt; lia].
Qed.

(** Doubling a non-negative value and adding a bit, as the loop of [divMod] does. *)
Lemma double_bit x (b : bool) : nonneg x → 2 * val x + Z.b2z b < 2 ^ 127 →
  let y := PositiveInt128LeftShift x 1 in
  let z := if b then (addInPlace y (mk128 1 0)).1 else y in nonneg z ∧ val z = 2 * val x + Z.b2z b.
Proof.
  intros Hx Hb. pose proof (nonneg_bound x Hx) as Hbx. pose proof (uval_val x Hx) as Hu. destruct Hx as [Hw _].
  destruct (shift_one x Hw ltac:(lia)) as [Hy Hv]. cbv zeta. set (y := PositiveInt128LeftShift x 1) in *.
  pose proof (b2z_range b) as Hbb. assert (nonneg y) as Hny by (apply uval_nonneg; [done|lia]). rewrite (uval_val y Hny), Hu in Hv.
  destruct b; simpl (Z.b2z _) in *; [|split; [done|lia]].
  pose proof (addInPlace_spec y (mk128 1 0) Hy ltac:(by split)) as Ha. change (val (mk128 1 0)) with 1 in Ha. rewrite decide_True in Ha by lia.
  destruct Ha as (r & -> & Hr & Hvr). simpl. split; [apply nonneg_val; [done|lia]|lia].
Qed.

Lemma Sub_spec x y : wf x → wf y → - 2 ^ 127 < val x - val y < 2 ^ 127 → returns (Sub x y) (val x - val y).
Proof.
  intros Hx Hy Hr. pose proof (subInPlace_spec x y Hx Hy) as H. rewrite decide_True in H by done. destruct H as (r & H & Hw & Hv).
  exists r. unfold Sub. by rewrite H.
Qed.

Lemma divMod_loop_spec i lhs rhs q r :
  nonneg lhs → nonneg rhs → 0 < val rhs → (i ≤ 128)%nat → nonneg q → nonneg r → val r < val rhs →
  val lhs / 2 ^ Z.of_nat i = val q * val rhs + val r →
  ∃ q' r', divMod_loop i lhs rhs q r = Ret (q', r') ∧ nonneg q' ∧ nonneg r' ∧ val r' < val rhs ∧ val lhs = val q' * val rhs + val r'.
Proof.
  intros Hlhs Hrhs Hpos. revert q r. induction i as [|i IH]; intros q r Hi Hq Hr Hlt Heq; cbn [divMod_loop].
  { exists q, r. split_and!; try done. by rewrite Z.div_1_r in Heq. }
  pose proof (nonneg_bound _ Hlhs) as Bl. pose proof (nonneg_bound _ Hq) as Bq. pose proof (nonneg_bound _ Hr) as Br.
  pose proof (div_pow2_step (val lhs) i ltac:(lia)) as Hd.
  assert (val lhs / 2 ^ Z.of_nat i < 2 ^ 127) as HM.
  { apply Z.le_lt_trans with (val lhs); [|lia]. apply Z.div_le_upper_bound; [lia|]. nia. }
  destruct Hlhs as [Hwl Hnl] eqn:El. rewrite bit_set_spec by (done || lia). rewrite (uval_val lhs (conj Hwl Hnl)).
  pose proof (b2z_range (Z.testbit (val lhs) (Z.of_nat i))) as Hb. set (b := Z.testbit (val lhs) (Z.of_nat i)) in *. clearbody b.
  destruct (double_bit r b Hr ltac:(nia)) as [Hr2 Hvr2]. destruct (double_bit q false Hq ltac:(simpl (Z.b2z false); nia)) as [Hq2 Hvq2].
  cbv zeta in *. set (r2 := if b then _ else _) in *. set (q2 := PositiveInt128LeftShift q 1) in *. clearbody r2 q2. simpl (Z.b2z false) in Hvq2.
  rewrite greaterThanOrEquals_spec by (apply Hr2 || apply Hrhs). destruct (Z.leb_spec (val rhs) (val r2)) as [Hge|Hge].
  - pose proof (nonneg_bound _ Hr2). destruct (Sub_spec r2 rhs) as (r3 & -> & Hr3 & Hv3); [apply Hr2|apply Hrhs|lia|]. cbn [mbind Res_bind].
    pose proof (addInPlace_spec q2 (mk128 1 0) (proj1 Hq2) ltac:(by split)) as Ha. change (val (mk128 1 0)) with 1 in Ha.
    rewrite decide_True in Ha by nia. destruct Ha as (q3 & -> & Hq3 & Hvq3). cbn [fst].
    apply IH; [lia|apply nonneg_val; [done|lia]|apply nonneg_val; [done|lia]|lia|nia].
  - apply IH; [lia|done|done|done|nia].
Qed.

Lemma divMod_spec x y : wf x → wf y → val y ≠ 0 →
  if decide (val x = INT128_MIN ∨ val y = INT128_MIN) then divMod x y = Throw std_overflow_error
  else ∃ q r, divMod x y = Ret (q, r) ∧ wf q ∧ wf r ∧ val q = Z.quot (val x) (val y) ∧ val r = Z.rem (val x) (val y).
Proof.
  intros Hx Hy Hnz. unfold divMod. pose proof (val_range x Hx) as Hxr. pose proof (val_range y Hy) as Hyr. rewrite !high_neg by done.
  assert (∀ z, wf z → val z = INT128_MIN → (val z <? 0) = true) as Hneg by (intros z _ ->; done).
  destruct (decide (val x = INT128_MIN)) as [Hxm|Hxm].
  { rewrite decide_True by auto. rewrite Hneg by done. rewrite negate_min by done. done. }
  destruct (negate_if_spec (val x <? 0) x Hx Hxm) as (x' & -> & Hx' & Hvx). cbn [mbind Res_bind].
  destruct (decide (val y = INT128_MIN)) as [Hym|Hym].
  { rewrite decide_True by auto. rewrite (Hneg y) by done. rewrite negate_min by done. done. }
  rewrite decide_False by tauto. unfold INT128_MIN in *.
  destruct (negate_if_spec (val y <? 0) y Hy Hym) as (y' & -> & Hy' & Hvy). cbn [mbind Res_bind].
  assert (val x' = Z.abs (val x)) as Hax by (destruct (Z.ltb_spec (val x) 0); lia).
  assert (val y' = Z.abs (val y)) as Hay by (destruct (Z.ltb_spec (val y) 0); lia).
  pose proof (nonneg_val x' Hx' ltac:(lia)) as Nx. pose proof (nonneg_val y' Hy' ltac:(lia)) as Ny.
  destruct (bits_amount x' Hx') as [Hb Hn]. rewrite (uval_val x' Nx) in Hb.
  destruct (divMod_loop_spec (PositiveInt128BitsAmount x') x' y' (mk128 0 0) (mk128 0 0)) as (q & r & -> & Hq & Hr & Hlt & Heq); try done; try lia.
  { change (val (mk128 0 0)) with 0. lia. }
  { change (val (mk128 0 0)) with 0. rewrite Z.div_small by (pose proof (nonneg_bound _ Nx); lia). done. }
  cbn [mbind Res_bind]. pose proof (nonneg_bound _ Hq) as Bq. pose proof (nonneg_bound _ Hr) as Br.
  destruct (negate_if_spec (xorb (val x <? 0) (val y <? 0)) q (proj1 Hq) ltac:(unfold INT128_MIN; lia)) as (q' & -> & Hq' & Hvq).
  cbn [mbind Res_bind].
  destruct (negate_if_spec (val x <? 0) r (proj1 Hr) ltac:(unfold INT128_MIN; lia)) as (r' & -> & Hr' & Hvr). cbn [mbind Res_bind].
  exists q', r'. split_and!; try done.
  - rewrite Z.quot_div, <-Hax, <-Hay by done. rewrite <-(Z.div_unique_pos (val x') (val y') (val q) (val r)) by lia. rewrite Hvq.
    destruct (Z.ltb_spec (val x) 0), (Z.ltb_spec (val y) 0); cbn [xorb]; nia.
  - rewrite Z.rem_mod, <-Hax, <-Hay by done. rewrite <-(Z.mod_unique_pos (val x') (val y') (val q) (val r)) by lia. rewrite Hvr.
    destruct (Z.ltb_spec (val x) 0); nia.
Qed.

(** ** Casts *)

Lemma static_cast_id t z : minimum t ≤ z ≤ maximum t → static_cast t z = z.
Proof.
  unfold minimum, maximum, static_cast. intros Hz.
  destruct t; simpl in *; rewrite Z.mod_small; lia.
Qed.

Lemma cast_to_spec t z : minimum t ≤ z ≤ maximum t → returns (castTo t z) z.
Proof.
  intros Hz. eexists. split; [done|]. unfold tryCastToTemplate, val.
  assert (- 2 ^ 63 ≤ z < 2 ^ 64) by (unfold minimum, maximum in Hz; destruct t; simpl in Hz; lia).
  destruct (Z.ltb_spec z 0); simpl (Z.b2z _).
  - rewrite u64_under by lia. split; [split|]; cbn [low high]; lia.
  - rewrite u64_id by lia. split; [split|]; cbn [low high]; lia.
Qed.

Lemma tryCast_spec t x : wf x →
  match tryCast t x with
  | Ret (Some v) => v = val x ∧ minimum t ≤ val x ≤ maximum t
  | Ret None => ¬ minimum t ≤ val x ≤ maximum t
  | Throw _ => isSigned t = false ∧ - 2 ^ 64 ≤ val x < 0
  end.
Proof.
  intros [Hl Hh]. unfold tryCast, TryCastInt128Template. unfold val.
  assert (maximum t = - minimum t - 1 ∧ isSigned t = true ∨ minimum t = 0 ∧ isSigned t = false) as Hm by (destruct t; [left..|right|right|right|right]; done).
  assert (0 ≤ maximum t < 2 ^ 64) as Hmx by (destruct t; done). assert (- 2 ^ 63 ≤ minimum t) as Hmn by (destruct t; done).
  destruct (Z.eqb_spec (high x) 0) as [E0|].
  { rewrite E0. destruct (Z.leb_spec (low x) (u64 (maximum t))) as [H|H]; rewrite (u64_id (maximum t)) in H by done.
    - rewrite static_cast_id by lia. lia.
    - lia. }
  destruct (Z.eqb_spec (high x) (-1)) as [E1|]; [|lia]. rewrite E1. destruct Hm as [[Hm ->]|[Hm ->]]; cbn [negb]; [|split; [done|lia]].
  rewrite Z.geb_leb, u64_id by done. unfold UINT64_MAX. destruct (Z.leb_spec (2 ^ 64 - 1 - maximum t) (low x)).
  - rewrite (static_cast_id t (2 ^ 64 - 1 - low x)) by lia. rewrite static_cast_id by lia. lia.
  - lia.
Qed.

(** ** Bits *)

Lemma val_bits x k : wf x → 0 ≤ k → Z.testbit (val x) k = if decide (k < 64) then Z.testbit (low x) k else Z.testbit (high x) (k - 64).
Proof.
  intros [Hl Hh] Hk. unfold val. rewrite <-lor_add, Z.lor_spec, Z.shiftl_spec by lia. case_decide.
  - by rewrite (Z.testbit_neg_r (high x)) by lia.
  - rewrite <-(Z.mod_small (low x) (2 ^ 64)) by lia. rewrite Z.mod_pow2_bits_high by lia. apply orb_false_r.
Qed.

Lemma shiftr_unsigned z : 0 ≤ z < 2 ^ 64 ↔ Z.shiftr z 64 = 0.
Proof.
  rewrite Z.shiftr_div_pow2 by lia. split; [intros; by apply Z.div_small|]. intros H.
  pose proof (Z.div_mod z (2 ^ 64) ltac:(lia)). pose proof (Z.mod_pos_bound z (2 ^ 64) ltac:(lia)). lia.
Qed.

Lemma shiftr_signed z : - 2 ^ 63 ≤ z < 2 ^ 63 ↔ Z.shiftr z 63 = 0 ∨ Z.shiftr z 63 = -1.
Proof.
  rewrite Z.shiftr_div_pow2 by lia. pose proof (Z.div_mod z (2 ^ 63) ltac:(lia)). pose proof (Z.mod_pos_bound z (2 ^ 63) ltac:(lia)).
  split; [|lia]. intros Hz. assert (-1 ≤ z / 2 ^ 63 < 1) by (split; [apply Z.div_le_lower_bound|apply Z.div_lt_upper_bound]; lia). lia.
Qed.

(** The bitwise operators act on the two's complement of the value. *)
Lemma bit_op_spec op x y : wf x → wf y →
  wf (bit_op op x y) ∧
  val (bit_op op x y) = match op with BIT_XOR => Z.lxor | BIT_AND => Z.land | BIT_OR => Z.lor end (val x) (val y).
Proof.
  intros Hx Hy. assert (wf (bit_op op x y)) as Hw.
  { destruct Hx as [Hxl Hxh], Hy as [Hyl Hyh]. rewrite shiftr_unsigned in Hxl, Hyl. rewrite shiftr_signed in Hxh, Hyh.
    split; destruct op; cbn [bit_op Xor BinaryAnd BinaryOr low high]; rewrite ?shiftr_unsigned, ?shiftr_signed,
      ?Z.shiftr_lxor, ?Z.shiftr_land, ?Z.shiftr_lor, ?Hxl, ?Hyl; try done;
      destruct Hxh as [->| ->], Hyh as [->| ->]; auto. }
  split; [done|]. apply Z.bits_inj'. intros k Hk. rewrite val_bits by done.
  destruct op; cbn [bit_op Xor BinaryAnd BinaryOr low high];
    rewrite ?Z.lxor_spec, ?Z.land_spec, ?Z.lor_spec, (val_bits x), (val_bits y) by done; by case_decide.
Qed.

Lemma BinaryNot_spec x : wf x → wf (BinaryNot x) ∧ val (BinaryNot x) = Z.lnot (val x).
Proof.
  intros [Hl Hh]. unfold BinaryNot, Z.lnot, val. cbn [low high]. rewrite u64_under by lia.
  split; [split; cbn [low high]; lia|lia].
Qed.

(** ** Shifts *)

(** The value of 128 bits read as a signed number. *)
Definition wrap128 (z : Z) : Z := (z + 2 ^ 127) `mod` 2 ^ 128 - 2 ^ 127.

Lemma wrap128_unique z v k : - 2 ^ 127 ≤ v < 2 ^ 127 → z = v + k * 2 ^ 128 → wrap128 z = v.
Proof.
  intros Hv ->. unfold wrap128. replace (v + k * 2 ^ 128 + 2 ^ 127) with (v + 2 ^ 127 + k * 2 ^ 128) by lia.
  rewrite Z.mod_add, Z.mod_small by lia. lia.
Qed.

Lemma i64_diff z : ∃ k, z = i64 z + k * 2 ^ 64.
Proof.
  exists ((z + 2 ^ 63) / 2 ^ 64). unfold i64. pose proof (Z.div_mod (z + 2 ^ 63) (2 ^ 64) ltac:(lia)). lia.
Qed.

Lemma i64_shifted z n : 0 ≤ n ≤ 63 → ∃ w, i64 (z * 2 ^ n) = w * 2 ^ n ∧ - 2 ^ (63 - n) ≤ w < 2 ^ (63 - n).
Proof.
  intros Hn. exists ((z + 2 ^ (63 - n)) `mod` 2 ^ (64 - n) - 2 ^ (63 - n)). unfold i64.
  assert (2 ^ 63 = 2 ^ (63 - n) * 2 ^ n) as E63 by (rewrite <-Z.pow_add_r by lia; f_equal; lia).
  assert (2 ^ 64 = 2 ^ (64 - n) * 2 ^ n) as E64 by (rewrite <-Z.pow_add_r by lia; f_equal; lia).
  assert (2 ^ (64 - n) = 2 * 2 ^ (63 - n)) as E by (rewrite <-Z.pow_succ_r by lia; f_equal; lia).
  split.
  - rewrite E63, E64, <-Z.mul_add_distr_r, Z.mul_mod_distr_r by lia. lia.
  - pose proof (Z.mod_pos_bound (z + 2 ^ (63 - n)) (2 ^ (64 - n)) ltac:(lia)). lia.
Qed.

Lemma LeftShift_spec x n : wf x → 0 ≤ n < 128 → wf (LeftShift x n) ∧ val (LeftShift x n) = wrap128 (val x * 2 ^ n).
Proof.
  intros Hx Hn. pose proof Hx as [Hl Hh]. unfold LeftShift. rewrite Z.geb_leb. destruct (Z.leb_spec 64 n).
  { split; [split; cbn [low high]; [lia|apply i64_range]|]. unfold val at 1. cbn [low high]. rewrite Z.shiftl_mul_pow2 by lia.
    set (a := low x * 2 ^ (n - 64)). assert (i64 (u64 a) = i64 a) as ->.
    { unfold i64, u64. f_equal. by rewrite Zplus_mod_idemp_l. }
    destruct (i64_diff a) as [k Hk]. pose proof (i64_range a). symmetry. apply wrap128_unique with (high x * 2 ^ (n - 64) + k); [lia|].
    unfold val. assert (2 ^ n = 2 ^ (n - 64) * 2 ^ 64) as -> by (rewrite <-Z.pow_add_r by lia; f_equal; lia).
    replace ((high x * 2 ^ 64 + low x) * (2 ^ (n - 64) * 2 ^ 64)) with (high x * 2 ^ (n - 64) * 2 ^ 128 + a * 2 ^ 64) by (unfold a; ring). lia. }
  destruct (Z.eqb_spec n 0) as [->|].
  { split; [done|]. symmetry. apply wrap128_unique with 0; [by apply val_range|lia]. }
  rewrite !Z.shiftl_mul_pow2, Z.shiftr_div_pow2 by lia.
  assert (2 ^ 64 = 2 ^ (64 - n) * 2 ^ n) as E64 by (rewrite <-Z.pow_add_r by lia; f_equal; lia).
  assert (2 ^ 63 = 2 ^ (63 - n) * 2 ^ n) as E63 by (rewrite <-Z.pow_add_r by lia; f_equal; lia).
  assert (0 < 2 ^ n ≤ 2 ^ 63) as Hp by (split; [lia|apply Z.pow_le_mono_r; lia]).
  pose proof (Z.div_mod (low x) (2 ^ (64 - n)) ltac:(lia)) as Hdm. pose proof (Z.mod_pos_bound (low x) (2 ^ (64 - n)) ltac:(lia)) as Hm.
  set (c := low x / 2 ^ (64 - n)) in *. set (m := low x `mod` 2 ^ (64 - n)) in *.
  assert (0 ≤ c < 2 ^ n) as Hc by (split; [apply Z.div_pos; lia|apply Z.div_lt_upper_bound; lia]).
  assert (u64 (low x * 2 ^ n) = m * 2 ^ n) as ->.
  { unfold u64. symmetry. apply Z.mod_unique_pos with c; [nia|]. rewrite Hdm at 1. rewrite E64. ring. }
  rewrite (i64_id c) by lia. destruct (i64_shifted (high x) n ltac:(lia)) as (w & Hw & Hwr). destruct (i64_diff (high x * 2 ^ n)) as [k Hk].
  rewrite Hw in *. rewrite <-(Z.shiftl_mul_pow2 w n), lor_add by lia.
  assert (wf (mk128 (m * 2 ^ n) (w * 2 ^ n + c))) as Hwf by (split; cbn [low high]; [nia|rewrite E63; nia]). split; [done|].
  symmetry. apply wrap128_unique with k; [by apply val_range|]. unfold val. cbn [low high]. rewrite Z.mul_add_distr_r.
  replace (high x * 2 ^ 64 * 2 ^ n) with (high x * 2 ^ n * 2 ^ 64) by ring. rewrite Hk, Hdm. rewrite (Z.mul_add_distr_r (2 ^ (64 - n) * c)).
  replace (2 ^ (64 - n) * c * 2 ^ n) with (c * 2 ^ 64) by (rewrite E64; ring). ring.
Qed.

Lemma RightShift_spec x n : wf x → 0 ≤ n < 128 → wf (RightShift x n) ∧ val (RightShift x n) = Z.shiftr (val x) n.
Proof.
  intros Hx Hn. pose proof Hx as [Hl Hh]. unfold RightShift. rewrite Z.geb_leb.
  assert (∀ k, 0 ≤ k → - 2 ^ 63 ≤ high x / 2 ^ k < 2 ^ 63) as Hhk.
  { intros k Hk. assert (1 ≤ 2 ^ k) by lia. split; [apply Z.div_le_lower_bound; nia|apply Z.div_lt_upper_bound; nia]. }
  destruct (Z.leb_spec 64 n).
  { rewrite !Z.shiftr_div_pow2 by lia. pose proof (proj1 (shiftr_signed (high x)) Hh) as Hs. rewrite Z.shiftr_div_pow2 in Hs by lia.
    assert (val x / 2 ^ n = high x / 2 ^ (n - 64)) as ->.
    { unfold val. assert (2 ^ n = 2 ^ 64 * 2 ^ (n - 64)) as -> by (rewrite <-Z.pow_add_r by lia; f_equal; lia).
      rewrite <-Z.div_div by lia. f_equal. rewrite Z.div_add_l, Z.div_small by lia. lia. }
    specialize (Hhk (n - 64) ltac:(lia)). split; [split; cbn [low high]; [apply u64_range|lia]|]. unfold val. cbn [low high].
    pose proof (Z.div_mod (high x) (2 ^ 63) ltac:(lia)). pose proof (Z.mod_pos_bound (high x) (2 ^ 63) ltac:(lia)).
    destruct (decide (high x < 0)).
    - assert (high x / 2 ^ (n - 64) < 0) by (apply Z.div_lt_upper_bound; lia). rewrite u64_under by lia. lia.
    - assert (0 ≤ high x / 2 ^ (n - 64)) by (apply Z.div_pos; lia). rewrite u64_id by lia. lia. }
  destruct (Z.eqb_spec n 0) as [->|]; [done|].
  rewrite u64_i64, !Z.shiftl_mul_pow2, !Z.shiftr_div_pow2 by lia.
  assert (2 ^ 64 = 2 ^ n * 2 ^ (64 - n)) as E64 by (rewrite <-Z.pow_add_r by lia; f_equal; lia).
  pose proof (Z.div_mod (high x) (2 ^ n) ltac:(lia)) as Hdm. pose proof (Z.mod_pos_bound (high x) (2 ^ n) ltac:(lia)) as Hm.
  set (a := high x / 2 ^ n) in *. set (m := high x `mod` 2 ^ n) in *.
  assert (u64 (high x * 2 ^ (64 - n)) = Z.shiftl m (64 - n)) as ->.
  { rewrite Z.shiftl_mul_pow2 by lia. unfold u64. symmetry. apply Z.mod_unique_pos with a; [nia|]. rewrite Hdm at 1. rewrite E64. ring. }
  assert (0 ≤ low x / 2 ^ n < 2 ^ (64 - n)) as Hln by (split; [apply Z.div_pos; lia|apply Z.div_lt_upper_bound; lia]).
  rewrite Z.lor_comm, lor_add by lia. specialize (Hhk n ltac:(lia)). fold a in Hhk.
  split; [split; cbn [low high]; [nia|done]|]. unfold val. cbn [low high].
  rewrite Hdm. replace ((2 ^ n * a + m) * 2 ^ 64 + low x) with ((a * 2 ^ 64 + m * 2 ^ (64 - n)) * 2 ^ n + low x) by (rewrite E64; ring).
  rewrite Z.div_add_l by lia. lia.
Qed.

(** ** Printing *)

Definition digit_of (c : Ascii.ascii) : option Z :=
  let d := Z.of_nat (Ascii.nat_of_ascii c) - 48 in if decide (0 ≤ d ≤ 9) then Some d else None.

(** The number a string of decimal digits denotes, after [acc]. *)
Fixpoint read_digits (s : string) (acc : Z) : option Z :=
  match s with
  | EmptyString => Some acc
  | String c s => d ← digit_of c; read_digits s (acc * 10 + d)
  end.

(** The number a decimal numeral denotes; digits do not start with a zero unless they are ["0"]. *)
Definition read_natural (s : string) : option Z :=
  match s with
  | EmptyString => None
  | String c rest => if decide (c = "0"%char ∧ rest ≠ EmptyString) then None else read_digits s 0
  end.

Definition read_int (s : string) : option Z :=
  match s with
  | String "-"%char s => n ← read_natural s; if decide (n = 0) then None else Some (- n)
  | _ => read_natural s
  end.

Lemma app_string_assoc (a b c : string) : (a +:+ b) +:+ c = a +:+ (b +:+ c).
Proof. induction a as [|x a IH]; [done|]. exact (f_equal (String x) IH). Qed.

Lemma read_digits_app a b acc : read_digits (a +:+ b) acc = (n ← read_digits a acc; read_digits b n).
Proof.
  revert acc. induction a as [|x a IH]; intros acc; [done|].
  change (String x a +:+ b) with (String x (a +:+ b)). cbn [read_digits]. destruct (digit_of x); [|done]. apply IH.
Qed.

Lemma digit_char_read d : 0 ≤ d ≤ 9 → digit_of (digit_char d) = Some d.
Proof.
  intros Hd. assert (d ∈ seqZ 0 10) as Hin by (apply elem_of_seqZ; lia). revert Hin. clear Hd.
  assert (Forall (λ d, digit_of (digit_char d) = Some d) (seqZ 0 10)) as H by by_eval.
  rewrite Forall_forall in H. apply H.
Qed.

Lemma digit_char_nonzero d : 0 < d ≤ 9 → digit_char d ≠ "0"%char.
Proof. intros Hd E. pose proof (digit_char_read d ltac:(lia)) as H. rewrite E in H. vm_compute in H. injection H as <-. lia. Qed.

(** [s] is the decimal notation of [n], empty for zero. *)
Definition decimal (s : string) (n : Z) : Prop :=
  read_digits s 0 = Some n ∧ (s = EmptyString ↔ n = 0) ∧ ∀ c rest, s = String c rest → c ≠ "0"%char ∧ c ≠ "-"%char.

Lemma decimal_snoc s n d : 0 ≤ n → 0 ≤ d ≤ 9 → n ≠ 0 ∨ d ≠ 0 → decimal s n → decimal (s +:+ String (digit_char d) "") (n * 10 + d).
Proof.
  intros Hn Hd Hnz (Hr & He & Hf). pose proof (digit_char_read d Hd) as Hdr. split_and!.
  - rewrite read_digits_app, Hr. cbn. by rewrite Hdr.
  - split; [by destruct s|lia].
  - destruct s as [|c s]; cbn; intros c' rest [= <- <-].
    + assert (n = 0) by by apply He. split; [apply digit_char_nonzero; lia|]. intros E. rewrite E in Hdr. vm_compute in Hdr. done.
    + by eapply Hf.
Qed.

Lemma uval_zero x : wf x → (high x =? 0) && (low x =? 0) = bool_decide (uval x = 0).
Proof.
  intros [Hl Hh]. unfold uval. pose proof (u64_range (high x)). destruct (Z.eqb_spec (high x) 0) as [->|Hn]; cbn [andb].
  - change (u64 0) with 0. destruct (Z.eqb_spec (low x) 0); symmetry; [apply bool_decide_eq_true|apply bool_decide_eq_false]; lia.
  - symmetry. apply bool_decide_eq_false. intros H0. assert (u64 (high x) = 0) as E by lia. destruct (decide (high x < 0)).
    + rewrite u64_under in E; lia.
    + rewrite u64_id in E; lia.
Qed.

Lemma toString_loop_spec fuel x acc : wf x → uval x < 10 ^ Z.of_nat fuel →
  ∃ s, toString_loop fuel x acc = Some (s +:+ acc) ∧ decimal s (uval x).
Proof.
  revert x acc. induction fuel as [|fuel IH]; intros x acc Hx Hu; cbn [toString_loop]; rewrite uval_zero by done;
    pose proof (uval_range x Hx) as Hr; case_bool_decide as Hz.
  1,3: exists ""%string; rewrite Hz; done.
  { simpl in Hu. lia. }
  destruct (divModPositive_spec x 10 Hx ltac:(lia)) as (q & -> & Hq & Hvq).
  pose proof (Z.div_mod (uval x) 10 ltac:(lia)) as Hdm. pose proof (Z.mod_pos_bound (uval x) 10 ltac:(lia)) as Hm.
  destruct (IH q (String (digit_char (uval x `mod` 10)) acc) Hq) as (s & -> & Hs).
  { rewrite Nat2Z.inj_succ, Z.pow_succ_r in Hu by lia. rewrite Hvq. apply Z.div_lt_upper_bound; lia. }
  exists (s +:+ String (digit_char (uval x `mod` 10)) ""). split; [by rewrite app_string_assoc|].
  pose proof (uval_range q Hq). replace (uval x) with (uval q * 10 + uval x `mod` 10) at 2 by lia. apply decimal_snoc; [lia|lia|lia|done].
Qed.

Lemma decimal_natural s n : decimal s n → 0 ≤ n → read_natural (if decide (s = ""%string) then "0"%string else s) = Some n.
Proof.
  intros (Hr & He & Hf) Hn. case_decide as E.
  - apply He in E as ->. done.
  - destruct s as [|c s]; [done|]. cbn [read_natural]. destruct (Hf c s eq_refl) as [Hc _]. rewrite decide_False by tauto. done.
Qed.

Lemma decimal_first s n : decimal s n → read_int (if decide (s = ""%string) then "0"%string else s) =
  read_natural (if decide (s = ""%string) then "0"%string else s).
Proof.
  intros (Hr & He & Hf). case_decide as E; [done|]. destruct s as [|c s]; [done|]. destruct (Hf c s eq_refl) as [_ Hc].
  unfold read_int. destruct c as [[] [] [] [] [] [] [] []]; done.
Qed.

Lemma toString_nonmin depth x : wf x → val x ≠ INT128_MIN → ∃ s, toString_rec (S depth) x = Some s ∧ read_int s = Some (val x) ∧
  (0 < val x → decimal s (val x)).
Proof.
  intros Hx Hm. cbn [toString_rec]. destruct (isMin x) eqn:E; [by apply isMin_spec in E|]. rewrite high_neg by done.
  destruct (negate_if_spec (val x <? 0) x Hx Hm) as (y & -> & Hy & Hv). pose proof (val_range x Hx) as Hr.
  assert (nonneg y) as Hny by (apply nonneg_val; [done|destruct (Z.ltb_spec (val x) 0); lia]).
  destruct (toString_loop_spec 39 y "" Hy) as (s & -> & Hs).
  { pose proof (uval_range y Hy). change (Z.of_nat 39) with 39. lia. }
  cbn [mbind option_bind]. rewrite (uval_val y Hny) in Hs. assert (s +:+ "" = s) as ->.
  { clear. induction s as [|c s IH]; [done|]. exact (f_equal (String c) IH). }
  pose proof (nonneg_bound y Hny) as Hb. pose proof (decimal_natural s (val y) Hs ltac:(lia)) as Hnat.
  pose proof (decimal_first s (val y) Hs) as Hfst. eexists. split; [done|]. destruct (Z.ltb_spec (val x) 0).
  - split; [|lia]. change ("-" +:+ ?s) with (String "-"%char s). cbn [read_int]. rewrite Hnat. cbn [mbind option_bind].
    rewrite decide_False by lia. f_equal. lia.
  - rewrite Hfst, Hnat. split; [f_equal; lia|]. intros Hpos. rewrite Hv in Hs. rewrite decide_False; [done|].
    intros ->. destruct Hs as (_ & He & _). assert (val x = 0) by by apply He. lia.
Qed.

(** [ToString] returns for every 128-bit integer, the least one included, and what it returns is
    the decimal numeral of the integer: digits without a leading zero, after a minus sign for a
    negative integer. *)
Theorem ToString_spec x : wf x → ∃ s, ToString x = Some s ∧ read_int s = Some (val x).
Proof.
  intros Hx. unfold ToString. destruct (decide (val x = INT128_MIN)) as [Hm|Hm].
  2:{ destruct (toString_nonmin 1 x Hx Hm) as (s & ? & ? & _). by exists s. }
  cbn [toString_rec]. rewrite (proj2 (isMin_spec x Hx) Hm).
  destruct (divModPositive_spec x 10 Hx ltac:(lia)) as (q & -> & Hq & Hvq).
  assert (uval x = 2 ^ 127) as Hu.
  { apply isMin_spec in Hm; [|done]. unfold isMin in Hm. rewrite andb_true_iff, !Z.eqb_eq in Hm. destruct Hm as [Hh Hl].
    unfold uval. rewrite Hh, Hl. done. }
  rewrite Hu in *. change (2 ^ 127 / 10) with 17014118346046923173168730371588410572 in Hvq. change (2 ^ 127 `mod` 10) with 8.
  assert (nonneg q) as Hnq by (apply uval_nonneg; [done|lia]). rewrite (uval_val q Hnq) in Hvq.
  destruct (toString_nonmin 0 q Hq ltac:(unfold INT128_MIN; lia)) as (s & Hs & _ & Hd). cbn [toString_rec] in Hs. rewrite Hs. cbn [mbind option_bind].
  eexists. split; [done|]. pose proof (decimal_snoc s (val q) 8 ltac:(lia) ltac:(lia) ltac:(lia) (Hd ltac:(lia))) as Hd8.
  change ("-" +:+ ?s) with (String "-"%char s). cbn [read_int]. pose proof (decimal_natural _ _ Hd8 ltac:(lia)) as Hnat.
  rewrite decide_False in Hnat by (destruct s; done). rewrite Hnat. cbn [mbind option_bind]. rewrite decide_False by lia. rewrite Hm, Hvq. done.
Qed.

(** What an arithmetic operator returns for operands of the given values. *)
Definition arith_spec (op : BinaryOperator) (a b : Z) : Res Z :=
  match op with
  | PLUS => if decide (INT128_MIN ≤ a + b < 2 ^ 127) then Ret (a + b) else Throw OverflowException
  | MINUS => if decide (INT128_MIN < a - b < 2 ^ 127) then Ret (a - b) else Throw OverflowException
  | TIMES =>
      if decide (a = INT128_MIN ∨ b = INT128_MIN) then Throw std_overflow_error
      else if decide (INT128_MIN < a * b < 2 ^ 127) then Ret (a * b) else Throw OverflowException
  | DIVIDE =>
      if decide (b = 0) then Throw RuntimeException
      else if decide (a = INT128_MIN ∨ b = INT128_MIN) then Throw std_overflow_error else Ret (Z.quot a b)
  | MODULO =>
      if decide (b = 0) then Throw RuntimeException
      else if decide (a = INT128_MIN ∨ b = INT128_MIN) then Throw std_overflow_error else Ret (Z.rem a b)
  end.

Lemma is_zero x : wf x → (high x =? 0) && (low x =? 0) = bool_decide (val x = 0).
Proof.
  intros [Hl Hh]. unfold val. destruct (Z.eqb_spec (high x) 0), (Z.eqb_spec (low x) 0); symmetry; cbn [andb];
    first [apply bool_decide_eq_true; lia|apply bool_decide_eq_false; lia].
Qed.

(** C38. The operators [+], [-], [*], [/] and [%] of 128-bit integers return the exact result, with
    division truncated towards zero, or throw: on overflow, on a division by zero, and, although
    the exact result may be representable, when a difference or product is the least integer or a
    factor, dividend or divisor is. *)
Theorem arith_op_exact op x y :
  wf x → wf y →
  match arith_op op x y with
  | Ret r => wf r ∧ arith_spec op (val x) (val y) = Ret (val r)
  | Throw e => arith_spec op (val x) (val y) = Throw e
  end.
Proof.
  intros Hx Hy. destruct op; cbn [arith_op arith_spec]; unfold INT128_MIN.
  - unfold Add. pose proof (addInPlace_spec x y Hx Hy) as H. case_decide; [destruct H as (r & -> & ? & Hv); cbn iota beta; by rewrite Hv|].
    destruct (addInPlace x y) as [r b]. simpl in H. by subst b.
  - unfold Sub. pose proof (subInPlace_spec x y Hx Hy) as H. case_decide; [destruct H as (r & -> & ? & Hv); cbn iota beta; by rewrite Hv|].
    destruct (subInPlace x y) as [r b]. simpl in H. by subst b.
  - unfold Mul. pose proof (tryMultiply_spec multiply_builtin x y multiply_builtin_spec Hx Hy) as H.
    unfold INT128_MIN in H. repeat case_decide; [by rewrite H|destruct H as (r & -> & ? & Hv); cbn [mbind Res_bind]; by rewrite Hv|by rewrite H].
  - unfold Div. rewrite is_zero by done. case_bool_decide as Hz; [by rewrite decide_True by done|]. rewrite decide_False by done.
    pose proof (divMod_spec x y Hx Hy Hz) as H. unfold INT128_MIN in H. case_decide; [by rewrite H|].
    destruct H as (q & r & -> & ? & ? & Hv & ?). cbn [mbind Res_bind]. by rewrite Hv.
  - unfold Mod. rewrite is_zero by done. case_bool_decide as Hz; [by rewrite decide_True by done|]. rewrite decide_False by done.
    pose proof (divMod_spec x y Hx Hy Hz) as H. unfold INT128_MIN in H. case_decide; [by rewrite H|].
    destruct H as (q & r & -> & ? & ? & ? & Hv). cbn [mbind Res_bind]. by rewrite Hv.
Qed.

Lemma arith_op_exact_witness :
  match arith_op DIVIDE (mk128 7 (-3)) (mk128 5 0) with
  | Ret r => wf r ∧ arith_spec DIVIDE (val (mk128 7 (-3))) (val (mk128 5 0)) = Ret (val r)
  | Throw e => arith_spec DIVIDE (val (mk128 7 (-3))) (val (mk128 5 0)) = Throw e
  end.
Proof. apply (arith_op_exact DIVIDE (mk128 7 (-3)) (mk128 5 0)); by_eval. Defined.

(** The two multiplications of [tryMultiply], with the compiler's 128-bit integers and with
    32-bit digits, agree on all operands: the same product, the same overflow, the same exception. *)
Theorem multiplications_agree x y : wf x → wf y → tryMultiply multiply_portable x y = tryMultiply multiply_builtin x y.
Proof.
  intros Hx Hy. pose proof (tryMultiply_spec multiply_builtin x y multiply_builtin_spec Hx Hy) as H1.
  pose proof (tryMultiply_spec multiply_portable x y multiply_portable_spec Hx Hy) as H2.
  repeat case_decide; [congruence| |congruence]. destruct H1 as (r1 & -> & ? & ?), H2 as (r2 & -> & ? & ?).
  do 2 f_equal. apply wf_eq; [done..|congruence].
Qed.

(** Casts: an integer of any of the eight machine types is kept by the cast to 128 bits, and
    the cast back returns a value exactly when the type holds it, and then that value; it throws
    only for an unsigned type and a negative integer. *)
Theorem casts_exact t x z :
  wf x → minimum t ≤ z ≤ maximum t →
  returns (castTo t z) z ∧
  match tryCast t x with
  | Ret (Some v) => v = val x ∧ minimum t ≤ val x ≤ maximum t
  | Ret None => ¬ minimum t ≤ val x ≤ maximum t
  | Throw _ => isSigned t = false ∧ - 2 ^ 64 ≤ val x < 0
  end.
Proof. intros Hx Hz. split; [by apply cast_to_spec|by apply tryCast_spec]. Qed.

(** The relation a comparison operator tests. *)
Definition compares (op : Comparison) (a b : Z) : bool :=
  match op with
  | EQUALS => a =? b
  | NOT_EQUALS => negb (a =? b)
  | GREATER_THAN => b <? a
  | GREATER_THAN_EQUALS => b <=? a
  | LESS_THAN => a <? b
  | LESS_THAN_EQUALS => a <=? b
  end.

Lemma compare_op_spec op x y : wf x → wf y → compare_op op x y = compares op (val x) (val y).
Proof.
  intros [Hxl Hxh] [Hyl Hyh]. unfold val.
  destruct op; cbn [compare_op compares]; unfold Equals, notEquals, greaterThan, greaterThanOrEquals, lessThan, lessThanOrEquals;
    rewrite ?Z.gtb_ltb, ?Z.geb_leb;
    repeat match goal with
    | |- context [?a =? ?b] => destruct (Z.eqb_spec a b)
    | |- context [?a <? ?b] => destruct (Z.ltb_spec a b)
    | |- context [?a <=? ?b] => destruct (Z.leb_spec a b)
    end; cbn [andb orb negb]; try done; exfalso; lia.
Qed.

(** Comparisons, bitwise operators and shifts of 128-bit integers are those of the integers
    they denote, in two's complement; a shift to the left drops what exceeds 128 bits and a shift
    to the right rounds down, for every amount below 128. *)
Theorem word_operations_exact op bop x y n :
  wf x → wf y → 0 ≤ n < 128 →
  compare_op op x y = compares op (val x) (val y) ∧
  val (bit_op bop x y) = match bop with BIT_XOR => Z.lxor | BIT_AND => Z.land | BIT_OR => Z.lor end (val x) (val y) ∧
  val (BinaryNot x) = Z.lnot (val x) ∧
  val (LeftShift x n) = wrap128 (val x * 2 ^ n) ∧ val (RightShift x n) = Z.shiftr (val x) n ∧
  wf (bit_op bop x y) ∧ wf (BinaryNot x) ∧ wf (LeftShift x n) ∧ wf (RightShift x n).
Proof.
  intros Hx Hy Hn. destruct (bit_op_spec bop x y Hx Hy), (BinaryNot_spec x Hx), (LeftShift_spec x n Hx Hn), (RightShift_spec x n Hx Hn).
  split_and!; try done. by apply compare_op_spec.
Qed.

(** The tables of powers of ten are right: entry [i] of [Int128_t::powerOf10] and of
    [pow10Sequence<int128_t>] is [10^i] for all 39 exponents that fit, and so is every entry of
    the sequence of each machine type. *)
Theorem powers_of_ten_exact :
  Forall (λ i, ∃ x, powerOf10 !! i = Some (Ret x) ∧ pow10Sequence !! i = Some x ∧ val x = 10 ^ Z.of_nat i) (seq 0 39) ∧
  Forall (λ t, pow10Sequence_int t = (λ i, 10 ^ Z.of_nat i) <$> seq 0 (digits t))
    [INT8; INT16; INT32; INT64; UINT8; UINT16; UINT32; UINT64].
Proof.
  split; [|by_eval]. apply Forall_forall. intros i Hi.
  assert (Forall (λ i, powerOf10 !! i = Ret <$> pow10Sequence !! i ∧ val <$> pow10Sequence !! i = Some (10 ^ Z.of_nat i)) (seq 0 39)) as H by by_eval.
  rewrite Forall_forall in H. destruct (H i Hi) as [H1 H2]. destruct (pow10Sequence !! i) as [x|]; [|done].
  exists x. split_and!; [done|done|]. by injection H2.
Qed.

(** [NumericLimits<int128_t>] passes its words in the wrong order: the minimum it returns is
    positive, the maximum negative, and neither is the limit of the type. *)
Theorem int128_limits_swapped :
  val int128_minimum = 2 ^ 64 + 2 ^ 63 ∧ val int128_maximum = - 2 ^ 63 - 1 ∧
  greaterThan int128_minimum int128_maximum = true ∧
  ∃ x y, wf x ∧ wf y ∧ lessThan x int128_minimum = true ∧ greaterThan y int128_maximum = true.
Proof. split_and!; [done..|]. exists (mk128 0 0), (mk128 0 0). split_and!; by_eval. Qed.

(** [negateInPlace] relies on wrap-around: the negation of the high word is out of range for
    integers whose own negation is not. *)
Theorem negate_intermediate_overflow :
  let x := mk128 1 INT64_MIN in
  wf x ∧ - high x = INT64_MAX + 1 ∧ negateInPlace x = Ret (mk128 UINT64_MAX INT64_MAX) ∧ val (mk128 UINT64_MAX INT64_MAX) = - val x.
Proof. cbv zeta. split_and!; by_eval. Qed.
