(* ===== verification/CheckedArith.v ===== *)
(** Overflow-checked arithmetic on the machine integer types ([src/src/function/arithmetic]:
    [add.cpp], [subtract.cpp], [multiply.cpp], [divide.cpp], [modulo.cpp], [negate.cpp] and
    [abs.cpp]). An operation on the smaller types computes in the next larger one; the 64-bit
    operations use the overflow builtins of the compiler or, without them, portable code, and both
    are modelled. *)

From S2P Require Import Prelude JoinHashTable Int128.

#[local] Open Scope Z_scope.

(** The type the smaller operations compute in. *)
Definition dst_type (t : IntType) : IntType :=
  match t with
  | UINT8 => UINT16 | UINT16 => UINT32 | UINT32 => UINT64 | UINT64 => UINT64
  | INT8 => INT16 | INT16 => INT32 | INT32 => INT64 | INT64 => INT64
  end.

(** [uresult], compared with the limits of the source type. *)
Definition with_overflow_check (src dst : IntType) (uresult : Z) : option Z :=
  let uresult := static_cast dst uresult in
  if (uresult <? minimum src) || (uresult >? maximum src) then None else Some (static_cast src uresult).

(** The overflow builtins. *)
Definition builtin_overflow (t : IntType) (z : Z) : option Z :=
  if (z <? minimum t) || (z >? maximum t) then None else Some z.

(** ** Addition *)

Definition addInPlaceWithOverflowCheck (src dst : IntType) (left right : Z) : option Z :=
  with_overflow_check src dst (static_cast dst left + static_cast dst right).

Definition AddInPlace (t : IntType) (left right : Z) : option Z :=
  match t with
  | UINT64 =>
      if maximum UINT64 - left <? right then None else addInPlaceWithOverflowCheck UINT64 UINT64 left right
  | INT64 => builtin_overflow INT64 (left + right)
  | _ => addInPlaceWithOverflowCheck t (dst_type t) left right
  end.

(** The 64-bit addition without the builtin. *)
Definition add_portable (left right : Z) : option Z :=
  let tmp := i64 (u64 (u64 left + u64 right)) in
  if ((left <? 0) && (right <? 0) && (tmp >=? 0)) || ((left >=? 0) && (right >=? 0) && (tmp <? 0)) then None else Some tmp.

Definition checked (r : option Z) : Res Z := match r with Some z => Ret z | None => Throw OverflowException end.

Definition Add_operation (t : IntType) (left right : Z) : Res Z := checked (AddInPlace t left right).

(** ** Subtraction *)

Definition SubtractInPlaceWithOverflowCheck (src dst : IntType) (left right : Z) : option Z :=
  with_overflow_check src dst (static_cast dst left - static_cast dst right).

Definition SubtractInPlace (t : IntType) (left right : Z) : option Z :=
  match t with
  | UINT8 | UINT16 | UINT32 | UINT64 =>
      if right >? left then None else SubtractInPlaceWithOverflowCheck t (dst_type t) left right
  | INT64 => builtin_overflow INT64 (left - right)
  | _ => SubtractInPlaceWithOverflowCheck t (dst_type t) left right
  end.

Definition sub_portable (left right : Z) : option Z :=
  if right <? 0 then if i64 (maximum INT64 + right) <? left then None else Some (i64 (left - right))
  else if i64 (minimum INT64 + right) >? left then None else Some (i64 (left - right)).

Definition Subtract_operation (t : IntType) (left right : Z) : Res Z := checked (SubtractInPlace t left right).

(** ** Multiplication *)

Definition tryMultiplyWithOverflowCheck (src dst : IntType) (left right : Z) : option Z :=
  with_overflow_check src dst (static_cast dst left * static_cast dst right).

(** [TryMultiply::operation] takes its operands by reference: the result, and the operands it
    leaves behind. *)
Definition TryMultiply (t : IntType) (left right : Z) : option Z * (Z * Z) :=
  match t with
  | UINT64 =>
      let '(l, r) := if left >? right then (right, left) else (left, right) in
      (if l >? maximum UINT32 then None
       else
         let c := u32 (Z.shiftr r 32) in
         let d := u32 (Z.land (maximum UINT32) r) in
         let rc := u64 (l * c) in
         let s := u64 (l * d) in
         if rc >? maximum UINT32 then None
         else
           let rc := u64 (Z.shiftl rc 32) in
           if u64 (maximum UINT64 - s) <? rc then None
           else tryMultiplyWithOverflowCheck UINT64 UINT64 l r, (l, r))
  | INT64 => (builtin_overflow INT64 (left * right), (left, right))
  | _ => (tryMultiplyWithOverflowCheck t (dst_type t) left right, (left, right))
  end.

(** The 64-bit multiplication without the builtin. *)
Definition mul_portable (left right : Z) : option Z :=
  if left =? minimum INT64 then
    if right =? 0 then Some 0 else if right =? 1 then Some left else None
  else if right =? minimum INT64 then
    if left =? 0 then Some 0 else if left =? 1 then Some right else None
  else
    let left_non_negative := u64 (Z.abs left) in
    let right_non_negative := u64 (Z.abs right) in
    let left_high_bits := Z.shiftr left_non_negative 32 in
    let left_low_bits := Z.land left_non_negative 0xffffffff in
    let right_high_bits := Z.shiftr right_non_negative 32 in
    let right_low_bits := Z.land right_non_negative 0xffffffff in
    let overflow high :=
      negb (Z.land (u64 (u64 high + Z.shiftr (u64 (left_low_bits * right_low_bits)) 32)) 0xffffff80000000 =? 0) in
    let failed :=
      if left_high_bits =? 0 then
        if negb (right_high_bits =? 0) then overflow (left_low_bits * right_high_bits) else false
      else if right_high_bits =? 0 then overflow (left_high_bits * right_low_bits) else true in
    if failed : bool then None else Some (i64 (left * right)).

Definition Multiply_operation (t : IntType) (left right : Z) : Res Z := checked (TryMultiply t left right).1.

(** ** Division and modulo *)

Definition tryDivideWithOverflowCheck (src dst : IntType) (left right : Z) : option Z :=
  with_overflow_check src dst (Z.quot (static_cast dst left) (static_cast dst right)).

Definition TryDivide (t : IntType) (left right : Z) : option Z :=
  match t with
  | INT64 => if (left =? minimum INT64) && (right =? -1) then None else tryDivideWithOverflowCheck INT64 INT64 left right
  | _ => tryDivideWithOverflowCheck t (dst_type t) left right
  end.

Definition Divide_operation (t : IntType) (left right : Z) : Res Z :=
  if right =? 0 then Throw RuntimeException else checked (TryDivide t left right).

Definition tryModuloWithOverflowCheck (src dst : IntType) (left right : Z) : option Z :=
  if (left =? minimum src) && (right =? -1) then None
  else Some (static_cast src (static_cast dst (Z.rem (static_cast dst left) (static_cast dst right)))).

Definition TryModulo (t : IntType) (left right : Z) : option Z :=
  match t with
  | INT64 => if (left =? minimum INT64) && (right =? -1) then None else tryModuloWithOverflowCheck INT64 INT64 left right
  | _ => tryModuloWithOverflowCheck t (dst_type t) left right
  end.

Definition Modulo_operation (t : IntType) (left right : Z) : Res Z :=
  if right =? 0 then Throw RuntimeException
  else if isSigned t then checked (TryModulo t left right) else Ret (static_cast t (Z.rem left right)).

Definition Modulo_int128 (left right : int128_t) : Res int128_t := arith_op MODULO left right.

(** ** Negation and absolute value, of the signed types *)

Definition NegateInPlaceWithOverflowCheck (t : IntType) (input : Z) : option Z :=
  if input =? minimum t then None else Some (static_cast t (- input)).

Definition Negate_operation (t : IntType) (input : Z) : Res Z := checked (NegateInPlaceWithOverflowCheck t input).

Definition AbsInPlaceWithOverflowCheck (t : IntType) (input : Z) : option Z :=
  if input =? minimum t then None else Some (static_cast t (Z.abs input)).

Definition Abs_operation (t : IntType) (input : Z) : Res Z := checked (AbsInPlaceWithOverflowCheck t input).

Definition Abs_int128 (input : int128_t) : Res int128_t :=
  if compare_op LESS_THAN input (tryCastToTemplate 0) then negate input else Ret input.

(** ** Exactness *)

Definition holds (t : IntType) (z : Z) : Prop := minimum t ≤ z ≤ maximum t.

#[export] Instance holds_dec t z : Decision (holds t z).
Proof. unfold holds. apply _. Defined.

(** The value when the type holds it, the exception otherwise. *)
Definition exact (t : IntType) (z : Z) : Res Z := if decide (holds t z) then Ret z else Throw OverflowException.

Definition exact_opt (t : IntType) (z : Z) : option Z := if decide (holds t z) then Some z else None.

Lemma checked_exact t z : checked (exact_opt t z) = exact t z.
Proof. unfold exact_opt, exact. by case_decide. Qed.

Lemma dst_wider t z : holds t z → holds (dst_type t) z.
Proof. unfold holds. destruct t; simpl; unfold minimum, maximum; simpl; lia. Qed.

Lemma with_overflow_check_spec t dst z : holds dst z → with_overflow_check t dst z = exact_opt t z.
Proof.
  intros Hz. unfold with_overflow_check, exact_opt, holds in *. rewrite static_cast_id by done. rewrite Z.gtb_ltb.
  destruct (Z.ltb_spec z (minimum t)), (Z.ltb_spec (maximum t) z); cbn [orb]; case_decide; try lia; try done.
  by rewrite static_cast_id.
Qed.

Lemma builtin_overflow_spec t z : builtin_overflow t z = exact_opt t z.
Proof.
  unfold builtin_overflow, exact_opt, holds. rewrite Z.gtb_ltb.
  destruct (Z.ltb_spec z (minimum t)), (Z.ltb_spec (maximum t) z); cbn [orb]; case_decide; try lia; done.
Qed.

Ltac int_range := unfold holds, minimum, maximum, dst_type in *; cbn [isSigned width] in *; lia.

Lemma AddInPlace_spec t l r : holds t l → holds t r → AddInPlace t l r = exact_opt t (l + r).
Proof.
  intros Hl Hr. unfold AddInPlace, addInPlaceWithOverflowCheck. pose proof (dst_wider t l Hl) as Hl'. pose proof (dst_wider t r Hr) as Hr'.
  destruct t; rewrite ?builtin_overflow_spec; try done;
    try (rewrite !static_cast_id by (done || apply Hl || apply Hr || apply Hl' || apply Hr'); apply with_overflow_check_spec; int_range).
  unfold exact_opt. destruct (Z.ltb_spec (maximum UINT64 - l) r); [by rewrite decide_False by int_range|].
  rewrite !static_cast_id by done. rewrite with_overflow_check_spec by int_range. done.
Qed.

Lemma SubtractInPlace_spec t l r : holds t l → holds t r → SubtractInPlace t l r = exact_opt t (l - r).
Proof.
  intros Hl Hr. unfold SubtractInPlace, SubtractInPlaceWithOverflowCheck. pose proof (dst_wider t l Hl) as Hl'. pose proof (dst_wider t r Hr) as Hr'.
  destruct t; rewrite ?builtin_overflow_spec; try done;
    try (rewrite !static_cast_id by done; apply with_overflow_check_spec; int_range);
    (rewrite Z.gtb_ltb; destruct (Z.ltb_spec l r);
      [unfold exact_opt; by rewrite decide_False by int_range|rewrite !static_cast_id by done; apply with_overflow_check_spec; int_range]).
Qed.

Lemma product_range a b m : - m ≤ a ≤ m → - m ≤ b ≤ m → - (m * m) ≤ a * b ≤ m * m.
Proof. nia. Qed.

Lemma multiply_uint64 l r : 0 ≤ l ≤ r → r < 2 ^ 64 →
  (if l >? maximum UINT32 then None
   else if u64 (l * u32 (Z.shiftr r 32)) >? maximum UINT32 then None
   else if u64 (maximum UINT64 - u64 (l * u32 (Z.land (maximum UINT32) r))) <? u64 (Z.shiftl (u64 (l * u32 (Z.shiftr r 32))) 32) then None
   else tryMultiplyWithOverflowCheck UINT64 UINT64 l r) = exact_opt UINT64 (l * r).
Proof.
  intros Hl Hr. change (maximum UINT32) with (Z.ones 32). change (maximum UINT64) with (2 ^ 64 - 1). rewrite !Z.gtb_ltb.
  rewrite Z.land_comm, Z.land_ones, Z.shiftr_div_pow2 by lia. pose proof (Z.div_mod r (2 ^ 32) ltac:(lia)) as Hdm.
  pose proof (Z.mod_pos_bound r (2 ^ 32) ltac:(lia)) as Hm. unfold u32. rewrite Z.mod_mod by lia.
  assert (0 ≤ r / 2 ^ 32 < 2 ^ 32) as Hd by (split; [apply Z.div_pos; lia|apply Z.div_lt_upper_bound; lia]).
  rewrite (Z.mod_small (r / 2 ^ 32)) by done. set (c := r / 2 ^ 32) in *. set (d := r `mod` 2 ^ 32) in *. change (Z.ones 32) with (2 ^ 32 - 1).
  assert (holds UINT64 (l * r) ↔ l * r < 2 ^ 64) as Hh by (change (0 ≤ l * r ≤ 2 ^ 64 - 1 ↔ l * r < 2 ^ 64); nia).
  assert (2 ^ 64 ≤ l * r → None = exact_opt UINT64 (l * r)) as Hno by (intros Hz; unfold exact_opt; rewrite decide_False; [done|rewrite Hh; lia]).
  destruct (Z.ltb_spec (2 ^ 32 - 1) l); [apply Hno; nia|].
  assert (0 ≤ l * c < 2 ^ 64 ∧ 0 ≤ l * d < 2 ^ 64) as [H1 H2] by nia. rewrite (u64_id (l * c)), (u64_id (l * d)) by done.
  assert (l * r = l * c * 2 ^ 32 + l * d) as Hp by (rewrite Hdm; ring).
  destruct (Z.ltb_spec (2 ^ 32 - 1) (l * c)); [apply Hno; nia|]. rewrite Z.shiftl_mul_pow2 by lia. rewrite !u64_id by lia.
  destruct (Z.ltb_spec (2 ^ 64 - 1 - l * d) (l * c * 2 ^ 32)); [apply Hno; lia|].
  unfold tryMultiplyWithOverflowCheck. rewrite !static_cast_id by (change (0 ≤ l ≤ 2 ^ 64 - 1) || change (0 ≤ r ≤ 2 ^ 64 - 1); lia).
  apply with_overflow_check_spec. apply Hh. lia.
Qed.

Lemma TryMultiply_spec t l r : holds t l → holds t r → (TryMultiply t l r).1 = exact_opt t (l * r).
Proof.
  intros Hl Hr. pose proof (dst_wider t l Hl) as Hl'. pose proof (dst_wider t r Hr) as Hr'.
  destruct t; unfold TryMultiply; cbn [fst]; rewrite ?builtin_overflow_spec; try done.
  7:{ change (0 ≤ l ≤ 2 ^ 64 - 1) in Hl. change (0 ≤ r ≤ 2 ^ 64 - 1) in Hr. rewrite Z.gtb_ltb. destruct (Z.ltb_spec r l); cbn [fst].
    - rewrite multiply_uint64 by lia. by rewrite Z.mul_comm.
    - apply multiply_uint64; lia. }
  all: unfold tryMultiplyWithOverflowCheck; rewrite !static_cast_id by done; apply with_overflow_check_spec.
  - pose proof (product_range l r (2 ^ 7) ltac:(int_range) ltac:(int_range)). int_range.
  - pose proof (product_range l r (2 ^ 15) ltac:(int_range) ltac:(int_range)). int_range.
  - pose proof (product_range l r (2 ^ 31) ltac:(int_range) ltac:(int_range)). int_range.
  - assert (0 ≤ l * r) by (unfold holds in *; cbn in *; nia). pose proof (product_range l r (2 ^ 8 - 1) ltac:(int_range) ltac:(int_range)). int_range.
  - assert (0 ≤ l * r) by (unfold holds in *; cbn in *; nia). pose proof (product_range l r (2 ^ 16 - 1) ltac:(int_range) ltac:(int_range)). int_range.
  - assert (0 ≤ l * r) by (unfold holds in *; cbn in *; nia). pose proof (product_range l r (2 ^ 32 - 1) ltac:(int_range) ltac:(int_range)). int_range.
Qed.

Lemma quot_bound a b : b ≠ 0 → Z.abs (Z.quot a b) * Z.abs b ≤ Z.abs a.
Proof.
  intros Hb. rewrite <-Z.quot_abs by done. rewrite Z.mul_comm. apply Z.mul_quot_le; lia.
Qed.

(** The quotient of two integers of a type fits the type it is computed in, but for one case. *)
Lemma quot_holds t l r : holds t l → holds t r → r ≠ 0 → ¬ (t = INT64 ∧ l = minimum INT64 ∧ r = -1) → holds (dst_type t) (Z.quot l r).
Proof.
  intros Hl Hr Hnz Hex. pose proof (quot_bound l r Hnz) as Hq. assert (Z.abs (Z.quot l r) ≤ Z.abs l) as Hle by nia.
  destruct (isSigned t) eqn:Es.
  - destruct (decide (t = INT64)) as [->|Hne]; [|destruct t; try done; int_range].
    destruct (decide (r = 1)) as [->|]; [by rewrite Z.quot_1_r|]. destruct (decide (r = -1)) as [->|].
    + change (-1) with (- (1)). rewrite Z.quot_opp_r, Z.quot_1_r by lia. assert (l ≠ minimum INT64) by tauto. int_range.
    + assert (2 ≤ Z.abs r) by lia. assert (2 * Z.abs (Z.quot l r) ≤ Z.abs l) by nia. int_range.
  - assert (0 ≤ l ∧ 0 < r) as [H0 H1] by (destruct t; try done; int_range). pose proof (Z.quot_pos l r H0 H1). destruct t; try done; int_range.
Qed.

Lemma TryDivide_spec t l r : holds t l → holds t r → r ≠ 0 → TryDivide t l r = exact_opt t (Z.quot l r).
Proof.
  intros Hl Hr Hnz. pose proof (dst_wider t l Hl) as Hl'. pose proof (dst_wider t r Hr) as Hr'. pose proof (quot_holds t l r Hl Hr Hnz) as Hq.
  destruct (decide (t = INT64)) as [->|Hne].
  - unfold TryDivide, tryDivideWithOverflowCheck. destruct (Z.eqb_spec l (minimum INT64)) as [->|], (Z.eqb_spec r (-1)) as [->|]; cbn [andb]; [done|..];
      rewrite !static_cast_id by done; apply with_overflow_check_spec, Hq; tauto.
  - specialize (Hq ltac:(tauto)). destruct t; try done; unfold TryDivide, tryDivideWithOverflowCheck;
      rewrite !static_cast_id by done; by apply with_overflow_check_spec.
Qed.

Lemma rem_holds t l r : holds t l → holds t r → r ≠ 0 → holds t (Z.rem l r).
Proof.
  intros Hl Hr Hnz. pose proof (Z.rem_bound_abs l r Hnz) as Hb. destruct (isSigned t) eqn:Es.
  - assert (Z.abs (Z.rem l r) ≤ Z.abs l) as Hle.
    { rewrite <-Z.rem_abs by done. apply Z.rem_le; lia. }
    destruct t; try done; int_range.
  - assert (0 ≤ l ∧ 0 < r) as [H0 H1] by (destruct t; try done; int_range). pose proof (Z.rem_bound_pos l r H0 H1). destruct t; try done; int_range.
Qed.

Lemma Modulo_spec t l r : holds t l → holds t r → r ≠ 0 →
  Modulo_operation t l r = if decide (isSigned t = true ∧ l = minimum t ∧ r = -1) then Throw OverflowException else Ret (Z.rem l r).
Proof.
  intros Hl Hr Hnz. unfold Modulo_operation. destruct (Z.eqb_spec r 0); [done|]. pose proof (rem_holds t l r Hl Hr Hnz) as Hrem.
  destruct (isSigned t) eqn:Es; [|rewrite decide_False by naive_solver; by rewrite static_cast_id].
  assert (TryModulo t l r = tryModuloWithOverflowCheck t (dst_type t) l r) as ->.
  { destruct t; try done. unfold TryModulo, tryModuloWithOverflowCheck, dst_type. by destruct ((l =? minimum INT64) && (r =? -1)). }
  unfold tryModuloWithOverflowCheck. pose proof (dst_wider t l Hl). pose proof (dst_wider t r Hr). pose proof (dst_wider t _ Hrem).
  destruct (Z.eqb_spec l (minimum t)), (Z.eqb_spec r (-1)); cbn [andb]; [by rewrite decide_True by done|..];
    rewrite decide_False by naive_solver; rewrite (static_cast_id (dst_type t) l), (static_cast_id (dst_type t) r) by done; rewrite (static_cast_id (dst_type t) (Z.rem l r)), static_cast_id by done; done.
Qed.

Lemma sign_change t z z' : holds t z → isSigned t = true → z ≠ minimum t → z' = - z ∨ z' = Z.abs z → holds t z'.
Proof. intros Hz Hs Hm Hz'. destruct t; try done; int_range. Qed.

(** Checked arithmetic is exact for all eight machine types: sum, difference, product and
    quotient are returned when the type holds them and [OverflowException] is thrown otherwise; a
    zero divisor throws [RuntimeException]; the remainder is that of truncated division, except
    that the least integer modulo -1, which is 0, throws; negation and absolute value throw
    exactly for the least integer. *)
Theorem checked_arithmetic_exact t l r :
  holds t l → holds t r →
  Add_operation t l r = exact t (l + r) ∧ Subtract_operation t l r = exact t (l - r) ∧ Multiply_operation t l r = exact t (l * r) ∧
  Divide_operation t l r = (if decide (r = 0) then Throw RuntimeException else exact t (Z.quot l r)) ∧
  Modulo_operation t l r = (if decide (r = 0) then Throw RuntimeException
    else if decide (isSigned t = true ∧ l = minimum t ∧ r = -1) then Throw OverflowException else Ret (Z.rem l r)) ∧
  (isSigned t = true → Negate_operation t l = exact t (- l) ∧ Abs_operation t l = exact t (Z.abs l)).
Proof.
  intros Hl Hr. unfold Add_operation, Subtract_operation, Multiply_operation, Divide_operation.
  rewrite AddInPlace_spec, SubtractInPlace_spec, TryMultiply_spec, !checked_exact by done. split_and!; try done.
  - case_decide as Hz; destruct (Z.eqb_spec r 0); try done. by rewrite TryDivide_spec, checked_exact.
  - case_decide as Hz; [subst; done|]. by apply Modulo_spec.
  - intros Hs. unfold Negate_operation, NegateInPlaceWithOverflowCheck, Abs_operation, AbsInPlaceWithOverflowCheck, exact.
    destruct (Z.eqb_spec l (minimum t)) as [->|Hm]; cbn [checked].
    + rewrite !decide_False by (destruct t; try done; int_range). done.
    + pose proof (sign_change t l (- l) Hl Hs Hm ltac:(by left)). pose proof (sign_change t l (Z.abs l) Hl Hs Hm ltac:(by right)).
      rewrite !static_cast_id by done. by rewrite !decide_True by done.
Qed.

(** The portable 64-bit addition and subtraction agree with the builtins. *)
Theorem portable_add_sub_agree l r : holds INT64 l → holds INT64 r →
  add_portable l r = AddInPlace INT64 l r ∧ sub_portable l r = SubtractInPlace INT64 l r.
Proof.
  intros Hl Hr. rewrite AddInPlace_spec, SubtractInPlace_spec by done. unfold holds, minimum, maximum in Hl, Hr. cbn [isSigned width] in Hl, Hr.
  change (2 ^ (64 - 1)) with (2 ^ 63) in *. unfold add_portable, sub_portable, exact_opt, holds, minimum, maximum. cbn [isSigned width].
  change (2 ^ (64 - 1)) with (2 ^ 63). split.
  - assert (i64 (u64 (u64 l + u64 r)) = i64 (l + r)) as ->.
    { unfold i64, u64. f_equal. rewrite <-Zplus_mod. rewrite Zplus_mod_idemp_l. done. }
    assert (i64 (l + r) = l + r ∨ l + r < - 2 ^ 63 ∧ i64 (l + r) = l + r + 2 ^ 64 ∨ 2 ^ 63 ≤ l + r ∧ i64 (l + r) = l + r - 2 ^ 64) as Hi.
    { destruct (decide (l + r < - 2 ^ 63)); [right; left|destruct (decide (2 ^ 63 ≤ l + r)); [right; right|left; apply i64_id; lia]].
      - split; [done|]. unfold i64. rewrite <-(Z.mod_unique_pos _ (2 ^ 64) (-1) (l + r + 2 ^ 63 + 2 ^ 64)) by lia. lia.
      - split; [done|]. unfold i64. rewrite <-(Z.mod_unique_pos _ (2 ^ 64) 1 (l + r + 2 ^ 63 - 2 ^ 64)) by lia. lia. }
    pose proof (i64_range (l + r)). rewrite !Z.geb_leb. destruct (Z.ltb_spec l 0), (Z.ltb_spec r 0), (Z.leb_spec 0 l), (Z.leb_spec 0 r), (Z.leb_spec 0 (i64 (l + r))), (Z.ltb_spec (i64 (l + r)) 0);
      cbn [andb orb]; case_decide; try lia; try done; f_equal; lia.
  - rewrite Z.gtb_ltb. destruct (Z.ltb_spec r 0).
    + rewrite (i64_id (2 ^ 63 - 1 + r)) by lia. destruct (Z.ltb_spec (2 ^ 63 - 1 + r) l); case_decide; try lia; [done|]. by rewrite i64_id by lia.
    + rewrite (i64_id (- 2 ^ 63 + r)) by lia. destruct (Z.ltb_spec l (- 2 ^ 63 + r)); case_decide; try lia; [done|]. by rewrite i64_id by lia.
Qed.

(** The portable 64-bit multiplication tests only the bits 31 to 55 of the upper part of the
    product: it returns 0 for the product of 2^31 and 2^57, which the builtin reports as an
    overflow. *)
Theorem portable_multiply_misses_overflow :
  mul_portable (2 ^ 31) (2 ^ 57) = Some 0 ∧ (TryMultiply INT64 (2 ^ 31) (2 ^ 57)).1 = None.
Proof. by_eval. Qed.

(** The multiplication of unsigned 64-bit integers exchanges its operands, which it takes by
    reference, when the first is the larger: the vectors it reads hold the values of each other
    afterwards. *)
Theorem multiply_uint64_swaps l r :
  (TryMultiply UINT64 l r).2 = (Z.min l r, Z.max l r).
Proof.
  unfold TryMultiply. rewrite Z.gtb_ltb. destruct (Z.ltb_spec r l); cbn [snd]; f_equal; lia.
Qed.
