(* ===== verification/Date.v ===== *)
(** Calendar dates as days since 1970-01-01 ([src/src/common/types/date_t.cpp] and
    [src/src/include/common/types/date_t.h]), with the printing helpers of
    [src/src/include/common/types/cast_helpers.h] and the interval record of
    [src/src/include/common/types/interval_t.h]. *)

From Stdlib Require Import Ascii.
From S2P Require Import Prelude.

#[local] Open Scope Z_scope.

(** ** Intervals *)

Record interval_t := mkInterval { months : Z; days : Z; micros : Z }.

#[export] Instance interval_eq_dec : EqDecision interval_t.
Proof. solve_decision. Defined.

Inductive DatePartSpecifier :=
  | YEAR | MONTH | DAY | DECADE | CENTURY | MILLENNIUM | QUARTER
  | MICROSECOND | MILLISECOND | SECOND | MINUTE | HOUR | WEEK.

Definition MONTHS_PER_MILLENIUM : Z := 12000.
Definition MONTHS_PER_CENTURY : Z := 1200.
Definition MONTHS_PER_DECADE : Z := 120.
Definition MONTHS_PER_YEAR : Z := 12.
Definition MONTHS_PER_QUARTER : Z := 3.
Definition DAYS_PER_WEEK : Z := 7.
Definition DAYS_PER_MONTH : Z := 30.
Definition MICROS_PER_MSEC : Z := 1000.
Definition MICROS_PER_SEC : Z := MICROS_PER_MSEC * 1000.
Definition MICROS_PER_MINUTE : Z := MICROS_PER_SEC * 60.
Definition MICROS_PER_HOUR : Z := MICROS_PER_MINUTE * 60.
Definition MICROS_PER_DAY : Z := MICROS_PER_HOUR * 24.
Definition MICROS_PER_MONTH : Z := MICROS_PER_DAY * DAYS_PER_MONTH.
Definition NANOS_PER_MICRO : Z := 1000.

(** ** Tables *)

(** An element of a constant array. *)
Definition table_at (l : list Z) (i : Z) : Res Z :=
  if i <? 0 then Throw AssertionFailure
  else match l !! Z.to_nat i with Some x => Ret x | None => Throw AssertionFailure end.

Definition ku_assert (b : bool) : Res unit := if b then Ret tt else Throw AssertionFailure.

Definition NORMAL_DAYS : list Z :=
  [0; 31; 28; 31; 30; 31; 30; 31; 31; 30; 31; 30; 31].

Definition LEAP_DAYS : list Z :=
  [0; 31; 29; 31; 30; 31; 30; 31; 31; 30; 31; 30; 31].

Definition CUMULATIVE_LEAP_DAYS : list Z :=
  [0; 31; 60; 91; 121; 152; 182; 213; 244; 274; 305; 335; 366].

Definition CUMULATIVE_DAYS : list Z :=
  [0; 31; 59; 90; 120; 151; 181; 212; 243; 273; 304; 334; 365].

Definition MONTH_PER_DAY_OF_YEAR : list Z :=
  [1; 1; 1; 1; 1; 1; 1; 1; 1; 1; 1; 1; 1; 1; 1; 1; 1; 1; 1; 1; 1; 1; 1; 1; 1; 1; 1; 1; 1; 1; 1; 2; 2; 2; 2; 2;
   2; 2; 2; 2; 2; 2; 2; 2; 2; 2; 2; 2; 2; 2; 2; 2; 2; 2; 2; 2; 2; 2; 2; 3; 3; 3; 3; 3; 3; 3; 3; 3; 3; 3; 3; 3;
   3; 3; 3; 3; 3; 3; 3; 3; 3; 3; 3; 3; 3; 3; 3; 3; 3; 3; 4; 4; 4; 4; 4; 4; 4; 4; 4; 4; 4; 4; 4; 4; 4; 4; 4; 4;
   4; 4; 4; 4; 4; 4; 4; 4; 4; 4; 4; 4; 5; 5; 5; 5; 5; 5; 5; 5; 5; 5; 5; 5; 5; 5; 5; 5; 5; 5; 5; 5; 5; 5; 5; 5;
   5; 5; 5; 5; 5; 5; 5; 6; 6; 6; 6; 6; 6; 6; 6; 6; 6; 6; 6; 6; 6; 6; 6; 6; 6; 6; 6; 6; 6; 6; 6; 6; 6; 6; 6; 6;
   6; 7; 7; 7; 7; 7; 7; 7; 7; 7; 7; 7; 7; 7; 7; 7; 7; 7; 7; 7; 7; 7; 7; 7; 7; 7; 7; 7; 7; 7; 7; 7; 8; 8; 8; 8;
   8; 8; 8; 8; 8; 8; 8; 8; 8; 8; 8; 8; 8; 8; 8; 8; 8; 8; 8; 8; 8; 8; 8; 8; 8; 8; 8; 9; 9; 9; 9; 9; 9; 9; 9; 9;
   9; 9; 9; 9; 9; 9; 9; 9; 9; 9; 9; 9; 9; 9; 9; 9; 9; 9; 9; 9; 9; 10; 10; 10; 10; 10; 10; 10; 10; 10; 10; 10;
   10; 10; 10; 10; 10; 10; 10; 10; 10; 10; 10; 10; 10; 10; 10; 10; 10; 10; 10; 10; 11; 11; 11; 11; 11; 11; 11;
   11; 11; 11; 11; 11; 11; 11; 11; 11; 11; 11; 11; 11; 11; 11; 11; 11; 11; 11; 11; 11; 11; 11; 12; 12; 12; 12;
   12; 12; 12; 12; 12; 12; 12; 12; 12; 12; 12; 12; 12; 12; 12; 12; 12; 12; 12; 12; 12; 12; 12; 12; 12; 12; 12].

Definition LEAP_MONTH_PER_DAY_OF_YEAR : list Z :=
  [1; 1; 1; 1; 1; 1; 1; 1; 1; 1; 1; 1; 1; 1; 1; 1; 1; 1; 1; 1; 1; 1; 1; 1; 1; 1; 1; 1; 1; 1; 1; 2; 2; 2; 2; 2;
   2; 2; 2; 2; 2; 2; 2; 2; 2; 2; 2; 2; 2; 2; 2; 2; 2; 2; 2; 2; 2; 2; 2; 2; 3; 3; 3; 3; 3; 3; 3; 3; 3; 3; 3; 3;
   3; 3; 3; 3; 3; 3; 3; 3; 3; 3; 3; 3; 3; 3; 3; 3; 3; 3; 3; 4; 4; 4; 4; 4; 4; 4; 4; 4; 4; 4; 4; 4; 4; 4; 4; 4;
   4; 4; 4; 4; 4; 4; 4; 4; 4; 4; 4; 4; 4; 5; 5; 5; 5; 5; 5; 5; 5; 5; 5; 5; 5; 5; 5; 5; 5; 5; 5; 5; 5; 5; 5; 5;
   5; 5; 5; 5; 5; 5; 5; 5; 6; 6; 6; 6; 6; 6; 6; 6; 6; 6; 6; 6; 6; 6; 6; 6; 6; 6; 6; 6; 6; 6; 6; 6; 6; 6; 6; 6;
   6; 6; 7; 7; 7; 7; 7; 7; 7; 7; 7; 7; 7; 7; 7; 7; 7; 7; 7; 7; 7; 7; 7; 7; 7; 7; 7; 7; 7; 7; 7; 7; 7; 8; 8; 8;
   8; 8; 8; 8; 8; 8; 8; 8; 8; 8; 8; 8; 8; 8; 8; 8; 8; 8; 8; 8; 8; 8; 8; 8; 8; 8; 8; 8; 9; 9; 9; 9; 9; 9; 9; 9;
   9; 9; 9; 9; 9; 9; 9; 9; 9; 9; 9; 9; 9; 9; 9; 9; 9; 9; 9; 9; 9; 9; 10; 10; 10; 10; 10; 10; 10; 10; 10; 10;
   10; 10; 10; 10; 10; 10; 10; 10; 10; 10; 10; 10; 10; 10; 10; 10; 10; 10; 10; 10; 10; 11; 11; 11; 11; 11; 11;
   11; 11; 11; 11; 11; 11; 11; 11; 11; 11; 11; 11; 11; 11; 11; 11; 11; 11; 11; 11; 11; 11; 11; 11; 12; 12; 12;
   12; 12; 12; 12; 12; 12; 12; 12; 12; 12; 12; 12; 12; 12; 12; 12; 12; 12; 12; 12; 12; 12; 12; 12; 12; 12; 12;
   12].

Definition CUMULATIVE_YEAR_DAYS : list Z :=
  [0; 365; 730; 1096; 1461; 1826; 2191; 2557; 2922; 3287; 3652; 4018; 4383; 4748; 5113; 5479; 5844; 6209; 6574;
   6940; 7305; 7670; 8035; 8401; 8766; 9131; 9496; 9862; 10227; 10592; 10957; 11323; 11688; 12053; 12418;
   12784; 13149; 13514; 13879; 14245; 14610; 14975; 15340; 15706; 16071; 16436; 16801; 17167; 17532; 17897;
   18262; 18628; 18993; 19358; 19723; 20089; 20454; 20819; 21184; 21550; 21915; 22280; 22645; 23011; 23376;
   23741; 24106; 24472; 24837; 25202; 25567; 25933; 26298; 26663; 27028; 27394; 27759; 28124; 28489; 28855;
   29220; 29585; 29950; 30316; 30681; 31046; 31411; 31777; 32142; 32507; 32872; 33238; 33603; 33968; 34333;
   34699; 35064; 35429; 35794; 36160; 36525; 36890; 37255; 37621; 37986; 38351; 38716; 39082; 39447; 39812;
   40177; 40543; 40908; 41273; 41638; 42004; 42369; 42734; 43099; 43465; 43830; 44195; 44560; 44926; 45291;
   45656; 46021; 46387; 46752; 47117; 47482; 47847; 48212; 48577; 48942; 49308; 49673; 50038; 50403; 50769;
   51134; 51499; 51864; 52230; 52595; 52960; 53325; 53691; 54056; 54421; 54786; 55152; 55517; 55882; 56247;
   56613; 56978; 57343; 57708; 58074; 58439; 58804; 59169; 59535; 59900; 60265; 60630; 60996; 61361; 61726;
   62091; 62457; 62822; 63187; 63552; 63918; 64283; 64648; 65013; 65379; 65744; 66109; 66474; 66840; 67205;
   67570; 67935; 68301; 68666; 69031; 69396; 69762; 70127; 70492; 70857; 71223; 71588; 71953; 72318; 72684;
   73049; 73414; 73779; 74145; 74510; 74875; 75240; 75606; 75971; 76336; 76701; 77067; 77432; 77797; 78162;
   78528; 78893; 79258; 79623; 79989; 80354; 80719; 81084; 81450; 81815; 82180; 82545; 82911; 83276; 83641;
   84006; 84371; 84736; 85101; 85466; 85832; 86197; 86562; 86927; 87293; 87658; 88023; 88388; 88754; 89119;
   89484; 89849; 90215; 90580; 90945; 91310; 91676; 92041; 92406; 92771; 93137; 93502; 93867; 94232; 94598;
   94963; 95328; 95693; 96059; 96424; 96789; 97154; 97520; 97885; 98250; 98615; 98981; 99346; 99711; 100076;
   100442; 100807; 101172; 101537; 101903; 102268; 102633; 102998; 103364; 103729; 104094; 104459; 104825;
   105190; 105555; 105920; 106286; 106651; 107016; 107381; 107747; 108112; 108477; 108842; 109208; 109573;
   109938; 110303; 110669; 111034; 111399; 111764; 112130; 112495; 112860; 113225; 113591; 113956; 114321;
   114686; 115052; 115417; 115782; 116147; 116513; 116878; 117243; 117608; 117974; 118339; 118704; 119069;
   119435; 119800; 120165; 120530; 120895; 121260; 121625; 121990; 122356; 122721; 123086; 123451; 123817;
   124182; 124547; 124912; 125278; 125643; 126008; 126373; 126739; 127104; 127469; 127834; 128200; 128565;
   128930; 129295; 129661; 130026; 130391; 130756; 131122; 131487; 131852; 132217; 132583; 132948; 133313;
   133678; 134044; 134409; 134774; 135139; 135505; 135870; 136235; 136600; 136966; 137331; 137696; 138061;
   138427; 138792; 139157; 139522; 139888; 140253; 140618; 140983; 141349; 141714; 142079; 142444; 142810;
   143175; 143540; 143905; 144271; 144636; 145001; 145366; 145732; 146097].

Definition MIN_YEAR : Z := -290307.
Definition MAX_YEAR : Z := 294247.
Definition EPOCH_YEAR : Z := 1970.
Definition YEAR_INTERVAL : Z := 400.
Definition DAYS_PER_YEAR_INTERVAL : Z := 146097.

(** ** Calendar arithmetic *)

(** A date is its number of days since 1970-01-01, a signed 32-bit number. *)
Definition date_t := Z.

Definition isLeapYear (year : Z) : bool :=
  (Z.rem year 4 =? 0) && (negb (Z.rem year 100 =? 0) || (Z.rem year 400 =? 0)).

Definition isValid (year month day : Z) : Res bool :=
  if (month <? 1) || (month >? 12) then Ret false
  else if (year <? MIN_YEAR) || (year >? MAX_YEAR) then Ret false
  else if day <? 1 then Ret false
  else n ← table_at (if isLeapYear year then LEAP_DAYS else NORMAL_DAYS) month; Ret (day <=? n).

Definition monthDays (year month : Z) : Res Z :=
  _ ← ku_assert ((1 <=? month) && (month <=? 12));
  table_at (if isLeapYear year then LEAP_DAYS else NORMAL_DAYS) month.

(** The two [while] loops that move a value by whole 400-year periods; [periods] bounds the
    number of rounds. *)
Fixpoint raise (fuel : nat) (bound n step other otherStep : Z) : Res (Z * Z) :=
  if n <? bound then
    match fuel with
    | O => Throw AssertionFailure
    | S fuel => raise fuel bound (n + step) step (other - otherStep) otherStep
    end
  else Ret (n, other).

Fixpoint lower (fuel : nat) (bound n step other otherStep : Z) : Res (Z * Z) :=
  if n >=? bound then
    match fuel with
    | O => Throw AssertionFailure
    | S fuel => lower fuel bound (n - step) step (other + otherStep) otherStep
    end
  else Ret (n, other).

Definition periods (bound n step : Z) : nat := Z.to_nat (Z.abs (n - bound) / step + 1).

(** The loop that corrects the interpolated year. *)
Fixpoint search_year (fuel : nat) (n year_offset : Z) : Res Z :=
  c ← table_at CUMULATIVE_YEAR_DAYS year_offset;
  if n <? c then
    match fuel with
    | O => Throw AssertionFailure
    | S fuel => _ ← ku_assert (year_offset - 1 >=? 0); search_year fuel n (year_offset - 1)
    end
  else Ret year_offset.

(** Returns [n] shifted into one period, the year and the offset of the year in the period. *)
Definition extractYearOffset (n : Z) : Res (Z * Z * Z) :=
  '(n, year) ← raise (periods 0 n DAYS_PER_YEAR_INTERVAL) 0 n DAYS_PER_YEAR_INTERVAL EPOCH_YEAR YEAR_INTERVAL;
  '(n, year) ← lower (periods DAYS_PER_YEAR_INTERVAL n DAYS_PER_YEAR_INTERVAL) DAYS_PER_YEAR_INTERVAL n DAYS_PER_YEAR_INTERVAL year YEAR_INTERVAL;
  let year_offset := Z.quot n 365 in
  year_offset ← search_year (Z.to_nat year_offset) n year_offset;
  c ← table_at CUMULATIVE_YEAR_DAYS year_offset;
  _ ← ku_assert (n >=? c);
  Ret (n, year + year_offset, year_offset).

(** [Date::convert]: the year, the month and the day. *)
Definition convert (date : date_t) : Res (Z * Z * Z) :=
  '(n, out_year, year_offset) ← extractYearOffset date;
  c ← table_at CUMULATIVE_YEAR_DAYS year_offset;
  let out_day := n - c in
  _ ← ku_assert ((out_day >=? 0) && (out_day <=? 365));
  c' ← table_at CUMULATIVE_YEAR_DAYS (year_offset + 1);
  let is_leap_year := c' - c =? 366 in
  out_month ← table_at (if is_leap_year then LEAP_MONTH_PER_DAY_OF_YEAR else MONTH_PER_DAY_OF_YEAR) out_day;
  before ← table_at (if is_leap_year then CUMULATIVE_LEAP_DAYS else CUMULATIVE_DAYS) (out_month - 1);
  let out_day := out_day - before + 1 in
  inMonth ← table_at (if is_leap_year then LEAP_DAYS else NORMAL_DAYS) out_month;
  _ ← ku_assert ((out_day >? 0) && (out_day <=? inMonth));
  _ ← ku_assert ((out_month >? 0) && (out_month <=? 12));
  valid ← isValid out_year out_month out_day;
  _ ← ku_assert valid;
  Ret (out_year, out_month, out_day).

Definition fromDate (year month day : Z) : Res date_t :=
  valid ← isValid year month day;
  if negb valid then Throw ConversionException
  else
    '(year, n) ← raise (periods 1970 year YEAR_INTERVAL) 1970 year YEAR_INTERVAL 0 DAYS_PER_YEAR_INTERVAL;
    '(year, n) ← lower (periods 2370 year YEAR_INTERVAL) 2370 year YEAR_INTERVAL n DAYS_PER_YEAR_INTERVAL;
    c ← table_at CUMULATIVE_YEAR_DAYS (year - 1970);
    m ← table_at (if isLeapYear year then CUMULATIVE_LEAP_DAYS else CUMULATIVE_DAYS) (month - 1);
    Ret (n + c + m + (day - 1)).

(** ** Operators and functions on dates *)

(** The part of [date_t::operator+(interval_t)] that adds the months. *)
Definition plus_months (year month day k : Z) : Res date_t :=
  let year_diff := Z.quot k MONTHS_PER_YEAR in
  let year := i32 (year + year_diff) in
  let month := month + (k - year_diff * MONTHS_PER_YEAR) in
  let '(year, month) :=
    if month >? MONTHS_PER_YEAR then (year + 1, month - MONTHS_PER_YEAR)
    else if month <=? 0 then (year - 1, month + MONTHS_PER_YEAR) else (year, month) in
  maxDayInMonth ← monthDays year month;
  fromDate year month (if day >? maxDayInMonth then maxDayInMonth else day).

(** [date_t::operator+(interval_t)]. *)
Definition date_plus_interval (date : date_t) (interval : interval_t) : Res date_t :=
  result ← (if negb (months interval =? 0)
    then '(year, month, day) ← convert date; plus_months year month day (months interval)
    else Ret date);
  let result := if negb (days interval =? 0) then i32 (result + days interval) else result in
  Ret (if negb (micros interval =? 0) then i32 (result + i32 (Z.quot (micros interval) MICROS_PER_DAY)) else result).

Definition inverse (interval : interval_t) : interval_t :=
  mkInterval (i32 (- months interval)) (i32 (- days interval)) (i64 (- micros interval)).

Definition date_minus_interval (date : date_t) (interval : interval_t) : Res date_t :=
  date_plus_interval date (inverse interval).

Definition date_minus_date (a b : date_t) : Z := i32 (a - b).
Definition date_plus_days (date : date_t) (day : Z) : date_t := i32 (date + day).
Definition date_minus_days (date : date_t) (day : Z) : date_t := i32 (date - day).

Definition dayNames : list string :=
  ["Sunday"; "Monday"; "Tuesday"; "Wednesday"; "Thursday"; "Friday"; "Saturday"]%string.

Definition dayIndex (date : date_t) : Z :=
  Z.rem (if date <? 0 then 7 - Z.rem (- date + 3) 7 else Z.rem (date + 3) 7 + 1) 7.

Definition name_at (names : list string) (i : Z) : Res string :=
  if i <? 0 then Throw AssertionFailure
  else match names !! Z.to_nat i with Some x => Ret x | None => Throw AssertionFailure end.

Definition getDayName (date : date_t) : Res string := name_at dayNames (dayIndex date).

Definition monthNames : list string :=
  ["January"; "February"; "March"; "April"; "May"; "June"; "July"; "August"; "September"; "October";
   "November"; "December"]%string.

Definition getMonthName (date : date_t) : Res string :=
  '(_, month, _) ← convert date; name_at monthNames (month - 1).

Definition getLastDay (date : date_t) : Res date_t :=
  '(year, month, _) ← convert date;
  d ← fromDate (year + Z.quot month 12) (Z.rem month 12 + 1) 1;
  Ret (date_minus_days d 1).

Definition getDatePart (specifier : DatePartSpecifier) (date : date_t) : Res Z :=
  '(year, month, day) ← convert date;
  match specifier with
  | YEAR => '(_, year, _) ← extractYearOffset date; Ret year
  | MONTH => Ret month
  | DAY => Ret day
  | DECADE => Ret (Z.quot year 10)
  | CENTURY => Ret (if year >? 0 then Z.quot (year - 1) 100 + 1 else Z.quot year 100 - 1)
  | MILLENNIUM => Ret (if year >? 0 then Z.quot (year - 1) 1000 + 1 else Z.quot year 1000 - 1)
  | QUARTER => Ret (Z.quot (month - 1) MONTHS_PER_QUARTER + 1)
  | _ => Ret 0
  end.

Definition trunc (specifier : DatePartSpecifier) (date : date_t) : Res date_t :=
  match specifier with
  | YEAR => year ← getDatePart YEAR date; fromDate year 1 1
  | MONTH => year ← getDatePart YEAR date; month ← getDatePart MONTH date; fromDate year month 1
  | DAY => Ret date
  | DECADE => year ← getDatePart YEAR date; fromDate (Z.quot year 10 * 10) 1 1
  | CENTURY => year ← getDatePart YEAR date; fromDate (Z.quot year 100 * 100) 1 1
  | MILLENNIUM => year ← getDatePart YEAR date; fromDate (Z.quot year 1000 * 1000) 1 1
  | QUARTER => '(year, month, _) ← convert date; fromDate year (1 + Z.quot (month - 1) 3 * 3) 1
  | _ => Ret date
  end.

(** [getEpochNanoSeconds]. *)
Definition date_epoch_nanos (date : date_t) : Z := i64 (date * (MICROS_PER_DAY * NANOS_PER_MICRO)).

(** ** Printing *)

(** A [char] buffer is a list of characters; a value written backwards from its end is the list
    written so far. *)
Definition char_of (z : Z) : ascii := ascii_of_nat (Z.to_nat z).

(** The table of two-digit groups, entry [2 i] and [2 i + 1] being the digits of [i]. *)
Definition digits_table : list ascii := String.list_ascii_of_string
  "00010203040506070809101112131415161718192021222324252627282930313233343536373839404142434445464748495051525354555657585960616263646566676869707172737475767778798081828384858687888990919293949596979899".

Definition digit_at (i : Z) : ascii := default zero (digits_table !! Z.to_nat i).

(** [FormatUnsigned]; 32 rounds are enough for a 64-bit value. *)
Fixpoint format_loop (fuel : nat) (value : Z) (ptr : list ascii) : Z * list ascii :=
  match fuel with
  | O => (value, ptr)
  | S fuel =>
      if value >=? 100 then
        let index := Z.rem value 100 * 2 in
        format_loop fuel (Z.quot value 100) (digit_at index :: digit_at (index + 1) :: ptr)
      else (value, ptr)
  end.

Definition FormatUnsigned (value : Z) (ptr : list ascii) : list ascii :=
  let '(value, ptr) := format_loop 32 value ptr in
  if value <? 10 then char_of (48 + value) :: ptr
  else digit_at (value * 2) :: digit_at (value * 2 + 1) :: ptr.

(** [while (endptr > data) *--endptr = '0'], for a buffer of [len] characters. *)
Definition pad_zeros (len : nat) (written : list ascii) : Res (list ascii) :=
  if decide (length written ≤ len)%nat then Ret (replicate (len - length written) "0"%char ++ written)
  else Throw AssertionFailure.

Definition two_digits (value : Z) : list ascii :=
  if value <? 10 then ["0"%char; char_of (48 + value)] else [digit_at (value * 2); digit_at (value * 2 + 1)].

Definition BC_SUFFIX : list ascii := String.list_ascii_of_string " (BC)".

(** [DateToStringCast::Length]: the length of the string, of the year, the year to print and
    whether the suffix is added. *)
Definition date_Length (year : Z) : nat * nat * Z * bool :=
  let '(len, year, addBC) := if year <=? 0 then ((6 + length BC_SUFFIX)%nat, - year + 1, true) else (6%nat, year, false) in
  let more bound := Nat.b2n (bound <=? year) in
  let yearLength := Nat.add 4 (Nat.add (more 10000) (Nat.add (more 100000) (Nat.add (more 1000000) (more 10000000)))) in
  ((len + yearLength)%nat, yearLength, year, addBC).

Definition date_Format (year month day : Z) (yearLen : nat) (addBC : bool) : Res (list ascii) :=
  data ← pad_zeros yearLen (FormatUnsigned year []);
  Ret (data ++ "-"%char :: two_digits month ++ "-"%char :: two_digits day ++ if addBC then BC_SUFFIX else []).

Definition date_toString (date : date_t) : Res (list ascii) :=
  '(year, month, day) ← convert date;
  let '(len, yearLength, year, addBC) := date_Length year in
  buffer ← date_Format year month day yearLength addBC;
  Ret (take len buffer).

(** ** Parsing *)

Definition isSpace (c : ascii) : bool :=
  let n := nat_of_ascii c in ((n =? 32) || ((9 <=? n) && (n <=? 13)))%nat.

Definition CharacterIsDigit (c : ascii) : bool := let n := nat_of_ascii c in ((48 <=? n) && (n <=? 57))%nat.

Definition digit_val (c : ascii) : Z := Z.of_nat (nat_of_ascii c) - 48.

(** [while (pos < len && isSpace(buf[pos])) pos++]. *)
Fixpoint skip_spaces (fuel : nat) (buf : list ascii) (pos : nat) : nat :=
  match fuel, buf !! pos with
  | S fuel, Some c => if isSpace c then skip_spaces fuel buf (S pos) else pos
  | _, _ => pos
  end.

(** [parseDoubleDigit]: the value and the position after it. *)
Definition parseDoubleDigit (buf : list ascii) (pos : nat) : option (Z * nat) :=
  match buf !! pos with
  | Some c =>
      if CharacterIsDigit c then
        match buf !! S pos with
        | Some c' => if CharacterIsDigit c' then Some (digit_val c' + digit_val c * 10, S (S pos)) else Some (digit_val c, S pos)
        | None => Some (digit_val c, S pos)
        end
      else None
  | None => None
  end.

(** The loop over the digits of the year. *)
Fixpoint parse_year (fuel : nat) (buf : list ascii) (pos : nat) (year : Z) : Z * nat :=
  match fuel, buf !! pos with
  | S fuel, Some c =>
      if CharacterIsDigit c then
        let year := digit_val c + year * 10 in
        if year >? MAX_YEAR then (year, pos) else parse_year fuel buf (S pos) year
      else (year, pos)
  | _, _ => (year, pos)
  end.

Definition is_separator (c : ascii) : bool :=
  bool_decide (c = " "%char ∨ c = "-"%char ∨ c = "/"%char ∨ c = "\"%char).

(** [tryConvertDate]: the date and the position after it, or [None] for [false]. *)
Definition tryConvertDate (buf : list ascii) (pos : nat) (allowTrailing : bool) : option (date_t * nat) :=
  if decide (length buf = 0)%nat then None
  else
    let pos := skip_spaces (length buf) buf pos in
    c ← buf !! pos;
    if negb (CharacterIsDigit c) then None
    else
      let '(year, pos) := parse_year (length buf) buf pos 0 in
      sep ← buf !! pos;
      let pos := S pos in
      if negb (is_separator sep) then None
      else
        '(month, pos) ← parseDoubleDigit buf pos;
        if decide (length buf ≤ pos + 1)%nat then None
        else
          c ← buf !! pos;
          let pos := S pos in
          if decide (c ≠ sep) then None
          else
            '(day, pos) ← parseDoubleDigit buf pos;
            let pos := skip_spaces (length buf) buf pos in
            if (pos <? length buf)%nat && negb allowTrailing then None
            else match fromDate year month day with Ret d => Some (d, pos) | Throw _ => None end.

Definition date_fromCString (str : list ascii) : Res date_t :=
  match tryConvertDate str 0 false with Some (d, _) => Ret d | None => Throw ConversionException end.

(** ** The Gregorian calendar *)

Definition leap (y : Z) : bool := (y `mod` 4 =? 0) && (negb (y `mod` 100 =? 0) || (y `mod` 400 =? 0)).

Definition month_length (b : bool) (m : Z) : Z :=
  if m =? 2 then (if b then 29 else 28)
  else if (m =? 4) || (m =? 6) || (m =? 9) || (m =? 11) then 30 else 31.

(** The days of the months before [m]. *)
Definition month_start (b : bool) (m : Z) : Z := foldr Z.add 0 (month_length b <$> seqZ 1 (m - 1)).

(** The number of leap years from year 1 to year [y - 1]. *)
Definition leaps (y : Z) : Z := (y - 1) / 4 - (y - 1) / 100 + (y - 1) / 400.

Definition year_start (y : Z) : Z := 365 * (y - 1970) + (leaps y - leaps 1970).

(** Days from 1970-01-01 to the given day. *)
Definition day_number (y m d : Z) : Z := year_start y + month_start (leap y) m + (d - 1).

Definition valid_date (y m d : Z) : Prop := 1 ≤ m ≤ 12 ∧ 1 ≤ d ≤ month_length (leap y) m.

#[export] Instance valid_date_dec y m d : Decision (valid_date y m d).
Proof. unfold valid_date. apply _. Defined.

Lemma rem_mod_zero y k : 0 < k → (Z.rem y k =? 0) = (y `mod` k =? 0).
Proof.
  intros Hk. apply eq_bool_prop_intro. rewrite !Is_true_true, !Z.eqb_eq, Z.rem_divide, Z.mod_divide by lia. done.
Qed.

Lemma isLeapYear_leap y : isLeapYear y = leap y.
Proof. unfold isLeapYear, leap. by rewrite !rem_mod_zero by lia. Qed.

Lemma div_step y k : 0 < k → y / k = (y - 1) / k + Z.b2z (y `mod` k =? 0).
Proof.
  intros Hk. pose proof (Z.div_mod y k ltac:(lia)) as Hy. pose proof (Z.mod_pos_bound y k Hk) as Hm.
  destruct (Z.eqb_spec (y `mod` k) 0) as [E|E]; simpl (Z.b2z _).
  - assert ((y - 1) / k = y / k - 1) as ->; [|lia]. symmetry. apply Z.div_unique_pos with (k - 1); lia.
  - assert ((y - 1) / k = y / k) as ->; [|lia]. symmetry. apply Z.div_unique_pos with (y `mod` k - 1); lia.
Qed.

Lemma leaps_step y : leaps (y + 1) = leaps y + Z.b2z (leap y).
Proof.
  unfold leaps. replace (y + 1 - 1) with y by lia. rewrite (div_step y 4), (div_step y 100), (div_step y 400) by lia. unfold leap.
  assert (y `mod` 100 = 0 → y `mod` 4 = 0) by (rewrite !Z.mod_divide by lia; intros [q ->]; exists (25 * q); lia).
  assert (y `mod` 400 = 0 → y `mod` 100 = 0) by (rewrite !Z.mod_divide by lia; intros [q ->]; exists (4 * q); lia).
  destruct (Z.eqb_spec (y `mod` 4) 0), (Z.eqb_spec (y `mod` 100) 0), (Z.eqb_spec (y `mod` 400) 0); cbn [andb orb negb Z.b2z]; try lia; tauto.
Qed.

Lemma year_start_step y : year_start (y + 1) = year_start y + if leap y then 366 else 365.
Proof. unfold year_start. rewrite leaps_step. destruct (leap y); simpl (Z.b2z _); lia. Qed.

Lemma leaps_period y q : leaps (y + 400 * q) = leaps y + 97 * q.
Proof.
  unfold leaps. replace (y + 400 * q - 1) with ((y - 1) + (100 * q) * 4) at 1 by lia. rewrite Z.div_add by lia.
  replace (y + 400 * q - 1) with ((y - 1) + (4 * q) * 100) at 1 by lia. rewrite Z.div_add by lia.
  replace (y + 400 * q - 1) with ((y - 1) + q * 400) at 1 by lia. rewrite Z.div_add by lia. lia.
Qed.

Lemma year_start_period y q : year_start (y + 400 * q) = year_start y + 146097 * q.
Proof. unfold year_start. rewrite leaps_period. lia. Qed.

Lemma leap_period y q : leap (y + 400 * q) = leap y.
Proof.
  unfold leap. replace (y + 400 * q) with (y + (100 * q) * 4) at 1 by lia. rewrite Z.mod_add by lia.
  replace (y + 400 * q) with (y + (4 * q) * 100) at 1 by lia. rewrite Z.mod_add by lia.
  replace (y + 400 * q) with (y + q * 400) at 1 by lia. rewrite Z.mod_add by lia. done.
Qed.

Lemma year_start_lt y y' : y < y' → year_start y + 365 ≤ year_start y'.
Proof.
  intros H. replace y' with (y + Z.of_nat (S (Z.to_nat (y' - y - 1)))) by lia. generalize (Z.to_nat (y' - y - 1)). clear H.
  induction n as [|n IH].
  - change (Z.of_nat 1) with 1. rewrite year_start_step. destruct (leap y); lia.
  - rewrite Nat2Z.inj_succ, <-Z.add_1_r, Z.add_assoc, year_start_step. destruct (leap _); lia.
Qed.

(** ** The tables *)

Lemma table_range (P : Z → Prop) (k lo len : Z) : Forall P (seqZ lo len) → lo ≤ k < lo + len → P k.
Proof. intros H Hk. rewrite Forall_forall in H. apply H. apply elem_of_seqZ. lia. Qed.

Lemma year_table k : 0 ≤ k ≤ 400 → table_at CUMULATIVE_YEAR_DAYS k = Ret (year_start (1970 + k)).
Proof. intros Hk. apply (table_range (λ k : Z, table_at CUMULATIVE_YEAR_DAYS k = Ret (year_start (1970 + k))) k 0 401); [by_eval|lia]. Qed.

Lemma month_table (b : bool) m : 1 ≤ m ≤ 12 → table_at (if b then LEAP_DAYS else NORMAL_DAYS) m = Ret (month_length b m).
Proof.
  intros Hm. apply (table_range (λ m : Z, table_at (if b then LEAP_DAYS else NORMAL_DAYS) m = Ret (month_length b m)) m 1 12); [|lia].
  destruct b; by_eval.
Qed.

Lemma cumulative_table (b : bool) m : 1 ≤ m ≤ 13 → table_at (if b then CUMULATIVE_LEAP_DAYS else CUMULATIVE_DAYS) (m - 1) = Ret (month_start b m).
Proof.
  intros Hm. apply (table_range (λ m : Z, table_at (if b then CUMULATIVE_LEAP_DAYS else CUMULATIVE_DAYS) (m - 1) = Ret (month_start b m)) m 1 13); [|lia].
  destruct b; by_eval.
Qed.

(** The table of months puts the day [d] of a year into a month that holds it. *)
Definition month_of_day_ok (b : bool) (d : Z) : bool :=
  match table_at (if b then LEAP_MONTH_PER_DAY_OF_YEAR else MONTH_PER_DAY_OF_YEAR) d with
  | Ret m => bool_decide (1 ≤ m ≤ 12 ∧ month_start b m ≤ d < month_start b m + month_length b m)
  | Throw _ => false
  end.

Lemma day_table (b : bool) d : 0 ≤ d < (if b then 366 else 365) →
  ∃ m, table_at (if b then LEAP_MONTH_PER_DAY_OF_YEAR else MONTH_PER_DAY_OF_YEAR) d = Ret m ∧ 1 ≤ m ≤ 12 ∧
    month_start b m ≤ d < month_start b m + month_length b m.
Proof.
  intros Hd. assert (month_of_day_ok b d = true) as H.
  { apply (table_range (λ d, month_of_day_ok b d = true) d 0 (if b then 366 else 365)); [|lia]. destruct b; by_eval. }
  unfold month_of_day_ok in H. destruct (table_at _ d) as [m|]; [|done]. apply bool_decide_eq_true in H. by exists m.
Qed.

Lemma month_start_bounds (b : bool) m : 1 ≤ m ≤ 12 →
  0 ≤ month_start b m ∧ 28 ≤ month_length b m ≤ 31 ∧ month_start b m + month_length b m ≤ (if b then 366 else 365).
Proof.
  intros Hm. apply (table_range (λ m, 0 ≤ month_start b m ∧ 28 ≤ month_length b m ≤ 31 ∧
    month_start b m + month_length b m ≤ (if b then 366 else 365)) m 1 12); [|lia]. destruct b; by_eval.
Qed.

Lemma month_start_lt (b : bool) m m' : 1 ≤ m → m < m' ≤ 12 → month_start b m + month_length b m ≤ month_start b m'.
Proof.
  intros Hm Hm'. assert (Forall (λ m, Forall (λ m', m < m' → month_start b m + month_length b m ≤ month_start b m') (seqZ 1 12)) (seqZ 1 12)) as H
    by (destruct b; by_eval).
  apply (table_range _ m 1 12) in H; [|lia]. apply (table_range _ m' 1 12) in H; [|lia]. apply H. lia.
Qed.

(** ** Loops *)

Lemma raise_spec fuel bound n step other otherStep :
  0 < step → bound - n ≤ Z.of_nat fuel * step →
  ∃ k, raise fuel bound n step other otherStep = Ret (n + k * step, other - k * otherStep) ∧ 0 ≤ k ∧
    bound ≤ n + k * step ∧ (bound ≤ n → k = 0) ∧ (n < bound → n + k * step < bound + step).
Proof.
  intros Hs. revert n other. induction fuel as [|fuel IH]; intros n other Hf; cbn [raise];
    (destruct (Z.ltb_spec n bound); [|exists 0; split; [do 2 f_equal; lia|lia]]); [lia|].
  destruct (IH (n + step) (other - otherStep)) as (k & -> & Hk & Hb & H0 & H1); [lia|].
  exists (k + 1). split; [do 2 f_equal; lia|]. split_and!; [lia|lia|lia|]. intros _.
  destruct (decide (n + step < bound)); [specialize (H1 ltac:(lia)); lia|]. rewrite H0 by lia. lia.
Qed.

Lemma lower_spec fuel bound n step other otherStep :
  0 < step → n - bound < Z.of_nat fuel * step →
  ∃ k, lower fuel bound n step other otherStep = Ret (n - k * step, other + k * otherStep) ∧ 0 ≤ k ∧
    n - k * step < bound ∧ (n < bound → k = 0) ∧ (bound ≤ n → bound - step ≤ n - k * step).
Proof.
  intros Hs. revert n other. induction fuel as [|fuel IH]; intros n other Hf; cbn [lower]; rewrite Z.geb_leb;
    (destruct (Z.leb_spec bound n); [|exists 0; split; [do 2 f_equal; lia|lia]]); [lia|].
  destruct (IH (n - step) (other + otherStep)) as (k & -> & Hk & Hb & H0 & H1); [lia|].
  exists (k + 1). split; [do 2 f_equal; lia|]. split_and!; [lia|lia|lia|]. intros _.
  destruct (decide (bound ≤ n - step)); [specialize (H1 ltac:(lia)); lia|]. rewrite H0 by lia. lia.
Qed.

Lemma periods_enough bound n step : 0 < step → Z.abs (n - bound) < Z.of_nat (periods bound n step) * step.
Proof.
  intros Hs. unfold periods. pose proof (Z.div_mod (Z.abs (n - bound)) step ltac:(lia)). pose proof (Z.mod_pos_bound (Z.abs (n - bound)) step Hs).
  assert (0 ≤ Z.abs (n - bound) / step) by (apply Z.div_pos; lia). rewrite Z2Nat.id by lia. lia.
Qed.

(** Raising and then lowering brings [n] into one period. *)
Lemma into_period bound n step other otherStep :
  0 < step →
  ∃ q, ('(n', o') ← raise (periods bound n step) bound n step other otherStep;
      lower (periods (bound + step) n' step) (bound + step) n' step o' otherStep) =
      Ret (n - q * step, other + q * otherStep) ∧ bound ≤ n - q * step < bound + step.
Proof.
  intros Hs. pose proof (periods_enough bound n step Hs) as H1.
  destruct (raise_spec (periods bound n step) bound n step other otherStep Hs ltac:(lia)) as (k & -> & Hk & Hb & Hk0 & Hk1). cbn [mbind Res_bind].
  pose proof (periods_enough (bound + step) (n + k * step) step Hs) as H2.
  destruct (lower_spec (periods (bound + step) (n + k * step) step) (bound + step) (n + k * step) step (other - k * otherStep) otherStep Hs ltac:(lia))
    as (j & -> & Hj & Hjb & Hj0 & Hj1).
  exists (j - k). split; [do 2 f_equal; lia|]. split; [|lia].
  destruct (decide (bound + step ≤ n + k * step)); [specialize (Hj1 ltac:(lia)); lia|]. rewrite Hj0 in * by lia. lia.
Qed.

Lemma Res_bind_assoc {A B C} (m : Res A) (f : A → Res B) (g : B → Res C) : ((m ≫= f) ≫= g) = (m ≫= λ a, f a ≫= g).
Proof. by destruct m. Qed.

Lemma search_year_spec fuel n k :
  0 ≤ k ≤ 400 → k ≤ Z.of_nat fuel → 0 ≤ n → (k < 400 → n < year_start (1970 + k + 1)) → n < year_start 2370 →
  ∃ k', search_year fuel n k = Ret k' ∧ 0 ≤ k' < 400 ∧ year_start (1970 + k') ≤ n < year_start (1970 + k' + 1).
Proof.
  revert k. induction fuel as [|fuel IH]; intros k Hk Hf Hn Hup Hend; cbn [search_year]; rewrite year_table by done; cbn [mbind Res_bind];
    destruct (Z.ltb_spec n (year_start (1970 + k))) as [Hlt|Hge].
  - assert (k = 0) as -> by lia. change (year_start (1970 + 0)) with 0 in Hlt. lia.
  - exists k. assert (k = 0) as -> by lia. split_and!; try done; try lia; apply Hup; lia.
  - assert (k ≠ 0) by (intros ->; change (year_start (1970 + 0)) with 0 in Hlt; lia).
    unfold ku_assert. destruct (Z.geb_spec (k - 1) 0); [|lia]. cbn [mbind Res_bind]. apply IH; try lia.
    intros _. replace (1970 + (k - 1) + 1) with (1970 + k) by lia. done.
  - exists k. assert (k ≠ 400) by (intros ->; change (1970 + 400) with 2370 in Hge; lia). split_and!; try done; try lia; apply Hup; lia.
Qed.

Lemma year_start_ge k : 0 ≤ k → 365 * k ≤ year_start (1970 + k).
Proof.
  intros Hk. rewrite <-(Z2Nat.id k) by done. generalize (Z.to_nat k). induction n as [|n IH]; [done|].
  rewrite Nat2Z.inj_succ, <-Z.add_1_r, Z.add_assoc, year_start_step. destruct (leap _); lia.
Qed.

(** [extractYearOffset] finds the year of a day. *)
Lemma extractYearOffset_spec n :
  ∃ n' y k, extractYearOffset n = Ret (n', y, k) ∧ 0 ≤ k < 400 ∧ leap (1970 + k) = leap y ∧
    year_start y ≤ n < year_start (y + 1) ∧ n' - year_start (1970 + k) = n - year_start y ∧
    year_start (1970 + k + 1) - year_start (1970 + k) = (if leap y then 366 else 365).
Proof.
  unfold extractYearOffset. destruct (into_period 0 n DAYS_PER_YEAR_INTERVAL EPOCH_YEAR YEAR_INTERVAL ltac:(done)) as (q & Hq & Hr).
  unfold DAYS_PER_YEAR_INTERVAL, EPOCH_YEAR, YEAR_INTERVAL in *. change (0 + 146097) with 146097 in *.
  destruct (raise (periods 0 n 146097) 0 n 146097 1970 400) as [[n1 y1]|]; [|done]. cbn [mbind Res_bind] in *. rewrite Hq. cbn [mbind Res_bind].
  set (n' := n - q * 146097) in *. rewrite Z.quot_div_nonneg by lia.
  pose proof (Z.div_mod n' 365 ltac:(lia)). pose proof (Z.mod_pos_bound n' 365 ltac:(lia)).
  assert (0 ≤ n' / 365 ≤ 400) as Hd by (split; [apply Z.div_pos; lia|apply Z.lt_succ_r, Z.div_lt_upper_bound; lia]).
  destruct (search_year_spec (Z.to_nat (n' / 365)) n' (n' / 365)) as (k & -> & Hk & Hks).
  { lia. } { rewrite Z2Nat.id by lia. lia. } { lia. }
  { intros _. pose proof (year_start_ge (n' / 365 + 1) ltac:(lia)). rewrite <-Z.add_assoc. lia. }
  { change (year_start 2370) with 146097. lia. }
  cbn [mbind Res_bind]. rewrite year_table by lia. cbn [mbind Res_bind]. unfold ku_assert.
  destruct (Z.geb_spec n' (year_start (1970 + k))); [|lia]. cbn [mbind Res_bind].
  exists n', (1970 + q * 400 + k), k. replace (1970 + q * 400 + k) with (1970 + k + 400 * q) by lia.
  rewrite leap_period. replace (1970 + k + 400 * q + 1) with (1970 + k + 1 + 400 * q) by lia. rewrite !year_start_period, year_start_step in *.
  unfold n' in *. split_and!; try done; lia.
Qed.

(** ** Conversions *)

Definition in_years (y : Z) : Prop := MIN_YEAR ≤ y ≤ MAX_YEAR.

#[export] Instance in_years_dec y : Decision (in_years y).
Proof. unfold in_years. apply _. Defined.

Lemma isValid_spec y m d : isValid y m d = Ret (bool_decide (in_years y ∧ valid_date y m d)).
Proof.
  unfold isValid, in_years, valid_date. rewrite !Z.gtb_ltb, isLeapYear_leap.
  destruct (Z.ltb_spec m 1), (Z.ltb_spec 12 m); cbn [orb]; try (rewrite bool_decide_false; [done|lia]).
  destruct (Z.ltb_spec y MIN_YEAR), (Z.ltb_spec MAX_YEAR y); cbn [orb]; try (rewrite bool_decide_false; [done|lia]).
  destruct (Z.ltb_spec d 1); [rewrite bool_decide_false; [done|lia]|]. rewrite month_table by lia. cbn [mbind Res_bind].
  f_equal. destruct (Z.leb_spec d (month_length (leap y) m)); symmetry; [apply bool_decide_true|apply bool_decide_false]; lia.
Qed.

Lemma day_number_bounds y m d : valid_date y m d → year_start y ≤ day_number y m d < year_start (y + 1).
Proof.
  intros [Hm Hd]. destruct (month_start_bounds (leap y) m Hm) as (? & ? & ?). rewrite year_start_step. unfold day_number. lia.
Qed.

(** The day number orders the dates. *)
Lemma day_number_lt y m d y' m' d' :
  valid_date y m d → valid_date y' m' d' → y < y' ∨ (y = y' ∧ (m < m' ∨ (m = m' ∧ d < d'))) → day_number y m d < day_number y' m' d'.
Proof.
  intros Hv Hv' [Hy|[<- [Hm|[<- Hd]]]].
  - pose proof (day_number_bounds y m d Hv). pose proof (day_number_bounds y' m' d' Hv').
    assert (year_start (y + 1) ≤ year_start y'); [|lia]. destruct (decide (y + 1 = y')) as [->|]; [done|].
    pose proof (year_start_lt (y + 1) y' ltac:(lia)). lia.
  - destruct Hv as [? ?], Hv' as [? ?]. unfold day_number. pose proof (month_start_lt (leap y) m m' ltac:(lia) ltac:(lia)). lia.
  - unfold day_number. lia.
Qed.

Lemma day_number_inj y m d y' m' d' :
  valid_date y m d → valid_date y' m' d' → day_number y m d = day_number y' m' d' → (y, m, d) = (y', m', d').
Proof.
  intros Hv Hv' Heq. pose proof (day_number_lt y m d y' m' d' Hv Hv') as H1. pose proof (day_number_lt y' m' d' y m d Hv' Hv) as H2.
  assert (y = y') as <- by lia. assert (m = m') as <- by lia. assert (d = d') as <- by lia. done.
Qed.

Lemma convert_spec n : ∃ y m d, valid_date y m d ∧ day_number y m d = n ∧
  convert n = if decide (in_years y) then Ret (y, m, d) else Throw AssertionFailure.
Proof.
  destruct (extractYearOffset_spec n) as (n' & y & k & He & Hk & Hl & Hn & Hoff & Hlen).
  set (d0 := n - year_start y) in *. rewrite year_start_step in Hn.
  destruct (day_table (leap y) d0 ltac:(destruct (leap y); lia)) as (m & Hm & Hm12 & Hms).
  exists y, m, (d0 - month_start (leap y) m + 1).
  assert (valid_date y m (d0 - month_start (leap y) m + 1)) as Hv by (split; lia). split; [done|]. split; [unfold day_number; lia|].
  unfold convert. rewrite He. cbn [mbind Res_bind]. rewrite !year_table by lia. cbn [mbind Res_bind].
  rewrite Hoff. unfold ku_assert. rewrite Z.geb_leb. destruct (Z.leb_spec 0 d0), (Z.leb_spec d0 365); cbn [andb]; try (exfalso; destruct (leap y); lia).
  cbn [mbind Res_bind]. rewrite (Z.add_assoc 1970 k 1) in *. rewrite Hlen.
  assert (((if leap y then 366 else 365) =? 366) = leap y) as -> by (by destruct (leap y)).
  rewrite Hm. cbn [mbind Res_bind]. rewrite cumulative_table by lia. cbn [mbind Res_bind]. rewrite month_table by lia. cbn [mbind Res_bind].
  set (dd := d0 - month_start (leap y) m + 1) in *. destruct Hv as [_ Hdd].
  rewrite !Z.gtb_ltb. destruct (Z.ltb_spec 0 dd), (Z.leb_spec dd (month_length (leap y) m)); cbn [andb]; try lia. cbn [mbind Res_bind].
  destruct (Z.ltb_spec 0 m), (Z.leb_spec m 12); cbn [andb]; try lia. cbn [mbind Res_bind]. rewrite isValid_spec. cbn [mbind Res_bind].
  case_decide; [rewrite bool_decide_true; [done|split; [done|split; lia]]|rewrite bool_decide_false; [done|tauto]].
Qed.

Lemma fromDate_spec y m d :
  fromDate y m d = if decide (in_years y ∧ valid_date y m d) then Ret (day_number y m d) else Throw ConversionException.
Proof.
  unfold fromDate. rewrite isValid_spec. cbn [mbind Res_bind]. case_decide as Hv; [rewrite bool_decide_true by done|by rewrite bool_decide_false by done].
  cbn [negb]. destruct Hv as [_ [Hm Hd]]. destruct (into_period 1970 y YEAR_INTERVAL 0 DAYS_PER_YEAR_INTERVAL ltac:(done)) as (q & Hq & Hr).
  unfold DAYS_PER_YEAR_INTERVAL, YEAR_INTERVAL in *. change (1970 + 400) with 2370 in *.
  destruct (raise (periods 1970 y 400) 1970 y 400 0 146097) as [[y1 n1]|]; [|done]. cbn [mbind Res_bind] in *. rewrite Hq. cbn [mbind Res_bind].
  rewrite year_table by lia. cbn [mbind Res_bind]. rewrite isLeapYear_leap, cumulative_table by lia. cbn [mbind Res_bind].
  f_equal. unfold day_number. replace y with (1970 + (y - q * 400 - 1970) + 400 * q) at 3 4 by lia.
  rewrite year_start_period, leap_period. replace (1970 + (y - q * 400 - 1970)) with (y - q * 400) by lia. lia.
Qed.

Lemma convert_day_number y m d : in_years y → valid_date y m d → convert (day_number y m d) = Ret (y, m, d).
Proof.
  intros Hy Hv. destruct (convert_spec (day_number y m d)) as (y' & m' & d' & Hv' & Heq & ->).
  apply day_number_inj in Heq; [|done..]. injection Heq as -> -> ->. by rewrite decide_True by done.
Qed.

Lemma day_number_i32 y m d : in_years y → valid_date y m d → - 2 ^ 31 ≤ day_number y m d < 2 ^ 31.
Proof.
  intros [Hy1 Hy2] Hv. pose proof (day_number_bounds y m d Hv) as Hb.
  assert (year_start MIN_YEAR ≤ year_start y) by (destruct (decide (MIN_YEAR = y)) as [<-|]; [done|]; pose proof (year_start_lt MIN_YEAR y ltac:(lia)); lia).
  assert (year_start (y + 1) ≤ year_start (MAX_YEAR + 1)).
  { destruct (decide (y = MAX_YEAR)) as [->|]; [done|]. pose proof (year_start_lt (y + 1) (MAX_YEAR + 1) ltac:(lia)). lia. }
  change (year_start MIN_YEAR) with (-106751981) in *. change (year_start (MAX_YEAR + 1)) with 106752347 in *. lia.
Qed.

(** The day [months] after a day: the same day of the month, or the last one of a shorter month. *)
Definition add_months (y m d k : Z) : Z * Z * Z :=
  let t := y * 12 + (m - 1) + k in
  let y' := t / 12 in
  let m' := t `mod` 12 + 1 in
  (y', m', Z.min d (month_length (leap y') m')).

Lemma divmod_unique t k q r : 0 ≤ r < k → t = k * q + r → t / k = q ∧ t `mod` k = r.
Proof.
  intros Hr Ht. split; symmetry; [by apply Z.div_unique_pos with r|by apply Z.mod_unique_pos with q].
Qed.

Lemma month_arithmetic y m k : 1 ≤ m ≤ 12 →
  let t := y * 12 + (m - 1) + k in
  (if m + (k - Z.quot k 12 * 12) >? 12 then (y + Z.quot k 12 + 1, m + (k - Z.quot k 12 * 12) - 12)
   else if m + (k - Z.quot k 12 * 12) <=? 0 then (y + Z.quot k 12 - 1, m + (k - Z.quot k 12 * 12) + 12)
   else (y + Z.quot k 12, m + (k - Z.quot k 12 * 12))) = (t / 12, t `mod` 12 + 1).
Proof.
  intros Hm t. pose proof (Z.quot_rem k 12 ltac:(lia)) as Hq. assert (Z.abs (Z.rem k 12) < 12) by (apply Z.rem_bound_abs; lia).
  replace (k - Z.quot k 12 * 12) with (Z.rem k 12) by lia. rewrite Z.gtb_ltb.
  destruct (Z.ltb_spec 12 (m + Z.rem k 12)); [|destruct (Z.leb_spec (m + Z.rem k 12) 0)].
  - destruct (divmod_unique t 12 (y + Z.quot k 12 + 1) (m + Z.rem k 12 - 13)) as [-> ->]; [lia|unfold t; lia|f_equal; lia].
  - destruct (divmod_unique t 12 (y + Z.quot k 12 - 1) (m + Z.rem k 12 + 11)) as [-> ->]; [lia|unfold t; lia|f_equal; lia].
  - destruct (divmod_unique t 12 (y + Z.quot k 12) (m + Z.rem k 12 - 1)) as [-> ->]; [lia|unfold t; lia|f_equal; lia].
Qed.

Lemma add_months_valid y m d k : 1 ≤ d → let '(y', m', d') := add_months y m d k in valid_date y' m' d'.
Proof.
  intros Hd. unfold add_months. set (t := y * 12 + (m - 1) + k). pose proof (Z.mod_pos_bound t 12 ltac:(lia)).
  destruct (month_start_bounds (leap (t / 12)) (t `mod` 12 + 1) ltac:(lia)) as (_ & ? & _). split; lia.
Qed.

(** The date [interval.months] after a date. *)
Definition months_later (date k : Z) : Res date_t :=
  if decide (k = 0) then Ret date
  else
    '(y, m, d) ← convert date;
    let '(y', m', d') := add_months y m d k in
    if decide (in_years y') then Ret (day_number y' m' d') else Throw ConversionException.

Lemma plus_months_spec y m d k : in_years y → valid_date y m d → - 2 ^ 31 ≤ k < 2 ^ 31 →
  plus_months y m d k =
  let '(y', m', d') := add_months y m d k in
  if decide (in_years y') then Ret (day_number y' m' d') else Throw ConversionException.
Proof.
  intros Hy [Hm Hd] Hk. unfold plus_months, MONTHS_PER_YEAR. cbv zeta. pose proof (Z.quot_rem k 12 ltac:(lia)).
  assert (Z.abs (Z.rem k 12) < 12) by (apply Z.rem_bound_abs; lia). unfold in_years, MIN_YEAR, MAX_YEAR in Hy. rewrite i32_id by lia.
  rewrite month_arithmetic by done. pose proof (add_months_valid y m d k ltac:(lia)) as Hv. unfold add_months in *.
  set (t := y * 12 + (m - 1) + k) in *. destruct Hv as [Hm' Hd']. unfold monthDays, ku_assert.
  destruct (Z.leb_spec 1 (t `mod` 12 + 1)), (Z.leb_spec (t `mod` 12 + 1) 12); cbn [andb]; try lia. cbn [mbind Res_bind].
  rewrite isLeapYear_leap, month_table by lia. cbn [mbind Res_bind]. rewrite fromDate_spec.
  assert ((if d >? month_length (leap (t / 12)) (t `mod` 12 + 1) then month_length (leap (t / 12)) (t `mod` 12 + 1) else d) =
    Z.min d (month_length (leap (t / 12)) (t `mod` 12 + 1))) as -> by (rewrite Z.gtb_ltb; destruct (Z.ltb_spec (month_length (leap (t / 12)) (t `mod` 12 + 1)) d); lia).
  destruct (decide (in_years (t / 12))); [rewrite decide_True; [done|split; [done|split; lia]]|rewrite decide_False; [done|tauto]].
Qed.

Lemma date_plus_interval_spec date iv :
  - 2 ^ 31 ≤ date < 2 ^ 31 → - 2 ^ 31 ≤ months iv < 2 ^ 31 →
  date_plus_interval date iv =
    (b ← months_later date (months iv); Ret (i32 (b + days iv + Z.quot (micros iv) MICROS_PER_DAY))).
Proof.
  intros Hdate Hmon. unfold date_plus_interval, months_later.
  assert (∀ b, - 2 ^ 31 ≤ b < 2 ^ 31 →
    (let result := if negb (days iv =? 0) then i32 (b + days iv) else b in
     Ret (if negb (micros iv =? 0) then i32 (result + i32 (Z.quot (micros iv) MICROS_PER_DAY)) else result)) =
    Ret (i32 (b + days iv + Z.quot (micros iv) MICROS_PER_DAY))) as Hfin.
  { intros b Hb. cbv zeta. f_equal. assert ((if negb (days iv =? 0) then i32 (b + days iv) else b) = i32 (b + days iv)) as ->.
    { destruct (Z.eqb_spec (days iv) 0) as [->|]; [|done]. cbn [negb]. rewrite Z.add_0_r, i32_id by done. done. }
    destruct (Z.eqb_spec (micros iv) 0) as [->|]; cbn [negb]; [by rewrite Z.add_0_r|].
    rewrite Z.add_comm, i32_plus, Z.add_comm, i32_plus. done. }
  destruct (decide (months iv = 0)) as [->|Hnz]; [apply Hfin; done|].
  destruct (Z.eqb_spec (months iv) 0); [done|]. cbn [negb].
  destruct (convert_spec date) as (y & m & d & Hv & Hn & ->). destruct (decide (in_years y)) as [Hy|]; [|done]. cbn [mbind Res_bind].
  rewrite (plus_months_spec y m d (months iv) Hy Hv Hmon).
  pose proof (add_months_valid y m d (months iv) ltac:(destruct Hv; lia)) as Hv'. destruct (add_months y m d (months iv)) as [[y' m'] d'].
  destruct (decide (in_years y')) as [Hy'|]; [|done]. cbn [mbind Res_bind]. apply Hfin. by apply day_number_i32.
Qed.

(** Adding an interval to a date moves it by the months first, to the same day of the month or
    to the last day of a shorter one, and then by the days and by the whole days of the
    microseconds, wrapping around at 32 bits; it throws when the months lead out of the supported
    years, and fails an assertion for a date outside them. *)
Theorem date_plus_interval_exact date iv :
  - 2 ^ 31 ≤ date < 2 ^ 31 → - 2 ^ 31 ≤ months iv < 2 ^ 31 →
  date_plus_interval date iv =
    (b ← months_later date (months iv); Ret (i32 (b + days iv + Z.quot (micros iv) MICROS_PER_DAY))).
Proof. apply date_plus_interval_spec. Qed.

(** C40. [Date::fromDate] and [Date::convert] are inverse to each other and agree with the Gregorian
    calendar: a day number converts to a year, month and day exactly when they are valid, within
    the supported years, and have that day number; anything else is refused. *)
Theorem date_conversion_roundtrip n y m d :
  (fromDate y m d = Ret n ↔ convert n = Ret (y, m, d)) ∧
  fromDate y m d = if decide (in_years y ∧ valid_date y m d) then Ret (day_number y m d) else Throw ConversionException.
Proof.
  split; [|apply fromDate_spec]. rewrite fromDate_spec. split.
  - case_decide as H; [|done]. destruct H as [Hy Hv]. intros [= <-]. by apply convert_day_number.
  - destruct (convert_spec n) as (y' & m' & d' & Hv & Hn & ->). case_decide as Hy; [|done]. intros [= -> -> ->].
    rewrite decide_True by done. by rewrite Hn.
Qed.

Lemma convert_inv n y m d : convert n = Ret (y, m, d) → in_years y ∧ valid_date y m d ∧ n = day_number y m d.
Proof.
  destruct (convert_spec n) as (y' & m' & d' & Hv & Hn & ->). case_decide as Hy; [|done]. by intros [= -> -> ->].
Qed.

Lemma month_start_next (b : bool) m : 1 ≤ m ≤ 11 → month_start b (m + 1) = month_start b m + month_length b m.
Proof.
  intros Hm. apply (table_range (λ m, month_start b (m + 1) = month_start b m + month_length b m) m 1 11); [|lia]. destruct b; by_eval.
Qed.

Lemma getLastDay_spec n y m d : convert n = Ret (y, m, d) →
  getLastDay n = if decide (y = MAX_YEAR ∧ m = 12) then Throw ConversionException else Ret (day_number y m (month_length (leap y) m)).
Proof.
  intros Hc. destruct (convert_inv n y m d Hc) as (Hy & [Hm Hd] & ->). unfold getLastDay. rewrite Hc. cbn [mbind Res_bind].
  rewrite fromDate_spec. unfold date_minus_days, in_years in *.
  destruct (month_start_bounds (leap y) m Hm) as (? & ? & ?).
  assert (day_number y m (month_length (leap y) m) = (if decide (m = 12) then year_start (y + 1) else day_number y (m + 1) 1) - 1) as ->.
  { unfold day_number. case_decide as E; [rewrite E, year_start_step; destruct (leap y); unfold month_start, month_length; simpl; lia|].
    rewrite month_start_next by lia. lia. }
  destruct (decide (m = 12)) as [->|Hn].
  - change (Z.quot 12 12) with 1. change (Z.rem 12 12 + 1) with 1. destruct (decide (y = MAX_YEAR)) as [->|Hne].
    + rewrite decide_False by (unfold MAX_YEAR; lia). rewrite decide_True by done. done.
    + assert (in_years (y + 1)) as Hy1 by (unfold in_years; lia).
      assert (valid_date (y + 1) 1 1) as Hv1 by (split; [lia|destruct (month_start_bounds (leap (y + 1)) 1); lia]).
      rewrite decide_True by (split; [exact Hy1|exact Hv1]). rewrite decide_False by tauto. cbn [mbind Res_bind].
      assert (day_number (y + 1) 1 1 = year_start (y + 1)) as -> by (unfold day_number; change (month_start _ 1) with 0; lia).
      f_equal. apply i32_id. pose proof (day_number_i32 (y + 1) 1 1 Hy1 Hv1) as Hb. pose proof (day_number_i32 y 12 31 ltac:(unfold in_years; lia)) as Hb'.
      assert (valid_date y 12 31) as Hv31 by (split; [lia|done]). specialize (Hb' Hv31).
      pose proof (day_number_bounds y 12 31 Hv31). assert (day_number (y + 1) 1 1 = year_start (y + 1)) by (unfold day_number; change (month_start _ 1) with 0; lia).
      assert (day_number y 12 31 = year_start (y + 1) - 1); [|lia].
      unfold day_number. rewrite year_start_step. destruct (leap y); [change (month_start true 12) with 335|change (month_start false 12) with 334]; lia.
  - rewrite Z.quot_small, Z.rem_small by lia. rewrite Z.add_0_r.
    assert (valid_date y (m + 1) 1) as Hv1 by (split; [lia|destruct (month_start_bounds (leap y) (m + 1)); lia]).
    rewrite decide_True by (split; [done|exact Hv1]). rewrite decide_False by tauto. cbn [mbind Res_bind]. f_equal. apply i32_id.
    pose proof (day_number_i32 y (m + 1) 1 Hy Hv1). assert (valid_date y m (month_length (leap y) m)) as Hvl by (split; lia).
    pose proof (day_number_i32 y m _ Hy Hvl). assert (day_number y (m + 1) 1 - 1 = day_number y m (month_length (leap y) m)); [|lia].
    unfold day_number. rewrite month_start_next by lia. lia.
Qed.

Lemma dayIndex_spec n : dayIndex n = (n + 4) `mod` 7.
Proof.
  unfold dayIndex. destruct (Z.ltb_spec n 0).
  - rewrite !Z.rem_mod_nonneg by (try lia; pose proof (Z.mod_pos_bound (- n + 3) 7 ltac:(lia)); rewrite ?Z.rem_mod_nonneg; lia).
    pose proof (Z.div_mod (- n + 3) 7 ltac:(lia)). pose proof (Z.mod_pos_bound (- n + 3) 7 ltac:(lia)).
    destruct (decide ((- n + 3) `mod` 7 = 0)) as [E|E].
    + rewrite E. symmetry. apply (divmod_unique (n + 4) 7 (1 - (- n + 3) / 7) 0); lia.
    + rewrite Z.mod_small by lia. symmetry. apply (divmod_unique (n + 4) 7 (- ((- n + 3) / 7)) (7 - (- n + 3) `mod` 7)); lia.
  - rewrite !Z.rem_mod_nonneg by (try lia; pose proof (Z.mod_pos_bound (n + 3) 7 ltac:(lia)); rewrite ?Z.rem_mod_nonneg; lia).
    rewrite Zplus_mod_idemp_l. f_equal. lia.
Qed.

Lemma getDatePart_year n y m d : convert n = Ret (y, m, d) → getDatePart YEAR n = Ret y.
Proof.
  intros Hc. destruct (convert_inv n y m d Hc) as (Hy & Hv & Hn). unfold getDatePart. rewrite Hc. cbn [mbind Res_bind].
  destruct (extractYearOffset_spec n) as (n' & y' & k & -> & _ & _ & Hr & _). cbn [mbind Res_bind]. f_equal.
  pose proof (day_number_bounds y m d Hv) as Hb. rewrite <-Hn in Hb.
  assert (∀ a b, year_start a ≤ n → n < year_start (b + 1) → a ≤ b) as Hle.
  { intros a b Ha Hb'. destruct (decide (a ≤ b)); [done|]. destruct (decide (b + 1 = a)) as [<-|]; [lia|].
    pose proof (year_start_lt (b + 1) a ltac:(lia)). lia. }
  pose proof (Hle y y' ltac:(lia) ltac:(lia)). pose proof (Hle y' y ltac:(lia) ltac:(lia)). lia.
Qed.

Lemma fromDate_first y m : in_years y → 1 ≤ m ≤ 12 → fromDate y m 1 = Ret (day_number y m 1).
Proof.
  intros Hy Hm. rewrite fromDate_spec, decide_True; [done|]. split; [done|]. split; [done|].
  destruct (month_start_bounds (leap y) m Hm) as (_ & ? & _). lia.
Qed.

(** The functions on dates agree with the calendar: [getLastDay] is the last day of the month
    (and throws for the last supported month), day names follow each other with 1970-01-01 a
    Thursday, and [trunc] returns the first day of the year, the quarter or the month, and for
    years from 0 on of the decade, century or millennium. *)
Theorem date_functions_exact n y m d :
  convert n = Ret (y, m, d) →
  getLastDay n = (if decide (y = MAX_YEAR ∧ m = 12) then Throw ConversionException
    else Ret (day_number y m (month_length (leap y) m))) ∧
  getDayName n = name_at dayNames ((n + 4) `mod` 7) ∧
  trunc YEAR n = Ret (day_number y 1 1) ∧ trunc MONTH n = Ret (day_number y m 1) ∧
  trunc QUARTER n = Ret (day_number y ((m - 1) / 3 * 3 + 1) 1) ∧
  if decide (0 ≤ y) then
    trunc DECADE n = Ret (day_number (y / 10 * 10) 1 1) ∧ trunc CENTURY n = Ret (day_number (y / 100 * 100) 1 1) ∧
    trunc MILLENNIUM n = Ret (day_number (y / 1000 * 1000) 1 1)
  else True.
Proof.
  intros Hc. destruct (convert_inv n y m d Hc) as (Hy & [Hm Hd] & Hn). pose proof (getDatePart_year n y m d Hc) as Hpy.
  assert (getDatePart MONTH n = Ret m) as Hpm by (unfold getDatePart; by rewrite Hc).
  assert (∀ k, 0 < k → 0 ≤ y → in_years (y / k * k)) as Hk.
  { intros k Hk H0. pose proof (Z.div_mod y k ltac:(lia)). pose proof (Z.mod_pos_bound y k Hk). unfold in_years, MIN_YEAR, MAX_YEAR in *.
    assert (0 ≤ y / k) by (apply Z.div_pos; lia). nia. }
  unfold trunc. rewrite Hpy, Hpm, Hc. cbn [mbind Res_bind]. split_and!.
  - by apply getLastDay_spec with d.
  - unfold getDayName. by rewrite dayIndex_spec.
  - apply fromDate_first; [done|lia].
  - by apply fromDate_first.
  - rewrite Z.quot_div_nonneg by lia. replace (1 + (m - 1) / 3 * 3) with ((m - 1) / 3 * 3 + 1) by lia. apply fromDate_first; [done|].
    pose proof (Z.div_mod (m - 1) 3 ltac:(lia)). pose proof (Z.mod_pos_bound (m - 1) 3 ltac:(lia)). lia.
  - case_decide; [|done]. rewrite !Z.quot_div_nonneg by lia. split_and!; apply fromDate_first; try lia; apply Hk; lia.
Qed.

(** For years before 0 the truncation rounds towards zero, to a later date. *)
Theorem trunc_decade_later : ∃ n n', trunc DECADE n = Ret n' ∧ n < n'.
Proof. exists (day_number (-5) 6 1), (day_number 0 1 1). split; by vm_compute. Qed.

(** ** Printing and parsing *)

Definition all_digits (l : list ascii) : Prop := Forall (λ c, CharacterIsDigit c = true) l.

(** The number that [acc] followed by the digits [l] denotes. *)
Definition dec_value (acc : Z) (l : list ascii) : Z := foldl (λ a c, digit_val c + a * 10) acc l.

Lemma digit_val_range c : CharacterIsDigit c = true → 0 ≤ digit_val c ≤ 9.
Proof. unfold CharacterIsDigit, digit_val. rewrite andb_true_iff, !Nat.leb_le. lia. Qed.

Lemma digit_char_spec d : 0 ≤ d ≤ 9 → CharacterIsDigit (char_of (48 + d)) = true ∧ digit_val (char_of (48 + d)) = d.
Proof.
  intros Hd. apply (table_range (λ d, CharacterIsDigit (char_of (48 + d)) = true ∧ digit_val (char_of (48 + d)) = d) d 0 10); [by_eval|lia].
Qed.

Lemma digit_at_spec i : 0 ≤ i < 100 → digit_at (i * 2) = char_of (48 + i / 10) ∧ digit_at (i * 2 + 1) = char_of (48 + i `mod` 10).
Proof.
  intros Hi. apply (table_range (λ i, digit_at (i * 2) = char_of (48 + i / 10) ∧ digit_at (i * 2 + 1) = char_of (48 + i `mod` 10)) i 0 100);
    [by_eval|lia].
Qed.

Lemma dec_value_app acc l l' : dec_value acc (l ++ l') = dec_value (dec_value acc l) l'.
Proof. unfold dec_value. by rewrite foldl_app. Qed.

Lemma dec_value_acc acc l : dec_value acc l = acc * 10 ^ Z.of_nat (length l) + dec_value 0 l.
Proof.
  revert acc. induction l as [|c l IH]; intros acc; [unfold dec_value; simpl; lia|].
  change (dec_value acc (c :: l)) with (dec_value (digit_val c + acc * 10) l). change (dec_value 0 (c :: l)) with (dec_value (digit_val c + 0 * 10) l).
  rewrite (IH (digit_val c + acc * 10)), (IH (digit_val c + 0 * 10)). cbn [length]. rewrite Nat2Z.inj_succ, Z.pow_succ_r by lia. lia.
Qed.

Lemma dec_value_range l : all_digits l → 0 ≤ dec_value 0 l < 10 ^ Z.of_nat (length l).
Proof.
  induction 1 as [|c l Hc _ IH]; [done|]. change (dec_value 0 (c :: l)) with (dec_value (digit_val c + 0 * 10) l). rewrite dec_value_acc.
  apply digit_val_range in Hc. cbn [length]. rewrite Nat2Z.inj_succ, Z.pow_succ_r by lia. nia.
Qed.

(** Two digits. *)
Definition pair_of (i : Z) : list ascii := [char_of (48 + i / 10); char_of (48 + i `mod` 10)].

Lemma pair_of_spec i : 0 ≤ i < 100 → all_digits (pair_of i) ∧ dec_value 0 (pair_of i) = i.
Proof.
  intros Hi. pose proof (Z.div_mod i 10 ltac:(lia)). pose proof (Z.mod_pos_bound i 10 ltac:(lia)).
  assert (0 ≤ i / 10 ≤ 9) by (split; [apply Z.div_pos; lia|apply Z.lt_succ_r, Z.div_lt_upper_bound; lia]).
  destruct (digit_char_spec (i / 10) ltac:(lia)) as [? E1], (digit_char_spec (i `mod` 10) ltac:(lia)) as [? E2].
  split; [by repeat constructor|]. unfold dec_value, pair_of. cbn [foldl]. rewrite E1, E2. lia.
Qed.

Lemma two_digits_spec i : 0 ≤ i < 100 → two_digits i = pair_of i.
Proof.
  intros Hi. unfold two_digits, pair_of. destruct (digit_at_spec i Hi) as [-> ->]. destruct (Z.ltb_spec i 10); [|done].
  rewrite Z.div_small, Z.mod_small by lia. done.
Qed.

(** The digits [FormatUnsigned] writes: they denote the value and do not start with a zero. *)
Definition numeral (ds : list ascii) (v : Z) : Prop :=
  all_digits ds ∧ dec_value 0 ds = v ∧ (1 ≤ length ds)%nat ∧ (length ds = 1%nat ∨ 10 ^ Z.of_nat (length ds - 1) ≤ v).

Lemma numeral_length ds v k : numeral ds v → v < 10 ^ Z.of_nat (S k) → (length ds ≤ S k)%nat.
Proof.
  intros (_ & _ & _ & Hl) Hv. destruct Hl as [->|Hl]; [lia|]. destruct (decide (length ds ≤ S k)%nat); [done|].
  assert (10 ^ Z.of_nat (S k) ≤ 10 ^ Z.of_nat (length ds - 1)) by (apply Z.pow_le_mono_r; lia). lia.
Qed.

Lemma format_loop_spec fuel v ptr : 0 ≤ v < 100 ^ Z.of_nat (S fuel) →
  ∃ v' ds, format_loop fuel v ptr = (v', ds ++ ptr) ∧ 0 ≤ v' < 100 ∧ all_digits ds ∧
    v = v' * 10 ^ Z.of_nat (length ds) + dec_value 0 ds ∧ (ds ≠ [] → 1 ≤ v').
Proof.
  revert v ptr. induction fuel as [|fuel IH]; intros v ptr Hv; cbn [format_loop].
  { exists v, []. split_and!; try done; try lia; [by constructor|]. unfold dec_value. simpl. lia. }
  rewrite Z.geb_leb. destruct (Z.leb_spec 100 v).
  2:{ exists v, []. split_and!; try done; try lia; [by constructor|]. unfold dec_value. simpl. lia. }
  rewrite Z.quot_div_nonneg, Z.rem_mod_nonneg by lia. pose proof (Z.div_mod v 100 ltac:(lia)). pose proof (Z.mod_pos_bound v 100 ltac:(lia)) as Hm.
  destruct (digit_at_spec (v `mod` 100) Hm) as [-> ->]. destruct (pair_of_spec (v `mod` 100) Hm) as [Hp Hpv].
  assert (1 ≤ v / 100) by (apply Z.div_le_lower_bound; lia).
  destruct (IH (v / 100) (pair_of (v `mod` 100) ++ ptr)) as (v' & ds & He & Hv' & Hd & Heq & Hne).
  { split; [lia|]. apply Z.div_lt_upper_bound; [lia|]. rewrite Nat2Z.inj_succ, Z.pow_succ_r in Hv by lia. lia. }
  exists v', (ds ++ pair_of (v `mod` 100)). rewrite <-app_assoc. split; [done|]. split; [done|]. split; [by apply Forall_app|]. split.
  - rewrite dec_value_app, dec_value_acc, Hpv, length_app. change (length (pair_of _)) with 2%nat. rewrite Nat2Z.inj_add, Z.pow_add_r by lia.
    change (10 ^ Z.of_nat 2) with 100. lia.
  - intros _. destruct ds as [|c ds]; [simpl in Heq; unfold dec_value in Heq; simpl in Heq; lia|by apply Hne].
Qed.

Lemma FormatUnsigned_spec v : 0 ≤ v < 2 ^ 64 → numeral (FormatUnsigned v []) v.
Proof.
  intros Hv. unfold FormatUnsigned. destruct (format_loop_spec 32 v []) as (v' & ds & -> & Hv' & Hd & Heq & Hne).
  { change (100 ^ Z.of_nat 33) with (10 ^ 66). lia. }
  rewrite app_nil_r. pose proof (dec_value_range ds Hd) as Hr. destruct (Z.ltb_spec v' 10).
  - destruct (digit_char_spec v' ltac:(lia)) as [Hc1 Hc2]. split; [by constructor|]. split_and!.
    + change (dec_value 0 (char_of (48 + v') :: ds)) with (dec_value (digit_val (char_of (48 + v')) + 0 * 10) ds). rewrite dec_value_acc, Hc2. lia.
    + simpl. lia.
    + destruct ds as [|c ds]; [by left|]. right. cbn [length] in *. replace (S (S (length ds)) - 1)%nat with (S (length ds)) by lia.
      specialize (Hne ltac:(done)). nia.
  - destruct (digit_at_spec v' ltac:(lia)) as [-> ->]. destruct (pair_of_spec v' ltac:(lia)) as [Hp Hpv].
    change (?a :: ?b :: ds) with ([a; b] ++ ds). fold (pair_of v'). split; [by apply Forall_app|]. split_and!.
    + rewrite dec_value_app, Hpv, dec_value_acc. lia.
    + simpl. lia.
    + right. rewrite length_app. change (length (pair_of _)) with 2%nat. replace (2 + length ds - 1)%nat with (S (length ds)) by lia.
      rewrite Nat2Z.inj_succ, Z.pow_succ_r by lia. nia.
Qed.

Lemma dec_value_mono acc l : 0 ≤ acc → all_digits l → acc ≤ dec_value acc l.
Proof. intros Ha Hl. rewrite dec_value_acc. pose proof (dec_value_range l Hl). nia. Qed.

(** The loop over the year reads all its digits. *)
Lemma parse_year_spec fuel pre ds c rest year :
  all_digits ds → CharacterIsDigit c = false → 0 ≤ year → dec_value year ds ≤ MAX_YEAR → (length ds < fuel)%nat →
  parse_year fuel (pre ++ ds ++ c :: rest) (length pre) year = (dec_value year ds, (length pre + length ds)%nat).
Proof.
  intros Hds Hc. revert fuel pre year. induction Hds as [|x ds Hx Hds IH]; intros fuel pre year Hy Hmax Hf; (destruct fuel as [|fuel]; [simpl in Hf; lia|]);
    cbn [parse_year]; rewrite lookup_app_r, Nat.sub_diag by lia; cbn [app lookup list_lookup].
  - rewrite Hc. unfold dec_value. simpl. f_equal. lia.
  - rewrite Hx. apply digit_val_range in Hx. change (dec_value year (x :: ds)) with (dec_value (digit_val x + year * 10) ds) in *.
    pose proof (dec_value_mono (digit_val x + year * 10) ds ltac:(lia) Hds). rewrite Z.gtb_ltb.
    destruct (Z.ltb_spec MAX_YEAR (digit_val x + year * 10)); [lia|].
    replace (pre ++ x :: ds ++ c :: rest) with ((pre ++ [x]) ++ ds ++ c :: rest) by (by rewrite <-app_assoc).
    replace (S (length pre)) with (length (pre ++ [x])) by (rewrite length_app; simpl; lia). rewrite IH; [|lia|done|simpl in Hf; lia].
    rewrite length_app. simpl. f_equal. lia.
Qed.

Lemma parseDoubleDigit_spec pre i rest :
  0 ≤ i < 100 → parseDoubleDigit (pre ++ pair_of i ++ rest) (length pre) = Some (i, (length pre + 2)%nat).
Proof.
  intros Hi. destruct (pair_of_spec i Hi) as [Hd Hv]. unfold parseDoubleDigit, pair_of in *.
  apply Forall_cons in Hd as [Ha Hd]. apply Forall_cons in Hd as [Hb _].
  rewrite (lookup_app_r _ _ (length pre)), (lookup_app_r _ _ (S (length pre))) by lia. rewrite Nat.sub_diag. replace (S (length pre) - length pre)%nat with 1%nat by lia.
  cbn [app lookup list_lookup]. rewrite Ha, Hb. unfold dec_value in Hv. simpl in Hv. do 2 f_equal; [f_equal|]; lia.
Qed.

Lemma skip_digit fuel buf pos c : buf !! pos = Some c → CharacterIsDigit c = true → skip_spaces fuel buf pos = pos.
Proof.
  intros Hc Hd. destruct fuel; [done|]. cbn [skip_spaces]. rewrite Hc. unfold isSpace, CharacterIsDigit in *.
  rewrite andb_true_iff, !Nat.leb_le in Hd. destruct (Nat.eqb_spec (nat_of_ascii c) 32); [lia|]. cbn [orb].
  destruct (Nat.leb_spec 9 (nat_of_ascii c)), (Nat.leb_spec (nat_of_ascii c) 13); simpl; try done; lia.
Qed.

Lemma skip_end fuel buf : skip_spaces fuel buf (length buf) = length buf.
Proof. destruct fuel; [done|]. cbn [skip_spaces]. by rewrite lookup_ge_None_2 by lia. Qed.

(** A string of the printed form reads back, up to what follows it. *)
Lemma tryConvertDate_spec ds y m d rest (b : bool) :
  all_digits ds → dec_value 0 ds = y → ds ≠ [] → y ≤ MAX_YEAR → 0 ≤ m < 100 → 0 ≤ d < 100 →
  let buf := ds ++ "-"%char :: pair_of m ++ "-"%char :: pair_of d ++ rest in
  let pos := skip_spaces (length buf) buf (length ds + 6) in
  tryConvertDate buf 0 b =
    if (pos <? length buf)%nat && negb b then None else match fromDate y m d with Ret n => Some (n, pos) | Throw _ => None end.
Proof.
  intros Hds Hv Hne Hy Hm Hd buf pos.
  assert (length buf = length ds + 6 + length rest)%nat as Hlen by (unfold buf; rewrite length_app; simpl; lia).
  assert (∃ c, buf !! 0%nat = Some c ∧ CharacterIsDigit c = true) as (c & Hc & Hcd).
  { destruct ds as [|c ds]; [done|]. exists c. split; [done|]. by apply Forall_cons in Hds as [? _]. }
  unfold tryConvertDate. rewrite decide_False by lia. rewrite (skip_digit _ _ _ c Hc Hcd), Hc. cbn [mbind option_bind]. rewrite Hcd. cbn [negb].
  pose proof (parse_year_spec (length buf) [] ds "-"%char (pair_of m ++ "-"%char :: pair_of d ++ rest) 0 Hds ltac:(done) ltac:(lia) ltac:(lia) ltac:(lia)) as Hpy.
  cbn [app length] in Hpy. fold buf in Hpy. rewrite Hpy, Hv. clear Hpy. cbn [Nat.add].
  assert (buf !! length ds = Some "-"%char) as -> by (unfold buf; rewrite lookup_app_r, Nat.sub_diag by lia; done). cbn [mbind option_bind].
  change (negb (is_separator "-"%char)) with false. cbn iota.
  pose proof (parseDoubleDigit_spec (ds ++ ["-"%char]) m ("-"%char :: pair_of d ++ rest) Hm) as Hpm. rewrite <-app_assoc in Hpm. cbn [app] in Hpm. fold buf in Hpm.
  rewrite length_app in Hpm. cbn [length] in Hpm. rewrite Nat.add_1_r in Hpm. rewrite Hpm. cbn [mbind option_bind].
  rewrite decide_False by lia.
  assert (buf !! (S (length ds) + 2)%nat = Some "-"%char) as ->.
  { unfold buf. rewrite lookup_app_r by lia. replace (S (length ds) + 2 - length ds)%nat with 3%nat by lia. done. }
  cbn [mbind option_bind]. rewrite decide_False by (intros H; by apply H).
  pose proof (parseDoubleDigit_spec (ds ++ "-"%char :: pair_of m ++ ["-"%char]) d rest Hd) as Hpd.
  rewrite length_app, <-app_assoc in Hpd. cbn [app length] in Hpd. rewrite <-app_assoc in Hpd. cbn [app] in Hpd. fold buf in Hpd.
  rewrite length_app in Hpd. cbn [length] in Hpd. change (length (pair_of m)) with 2%nat in Hpd.
  replace (S (S (length ds) + 2)) with (length ds + S (2 + 1))%nat by lia. rewrite Hpd. cbn [mbind option_bind].
  replace (length ds + S (2 + 1) + 2)%nat with (length ds + 6)%nat by lia. done.
Qed.

Lemma dec_value_zeros k l : dec_value 0 (replicate k "0"%char ++ l) = dec_value 0 l.
Proof. induction k as [|k IH]; [done|]. exact IH. Qed.

Lemma year_length_fits y : 1 ≤ y ≤ MAX_YEAR → let '(len, yearLength, year, addBC) := date_Length y in
  len = (6 + yearLength)%nat ∧ year = y ∧ addBC = false ∧ (length (FormatUnsigned y []) ≤ yearLength)%nat.
Proof.
  intros Hy. unfold date_Length. destruct (Z.leb_spec y 0); [lia|]. split_and!; try done. unfold MAX_YEAR in Hy.
  pose proof (FormatUnsigned_spec y ltac:(lia)) as Hn. destruct (Z.leb_spec 10000 y), (Z.leb_spec 100000 y); cbn [Nat.b2n]; try lia.
  - pose proof (numeral_length _ _ 5 Hn ltac:(change (10 ^ Z.of_nat 6) with 1000000; lia)). lia.
  - pose proof (numeral_length _ _ 4 Hn ltac:(change (10 ^ Z.of_nat 5) with 100000; lia)). lia.
  - pose proof (numeral_length _ _ 3 Hn ltac:(change (10 ^ Z.of_nat 4) with 10000; lia)). lia.
Qed.

Lemma date_toString_spec n y m d : convert n = Ret (y, m, d) → 1 ≤ y →
  ∃ ds, date_toString n = Ret (ds ++ "-"%char :: pair_of m ++ "-"%char :: pair_of d) ∧ all_digits ds ∧ dec_value 0 ds = y ∧ ds ≠ [] ∧ (4 ≤ length ds)%nat.
Proof.
  intros Hc Hy1. destruct (convert_inv n y m d Hc) as (Hy & [Hm Hd] & _). unfold in_years, MIN_YEAR in Hy.
  destruct (month_start_bounds (leap y) m Hm) as (_ & Hml & _).
  unfold date_toString. rewrite Hc. cbn [mbind Res_bind]. pose proof (year_length_fits y ltac:(lia)) as Hl.
  assert (4 ≤ (date_Length y).1.1.2)%nat as H4 by (unfold date_Length; destruct (y <=? 0); simpl; lia).
  destruct (date_Length y) as [[[len yl] y'] bc]. destruct Hl as (-> & -> & -> & Hl). simpl in H4.
  unfold date_Format, pad_zeros. rewrite decide_True by done. cbn [mbind Res_bind]. rewrite !two_digits_spec by lia. rewrite app_nil_r.
  destruct (FormatUnsigned_spec y ltac:(unfold MAX_YEAR in Hy; lia)) as (Hds & Hdv & Hl1 & _).
  set (ds := replicate (yl - length (FormatUnsigned y [])) "0"%char ++ FormatUnsigned y []).
  assert (length ds = yl) as Hlen by (unfold ds; rewrite length_app, length_replicate; lia).
  exists ds. split_and!.
  - f_equal. apply take_ge. rewrite length_app, Hlen. simpl. lia.
  - unfold ds. apply Forall_app. split; [|done]. by apply Forall_replicate.
  - unfold ds. by rewrite dec_value_zeros.
  - intros E. rewrite E in Hlen. simpl in Hlen. lia.
  - lia.
Qed.

(** Printing a date of the years 1 to 294247 and reading the string back returns the date:
    [Date::fromCString] inverts [Date::toString]. *)
Theorem date_string_roundtrip n y m d :
  convert n = Ret (y, m, d) → 1 ≤ y → ∃ s, date_toString n = Ret s ∧ date_fromCString s = Ret n.
Proof.
  intros Hc Hy1. destruct (convert_inv n y m d Hc) as (Hy & Hv & Hn). destruct (date_toString_spec n y m d Hc Hy1) as (ds & -> & Hds & Hdv & Hne & _).
  eexists. split; [done|]. unfold date_fromCString. pose proof Hv as [Hm Hd]. destruct (month_start_bounds (leap y) m Hm) as (_ & Hml & _).
  pose proof (tryConvertDate_spec ds y m d [] false Hds Hdv Hne ltac:(unfold in_years in Hy; lia) ltac:(lia) ltac:(lia)) as Ht. rewrite app_nil_r in Ht.
  set (buf := ds ++ _) in *. cbv zeta in Ht. assert (length ds + 6 = length buf)%nat as E by (unfold buf; rewrite length_app; done).
  rewrite E, skip_end, Nat.ltb_irrefl, fromDate_spec, decide_True in Ht by done. cbn [andb] in Ht. by rewrite Ht, Hn.
Qed.
