(* ===== verification/Timestamp.v ===== *)
(** Times of day, timestamps and intervals ([src/src/common/types/dtime_t.cpp],
    [src/src/common/types/timestamp_t.cpp], [src/src/common/types/interval_t.cpp], and the time
    and interval formats of [src/src/include/common/types/cast_helpers.h]). A time and a timestamp
    are numbers of microseconds, signed 64-bit numbers. *)

From Stdlib Require Import Ascii.
From S2P Require Import Prelude Date.

#[local] Open Scope Z_scope.

Definition dtime_t := Z.
Definition timestamp_t := Z.

(** ** Times of day *)

Definition time_isValid (hour minute second microseconds : Z) : bool :=
  negb ((hour >? 23) || (hour <? 0) || (minute >? 59) || (minute <? 0) || (second >? 59) || (second <? 0)
    || (microseconds >? 999999) || (microseconds <? 0)).

Definition fromTimeInternal (hour minute second microseconds : Z) : dtime_t :=
  let result := hour in
  let result := i64 (result * 60 + minute) in
  let result := i64 (result * 60 + second) in
  i64 (result * MICROS_PER_SEC + microseconds).

Definition fromTime (hour minute second microseconds : Z) : Res dtime_t :=
  if negb (time_isValid hour minute second microseconds) then Throw ConversionException
  else Ret (fromTimeInternal hour minute second microseconds).

(** [Time::convert]: hour, minute, second and microsecond. *)
Definition time_convert (dtime : dtime_t) : Res (Z * Z * Z * Z) :=
  let hour := i32 (Z.quot dtime MICROS_PER_HOUR) in
  let time := i64 (dtime - hour * MICROS_PER_HOUR) in
  let min := i32 (Z.quot time MICROS_PER_MINUTE) in
  let time := i64 (time - min * MICROS_PER_MINUTE) in
  let sec := i32 (Z.quot time MICROS_PER_SEC) in
  let time := i64 (time - sec * MICROS_PER_SEC) in
  let micros := i32 time in
  _ ← ku_assert (time_isValid hour min sec micros);
  Ret (hour, min, sec, micros).

(** The loop over the digits of the hour, of which at most nine are allowed. *)
Fixpoint parse_hour (fuel : nat) (buf : list ascii) (pos : nat) (digits hour : Z) : option (Z * nat) :=
  match fuel, buf !! pos with
  | S fuel, Some c =>
      if CharacterIsDigit c then
        if digits >? 0 then parse_hour fuel buf (S pos) (digits - 1) (hour * 10 + digit_val c) else None
      else Some (hour, pos)
  | _, _ => Some (hour, pos)
  end.

(** The loop over the digits of a fraction of a second. *)
Fixpoint parse_fraction (fuel : nat) (buf : list ascii) (pos : nat) (mult micros : Z) : Z * nat :=
  match fuel, buf !! pos with
  | S fuel, Some c =>
      if CharacterIsDigit c
      then parse_fraction fuel buf (S pos) (Z.quot mult 10) (if mult >? 0 then micros + digit_val c * mult else micros)
      else (micros, pos)
  | _, _ => (micros, pos)
  end.

(** [tryConvertInternal]: the time and the position after it. *)
Definition tryConvertInternal (buf : list ascii) : option (dtime_t * nat) :=
  let len := length buf in
  let pos := skip_spaces len buf 0 in
  c ← buf !! pos;
  if negb (CharacterIsDigit c) then None
  else
    '(hour, pos) ← parse_hour len buf pos 9 0;
    sep ← buf !! pos;
    if decide (sep ≠ ":"%char) then None
    else
      '(min, pos) ← parseDoubleDigit buf (S pos);
      if (min <? 0) || (min >=? 60) then None
      else
        c ← buf !! pos;
        if decide (c ≠ sep) then None
        else
          '(sec, pos) ← parseDoubleDigit buf (S pos);
          if (sec <? 0) || (sec >=? 60) then None
          else
            let '(micros, pos) :=
              if decide (buf !! pos = Some "."%char) then parse_fraction len buf (S pos) 100000 0 else (0, pos) in
            Some (fromTimeInternal hour min sec micros, pos).

Definition tryConvertInterval (buf : list ascii) : option dtime_t :=
  '(result, pos) ← tryConvertInternal buf;
  if decide (skip_spaces (length buf) buf pos < length buf)%nat then None else Some result.

Definition tryConvertTime (buf : list ascii) : option (dtime_t * nat) :=
  '(result, pos) ← tryConvertInternal buf;
  if result <? MICROS_PER_DAY then Some (result, pos) else None.

Definition time_fromCString (buf : list ascii) : Res dtime_t :=
  match tryConvertTime buf with Some (t, _) => Ret t | None => Throw ConversionException end.

(** [FormatMicros]: six digits, and the number of zeros at the end. *)
Fixpoint trailing_zeros (l : list ascii) : nat :=
  match l with c :: l => if decide (c = "0"%char) then S (trailing_zeros l) else O | [] => O end.

Definition FormatMicros (microseconds : Z) : Res (list ascii * nat) :=
  micro_buffer ← pad_zeros 6 (FormatUnsigned microseconds []);
  Ret (micro_buffer, trailing_zeros (take 5 (reverse micro_buffer))).

(** [TimeToStringCast::Length] and [Format]. *)
Definition time_format (hour min sec micros : Z) : Res (list ascii) :=
  let data := two_digits hour ++ ":"%char :: two_digits min ++ ":"%char :: two_digits sec in
  if micros =? 0 then Ret data
  else
    '(micro_buffer, zeros) ← FormatMicros micros;
    let length := (15 - zeros)%nat in
    Ret (data ++ if decide (8 < length)%nat then "."%char :: take (length - 9) micro_buffer else []).

Definition time_toString (time : dtime_t) : Res (list ascii) :=
  '(hour, min, sec, micros) ← time_convert time; time_format hour min sec micros.

(** ** Timestamps *)

Definition getDate (timestamp : timestamp_t) : date_t :=
  let neg := Z.b2z (timestamp <? 0) in i32 (Z.quot (timestamp + neg) MICROS_PER_DAY - neg).

Definition getTime (timestamp : timestamp_t) : dtime_t :=
  i64 (timestamp - i64 (getDate timestamp * MICROS_PER_DAY)).

(** The calls of [Date::convert] and [Time::convert] check their arguments. *)
Definition fromDateTime (date : date_t) (time : dtime_t) : Res timestamp_t :=
  _ ← convert date;
  _ ← time_convert time;
  Ret (i64 (i64 (date * MICROS_PER_DAY) + time)).

Definition timestamp_plus_interval (ts : timestamp_t) (interval : interval_t) : Res timestamp_t :=
  let time := getTime ts in
  date ← date_plus_interval (getDate ts) interval;
  let diff := micros interval - Z.quot (micros interval) MICROS_PER_DAY * MICROS_PER_DAY in
  let time := time + diff in
  if time >=? MICROS_PER_DAY then fromDateTime (i32 (date + 1)) (time - MICROS_PER_DAY)
  else if time <? 0 then fromDateTime (i32 (date - 1)) (time + MICROS_PER_DAY)
  else fromDateTime date time.

Definition timestamp_minus_interval (ts : timestamp_t) (interval : interval_t) : Res timestamp_t :=
  timestamp_plus_interval ts (inverse interval).

Definition timestamp_minus_timestamp (value rhs : timestamp_t) : interval_t :=
  let diff := u64 (Z.abs (i64 (value - rhs))) in
  let d := i32 (Z.quot diff MICROS_PER_DAY) in
  let m := Z.rem diff MICROS_PER_DAY in
  if value <? rhs then mkInterval 0 (i32 (- d)) (- m) else mkInterval 0 d m.

(** The comparisons of a date with a timestamp. *)
Definition date_eq_timestamp (date : date_t) (ts : timestamp_t) : Res bool := v ← fromDateTime date 0; Ret (v =? ts).
Definition date_lt_timestamp (date : date_t) (ts : timestamp_t) : Res bool := v ← fromDateTime date 0; Ret (v <? ts).
Definition date_le_timestamp (date : date_t) (ts : timestamp_t) : Res bool :=
  lt ← date_lt_timestamp date ts; eq ← date_eq_timestamp date ts; Ret (lt || eq).
Definition date_gt_timestamp (date : date_t) (ts : timestamp_t) : Res bool := le ← date_le_timestamp date ts; Ret (negb le).
Definition date_ge_timestamp (date : date_t) (ts : timestamp_t) : Res bool := lt ← date_lt_timestamp date ts; Ret (negb lt).

Definition timestamp_eq_date (ts : timestamp_t) (date : date_t) : Res bool := date_eq_timestamp date ts.
Definition timestamp_lt_date (ts : timestamp_t) (date : date_t) : Res bool := date_gt_timestamp date ts.
Definition timestamp_le_date (ts : timestamp_t) (date : date_t) : Res bool := date_ge_timestamp date ts.
Definition timestamp_gt_date (ts : timestamp_t) (date : date_t) : Res bool := date_lt_timestamp date ts.
Definition timestamp_ge_date (ts : timestamp_t) (date : date_t) : Res bool := date_le_timestamp date ts.

(** [tryParseUTCOffset]: the hours, the minutes and the new position. *)
Definition digit_pair (str : list ascii) (pos : nat) : option Z :=
  c ← str !! pos; c' ← str !! S pos;
  if CharacterIsDigit c && CharacterIsDigit c' then Some (digit_val c * 10 + digit_val c') else None.

Definition tryParseUTCOffset (str : list ascii) (pos : nat) : option (Z * Z * nat) :=
  if decide (length str < pos + 3)%nat then None
  else
    sign_char ← str !! pos;
    if decide (sign_char ≠ "+"%char ∧ sign_char ≠ "-"%char) then None
    else
      h ← digit_pair str (S pos);
      let sign := if decide (sign_char = "-"%char) then -1 else 1 in
      let curpos := (pos + 3)%nat in
      match str !! curpos with
      | None => Some (sign * h, 0, curpos)
      | Some c =>
          let curpos := if decide (c = ":"%char) then S curpos else curpos in
          match digit_pair str curpos with
          | None => Some (sign * h, 0, curpos)
          | Some m => Some (sign * h, sign * m, (curpos + 2)%nat)
          end
      end.

(** [tryConvertTimestamp]: [Ret None] is the result [false]; [fromDateTime] can throw. *)
Definition tryConvertTimestamp (str : list ascii) : Res (option timestamp_t) :=
  match tryConvertDate str 0 true with
  | None => Ret None
  | Some (date, pos) =>
      if decide (pos = length str) then result ← fromDateTime date 0; Ret (Some result)
      else
        let pos := if decide (str !! pos = Some " "%char ∨ str !! pos = Some "T"%char) then S pos else pos in
        match tryConvertTime (drop pos str) with
        | None => Ret None
        | Some (time, time_pos) =>
            let pos := (pos + time_pos)%nat in
            result ← fromDateTime date time;
            if decide (pos < length str)%nat then
              let pos := if decide (str !! pos = Some "Z"%char) then S pos else pos in
              let '(result, pos) :=
                match tryParseUTCOffset str pos with
                | Some (hour_offset, minute_offset, pos) =>
                    (i64 (result - (hour_offset * MICROS_PER_HOUR + minute_offset * MICROS_PER_MINUTE)), pos)
                | None => (result, pos)
                end in
              if decide (skip_spaces (length str) str pos < length str)%nat then Ret None else Ret (Some result)
            else Ret (Some result)
        end
  end.

Definition timestamp_fromCString (str : list ascii) : Res timestamp_t :=
  r ← tryConvertTimestamp str;
  match r with Some v => Ret v | None => Throw ConversionException end.

Definition timestamp_toString (ts : timestamp_t) : Res (list ascii) :=
  d ← date_toString (getDate ts);
  t ← time_toString (getTime ts);
  Ret (d ++ " "%char :: t).

(** The conversions from epochs. The multiplications are not the checked ones of the arithmetic
    functions: those are specialised for non-constant operands, and a factor here is constant. *)
Definition fromEpochMicroSeconds (micros : Z) : timestamp_t := micros.
Definition fromEpochMilliSeconds (ms : Z) : timestamp_t := fromEpochMicroSeconds (i64 (ms * MICROS_PER_MSEC)).
Definition fromEpochSeconds (sec : Z) : timestamp_t := fromEpochMicroSeconds (i64 (sec * MICROS_PER_SEC)).
Definition fromEpochNanoSeconds (ns : Z) : timestamp_t := fromEpochMicroSeconds (Z.quot ns 1000).
Definition getEpochNanoSeconds (ts : timestamp_t) : Z := i64 (ts * NANOS_PER_MICRO).
Definition getEpochMilliSeconds (ts : timestamp_t) : Z := Z.quot ts MICROS_PER_MSEC.
Definition getEpochSeconds (ts : timestamp_t) : Z := Z.quot ts MICROS_PER_SEC.

Definition getTimestampPart (specifier : DatePartSpecifier) (ts : timestamp_t) : Res Z :=
  let micros := i32 (Z.rem (getTime ts) MICROS_PER_MINUTE) in
  match specifier with
  | MICROSECOND => Ret micros
  | MILLISECOND => Ret (Z.quot micros MICROS_PER_MSEC)
  | SECOND => Ret (Z.quot micros MICROS_PER_SEC)
  | MINUTE => Ret (i32 (Z.quot (Z.rem (getTime ts) MICROS_PER_HOUR) MICROS_PER_MINUTE))
  | HOUR => Ret (i32 (Z.quot (getTime ts) MICROS_PER_HOUR))
  | _ => getDatePart specifier (getDate ts)
  end.

Definition timestamp_trunc (specifier : DatePartSpecifier) (ts : timestamp_t) : Res timestamp_t :=
  let date := getDate ts in
  '(hour, min, sec, micros) ← time_convert (getTime ts);
  match specifier with
  | MICROSECOND => Ret ts
  | MILLISECOND => t ← fromTime hour min sec (micros - Z.rem micros MICROS_PER_MSEC); fromDateTime date t
  | SECOND => t ← fromTime hour min sec 0; fromDateTime date t
  | MINUTE => t ← fromTime hour min 0 0; fromDateTime date t
  | HOUR => t ← fromTime hour 0 0 0; fromDateTime date t
  | _ => d ← trunc specifier date; fromDateTime d 0
  end.

(** ** Splitting and joining *)

Ltac unfold_micros := unfold MICROS_PER_MONTH, MICROS_PER_DAY, MICROS_PER_HOUR, MICROS_PER_MINUTE, MICROS_PER_SEC, MICROS_PER_MSEC in *.

Lemma floor_by_quot v k : 0 < k → Z.quot (v + Z.b2z (v <? 0)) k - Z.b2z (v <? 0) = v / k.
Proof.
  intros Hk. destruct (Z.ltb_spec v 0); cbn [Z.b2z]; [|by rewrite Z.add_0_r, Z.sub_0_r, Z.quot_div_nonneg by lia].
  replace (v + 1) with (- (- v - 1)) by lia. rewrite Z.quot_opp_l, Z.quot_div_nonneg by lia.
  pose proof (Z.div_mod (- v - 1) k ltac:(lia)). pose proof (Z.mod_pos_bound (- v - 1) k ltac:(lia)).
  apply Z.div_unique_pos with (k - 1 - (- v - 1) `mod` k); lia.
Qed.

Lemma day_range v : - 2 ^ 63 ≤ v < 2 ^ 63 → - 2 ^ 31 ≤ v / MICROS_PER_DAY < 2 ^ 31.
Proof.
  intros Hv. unfold_micros. split; [apply Z.div_le_lower_bound; lia|apply Z.div_lt_upper_bound; lia].
Qed.

Lemma getDate_spec v : - 2 ^ 63 ≤ v < 2 ^ 63 → getDate v = v / MICROS_PER_DAY.
Proof. intros Hv. unfold getDate. cbv zeta. rewrite floor_by_quot by done. by apply i32_id, day_range. Qed.

Lemma i64_minus_r x y : i64 (x - i64 y) = i64 (x - y).
Proof.
  unfold i64. f_equal. replace (x - ((y + 2 ^ 63) `mod` 2 ^ 64 - 2 ^ 63) + 2 ^ 63) with (x + 2 ^ 64 - (y + 2 ^ 63) `mod` 2 ^ 64) by lia.
  rewrite Zminus_mod_idemp_r. replace (x + 2 ^ 64 - (y + 2 ^ 63)) with (x - y + 2 ^ 63) by lia. done.
Qed.

Lemma i32_minus x y : i32 (i32 x - y) = i32 (x - y).
Proof. apply (i32_plus x (- y)). Qed.

Lemma getTime_spec v : - 2 ^ 63 ≤ v < 2 ^ 63 → getTime v = v `mod` MICROS_PER_DAY.
Proof.
  intros Hv. unfold getTime. rewrite getDate_spec, i64_minus_r, (Z.mul_comm (v / MICROS_PER_DAY)), <-Z.mod_eq by done.
  pose proof (Z.mod_pos_bound v MICROS_PER_DAY ltac:(done)). apply i64_id. unfold_micros. lia.
Qed.

Lemma mod_nested t k c : 0 < k → 0 < c → t `mod` (k * c) - t `mod` (k * c) / k * k = t `mod` k.
Proof.
  intros Hk Hc. rewrite Z.rem_mul_r by lia. pose proof (Z.mod_pos_bound t k Hk).
  rewrite (Z.mul_comm k), Z.div_add, (Z.div_small (t `mod` k)) by lia. lia.
Qed.

(** One step of [Time::convert]: the number of units in a part of a time, and what is left. *)
Lemma time_unit t k c : 0 < k → 0 < c < 2 ^ 31 → k * c < 2 ^ 63 →
  let u := t `mod` (k * c) in
  0 ≤ u / k < c ∧ i32 (Z.quot u k) = u / k ∧ i64 (u - u / k * k) = t `mod` k.
Proof.
  intros Hk Hc Hb u. pose proof (Z.mod_pos_bound t (k * c) ltac:(nia)) as Hu. fold u in Hu.
  assert (0 ≤ u / k < c) as Hq by (split; [apply Z.div_pos; lia|apply Z.div_lt_upper_bound; lia]).
  split; [done|]. split; [rewrite Z.quot_div_nonneg by lia; apply i32_id; lia|].
  unfold u. rewrite mod_nested by lia. pose proof (Z.mod_pos_bound t k Hk). apply i64_id. nia.
Qed.

(** The hour, minute, second and microsecond of a time of day. *)
Lemma time_convert_spec t : 0 ≤ t < MICROS_PER_DAY →
  time_convert t = Ret (t / MICROS_PER_HOUR, t `mod` MICROS_PER_HOUR / MICROS_PER_MINUTE, t `mod` MICROS_PER_MINUTE / MICROS_PER_SEC, t `mod` MICROS_PER_SEC).
Proof.
  intros Ht. unfold time_convert. cbv zeta.
  destruct (time_unit t MICROS_PER_HOUR 24 ltac:(done) ltac:(lia) ltac:(done)) as (Hh & Eh & Rh).
  rewrite (Z.mod_small t (MICROS_PER_HOUR * 24)) in Hh, Eh, Rh by done. rewrite Eh, Rh.
  destruct (time_unit t MICROS_PER_MINUTE 60 ltac:(done) ltac:(lia) ltac:(done)) as (Hm & Em & Rm).
  change (MICROS_PER_MINUTE * 60) with MICROS_PER_HOUR in *. rewrite Em, Rm.
  destruct (time_unit t MICROS_PER_SEC 60 ltac:(done) ltac:(lia) ltac:(done)) as (Hs & Es & Rs).
  change (MICROS_PER_SEC * 60) with MICROS_PER_MINUTE in *. rewrite Es, Rs.
  pose proof (Z.mod_pos_bound t MICROS_PER_SEC ltac:(done)) as Hu. unfold MICROS_PER_SEC at 3, MICROS_PER_MSEC in Hu.
  rewrite (i32_id (t `mod` MICROS_PER_SEC)) by lia. unfold time_isValid, ku_assert. rewrite !Z.gtb_ltb.
  repeat match goal with |- context [?a <? ?b] => destruct (Z.ltb_spec a b); [exfalso; lia|] end. done.
Qed.

Lemma fromDateTime_spec d t : 0 ≤ t < MICROS_PER_DAY → fromDateTime d t = (_ ← convert d; Ret (i64 (d * MICROS_PER_DAY + t))).
Proof.
  intros Ht. unfold fromDateTime. rewrite time_convert_spec by done. cbn [mbind Res_bind]. rewrite i64_plus. done.
Qed.

Lemma day_and_time v : v = v / MICROS_PER_DAY * MICROS_PER_DAY + v `mod` MICROS_PER_DAY ∧ 0 ≤ v `mod` MICROS_PER_DAY < MICROS_PER_DAY.
Proof.
  pose proof (Z.div_mod v MICROS_PER_DAY ltac:(done)). pose proof (Z.mod_pos_bound v MICROS_PER_DAY ltac:(done)). lia.
Qed.

(** A timestamp is split into the day it falls on, counted towards the past for a negative
    one, and the microseconds since the start of that day; [Timestamp::fromDateTime] puts the two
    parts together again and refuses the days outside the supported years. Conversely the parts of
    a timestamp made from a date and a time of day are these, as long as it fits in 64 bits. *)
Theorem timestamp_parts_roundtrip v d t :
  - 2 ^ 63 ≤ v < 2 ^ 63 → 0 ≤ t < MICROS_PER_DAY → - 2 ^ 63 ≤ d * MICROS_PER_DAY + t < 2 ^ 63 →
  getDate v = v / MICROS_PER_DAY ∧ getTime v = v `mod` MICROS_PER_DAY ∧
  fromDateTime (getDate v) (getTime v) = (_ ← convert (v / MICROS_PER_DAY); Ret v) ∧
  (fromDateTime d t = Ret v → getDate v = d ∧ getTime v = t).
Proof.
  intros Hv Ht Hdt. destruct (day_and_time v) as [Ev Hr]. rewrite getDate_spec, getTime_spec, !fromDateTime_spec, <-Ev, (i64_id v) by done.
  split_and!; [done..|]. destruct (convert d); [|done]. cbn [mbind Res_bind]. rewrite i64_id by done. intros [= <-].
  by apply divmod_unique; [|lia].
Qed.

(** The last supported days do not fit in a timestamp: it wraps around. *)
Theorem fromDateTime_wraps_around : ∃ d v, convert d = Ret (294247, 12, 31) ∧ fromDateTime d 0 = Ret v ∧ v < 0.
Proof. exists 106752346, (i64 (106752346 * MICROS_PER_DAY)). by_eval. Qed.

(** ** Intervals added to timestamps *)

(** The day and the time [micros] after a moment of a day. *)
Lemma carry_day b t us : 0 ≤ t < MICROS_PER_DAY →
  let time := t + (us - Z.quot us MICROS_PER_DAY * MICROS_PER_DAY) in
  let day := b + Z.quot us MICROS_PER_DAY in
  let total := b * MICROS_PER_DAY + t + us in
  (if time >=? MICROS_PER_DAY then (day + 1, time - MICROS_PER_DAY) else if time <? 0 then (day - 1, time + MICROS_PER_DAY) else (day, time))
  = (total / MICROS_PER_DAY, total `mod` MICROS_PER_DAY).
Proof.
  intros Ht time day total. pose proof (Z.quot_rem us MICROS_PER_DAY ltac:(done)) as Hq.
  assert (Z.abs (Z.rem us MICROS_PER_DAY) < MICROS_PER_DAY) as Hr by (apply (Z.rem_bound_abs us MICROS_PER_DAY); done).
  set (q := Z.quot us MICROS_PER_DAY) in *. set (r := Z.rem us MICROS_PER_DAY) in *. rewrite Z.geb_leb.
  destruct (Z.leb_spec MICROS_PER_DAY time); [|destruct (Z.ltb_spec time 0)].
  - destruct (divmod_unique total MICROS_PER_DAY (day + 1) (time - MICROS_PER_DAY)) as [-> ->]; [unfold time; lia|unfold total, day, time; lia|done].
  - destruct (divmod_unique total MICROS_PER_DAY (day - 1) (time + MICROS_PER_DAY)) as [-> ->]; [unfold time; lia|unfold total, day, time; lia|done].
  - destruct (divmod_unique total MICROS_PER_DAY day time) as [-> ->]; [unfold time; lia|unfold total, day, time; lia|done].
Qed.

Lemma timestamp_plus_interval_spec v iv :
  - 2 ^ 63 ≤ v < 2 ^ 63 → - 2 ^ 31 ≤ months iv < 2 ^ 31 →
  timestamp_plus_interval v iv =
    (b ← months_later (v / MICROS_PER_DAY) (months iv);
     let total := (b + days iv) * MICROS_PER_DAY + v `mod` MICROS_PER_DAY + micros iv in
     let day := i32 (total / MICROS_PER_DAY) in
     _ ← convert day; Ret (i64 (day * MICROS_PER_DAY + total `mod` MICROS_PER_DAY))).
Proof.
  intros Hv Hm. unfold timestamp_plus_interval. cbv zeta. rewrite getDate_spec, getTime_spec by done.
  rewrite date_plus_interval_spec by (done || by apply day_range). destruct (months_later (v / MICROS_PER_DAY) (months iv)) as [b|]; [|done].
  cbn [mbind Res_bind]. destruct (day_and_time v) as [_ Hr]. pose proof (carry_day (b + days iv) _ (micros iv) Hr) as Hc. cbv zeta in Hc.
  set (total := (b + days iv) * MICROS_PER_DAY + v `mod` MICROS_PER_DAY + micros iv) in *.
  set (time := v `mod` MICROS_PER_DAY + (micros iv - Z.quot (micros iv) MICROS_PER_DAY * MICROS_PER_DAY)) in *.
  destruct (day_and_time total) as [_ Ht].
  destruct (time >=? MICROS_PER_DAY); [|destruct (time <? 0)]; injection Hc as <- Et; rewrite <-Et in Ht |- *.
  - rewrite i32_plus. by rewrite fromDateTime_spec by done.
  - rewrite i32_minus. by rewrite fromDateTime_spec by done.
  - by rewrite fromDateTime_spec by done.
Qed.

(** Adding an interval to a timestamp moves its day by the months first, to the same day of
    the month or the last day of a shorter one, and then the moment by the days and by the exact
    number of microseconds, with a carry into the day; a result outside the supported years fails,
    and the 32-bit day wraps around. *)
Theorem timestamp_plus_interval_exact v iv :
  - 2 ^ 63 ≤ v < 2 ^ 63 → - 2 ^ 31 ≤ months iv < 2 ^ 31 →
  timestamp_plus_interval v iv =
    (b ← months_later (v / MICROS_PER_DAY) (months iv);
     let total := (b + days iv) * MICROS_PER_DAY + v `mod` MICROS_PER_DAY + micros iv in
     let day := i32 (total / MICROS_PER_DAY) in
     _ ← convert day; Ret (i64 (day * MICROS_PER_DAY + total `mod` MICROS_PER_DAY))).
Proof. apply timestamp_plus_interval_spec. Qed.

Lemma timestamp_minus_spec a b : - 2 ^ 63 < a - b < 2 ^ 63 →
  timestamp_minus_timestamp a b = mkInterval 0 (Z.quot (a - b) MICROS_PER_DAY) (Z.rem (a - b) MICROS_PER_DAY).
Proof.
  intros Hab. unfold timestamp_minus_timestamp. cbv zeta. rewrite i64_id by lia. rewrite u64_id by lia.
  assert (0 ≤ Z.quot (Z.abs (a - b)) MICROS_PER_DAY < 2 ^ 31) as Hq.
  { rewrite Z.quot_div_nonneg by (unfold_micros; lia). unfold_micros. split; [apply Z.div_pos; lia|apply Z.div_lt_upper_bound; lia]. }
  rewrite (i32_id (Z.quot _ _)) by lia. destruct (Z.ltb_spec a b); [|by rewrite Z.abs_eq by lia].
  rewrite i32_id by lia. rewrite Z.abs_neq in * by lia. rewrite Z.quot_opp_l, Z.rem_opp_l by done. f_equal; lia.
Qed.

(** The difference of two timestamps has the whole days and the rest of the difference in
    microseconds, both with its sign, and adding it to the second timestamp returns the first:
    [operator-] and [operator+] of timestamps are inverse within the supported years. *)
Theorem timestamp_difference_roundtrip a b :
  - 2 ^ 63 ≤ a < 2 ^ 63 → - 2 ^ 63 ≤ b < 2 ^ 63 → - 2 ^ 63 < a - b < 2 ^ 63 →
  timestamp_minus_timestamp a b = mkInterval 0 (Z.quot (a - b) MICROS_PER_DAY) (Z.rem (a - b) MICROS_PER_DAY) ∧
  timestamp_plus_interval b (timestamp_minus_timestamp a b) = (_ ← convert (a / MICROS_PER_DAY); Ret a).
Proof.
  intros Ha Hb Hab. rewrite timestamp_minus_spec by done. split; [done|]. rewrite timestamp_plus_interval_spec by (done || simpl; lia).
  cbn [months days micros]. unfold months_later. rewrite decide_True by done. cbn [mbind Res_bind].
  destruct (day_and_time b) as [Eb _], (day_and_time a) as [Ea _]. pose proof (Z.quot_rem (a - b) MICROS_PER_DAY ltac:(done)) as Hq.
  replace ((b / MICROS_PER_DAY + Z.quot (a - b) MICROS_PER_DAY) * MICROS_PER_DAY + b `mod` MICROS_PER_DAY + Z.rem (a - b) MICROS_PER_DAY) with a by lia.
  cbv zeta. rewrite i32_id by (by apply day_range). rewrite <-Ea, i64_id by done. done.
Qed.

(** ** Parts and truncation *)

Lemma fromTimeInternal_spec h m s us : 0 ≤ h < 10 ^ 9 → 0 ≤ m < 60 → 0 ≤ s < 60 → 0 ≤ us < 1000000 →
  fromTimeInternal h m s us = h * MICROS_PER_HOUR + m * MICROS_PER_MINUTE + s * MICROS_PER_SEC + us.
Proof.
  intros Hh Hm Hs Hus. change (10 ^ 9) with 1000000000 in Hh. unfold fromTimeInternal. unfold_micros. rewrite (i64_id (h * 60 + m)) by lia.
  rewrite (i64_id ((h * 60 + m) * 60 + s)) by lia. rewrite i64_id by lia. lia.
Qed.

Lemma fromTime_spec h m s us : 0 ≤ h < 24 → 0 ≤ m < 60 → 0 ≤ s < 60 → 0 ≤ us < 1000000 →
  fromTime h m s us = Ret (h * MICROS_PER_HOUR + m * MICROS_PER_MINUTE + s * MICROS_PER_SEC + us).
Proof.
  intros Hh Hm Hs Hus. unfold fromTime. rewrite fromTimeInternal_spec by (change (10 ^ 9) with 1000000000; lia). unfold time_isValid. rewrite !Z.gtb_ltb.
  repeat match goal with |- context [?a <? ?b] => destruct (Z.ltb_spec a b); [exfalso; lia|] end. done.
Qed.

(** The parts of a time add up. *)
Lemma clock_parts t :
  let m := t `mod` MICROS_PER_HOUR / MICROS_PER_MINUTE in
  let s := t `mod` MICROS_PER_MINUTE / MICROS_PER_SEC in
  0 ≤ m < 60 ∧ 0 ≤ s < 60 ∧ 0 ≤ t `mod` MICROS_PER_SEC < 1000000 ∧
  t = t / MICROS_PER_HOUR * MICROS_PER_HOUR + t `mod` MICROS_PER_HOUR ∧
  t `mod` MICROS_PER_HOUR = m * MICROS_PER_MINUTE + t `mod` MICROS_PER_MINUTE ∧
  t `mod` MICROS_PER_MINUTE = s * MICROS_PER_SEC + t `mod` MICROS_PER_SEC.
Proof.
  intros m s. pose proof (Z.div_mod t MICROS_PER_HOUR ltac:(done)) as E1.
  pose proof (mod_nested t MICROS_PER_MINUTE 60 ltac:(done) ltac:(lia)) as E2. change (MICROS_PER_MINUTE * 60) with MICROS_PER_HOUR in E2.
  pose proof (mod_nested t MICROS_PER_SEC 60 ltac:(done) ltac:(lia)) as E3. change (MICROS_PER_SEC * 60) with MICROS_PER_MINUTE in E3.
  destruct (time_unit t MICROS_PER_MINUTE 60 ltac:(done) ltac:(lia) ltac:(done)) as [Hm _].
  destruct (time_unit t MICROS_PER_SEC 60 ltac:(done) ltac:(lia) ltac:(done)) as [Hs _].
  change (MICROS_PER_MINUTE * 60) with MICROS_PER_HOUR in Hm. change (MICROS_PER_SEC * 60) with MICROS_PER_MINUTE in Hs.
  pose proof (Z.mod_pos_bound t MICROS_PER_SEC ltac:(done)) as Hu. change MICROS_PER_SEC with 1000000 in Hu at 3. unfold m, s. split_and!; lia.
Qed.

Lemma hour_range t : 0 ≤ t < MICROS_PER_DAY → 0 ≤ t / MICROS_PER_HOUR < 24.
Proof.
  intros Ht. destruct (time_unit t MICROS_PER_HOUR 24 ltac:(done) ltac:(lia) ltac:(done)) as [Hh _]. by rewrite (Z.mod_small t (MICROS_PER_HOUR * 24)) in Hh.
Qed.

Lemma mod_of_mod v k c : 0 < k → 0 < c → (v `mod` (k * c)) `mod` k = v `mod` k.
Proof. intros Hk Hc. rewrite Z.rem_mul_r, Z.mul_comm, Z.mod_add, Z.mod_mod by lia. done. Qed.

Lemma supported_day d y m dd : convert d = Ret (y, m, dd) → - 2 ^ 63 ≤ d * MICROS_PER_DAY.
Proof.
  intros Hc. destruct (convert_inv d y m dd Hc) as ([Hy _] & Hv & ->). pose proof (day_number_bounds y m dd Hv) as Hb.
  assert (year_start MIN_YEAR ≤ year_start y) by (destruct (decide (MIN_YEAR = y)) as [<-|]; [done|]; pose proof (year_start_lt MIN_YEAR y ltac:(lia)); lia).
  change (year_start MIN_YEAR) with (-106751981) in *. unfold_micros. lia.
Qed.

(** Joining the day of a timestamp with its time of day cut to a unit. *)
Lemma trunc_to v unit c : - 2 ^ 63 ≤ v < 2 ^ 63 → 0 < unit → 0 < c → MICROS_PER_DAY = unit * c →
  fromDateTime (v / MICROS_PER_DAY) (v `mod` MICROS_PER_DAY - (v `mod` MICROS_PER_DAY) `mod` unit) =
    (_ ← convert (v / MICROS_PER_DAY); Ret (v - v `mod` unit)).
Proof.
  intros Hv Hu Hc Hd. destruct (day_and_time v) as [Ev Hr]. pose proof (Z.mod_pos_bound v unit Hu) as Hm.
  assert ((v `mod` MICROS_PER_DAY) `mod` unit = v `mod` unit) as E by (rewrite Hd; by apply mod_of_mod).
  pose proof (Z.mod_le (v `mod` MICROS_PER_DAY) unit ltac:(lia) Hu) as Hle. rewrite E in Hle |- *.
  rewrite fromDateTime_spec by lia. destruct (convert (v / MICROS_PER_DAY)) as [[[y mo] d]|] eqn:Hcv; [|done]. cbn [mbind Res_bind].
  apply supported_day in Hcv. f_equal. rewrite i64_id by lia. lia.
Qed.

(** The parts of a timestamp below the day are those of its time of day, with the milliseconds
    and microseconds counted within the minute, and the other parts are those of its date;
    truncating to such a unit subtracts the remainder by the unit, also before 1970, and to a larger
    one is the truncation of the date at midnight. *)
Theorem timestamp_functions_exact v :
  - 2 ^ 63 ≤ v < 2 ^ 63 →
  let t := v `mod` MICROS_PER_DAY in
  let d := v / MICROS_PER_DAY in
  getTimestampPart HOUR v = Ret (t / MICROS_PER_HOUR) ∧
  getTimestampPart MINUTE v = Ret (t `mod` MICROS_PER_HOUR / MICROS_PER_MINUTE) ∧
  getTimestampPart SECOND v = Ret (t `mod` MICROS_PER_MINUTE / MICROS_PER_SEC) ∧
  getTimestampPart MILLISECOND v = Ret (t `mod` MICROS_PER_MINUTE / MICROS_PER_MSEC) ∧
  getTimestampPart MICROSECOND v = Ret (t `mod` MICROS_PER_MINUTE) ∧
  Forall (λ '(specifier, unit), timestamp_trunc specifier v = (_ ← convert d; Ret (v - v `mod` unit)))
    [(HOUR, MICROS_PER_HOUR); (MINUTE, MICROS_PER_MINUTE); (SECOND, MICROS_PER_SEC); (MILLISECOND, MICROS_PER_MSEC)] ∧
  timestamp_trunc MICROSECOND v = Ret v ∧
  Forall (λ specifier, getTimestampPart specifier v = getDatePart specifier d ∧
      timestamp_trunc specifier v = (b ← trunc specifier d; fromDateTime b 0))
    [YEAR; MONTH; DAY; DECADE; CENTURY; MILLENNIUM; QUARTER; WEEK].
Proof.
  intros Hv t d. destruct (day_and_time v) as [_ Ht]. pose proof (hour_range t Ht) as Hh. destruct (clock_parts t) as (Hm & Hs & Hu & E1 & E2 & E3).
  assert (0 ≤ t `mod` MICROS_PER_MINUTE < 60000000) as Hmin by (apply (Z.mod_pos_bound t MICROS_PER_MINUTE); done).
  assert ((t `mod` MICROS_PER_SEC) `mod` MICROS_PER_MSEC = t `mod` MICROS_PER_MSEC) as Ems by (by apply (mod_of_mod t MICROS_PER_MSEC 1000)).
  pose proof (Z.mod_pos_bound t MICROS_PER_MSEC ltac:(done)) as Hms. pose proof (Z.mod_le (t `mod` MICROS_PER_SEC) MICROS_PER_MSEC ltac:(lia) ltac:(done)) as Hle.
  unfold getTimestampPart, timestamp_trunc. rewrite getTime_spec, getDate_spec by done. fold t d. rewrite time_convert_spec by done.
  cbn [mbind Res_bind]. pose proof (Z.mod_pos_bound t MICROS_PER_HOUR ltac:(done)) as Hmh.
  rewrite !(Z.rem_mod_nonneg t) by (done || lia). rewrite (Z.rem_mod_nonneg (t `mod` MICROS_PER_SEC)) by (done || lia).
  rewrite (i32_id (t `mod` MICROS_PER_MINUTE)) by lia. rewrite !Z.quot_div_nonneg by (done || lia).
  rewrite (i32_id (t / MICROS_PER_HOUR)), (i32_id (t `mod` MICROS_PER_HOUR / MICROS_PER_MINUTE)) by lia.
  rewrite !fromTime_spec by lia. cbn [mbind Res_bind]. split_and!; try done.
  - repeat constructor.
    + etrans; [|by apply (trunc_to v MICROS_PER_HOUR 24 Hv)]. fold t d. f_equal. lia.
    + etrans; [|by apply (trunc_to v MICROS_PER_MINUTE 1440 Hv)]. fold t d. f_equal. lia.
    + etrans; [|by apply (trunc_to v MICROS_PER_SEC 86400 Hv)]. fold t d. f_equal. lia.
    + etrans; [|by apply (trunc_to v MICROS_PER_MSEC 86400000 Hv)]. fold t d. f_equal. lia.
  - by repeat constructor.
Qed.

(** ** Printing and reading *)

Lemma parse_hour_spec fuel pre ds c rest n hour :
  all_digits ds → CharacterIsDigit c = false → (length ds < fuel)%nat → Z.of_nat (length ds) ≤ n →
  parse_hour fuel (pre ++ ds ++ c :: rest) (length pre) n hour = Some (dec_value hour ds, (length pre + length ds)%nat).
Proof.
  intros Hds Hc. revert fuel pre n hour. induction Hds as [|x ds Hx Hds IH]; intros fuel pre n hour Hf Hn; (destruct fuel as [|fuel]; [simpl in Hf; lia|]);
    cbn [parse_hour]; rewrite lookup_app_r, Nat.sub_diag by lia; cbn [app lookup list_lookup].
  - rewrite Hc. unfold dec_value. simpl. do 2 f_equal. lia.
  - rewrite Hx. cbn [length] in *. rewrite Z.gtb_ltb. destruct (Z.ltb_spec 0 n); [|lia].
    replace (pre ++ x :: ds ++ c :: rest) with ((pre ++ [x]) ++ ds ++ c :: rest) by (by rewrite <-app_assoc).
    replace (S (length pre)) with (length (pre ++ [x])) by (rewrite length_app; simpl; lia). rewrite IH by lia.
    rewrite length_app. cbn [length]. change (dec_value hour (x :: ds)) with (dec_value (digit_val x + hour * 10) ds).
    rewrite (Z.add_comm (digit_val x)). do 2 f_equal. lia.
Qed.

(** The digits of a fraction, at most [k] of them, count in units of [10 ^ (k - length)]. *)
Lemma parse_fraction_spec fuel pre ds k us :
  all_digits ds → (length ds ≤ k)%nat → (length ds ≤ fuel)%nat →
  parse_fraction fuel (pre ++ ds) (length pre) (Z.quot (10 ^ Z.of_nat k) 10) us =
    (us + dec_value 0 ds * 10 ^ Z.of_nat (k - length ds), (length pre + length ds)%nat).
Proof.
  intros Hds. revert fuel pre k us. induction Hds as [|x ds Hx Hds IH]; intros fuel pre k us Hk Hf.
  - replace (us + dec_value 0 [] * _) with us by (unfold dec_value; simpl; lia). rewrite app_nil_r, Nat.add_0_r.
    destruct fuel; cbn [parse_fraction]; by rewrite ?(lookup_ge_None_2 pre) by lia.
  - cbn [length] in *. destruct fuel as [|fuel]; [lia|]. destruct k as [|k]; [lia|]. cbn [parse_fraction].
    rewrite lookup_app_r, Nat.sub_diag by lia. cbn [lookup list_lookup]. rewrite Hx. rewrite Nat2Z.inj_succ, Z.pow_succ_r, Z.mul_comm, Z.quot_mul by lia.
    assert (0 < 10 ^ Z.of_nat k) by (apply Z.pow_pos_nonneg; lia). rewrite Z.gtb_ltb. destruct (Z.ltb_spec 0 (10 ^ Z.of_nat k)); [|lia].
    replace (pre ++ x :: ds) with ((pre ++ [x]) ++ ds) by (by rewrite <-app_assoc).
    replace (S (length pre)) with (length (pre ++ [x])) by (rewrite length_app; simpl; lia). rewrite IH by lia. rewrite length_app. cbn [length Nat.sub].
    change (dec_value 0 (x :: ds)) with (dec_value (digit_val x + 0 * 10) ds). rewrite (dec_value_acc (digit_val x + 0 * 10)).
    f_equal; [|lia]. replace (Z.of_nat k) with (Z.of_nat (length ds) + Z.of_nat (k - length ds)) at 1 by lia. rewrite Z.pow_add_r by lia. lia.
Qed.

Lemma trailing_zeros_spec l : ∃ rest, l = replicate (trailing_zeros l) "0"%char ++ rest.
Proof.
  induction l as [|c l [rest IH]]; [by exists []|]. cbn [trailing_zeros]. destruct (decide (c = "0"%char)) as [->|]; [|by exists (c :: l)].
  exists rest. cbn [replicate app]. by rewrite <-IH.
Qed.

Lemma trailing_zeros_length l : (trailing_zeros l ≤ length l)%nat.
Proof. induction l as [|c l IH]; cbn [trailing_zeros length]; [done|]. destruct (decide _); lia. Qed.

Lemma reverse_replicate_char n (c : ascii) : reverse (replicate n c) = replicate n c.
Proof. induction n as [|n IH]; [done|]. cbn [replicate]. rewrite reverse_cons, IH. symmetry. apply (replicate_cons_app n c). Qed.

Lemma dec_value_append_zeros l n : dec_value 0 (l ++ replicate n "0"%char) = dec_value 0 l * 10 ^ Z.of_nat n.
Proof.
  rewrite dec_value_app, dec_value_acc, length_replicate. pose proof (dec_value_zeros n []) as E. rewrite app_nil_r in E. rewrite E.
  unfold dec_value at 2. simpl. lia.
Qed.

(** The microseconds are printed without the zeros at their end. *)
Lemma FormatMicros_spec us : 0 < us < 1000000 →
  ∃ buf zeros, FormatMicros us = Ret (buf, zeros) ∧ (zeros ≤ 5)%nat ∧ length buf = 6%nat ∧
    all_digits (take (6 - zeros) buf) ∧ dec_value 0 (take (6 - zeros) buf) * 10 ^ Z.of_nat zeros = us.
Proof.
  intros Hus. pose proof (FormatUnsigned_spec us ltac:(lia)) as Hn. pose proof (numeral_length _ _ 5 Hn ltac:(change (10 ^ Z.of_nat 6) with 1000000; lia)) as Hlen.
  destruct Hn as (Hd & Hv & _). unfold FormatMicros, pad_zeros. rewrite decide_True by done. cbn [mbind Res_bind].
  set (buf := replicate _ _ ++ _). assert (length buf = 6%nat) as Hb by (unfold buf; rewrite length_app, length_replicate; lia).
  assert (all_digits buf) as Had by (unfold buf; apply Forall_app; split; [by apply Forall_replicate|done]).
  assert (dec_value 0 buf = us) as Hdv by (unfold buf; by rewrite dec_value_zeros).
  eexists buf, _. split; [done|]. set (z := trailing_zeros _). clearbody buf.
  assert (z ≤ 5)%nat as Hz. { unfold z. pose proof (trailing_zeros_length (take 5 (reverse buf))) as Ht. rewrite length_take in Ht. lia. }
  destruct (trailing_zeros_spec (take 5 (reverse buf))) as [rest Er]. fold z in Er.
  assert (buf = (reverse (drop 5 (reverse buf)) ++ reverse rest) ++ replicate z "0"%char) as Eb.
  { rewrite <-(reverse_involutive buf) at 1. rewrite <-(take_drop 5 (reverse buf)) at 1. rewrite Er, !reverse_app, reverse_replicate_char. by rewrite app_assoc. }
  set (front := reverse (drop 5 (reverse buf)) ++ reverse rest) in *. clearbody front z. subst buf.
  rewrite length_app, length_replicate in Hb. rewrite dec_value_append_zeros in Hdv. apply Forall_app in Had as [Had _].
  replace (6 - z)%nat with (length front) by lia. rewrite take_app_length. split_and!; [done| |done|done]. rewrite length_app, length_replicate. lia.
Qed.

(** What may follow the seconds: nothing, or a point and at most six digits. *)
Definition fraction_of (frac : list ascii) (us : Z) : Prop :=
  (frac = [] ∧ us = 0) ∨
  (∃ ds, frac = "."%char :: ds ∧ all_digits ds ∧ (length ds ≤ 6)%nat ∧ us = dec_value 0 ds * 10 ^ Z.of_nat (6 - length ds)).

Lemma parse_seconds_fraction pre frac us : fraction_of frac us →
  (if decide ((pre ++ frac) !! length pre = Some "."%char) then parse_fraction (length (pre ++ frac)) (pre ++ frac) (S (length pre)) 100000 0
   else (0, length pre)) = (us, length (pre ++ frac)).
Proof.
  rewrite lookup_app_r, Nat.sub_diag by lia. intros [[-> ->]|(ds & -> & Hds & Hl & ->)].
  - rewrite decide_False by done. by rewrite app_nil_r.
  - rewrite decide_True by done. change 100000 with (Z.quot (10 ^ Z.of_nat 6) 10).
    replace (pre ++ "."%char :: ds) with ((pre ++ ["."%char]) ++ ds) by (by rewrite <-app_assoc).
    replace (S (length pre)) with (length (pre ++ ["."%char])) by (rewrite length_app; simpl; lia).
    rewrite parse_fraction_spec; [|done|done|rewrite !length_app; lia]. rewrite !length_app. f_equal.
Qed.

Lemma tryConvertInternal_spec hs m s frac us :
  all_digits hs → hs ≠ [] → (length hs ≤ 9)%nat → 0 ≤ m < 60 → 0 ≤ s < 60 → fraction_of frac us →
  let buf := hs ++ ":"%char :: pair_of m ++ ":"%char :: pair_of s ++ frac in
  tryConvertInternal buf = Some (fromTimeInternal (dec_value 0 hs) m s us, length buf).
Proof.
  intros Hhs Hne Hl Hm Hs Hfrac buf.
  assert (length buf = length hs + 6 + length frac)%nat as Hlen by (unfold buf; rewrite length_app; simpl; lia).
  assert (∃ c, buf !! 0%nat = Some c ∧ CharacterIsDigit c = true) as (c & Hc & Hcd).
  { destruct hs as [|c hs]; [done|]. exists c. split; [done|]. by apply Forall_cons in Hhs as [? _]. }
  unfold tryConvertInternal. cbv zeta. rewrite (skip_digit _ _ _ c Hc Hcd), Hc. cbn [mbind option_bind]. rewrite Hcd. cbn [negb].
  pose proof (parse_hour_spec (length buf) [] hs ":"%char (pair_of m ++ ":"%char :: pair_of s ++ frac) 9 0 Hhs ltac:(done) ltac:(lia) ltac:(lia)) as Hp.
  cbn [app length Nat.add] in Hp. fold buf in Hp. rewrite Hp. clear Hp. cbn [mbind option_bind].
  assert (buf !! length hs = Some ":"%char) as -> by (unfold buf; rewrite lookup_app_r, Nat.sub_diag by lia; done). cbn [mbind option_bind].
  rewrite decide_False by (intros H; by apply H).
  pose proof (parseDoubleDigit_spec (hs ++ [":"%char]) m (":"%char :: pair_of s ++ frac) ltac:(lia)) as Hpm. rewrite <-app_assoc in Hpm. cbn [app] in Hpm. fold buf in Hpm.
  rewrite length_app in Hpm. cbn [length] in Hpm. rewrite Nat.add_1_r in Hpm. rewrite Hpm. cbn [mbind option_bind].
  rewrite !Z.geb_leb. destruct (Z.ltb_spec m 0), (Z.leb_spec 60 m); try lia. cbn [orb].
  assert (buf !! (S (length hs) + 2)%nat = Some ":"%char) as ->.
  { unfold buf. rewrite lookup_app_r by lia. replace (S (length hs) + 2 - length hs)%nat with 3%nat by lia. done. }
  cbn [mbind option_bind]. rewrite decide_False by (intros H'; by apply H').
  set (pre := hs ++ ":"%char :: pair_of m ++ [":"%char]).
  assert (buf = pre ++ pair_of s ++ frac) as Eb by (unfold buf, pre; rewrite <-app_assoc; done).
  assert (length pre = S (S (length hs) + 2))%nat as Hpre by (unfold pre; rewrite length_app; simpl; lia).
  pose proof (parseDoubleDigit_spec pre s frac ltac:(lia)) as Hps. rewrite <-Eb, Hpre in Hps. rewrite Hps. cbn [mbind option_bind].
  rewrite !Z.geb_leb. destruct (Z.ltb_spec s 0), (Z.leb_spec 60 s); try lia. cbn [orb].
  pose proof (parse_seconds_fraction (pre ++ pair_of s) frac us Hfrac) as Hf. rewrite <-app_assoc, <-Eb in Hf.
  assert (length (pre ++ pair_of s) = S (S (length hs) + 2) + 2)%nat as Hps2 by (rewrite length_app, Hpre; done). rewrite Hps2 in Hf. rewrite Hf. done.
Qed.

(** A time of day is printed in the form that is read back. *)
Lemma time_toString_spec t : 0 ≤ t < MICROS_PER_DAY →
  ∃ h m s us frac, time_toString t = Ret (pair_of h ++ ":"%char :: pair_of m ++ ":"%char :: pair_of s ++ frac) ∧
    0 ≤ h < 24 ∧ 0 ≤ m < 60 ∧ 0 ≤ s < 60 ∧ 0 ≤ us < 1000000 ∧ fraction_of frac us ∧
    t = h * MICROS_PER_HOUR + m * MICROS_PER_MINUTE + s * MICROS_PER_SEC + us.
Proof.
  intros Ht. unfold time_toString. rewrite time_convert_spec by done. cbn [mbind Res_bind].
  pose proof (hour_range t Ht) as Hh. destruct (clock_parts t) as (Hm & Hs & Hu & E1 & E2 & E3). unfold time_format. rewrite !two_digits_spec by lia.
  set (h := t / MICROS_PER_HOUR) in *. set (m := t `mod` MICROS_PER_HOUR / MICROS_PER_MINUTE) in *. set (s := t `mod` MICROS_PER_MINUTE / MICROS_PER_SEC) in *.
  set (us := t `mod` MICROS_PER_SEC) in *. destruct (Z.eqb_spec us 0) as [E0|E0].
  - exists h, m, s, us, []. rewrite app_nil_r. split_and!; try lia; [done|by left].
  - destruct (FormatMicros_spec us ltac:(lia)) as (buf & z & -> & Hz & Hb & Hd & Hv). cbn [mbind Res_bind]. cbv zeta. rewrite decide_True by lia.
    replace (15 - z - 9)%nat with (6 - z)%nat by lia. exists h, m, s, us, ("."%char :: take (6 - z) buf). split_and!; try lia.
    + rewrite <-!app_assoc. cbn [app]. by rewrite <-!app_assoc.
    + right. exists (take (6 - z) buf). rewrite length_take. replace (6 - (6 - z) `min` length buf)%nat with z by lia. split_and!; [done|done|lia|done].
Qed.

Lemma time_reads_back t : 0 ≤ t < MICROS_PER_DAY →
  ∃ c rest, time_toString t = Ret (c :: rest) ∧ CharacterIsDigit c = true ∧ tryConvertTime (c :: rest) = Some (t, length (c :: rest)).
Proof.
  intros Ht. destruct (time_toString_spec t Ht) as (h & m & s & us & frac & -> & Hh & Hm & Hs & Hu & Hf & Et).
  destruct (pair_of_spec h ltac:(lia)) as [Hd Hv]. pose proof (tryConvertInternal_spec (pair_of h) m s frac us Hd ltac:(done) ltac:(simpl; lia) Hm Hs Hf) as Hc.
  cbv zeta in Hc. rewrite Hv, fromTimeInternal_spec, <-Et in Hc by (change (10 ^ 9) with 1000000000; lia).
  set (str := pair_of h ++ _) in *. destruct str as [|c rest] eqn:E; [done|]. exists c, rest. split; [done|]. split.
  - apply Forall_cons in Hd as [Hd _]. unfold str in E. cbn [pair_of app] in E. by injection E as <- _.
  - unfold tryConvertTime. rewrite Hc. cbn [mbind option_bind]. destruct (Z.ltb_spec t MICROS_PER_DAY); [done|lia].
Qed.

(** C39. Printing a timestamp of the years 1 to 294247 and reading the string back returns the
    timestamp: [Timestamp::fromCString] inverts [Timestamp::toString], and so does
    [Time::fromCString] for the time of day, whose fraction is printed without trailing zeros. *)
Theorem timestamp_string_roundtrip v y m d :
  - 2 ^ 63 ≤ v < 2 ^ 63 → convert (v / MICROS_PER_DAY) = Ret (y, m, d) → 1 ≤ y →
  (∃ s, timestamp_toString v = Ret s ∧ timestamp_fromCString s = Ret v) ∧
  (∃ s, time_toString (v `mod` MICROS_PER_DAY) = Ret s ∧ time_fromCString s = Ret (v `mod` MICROS_PER_DAY)).
Proof.
  intros Hv Hc Hy1. destruct (day_and_time v) as [Ev Hr].
  destruct (time_reads_back _ Hr) as (c & rest & Ht & Hcd & Htt). split; [|exists (c :: rest); split; [done|]; unfold time_fromCString; by rewrite Htt].
  destruct (convert_inv _ y m d Hc) as (Hy & Hvd & Hn). destruct (date_toString_spec _ y m d Hc Hy1) as (ds & Hds & Had & Hdv & Hne & _).
  unfold timestamp_toString. rewrite getDate_spec, getTime_spec, Hds, Ht by done. cbn [mbind Res_bind]. eexists. split; [done|]. clear Hds.
  replace ((ds ++ "-"%char :: pair_of m ++ "-"%char :: pair_of d) ++ " "%char :: c :: rest)
    with (ds ++ "-"%char :: pair_of m ++ "-"%char :: pair_of d ++ " "%char :: c :: rest) by (rewrite <-app_assoc; done).
  pose proof Hvd as [Hm Hd]. destruct (month_start_bounds (leap y) m Hm) as (_ & Hml & _).
  pose proof (tryConvertDate_spec ds y m d (" "%char :: c :: rest) true Had Hdv Hne ltac:(unfold in_years in Hy; lia) ltac:(lia) ltac:(lia)) as Hdate.
  set (buf := ds ++ _) in *. cbv zeta in Hdate. rewrite andb_false_r, fromDate_spec, decide_True, <-Hn in Hdate by done.
  assert (∀ i, buf !! (length ds + 6 + i)%nat = (" "%char :: c :: rest) !! i) as Hat.
  { intros i. unfold buf. rewrite lookup_app_r by lia. replace (length ds + 6 + i - length ds)%nat with (6 + i)%nat by lia. reflexivity. }
  assert (length buf = length ds + 8 + length rest)%nat as Hlen by (unfold buf; rewrite length_app; simpl; lia).
  assert (skip_spaces (length buf) buf (length ds + 6) = length ds + 7)%nat as Hskip.
  { rewrite Hlen. replace (length ds + 8 + length rest)%nat with (S (length ds + 7 + length rest)) by lia. cbn [skip_spaces].
    pose proof (Hat 0%nat) as H0. rewrite Nat.add_0_r in H0. rewrite H0. cbn [lookup list_lookup]. change (isSpace " ") with true. cbn iota.
    rewrite (skip_digit _ _ _ c); [lia| |done]. rewrite <-Nat.add_1_r. apply (Hat 1%nat). }
  rewrite Hskip in Hdate. unfold timestamp_fromCString, tryConvertTimestamp. rewrite Hdate, decide_False by lia.
  assert (buf !! (length ds + 7)%nat = Some c) as Hc7 by (replace (length ds + 7)%nat with (length ds + 6 + 1)%nat by lia; apply (Hat 1%nat)).
  rewrite decide_False by (rewrite Hc7; intros [[= ->]|[= ->]]; done). cbv zeta.
  assert (drop (length ds + 7) buf = c :: rest) as ->.
  { replace buf with ((ds ++ "-"%char :: pair_of m ++ "-"%char :: pair_of d ++ [" "%char]) ++ c :: rest).
    - apply drop_app_length'. rewrite length_app. simpl. lia.
    - unfold buf. rewrite <-app_assoc. done. }
  rewrite Htt, fromDateTime_spec, Hc, <-Ev, i64_id by done. cbn [mbind Res_bind length]. rewrite decide_False by lia. done.
Qed.

Lemma timestamp_string_roundtrip_witness :
  (∃ s, timestamp_toString 1728000000000500 = Ret s ∧ timestamp_fromCString s = Ret 1728000000000500) ∧
  (∃ s, time_toString (1728000000000500 `mod` MICROS_PER_DAY) = Ret s ∧ time_fromCString s = Ret (1728000000000500 `mod` MICROS_PER_DAY)).
Proof. apply (timestamp_string_roundtrip 1728000000000500 2024 10 4); by_eval. Defined.

(** A date is compared with a timestamp as the midnight it starts with, in both directions. *)
Theorem date_timestamp_order d ts : - 2 ^ 63 ≤ d * MICROS_PER_DAY < 2 ^ 63 →
  let at_midnight (test : Z → Z → bool) : Res bool := _ ← convert d; Ret (test (d * MICROS_PER_DAY) ts) in
  (date_eq_timestamp d ts = at_midnight Z.eqb ∧ date_lt_timestamp d ts = at_midnight Z.ltb ∧ date_le_timestamp d ts = at_midnight Z.leb ∧
   date_gt_timestamp d ts = at_midnight Z.gtb ∧ date_ge_timestamp d ts = at_midnight Z.geb) ∧
  (timestamp_eq_date ts d = date_eq_timestamp d ts ∧ timestamp_lt_date ts d = at_midnight (λ x y, y <? x) ∧
   timestamp_le_date ts d = at_midnight (λ x y, y <=? x) ∧ timestamp_gt_date ts d = at_midnight (λ x y, y >? x) ∧
   timestamp_ge_date ts d = at_midnight (λ x y, y >=? x)).
Proof.
  intros Hd at_midnight. unfold timestamp_eq_date, timestamp_lt_date, timestamp_le_date, timestamp_gt_date, timestamp_ge_date,
    date_ge_timestamp, date_gt_timestamp, date_le_timestamp, date_lt_timestamp, date_eq_timestamp, at_midnight.
  rewrite fromDateTime_spec, Z.add_0_r, i64_id by done. destruct (convert d); cbn [mbind Res_bind]; [|done].
  rewrite !Z.gtb_ltb, !Z.geb_leb. destruct (Z.ltb_spec (d * MICROS_PER_DAY) ts), (Z.eqb_spec (d * MICROS_PER_DAY) ts),
    (Z.leb_spec (d * MICROS_PER_DAY) ts), (Z.ltb_spec ts (d * MICROS_PER_DAY)), (Z.leb_spec ts (d * MICROS_PER_DAY)); try lia; done.
Qed.
