(* ===== verification/StringCast.v ===== *)
(** Casts from strings to integers
    ([src/src/include/function/cast/functions/cast_string_non_nested_functions.h]): the loop over the
    digits, shared by the machine integers and the 128-bit integers, which hand it the operations
    that add a digit and that finish, and the cast to decimals of machine integers. *)

From Stdlib Require Import Ascii.
From S2P Require Import Prelude Int128 Date.

#[local] Open Scope Z_scope.

(** ** White space *)

Fixpoint skip_front (input : list ascii) : list ascii :=
  match input with c :: rest => if isSpace c then skip_front rest else input | [] => [] end.

Definition removeCStringWhiteSpaces (input : list ascii) : list ascii :=
  reverse (skip_front (reverse (skip_front input))).

(** ** The loop over the digits *)

(** The template parameter [OP]: [None] is the result [false]. *)
Record CastOperation (St : Type) := mkOp {
  handleDigit : bool → St → Z → Res (option St);
  finalize : bool → St → Res (option St);
}.
Arguments mkOp {_}.
Arguments handleDigit {_}.
Arguments finalize {_}.

Section Loop.
  Context {St : Type} (OP : CastOperation St).

Fixpoint cast_digits (negative : bool) (input : list ascii) (result : St) : Res (option St) :=
  match input with
  | [] => finalize OP negative result
  | c :: input =>
      if negb (CharacterIsDigit c) then Ret None
      else
        r ← handleDigit OP negative result (digit_val c);
        match r with Some result => cast_digits negative input result | None => Ret None end
  end.

Definition integerCastLoop (negative : bool) (input : list ascii) (result : St) : Res (option St) :=
  let start_pos := if negative then 1%nat else 0%nat in
  r ← cast_digits negative (drop start_pos input) result;
  Ret (if decide (start_pos < length input)%nat then r else None).

Definition tryIntegerCast (is_signed : bool) (input : list ascii) (result : St) : Res (option St) :=
  let input := removeCStringWhiteSpaces input in
  match input with
  | [] => Ret None
  | c :: rest =>
      if decide (c = "-"%char) then
        if negb is_signed && negb (forallb (λ c, bool_decide (c = "0"%char)) rest) then Ret None
        else integerCastLoop true input result
      else if decide (1 < length input ∧ c = "0"%char)%nat then Ret None
      else integerCastLoop false input result
  end.

End Loop.

(** ** Machine integers *)

(** [IntegerCastOperation], for the integer type [t]. *)
Definition IntegerCastOperation (t : IntType) : CastOperation Z := mkOp
  (λ negative result digit,
    Ret (if negative
      then if result <? Z.quot (minimum t + digit) 10 then None else Some (static_cast t (result * 10 - digit))
      else if result >? Z.quot (maximum t - digit) 10 then None else Some (static_cast t (result * 10 + digit))))
  (λ _ result, Ret (Some result)).

Definition trySimpleIntegerCast (t : IntType) (input : list ascii) : Res (option Z) :=
  tryIntegerCast (IntegerCastOperation t) (isSigned t) input 0.

Definition simpleIntegerCast (t : IntType) (input : list ascii) : Res Z :=
  r ← trySimpleIntegerCast t input;
  match r with Some z => Ret z | None => Throw ConversionException end.

(** ** 128-bit integers *)

Definition DECIMAL_PRECISION_LIMIT : Z := 38.

Record Int128CastData := mkCastData { result128 : int128_t; intermediate : Z; digit_count : Z }.

(** The entry of the table of powers; its index is checked before. *)
Definition power_at (i : Z) : Res int128_t := default (Throw AssertionFailure) (powerOf10 !! Z.to_nat i).

Definition flush (data : Int128CastData) : Res (option Int128CastData) :=
  if (digit_count data =? 0) && (intermediate data =? 0) then Ret (Some data)
  else
    scaled ←
      (if negb (low (result128 data) =? 0) || negb (high (result128 data) =? 0) then
        if digit_count data >? DECIMAL_PRECISION_LIMIT then Ret None
        else power ← power_at (digit_count data); tryMultiply multiply_builtin (result128 data) power
      else Ret (Some (result128 data)));
    match scaled with
    | None => Ret None
    | Some scaled =>
        addend ← of_int INT64 (intermediate data);
        let '(result, ok) := addInPlace scaled addend in
        Ret (if ok : bool then Some (mkCastData result 0 0) else None)
    end.

Definition Int128CastOperation : CastOperation Int128CastData := mkOp
  (λ negative result digit,
    let full := if negative then intermediate result <? Z.quot (INT64_MIN + digit) 10
      else intermediate result >? Z.quot (INT64_MAX - digit) 10 in
    r ← (if full then flush result else Ret (Some result));
    Ret (match r with
      | None => None
      | Some result =>
          let i := i64 (intermediate result * 10) in
          Some (mkCastData (result128 result) (if negative then i64 (i - digit) else i64 (i + digit))
            ((digit_count result + 1) `mod` 256))
      end))
  (λ _ result, flush result).

Definition trySimpleInt128Cast (input : list ascii) : Res (option int128_t) :=
  r ← tryIntegerCast Int128CastOperation true input (mkCastData (mk128 0 0) 0 0);
  Ret (option_map result128 r).

Definition simpleInt128Cast (input : list ascii) : Res int128_t :=
  r ← trySimpleInt128Cast input;
  match r with Some x => Ret x | None => Throw ConversionException end.

(** ** Decimals *)

(** The loop of [tryDecimalCast]: the result, the positions of the end and of the period, and the
    characters that are left; [None] is the result [false]. *)
Fixpoint decimal_loop (t : IntType) (scale : Z) (input : list ascii) (pos periodPos result : Z) :
    Res (option (Z * Z * Z * list ascii)) :=
  match input with
  | [] => Ret (Some (result, pos, periodPos, []))
  | c :: rest =>
      if decide (c = "."%char) then decimal_loop t scale rest (pos + 1) pos result
      else if (pos >? periodPos) && (u64 (pos - periodPos) >? scale) then Ret (Some (result, pos, periodPos, input))
      else if negb (CharacterIsDigit c) then Ret None
      else
        r ← handleDigit (IntegerCastOperation t) false result (digit_val c);
        match r with Some result => decimal_loop t scale rest (pos + 1) periodPos result | None => Ret None end
  end.

(** The loop over the trailing zeros, at most [scale + 1] of them. *)
Fixpoint trailing_loop (fuel : nat) (t : IntType) (scale pos periodPos result : Z) : Res (option Z) :=
  if u64 (pos - periodPos) <? scale + 1 then
    match fuel with
    | O => Throw AssertionFailure
    | S fuel =>
        r ← handleDigit (IntegerCastOperation t) false result 0;
        match r with Some result => trailing_loop fuel t scale (pos + 1) periodPos result | None => Ret None end
    end
  else Ret (Some result).

(** [tryDecimalCast] for the integer type [t]; [finalize] of [IntegerCastOperation] does nothing. *)
Definition tryDecimalCast (t : IntType) (input : list ascii) (precision scale : Z) : Res (option Z) :=
  let input := removeCStringWhiteSpaces input in
  match input with
  | [] => Ret None
  | c :: rest =>
      let negativeFlag := bool_decide (c = "-"%char) in
      let input := if negativeFlag then rest else input in
      r ← decimal_loop t scale input 0 (u64 (Z.of_nat (length input) - 1)) 0;
      match r with
      | None => Ret None
      | Some (result, pos, periodPos, left_over) =>
          let rounded :=
            match left_over with
            | [] => Some result
            | d :: _ =>
                if negb (CharacterIsDigit d) then None
                else Some (if digit_val d >=? 5 then static_cast t (result + 1) else result)
            end in
          match rounded with
          | None => Ret None
          | Some result =>
              r ← trailing_loop (Z.to_nat (scale + 1)) t scale pos periodPos result;
              match r with
              | None => Ret None
              | Some result =>
                  match pow10Sequence_int t !! Z.to_nat precision with
                  | None => Throw AssertionFailure
                  | Some bound =>
                      Ret (if result >=? bound then None else Some (if negativeFlag then static_cast t (- result) else result))
                  end
              end
          end
      end
  end.

(** ** What a string denotes *)

(** The value of a run of digits, possibly after a minus sign; a numeral without a sign does not
    start with a zero unless it is a single digit. *)
Definition denotes (s : list ascii) (n : Z) : Prop :=
  ∃ ds, all_digits ds ∧ ds ≠ [] ∧
    ((s = "-"%char :: ds ∧ n = - dec_value 0 ds) ∨
     (s = ds ∧ n = dec_value 0 ds ∧ (length ds = 1%nat ∨ head ds ≠ Some "0"%char))).

(** What the loop needs of the operations for integers between [lo] and [hi]: [reads negative k st n]
    says that [st] holds the number [n] after [k] digits, and [final st n] that [n] is its result. The
    operations refuse a number only when it is out of range, as long as the number of digits is one
    they can count; a minus sign of an unsigned number is followed by zeros only. *)
Class CastLaw {St} (OP : CastOperation St) (is_signed : bool) (lo hi : Z) (countable : nat → Prop)
    (reads : bool → nat → St → Z → Prop) (final : St → Z → Prop) := {
  countable_below k k' : (k ≤ k')%nat → countable k' → countable k;
  range_has_zero : lo ≤ 0 ≤ hi;
  unsigned_range : is_signed = false → lo = 0;
  reads_sign negative k st n : reads negative k st n → if negative then n ≤ 0 else 0 ≤ n;
  reads_digit negative k st n d : reads negative k st n → countable (S k) → 0 ≤ d ≤ 9 → (negative && negb is_signed = true → d = 0) →
    let n' := if negative then n * 10 - d else n * 10 + d in
    match handleDigit OP negative st d with
    | Ret (Some st') => reads negative (S k) st' n'
    | _ => ¬ (lo ≤ n' ≤ hi)
    end;
  reads_final negative k st n : reads negative k st n → countable k →
    match finalize OP negative st with
    | Ret (Some st') => final st' n ∧ lo ≤ n ≤ hi
    | _ => ¬ (lo ≤ n ≤ hi)
    end;
}.

Lemma dec_value_cons c l : dec_value 0 (c :: l) = digit_val c * 10 ^ Z.of_nat (length l) + dec_value 0 l.
Proof. change (dec_value 0 (c :: l)) with (dec_value (digit_val c + 0 * 10) l). rewrite dec_value_acc. f_equal. f_equal. lia. Qed.

Lemma digit_zero c : digit_val c = 0 → c = "0"%char.
Proof. unfold digit_val. intros E. rewrite <-(ascii_nat_embedding c). by replace (nat_of_ascii c) with 48%nat by lia. Qed.

(** Digits that are not all zeros denote a positive number. *)
Lemma dec_value_positive l : all_digits l → forallb (λ c, bool_decide (c = "0"%char)) l = false → 0 < dec_value 0 l.
Proof.
  induction 1 as [|c l Hc Hl IH]; [done|]. cbn [forallb]. rewrite dec_value_cons. pose proof (dec_value_range l Hl).
  pose proof (digit_val_range c Hc). assert (0 < 10 ^ Z.of_nat (length l)) by (apply Z.pow_pos_nonneg; lia).
  case_bool_decide as E; [intros Hf; specialize (IH Hf); nia|]. intros _. assert (digit_val c ≠ 0); [|nia].
  intros E0. by apply E, digit_zero.
Qed.

Lemma dec_value_all_zeros l : forallb (λ c, bool_decide (c = "0"%char)) l = true → Forall (λ c, digit_val c = 0) l.
Proof.
  induction l as [|c l IH]; [by constructor|]. cbn [forallb]. rewrite andb_true_iff, bool_decide_eq_true. intros [-> H]. constructor; auto.
Qed.

Section LoopSpec.
  Context {St : Type} (OP : CastOperation St) (is_signed : bool) (lo hi : Z) (countable : nat → Prop)
    (reads : bool → nat → St → Z → Prop) (final : St → Z → Prop) `{Law : !CastLaw OP is_signed lo hi countable reads final}.

(** The outcome of reading a number. *)
Definition outcome (r : Res (option St)) (n : Z) : Prop :=
  match r with Ret (Some st) => final st n ∧ lo ≤ n ≤ hi | _ => ¬ (lo ≤ n ≤ hi) end.

Lemma cast_digits_spec negative ds k st n :
  reads negative k st n → all_digits ds → countable (k + length ds)%nat →
  (negative && negb is_signed = true → Forall (λ c, digit_val c = 0) ds) →
  outcome (cast_digits OP negative ds st)
    (n * 10 ^ Z.of_nat (length ds) + if negative then - dec_value 0 ds else dec_value 0 ds).
Proof.
  intros Hr Hds. revert k st n Hr. induction Hds as [|c ds Hc Hds IH]; intros k st n Hr Hk Hz; cbn [cast_digits].
  - replace (n * _ + _) with n by (unfold dec_value; destruct negative; simpl; lia). apply (reads_final negative k st n Hr).
    by rewrite Nat.add_0_r in Hk.
  - rewrite Hc. cbn [negb length] in *. pose proof (digit_val_range c Hc) as Hd.
    pose proof (reads_digit negative k st n (digit_val c) Hr ltac:(eapply countable_below; [|done]; lia) Hd) as Hstep.
    specialize (Hstep ltac:(intros Hu; specialize (Hz Hu); by apply Forall_cons in Hz as [? _])). cbv zeta in Hstep.
    pose proof (reads_sign negative k st n Hr) as Hsgn. rewrite dec_value_cons, Nat2Z.inj_succ, Z.pow_succ_r by lia.
    pose proof (dec_value_range ds Hds) as Hdv. set (p := 10 ^ Z.of_nat (length ds)) in *. assert (0 < p) by (apply Z.pow_pos_nonneg; lia).
    set (n' := if negative then n * 10 - digit_val c else n * 10 + digit_val c) in *.
    replace (n * (10 * p) + _) with (n' * p + if negative then - dec_value 0 ds else dec_value 0 ds) by (unfold n'; destruct negative; lia).
    pose proof range_has_zero as Hlo.
    assert (¬ (lo ≤ n' ≤ hi) → ¬ (lo ≤ n' * p + (if negative then - dec_value 0 ds else dec_value 0 ds) ≤ hi)) as Hout
      by (unfold n'; destruct negative; intros Hno; nia).
    destruct (handleDigit OP negative st (digit_val c)) as [[st'|]|]; cbn [mbind Res_bind]; [|exact (Hout Hstep)..].
    apply (IH (S k)); [done|by rewrite Nat.add_succ_comm|]. intros Hu. specialize (Hz Hu). by apply Forall_cons in Hz as [_ ?].
Qed.

Lemma cast_digits_nondigit negative input st st' : ¬ all_digits input → cast_digits OP negative input st ≠ Ret (Some st').
Proof.
  revert st. induction input as [|c input IH]; intros st Hn; [destruct Hn; constructor|]. cbn [cast_digits]. destruct (CharacterIsDigit c) eqn:Hc; [|done].
  cbn [negb]. destruct (handleDigit OP negative st (digit_val c)) as [[st1|]|]; cbn [mbind Res_bind]; [|done..]. apply IH.
  intros Hi. apply Hn. by constructor.
Qed.

Lemma integerCastLoop_spec (negative : bool) (ds : list ascii) (st : St) :
  let input := if negative then "-"%char :: ds else ds in
  reads negative 0 st 0 → (negative && negb is_signed = true → Forall (λ c, digit_val c = 0) ds) →
  (all_digits ds → ds ≠ [] → countable (length ds) →
    outcome (integerCastLoop OP negative input st) (if negative then - dec_value 0 ds else dec_value 0 ds)) ∧
  (∀ st', integerCastLoop OP negative input st = Ret (Some st') → all_digits ds ∧ ds ≠ []).
Proof.
  intros input Hr Hz. unfold integerCastLoop. cbv zeta.
  assert (drop (if negative then 1 else 0)%nat input = ds) as -> by (by destruct negative).
  assert (((if negative then 1 else 0) < length input)%nat ↔ ds ≠ []) as Hlen by (destruct negative; destruct ds; simpl; split; (done || lia)).
  split.
  - intros Hds Hne Hk. pose proof (cast_digits_spec negative ds 0 st 0 Hr Hds Hk Hz) as Hc.
    replace (0 * _ + _) with (if negative then - dec_value 0 ds else dec_value 0 ds) in Hc by lia.
    destruct (cast_digits OP negative ds st); [|done]. cbn [mbind Res_bind]. by rewrite decide_True by (by apply Hlen).
  - intros st' Hc. destruct (decide (all_digits ds)) as [Hds|Hds].
    + split; [done|]. destruct (cast_digits OP negative ds st) as [r|]; [|done]. cbn [mbind Res_bind] in Hc. destruct (decide _) as [H|]; [by apply Hlen|done].
    + exfalso. pose proof (λ st', cast_digits_nondigit negative ds st st' Hds) as Hn. destruct (cast_digits OP negative ds st) as [[r|]|]; [by apply (Hn r)| |done].
      cbn [mbind Res_bind] in Hc. by destruct (decide _).
Qed.

(** The cast of a string, after its white space is removed: a numeral gives its number when it is in
    range and is refused otherwise; anything but a numeral is refused. *)
Lemma tryIntegerCast_spec s st :
  reads true 0 st 0 → reads false 0 st 0 → countable (length (removeCStringWhiteSpaces s)) →
  (∀ n, denotes (removeCStringWhiteSpaces s) n → outcome (tryIntegerCast OP is_signed s st) n) ∧
  (∀ st', tryIntegerCast OP is_signed s st = Ret (Some st') → ∃ n, denotes (removeCStringWhiteSpaces s) n).
Proof.
  intros Hrt Hrf. unfold tryIntegerCast. cbv zeta. set (input := removeCStringWhiteSpaces s). clearbody input. intros Hk.
  destruct input as [|c rest]; [split; [|done]; intros n (ds & _ & Hne & [[? _]|[? _]]); congruence|].
  assert (countable (length rest)) as Hkr by (eapply countable_below; [|done]; simpl; lia).
  destruct (decide (c = "-"%char)) as [->|Hc].
  - assert (∀ n, denotes ("-"%char :: rest) n → all_digits rest ∧ rest ≠ [] ∧ n = - dec_value 0 rest) as Hden.
    { intros n (ds & Hds & Hne & [[[= <-] ->]|[<- _]]); [done|]. by apply Forall_cons in Hds as [? _]. }
    destruct (negb is_signed && negb (forallb _ rest)) eqn:Hu.
    + apply andb_true_iff in Hu as [Hu Hz]. apply negb_true_iff in Hu, Hz. split; [|done]. intros n Hn. destruct (Hden n Hn) as (Hds & _ & ->).
      pose proof (dec_value_positive rest Hds Hz). unfold outcome. rewrite unsigned_range by done. lia.
    + destruct (integerCastLoop_spec true rest st Hrt) as [H1 H2].
      { cbn [andb]. intros E. rewrite E in Hu. cbn [andb] in Hu. apply negb_false_iff in Hu. by apply dec_value_all_zeros. }
      split; [intros n Hn; destruct (Hden n Hn) as (? & ? & ->); by apply H1|]. intros st' Hst. destruct (H2 st' Hst) as [? ?].
      exists (- dec_value 0 rest), rest. auto.
  - assert (∀ n, denotes (c :: rest) n → all_digits (c :: rest) ∧ n = dec_value 0 (c :: rest) ∧ ¬ (1 < length (c :: rest) ∧ c = "0"%char)%nat) as Hden.
    { intros n (ds & Hds & Hne & [[[= -> _] ?]|(<- & -> & Hl)]); [done|]. split_and!; [done..|]. intros [Hl1 ->]. by destruct Hl; [lia|]. }
    destruct (decide (1 < length (c :: rest) ∧ c = "0"%char)%nat) as [Hz|Hz]; [split; [|done]; intros n Hn; by destruct (Hden n Hn) as (_ & _ & ?)|].
    destruct (integerCastLoop_spec false (c :: rest) st Hrf ltac:(done)) as [H1 H2]. split.
    + intros n Hn. destruct (Hden n Hn) as (? & -> & _). by apply H1.
    + intros st' Hst. destruct (H2 st' Hst) as [Hds Hne]. exists (dec_value 0 (c :: rest)), (c :: rest). split_and!; [done..|]. right. split_and!; [done..|].
      destruct rest; [by left|]. right. intros [= ->]. apply Hz. simpl. split; [lia|done].
Qed.

End LoopSpec.

(** ** Machine integers *)

Lemma below_quotient a m d : a ≤ 0 → m + d ≤ 0 → (a <? Z.quot (m + d) 10) = (a * 10 - d <? m).
Proof.
  intros Ha Hm. replace (m + d) with (- (- (m + d))) by lia. rewrite Z.quot_opp_l, Z.quot_div_nonneg by lia.
  pose proof (Z.div_mod (- (m + d)) 10 ltac:(lia)). pose proof (Z.mod_pos_bound (- (m + d)) 10 ltac:(lia)).
  destruct (Z.ltb_spec a (- (- (m + d) / 10))), (Z.ltb_spec (a * 10 - d) m); try lia; done.
Qed.

Lemma above_quotient a m d : 0 ≤ a → 0 ≤ m - d → (a >? Z.quot (m - d) 10) = (m <? a * 10 + d).
Proof.
  intros Ha Hm. rewrite Z.quot_div_nonneg, Z.gtb_ltb by lia. pose proof (Z.div_mod (m - d) 10 ltac:(lia)). pose proof (Z.mod_pos_bound (m - d) 10 ltac:(lia)).
  destruct (Z.ltb_spec ((m - d) / 10) a), (Z.ltb_spec m (a * 10 + d)); try lia; done.
Qed.

Lemma type_bounds t : (if isSigned t then minimum t ≤ -128 else minimum t = 0) ∧ 127 ≤ maximum t.
Proof. destruct t; vm_compute; intuition congruence. Qed.

Definition reads_int (t : IntType) (negative : bool) (k : nat) (st n : Z) : Prop :=
  st = n ∧ minimum t ≤ n ≤ maximum t ∧ if negative then n ≤ 0 else 0 ≤ n.

#[export] Instance integer_cast_law t : CastLaw (IntegerCastOperation t) (isSigned t) (minimum t) (maximum t) (λ _, True) (reads_int t) eq.
Proof.
  pose proof (type_bounds t) as [Hmin Hmax]. split.
  - done.
  - destruct (isSigned t); lia.
  - intros E. by rewrite E in Hmin.
  - intros negative k st n (_ & _ & H). done.
  - intros negative k st n d (-> & Hn & Hs) _ Hd Hu. destruct negative; cbn [handleDigit IntegerCastOperation andb negb] in *.
    + destruct (isSigned t) eqn:Es.
      * rewrite below_quotient by lia. destruct (Z.ltb_spec (n * 10 - d) (minimum t)); [lia|]. rewrite static_cast_id by lia. split_and!; lia.
      * rewrite (Hu eq_refl), Hmin in *. assert (n = 0) as -> by lia. change (Z.quot (0 + 0) 10) with 0. cbn [Z.ltb Z.compare].
        rewrite static_cast_id by lia. split_and!; lia.
    + rewrite above_quotient by lia. destruct (Z.ltb_spec (maximum t) (n * 10 + d)); [lia|].
      rewrite static_cast_id by (destruct (isSigned t); lia). split_and!; (done || destruct (isSigned t); lia).
  - intros negative k st n (-> & Hn & _) _. done.
Qed.

Lemma trySimpleIntegerCast_spec t s z :
  (trySimpleIntegerCast t s = Ret (Some z) ↔ denotes (removeCStringWhiteSpaces s) z ∧ minimum t ≤ z ≤ maximum t) ∧
  (∃ r, trySimpleIntegerCast t s = Ret r).
Proof.
  pose proof (type_bounds t) as [Hmin Hmax]. assert (minimum t ≤ 0) by (destruct (isSigned t); lia).
  destruct (tryIntegerCast_spec (IntegerCastOperation t) (isSigned t) (minimum t) (maximum t) (λ _, True) (reads_int t) eq s 0) as [H1 H2];
    [split_and!; lia..|done|]. fold (trySimpleIntegerCast t s) in *. split; [split|].
  - intros Hz. destruct (H2 z Hz) as [n Hn]. pose proof (H1 n Hn) as Ho. rewrite Hz in Ho. destruct Ho as [-> ?]. done.
  - intros [Hd Hr]. pose proof (H1 z Hd) as Ho. unfold outcome in Ho. destruct (trySimpleIntegerCast t s) as [[x|]|]; [|by destruct Ho..].
    by destruct Ho as [-> _].
  - assert (∀ negative ds st, ∃ r, cast_digits (IntegerCastOperation t) negative ds st = Ret r) as Hret.
    { intros negative ds. induction ds as [|c ds IH]; intros st; cbn [cast_digits]; [by eexists|]. destruct (negb (CharacterIsDigit c)); [by eexists|].
      cbn [handleDigit IntegerCastOperation mbind Res_bind]. destruct negative; [destruct (st <? _)|destruct (st >? _)]; [by eexists|apply IH|by eexists|apply IH]. }
    unfold trySimpleIntegerCast, tryIntegerCast, integerCastLoop. cbv zeta. destruct (removeCStringWhiteSpaces s) as [|c rest]; [by eexists|].
    destruct (Hret true (drop 1 (c :: rest)) 0) as [r1 ->], (Hret false (drop 0 (c :: rest)) 0) as [r2 ->].
    repeat case_decide; try destruct (_ && _); by eexists.
Qed.

(** Casting a string to a machine integer succeeds exactly when the string, without the white
    space around it, is a numeral in the range of the type, and gives its number: no digit is lost to
    an overflow, ["-0"] is allowed for unsigned types, and a leading zero only after a minus sign. *)
Theorem integer_cast_exact t s z :
  (trySimpleIntegerCast t s = Ret (Some z) ↔ denotes (removeCStringWhiteSpaces s) z ∧ minimum t ≤ z ≤ maximum t) ∧
  (∃ r, trySimpleIntegerCast t s = Ret r).
Proof. apply trySimpleIntegerCast_spec. Qed.

(** ** 128-bit integers *)

Lemma power_at_spec k : 0 ≤ k ≤ 38 → ∃ p, power_at k = Ret p ∧ wf p ∧ val p = 10 ^ k.
Proof.
  intros Hk. exists (of_Z (10 ^ k)).
  apply (table_range (λ k, power_at k = Ret (of_Z (10 ^ k)) ∧ wf (of_Z (10 ^ k)) ∧ val (of_Z (10 ^ k)) = 10 ^ k) k 0 39); [by_eval|lia].
Qed.

(** The state after [k] digits: the number is the flushed part, scaled by the digits read since, and
    the part read since. *)
Definition reads_int128 (negative : bool) (k : nat) (st : Int128CastData) (n : Z) : Prop :=
  wf (result128 st) ∧ INT64_MIN ≤ intermediate st ≤ INT64_MAX ∧ 0 ≤ digit_count st ≤ Z.of_nat k ∧
  (digit_count st = 0 → intermediate st = 0) ∧ n = val (result128 st) * 10 ^ digit_count st + intermediate st ∧
  if negative then intermediate st ≤ 0 ∧ val (result128 st) ≤ 0 else 0 ≤ intermediate st ∧ 0 ≤ val (result128 st).

Definition final_int128 (st : Int128CastData) (n : Z) : Prop :=
  wf (result128 st) ∧ val (result128 st) = n ∧ intermediate st = 0 ∧ digit_count st = 0.

(** Adding the digits read since to the scaled number. *)
Lemma flush_add scaled i : wf scaled → INT64_MIN ≤ i ≤ INT64_MAX →
  outcome (- 2 ^ 127) (2 ^ 127 - 1) final_int128
    (addend ← of_int INT64 i; let '(result, ok) := addInPlace scaled addend in Ret (if ok : bool then Some (mkCastData result 0 0) else None))
    (val scaled + i).
Proof.
  intros Hs Hi. destruct (cast_to_spec INT64 i Hi) as (y & Hy & Hwy & Hvy). unfold of_int. rewrite Hy. cbn [mbind Res_bind].
  assert (mk128 (low y) (high y) = y) as -> by (by destruct y). pose proof (addInPlace_spec scaled y Hs Hwy) as Ha. rewrite Hvy in Ha.
  destruct (decide _) as [Hr|Hr].
  - destruct Ha as (r & -> & Hwr & Hvr). split; [done|]. lia.
  - destruct (addInPlace scaled y) as [r ok]. simpl in Ha. subst ok. unfold outcome. lia.
Qed.

Lemma scaled_not_least a k : 1 ≤ k → a * 10 ^ k ≠ - 2 ^ 127 ∧ a * 10 ^ k ≠ 2 ^ 127.
Proof.
  intros Hk. replace (10 ^ k) with (10 * 10 ^ (k - 1)) by (rewrite <-Z.pow_succ_r by lia; f_equal; lia). lia.
Qed.

Lemma flush_spec negative k st n : reads_int128 negative k st n → outcome (- 2 ^ 127) (2 ^ 127 - 1) final_int128 (flush st) n.
Proof.
  intros (Hw & Hi & Hk & H0 & -> & Hs). unfold flush. destruct st as [r i dc]. cbn [result128 intermediate digit_count] in *.
  pose proof (val_range r Hw) as Hr. destruct (Z.eqb_spec dc 0) as [->|Hdc].
  - rewrite (H0 eq_refl). cbn [andb Z.eqb]. split; [|lia]. split_and!; [done| |done..]. cbn [result128]. lia.
  - cbn [andb]. assert (negb (low r =? 0) || negb (high r =? 0) = negb (bool_decide (val r = 0))) as ->.
    { rewrite <-is_zero by done. by rewrite negb_andb, orb_comm. }
    case_bool_decide as Hz; cbn [negb]; cbn [mbind Res_bind].
    { replace (val r * 10 ^ dc + i) with (val r + i) by lia. by apply flush_add. }
    assert (0 < 10 ^ dc) as Hpos by (apply Z.pow_pos_nonneg; lia).
    assert (if negative then val r * 10 ^ dc ≤ - 10 ^ dc else 10 ^ dc ≤ val r * 10 ^ dc) as Hbig by (destruct negative; nia).
    assert (10 ^ 1 ≤ 10 ^ dc) as H10 by (apply Z.pow_le_mono_r; lia).
    destruct (scaled_not_least (val r) dc ltac:(lia)) as [Hn1 Hn2]. rewrite Z.gtb_ltb. unfold DECIMAL_PRECISION_LIMIT. destruct (Z.ltb_spec 38 dc).
    { assert (10 ^ 39 ≤ 10 ^ dc) by (apply Z.pow_le_mono_r; lia). cbn [mbind Res_bind]. unfold outcome. destruct negative; lia. }
    destruct (power_at_spec dc ltac:(lia)) as (p & -> & Hwp & Hvp). cbn [mbind Res_bind].
    pose proof (tryMultiply_spec multiply_builtin r p multiply_builtin_spec Hw Hwp) as Hm. rewrite Hvp in Hm. unfold INT128_MIN in Hm.
    destruct (decide (val r = - 2 ^ 127 ∨ 10 ^ dc = - 2 ^ 127)) as [Hmin|Hmin].
    { rewrite Hm. cbn [mbind Res_bind]. destruct Hmin as [Hmin|]; [|lia]. rewrite Hmin in *. unfold outcome. destruct negative; lia. }
    destruct (decide (- 2 ^ 127 < val r * 10 ^ dc < 2 ^ 127)) as [Hin|Hin].
    + destruct Hm as (x & -> & Hwx & Hvx). cbn [mbind Res_bind]. rewrite <-Hvx. by apply flush_add.
    + rewrite Hm. cbn [mbind Res_bind]. unfold outcome. destruct negative; lia.
Qed.

Lemma reads_flushed (negative : bool) k st n : final_int128 st n → (if negative then n ≤ 0 else 0 ≤ n) → reads_int128 negative k st n.
Proof.
  intros (Hw & Hv & Hi & Hd) Hn. unfold reads_int128. rewrite Hi, Hd, Hv. unfold INT64_MIN, INT64_MAX. split_and!; try lia; [done|]. by destruct negative; split; lia.
Qed.

(** Adding a digit when there is room for it. *)
Lemma reads_append (negative : bool) k st n d :
  reads_int128 negative k st n → (k < 255)%nat → 0 ≤ d ≤ 9 →
  (if negative then INT64_MIN ≤ intermediate st * 10 - d else intermediate st * 10 + d ≤ INT64_MAX) →
  reads_int128 negative (S k)
    (mkCastData (result128 st) (if negative then i64 (i64 (intermediate st * 10) - d) else i64 (i64 (intermediate st * 10) + d)) ((digit_count st + 1) `mod` 256))
    (if negative then n * 10 - d else n * 10 + d).
Proof.
  intros (Hw & Hi & Hk & H0 & -> & Hs) Hlt Hd Hroom. unfold reads_int128, INT64_MIN, INT64_MAX in *. cbn [result128 intermediate digit_count].
  rewrite Z.mod_small by lia. rewrite Z.pow_add_r, Z.pow_1_r by lia. set (p := 10 ^ digit_count st) in *.
  destruct negative; rewrite (i64_id (intermediate st * 10)) by lia; rewrite i64_id by lia; split_and!; (done || lia).
Qed.

Lemma reads_int128_sign negative k st n : reads_int128 negative k st n → if negative then n ≤ 0 else 0 ≤ n.
Proof.
  intros (_ & _ & Hk & _ & -> & Hs). assert (0 < 10 ^ digit_count st) by (apply Z.pow_pos_nonneg; lia). destruct negative; nia.
Qed.

#[export] Instance int128_cast_law : CastLaw Int128CastOperation true (- 2 ^ 127) (2 ^ 127 - 1) (λ k, k ≤ 255)%nat reads_int128 final_int128.
Proof.
  split.
  - intros k k' Hk Hk'. lia.
  - lia.
  - done.
  - apply reads_int128_sign.
  - intros negative k st n d Hr Hk Hd _. cbn [handleDigit Int128CastOperation]. cbv zeta.
    set (full := if negative then _ else _ : bool).
    assert (full = false → if negative then INT64_MIN ≤ intermediate st * 10 - d else intermediate st * 10 + d ≤ INT64_MAX) as Hroom.
    { destruct Hr as (_ & Hi & _ & _ & _ & Hs). unfold full, INT64_MIN, INT64_MAX in *.
      destruct negative; [rewrite below_quotient by lia|rewrite above_quotient by lia]; rewrite Z.ltb_ge; done. }
    destruct full; cbn [mbind Res_bind]; [|apply reads_append; [done|lia|done|by apply Hroom]].
    pose proof (flush_spec negative k st n Hr) as Hf. pose proof (reads_int128_sign negative k st n Hr) as Hsg. unfold outcome in Hf.
    destruct (flush st) as [[st'|]|]; cbn [mbind Res_bind]; [|destruct negative; lia..]. destruct Hf as [Hf _].
    apply reads_append; [by apply reads_flushed|lia|done|]. destruct Hf as (_ & _ & -> & _). unfold INT64_MIN, INT64_MAX. destruct negative; lia.
  - intros negative k st n Hr Hk. apply (flush_spec negative k st n Hr).
Qed.

Lemma trySimpleInt128Cast_spec s n :
  (length (removeCStringWhiteSpaces s) ≤ 255)%nat →
  ((∃ x, trySimpleInt128Cast s = Ret (Some x) ∧ wf x ∧ val x = n) ↔ denotes (removeCStringWhiteSpaces s) n ∧ - 2 ^ 127 ≤ n < 2 ^ 127) ∧
  (∀ x, trySimpleInt128Cast s = Ret (Some x) → wf x).
Proof.
  intros Hl. set (st0 := mkCastData (mk128 0 0) 0 0). assert (final_int128 st0 0) as Hf0 by (split_and!; [split; simpl; lia|done..]).
  destruct (tryIntegerCast_spec Int128CastOperation true (- 2 ^ 127) (2 ^ 127 - 1) (λ k, k ≤ 255)%nat reads_int128 final_int128 s st0) as [H1 H2];
    [by apply reads_flushed..|done|].
  unfold trySimpleInt128Cast. fold st0. destruct (tryIntegerCast Int128CastOperation true s st0) as [[st|]|]; cbn [mbind Res_bind option_map].
  - destruct (H2 st eq_refl) as [m Hm]. destruct (H1 m Hm) as [(Hw & Hv & _) Hr]. split; [split|].
    + intros (x & [= <-] & _ & <-). rewrite Hv. split; [done|lia].
    + intros [Hd _]. destruct (H1 n Hd) as [(_ & Hv' & _) _]. by exists (result128 st).
    + by intros x [= <-].
  - split; [split|done]; [by intros (x & ? & _)|]. intros [Hd Hr]. apply H1 in Hd. unfold outcome in Hd. lia.
  - split; [split|done]; [by intros (x & ? & _)|]. intros [Hd Hr]. apply H1 in Hd. unfold outcome in Hd. lia.
Qed.

(** Casting a string of at most 255 characters to a 128-bit integer succeeds exactly when the
    string, without the white space around it, is a numeral in the 128-bit range, and gives its
    number; the digits are collected in 64-bit groups whose scaling never loses one. *)
Theorem int128_cast_exact s n :
  (length (removeCStringWhiteSpaces s) ≤ 255)%nat →
  ((∃ x, trySimpleInt128Cast s = Ret (Some x) ∧ wf x ∧ val x = n) ↔ denotes (removeCStringWhiteSpaces s) n ∧ - 2 ^ 127 ≤ n < 2 ^ 127) ∧
  (∀ x, trySimpleInt128Cast s = Ret (Some x) → wf x).
Proof. apply trySimpleInt128Cast_spec. Qed.

(** The count of the digits of a group is a byte: after 256 zeros it is zero again, and the group is
    taken for an empty one. *)
Theorem int128_cast_drops_zeros :
  ∃ s, denotes s (9223372036854775807 * 10 ^ 256) ∧ trySimpleInt128Cast s = Ret (Some (mk128 9223372036854775807 0)).
Proof.
  exists (String.list_ascii_of_string "9223372036854775807" ++ replicate 256 "0"%char). split; [|by_eval].
  exists (String.list_ascii_of_string "9223372036854775807" ++ replicate 256 "0"%char). split; [unfold all_digits; by_eval|]. split; [done|].
  right. split; [done|]. split; [by_eval|]. by right.
Qed.

(** ** Printing and reading *)

Lemma skip_front_id l : (∀ c, head l = Some c → isSpace c = false) → skip_front l = l.
Proof. destruct l as [|c l]; [done|]. intros H. cbn [skip_front]. by rewrite H. Qed.

Lemma no_spaces l : Forall (λ c, isSpace c = false) l → removeCStringWhiteSpaces l = l.
Proof.
  intros Hl. assert (∀ l', Forall (λ c, isSpace c = false) l' → skip_front l' = l') as Hid.
  { intros l' Hl'. apply skip_front_id. intros c Hc. destruct l'; [done|]. injection Hc as ->. by apply Forall_cons in Hl' as [? _]. }
  unfold removeCStringWhiteSpaces. rewrite (Hid l Hl), Hid; [apply reverse_involutive|]. by apply Forall_reverse.
Qed.

Lemma digit_no_space c : CharacterIsDigit c = true → isSpace c = false.
Proof.
  unfold CharacterIsDigit, isSpace. rewrite andb_true_iff, !Nat.leb_le. intros Hc. destruct (Nat.eqb_spec (nat_of_ascii c) 32); [lia|].
  destruct (Nat.leb_spec (nat_of_ascii c) 13); [lia|]. by rewrite andb_false_r.
Qed.

Lemma denotes_no_spaces l n : denotes l n → removeCStringWhiteSpaces l = l.
Proof.
  intros (ds & Hds & _ & Hl). assert (Forall (λ c, isSpace c = false) ds) as Hns by (eapply Forall_impl; [exact Hds|exact digit_no_space]).
  apply no_spaces. destruct Hl as [[-> _]|[-> _]]; [by constructor|done].
Qed.

Lemma read_digits_spec s acc n : read_digits s acc = Some n →
  all_digits (String.list_ascii_of_string s) ∧ n = dec_value acc (String.list_ascii_of_string s).
Proof.
  revert acc. induction s as [|c s IH]; intros acc; cbn [read_digits String.list_ascii_of_string]; [intros [= <-]; split; [constructor|done]|].
  unfold digit_of. destruct (decide _) as [Hd|]; [|done]. cbn [mbind option_bind]. intros Hr. destruct (IH _ Hr) as [Hds ->]. split.
  - constructor; [|done]. unfold CharacterIsDigit. apply andb_true_iff. rewrite !Nat.leb_le. lia.
  - change (dec_value acc (c :: ?l)) with (dec_value (digit_val c + acc * 10) l). f_equal. unfold digit_val. lia.
Qed.

Lemma read_natural_spec s n : read_natural s = Some n →
  let l := String.list_ascii_of_string s in all_digits l ∧ l ≠ [] ∧ n = dec_value 0 l ∧ (length l = 1%nat ∨ head l ≠ Some "0"%char).
Proof.
  destruct s as [|c s]; [done|]. cbn [read_natural]. destruct (decide _) as [|Hz]; [done|]. intros Hr. destruct (read_digits_spec _ _ _ Hr) as [Hds Hn].
  split_and!; [done..|]. destruct s as [|c' s]; [by left|]. right. intros [= ->]. by apply Hz.
Qed.

Lemma read_int_denotes s n : read_int s = Some n → denotes (String.list_ascii_of_string s) n.
Proof.
  assert (read_natural s = Some n → denotes (String.list_ascii_of_string s) n) as Hnat.
  { intros Hn. destruct (read_natural_spec s n Hn) as (? & ? & ? & ?). exists (String.list_ascii_of_string s). split_and!; [done..|]. right. done. }
  destruct s as [|c s]; [done|]. destruct (decide (c = "-"%char)) as [->|Hc].
  - cbn [read_int]. destruct (read_natural s) as [m|] eqn:Hm; [|done]. cbn [mbind option_bind]. destruct (decide (m = 0)); [done|]. intros [= <-].
    destruct (read_natural_spec s m Hm) as (? & ? & -> & _). exists (String.list_ascii_of_string s). split_and!; [done..|]. by left.
  - intros Hr. apply Hnat. destruct c as [[] [] [] [] [] [] [] []]; done.
Qed.

Lemma read_natural_length s n k : read_natural s = Some n → n < 10 ^ Z.of_nat k → (length (String.list_ascii_of_string s) ≤ S k)%nat.
Proof.
  intros Hr Hn. destruct (read_natural_spec s n Hr) as (Hds & _ & -> & Hl). destruct (String.list_ascii_of_string s) as [|c l]; [simpl; lia|].
  destruct Hl as [->|Hz]; [lia|]. apply Forall_cons in Hds as [Hc Hds]. rewrite dec_value_cons in Hn. pose proof (dec_value_range l Hds).
  assert (1 ≤ digit_val c).
  { pose proof (digit_val_range c Hc). destruct (decide (digit_val c = 0)) as [E|]; [|lia]. exfalso. apply Hz. simpl. f_equal. by apply digit_zero. }
  destruct (decide (length l ≤ k)%nat); [simpl; lia|]. assert (10 ^ Z.of_nat k ≤ 10 ^ Z.of_nat (length l)) by (apply Z.pow_le_mono_r; lia). nia.
Qed.

Lemma read_int_length s n : read_int s = Some n → - 2 ^ 127 ≤ n < 2 ^ 127 → (length (String.list_ascii_of_string s) ≤ 255)%nat.
Proof.
  intros Hr Hn. destruct s as [|c s]; [done|]. destruct (decide (c = "-"%char)) as [->|Hc].
  - cbn [read_int] in Hr. destruct (read_natural s) as [m|] eqn:Hm; [|done]. cbn [mbind option_bind] in Hr. destruct (decide (m = 0)); [done|]. injection Hr as <-.
    pose proof (read_natural_length s m 39 Hm ltac:(change (Z.of_nat 39) with 39; lia)). cbn [String.list_ascii_of_string length]. lia.
  - assert (read_natural (String c s) = Some n) as Hm by (destruct c as [[] [] [] [] [] [] [] []]; done).
    pose proof (read_natural_length _ n 39 Hm ltac:(change (Z.of_nat 39) with 39; lia)). lia.
Qed.

(** C37. Printing a 128-bit integer and casting the string back returns the integer, for every one of
    them, the least included: [ToString] terminates and [CastString] inverts it. *)
Theorem int128_string_roundtrip x :
  wf x → ∃ s, ToString x = Some s ∧ simpleInt128Cast (String.list_ascii_of_string s) = Ret x.
Proof.
  intros Hx. destruct (ToString_spec x Hx) as (s & Hs & Hr). exists s. split; [done|]. pose proof (val_range x Hx) as Hrange.
  pose proof (read_int_length s _ Hr Hrange) as Hlen. apply read_int_denotes in Hr.
  pose proof (denotes_no_spaces _ _ Hr) as Htrim.
  destruct (trySimpleInt128Cast_spec (String.list_ascii_of_string s) (val x)) as [Hc _]; rewrite Htrim in *.
  - done.
  - destruct (proj2 Hc) as (y & Hy & Hwy & Hvy); [done|]. unfold simpleInt128Cast. rewrite Hy. cbn [mbind Res_bind]. by rewrite (wf_eq y x).
Qed.

Lemma int128_string_roundtrip_witness : ∃ s, ToString (mk128 0 INT64_MIN) = Some s ∧ simpleInt128Cast (String.list_ascii_of_string s) = Ret (mk128 0 INT64_MIN).
Proof. apply (int128_string_roundtrip (mk128 0 INT64_MIN)). by_eval. Defined.

(** ** Decimals *)

Lemma add_digit_spec t r d : 0 ≤ r ≤ maximum t → 0 ≤ d ≤ 9 →
  handleDigit (IntegerCastOperation t) false r d = Ret (if decide (r * 10 + d ≤ maximum t) then Some (r * 10 + d) else None).
Proof.
  intros Hr Hd. pose proof (type_bounds t) as [Hmin Hmax]. cbn [handleDigit IntegerCastOperation]. rewrite above_quotient by lia.
  destruct (Z.ltb_spec (maximum t) (r * 10 + d)); [by rewrite decide_False by lia|]. rewrite decide_True by lia.
  rewrite static_cast_id; [done|]. destruct (isSigned t); lia.
Qed.

Lemma dec_value_step acc c l : dec_value acc (c :: l) = dec_value (acc * 10 + digit_val c) l.
Proof. unfold dec_value. cbn [foldl]. by rewrite (Z.add_comm (digit_val c)). Qed.

Lemma digit_no_period c : CharacterIsDigit c = true → c ≠ "."%char.
Proof. by intros H ->. Qed.

(** A run of digits that are all within the scale is added to the result. *)
Lemma decimal_loop_digits t scale ds rest pos periodPos r :
  all_digits ds → 0 ≤ r ≤ maximum t →
  (∀ i, 0 ≤ i < Z.of_nat (length ds) → (pos + i >? periodPos) && (u64 (pos + i - periodPos) >? scale) = false) →
  decimal_loop t scale (ds ++ rest) pos periodPos r =
    if decide (dec_value r ds ≤ maximum t) then decimal_loop t scale rest (pos + Z.of_nat (length ds)) periodPos (dec_value r ds) else Ret None.
Proof.
  intros Hds. revert pos r. induction Hds as [|c ds Hc Hds IH]; intros pos r Hr Hin.
  - change (dec_value r []) with r. rewrite decide_True by lia. simpl. by rewrite Z.add_0_r.
  - cbn [app decimal_loop]. rewrite decide_False by (by apply digit_no_period). pose proof (Hin 0 ltac:(simpl; lia)) as H0. rewrite Z.add_0_r in H0. rewrite H0, Hc.
    cbn [negb]. pose proof (digit_val_range c Hc) as Hd. rewrite add_digit_spec by done. cbn [mbind Res_bind]. rewrite dec_value_step.
    pose proof (dec_value_mono (r * 10 + digit_val c) ds ltac:(lia) Hds). destruct (decide (r * 10 + digit_val c ≤ maximum t)); [|by rewrite decide_False by lia].
    rewrite IH; [|lia|].
    + cbn [length]. by replace (pos + 1 + Z.of_nat (length ds)) with (pos + Z.of_nat (S (length ds))) by lia.
    + intros i Hi. replace (pos + 1 + i) with (pos + (i + 1)) by lia. apply Hin. cbn [length]. lia.
Qed.

Lemma trailing_loop_spec fuel t scale pos periodPos r k :
  u64 (pos - periodPos) + Z.of_nat k = scale + 1 → scale < 2 ^ 32 → (k ≤ fuel)%nat → 0 ≤ r ≤ maximum t →
  trailing_loop fuel t scale pos periodPos r = Ret (if decide (r * 10 ^ Z.of_nat k ≤ maximum t) then Some (r * 10 ^ Z.of_nat k) else None).
Proof.
  intros Hk Hs. revert pos r k Hk. induction fuel as [|fuel IH]; intros pos r k Hk Hf Hr.
  - assert (k = 0%nat) as -> by lia. cbn [trailing_loop]. destruct (Z.ltb_spec (u64 (pos - periodPos)) (scale + 1)); [lia|]. rewrite Z.mul_1_r, decide_True by lia. done.
  - cbn [trailing_loop]. destruct (Z.ltb_spec (u64 (pos - periodPos)) (scale + 1)).
    2:{ pose proof (u64_range (pos - periodPos)). assert (k = 0%nat) as -> by lia. rewrite Z.mul_1_r, decide_True by lia. done. }
    destruct k as [|k]; [lia|]. rewrite add_digit_spec by lia. rewrite Nat2Z.inj_succ, Z.pow_succ_r, Z.add_0_r by lia. cbn [mbind Res_bind].
    assert (0 < 10 ^ Z.of_nat k) by (apply Z.pow_pos_nonneg; lia). replace (r * (10 * 10 ^ Z.of_nat k)) with (r * 10 * 10 ^ Z.of_nat k) by lia.
    destruct (decide (r * 10 ≤ maximum t)); [|rewrite decide_False by nia; done]. rewrite (IH (pos + 1) (r * 10) k); [done| |lia..].
    pose proof (u64_range (pos - periodPos)). replace (pos + 1 - periodPos) with (pos - periodPos + 1) by lia.
    unfold u64 in *. rewrite <-Zplus_mod_idemp_l. rewrite (Z.mod_small ((pos - periodPos) `mod` 2 ^ 64 + 1)) by lia. lia.
Qed.

(** The characters after the integral digits: none, or a period and the fractional digits. *)
Definition fractional (ds fs p : list ascii) : Prop := (p = [] ∧ fs = [] ∧ ds ≠ []) ∨ p = "."%char :: fs.

Lemma decimal_loop_spec t (scale : nat) ds fs p :
  all_digits ds → all_digits fs → fractional ds fs p → Z.of_nat (length (ds ++ p)) < 2 ^ 32 →
  let T := dec_value 0 (ds ++ take scale fs) in
  ∃ pos periodPos, u64 (pos - periodPos) + Z.of_nat (scale - length fs) = Z.of_nat scale + 1 ∧
    decimal_loop t (Z.of_nat scale) (ds ++ p) 0 (u64 (Z.of_nat (length (ds ++ p)) - 1)) 0 =
      Ret (if decide (T ≤ maximum t) then Some (T, pos, periodPos, drop scale fs) else None).
Proof.
  intros Hds Hfs Hp Hlen T. pose proof (type_bounds t) as [_ Hmax].
  assert (1 ≤ length (ds ++ p))%nat as Hne by (destruct Hp as [(-> & _ & Hne)| ->]; rewrite length_app; [destruct ds; [done|]|]; simpl; lia).
  rewrite (u64_id (Z.of_nat _ - 1)) by lia. rewrite decimal_loop_digits; [|done|lia|].
  2:{ intros i Hi. rewrite Z.gtb_ltb. destruct (Z.ltb_spec (Z.of_nat (length (ds ++ p)) - 1) (0 + i)); [|done]. rewrite length_app in *. lia. }
  assert (T = dec_value (dec_value 0 ds) (take scale fs)) as HT by (unfold T; apply dec_value_app).
  assert (all_digits (take scale fs)) as Hfs' by (by apply Forall_take).
  pose proof (dec_value_mono 0 ds ltac:(lia) Hds) as H0. pose proof (dec_value_mono (dec_value 0 ds) (take scale fs) H0 Hfs') as Hle.
  destruct Hp as [(-> & -> & _)| ->].
  - exists (0 + Z.of_nat (length ds)), (Z.of_nat (length (ds ++ [])) - 1). rewrite take_nil, drop_nil in *. change (dec_value (dec_value 0 ds) []) with (dec_value 0 ds) in HT.
    rewrite HT. split; [rewrite app_nil_r; replace (0 + _ - _) with 1 by lia; change (u64 1) with 1; simpl; lia|]. by destruct (decide _).
  - cbn [decimal_loop]. destruct (decide ("."%char = "."%char)) as [_|]; [|done]. exists (0 + Z.of_nat (length ds) + 1 + Z.of_nat (length (take scale fs))), (0 + Z.of_nat (length ds)).
    rewrite length_app in Hlen. cbn [length] in Hlen. rewrite length_take.
    split; [rewrite u64_id by lia; lia|]. destruct (decide (dec_value 0 ds ≤ maximum t)); [|by rewrite decide_False by lia].
    rewrite <-(take_drop scale fs) at 1. rewrite decimal_loop_digits; [|done|lia|].
    2:{ intros i Hi. rewrite length_take in Hi. rewrite u64_id by lia. rewrite !Z.gtb_ltb. apply andb_false_iff. right. apply Z.ltb_ge. lia. }
    rewrite <-HT, length_take. destruct (decide (T ≤ maximum t)); [|done].
    destruct (drop scale fs) as [|d rest] eqn:Hdrop; [done|]. assert (scale < length fs)%nat as Hlong by (apply (f_equal length) in Hdrop; rewrite length_drop in Hdrop; simpl in Hdrop; lia).
    assert (CharacterIsDigit d = true) as Hd. { assert (all_digits (drop scale fs)) as Hdr by (by apply Forall_drop). rewrite Hdrop in Hdr. by apply Forall_cons in Hdr as [? _]. }
    cbn [decimal_loop]. rewrite decide_False by (by apply digit_no_period). rewrite !Z.gtb_ltb, u64_id by lia.
    rewrite (proj2 (Z.ltb_lt (0 + _) _)), (proj2 (Z.ltb_lt (Z.of_nat scale) _)) by lia. done.
Qed.

(** The digits up to the scale, as an integer, and one more when the next digit is at least five. *)
Definition truncated (ds fs : list ascii) (scale : nat) : Z :=
  dec_value 0 (ds ++ take scale fs) * 10 ^ Z.of_nat (scale - length fs).

Definition round_up (fs : list ascii) (scale : nat) : Z :=
  match fs !! scale with Some c => Z.b2z (5 <=? digit_val c) | None => 0 end.

Lemma pow10_int t (precision : nat) : isSigned t = true → (precision < digits t)%nat →
  pow10Sequence_int t !! precision = Some (10 ^ Z.of_nat precision) ∧ 10 ^ Z.of_nat precision ≤ maximum t.
Proof.
  intros Hs Hp. assert (Forall (λ k, pow10Sequence_int t !! k = Some (10 ^ Z.of_nat k) ∧ 10 ^ Z.of_nat k ≤ maximum t) (seq 0 (digits t))) as H by (destruct t; by_eval).
  rewrite Forall_forall in H. apply H, elem_of_seq. lia.
Qed.

Lemma fractional_no_spaces ds fs p : all_digits ds → all_digits fs → fractional ds fs p → Forall (λ c, isSpace c = false) (ds ++ p).
Proof.
  intros Hds Hfs Hp. apply Forall_app. split; [eapply Forall_impl; [exact Hds|exact digit_no_space]|].
  destruct Hp as [(-> & _)| ->]; [done|]. constructor; [done|]. eapply Forall_impl; [exact Hfs|exact digit_no_space].
Qed.

(** Rounding and padding what the loop has read. *)
Lemma round_and_pad t (scale : nat) ds fs pos periodPos :
  all_digits ds → all_digits fs → isSigned t = true → Z.of_nat scale < 2 ^ 32 →
  u64 (pos - periodPos) + Z.of_nat (scale - length fs) = Z.of_nat scale + 1 →
  dec_value 0 (ds ++ take scale fs) ≤ maximum t → truncated ds fs scale ≠ maximum t →
  ∃ r, match drop scale fs with
       | [] => Some (dec_value 0 (ds ++ take scale fs))
       | d :: _ => if negb (CharacterIsDigit d) then None
           else Some (if digit_val d >=? 5 then static_cast t (dec_value 0 (ds ++ take scale fs) + 1) else dec_value 0 (ds ++ take scale fs))
       end = Some r ∧
    trailing_loop (Z.to_nat (Z.of_nat scale + 1)) t (Z.of_nat scale) pos periodPos r =
      Ret (if decide (truncated ds fs scale + round_up fs scale ≤ maximum t) then Some (truncated ds fs scale + round_up fs scale) else None).
Proof.
  intros Hds Hfs Hsg Hs Hpos Hmax Hne. pose proof (type_bounds t) as [Hmin _]. rewrite Hsg in Hmin. unfold truncated, round_up in *.
  set (T := dec_value 0 (ds ++ take scale fs)) in *.
  assert (0 ≤ T) by (apply dec_value_range, Forall_app; split; [done|by apply Forall_take]). destruct (drop scale fs) as [|d rest] eqn:Hdrop.
  - assert (length fs ≤ scale)%nat as Hl by (apply (f_equal length) in Hdrop; rewrite length_drop in Hdrop; simpl in Hdrop; lia).
    exists T. split; [done|]. rewrite (lookup_ge_None_2 fs) by done. rewrite Z.add_0_r. apply trailing_loop_spec; lia.
  - assert (fs !! scale = Some d) as Hd by (rewrite <-(Nat.add_0_r scale), <-lookup_drop, Hdrop; done). rewrite Hd.
    assert (scale < length fs)%nat as Hlong by (by apply lookup_lt_Some in Hd). replace (scale - length fs)%nat with 0%nat in * by lia.
    rewrite Z.mul_1_r in *. assert (CharacterIsDigit d = true) as -> by (exact (Forall_lookup_1 _ fs _ _ Hfs Hd)). cbn [negb]. rewrite Z.geb_leb.
    eexists. split; [done|]. destruct (Z.leb_spec 5 (digit_val d)); cbn [Z.b2z].
    + rewrite static_cast_id by lia. rewrite (trailing_loop_spec _ _ _ _ _ _ 0) by lia. by rewrite Z.mul_1_r.
    + rewrite (trailing_loop_spec _ _ _ _ _ _ 0) by lia. by rewrite Z.mul_1_r, Z.add_0_r.
Qed.

(** Casting digits with at most one period to a decimal of a given precision and scale rounds
    them half away from zero at the scale, and succeeds exactly when the rounded number has at most
    that many digits. The one exception is a truncated number that is the largest of the integer
    type, which is rounded up past it. *)
Theorem decimal_cast_exact t (negative : bool) ds fs p (precision scale : nat) :
  isSigned t = true → (precision < digits t)%nat → Z.of_nat scale < 2 ^ 32 →
  all_digits ds → all_digits fs → fractional ds fs p → Z.of_nat (length (ds ++ p)) < 2 ^ 32 →
  truncated ds fs scale ≠ maximum t →
  tryDecimalCast t ((if negative then ["-"%char] else []) ++ ds ++ p) (Z.of_nat precision) (Z.of_nat scale) =
    let q := truncated ds fs scale + round_up fs scale in
    Ret (if decide (q < 10 ^ Z.of_nat precision) then Some (if negative then - q else q) else None).
Proof.
  intros Hsg Hp Hs Hds Hfs Hfr Hlen Hne. destruct (pow10_int t precision Hsg Hp) as [Hpow Hpmax].
  pose proof (fractional_no_spaces ds fs p Hds Hfs Hfr) as Hns. assert (minimum t = - maximum t - 1) as Hmin by (unfold minimum, maximum; rewrite Hsg; lia).
  assert (0 ≤ round_up fs scale ≤ 1) as Hru by (unfold round_up; destruct (fs !! scale) as [c|]; [destruct (5 <=? digit_val c)|]; simpl; lia).
  assert (0 ≤ truncated ds fs scale ∧ dec_value 0 (ds ++ take scale fs) ≤ truncated ds fs scale) as [Htr0 Htr].
  { unfold truncated. assert (0 ≤ dec_value 0 (ds ++ take scale fs)) by (apply dec_value_range, Forall_app; split; [done|by apply Forall_take]).
    assert (0 < 10 ^ Z.of_nat (scale - length fs)) by (apply Z.pow_pos_nonneg; lia). nia. }
  destruct (decimal_loop_spec t scale ds fs p Hds Hfs Hfr Hlen) as (pos & periodPos & Hpos & Hloop).
  assert (∃ c rest, ds ++ p = c :: rest ∧ c ≠ "-"%char) as (c & rest & Ecr & Hc).
  { destruct ds as [|c ds]; [destruct Hfr as [(_ & _ & Hd)| ->]; [done|by exists "."%char, fs]|].
    apply Forall_cons in Hds as [Hdig _]. exists c, (ds ++ p). split; [done|]. by intros ->. }
  unfold tryDecimalCast. rewrite no_spaces by (apply Forall_app; split; [by destruct negative; repeat constructor|done]).
  assert (match (if negative then ["-"%char] else []) ++ ds ++ p with [] => True | x :: xs =>
    bool_decide (x = "-"%char) = negative ∧ (if negative then xs else x :: xs) = ds ++ p end) as Hsplit.
  { rewrite Ecr. destruct negative; [done|]. split; [by apply bool_decide_false|done]. }
  destruct ((if negative then ["-"%char] else []) ++ ds ++ p) as [|x xs] eqn:Einp; [by destruct negative; rewrite Ecr in Einp|].
  destruct Hsplit as [-> ->]. cbv zeta. rewrite Hloop. cbn [mbind Res_bind]. destruct (decide (dec_value 0 (ds ++ take scale fs) ≤ maximum t)) as [Hfit|Hfit].
  2:{ rewrite decide_False by lia. done. }
  destruct (round_and_pad t scale ds fs pos periodPos Hds Hfs Hsg Hs Hpos Hfit Hne) as (r & -> & ->). cbn [mbind Res_bind].
  destruct (decide (truncated ds fs scale + round_up fs scale ≤ maximum t)); [|by rewrite decide_False by lia].
  rewrite Nat2Z.id, Hpow, Z.geb_leb. destruct (Z.leb_spec (10 ^ Z.of_nat precision) (truncated ds fs scale + round_up fs scale)).
  - by rewrite decide_False by lia.
  - rewrite decide_True by lia. destruct negative; [rewrite static_cast_id by lia|]; done.
Qed.

(** The exception, and what else is accepted: a second period, anything after the digit that decides
    the rounding, and a minus sign alone. *)
Theorem decimal_cast_accepts :
  tryDecimalCast INT16 (String.list_ascii_of_string "32767.5") 4 0 = Ret (Some (-32768)) ∧
  tryDecimalCast INT16 (String.list_ascii_of_string "1.2.3") 4 2 = Ret (Some 1230) ∧
  tryDecimalCast INT16 (String.list_ascii_of_string "1.25abc") 4 1 = Ret (Some 13) ∧
  tryDecimalCast INT16 (String.list_ascii_of_string "-") 4 0 = Ret (Some 0).
Proof. by_eval. Qed.
