(* ===== verification/Interval.v ===== *)
(** Intervals ([src/src/common/types/interval_t.cpp], with [IntervalToStringCast] of
    [src/src/include/common/types/cast_helpers.h] and the casts between integer types of
    [src/src/include/function/cast/functions/numeric_cast.h]): comparison, arithmetic, parts, and the
    parser and the printer. The parser is written on the characters that are left; [StringUtils::toLower],
    which is the UTF-8 library, is a parameter. *)

From Stdlib Require Import Ascii.
From S2P Require Import Prelude Int128 CheckedArith Date Timestamp StringCast.

#[local] Open Scope Z_scope.

Definition chars (s : string) : list ascii := String.list_ascii_of_string s.

(** ** Casts between integer types *)

Definition tryCastWithOverflowCheck (src dst : IntType) (value : Z) : option Z :=
  let cast := Some (static_cast dst value) in
  if xorb (isSigned src) (isSigned dst) then
    if isSigned src then
      if (digits dst <? digits src)%nat
      then if (value <? 0) || (value >? static_cast src (maximum dst)) then None else cast
      else if value <? 0 then None else cast
    else if (digits dst <=? digits src)%nat
      then if value <=? static_cast src (maximum dst) then cast else None
      else cast
  else if (digits src <=? digits dst)%nat then cast
  else if (value <? static_cast src (minimum dst)) || (value >? static_cast src (maximum dst)) then None
  else cast.

(** [CastToInt32::operation] and its like. *)
Definition CastTo_operation (src dst : IntType) (value : Z) : Res Z := checked (tryCastWithOverflowCheck src dst value).

(** ** Comparison and arithmetic *)

Definition interval_eqb (a b : interval_t) : bool := (days a =? days b) && (months a =? months b) && (micros a =? micros b).

Definition normalizeIntervalEntries (input : interval_t) : Z * Z * Z :=
  let extra_months_d := Z.quot (days input) DAYS_PER_MONTH in
  let extra_months_micros := Z.quot (micros input) MICROS_PER_MONTH in
  let input_days := i32 (days input - extra_months_d * DAYS_PER_MONTH) in
  let input_micros := i64 (micros input - extra_months_micros * MICROS_PER_MONTH) in
  let extra_days_micros := Z.quot input_micros MICROS_PER_DAY in
  let input_micros := i64 (input_micros - extra_days_micros * MICROS_PER_DAY) in
  (i64 (months input + extra_months_d + extra_months_micros), i64 (input_days + extra_days_micros), input_micros).

Definition interval_greaterThan (a b : interval_t) : bool :=
  let '(lMonths, lDays, lMicros) := normalizeIntervalEntries a in
  let '(rMonths, rDays, rMicros) := normalizeIntervalEntries b in
  if lMonths >? rMonths then true
  else if lMonths <? rMonths then false
  else if lDays >? rDays then true
  else if lDays <? rDays then false
  else lMicros >? rMicros.

Definition interval_gtb (a b : interval_t) : bool := interval_greaterThan a b.
Definition interval_leb (a b : interval_t) : bool := negb (interval_gtb a b).
Definition interval_geb (a b : interval_t) : bool := interval_gtb a b || interval_eqb a b.
Definition interval_ltb (a b : interval_t) : bool := negb (interval_geb a b).
Definition interval_neb (a b : interval_t) : bool := negb (interval_eqb a b).

Definition interval_plus (a b : interval_t) : interval_t :=
  mkInterval (i32 (months a + months b)) (i32 (days a + days b)) (i64 (micros a + micros b)).

Definition interval_minus (a b : interval_t) : interval_t :=
  mkInterval (i32 (months a - months b)) (i32 (days a - days b)) (i64 (micros a - micros b)).

(** The operands of the division and the remainder are converted to the unsigned type of the divisor. *)
Definition interval_div (a : interval_t) (rhs : Z) : Res interval_t :=
  if rhs =? 0 then Throw AssertionFailure
  else
    let monthsRemainder := i32 (u64 (months a) `mod` rhs) in
    let d := i64 (days a + i64 (monthsRemainder * DAYS_PER_MONTH)) in
    let daysRemainder := i32 (u64 d `mod` rhs) in
    let us := i64 (micros a + i64 (daysRemainder * MICROS_PER_DAY)) in
    Ret (mkInterval (i32 (u64 (months a) / rhs)) (i32 (u64 d / rhs)) (i64 (u64 us / rhs))).

Definition getIntervalPart (specifier : DatePartSpecifier) (interval : interval_t) : Res Z :=
  let month := Z.rem (months interval) MONTHS_PER_YEAR in
  let microsecond := i32 (Z.rem (micros interval) MICROS_PER_MINUTE) in
  match specifier with
  | YEAR => Ret (Z.quot (months interval) MONTHS_PER_YEAR)
  | MONTH => Ret month
  | DAY => Ret (days interval)
  | DECADE => Ret (Z.quot (months interval) MONTHS_PER_DECADE)
  | CENTURY => Ret (Z.quot (months interval) MONTHS_PER_CENTURY)
  | MILLENNIUM => Ret (Z.quot (months interval) MONTHS_PER_MILLENIUM)
  | QUARTER => Ret (Z.quot month MONTHS_PER_QUARTER + 1)
  | MICROSECOND => Ret microsecond
  | MILLISECOND => Ret (Z.quot microsecond MICROS_PER_MSEC)
  | SECOND => Ret (Z.quot microsecond MICROS_PER_SEC)
  | MINUTE => Ret (i32 (Z.quot (Z.rem (micros interval) MICROS_PER_HOUR) MICROS_PER_MINUTE))
  | HOUR => Ret (i32 (Z.quot (micros interval) MICROS_PER_HOUR))
  | WEEK => Throw AssertionFailure
  end.

Definition getMicro (val : interval_t) : Z :=
  i64 (i64 (micros val + i64 (months val * MICROS_PER_MONTH)) + i64 (days val * MICROS_PER_DAY)).

Definition getNanoseconds (val : interval_t) : Z := i64 (getMicro val * NANOS_PER_MICRO).

(** ** Parsing *)

Definition intervalTryCastInteger (t : IntType) (input : Z) : Res Z :=
  if isSigned t then CastTo_operation INT64 t input else Throw ConversionException.

Definition intervalTryAddition (t : IntType) (target input multiplier fraction : Z) : Res Z :=
  addition ← Multiply_operation INT64 input multiplier;
  additionBase ← intervalTryCastInteger t addition;
  target ← Add_operation t target additionBase;
  if fraction =? 0 then Ret target
  else
    let addition := Z.quot (i64 (fraction * multiplier)) MICROS_PER_SEC in
    additionBase ← intervalTryCastInteger t addition;
    Add_operation t target additionBase.

Definition specifier_names : list (DatePartSpecifier * list string) :=
  [(YEAR, ["year"; "yr"; "y"; "years"; "yrs"]);
   (MONTH, ["month"; "mon"; "months"; "mons"]);
   (DAY, ["day"; "days"; "d"; "dayofmonth"]);
   (DECADE, ["decade"; "dec"; "decades"; "decs"]);
   (CENTURY, ["century"; "cent"; "centuries"; "c"]);
   (MILLENNIUM, ["millennium"; "mil"; "millenniums"; "millennia"; "mils"; "millenium"; "milleniums"]);
   (MICROSECOND, ["microseconds"; "microsecond"; "us"; "usec"; "usecs"; "usecond"; "useconds"]);
   (MILLISECOND, ["milliseconds"; "millisecond"; "ms"; "msec"; "msecs"; "msecond"; "mseconds"]);
   (SECOND, ["second"; "sec"; "seconds"; "secs"; "s"]);
   (MINUTE, ["minute"; "min"; "minutes"; "mins"; "m"]);
   (HOUR, ["hour"; "hr"; "hours"; "hrs"; "h"]);
   (WEEK, ["week"; "weeks"; "w"; "weekofyear"]);
   (QUARTER, ["quarter"; "quarters"])]%string.

(** The chain of comparisons of [tryGetDatePartSpecifier]. *)
Fixpoint lookup_name (specifier : list ascii) (table : list (DatePartSpecifier * list string)) : Res DatePartSpecifier :=
  match table with
  | [] => Throw ConversionException
  | (part, names) :: table =>
      if bool_decide (specifier ∈ map chars names) then Ret part else lookup_name specifier table
  end.

(** The [switch] of [fromCString]. *)
Definition add_part (specifier : DatePartSpecifier) (number fraction : Z) (result : interval_t) : Res interval_t :=
  let set_months m := mkInterval m (days result) (micros result) in
  let set_days d := mkInterval (months result) d (micros result) in
  let set_micros us := mkInterval (months result) (days result) us in
  let months_by multiplier := m ← intervalTryAddition INT32 (months result) number multiplier fraction; Ret (set_months m) in
  let micros_by multiplier := us ← intervalTryAddition INT64 (micros result) number multiplier fraction; Ret (set_micros us) in
  match specifier with
  | MILLENNIUM => months_by MONTHS_PER_MILLENIUM
  | CENTURY => months_by MONTHS_PER_CENTURY
  | DECADE => months_by MONTHS_PER_DECADE
  | YEAR => months_by MONTHS_PER_YEAR
  | QUARTER =>
      m ← intervalTryAddition INT32 (months result) number MONTHS_PER_QUARTER fraction;
      let fraction := Z.rem (i64 (fraction * MONTHS_PER_QUARTER)) MICROS_PER_SEC in
      d ← intervalTryAddition INT32 (days result) 0 DAYS_PER_MONTH fraction;
      Ret (mkInterval m d (micros result))
  | MONTH =>
      m ← intervalTryAddition INT32 (months result) number 1 0;
      d ← intervalTryAddition INT32 (days result) 0 DAYS_PER_MONTH fraction;
      Ret (mkInterval m d (micros result))
  | DAY =>
      d ← intervalTryAddition INT32 (days result) number 1 0;
      us ← intervalTryAddition INT64 (micros result) 0 MICROS_PER_DAY fraction;
      Ret (mkInterval (months result) d us)
  | WEEK =>
      d ← intervalTryAddition INT32 (days result) number DAYS_PER_WEEK fraction;
      let fraction := Z.rem (i64 (fraction * DAYS_PER_WEEK)) MICROS_PER_SEC in
      us ← intervalTryAddition INT64 (micros result) 0 MICROS_PER_DAY fraction;
      Ret (mkInterval (months result) d us)
  | HOUR => micros_by MICROS_PER_HOUR
  | MINUTE => micros_by MICROS_PER_MINUTE
  | SECOND => micros_by MICROS_PER_SEC
  | MILLISECOND => micros_by MICROS_PER_MSEC
  | MICROSECOND =>
      let number := i64 (number + Z.quot (i64 (fraction * 2)) MICROS_PER_SEC) in
      us ← intervalTryAddition INT64 (micros result) number 1 0; Ret (set_micros us)
  end.

(** The characters of a leading run that satisfies [test], and the rest. *)
Fixpoint span (test : ascii → bool) (input : list ascii) : list ascii * list ascii :=
  match input with
  | c :: rest => if test c then let '(run, rest) := span test rest in (c :: run, rest) else ([], input)
  | [] => ([], [])
  end.

Section Parser.
  (** [StringUtils::toLower]. *)
  Variable toLower : list ascii → Res (list ascii).

Definition tryGetDatePartSpecifier (specifier : list ascii) : Res DatePartSpecifier :=
  specifier ← toLower specifier; lookup_name specifier specifier_names.

(** [interval_parse_number] up to [interval_parse_identifier]: the number, the fraction and what
    follows; at the end of the string the number and the fraction stay what they were. *)
Definition parse_number (run rest : list ascii) (number fraction : Z) : Res (Z * Z * list ascii) :=
  match rest with
  | [] => Ret (number, fraction, rest)
  | c :: after =>
      number ← simpleIntegerCast INT64 run;
      if decide (c = "."%char)
      then let '(fraction, pos) := parse_fraction (length after) after 0 100000 0 in Ret (number, fraction, drop pos after)
      else Ret (number, 0, rest)
  end.

(** The labels of [fromCString] as one loop, a round of which reads a number with its unit. *)
Fixpoint interval_loop (fuel : nat) (input : list ascii) (number fraction : Z) (foundAny : bool) (result : interval_t) : Res interval_t :=
  match fuel with
  | O => Throw AssertionFailure
  | S fuel =>
      let input := skip_front input in
      match input with
      | [] => if foundAny then Ret result else Throw ConversionException
      | c :: _ =>
          if negb (CharacterIsDigit c) then Throw ConversionException
          else
            let '(run, rest) := span CharacterIsDigit input in
            if decide (head rest = Some ":"%char) then
              match tryConvertInterval input with
              | None => Throw ConversionException
              | Some time => Ret (mkInterval (months result) (days result) (i64 (micros result + time)))
              end
            else
              '(number, fraction, rest) ← parse_number run rest number fraction;
              let '(specifierStr, rest) := span (λ c, negb (isSpace c)) (skip_front rest) in
              if decide (specifierStr = []) then Throw ConversionException
              else
                specifier ← tryGetDatePartSpecifier specifierStr;
                result ← add_part specifier number fraction result;
                interval_loop fuel rest number fraction true result
      end
  end.

(** A round consumes at least one character. *)
Definition interval_fromCString (str : list ascii) : Res interval_t :=
  match str with
  | [] => Throw ConversionException
  | c :: rest =>
      let input := if decide (c = "@"%char) then rest else str in
      interval_loop (S (length input)) input 0 0 false (mkInterval 0 0 0)
  end.

(** [Interval::addition]. *)
Definition interval_addition (result : interval_t) (number : Z) (specifierStr : list ascii) : Res interval_t :=
  specifierStr ← toLower specifierStr;
  let named names := bool_decide (specifierStr ∈ map chars names) in
  let add_months n := mkInterval (i32 (months result + n)) (days result) (micros result) in
  let add_micros n := mkInterval (months result) (days result) (i64 (micros result + n)) in
  if named ["year"; "years"; "y"]%string then Ret (add_months (number * MONTHS_PER_YEAR))
  else if named ["month"; "months"; "mon"]%string then Ret (add_months number)
  else if named ["day"; "days"; "d"]%string then Ret (mkInterval (months result) (i32 (days result + number)) (micros result))
  else if named ["hour"; "hours"; "h"]%string then Ret (add_micros (number * MICROS_PER_HOUR))
  else if named ["minute"; "minutes"; "m"]%string then Ret (add_micros (number * MICROS_PER_MINUTE))
  else if named ["second"; "seconds"; "s"]%string then Ret (add_micros (number * MICROS_PER_SEC))
  else if named ["millisecond"; "milliseconds"; "ms"; "msec"]%string then Ret (add_micros (number * MICROS_PER_MSEC))
  else if named ["microsecond"; "microseconds"; "us"]%string then Ret (add_micros number)
  else Throw ConversionException.

End Parser.

(** ** Printing *)

Definition getUnsignedInt64Length (value : Z) : nat :=
  let more bound := Nat.b2n (bound <=? value) in
  if 10 ^ 10 <=? value then
    if 10 ^ 15 <=? value then (16 + more (10 ^ 16)%Z + more (10 ^ 17)%Z + more (10 ^ 18)%Z + more (10 ^ 19)%Z)%nat
    else (11 + more (10 ^ 11)%Z + more (10 ^ 12)%Z + more (10 ^ 13)%Z + more (10 ^ 14)%Z)%nat
  else if 10 ^ 5 <=? value then (6 + more (10 ^ 6)%Z + more (10 ^ 7)%Z + more (10 ^ 8)%Z + more (10 ^ 9)%Z)%nat
  else (1 + more 10%Z + more 100%Z + more 1000%Z + more 10000%Z)%nat.

(** The printers append to the buffer. The number is written backwards from where its length says it
    ends, so the length has to be that of its digits. *)
Definition FormatSignedNumber (value : Z) (buffer : list ascii) : Res (list ascii) :=
  let sign := value <? 0 in
  let written := FormatUnsigned (if sign then u64 (- value) else value) [] in
  _ ← ku_assert (bool_decide (length written = getUnsignedInt64Length (if sign then u64 (- value) else value)));
  Ret (buffer ++ (if sign then ["-"%char] else []) ++ written).

Definition FormatIntervalValue (value : Z) (name : string) (buffer : list ascii) : Res (list ascii) :=
  if value =? 0 then Ret buffer
  else
    let buffer := if decide (buffer = []) then buffer else buffer ++ [" "%char] in
    buffer ← FormatSignedNumber value buffer;
    Ret (buffer ++ chars name ++ if negb (value =? 1) then ["s"%char] else []).

Definition format_micros (micros : Z) (buffer : list ascii) : Res (list ascii) :=
  let buffer := if decide (buffer = []) then buffer else buffer ++ [" "%char] in
  let buffer := if micros <? 0 then buffer ++ ["-"%char] else buffer in
  let micros := if micros <? 0 then i64 (- micros) else micros in
  let hour := Z.quot micros MICROS_PER_HOUR in
  let micros := micros - hour * MICROS_PER_HOUR in
  let min := Z.quot micros MICROS_PER_MINUTE in
  let micros := micros - min * MICROS_PER_MINUTE in
  let sec := Z.quot micros MICROS_PER_SEC in
  let micros := micros - sec * MICROS_PER_SEC in
  let buffer := if hour <? 10 then buffer ++ ["0"%char] else buffer in
  buffer ← FormatSignedNumber hour buffer;
  let buffer := buffer ++ ":"%char :: two_digits min ++ ":"%char :: two_digits sec in
  if micros =? 0 then Ret buffer
  else '(micro_buffer, zeros) ← FormatMicros micros; Ret (buffer ++ "."%char :: take (6 - zeros) micro_buffer).

Definition interval_Format (interval : interval_t) : Res (list ascii) :=
  let buffer := [] in
  buffer ← (if months interval =? 0 then Ret buffer
    else
      let years := Z.quot (months interval) 12 in
      buffer ← FormatIntervalValue years " year" buffer;
      FormatIntervalValue (months interval - years * 12) " month" buffer);
  buffer ← (if days interval =? 0 then Ret buffer else FormatIntervalValue (days interval) " day" buffer);
  if micros interval =? 0 then Ret (if decide (buffer = []) then chars "00:00:00" else buffer)
  else format_micros (micros interval) buffer.

Definition interval_toString (interval : interval_t) : Res (list ascii) := interval_Format interval.

(** ** Casts between integer types *)

Ltac eval_limits :=
  repeat match goal with
  | |- context [static_cast ?s (?f ?d)] => let r := eval vm_compute in (static_cast s (f d)) in change (static_cast s (f d)) with r
  end;
  repeat match goal with
  | |- context [minimum ?t] => let r := eval vm_compute in (minimum t) in change (minimum t) with r
  | |- context [maximum ?t] => let r := eval vm_compute in (maximum t) in change (maximum t) with r
  end.

(** The cast from one machine integer type to another returns the value when the target type
    holds it and throws otherwise, for every pair of types: the comparisons of the numbers of digits
    leave out no check that is needed. *)
Lemma integer_conversion_spec src dst v : holds src v → CastTo_operation src dst v = exact dst v.
Proof.
  intros Hv. unfold CastTo_operation. rewrite <-checked_exact. f_equal. unfold tryCastWithOverflowCheck, exact_opt. cbv zeta.
  assert (holds dst v → static_cast dst v = v) as Hid by (apply static_cast_id). rewrite !Z.gtb_ltb. revert Hv Hid. unfold holds.
  destruct src, dst; cbn [isSigned digits xorb Nat.leb Nat.ltb]; eval_limits; intros Hv Hid;
    repeat match goal with |- context [if ?a <? ?b then _ else _] => destruct (Z.ltb_spec a b) end;
    repeat match goal with |- context [?a <? ?b] => destruct (Z.ltb_spec a b) | |- context [?a <=? ?b] => destruct (Z.leb_spec a b) end;
    cbn [orb]; case_decide; rewrite ?Hid by lia; done || lia.
Qed.

(** ** The parser terminates *)

Lemma skip_front_length l : (length (skip_front l) ≤ length l)%nat.
Proof. induction l as [|c l IH]; cbn [skip_front length]; [done|]. destruct (isSpace c); cbn [length]; lia. Qed.

Lemma span_app test l run rest : span test l = (run, rest) → l = run ++ rest.
Proof.
  revert run rest. induction l as [|c l IH]; intros run rest; cbn [span]; [by intros [= <- <-]|]. destruct (test c); [|by intros [= <- <-]].
  destruct (span test l) as [r1 r2]. intros [= <- <-]. cbn [app]. f_equal. by apply IH.
Qed.

Lemma parse_number_length run rest number fraction n f rest' :
  parse_number run rest number fraction = Ret (n, f, rest') → (length rest' ≤ length rest)%nat.
Proof.
  unfold parse_number. destruct rest as [|c after]; [by intros [= <- <- <-]|]. destruct (simpleIntegerCast INT64 run); [|done]. cbn [mbind Res_bind].
  destruct (decide _); [|by intros [= <- <- <-]]. destruct (parse_fraction _ _ _ _ _) as [fr pos]. intros [= <- <- <-]. rewrite length_drop. simpl. lia.
Qed.

Lemma interval_loop_fuel toLower fuel fuel' input number fraction foundAny result :
  (length input < fuel)%nat → (length input < fuel')%nat →
  interval_loop toLower fuel input number fraction foundAny result = interval_loop toLower fuel' input number fraction foundAny result.
Proof.
  revert fuel' input number fraction foundAny result. induction fuel as [|fuel IH]; intros fuel' input number fraction foundAny result Hf Hf'; [lia|].
  destruct fuel' as [|fuel']; [lia|]. cbn [interval_loop]. cbv zeta. pose proof (skip_front_length input) as Hl.
  destruct (skip_front input) as [|c input'] eqn:Hin; [done|]. destruct (CharacterIsDigit c) eqn:Hc; [|done]. cbn [negb].
  destruct (span CharacterIsDigit (c :: input')) as [run rest] eqn:Hspan. destruct (decide _) as [|_]; [done|].
  assert (length rest < length (c :: input'))%nat as Hrest.
  { pose proof (span_app _ _ _ _ Hspan) as E. cbn [span] in Hspan. rewrite Hc in Hspan. destruct (span CharacterIsDigit input') as [r1 r2].
    injection Hspan as <- <-. rewrite E, length_app. simpl. lia. }
  destruct (parse_number run rest number fraction) as [[[n f] rest']|] eqn:Hp; [|done]. cbn [mbind Res_bind]. apply parse_number_length in Hp.
  destruct (span _ (skip_front rest')) as [name rest''] eqn:Hname. apply span_app in Hname. pose proof (skip_front_length rest') as Hl'.
  destruct (decide _) as [|_]; [done|]. destruct (tryGetDatePartSpecifier toLower name); [|done]. cbn [mbind Res_bind]. destruct (add_part _ _ _ _); [|done].
  cbn [mbind Res_bind]. rewrite Hname, length_app in Hl'. apply IH; lia.
Qed.

(** The parser of intervals terminates: each round consumes a number with its unit, so one round
    more than there are characters is enough for every string, and no more rounds change the result. *)
Theorem interval_parser_terminates toLower c rest fuel :
  (length (c :: rest) < fuel)%nat →
  interval_fromCString toLower (c :: rest) =
    interval_loop toLower fuel (if decide (c = "@"%char) then rest else c :: rest) 0 0 false (mkInterval 0 0 0).
Proof.
  intros Hf. unfold interval_fromCString. apply interval_loop_fuel; [lia|]. destruct (decide _); [simpl in Hf; lia|done].
Qed.

(** ** Comparison *)

(** [>] orders the normalized entries, so it is a strict weak order. *)
Theorem interval_greaterThan_order a b c :
  interval_gtb a a = false ∧
  (interval_gtb a b = true → interval_gtb b c = true → interval_gtb a c = true) ∧
  (interval_gtb a b = true → interval_gtb b a = false) ∧
  (interval_gtb a b = false → interval_gtb b c = false → interval_gtb a c = false).
Proof.
  unfold interval_gtb, interval_greaterThan. destruct (normalizeIntervalEntries a) as [[m1 d1] u1], (normalizeIntervalEntries b) as [[m2 d2] u2],
    (normalizeIntervalEntries c) as [[m3 d3] u3]. rewrite !Z.gtb_ltb.
  repeat match goal with |- context [?x <? ?y] => destruct (Z.ltb_spec x y) end; split_and!; intros; try done; lia.
Qed.

(** [==] compares the entries as they are, so a month and thirty days are neither equal nor greater
    than each other, and each is less than the other; and days that carry over into a month are not
    carried: 29 days and 48 hours are less than one month. *)
Theorem interval_comparison_inconsistent :
  interval_ltb (mkInterval 1 0 0) (mkInterval 0 30 0) = true ∧ interval_ltb (mkInterval 0 30 0) (mkInterval 1 0 0) = true ∧
  interval_gtb (mkInterval 1 0 0) (mkInterval 0 29 (2 * MICROS_PER_DAY)) = true ∧
  getMicro (mkInterval 1 0 0) < getMicro (mkInterval 0 29 (2 * MICROS_PER_DAY)).
Proof. by_eval. Qed.

(** The division by a count converts a negative entry to an unsigned number. *)
Theorem interval_division_negative : interval_div (mkInterval 0 0 (-6)) 3 = Ret (mkInterval 0 0 6148914691236517203).
Proof. by_eval. Qed.

(** ** Printing and reading *)

Lemma getUnsignedInt64Length_spec v : 0 ≤ v < 2 ^ 64 →
  let n := getUnsignedInt64Length v in (1 ≤ n)%nat ∧ v < 10 ^ Z.of_nat n ∧ (n = 1%nat ∨ 10 ^ Z.of_nat (n - 1) ≤ v).
Proof.
  intros Hv n. unfold n, getUnsignedInt64Length.
  repeat match goal with |- context [?a <=? v] => destruct (Z.leb_spec a v); try lia end; simpl; lia.
Qed.

(** The length the printer computes is that of the digits. *)
Lemma length_of_digits v : 0 ≤ v < 2 ^ 64 → length (FormatUnsigned v []) = getUnsignedInt64Length v.
Proof.
  intros Hv. destruct (getUnsignedInt64Length_spec v Hv) as (H1 & H2 & H3). pose proof (FormatUnsigned_spec v Hv) as Hn.
  destruct Hn as (Hd & Hdv & Hl1 & Hl). pose proof (dec_value_range _ Hd) as Hr. rewrite Hdv in Hr.
  set (m := length (FormatUnsigned v [])) in *. set (n := getUnsignedInt64Length v) in *. clearbody m n.
  destruct (decide (m < n)%nat).
  - assert (10 ^ Z.of_nat m ≤ 10 ^ Z.of_nat (n - 1)) by (apply Z.pow_le_mono_r; lia). lia.
  - destruct (decide (n < m)%nat); [|lia]. assert (10 ^ Z.of_nat n ≤ 10 ^ Z.of_nat (m - 1)) by (apply Z.pow_le_mono_r; lia). lia.
Qed.

Lemma FormatSignedNumber_spec v buffer : 0 ≤ v < 2 ^ 64 → FormatSignedNumber v buffer = Ret (buffer ++ FormatUnsigned v []).
Proof.
  intros Hv. unfold FormatSignedNumber. cbv zeta. destruct (Z.ltb_spec v 0); [lia|]. rewrite bool_decide_true by (by apply length_of_digits). done.
Qed.

(** A printed number is read back by the cast to an integer. *)
Lemma printed_number v : 0 ≤ v < 2 ^ 63 → simpleIntegerCast INT64 (FormatUnsigned v []) = Ret v.
Proof.
  intros Hv. destruct (FormatUnsigned_spec v ltac:(lia)) as (Hd & Hdv & Hl1 & Hl). set (ds := FormatUnsigned v []) in *. clearbody ds.
  assert (denotes ds v) as Hden.
  { exists ds. split; [done|]. split; [intros E; rewrite E in Hl1; simpl in Hl1; lia|]. right. split_and!; [done..|].
    destruct Hl as [?|Hl]; [by left|]. destruct ds as [|c l]; [simpl in Hl1; lia|]. right. intros [= ->]. apply Forall_cons in Hd as [_ Hd].
    rewrite dec_value_cons in Hdv. change (digit_val "0") with 0 in Hdv. pose proof (dec_value_range l Hd). simpl in Hl. rewrite Nat.sub_0_r in Hl. lia. }
  unfold simpleIntegerCast. rewrite (proj2 (proj1 (trySimpleIntegerCast_spec INT64 ds v))); [done|].
  rewrite (denotes_no_spaces _ _ Hden). split; [done|]. unfold minimum, maximum. simpl. lia.
Qed.

Lemma CastTo_same t v : isSigned t = true → holds INT64 v → holds t v → intervalTryCastInteger t v = Ret v.
Proof. intros Hs Hv Ht. unfold intervalTryCastInteger. rewrite Hs, integer_conversion_spec by done. unfold exact. by rewrite decide_True. Qed.

Lemma intervalTryAddition_spec t target input multiplier :
  isSigned t = true → holds t target → holds INT64 input → holds INT64 multiplier → holds INT64 (input * multiplier) →
  holds t (input * multiplier) → holds t (target + input * multiplier) →
  intervalTryAddition t target input multiplier 0 = Ret (target + input * multiplier).
Proof.
  intros Hs Ht Hi Hm Hp Hpt Hsum. unfold intervalTryAddition, Multiply_operation. rewrite TryMultiply_spec by done. unfold exact_opt. rewrite decide_True by done.
  cbn [checked mbind Res_bind]. rewrite (CastTo_same t (input * multiplier)) by done. cbn [mbind Res_bind]. unfold Add_operation. rewrite AddInPlace_spec by done. unfold exact_opt.
  by rewrite decide_True.
Qed.

Lemma span_run test l c rest : Forall (λ x, test x = true) l → test c = false → span test (l ++ c :: rest) = (l, c :: rest).
Proof. induction 1 as [|x l Hx _ IH]; intros Hc; cbn [app span]; [by rewrite Hc|]. by rewrite Hx, IH. Qed.

Lemma span_all test l : Forall (λ x, test x = true) l → span test l = (l, []).
Proof. induction 1 as [|x l Hx _ IH]; cbn [span]; [done|]. by rewrite Hx, IH. Qed.

Definition is_lower (c : ascii) : bool := let n := nat_of_ascii c in ((97 <=? n) && (n <=? 122))%nat.

Lemma lower_no_space c : is_lower c = true → negb (isSpace c) = true.
Proof.
  unfold is_lower, isSpace. rewrite andb_true_iff, !Nat.leb_le. intros Hc. destruct (Nat.eqb_spec (nat_of_ascii c) 32); [lia|].
  destruct (Nat.leb_spec (nat_of_ascii c) 13); [lia|]. by rewrite andb_false_r.
Qed.

Lemma skip_front_digit c l : CharacterIsDigit c = true → skip_front (c :: l) = c :: l.
Proof. intros Hc. cbn [skip_front]. by rewrite digit_no_space. Qed.

Lemma FormatUnsigned_cons v : 0 ≤ v < 2 ^ 64 → ∃ c l, FormatUnsigned v [] = c :: l ∧ CharacterIsDigit c = true ∧ all_digits (c :: l).
Proof.
  intros Hv. destruct (FormatUnsigned_spec v Hv) as (Hd & _ & Hl & _). destruct (FormatUnsigned v []) as [|c l]; [simpl in Hl; lia|].
  exists c, l. split; [done|]. split; [|done]. by apply Forall_cons in Hd as [? _].
Qed.

(** The units the printer writes. *)
Definition printed_unit (u : string) (part : DatePartSpecifier) : Prop :=
  lookup_name (chars u) specifier_names = Ret part ∧ lookup_name (chars u ++ ["s"%char]) specifier_names = Ret part ∧
  Forall (λ c, is_lower c = true) (chars u) ∧ chars u ≠ [].

(** What follows a part of the string: nothing or a space. *)
Definition separated (rest : list ascii) : Prop := rest = [] ∨ ∃ l, rest = " "%char :: l.

Section RoundTrip.
  Variable toLower : list ascii → Res (list ascii).
  (** Lower-case letters of ASCII are left as they are. *)
  Hypothesis toLower_lower : ∀ s, Forall (λ c, is_lower c = true) s → toLower s = Ret s.

(** One round of the parser on a number with its unit. *)
Lemma unit_round fuel v u part rest number fraction found result result' :
  0 < v < 2 ^ 31 → printed_unit u part → separated rest → add_part part v 0 result = Ret result' →
  interval_loop toLower (S fuel) (FormatUnsigned v [] ++ " "%char :: chars u ++ (if negb (v =? 1) then ["s"%char] else []) ++ rest) number fraction found result =
    interval_loop toLower fuel rest v 0 true result'.
Proof.
  intros Hv (Hn & Hns & Hlow & Hne) Hrest Hadd. pose proof (printed_number v ltac:(lia)) as Hcast.
  destruct (FormatUnsigned_cons v ltac:(lia)) as (c & l & E & Hc & Hd). rewrite E in *. set (name := chars u ++ if negb (v =? 1) then ["s"%char] else []).
  assert (chars u ++ (if negb (v =? 1) then ["s"%char] else []) ++ rest = name ++ rest) as -> by (unfold name; by rewrite <-app_assoc).
  assert (lookup_name name specifier_names = Ret part ∧ Forall (λ c, is_lower c = true) name ∧ name ≠ []) as (Hlk & Hlown & Hnen).
  { unfold name. destruct (v =? 1); cbn [negb]; [by rewrite app_nil_r|]. split; [done|]. split; [apply Forall_app; split; [done|by repeat constructor]|]. by destruct (chars u). }
  cbn [interval_loop]. cbv zeta. change ((c :: l) ++ " "%char :: name ++ rest) with (c :: (l ++ " "%char :: name ++ rest)).
  rewrite (skip_front_digit c) by done. rewrite Hc. cbn [negb].
  change (c :: l ++ " "%char :: name ++ rest) with ((c :: l) ++ " "%char :: name ++ rest). rewrite (span_run CharacterIsDigit (c :: l) " "%char (name ++ rest)) by done.
  rewrite decide_False by done. cbn [parse_number]. rewrite Hcast. cbn [mbind Res_bind]. rewrite decide_False by done. cbn [mbind Res_bind].
  assert (Forall (λ c, negb (isSpace c) = true) name) as Hnsp by (eapply Forall_impl; [exact Hlown|exact lower_no_space]).
  assert (skip_front (" "%char :: name ++ rest) = name ++ rest) as ->.
  { change (skip_front (" "%char :: name ++ rest)) with (skip_front (name ++ rest)). destruct name as [|x xs]; [done|]. cbn [app skip_front].
    apply Forall_cons in Hnsp as [Hx _]. apply negb_true_iff in Hx. by rewrite Hx. }
  assert (span (λ c, negb (isSpace c)) (name ++ rest) = (name, rest)) as ->.
  { destruct Hrest as [->|[l' ->]]; [rewrite app_nil_r; by apply span_all|by apply span_run]. }
  rewrite decide_False by done. unfold tryGetDatePartSpecifier. rewrite toLower_lower by done. cbn [mbind Res_bind]. rewrite Hlk. cbn [mbind Res_bind].
  rewrite Hadd. done.
Qed.

(** The parser has read [buffer] and holds [result], whatever follows. *)
Definition read_so_far (buffer : list ascii) (result : interval_t) : Prop :=
  (∀ c, head buffer = Some c → CharacterIsDigit c = true) ∧
  ∀ fuel rest, buffer = [] ∨ separated rest → (length (buffer ++ rest) < fuel)%nat →
  ∃ fuel' number fraction, (length rest < fuel')%nat ∧
    interval_loop toLower fuel (buffer ++ rest) 0 0 false (mkInterval 0 0 0) =
    interval_loop toLower fuel' rest number fraction (negb (bool_decide (buffer = []))) result.

Lemma read_nothing : read_so_far [] (mkInterval 0 0 0).
Proof. split; [done|]. intros fuel rest _ Hf. by exists fuel, 0, 0. Qed.

Lemma skip_space fuel rest number fraction found result :
  interval_loop toLower fuel (" "%char :: rest) number fraction found result = interval_loop toLower fuel rest number fraction found result.
Proof. by destruct fuel. Qed.

(** Printing a number with its unit extends what is read. *)
Lemma read_unit buffer result v u part result' :
  read_so_far buffer result → 0 ≤ v < 2 ^ 31 → printed_unit u part → (v = 0 → result' = result) →
  (0 < v → add_part part v 0 result = Ret result') →
  ∃ buffer', FormatIntervalValue v (String " "%char u) buffer = Ret buffer' ∧ read_so_far buffer' result'.
Proof.
  intros [Hhead Hread] Hv Hu H0 Hadd. unfold FormatIntervalValue. destruct (Z.eqb_spec v 0) as [E|E]; [exists buffer; by rewrite (H0 E)|].
  rewrite FormatSignedNumber_spec by lia. cbn [mbind Res_bind]. eexists. split; [done|]. split.
  { destruct (FormatUnsigned_cons v ltac:(lia)) as (c & l & -> & Hc & _). destruct buffer as [|b buffer]; cbn; [by intros ? [= <-]|]. intros c' [= <-]. by apply Hhead. }
  intros fuel rest Hsep Hf.
  set (piece := FormatUnsigned v [] ++ " "%char :: chars u ++ (if negb (v =? 1) then ["s"%char] else [])).
  set (sp := if decide (buffer = []) then [] else [" "%char]).
  assert (((if decide (buffer = []) then buffer else buffer ++ [" "%char]) ++ FormatUnsigned v []) ++ chars (String " "%char u) ++ (if negb (v =? 1) then ["s"%char] else [])
    = buffer ++ sp ++ piece) as Eb.
  { unfold piece, sp. rewrite <-!app_assoc. change (chars (String " "%char u)) with (" "%char :: chars u). destruct (decide (buffer = [])); [done|]. by rewrite <-app_assoc. }
  rewrite Eb in *. destruct (Hread fuel (sp ++ piece ++ rest)) as (fuel' & number & fraction & Hf' & Hloop).
  { unfold sp. destruct (decide (buffer = [])); [by left|]. right. right. by eexists. }
  { by rewrite !app_assoc in *. }
  assert (buffer ++ sp ++ piece ≠ []) as Hne by (intros En; apply app_eq_nil in En as [_ En]; apply app_eq_nil in En as [_ En]; unfold piece in En; by apply app_eq_nil in En as [_ ?]).
  rewrite (bool_decide_false (buffer ++ sp ++ piece = [])) by done. cbn [negb]. rewrite <-!app_assoc, Hloop.
  assert (interval_loop toLower fuel' (sp ++ piece ++ rest) number fraction (negb (bool_decide (buffer = []))) result =
    interval_loop toLower fuel' (piece ++ rest) number fraction (negb (bool_decide (buffer = []))) result) as ->.
  { unfold sp. destruct (decide (buffer = [])); [done|]. apply skip_space. }
  destruct fuel' as [|fuel']; [lia|]. exists fuel', v, 0. split; [rewrite !length_app in Hf'; unfold piece in Hf'; rewrite length_app in Hf'; simpl in Hf'; lia|].
  unfold piece. rewrite <-app_assoc. cbn [app]. rewrite <-app_assoc. apply unit_round with part; [lia|done| |by apply Hadd; lia].
  by destruct Hsep as [Hb|Hb].
Qed.

(** The printed time ends the string. *)
Lemma read_time hs m s frac us fuel number fraction found result :
  all_digits hs → hs ≠ [] → (length hs ≤ 9)%nat → 0 ≤ m < 60 → 0 ≤ s < 60 → 0 ≤ us < 1000000 → fraction_of frac us →
  interval_loop toLower (S fuel) (hs ++ ":"%char :: pair_of m ++ ":"%char :: pair_of s ++ frac) number fraction found result =
    Ret (mkInterval (months result) (days result)
      (i64 (micros result + (dec_value 0 hs * MICROS_PER_HOUR + m * MICROS_PER_MINUTE + s * MICROS_PER_SEC + us)))).
Proof.
  intros Hhs Hne Hl Hm Hs Hus Hfrac. pose proof (tryConvertInternal_spec hs m s frac us Hhs Hne Hl Hm Hs Hfrac) as Ht. cbv zeta in Ht.
  pose proof (dec_value_range hs Hhs) as Hr. assert (10 ^ Z.of_nat (length hs) ≤ 10 ^ 9) by (apply Z.pow_le_mono_r; lia).
  rewrite fromTimeInternal_spec in Ht by lia. set (tail := ":"%char :: pair_of m ++ ":"%char :: pair_of s ++ frac) in *.
  destruct hs as [|c hs]; [done|]. pose proof (proj1 (proj1 (Forall_cons _ _ _) Hhs)) as Hc. cbv beta in Hc.
  cbn [interval_loop]. cbv zeta. change ((c :: hs) ++ tail) with (c :: (hs ++ tail)) in *. rewrite (skip_front_digit c) by done. rewrite Hc. cbn [negb].
  change (c :: hs ++ tail) with ((c :: hs) ++ tail) in *. unfold tail at 1. rewrite (span_run CharacterIsDigit (c :: hs)) by done. rewrite decide_True by done.
  fold tail. unfold tryConvertInterval. rewrite Ht. cbn [mbind option_bind]. rewrite skip_end, decide_False by lia. done.
Qed.

Lemma format_micros_spec us buffer : 0 < us < 10 ^ 9 * MICROS_PER_HOUR →
  ∃ hs m s u frac, format_micros us buffer =
      Ret ((if decide (buffer = []) then buffer else buffer ++ [" "%char]) ++ hs ++ ":"%char :: pair_of m ++ ":"%char :: pair_of s ++ frac) ∧
    all_digits hs ∧ hs ≠ [] ∧ (length hs ≤ 9)%nat ∧ 0 ≤ m < 60 ∧ 0 ≤ s < 60 ∧ 0 ≤ u < 1000000 ∧ fraction_of frac u ∧
    us = dec_value 0 hs * MICROS_PER_HOUR + m * MICROS_PER_MINUTE + s * MICROS_PER_SEC + u.
Proof.
  intros Hus. unfold format_micros. cbv zeta. destruct (Z.ltb_spec us 0); [lia|]. set (buf := if decide (buffer = []) then _ else _).
  assert (0 ≤ us / MICROS_PER_HOUR < 10 ^ 9) as Hh by (split; [apply Z.div_pos; [lia|done]|apply Z.div_lt_upper_bound; [done|lia]]).
  pose proof (Z.mod_pos_bound us MICROS_PER_HOUR ltac:(done)) as Hmh. pose proof (Z.mod_pos_bound us MICROS_PER_MINUTE ltac:(done)) as Hmm.
  destruct (clock_parts us) as (Hm & Hs & Hu & E1 & E2 & E3). rewrite (Z.quot_div_nonneg us) by (done || lia). set (h := us / MICROS_PER_HOUR) in *.
  replace (us - h * MICROS_PER_HOUR) with (us `mod` MICROS_PER_HOUR) by lia. rewrite (Z.quot_div_nonneg (us `mod` MICROS_PER_HOUR)) by (done || lia).
  set (m := us `mod` MICROS_PER_HOUR / MICROS_PER_MINUTE) in *. replace (us `mod` MICROS_PER_HOUR - m * MICROS_PER_MINUTE) with (us `mod` MICROS_PER_MINUTE) by lia.
  rewrite (Z.quot_div_nonneg (us `mod` MICROS_PER_MINUTE)) by (done || lia). set (s := us `mod` MICROS_PER_MINUTE / MICROS_PER_SEC) in *.
  replace (us `mod` MICROS_PER_MINUTE - s * MICROS_PER_SEC) with (us `mod` MICROS_PER_SEC) by lia. set (u := us `mod` MICROS_PER_SEC) in *.
  rewrite FormatSignedNumber_spec by lia. cbn [mbind Res_bind]. rewrite !two_digits_spec by lia.
  pose proof (FormatUnsigned_spec h ltac:(lia)) as Hnum. pose proof (numeral_length _ _ 8 Hnum ltac:(change (Z.of_nat 9) with 9; lia)) as Hlen.
  pose proof (numeral_length _ _ 0 Hnum) as Hlen1. destruct Hnum as (Hd & Hdv & Hl1 & _). change (10 ^ Z.of_nat 1) with 10 in Hlen1.
  set (hs := (if h <? 10 then ["0"%char] else []) ++ FormatUnsigned h []).
  assert (∀ tail, ((if h <? 10 then buf ++ ["0"%char] else buf) ++ FormatUnsigned h []) ++ tail = buf ++ hs ++ tail) as Eb
    by (intros tail; unfold hs; destruct (h <? 10); by rewrite <-!app_assoc).
  assert (all_digits hs ∧ hs ≠ [] ∧ (length hs ≤ 9)%nat ∧ dec_value 0 hs = h) as (H1 & H2 & H3 & H4).
  { unfold hs. destruct (Z.ltb_spec h 10); cbn [app].
    - split_and!; [by constructor|done|simpl; specialize (Hlen1 ltac:(lia)); lia|exact Hdv].
    - split_and!; [done|intros En; rewrite En in Hl1; simpl in Hl1; lia|done|done]. }
  rewrite !Eb. clearbody hs. destruct (Z.eqb_spec u 0) as [E0|E0].
  - exists hs, m, s, u, []. rewrite app_nil_r. split_and!; try done; try lia. by left.
  - destruct (FormatMicros_spec u ltac:(lia)) as (mb & z & -> & Hz & Hb & Hmd & Hmv). cbn [mbind Res_bind].
    exists hs, m, s, u, ("."%char :: take (6 - z) mb). split_and!; try done; try lia.
    + rewrite <-!app_assoc. cbn [app]. by rewrite <-!app_assoc.
    + right. exists (take (6 - z) mb). rewrite length_take. replace (6 - (6 - z) `min` length mb)%nat with z by lia. split_and!; [done|done|lia|done].
Qed.

(** Reading the three units the printer writes. *)
Lemma add_year m v : 0 ≤ v → v * 12 < 2 ^ 31 → add_part YEAR v 0 (mkInterval 0 0 m) = Ret (mkInterval (v * 12) 0 m).
Proof. intros Hv Hb. unfold add_part, MONTHS_PER_YEAR. cbn [months days micros]. rewrite intervalTryAddition_spec; [done|done|int_range..]. Qed.

Lemma add_month m v : 0 ≤ m → 0 ≤ v → m + v < 2 ^ 31 → add_part MONTH v 0 (mkInterval m 0 0) = Ret (mkInterval (m + v) 0 0).
Proof.
  intros Hm Hv Hb. unfold add_part, DAYS_PER_MONTH. cbn [months days micros]. rewrite !intervalTryAddition_spec by (done || int_range).
  cbn [mbind Res_bind]. by rewrite Z.mul_1_r.
Qed.

Lemma add_day m v : 0 ≤ v < 2 ^ 31 → add_part DAY v 0 (mkInterval m 0 0) = Ret (mkInterval m v 0).
Proof.
  intros Hv. unfold add_part. cbn [months days micros]. unfold_micros. rewrite !intervalTryAddition_spec by (done || int_range).
  cbn [mbind Res_bind]. by rewrite Z.mul_1_r.
Qed.

Lemma unit_names : printed_unit "year" YEAR ∧ printed_unit "month" MONTH ∧ printed_unit "day" DAY.
Proof. unfold printed_unit. split_and!; try (vm_compute; reflexivity); by_eval. Qed.

(** The months and the days are printed and read. *)
Lemma read_dates iv : 0 ≤ months iv < 2 ^ 31 → 0 ≤ days iv < 2 ^ 31 →
  ∃ buffer, (buffer ← (if months iv =? 0 then Ret []
      else let years := Z.quot (months iv) 12 in
        buffer ← FormatIntervalValue years " year" []; FormatIntervalValue (months iv - years * 12) " month" buffer);
    if days iv =? 0 then Ret buffer else FormatIntervalValue (days iv) " day" buffer) = Ret buffer ∧
  read_so_far buffer (mkInterval (months iv) (days iv) 0).
Proof.
  intros Hm Hd. destruct unit_names as (Hy & Hmo & Hda).
  assert (∃ buffer, (if months iv =? 0 then Ret []
      else let years := Z.quot (months iv) 12 in
        buffer ← FormatIntervalValue years " year" []; FormatIntervalValue (months iv - years * 12) " month" buffer) = Ret buffer ∧
      read_so_far buffer (mkInterval (months iv) 0 0)) as (b1 & -> & Hb1).
  { destruct (Z.eqb_spec (months iv) 0) as [->|]; [exists []; split; [done|apply read_nothing]|]. cbv zeta. rewrite Z.quot_div_nonneg by lia.
    pose proof (Z.div_mod (months iv) 12 ltac:(lia)) as E. pose proof (Z.mod_pos_bound (months iv) 12 ltac:(lia)). set (y := months iv / 12) in *.
    assert (0 ≤ y) by (apply Z.div_pos; lia).
    destruct (read_unit [] (mkInterval 0 0 0) y "year" YEAR (mkInterval (y * 12) 0 0) read_nothing) as (b & -> & Hb);
      [lia|done|by intros ->|intros _; apply add_year; lia|]. cbn [mbind Res_bind].
    apply (read_unit b _ (months iv - y * 12) "month" MONTH _ Hb); [lia|done|intros E0; f_equal; lia|]. intros _. rewrite add_month by lia. do 2 f_equal. lia. }
  cbn [mbind Res_bind]. destruct (Z.eqb_spec (days iv) 0) as [->|]; [by exists b1|].
  apply (read_unit b1 _ (days iv) "day" DAY _ Hb1); [lia|done|lia|]. intros _. by apply add_day.
Qed.

End RoundTrip.

(** Printing an interval without negative entries and of less than a billion hours, and reading
    the string back, returns the interval: [Interval::fromCString] inverts [Interval::toString], in
    its years, months and days, its time and its fraction, whatever lower-casing does to letters
    other than the lower-case ones of ASCII. *)
Theorem interval_string_roundtrip toLower iv :
  (∀ s, Forall (λ c, is_lower c = true) s → toLower s = Ret s) →
  0 ≤ months iv < 2 ^ 31 → 0 ≤ days iv < 2 ^ 31 → 0 ≤ micros iv < 10 ^ 9 * MICROS_PER_HOUR →
  ∃ s, interval_toString iv = Ret s ∧ interval_fromCString toLower s = Ret iv.
Proof.
  intros Hlow Hm Hd Hus. destruct (read_dates toLower Hlow iv Hm Hd) as (buffer & Hb & Hhead & Hread).
  assert (∀ tail c rest, buffer ++ tail = c :: rest → CharacterIsDigit c = true → (buffer = [] ∨ separated tail) →
    (∀ fuel number fraction, interval_loop toLower (S fuel) tail number fraction (negb (bool_decide (buffer = []))) (mkInterval (months iv) (days iv) 0) = Ret iv) →
    interval_fromCString toLower (buffer ++ tail) = Ret iv) as Hfrom.
  { intros tail c rest E Hc Hsep Hloop. unfold interval_fromCString. rewrite E. rewrite decide_False by (by intros ->). rewrite <-E.
    destruct (Hread (S (length (buffer ++ tail))) tail Hsep ltac:(lia)) as (fuel' & number & fraction & Hf & ->). destruct fuel' as [|fuel']; [lia|]. apply Hloop. }
  unfold interval_toString, interval_Format. cbv zeta in *.
  destruct (if months iv =? 0 then Ret [] else _) as [b1|] in Hb |- *; [|done]. cbn [mbind Res_bind] in *. rewrite Hb. cbn [mbind Res_bind].
  assert (10 ^ 9 * MICROS_PER_HOUR < 2 ^ 63) as Hbound by done.
  assert (∀ us, micros iv = us → mkInterval (months iv) (days iv) (i64 (0 + us)) = iv) as Hiv.
  { intros us <-. rewrite Z.add_0_l, i64_id by lia. by destruct iv. }
  destruct (Z.eqb_spec (micros iv) 0) as [E0|E0].
  - destruct (decide (buffer = [])) as [->|Hne].
    + eexists. split; [done|]. apply (Hfrom (chars "00:00:00") "0"%char (chars "0:00:00")); [done..|by left|]. intros fuel number fraction.
      rewrite <-(Hiv 0 E0) at 3. done.
    + exists buffer. split; [done|]. destruct buffer as [|c rest]; [done|]. rewrite <-(app_nil_r (c :: rest)).
      apply (Hfrom [] c rest); [by rewrite app_nil_r|by apply Hhead|right; by left|]. intros fuel number fraction. cbn. by rewrite <-(Hiv 0 E0) at 3.
  - destruct (format_micros_spec (micros iv) buffer ltac:(lia)) as (hs & m & s & u & frac & -> & H1 & H2 & H3 & H4 & H5 & H6 & H7 & Hval).
    eexists. split; [done|]. set (T := hs ++ _). assert (∃ c rest, T = c :: rest ∧ CharacterIsDigit c = true) as (c & rest & ET & Hc).
    { unfold T. destruct hs as [|c hs]; [done|]. eexists c, _. split; [done|]. by apply Forall_cons in H1 as [? _]. }
    assert (∀ fuel number fraction found, interval_loop toLower (S fuel) T number fraction found (mkInterval (months iv) (days iv) 0) = Ret iv) as HT.
    { intros fuel number fraction found. unfold T. rewrite (read_time toLower hs m s frac u) by done. cbn [months days micros]. f_equal. by apply Hiv. }
    destruct (decide (buffer = [])) as [->|Hne]; [by apply (Hfrom T c rest); [| |left|]|].
    rewrite <-app_assoc. cbn [app]. destruct buffer as [|b buffer]; [done|].
    eapply (Hfrom (" "%char :: T)); [done|by apply Hhead|right; right; by eexists|]. intros fuel number fraction. rewrite skip_space. apply HT.
Qed.

(** Lower-casing of ASCII letters. *)
Definition ascii_toLower (s : list ascii) : Res (list ascii) :=
  Ret (map (λ c, let n := nat_of_ascii c in if ((65 <=? n) && (n <=? 90))%nat then ascii_of_nat (n + 32) else c) s).

Lemma ascii_toLower_lower s : Forall (λ c, is_lower c = true) s → ascii_toLower s = Ret s.
Proof.
  intros Hs. unfold ascii_toLower. f_equal. induction Hs as [|c s Hc _ IH]; [done|]. cbn [map]. rewrite IH. f_equal.
  unfold is_lower in Hc. rewrite andb_true_iff, !Nat.leb_le in Hc. destruct (Nat.leb_spec (nat_of_ascii c) 90); [lia|]. by rewrite andb_false_r.
Qed.

(** A negative entry is printed with a sign the parser does not read. *)
Theorem negative_interval_not_read :
  ∃ s, interval_toString (mkInterval 0 (-1) 0) = Ret s ∧ interval_fromCString ascii_toLower s = Throw ConversionException.
Proof. exists (chars "-1 days"). by split. Qed.
