(* ===== verification/Serialize.v ===== *)
(** Serialization to memory pages: [InMemFileWriter] of
    [src/src/common/serializer/in_mem_file_writer.cpp], and the parts of [Serializer] and [Deserializer]
    of [src/src/include/common/serializer/] that write and read numbers and the strings of the debugging
    information.

    A byte is a number below 256. The code writes the bytes of a value as they are in memory, which is
    little-endian on the targets. A page is the list of the bytes written to it so far. The debugging
    information is in the stream only in builds with [KUZU_DESER_DEBUG]; the flag [debug] stands for such a
    build. A read past the end and a failed assertion are [None]. *)

From S2P Require Import Prelude.
From stdpp Require Import list_numbers.
From Stdlib Require Import Ascii.

Definition KUZU_PAGE_SIZE : nat := Z.to_nat 4096.

Record InMemFileWriter := mkWriter { pages : list (list Z); pageOffset : nat }.

#[export] Instance InMemFileWriter_eq_dec : EqDecision InMemFileWriter.
Proof. solve_decision. Defined.

Definition emptyWriter : InMemFileWriter := mkWriter [] 0.

Definition needNewBuffer (w : InMemFileWriter) (size : nat) : bool :=
  bool_decide (pages w = []) || bool_decide (KUZU_PAGE_SIZE < pageOffset w + size).

(** [memcpy] of [data] to the offset [off] of the last page. *)
Definition copy_to_last (ps : list (list Z)) (off : nat) (data : list Z) : option (list (list Z)) :=
  p ← last ps;
  Some (take (length ps - 1) ps ++ [take off p ++ data ++ drop (off + length data) p]).

(** The loop of [write]; [remaining] bytes of [data] are left. *)
Fixpoint write_loop (fuel : nat) (w : InMemFileWriter) (data : list Z) (remaining : nat) : option InMemFileWriter :=
  let size := length data in
  if decide (remaining = 0) then Some w else
  match fuel with
  | 0 => None
  | S fuel =>
      '(w, remaining) ← (if needNewBuffer w size then
          '(ps, remaining) ← (if decide (pages w = []) then Some ([], remaining) else
              let toCopy := size `min` (KUZU_PAGE_SIZE - pageOffset w) in
              if decide (remaining < toCopy) then None else
              ps ← copy_to_last (pages w) (pageOffset w) (take toCopy (drop (size - remaining) data));
              Some (ps, remaining - toCopy));
          Some (mkWriter (ps ++ [[]]) 0, remaining)
        else Some (w, remaining));
      let toCopy := remaining `min` (KUZU_PAGE_SIZE - pageOffset w) in
      ps ← copy_to_last (pages w) (pageOffset w) (take toCopy (drop (size - remaining) data));
      write_loop fuel (mkWriter ps (pageOffset w + toCopy)) data (remaining - toCopy)
  end.

Definition write (w : InMemFileWriter) (data : list Z) : option InMemFileWriter :=
  write_loop (length data) w data (length data).

Definition getNumPagesToFlush (w : InMemFileWriter) : nat := length (pages w).

Definition getSize (w : InMemFileWriter) : nat :=
  (if decide (1 < length (pages w)) then KUZU_PAGE_SIZE * (length (pages w) - 1) else 0) + pageOffset w.

(** The bytes [flush] hands to a file writer, page by page. *)
Definition flush (w : InMemFileWriter) : list Z :=
  concat (imap (λ i p, take (if decide (i = length (pages w) - 1) then pageOffset w else KUZU_PAGE_SIZE) p) (pages w)).

(** ** Serializer *)

(** [serializeValue<T>] for an integer type of [n] bytes. *)
Definition serializeValue (n : nat) (w : InMemFileWriter) (value : Z) : option InMemFileWriter :=
  write w (Z_to_little_endian (Z.of_nat n) 8 value).

(** The bytes of a string. *)
Definition string_bytes (s : string) : list Z := (λ c, Z.of_N (N_of_ascii c)) <$> String.list_ascii_of_string s.

Definition serializeString (w : InMemFileWriter) (s : string) : option InMemFileWriter :=
  w ← serializeValue 8 w (Z.of_nat (length (string_bytes s)));
  write w (string_bytes s).

Definition writeDebuggingInfo (debug : bool) (w : InMemFileWriter) (s : string) : option InMemFileWriter :=
  if debug then serializeString w s else Some w.

(** ** Deserializer

    The reader is the list of the bytes that are left. *)

Definition read (r : list Z) (size : nat) : option (list Z * list Z) :=
  if decide (size ≤ length r) then Some (take size r, drop size r) else None.

Definition deserializeValue (n : nat) (r : list Z) : option (Z * list Z) :=
  '(bs, r) ← read r n; Some (little_endian_to_Z 8 bs, r).

Definition deserializeString (r : list Z) : option (list Z * list Z) :=
  '(n, r) ← deserializeValue 8 r; read r (Z.to_nat n).

Definition validateDebuggingInfo (debug : bool) (r : list Z) (expected : string) : option (list Z) :=
  if debug then
    '(s, r) ← deserializeString r;
    if decide (s = string_bytes expected) then Some r else None
  else Some r.

(** ** The writer holds what was written

    All pages but the last are full, and the last one has [pageOffset] bytes. *)

Definition writer_ok (w : InMemFileWriter) : Prop :=
  (pages w = [] ∧ pageOffset w = 0) ∨
  ∃ full p, pages w = full ++ [p] ∧ Forall (λ q, length q = KUZU_PAGE_SIZE) full ∧
    length p = pageOffset w ∧ 0 < pageOffset w ≤ KUZU_PAGE_SIZE.

Lemma page_size_pos : 0 < KUZU_PAGE_SIZE.
Proof. unfold KUZU_PAGE_SIZE. lia. Qed.

Lemma copy_to_last_app full p data :
  copy_to_last (full ++ [p]) (length p) data = Some (full ++ [p ++ data]).
Proof.
  unfold copy_to_last. rewrite last_snoc. cbn. rewrite length_app. cbn.
  replace (length full + 1 - 1) with (length full) by lia.
  rewrite take_app_length, take_ge, drop_ge, app_nil_r by lia. done.
Qed.

Lemma concat_imap_full full off k :
  Forall (λ q, length q = KUZU_PAGE_SIZE) full → length full ≤ k →
  concat (imap (λ i (p : list Z), take (if decide (i = k) then off else KUZU_PAGE_SIZE) p) full) = concat full.
Proof.
  intros Hf Hk. f_equal. apply list_eq. intros i. rewrite list_lookup_imap.
  destruct (full !! i) as [q|] eqn:E; [|done]. cbn. pose proof (lookup_lt_Some _ _ _ E).
  rewrite decide_False by lia. rewrite take_ge; [done|].
  rewrite (proj1 (Forall_lookup _ _) Hf i q E). lia.
Qed.

Lemma flush_app full p off : Forall (λ q, length q = KUZU_PAGE_SIZE) full → off = length p →
  flush (mkWriter (full ++ [p]) off) = concat full ++ p.
Proof.
  intros Hf ->. unfold flush. cbn [pages pageOffset]. rewrite length_app. cbn [length].
  replace (length full + 1 - 1) with (length full) by lia.
  rewrite imap_app, concat_app, concat_imap_full by done. cbn.
  rewrite decide_True by lia. rewrite take_ge by lia. by rewrite app_nil_r.
Qed.

(** The second half of an iteration: the rest of [data] goes to a page with room. *)
Lemma write_loop_spec fuel full p data r :
  r ≤ length data → r ≤ fuel → Forall (λ q, length q = KUZU_PAGE_SIZE) full →
  0 < length p ≤ KUZU_PAGE_SIZE → length p = KUZU_PAGE_SIZE ∨ r = length data ∨ r = 0 →
  ∃ w', write_loop fuel (mkWriter (full ++ [p]) (length p)) data r = Some w' ∧ writer_ok w' ∧
    flush w' = concat full ++ p ++ drop (length data - r) data.
Proof.
  revert full p r. induction fuel as [|fuel IH]; intros full p r Hr Hfuel Hfull Hp Hcase; cbn [write_loop].
  all: destruct (decide (r = 0)) as [->|Hr0].
  1, 3: eexists; split; [done|]; split; [right; by exists full, p|];
    rewrite flush_app by done; rewrite drop_ge by lia; by rewrite app_nil_r.
  { lia. }
  unfold needNewBuffer. cbn [pages pageOffset]. rewrite (bool_decide_false (full ++ [p] = [])) by (by destruct full).
  cbn [orb]. destruct (decide (KUZU_PAGE_SIZE < length p + length data)) as [Hn|Hn].
  - rewrite bool_decide_true by done. rewrite decide_False by (by destruct full).
    set (toCopy := length data `min` (KUZU_PAGE_SIZE - length p)).
    assert (toCopy = KUZU_PAGE_SIZE - length p) as Htc by lia.
    rewrite decide_False by lia. rewrite copy_to_last_app. cbn [mbind option_bind].
    set (d1 := take toCopy (drop (length data - r) data)).
    assert (length d1 = toCopy) as Hd1 by (unfold d1; rewrite length_take, length_drop; lia).
    set (r1 := r - toCopy). cbn [pages pageOffset]. rewrite Nat.sub_0_r.
    rewrite (copy_to_last_app (full ++ [p ++ d1]) []). cbn [mbind option_bind app Nat.add].
    set (d2 := take (r1 `min` KUZU_PAGE_SIZE) (drop (length data - r1) data)).
    assert (length d2 = r1 `min` KUZU_PAGE_SIZE) as Hd2 by (unfold d2; rewrite length_take, length_drop; lia).
    rewrite <-Hd2.
    destruct (IH (full ++ [p ++ d1]) d2 (r1 - length d2)) as (w' & Hw & Hok & Hfl).
    { lia. } { lia. }
    { apply Forall_app. split; [done|]. constructor; [|done]. rewrite length_app. lia. }
    { lia. } { lia. }
    exists w'. split; [done|]. split; [done|]. rewrite Hfl, concat_app. cbn. rewrite app_nil_r, <-!app_assoc.
    do 2 f_equal. transitivity (d1 ++ drop (length data - r1) data).
    + f_equal. rewrite Hd2. rewrite <-(take_drop (r1 `min` KUZU_PAGE_SIZE) (drop (length data - r1) data)).
      f_equal. rewrite drop_drop. f_equal. lia.
    + rewrite <-(take_drop toCopy (drop (length data - r) data)). f_equal. rewrite drop_drop. f_equal. lia.
  - rewrite bool_decide_false by done. cbn [mbind option_bind pages pageOffset].
    assert (r = length data) as -> by lia.
    rewrite Nat.sub_diag, drop_0, copy_to_last_app. cbn [mbind option_bind].
    rewrite Nat.min_l, take_ge by lia. rewrite Nat.sub_diag, <-length_app.
    destruct (IH full (p ++ data) 0) as (w' & Hw & Hok & Hfl); [lia|lia|done|rewrite length_app; lia|by right; right|].
    exists w'. split; [done|]. split; [done|]. rewrite Hfl, drop_ge by lia. by rewrite app_nil_r.
Qed.

(** [write] never fails and appends the bytes. *)
Lemma write_spec w data : writer_ok w →
  ∃ w', write w data = Some w' ∧ writer_ok w' ∧ flush w' = flush w ++ data.
Proof.
  intros [[Hp Ho]|(full & p & Hp & Hf & Hl & Ho)]; destruct w as [ps off]; cbn [pages pageOffset] in *; subst.
  - destruct data as [|b data]; [eexists; split; [done|]; split; [by left|by rewrite app_nil_r]|].
    unfold write. set (d := b :: data). pose proof page_size_pos.
    assert (0 < length d) by (cbn; lia). destruct (length d) as [|n] eqn:El; [lia|]. cbn [write_loop].
    rewrite decide_False by done. unfold needNewBuffer. cbn [pages pageOffset].
    rewrite bool_decide_true by done. cbn [orb]. rewrite decide_True by done. cbn [mbind option_bind app pages pageOffset].
    rewrite El, Nat.sub_diag, Nat.sub_0_r, drop_0. rewrite (copy_to_last_app [] []). cbn [mbind option_bind app Nat.add].
    set (d2 := take (S n `min` KUZU_PAGE_SIZE) d).
    assert (length d2 = S n `min` KUZU_PAGE_SIZE) as Hd2 by (unfold d2; rewrite length_take; lia).
    rewrite <-Hd2.
    destruct (write_loop_spec n [] d2 d (S n - length d2)) as (w' & Hw & Hok & Hfl);
      [lia|lia|constructor|lia|lia|].
    exists w'. split; [done|]. split; [done|]. rewrite Hfl.
    transitivity d; [|reflexivity]. cbn [concat app]. rewrite Hd2, El.
    replace (S n - (S n - S n `min` KUZU_PAGE_SIZE)) with (S n `min` KUZU_PAGE_SIZE) by lia. apply take_drop.
  - destruct (write_loop_spec (length data) full p data (length data)) as (w' & Hw & Hok & Hfl);
      [lia|lia|done|lia|by right; left|].
    exists w'. split; [done|]. split; [done|]. rewrite Hfl, Nat.sub_diag, drop_0, flush_app by done.
    by rewrite app_assoc.
Qed.

(** The number of pages is what the bytes need. *)
Lemma writer_pages w : writer_ok w →
  length (pages w) * KUZU_PAGE_SIZE < length (flush w) + KUZU_PAGE_SIZE ∧
  length (flush w) ≤ length (pages w) * KUZU_PAGE_SIZE.
Proof.
  intros [[Hp Ho]|(full & p & Hp & Hf & Hl & Ho)]; destruct w as [ps off]; cbn [pages pageOffset] in *; subst.
  - cbn. pose proof page_size_pos. lia.
  - rewrite flush_app by done. rewrite !length_app. cbn [length].
    assert (length (concat full) = length full * KUZU_PAGE_SIZE) as ->; [|lia].
    clear Ho. induction Hf as [|q full Hq Hf IH]; [done|]. cbn. rewrite length_app. lia.
Qed.

Lemma getSize_flush w : writer_ok w → getSize w = length (flush w).
Proof.
  intros [[Hp Ho]|(full & p & Hp & Hf & Hl & Ho)]; destruct w as [ps off]; cbn [pages pageOffset] in *; subst.
  - done.
  - rewrite flush_app by done. unfold getSize. cbn [pages pageOffset]. rewrite !length_app. cbn [length].
    assert (length (concat full) = length full * KUZU_PAGE_SIZE) as ->.
    { clear Ho. induction Hf as [|q full Hq Hf IH]; [done|]. cbn. rewrite length_app. lia. }
    destruct (decide _); lia.
Qed.

(** ** What a serializer emits *)

(** [f] succeeds on every writer and appends [bs]. *)
Definition emits (f : InMemFileWriter → option InMemFileWriter) (bs : list Z) : Prop :=
  ∀ w, writer_ok w → ∃ w', f w = Some w' ∧ writer_ok w' ∧ flush w' = flush w ++ bs.

(** The bytes of an integer of [n] bytes, and of a string of the debugging information. *)
Definition int_bytes (n : nat) (v : Z) : list Z := Z_to_little_endian (Z.of_nat n) 8 v.
Definition info_bytes (debug : bool) (s : string) : list Z :=
  if debug then int_bytes 8 (Z.of_nat (length (string_bytes s))) ++ string_bytes s else [].

Lemma emits_none : emits Some [].
Proof. intros w Hw. exists w. by rewrite app_nil_r. Qed.

Lemma emits_bind f g b1 b2 : emits f b1 → emits g b2 → emits (λ w, f w ≫= g) (b1 ++ b2).
Proof.
  intros Hf Hg w Hw. destruct (Hf w Hw) as (w1 & E1 & Hw1 & F1). destruct (Hg w1 Hw1) as (w2 & E2 & Hw2 & F2).
  exists w2. rewrite E1. cbn. split; [done|]. split; [done|]. by rewrite F2, F1, app_assoc.
Qed.

Lemma emits_ofold {A} (f : InMemFileWriter → A → option InMemFileWriter) (bs : A → list Z) l :
  (∀ a, a ∈ l → emits (λ w, f w a) (bs a)) → emits (λ w, ofold f w l) (l ≫= bs).
Proof.
  induction l as [|a l IH]; intros H; [apply emits_none|]. cbn.
  apply (emits_bind (λ w, f w a) (λ w, ofold f w l)); [apply H; by left|]. apply IH. intros x Hx. apply H. by right.
Qed.

Lemma emits_value n v : emits (λ w, serializeValue n w v) (int_bytes n v).
Proof. intros w Hw. by apply write_spec. Qed.

Lemma emits_info debug s : emits (λ w, writeDebuggingInfo debug w s) (info_bytes debug s).
Proof.
  destruct debug; [|apply emits_none]. cbn.
  apply (emits_bind _ (λ w, write w (string_bytes s))); [apply emits_value|]. intros w Hw. by apply write_spec.
Qed.

Lemma length_int_bytes n v : length (int_bytes n v) = n.
Proof. unfold int_bytes. pose proof (length_Z_to_little_endian (Z.of_nat n) 8 v). lia. Qed.

Lemma read_app bs r : read (bs ++ r) (length bs) = Some (bs, r).
Proof.
  unfold read. rewrite decide_True by (rewrite length_app; lia). by rewrite take_app_length, drop_app_length.
Qed.

Lemma deserializeValue_spec n v r : (0 ≤ v < 2 ^ (8 * Z.of_nat n))%Z →
  deserializeValue n (int_bytes n v ++ r) = Some (v, r).
Proof.
  intros Hv. unfold deserializeValue. pose proof (read_app (int_bytes n v) r) as E.
  rewrite length_int_bytes in E. rewrite E. cbn.
  unfold int_bytes. rewrite little_endian_to_Z_to_little_endian by lia.
  rewrite Z.mod_small; [done|]. by rewrite Z.mul_comm.
Qed.

Lemma string_bytes_length s : length (string_bytes s) = String.length s.
Proof.
  unfold string_bytes. rewrite length_fmap. induction s as [|c s IH]; [done|]. cbn. by rewrite IH.
Qed.

Lemma validateDebuggingInfo_spec debug s r : (Z.of_nat (String.length s) < 2 ^ 64)%Z →
  validateDebuggingInfo debug (info_bytes debug s ++ r) s = Some r.
Proof.
  intros Hs. destruct debug; [|done]. cbn [validateDebuggingInfo info_bytes].
  unfold deserializeString. rewrite <-app_assoc, deserializeValue_spec by (rewrite string_bytes_length; cbn; lia).
  cbn [mbind option_bind]. rewrite Nat2Z.id, read_app. cbn. by rewrite decide_True.
Qed.

#[export] Hint Resolve emits_none emits_value emits_info : cj.

(** What is written is what the file receives, packed into as few pages as possible. *)
Theorem writer_packs_pages chunks :
  ∃ w, ofold write emptyWriter chunks = Some w ∧ flush w = concat chunks ∧ getSize w = length (concat chunks) ∧
    length (concat chunks) ≤ getNumPagesToFlush w * KUZU_PAGE_SIZE < length (concat chunks) + KUZU_PAGE_SIZE.
Proof.
  assert (emits (λ w, ofold write w chunks) (chunks ≫= id)) as H.
  { apply emits_ofold. intros d _ w Hw. by apply write_spec. }
  destruct (H emptyWriter) as (w & Hw & Hok & Hfl); [by left|]. exists w. split; [done|].
  assert (flush w = concat chunks) as E.
  { rewrite Hfl. cbn. clear. induction chunks as [|c cs IH]; [done|]. cbn. by f_equal. }
  rewrite getSize_flush by done. pose proof (writer_pages w Hok) as [? ?]. rewrite E in *. done.
Qed.
