(* ===== verification/BitPacking.v ===== *)
(** Packing of integers into bits: [src/src/storage/compression/bitpacking_utils.cpp] (single values),
    [bitpacking_int128.cpp] (chunks of 128-bit integers), and the packing of chunks of 32 values of FastPFor,
    [src/third_party/fastpfor/fastpfor/bitpacking.cpp] and [bitpackinghelpers.h].

    A buffer is a list of bytes; fields of 8, 16 or 32 bits are read and written in it in little-endian order at a
    position in bytes. A read or write out of the buffer, and a failed assertion, are [None]. The integer type of
    the values is a record [Word] of the operations the code applies to it: machine words, and [int128_t] with the
    operations of [Int128]. The theorems show that all routines use one layout: value [i] of a chunk is the bits
    from [i * width] on. *)

From stdpp Require Import list_numbers.
From S2P Require Import Prelude Int128.

#[local] Open Scope Z_scope.

(** ** Memory *)

(** The field of [n] bytes at the position [p]. *)
Definition load (n : Z) (buf : list Z) (p : Z) : option Z :=
  if decide (0 ≤ p ∧ p + n ≤ Z.of_nat (length buf))
  then Some (little_endian_to_Z 8 (take (Z.to_nat n) (drop (Z.to_nat p) buf))) else None.

Definition store (n : Z) (buf : list Z) (p v : Z) : option (list Z) :=
  if decide (0 ≤ p ∧ p + n ≤ Z.of_nat (length buf))
  then Some (take (Z.to_nat p) buf ++ Z_to_little_endian n 8 v ++ drop (Z.to_nat (p + n)) buf) else None.

(** ** Integer types of the values *)

(** Shifts, [|] and [&], [all1sMaskForLeastSignificantBits], and the conversions from and to fields. *)
Record Word := mkWord {
  wbits : Z;
  wshl : Z → Z → Z;
  wshr : Z → Z → Z;
  wor : Z → Z → Z;
  wand : Z → Z → Z;
  wmask : Z → option Z;
  wcast : Z → Z;
  wnarrow : Z → Z → Z
}.

(** The mask of an unsigned machine type. *)
Definition all1sMask (w numBits : Z) : option Z :=
  if decide (numBits ≤ 64) then Some (if numBits =? w then 2 ^ w - 1 else (2 ^ numBits - 1) `mod` 2 ^ w) else None.

(** The mask of [int128_t]; a shift by a negative amount is undefined. *)
Definition all1sMask128 (numBits : Z) : option Z :=
  let fullMask := BinaryNot (LeftShift (tryCastToTemplate 1) (128 - 1)) in
  let numBitsToDiscard := 128 - 1 - numBits in
  if decide (0 ≤ numBitsToDiscard) then Some (val (RightShift fullMask numBitsToDiscard)) else None.

(** Unsigned integers of [w] bits. *)
Definition machine (w : Z) : Word :=
  mkWord w (λ a n, Z.shiftl a n `mod` 2 ^ w) Z.shiftr Z.lor Z.land (all1sMask w) (λ f, f `mod` 2 ^ w) (λ c a, a `mod` 2 ^ c).

(** [int128_t], which is its own unsigned type; a value is the signed number. *)
Definition wide : Word :=
  mkWord 128 (λ a n, val (LeftShift (of_Z a) n)) (λ a n, val (RightShift (of_Z a) n))
    (λ a b, val (BinaryOr (of_Z a) (of_Z b))) (λ a b, val (BinaryAnd (of_Z a) (of_Z b)))
    all1sMask128 (λ f, val (tryCastToTemplate f)) (λ c a, NarrowCast UINT32 (of_Z a)).

(** ** Single values: [BitpackingUtils] *)

(** [sizeOfCompressedTypeBits] and the size of a field in bytes. *)
Definition cbits (o : Word) : Z := if decide (32 ≤ wbits o) then 32 else 8.
Definition cbytes (o : Word) : Z := cbits o / 8.

Fixpoint unpackSingleField (o : Word) (field : nat) (buf : list Z) (src shiftRight : Z) : option Z :=
  match field with
  | O => f ← load (cbytes o) buf src; Some (wshr o (wcast o f) shiftRight)
  | S field' =>
      out ← unpackSingleField o field' buf src shiftRight;
      let shift := Z.of_nat field * cbits o - shiftRight in
      if decide (u64 shift < wbits o) then
        f ← load (cbytes o) buf (src + Z.of_nat field * cbytes o);
        Some (wor o out (wshl o (wcast o f) shift))
      else None
  end.

(** The number of the last field that holds bits of the value. *)
Definition last_field (c d : Z) : nat :=
  if decide (d ≤ c) then 0
  else if decide (c < d ∧ d ≤ 2 * c) then 1
  else if decide (2 * c < d ∧ d ≤ 3 * c) then 2
  else if decide (3 * c < d ∧ d ≤ 4 * c) then 3
  else 4.

Definition unpackSingleValueInPlace (o : Word) (buf : list Z) (src delta shiftRight : Z) : option Z :=
  out ← unpackSingleField o (last_field (cbits o) (delta + shiftRight)) buf src shiftRight;
  mask ← wmask o delta;
  Some (wand o out mask).

(** The new value of the field [out]; [right] selects the direction of the shift. *)
Definition setValueForBitsMatchingMask (o : Word) (right : bool) (out unshiftedValue unshiftedMask shift : Z) : Z :=
  let c := cbits o in
  let move := if right then wshr o else wshl o in
  let valueToSet := wnarrow o c (move (wand o unshiftedValue unshiftedMask) shift) in
  let mask := wnarrow o c (move unshiftedMask shift) in
  let bitsToSet := Z.land valueToSet mask in
  let bitsToClear := Z.lor (Z.lnot mask `mod` 2 ^ c) valueToSet in
  Z.land (Z.lor out bitsToSet) bitsToClear.

Fixpoint packSingleField (o : Word) (field : nat) (v : Z) (buf : list Z) (dst shiftLeft mask : Z) : option (list Z) :=
  match field with
  | O =>
      f ← load (cbytes o) buf dst;
      store (cbytes o) buf dst (setValueForBitsMatchingMask o false f v mask shiftLeft)
  | S field' =>
      buf ← packSingleField o field' v buf dst shiftLeft mask;
      let shift := Z.of_nat field * cbits o - shiftLeft in
      if decide (u64 shift < wbits o) then
        let p := dst + Z.of_nat field * cbytes o in
        f ← load (cbytes o) buf p;
        store (cbytes o) buf p (setValueForBitsMatchingMask o true f v mask shift)
      else None
  end.

Definition packSingleImpl (o : Word) (v : Z) (buf : list Z) (dst delta shiftLeft mask : Z) : option (list Z) :=
  packSingleField o (last_field (cbits o) (delta + shiftLeft)) v buf dst shiftLeft mask.

(** [src] and [dst] are positions in bytes, the offsets count values. *)
Definition unpackSingle (o : Word) (buf : list Z) (src bitWidth srcOffset : Z) : option Z :=
  unpackSingleValueInPlace o buf (src + srcOffset * bitWidth / cbits o * cbytes o) bitWidth
    ((srcOffset * bitWidth) `mod` cbits o).

Definition packSingle (o : Word) (v : Z) (buf : list Z) (dst bitWidth dstOffset : Z) : option (list Z) :=
  mask ← wmask o bitWidth;
  packSingleImpl o v buf (dst + dstOffset * bitWidth / cbits o * cbytes o) bitWidth
    ((dstOffset * bitWidth) `mod` cbits o) mask.

(** ** Chunks of 128-bit integers: [Int128Packer] *)

Definition CHUNK_SIZE : nat := 32.

(** [packDelta32] to [packDelta128]: values of [n] fields. *)
Definition packDelta (n : nat) (vs : list Z) (buf : list Z) (out : Z) : option (list Z) :=
  ofold (λ buf i,
    v ← vs !! i;
    ofold (λ buf k, store 4 buf (out + 4 * (Z.of_nat n * Z.of_nat i + Z.of_nat k))
      (wnarrow wide 32 (wshr wide v (32 * Z.of_nat k)))) buf (seq 0 n)) buf (seq 0 CHUNK_SIZE).

Definition unpackDelta0 : list Z := replicate CHUNK_SIZE 0.

(** [unpackDelta32] to [unpackDelta128]. *)
Definition unpackDelta (n : nat) (buf : list Z) (src : Z) : option (list Z) :=
  mapM (λ i,
    f ← load 4 buf (src + 4 * (Z.of_nat n * Z.of_nat i));
    ofold (λ out k,
      f ← load 4 buf (src + 4 * (Z.of_nat n * Z.of_nat i + Z.of_nat k));
      Some (wor wide out (wshl wide (wcast wide f) (32 * Z.of_nat k)))) (wcast wide f) (seq 1 (n - 1)))
    (seq 0 CHUNK_SIZE).

(** The last value of a chunk ends with a field. *)
Definition unpackLast (buf : list Z) (src delta : Z) : option Z :=
  let SHIFT := (delta * 31) `mod` 32 in
  f ← load 4 buf src;
  let out := wcast wide (Z.shiftr f SHIFT) in
  out ← (if decide (delta > 32) then f ← load 4 buf (src + 4); Some (wor wide out (wshl wide (wcast wide f) (32 - SHIFT))) else Some out);
  out ← (if decide (delta > 64) then f ← load 4 buf (src + 8); Some (wor wide out (wshl wide (wcast wide f) (64 - SHIFT))) else Some out);
  if decide (delta > 96) then f ← load 4 buf (src + 12); Some (wor wide out (wshl wide (wcast wide f) (96 - SHIFT))) else Some out.

Definition Int128Packer_pack (vs : list Z) (buf : list Z) (out width : Z) : option (list Z) :=
  if decide (width ≤ 128) then
    if decide (width = 0) then Some buf
    else if decide (width = 32) then packDelta 1 vs buf out
    else if decide (width = 64) then packDelta 2 vs buf out
    else if decide (width = 96) then packDelta 3 vs buf out
    else if decide (width = 128) then packDelta 4 vs buf out
    else ofold (λ buf i, v ← vs !! i; packSingle wide v buf out width (Z.of_nat i)) buf (seq 0 CHUNK_SIZE)
  else None.

Definition Int128Packer_unpack (buf : list Z) (src width : Z) : option (list Z) :=
  if decide (width ≤ 128) then
    if decide (width = 0) then Some unpackDelta0
    else if decide (width = 32) then unpackDelta 1 buf src
    else if decide (width = 64) then unpackDelta 2 buf src
    else if decide (width = 96) then unpackDelta 3 buf src
    else if decide (width = 128) then unpackDelta 4 buf src
    else
      vs ← mapM (λ i, unpackSingle wide buf src width (Z.of_nat i)) (seq 0 (CHUNK_SIZE - 1));
      v ← unpackLast buf (src + 4 * (31 * width / 32)) width;
      Some (vs ++ [v])
  else None.

(** ** Chunks of machine integers: FastPFor

    [c] is the number of bits of a field; values have as many, except for those of 64 bits, which are packed into
    fields of 32 bits by functions of their own. A group is the [c] values that fill whole fields. *)

Definition unpack_single_out (c delta shr : Z) (buf : list Z) (src : Z) : option (Z * Z) :=
  x ← load (c / 8) buf src;
  if decide (delta + shr < c) then Some (Z.shiftr x shr `mod` 2 ^ delta, src)
  else
    let src := src + c / 8 in
    y ← load (c / 8) buf src;
    let next_shr := shr + delta - c in
    Some (Z.lor (Z.shiftr x shr) (Z.shiftl (y `mod` 2 ^ next_shr) (c - shr)), src).

Definition unpack_single_out64 (delta shr : Z) (buf : list Z) (src : Z) : option (Z * Z) :=
  x ← load 4 buf src;
  if decide (delta + shr < 32) then Some (Z.shiftr x shr `mod` 2 ^ delta, src)
  else if decide (delta + shr < 64) then
    let src := src + 4 in
    if decide (delta + shr > 32) then
      y ← load 4 buf src;
      Some (Z.lor (Z.shiftr x shr) (u64 (Z.shiftl (y `mod` 2 ^ (shr + delta - 32)) (32 - shr))), src)
    else Some (Z.shiftr x shr, src)
  else
    let src := src + 4 in
    y ← load 4 buf src;
    let out := Z.lor (Z.shiftr x shr) (u64 (Z.shiftl y (32 - shr))) in
    let src := src + 4 in
    if decide (delta + shr > 64) then
      z ← load 4 buf src;
      Some (Z.lor out (u64 (Z.shiftl (z `mod` 2 ^ (delta + shr - 64)) (64 - shr))), src)
    else Some (out, src).

Definition pack_single_in (c delta shl mask v : Z) (buf : list Z) (out : Z) : option (list Z * Z) :=
  if decide (delta + shl < c) then
    buf ← (if decide (shl = 0) then store (c / 8) buf out (Z.land v mask)
      else x ← load (c / 8) buf out; store (c / 8) buf out (Z.lor x (Z.shiftl (Z.land v mask) shl `mod` 2 ^ c)));
    Some (buf, out)
  else
    x ← load (c / 8) buf out;
    buf ← store (c / 8) buf out (Z.lor x (Z.shiftl v shl `mod` 2 ^ c));
    let out := out + c / 8 in
    buf ← (if decide (delta + shl > c) then store (c / 8) buf out (Z.shiftr (Z.land v mask) (c - shl)) else Some buf);
    Some (buf, out).

Definition pack_single_in64 (delta shl mask v : Z) (buf : list Z) (out : Z) : option (list Z * Z) :=
  if decide (delta + shl < 64) then
    buf ← (if decide (shl = 0) then store 4 buf out (u32 (Z.land v mask))
      else x ← load 4 buf out; store 4 buf out (u32 (Z.lor x (u64 (Z.shiftl (Z.land v mask) shl)))));
    if decide (delta + shl < 32) then Some (buf, out)
    else
      let out := out + 4 in
      buf ← (if decide (delta + shl > 32) then store 4 buf out (u32 (Z.shiftr (Z.land v mask) (32 - shl))) else Some buf);
      Some (buf, out)
  else
    x ← load 4 buf out;
    buf ← store 4 buf out (u32 (Z.lor x (u64 (Z.shiftl v shl))));
    let out := out + 4 in
    buf ← store 4 buf out (u32 (Z.shiftr (Z.land v mask) (32 - shl)));
    let out := out + 4 in
    buf ← (if decide (delta + shl > 64) then store 4 buf out (u32 (Z.shiftr (Z.land v mask) (64 - shl))) else Some buf);
    Some (buf, out).

(** [Unroller8], [Unroller16] and [Unroller] for 32 bits: the values from the number [oindex] on; the last one is a
    case of its own. *)
Fixpoint Unroller_Unpack (c delta : Z) (n : nat) (oindex : Z) (buf : list Z) (src : Z) : option (list Z) :=
  let shift := (delta * oindex) `mod` c in
  match n with
  | O => None
  | 1%nat => x ← load (c / 8) buf src; Some [Z.shiftr x shift]
  | S n =>
      '(v, src) ← unpack_single_out c delta shift buf src;
      vs ← Unroller_Unpack c delta n (oindex + 1) buf src;
      Some (v :: vs)
  end.

Fixpoint Unroller_Unpack64 (delta : Z) (n : nat) (oindex : Z) (buf : list Z) (src : Z) : option (list Z) :=
  let shift := (delta * oindex) `mod` 32 in
  match n with
  | O => None
  | 1%nat =>
      x ← load 4 buf src;
      if decide (delta > 32) then y ← load 4 buf (src + 4); Some [Z.lor (Z.shiftr x shift) (u64 (Z.shiftl y (32 - shift)))]
      else Some [Z.shiftr x shift]
  | S n =>
      '(v, src) ← unpack_single_out64 delta shift buf src;
      vs ← Unroller_Unpack64 delta n (oindex + 1) buf src;
      Some (v :: vs)
  end.

Fixpoint Unroller_Pack (c delta oindex : Z) (vs : list Z) (buf : list Z) (out : Z) : option (list Z) :=
  let shift := (delta * oindex) `mod` c in
  match vs with
  | [] => None
  | [v] => x ← load (c / 8) buf out; store (c / 8) buf out (Z.lor x (Z.shiftl v shift `mod` 2 ^ c))
  | v :: vs =>
      '(buf, out) ← pack_single_in c delta shift (2 ^ delta - 1) v buf out;
      Unroller_Pack c delta (oindex + 1) vs buf out
  end.

Fixpoint Unroller_Pack64 (delta oindex : Z) (vs : list Z) (buf : list Z) (out : Z) : option (list Z) :=
  let shift := (delta * oindex) `mod` 32 in
  match vs with
  | [] => None
  | [v] =>
      x ← load 4 buf out;
      buf ← store 4 buf out (u32 (Z.lor x (u64 (Z.shiftl v shift))));
      if decide (delta > 32) then store 4 buf (out + 4) (u32 (Z.shiftr v (32 - shift))) else Some buf
  | v :: vs =>
      '(buf, out) ← pack_single_in64 delta shift (2 ^ delta - 1) v buf out;
      Unroller_Pack64 delta (oindex + 1) vs buf out
  end.

(** The loops of the widths 4, 8 and 16 over whole fields. *)
Definition unpack_words (c bit : Z) (buf : list Z) (src : Z) : option (list Z) :=
  mjoin <$> mapM (λ outer, x ← load (c / 8) buf (src + Z.of_nat outer * (c / 8));
    Some ((λ i, Z.shiftr x (Z.of_nat i * bit) `mod` 2 ^ bit) <$> seq 0 (Z.to_nat (c / bit)))) (seq 0 (Z.to_nat bit)).

(** [__fastunpack0] to [__fastunpack32] for one group; the functions for 8 and 16 bits throw for a larger width,
    those for 32 bits leave the output as it is. *)
Definition fastunpack_group (c bit : Z) (out : list Z) (buf : list Z) (src : Z) : option (list Z) :=
  if decide (bit = 0) then Some (replicate (Z.to_nat c) 0)
  else if decide (bit = c) then mapM (λ k, load (c / 8) buf (src + Z.of_nat k * (c / 8))) (seq 0 (Z.to_nat c))
  else if decide (c < bit) then if decide (c = 32) then Some out else None
  else if decide (bit = 4 ∨ bit = 8 ∨ bit = 16) then unpack_words c bit buf src
  else Unroller_Unpack c bit (Z.to_nat c) 0 buf src.

Definition fastpack_group (c bit : Z) (vs : list Z) (buf : list Z) (out : Z) : option (list Z) :=
  if decide (bit = 0) then Some buf
  else if decide (bit = c) then
    ofold (λ buf k, v ← vs !! k; store (c / 8) buf (out + Z.of_nat k * (c / 8)) v) buf (seq 0 (Z.to_nat c))
  else if decide (c < bit) then if decide (c = 32) then Some buf else None
  else if decide (length vs = Z.to_nat c) then Unroller_Pack c bit 0 vs buf out else None.

(** [fastunpack] and [fastpack] for 8, 16 and 32 bits: four quarters, two halves or one group. *)
Definition fastunpack_small (c : Z) (out : list Z) (buf : list Z) (src bit : Z) : option (list Z) :=
  mjoin <$> mapM (λ i, fastunpack_group c bit (take (Z.to_nat c) (drop (i * Z.to_nat c) out)) buf
    (src + Z.of_nat i * bit * (c / 8))) (seq 0 (Z.to_nat (32 / c))).

Definition fastpack_small (c : Z) (vs : list Z) (buf : list Z) (out bit : Z) : option (list Z) :=
  ofold (λ buf i, fastpack_group c bit (take (Z.to_nat c) (drop (i * Z.to_nat c) vs)) buf
    (out + Z.of_nat i * bit * (c / 8))) buf (seq 0 (Z.to_nat (32 / c))).

(** The same for 64 bits. *)
Definition fastunpack64 (out : list Z) (buf : list Z) (src bit : Z) : option (list Z) :=
  if decide (bit = 0) then Some (replicate 32 0)
  else if decide (bit = 32) then mapM (λ k, load 4 buf (src + 4 * Z.of_nat k)) (seq 0 32)
  else if decide (bit = 64) then
    mapM (λ k, x ← load 4 buf (src + 8 * Z.of_nat k); y ← load 4 buf (src + 8 * Z.of_nat k + 4); Some (Z.lor x (Z.shiftl y 32))) (seq 0 32)
  else if decide (64 < bit) then Some out
  else if decide (bit = 4 ∨ bit = 8 ∨ bit = 16) then unpack_words 32 bit buf src
  else Unroller_Unpack64 bit 32 0 buf src.

Definition fastpack64 (vs : list Z) (buf : list Z) (out bit : Z) : option (list Z) :=
  if decide (bit = 0) then Some buf
  else if decide (bit = 32) then
    ofold (λ buf k, v ← vs !! k; store 4 buf (out + 4 * Z.of_nat k) (u32 v)) buf (seq 0 32)
  else if decide (bit = 64) then
    ofold (λ buf k, v ← vs !! k; buf ← store 4 buf (out + 8 * Z.of_nat k) (u32 v);
      store 4 buf (out + 8 * Z.of_nat k + 4) (Z.shiftr v 32)) buf (seq 0 32)
  else if decide (64 < bit) then Some buf
  else if decide (length vs = 32%nat) then Unroller_Pack64 bit 0 vs buf out else None.

(** ** Dispatch of [compression.cpp] on the type of the values *)

Definition fastpack (o : Word) (vs : list Z) (buf : list Z) (out bit : Z) : option (list Z) :=
  if decide (wbits o = 128) then Int128Packer_pack vs buf out bit
  else if decide (wbits o = 64) then fastpack64 vs buf out bit
  else fastpack_small (wbits o) vs buf out bit.

Definition fastunpack (o : Word) (out : list Z) (buf : list Z) (src bit : Z) : option (list Z) :=
  if decide (wbits o = 128) then Int128Packer_unpack buf src bit
  else if decide (wbits o = 64) then fastunpack64 out buf src bit
  else fastunpack_small (wbits o) out buf src bit.

(** ** Bits of a buffer *)

(** Linear arithmetic with quotients and remainders. *)
Ltac dlia := zify; Z.to_euclidean_division_equations; lia.

Definition byte (b : Z) : Prop := 0 ≤ b < 2 ^ 8.

Definition bit_at (buf : list Z) (k : Z) : bool := Z.testbit (little_endian_to_Z 8 buf) k.

Lemma bit_at_lookup buf k : Forall byte buf → 0 ≤ k →
  bit_at buf k = match buf !! Z.to_nat (k / 8) with Some b => Z.testbit b (k `mod` 8) | None => false end.
Proof.
  intros Hb Hk. unfold bit_at. destruct (buf !! Z.to_nat (k / 8)) as [b|] eqn:E; [by apply little_endian_to_Z_spec|].
  apply lookup_ge_None in E. pose proof (little_endian_to_Z_bound 8 buf ltac:(lia) Hb) as Hn.
  apply Z.testbit_false; [done|]. rewrite Z.div_small; [done|]. split; [lia|]. eapply Z.lt_le_trans; [apply Hn|].
  apply Z.pow_le_mono_r; [lia|dlia].
Qed.

Lemma bit_at_app a b k : Forall byte a → Forall byte b → 0 ≤ k →
  bit_at (a ++ b) k = if decide (k < 8 * Z.of_nat (length a)) then bit_at a k else bit_at b (k - 8 * Z.of_nat (length a)).
Proof.
  intros Ha Hb Hk. rewrite bit_at_lookup by (done || by apply Forall_app). case_decide.
  - rewrite lookup_app_l by dlia. by rewrite bit_at_lookup.
  - rewrite lookup_app_r by dlia. rewrite bit_at_lookup by (done || lia).
    replace (Z.to_nat ((k - 8 * Z.of_nat (length a)) / 8)) with (Z.to_nat (k / 8) - length a)%nat by dlia.
    replace ((k - 8 * Z.of_nat (length a)) `mod` 8) with (k `mod` 8) by dlia. done.
Qed.

Lemma bit_at_take a n k : Forall byte a → 0 ≤ k → bit_at (take n a) k = (k <? 8 * Z.of_nat n) && bit_at a k.
Proof.
  intros Ha Hk. rewrite !bit_at_lookup by (done || by apply Forall_take). destruct (Z.ltb_spec k (8 * Z.of_nat n)); cbn [andb].
  - by rewrite lookup_take_lt by dlia.
  - by rewrite lookup_take_ge by dlia.
Qed.

Lemma bit_at_drop a n k : Forall byte a → 0 ≤ k → bit_at (drop n a) k = bit_at a (8 * Z.of_nat n + k).
Proof.
  intros Ha Hk. rewrite !bit_at_lookup by (done || lia || by apply Forall_drop). rewrite lookup_drop.
  replace (Z.to_nat ((8 * Z.of_nat n + k) / 8)) with (n + Z.to_nat (k / 8))%nat by dlia.
  by replace ((8 * Z.of_nat n + k) `mod` 8) with (k `mod` 8) by dlia.
Qed.

Lemma mod_bit a n j : 0 ≤ n → 0 ≤ j → Z.testbit (a `mod` 2 ^ n) j = (j <? n) && Z.testbit a j.
Proof.
  intros Hn Hj. destruct (Z.ltb_spec j n); cbn [andb]; [by apply Z.mod_pow2_bits_low|by apply Z.mod_pow2_bits_high].
Qed.

Lemma bit_at_bytes n v k : 0 ≤ n → 0 ≤ k → bit_at (Z_to_little_endian n 8 v) k = (k <? 8 * n) && Z.testbit v k.
Proof.
  intros Hn Hk. unfold bit_at. rewrite little_endian_to_Z_to_little_endian by lia.
  rewrite mod_bit by lia. by rewrite Z.mul_comm.
Qed.

Lemma bytes_ok n v : 0 ≤ n → Forall byte (Z_to_little_endian n 8 v).
Proof. intros. by apply Z_to_little_endian_bound. Qed.

Lemma length_bytes n v : 0 ≤ n → length (Z_to_little_endian n 8 v) = Z.to_nat n.
Proof. intros. pose proof (length_Z_to_little_endian n 8 v ltac:(lia)). lia. Qed.

(** ** Reading and writing fields *)

Definition in_buffer (buf : list Z) (p n : Z) : Prop := 0 ≤ p ∧ 0 ≤ n ∧ p + n ≤ Z.of_nat (length buf).

Lemma load_spec n buf p : Forall byte buf → in_buffer buf p n →
  ∃ x, load n buf p = Some x ∧ 0 ≤ x < 2 ^ (8 * n) ∧ ∀ j, 0 ≤ j → Z.testbit x j = (j <? 8 * n) && bit_at buf (8 * p + j).
Proof.
  intros Hb (Hp & Hn & Hl). unfold load. rewrite decide_True by lia. eexists. split; [done|]. split.
  - pose proof (little_endian_to_Z_bound 8 (take (Z.to_nat n) (drop (Z.to_nat p) buf)) ltac:(lia)
      ltac:(by apply Forall_take, Forall_drop)) as H.
    rewrite length_take, length_drop in H. replace (Z.of_nat (Z.to_nat n `min` (length buf - Z.to_nat p)) * 8) with (8 * n) in H by lia. done.
  - intros j Hj. fold (bit_at (take (Z.to_nat n) (drop (Z.to_nat p) buf)) j).
    rewrite bit_at_take by (done || by apply Forall_drop). rewrite bit_at_drop by done. by rewrite !Z2Nat.id by lia.
Qed.

(** [buf'] is [buf] with [n] bits from [k] on replaced by those that [f] gives. *)
Record patched (buf : list Z) (k n : Z) (f : Z → bool) (buf' : list Z) : Prop := {
  pa_bytes : Forall byte buf';
  pa_length : length buf' = length buf;
  pa_bits : ∀ m, 0 ≤ m → bit_at buf' m = if decide (k ≤ m < k + n) then f (m - k) else bit_at buf m
}.

Lemma store_spec n buf p v : Forall byte buf → in_buffer buf p n →
  ∃ buf', store n buf p v = Some buf' ∧ patched buf (8 * p) (8 * n) (Z.testbit v) buf'.
Proof.
  intros Hb (Hp & Hn & Hl). unfold store. rewrite decide_True by lia. eexists. split; [done|].
  assert (Forall byte (Z_to_little_endian n 8 v ++ drop (Z.to_nat (p + n)) buf)) as H2
    by (apply Forall_app; split; [by apply bytes_ok|by apply Forall_drop]).
  assert (Forall byte (take (Z.to_nat p) buf)) as H1 by by apply Forall_take.
  split; [by apply Forall_app| |].
  - rewrite !length_app, length_take, length_drop, length_bytes by done. lia.
  - intros m Hm. rewrite bit_at_app by done. rewrite length_take.
    replace (8 * Z.of_nat (Z.to_nat p `min` length buf)) with (8 * p) by lia.
    destruct (decide (m < 8 * p)).
    { rewrite bit_at_take, decide_False by (done || lia). destruct (Z.ltb_spec m (8 * Z.of_nat (Z.to_nat p))); [done|lia]. }
    rewrite bit_at_app by (done || lia || (by apply bytes_ok) || (by apply Forall_drop)). rewrite length_bytes by done.
    rewrite Z2Nat.id by done. case_decide.
    + rewrite bit_at_bytes, decide_True by lia. destruct (Z.ltb_spec (m - 8 * p) (8 * n)); [done|lia].
    + rewrite bit_at_drop, decide_False by (done || lia). f_equal. lia.
Qed.

(** The number in [w] bits from [k] on. *)
Definition bits_at (buf : list Z) (k w : Z) : Z := Z.shiftr (little_endian_to_Z 8 buf) k `mod` 2 ^ w.

Lemma bits_at_spec buf k w j : 0 ≤ k → 0 ≤ w → 0 ≤ j → Z.testbit (bits_at buf k w) j = (j <? w) && bit_at buf (k + j).
Proof. intros. unfold bits_at. rewrite mod_bit, Z.shiftr_spec by lia. unfold bit_at. do 2 f_equal. lia. Qed.

Lemma bits_at_range buf k w : 0 ≤ w → 0 ≤ bits_at buf k w < 2 ^ w.
Proof. intros. unfold bits_at. apply Z.mod_pos_bound. lia. Qed.

(** A number is given by its bits. *)
Lemma bits_at_unique buf k w v : 0 ≤ k → 0 ≤ w → (∀ j, 0 ≤ j → Z.testbit v j = (j <? w) && bit_at buf (k + j)) → v = bits_at buf k w.
Proof. intros Hk Hw H. apply Z.bits_inj'. intros j Hj. by rewrite H, bits_at_spec. Qed.

(** The values [vs] are in [w] bits each from [k] on, and the rest of the buffer is as before. *)
Record wrote (buf : list Z) (k w : Z) (vs : list Z) (buf' : list Z) : Prop := {
  wr_bytes : Forall byte buf';
  wr_length : length buf' = length buf;
  wr_values : ∀ i v j, vs !! i = Some v → 0 ≤ j < w → bit_at buf' (k + Z.of_nat i * w + j) = Z.testbit v j;
  wr_rest : ∀ m, 0 ≤ m → m < k ∨ k + Z.of_nat (length vs) * w ≤ m → bit_at buf' m = bit_at buf m
}.

Lemma wrote_nil buf k w : Forall byte buf → wrote buf k w [] buf.
Proof. intros Hb. by split. Qed.

Lemma wrote_app buf k w vs1 buf1 vs2 buf2 : 0 ≤ k → 0 ≤ w → wrote buf k w vs1 buf1 →
  wrote buf1 (k + Z.of_nat (length vs1) * w) w vs2 buf2 → wrote buf k w (vs1 ++ vs2) buf2.
Proof.
  intros Hk Hw [_ L1 V1 R1] [B2 L2 V2 R2]. split; [done|congruence| |].
  - intros i v j Hi Hj. destruct (decide (i < length vs1)%nat).
    + rewrite lookup_app_l in Hi by done. rewrite R2; [by apply V1|nia|left; nia].
    + rewrite lookup_app_r in Hi by lia. rewrite <-(V2 (i - length vs1)%nat v j Hi Hj). f_equal. nia.
  - intros m Hm Hr. rewrite length_app in Hr. rewrite R2, R1; [done|done|nia|done|nia].
Qed.

Lemma wrote_patched buf k w v buf' : 0 ≤ k → 0 ≤ w → patched buf k w (Z.testbit v) buf' → wrote buf k w [v] buf'.
Proof.
  intros Hk Hw [B L P]. split; [done|done| |].
  - intros [|i] x j Hi Hj; simplify_eq/=. rewrite P, decide_True by lia. f_equal. lia.
  - cbn. intros m Hm Hr. rewrite P, decide_False by lia. done.
Qed.

Lemma wrote_bits_at buf k w vs buf' i v : 0 ≤ k → 0 ≤ w → wrote buf k w vs buf' → vs !! i = Some v →
  bits_at buf' (k + Z.of_nat i * w) w = v `mod` 2 ^ w.
Proof.
  intros Hk Hw [_ _ V _] Hi. symmetry. apply bits_at_unique; [nia|done|]. intros j Hj. rewrite mod_bit by done.
  destruct (Z.ltb_spec j w); [|done]. cbn [andb]. symmetry. apply V; [done|lia].
Qed.

Lemma wrote_other buf k w vs buf' m n : 0 ≤ m → 0 ≤ n → wrote buf k w vs buf' → m + n ≤ k ∨ k + Z.of_nat (length vs) * w ≤ m →
  bits_at buf' m n = bits_at buf m n.
Proof.
  intros Hm Hn [_ _ _ R] Hr. symmetry. apply bits_at_unique; [done|done|]. intros j Hj. rewrite bits_at_spec by done.
  destruct (Z.ltb_spec j n); [|done]. cbn [andb]. symmetry. apply R; lia.
Qed.

(** ** Laws of the integer types *)

(** The values of a type, and the largest width of a packed value that is less than the whole type for [int128_t]. *)
Definition wrange (o : Word) (a : Z) : Prop :=
  if decide (wbits o = 128) then - 2 ^ 127 ≤ a < 2 ^ 127 else 0 ≤ a < 2 ^ wbits o.
Definition wmax (o : Word) : Z := if decide (wbits o = 128) then 127 else wbits o.

Class WordLaws (o : Word) : Prop := {
  wl_bits : wbits o = 8 ∨ wbits o = 16 ∨ wbits o = 32 ∨ wbits o = 64 ∨ wbits o = 128;
  wl_cast f : 0 ≤ f < 2 ^ cbits o → wcast o f = f;
  wl_shr a n : wrange o a → 0 ≤ n < wbits o → wshr o a n = Z.shiftr a n;
  wl_shl a n : wrange o a → 0 ≤ n < wbits o →
    wrange o (wshl o a n) ∧ ∀ j, 0 ≤ j < wbits o → Z.testbit (wshl o a n) j = Z.testbit a (j - n);
  wl_or a b : wrange o a → wrange o b → wor o a b = Z.lor a b ∧ wrange o (Z.lor a b);
  wl_and a b : wrange o a → wrange o b → wand o a b = Z.land a b;
  wl_mask n : 0 ≤ n ≤ wmax o → wmask o n = Some (Z.ones n);
  wl_narrow a : wrange o a → wnarrow o (cbits o) a = a `mod` 2 ^ cbits o
}.

Lemma ones_bit n j : 0 ≤ n → 0 ≤ j → Z.testbit (Z.ones n) j = (j <? n).
Proof. intros Hn Hj. by apply Z.testbit_ones_nonneg. Qed.

Lemma high_bits a n j : 0 ≤ a < 2 ^ n → n ≤ j → Z.testbit a j = false.
Proof.
  intros Ha Hj. destruct (decide (n < 0)); [rewrite Z.pow_neg_r in Ha by done; lia|].
  rewrite <-(Z.mod_small a (2 ^ n)) by done. apply Z.mod_pow2_bits_high. lia.
Qed.

Lemma lor_range a b n : 0 ≤ n → 0 ≤ a < 2 ^ n → 0 ≤ b < 2 ^ n → 0 ≤ Z.lor a b < 2 ^ n.
Proof.
  intros Hn Ha Hb. assert (Z.lor a b = Z.lor a b `mod` 2 ^ n) as ->; [|apply Z.mod_pos_bound; lia].
  apply Z.bits_inj'. intros j Hj. rewrite mod_bit by done. destruct (Z.ltb_spec j n); [done|].
  rewrite Z.lor_spec, (high_bits a n), (high_bits b n) by done. done.
Qed.

Lemma wrange_machine w a : w ≠ 128 → wrange (machine w) a ↔ 0 ≤ a < 2 ^ w.
Proof. intros Hw. unfold wrange. cbn [machine wbits]. by rewrite decide_False. Qed.

Lemma machine_laws w : w = 8 ∨ w = 16 ∨ w = 32 ∨ w = 64 → WordLaws (machine w).
Proof.
  intros Hw. assert (w ≠ 128) as Hn by lia. split; cbn [machine wbits wcast wshr wshl wor wand wmask wnarrow];
    try (setoid_rewrite wrange_machine; [|done..]).
  - lia.
  - intros f Hf. apply Z.mod_small. split; [lia|]. eapply Z.lt_le_trans; [apply Hf|]. apply Z.pow_le_mono_r; [lia|].
    unfold cbits. cbn [machine wbits]. case_decide; lia.
  - done.
  - intros a n Ha Hi. split; [apply Z.mod_pos_bound; lia|]. intros j Hj. rewrite mod_bit, Z.shiftl_spec by lia.
    destruct (Z.ltb_spec j w); [done|lia].
  - intros a b Ha Hb. split; [done|apply lor_range; lia].
  - done.
  - intros n Hi. unfold wmax in Hi. cbn [machine wbits] in Hi. rewrite decide_False in Hi by done.
    unfold all1sMask. rewrite decide_True by lia. f_equal. rewrite Z.ones_equiv. destruct (Z.eqb_spec n w); [subst; lia|].
    assert (0 < 2 ^ n ≤ 2 ^ w) by (split; [lia|apply Z.pow_le_mono_r; lia]). rewrite Z.mod_small; lia.
  - done.
Qed.

#[export] Instance machine8 : WordLaws (machine 8) := machine_laws 8 ltac:(lia).
#[export] Instance machine16 : WordLaws (machine 16) := machine_laws 16 ltac:(lia).
#[export] Instance machine32 : WordLaws (machine 32) := machine_laws 32 ltac:(lia).
#[export] Instance machine64 : WordLaws (machine 64) := machine_laws 64 ltac:(lia).

Lemma of_Z_val a : - 2 ^ 127 ≤ a < 2 ^ 127 → wf (of_Z a) ∧ val (of_Z a) = a.
Proof.
  intros Ha. assert (- 2 ^ 63 ≤ a / 2 ^ 64 < 2 ^ 63) as Hh by (split; [apply Z.div_le_lower_bound|apply Z.div_lt_upper_bound]; lia).
  unfold of_Z. rewrite Z.shiftr_div_pow2, i64_id by lia. split; [split; cbn; [apply u64_range|done]|]. unfold val, u64. cbn.
  pose proof (Z.div_mod a (2 ^ 64) ltac:(lia)). lia.
Qed.

Lemma wide_mask n : 0 ≤ n ≤ 127 → all1sMask128 n = Some (Z.ones n).
Proof.
  intros Hn. unfold all1sMask128. rewrite decide_True by lia. f_equal.
  assert (BinaryNot (LeftShift (tryCastToTemplate 1) (128 - 1)) = of_Z (Z.ones 127)) as -> by by vm_compute.
  destruct (of_Z_val (Z.ones 127) ltac:(by vm_compute)) as [Hw Hv].
  destruct (RightShift_spec (of_Z (Z.ones 127)) (128 - 1 - n) Hw ltac:(lia)) as [_ ->]. rewrite Hv.
  apply Z.bits_inj'. intros j Hj. rewrite Z.shiftr_spec, !ones_bit by lia.
  destruct (Z.ltb_spec (j + (128 - 1 - n)) 127), (Z.ltb_spec j n); lia.
Qed.

#[export] Instance wide_laws : WordLaws wide.
Proof.
  split; unfold wrange, wmax, cbits; cbn [wide wbits wcast wshr wshl wor wand wmask wnarrow]; rewrite ?decide_True by done.
  - auto.
  - intros f Hf. unfold tryCastToTemplate, val. cbn [low high]. destruct (Z.ltb_spec f 0); [lia|]. rewrite u64_id; cbn; lia.
  - intros a n Ha Hn. destruct (of_Z_val a Ha) as [Hw Hv]. destruct (RightShift_spec (of_Z a) n Hw Hn) as [_ ->]. by rewrite Hv.
  - intros a n Ha Hn. destruct (of_Z_val a Ha) as [Hw Hv]. destruct (LeftShift_spec (of_Z a) n Hw Hn) as [Hs Hsv].
    split; [by apply val_range|]. intros j Hj. rewrite Hsv, Hv, <-Z.shiftl_mul_pow2 by lia. unfold wrap128.
    transitivity (Z.testbit (((Z.shiftl a n + 2 ^ 127) `mod` 2 ^ 128 - 2 ^ 127) `mod` 2 ^ 128) j); [by rewrite Z.mod_pow2_bits_low by lia|].
    rewrite Zminus_mod_idemp_l. replace (Z.shiftl a n + 2 ^ 127 - 2 ^ 127) with (Z.shiftl a n) by lia.
    rewrite Z.mod_pow2_bits_low by lia. apply Z.shiftl_spec. lia.
  - intros a b Ha Hb. destruct (of_Z_val a Ha) as [Hwa Hva], (of_Z_val b Hb) as [Hwb Hvb].
    destruct (bit_op_spec BIT_OR (of_Z a) (of_Z b) Hwa Hwb) as [Hw H]. cbn [bit_op] in H, Hw.
    apply val_range in Hw. rewrite H, Hva, Hvb in Hw. by rewrite H, Hva, Hvb.
  - intros a b Ha Hb. destruct (of_Z_val a Ha) as [Hwa Hva], (of_Z_val b Hb) as [Hwb Hvb].
    destruct (bit_op_spec BIT_AND (of_Z a) (of_Z b) Hwa Hwb) as [_ H]. cbn [bit_op] in H. by rewrite H, Hva, Hvb.
  - apply wide_mask.
  - intros a Ha. unfold NarrowCast, static_cast, of_Z. cbn [isSigned width low]. unfold u64.
    apply Z.mod_mod_divide. by exists (2 ^ 32).
Qed.

(** Consequences of the laws. *)
Section Laws.
Context (o : Word) {L : WordLaws o}.

Lemma cbits_cases : (cbits o = 8 ∧ cbytes o = 1 ∧ (wbits o = 8 ∨ wbits o = 16)) ∨
  (cbits o = 32 ∧ cbytes o = 4 ∧ (wbits o = 32 ∨ wbits o = 64 ∨ wbits o = 128)).
Proof. unfold cbytes, cbits. destruct wl_bits as [->|[->|[->|[->| ->]]]]; cbn; auto 10. Qed.

Lemma wmax_bits : (wmax o = wbits o ∧ wbits o ≤ 64) ∨ (wmax o = 127 ∧ wbits o = 128).
Proof. unfold wmax. destruct wl_bits; case_decide; lia. Qed.

Lemma field_range f : 0 ≤ f < 2 ^ cbits o → wrange o f.
Proof.
  intros Hf. unfold wrange. destruct cbits_cases as [(E & _ & Hw)|(E & _ & Hw)]; rewrite E in Hf; case_decide;
    destruct_or!; try lia; rewrite Hw; lia.
Qed.

Lemma ones_range n : 0 ≤ n ≤ wmax o → wrange o (Z.ones n).
Proof.
  intros Hn. unfold wrange, wmax in *. rewrite Z.ones_equiv.
  case_decide; [assert (0 < 2 ^ n ≤ 2 ^ 127)|assert (0 < 2 ^ n ≤ 2 ^ wbits o)]; try lia; (split; [lia|apply Z.pow_le_mono_r; lia]).
Qed.

End Laws.

(** ** Single values *)

Section Singles.
Context (o : Word) {L : WordLaws o}.

(** Bytes of the fields that hold the first [n] bits of a buffer. *)
Definition fields (n : Z) : Z := (n + cbits o - 1) / cbits o * cbytes o.

Lemma last_field_spec c d : 0 < c → 0 ≤ d ≤ 5 * c →
  let f := Z.of_nat (last_field c d) in f ≤ 4 ∧ d ≤ (f + 1) * c ∧ (f = 0 ∨ f * c < d).
Proof. intros Hc Hd. cbv zeta. unfold last_field. repeat case_decide; lia. Qed.

Lemma load_field buf p : Forall byte buf → in_buffer buf p (cbytes o) →
  ∃ x, load (cbytes o) buf p = Some x ∧ 0 ≤ x < 2 ^ cbits o ∧ ∀ j, 0 ≤ j → Z.testbit x j = (j <? cbits o) && bit_at buf (8 * p + j).
Proof.
  intros Hb Hp. assert (cbits o = 8 * cbytes o) as -> by (destruct (cbits_cases o) as [(-> & -> & _)|(-> & -> & _)]; done).
  by apply load_spec.
Qed.

Lemma unpackSingleField_spec field buf src s : Forall byte buf → 0 ≤ s < cbits o → Z.of_nat field * cbits o < s + wbits o →
  in_buffer buf src ((Z.of_nat field + 1) * cbytes o) →
  ∃ x, unpackSingleField o field buf src s = Some x ∧ wrange o x ∧
    ∀ j, 0 ≤ j < wbits o → Z.testbit x j = (j <? (Z.of_nat field + 1) * cbits o - s) && bit_at buf (8 * src + s + j).
Proof.
  intros Hb Hs. pose proof (cbits_cases o) as Hc. induction field as [|field IH]; intros Hf Hi.
  - destruct (load_field buf src Hb ltac:(destruct Hi as (? & ? & ?); split_and!; lia)) as (x & Hx & Hr & Hbits).
    exists (Z.shiftr x s). cbn [unpackSingleField]. rewrite Hx. cbn [mbind option_bind].
    rewrite (wl_cast x Hr), wl_shr by ((by apply field_range) || lia). split; [done|]. split.
    + apply field_range; [done|]. rewrite Z.shiftr_div_pow2 by lia. split; [apply Z.div_pos; lia|].
      apply Z.div_lt_upper_bound; [lia|]. assert (1 ≤ 2 ^ s) by lia. nia.
    + intros j Hj. rewrite Z.shiftr_spec, Hbits by lia.
      replace (8 * src + (j + s)) with (8 * src + s + j) by lia. f_equal.
      destruct (Z.ltb_spec (j + s) (cbits o)), (Z.ltb_spec j ((Z.of_nat 0 + 1) * cbits o - s)); lia.
  - destruct Hi as (Hi1 & Hi2 & Hi3). destruct IH as (x & Hx & Hxr & Hxb); [lia|split_and!; nia|].
    set (t := Z.of_nat (S field) * cbits o - s). assert (0 ≤ t < wbits o) as Ht by (unfold t; lia).
    destruct (load_field buf (src + Z.of_nat (S field) * cbytes o) Hb ltac:(split_and!; nia)) as (y & Hy & Hyr & Hyb).
    cbn [unpackSingleField]. rewrite Hx. cbn [mbind option_bind]. fold t.
    rewrite u64_id, decide_True, Hy by (destruct (wmax_bits o); lia). cbn [mbind option_bind].
    rewrite (wl_cast y Hyr). destruct (wl_shl y t ltac:(by apply field_range) Ht) as [Hsr Hsb].
    destruct (wl_or _ _ Hxr Hsr) as [-> Hor]. eexists. split; [done|]. split; [done|].
    intros j Hj. rewrite Z.lor_spec, Hxb, Hsb by done. destruct (decide (j < t)) as [Hjt|Hjt].
    + rewrite (Z.testbit_neg_r y) by lia. rewrite orb_false_r. f_equal.
      destruct (Z.ltb_spec j ((Z.of_nat field + 1) * cbits o - s)), (Z.ltb_spec j ((Z.of_nat (S field) + 1) * cbits o - s)); unfold t in *; lia.
    + rewrite Hyb by lia. replace (8 * (src + Z.of_nat (S field) * cbytes o) + (j - t)) with (8 * src + s + j) by (unfold t; lia).
      destruct (Z.ltb_spec j ((Z.of_nat field + 1) * cbits o - s)), (Z.ltb_spec j ((Z.of_nat (S field) + 1) * cbits o - s)),
        (Z.ltb_spec (j - t) (cbits o)); unfold t in *; try lia; done.
Qed.

Lemma wand_ones a n : 0 ≤ n ≤ wmax o → wrange o a → wand o a (Z.ones n) = a `mod` 2 ^ n.
Proof. intros Hn Ha. rewrite wl_and by (done || by apply ones_range). apply Z.land_ones. lia. Qed.

Lemma unpackSingleValueInPlace_spec buf src delta s : Forall byte buf → 0 ≤ s < cbits o → 0 ≤ delta ≤ wmax o →
  in_buffer buf src (fields (s + Z.max 1 delta)) →
  unpackSingleValueInPlace o buf src delta s = Some (bits_at buf (8 * src + s) delta).
Proof.
  intros Hb Hs Hd (Hi1 & Hi2 & Hi3). unfold unpackSingleValueInPlace. pose proof (cbits_cases o) as Hc. pose proof (wmax_bits o) as Hm.
  destruct (last_field_spec (cbits o) (delta + s) ltac:(lia) ltac:(lia)) as (F1 & F2 & F3).
  set (f := last_field (cbits o) (delta + s)) in *. unfold fields in *.
  destruct (unpackSingleField_spec f buf src s Hb Hs ltac:(lia)) as (x & -> & Hr & Hx).
  { destruct Hc as [(Ec & Eb & _)|(Ec & Eb & _)]; rewrite Ec, Eb in *; split_and!; try lia; dlia. }
  cbn [mbind option_bind]. rewrite wl_mask by done. cbn [mbind option_bind]. rewrite wand_ones by done. f_equal.
  apply bits_at_unique; [lia|lia|]. intros j Hj. rewrite mod_bit by lia. destruct (Z.ltb_spec j delta); [|done]. cbn [andb].
  rewrite Hx by lia. destruct (Z.ltb_spec j ((Z.of_nat f + 1) * cbits o - s)); [done|lia].
Qed.

(** [setValueForBitsMatchingMask] replaces the bits under the moved mask. *)
Lemma setValue_spec right out v delta t j : wrange o v → 0 ≤ delta ≤ wmax o → 0 ≤ t < wbits o → 0 ≤ j < cbits o →
  Z.testbit (setValueForBitsMatchingMask o right out v (Z.ones delta) t) j =
  let i := if right : bool then j + t else j - t in
  if decide (0 ≤ i < delta) then Z.testbit v i else Z.testbit out j.
Proof.
  intros Hv Hd Ht Hj. pose proof (cbits_cases o) as Hc. unfold setValueForBitsMatchingMask. rewrite wand_ones by done. cbv zeta.
  assert (wrange o (v `mod` 2 ^ delta)) as Hvr.
  { unfold wrange, wmax in *. pose proof (Z.mod_pos_bound v (2 ^ delta) ltac:(lia)).
    case_decide; [assert (2 ^ delta ≤ 2 ^ 127)|assert (2 ^ delta ≤ 2 ^ wbits o)]; try lia; apply Z.pow_le_mono_r; lia. }
  pose proof (ones_range o delta Hd) as Hor. set (i := if right then j + t else j - t).
  assert (∀ a, wrange o a → wrange o ((if right then wshr o else wshl o) a t) ∧
    (0 ≤ a → Z.testbit ((if right then wshr o else wshl o) a t) j = if decide (0 ≤ i) then Z.testbit a i else false)) as Hmove.
  { intros a Ha. destruct right; unfold i.
    - rewrite wl_shr by done. split; [|intros _; rewrite Z.shiftr_spec, decide_True by lia; done].
      unfold wrange in *. rewrite Z.shiftr_div_pow2 by lia. assert (1 ≤ 2 ^ t) by lia.
      case_decide; (split; [apply Z.div_le_lower_bound; nia|apply Z.div_lt_upper_bound; nia]).
    - destruct (wl_shl a t Ha Ht) as [H1 H2]. split; [done|]. intros _. rewrite H2 by lia. case_decide; [done|].
      apply Z.testbit_neg_r. lia. }
  destruct (Hmove _ Hvr) as [Hv1 Hv2], (Hmove _ Hor) as [Hm1 Hm2]. rewrite !wl_narrow by done.
  rewrite !Z.land_spec, !Z.lor_spec, !Z.land_spec, !mod_bit, Z.lnot_spec, mod_bit, Hv2, Hm2
    by (lia || (rewrite Z.ones_equiv; lia) || (apply Z.mod_pos_bound; lia)).
  destruct (Z.ltb_spec j (cbits o)); [|lia]. cbn [andb].
  destruct (decide (0 ≤ i)); [|rewrite decide_False by lia; destruct (Z.testbit out j); done].
  rewrite mod_bit, ones_bit by lia. destruct (Z.ltb_spec i delta); [rewrite decide_True by lia|rewrite decide_False by lia]; cbn [andb negb orb].
  - destruct (Z.testbit v i), (Z.testbit out j); done.
  - destruct (Z.testbit out j); done.
Qed.

Lemma packSingleField_spec field v buf dst s delta : Forall byte buf → wrange o v → 0 ≤ delta ≤ wmax o → 0 ≤ s < cbits o →
  Z.of_nat field * cbits o < s + wbits o → in_buffer buf dst ((Z.of_nat field + 1) * cbytes o) →
  ∃ buf', packSingleField o field v buf dst s (Z.ones delta) = Some buf' ∧
    patched buf (8 * dst + s) (Z.min delta ((Z.of_nat field + 1) * cbits o - s)) (Z.testbit v) buf'.
Proof.
  intros Hb Hv Hd Hs. pose proof (cbits_cases o) as Hc. induction field as [|field IH]; intros Hf (Hi1 & Hi2 & Hi3).
  - assert (in_buffer buf dst (cbytes o)) as Hi by (split_and!; lia).
    destruct (load_field buf dst Hb Hi) as (x & Hx & Hr & Hbits). cbn [packSingleField]. rewrite Hx. cbn [mbind option_bind].
    destruct (store_spec (cbytes o) buf dst (setValueForBitsMatchingMask o false x v (Z.ones delta) s) Hb Hi) as (buf' & -> & [B1 B2 B3]).
    exists buf'. split; [done|]. split; [done|done|]. intros m Hm. rewrite B3 by done.
    destruct (decide (8 * dst ≤ m < 8 * dst + 8 * cbytes o)); [|by rewrite decide_False by lia].
    rewrite setValue_spec by (done || lia). cbn zeta. rewrite Hbits by lia.
    destruct (Z.ltb_spec (m - 8 * dst) (cbits o)); [|lia]. cbn [andb]. replace (8 * dst + (m - 8 * dst)) with m by lia.
    destruct (decide (0 ≤ m - 8 * dst - s < delta)); [rewrite decide_True by lia; f_equal; lia|by rewrite decide_False by lia].
  - destruct IH as (buf1 & H1 & [A1 A2 A3]); [lia|split_and!; nia|].
    set (t := Z.of_nat (S field) * cbits o - s). assert (0 ≤ t < wbits o) as Ht by (unfold t; lia).
    set (p := dst + Z.of_nat (S field) * cbytes o). assert (in_buffer buf1 p (cbytes o)) as Hi by (unfold p; split_and!; nia).
    destruct (load_field buf1 p A1 Hi) as (y & Hy & Hyr & Hyb). cbn [packSingleField]. rewrite H1. cbn [mbind option_bind]. fold t p.
    rewrite u64_id, decide_True, Hy by (destruct (wmax_bits o); lia). cbn [mbind option_bind].
    destruct (store_spec (cbytes o) buf1 p (setValueForBitsMatchingMask o true y v (Z.ones delta) t) A1 Hi) as (buf' & -> & [B1 B2 B3]).
    exists buf'. split; [done|]. split; [done|congruence|]. intros m Hm. rewrite B3 by done.
    destruct (decide (8 * p ≤ m < 8 * p + 8 * cbytes o)) as [Hin|Hout].
    + rewrite setValue_spec by (done || lia). cbn zeta. rewrite Hyb by lia.
      destruct (Z.ltb_spec (m - 8 * p) (cbits o)); [|lia]. cbn [andb]. replace (8 * p + (m - 8 * p)) with m by lia. rewrite A3 by done.
      replace (m - 8 * p + t) with (m - (8 * dst + s)) by (unfold p, t; lia). unfold p, t in *.
      destruct (decide (0 ≤ m - (8 * dst + s) < delta)); [by rewrite decide_True by lia|by rewrite !decide_False by lia].
    + rewrite A3 by done. unfold p in Hout.
      destruct (decide (8 * dst + s ≤ m < 8 * dst + s + Z.min delta ((Z.of_nat field + 1) * cbits o - s)));
        [by rewrite decide_True by lia|by rewrite decide_False by lia].
Qed.

(** Reading one value. *)
Lemma unpackSingle_spec buf src w off : Forall byte buf → 0 ≤ w ≤ wmax o → 0 ≤ off →
  in_buffer buf src (fields (off * w + Z.max 1 w)) → unpackSingle o buf src w off = Some (bits_at buf (8 * src + off * w) w).
Proof.
  intros Hb Hw Ho (Hi1 & Hi2 & Hi3). unfold unpackSingle. pose proof (cbits_cases o) as Hc. unfold fields in *.
  assert (0 ≤ off * w) by nia. set (q := off * w) in *. rewrite unpackSingleValueInPlace_spec.
  - do 2 f_equal. destruct Hc as [(-> & -> & _)|(-> & -> & _)]; dlia.
  - done.
  - destruct Hc as [(-> & _)|(-> & _)]; dlia.
  - done.
  - unfold fields. destruct Hc as [(Ec & Eb & _)|(Ec & Eb & _)]; rewrite Ec, Eb in *; split_and!; dlia.
Qed.

(** Writing one value. *)
Lemma packSingle_spec v buf dst w off : Forall byte buf → wrange o v → 0 ≤ w ≤ wmax o → 0 ≤ off →
  in_buffer buf dst (fields (off * w + Z.max 1 w)) →
  ∃ buf', packSingle o v buf dst w off = Some buf' ∧ wrote buf (8 * dst + off * w) w [v] buf'.
Proof.
  intros Hb Hv Hw Ho (Hi1 & Hi2 & Hi3). unfold packSingle, packSingleImpl. rewrite wl_mask by done. cbn [mbind option_bind].
  pose proof (cbits_cases o) as Hc. pose proof (wmax_bits o) as Hm. unfold fields in *. assert (0 ≤ off * w) by nia. set (q := off * w) in *.
  assert (0 ≤ q `mod` cbits o < cbits o) as Hq by (apply Z.mod_pos_bound; lia).
  destruct (last_field_spec (cbits o) (w + q `mod` cbits o) ltac:(lia) ltac:(lia)) as (F1 & F2 & F3).
  set (f := last_field (cbits o) (w + q `mod` cbits o)) in *.
  destruct (packSingleField_spec f v buf (dst + q / cbits o * cbytes o) (q `mod` cbits o) w) as (buf' & H1 & H2); [done|done|done|done|lia| |].
  { destruct Hc as [(Ec & Eb & _)|(Ec & Eb & _)]; rewrite Ec, Eb in *; split_and!; dlia. }
  exists buf'. split; [done|]. apply wrote_patched; [lia|lia|].
  replace (Z.min w ((Z.of_nat f + 1) * cbits o - q `mod` cbits o)) with w in H2 by lia.
  replace (8 * (dst + q / cbits o * cbytes o) + q `mod` cbits o) with (8 * dst + q) in H2
    by (destruct Hc as [(-> & -> & _)|(-> & -> & _)]; dlia). done.
Qed.
End Singles.

(** ** Chunks of machine integers *)

Lemma ltb_iff a b c d : (a < b ↔ c < d) → (a <? b) = (c <? d).
Proof. intros H. destruct (Z.ltb_spec a b), (Z.ltb_spec c d); lia. Qed.

(** The bits of a value moved to the left, below [c]. *)
Lemma shifted_bit v s c j : 0 ≤ s → 0 ≤ j < c → Z.testbit (Z.shiftl v s `mod` 2 ^ c) j = (s <=? j) && Z.testbit v (j - s).
Proof.
  intros Hs Hj. rewrite mod_bit, Z.shiftl_spec by lia. destruct (Z.ltb_spec j c); [|lia]. cbn [andb].
  destruct (Z.leb_spec s j); [done|]. by rewrite Z.testbit_neg_r by lia.
Qed.

Lemma masked_bit v n j : 0 ≤ n → 0 ≤ j → Z.testbit (Z.land v (2 ^ n - 1)) j = (j <? n) && Z.testbit v j.
Proof.
  intros Hn Hj. replace (2 ^ n - 1) with (Z.ones n) by (rewrite Z.ones_equiv; lia). by rewrite Z.land_ones, mod_bit.
Qed.

(** What packing one value at the bit [k] does: it writes [n] bits and clears those up to the bit [k + e]. *)
Definition placed (buf : list Z) (k n e v : Z) (buf' : list Z) : Prop :=
  patched buf k e (λ j, (j <? n) && Z.testbit v j) buf'.

Lemma wrote_cons buf k w e v buf1 vs buf2 : 0 ≤ k → 0 ≤ w → placed buf k w e v buf1 → w ≤ e ≤ (1 + Z.of_nat (length vs)) * w →
  wrote buf1 (k + w) w vs buf2 → wrote buf k w (v :: vs) buf2.
Proof.
  intros Hk Hw [_ L1 P1] He [B2 L2 V2 R2]. split; [done|congruence| |].
  - intros [|i] x j Hi Hj; simplify_eq/=.
    + rewrite R2, P1, decide_True by lia. replace (k + Z.of_nat 0 * w + j - k) with j by lia. destruct (Z.ltb_spec j w); [done|lia].
    + rewrite <-(V2 i x j Hi Hj). f_equal. lia.
  - cbn [length]. intros m Hm Hr. rewrite R2, P1, decide_False by lia. done.
Qed.

(** A field that is extended by bits from [s] on, where it has none. *)
Definition clear_from (buf : list Z) (k n : Z) : Prop := ∀ m, k ≤ m < n → bit_at buf m = false.

(** Writing a field of [c] bits that keeps the first [s] of them. *)
Lemma store_extend c buf out s y f : Forall byte buf → c = 8 ∨ c = 16 ∨ c = 32 → 0 ≤ s ≤ c → in_buffer buf out (c / 8) →
  (∀ j, 0 ≤ j < c → Z.testbit y j = if decide (s ≤ j) then f (j - s) else bit_at buf (8 * out + j)) →
  ∃ buf', store (c / 8) buf out y = Some buf' ∧ patched buf (8 * out + s) (c - s) f buf'.
Proof.
  intros Hb Hc Hs Hi Hy. assert (8 * (c / 8) = c) as E by dlia.
  destruct (store_spec (c / 8) buf out y Hb Hi) as (buf' & Hbuf & [B L P]). exists buf'. split; [done|]. split; [done|done|].
  intros m Hm. rewrite P, E by done. destruct (decide (8 * out ≤ m < 8 * out + c)); [|by rewrite decide_False by lia].
  rewrite Hy by lia. destruct (decide (s ≤ m - 8 * out)); [rewrite decide_True by lia|rewrite decide_False by lia]; f_equal; lia.
Qed.

Lemma patched_app buf k n1 n2 f buf1 buf2 : 0 ≤ n1 → 0 ≤ n2 → patched buf k n1 f buf1 → patched buf1 (k + n1) n2 (λ j, f (j + n1)) buf2 →
  patched buf k (n1 + n2) f buf2.
Proof.
  intros Hn1 Hn2 [_ L1 P1] [B2 L2 P2]. split; [done|congruence|]. intros m Hm. rewrite P2, P1 by done.
  destruct (decide (k + n1 ≤ m < k + n1 + n2)); [rewrite decide_True by lia; f_equal; lia|].
  destruct (decide (k ≤ m < k + n1)); [by rewrite decide_True by lia|by rewrite decide_False by lia].
Qed.

(** The bits of a field that is extended from [s] on, where it has none. *)
Lemma extended_bit c buf out s x v j : 0 ≤ s → 0 ≤ j < c → (∀ j, 0 ≤ j → Z.testbit x j = (j <? c) && bit_at buf (8 * out + j)) →
  clear_from buf (8 * out + s) (8 * out + c) →
  Z.testbit (Z.lor x (Z.shiftl v s `mod` 2 ^ c)) j = if decide (s ≤ j) then Z.testbit v (j - s) else bit_at buf (8 * out + j).
Proof.
  intros Hs Hj Hx Hz. rewrite Z.lor_spec, Hx, shifted_bit by lia. destruct (Z.ltb_spec j c); [|lia]. cbn [andb].
  destruct (Z.leb_spec s j); [rewrite decide_True, Hz by lia|rewrite decide_False by lia; apply orb_false_r]. done.
Qed.

(** The end of the last field that packing [n] bits from [s] on touches. *)
Definition field_end (c s n : Z) : Z := (s + n + c - 1) / c * c.

Lemma pack_single_in_spec c delta s v buf out : Forall byte buf → c = 8 ∨ c = 16 ∨ c = 32 → 0 < delta < c → 0 ≤ s < c →
  (s = 0 ∨ clear_from buf (8 * out + s) (8 * out + c)) → in_buffer buf out (field_end c s delta / 8) →
  ∃ buf', pack_single_in c delta s (2 ^ delta - 1) v buf out = Some (buf', out + (s + delta) / c * (c / 8)) ∧
    placed buf (8 * out + s) delta (field_end c s delta - s) v buf'.
Proof.
  intros Hb Hc Hd Hs Hz (Hi1 & Hi2 & Hi3). unfold field_end in *. assert (8 * (c / 8) = c) as E by dlia.
  assert (in_buffer buf out (c / 8)) as Hi by (split_and!; [done|dlia|destruct Hc as [->|[->| ->]]; dlia]).
  destruct (load_spec (c / 8) buf out Hb Hi) as (x & Hx & Hxr & Hxb). rewrite E in Hxb. unfold pack_single_in. case_decide as Hlt.
  - assert ((s + delta) / c = 0) as -> by (apply Z.div_small; lia).
    assert ((s + delta + c - 1) / c * c = c) as -> by (destruct Hc as [->|[->| ->]]; dlia). rewrite Z.mul_0_l, Z.add_0_r. case_decide as Hs0.
    + subst s. destruct (store_extend c buf out 0 (Z.land v (2 ^ delta - 1)) (λ j, (j <? delta) && Z.testbit v j)) as (buf' & -> & Hp);
        [done|done|lia|done| |by exists buf']. intros j Hj. rewrite decide_True, Z.sub_0_r, masked_bit by lia. done.
    + rewrite Hx. cbn [mbind option_bind]. destruct Hz as [?|Hz]; [done|].
      destruct (store_extend c buf out s (Z.lor x (Z.shiftl (Z.land v (2 ^ delta - 1)) s `mod` 2 ^ c)) (λ j, (j <? delta) && Z.testbit v j))
        as (buf' & -> & Hp); [done|done|lia|done| |by exists buf'].
      intros j Hj. rewrite (extended_bit c buf out) by (done || lia). case_decide; [|done]. by rewrite masked_bit by lia.
  - destruct Hz as [?|Hz]; [lia|]. rewrite Hx. cbn [mbind option_bind]. assert ((s + delta) / c = 1) as -> by (destruct Hc as [->|[->| ->]]; dlia).
    destruct (store_extend c buf out s (Z.lor x (Z.shiftl v s `mod` 2 ^ c)) (λ j, (j <? delta) && Z.testbit v j)) as (buf1 & -> & Hp);
      [done|done|lia|done| |].
    { intros j Hj. rewrite (extended_bit c buf out) by (done || lia). case_decide; [|done]. destruct (Z.ltb_spec (j - s) delta); [done|lia]. }
    cbn [mbind option_bind]. rewrite Z.mul_1_l. case_decide as Hgt; cbn [mbind option_bind].
    + assert ((s + delta + c - 1) / c * c = 2 * c) as Ee by (destruct Hc as [->|[->| ->]]; dlia). rewrite Ee in *.
      destruct (store_extend c buf1 (out + c / 8) 0 (Z.shiftr (Z.land v (2 ^ delta - 1)) (c - s)) (λ j, (j + (c - s) <? delta) && Z.testbit v (j + (c - s))))
        as (buf2 & -> & Hp2); [apply Hp|done|lia|destruct Hp as [_ Hl _]; split_and!; [dlia|dlia|rewrite Hl; dlia]| |].
      { intros j Hj. rewrite Z.shiftr_spec, masked_bit, decide_True, Z.sub_0_r by lia. done. }
      exists buf2. split; [done|]. unfold placed. replace (2 * c - s) with ((c - s) + c) by lia. eapply patched_app; [lia|lia|exact Hp|].
      replace (8 * out + s + (c - s)) with (8 * (out + c / 8) + 0) by lia. by rewrite Z.sub_0_r in Hp2.
    + assert ((s + delta + c - 1) / c * c = c) as -> by (destruct Hc as [->|[->| ->]]; dlia). by exists buf1.
Qed.

Lemma u32_bit a j : 0 ≤ j < 32 → Z.testbit (u32 a) j = Z.testbit a j.
Proof. intros Hj. unfold u32. rewrite mod_bit by lia. destruct (Z.ltb_spec j 32); [done|lia]. Qed.

Lemma u32_lor_bit x z j : 0 ≤ j < 32 → Z.testbit (u32 (Z.lor x (u64 z))) j = Z.testbit (Z.lor x (z `mod` 2 ^ 32)) j.
Proof.
  intros Hj. rewrite u32_bit, !Z.lor_spec by done. unfold u64. rewrite !mod_bit by lia.
  destruct (Z.ltb_spec j 64), (Z.ltb_spec j 32); (done || lia).
Qed.

(** Overwriting the field that begins with bit [t] of a value. *)
Lemma store_next buf k t n v buf1 p y : k + t = 8 * p → 0 ≤ t → in_buffer buf p 4 → patched buf k t (λ j, (j <? n) && Z.testbit v j) buf1 →
  (∀ j, 0 ≤ j < 32 → Z.testbit y j = (j + t <? n) && Z.testbit v (j + t)) →
  ∃ buf2, store 4 buf1 p y = Some buf2 ∧ patched buf k (t + 32) (λ j, (j <? n) && Z.testbit v j) buf2.
Proof.
  intros Hk Ht (Hi1 & Hi2 & Hi3) Hp Hy.
  destruct (store_extend 32 buf1 p 0 y (λ j, (j + t <? n) && Z.testbit v (j + t))) as (buf2 & Hs & Hp2);
    [apply Hp|lia|lia|destruct Hp as [_ Hl _]; split_and!; [done|done|rewrite Hl; done]| |].
  { intros j Hj. rewrite decide_True, Z.sub_0_r by lia. by apply Hy. }
  exists buf2. split; [done|]. eapply patched_app; [lia|lia|exact Hp|]. by rewrite Hk, <-(Z.add_0_r (8 * p)).
Qed.

Lemma next_bit v delta t j : 0 ≤ delta → 0 ≤ t → 0 ≤ j < 32 →
  Z.testbit (u32 (Z.shiftr (Z.land v (2 ^ delta - 1)) t)) j = (j + t <? delta) && Z.testbit v (j + t).
Proof. intros. rewrite u32_bit, Z.shiftr_spec, masked_bit by lia. done. Qed.

Lemma pack_single_in64_spec delta s v buf out : Forall byte buf → 0 < delta < 64 → 0 ≤ s < 32 →
  (s = 0 ∨ clear_from buf (8 * out + s) (8 * out + 32)) → in_buffer buf out (field_end 32 s delta / 8) →
  ∃ buf', pack_single_in64 delta s (2 ^ delta - 1) v buf out = Some (buf', out + (s + delta) / 32 * 4) ∧
    placed buf (8 * out + s) delta (field_end 32 s delta - s) v buf'.
Proof.
  intros Hb Hd Hs Hz (Hi1 & Hi2 & Hi3). unfold field_end, placed in *.
  assert (∀ p, 8 * p < 8 * out + (s + delta + 32 - 1) / 32 * 32 → (p = out ∨ p = out + 4 ∨ p = out + 8) → in_buffer buf p 4) as Hi
    by (intros p Hp Hq; split_and!; [lia|lia|dlia]).
  destruct (load_spec 4 buf out Hb (Hi out ltac:(dlia) ltac:(auto))) as (x & Hx & Hxr & Hxb).
  assert (∀ y, (∀ j, 0 ≤ j < 32 → Z.testbit y j = if decide (s ≤ j) then (j - s <? delta) && Z.testbit v (j - s) else bit_at buf (8 * out + j)) →
    ∃ buf1, store 4 buf out y = Some buf1 ∧ patched buf (8 * out + s) (32 - s) (λ j, (j <? delta) && Z.testbit v j) buf1) as Hfirst
    by (intros y Hy; apply (store_extend 32 buf out s y (λ j, (j <? delta) && Z.testbit v j)); (done || lia || (apply Hi; [dlia|auto]))).
  unfold pack_single_in64. case_decide as H64.
  - assert (∃ buf1, (if decide (s = 0) then store 4 buf out (u32 (Z.land v (2 ^ delta - 1)))
      else x ← load 4 buf out; store 4 buf out (u32 (Z.lor x (u64 (Z.shiftl (Z.land v (2 ^ delta - 1)) s))))) = Some buf1 ∧
      patched buf (8 * out + s) (32 - s) (λ j, (j <? delta) && Z.testbit v j) buf1) as (buf1 & -> & Hp).
    { case_decide as Hs0.
      - subst s. apply Hfirst. intros j Hj. rewrite decide_True, Z.sub_0_r, u32_bit, masked_bit by lia. done.
      - rewrite Hx. cbn [mbind option_bind]. apply Hfirst. intros j Hj. rewrite u32_lor_bit, (extended_bit 32 buf out) by (done || lia || naive_solver).
        case_decide; [|done]. by rewrite masked_bit by lia. }
    cbn [mbind option_bind]. case_decide as H32.
    + exists buf1. assert ((s + delta) / 32 = 0) as -> by dlia. assert ((s + delta + 32 - 1) / 32 * 32 = 32) as -> by dlia.
      by rewrite Z.mul_0_l, Z.add_0_r.
    + assert ((s + delta) / 32 = 1) as -> by dlia. rewrite Z.mul_1_l. case_decide as Hgt; cbn [mbind option_bind].
      * destruct (store_next buf (8 * out + s) (32 - s) delta v buf1 (out + 4) (u32 (Z.shiftr (Z.land v (2 ^ delta - 1)) (32 - s))))
          as (buf2 & -> & Hp2); [lia|lia|apply Hi; [dlia|auto]|done|intros; apply next_bit; lia|].
        exists buf2. split; [done|]. by replace ((s + delta + 32 - 1) / 32 * 32 - s) with (32 - s + 32) by dlia.
      * exists buf1. split; [done|]. by replace ((s + delta + 32 - 1) / 32 * 32 - s) with (32 - s) by dlia.
  - destruct Hz as [?|Hz]; [lia|]. rewrite Hx. cbn [mbind option_bind].
    destruct (Hfirst (u32 (Z.lor x (u64 (Z.shiftl v s))))) as (buf1 & -> & Hp).
    { intros j Hj. rewrite u32_lor_bit, (extended_bit 32 buf out) by (done || lia). case_decide; [|done].
      destruct (Z.ltb_spec (j - s) delta); [done|lia]. }
    cbn [mbind option_bind]. assert ((s + delta) / 32 = 2) as -> by dlia.
    destruct (store_next buf (8 * out + s) (32 - s) delta v buf1 (out + 4) (u32 (Z.shiftr (Z.land v (2 ^ delta - 1)) (32 - s))))
      as (buf2 & -> & Hp2); [lia|lia|apply Hi; [dlia|auto]|done|intros; apply next_bit; lia|].
    cbn [mbind option_bind]. case_decide as Hgt; cbn [mbind option_bind].
    + destruct (store_next buf (8 * out + s) (32 - s + 32) delta v buf2 (out + 8) (u32 (Z.shiftr (Z.land v (2 ^ delta - 1)) (64 - s))))
        as (buf3 & Hs3 & Hp3); [lia|lia|apply Hi; [dlia|auto]|done|intros; rewrite next_bit by lia; do 3 f_equal; lia|].
      exists buf3. replace (out + 4 + 4) with (out + 8) by lia. rewrite Hs3. split; [done|].
      by replace ((s + delta + 32 - 1) / 32 * 32 - s) with (32 - s + 32 + 32) by dlia.
    + exists buf2. split; [f_equal; f_equal; lia|]. by replace ((s + delta + 32 - 1) / 32 * 32 - s) with (32 - s + 32) by dlia.
Qed.

(** The bits behind a value that was just packed are clear. *)
Lemma placed_clear buf k n e v buf' m : placed buf k n e v buf' → 0 ≤ k → 0 ≤ n → m ≤ k + e → clear_from buf' (k + n) m.
Proof.
  intros [_ _ P] Hk Hn He j Hj. rewrite P, decide_True by lia. destruct (Z.ltb_spec (j - k) n); [lia|done].
Qed.

(** The three sizes of fields. *)
Ltac field_cases Hc :=
  destruct Hc as [->|[->| ->]]; try change (8 / 8) with 1 in *; try change (16 / 8) with 2 in *; try change (32 / 8) with 4 in *.

(** The part of a field, or of the rest of a field, that the value at the bit [q] of a group begins in. *)
Definition group_pos (c p q : Z) : Z := p + q / c * (c / 8).

Lemma group_pos_bit c p q : c = 8 ∨ c = 16 ∨ c = 32 → 0 ≤ q → 8 * group_pos c p q + q `mod` c = 8 * p + q.
Proof. intros Hc Hq. unfold group_pos. field_cases Hc; dlia. Qed.

Lemma group_pos_next c p q delta : c = 8 ∨ c = 16 ∨ c = 32 → 0 ≤ q → 0 ≤ delta →
  group_pos c p q + (q `mod` c + delta) / c * (c / 8) = group_pos c p (q + delta).
Proof. intros Hc Hq Hd. unfold group_pos. field_cases Hc; dlia. Qed.

(** A value that does not end a group. *)
Lemma group_step c p q delta n : c = 8 ∨ c = 16 ∨ c = 32 → 0 ≤ p → 0 ≤ q → 0 < delta → q + delta ≤ n * c →
  0 ≤ group_pos c p q ∧ 0 ≤ field_end c (q `mod` c) delta / 8 ∧
  group_pos c p q + field_end c (q `mod` c) delta / 8 ≤ p + n * (c / 8) ∧
  delta ≤ field_end c (q `mod` c) delta - q `mod` c ≤ n * c - q ∧
  ((q + delta) `mod` c = 0 ∨ 8 * group_pos c p (q + delta) + c ≤ 8 * p + q + (field_end c (q `mod` c) delta - q `mod` c)).
Proof. intros Hc Hp Hq Hd Hn. unfold group_pos, field_end. field_cases Hc; split_and!; dlia. Qed.

Lemma Unroller_Pack_cons c delta i v v' vs buf out : Unroller_Pack c delta i (v :: v' :: vs) buf out =
  '(buf, out) ← pack_single_in c delta ((delta * i) `mod` c) (2 ^ delta - 1) v buf out; Unroller_Pack c delta (i + 1) (v' :: vs) buf out.
Proof. done. Qed.

Lemma Unroller_Pack64_cons delta i v v' vs buf out : Unroller_Pack64 delta i (v :: v' :: vs) buf out =
  '(buf, out) ← pack_single_in64 delta ((delta * i) `mod` 32) (2 ^ delta - 1) v buf out; Unroller_Pack64 delta (i + 1) (v' :: vs) buf out.
Proof. done. Qed.

Lemma Unroller_Pack_spec c delta p : c = 8 ∨ c = 16 ∨ c = 32 → 0 < delta < c → ∀ vs i buf, vs ≠ [] → 0 ≤ i → i + Z.of_nat (length vs) = c →
  Forall byte buf → in_buffer buf p (delta * (c / 8)) → let q := delta * i in
  (q `mod` c = 0 ∨ clear_from buf (8 * p + q) (8 * group_pos c p q + c)) →
  ∃ buf', Unroller_Pack c delta i vs buf (group_pos c p q) = Some buf' ∧ wrote buf (8 * p + q) delta vs buf'.
Proof.
  intros Hc Hd. induction vs as [|v vs IH]; intros i buf Hne Hi Hl Hb Hbuf q Hz; [done|].
  assert (0 ≤ q) as Hq by nia. assert (0 ≤ q `mod` c < c) as Hs by (apply Z.mod_pos_bound; lia).
  pose proof (group_pos_bit c p q Hc Hq) as Hk. destruct Hbuf as (Hp1 & Hp2 & Hp3).
  assert (q + delta + delta * Z.of_nat (length vs) = delta * c) as Hsum by (unfold q; cbn [length] in Hl; nia).
  destruct (group_step c p q delta delta Hc Hp1 Hq ltac:(lia) ltac:(nia)) as (G1 & G2 & G3 & G4 & G5).
  destruct vs as [|v' vs].
  - cbn [Unroller_Pack]. fold q. cbn [length] in Hsum. assert (q `mod` c = c - delta) as Es.
    { replace q with (- delta + delta * c) by lia. rewrite Z.mod_add by lia. symmetry. apply Z.mod_unique_pos with (-1); lia. }
    assert (in_buffer buf (group_pos c p q) (c / 8)) as Hi8 by (unfold group_pos in *; field_cases Hc; split_and!; dlia).
    destruct (load_spec (c / 8) buf (group_pos c p q) Hb Hi8) as (x & -> & Hxr & Hx). cbn [mbind option_bind].
    replace (8 * (c / 8)) with c in Hx by (clear - Hc; dlia). destruct Hz as [?|Hz]; [lia|]. rewrite <-Hk in Hz.
    destruct (store_extend c buf (group_pos c p q) (q `mod` c) (Z.lor x (Z.shiftl v (q `mod` c) `mod` 2 ^ c)) (Z.testbit v))
      as (buf' & -> & Hp); [done|done|lia|done|intros; apply extended_bit; (done || lia)|].
    exists buf'. split; [done|]. rewrite Es, <-Es, Hk in Hp. replace (c - q `mod` c) with delta in Hp by lia. apply wrote_patched; [lia|lia|done].
  - rewrite Unroller_Pack_cons. fold q.
    destruct (pack_single_in_spec c delta (q `mod` c) v buf (group_pos c p q) Hb Hc Hd Hs) as (buf1 & -> & Hpl);
      [destruct Hz as [?|Hz]; [by left|right; by rewrite Hk]|split_and!; [done|done|lia]|].
    cbn [mbind option_bind]. rewrite group_pos_next by (done || lia). rewrite Hk in Hpl.
    destruct (IH (i + 1) buf1) as (buf' & Hu & Hw); [done|lia|cbn [length] in *; lia|apply Hpl| | |].
    { destruct Hpl as [_ Hlen _]. split_and!; [done|done|by rewrite Hlen]. }
    { replace (delta * (i + 1)) with (q + delta) by (unfold q; lia). destruct G5 as [?|G5]; [by left|right].
      rewrite Z.add_assoc. eapply placed_clear; [exact Hpl|lia|lia|lia]. }
    exists buf'. replace (delta * (i + 1)) with (q + delta) in * by (unfold q; lia). split; [done|].
    eapply wrote_cons; [lia|lia|exact Hpl|cbn [length] in *; lia|]. by rewrite <-Z.add_assoc.
Qed.

(** The last of 32 values of 64 bits. *)
Lemma Unroller_Pack64_last delta p q v buf : 0 < delta < 64 → delta ≠ 32 → Forall byte buf → in_buffer buf p (delta * 4) → 0 ≤ q → q + delta = delta * 32 →
  (q `mod` 32 = 0 ∨ clear_from buf (8 * p + q) (8 * group_pos 32 p q + 32)) → let s := q `mod` 32 in let out := group_pos 32 p q in
  ∃ buf', (x ← load 4 buf out; buf ← store 4 buf out (u32 (Z.lor x (u64 (Z.shiftl v s))));
    if decide (delta > 32) then store 4 buf (out + 4) (u32 (Z.shiftr v (32 - s))) else Some buf) = Some buf' ∧ wrote buf (8 * p + q) delta [v] buf'.
Proof.
  intros Hd Hne Hb (Hi1 & Hi2 & Hi3) Hq Hsum Hz s out. assert (32 = 8 ∨ 32 = 16 ∨ 32 = 32) as Hc by lia.
  pose proof (group_pos_bit 32 p q Hc Hq) as Hk. fold out s in Hk.
  assert (s + delta = 32 ∨ s + delta = 64 ∧ delta > 32) as Hs by (unfold s; clear - Hsum Hd Hne Hq; dlia).
  assert (0 ≤ s < 32) as Hs2 by (unfold s; apply Z.mod_pos_bound; lia).
  assert (in_buffer buf out 4) as Hio by (unfold out, group_pos in *; split_and!; clear - Hi1 Hi2 Hi3 Hq Hd Hsum; change (32 / 8) with 4; dlia).
  destruct (load_spec 4 buf out Hb Hio) as (x & -> & Hxr & Hx). cbn [mbind option_bind]. destruct Hz as [?|Hz]; [lia|]. fold out in Hz. rewrite <-Hk in Hz.
  destruct (store_extend 32 buf out s (u32 (Z.lor x (u64 (Z.shiftl v s)))) (λ j, (j <? delta) && Z.testbit v j)) as (buf1 & Hs1 & Hp);
    [done|lia|lia|done| |].
  { intros j Hj. rewrite u32_lor_bit, (extended_bit 32 buf out) by (done || lia). case_decide; [|done]. destruct (Z.ltb_spec (j - s) delta); [done|lia]. }
  change (32 / 8) with 4 in Hs1. rewrite Hs1. cbn [mbind option_bind].
  assert (∀ buf', patched buf (8 * out + s) delta (λ j, (j <? delta) && Z.testbit v j) buf' → wrote buf (8 * p + q) delta [v] buf') as Hw.
  { intros buf' [B1 B2 B3]. rewrite Hk in B3. apply wrote_patched; [lia|lia|]. split; [done|done|]. intros m Hm. rewrite B3 by done.
    case_decide; [|done]. destruct (Z.ltb_spec (m - (8 * p + q)) delta); [done|lia]. }
  case_decide as Hgt.
  - destruct (store_next buf (8 * out + s) (32 - s) delta v buf1 (out + 4) (u32 (Z.shiftr v (32 - s)))) as (buf2 & Hs3 & Hp2); [lia|lia| |done| |].
    { unfold out, group_pos in *; split_and!; clear - Hi1 Hi2 Hi3 Hq Hd Hsum Hgt; change (32 / 8) with 4; dlia. }
    { intros j Hj. rewrite u32_bit, Z.shiftr_spec by lia. destruct (Z.ltb_spec (j + (32 - s)) delta); [done|lia]. }
    exists buf2. split; [done|]. apply Hw. by replace delta with (32 - s + 32) at 1 by lia.
  - exists buf1. split; [done|]. apply Hw. by replace delta with (32 - s) at 1 by lia.
Qed.

Lemma Unroller_Pack64_spec delta p : 0 < delta < 64 → delta ≠ 32 → ∀ vs i buf, vs ≠ [] → 0 ≤ i → i + Z.of_nat (length vs) = 32 →
  Forall byte buf → in_buffer buf p (delta * 4) → let q := delta * i in
  (q `mod` 32 = 0 ∨ clear_from buf (8 * p + q) (8 * group_pos 32 p q + 32)) →
  ∃ buf', Unroller_Pack64 delta i vs buf (group_pos 32 p q) = Some buf' ∧ wrote buf (8 * p + q) delta vs buf'.
Proof.
  intros Hd Hne32. assert (32 = 8 ∨ 32 = 16 ∨ 32 = 32) as Hc by lia. induction vs as [|v vs IH]; intros i buf Hne Hi Hl Hb Hbuf q Hz; [done|].
  assert (0 ≤ q) as Hq by nia. assert (0 ≤ q `mod` 32 < 32) as Hs by (apply Z.mod_pos_bound; lia).
  pose proof (group_pos_bit 32 p q Hc Hq) as Hk. destruct Hbuf as (Hp1 & Hp2 & Hp3).
  assert (q + delta + delta * Z.of_nat (length vs) = delta * 32) as Hsum by (unfold q; cbn [length] in Hl; nia).
  destruct (group_step 32 p q delta delta Hc Hp1 Hq ltac:(lia) ltac:(nia)) as (G1 & G2 & G3 & G4 & G5). change (32 / 8) with 4 in G3.
  destruct vs as [|v' vs].
  - cbn [Unroller_Pack64]. fold q. cbn [length] in Hsum. apply (Unroller_Pack64_last delta p q v buf); try done; try lia.
  - rewrite Unroller_Pack64_cons. fold q.
    destruct (pack_single_in64_spec delta (q `mod` 32) v buf (group_pos 32 p q) Hb Hd Hs) as (buf1 & -> & Hpl);
      [destruct Hz as [?|Hz]; [by left|right; by rewrite Hk]|split_and!; [done|done|lia]|].
    cbn [mbind option_bind]. change 4 with (32 / 8). rewrite group_pos_next by (done || lia). rewrite Hk in Hpl.
    destruct (IH (i + 1) buf1) as (buf' & Hu & Hw); [done|lia|cbn [length] in *; lia|apply Hpl| | |].
    { destruct Hpl as [_ Hlen _]. split_and!; [done|done|by rewrite Hlen]. }
    { replace (delta * (i + 1)) with (q + delta) by (unfold q; lia). destruct G5 as [?|G5]; [by left|right].
      rewrite Z.add_assoc. eapply placed_clear; [exact Hpl|lia|lia|lia]. }
    exists buf'. replace (delta * (i + 1)) with (q + delta) in * by (unfold q; lia). split; [done|].
    eapply wrote_cons; [lia|lia|exact Hpl|cbn [length] in *; lia|]. by rewrite <-Z.add_assoc.
Qed.

(** A loop that writes one value after the other. *)
Lemma ofold_wrote (step : list Z → nat → Z → option (list Z)) buf K w vs n : Forall byte buf → 0 ≤ K → 0 ≤ w → (n ≤ length vs)%nat →
  (∀ buf' k v, (k < n)%nat → vs !! k = Some v → Forall byte buf' → length buf' = length buf →
    ∃ buf'', step buf' k v = Some buf'' ∧ wrote buf' (K + Z.of_nat k * w) w [v] buf'') →
  ∃ buf', ofold (λ buf k, v ← vs !! k; step buf k v) buf (seq 0 n) = Some buf' ∧ wrote buf K w (take n vs) buf'.
Proof.
  intros Hb HK Hw Hn Hstep.
  destruct (ofold_total (λ buf k, v ← vs !! k; step buf k v) (λ dn b, wrote buf K w (take (length dn) vs) b) (seq 0 n) buf) as (buf' & H1 & H2).
  - by apply wrote_nil.
  - intros dn k rest b Hs Hw1. assert (k = length dn ∧ (length dn < n)%nat) as [-> Hk].
    { assert (seq 0 n !! length dn = Some k) as H by (rewrite Hs; by rewrite lookup_app_r, Nat.sub_diag by lia).
      apply lookup_seq in H. lia. }
    destruct (lookup_lt_is_Some_2 vs (length dn)) as [v Hv]; [lia|]. rewrite Hv. cbn [mbind option_bind].
    destruct (Hstep b (length dn) v Hk Hv) as (b' & -> & Hw2); [apply Hw1|apply Hw1|]. exists b'. split; [done|].
    rewrite length_app. cbn [length]. rewrite Nat.add_1_r, (take_S_r vs _ v Hv). eapply wrote_app; [done|done|done|].
    by rewrite length_take_le by lia.
  - exists buf'. split; [done|]. by rewrite length_seq in H2.
Qed.

Lemma wrote_zero buf k vs : Forall byte buf → wrote buf k 0 vs buf.
Proof. intros Hb. split; [done|done|lia|done]. Qed.

(** Writing a whole field. *)
Lemma store_wrote n buf p v y : Forall byte buf → in_buffer buf p n → (∀ j, 0 ≤ j < 8 * n → Z.testbit y j = Z.testbit v j) →
  ∃ buf', store n buf p y = Some buf' ∧ wrote buf (8 * p) (8 * n) [v] buf'.
Proof.
  intros Hb Hi Hy. destruct (store_spec n buf p y Hb Hi) as (buf' & -> & [B L P]). exists buf'. split; [done|].
  destruct Hi as (? & ? & _). apply wrote_patched; [lia|lia|]. split; [done|done|]. intros m Hm. rewrite P by done.
  case_decide; [|done]. apply Hy. lia.
Qed.

Lemma fastpack_group_spec c bit vs buf out : c = 8 ∨ c = 16 ∨ c = 32 → Z.of_nat (length vs) = c → 0 ≤ bit ≤ c → Forall byte buf →
  in_buffer buf out (bit * (c / 8)) → ∃ buf', fastpack_group c bit vs buf out = Some buf' ∧ wrote buf (8 * out) bit vs buf'.
Proof.
  intros Hc Hl Hbit Hb Hi. assert (8 * (c / 8) = c) as E by (clear - Hc; dlia). pose proof Hi as (Hi1 & Hi2 & Hi3).
  unfold fastpack_group. case_decide as H0; [subst; exists buf; split; [done|by apply wrote_zero]|]. case_decide as H1.
  - subst bit. destruct (ofold_wrote (λ buf k v, store (c / 8) buf (out + Z.of_nat k * (c / 8)) v) buf (8 * out) c vs (Z.to_nat c))
      as (buf' & Hf & Hw); [done|lia|lia|lia| |exists buf'; split; [done|by rewrite take_ge in Hw by lia]].
    intros buf' k v Hk Hv Hb' Hl'. destruct (store_wrote (c / 8) buf' (out + Z.of_nat k * (c / 8)) v v) as (b & Hs & Hw); [done|split_and!; nia|done|].
    exists b. split; [done|]. by replace (8 * out + Z.of_nat k * c) with (8 * (out + Z.of_nat k * (c / 8))) by nia; rewrite E in Hw.
  - rewrite decide_False, decide_True by lia.
    destruct (Unroller_Pack_spec c bit out Hc ltac:(lia) vs 0 buf) as (buf' & H2 & H3); [by destruct vs; cbn in *; [lia|]|done|lia|done|done| |].
    { left. by rewrite Z.mul_0_r. }
    exists buf'. rewrite Z.mul_0_r, Z.add_0_r in *. split; [|done]. rewrite <-H2. f_equal. unfold group_pos. rewrite Z.div_0_l by lia. lia.
Qed.

Lemma fastpack_small_spec c bit vs buf out : c = 8 ∨ c = 16 ∨ c = 32 → length vs = 32%nat → 0 ≤ bit ≤ c → Forall byte buf →
  in_buffer buf out (4 * bit) → ∃ buf', fastpack_small c vs buf out bit = Some buf' ∧ wrote buf (8 * out) bit vs buf'.
Proof.
  intros Hc Hl Hbit Hb (Hi1 & Hi2 & Hi3). unfold fastpack_small. assert (8 * (c / 8) = c ∧ c * (32 / c) = 32) as [E E2] by (field_cases Hc; done).
  set (step := λ buf i, fastpack_group _ _ _ _ _).
  destruct (ofold_total step (λ dn b, wrote buf (8 * out) bit (take (length dn * Z.to_nat c) vs) b) (seq 0 (Z.to_nat (32 / c))) buf) as (buf' & H1 & H2).
  - by apply wrote_nil.
  - intros dn i rest b Hs Hw1. assert (i = length dn ∧ (length dn < Z.to_nat (32 / c))%nat) as [-> Hk].
    { assert (seq 0 (Z.to_nat (32 / c)) !! length dn = Some i) as H by (rewrite Hs; by rewrite lookup_app_r, Nat.sub_diag by lia).
      apply lookup_seq in H. lia. }
    set (i := length dn) in *. assert (i * Z.to_nat c + Z.to_nat c ≤ 32)%nat as Hle by nia.
    destruct (fastpack_group_spec c bit (take (Z.to_nat c) (drop (i * Z.to_nat c) vs)) b (out + Z.of_nat i * bit * (c / 8))) as (b' & Hg & Hw2).
    { done. } { rewrite length_take, length_drop. lia. } { done. } { apply Hw1. }
    { destruct Hw1 as [_ Hlen _ _]. split_and!; [nia|nia|rewrite Hlen]. assert (Z.of_nat i * (c / 8) + c / 8 ≤ 4) by nia. nia. }
    exists b'. split; [done|]. rewrite length_app, Nat.mul_add_distr_r. cbn [length]. rewrite Nat.mul_1_l. fold i.
    rewrite <-(take_take_drop vs (i * Z.to_nat c) (Z.to_nat c)). eapply wrote_app; [lia|lia|done|]. rewrite length_take_le by lia.
    by replace (8 * out + Z.of_nat (i * Z.to_nat c) * bit) with (8 * (out + Z.of_nat i * bit * (c / 8))) by nia.
  - exists buf'. split; [done|]. rewrite length_seq, take_ge in H2 by nia. done.
Qed.

Lemma fastpack64_spec bit vs buf out : length vs = 32%nat → 0 ≤ bit ≤ 64 → Forall byte buf → in_buffer buf out (4 * bit) →
  ∃ buf', fastpack64 vs buf out bit = Some buf' ∧ wrote buf (8 * out) bit vs buf'.
Proof.
  intros Hl Hbit Hb Hi. pose proof Hi as (Hi1 & Hi2 & Hi3). unfold fastpack64.
  case_decide as H0; [subst; exists buf; split; [done|by apply wrote_zero]|]. case_decide as H1; [subst bit|case_decide as H2; [subst bit|]].
  - destruct (ofold_wrote (λ buf k v, store 4 buf (out + 4 * Z.of_nat k) (u32 v)) buf (8 * out) 32 vs 32)
      as (buf' & Hf & Hw); [done|lia|lia|lia| |exists buf'; split; [done|by rewrite take_ge in Hw by lia]].
    intros buf' k v Hk Hv Hb' Hl'. destruct (store_wrote 4 buf' (out + 4 * Z.of_nat k) v (u32 v)) as (b & Hs & Hw);
      [done|split_and!; lia|intros; apply u32_bit; lia|].
    exists b. split; [done|]. by replace (8 * out + Z.of_nat k * 32) with (8 * (out + 4 * Z.of_nat k)) by lia.
  - destruct (ofold_wrote (λ buf k v, buf ← store 4 buf (out + 8 * Z.of_nat k) (u32 v); store 4 buf (out + 8 * Z.of_nat k + 4) (Z.shiftr v 32))
      buf (8 * out) 64 vs 32) as (buf' & Hf & Hw); [done|lia|lia|lia| |exists buf'; split; [done|by rewrite take_ge in Hw by lia]].
    intros buf' k v Hk Hv Hb' Hl'. set (p := out + 8 * Z.of_nat k).
    destruct (store_spec 4 buf' p (u32 v) Hb') as (b1 & -> & Hp1); [unfold p; split_and!; lia|]. cbn [mbind option_bind].
    destruct (store_spec 4 b1 (p + 4) (Z.shiftr v 32)) as (b2 & -> & Hp2); [apply Hp1|destruct Hp1 as [_ Hlen _]; unfold p; split_and!; lia|].
    exists b2. split; [done|]. replace (8 * out + Z.of_nat k * 64) with (8 * p) by (unfold p; lia). apply wrote_patched; [unfold p; lia|lia|].
    destruct Hp1 as [_ L1 P1], Hp2 as [B2 L2 P2]. split; [done|congruence|]. intros m Hm. rewrite P2, P1 by done.
    destruct (decide (8 * (p + 4) ≤ m < 8 * (p + 4) + 8 * 4)).
    + rewrite decide_True, Z.shiftr_spec by lia. f_equal. lia.
    + destruct (decide (8 * p ≤ m < 8 * p + 8 * 4)); [rewrite decide_True, u32_bit by lia; done|by rewrite decide_False by lia].
  - rewrite decide_False, decide_True by lia.
    destruct (Unroller_Pack64_spec bit out ltac:(lia) H1 vs 0 buf) as (buf' & H3 & H4); [by destruct vs|done|lia|done| | |].
    { by rewrite Z.mul_comm. } { left. by rewrite Z.mul_0_r. }
    exists buf'. rewrite Z.mul_0_r, Z.add_0_r in *. split; [|done]. rewrite <-H3. f_equal. unfold group_pos. rewrite Z.div_0_l by lia. lia.
Qed.

(** ** Chunks of 128-bit integers *)

Lemma wide_part v k j : wrange wide v → 0 ≤ k < 4 → 0 ≤ j < 32 → Z.testbit (wnarrow wide 32 (wshr wide v (32 * k))) j = Z.testbit v (j + 32 * k).
Proof.
  intros Hv Hk Hj. rewrite wl_shr by (done || cbn; lia). change 32 with (cbits wide) at 1. rewrite wl_narrow.
  - change (cbits wide) with 32. rewrite mod_bit, Z.shiftr_spec by lia. destruct (Z.ltb_spec j 32); [done|lia].
  - unfold wrange in *. cbn [wide wbits] in *. rewrite decide_True in * by done. rewrite Z.shiftr_div_pow2 by lia.
    assert (1 ≤ 2 ^ (32 * k)) by lia. split; [apply Z.div_le_lower_bound; nia|apply Z.div_lt_upper_bound; nia].
Qed.

Lemma packDelta_value (n : nat) v buf p : wrange wide v → (n ≤ 4)%nat → Forall byte buf → in_buffer buf p (4 * Z.of_nat n) →
  ∃ buf', ofold (λ buf k, store 4 buf (p + 4 * Z.of_nat k) (wnarrow wide 32 (wshr wide v (32 * Z.of_nat k)))) buf (seq 0 n) = Some buf' ∧
    wrote buf (8 * p) (32 * Z.of_nat n) [v] buf'.
Proof.
  intros Hv Hn Hb (Hi1 & Hi2 & Hi3). set (step := λ buf k, store 4 buf _ _).
  destruct (ofold_total step (λ dn b, patched buf (8 * p) (32 * Z.of_nat (length dn)) (Z.testbit v) b) (seq 0 n) buf) as (buf' & H1 & H2).
  - split; [done|done|]. intros m Hm. cbn. by rewrite decide_False by lia.
  - intros dn k rest b Hs Hp. assert (k = length dn ∧ (length dn < n)%nat) as [-> Hk].
    { assert (seq 0 n !! length dn = Some k) as H by (rewrite Hs; by rewrite lookup_app_r, Nat.sub_diag by lia).
      apply lookup_seq in H. lia. }
    set (i := length dn) in *.
    destruct (store_extend 32 b (p + 4 * Z.of_nat i) 0 (wnarrow wide 32 (wshr wide v (32 * Z.of_nat i))) (λ j, Z.testbit v (j + 32 * Z.of_nat i)))
      as (b' & Hst & Hp2); [apply Hp|lia|lia|destruct Hp as [_ Hl _]; change (32 / 8) with 4; split_and!; lia| |].
    { intros j Hj. rewrite decide_True, Z.sub_0_r, wide_part by (done || lia). done. }
    exists b'. split; [done|]. rewrite length_app. cbn [length]. fold i. replace (32 * Z.of_nat (i + 1)) with (32 * Z.of_nat i + 32) by lia.
    eapply patched_app; [lia|lia|done|]. by replace (8 * p + 32 * Z.of_nat i) with (8 * (p + 4 * Z.of_nat i) + 0) by lia.
  - exists buf'. split; [done|]. rewrite length_seq in H2. by apply wrote_patched; [lia|lia|].
Qed.

Lemma packDelta_spec (n : nat) vs buf out : Forall (wrange wide) vs → length vs = 32%nat → (n ≤ 4)%nat → Forall byte buf →
  in_buffer buf out (128 * Z.of_nat n) → ∃ buf', packDelta n vs buf out = Some buf' ∧ wrote buf (8 * out) (32 * Z.of_nat n) vs buf'.
Proof.
  intros Hv Hl Hn Hb (Hi1 & Hi2 & Hi3).
  destruct (ofold_wrote (λ buf i v, ofold (λ buf k, store 4 buf (out + 4 * (Z.of_nat n * Z.of_nat i + Z.of_nat k))
      (wnarrow wide 32 (wshr wide v (32 * Z.of_nat k)))) buf (seq 0 n)) buf (8 * out) (32 * Z.of_nat n) vs 32) as (buf' & Hf & Hw);
    [done|lia|lia|lia| |exists buf'; split; [done|by rewrite take_ge in Hw by lia]].
  intros buf' i v Hi Hvi Hb' Hl'. rewrite Forall_forall in Hv.
  destruct (packDelta_value n v buf' (out + 4 * (Z.of_nat n * Z.of_nat i))) as (b & Ho & Hw);
    [by eapply Hv, list_elem_of_lookup_2|done|done|split_and!; nia|].
  exists b. split.
  - rewrite <-Ho. clear. generalize buf'. induction (seq 0 n) as [|k l IH]; intros b0; [done|]. cbn [ofold].
    replace (out + 4 * (Z.of_nat n * Z.of_nat i) + 4 * Z.of_nat k) with (out + 4 * (Z.of_nat n * Z.of_nat i + Z.of_nat k)) by lia.
    destruct (store _ _ _ _) as [b1|]; [apply IH|done].
  - by replace (8 * out + Z.of_nat i * (32 * Z.of_nat n)) with (8 * (out + 4 * (Z.of_nat n * Z.of_nat i))) by lia.
Qed.

(** The fields of a chunk hold each of its values. *)
Lemma chunk_fields o `{!WordLaws o} buf p w i : (i < 32) → 0 ≤ i → 0 < w ≤ wbits o → in_buffer buf p (4 * w) →
  in_buffer buf p (fields o (i * w + Z.max 1 w)).
Proof.
  intros Hi Hi0 Hw (H1 & H2 & H3). unfold fields. assert (0 ≤ i * w + w ≤ 32 * w) by nia.
  replace (i * w + Z.max 1 w) with (i * w + w) by lia. set (q := i * w + w) in *.
  destruct (cbits_cases o) as [(-> & -> & _)|(-> & -> & _)]; split_and!; dlia.
Qed.

Lemma Int128Packer_pack_spec bit vs buf out : Forall (wrange wide) vs → length vs = 32%nat → 0 ≤ bit ≤ 128 → Forall byte buf →
  in_buffer buf out (4 * bit) → ∃ buf', Int128Packer_pack vs buf out bit = Some buf' ∧ wrote buf (8 * out) bit vs buf'.
Proof.
  intros Hv Hl Hbit Hb Hi. unfold Int128Packer_pack. rewrite decide_True by lia.
  case_decide as H0; [subst; exists buf; split; [done|by apply wrote_zero]|].
  repeat (case_decide; [subst; by apply packDelta_spec; (done || lia)|]).
  destruct (ofold_wrote (λ buf i v, packSingle wide v buf out bit (Z.of_nat i)) buf (8 * out) bit vs 32) as (buf' & Hf & Hw);
    [done|destruct Hi; lia|lia|lia| |exists buf'; split; [done|by rewrite take_ge in Hw by lia]].
  intros buf' i v Hi' Hvi Hb' Hl'. rewrite Forall_forall in Hv. apply packSingle_spec; [apply _|done|by eapply Hv, list_elem_of_lookup_2|change (wmax wide) with 127; lia|lia|].
  apply chunk_fields; [apply _|lia|lia|cbn; lia|]. destruct Hi as (? & ? & ?). split_and!; lia.
Qed.

(** Packing a chunk writes its values one behind the other, whatever their type. *)
Lemma fastpack_spec o `{!WordLaws o} bit vs buf out : Forall (wrange o) vs → length vs = 32%nat → 0 ≤ bit ≤ wbits o → Forall byte buf →
  in_buffer buf out (4 * bit) → ∃ buf', fastpack o vs buf out bit = Some buf' ∧ wrote buf (8 * out) bit vs buf'.
Proof.
  intros Hv Hl Hbit Hb Hi. unfold fastpack. case_decide as H128; [|case_decide as H64].
  - apply Int128Packer_pack_spec; [|done|lia|done|done]. eapply Forall_impl; [done|]. intros a. unfold wrange. cbn [wide wbits].
    rewrite H128. done.
  - apply fastpack64_spec; (done || lia).
  - apply fastpack_small_spec; [|done|lia|done|done]. destruct wl_bits as [|[|[|[|]]]]; lia.
Qed.

(** ** Unpacking chunks *)

(** The [n] values of [w] bits from the bit [k] on. *)
Definition unpacked (buf : list Z) (k w : Z) (n : nat) : list Z := (λ i, bits_at buf (k + Z.of_nat i * w) w) <$> seq 0 n.

Lemma unpacked_S buf k w n : unpacked buf k w (S n) = bits_at buf k w :: unpacked buf (k + w) w n.
Proof.
  unfold unpacked. cbn [seq fmap list_fmap]. f_equal; [f_equal; lia|]. rewrite <-fmap_S_seq, <-list_fmap_compose.
  apply list_fmap_ext. intros i j _. cbn. f_equal. lia.
Qed.

Lemma unpacked_app buf k w n m : unpacked buf k w (n + m) = unpacked buf k w n ++ unpacked buf (k + Z.of_nat n * w) w m.
Proof.
  revert k. induction n as [|n IH]; intros k.
  { rewrite Nat.add_0_l. replace (k + Z.of_nat 0 * w) with k by lia. done. }
  cbn [Nat.add]. rewrite !unpacked_S, IH. cbn [app]. do 3 f_equal. lia.
Qed.

Lemma unpacked_length buf k w n : length (unpacked buf k w n) = n.
Proof. unfold unpacked. by rewrite length_fmap, length_seq. Qed.

Lemma mapM_total {A B} (f : A → option B) (g : A → B) l : (∀ i a, l !! i = Some a → f a = Some (g a)) → mapM f l = Some (g <$> l).
Proof.
  intros H. apply mapM_Some_2, Forall2_fmap_r, Forall_Forall2_diag, Forall_lookup. intros i a Hi. by eapply H.
Qed.

Lemma mapM_unpacked (f : nat → option Z) buf k w n : (∀ i, (i < n)%nat → f i = Some (bits_at buf (k + Z.of_nat i * w) w)) →
  mapM f (seq 0 n) = Some (unpacked buf k w n).
Proof.
  intros H. unfold unpacked. apply (mapM_total f (λ i, bits_at buf (k + Z.of_nat i * w) w)). intros i a Hi.
  apply lookup_seq in Hi as [-> Hi]. apply H. lia.
Qed.

Lemma unpack_single_out_spec c delta s buf src : Forall byte buf → c = 8 ∨ c = 16 ∨ c = 32 → 0 < delta < c → 0 ≤ s < c →
  in_buffer buf src (((s + delta) / c + 1) * (c / 8)) →
  unpack_single_out c delta s buf src = Some (bits_at buf (8 * src + s) delta, src + (s + delta) / c * (c / 8)).
Proof.
  intros Hb Hc Hd Hs (Hi1 & Hi2 & Hi3). assert (8 * (c / 8) = c) as E by (clear - Hc; dlia).
  assert (0 ≤ (s + delta) / c) by (apply Z.div_pos; lia).
  destruct (load_spec (c / 8) buf src Hb ltac:(split_and!; nia)) as (x & Hx & _ & Hxb). rewrite E in Hxb.
  unfold unpack_single_out. rewrite Hx. cbn [mbind option_bind]. case_decide as Hlt.
  - assert ((s + delta) / c = 0) as -> by (apply Z.div_small; lia). rewrite Z.mul_0_l, Z.add_0_r. do 2 f_equal.
    apply bits_at_unique; [lia|lia|]. intros j Hj. rewrite mod_bit, Z.shiftr_spec, Hxb by lia. destruct (Z.ltb_spec j delta); [|done]. cbn [andb].
    destruct (Z.ltb_spec (j + s) c); [|lia]. cbn [andb]. f_equal. lia.
  - assert ((s + delta) / c = 1) as E1 by (symmetry; apply Z.div_unique_pos with (s + delta - c); lia). rewrite E1, Z.mul_1_l in *.
    destruct (load_spec (c / 8) buf (src + c / 8) Hb ltac:(split_and!; nia)) as (y & -> & _ & Hyb). rewrite E in Hyb. cbn [mbind option_bind].
    do 2 f_equal. apply bits_at_unique; [lia|lia|]. intros j Hj. rewrite Z.lor_spec, Z.shiftr_spec, Z.shiftl_spec, Hxb by lia.
    destruct (Z.ltb_spec (j + s) c); cbn [andb orb].
    + rewrite (Z.testbit_neg_r (_ `mod` _)), orb_false_r by lia. destruct (Z.ltb_spec j delta); [|lia]. cbn [andb]. f_equal. lia.
    + rewrite mod_bit, Hyb by lia. destruct (Z.ltb_spec j delta), (Z.ltb_spec (j - (c - s)) (s + delta - c)); try lia; cbn [andb].
      destruct (Z.ltb_spec (j - (c - s)) c); [|lia]. cbn [andb]. f_equal. lia.
Qed.

Lemma u64_bit a j : 0 ≤ j < 64 → Z.testbit (u64 a) j = Z.testbit a j.
Proof. intros Hj. unfold u64. rewrite mod_bit by lia. destruct (Z.ltb_spec j 64); [done|lia]. Qed.

(** The bits of a value of at most 64 bits that is put together from fields of 32 bits. *)
Lemma field_bits buf p t n y j : 0 ≤ j → 0 ≤ t < 64 → (∀ j, 0 ≤ j → Z.testbit y j = (j <? n) && bit_at buf (8 * p + j)) → n ≤ 64 - t → 
  Z.testbit (u64 (Z.shiftl y t)) j = (t <=? j) && (j <? n + t) && bit_at buf (8 * p - t + j).
Proof.
  intros Hj Ht Hy Hn. unfold u64. rewrite mod_bit, Z.shiftl_spec by lia. destruct (Z.leb_spec t j); cbn [andb].
  - rewrite Hy by lia. rewrite andb_assoc. f_equal; [|f_equal; lia].
    destruct (Z.ltb_spec j 64), (Z.ltb_spec (j - t) n), (Z.ltb_spec j (n + t)); (done || lia).
  - rewrite Z.testbit_neg_r by lia. apply andb_false_r.
Qed.

Lemma mod_field buf p n t y : 0 ≤ t ≤ n → (∀ j, 0 ≤ j → Z.testbit y j = (j <? n) && bit_at buf (8 * p + j)) →
  ∀ j, 0 ≤ j → Z.testbit (y `mod` 2 ^ t) j = (j <? t) && bit_at buf (8 * p + j).
Proof. intros Ht Hy j Hj. rewrite mod_bit, Hy by lia. destruct (Z.ltb_spec j t), (Z.ltb_spec j n); (done || lia). Qed.

(** Settles an equation of bits by the positions of their comparisons. *)
Ltac by_bits :=
  repeat match goal with |- context [(?a <? ?b)] => destruct (Z.ltb_spec a b) | |- context [(?a <=? ?b)] => destruct (Z.leb_spec a b) end;
  try lia; cbn [andb orb]; rewrite ?orb_false_r, ?orb_true_r; try done; try (f_equal; lia).

Lemma unpack_single_out64_spec delta s buf src : Forall byte buf → 0 < delta < 64 → 0 ≤ s < 32 →
  in_buffer buf src (field_end 32 s delta / 8) →
  unpack_single_out64 delta s buf src = Some (bits_at buf (8 * src + s) delta, src + (s + delta) / 32 * 4).
Proof.
  intros Hb Hd Hs (Hi1 & Hi2 & Hi3). unfold field_end in *.
  assert (∀ p, 8 * p < 8 * src + (s + delta + 32 - 1) / 32 * 32 → (p = src ∨ p = src + 4 ∨ p = src + 8) → in_buffer buf p 4) as Hi
    by (intros p Hp Hq; split_and!; [lia|lia|clear - Hi1 Hi2 Hi3 Hp Hq; dlia]).
  destruct (load_spec 4 buf src Hb (Hi src ltac:(dlia) ltac:(auto))) as (x & Hx & _ & Hxb). change (8 * 4) with 32 in Hxb.
  unfold unpack_single_out64. rewrite Hx. cbn [mbind option_bind]. case_decide as H32; [|case_decide as H64].
  - assert ((s + delta) / 32 = 0) as -> by (apply Z.div_small; lia). rewrite Z.mul_0_l, Z.add_0_r. do 2 f_equal.
    apply bits_at_unique; [lia|lia|]. intros j Hj. rewrite mod_bit, Z.shiftr_spec, Hxb by lia. rewrite Z.add_comm, <-(Z.add_assoc _ s j), (Z.add_comm s j).
    by_bits.
  - assert ((s + delta) / 32 = 1) as -> by (symmetry; apply Z.div_unique_pos with (s + delta - 32); lia). rewrite Z.mul_1_l. case_decide as Hgt.
    + destruct (load_spec 4 buf (src + 4) Hb (Hi (src + 4) ltac:(dlia) ltac:(auto))) as (y & -> & _ & Hyb). cbn [mbind option_bind]. do 2 f_equal.
      apply bits_at_unique; [lia|lia|]. intros j Hj. rewrite Z.lor_spec, Z.shiftr_spec, Hxb by lia.
      rewrite (field_bits buf (src + 4) (32 - s) (s + delta - 32)) by (lia || (apply (mod_field buf (src + 4) 32); [lia|done])).
      replace (8 * src + (j + s)) with (8 * src + s + j) by lia. replace (8 * (src + 4) - (32 - s) + j) with (8 * src + s + j) by lia. by_bits.
    + do 2 f_equal. apply bits_at_unique; [lia|lia|]. intros j Hj. rewrite Z.shiftr_spec, Hxb by lia.
      replace (8 * src + (j + s)) with (8 * src + s + j) by lia. by_bits.
  - destruct (load_spec 4 buf (src + 4) Hb (Hi (src + 4) ltac:(dlia) ltac:(auto))) as (y & -> & _ & Hyb). cbn [mbind option_bind].
    assert ((s + delta) / 32 = 2) as -> by (symmetry; apply Z.div_unique_pos with (s + delta - 64); lia).
    assert (∀ j, 0 ≤ j → Z.testbit (Z.lor (Z.shiftr x s) (u64 (Z.shiftl y (32 - s)))) j = (j <? 64 - s) && bit_at buf (8 * src + s + j)) as Hxy.
    { intros j Hj. rewrite Z.lor_spec, Z.shiftr_spec, Hxb, (field_bits buf (src + 4) (32 - s) 32) by (done || lia).
      replace (8 * src + (j + s)) with (8 * src + s + j) by lia. replace (8 * (src + 4) - (32 - s) + j) with (8 * src + s + j) by lia. by_bits. }
    case_decide as Hgt.
    + replace (src + 4 + 4) with (src + 8) by lia.
      destruct (load_spec 4 buf (src + 8) Hb (Hi (src + 8) ltac:(dlia) ltac:(auto))) as (z & -> & _ & Hzb). cbn [mbind option_bind]. do 2 f_equal.
      apply bits_at_unique; [lia|lia|]. intros j Hj. rewrite Z.lor_spec, Hxy by lia.
      rewrite (field_bits buf (src + 8) (64 - s) (delta + s - 64)) by (lia || (apply (mod_field buf (src + 8) 32); [lia|done])).
      replace (8 * (src + 8) - (64 - s) + j) with (8 * src + s + j) by lia. by_bits.
    + f_equal. f_equal; [|lia]. apply bits_at_unique; [lia|lia|]. intros j Hj. rewrite Hxy by lia. by_bits.
Qed.

Lemma Unroller_Unpack_S c delta n i buf src : Unroller_Unpack c delta (S (S n)) i buf src =
  '(v, src) ← unpack_single_out c delta ((delta * i) `mod` c) buf src; vs ← Unroller_Unpack c delta (S n) (i + 1) buf src; Some (v :: vs).
Proof. done. Qed.

Lemma Unroller_Unpack64_S delta n i buf src : Unroller_Unpack64 delta (S (S n)) i buf src =
  '(v, src) ← unpack_single_out64 delta ((delta * i) `mod` 32) buf src; vs ← Unroller_Unpack64 delta (S n) (i + 1) buf src; Some (v :: vs).
Proof. done. Qed.

Lemma Unroller_Unpack_spec c delta p buf : c = 8 ∨ c = 16 ∨ c = 32 → 0 < delta < c → Forall byte buf → in_buffer buf p (delta * (c / 8)) →
  ∀ n i, 0 ≤ i → i + Z.of_nat (S n) = c → let q := delta * i in
  Unroller_Unpack c delta (S n) i buf (group_pos c p q) = Some (unpacked buf (8 * p + q) delta (S n)).
Proof.
  intros Hc Hd Hb (Hp1 & Hp2 & Hp3). induction n as [|n IH]; intros i Hi Hl q.
  all: assert (0 ≤ q) as Hq by nia; assert (0 ≤ q `mod` c < c) as Hs by (apply Z.mod_pos_bound; lia).
  all: pose proof (group_pos_bit c p q Hc Hq) as Hk; rewrite unpacked_S.
  all: destruct (group_step c p q delta delta Hc Hp1 Hq ltac:(lia) ltac:(unfold q; nia)) as (G1 & G2 & G3 & G4 & G5).
  - cbn [Unroller_Unpack]. fold q. assert (8 * (c / 8) = c) as E by (clear - Hc; dlia). assert (q `mod` c = c - delta) as Es.
    { replace q with (- delta + delta * c) by (unfold q; nia). rewrite Z.mod_add by lia. symmetry. apply Z.mod_unique_pos with (-1); lia. }
    destruct (load_spec (c / 8) buf (group_pos c p q) Hb) as (x & -> & _ & Hxb).
    { unfold field_end in *. rewrite Es in *. replace (c - delta + delta + c - 1) with (c - 1 + 1 * c) in * by lia.
      rewrite Z.div_add, Z.div_small in * by lia. split_and!; [done|lia|]. replace ((0 + 1) * c / 8) with (c / 8) in G3 by (f_equal; lia). lia. }
    cbn [mbind option_bind]. do 2 f_equal. apply bits_at_unique; [lia|lia|]. intros j Hj. rewrite Z.shiftr_spec, Hxb, E by lia.
    replace (8 * group_pos c p q + (j + q `mod` c)) with (8 * p + q + j) by lia. f_equal. apply ltb_iff. lia.
  - rewrite Unroller_Unpack_S. fold q. rewrite unpack_single_out_spec; [|done|done|done|done|].
    + cbn [mbind option_bind]. rewrite group_pos_next by (done || lia). replace (q + delta) with (delta * (i + 1)) by (unfold q; lia).
      rewrite IH by lia. cbn [mbind option_bind]. by rewrite Hk, <-Z.add_assoc, (Z.mul_add_distr_l delta i 1), Z.mul_1_r.
    + assert (q + delta + delta ≤ delta * c) as Hn by (unfold q; nia). clear - Hn Hc Hq Hd Hp1 Hp2 Hp3.
      unfold group_pos. field_cases Hc; split_and!; dlia.
Qed.

Lemma Unroller_Unpack64_spec delta p buf : 0 < delta < 64 → delta ≠ 32 → Forall byte buf → in_buffer buf p (delta * 4) →
  ∀ n i, 0 ≤ i → i + Z.of_nat (S n) = 32 → let q := delta * i in
  Unroller_Unpack64 delta (S n) i buf (group_pos 32 p q) = Some (unpacked buf (8 * p + q) delta (S n)).
Proof.
  intros Hd Hne Hb (Hp1 & Hp2 & Hp3). assert (32 = 8 ∨ 32 = 16 ∨ 32 = 32) as Hc by lia. induction n as [|n IH]; intros i Hi Hl q.
  all: assert (0 ≤ q) as Hq by nia; assert (0 ≤ q `mod` 32 < 32) as Hs by (apply Z.mod_pos_bound; lia).
  all: pose proof (group_pos_bit 32 p q Hc Hq) as Hk; rewrite unpacked_S.
  all: destruct (group_step 32 p q delta delta Hc Hp1 Hq ltac:(lia) ltac:(unfold q; nia)) as (G1 & G2 & G3 & G4 & G5); change (32 / 8) with 4 in G3.
  - cbn [Unroller_Unpack64]. fold q. assert (q + delta = delta * 32) as Hsum by (unfold q; nia). set (s := q `mod` 32) in *. set (out := group_pos 32 p q) in *.
    assert (s + delta = 32 ∨ s + delta = 64 ∧ delta > 32) as Hsd by (unfold s; clear - Hsum Hd Hne Hq; dlia).
    assert (field_end 32 s delta = s + delta) as Ee by (unfold field_end; clear - Hsd Hs; dlia). rewrite Ee in *.
    assert (out + (s + delta) / 8 = p + delta * 4) as Ho by (unfold out, s, group_pos in *; change (32 / 8) with 4; clear - Hsd Hsum; dlia).
    destruct (load_spec 4 buf out Hb) as (x & -> & _ & Hxb); [split_and!; [done|lia|clear - Hsd Ho Hp3; dlia]|]. cbn [mbind option_bind]. case_decide as Hgt.
    + destruct (load_spec 4 buf (out + 4) Hb) as (y & -> & _ & Hyb); [split_and!; [lia|lia|clear - Hgt Hsd Ho Hp3 Hs; dlia]|].
      cbn [mbind option_bind]. do 2 f_equal. apply bits_at_unique; [lia|lia|]. intros j Hj.
      rewrite Z.lor_spec, Z.shiftr_spec, Hxb, (field_bits buf (out + 4) (32 - s) 32) by (done || lia).
      replace (8 * out + (j + s)) with (8 * p + q + j) by lia. replace (8 * (out + 4) - (32 - s) + j) with (8 * p + q + j) by lia. by_bits.
    + do 2 f_equal. apply bits_at_unique; [lia|lia|]. intros j Hj. rewrite Z.shiftr_spec, Hxb by lia.
      replace (8 * out + (j + s)) with (8 * p + q + j) by lia. by_bits.
  - rewrite Unroller_Unpack64_S. fold q. rewrite unpack_single_out64_spec; [|done|done|done|split_and!; lia].
    cbn [mbind option_bind]. change 4 with (32 / 8). rewrite group_pos_next by (done || lia). replace (q + delta) with (delta * (i + 1)) by (unfold q; lia).
    rewrite IH by lia. cbn [mbind option_bind]. by rewrite Hk, <-Z.add_assoc, (Z.mul_add_distr_l delta i 1), Z.mul_1_r.
Qed.

Lemma mjoin_unpacked buf k w (n m : nat) : mjoin ((λ i, unpacked buf (k + Z.of_nat i * (Z.of_nat m * w)) w m) <$> seq 0 n) = unpacked buf k w (n * m).
Proof.
  revert k. induction n as [|n IH]; intros k; [done|]. cbn [seq fmap list_fmap mjoin list_join]. rewrite <-fmap_S_seq, <-list_fmap_compose.
  cbn [Nat.mul]. rewrite unpacked_app, <-IH. f_equal; [f_equal; lia|]. f_equal. apply list_fmap_ext. intros i j _. cbn. f_equal. lia.
Qed.

Lemma unpack_words_spec c bit buf src : c = 8 ∨ c = 16 ∨ c = 32 → (bit = 4 ∨ bit = 8 ∨ bit = 16) → bit < c → Forall byte buf →
  in_buffer buf src (bit * (c / 8)) → unpack_words c bit buf src = Some (unpacked buf (8 * src) bit (Z.to_nat c)).
Proof.
  intros Hc Hbit Hlt Hb (Hi1 & Hi2 & Hi3). assert (8 * (c / 8) = c) as E by (clear - Hc; dlia). unfold unpack_words.
  set (m := Z.to_nat (c / bit)). assert (Z.of_nat m * bit = c) as Em
    by (unfold m; clear - Hc Hbit Hlt; destruct Hc as [->|[->| ->]], Hbit as [->|[->| ->]]; try lia; reflexivity).
  rewrite (mapM_total _ (λ i, unpacked buf (8 * src + Z.of_nat i * (Z.of_nat m * bit)) bit m)).
  - cbn [fmap option_fmap option_map]. rewrite mjoin_unpacked. do 2 f_equal. lia.
  - intros i a Ha. apply lookup_seq in Ha as [-> Ha]. cbn [Nat.add].
    destruct (load_spec (c / 8) buf (src + Z.of_nat i * (c / 8)) Hb) as (x & -> & _ & Hx); [split_and!; nia|]. cbn [mbind option_bind]. f_equal.
    unfold unpacked. apply list_fmap_ext. intros k j Hj%lookup_seq. apply bits_at_unique; [nia|lia|]. intros l Hl.
    rewrite mod_bit, Z.shiftr_spec, Hx, E by nia. destruct (Z.ltb_spec l bit); [|done]. cbn [andb].
    destruct (Z.ltb_spec (l + Z.of_nat j * bit) c); [|nia]. cbn [andb]. f_equal. nia.
Qed.

Lemma load_bits_at n buf p : Forall byte buf → in_buffer buf p n → load n buf p = Some (bits_at buf (8 * p) (8 * n)).
Proof.
  intros Hb Hi. destruct (load_spec n buf p Hb Hi) as (x & -> & _ & Hx). destruct Hi as (? & ? & ?). f_equal. apply bits_at_unique; [lia|lia|done].
Qed.

Lemma unpacked_zero buf k n : unpacked buf k 0 n = replicate n 0.
Proof. revert k. induction n as [|n IH]; intros k; [done|]. rewrite unpacked_S, IH. cbn. f_equal. unfold bits_at. apply Z.mod_1_r. Qed.

Lemma fastunpack_group_spec c bit out buf src : c = 8 ∨ c = 16 ∨ c = 32 → 0 ≤ bit ≤ c → Forall byte buf → in_buffer buf src (bit * (c / 8)) →
  fastunpack_group c bit out buf src = Some (unpacked buf (8 * src) bit (Z.to_nat c)).
Proof.
  intros Hc Hbit Hb Hi. assert (8 * (c / 8) = c) as E by (clear - Hc; dlia). pose proof Hi as (Hi1 & Hi2 & Hi3). unfold fastunpack_group.
  case_decide; [subst; by rewrite unpacked_zero|]. case_decide.
  { subst. apply mapM_unpacked. intros i Hi'. rewrite load_bits_at by (done || (split_and!; nia)). rewrite E. do 2 f_equal. nia. }
  rewrite decide_False by lia. case_decide; [apply unpack_words_spec; (done || lia)|].
  pose proof (Unroller_Unpack_spec c bit src buf Hc ltac:(lia) Hb Hi (Z.to_nat c - 1) 0 ltac:(lia) ltac:(lia)) as H2.
  cbv zeta in H2. rewrite Z.mul_0_r, Z.add_0_r in H2. replace (S (Z.to_nat c - 1)) with (Z.to_nat c) in H2 by lia.
  rewrite <-H2. f_equal. unfold group_pos. rewrite Z.div_0_l by lia. lia.
Qed.

Lemma fastunpack_small_spec c bit out buf src : c = 8 ∨ c = 16 ∨ c = 32 → 0 ≤ bit ≤ c → Forall byte buf → in_buffer buf src (4 * bit) →
  fastunpack_small c out buf src bit = Some (unpacked buf (8 * src) bit 32).
Proof.
  intros Hc Hbit Hb (Hi1 & Hi2 & Hi3). unfold fastunpack_small. assert (8 * (c / 8) = c ∧ c * (32 / c) = 32) as [E E2] by (field_cases Hc; done).
  rewrite (mapM_total _ (λ i, unpacked buf (8 * src + Z.of_nat i * (Z.of_nat (Z.to_nat c) * bit)) bit (Z.to_nat c))).
  - cbn [fmap option_fmap option_map]. rewrite mjoin_unpacked. do 2 f_equal. nia.
  - intros i a Ha. apply lookup_seq in Ha as [-> Ha]. cbn [Nat.add]. rewrite fastunpack_group_spec; [|done|done|done|].
    + do 2 f_equal. nia.
    + assert (Z.of_nat i * (c / 8) + c / 8 ≤ 4) by nia. split_and!; nia.
Qed.

Lemma fastunpack64_spec bit out buf src : 0 ≤ bit ≤ 64 → Forall byte buf → in_buffer buf src (4 * bit) →
  fastunpack64 out buf src bit = Some (unpacked buf (8 * src) bit 32).
Proof.
  intros Hbit Hb Hi. pose proof Hi as (Hi1 & Hi2 & Hi3). unfold fastunpack64. case_decide; [subst; by rewrite unpacked_zero|].
  case_decide; [subst|case_decide; [subst|]].
  - apply mapM_unpacked. intros i Hi'. rewrite load_bits_at by (done || (split_and!; lia)). do 2 f_equal. lia.
  - apply mapM_unpacked. intros i Hi'. set (p := src + 8 * Z.of_nat i).
    destruct (load_spec 4 buf p Hb) as (x & -> & _ & Hx); [unfold p; split_and!; lia|]. cbn [mbind option_bind].
    destruct (load_spec 4 buf (p + 4) Hb) as (y & -> & _ & Hy); [unfold p; split_and!; lia|]. cbn [mbind option_bind]. f_equal.
    apply bits_at_unique; [lia|lia|]. intros j Hj. rewrite Z.lor_spec, Z.shiftl_spec, Hx by lia. destruct (decide (j < 32)).
    + rewrite Z.testbit_neg_r, orb_false_r by lia. destruct (Z.ltb_spec j (8 * 4)), (Z.ltb_spec j 64); try lia. cbn [andb]. f_equal. unfold p. lia.
    + rewrite Hy by lia. destruct (Z.ltb_spec j (8 * 4)), (Z.ltb_spec (j - 32) (8 * 4)), (Z.ltb_spec j 64); try lia. cbn [andb orb]. f_equal. unfold p. lia.
  - rewrite decide_False by lia. case_decide; [by apply (unpack_words_spec 32); (done || lia || (change (32 / 8) with 4; split_and!; lia))|].
    pose proof (Unroller_Unpack64_spec bit src buf ltac:(lia) ltac:(done) Hb ltac:(by rewrite Z.mul_comm) 31 0 ltac:(lia) ltac:(lia)) as HU.
    cbv zeta in HU. rewrite Z.mul_0_r, Z.add_0_r in HU. rewrite <-HU. f_equal. unfold group_pos. rewrite Z.div_0_l by lia. lia.
Qed.

(** The first [n] bits of a 128-bit value are those from [k] on. *)
Definition collected (buf : list Z) (k n out : Z) : Prop :=
  wrange wide out ∧ ∀ j, 0 ≤ j < 128 → Z.testbit out j = (j <? n) && bit_at buf (k + j).

Lemma collected_add buf k n out p : Forall byte buf → collected buf k n out → 0 ≤ n < 128 → 8 * p = k + n → in_buffer buf p 4 →
  ∃ f, load 4 buf p = Some f ∧ collected buf k (n + 32) (wor wide out (wshl wide (wcast wide f) n)).
Proof.
  intros Hb [Hr Hbits] Hn Hp Hi. destruct (load_spec 4 buf p Hb Hi) as (f & -> & Hf & Hfb). exists f. split; [done|].
  rewrite (wl_cast (o := wide) f) by done. destruct (wl_shl (o := wide) f n ltac:(by apply (field_range wide)) Hn) as [Hsr Hsb].
  destruct (wl_or (o := wide) _ _ Hr Hsr) as [-> Hor]. split; [done|]. intros j Hj. rewrite Z.lor_spec, Hbits, Hsb by done.
  destruct (decide (j < n)).
  - rewrite (Z.testbit_neg_r f), orb_false_r by lia. by_bits.
  - rewrite Hfb by lia. replace (8 * p + (j - n)) with (k + j) by lia. by_bits.
Qed.

Lemma collected_start buf k s p : Forall byte buf → 8 * p + s = k → 0 ≤ s < 32 → in_buffer buf p 4 →
  ∃ f, load 4 buf p = Some f ∧ collected buf k (32 - s) (wcast wide (Z.shiftr f s)).
Proof.
  intros Hb Hk Hs Hi. destruct (load_spec 4 buf p Hb Hi) as (f & -> & Hf & Hfb). exists f. split; [done|].
  assert (0 ≤ Z.shiftr f s < 2 ^ 32) as Hr.
  { rewrite Z.shiftr_div_pow2 by lia. assert (1 ≤ 2 ^ s) by lia. split; [apply Z.div_pos; lia|apply Z.div_lt_upper_bound; [lia|]]. nia. }
  rewrite (wl_cast (o := wide)) by done. split; [by apply (field_range wide)|]. intros j Hj. rewrite Z.shiftr_spec, Hfb by lia.
  replace (8 * p + (j + s)) with (k + j) by lia. by_bits.
Qed.

Lemma collected_all buf k n out : 0 ≤ k → 0 ≤ n ≤ 127 → collected buf k n out → out = bits_at buf k n.
Proof.
  intros Hk Hn [Hr Hb]. change (- 2 ^ 127 ≤ out < 2 ^ 127) in Hr.
  assert (Z.testbit out 127 = false) as H127 by (rewrite Hb by lia; by_bits).
  assert (0 ≤ out < 2 ^ 127) as Ho.
  { split; [|lia]. destruct (decide (0 ≤ out)); [done|]. exfalso. apply Z.testbit_false in H127; [|lia].
    assert (out / 2 ^ 127 = -1) as E by (symmetry; apply Z.div_unique_pos with (out + 2 ^ 127); lia). by rewrite E in H127. }
  apply bits_at_unique; [done|lia|]. intros j Hj. destruct (decide (j < 128)); [apply Hb; lia|].
  rewrite (high_bits out 127) by (done || lia). by_bits.
Qed.

Lemma unpackDelta_spec (n : nat) buf src : (0 < n ≤ 3)%nat → Forall byte buf → in_buffer buf src (128 * Z.of_nat n) →
  unpackDelta n buf src = Some (unpacked buf (8 * src) (32 * Z.of_nat n) 32).
Proof.
  intros Hn Hb (Hi1 & Hi2 & Hi3). unfold unpackDelta. apply mapM_unpacked. intros i Hi. change CHUNK_SIZE with 32%nat in Hi.
  set (p := src + 4 * (Z.of_nat n * Z.of_nat i)). set (k := 8 * src + Z.of_nat i * (32 * Z.of_nat n)).
  destruct (collected_start buf k 0 p Hb) as (f & -> & Hc); [unfold p, k; lia|lia|unfold p; split_and!; nia|]. cbn [mbind option_bind].
  rewrite Z.shiftr_0_r, Z.sub_0_r in Hc. set (step := λ out k, _).
  destruct (ofold_total step (λ dn out, collected buf k (32 * Z.of_nat (S (length dn))) out) (seq 1 (n - 1)) (wcast wide f)) as (out & Ho & Hout).
  - done.
  - intros dn m rest out Hs Hout. assert (m = S (length dn) ∧ (S (length dn) < n)%nat) as [-> Hm].
    { assert (seq 1 (n - 1) !! length dn = Some m) as H by (rewrite Hs; by rewrite lookup_app_r, Nat.sub_diag by lia).
      apply lookup_seq in H. lia. }
    destruct (collected_add buf k (32 * Z.of_nat (S (length dn))) out (src + 4 * (Z.of_nat n * Z.of_nat i + Z.of_nat (S (length dn)))) Hb Hout)
      as (f' & Hl & Hc'); [lia|unfold k; lia|split_and!; nia|].
    exists (wor wide out (wshl wide (wcast wide f') (32 * Z.of_nat (S (length dn))))). unfold step. rewrite Hl. cbn [mbind option_bind]. split; [done|].
    rewrite length_app. cbn [length]. by replace (32 * Z.of_nat (S (length dn + 1))) with (32 * Z.of_nat (S (length dn)) + 32) by lia.
  - rewrite Ho. f_equal. apply collected_all; [unfold k; lia|lia|]. rewrite length_seq in Hout.
    by replace (32 * Z.of_nat (S (n - 1))) with (32 * Z.of_nat n) in Hout by lia.
Qed.

Lemma unpackLast_spec buf src delta k : Forall byte buf → 0 < delta < 128 → delta `mod` 32 ≠ 0 → 8 * src + (delta * 31) `mod` 32 = k → 0 ≤ src →
  k + delta ≤ 8 * Z.of_nat (length buf) → unpackLast buf src delta = Some (bits_at buf k delta).
Proof.
  intros Hb Hd Hm Hk Hsrc Hlen. unfold unpackLast. set (s := (delta * 31) `mod` 32) in *.
  assert (0 ≤ s < 32 ∧ (s + delta) `mod` 32 = 0) as [Hs Hsd] by (unfold s; clear - Hd; dlia).
  destruct (collected_start buf k s src Hb ltac:(lia) Hs) as (f & -> & H0); [split_and!; [lia|lia|clear - Hsd Hk Hlen Hd Hs; dlia]|].
  cbn [mbind option_bind].
  assert (∀ m out, collected buf k (32 * m - s) out → 1 ≤ m ≤ 3 → ∃ out',
    (if decide (delta > 32 * m) then f ← load 4 buf (src + 4 * m); Some (wor wide out (wshl wide (wcast wide f) (32 * m - s))) else Some out) = Some out' ∧
    collected buf k (if decide (delta > 32 * m) then 32 * (m + 1) - s else 32 * m - s) out') as Hstep.
  { intros m out Hc Hm'. case_decide as Hgt; [|by exists out].
    destruct (collected_add buf k (32 * m - s) out (src + 4 * m) Hb Hc) as (f' & -> & Hc'); [lia|lia|split_and!; [lia|lia|clear - Hsd Hk Hlen Hgt Hd Hs; dlia]|].
    eexists. split; [done|]. by replace (32 * (m + 1) - s) with (32 * m - s + 32) by lia. }
  destruct (Hstep 1 _ H0 ltac:(lia)) as (o1 & E1 & C1). change (32 * 1) with 32 in *. change (4 * 1) with 4 in E1. rewrite E1. cbn [mbind option_bind].
  assert (∀ o, collected buf k delta o → Some o = Some (bits_at buf k delta)) as Hall by (intros o Ho; f_equal; apply collected_all; (done || lia)).
  destruct (decide (delta > 32)) as [G1|G1].
  - destruct (Hstep 2 o1 C1 ltac:(lia)) as (o2 & E2 & C2). change (32 * 2) with 64 in *. change (4 * 2) with 8 in E2. rewrite E2. cbn [mbind option_bind].
    destruct (decide (delta > 64)) as [G2|G2].
    + destruct (Hstep 3 o2 C2 ltac:(lia)) as (o3 & E3 & C3). change (32 * 3) with 96 in *. change (4 * 3) with 12 in E3. rewrite E3. apply Hall.
      destruct (decide (delta > 96)) as [G3|G3]; [replace delta with (32 * (3 + 1) - s) by (clear - G3 Hd Hs Hsd; dlia)|replace delta with (96 - s) by (clear - G2 G3 Hs Hsd; dlia)]; done.
    + rewrite decide_False by lia. apply Hall. by replace delta with (64 - s) by (clear - G1 G2 Hs Hsd; dlia).
  - rewrite decide_False by lia. cbn [mbind option_bind]. rewrite decide_False by lia. apply Hall. by replace delta with (32 - s) by (clear - G1 Hd Hs Hsd Hm; dlia).
Qed.

Lemma Int128Packer_unpack_spec bit buf src : 0 ≤ bit ≤ 127 → Forall byte buf → in_buffer buf src (4 * bit) →
  Int128Packer_unpack buf src bit = Some (unpacked buf (8 * src) bit 32).
Proof.
  intros Hbit Hb Hi. pose proof Hi as (Hi1 & Hi2 & Hi3). unfold Int128Packer_unpack. rewrite decide_True by lia.
  case_decide; [subst; by rewrite unpacked_zero|]. case_decide; [subst; by apply (unpackDelta_spec 1); (lia || done)|].
  case_decide; [subst; by apply (unpackDelta_spec 2); (lia || done)|]. case_decide; [subst; by apply (unpackDelta_spec 3); (lia || done)|].
  rewrite decide_False by lia. rewrite (mapM_unpacked _ buf (8 * src) bit).
  - cbn [mbind option_bind]. rewrite (unpackLast_spec _ _ _ (8 * src + 31 * bit)); [|done|lia|dlia|dlia|dlia|lia].
    cbn [mbind option_bind]. f_equal.
  - change (CHUNK_SIZE - 1)%nat with 31%nat. intros i Hi'. apply unpackSingle_spec; [apply _|done|change (wmax wide) with 127; lia|lia|].
    apply chunk_fields; [apply _|lia|lia|cbn; lia|done].
Qed.

(** Unpacking a chunk reads its values one behind the other, whatever their type. *)
Lemma fastunpack_spec o `{!WordLaws o} bit out buf src : 0 ≤ bit ≤ wmax o → Forall byte buf → in_buffer buf src (4 * bit) →
  fastunpack o out buf src bit = Some (unpacked buf (8 * src) bit 32).
Proof.
  intros Hbit Hb Hi. pose proof (wmax_bits o). unfold fastunpack. case_decide as H128; [|case_decide as H64].
  - apply Int128Packer_unpack_spec; (done || lia).
  - apply fastunpack64_spec; (done || lia).
  - apply fastunpack_small_spec; [|lia|done|done]. destruct wl_bits as [|[|[|[|]]]]; lia.
Qed.

(** ** The routines agree *)

(** A buffer is given by its bits. *)
Lemma bytes_unique buf1 buf2 : Forall byte buf1 → Forall byte buf2 → length buf1 = length buf2 → (∀ m, 0 ≤ m → bit_at buf1 m = bit_at buf2 m) → buf1 = buf2.
Proof.
  intros H1 H2 Hl Hb. assert (little_endian_to_Z 8 buf1 = little_endian_to_Z 8 buf2) as E by (apply Z.bits_inj'; intros m Hm; by apply Hb).
  rewrite <-(Z_to_little_endian_to_Z (Z.of_nat (length buf1)) 8 buf1), <-(Z_to_little_endian_to_Z (Z.of_nat (length buf2)) 8 buf2) by (done || lia).
  by rewrite E, Hl.
Qed.

(** What was written determines the buffer. *)
Lemma wrote_unique buf k w vs buf1 buf2 : 0 < w → wrote buf k w vs buf1 → wrote buf k w vs buf2 → buf1 = buf2.
Proof.
  intros Hw [B1 L1 V1 R1] [B2 L2 V2 R2]. apply bytes_unique; [done|done|congruence|]. intros m Hm.
  destruct (decide (m < k ∨ k + Z.of_nat (length vs) * w ≤ m)) as [Hr|Hr]; [by rewrite R1, R2|].
  pose proof (Z.div_mod (m - k) w ltac:(lia)) as Hd. pose proof (Z.mod_pos_bound (m - k) w Hw) as Hj.
  assert (0 ≤ (m - k) / w < Z.of_nat (length vs)) as Hi by (split; [apply Z.div_pos; lia|apply Z.div_lt_upper_bound; lia]).
  destruct (lookup_lt_is_Some_2 vs (Z.to_nat ((m - k) / w))) as [v Hv]; [lia|].
  pose proof (V1 _ v ((m - k) `mod` w) Hv Hj) as E1. pose proof (V2 _ v ((m - k) `mod` w) Hv Hj) as E2.
  replace (k + Z.of_nat (Z.to_nat ((m - k) / w)) * w + (m - k) `mod` w) with m in E1, E2 by lia. congruence.
Qed.

(** The unsigned types of the columns. *)
Definition packed_types : list Word := [machine 8; machine 16; machine 32; machine 64; wide].

Lemma packed_types_laws o : o ∈ packed_types → WordLaws o.
Proof. unfold packed_types. rewrite !elem_of_cons. intros [->|[->|[->|[->|[->|[]%not_elem_of_nil]]]]]; apply _. Qed.

(** Packing values one by one. *)
Lemma pack_one_by_one o `{!WordLaws o} vs buf p w : Forall (wrange o) vs → length vs = 32%nat → 0 < w ≤ wmax o → Forall byte buf → in_buffer buf p (4 * w) →
  ∃ buf', ofold (λ b i, v ← vs !! i; packSingle o v b p w (Z.of_nat i)) buf (seq 0 32) = Some buf' ∧ wrote buf (8 * p) w vs buf'.
Proof.
  intros Hv Hl Hw Hb Hi. pose proof (wmax_bits o) as Hm.
  destruct (ofold_wrote (λ b i v, packSingle o v b p w (Z.of_nat i)) buf (8 * p) w vs 32) as (buf' & H1 & H2); [done|destruct Hi; lia|lia|lia| |].
  - intros b k v Hk Hvk Hbb Hlen. apply packSingle_spec; [done|done|by eapply Forall_lookup_1|lia|lia|].
    apply chunk_fields; [done|lia|lia|lia|]. unfold in_buffer. by rewrite Hlen.
  - exists buf'. split; [done|]. by rewrite take_ge in H2 by lia.
Qed.

(** C27. The unrolled routines that pack and unpack a chunk of 32 values agree with those for a single value, for every type and width: packing the chunk
    gives the buffer that 32 writes of single values give, and both ways of reading it return the low bits of the values. *)
Theorem packing_routines_agree o vs buf p w out : o ∈ packed_types → Forall (wrange o) vs → length vs = 32%nat → 0 < w ≤ wmax o → Forall byte buf →
  in_buffer buf p (4 * w) →
  ∃ buf', fastpack o vs buf p w = Some buf' ∧ ofold (λ b i, v ← vs !! i; packSingle o v b p w (Z.of_nat i)) buf (seq 0 32) = Some buf' ∧
    fastunpack o out buf' p w = Some ((λ v, v `mod` 2 ^ w) <$> vs) ∧
    ∀ i v, vs !! i = Some v → unpackSingle o buf' p w (Z.of_nat i) = Some (v `mod` 2 ^ w).
Proof.
  intros Ho Hv Hl Hw Hb Hi. pose proof (packed_types_laws o Ho). pose proof (wmax_bits o) as Hm.
  destruct (pack_one_by_one o vs buf p w) as (buf1 & H1 & W1); [done..|]. destruct (fastpack_spec o w vs buf p) as (buf' & H2 & W2); [done|done|lia|done|done|].
  assert (buf1 = buf') as -> by (eapply wrote_unique; [|done|done]; lia). exists buf'. split; [done|]. split; [done|].
  assert (in_buffer buf' p (4 * w)) as Hi' by (unfold in_buffer; by rewrite (wr_length _ _ _ _ _ W2)). destruct Hi as [Hp _].
  assert (∀ i v, vs !! i = Some v → bits_at buf' (8 * p + Z.of_nat i * w) w = v `mod` 2 ^ w) as Hbits.
  { intros i v Hiv. eapply wrote_bits_at; [lia|lia|exact W2|done]. }
  split.
  - rewrite fastunpack_spec by (done || lia || apply W2). f_equal. apply list_eq_same_length with 32%nat; [by rewrite length_fmap|by rewrite unpacked_length|].
    intros i x y Hi32 Hx Hy. unfold unpacked in Hx. apply list_lookup_fmap_Some in Hx as (j & -> & Hj). apply lookup_seq in Hj as [-> _].
    apply list_lookup_fmap_Some in Hy as (v & -> & Hy). by rewrite Nat.add_0_l, (Hbits i v).
  - intros i v Hiv. pose proof (lookup_lt_Some _ _ _ Hiv). rewrite (unpackSingle_spec o); [by rewrite (Hbits i v)|apply W2|lia|lia|]. apply chunk_fields; (done || lia).
Qed.

Lemma packing_routines_agree_witness : ∃ buf',
  fastpack (machine 16) (Z.of_nat <$> seq 1000 32) (replicate 50 255) 3 11 = Some buf' ∧
  ofold (λ b i, v ← (Z.of_nat <$> seq 1000 32) !! i; packSingle (machine 16) v b 3 11 (Z.of_nat i)) (replicate 50 255) (seq 0 32) = Some buf' ∧
  fastunpack (machine 16) [] buf' 3 11 = Some ((λ v, v `mod` 2 ^ 11) <$> (Z.of_nat <$> seq 1000 32)) ∧
  ∀ i v, (Z.of_nat <$> seq 1000 32) !! i = Some v → unpackSingle (machine 16) buf' 3 11 (Z.of_nat i) = Some (v `mod` 2 ^ 11).
Proof.
  apply (packing_routines_agree (machine 16) (Z.of_nat <$> seq 1000 32) (replicate 50 255) 3 11 []).
  - right. left.
  - apply Forall_fmap, Forall_seq. intros j Hj. unfold wrange, compose. cbn [machine wbits]. rewrite decide_False by done. lia.
  - done.
  - by vm_compute.
  - by apply Forall_replicate.
  - by vm_compute.
Defined.
