(* ===== verification/Compression.v ===== *)
(** Compression of the pages of integer columns: [src/src/storage/compression/compression.cpp] and its header,
    [sign_extend.h], and the choice of the compression in [src/src/storage/table/column_chunk_metadata.cpp].

    A page is a buffer of bytes as in [BitPacking]; the uncompressed values are a list, the numbers of which are
    values of the integer type [T] of the column. Positions and counts of values are naturals. A failed assertion,
    or an access out of the page or of a list of values, is [Throw AssertionFailure], the other exceptions are those of
    the code. [std::abs] of the least value of a signed type, which the language leaves undefined for 32 and 64 bits,
    wraps around as on the targets. Booleans and floating point compression (ALP) are not modelled. The theorems show that what is compressed or updated
    in place is what is read back, and where it is not. *)

From stdpp Require Import list_numbers.
From S2P Require Import Prelude NullMask Int128 BitPacking.

#[local] Open Scope Z_scope.

(** ** Effects *)

(** A failed assertion or an access out of range as an exception. *)
Definition checked {A} (o : option A) : Res A := match o with Some a => Ret a | None => Throw AssertionFailure end.

Fixpoint rmap {A B} (f : A → Res B) (l : list A) : Res (list B) :=
  match l with [] => Ret [] | a :: l => b ← f a; bs ← rmap f l; Ret (b :: bs) end.

Fixpoint rfold {A B} (f : B → A → Res B) (b : B) (l : list A) : Res B :=
  match l with [] => Ret b | a :: l => b ← f b a; rfold f b l end.

(** Writing values to an array, from the index [i] on. *)
Definition write_values (dst : list Z) (i : nat) (vs : list Z) : Res (list Z) :=
  if decide (i + length vs ≤ length dst)%nat then Ret (take i dst ++ vs ++ drop (i + length vs) dst) else Throw AssertionFailure.

(** ** Integer types *)

(** The type [T] of a column; [U] is its unsigned type. *)
Inductive PackedType := Machine (t : IntType) | Int128.

#[export] Instance PackedType_eq_dec : EqDecision PackedType.
Proof. solve_decision. Defined.

Definition pword (p : PackedType) : Word := match p with Machine t => machine (width t) | Int128 => wide end.
Definition pbits (p : PackedType) : Z := wbits (pword p).

Definition to_U (p : PackedType) (a : Z) : Z := match p with Machine t => a `mod` 2 ^ width t | Int128 => a end.
Definition to_T (p : PackedType) (u : Z) : Z := match p with Machine t => static_cast t u | Int128 => wrap128 u end.

Definition value_of (r : Res int128_t) : Res Z := x ← r; Ret (val x).

(** [(U)(a - b)], [a += b], [abs<T>] and [numeric_utils::bitWidth]; those of [int128_t] can throw. *)
Definition sub_U (p : PackedType) (a b : Z) : Res Z :=
  match p with Machine t => Ret ((a - b) `mod` 2 ^ width t) | Int128 => value_of (Sub (of_Z a) (of_Z b)) end.

Definition add_T (p : PackedType) (a b : Z) : Res Z :=
  match p with Machine t => Ret (static_cast t (a + b)) | Int128 => value_of (assign_add (of_Z a) (of_Z b)) end.

Definition abs_T (p : PackedType) (a : Z) : Res Z :=
  match p with
  | Machine t => Ret (if isSigned t then static_cast t (Z.abs a) else a)
  | Int128 => if greaterThanOrEquals (of_Z a) (of_Z 0) then Ret a else value_of (negate (of_Z a))
  end.

Definition bit_width (u : Z) : Z := if decide (u = 0) then 0 else Z.log2 u + 1.

Definition bitWidth_U (p : PackedType) (u : Z) : Z :=
  match p with
  | Machine t => bit_width u
  | Int128 => let x := of_Z u in if decide (high x ≠ 0) then 64 + bit_width (u64 (high x)) else bit_width (low x)
  end.

(** ** Metadata *)

(** The union [StorageValue]: its largest member; the padding of smaller ones is zero. *)
Definition StorageValue : Type := int128_t.

Definition storage_value (p : PackedType) (v : Z) : StorageValue :=
  match p with Machine t => mk128 (u64 v) 0 | Int128 => of_Z v end.

Definition storage_get (p : PackedType) (s : StorageValue) : Z :=
  match p with Machine t => static_cast t (low s) | Int128 => val s end.

Inductive CompressionType := UNCOMPRESSED | INTEGER_BITPACKING | BOOLEAN_BITPACKING | CONSTANT | ALP.

#[export] Instance CompressionType_eq_dec : EqDecision CompressionType.
Proof. solve_decision. Defined.

(** Without the parts of floating point compression. *)
Record CompressionMetadata := mkMetadata { min : StorageValue; max : StorageValue; compression : CompressionType }.

(** ** Minimum and maximum of values *)

(** The loop over the values that are not null. *)
Definition minmax_step (p : PackedType) (acc : option StorageValue * option StorageValue) (v : Z) : option StorageValue * option StorageValue :=
  let '(mn, mx) := acc in
  (match mn with
   | Some m => if decide (v < storage_get p m) then Some (storage_value p v) else mn
   | None => Some (storage_value p v)
   end,
   match mx with
   | Some m => if decide (storage_get p m < v) then Some (storage_value p v) else mx
   | None => Some (storage_value p v)
   end).

Definition getTypedMinMax (p : PackedType) (values : list Z) (nullMask : option NullMask) (nullMaskOffset : nat) :
    Res (option StorageValue * option StorageValue) :=
  match values with
  | [] => Throw AssertionFailure
  | v :: vs =>
      match nullMask with
      | Some m =>
          if hasNoNullsGuarantee m then
            Ret (Some (storage_value p (foldl Z.min v vs)), Some (storage_value p (foldl Z.max v vs)))
          else
            rfold (λ acc i,
              null ← checked (isNullAt m (Z.of_nat (nullMaskOffset + i)));
              if null : bool then Ret acc else
              x ← checked (values !! i);
              Ret (minmax_step p acc x)) (None, None) (seq 0 (length values))
      | None => Ret (Some (storage_value p (foldl Z.min v vs)), Some (storage_value p (foldl Z.max v vs)))
      end
  end.

(** ** Integer bitpacking *)

Record BitpackInfo := mkInfo { bitWidth : Z; hasNegative : bool; offset : Z }.

Definition u8 (z : Z) : Z := z `mod` 2 ^ 8.

Definition packing_info (p : PackedType) (mn mx : Z) : Res BitpackInfo :=
  up ← (if decide (0 < mn ∧ 0 < mx) then d ← sub_U p mx mn; Ret (bitWidth_U p d <? bitWidth_U p (to_U p mx)) else Ret false);
  if up : bool then d ← sub_U p mx mn; Ret (mkInfo (u8 (bitWidth_U p d)) false mn)
  else
    down ← (if decide (mn < 0 ∧ mx < 0) then d ← sub_U p mn mx; Ret (bitWidth_U p d <? bitWidth_U p (to_U p mx)) else Ret false);
    if down : bool then d ← sub_U p mn mx; Ret (mkInfo (u8 (u8 (bitWidth_U p d) + 1)) true (to_T p (to_U p mx)))
    else
      a ← abs_T p mn;
      b ← abs_T p mx;
      let w := u8 (bitWidth_U p (to_U p (Z.max a b))) in
      if decide (mn < 0) then Ret (mkInfo (u8 (w + 1)) true 0) else Ret (mkInfo w false 0).

Definition getPackingInfo (p : PackedType) (metadata : CompressionMetadata) : Res BitpackInfo :=
  packing_info p (storage_get p (min metadata)) (storage_get p (max metadata)).

Definition canUpdateInPlace (p : PackedType) (values : list Z) (metadata : CompressionMetadata) (nullMask : option NullMask)
    (nullMaskOffset : nat) : Res bool :=
  info ← getPackingInfo p metadata;
  r ← getTypedMinMax p values nullMask nullMaskOffset;
  match r with
  | (None, None) => Ret true
  | (Some mn, Some mx) =>
      newInfo ← getPackingInfo p (mkMetadata
        (storage_value p (Z.min (storage_get p (min metadata)) (storage_get p mn)))
        (storage_value p (Z.max (storage_get p (max metadata)) (storage_get p mx))) (compression metadata));
      Ret (bool_decide (bitWidth info = bitWidth newInfo ∧ hasNegative info = hasNegative newInfo ∧ offset info = offset newInfo))
  | _ => Throw AssertionFailure
  end.

(** [SignExtend] of one value. *)
Definition SignExtend (p : PackedType) (u w : Z) : Res Z :=
  if decide (w < pbits p) then
    andMask ← checked (wmask (pword p) w);
    match p with
    | Machine t =>
        let mask := static_cast t (2 ^ (w - 1)) in
        let value := static_cast t (Z.land (static_cast t u) andMask) in
        Ret (static_cast t (Z.lxor value mask - mask))
    | Int128 =>
        let mask := LeftShift (tryCastToTemplate 1) (w - 1) in
        let value := BinaryAnd (of_Z u) (of_Z andMask) in
        value_of (Sub (Xor value mask) mask)
    end
  else Throw AssertionFailure.

(** An unpacked value: the extension of its sign and the offset. *)
Definition decode (p : PackedType) (info : BitpackInfo) (u : Z) : Res Z :=
  v ← (if hasNegative info && bool_decide (0 < bitWidth info) then SignExtend p u (bitWidth info) else Ret (to_T p u));
  if decide (offset info ≠ 0) then add_T p v (offset info) else Ret v.

Definition getValues (p : PackedType) (page : list Z) (chunkStart : Z) (pos numValuesToRead : nat) (header : BitpackInfo) : Res (list Z) :=
  if decide (pos + numValuesToRead ≤ CHUNK_SIZE)%nat then
    rmap (λ i, u ← checked (unpackSingle (pword p) page chunkStart (bitWidth header) (Z.of_nat i)); decode p header u) (seq pos numValuesToRead)
  else Throw AssertionFailure.

Definition packPartialChunk (p : PackedType) (us : list Z) (page : list Z) (dst : Z) (posInDst : nat) (info : BitpackInfo) (n : nat) : Res (list Z) :=
  checked (ofold (λ page i, u ← us !! i; packSingle (pword p) u page dst (bitWidth info) (Z.of_nat (i + posInDst))) page (seq 0 n)).

Definition copyValuesToTempChunkWithOffset (p : PackedType) (src : list Z) (posInSrc : nat) (info : BitpackInfo) (n : nat) : Res (list Z) :=
  rmap (λ j, v ← checked (src !! (posInSrc + j)%nat); sub_U p v (offset info)) (seq 0 n).

Definition setPartialChunkInPlace (p : PackedType) (src : list Z) (posInSrc : nat) (page : list Z) (posInDst n : nat) (header : BitpackInfo) :
    Res (list Z) :=
  tmp ← copyValuesToTempChunkWithOffset p src posInSrc header n;
  packPartialChunk p tmp page 0 posInDst header n.

(** The values that are not null can be updated in place, one by one. *)
Definition updatable (p : PackedType) (src : list Z) (metadata : CompressionMetadata) (nullMask : option NullMask) (i : nat) : Res bool :=
  v ← checked (src !! i);
  null ← match nullMask with Some m => checked (isNullAt m (Z.of_nat i)) | None => Ret false end;
  if null : bool then Ret true else canUpdateInPlace p [v] metadata None 0.

(** The loop over the aligned chunks. *)
Fixpoint set_chunks (fuel : nat) (p : PackedType) (src : list Z) (posInSrc : nat) (page : list Z) (posInDst n dstIndex : nat) (header : BitpackInfo) :
    Res (list Z * nat) :=
  if decide (dstIndex + CHUNK_SIZE ≤ posInDst + n)%nat then
    match fuel with
    | O => Throw AssertionFailure
    | S fuel =>
        chunk ← copyValuesToTempChunkWithOffset p src (posInSrc + dstIndex - posInDst) header CHUNK_SIZE;
        page ← checked (fastpack (pword p) chunk page (Z.of_nat dstIndex * bitWidth header / 8) (bitWidth header));
        set_chunks fuel p src posInSrc page posInDst n (dstIndex + CHUNK_SIZE) header
    end
  else Ret (page, dstIndex).

Definition setValuesFromUncompressed (p : PackedType) (src : list Z) (posInSrc : nat) (page : list Z) (posInDst n : nat)
    (metadata : CompressionMetadata) (nullMask : option NullMask) : Res (list Z) :=
  header ← getPackingInfo p metadata;
  ok ← rmap (updatable p src metadata nullMask) (seq posInSrc n);
  if decide (n = length (filter (λ b : bool, b) ok)) then
    let valuesInFirstChunk := Nat.min (CHUNK_SIZE - posInDst `mod` CHUNK_SIZE) n in
    '(page, dstIndex) ← (if decide (valuesInFirstChunk < CHUNK_SIZE)%nat then
        page ← setPartialChunkInPlace p src posInSrc page posInDst valuesInFirstChunk header;
        Ret (page, posInDst + valuesInFirstChunk)%nat
      else Ret (page, posInDst));
    '(page, dstIndex) ← set_chunks n p src posInSrc page posInDst n dstIndex header;
    let lastChunkIndexOffset := (dstIndex - posInDst)%nat in
    let unalignedValuesToPack := (n - lastChunkIndexOffset)%nat in
    if decide (0 < unalignedValuesToPack)%nat then
      setPartialChunkInPlace p src (posInSrc + lastChunkIndexOffset) page (posInDst + lastChunkIndexOffset) unalignedValuesToPack header
    else Ret page
  else Throw AssertionFailure.

(** [numValues] of a page of [dataSize] bytes. *)
Definition numValues_info (dataSize : Z) (info : BitpackInfo) : Z :=
  if decide (bitWidth info = 0) then UINT64_MAX else u64 (dataSize * 8) / bitWidth info.

Definition pbytes (p : PackedType) : Z := pbits p / 8.

(** [Uncompressed]: the values one after the other. *)
Definition uncompressed_numValues (dataSize : Z) (p : PackedType) : Z := if decide (pbytes p = 0) then UINT64_MAX else dataSize / pbytes p.

Definition uncompressed_set (p : PackedType) (src : list Z) (posInSrc : nat) (page : list Z) (posInDst n : nat) : Res (list Z) :=
  rfold (λ page i, v ← checked (src !! (posInSrc + i)%nat);
    checked (store (pbytes p) page (Z.of_nat (posInDst + i) * pbytes p) (to_U p v))) page (seq 0 n).

(** Returns the page, the values that are left and the size in bytes. *)
Definition uncompressed_compressNextPage (p : PackedType) (src : list Z) (numValuesRemaining : nat) (page : list Z) (pageSize : Z) :
    Res (list Z * list Z * Z) :=
  if decide (pbytes p = 0) then Ret (page, src, 0) else
  let n := Z.to_nat (Z.min (Z.of_nat numValuesRemaining) (pageSize / pbytes p)) in
  page ← uncompressed_set p src 0 page 0 n;
  Ret (page, drop n src, Z.of_nat n * pbytes p).

Definition uncompressed_decompress (p : PackedType) (page : list Z) (srcOffset : nat) (dst : list Z) (dstOffset n : nat) : Res (list Z) :=
  vs ← rmap (λ i, u ← checked (load (pbytes p) page (Z.of_nat i * pbytes p)); Ret (to_T p u)) (seq srcOffset n);
  write_values dst dstOffset vs.

(** The loop over the full chunks; the values are packed without their offset. *)
Definition pack_chunks (p : PackedType) (src : list Z) (page : list Z) (info : BitpackInfo) (numChunks : nat) : Res (list Z) :=
  rfold (λ page c,
    chunk ← (if decide (offset info = 0) then checked (mapM (λ j, to_U p <$> src !! (c * CHUNK_SIZE + j)%nat) (seq 0 CHUNK_SIZE))
      else copyValuesToTempChunkWithOffset p src (c * CHUNK_SIZE) info CHUNK_SIZE);
    checked (fastpack (pword p) chunk page (Z.of_nat (c * CHUNK_SIZE) * bitWidth info / 8) (bitWidth info))) page (seq 0 numChunks).

Definition compressNextPage (p : PackedType) (src : list Z) (numValuesRemaining : nat) (page : list Z) (pageSize : Z) (metadata : CompressionMetadata) :
    Res (list Z * list Z * Z) :=
  if decide (compression metadata = UNCOMPRESSED) then uncompressed_compressNextPage p src numValuesRemaining page pageSize
  else if decide (compression metadata = INTEGER_BITPACKING) then
    info ← getPackingInfo p metadata;
    let w := bitWidth info in
    if decide (w = 0) then Ret (page, src, 0) else
    let n := Z.to_nat (Z.min (Z.of_nat numValuesRemaining) (numValues_info pageSize info)) in
    let sizeToCompress := Z.of_nat n * w / 8 + (if decide ((Z.of_nat n * w) `mod` 8 ≠ 0) then 1 else 0) in
    if decide (Z.of_nat CHUNK_SIZE ≤ pageSize ∧ sizeToCompress ≤ pageSize) then
      let lastFullChunkEnd := (n - n `mod` CHUNK_SIZE)%nat in
      page ← pack_chunks p src page info (lastFullChunkEnd / CHUNK_SIZE);
      let remaining := (n `mod` CHUNK_SIZE)%nat in
      page ← (if decide (0 < remaining)%nat then
          tmp ← (if decide (offset info = 0) then checked (mapM (λ j, to_U p <$> src !! (lastFullChunkEnd + j)%nat) (seq 0 remaining))
            else copyValuesToTempChunkWithOffset p src lastFullChunkEnd info remaining);
          packPartialChunk p tmp page (Z.of_nat lastFullChunkEnd * w / 8) 0 info remaining
        else Ret page);
      Ret (page, drop n src, sizeToCompress)
    else Throw AssertionFailure
  else Throw AssertionFailure.

(** The loop over the aligned chunks of a page, [src] a position in bytes. *)
Fixpoint unpack_chunks (fuel : nat) (p : PackedType) (page : list Z) (src : Z) (dst : list Z) (dstIndex last : nat) (info : BitpackInfo) :
    Res (list Z * Z * nat) :=
  if decide (dstIndex + CHUNK_SIZE ≤ last)%nat then
    match fuel with
    | O => Throw AssertionFailure
    | S fuel =>
        us ← checked (fastunpack (pword p) (take CHUNK_SIZE (drop dstIndex dst)) page src (bitWidth info));
        vs ← rmap (decode p info) us;
        dst ← write_values dst dstIndex vs;
        unpack_chunks fuel p page (src + Z.of_nat CHUNK_SIZE / 8 * bitWidth info) dst (dstIndex + CHUNK_SIZE) last info
    end
  else Ret (dst, src, dstIndex).

Definition decompressFromPage (p : PackedType) (page : list Z) (srcOffset : nat) (dst : list Z) (dstOffset n : nat) (metadata : CompressionMetadata) :
    Res (list Z) :=
  info ← getPackingInfo p metadata;
  let srcCursor := Z.of_nat (srcOffset / CHUNK_SIZE) * bitWidth info * Z.of_nat CHUNK_SIZE / 8 in
  let valuesInFirstChunk := Nat.min (CHUNK_SIZE - srcOffset `mod` CHUNK_SIZE) n in
  let bytesPerChunk := Z.of_nat CHUNK_SIZE / 8 * bitWidth info in
  r ← (if decide (valuesInFirstChunk < CHUNK_SIZE)%nat then
      vs ← getValues p page srcCursor (srcOffset `mod` CHUNK_SIZE) valuesInFirstChunk info;
      dst ← write_values dst dstOffset vs;
      if decide (n = valuesInFirstChunk) then Ret (dst, None)
      else Ret (dst, Some (srcCursor + bytesPerChunk, (dstOffset + valuesInFirstChunk)%nat))
    else Ret (dst, Some (srcCursor, dstOffset)));
  match r with
  | (dst, None) => Ret dst
  | (dst, Some (srcCursor, dstIndex)) =>
      '(dst, srcCursor, dstIndex) ← unpack_chunks n p page srcCursor dst dstIndex (dstOffset + n) info;
      if decide (dstIndex < dstOffset + n)%nat then
        vs ← getValues p page srcCursor 0 (dstOffset + n - dstIndex) info;
        write_values dst dstIndex vs
      else Ret dst
  end.

(** [ConstantCompression]: nothing is stored. *)
Definition constant_decompress (p : PackedType) (dst : list Z) (dstOffset n : nat) (metadata : CompressionMetadata) : Res (list Z) :=
  write_values dst dstOffset (replicate n (storage_get p (min metadata))).

(** ** Dispatch on the metadata *)

Definition metadata_numValues (p : PackedType) (metadata : CompressionMetadata) (pageSize : Z) : Res Z :=
  match compression metadata with
  | CONSTANT => Ret UINT64_MAX
  | UNCOMPRESSED => Ret (uncompressed_numValues pageSize p)
  | INTEGER_BITPACKING => info ← getPackingInfo p metadata; Ret (numValues_info pageSize info)
  | BOOLEAN_BITPACKING => Ret (pageSize * 8)
  | ALP => Throw StorageException
  end.

Definition canAlwaysUpdateInPlace (metadata : CompressionMetadata) : bool :=
  match compression metadata with BOOLEAN_BITPACKING | UNCOMPRESSED => true | CONSTANT | ALP | INTEGER_BITPACKING => false end.

(** The comparison of values with the constant, by the bytes of [unsignedInt]. *)
Fixpoint all_constant (p : PackedType) (values : list Z) (pos n : nat) (metadata : CompressionMetadata) (nullMask : option NullMask) : Res bool :=
  match n with
  | O => Ret true
  | S n =>
      null ← match nullMask with Some m => checked (isNullAt m (Z.of_nat pos)) | None => Ret false end;
      if null : bool then all_constant p values (S pos) n metadata nullMask else
      v ← checked (values !! pos);
      if decide (to_U p v `mod` 2 ^ pbits p = val (min metadata) `mod` 2 ^ pbits p) then all_constant p values (S pos) n metadata nullMask else Ret false
  end.

Definition metadata_canUpdateInPlace (p : PackedType) (values : list Z) (pos n : nat) (metadata : CompressionMetadata) (nullMask : option NullMask) : Res bool :=
  if canAlwaysUpdateInPlace metadata then Ret true else
  match compression metadata with
  | CONSTANT => all_constant p values pos n metadata nullMask
  | BOOLEAN_BITPACKING | UNCOMPRESSED => Ret true
  | INTEGER_BITPACKING =>
      if decide (pos + n ≤ length values)%nat then canUpdateInPlace p (take n (drop pos values)) metadata nullMask 0 else Throw AssertionFailure
  | ALP => Throw StorageException
  end.

(** [ReadCompressedValuesFromPageToVector]. *)
Definition readToVector (p : PackedType) (frame : list Z) (pos : nat) (dst : list Z) (posInDst n : nat) (metadata : CompressionMetadata) : Res (list Z) :=
  match compression metadata with
  | CONSTANT => constant_decompress p dst posInDst n metadata
  | UNCOMPRESSED => uncompressed_decompress p frame pos dst posInDst n
  | INTEGER_BITPACKING => decompressFromPage p frame pos dst posInDst n metadata
  | ALP => Throw NotImplementedException
  | BOOLEAN_BITPACKING => Throw AssertionFailure
  end.

(** [ReadCompressedValuesFromPage], which reads values of [uint8_t] as those of [int8_t]; the bytes are those of the result. *)
Definition page_type (p : PackedType) : PackedType := if decide (p = Machine UINT8) then Machine INT8 else p.

Definition readToPage (p : PackedType) (frame : list Z) (pos : nat) (dst : list Z) (posInDst n : nat) (metadata : CompressionMetadata) : Res (list Z) :=
  match compression metadata with
  | INTEGER_BITPACKING =>
      let q := page_type p in
      vs ← decompressFromPage q frame pos (map (λ v, to_T q (to_U p v)) dst) posInDst n metadata;
      Ret (map (λ v, to_T p (to_U q v)) vs)
  | _ => readToVector p frame pos dst posInDst n metadata
  end.

(** [WriteCompressedValuesToPage] from a buffer, and from a vector. *)
Definition writeFromBuffer (p : PackedType) (frame : list Z) (posInFrame : nat) (src : list Z) (srcOffset n : nat) (metadata : CompressionMetadata)
    (nullMask : option NullMask) : Res (list Z) :=
  match compression metadata with
  | CONSTANT => Ret frame
  | UNCOMPRESSED => uncompressed_set p src srcOffset frame posInFrame n
  | INTEGER_BITPACKING => setValuesFromUncompressed p src srcOffset frame posInFrame n metadata nullMask
  | ALP => Throw NotImplementedException
  | BOOLEAN_BITPACKING => Throw AssertionFailure
  end.

Definition writeFromVector (p : PackedType) (frame : list Z) (posInFrame : nat) (src : list Z) (posInVector n : nat) (metadata : CompressionMetadata)
    (nullMask : NullMask) : Res (list Z) :=
  writeFromBuffer p frame posInFrame src posInVector 1 metadata (Some nullMask).

(** ** Choice of the compression *)

Definition GetBitpackingMetadata (p : PackedType) (mn mx : StorageValue) : Res CompressionMetadata :=
  let compMeta := mkMetadata mn mx INTEGER_BITPACKING in
  info ← getPackingInfo p compMeta;
  if decide (pbits p ≤ bitWidth info) then Ret (mkMetadata mn mx UNCOMPRESSED) else Ret compMeta.

Definition GetCompressionMetadata (p : PackedType) (mn mx : StorageValue) : Res CompressionMetadata :=
  if Equals mn mx then Ret (mkMetadata mn mx CONSTANT) else GetBitpackingMetadata p mn mx.

(** The pages that [capacity] values take. *)
Definition numPages_for (p : PackedType) (metadata : CompressionMetadata) (pageSize : Z) (capacity : nat) : Res Z :=
  n ← metadata_numValues p metadata pageSize;
  if decide (n = UINT64_MAX) then Ret 0 else if decide (n = 0) then Throw AssertionFailure else
  Ret (Z.of_nat capacity / n + (if decide (Z.of_nat capacity `mod` n = 0) then 0 else 1)).

(** ** Values of the integer types *)

Definition tmin (p : PackedType) : Z := match p with Machine t => minimum t | Int128 => - 2 ^ 127 end.
Definition tmax (p : PackedType) : Z := match p with Machine t => maximum t | Int128 => 2 ^ 127 - 1 end.
Definition tvalue (p : PackedType) (v : Z) : Prop := tmin p ≤ v ≤ tmax p.

#[export] Instance pword_laws p : WordLaws (pword p).
Proof. destruct p as [t|]; [destruct t; apply _|apply _]. Qed.

Lemma pbits_cases p : (pbits p = 8 ∨ pbits p = 16 ∨ pbits p = 32 ∨ pbits p = 64 ∨ p = Int128 ∧ pbits p = 128).
Proof. destruct p as [t|]; [destruct t; cbn; auto|auto 10]. Qed.

Lemma trange_cases p : (tmin p = 0 ∧ tmax p = 2 ^ pbits p - 1 ∧ p ≠ Int128) ∨ (tmin p = - 2 ^ (pbits p - 1) ∧ tmax p = 2 ^ (pbits p - 1) - 1).
Proof. destruct p as [t|]; [destruct t|]; (left; by vm_compute) || (right; by vm_compute). Qed.

(** The number of [pbits p] bits. *)
Definition word_of (p : PackedType) (a : Z) : Z := a `mod` 2 ^ pbits p.

Lemma wrange_word p a : p ≠ Int128 → wrange (pword p) (word_of p a).
Proof.
  intros Hp. destruct p as [t|]; [|done]. unfold wrange, word_of, pbits. rewrite decide_False by (by destruct t).
  apply Z.mod_pos_bound. destruct t; cbn; lia.
Qed.

Lemma to_U_word p a : p ≠ Int128 → to_U p a = word_of p a.
Proof. by destruct p. Qed.

Lemma static_cast_word t a b : (a - b) `mod` 2 ^ width t = 0 → static_cast t a = static_cast t b.
Proof.
  intros H. assert (∃ k, a = b + k * 2 ^ width t) as [k ->].
  { exists ((a - b) / 2 ^ width t). pose proof (Z.div_mod (a - b) (2 ^ width t) ltac:(destruct t; cbn; lia)). lia. }
  unfold static_cast. replace (b + k * 2 ^ width t + 2 ^ (width t - 1)) with (b + 2 ^ (width t - 1) + k * 2 ^ width t) by lia.
  rewrite !Z.mod_add by (destruct t; cbn; lia). done.
Qed.

Lemma mod_sub_mod a n : n ≠ 0 → (a `mod` n - a) `mod` n = 0.
Proof.
  intros Hn. replace (a `mod` n - a) with (- (a / n) * n) by (pose proof (Z.div_mod a n Hn); lia). by rewrite Z.mod_mul.
Qed.

Lemma static_cast_mod t a : static_cast t (a `mod` 2 ^ width t) = static_cast t a.
Proof. apply static_cast_word, mod_sub_mod. destruct t; cbn; lia. Qed.

Lemma to_T_id p v : tvalue p v → to_T p v = v.
Proof.
  intros Hv. destruct p as [t|]; [by apply static_cast_id|]. apply wrap128_unique with 0; [|lia]. unfold tvalue in Hv. cbn in Hv. lia.
Qed.

Lemma to_T_mod p a : to_T p (a `mod` 2 ^ pbits p) = to_T p a.
Proof.
  destruct p as [t|]; [by apply static_cast_mod|]. unfold to_T, wrap128. change (pbits Int128) with 128. by rewrite Zplus_mod_idemp_l.
Qed.

Lemma to_T_U p v : tvalue p v → to_T p (to_U p v) = v.
Proof. intros Hv. destruct p as [t|]; [cbn; rewrite static_cast_mod; by apply static_cast_id|by apply (to_T_id Int128)]. Qed.

Lemma wrange_U p v : tvalue p v → wrange (pword p) (to_U p v).
Proof.
  intros Hv. destruct p as [t|]; [by apply (wrange_word (Machine t))|]. unfold wrange. cbn [pword wide wbits to_U]. rewrite decide_True by done.
  unfold tvalue in Hv. cbn in Hv. lia.
Qed.

Lemma to_U_mod p v : to_U p v `mod` 2 ^ pbits p = word_of p v.
Proof. destruct p as [t|]; [|done]. cbn. apply Z.mod_mod. destruct t; cbn; lia. Qed.

Lemma storage_get_value p v : tvalue p v → storage_get p (storage_value p v) = v.
Proof.
  intros Hv. destruct p as [t|]; cbn.
  - transitivity (static_cast t v); [|by apply static_cast_id]. apply static_cast_word. unfold u64.
    rewrite Zminus_mod, Z.mod_mod_divide by (destruct t; [exists (2 ^ 56)|exists (2 ^ 48)|exists (2 ^ 32)|exists 1|exists (2 ^ 56)|exists (2 ^ 48)|exists (2 ^ 32)|exists 1]; done).
    rewrite Z.sub_diag. apply Z.mod_0_l. destruct t; cbn; lia.
  - apply of_Z_val. unfold tvalue in Hv. cbn in Hv. lia.
Qed.

(** [value_of] of an operation on [int128_t]. *)
Lemma value_of_returns r z : returns r z → value_of r = Ret z.
Proof. intros (x & -> & _ & <-). done. Qed.

Lemma sub_U_spec p a b : tvalue p a → tvalue p b → (p = Int128 → - 2 ^ 127 < a - b < 2 ^ 127) →
  ∃ u, sub_U p a b = Ret u ∧ wrange (pword p) u ∧ u `mod` 2 ^ pbits p = word_of p (a - b).
Proof.
  intros Ha Hb Hr. destruct p as [t|]; cbn [sub_U].
  - eexists. split; [done|]. split; [by apply (wrange_word (Machine t))|]. apply Z.mod_mod. destruct t; cbn; lia.
  - specialize (Hr eq_refl). unfold tvalue in *. cbn [tmin tmax] in *.
    destruct (of_Z_val a ltac:(lia)) as [Hwa Hva], (of_Z_val b ltac:(lia)) as [Hwb Hvb].
    exists (a - b). rewrite (value_of_returns _ (a - b)); [|rewrite <-Hva, <-Hvb at 2; apply Sub_spec; [done|done|by rewrite Hva, Hvb]].
    split; [done|]. split; [|done]. unfold wrange. cbn [pword wide wbits]. rewrite decide_True by done. lia.
Qed.

Lemma add_T_spec p a b : tvalue p a → tvalue p b → tvalue p (a + b) → add_T p a b = Ret (a + b).
Proof.
  intros Ha Hb Hab. destruct p as [t|]; cbn [add_T]; [by rewrite static_cast_id|]. unfold tvalue in *. cbn [tmin tmax] in *.
  destruct (of_Z_val a ltac:(lia)) as [Hwa Hva], (of_Z_val b ltac:(lia)) as [Hwb Hvb].
  pose proof (addInPlace_spec (of_Z a) (of_Z b) Hwa Hwb) as H. rewrite Hva, Hvb, decide_True in H by lia.
  destruct H as (r & Hr & Hw & Hv). unfold assign_add. rewrite Hr. cbn. by rewrite Hv.
Qed.

Lemma abs_T_spec p a : tvalue p a → tmin p < a ∨ tmin p = 0 → abs_T p a = Ret (Z.abs a).
Proof.
  intros Ha Hm. destruct p as [t|]; unfold tvalue in *; cbn [tmin tmax abs_T] in *.
  - f_equal. destruct (isSigned t) eqn:E.
    + apply static_cast_id. unfold minimum, maximum in *. rewrite E in *. lia.
    + unfold minimum in Ha. rewrite E in Ha. lia.
  - destruct (of_Z_val a ltac:(lia)) as [Hw Hv]. rewrite greaterThanOrEquals_spec by done. rewrite Hv. change (val (of_Z 0)) with 0.
    destruct (Z.leb_spec 0 a); [f_equal; lia|]. rewrite (value_of_returns _ (- a)); [f_equal; lia|]. rewrite <-Hv at 2.
    apply negateInPlace_spec; [done|]. rewrite Hv. unfold INT128_MIN. lia.
Qed.

Lemma bit_width_spec u : 0 ≤ u → 0 ≤ bit_width u ∧ u < 2 ^ bit_width u ∧ ∀ k, 0 ≤ k → u < 2 ^ k ↔ bit_width u ≤ k.
Proof.
  intros Hu. unfold bit_width. case_decide as H0; [subst; split; [done|]; split; [done|]; intros k Hk; pose proof (Z.pow_pos_nonneg 2 k); lia|].
  pose proof (Z.log2_nonneg u). pose proof (Z.log2_spec u ltac:(lia)) as Hl. split; [lia|]. split; [rewrite Z.add_1_r; apply Hl|]. intros k Hk.
  rewrite Z.log2_lt_pow2 by lia. lia.
Qed.

Lemma bitWidth_U_spec p u : wrange (pword p) u → bitWidth_U p u = bit_width (word_of p u).
Proof.
  intros Hu. destruct p as [t|].
  - unfold wrange in Hu. rewrite decide_False in Hu by (by destruct t). cbn [bitWidth_U]. f_equal. symmetry. by apply Z.mod_small.
  - change (- 2 ^ 127 ≤ u < 2 ^ 127) in Hu. unfold bitWidth_U. destruct (of_Z_val u Hu) as [[Hl Hh] Hv]. set (x := of_Z u) in *.
    unfold word_of. change (pbits Int128) with 128.
    assert (u `mod` 2 ^ 128 = u64 (high x) * 2 ^ 64 + low x) as ->.
    { rewrite <-Hv. unfold val. destruct (decide (0 ≤ high x)).
      - rewrite u64_id, Z.mod_small by lia. done.
      - rewrite u64_under by lia. symmetry. apply Z.mod_unique_pos with (-1); lia. }
    case_decide as Hx.
    + assert (0 < u64 (high x) < 2 ^ 64) as Hr.
      { pose proof (u64_range (high x)). split; [|lia]. destruct (decide (0 ≤ high x)); [rewrite u64_id by lia; lia|rewrite u64_under by lia; lia]. }
      unfold bit_width. rewrite !decide_False by lia. rewrite Z.add_assoc. f_equal. symmetry.
      apply Z.log2_unique; [pose proof (Z.log2_nonneg (u64 (high x))); lia|].
      pose proof (Z.log2_spec (u64 (high x)) ltac:(lia)) as [H1 H2]. pose proof (Z.log2_nonneg (u64 (high x))).
      rewrite <-Z.add_succ_r, !Z.pow_add_r by lia. nia.
    + assert (high x = 0) as -> by lia. by rewrite u64_id.
Qed.

(** ** The packing of an interval *)

(** What [getPackingInfo] chooses, on the numbers. *)
Definition info_of (mn mx : Z) : BitpackInfo :=
  if decide (0 < mn ∧ bit_width (mx - mn) < bit_width mx) then mkInfo (bit_width (mx - mn)) false mn
  else if decide (mx < 0 ∧ mn = mx) then mkInfo 1 true mx
  else if decide (mn < 0) then mkInfo (bit_width (Z.max (Z.abs mn) (Z.abs mx)) + 1) true 0
  else mkInfo (bit_width mx) false 0.

(** An interval of values of [T], not down to the least value of a signed type. *)
Definition packable (p : PackedType) (mn mx : Z) : Prop :=
  tvalue p mn ∧ tvalue p mx ∧ mn ≤ mx ∧ (tmin p < mn ∨ tmin p = 0).

Lemma pbits_pos p : 8 ≤ pbits p ≤ 128.
Proof. pose proof (pbits_cases p). lia. Qed.

Lemma pow_double k : 1 ≤ k → 2 ^ k = 2 * 2 ^ (k - 1).
Proof. intros Hk. replace k with (Z.succ (k - 1)) at 1 by lia. apply Z.pow_succ_r. lia. Qed.

Lemma word_of_small p a : 0 ≤ a < 2 ^ pbits p → word_of p a = a.
Proof. apply Z.mod_small. Qed.

Lemma word_of_negative p a : - 2 ^ pbits p ≤ a < 0 → word_of p a = a + 2 ^ pbits p.
Proof. intros Ha. symmetry. apply Z.mod_unique_pos with (-1); lia. Qed.

Lemma tvalue_word p v : tvalue p v → 0 ≤ v → word_of p v = v.
Proof.
  intros Hv H0. apply word_of_small. pose proof (pbits_pos p). pose proof (pow_double (pbits p) ltac:(lia)). unfold tvalue in Hv.
  pose proof (trange_cases p). lia.
Qed.

Lemma bit_width_small u k : 0 ≤ k → 0 ≤ u < 2 ^ k → bit_width u ≤ k.
Proof. intros Hk [H0 Hu]. by apply bit_width_spec. Qed.

Lemma bit_width_full u k : 1 ≤ k → 2 ^ (k - 1) ≤ u < 2 ^ k → bit_width u = k.
Proof.
  intros Hk [H1 H2]. pose proof (Z.pow_pos_nonneg 2 (k - 1)). destruct (bit_width_spec u ltac:(lia)) as (_ & _ & Hw).
  pose proof (proj1 (Hw k ltac:(lia)) H2). destruct (decide (bit_width u ≤ k - 1)) as [Hle|]; [|lia].
  apply Hw in Hle; lia.
Qed.

Lemma u8_width k : 0 ≤ k ≤ 255 → u8 k = k.
Proof. intros Hk. apply Z.mod_small. lia. Qed.

Lemma tvalue_bits p v : tvalue p v → 0 ≤ v → bit_width v ≤ pbits p.
Proof.
  intros Hv H0. apply bit_width_small; [pose proof (pbits_pos p); lia|]. rewrite <-(tvalue_word p v) by done.
  apply Z.mod_pos_bound, Z.pow_pos_nonneg; [done|]. pose proof (pbits_pos p). lia.
Qed.

(** The width of [(U)(a - b)]. *)
Lemma sub_width p a b : tvalue p a → tvalue p b → (p = Int128 → - 2 ^ 127 < a - b < 2 ^ 127) →
  ∃ d, sub_U p a b = Ret d ∧ bitWidth_U p d = bit_width (word_of p (a - b)).
Proof.
  intros Ha Hb Hr. destruct (sub_U_spec p a b) as (u & -> & Hu & Hm); [done..|]. exists u. split; [done|].
  by rewrite bitWidth_U_spec, <-Hm by done.
Qed.

Lemma to_U_width p v : tvalue p v → bitWidth_U p (to_U p v) = bit_width (word_of p v).
Proof. intros Hv. rewrite bitWidth_U_spec by by apply wrange_U. unfold word_of at 1. by rewrite to_U_mod. Qed.

Lemma sub_up p mn mx : packable p mn mx → 0 < mn → ∃ d, sub_U p mx mn = Ret d ∧ bitWidth_U p d = bit_width (mx - mn).
Proof.
  intros (Hn & Hx & Hle & Hs) H0. destruct (sub_width p mx mn) as (d & -> & Hd); [done..| |].
  - intros ->. unfold tvalue in *. cbn in *. lia.
  - exists d. split; [done|]. rewrite Hd. f_equal. apply tvalue_word; [|lia]. unfold tvalue in *. pose proof (trange_cases p). lia.
Qed.

(** The width of the difference is less than that of a negative maximum only if it is zero. *)
Lemma sub_down p mn mx : packable p mn mx → mx < 0 →
  ∃ d, sub_U p mn mx = Ret d ∧ bitWidth_U p (to_U p mx) = pbits p ∧ bitWidth_U p d = (if decide (mn = mx) then 0 else pbits p).
Proof.
  intros (Hn & Hx & Hle & Hs) H0. pose proof (pbits_pos p) as Hb. pose proof (pow_double (pbits p) ltac:(lia)) as H2.
  assert (tmin p = - 2 ^ (pbits p - 1)) as Hm by (unfold tvalue in *; pose proof (trange_cases p); lia).
  destruct (sub_width p mn mx) as (d & -> & Hd); [done..| |].
  - intros ->. unfold tvalue in *. cbn in *. lia.
  - exists d. unfold tvalue in *. rewrite to_U_width by done. rewrite word_of_negative by lia. split; [done|]. split; [apply bit_width_full; lia|]. rewrite Hd.
    case_decide as E; [subst; by rewrite Z.sub_diag|]. rewrite word_of_negative by lia. apply bit_width_full; lia.
Qed.

Lemma abs_width p mn mx : packable p mn mx → mn < 0 →
  bit_width (Z.max (Z.abs mn) (Z.abs mx)) + 1 ≤ pbits p ∧ tvalue p (Z.max (Z.abs mn) (Z.abs mx)).
Proof.
  intros (Hn & Hx & Hle & Hs) H0. pose proof (pbits_pos p) as Hb. unfold tvalue in *. pose proof (trange_cases p).
  split; [|lia]. pose proof (bit_width_small (Z.max (Z.abs mn) (Z.abs mx)) (pbits p - 1) ltac:(lia) ltac:(lia)). lia.
Qed.

Ltac decs := repeat (case_decide; [try (exfalso; lia)|try (exfalso; lia)]; [idtac]).

Lemma packing_info_positive p mn mx : packable p mn mx → 0 < mn → packing_info p mn mx = Ret (info_of mn mx).
Proof.
  intros Hp H0. pose proof Hp as (Hn & Hx & Hle & Hs). pose proof (pbits_pos p) as Hb. unfold packing_info, info_of.
  pose proof (tvalue_bits p mx Hx ltac:(lia)). destruct (bit_width_spec mx ltac:(lia)) as [Hw0 _], (bit_width_spec (mx - mn) ltac:(lia)) as [Hw1 _].
  rewrite (decide_True (P := 0 < mn ∧ 0 < mx)) by lia. destruct (sub_up p mn mx) as (d & -> & Hd); [done..|]. cbn.
  rewrite Hd, to_U_width, tvalue_word by (done || lia). destruct (Z.ltb_spec (bit_width (mx - mn)) (bit_width mx)) as [Hlt|Hge].
  - decs. by rewrite u8_width by lia.
  - decs. cbn. rewrite (abs_T_spec p mn), (abs_T_spec p mx) by (done || lia). cbn.
    rewrite (Z.abs_eq mn), (Z.abs_eq mx), Z.max_r, to_U_width, tvalue_word by (done || lia). by rewrite u8_width by lia.
Qed.

Lemma packing_info_negative p mn mx : packable p mn mx → mn < 0 → packing_info p mn mx = Ret (info_of mn mx).
Proof.
  intros Hp H0. pose proof Hp as (Hn & Hx & Hle & Hs). pose proof (pbits_pos p) as Hb. unfold packing_info, info_of.
  destruct (abs_width p mn mx) as [Hw Ht]; [done..|]. destruct (bit_width_spec (Z.max (Z.abs mn) (Z.abs mx)) ltac:(lia)) as [Hw0 _].
  rewrite !(decide_False (P := 0 < mn ∧ _)) by lia. cbn. destruct (decide (mn < 0 ∧ mx < 0)) as [Hx0|Hx0].
  - destruct (sub_down p mn mx) as (d & -> & -> & Hd); [done|lia|]. cbn. rewrite Hd. destruct (decide (mn = mx)) as [E|E].
    + rewrite (proj2 (Z.ltb_lt 0 (pbits p))) by lia. cbn. decs. by rewrite to_T_U.
    + rewrite Z.ltb_irrefl. cbn. decs. rewrite (abs_T_spec p mn), (abs_T_spec p mx) by (done || lia). cbn.
      rewrite to_U_width, tvalue_word by (done || lia). by rewrite (u8_width (bit_width _)), u8_width by lia.
  - decs. cbn. rewrite (abs_T_spec p mn), (abs_T_spec p mx) by (done || lia). cbn.
    rewrite to_U_width, tvalue_word by (done || lia). by rewrite (u8_width (bit_width _)), u8_width by lia.
Qed.

(** [getPackingInfo] returns what it chooses. *)
Lemma packing_info_spec p mn mx : packable p mn mx → packing_info p mn mx = Ret (info_of mn mx).
Proof.
  intros Hp. destruct (decide (0 < mn)); [by apply packing_info_positive|]. destruct (decide (mn < 0)); [by apply packing_info_negative|].
  assert (mn = 0) as -> by lia. pose proof Hp as (Hn & Hx & Hle & Hs). unfold packing_info, info_of. decs. cbn.
  pose proof (tvalue_bits p mx Hx ltac:(lia)). destruct (bit_width_spec mx ltac:(lia)) as [Hw0 _]. pose proof (pbits_pos p).
  rewrite (abs_T_spec p 0), (abs_T_spec p mx) by (done || lia). cbn.
  rewrite (Z.abs_eq mx), Z.max_r, to_U_width, tvalue_word by (done || lia). by rewrite u8_width by lia.
Qed.

(** ** Values of the interval are decoded to what was encoded *)

Lemma lxor_sign u w : 1 ≤ w → 0 ≤ u < 2 ^ w →
  Z.lxor u (2 ^ (w - 1)) - 2 ^ (w - 1) = (if decide (u < 2 ^ (w - 1)) then u else u - 2 ^ w) ∧ 0 ≤ Z.lxor u (2 ^ (w - 1)) < 2 ^ w.
Proof.
  intros Hw Hu. pose proof (pow_double w Hw) as H2. assert (∀ r, 0 ≤ r < 2 ^ (w - 1) → Z.lxor r (2 ^ (w - 1)) = r + 2 ^ (w - 1)) as Hr.
  { intros r Hr. symmetry. apply Z.add_nocarry_lxor. apply Z.bits_inj'. intros n Hn. rewrite Z.land_spec, Z.bits_0, Z.pow2_bits_eqb by lia.
    destruct (Z.eqb_spec (w - 1) n) as [<-|]; [|apply andb_false_r]. rewrite andb_true_r.
    rewrite <-(Z.mod_small r (2 ^ (w - 1))) by done. apply Z.mod_pow2_bits_high; lia. }
  case_decide as Hd; [rewrite Hr by lia; lia|]. pose proof (Hr (u - 2 ^ (w - 1)) ltac:(lia)) as He.
  rewrite Z.sub_add in He. assert (Z.lxor u (2 ^ (w - 1)) = u - 2 ^ (w - 1)) as ->; [|lia].
  rewrite <-He at 1. by rewrite Z.lxor_assoc, Z.lxor_nilpotent, Z.lxor_0_r.
Qed.

Lemma wmax_pbits p w : w < pbits p → w ≤ wmax (pword p).
Proof. unfold wmax, pbits. case_decide; lia. Qed.

Lemma SignExtend_spec p u w : tmin p = - 2 ^ (pbits p - 1) → 1 ≤ w < pbits p → 0 ≤ u < 2 ^ w →
  SignExtend p u w = Ret (if decide (u < 2 ^ (w - 1)) then u else u - 2 ^ w).
Proof.
  intros Hs Hw Hu. unfold SignExtend. rewrite decide_True by lia. rewrite wl_mask by (split; [lia|apply wmax_pbits; lia]). cbn [checked mbind Res_bind].
  destruct (lxor_sign u w) as [<- Hx]; [lia..|]. pose proof (pow_double w ltac:(lia)) as H2.
  assert (2 ^ w ≤ 2 ^ (pbits p - 1)) as Hp by (apply Z.pow_le_mono_r; lia).
  assert (∀ a, - 2 ^ w ≤ a < 2 ^ w → tmin p ≤ a ≤ tmax p) as Ht by (intros a Ha; pose proof (trange_cases p); lia).
  assert (Z.land u (Z.ones w) = u) as Hl by (rewrite Z.land_ones by lia; by apply Z.mod_small).
  destruct p as [t|]; cbn [tmin tmax] in Ht.
  - rewrite (static_cast_id t u), Hl, (static_cast_id t u), (static_cast_id t (2 ^ (w - 1))) by (apply Ht; lia).
    f_equal. apply static_cast_id, Ht. lia.
  - change (pbits Int128 - 1) with 127 in *. change (pbits Int128) with 128 in Hw. destruct (of_Z_val u) as [Hwu Hvu]; [lia|]. destruct (of_Z_val (Z.ones w)) as [Hwo Hvo]; [rewrite Z.ones_equiv; lia|].
    destruct (LeftShift_spec (tryCastToTemplate 1) (w - 1)) as [Hwm Hvm]; [by vm_compute|lia|].
    rewrite (wrap128_unique _ (2 ^ (w - 1)) 0) in Hvm by (change (val (tryCastToTemplate 1)) with 1; lia).
    destruct (bit_op_spec BIT_AND _ _ Hwu Hwo) as [Hwa Hva]. rewrite Hvu, Hvo, Hl in Hva.
    destruct (bit_op_spec BIT_XOR _ _ Hwa Hwm) as [Hwx Hvx]. rewrite Hva, Hvm in Hvx. cbn [bit_op] in *.
    apply value_of_returns. rewrite <-Hvx, <-Hvm at 1. apply Sub_spec; [done|done|]. rewrite Hvx, Hvm. lia.
Qed.

(** The sign of a number of [w] bits. *)
Lemma sign_of_mod x w : 1 ≤ w → - 2 ^ (w - 1) ≤ x < 2 ^ (w - 1) →
  (if decide (x `mod` 2 ^ w < 2 ^ (w - 1)) then x `mod` 2 ^ w else x `mod` 2 ^ w - 2 ^ w) = x.
Proof.
  intros Hw Hx. pose proof (pow_double w Hw). destruct (decide (0 ≤ x)).
  - rewrite Z.mod_small by lia. rewrite decide_True by lia. done.
  - assert (x `mod` 2 ^ w = x + 2 ^ w) as -> by (symmetry; apply Z.mod_unique_pos with (-1); lia). rewrite decide_False by lia. lia.
Qed.

(** Adding the offset. *)
Lemma decode_offset p info x : tvalue p x → tvalue p (offset info) → tvalue p (x + offset info) →
  (if decide (offset info ≠ 0) then add_T p x (offset info) else Ret x) = Ret (x + offset info).
Proof. intros Hx Ho Hxo. case_decide as H0; [by apply add_T_spec|]. f_equal. lia. Qed.

Lemma decode_signed p info x : hasNegative info = true → tmin p = - 2 ^ (pbits p - 1) → 1 ≤ bitWidth info < pbits p →
  - 2 ^ (bitWidth info - 1) ≤ x < 2 ^ (bitWidth info - 1) → tvalue p (offset info) → tvalue p (x + offset info) →
  decode p info (x `mod` 2 ^ bitWidth info) = Ret (x + offset info).
Proof.
  intros Hn Hs Hw Hx Ho Hxo. unfold decode. rewrite Hn, bool_decide_true by lia. cbn [andb]. rewrite SignExtend_spec; [|done|lia|apply Z.mod_pos_bound; lia].
  rewrite sign_of_mod by lia. cbn [mbind Res_bind]. apply decode_offset; [|done|done]. unfold tvalue.
  assert (2 ^ (bitWidth info - 1) ≤ 2 ^ (pbits p - 1)) by (apply Z.pow_le_mono_r; lia). pose proof (trange_cases p). lia.
Qed.

Lemma decode_unsigned p info x : hasNegative info = false → 0 ≤ x < 2 ^ bitWidth info → bitWidth info ≤ pbits p →
  tvalue p x → tvalue p (offset info) → tvalue p (x + offset info) → decode p info (x `mod` 2 ^ bitWidth info) = Ret (x + offset info).
Proof.
  intros Hn Hx Hw Ht Ho Hxo. unfold decode. rewrite Hn. cbn [andb mbind Res_bind]. rewrite (Z.mod_small x) by done.
  rewrite to_T_id by done. by apply decode_offset.
Qed.

(** A value that packing and unpacking keep. *)
Definition packs (p : PackedType) (info : BitpackInfo) (v : Z) : Prop :=
  ∃ u, sub_U p v (offset info) = Ret u ∧ wrange (pword p) u ∧ decode p info (u `mod` 2 ^ bitWidth info) = Ret v.

Lemma mod_pow_pbits p u w : 0 ≤ w ≤ pbits p → u `mod` 2 ^ w = (u `mod` 2 ^ pbits p) `mod` 2 ^ w.
Proof. intros Hw. symmetry. apply Z.mod_mod_divide. exists (2 ^ (pbits p - w)). rewrite <-Z.pow_add_r by lia. f_equal. lia. Qed.

Lemma packs_intro p info v : 0 ≤ bitWidth info ≤ pbits p → tvalue p v → tvalue p (offset info) →
  (p = Int128 → - 2 ^ 127 < v - offset info < 2 ^ 127) → decode p info ((v - offset info) `mod` 2 ^ bitWidth info) = Ret v → packs p info v.
Proof.
  intros Hw Hv Ho Hr Hd. destruct (sub_U_spec p v (offset info)) as (u & Hu & Hwr & Hm); [done..|]. exists u. split; [done|]. split; [done|].
  rewrite (mod_pow_pbits p), Hm, <-Hd by done. f_equal. unfold word_of. symmetry. by apply mod_pow_pbits.
Qed.

Lemma info_of_width p mn mx : packable p mn mx → 0 ≤ bitWidth (info_of mn mx) ≤ pbits p ∧ tvalue p (offset (info_of mn mx)).
Proof.
  intros Hp. pose proof Hp as (Hn & Hx & Hle & Hs). pose proof (pbits_pos p). unfold info_of.
  assert (tvalue p 0) as H0 by (unfold tvalue in *; pose proof (trange_cases p); pose proof (Z.pow_pos_nonneg 2 (pbits p - 1)); lia).
  repeat case_decide; cbn.
  - split; [|done]. destruct (bit_width_spec (mx - mn) ltac:(lia)). pose proof (tvalue_bits p mx Hx ltac:(lia)). lia.
  - split; [lia|done].
  - split; [|done]. destruct (bit_width_spec (Z.max (Z.abs mn) (Z.abs mx)) ltac:(lia)). destruct (abs_width p mn mx); [done|lia|]. lia.
  - split; [|done]. destruct (bit_width_spec mx ltac:(lia)). pose proof (tvalue_bits p mx Hx ltac:(lia)). lia.
Qed.

(** The width of an interval is enough for its values. *)
Lemma info_of_packs p mn mx v : packable p mn mx → bitWidth (info_of mn mx) < pbits p → mn ≤ v ≤ mx → packs p (info_of mn mx) v.
Proof.
  intros Hp Hlt Hv. pose proof Hp as (Hn & Hx & Hle & Hs). pose proof (pbits_pos p) as Hb. destruct (info_of_width p mn mx Hp) as [Hw Ho].
  assert (tvalue p v) as Hvt by (unfold tvalue in *; lia). pose proof (trange_cases p) as Hc.
  assert (∀ x, 0 ≤ x ≤ mx → tvalue p x) as Hpos by (intros x Hx'; unfold tvalue in *; pose proof (Z.pow_pos_nonneg 2 (pbits p - 1)); lia).
  assert (mn < 0 → tmin p = - 2 ^ (pbits p - 1)) as Hneg by (unfold tvalue in *; lia).
  apply packs_intro; [done..| |]; unfold info_of in *; repeat case_decide; cbn [bitWidth hasNegative offset] in *.
  1-4: intros ->; unfold tvalue in *; cbn in *; lia.
  - replace v with (v - mn + mn) at 2 by lia. destruct (bit_width_spec (mx - mn) ltac:(lia)) as (_ & Hw' & _).
    apply (decode_unsigned p (mkInfo _ false mn)); cbn; [done|lia|lia|apply Hpos; lia|done|by rewrite Z.sub_add].
  - replace v with (v - mx + mx) at 2 by lia. apply (decode_signed p (mkInfo 1 true mx)); cbn; [done|apply Hneg; lia|lia|lia|done|by rewrite Z.sub_add].
  - replace v with (v - 0 + 0) at 2 by lia. destruct (bit_width_spec (Z.max (Z.abs mn) (Z.abs mx)) ltac:(lia)) as (Hw0 & Hw' & _).
    apply (decode_signed p (mkInfo _ true 0)); cbn; [done|apply Hneg; lia|lia|rewrite Z.add_simpl_r; lia|done|by rewrite Z.sub_add].
  - replace v with (v - 0 + 0) at 2 by lia. destruct (bit_width_spec mx ltac:(lia)) as (_ & Hw' & _).
    apply (decode_unsigned p (mkInfo _ false 0)); cbn; [done|lia|lia|apply Hpos; lia|done|by rewrite Z.sub_add].
Qed.

(** ** Lists of values *)

Lemma rmap_app {A B} (f : A → Res B) l1 l2 bs1 bs2 : rmap f l1 = Ret bs1 → rmap f l2 = Ret bs2 → rmap f (l1 ++ l2) = Ret (bs1 ++ bs2).
Proof.
  revert bs1. induction l1 as [|a l1 IH]; intros bs1 H1 H2; cbn in *; [by simplify_eq|]. destruct (f a) as [b|]; [|done]. cbn in *.
  destruct (rmap f l1) as [bs|]; [|done]. cbn in *. simplify_eq. by rewrite (IH bs).
Qed.

Lemma rfold_app {A B} (f : B → A → Res B) b l1 l2 : rfold f b (l1 ++ l2) = (b ← rfold f b l1; rfold f b l2).
Proof. revert b. induction l1 as [|a l1 IH]; intros b; [done|]. cbn. destruct (f b a); [apply IH|done]. Qed.

Lemma rmap_Forall2 {A B} (f : A → Res B) l bs : Forall2 (λ a b, f a = Ret b) l bs → rmap f l = Ret bs.
Proof. induction 1 as [|a b l bs Hab _ IH]; [done|]. cbn. by rewrite Hab, IH. Qed.

Lemma rmap_inv {A B} (f : A → Res B) l bs : rmap f l = Ret bs → Forall2 (λ a b, f a = Ret b) l bs.
Proof.
  revert bs. induction l as [|a l IH]; intros bs H; cbn in H; [simplify_eq; constructor|]. destruct (f a) as [b|] eqn:E; [|done]. cbn in H.
  destruct (rmap f l) as [bs'|]; [|done]. cbn in H. simplify_eq. constructor; [done|by apply IH].
Qed.

(** The array with [vs] from the index [i] on. *)
Definition put {A} (l : list A) (i : nat) (vs : list A) : list A := take i l ++ vs ++ drop (i + length vs) l.

Lemma put_length {A} (l : list A) i vs : (i + length vs ≤ length l)%nat → length (put l i vs) = length l.
Proof. intros H. unfold put. rewrite !length_app, length_take, length_drop. lia. Qed.

Lemma put_nil {A} (l : list A) i : put l i [] = l.
Proof. unfold put. cbn. rewrite Nat.add_0_r. apply take_drop. Qed.

Lemma put_app {A} (l : list A) i vs ws : (i + length vs ≤ length l)%nat → put (put l i vs) (i + length vs) ws = put l i (vs ++ ws).
Proof.
  intros H. unfold put. assert (length (take i l) = i) as Hi by (rewrite length_take; lia).
  rewrite (app_assoc (take i l) vs), take_app_length' by (rewrite length_app; lia).
  rewrite (drop_app_ge (take i l ++ vs)) by (rewrite length_app; lia). rewrite drop_drop, <-!app_assoc. do 4 f_equal.
  rewrite !length_app. lia.
Qed.

Lemma write_values_put dst i vs : (i + length vs ≤ length dst)%nat → write_values dst i vs = Ret (put dst i vs).
Proof. intros H. unfold write_values. by rewrite decide_True. Qed.

(** ** Reading a bit packed page *)

(** From the value [k] on, the page holds the values [vs]. *)
Definition holds (p : PackedType) (info : BitpackInfo) (page : list Z) (k : nat) (vs : list Z) : Prop :=
  ∀ i v, vs !! i = Some v → decode p info (bits_at page (Z.of_nat (k + i) * bitWidth info) (bitWidth info)) = Ret v.

Lemma holds_unpacked p info page k vs : holds p info page k vs →
  rmap (decode p info) (unpacked page (Z.of_nat k * bitWidth info) (bitWidth info) (length vs)) = Ret vs.
Proof.
  intros H. apply rmap_Forall2, Forall2_same_length_lookup_2; [apply unpacked_length|]. intros i u v Hu Hv.
  rewrite <-(H i v Hv). unfold unpacked in Hu. apply list_lookup_fmap_Some in Hu as (j & -> & Hj).
  apply lookup_seq in Hj as [-> _]. do 2 f_equal. lia.
Qed.

Lemma holds_drop p info page k vs m : holds p info page k vs → holds p info page (k + m) (drop m vs).
Proof. intros H i v Hi. rewrite lookup_drop in Hi. rewrite <-(H _ _ Hi). do 3 f_equal. lia. Qed.

Lemma holds_take p info page k vs m : holds p info page k vs → holds p info page k (take m vs).
Proof. intros H i v Hi. apply lookup_take_Some in Hi as [Hi _]. by apply H. Qed.

Section Holding.
Context (p : PackedType) (info : BitpackInfo).
Abbreviation w := (bitWidth info).
Context (Hw0 : 0 < w).

(** What is packed is what the page holds. *)
Lemma wrote_holds page d vs us page' : wrote page (Z.of_nat d * w) w us page' → Forall2 (λ v u, decode p info (u `mod` 2 ^ w) = Ret v) vs us →
  holds p info page' d vs.
Proof using Hw0.
  intros Hwr Hd i v Hi. destruct (Forall2_lookup_l _ _ _ _ _ Hd Hi) as (u & Hu & <-).
  rewrite <-(wrote_bits_at page (Z.of_nat d * w) w us page' i u) by (done || nia). do 2 f_equal. lia.
Qed.

(** The values beside it stay. *)
Lemma wrote_holds_other page d us page' k vs : wrote page (Z.of_nat d * w) w us page' → holds p info page k vs →
  (k + length vs ≤ d ∨ d + length us ≤ k)%nat → holds p info page' k vs.
Proof using Hw0.
  intros Hwr Hh Hk i v Hi. pose proof (lookup_lt_Some _ _ _ Hi) as Hlt. rewrite <-(Hh i v Hi). f_equal.
  eapply wrote_other; [lia|lia|done|]. destruct Hk; [left|right]; nia.
Qed.

Lemma holds_app page k vs ws : holds p info page k vs → holds p info page (k + length vs) ws → holds p info page k (vs ++ ws).
Proof using Type.
  intros H1 H2 i v Hi. apply lookup_app_Some in Hi as [Hi|[Hge Hi]]; [by apply H1|]. rewrite <-(H2 _ _ Hi). do 3 f_equal. lia.
Qed.

(** An update of a part of the values. *)
Lemma wrote_put page d vs us page' old : wrote page (Z.of_nat d * w) w us page' → Forall2 (λ v u, decode p info (u `mod` 2 ^ w) = Ret v) vs us →
  holds p info page 0 old → (d + length vs ≤ length old)%nat → holds p info page' 0 (put old d vs).
Proof using Hw0.
  intros Hwr Hd Ho Hl. pose proof (Forall2_length _ _ _ Hd) as Hlen. assert (length (take d old) = d) as Ht by (rewrite length_take; lia).
  unfold put. apply holds_app; [|apply holds_app].
  - eapply wrote_holds_other; [done|by apply holds_take|lia].
  - rewrite Ht. by eapply wrote_holds.
  - rewrite Ht. eapply wrote_holds_other; [done|by apply (holds_drop _ _ _ 0)|lia].
Qed.
End Holding.

(** Pages are made of whole 32 bit fields. *)
Record page_ok (page : list Z) : Prop := { pg_bytes : Forall byte page; pg_words : (Z.of_nat (length page)) `mod` 4 = 0 }.

Section Pages.
Context (p : PackedType) (info : BitpackInfo).
Abbreviation w := (bitWidth info).
Context (Hw : 0 < w < pbits p).

Lemma width_max : w ≤ wmax (pword p).
Proof using Hw. apply wmax_pbits. lia. Qed.

(** A value that is in the page is in its fields. *)
Lemma page_fields page src i : page_ok page → src `mod` 4 = 0 → 0 ≤ src → 0 ≤ i → 8 * src + (i + 1) * w ≤ 8 * Z.of_nat (length page) →
  in_buffer page src (fields (pword p) (i * w + Z.max 1 w)).
Proof using Hw.
  intros [_ Hl] Hs Hs0 Hi Hin. unfold fields. assert (0 ≤ i * w) by nia. replace (i * w + Z.max 1 w) with (i * w + w) by lia.
  assert (8 * src + (i * w + w) ≤ 8 * Z.of_nat (length page)) as Hin' by lia. set (q := i * w) in *.
  destruct Hw as [Hw0 Hw1]. clear Hin Hw.
  destruct (cbits_cases (pword p)) as [(-> & -> & _)|(-> & -> & _)]; split_and!; dlia.
Qed.

Lemma packed_chunk_start c : 0 ≤ c → 8 * (4 * w * c) = Z.of_nat 32 * c * w ∧ (4 * w * c) `mod` 4 = 0 ∧ 0 ≤ 4 * w * c.
Proof using Hw. intros Hc. split; [lia|]. split; [|nia]. rewrite <-Z.mul_assoc, Z.mul_comm. apply Z.mod_mul. lia. Qed.

Lemma getValues_spec page c pos vs : page_ok page → (pos + length vs ≤ 32)%nat →
  (Z.of_nat (32 * c + pos + length vs)) * w ≤ 8 * Z.of_nat (length page) →
  holds p info page (32 * c + pos) vs → getValues p page (4 * w * Z.of_nat c) pos (length vs) info = Ret vs.
Proof using Hw.
  intros Hp Hn Hl Hh. unfold getValues. rewrite decide_True by (unfold CHUNK_SIZE; lia). destruct (packed_chunk_start (Z.of_nat c)) as (Hc1 & Hc2 & Hc3); [lia|].
  apply rmap_Forall2, Forall2_same_length_lookup_2; [apply length_seq|]. intros i j v Hj Hv. apply lookup_seq in Hj as [-> Hi].
  rewrite (unpackSingle_spec (pword p)); [|apply Hp|split; [lia|apply width_max]|lia|apply page_fields; [done|done|done|lia|nia]].
  cbn [checked mbind Res_bind]. rewrite <-(Hh i v Hv). do 2 f_equal. lia.
Qed.

Lemma unpack_chunks_spec fuel page c dst i vs : page_ok page → (Z.of_nat (32 * c + length vs)) * w ≤ 8 * Z.of_nat (length page) →
  holds p info page (32 * c) vs → (i + length vs ≤ length dst)%nat → (length vs ≤ fuel)%nat →
  let m := (length vs / 32)%nat in
  unpack_chunks fuel p page (4 * w * Z.of_nat c) dst i (i + length vs) info =
    Ret (put dst i (take (32 * m) vs), 4 * w * Z.of_nat (c + m), (i + 32 * m)%nat).
Proof using Hw.
  revert c dst i vs. induction fuel as [|fuel IH]; intros c dst i vs Hp Hl Hh Hd Hf; cbv zeta.
  { assert (length vs = 0)%nat as E by lia. cbn [unpack_chunks]. rewrite decide_False by (unfold CHUNK_SIZE; lia). 
    rewrite Nat.div_small, Nat.mul_0_r, take_0, put_nil, !Nat.add_0_r by lia. done. }
  cbn [unpack_chunks]. case_decide as Hc; unfold CHUNK_SIZE in *.
  - destruct (packed_chunk_start (Z.of_nat c)) as (Hc1 & Hc2 & Hc3); [lia|].
    assert (length (take 32 vs) = 32%nat) as Ht by (rewrite length_take; lia).
    rewrite (fastunpack_spec (pword p)); [|split; [lia|apply width_max]|apply Hp|split_and!; [done|lia|nia]]. cbn [checked mbind Res_bind].
    replace (8 * (4 * w * Z.of_nat c)) with (Z.of_nat (32 * c) * w) by lia.
    pose proof (holds_unpacked _ _ _ _ _ (holds_take _ _ _ _ _ 32 Hh)) as Hu. rewrite Ht in Hu. rewrite Hu. cbn [mbind Res_bind].
    rewrite write_values_put by lia. cbn [mbind Res_bind]. change (Z.of_nat 32 / 8) with 4.
    replace (4 * w * Z.of_nat c + 4 * w) with (4 * w * Z.of_nat (S c)) by lia.
    replace (i + length vs)%nat with ((i + 32) + length (drop 32 vs))%nat by (rewrite length_drop; lia).
    rewrite IH; [|done|by replace (32 * S c + length (drop 32 vs))%nat with (32 * c + length vs)%nat by (rewrite length_drop; lia)| |
      rewrite put_length, length_drop by lia; lia|rewrite length_drop; lia].
    + rewrite length_drop. replace (length vs / 32)%nat with (S ((length vs - 32) / 32)).
      2: { replace (length vs) with (1 * 32 + (length vs - 32))%nat at 2 by lia. rewrite Nat.div_add_l by lia. done. }
      set (m := ((length vs - 32) / 32)%nat). replace (i + 32)%nat with (i + length (take 32 vs))%nat at 1 by lia. rewrite put_app by lia.
      replace (take 32 vs ++ take (32 * m) (drop 32 vs)) with (take (32 * S m) vs).
      { replace (i + 32 + 32 * m)%nat with (i + 32 * S m)%nat by lia. by replace (S c + m)%nat with (c + S m)%nat by lia. }
      rewrite <-(take_drop 32 vs) at 1. rewrite take_app, take_ge, Ht by lia. do 2 f_equal. lia.
    + replace (32 * S c)%nat with (32 * c + 32)%nat by lia. by apply holds_drop.
  - rewrite Nat.div_small, Nat.mul_0_r, take_0, put_nil, !Nat.add_0_r by lia. done.
Qed.

(** The whole chunks, and what is left of the last one. *)
Lemma decompress_rest fuel page c dst i vs : page_ok page → (Z.of_nat (32 * c + length vs)) * w ≤ 8 * Z.of_nat (length page) →
  holds p info page (32 * c) vs → (i + length vs ≤ length dst)%nat → (length vs ≤ fuel)%nat →
  ('(dst, srcCursor, dstIndex) ← unpack_chunks fuel p page (4 * w * Z.of_nat c) dst i (i + length vs) info;
   if decide (dstIndex < i + length vs)%nat then
     vs ← getValues p page srcCursor 0 (i + length vs - dstIndex) info; write_values dst dstIndex vs
   else Ret dst) = Ret (put dst i vs).
Proof using Hw.
  intros Hp Hl Hh Hd Hf. rewrite unpack_chunks_spec by done. cbn [mbind Res_bind]. set (m := (length vs / 32)%nat).
  assert (32 * m ≤ length vs < 32 * m + 32)%nat as Hm by (pose proof (Nat.div_mod_eq (length vs) 32); pose proof (Nat.mod_upper_bound (length vs) 32); lia).
  case_decide as Hlt.
  - replace (i + length vs - (i + 32 * m))%nat with (length (drop (32 * m) vs)) by (rewrite length_drop; lia).
    rewrite getValues_spec; [|done|rewrite length_drop; lia| |].
    + cbn [mbind Res_bind]. replace (i + 32 * m)%nat with (i + length (take (32 * m) vs))%nat by (rewrite length_take; lia).
      rewrite write_values_put by (rewrite put_length, length_take, length_drop by (rewrite length_take; lia); lia).
      rewrite put_app by (rewrite length_take; lia). by rewrite take_drop.
    + rewrite length_drop. by replace (32 * (c + m) + 0 + (length vs - 32 * m))%nat with (32 * c + length vs)%nat by lia.
    + replace (32 * (c + m) + 0)%nat with (32 * c + 32 * m)%nat by lia. by apply holds_drop.
  - by rewrite take_ge by lia.
Qed.

Lemma decompressFromPage_spec page k dst i vs meta : getPackingInfo p meta = Ret info → page_ok page →
  Z.of_nat (k + length vs) * w ≤ 8 * Z.of_nat (length page) → holds p info page k vs → (i + length vs ≤ length dst)%nat →
  decompressFromPage p page k dst i (length vs) meta = Ret (put dst i vs).
Proof using Hw.
  intros Hm Hp Hl Hh Hd. unfold decompressFromPage. rewrite Hm. cbn [mbind Res_bind]. unfold CHUNK_SIZE. set (c := (k / 32)%nat). set (r := (k `mod` 32)%nat).
  assert (k = 32 * c + r ∧ r < 32)%nat as [Hk Hr] by (split; [apply Nat.div_mod_eq|by apply Nat.mod_upper_bound]).
  replace (Z.of_nat c * w * Z.of_nat 32 / 8) with (4 * w * Z.of_nat c).
  2: { replace (Z.of_nat c * w * Z.of_nat 32) with (4 * w * Z.of_nat c * 8) by lia. by rewrite Z.div_mul. }
  change (Z.of_nat 32 / 8) with 4. set (f := ((32 - r) `min` length vs)%nat).
  destruct (decide (f < 32)%nat) as [Hf|Hf].
  - assert (length (take f vs) = f) as Hlf by (rewrite length_take; lia). rewrite <-Hlf at 1.
    rewrite getValues_spec; [|done|lia|nia|]; [|rewrite <-Hk; by apply holds_take]. cbn [mbind Res_bind].
    rewrite write_values_put by lia. cbn [mbind Res_bind]. case_decide as Hn; [by rewrite take_ge by lia|]. cbn [mbind Res_bind].
    replace (4 * w * Z.of_nat c + 4 * w) with (4 * w * Z.of_nat (S c)) by lia.
    replace (i + length vs)%nat with (i + f + length (drop f vs))%nat by (rewrite length_drop; lia).
    assert (k + f = 32 * S c)%nat as Hkf by lia.
    rewrite decompress_rest; [|done|rewrite length_drop, <-Hkf|rewrite <-Hkf; by apply holds_drop|rewrite put_length, length_drop by lia; lia|rewrite length_drop; lia].
    + rewrite <-Hlf at 2. rewrite put_app by lia. by rewrite take_drop.
    + by replace (k + f + (length vs - f))%nat with (k + length vs)%nat by lia.
  - cbn [mbind Res_bind]. assert (k = 32 * c)%nat as Hkc by lia. apply decompress_rest; [done|by rewrite <-Hkc|by rewrite <-Hkc|done|done].
Qed.

(** ** Writing a bit packed page *)

(** The words [us] that values are packed as. *)
Definition encoded (vs us : list Z) : Prop := Forall2 (λ v u, sub_U p v (offset info) = Ret u ∧ wrange (pword p) u) vs us.

Lemma copyValues_spec src i n us : encoded (take n (drop i src)) us → (i + n ≤ length src)%nat →
  copyValuesToTempChunkWithOffset p src i info n = Ret us.
Proof using Type.
  intros He Hn. unfold copyValuesToTempChunkWithOffset. apply rmap_Forall2, Forall2_same_length_lookup_2.
  { apply Forall2_length in He. rewrite length_take, length_drop in He. rewrite length_seq. lia. }
  intros j x u Hx Hu. apply lookup_seq in Hx as [-> Hj]. cbn. apply Forall2_lookup_r with (i := j) (y := u) in He as (v & Hv & Hsub & _); [|done].
  rewrite lookup_take_lt, lookup_drop in Hv by done. by rewrite Hv.
Qed.

Lemma packPartialChunk_spec us page dst i : page_ok page → Forall (wrange (pword p)) us → dst `mod` 4 = 0 → 0 ≤ dst →
  8 * dst + Z.of_nat (i + length us) * w ≤ 8 * Z.of_nat (length page) →
  ∃ page', packPartialChunk p us page dst i info (length us) = Ret page' ∧ wrote page (8 * dst + Z.of_nat i * w) w us page'.
Proof using Hw.
  intros Hp Hu Hd Hd0 Hl. unfold packPartialChunk.
  destruct (ofold_wrote (λ page k v, packSingle (pword p) v page dst w (Z.of_nat (k + i))) page (8 * dst + Z.of_nat i * w) w us (length us)) as (page' & H1 & H2).
  - apply Hp.
  - nia.
  - lia.
  - done.
  - intros buf k v Hk Hv Hb Hlen. destruct (packSingle_spec (pword p) v buf dst w (Z.of_nat (k + i))) as (buf' & E & Hwr).
    + done.
    + by eapply Forall_lookup_1.
    + split; [lia|apply width_max].
    + lia.
    + apply page_fields; [split; [done|rewrite Hlen; apply Hp]|done|done|lia|]. rewrite Hlen. nia.
    + exists buf'. split; [done|]. by replace (8 * dst + Z.of_nat i * w + Z.of_nat k * w) with (8 * dst + Z.of_nat (k + i) * w) by lia.
  - exists page'. rewrite H1. split; [done|]. by rewrite take_ge in H2.
Qed.

Lemma encoded_wrange vs us : encoded vs us → Forall (wrange (pword p)) us.
Proof using Type. intros H. induction H as [|v u vs us [_ ?] _ IH]; by constructor. Qed.

Lemma encoded_take vs us n : encoded vs us → encoded (take n vs) (take n us).
Proof using Type. apply Forall2_take. Qed.

Lemma encoded_drop vs us n : encoded vs us → encoded (drop n vs) (drop n us).
Proof using Type. apply Forall2_drop. Qed.

Lemma wrote_page_ok page k x us page' : page_ok page → wrote page k x us page' → page_ok page'.
Proof using Type. intros [Hb Hl] [Hb' Hl' _ _]. split; [done|by rewrite Hl']. Qed.

Lemma chunk_position c : Z.of_nat (32 * c) * w / 8 = 4 * w * Z.of_nat c.
Proof using Type. replace (Z.of_nat (32 * c) * w) with (4 * w * Z.of_nat c * 8) by lia. by rewrite Z.div_mul. Qed.

(** A whole chunk. *)
Lemma fastpack_chunk us page c : page_ok page → Forall (wrange (pword p)) us → length us = 32%nat →
  Z.of_nat (32 * c + 32) * w ≤ 8 * Z.of_nat (length page) →
  ∃ page', fastpack (pword p) us page (Z.of_nat (32 * c) * w / 8) w = Some page' ∧ wrote page (Z.of_nat (32 * c) * w) w us page'.
Proof using Hw.
  intros Hp Hu Hl Hin. rewrite chunk_position. destruct (packed_chunk_start (Z.of_nat c)) as (Hc1 & Hc2 & Hc3); [lia|].
  replace (Z.of_nat (32 * c) * w) with (8 * (4 * w * Z.of_nat c)) by lia.
  apply fastpack_spec; [apply _|done|done|split; [lia|]|apply Hp|split_and!; [done|lia|nia]]. unfold pbits in Hw. lia.
Qed.

Lemma set_chunks_spec fuel src s page d n c us : page_ok page → (d ≤ 32 * c ≤ d + n)%nat → (s + n ≤ length src)%nat →
  encoded (take (d + n - 32 * c) (drop (s + 32 * c - d) src)) us → Z.of_nat (d + n) * w ≤ 8 * Z.of_nat (length page) → (d + n - 32 * c ≤ fuel)%nat →
  let m := ((d + n - 32 * c) / 32)%nat in
  ∃ page', set_chunks fuel p src s page d n (32 * c) info = Ret (page', (32 * (c + m))%nat) ∧
    wrote page (Z.of_nat (32 * c) * w) w (take (32 * m) us) page'.
Proof using Hw.
  revert page c us. induction fuel as [|fuel IH]; intros page c us Hp Hc Hs He Hl Hf; cbv zeta.
  { cbn [set_chunks]. rewrite decide_False by (unfold CHUNK_SIZE; lia). exists page.
    rewrite Nat.div_small, Nat.add_0_r, Nat.mul_0_r, take_0 by lia. split; [done|]. apply wrote_nil, Hp. }
  cbn [set_chunks]. unfold CHUNK_SIZE. case_decide as Hlt; unfold CHUNK_SIZE in *.
  - assert (length us = d + n - 32 * c)%nat as Hlen by (apply Forall2_length in He; rewrite length_take, length_drop in He; lia).
    rewrite (copyValues_spec src (s + 32 * c - d) 32 (take 32 us)); [|by apply (encoded_take _ _ 32) in He; rewrite take_take, Nat.min_l in He by lia|lia].
    cbn [mbind Res_bind].
    destruct (fastpack_chunk (take 32 us) page c) as (page1 & H1 & W1); [done|by eapply Forall_take, encoded_wrange|rewrite length_take; lia|nia|].
    rewrite H1. cbn [checked mbind Res_bind]. replace (32 * c + 32)%nat with (32 * S c)%nat by lia.
    destruct (IH page1 (S c) (drop 32 us)) as (page2 & H2 & W2).
    + by eapply wrote_page_ok.
    + lia.
    + done.
    + apply (encoded_drop _ _ 32) in He. rewrite skipn_firstn_comm, drop_drop in He.
      replace (s + 32 * S c - d)%nat with (s + 32 * c - d + 32)%nat by lia. by replace (d + n - 32 * S c)%nat with (d + n - 32 * c - 32)%nat by lia.
    + by rewrite (wr_length _ _ _ _ _ W1).
    + lia.
    + exists page2. rewrite H2. clear H1 H2 IH. replace ((d + n - 32 * c) / 32)%nat with (S ((d + n - 32 * S c) / 32)).
      2: { replace (d + n - 32 * c)%nat with (1 * 32 + (d + n - 32 * S c))%nat by lia. by rewrite Nat.div_add_l by lia. }
      set (m := ((d + n - 32 * S c) / 32)%nat) in *. split; [do 2 f_equal; lia|].
      replace (take (32 * S m) us) with (take 32 us ++ take (32 * m) (drop 32 us)) by (rewrite take_take_drop; f_equal; lia).
      apply wrote_app with page1; [nia|lia|done|]. rewrite length_take, Nat.min_l by lia.
      by replace (Z.of_nat (32 * c) * w + Z.of_nat 32 * w) with (Z.of_nat (32 * S c) * w) by lia.
  - exists page. rewrite Nat.div_small, Nat.add_0_r, Nat.mul_0_r, take_0 by lia. split; [done|]. apply wrote_nil, Hp.
Qed.

Lemma setPartial_spec src s page d n us : page_ok page → (s + n ≤ length src)%nat → encoded (take n (drop s src)) us →
  Z.of_nat (d + n) * w ≤ 8 * Z.of_nat (length page) →
  ∃ page', setPartialChunkInPlace p src s page d n info = Ret page' ∧ wrote page (Z.of_nat d * w) w us page'.
Proof using Hw.
  intros Hp Hs He Hl. assert (length us = n) as Hlen by (apply Forall2_length in He; rewrite length_take, length_drop in He; lia).
  unfold setPartialChunkInPlace. rewrite (copyValues_spec src s n us) by done. cbn [mbind Res_bind]. rewrite <-Hlen.
  destruct (packPartialChunk_spec us page 0 d) as (page' & H1 & H2); [done|by eapply encoded_wrange|done|done|lia|]. by exists page'.
Qed.

(** The whole chunks from an aligned position on, and the rest. *)
Lemma set_rest fuel src s page d n c us : page_ok page → (d ≤ 32 * c ≤ d + n)%nat → (s + n ≤ length src)%nat →
  encoded (take (d + n - 32 * c) (drop (s + 32 * c - d) src)) us → Z.of_nat (d + n) * w ≤ 8 * Z.of_nat (length page) → (n ≤ fuel)%nat →
  ∃ page', ('(page, dstIndex) ← set_chunks fuel p src s page d n (32 * c) info;
      let lastChunkIndexOffset := (dstIndex - d)%nat in
      let unalignedValuesToPack := (n - lastChunkIndexOffset)%nat in
      if decide (0 < unalignedValuesToPack)%nat then
        setPartialChunkInPlace p src (s + lastChunkIndexOffset) page (d + lastChunkIndexOffset) unalignedValuesToPack info
      else Ret page) = Ret page' ∧ wrote page (Z.of_nat (32 * c) * w) w us page'.
Proof using Hw.
  intros Hp Hc Hs He Hl Hf. destruct (set_chunks_spec fuel src s page d n c us) as (page1 & H1 & W1); [done..|lia|].
  rewrite H1. cbn [mbind Res_bind]. cbv zeta. set (m := ((d + n - 32 * c) / 32)%nat) in *. clear H1.
  assert (length us = d + n - 32 * c)%nat as Hlen by (apply Forall2_length in He; rewrite length_take, length_drop in He; lia).
  assert (32 * m ≤ length us < 32 * m + 32)%nat as Hm by (rewrite Hlen; pose proof (Nat.div_mod_eq (d + n - 32 * c) 32); pose proof (Nat.mod_upper_bound (d + n - 32 * c) 32); lia).
  case_decide as Hr.
  - destruct (setPartial_spec src (s + (32 * (c + m) - d)) page1 (d + (32 * (c + m) - d)) (n - (32 * (c + m) - d)) (drop (32 * m) us)) as (page2 & H2 & W2).
    + by eapply wrote_page_ok.
    + lia.
    + apply (encoded_drop _ _ (32 * m)) in He. rewrite skipn_firstn_comm, drop_drop in He.
      replace (s + (32 * (c + m) - d))%nat with (s + 32 * c - d + 32 * m)%nat by lia.
      by replace (n - (32 * (c + m) - d))%nat with (d + n - 32 * c - 32 * m)%nat by lia.
    + rewrite (wr_length _ _ _ _ _ W1). by replace (d + (32 * (c + m) - d) + (n - (32 * (c + m) - d)))%nat with (d + n)%nat by lia.
    + exists page2. split; [done|]. rewrite <-(take_drop (32 * m) us). apply wrote_app with page1; [nia|lia|done|].
      rewrite length_take, Nat.min_l by lia. replace (Z.of_nat (32 * c) * w + Z.of_nat (32 * m) * w) with (Z.of_nat (32 * (c + m)) * w) by lia.
      by replace (d + (32 * (c + m) - d))%nat with (32 * (c + m))%nat in W2 by lia.
  - exists page1. split; [done|]. by rewrite take_ge in W1 by lia.
Qed.

Lemma set_chunks_stop fuel src s page d n i : (d + n < i + 32)%nat → set_chunks fuel p src s page d n i info = Ret (page, i).
Proof using Type. intros H. destruct fuel; cbn [set_chunks]; by rewrite decide_False by (unfold CHUNK_SIZE; lia). Qed.

Lemma setValues_spec src s page d n us meta nullMask : getPackingInfo p meta = Ret info → page_ok page → (s + n ≤ length src)%nat →
  encoded (take n (drop s src)) us → Z.of_nat (d + n) * w ≤ 8 * Z.of_nat (length page) →
  rmap (updatable p src meta nullMask) (seq s n) = Ret (replicate n true) →
  ∃ page', setValuesFromUncompressed p src s page d n meta nullMask = Ret page' ∧ wrote page (Z.of_nat d * w) w us page'.
Proof using Hw.
  intros Hm Hp Hs He Hl Hup. unfold setValuesFromUncompressed. rewrite Hm. cbn [mbind Res_bind]. rewrite Hup. cbn [mbind Res_bind].
  assert (∀ k, length (filter (λ b : bool, b) (replicate k true)) = k) as Hfil by 
    (induction k as [|k IH]; [done|]; cbn [replicate]; rewrite filter_cons_True by done; cbn [length]; by rewrite IH).
  rewrite decide_True by (by rewrite Hfil). unfold CHUNK_SIZE. set (r := (d `mod` 32)%nat).
  assert (length us = n) as Hlen by (apply Forall2_length in He; rewrite length_take, length_drop in He; lia).
  pose proof (Nat.div_mod_eq d 32) as Hd. pose proof (Nat.mod_upper_bound d 32 ltac:(done)) as Hr. fold r in Hd, Hr. set (q := (d / 32)%nat) in *.
  set (f := ((32 - r) `min` n)%nat). destruct (decide (f < 32)%nat) as [Hf|Hf].
  - destruct (setPartial_spec src s page d f (take f us)) as (page1 & H1 & W1); [done|lia| |nia|].
    { apply (encoded_take _ _ f) in He. by rewrite take_take, Nat.min_l in He by lia. }
    rewrite H1. cbn [mbind Res_bind]. assert (page_ok page1) as Hp1 by by eapply wrote_page_ok. destruct (decide (f = n)) as [Hfn|Hfn].
    + rewrite set_chunks_stop by lia. cbn [mbind Res_bind]. rewrite decide_False by lia. exists page1. split; [done|]. by rewrite take_ge in W1 by lia.
    + assert (d + f = 32 * S q)%nat as Hq by lia. rewrite Hq.
      destruct (set_rest n src s page1 d n (S q) (drop f us)) as (page2 & H2 & W2); [done|lia|done| |by rewrite (wr_length _ _ _ _ _ W1)|done|].
      { apply (encoded_drop _ _ f) in He. rewrite skipn_firstn_comm, drop_drop in He.
        replace (s + 32 * S q - d)%nat with (s + f)%nat by lia. by replace (d + n - 32 * S q)%nat with (n - f)%nat by lia. }
      exists page2. split; [done|]. rewrite <-(take_drop f us). apply wrote_app with page1; [nia|lia|done|].
      rewrite length_take, Nat.min_l by lia. by replace (Z.of_nat d * w + Z.of_nat f * w) with (Z.of_nat (32 * S q) * w) by lia.
  - cbn [mbind Res_bind]. assert (d = 32 * q)%nat as Hq by lia. replace (set_chunks n p src s page d n d info) with (set_chunks n p src s page d n (32 * q) info) by by rewrite <-Hq.
    destruct (set_rest n src s page d n q us) as (page2 & H2 & W2); [done|lia|done| |done|done|rewrite <-Hq in W2; by exists page2].
    replace (s + 32 * q - d)%nat with s by lia. by replace (d + n - 32 * q)%nat with n by lia.
Qed.

(** The words of values, with the subtraction of the offset left out where it is zero. *)
Lemma words_spec src i n us : (offset info = 0 → Forall (λ v, sub_U p v 0 = Ret (to_U p v)) src) →
  encoded (take n (drop i src)) us → (i + n ≤ length src)%nat →
  (if decide (offset info = 0) then checked (mapM (λ j, to_U p <$> src !! (i + j)%nat) (seq 0 n))
   else copyValuesToTempChunkWithOffset p src i info n) = Ret us.
Proof using Type.
  intros H0 He Hn. case_decide as Ho; [|by apply copyValues_spec]. specialize (H0 Ho).
  assert (mapM (λ j, to_U p <$> src !! (i + j)%nat) (seq 0 n) = Some us) as ->; [|done].
  apply mapM_Some_2, Forall2_same_length_lookup_2.
  { apply Forall2_length in He. rewrite length_take, length_drop in He. rewrite length_seq. lia. }
  intros j x u Hx Hu. apply lookup_seq in Hx as [-> Hj]. cbn.
  apply Forall2_lookup_r with (i := j) (y := u) in He as (v & Hv & Hsub & _); [|done]. rewrite lookup_take_lt, lookup_drop in Hv by done. rewrite Hv. cbn.
  rewrite Forall_lookup in H0. rewrite Ho, (H0 _ _ Hv) in Hsub. congruence.
Qed.

Lemma pack_chunks_spec src page us m : (offset info = 0 → Forall (λ v, sub_U p v 0 = Ret (to_U p v)) src) → encoded src us → page_ok page →
  (32 * m ≤ length src)%nat → Z.of_nat (32 * m) * w ≤ 8 * Z.of_nat (length page) →
  ∃ page', pack_chunks p src page info m = Ret page' ∧ wrote page 0 w (take (32 * m) us) page'.
Proof using Hw.
  intros H0 He Hp. unfold pack_chunks. induction m as [|m IH]; intros Hs Hl.
  { exists page. split; [done|]. apply wrote_nil, Hp. }
  assert (length us = length src) as Hlen by (symmetry; by eapply Forall2_length).
  destruct IH as (page1 & H1 & W1); [lia|nia|]. rewrite seq_S, rfold_app, H1. cbn [mbind Res_bind rfold Nat.add]. unfold CHUNK_SIZE.
  replace (m * 32)%nat with (32 * m)%nat by lia. rewrite (words_spec src (32 * m) 32 (take 32 (drop (32 * m) us))); [|done|by apply encoded_take, encoded_drop|lia].
  cbn [mbind Res_bind].
  destruct (fastpack_chunk (take 32 (drop (32 * m) us)) page1 m) as (page2 & H2 & W2).
  - by eapply wrote_page_ok.
  - by eapply Forall_take, Forall_drop, encoded_wrange.
  - rewrite length_take, length_drop. lia.
  - rewrite (wr_length _ _ _ _ _ W1). nia.
  - rewrite H2. exists page2. split; [done|]. replace (take (32 * S m) us) with (take (32 * m) us ++ take 32 (drop (32 * m) us)).
    + apply wrote_app with page1; [done|lia|done|]. by rewrite length_take, Nat.min_l by lia.
    + rewrite take_take_drop. f_equal. lia.
Qed.

(** The number of values of a page, and the bytes of [n] of them. *)
Lemma numValues_spec (page : list Z) n : 8 * Z.of_nat (length page) < 2 ^ 64 →
  let k := Z.to_nat (Z.min (Z.of_nat n) (numValues_info (Z.of_nat (length page)) info)) in
  k = (n `min` (8 * length page / Z.to_nat w))%nat ∧ Z.of_nat k * w ≤ 8 * Z.of_nat (length page).
Proof using Hw.
  intros Hl. cbv zeta. unfold numValues_info. rewrite decide_False by lia. rewrite u64_id by lia.
  assert (Z.of_nat (length page) * 8 / w = Z.of_nat (8 * length page / Z.to_nat w)) as ->.
  { rewrite Nat2Z.inj_div, Z2Nat.id by lia. f_equal. lia. }
  split; [lia|]. pose proof (Nat.Div0.mul_div_le (8 * length page) (Z.to_nat w)). nia.
Qed.

Lemma compressed_size n : let s := Z.of_nat n * w / 8 + (if decide ((Z.of_nat n * w) `mod` 8 ≠ 0) then 1 else 0) in ∀ L, Z.of_nat n * w ≤ 8 * L → s ≤ L ∧ Z.of_nat n * w ≤ 8 * s.
Proof using Type. cbv zeta. intros L HL. generalize dependent (Z.of_nat n * w). intros z Hz. case_decide; split; dlia. Qed.

Lemma compressNextPage_spec src page us meta : getPackingInfo p meta = Ret info → compression meta = INTEGER_BITPACKING →
  (offset info = 0 → Forall (λ v, sub_U p v 0 = Ret (to_U p v)) src) → encoded src us → page_ok page →
  32 ≤ Z.of_nat (length page) → 8 * Z.of_nat (length page) < 2 ^ 64 →
  let n := (length src `min` (8 * length page / Z.to_nat w))%nat in
  ∃ page' size, compressNextPage p src (length src) page (Z.of_nat (length page)) meta = Ret (page', drop n src, size) ∧
    wrote page 0 w (take n us) page' ∧ Z.of_nat n * w ≤ 8 * size ∧ size ≤ Z.of_nat (length page).
Proof using Hw.
  intros Hm Hc H0 He Hp H32 H64. cbv zeta. unfold compressNextPage. rewrite Hc. rewrite decide_False by done. rewrite decide_True by done.
  rewrite Hm. cbn [mbind Res_bind]. rewrite decide_False by lia. destruct (numValues_spec page (length src) H64) as [Hk Hkw]. rewrite Hk in Hkw |- *.
  set (n := (length src `min` (8 * length page / Z.to_nat w))%nat) in *. destruct (compressed_size n _ Hkw) as [Hs1 Hs2]. rewrite decide_True by (split; [unfold CHUNK_SIZE; lia|done]).
  unfold CHUNK_SIZE. pose proof (Nat.div_mod_eq n 32) as Hd. pose proof (Nat.mod_upper_bound n 32 ltac:(done)) as Hr.
  set (q := (n / 32)%nat) in *. set (r := (n `mod` 32)%nat) in *. assert ((n - r) = 32 * q)%nat as -> by lia. replace (32 * q / 32)%nat with q by (rewrite Nat.mul_comm; by rewrite Nat.div_mul).
  assert (length us = length src) as Hlen by (symmetry; by eapply Forall2_length).
  destruct (pack_chunks_spec src page us q) as (page1 & H1 & W1); [done|done|done|lia|nia|]. rewrite H1. cbn [mbind Res_bind]. destruct (decide (0 < r)%nat) as [Hr0|Hr0].
  - rewrite (words_spec src (32 * q) r (take r (drop (32 * q) us))); [|done|by apply encoded_take, encoded_drop|lia]. cbn [mbind Res_bind].
    rewrite chunk_position. destruct (packed_chunk_start (Z.of_nat q)) as (Hc1 & Hc2 & Hc3); [lia|].
    assert (length (take r (drop (32 * q) us)) = r) as Hlr by (rewrite length_take, length_drop; lia).
    destruct (packPartialChunk_spec (take r (drop (32 * q) us)) page1 (4 * w * Z.of_nat q) 0) as (page2 & H2 & W2).
    + by eapply wrote_page_ok.
    + by eapply Forall_take, Forall_drop, encoded_wrange.
    + done.
    + done.
    + rewrite (wr_length _ _ _ _ _ W1), Hlr. nia.
    + rewrite Hlr in H2. rewrite H2. cbn [mbind Res_bind]. do 2 eexists. split; [done|]. split; [|done].
      replace (take n us) with (take (32 * q) us ++ take r (drop (32 * q) us)) by (rewrite take_take_drop; f_equal; lia).
      apply wrote_app with page1; [done|lia|done|]. rewrite length_take, Nat.min_l by lia.
      by replace (0 + Z.of_nat (32 * q) * w) with (8 * (4 * w * Z.of_nat q) + Z.of_nat 0 * w) by lia.
  - cbn [mbind Res_bind]. do 2 eexists. split; [done|]. split; [|done]. by replace n with (32 * q)%nat by lia.
Qed.

End Pages.

(** ** Updates that keep the packing *)

Lemma bit_width_mono x y : 0 ≤ x ≤ y → bit_width x ≤ bit_width y.
Proof. intros H. destruct (bit_width_spec y ltac:(lia)) as (H0 & H1 & _). apply bit_width_small; lia. Qed.

(** The packing of an interval between two with the same packing. *)
Lemma info_of_between a b a' b' a'' b'' : a' ≤ a'' ≤ a → a ≤ b → b ≤ b'' ≤ b' → info_of a' b' = info_of a b → info_of a'' b'' = info_of a b.
Proof.
  intros Ha Hab Hb. unfold info_of.
  destruct (decide (0 < a ∧ _)) as [H1|H1].
  - assert (bit_width (b - a) ≤ bit_width (b'' - a) ≤ bit_width (b' - a)) by (split; apply bit_width_mono; lia).
    pose proof (bit_width_mono b b''). intros Heq. assert (a' = a) as -> by (repeat case_decide; simplify_eq; lia). assert (a'' = a) as -> by lia.
    repeat case_decide; simplify_eq; f_equal; lia.
  - destruct (decide (b < 0 ∧ a = b)) as [H2|H2]; [repeat case_decide; intros Heq; simplify_eq; f_equal; lia|].
    destruct (decide (a < 0)) as [H3|H3].
    + assert (bit_width (Z.max (Z.abs a) (Z.abs b)) ≤ bit_width (Z.max (Z.abs a'') (Z.abs b'')) ≤ bit_width (Z.max (Z.abs a') (Z.abs b')))
        by (split; apply bit_width_mono; lia).
      generalize dependent (bit_width (Z.max (Z.abs a) (Z.abs b))). generalize dependent (bit_width (Z.max (Z.abs a'') (Z.abs b''))).
      generalize dependent (bit_width (Z.max (Z.abs a') (Z.abs b'))). intros x y z Hxyz.
      repeat case_decide; intros Heq; simplify_eq; f_equal; lia.
    + assert (bit_width b ≤ bit_width b'' ≤ bit_width b') by (split; apply bit_width_mono; lia).
      pose proof (bit_width_mono (b - a) (b'' - a'')). repeat case_decide; intros Heq; simplify_eq; f_equal; lia.
Qed.

(** A value whose absolute value is one too. *)
Definition good (p : PackedType) (v : Z) : Prop := tvalue p v ∧ (tmin p < v ∨ tmin p = 0).

Definition null_at (nullMask : option NullMask) (i : nat) : option bool :=
  match nullMask with Some m => isNullAt m (Z.of_nat i) | None => Some false end.

(** Bounds of the values that are not null, themselves such values. *)
Definition bounded (p : PackedType) (r : option StorageValue * option StorageValue) (v : Z) : Prop :=
  ∃ mn mx, r = (Some mn, Some mx) ∧ storage_get p mn ≤ v ≤ storage_get p mx.

Definition good_bounds (p : PackedType) (r : option StorageValue * option StorageValue) : Prop :=
  r = (None, None) ∨ ∃ mn mx, r = (Some mn, Some mx) ∧ good p (storage_get p mn) ∧ good p (storage_get p mx) ∧ storage_get p mn ≤ storage_get p mx.

Lemma minmax_step_spec p r v : good_bounds p r → good p v →
  good_bounds p (minmax_step p r v) ∧ bounded p (minmax_step p r v) v ∧ ∀ x, bounded p r x → bounded p (minmax_step p r v) x.
Proof.
  intros Hr Hv. pose proof (storage_get_value p v (proj1 Hv)) as Hs. unfold good_bounds, bounded.
  destruct Hr as [->|(mn & mx & -> & Hn & Hx & Hle)]; cbn [minmax_step].
  - split; [right; do 2 eexists; split; [done|]; rewrite Hs; auto with lia|]. split; [do 2 eexists; split; [done|]; rewrite Hs; lia|]. by intros x (? & ? & ? & _).
  - assert (∀ a b, storage_get p a = Z.min v (storage_get p mn) → storage_get p b = Z.max v (storage_get p mx) →
      good_bounds p (Some a, Some b) ∧ bounded p (Some a, Some b) v ∧ ∀ x, bounded p (Some mn, Some mx) x → bounded p (Some a, Some b) x) as H.
    { intros a b Ea Eb. unfold good_bounds, bounded, good, tvalue in *. split; [right; exists a, b; rewrite Ea, Eb; split; [done|]; lia|].
      split; [exists a, b; split; [done|]; lia|]. intros x (? & ? & Hx' & ?). simplify_eq. exists a, b. split; [done|]. lia. }
    destruct (decide (v < storage_get p mn)), (decide (storage_get p mx < v)); apply H; rewrite ?Hs; lia.
Qed.

Lemma foldl_min v vs : foldl Z.min v vs ∈ v :: vs ∧ ∀ x, x ∈ v :: vs → foldl Z.min v vs ≤ x.
Proof.
  revert v. induction vs as [|y vs IH]; intros v; cbn [foldl]; [set_solver by lia|]. destruct (IH (Z.min v y)) as [H1 H2]. split.
  - apply elem_of_cons in H1 as [->|H1]; [|set_solver]. destruct (Z.min_spec v y) as [[_ ->]|[_ ->]]; set_solver.
  - intros x [->|[->|Hx]%elem_of_cons]%elem_of_cons; [| |apply H2; set_solver];
      pose proof (H2 (Z.min v y) ltac:(set_solver)); lia.
Qed.

Lemma foldl_max v vs : foldl Z.max v vs ∈ v :: vs ∧ ∀ x, x ∈ v :: vs → x ≤ foldl Z.max v vs.
Proof.
  revert v. induction vs as [|y vs IH]; intros v; cbn [foldl]; [set_solver by lia|]. destruct (IH (Z.max v y)) as [H1 H2]. split.
  - apply elem_of_cons in H1 as [->|H1]; [|set_solver]. destruct (Z.max_spec v y) as [[_ ->]|[_ ->]]; set_solver.
  - intros x [->|[->|Hx]%elem_of_cons]%elem_of_cons; [| |apply H2; set_solver];
      pose proof (H2 (Z.max v y) ltac:(set_solver)); lia.
Qed.

(** Minimum and maximum of all the values. *)
Lemma getTypedMinMax_all p v vs : Forall (good p) (v :: vs) →
  let r := (Some (storage_value p (foldl Z.min v vs)), Some (storage_value p (foldl Z.max v vs))) in
  good_bounds p r ∧ ∀ x, x ∈ v :: vs → bounded p r x.
Proof.
  intros Hg. cbv zeta. destruct (foldl_min v vs) as [N1 N2], (foldl_max v vs) as [X1 X2]. rewrite Forall_forall in Hg.
  unfold good_bounds, bounded. split.
  - right. do 2 eexists. split; [done|]. rewrite !storage_get_value by (by apply Hg). split; [by apply Hg|]. split; [by apply Hg|]. by apply N2.
  - intros x Hx. do 2 eexists. split; [done|]. rewrite !storage_get_value by (by apply Hg). auto.
Qed.

Lemma minmax_loop p vs m off k r : Forall (good p) vs → (k ≤ length vs)%nat →
  rfold (λ acc i, null ← checked (isNullAt m (Z.of_nat (off + i))); if null : bool then Ret acc else x ← checked (vs !! i); Ret (minmax_step p acc x))
    (None, None) (seq 0 k) = Ret r →
  good_bounds p r ∧ ∀ i v, (i < k)%nat → vs !! i = Some v → isNullAt m (Z.of_nat (off + i)) = Some false → bounded p r v.
Proof.
  intros Hg. revert r. induction k as [|k IH]; intros r Hk; [cbn; intros ?; simplify_eq; split; [by left|lia]|].
  rewrite seq_S, rfold_app. destruct (rfold _ _ (seq 0 k)) as [r0|]; [|done]. destruct (IH r0 ltac:(lia) eq_refl) as [Hb Hi].
  cbn [mbind Res_bind rfold Nat.add]. destruct (isNullAt m (Z.of_nat (off + k))) as [[]|] eqn:En; cbn [checked mbind Res_bind]; [| |done].
  - intros ?. simplify_eq. split; [done|]. intros i v Hik Hv Hn. destruct (decide (i = k)); [simplify_eq|]. apply (Hi i v); [lia|done|done].
  - destruct (vs !! k) as [x|] eqn:Ex; cbn [checked mbind Res_bind]; [|done]. intros ?. simplify_eq.
    destruct (minmax_step_spec p r0 x) as (H1 & H2 & H3); [done|by eapply Forall_lookup_1|]. split; [done|].
    intros i v Hik Hv Hn. destruct (decide (i = k)); [by simplify_eq|]. apply H3, (Hi i v); [lia|done|done].
Qed.

Lemma getTypedMinMax_spec p vs mask off r : Forall (good p) vs → getTypedMinMax p vs mask off = Ret r →
  good_bounds p r ∧ ∀ i v, vs !! i = Some v → null_at mask (off + i) = Some false → bounded p r v.
Proof.
  intros Hg Hr. unfold getTypedMinMax in Hr. destruct vs as [|v vs]; [done|]. pose proof (getTypedMinMax_all p v vs Hg) as [Ha1 Ha2].
  assert (∀ i x, (v :: vs) !! i = Some x → x ∈ v :: vs) as Hin by (intros; by eapply list_elem_of_lookup_2).
  destruct mask as [m|]; [destruct (hasNoNullsGuarantee m)|]; [simplify_eq; eauto| |simplify_eq; eauto].
  destruct (minmax_loop p (v :: vs) m off (length (v :: vs)) r) as [H1 H2]; [done|done|done|]. split; [done|].
  intros i x Hi Hn. apply (H2 i x); [by eapply lookup_lt_Some|done|done].
Qed.

Section Metadata.
Context (p : PackedType) (meta : CompressionMetadata).
Abbreviation lo := (storage_get p (min meta)).
Abbreviation hi := (storage_get p (max meta)).
Context (Hp : packable p lo hi).

Lemma getPackingInfo_spec : getPackingInfo p meta = Ret (info_of lo hi).
Proof using Hp. by apply packing_info_spec. Qed.

(** The interval with one more value, or with a smaller interval. *)
Lemma packable_join a b : good p a → good p b → a ≤ b → packable p (Z.min lo a) (Z.max hi b).
Proof using Hp. destruct Hp as (Hn & Hx & Hle & Hs). intros [Ha Hsa] [Hb Hsb] Hab. unfold packable, tvalue in *. lia. Qed.

Lemma packing_join a b : good p a → good p b → a ≤ b →
  getPackingInfo p (mkMetadata (storage_value p (Z.min lo a)) (storage_value p (Z.max hi b)) (compression meta)) = Ret (info_of (Z.min lo a) (Z.max hi b)).
Proof using Hp.
  intros Ha Hb Hab. pose proof (packable_join a b Ha Hb Hab) as Hj. unfold getPackingInfo. cbn [min max].
  rewrite !storage_get_value by apply Hj. by apply packing_info_spec.
Qed.

(** A value that does not change the packing. *)
Definition fits (v : Z) : Prop := info_of (Z.min lo v) (Z.max hi v) = info_of lo hi.

Lemma canUpdateInPlace_sound vs mask off : Forall (good p) vs → canUpdateInPlace p vs meta mask off = Ret true →
  ∀ i v, vs !! i = Some v → null_at mask (off + i) = Some false → fits v.
Proof using Hp.
  intros Hg Hc i v Hi Hn. unfold canUpdateInPlace in Hc. rewrite getPackingInfo_spec in Hc. cbn [mbind Res_bind] in Hc.
  destruct (getTypedMinMax p vs mask off) as [r|] eqn:Hr; [|done]. cbn [mbind Res_bind] in Hc.
  destruct (getTypedMinMax_spec p vs mask off r Hg Hr) as [Hb Hv]. destruct (Hv i v Hi Hn) as (mn & mx & -> & Hvb).
  destruct Hb as [|(mn0 & mx0 & E0 & Hgn & Hgx & Hle)]; [done|]. injection E0 as <- <-. rewrite packing_join in Hc by done. cbn [mbind Res_bind] in Hc.
  injection Hc as Hd. apply bool_decide_eq_true in Hd as (H1 & H2 & H3). destruct Hp as (_ & _ & Hlh & _).
  apply (info_of_between lo hi (Z.min lo (storage_get p mn)) (Z.max hi (storage_get p mx))); [lia|done|lia|].
  destruct (info_of lo hi), (info_of (Z.min lo (storage_get p mn)) (Z.max hi (storage_get p mx))). cbn in *. by subst.
Qed.

Lemma canUpdateInPlace_one v : good p v → fits v → canUpdateInPlace p [v] meta None 0 = Ret true.
Proof using Hp.
  intros Hg Hf. unfold canUpdateInPlace. rewrite getPackingInfo_spec. cbn [mbind Res_bind getTypedMinMax foldl].
  rewrite storage_get_value by apply Hg. rewrite packing_join by (done || lia). cbn [mbind Res_bind]. unfold fits in Hf. rewrite Hf. by rewrite bool_decide_true.
Qed.

(** Such a value is packed and unpacked as one of the interval. *)
Lemma fits_packs v : bitWidth (info_of lo hi) < pbits p → good p v → fits v → packs p (info_of lo hi) v.
Proof using Hp.
  intros Hw Hg Hf. unfold fits in Hf. rewrite <-Hf. apply info_of_packs; [by apply packable_join|by rewrite Hf|lia].
Qed.
End Metadata.

(** Every word of a machine type is decoded to some value. *)
Lemma machine_decode t info u : (hasNegative info = true → bitWidth info < width t) → ∃ v, decode (Machine t) info u = Ret v.
Proof.
  intros Hn. unfold decode. assert (∃ v, (if hasNegative info && bool_decide (0 < bitWidth info) then SignExtend (Machine t) u (bitWidth info)
    else Ret (to_T (Machine t) u)) = Ret v) as [v ->]; [|cbn [mbind Res_bind]; case_decide; by eexists].
  destruct (hasNegative info && bool_decide (0 < bitWidth info)) eqn:E; [|by eexists]. apply andb_true_iff in E as [E1 E2%bool_decide_eq_true].
  unfold SignExtend. rewrite decide_True by by apply Hn. rewrite (wl_mask (o := pword (Machine t))); [by eexists|].
  split; [lia|]. apply wmax_pbits. by apply Hn.
Qed.

(** ** Pages that are not compressed *)

(** The values are packed with all their bits. *)
Definition raw_info (p : PackedType) : BitpackInfo := mkInfo (pbits p) false 0.

Lemma pbytes_bits p : 8 * pbytes p = pbits p ∧ 0 < pbytes p.
Proof. unfold pbytes. destruct (pbits_cases p) as [->|[->|[->|[->|[_ ->]]]]]; done. Qed.

Lemma word_bits p v j : 0 ≤ j < pbits p → Z.testbit (to_U p v) j = Z.testbit v j.
Proof. intros Hj. destruct p as [t|]; [|done]. cbn [to_U]. apply Z.mod_pow2_bits_low. apply Hj. Qed.

Lemma raw_decode p v : tvalue p v → decode p (raw_info p) (to_U p v `mod` 2 ^ pbits p) = Ret v.
Proof. intros Hv. unfold decode. cbn. f_equal. rewrite to_T_mod. by apply to_T_U. Qed.

Lemma uncompressed_set_spec p src s page d n : Forall byte page → (s + n ≤ length src)%nat → Z.of_nat (d + n) * pbits p ≤ 8 * Z.of_nat (length page) →
  ∃ page', uncompressed_set p src s page d n = Ret page' ∧ wrote page (Z.of_nat d * pbits p) (pbits p) (to_U p <$> take n (drop s src)) page'.
Proof.
  intros Hb. unfold uncompressed_set. pose proof (pbytes_bits p) as [H8 Hpos]. pose proof (pbits_pos p). induction n as [|n IH]; intros Hs Hl.
  { exists page. split; [done|]. by apply wrote_nil. }
  destruct IH as (page1 & H1 & W1); [lia|nia|]. destruct (lookup_lt_is_Some_2 src (s + n)) as [v Hv]; [lia|].
  rewrite seq_S, rfold_app, H1. cbn [mbind Res_bind rfold Nat.add]. rewrite Hv. cbn [checked mbind Res_bind].
  destruct (store_wrote (pbytes p) page1 (Z.of_nat (d + n) * pbytes p) (to_U p v) (to_U p v)) as (page2 & H2 & W2); [apply W1| |done|].
  { split; [nia|]. split; [lia|]. rewrite (wr_length _ _ _ _ _ W1). nia. }
  rewrite H2. exists page2. split; [done|]. rewrite (take_S_r _ _ v) by by rewrite lookup_drop. rewrite fmap_app. cbn [fmap list_fmap].
  apply wrote_app with page1; [nia|lia|done|]. rewrite length_fmap, length_take, length_drop, Nat.min_l by lia.
  rewrite H8 in W2. by replace (Z.of_nat d * pbits p + Z.of_nat n * pbits p) with (8 * (Z.of_nat (d + n) * pbytes p)) by nia.
Qed.

Lemma uncompressed_decompress_spec p page k dst i vs : Forall byte page → holds p (raw_info p) page k vs →
  Z.of_nat (k + length vs) * pbits p ≤ 8 * Z.of_nat (length page) → (i + length vs ≤ length dst)%nat →
  uncompressed_decompress p page k dst i (length vs) = Ret (put dst i vs).
Proof.
  intros Hb Hh Hl Hd. unfold uncompressed_decompress. pose proof (pbytes_bits p) as [H8 Hpos]. rewrite (rmap_Forall2 _ _ vs); [by rewrite <-write_values_put|].
  apply Forall2_same_length_lookup_2; [apply length_seq|]. intros j x v Hx Hv. apply lookup_seq in Hx as [-> Hj].
  destruct (load_spec (pbytes p) page (Z.of_nat (k + j) * pbytes p)) as (u & -> & _ & Hu); [done|split_and!; nia|]. cbn [checked mbind Res_bind].
  rewrite <-(Hh j v Hv). unfold decode. cbn. do 2 f_equal. rewrite H8 in Hu.
  replace (Z.of_nat (k + j) * pbits p) with (8 * (Z.of_nat (k + j) * pbytes p)) by nia. apply bits_at_unique; [nia|pose proof (pbits_pos p); lia|done].
Qed.

Lemma raw_words p vs : Forall (tvalue p) vs → Forall2 (λ v u, decode p (raw_info p) (u `mod` 2 ^ pbits p) = Ret v) vs (to_U p <$> vs).
Proof. intros H. apply Forall2_fmap_r, Forall_Forall2_diag. eapply Forall_impl; [done|]. apply raw_decode. Qed.

(** The values of a page. *)
Definition page_capacity (info : BitpackInfo) (page : list Z) : nat := (8 * length page / Z.to_nat (bitWidth info))%nat.

Lemma page_capacity_fits info page n : 0 < bitWidth info → (n ≤ page_capacity info page)%nat → Z.of_nat n * bitWidth info ≤ 8 * Z.of_nat (length page).
Proof.
  intros Hw Hn. unfold page_capacity in Hn. pose proof (Nat.Div0.mul_div_le (8 * length page) (Z.to_nat (bitWidth info))). nia.
Qed.

Lemma raw_capacity p page : Z.of_nat (length page) / pbytes p = Z.of_nat (page_capacity (raw_info p) page).
Proof.
  unfold page_capacity. pose proof (pbytes_bits p) as [H8 Hpos]. cbn [bitWidth raw_info]. rewrite Nat2Z.inj_div, Z2Nat.id by lia. rewrite <-H8, Nat2Z.inj_mul.
  by rewrite Z.div_mul_cancel_l by lia.
Qed.

Lemma uncompressed_next p src page : page_ok page →
  let n := (length src `min` page_capacity (raw_info p) page)%nat in
  ∃ page' size, uncompressed_compressNextPage p src (length src) page (Z.of_nat (length page)) = Ret (page', drop n src, size) ∧
    wrote page 0 (pbits p) (to_U p <$> take n src) page' ∧ Z.of_nat n * pbits p ≤ 8 * size ∧ size ≤ Z.of_nat (length page).
Proof.
  intros Hp. cbv zeta. unfold uncompressed_compressNextPage. pose proof (pbytes_bits p) as [H8 Hpos]. rewrite decide_False by lia. rewrite raw_capacity.
  rewrite <-Nat2Z.inj_min, Nat2Z.id. set (n := (length src `min` page_capacity (raw_info p) page)%nat).
  destruct (uncompressed_set_spec p src 0 page 0 n) as (page' & H1 & H2); [apply Hp|lia| |].
  { apply (page_capacity_fits (raw_info p)); [cbn; pose proof (pbits_pos p); lia|lia]. }
  pose proof (page_capacity_fits (raw_info p) page n) as Hf. cbn [raw_info bitWidth] in Hf. pose proof (pbits_pos p).
  rewrite H1. cbn [mbind Res_bind]. do 2 eexists. split; [done|]. split; [done|]. nia.
Qed.

(** ** A page as the list of its values *)

Definition layout (p : PackedType) (meta : CompressionMetadata) : BitpackInfo :=
  if decide (compression meta = INTEGER_BITPACKING) then info_of (storage_get p (min meta)) (storage_get p (max meta)) else raw_info p.

(** Metadata of integers, as [GetCompressionMetadata] chooses it. *)
Definition meta_ok (p : PackedType) (meta : CompressionMetadata) : Prop :=
  match compression meta with
  | CONSTANT => wf (min meta)
  | UNCOMPRESSED => True
  | INTEGER_BITPACKING => packable p (storage_get p (min meta)) (storage_get p (max meta)) ∧ 0 < bitWidth (layout p meta) < pbits p
  | BOOLEAN_BITPACKING | ALP => False
  end.

(** The values of the page. A constant is not stored in it. *)
Definition stores (p : PackedType) (meta : CompressionMetadata) (page : list Z) (vs : list Z) : Prop :=
  if decide (compression meta = CONSTANT) then Forall (eq (storage_get p (min meta))) vs
  else Z.of_nat (length vs) * bitWidth (layout p meta) ≤ 8 * Z.of_nat (length page) ∧ holds p (layout p meta) page 0 vs.

Lemma layout_packed p meta : compression meta = INTEGER_BITPACKING → meta_ok p meta →
  getPackingInfo p meta = Ret (layout p meta) ∧ packable p (storage_get p (min meta)) (storage_get p (max meta)) ∧ 0 < bitWidth (layout p meta) < pbits p.
Proof.
  intros E Hm. unfold meta_ok in Hm. rewrite E in Hm. destruct Hm as [H1 H2]. split; [|done].
  rewrite getPackingInfo_spec by done. unfold layout. by rewrite decide_True.
Qed.

Lemma layout_raw p meta : compression meta = UNCOMPRESSED → layout p meta = raw_info p.
Proof. intros E. unfold layout. rewrite E. done. Qed.

Lemma layout_width p meta : meta_ok p meta → 0 < bitWidth (layout p meta).
Proof.
  intros Hm. unfold meta_ok in Hm. unfold layout in *. case_decide as E; [rewrite E in Hm; apply Hm|]. cbn. pose proof (pbits_pos p). lia.
Qed.

Lemma meta_cases p meta : meta_ok p meta → compression meta = CONSTANT ∨ compression meta = UNCOMPRESSED ∨ compression meta = INTEGER_BITPACKING.
Proof. unfold meta_ok. destruct (compression meta); auto; done. Qed.

(** [ReadCompressedValuesFromPageToVector] reads the values. *)
Lemma readToVector_spec p meta page vs k dst i n : meta_ok p meta → page_ok page → stores p meta page vs → (k + n ≤ length vs)%nat →
  (i + n ≤ length dst)%nat → readToVector p page k dst i n meta = Ret (put dst i (take n (drop k vs))).
Proof.
  intros Hm Hp Hs Hk Hi. unfold stores in Hs. assert (length (take n (drop k vs)) = n) as Hn by (rewrite length_take, length_drop; lia).
  pose proof (layout_width p meta Hm) as Hw. unfold readToVector. destruct (meta_cases p meta Hm) as [E|[E|E]]; rewrite E in *; cbn [decide] in Hs.
  - rewrite decide_True in Hs by done. unfold constant_decompress. rewrite write_values_put by (rewrite length_replicate; lia). f_equal. f_equal.
    apply replicate_as_Forall. split; [done|]. by apply Forall_take, Forall_drop.
  - rewrite decide_False in Hs by done. destruct Hs as [Hl Hh]. rewrite layout_raw in * by done.
    rewrite <-Hn at 1. apply uncompressed_decompress_spec; [apply Hp|by apply holds_take, (holds_drop _ _ _ 0)| |lia]. cbn in Hl, Hw. nia.
  - rewrite decide_False in Hs by done. destruct Hs as [Hl Hh]. destruct (layout_packed p meta E Hm) as (H1 & H2 & H3).
    rewrite <-Hn at 1. eapply decompressFromPage_spec; [done|done|done| |by apply holds_take, (holds_drop _ _ _ 0)|lia]. nia.
Qed.

(** Words of values that pack. *)
Lemma packs_encoded p info vs : Forall (packs p info) vs →
  ∃ us, encoded p info vs us ∧ Forall2 (λ v u, decode p info (u `mod` 2 ^ bitWidth info) = Ret v) vs us.
Proof.
  induction 1 as [|v vs (u & H1 & H2 & H3) _ (us & IH1 & IH2)]; [exists []; split; constructor|]. exists (u :: us). by split; constructor.
Qed.

Lemma sub_U_zero p v : good p v → sub_U p v 0 = Ret (to_U p v).
Proof.
  intros [Hv Hs]. destruct p as [t|]; cbn; [by rewrite Z.sub_0_r|]. unfold tvalue in Hv. cbn [tmin tmax] in *.
  destruct (of_Z_val v ltac:(lia)) as [Hw E]. destruct (Sub_spec (of_Z v) (of_Z 0)) as (x & -> & _ & Hx); [done|done|change (val (of_Z 0)) with 0; lia|].
  cbn. rewrite Hx, E. change (val (of_Z 0)) with 0. f_equal. lia.
Qed.

(** [compressNextPage] stores as many values as the page takes. *)
Lemma compressNextPage_stores p meta src page : meta_ok p meta → compression meta ≠ CONSTANT → page_ok page →
  32 ≤ Z.of_nat (length page) → 8 * Z.of_nat (length page) < 2 ^ 64 →
  Forall (λ v, good p v ∧ storage_get p (min meta) ≤ v ≤ storage_get p (max meta)) src →
  let n := (length src `min` page_capacity (layout p meta) page)%nat in
  ∃ page' size, compressNextPage p src (length src) page (Z.of_nat (length page)) meta = Ret (page', drop n src, size) ∧
    page_ok page' ∧ length page' = length page ∧ stores p meta page' (take n src) ∧
    Z.of_nat n * bitWidth (layout p meta) ≤ 8 * size ∧ size ≤ Z.of_nat (length page).
Proof.
  intros Hm Hc Hp H32 H64 Hg. cbv zeta. set (n := (length src `min` page_capacity (layout p meta) page)%nat). pose proof (layout_width p meta Hm) as Hw.
  assert (Z.of_nat n * bitWidth (layout p meta) ≤ 8 * Z.of_nat (length page)) as Hfit by (apply page_capacity_fits; lia).
  assert (length (take n src) = n) as Hn by (rewrite length_take; lia).
  assert (∃ page' size us, compressNextPage p src (length src) page (Z.of_nat (length page)) meta = Ret (page', drop n src, size) ∧
    wrote page 0 (bitWidth (layout p meta)) us page' ∧ Forall2 (λ v u, decode p (layout p meta) (u `mod` 2 ^ bitWidth (layout p meta)) = Ret v) (take n src) us ∧
    Z.of_nat n * bitWidth (layout p meta) ≤ 8 * size ∧ size ≤ Z.of_nat (length page)) as (page' & size & us & H1 & H2 & H3 & H4).
  { destruct (meta_cases p meta Hm) as [E|[E|E]]; [done| |].
    - unfold n in *. rewrite layout_raw in * by done. destruct (uncompressed_next p src page Hp) as (page' & size & H1 & H2 & H3). exists page', size. eexists.
      unfold compressNextPage. rewrite E, decide_True by done. split; [done|]. split; [done|]. split; [|done]. apply raw_words, Forall_take.
      eapply Forall_impl; [exact Hg|]. intros v [[? _] _]. done.
    - destruct (layout_packed p meta E Hm) as (L1 & L2 & L3).
      destruct (packs_encoded p (layout p meta) src) as (us & He & Hd).
      { eapply Forall_impl; [exact Hg|]. intros v [Hv Hb]. unfold layout in *. rewrite E in *. rewrite decide_True in * by done. apply info_of_packs; [done|lia|done]. }
      destruct (compressNextPage_spec p (layout p meta) L3 src page us meta) as (page' & size & H1 & H2 & H3); [done|done| |done|done|done|done|].
      { intros _. eapply Forall_impl; [exact Hg|]. intros v [Hv _]. by apply sub_U_zero. }
      exists page', size, (take n us). split; [done|]. split; [done|]. split; [by apply Forall2_take|done]. }
  exists page', size. split; [done|]. split; [by eapply wrote_page_ok|]. pose proof (wr_length _ _ _ _ _ H2) as Hl. split; [done|]. split; [|done].
  unfold stores. rewrite decide_False, Hn, Hl by done. split; [done|].
  eapply (wrote_holds p (layout p meta) Hw page 0); [|done]. done.
Qed.

(** ** Updates in place *)

(** The bytes of the constant are those of the value. *)
Lemma storage_word p s v : wf s → tvalue p v → to_U p v `mod` 2 ^ pbits p = val s `mod` 2 ^ pbits p → storage_get p s = v.
Proof.
  intros Hs Hv E. rewrite <-(to_T_U p v Hv), <-to_T_mod, E, to_T_mod. destruct p as [t|]; cbn.
  - rewrite <-(static_cast_mod t (low s)), <-(static_cast_mod t (val s)). f_equal. unfold val.
    assert (∃ k, high s * 2 ^ 64 = k * 2 ^ width t) as [k ->]
      by (exists (high s * 2 ^ (64 - width t)); rewrite <-Z.mul_assoc, <-Z.pow_add_r by (destruct t; cbn; lia); do 2 f_equal; lia).
    rewrite Z.add_comm, Z.mod_add; [done|destruct t; cbn; lia].
  - symmetry. apply wrap128_unique with 0; [by apply val_range|lia].
Qed.

Lemma all_constant_sound p src s n meta mask i : all_constant p src s n meta mask = Ret true → (i < n)%nat → null_at mask (s + i) = Some false →
  ∃ v, src !! (s + i)%nat = Some v ∧ to_U p v `mod` 2 ^ pbits p = val (min meta) `mod` 2 ^ pbits p.
Proof.
  revert s i. induction n as [|n IH]; intros s i Hc Hi Hn; [lia|]. cbn [all_constant] in Hc.
  assert (match mask with Some m => checked (isNullAt m (Z.of_nat s)) | None => Ret false end = checked (null_at mask s)) as E by by destruct mask.
  rewrite E in Hc. destruct i as [|i].
  - rewrite Nat.add_0_r in *. rewrite Hn in Hc. cbn [checked mbind Res_bind] in Hc. destruct (src !! s) as [v|]; [|done]. cbn [checked mbind Res_bind] in Hc.
    case_decide; [by exists v|done].
  - replace (s + S i)%nat with (S s + i)%nat in * by lia. apply IH; [|lia|done]. destruct (null_at mask s) as [[]|]; cbn [checked mbind Res_bind] in Hc; [done| |done].
    destruct (src !! s) as [v|]; [|done]. cbn [checked mbind Res_bind] in Hc. by case_decide.
Qed.

(** Words of values, those of [P] decoded to themselves. *)
Lemma encode_some p info (P : nat → Prop) vs :
  (∀ i v, vs !! i = Some v → ∃ u v', sub_U p v (offset info) = Ret u ∧ wrange (pword p) u ∧ decode p info (u `mod` 2 ^ bitWidth info) = Ret v' ∧ (P i → v' = v)) →
  ∃ us ws, encoded p info vs us ∧ Forall2 (λ v u, decode p info (u `mod` 2 ^ bitWidth info) = Ret v) ws us ∧ ∀ i, P i → ws !! i = vs !! i.
Proof.
  revert P. induction vs as [|v vs IH]; intros P H; [exists [], []; split_and!; [constructor|constructor|done]|].
  destruct (H 0%nat v eq_refl) as (u & v' & H1 & H2 & H3 & H4). destruct (IH (λ i, P (S i))) as (us & ws & I1 & I2 & I3); [intros i; apply (H (S i))|].
  exists (u :: us), (v' :: ws). split; [by constructor|]. split; [by constructor|]. intros [|i] Hi; cbn; [by rewrite H4|by apply I3].
Qed.

(** What is wanted of an update: the values that are not null, and no others, are replaced. *)
Definition updated (src : list Z) (s n : nat) (mask : option NullMask) (ws : list Z) : Prop :=
  length ws = n ∧ ∀ i, (i < n)%nat → null_at mask (s + i) = Some false → ws !! i = src !! (s + i)%nat.

Section Update.
Context (p : PackedType) (meta : CompressionMetadata) (src : list Z) (s n : nat) (mask : option NullMask).
Context (Hmeta : meta_ok p meta) (Hsrc : (s + n ≤ length src)%nat) (Hgood : Forall (good p) src).
Context (Hmask : ∀ i, (i < n)%nat → is_Some (null_at mask (s + i))).

(** The position of the values is left out where the null mask is read, so that only values from the start may be null. *)
Context (Hstart : mask = None ∨ s = 0%nat ∧ p ≠ Int128).

Lemma null_at_start i : null_at mask (0 + i) = null_at mask (s + i).
Proof using Hstart. clear - Hstart. by destruct Hstart as [->|[-> _]]. Qed.

Lemma source_lookup i : (i < n)%nat → take n (drop s src) !! i = src !! (s + i)%nat.
Proof using Type. intros Hi. by rewrite lookup_take_lt, lookup_drop. Qed.

Lemma updatable_all : compression meta = INTEGER_BITPACKING → metadata_canUpdateInPlace p src s n meta mask = Ret true →
  (∀ i v, (i < n)%nat → src !! (s + i)%nat = Some v → null_at mask (s + i) = Some false → fits p meta v) ∧
  rmap (updatable p src meta mask) (seq s n) = Ret (replicate n true).
Proof using Hmeta Hsrc Hgood Hmask Hstart.
  intros E Hc. destruct (layout_packed p meta E Hmeta) as (L1 & L2 & L3). unfold metadata_canUpdateInPlace, canAlwaysUpdateInPlace in Hc. rewrite E in Hc.
  rewrite decide_True in Hc by done.
  assert (∀ i v, (i < n)%nat → src !! (s + i)%nat = Some v → null_at mask (s + i) = Some false → fits p meta v) as Hfit.
  { intros i v Hi Hv Hn. eapply (canUpdateInPlace_sound p meta L2 _ mask 0 ltac:(by apply Forall_take, Forall_drop) Hc i v); [by rewrite source_lookup|].
    by rewrite null_at_start. }
  split; [done|]. apply rmap_Forall2, Forall2_same_length_lookup_2; [by rewrite length_seq, length_replicate|].
  intros i x b Hx Hb. apply lookup_seq in Hx as [-> Hi]. apply lookup_replicate in Hb as [-> _]. unfold updatable.
  destruct (lookup_lt_is_Some_2 src (s + i)) as [v Hv]; [lia|]. rewrite Hv. cbn [checked mbind Res_bind]. destruct (Hmask i Hi) as [b Hb].
  assert (match mask with Some m => checked (isNullAt m (Z.of_nat (s + i))) | None => Ret false end = Ret b) as ->
    by (unfold null_at in Hb; destruct mask; [by rewrite Hb|by simplify_eq]).
  cbn [mbind Res_bind]. destruct b; [done|]. apply canUpdateInPlace_one; [done|by eapply Forall_lookup_1|by eapply Hfit].
Qed.

Lemma packed_words : compression meta = INTEGER_BITPACKING → metadata_canUpdateInPlace p src s n meta mask = Ret true →
  ∃ us ws, encoded p (layout p meta) (take n (drop s src)) us ∧
    Forall2 (λ v u, decode p (layout p meta) (u `mod` 2 ^ bitWidth (layout p meta)) = Ret v) ws us ∧ updated src s n mask ws.
Proof using Hmeta Hsrc Hgood Hmask Hstart.
  intros E Hc. destruct (updatable_all E Hc) as [Hfit _]. destruct (layout_packed p meta E Hmeta) as (L1 & L2 & L3).
  assert (layout p meta = info_of (storage_get p (min meta)) (storage_get p (max meta))) as EL by (unfold layout; by rewrite decide_True).
  destruct (encode_some p (layout p meta) (λ i, (i < n)%nat ∧ null_at mask (s + i) = Some false) (take n (drop s src))) as (us & ws & H1 & H2 & H3).
  - intros i v Hi. pose proof Hi as [Hv Hin]%lookup_take_Some. rewrite lookup_drop in Hv.
    destruct (decide (null_at mask (s + i) = Some false)) as [Hn|Hn].
    + destruct (fits_packs p meta L2 v) as (u & U1 & U2 & U3); [rewrite <-EL; apply L3|by eapply Forall_lookup_1|by eapply Hfit|]. rewrite <-EL in *. by exists u, v.
    + destruct Hstart as [->|[_ Hp]]; [done|]. destruct p as [t|]; [|done]. change (pbits (Machine t)) with (width t) in *.
      destruct (machine_decode t (layout (Machine t) meta) (((v - offset (layout (Machine t) meta)) `mod` 2 ^ width t) `mod` 2 ^ bitWidth (layout (Machine t) meta))) as [v' Hv']; [lia|].
      eexists _, v'. split; [done|]. split; [by apply (wrange_word (Machine t))|]. split; [done|]. tauto.
  - exists us, ws. split; [done|]. split; [done|]. split.
    + rewrite (Forall2_length _ _ _ H2), <-(Forall2_length _ _ _ H1), length_take, length_drop. lia.
    + intros i Hi Hn. rewrite H3 by done. by apply source_lookup.
Qed.

(** An update in place of values of a page. *)
Lemma writeFromBuffer_spec page vs d : page_ok page → stores p meta page vs → (d + n ≤ length vs)%nat →
  metadata_canUpdateInPlace p src s n meta mask = Ret true →
  ∃ page' ws, writeFromBuffer p page d src s n meta mask = Ret page' ∧ page_ok page' ∧ length page' = length page ∧
    updated src s n mask ws ∧ stores p meta page' (put vs d ws).
Proof using Hmeta Hsrc Hgood Hmask Hstart.
  intros Hp Hs Hd Hc. pose proof (layout_width p meta Hmeta) as Hw. unfold writeFromBuffer. destruct (meta_cases p meta Hmeta) as [E|[E|E]]; rewrite E.
  - exists page, (replicate n (storage_get p (min meta))). split; [done|]. split; [done|]. split; [done|]. split.
    + split; [apply length_replicate|]. intros i Hi Hn. unfold metadata_canUpdateInPlace, canAlwaysUpdateInPlace in Hc. rewrite E in Hc.
      destruct (all_constant_sound p src s n meta mask i Hc Hi Hn) as (v & Hv & Hword). rewrite Hv, lookup_replicate_2 by done. f_equal.
      unfold meta_ok in Hmeta. rewrite E in Hmeta. apply storage_word; [done| |done]. by eapply (Forall_lookup_1 _ _ _ _ Hgood Hv).
    + unfold stores in *. rewrite decide_True in * by done. unfold put. apply Forall_app_2; [by apply Forall_take|]. apply Forall_app_2; [|by apply Forall_drop].
      by apply Forall_replicate.
  - unfold stores in Hs. rewrite decide_False in Hs by (by rewrite E). destruct Hs as [Hl Hh]. rewrite layout_raw in * by done.
    destruct (uncompressed_set_spec p src s page d n) as (page' & H1 & H2); [apply Hp|done|cbn in Hl, Hw; nia|].
    exists page', (take n (drop s src)). split; [done|]. split; [by eapply wrote_page_ok|]. split; [by eapply wr_length|].
    assert (length (take n (drop s src)) = n) as Hn by (rewrite length_take, length_drop; lia).
    split; [split; [done|]; intros; by apply source_lookup|]. unfold stores. rewrite decide_False by (by rewrite E). rewrite layout_raw by done.
    rewrite put_length, (wr_length _ _ _ _ _ H2) by lia. split; [done|]. eapply (wrote_put p (raw_info p) Hw); [done| |done|lia].
    apply raw_words, Forall_take, Forall_drop. eapply Forall_impl; [exact Hgood|]. by intros v [? _].
  - unfold stores in Hs. rewrite decide_False in Hs by (by rewrite E). destruct Hs as [Hl Hh]. destruct (layout_packed p meta E Hmeta) as (L1 & L2 & L3).
    destruct (packed_words E Hc) as (us & ws & U1 & U2 & U3). pose proof U3 as [Hn _].
    destruct (setValues_spec p (layout p meta) L3 src s page d n us meta mask) as (page' & H1 & H2); [done|done|done|done|nia|by apply updatable_all|].
    exists page', ws. split; [done|]. split; [by eapply wrote_page_ok|]. split; [by eapply wr_length|]. split; [done|].
    unfold stores. rewrite decide_False by (by rewrite E). rewrite put_length, (wr_length _ _ _ _ _ H2) by lia. split; [done|].
    eapply wrote_put; [done|done|done|done|lia].
Qed.
End Update.

(** ** The choice of the compression *)

Lemma storage_wf p v : tvalue p v → wf (storage_value p v).
Proof.
  intros Hv. destruct p as [t|]; cbn; [split; cbn; [apply u64_range|lia]|]. apply of_Z_val. unfold tvalue in Hv. cbn in Hv. lia.
Qed.

Lemma info_of_positive mn mx : mn < mx → 0 < bitWidth (info_of mn mx).
Proof.
  intros H. assert (∀ x, 0 < x → 0 < bit_width x) as Hb by (intros x Hx; unfold bit_width; rewrite decide_False by lia; pose proof (Z.log2_nonneg x); lia).
  unfold info_of. repeat case_decide; cbn; [apply Hb; lia|lia| |apply Hb; lia].
  destruct (bit_width_spec (Z.max (Z.abs mn) (Z.abs mx)) ltac:(lia)). lia.
Qed.

Lemma GetCompressionMetadata_spec p v vs : Forall (good p) (v :: vs) →
  let lo := foldl Z.min v vs in let hi := foldl Z.max v vs in
  ∃ meta, GetCompressionMetadata p (storage_value p lo) (storage_value p hi) = Ret meta ∧ meta_ok p meta ∧
    storage_get p (min meta) = lo ∧ storage_get p (max meta) = hi ∧ (compression meta = CONSTANT → Forall (eq lo) (v :: vs)).
Proof.
  intros Hg. cbv zeta. destruct (foldl_min v vs) as [N1 N2], (foldl_max v vs) as [X1 X2]. set (lo := foldl Z.min v vs) in *. set (hi := foldl Z.max v vs) in *.
  rewrite Forall_forall in Hg. destruct (Hg lo N1) as [Hlo Hlo'], (Hg hi X1) as [Hhi Hhi']. pose proof (N2 hi X1) as Hle.
  pose proof (storage_get_value p lo Hlo) as El. pose proof (storage_get_value p hi Hhi) as Eh.
  assert (packable p lo hi) as Hp by by split. unfold GetCompressionMetadata. destruct (Equals _ _) eqn:E.
  - apply andb_true_iff in E as [E1%Z.eqb_eq E2%Z.eqb_eq]. assert (storage_value p lo = storage_value p hi) as E by (destruct (storage_value p lo), (storage_value p hi); cbn in *; by subst).
    eexists. split; [done|]. split; [by apply storage_wf|]. split; [done|]. split; [done|]. intros _. apply Forall_forall. intros x Hx.
    pose proof (N2 x Hx). pose proof (X2 x Hx). rewrite E, Eh in El. lia.
  - unfold GetBitpackingMetadata, getPackingInfo. cbn [min max]. rewrite El, Eh, packing_info_spec by done. cbn [mbind Res_bind].
    case_decide; eexists; (split; [done|]); cbn [min max compression]; (split; [|done]).
    + done.
    + unfold meta_ok, layout. cbn [min max compression]. rewrite decide_True, El, Eh by done. split; [done|]. split; [|lia]. apply info_of_positive.
      destruct (decide (lo = hi)) as [Heq|]; [|lia]. rewrite Heq in E. unfold Equals in E. by rewrite !Z.eqb_refl in E.
Qed.

(** The number of values that [numValues] gives for a page is the number that it takes. *)
Lemma metadata_numValues_spec p meta (page : list Z) : meta_ok p meta → compression meta ≠ CONSTANT → 8 * Z.of_nat (length page) < 2 ^ 64 →
  metadata_numValues p meta (Z.of_nat (length page)) = Ret (Z.of_nat (page_capacity (layout p meta) page)).
Proof.
  intros Hm Hc Hl. unfold metadata_numValues. pose proof (pbytes_bits p) as [_ H0]. destruct (meta_cases p meta Hm) as [E|[E|E]]; [done| |]; rewrite E.
  - unfold uncompressed_numValues. rewrite decide_False, raw_capacity, layout_raw by (done || lia). done.
  - destruct (layout_packed p meta E Hm) as (-> & _ & Hw). cbn [mbind Res_bind]. f_equal. unfold numValues_info, page_capacity.
    rewrite decide_False, u64_id, Nat2Z.inj_div, Z2Nat.id by lia. f_equal. lia.
Qed.

(** ** Claims *)

(** C25. Values that are compressed with the metadata that is chosen from their minimum and maximum are read back: a constant without a page, other values
    from the page that [compressNextPage] writes, from every position and for every number of the values that it took. The values are not the least
    of a signed type. *)
Theorem compressed_values_read_back p v vs page : Forall (good p) (v :: vs) → page_ok page → 32 ≤ Z.of_nat (length page) → 8 * Z.of_nat (length page) < 2 ^ 64 →
  let src := v :: vs in
  ∃ mn mx meta, getTypedMinMax p src None 0 = Ret (Some mn, Some mx) ∧ GetCompressionMetadata p mn mx = Ret meta ∧
    if decide (compression meta = CONSTANT) then
      ∀ k n dst i, (k + n ≤ length src)%nat → (i + n ≤ length dst)%nat → readToVector p [] k dst i n meta = Ret (put dst i (take n (drop k src)))
    else ∃ page' m size, metadata_numValues p meta (Z.of_nat (length page)) = Ret (Z.of_nat m) ∧
      compressNextPage p src (length src) page (Z.of_nat (length page)) meta = Ret (page', drop (length src `min` m) src, size) ∧ size ≤ Z.of_nat (length page) ∧
      ∀ k n dst i, (k + n ≤ length src `min` m)%nat → (i + n ≤ length dst)%nat → readToVector p page' k dst i n meta = Ret (put dst i (take n (drop k src))).
Proof.
  intros Hg Hp H32 H64. cbv zeta. destruct (GetCompressionMetadata_spec p v vs Hg) as (meta & Hm & Hok & El & Eh & Hconst).
  do 2 eexists. exists meta. split; [done|]. split; [done|]. case_decide as Hc.
  - intros k n dst i Hk Hi. apply readToVector_spec; [done|done| |done|done]. unfold stores. rewrite decide_True, El by done. by apply Hconst.
  - destruct (compressNextPage_stores p meta (v :: vs) page) as (page' & size & H1 & H2 & _ & H3 & _ & H4); [done..| |].
    { rewrite El, Eh. apply Forall_forall. intros x Hx. rewrite Forall_forall in Hg. split; [by apply Hg|]. split; [by apply foldl_min|by apply foldl_max]. }
    exists page', (page_capacity (layout p meta) page), size. split; [by apply metadata_numValues_spec|]. split; [done|]. split; [done|].
    intros k n dst i Hk Hi. erewrite readToVector_spec; [|done|done|done| |done]; [|rewrite length_take; lia]. do 2 f_equal.
    rewrite skipn_firstn_comm, take_take. f_equal. lia.
Qed.

Lemma compressed_values_read_back_witness : ∃ mn mx meta, getTypedMinMax (Machine UINT16) [500; 510; 507] None 0 = Ret (Some mn, Some mx) ∧
  GetCompressionMetadata (Machine UINT16) mn mx = Ret meta ∧
  if decide (compression meta = CONSTANT) then
    ∀ k n dst i, (k + n ≤ 3)%nat → (i + n ≤ length dst)%nat → readToVector (Machine UINT16) [] k dst i n meta = Ret (put dst i (take n (drop k [500; 510; 507])))
  else ∃ page' m size, metadata_numValues (Machine UINT16) meta 64 = Ret (Z.of_nat m) ∧
    compressNextPage (Machine UINT16) [500; 510; 507] 3 (replicate 64 0) 64 meta = Ret (page', drop (3 `min` m) [500; 510; 507], size) ∧ size ≤ 64 ∧
    ∀ k n dst i, (k + n ≤ 3 `min` m)%nat → (i + n ≤ length dst)%nat → readToVector (Machine UINT16) page' k dst i n meta = Ret (put dst i (take n (drop k [500; 510; 507]))).
Proof.
  apply (compressed_values_read_back (Machine UINT16) 500 [510; 507] (replicate 64 0)).
  - repeat constructor; vm_compute; (discriminate || by right).
  - split; [by apply Forall_replicate|done].
  - done.
  - done.
Defined.

(** C26. Values that may be updated in place, by the check on the metadata, are updated: the write returns (the assertion that every value can be updated
    holds), and the page reads back as the old values with the new ones in their place, at every other position unchanged. A null value may leave
    anything at its position. This is for metadata as it is chosen for integers, for source values that are not the least of a signed type, and for
    writes without a null mask, or with one from the start of the source on and not of [int128_t]: with a mask and another start the check reads the nulls
    of other values, and the subtraction of the offset from a null of [int128_t] may throw. *)
Theorem page_update_refines p meta page vs src s n d mask dst :
  meta_ok p meta → page_ok page → stores p meta page vs → (d + n ≤ length vs)%nat → (s + n ≤ length src)%nat → Forall (good p) src →
  (∀ i, (i < n)%nat → is_Some (null_at mask (s + i))) → mask = None ∨ s = 0%nat ∧ p ≠ Int128 → (length vs ≤ length dst)%nat →
  metadata_canUpdateInPlace p src s n meta mask = Ret true →
  ∃ page' ws, writeFromBuffer p page d src s n meta mask = Ret page' ∧ updated src s n mask ws ∧ stores p meta page' (put vs d ws) ∧
    readToVector p page' 0 dst 0 (length vs) meta = Ret (put dst 0 (put vs d ws)).
Proof.
  intros Hm Hp Hs Hd Hsrc Hg Hmask Hstart Hdst Hc.
  destruct (writeFromBuffer_spec p meta src s n mask Hm Hsrc Hg Hmask Hstart page vs d Hp Hs Hd Hc) as (page' & ws & H1 & H2 & _ & H3 & H4).
  exists page', ws. split; [done|]. split; [done|]. split; [done|]. destruct H3 as [Hn _]. pose proof (put_length vs d ws ltac:(lia)) as Hl.
  rewrite (readToVector_spec p meta page' (put vs d ws)); [|done|done|done|lia|lia]. by rewrite drop_0, take_ge by lia.
Qed.

Definition example_meta : CompressionMetadata := mkMetadata (storage_value (Machine INT32) 0) (storage_value (Machine INT32) 7) INTEGER_BITPACKING.

Lemma page_update_refines_witness : ∃ page' ws,
  writeFromBuffer (Machine INT32) (replicate 64 0) 3 [5; 2] 0 2 example_meta None = Ret page' ∧ updated [5; 2] 0 2 None ws ∧
  stores (Machine INT32) example_meta page' (put (replicate 10 0) 3 ws) ∧
  readToVector (Machine INT32) page' 0 (replicate 10 1) 0 (length (replicate 10 0)) example_meta = Ret (put (replicate 10 1) 0 (put (replicate 10 0) 3 ws)).
Proof.
  apply (page_update_refines (Machine INT32) example_meta (replicate 64 0) (replicate 10 0) [5; 2] 0 2 3 None (replicate 10 1)).
  - vm_compute. repeat split; (discriminate || by left).
  - split; [|done]. by apply Forall_replicate.
  - split; [by vm_compute|]. intros i v Hi. apply lookup_replicate in Hi as [-> Hi]. do 10 (destruct i as [|i]; [by vm_compute|]). lia.
  - cbn. lia.
  - cbn. lia.
  - repeat constructor; vm_compute; (discriminate || by left).
  - done.
  - by left.
  - done.
  - by vm_compute.
Defined.

(** ** The least value of a signed type *)

(** The value that is read back of [w] bits of [v]. *)
Definition truncated (w v : Z) : Z := (v + 2 ^ (w - 1)) `mod` 2 ^ w - 2 ^ (w - 1).

Lemma truncated_range w v : 1 ≤ w → - 2 ^ (w - 1) ≤ truncated w v < 2 ^ (w - 1).
Proof.
  intros Hw. unfold truncated. pose proof (Z.mod_pos_bound (v + 2 ^ (w - 1)) (2 ^ w) ltac:(apply Z.pow_pos_nonneg; lia)).
  pose proof (pow_double w Hw). lia.
Qed.

Lemma truncated_mod w v : 1 ≤ w → truncated w v `mod` 2 ^ w = v `mod` 2 ^ w.
Proof. intros Hw. unfold truncated. rewrite Zminus_mod_idemp_l. f_equal. lia. Qed.

Lemma truncated_id w v : 1 ≤ w → - 2 ^ (w - 1) ≤ v < 2 ^ (w - 1) → truncated w v = v.
Proof. intros Hw Hv. unfold truncated. pose proof (pow_double w Hw). rewrite Z.mod_small by lia. lia. Qed.

Lemma truncated_least w k : 1 ≤ w ≤ k → truncated w (- 2 ^ k) = 0.
Proof.
  intros Hw. unfold truncated. pose proof (pow_double w ltac:(lia)). pose proof (Z.pow_pos_nonneg 2 (w - 1) ltac:(lia) ltac:(lia)).
  replace (- 2 ^ k + 2 ^ (w - 1)) with (2 ^ (w - 1) + - 2 ^ (k - w) * 2 ^ w).
  - rewrite Z.mod_add, Z.mod_small by lia. lia.
  - rewrite Z.mul_opp_l, <-Z.pow_add_r by lia. replace (k - w + w) with k by lia. lia.
Qed.

Section Least.
Context (t : IntType) (Hsigned : isSigned t = true).
Abbreviation p := (Machine t).

Lemma signed_range : tmin p = - 2 ^ (pbits p - 1) ∧ pbits p = width t ∧ tmax p = 2 ^ (pbits p - 1) - 1.
Proof using Hsigned. destruct t; (done || by vm_compute). Qed.

Lemma abs_least : abs_T p (minimum t) = Ret (minimum t).
Proof using Hsigned. destruct t; (done || by vm_compute). Qed.

(** The width is that of the maximum alone. *)
Definition least_info (mx : Z) : BitpackInfo := mkInfo (bit_width (Z.abs mx) + 1) true 0.

Lemma least_info_width mx : Z.abs mx < 2 ^ (width t - 2) → 1 ≤ bitWidth (least_info mx) < pbits p.
Proof using Hsigned.
  intros Ha. destruct signed_range as (_ & Hb & _). pose proof (pbits_pos p). cbn.
  pose proof (bit_width_small (Z.abs mx) (width t - 2) ltac:(lia) ltac:(lia)). destruct (bit_width_spec (Z.abs mx) ltac:(lia)). lia.
Qed.

Lemma packing_info_least mx : minimum t < mx → Z.abs mx < 2 ^ (width t - 2) → packing_info p (minimum t) mx = Ret (least_info mx).
Proof using Hsigned.
  intros Hlt Ha. destruct signed_range as (Hm & Hb & Hx). pose proof (pbits_pos p) as Hpos. pose proof (least_info_width mx Ha) as Hw. cbn in Hw.
  change (minimum t) with (tmin p) in *. pose proof (pow_double (pbits p) ltac:(lia)) as H2. pose proof (pow_double (pbits p - 1) ltac:(lia)) as H3.
  replace (pbits p - 1 - 1) with (width t - 2) in H3 by lia. assert (tvalue p mx) as Hv by (unfold tvalue; lia).
  assert (tvalue p (tmin p)) as Hn by (unfold tvalue; lia).
  unfold packing_info. rewrite !(decide_False (P := 0 < tmin p ∧ _)) by lia. cbn [mbind Res_bind].
  assert ((if decide (tmin p < 0 ∧ mx < 0) then d ← sub_U p (tmin p) mx; Ret (bitWidth_U p d <? bitWidth_U p (to_U p mx)) else Ret false) = Ret false) as ->.
  { case_decide as Hneg; [|done]. destruct (sub_width p (tmin p) mx) as (d & -> & Hd); [done..|]. cbn [mbind Res_bind].
    rewrite Hd, to_U_width, !word_of_negative by (done || lia). rewrite !(bit_width_full _ (pbits p)) by lia. by rewrite Z.ltb_irrefl. }
  cbn [mbind Res_bind]. change (tmin p) with (minimum t). rewrite abs_least, abs_T_spec by (done || lia). cbn [mbind Res_bind].
  change (minimum t) with (tmin p). rewrite Z.max_r, to_U_width, tvalue_word by (unfold tvalue; lia).
  rewrite decide_True by lia. by rewrite (u8_width (bit_width _)), u8_width by lia.
Qed.

(** Every value is packed as its lowest bits. *)
Lemma least_encoded mx vs : minimum t < mx → Z.abs mx < 2 ^ (width t - 2) →
  let info := least_info mx in
  encoded p info vs (to_U p <$> vs) ∧ Forall2 (λ v u, decode p info (u `mod` 2 ^ bitWidth info) = Ret v) (truncated (bitWidth info) <$> vs) (to_U p <$> vs).
Proof using Hsigned.
  intros Hlt Ha info. pose proof (least_info_width mx Ha) as Hw. fold info in Hw. destruct signed_range as (Hm & Hb & Hx). split.
  - apply Forall2_fmap_r, Forall_Forall2_diag, Forall_forall. intros v _. cbn. rewrite Z.sub_0_r. split; [done|]. by apply (wrange_word p).
  - apply Forall2_fmap, Forall_Forall2_diag, Forall_forall. intros v _.
    replace (to_U p v `mod` 2 ^ bitWidth info) with (truncated (bitWidth info) v `mod` 2 ^ bitWidth info).
    + replace (truncated (bitWidth info) v) with (truncated (bitWidth info) v + offset info) at 2 by (cbn; lia).
      pose proof (truncated_range (bitWidth info) v ltac:(lia)).
      assert (2 ^ (bitWidth info - 1) ≤ 2 ^ (pbits p - 1)) by (apply Z.pow_le_mono_r; lia).
      pose proof (Z.pow_pos_nonneg 2 (pbits p - 1)). pose proof (pbits_pos p).
      apply decode_signed; [done|done|lia|done|..]; unfold tvalue; cbn [offset info least_info]; lia.
    + rewrite truncated_mod by lia. rewrite (mod_pow_pbits p), Hb by lia. done.
Qed.
End Least.

(** The metadata that is chosen for values with the least one. *)
Lemma GetCompressionMetadata_least t hi : isSigned t = true → minimum t < hi → Z.abs hi < 2 ^ (width t - 2) → tvalue (Machine t) hi →
  let meta := mkMetadata (storage_value (Machine t) (minimum t)) (storage_value (Machine t) hi) INTEGER_BITPACKING in
  GetCompressionMetadata (Machine t) (min meta) (max meta) = Ret meta ∧ getPackingInfo (Machine t) meta = Ret (least_info hi).
Proof.
  intros Hs Hlt Ha Hv meta. assert (tvalue (Machine t) (minimum t)) as Hn by (unfold tvalue in *; cbn in *; lia).
  assert (getPackingInfo (Machine t) meta = Ret (least_info hi)) as Hi.
  { unfold getPackingInfo. cbn [min max meta]. rewrite !storage_get_value by done. by apply packing_info_least. }
  split; [|done]. pose proof (least_info_width t Hs hi Ha). unfold GetCompressionMetadata. destruct (Equals _ _) eqn:E.
  - exfalso. apply andb_true_iff in E as [E1%Z.eqb_eq E2%Z.eqb_eq]. cbn [min max meta] in E1, E2.
    assert (storage_get (Machine t) (storage_value (Machine t) (minimum t)) = storage_get (Machine t) (storage_value (Machine t) hi)) as E by (cbn in *; by rewrite E1).
    rewrite !storage_get_value in E by done. lia.
  - unfold GetBitpackingMetadata. cbn [min max meta]. fold meta. rewrite Hi. cbn [mbind Res_bind]. by rewrite decide_False by lia.
Qed.

Lemma getTypedMinMax_least t src hi : Forall (tvalue (Machine t)) src → minimum t ∈ src → hi ∈ src → Forall (λ x, x ≤ hi) src →
  getTypedMinMax (Machine t) src None 0 = Ret (Some (storage_value (Machine t) (minimum t)), Some (storage_value (Machine t) hi)).
Proof.
  rewrite !Forall_forall. intros Ht Hmin Hhi Hle. destruct src as [|v vs]; [by apply elem_of_nil in Hmin|]. cbn [getTypedMinMax].
  destruct (foldl_min v vs) as [N1 N2], (foldl_max v vs) as [X1 X2].
  assert (foldl Z.min v vs = minimum t) as -> by (pose proof (Ht _ N1) as [? _]; pose proof (N2 _ Hmin); cbn in *; lia).
  assert (foldl Z.max v vs = hi) as -> by (pose proof (Hle _ X1); pose proof (X2 _ Hhi); lia). done.
Qed.

(** For the least [int128_t] no metadata is chosen. *)
Lemma least_int128_refused mx : - 2 ^ 127 < mx < 2 ^ 127 →
  GetCompressionMetadata Int128 (storage_value Int128 (- 2 ^ 127)) (storage_value Int128 mx) = Throw std_overflow_error.
Proof.
  intros Hx. assert (tvalue Int128 (- 2 ^ 127)) as Hn by (unfold tvalue; cbn; lia). assert (tvalue Int128 mx) as Hv by (unfold tvalue; cbn; lia).
  unfold GetCompressionMetadata. destruct (Equals _ _) eqn:E.
  - exfalso. apply andb_true_iff in E as [E1%Z.eqb_eq E2%Z.eqb_eq].
    assert (storage_value Int128 (- 2 ^ 127) = storage_value Int128 mx) as E by (destruct (storage_value Int128 (- 2 ^ 127)), (storage_value Int128 mx); cbn in *; by subst).
    apply (f_equal (storage_get Int128)) in E. rewrite !storage_get_value in E by done. lia.
  - unfold GetBitpackingMetadata, getPackingInfo. cbn [min max]. rewrite !storage_get_value by done. unfold packing_info.
    rewrite !(decide_False (P := 0 < - 2 ^ 127 ∧ _)) by lia. cbn [mbind Res_bind].
    assert ((if decide (- 2 ^ 127 < 0 ∧ mx < 0) then d ← sub_U Int128 (- 2 ^ 127) mx; Ret (bitWidth_U Int128 d <? bitWidth_U Int128 (to_U Int128 mx)) else Ret false) = Ret false) as ->.
    { case_decide as Hneg; [|done]. destruct (sub_width Int128 (- 2 ^ 127) mx) as (d & -> & Hd); [done|done|lia|]. cbn [mbind Res_bind].
      rewrite Hd, to_U_width by done. change (pbits Int128) with 128 in *.
      rewrite !word_of_negative by (change (pbits Int128) with 128; lia). change (pbits Int128) with 128.
      rewrite !(bit_width_full _ 128) by lia. by rewrite Z.ltb_irrefl. }
    cbn [mbind Res_bind]. assert (abs_T Int128 (- 2 ^ 127) = Throw std_overflow_error) as -> by by vm_compute. done.
Qed.

(** C28. The least value of a signed machine type is lost where the maximum is small: its absolute value is itself, so the width is chosen from the
    maximum alone. Take values of such a type, among them the least one, whose maximum is another one and has an absolute value below a quarter of the
    range. They are bit packed; of the values that the page takes, each least value is read back as zero, and those whose absolute value is not above
    that of the maximum are read back as they are. *)
Theorem least_value_lost t src hi page : isSigned t = true → Forall (tvalue (Machine t)) src → minimum t ∈ src → hi ∈ src → Forall (λ x, x ≤ hi) src →
  minimum t < hi → Z.abs hi < 2 ^ (width t - 2) → page_ok page → 32 ≤ Z.of_nat (length page) → 8 * Z.of_nat (length page) < 2 ^ 64 →
  ∃ mn mx meta page' m size ws, getTypedMinMax (Machine t) src None 0 = Ret (Some mn, Some mx) ∧ GetCompressionMetadata (Machine t) mn mx = Ret meta ∧
    compression meta = INTEGER_BITPACKING ∧ metadata_numValues (Machine t) meta (Z.of_nat (length page)) = Ret (Z.of_nat m) ∧
    compressNextPage (Machine t) src (length src) page (Z.of_nat (length page)) meta = Ret (page', drop (length src `min` m) src, size) ∧
    (∀ k n dst i, (k + n ≤ length src `min` m)%nat → (i + n ≤ length dst)%nat →
      readToVector (Machine t) page' k dst i n meta = Ret (put dst i (take n (drop k ws)))) ∧
    length ws = length src ∧ (∀ i, src !! i = Some (minimum t) → ws !! i = Some 0) ∧ (∀ i v, src !! i = Some v → Z.abs v ≤ Z.abs hi → ws !! i = Some v).
Proof.
  intros Hs Ht Hmin Hhi Hle Hlt Ha Hp H32 H64.
  destruct (GetCompressionMetadata_least t hi Hs Hlt Ha (proj1 (Forall_forall _ _) Ht hi Hhi)) as [Hmeta Hinfo].
  set (meta := mkMetadata _ _ INTEGER_BITPACKING) in *. set (info := least_info hi) in *.
  pose proof (least_info_width t Hs hi Ha) as Hw. fold info in Hw. set (w := bitWidth info) in *.
  destruct (least_encoded t Hs hi src Hlt Ha) as [He Hd]. fold info w in He, Hd.
  assert (0 < w < pbits (Machine t)) as Hw' by lia.
  destruct (compressNextPage_spec (Machine t) info Hw' src page (to_U (Machine t) <$> src) meta) as (page' & size & Hc & Hwr & _); [done|done| |done..|].
  { intros _. apply Forall_forall. intros v _. cbn. by rewrite Z.sub_0_r. }
  exists (min meta), (max meta), meta, page', (page_capacity info page), size, (truncated w <$> src). split_and!.
  - by apply getTypedMinMax_least.
  - done.
  - done.
  - unfold metadata_numValues. cbn [compression meta]. rewrite Hinfo. cbn [mbind Res_bind]. f_equal. unfold numValues_info, page_capacity. fold info w.
    rewrite decide_False, u64_id, Nat2Z.inj_div, Z2Nat.id by lia. f_equal. lia.
  - exact Hc.
  - intros k n dst i Hk Hi. set (m := (length src `min` page_capacity info page)%nat) in *.
    assert (holds (Machine t) info page' 0 (take m (truncated w <$> src))) as Hh.
    { apply (wrote_holds (Machine t) info (proj1 Hw') page 0 _ (take m (to_U (Machine t) <$> src))); [done|]. by apply Forall2_take. }
    assert (length (take n (drop k (truncated w <$> src))) = n) as Hn by (rewrite length_take, length_drop, length_fmap; lia).
    unfold readToVector. cbn [compression meta]. rewrite <-Hn at 1.
    apply (decompressFromPage_spec (Machine t) info Hw'); [done|by eapply wrote_page_ok| | |lia].
    + rewrite Hn, (wr_length _ _ _ _ _ Hwr). pose proof (page_capacity_fits info page m ltac:(lia) ltac:(lia)) as Hfit. change (bitWidth info) with w in Hfit |- *. nia.
    + intros j v Hj. apply (Hh (k + j)%nat v). apply lookup_take_Some in Hj as [Hj Hjn]. rewrite lookup_drop in Hj. apply lookup_take_Some. split; [done|lia].
  - apply length_fmap.
  - intros i Hi. rewrite list_lookup_fmap, Hi. cbn [fmap option_fmap option_map]. f_equal. unfold minimum. rewrite Hs. apply truncated_least.
    pose proof (signed_range t Hs) as (_ & Hb & _). lia.
  - intros i v Hi Hv. rewrite list_lookup_fmap, Hi. cbn [fmap option_fmap option_map]. f_equal. apply truncated_id; [lia|].
    destruct (bit_width_spec (Z.abs hi) ltac:(lia)) as (_ & _ & Hb). pose proof (proj2 (Hb (w - 1) ltac:(lia)) ltac:(cbn; lia)). lia.
Qed.

Lemma least_value_lost_witness : ∃ mn mx meta page' m size ws, getTypedMinMax (Machine INT8) [-128; 5; 3] None 0 = Ret (Some mn, Some mx) ∧
  GetCompressionMetadata (Machine INT8) mn mx = Ret meta ∧ compression meta = INTEGER_BITPACKING ∧
  metadata_numValues (Machine INT8) meta 64 = Ret (Z.of_nat m) ∧
  compressNextPage (Machine INT8) [-128; 5; 3] 3 (replicate 64 0) 64 meta = Ret (page', drop (3 `min` m) [-128; 5; 3], size) ∧
  (∀ k n dst i, (k + n ≤ 3 `min` m)%nat → (i + n ≤ length dst)%nat → readToVector (Machine INT8) page' k dst i n meta = Ret (put dst i (take n (drop k ws)))) ∧
  length ws = 3%nat ∧ (∀ i, [-128; 5; 3] !! i = Some (-128) → ws !! i = Some 0) ∧ (∀ i v, [-128; 5; 3] !! i = Some v → Z.abs v ≤ 5 → ws !! i = Some v).
Proof.
  apply (least_value_lost INT8 [-128; 5; 3] 5 (replicate 64 0)).
  - done.
  - repeat constructor; by vm_compute.
  - by left.
  - right. by left.
  - repeat constructor; lia.
  - done.
  - done.
  - split; [by apply Forall_replicate|done].
  - done.
  - done.
Defined.

(** ** The null mask of an update *)

Lemma rmap_total {A B} (f : A → Res B) l : (∀ a, a ∈ l → ∃ b, f a = Ret b) → ∃ bs, rmap f l = Ret bs.
Proof.
  induction l as [|a l IH]; intros H; [by exists []|]. destruct (H a ltac:(by left)) as [b Hb].
  destruct IH as [bs Hbs]; [intros x Hx; apply H; by right|]. exists (b :: bs). cbn [rmap]. rewrite Hb. cbn [mbind Res_bind]. by rewrite Hbs.
Qed.

(** The check without a mask returns. *)
Lemma canUpdateInPlace_returns p meta vs : packable p (storage_get p (min meta)) (storage_get p (max meta)) → vs ≠ [] → Forall (good p) vs →
  ∃ b, canUpdateInPlace p vs meta None 0 = Ret b.
Proof.
  intros Hp Hne Hg. destruct vs as [|v vs]; [done|]. unfold canUpdateInPlace. rewrite getPackingInfo_spec by done. cbn [mbind Res_bind getTypedMinMax].
  destruct (getTypedMinMax_all p v vs Hg) as [[|(mn & mx & E & H1 & H2 & H3)] _]; [done|]. injection E as -> ->.
  rewrite packing_join by done. cbn [mbind Res_bind]. by eexists.
Qed.

(** With nulls only, there is neither a minimum nor a maximum. *)
Lemma getTypedMinMax_nulls p vs m : vs ≠ [] → hasNoNullsGuarantee m = false → (∀ i, (i < length vs)%nat → isNullAt m (Z.of_nat i) = Some true) →
  getTypedMinMax p vs (Some m) 0 = Ret (None, None).
Proof.
  intros Hne Hm Hnull. destruct vs as [|v vs]; [done|]. cbn [getTypedMinMax]. rewrite Hm.
  assert (∀ k, (k ≤ length (v :: vs))%nat → rfold (λ acc i, null ← checked (isNullAt m (Z.of_nat (0 + i)));
    if null : bool then Ret acc else x ← checked ((v :: vs) !! i); Ret (minmax_step p acc x)) (None, None) (seq 0 k) = Ret (None, None)) as H.
  { induction k as [|k IH]; [done|]. intros Hk. rewrite seq_S, rfold_app, IH by lia. cbn [mbind Res_bind rfold Nat.add]. by rewrite Hnull by lia. }
  by apply H.
Qed.

(** A value that is neither null nor fits is not counted. *)
Lemma updatable_count (l : list bool) : false ∈ l → (length (filter (λ b : bool, b) l) < length l)%nat.
Proof.
  induction l as [|b l IH]; [by intros ?%elem_of_nil|]. pose proof (length_filter (λ b : bool, b) l).
  intros [<-|Hin]%elem_of_cons; rewrite filter_cons; case_decide; cbn; [done|lia|specialize (IH Hin); lia..].
Qed.

(** C29. The position of the values is left out where the null mask is read. Take bit packed metadata and a mask that is null in its first [n] positions:
    the check whether [n] values can be updated in place passes from every start in the array on, whatever the values are. If one of them is not
    null and needs another packing, the write that the check allowed fails its assertion, and without a mask the check refuses the values. The values
    are not the least of a signed type. *)
Theorem null_mask_position_ignored p meta src s n m : compression meta = INTEGER_BITPACKING → meta_ok p meta → (0 < n)%nat → (s + n ≤ length src)%nat →
  hasNoNullsGuarantee m = false → (∀ i, (i < n)%nat → isNullAt m (Z.of_nat i) = Some true) →
  metadata_canUpdateInPlace p src s n meta (Some m) = Ret true ∧
  ∀ i v page d, Forall (good p) src → (∀ j, (j < n)%nat → is_Some (isNullAt m (Z.of_nat (s + j)))) →
    (i < n)%nat → src !! (s + i)%nat = Some v → isNullAt m (Z.of_nat (s + i)) = Some false → ¬ fits p meta v →
    writeFromBuffer p page d src s n meta (Some m) = Throw AssertionFailure ∧ metadata_canUpdateInPlace p src s n meta None = Ret false.
Proof.
  intros Hc Hm Hn Hs Hg Hnull. destruct (layout_packed p meta Hc Hm) as (Hi & Hp & _).
  assert (length (take n (drop s src)) = n) as Hlen by (rewrite length_take, length_drop; lia).
  assert (take n (drop s src) ≠ []) as Hne by (intros E; rewrite E in Hlen; cbn in Hlen; lia).
  split.
  - unfold metadata_canUpdateInPlace, canAlwaysUpdateInPlace. rewrite Hc, decide_True by done. unfold canUpdateInPlace. rewrite Hi. cbn [mbind Res_bind].
    by rewrite getTypedMinMax_nulls by (done || by rewrite Hlen).
  - intros i v page d Hgood Hsome Hin Hv Hnn Hfit. split.
    + unfold writeFromBuffer, setValuesFromUncompressed. rewrite Hc, Hi. cbn [mbind Res_bind].
      destruct (rmap_total (updatable p src meta (Some m)) (seq s n)) as [ok Hok].
      { intros k Hk%elem_of_seq. unfold updatable. destruct (lookup_lt_is_Some_2 src k ltac:(lia)) as [x Hx]. rewrite Hx. cbn [checked mbind Res_bind].
        destruct (Hsome (k - s)%nat ltac:(lia)) as [b Hb]. replace (s + (k - s))%nat with k in Hb by lia. rewrite Hb. cbn [checked mbind Res_bind].
        destruct b; [by eexists|]. apply canUpdateInPlace_returns; [done|done|]. constructor; [|done]. by eapply Forall_lookup_1. }
      rewrite Hok. cbn [mbind Res_bind]. pose proof (rmap_inv _ _ _ Hok) as Hf. pose proof (Forall2_length _ _ _ Hf) as Hl. rewrite length_seq in Hl.
      destruct (Forall2_lookup_l _ _ _ i (s + i)%nat Hf) as (b & Hb & Hu); [by apply lookup_seq_lt|].
      unfold updatable in Hu. rewrite Hv in Hu. cbn [checked mbind Res_bind] in Hu. rewrite Hnn in Hu. cbn [checked mbind Res_bind] in Hu.
      destruct b.
      * destruct Hfit. apply (canUpdateInPlace_sound p meta Hp [v] None 0) with (i := 0%nat); [|done..]. constructor; [|done]. by eapply Forall_lookup_1.
      * rewrite decide_False; [done|]. apply list_elem_of_lookup_2, updatable_count in Hb. lia.
    + unfold metadata_canUpdateInPlace, canAlwaysUpdateInPlace. rewrite Hc, decide_True by done.
      assert (Forall (good p) (take n (drop s src))) as Hg' by (by apply Forall_take, Forall_drop).
      destruct (canUpdateInPlace_returns p meta _ Hp Hne Hg') as [[] Hb]; [|done]. destruct Hfit.
      apply (canUpdateInPlace_sound p meta Hp _ None 0 Hg' Hb i v); [|done]. rewrite lookup_take_lt by done. by rewrite lookup_drop.
Qed.

Lemma null_mask_position_ignored_witness : metadata_canUpdateInPlace (Machine INT32) [0; 1000] 1 1 example_meta (Some (mkNullMask [1] true)) = Ret true ∧
  writeFromBuffer (Machine INT32) (replicate 64 0) 3 [0; 1000] 1 1 example_meta (Some (mkNullMask [1] true)) = Throw AssertionFailure ∧
  metadata_canUpdateInPlace (Machine INT32) [0; 1000] 1 1 example_meta None = Ret false.
Proof.
  destruct (null_mask_position_ignored (Machine INT32) example_meta [0; 1000] 1 1 (mkNullMask [1] true)) as [H1 H2].
  - done.
  - vm_compute. repeat split; (discriminate || by left).
  - lia.
  - cbn. lia.
  - done.
  - intros i Hi. by replace i with 0%nat by lia.
  - split; [exact H1|]. apply (H2 0%nat 1000).
    + repeat constructor; vm_compute; (discriminate || by left).
    + intros j Hj. replace j with 0%nat by lia. by eexists.
    + lia.
    + done.
    + done.
    + vm_compute. discriminate.
Defined.

(** Values of [uint8_t] with an offset, read to a page instead of a vector, are those of [int8_t] without it. *)
Lemma uint8_page_misread : ∃ page,
  compressNextPage (Machine UINT8) [100; 200; 150] 3 (replicate 64 0) 64
    (mkMetadata (storage_value (Machine UINT8) 100) (storage_value (Machine UINT8) 200) INTEGER_BITPACKING) = Ret (page, [], 3) ∧
  readToVector (Machine UINT8) page 0 [0; 0; 0] 0 3
    (mkMetadata (storage_value (Machine UINT8) 100) (storage_value (Machine UINT8) 200) INTEGER_BITPACKING) = Ret [100; 200; 150] ∧
  readToPage (Machine UINT8) page 0 [0; 0; 0] 0 3
    (mkMetadata (storage_value (Machine UINT8) 100) (storage_value (Machine UINT8) 200) INTEGER_BITPACKING) = Ret [0; 100; 50].
Proof. eexists. split; [by vm_compute|]. by split; vm_compute. Qed.
