(* ===== verification/FreeSpace.v ===== *)
(** Page allocation: [FreeSpaceManager] and [FreeEntryIterator] of
    [src/src/storage/free_space_manager.cpp], [PageManager] of [src/src/storage/page_manager.cpp], the
    number of pages of a [FileHandle] of [src/src/storage/file_handle.cpp], and
    [Checkpointer::serializeMetadata] of [src/src/storage/checkpointer.cpp] as far as it allocates pages.

    A page index is a 32-bit number. A free list is a [std::set] ordered by [entryCmp]: here a list in that
    order. [std::sort] is a parameter of the merge. A failed assertion is [None]. Of a file handle the
    model has the number of its pages, the pages its groups have room for, and the sequence of pages that
    were removed from the frames of the buffer manager. *)

From S2P Require Import Prelude Serialize.
From stdpp Require Import list_numbers.
#[local] Open Scope Z_scope.

Record PageRange := mkRange { startPageIdx : Z; numPages : Z }.

#[export] Instance PageRange_eq_dec : EqDecision PageRange.
Proof. solve_decision. Defined.

Record FreeSpaceManager := mkFSM {
  freeLists : list (list PageRange);
  uncheckpointedFreePageRanges : list PageRange;
  numEntries : Z;
  needClearEvictedEntries : bool
}.

Definition emptyFSM : FreeSpaceManager := mkFSM [] [] 0 false.

Record FileHandle := mkFile { fileNumPages : Z; pageCapacity : Z; numFrameGroups : Z; removedFromFrames : list Z }.

(** ** Levels and the order of a free list *)

(** [std::countr_zero] of a number of [w] bits and [std::bit_floor]. *)
Fixpoint countr_zero (w : nat) (n : Z) : nat :=
  match w with O => O | S w => if Z.odd n then O else S (countr_zero w (n / 2)) end.
Definition bit_floor (n : Z) : Z := if decide (n = 0) then 0 else 2 ^ Z.log2 n.

Definition getLevel (numPages : Z) : option nat :=
  if decide (0 < numPages) then Some (countr_zero 32 (bit_floor numPages)) else None.

Definition entryCmp (a b : PageRange) : bool :=
  if decide (numPages a = numPages b) then bool_decide (startPageIdx a < startPageIdx b)
  else bool_decide (numPages a < numPages b).

(** [std::set]: [insert], [contains], and [lower_bound] followed by [erase]. *)
Fixpoint set_insert (e : PageRange) (l : list PageRange) : list PageRange :=
  match l with
  | [] => [e]
  | x :: l' => if entryCmp e x then e :: l else if entryCmp x e then x :: set_insert e l' else l
  end.
Definition set_contains (e : PageRange) (l : list PageRange) : bool :=
  existsb (λ x, negb (entryCmp x e) && negb (entryCmp e x)) l.
Fixpoint lower_bound_erase (k : PageRange) (l : list PageRange) : option (PageRange * list PageRange) :=
  match l with
  | [] => None
  | x :: l => if entryCmp x k then '(e, r) ← lower_bound_erase k l; Some (e, x :: r) else Some (x, l)
  end.

(** [getFreeList]: the lists after making room for a level. *)
Definition getFreeList (ls : list (list PageRange)) (level : nat) : list (list PageRange) :=
  ls ++ replicate (level + 1 - length ls) [].

(** ** Operations *)

Definition addFreePages (m : FreeSpaceManager) (entry : PageRange) : option FreeSpaceManager :=
  level ← getLevel (numPages entry);
  let ls := getFreeList (freeLists m) level in
  cur ← ls !! level;
  if set_contains entry cur then None else
  Some (mkFSM (<[level := set_insert entry cur]> ls) (uncheckpointedFreePageRanges m)
    (u64 (numEntries m + 1)) (needClearEvictedEntries m)).

Definition splitPageRange (m : FreeSpaceManager) (chunk : PageRange) (numRequiredPages : Z) :
    option (FreeSpaceManager * PageRange) :=
  if decide (numRequiredPages ≤ numPages chunk) then
    let ret := mkRange (startPageIdx chunk) numRequiredPages in
    if decide (numRequiredPages < numPages chunk) then
      m ← addFreePages m (mkRange (u32 (startPageIdx chunk + numRequiredPages)) (u32 (numPages chunk - numRequiredPages)));
      Some (m, ret)
    else Some (m, ret)
  else None.

(** The levels searched by [popFreePages]: the entry found and the lists without it. *)
Fixpoint pop_levels (n : Z) (ls : list (list PageRange)) : option (PageRange * list (list PageRange)) :=
  match ls with
  | [] => None
  | l :: ls =>
      match lower_bound_erase (mkRange 0 n) l with
      | Some (e, l') => Some (e, l' :: ls)
      | None => '(e, ls') ← pop_levels n ls; Some (e, l :: ls')
      end
  end.

Definition popFreePages (m : FreeSpaceManager) (n : Z) : option (FreeSpaceManager * option PageRange) :=
  if decide (0 < n) then
    level ← getLevel n;
    match pop_levels n (drop level (freeLists m)) with
    | Some (entry, ls) =>
        let m := mkFSM (take level (freeLists m) ++ ls) (uncheckpointedFreePageRanges m)
          (u64 (numEntries m - 1)) (needClearEvictedEntries m) in
        '(m, r) ← splitPageRange m entry n; Some (m, Some r)
    | None => Some (m, None)
    end
  else Some (m, None).

Definition addUncheckpointedFreePages (m : FreeSpaceManager) (entry : PageRange) : FreeSpaceManager :=
  mkFSM (freeLists m) (uncheckpointedFreePageRanges m ++ [entry]) (numEntries m) (needClearEvictedEntries m).

Definition rollbackCheckpoint (m : FreeSpaceManager) : FreeSpaceManager :=
  mkFSM (freeLists m) [] (numEntries m) (needClearEvictedEntries m).

(** [evictPages]: every page of the entry is removed from its frame. *)
Definition evictPages (m : FreeSpaceManager) (fh : FileHandle) (entry : PageRange) : FreeSpaceManager * FileHandle :=
  (mkFSM (freeLists m) (uncheckpointedFreePageRanges m) (numEntries m) true,
   mkFile (fileNumPages fh) (pageCapacity fh) (numFrameGroups fh)
     (removedFromFrames fh ++ ((λ i, u32 (startPageIdx entry + i)) <$> seqZ 0 (numPages entry)))).

Definition evictAndAddFreePages (m : FreeSpaceManager) (fh : FileHandle) (entry : PageRange) :
    option (FreeSpaceManager * FileHandle) :=
  let '(m, fh) := evictPages m fh entry in
  m ← addFreePages m entry; Some (m, fh).

Definition resetFreeLists (m : FreeSpaceManager) : FreeSpaceManager :=
  mkFSM [] (uncheckpointedFreePageRanges m) 0 (needClearEvictedEntries m).

(** ** File handle *)

Definition PAGE_GROUP_SIZE : Z := 2 ^ 10.

Definition addNewPageWithoutLock (fh : FileHandle) : FileHandle :=
  let fh := if decide (fileNumPages fh = pageCapacity fh)
    then mkFile (fileNumPages fh) (u32 (pageCapacity fh + PAGE_GROUP_SIZE)) (numFrameGroups fh + 1) (removedFromFrames fh)
    else fh in
  mkFile (u32 (fileNumPages fh + 1)) (pageCapacity fh) (numFrameGroups fh) (removedFromFrames fh).

Definition addNewPages (fh : FileHandle) (numNewPages : Z) : FileHandle * Z :=
  (Nat.iter (Z.to_nat numNewPages) addNewPageWithoutLock fh, fileNumPages fh).

Definition removePageIdxAndTruncateIfNecessary (fh : FileHandle) (pageIdx : Z) : option FileHandle :=
  if decide (fileNumPages fh ≤ pageIdx) then Some fh else
  let numPageGroups := (pageIdx + PAGE_GROUP_SIZE - 1) / PAGE_GROUP_SIZE in
  if decide (numPageGroups = numFrameGroups fh)
  then Some (mkFile pageIdx (pageCapacity fh) (numFrameGroups fh) (removedFromFrames fh))
  else if decide (numPageGroups < numFrameGroups fh)
  then Some (mkFile pageIdx (u32 (numPageGroups * PAGE_GROUP_SIZE)) numPageGroups (removedFromFrames fh))
  else None.

(** ** Merging at the end of a checkpoint *)

Definition handleLastPageRange (m : FreeSpaceManager) (fh : FileHandle) (r : PageRange) :
    option (FreeSpaceManager * FileHandle) :=
  if decide (u32 (startPageIdx r + numPages r) = fileNumPages fh)
  then fh ← removePageIdxAndTruncateIfNecessary fh (startPageIdx r); Some (m, fh)
  else m ← addFreePages m r; Some (m, fh).

Fixpoint merge_loop (m : FreeSpaceManager) (prevEntry : PageRange) (rest : list PageRange) :
    option (FreeSpaceManager * PageRange) :=
  match rest with
  | [] => Some (m, prevEntry)
  | entry :: rest =>
      let prevEnd := u32 (startPageIdx prevEntry + numPages prevEntry) in
      if decide (prevEnd ≤ startPageIdx entry) then
        if decide (prevEnd = startPageIdx entry)
        then merge_loop m (mkRange (startPageIdx prevEntry) (u32 (numPages prevEntry + numPages entry))) rest
        else m ← addFreePages m prevEntry; merge_loop m entry rest
      else None
  end.

Section Merge.
Context (std_sort : list PageRange → list PageRange).

Definition mergePageRanges (m : FreeSpaceManager) (fh : FileHandle) (newInitialEntries : list PageRange) :
    option (FreeSpaceManager * FileHandle) :=
  let allEntries := newInitialEntries ++ concat (freeLists m) in
  if decide (allEntries = []) then Some (m, fh) else
  let m := resetFreeLists m in
  match std_sort allEntries with
  | [] => None
  | e :: rest => '(m, last) ← merge_loop m e rest; handleLastPageRange m fh last
  end.

Definition finalizeCheckpoint (m : FreeSpaceManager) (fh : FileHandle) : option (FreeSpaceManager * FileHandle) :=
  let '(m, fh) := foldl (λ '(m, fh) e, evictPages m fh e) (m, fh) (uncheckpointedFreePageRanges m) in
  '(m, fh) ← mergePageRanges m fh (uncheckpointedFreePageRanges m);
  Some (mkFSM (freeLists m) [] (numEntries m) (needClearEvictedEntries m), fh).

End Merge.

(** ** Iteration over the entries *)

Record FreeEntryIterator := mkIt { freeListIdx : nat; freeListIt : nat }.

Fixpoint skip_empty (ls : list (list PageRange)) (idx : nat) : nat :=
  match ls with [] :: ls => skip_empty ls (S idx) | _ => idx end.

Definition advanceFreeListIdx (ls : list (list PageRange)) (it : FreeEntryIterator) : FreeEntryIterator :=
  let idx := skip_empty (drop (freeListIdx it) ls) (freeListIdx it) in
  mkIt idx (if decide (idx < length ls)%nat then 0%nat else freeListIt it).

Definition it_begin (ls : list (list PageRange)) : FreeEntryIterator := advanceFreeListIdx ls (mkIt 0 0).

Definition it_next (ls : list (list PageRange)) (it : FreeEntryIterator) : option FreeEntryIterator :=
  l ← ls !! freeListIdx it;
  if decide (S (freeListIt it) = length l) then Some (advanceFreeListIdx ls (mkIt (S (freeListIdx it)) (S (freeListIt it))))
  else Some (mkIt (freeListIdx it) (S (freeListIt it))).

Definition it_done (ls : list (list PageRange)) (it : FreeEntryIterator) : bool :=
  bool_decide (length ls ≤ freeListIdx it)%nat.

Definition it_deref (ls : list (list PageRange)) (it : FreeEntryIterator) : option PageRange :=
  l ← ls !! freeListIdx it; l !! freeListIt it.

Definition it_advance (ls : list (list PageRange)) (it : FreeEntryIterator) (n : nat) : option FreeEntryIterator :=
  ofold (λ it _, it_next ls it) it (seq 0 n).

(** [getEntries(startOffset, endOffset)]. *)
Definition getEntries (m : FreeSpaceManager) (startOffset endOffset : nat) : option (list PageRange) :=
  if decide (startOffset ≤ endOffset)%nat then
    it ← it_advance (freeLists m) (it_begin (freeLists m)) startOffset;
    r ← ofold (λ '(it, ret) _,
      if it_done (freeLists m) it then None else
      e ← it_deref (freeLists m) it; it ← it_next (freeLists m) it; Some (it, ret ++ [e]))
      (it, []) (seq 0 (endOffset - startOffset));
    Some r.2
  else None.

(** ** Serialization

    The template parameter [ValueProcessor] of [serializeInternal] is an interface: what becomes of a value
    of some size, and of a string of the debugging information. *)

Class ValueProcessor (S : Type) := {
  processValue : nat → Z → S → option S;
  processDebuggingInfo : string → S → option S
}.

Record SerializePagesUsedTracker := mkTracker { numPagesUsed : Z; numBytesUsedInPage : Z }.

Definition updatePagesUsed (t : SerializePagesUsedTracker) (numBytesToAdd : Z) : SerializePagesUsedTracker :=
  let t := if decide (Z.of_nat KUZU_PAGE_SIZE < numBytesUsedInPage t + numBytesToAdd)
    then mkTracker (u32 (numPagesUsed t + 1)) 0 else t in
  mkTracker (numPagesUsed t) (numBytesUsedInPage t + numBytesToAdd).

Definition PagesUsedTracker : ValueProcessor SerializePagesUsedTracker := {|
  processValue n _ t := Some (updatePagesUsed t (Z.of_nat n));
  processDebuggingInfo s t := Some (updatePagesUsed t (8 + Z.of_nat (length (string_bytes s))))
|}.

Definition ValueSerializer (debug : bool) : ValueProcessor InMemFileWriter := {|
  processValue n v w := serializeValue n w v;
  processDebuggingInfo s w := writeDebuggingInfo debug w s
|}.

Section Processor.
Context {S : Type} (P : ValueProcessor S).

Fixpoint checkpointed_loop (fuel : nat) (ls : list (list PageRange)) (it : FreeEntryIterator) (n : Z) (s : S) :
    option (S * Z) :=
  if it_done ls it then Some (s, n) else
  match fuel with
  | O => None
  | Datatypes.S fuel =>
      entry ← it_deref ls it;
      s ← processValue 4 (startPageIdx entry) s;
      s ← processValue 4 (numPages entry) s;
      it ← it_next ls it;
      checkpointed_loop fuel ls it (n + 1) s
  end.

Definition serializeCheckpointedEntries (ls : list (list PageRange)) (s : S) : option (S * Z) :=
  checkpointed_loop (length (concat ls)) ls (it_begin ls) 0 s.

Definition serializeUncheckpointedEntries (l : list PageRange) (s : S) : option (S * Z) :=
  s ← ofold (λ s entry, s ← processValue 4 (startPageIdx entry) s; processValue 4 (numPages entry) s) s l;
  Some (s, Z.of_nat (length l)).

Definition serializeInternal (m : FreeSpaceManager) (s : S) : option S :=
  s ← processDebuggingInfo "page_manager" s;
  let n := u64 (numEntries m + Z.of_nat (length (uncheckpointedFreePageRanges m))) in
  s ← processDebuggingInfo "numEntries" s;
  s ← processValue 8 n s;
  s ← processDebuggingInfo "entries" s;
  '(s, n1) ← serializeCheckpointedEntries (freeLists m) s;
  '(s, n2) ← serializeUncheckpointedEntries (uncheckpointedFreePageRanges m) s;
  if decide (u64 (n1 + n2) = n) then Some s else None.

End Processor.

Definition getMaxNumPagesForSerialization (m : FreeSpaceManager) : option Z :=
  t ← serializeInternal PagesUsedTracker m (mkTracker 0 0);
  Some (u32 (numPagesUsed t + (if decide (0 < numBytesUsedInPage t) then 1 else 0))).

Definition serialize (debug : bool) (m : FreeSpaceManager) (w : InMemFileWriter) : option InMemFileWriter :=
  serializeInternal (ValueSerializer debug) m w.

Definition deserialize (debug : bool) (m : FreeSpaceManager) (r : list Z) : option (FreeSpaceManager * list Z) :=
  r ← validateDebuggingInfo debug r "page_manager";
  r ← validateDebuggingInfo debug r "numEntries";
  '(n, r) ← deserializeValue 8 r;
  r ← validateDebuggingInfo debug r "entries";
  ofold (λ '(m, r) _,
    '(start, r) ← deserializeValue 4 r;
    '(num, r) ← deserializeValue 4 r;
    m ← addFreePages m (mkRange start num); Some (m, r)) (m, r) (seq 0 (Z.to_nat n)).

(** ** Page manager *)

Record PageManager := mkPM { freeSpaceManager : FreeSpaceManager; fileHandle : FileHandle; version : Z }.

Definition allocatePageRange (pm : PageManager) (n : Z) : option (PageManager * PageRange) :=
  '(m, r) ← popFreePages (freeSpaceManager pm) n;
  match r with
  | Some r => Some (mkPM m (fileHandle pm) (u64 (version pm + 1)), r)
  | None =>
      let '(fh, start) := addNewPages (fileHandle pm) n in
      if decide (u32 (start + n) ≤ fileNumPages fh) then Some (mkPM m fh (version pm), mkRange start n) else None
  end.

Definition freePageRange (pm : PageManager) (entry : PageRange) : PageManager :=
  mkPM (addUncheckpointedFreePages (freeSpaceManager pm) entry) (fileHandle pm) (u64 (version pm + 1)).

Definition freeImmediatelyRewritablePageRange (pm : PageManager) (entry : PageRange) : option PageManager :=
  '(m, fh) ← evictAndAddFreePages (freeSpaceManager pm) (fileHandle pm) entry;
  Some (mkPM m fh (u64 (version pm + 1))).

Definition pm_finalizeCheckpoint (std_sort : list PageRange → list PageRange) (pm : PageManager) : option PageManager :=
  '(m, fh) ← finalizeCheckpoint std_sort (freeSpaceManager pm) (fileHandle pm);
  Some (mkPM m fh (version pm)).

Definition pm_rollbackCheckpoint (pm : PageManager) : PageManager :=
  mkPM (rollbackCheckpoint (freeSpaceManager pm)) (fileHandle pm) (version pm).

(** [Checkpointer::serializeMetadata], from the estimate on: [w] holds the rest of the metadata. The flush
    asserts that the range is large enough. *)
Definition serializeMetadata (debug : bool) (pm : PageManager) (w : InMemFileWriter) :
    option (PageManager * InMemFileWriter * PageRange) :=
  pagesForPageManager ← getMaxNumPagesForSerialization (freeSpaceManager pm);
  '(pm, allocated) ← allocatePageRange pm (u32 (Z.of_nat (getNumPagesToFlush w) + pagesForPageManager));
  w ← serialize debug (freeSpaceManager pm) w;
  if decide (Z.of_nat (getNumPagesToFlush w) ≤ numPages allocated) then Some (pm, w, allocated) else None.

(** [OptimisticAllocator] of [src/src/storage/optimistic_allocator.cpp]: the page manager with the ranges
    allocated through it. *)
Definition oa_allocatePageRange (s : PageManager * list PageRange) (n : Z) :
    option ((PageManager * list PageRange) * PageRange) :=
  '(pm, r) ← allocatePageRange s.1 n;
  Some ((pm, if decide (0 < n) then s.2 ++ [r] else s.2), r).

Definition oa_rollback (s : PageManager * list PageRange) : option (PageManager * list PageRange) :=
  pm ← ofold freeImmediatelyRewritablePageRange s.1 s.2; Some (pm, []).

(** ** Levels *)

Lemma countr_zero_pow w k : (k < w)%nat → countr_zero w (2 ^ Z.of_nat k) = k.
Proof.
  revert k. induction w as [|w IH]; intros k Hk; [lia|]. cbn [countr_zero].
  destruct k as [|k]; [done|]. rewrite Nat2Z.inj_succ, Z.pow_succ_r, Z.odd_mul by lia. cbn [Z.odd andb].
  rewrite Z.mul_comm, Z.div_mul by lia. rewrite IH by lia. done.
Qed.

Lemma getLevel_log2 n : 0 < n < 2 ^ 32 → getLevel n = Some (Z.to_nat (Z.log2 n)).
Proof.
  intros Hn. unfold getLevel, bit_floor. rewrite decide_True, decide_False by lia. f_equal.
  pose proof (Z.log2_nonneg n). pose proof (Z.log2_lt_pow2 n 32 ltac:(lia)).
  rewrite <-(Z2Nat.id (Z.log2 n)) at 1 by done. apply countr_zero_pow. lia.
Qed.

(** ** The order of a free list *)

Lemma entryCmp_spec a b : entryCmp a b = true ↔
  numPages a < numPages b ∨ numPages a = numPages b ∧ startPageIdx a < startPageIdx b.
Proof. unfold entryCmp. destruct (decide _); rewrite bool_decide_eq_true; lia. Qed.

Lemma entryCmp_false a b : entryCmp a b = false ↔
  numPages b < numPages a ∨ numPages a = numPages b ∧ startPageIdx b ≤ startPageIdx a.
Proof. unfold entryCmp. destruct (decide _); rewrite bool_decide_eq_false; lia. Qed.

Definition before (a b : PageRange) : Prop := entryCmp a b = true.

Lemma entryCmp_eq a b : entryCmp a b = false → entryCmp b a = false → a = b.
Proof. rewrite !entryCmp_false. destruct a, b; cbn. intros. f_equal; lia. Qed.

Lemma set_contains_spec e l : set_contains e l = true ↔ e ∈ l.
Proof.
  unfold set_contains. rewrite existsb_exists. split.
  - intros (x & Hx & Hc). apply list_elem_of_In in Hx. apply andb_true_iff in Hc as [H1 H2].
    apply negb_true_iff in H1, H2. by rewrite <-(entryCmp_eq x e).
  - intros H. exists e. rewrite <-list_elem_of_In. split; [done|].
    assert (entryCmp e e = false) as -> by (rewrite entryCmp_false; lia). done.
Qed.

Lemma set_insert_perm e l : e ∉ l → set_insert e l ≡ₚ e :: l.
Proof.
  induction l as [|x l IH]; intros Hn; [done|]. cbn. destruct (entryCmp e x) eqn:E1; [done|].
  destruct (entryCmp x e) eqn:E2.
  - rewrite IH by set_solver. by rewrite Permutation_swap.
  - exfalso. apply Hn. rewrite (entryCmp_eq e x) by done. by left.
Qed.

Lemma set_insert_sorted e l : StronglySorted before l → StronglySorted before (set_insert e l).
Proof.
  induction 1 as [|x l Hl IH Hx]; cbn; [by repeat constructor|].
  destruct (entryCmp e x) eqn:E1; [|destruct (entryCmp x e) eqn:E2].
  - constructor; [by constructor|]. constructor; [done|]. eapply Forall_impl; [exact Hx|]. cbn.
    intros y. unfold before in *. rewrite !entryCmp_spec in *. lia.
  - constructor; [done|]. rewrite Forall_forall in Hx |- *. intros y Hy.
    destruct (decide (e ∈ l)) as [He|He].
    + clear IH. assert (y ∈ e :: l) as Hy' by (revert Hy; clear; induction l as [|z l IH]; cbn; [done|];
        repeat case_match; set_solver). apply elem_of_cons in Hy' as [->|?]; auto.
    + rewrite set_insert_perm in Hy by done. apply elem_of_cons in Hy as [->|?]; auto.
  - by constructor.
Qed.

Lemma lower_bound_erase_Some k l e r : StronglySorted before l → lower_bound_erase k l = Some (e, r) →
  l ≡ₚ e :: r ∧ StronglySorted before r ∧ entryCmp e k = false ∧
  (∀ x, x ∈ r → entryCmp x k = false → before e x) ∧ (∀ x, x ∈ r → x ∈ l).
Proof.
  intros Hs. revert e r. induction Hs as [|x l Hl IH Hx]; intros e r; cbn; [done|].
  destruct (entryCmp x k) eqn:E.
  - destruct (lower_bound_erase k l) as [[e' r']|] eqn:El; cbn; [|done]. intros [= <- <-].
    destruct (IH e' r' eq_refl) as (Hp & Hr & He & Hb & Hi). split_and!.
    + rewrite Hp. by rewrite Permutation_swap.
    + constructor; [done|]. rewrite Forall_forall in Hx |- *. eauto.
    + done.
    + intros y [->|Hy]%elem_of_cons Hyk; [congruence|]. eauto.
    + intros y [->|Hy]%elem_of_cons; [by left|right; eauto].
  - intros [= <- <-]. split_and!; [done|done|done| |set_solver]. rewrite Forall_forall in Hx. intros y Hy _. by apply Hx.
Qed.

Lemma lower_bound_erase_None k l : lower_bound_erase k l = None → ∀ x, x ∈ l → entryCmp x k = true.
Proof.
  induction l as [|y l IH]; cbn; [set_solver|]. destruct (entryCmp y k) eqn:E; [|done].
  destruct (lower_bound_erase k l) as [[? ?]|]; [done|]. intros _ x [->|Hx]%elem_of_cons; eauto.
Qed.

(** ** The invariant

    The list of level [k] is in order and holds the ranges whose number of pages has [k] as its logarithm;
    the counter counts the entries. *)

Definition range_ok (e : PageRange) : Prop :=
  0 ≤ startPageIdx e ∧ 0 < numPages e ∧ startPageIdx e + numPages e < 2 ^ 32.

Definition level_ok (k : nat) (l : list PageRange) : Prop :=
  StronglySorted before l ∧ Forall (λ e, range_ok e ∧ Z.to_nat (Z.log2 (numPages e)) = k) l.

Definition levels_ok (b : nat) (ls : list (list PageRange)) : Prop :=
  ∀ k l, ls !! k = Some l → level_ok (b + k) l.

Definition entries (m : FreeSpaceManager) : list PageRange := concat (freeLists m).

Record fsm_ok (m : FreeSpaceManager) : Prop := {
  ok_levels : levels_ok 0 (freeLists m);
  ok_count : numEntries m = Z.of_nat (length (entries m));
  ok_bound : Z.of_nat (length (entries m)) < 2 ^ 32
}.

(** The pages of a range, and of several. *)
Definition pages_of (e : PageRange) : list Z := seqZ (startPageIdx e) (numPages e).
Definition all_pages (l : list PageRange) : list Z := l ≫= pages_of.

Lemma all_pages_app l1 l2 : all_pages (l1 ++ l2) = all_pages l1 ++ all_pages l2.
Proof. apply bind_app. Qed.

#[export] Instance all_pages_proper : Proper ((≡ₚ) ==> (≡ₚ)) all_pages.
Proof. intros l1 l2 H. unfold all_pages. by rewrite H. Qed.

Lemma levels_ok_cons b l ls : levels_ok b (l :: ls) ↔ level_ok b l ∧ levels_ok (S b) ls.
Proof.
  split.
  - intros H. split; [rewrite <-(Nat.add_0_r b); by apply (H 0%nat)|]. intros k l' Hk.
    replace (S b + k)%nat with (b + S k)%nat by lia. by apply (H (S k)).
  - intros [H1 H2] [|k] l' Hk; simplify_eq/=; [by rewrite Nat.add_0_r|].
    replace (b + S k)%nat with (S b + k)%nat by lia. by apply H2.
Qed.

Lemma levels_ok_app b l1 l2 : levels_ok b (l1 ++ l2) ↔ levels_ok b l1 ∧ levels_ok (b + length l1) l2.
Proof.
  revert b. induction l1 as [|l l1 IH]; intros b; cbn [app length].
  - rewrite Nat.add_0_r. split; [intros; split; [intros ? ?; by rewrite lookup_nil|done]|naive_solver].
  - rewrite !levels_ok_cons, IH. replace (S b + length l1)%nat with (b + S (length l1))%nat by lia. naive_solver.
Qed.

Lemma levels_ok_nils b n : levels_ok b (replicate n []).
Proof. intros k l [-> _]%lookup_replicate. split; constructor. Qed.

Lemma levels_entry b ls e : levels_ok b ls → e ∈ concat ls → range_ok e ∧ (b ≤ Z.to_nat (Z.log2 (numPages e)))%nat.
Proof.
  intros H. rewrite list_elem_of_In, in_concat. intros (l & Hl & He).
  rewrite <-list_elem_of_In in Hl. rewrite <-list_elem_of_In in He. apply list_elem_of_lookup_1 in Hl as [k Hk].
  destruct (H k l Hk) as [_ Hf]. rewrite Forall_forall in Hf. destruct (Hf e He) as [? ?]. split; [done|lia].
Qed.

Lemma concat_insert k (ls : list (list PageRange)) l l' e : ls !! k = Some l → l' ≡ₚ e :: l →
  concat (<[k := l']> ls) ≡ₚ e :: concat ls.
Proof.
  revert k. induction ls as [|x ls IH]; intros [|k] Hk Hp; simplify_eq/=.
  - by rewrite Hp.
  - rewrite (IH k) by done. by rewrite Permutation_middle.
Qed.

Lemma getFreeList_facts ls k : concat (getFreeList ls k) = concat ls ∧
  (levels_ok 0 ls → levels_ok 0 (getFreeList ls k)) ∧ is_Some (getFreeList ls k !! k).
Proof.
  unfold getFreeList. split_and!.
  - rewrite concat_app. rewrite <-(app_nil_r (concat ls)) at 2. f_equal. generalize (k + 1 - length ls)%nat.
    intros n. by induction n.
  - intros H. apply levels_ok_app. split; [done|apply levels_ok_nils].
  - apply lookup_lt_is_Some. rewrite length_app, length_replicate. lia.
Qed.

(** [addFreePages] puts a new range among the entries. *)
Lemma addFreePages_spec m e : fsm_ok m → range_ok e → e ∉ entries m → Z.of_nat (length (entries m)) + 1 < 2 ^ 32 →
  ∃ m', addFreePages m e = Some m' ∧ fsm_ok m' ∧ entries m' ≡ₚ e :: entries m ∧
    uncheckpointedFreePageRanges m' = uncheckpointedFreePageRanges m ∧
    needClearEvictedEntries m' = needClearEvictedEntries m.
Proof.
  intros [Hl Hc Hb] Hr Hn Hlen. unfold addFreePages. destruct Hr as (Hs & Hp & He).
  rewrite getLevel_log2 by lia. cbn [mbind option_bind]. set (k := Z.to_nat (Z.log2 (numPages e))).
  destruct (getFreeList_facts (freeLists m) k) as (Hcat & Hok & [cur Hcur]). rewrite Hcur. cbn [mbind option_bind].
  assert (e ∉ cur) as Hec.
  { intros Hin. apply Hn. unfold entries. rewrite <-Hcat, list_elem_of_In, in_concat. exists cur.
    rewrite <-!list_elem_of_In. split; [by eapply list_elem_of_lookup_2|done]. }
  destruct (set_contains e cur) eqn:E; [by rewrite set_contains_spec in E|].
  assert (concat (<[k:=set_insert e cur]> (getFreeList (freeLists m) k)) ≡ₚ e :: entries m) as Hperm.
  { rewrite (concat_insert k _ cur _ e) by (done || by apply set_insert_perm). by rewrite Hcat. }
  eexists. split; [done|]. split; [split|]; unfold entries; cbn.
  - intros j l Hj. destruct (decide (j = k)) as [->|Hjk].
    + rewrite list_lookup_insert_eq in Hj by (by apply lookup_lt_Some in Hcur). simplify_eq.
      destruct (Hok Hl k cur Hcur) as [Hso Hfo]. split; [by apply set_insert_sorted|].
      rewrite set_insert_perm by done. constructor; [|done]. split; [done|]. done.
    + rewrite list_lookup_insert_ne in Hj by done. by apply (Hok Hl).
  - rewrite Hperm, Hc. cbn. rewrite u64_id; [unfold entries in *; lia|unfold entries in *; lia].
  - rewrite Hperm. cbn. unfold entries in *. lia.
  - done.
Qed.

(** The entry found is the least one that is large enough. *)
Lemma pop_levels_spec n b ls : 0 < n → levels_ok b ls →
  match pop_levels n ls with
  | Some (e, ls') => concat ls ≡ₚ e :: concat ls' ∧ levels_ok b ls' ∧ length ls' = length ls ∧ n ≤ numPages e ∧
      (∀ x, x ∈ concat ls' → n ≤ numPages x → before e x)
  | None => ∀ x, x ∈ concat ls → numPages x < n
  end.
Proof.
  intros Hn. revert b. induction ls as [|l ls IH]; intros b Hok; cbn [pop_levels]; [set_solver|].
  apply levels_ok_cons in Hok as [Hl Hls]. pose proof Hl as [Hso Hfo]. rewrite Forall_forall in Hfo.
  assert (∀ x, x ∈ l → entryCmp x (mkRange 0 n) = false ↔ n ≤ numPages x) as Hkey.
  { intros x Hx. destruct (Hfo x Hx) as [(? & ? & ?) _]. rewrite entryCmp_false. cbn. lia. }
  destruct (lower_bound_erase (mkRange 0 n) l) as [[e l']|] eqn:E.
  - destruct (lower_bound_erase_Some _ _ _ _ Hso E) as (Hp & Hs' & He & Hb & Hi).
    assert (e ∈ l) as Hel by (rewrite Hp; by left).
    cbn [concat]. split_and!.
    + by rewrite Hp.
    + apply levels_ok_cons. split; [|done]. split; [done|]. apply Forall_forall. eauto.
    + done.
    + by apply Hkey.
    + intros x [Hx|Hx]%elem_of_app Hnx; [apply Hb; [done|]; apply Hkey; eauto|].
      destruct (levels_entry _ _ _ Hls Hx) as [(? & ? & ?) Hlev]. destruct (Hfo e Hel) as [(? & ? & ?) Hle].
      unfold before. rewrite entryCmp_spec. left. destruct (Z.lt_ge_cases (numPages e) (numPages x)); [done|].
      assert (Z.log2 (numPages x) ≤ Z.log2 (numPages e)) by (by apply Z.log2_le_mono). pose proof (Z.log2_nonneg (numPages x)). lia.
  - pose proof (lower_bound_erase_None _ _ E) as Hnone.
    assert (∀ x, x ∈ l → numPages x < n) as Hsmall.
    { intros x Hx. pose proof (Hnone x Hx) as Hc. destruct (Z.lt_ge_cases (numPages x) n) as [|Hge]; [done|].
      apply Hkey in Hge; [congruence|done]. }
    specialize (IH (S b) Hls). destruct (pop_levels n ls) as [[e ls']|]; cbn [mbind option_bind concat].
    + destruct IH as (Hp & Hok' & Hlen & Hne & Hb). split_and!; [|by apply levels_ok_cons|cbn; lia|done|].
      * rewrite Hp. by rewrite Permutation_middle.
      * intros x [Hx|Hx]%elem_of_app Hnx; [specialize (Hsmall x Hx); lia|eauto].
    + intros x [Hx|Hx]%elem_of_app; eauto.
Qed.

Lemma elem_of_all_pages p l : p ∈ all_pages l ↔ ∃ e, e ∈ l ∧ startPageIdx e ≤ p < startPageIdx e + numPages e.
Proof. unfold all_pages. rewrite list_elem_of_bind. setoid_rewrite elem_of_seqZ. naive_solver. Qed.

Lemma NoDup_all_pages_cons e l : NoDup (all_pages (e :: l)) ↔
  NoDup (all_pages l) ∧ ∀ p, startPageIdx e ≤ p < startPageIdx e + numPages e → p ∉ all_pages l.
Proof.
  unfold all_pages. cbn [mbind list_bind]. rewrite NoDup_app. setoid_rewrite elem_of_seqZ.
  split; [naive_solver|]. intros [? ?]. split_and!; [apply NoDup_seqZ|naive_solver|done].
Qed.

(** A range that shares a page with one of the file cannot be an entry as well. *)
Lemma fresh_entry e l p : startPageIdx e ≤ p < startPageIdx e + numPages e → p ∉ all_pages l → e ∉ l.
Proof. intros Hp Hn He. apply Hn, elem_of_all_pages. eauto. Qed.

Lemma pages_of_split e n : 0 ≤ n ≤ numPages e →
  pages_of e = pages_of (mkRange (startPageIdx e) n) ++ pages_of (mkRange (startPageIdx e + n) (numPages e - n)).
Proof.
  intros Hn. unfold pages_of. cbn. replace (numPages e) with (n + (numPages e - n)) at 1 by lia.
  apply seqZ_app; lia.
Qed.

(** What a request for [n] pages returns: the head of the smallest range that fits, or nothing when no
    range does; the pages are those of before. *)
Definition popped (m m' : FreeSpaceManager) (n : Z) (r : option PageRange) : Prop :=
  match r with
  | Some r => ∃ e, e ∈ entries m ∧ n ≤ numPages e ∧ r = mkRange (startPageIdx e) n ∧
      (∀ x, x ∈ entries m → n ≤ numPages x → x = e ∨ before e x) ∧
      all_pages (entries m) ≡ₚ pages_of r ++ all_pages (entries m')
  | None => m' = m ∧ (0 < n → ∀ x, x ∈ entries m → numPages x < n)
  end.

(** The entries of the levels below the one of [n] are too small. *)
Lemma levels_below n k ls : levels_ok 0 ls → (length ls ≤ k)%nat → k = Z.to_nat (Z.log2 n) →
  ∀ x, x ∈ concat ls → numPages x < n.
Proof.
  intros Hok Hlen -> x. rewrite list_elem_of_In, in_concat. intros (l & Hx & He).
  rewrite <-list_elem_of_In in Hx. rewrite <-list_elem_of_In in He. apply list_elem_of_lookup_1 in Hx as [j Hj].
  destruct (Hok j l Hj) as [_ Hf]. rewrite Forall_forall in Hf. destruct (Hf x He) as [_ Hx].
  apply lookup_lt_Some in Hj.
  destruct (Z.lt_ge_cases (numPages x) n) as [|Hge]; [done|]. apply Z.log2_le_mono in Hge. cbn in Hx. lia.
Qed.

Lemma popFreePages_spec m n : fsm_ok m → NoDup (all_pages (entries m)) → n < 2 ^ 32 →
  ∃ m' r, popFreePages m n = Some (m', r) ∧ fsm_ok m' ∧ popped m m' n r ∧
    uncheckpointedFreePageRanges m' = uncheckpointedFreePageRanges m ∧
    (length (entries m') ≤ length (entries m))%nat.
Proof.
  intros Hm Hnd Hn. unfold popFreePages. destruct (decide (0 < n)) as [Hn0|Hn0]; [|exists m, None; split_and!; [done|done|split; [done|lia]|done|lia]].
  rewrite getLevel_log2 by lia. cbn [mbind option_bind]. set (k := Z.to_nat (Z.log2 n)).
  pose proof Hm as [Hl Hc Hb]. rewrite <-(take_drop k (freeLists m)) in Hl. apply levels_ok_app in Hl as [Hl1 Hl2].
  assert (levels_ok k (drop k (freeLists m))) as Hl2'.
  { destruct (decide (k ≤ length (freeLists m))%nat); [by rewrite length_take_le in Hl2 by done|].
    rewrite drop_ge by lia. intros ? ?. by rewrite lookup_nil. }
  assert (∀ x, x ∈ concat (take k (freeLists m)) → numPages x < n) as Hsmall.
  { apply (levels_below n k); [done|rewrite length_take; lia|done]. }
  assert (entries m = concat (take k (freeLists m)) ++ concat (drop k (freeLists m))) as Ee.
  { unfold entries. by rewrite <-concat_app, take_drop. }
  pose proof (pop_levels_spec n k _ Hn0 Hl2') as Hpop.
  destruct (pop_levels n (drop k (freeLists m))) as [[e ls]|]; [|].
  2:{ exists m, None. split_and!; [done|done| |done|lia]. split; [done|]. intros _ x Hx. rewrite Ee in Hx.
      apply elem_of_app in Hx as [Hx|Hx]; eauto. }
  destruct Hpop as (Hp & Hls & Hlen & Hne & Hbest).
  set (m1 := mkFSM _ _ _ _).
  assert (entries m ≡ₚ e :: entries m1) as Hperm.
  { rewrite Ee. unfold m1, entries. cbn [freeLists]. rewrite concat_app, Hp. by rewrite Permutation_middle. }
  assert (length (entries m) = S (length (entries m1))) as Hlen1 by (by rewrite Hperm).
  assert (fsm_ok m1) as Hm1.
  { split; [|unfold m1 at 1; cbn [numEntries]; rewrite u64_id; lia|lia]. unfold m1. cbn [freeLists]. apply levels_ok_app.
    split; [done|]. destruct (decide (k ≤ length (freeLists m))%nat); [by rewrite length_take_le by done|].
    rewrite drop_ge in Hlen by lia. destruct ls; [|done]. intros ? ?. by rewrite lookup_nil. }
  assert (range_ok e) as (He1 & He2 & He3).
  { eapply levels_entry; [exact Hl2'|]. rewrite Hp. by left. }
  assert (∀ x, x ∈ entries m → n ≤ numPages x → x = e ∨ before e x) as Hleast.
  { intros x Hx Hnx. rewrite Ee in Hx. apply elem_of_app in Hx as [Hx|Hx]; [specialize (Hsmall x Hx); lia|].
    rewrite Hp in Hx. apply elem_of_cons in Hx as [->|Hx]; [by left|right; eauto]. }
  assert (e ∈ entries m) as Hein by (rewrite Hperm; by left).
  rewrite Hperm in Hnd. apply NoDup_all_pages_cons in Hnd as [Hnd1 Hdis].
  unfold splitPageRange. rewrite decide_True by done. destruct (decide (n < numPages e)) as [Hlt|Hge].
  - rewrite !u32_id by lia. set (rem := mkRange (startPageIdx e + n) (numPages e - n)).
    destruct (addFreePages_spec m1 rem) as (m2 & E2 & Hm2 & Hp2 & Hu2 & _); [done|unfold rem, range_ok; cbn; lia| |lia|].
    { apply (fresh_entry _ _ (startPageIdx e + n)); [unfold rem; cbn; lia|]. apply Hdis. lia. }
    rewrite E2. cbn [mbind option_bind]. eexists m2, _. split; [done|]. split_and!; [done| |by rewrite Hu2|apply Permutation_length in Hp2; cbn [length] in Hp2; lia].
    exists e. split_and!; [done|done|done|done|]. rewrite Hperm, Hp2. unfold all_pages. cbn [mbind list_bind].
    rewrite (pages_of_split e n) by lia. by rewrite app_assoc.
  - cbn [mbind option_bind]. eexists m1, _. split; [done|]. split_and!; [done| |done|lia].
    exists e. split_and!; [done|done|done|done|]. rewrite Hperm. unfold all_pages. cbn [mbind list_bind].
    by replace (mkRange (startPageIdx e) n) with e by (destruct e; cbn in *; f_equal; lia).
Qed.

(** ** The file *)

Record file_ok (fh : FileHandle) : Prop := {
  ok_pages : 0 ≤ fileNumPages fh ≤ pageCapacity fh;
  ok_capacity : pageCapacity fh = numFrameGroups fh * PAGE_GROUP_SIZE;
  ok_width : pageCapacity fh < 2 ^ 32
}.

Lemma addNewPages_spec fh n : file_ok fh → 0 ≤ n → fileNumPages fh + n ≤ 2 ^ 32 - PAGE_GROUP_SIZE →
  ∃ fh', addNewPages fh n = (fh', fileNumPages fh) ∧ file_ok fh' ∧ fileNumPages fh' = fileNumPages fh + n ∧
    removedFromFrames fh' = removedFromFrames fh.
Proof.
  intros Hfh Hn Hmax. eexists. split; [done|]. pose proof (Z2Nat.id n Hn) as En. revert En. generalize (Z.to_nat n).
  intros k <-. induction k as [|k IH]; [cbn; split_and!; [done|lia|done]|].
  destruct IH as ([H1 H2 H3] & H4 & H5); [lia|lia|].
  change (Nat.iter (S k) addNewPageWithoutLock fh) with (addNewPageWithoutLock (Nat.iter k addNewPageWithoutLock fh)).
  set (fh1 := Nat.iter k addNewPageWithoutLock fh) in *. clearbody fh1. unfold PAGE_GROUP_SIZE in *.
  unfold addNewPageWithoutLock, PAGE_GROUP_SIZE. destruct (decide (fileNumPages fh1 = pageCapacity fh1)); cbn.
  all: rewrite !u32_id by lia; split_and!; [split; unfold PAGE_GROUP_SIZE; cbn; lia|lia|done].
Qed.

Lemma truncate_spec fh p : file_ok fh → 0 ≤ p < fileNumPages fh →
  ∃ fh', removePageIdxAndTruncateIfNecessary fh p = Some fh' ∧ file_ok fh' ∧ fileNumPages fh' = p ∧
    removedFromFrames fh' = removedFromFrames fh.
Proof.
  intros [H1 H2 H3] Hp. unfold removePageIdxAndTruncateIfNecessary, PAGE_GROUP_SIZE in *.
  rewrite decide_False by lia. set (g := (p + 2 ^ 10 - 1) / 2 ^ 10).
  assert (p ≤ g * 2 ^ 10 < p + 2 ^ 10) as Hg.
  { unfold g. pose proof (Z.div_mod (p + 2 ^ 10 - 1) (2 ^ 10)). pose proof (Z.mod_pos_bound (p + 2 ^ 10 - 1) (2 ^ 10)). lia. }
  destruct (decide (g = numFrameGroups fh)) as [Eg|].
  - eexists. split_and!; [done| |done|done]. split; cbn; unfold PAGE_GROUP_SIZE; lia.
  - rewrite decide_True by lia. eexists. split_and!; [done| |done|done]. rewrite u32_id by lia. split; cbn; unfold PAGE_GROUP_SIZE; lia.
Qed.

(** ** Merging *)

Definition range_end (e : PageRange) : Z := startPageIdx e + numPages e.
Definition starts_after (a b : PageRange) : Prop := range_end a ≤ startPageIdx b.
Definition gap (a b : PageRange) : Prop := range_end a < startPageIdx b.

Lemma disjoint_sorted l : StronglySorted (λ a b, startPageIdx a ≤ startPageIdx b) l → Forall range_ok l →
  NoDup (all_pages l) → StronglySorted starts_after l.
Proof.
  induction 1 as [|a l Hl IH Ha]; intros Hr Hnd; [constructor|]. inversion Hr as [|? ? (? & ? & ?) Hr']; subst.
  apply NoDup_all_pages_cons in Hnd as [Hnd Hdis]. constructor; [auto|]. rewrite Forall_forall in Ha, Hr' |- *.
  intros b Hb. unfold starts_after, range_end. specialize (Ha b Hb). destruct (Hr' b Hb) as (? & ? & ?).
  destruct (Z.le_gt_cases (startPageIdx a + numPages a) (startPageIdx b)) as [|Hgt]; [done|].
  exfalso. apply (Hdis (startPageIdx b)); [lia|]. apply elem_of_all_pages. exists b. split; [done|lia].
Qed.

(** The loop coalesces adjacent ranges: the ranges it leaves cover the same pages in order, with gaps
    between them. *)
Lemma merge_loop_spec rest m prev : fsm_ok m → Forall range_ok (prev :: rest) →
  StronglySorted starts_after (prev :: rest) → (∀ x, x ∈ entries m → gap x prev) →
  Z.of_nat (length (entries m) + length rest) + 1 < 2 ^ 32 →
  ∃ m' last out, merge_loop m prev rest = Some (m', last) ∧ fsm_ok m' ∧ entries m' ≡ₚ out ++ entries m ∧
    StronglySorted gap (out ++ [last]) ∧ all_pages (out ++ [last]) = all_pages (prev :: rest) ∧
    range_ok last ∧ (∀ x, x ∈ out ++ [last] → startPageIdx prev ≤ startPageIdx x) ∧
    uncheckpointedFreePageRanges m' = uncheckpointedFreePageRanges m ∧
    needClearEvictedEntries m' = needClearEvictedEntries m ∧ (length out ≤ length rest)%nat.
Proof.
  revert m prev. induction rest as [|e rest IH]; intros m prev Hm Hr Hs Hbefore Hlen; cbn [merge_loop].
  { exists m, prev, []. apply Forall_cons in Hr as [Hr _].
    split_and!; try done; [by repeat constructor|]. intros x ->%list_elem_of_singleton. lia. }
  apply Forall_cons in Hr as [(Hp1 & Hp2 & Hp3) Hr]. pose proof Hr as [(He1 & He2 & He3) Hr']%Forall_cons.
  apply StronglySorted_inv in Hs as [Hs Hall]. pose proof (Forall_inv Hall) as Hpe. unfold starts_after, range_end in Hpe.
  rewrite u32_id by lia. rewrite decide_True by done.
  destruct (decide (startPageIdx prev + numPages prev = startPageIdx e)) as [Eq|Ne].
  - rewrite u32_id by lia. set (prev' := mkRange (startPageIdx prev) (numPages prev + numPages e)).
    destruct (IH m prev') as (m' & l & out & H1 & H2 & H3 & H4 & H5 & H6 & H7 & H8 & H9 & H10).
    { done. } { constructor; [|done]. unfold prev', range_ok. cbn. lia. }
    { apply StronglySorted_inv in Hs as [Hs He]. constructor; [done|]. eapply Forall_impl; [exact He|].
      unfold starts_after, range_end, prev'. cbn. intros x. lia. }
    { intros x Hx. apply (Hbefore x Hx). } { cbn [length] in Hlen. lia. }
    exists m', l, out. split_and!; try done; [|cbn; lia]. rewrite H5. unfold all_pages. cbn [mbind list_bind].
    rewrite app_assoc. f_equal. rewrite (pages_of_split prev' (numPages prev)) by (unfold prev'; cbn; lia).
    unfold prev', pages_of. cbn. do 2 f_equal; lia.
  - cbn [length] in Hlen.
    destruct (addFreePages_spec m prev) as (m1 & A1 & A2 & A3 & A4 & A5); [done|done| |lia|].
    { intros Hin. specialize (Hbefore prev Hin). unfold gap, range_end in Hbefore. lia. }
    rewrite A1. cbn [mbind option_bind].
    destruct (IH m1 e) as (m' & l & out & H1 & H2 & H3 & H4 & H5 & H6 & H7 & H8 & H9 & H10); [done|done|done| | |].
    { intros x. rewrite A3. unfold gap, range_end. intros [->|Hx]%elem_of_cons; [lia|].
      specialize (Hbefore x Hx). unfold gap, range_end in Hbefore. lia. }
    { apply Permutation_length in A3. cbn [length] in A3. lia. }
    exists m', l, (prev :: out). split_and!; try done.
    + rewrite H3, A3. by rewrite <-Permutation_middle.
    + cbn [app]. constructor; [done|]. apply Forall_forall. intros x Hx. specialize (H7 x Hx). unfold gap, range_end. lia.
    + cbn [app]. unfold all_pages in *. cbn [mbind list_bind] in *. by rewrite H5.
    + cbn [app]. intros x [->|Hx]%elem_of_cons; [lia|]. specialize (H7 x Hx). lia.
    + by rewrite H8.
    + by rewrite H9.
    + cbn. lia.
Qed.

Lemma ranges_bounded l N : Forall range_ok l → NoDup (all_pages l) → (∀ p, p ∈ all_pages l → 0 ≤ p < N) →
  (length l ≤ Z.to_nat N)%nat.
Proof.
  intros Hr Hnd Hp. transitivity (length (all_pages l)).
  - clear Hnd Hp. unfold all_pages. induction Hr as [|e l (? & ? & ?) Hr IH]; [done|]. cbn [mbind list_bind length].
    assert (length (pages_of e) = Z.to_nat (numPages e)) by apply length_seqZ. rewrite length_app. lia.
  - rewrite <-(length_seqZ 0 N). apply submseteq_length, NoDup_submseteq; [done|].
    intros p ?%Hp. apply elem_of_seqZ. lia.
Qed.

Lemma evict_all_spec l m fh : Forall range_ok l →
  ∃ b, foldl (λ '(m, fh) e, evictPages m fh e) (m, fh) l =
    (mkFSM (freeLists m) (uncheckpointedFreePageRanges m) (numEntries m) b,
     mkFile (fileNumPages fh) (pageCapacity fh) (numFrameGroups fh) (removedFromFrames fh ++ all_pages l)).
Proof.
  intros Hl. revert m fh. induction Hl as [|e l (He1 & He2 & He3) Hl IH]; intros m fh.
  - exists (needClearEvictedEntries m). cbn. rewrite app_nil_r. by destruct m, fh.
  - edestruct IH as [b Hb]. exists b. cbn [foldl evictPages]. etrans; [exact Hb|]. cbn. f_equal. f_equal. rewrite <-app_assoc. f_equal. f_equal.
    unfold pages_of. apply list_eq. intros i. rewrite list_lookup_fmap.
    destruct (decide (Z.of_nat i < numPages e)).
    + rewrite !lookup_seqZ_lt by done. cbn. f_equal. rewrite u32_id; lia.
    + by rewrite !lookup_seqZ_ge by lia.
Qed.

Lemma sorted_before_last (R : relation PageRange) l last a : StronglySorted R (l ++ [last]) → a ∈ l → R a last.
Proof.
  induction l as [|x l IH]; intros Hs Ha; [by apply not_elem_of_nil in Ha|].
  apply StronglySorted_inv in Hs as [Hs Hx]. apply elem_of_cons in Ha as [->|Ha]; [|auto].
  rewrite Forall_forall in Hx. apply Hx. set_solver.
Qed.

Section FinalizeSpec.
Context (std_sort : list PageRange → list PageRange).
Context (Hsort : ∀ l, std_sort l ≡ₚ l ∧ StronglySorted (λ a b, startPageIdx a ≤ startPageIdx b) (std_sort l)).

(** What a merge leaves: the same pages, but for those at the end of the file, which are cut off; no two
    entries are adjacent, and none ends where the file does. *)
Definition merged (m m' : FreeSpaceManager) (fh fh' : FileHandle) (l : list PageRange) : Prop :=
  fsm_ok m' ∧ file_ok fh' ∧ 0 ≤ fileNumPages fh' ≤ fileNumPages fh ∧
  all_pages l ≡ₚ all_pages (entries m') ++ seqZ (fileNumPages fh') (fileNumPages fh - fileNumPages fh') ∧
  (∀ a b, a ∈ entries m' → b ∈ entries m' → range_end a ≠ startPageIdx b) ∧
  (∀ a, a ∈ entries m' → range_end a < fileNumPages fh') ∧
  removedFromFrames fh' = removedFromFrames fh.

Lemma gaps_apart l a b : StronglySorted gap l → Forall range_ok l → a ∈ l → b ∈ l → range_end a ≠ startPageIdx b.
Proof.
  intros Hg Hr. revert a b. induction Hg as [|x l Hg IH Hx]; intros a b Ha Hb; [by apply not_elem_of_nil in Ha|].
  apply Forall_cons in Hr as [(? & ? & ?) Hr]. rewrite Forall_forall in Hx.
  apply elem_of_cons in Ha as [->|Ha], Hb as [->|Hb]; unfold gap, range_end in *.
  - lia.
  - specialize (Hx b Hb). lia.
  - specialize (Hx a Ha). rewrite Forall_forall in Hr. destruct (Hr a Ha) as (? & ? & ?). lia.
  - by apply IH.
Qed.

Lemma mergePageRanges_spec m fh l : fsm_ok m → file_ok fh → Forall range_ok l →
  NoDup (all_pages (l ++ entries m)) → (∀ p, p ∈ all_pages (l ++ entries m) → 0 ≤ p < fileNumPages fh) →
  ∃ m' fh', mergePageRanges std_sort m fh l = Some (m', fh') ∧ merged m m' fh fh' (l ++ entries m) ∧
    uncheckpointedFreePageRanges m' = uncheckpointedFreePageRanges m.
Proof.
  intros Hm Hfh Hl Hnd Hin. unfold mergePageRanges. change (concat (freeLists m)) with (entries m).
  destruct (decide (l ++ entries m = [])) as [E|E].
  { exists m, fh. split; [done|]. split; [|done]. rewrite E. apply app_eq_nil in E as [_ E].
    pose proof Hfh as [? _ _]. split_and!; [done|done|lia|lia| | | |done].
    - by rewrite E, Z.sub_diag.
    - rewrite E. intros a b Ha. by apply not_elem_of_nil in Ha.
    - rewrite E. intros a Ha. by apply not_elem_of_nil in Ha. }
  destruct (Hsort (l ++ entries m)) as [Hp Hso].
  assert (Forall range_ok (l ++ entries m)) as Hr.
  { apply Forall_app. split; [done|]. apply Forall_forall. intros x Hx. eapply levels_entry; [apply Hm|exact Hx]. }
  assert (Z.of_nat (length (l ++ entries m)) ≤ fileNumPages fh) as Hlen.
  { pose proof (ranges_bounded _ _ Hr Hnd Hin). destruct Hfh as [? _ _]. lia. }
  destruct (std_sort (l ++ entries m)) as [|e rest] eqn:Es.
  { apply Permutation_nil in Hp. by rewrite Hp in E. }
  rewrite <-Hp in Hr, Hnd, Hlen. destruct Hfh as [Hf1 Hf2 Hf3].
  destruct (merge_loop_spec rest (resetFreeLists m) e) as (m1 & last & out & M1 & M2 & M3 & M4 & M5 & M6 & M7 & M8 & _ & M10).
  { split; cbn; [intros ? ?; by rewrite lookup_nil|done|lia]. } { done. }
  { by apply disjoint_sorted. } { intros x Hx. by apply not_elem_of_nil in Hx. }
  { cbn in Hlen |- *. unfold PAGE_GROUP_SIZE in *. lia. }
  rewrite M1. cbn [mbind option_bind]. unfold entries at 2 in M3. cbn [resetFreeLists freeLists concat] in M3. rewrite app_nil_r in M3.
  assert (all_pages (l ++ entries m) ≡ₚ all_pages out ++ pages_of last) as Hpages.
  { rewrite <-Hp, <-M5, all_pages_app. unfold all_pages at 2. cbn. by rewrite app_nil_r. }
  assert (Forall range_ok out) as Hro.
  { apply Forall_forall. intros x Hx. eapply levels_entry; [apply M2|]. change (x ∈ entries m1). by rewrite M3. }
  pose proof M6 as (L1 & L2 & L3).
  assert (range_end last ≤ fileNumPages fh) as Hend.
  { assert (range_end last - 1 ∈ all_pages (l ++ entries m)) as Hi%Hin; [|lia].
    rewrite Hpages. apply elem_of_app. right. apply elem_of_seqZ. unfold range_end. lia. }
  assert (∀ a, a ∈ out → gap a last) as Hgl by (intros a; by apply sorted_before_last).
  assert (∀ a b, a ∈ out ++ [last] → b ∈ out ++ [last] → range_end a ≠ startPageIdx b) as Hap.
  { intros a b. apply gaps_apart; [done|]. apply Forall_app. split; [done|by repeat constructor]. }
  unfold handleLastPageRange. rewrite u32_id by lia.
  destruct (decide (startPageIdx last + numPages last = fileNumPages fh)) as [El|El].
  - destruct (truncate_spec fh (startPageIdx last)) as (fh' & T1 & T2 & T3 & T4); [by split|lia|].
    rewrite T1. cbn [mbind option_bind]. exists m1, fh'. split; [done|]. split; [|by rewrite M8].
    split_and!; [done|done|lia|lia| | | |done]; rewrite ?T3.
    + rewrite Hpages, M3. f_equiv. unfold pages_of. f_equiv. lia.
    + intros a b. rewrite !M3. intros Ha Hb. apply Hap; apply elem_of_app; by left.
    + intros a. rewrite M3. intros Ha. by apply Hgl.
  - destruct (addFreePages_spec m1 last) as (m2 & A1 & A2 & A3 & A4 & _); [done|done| | |].
    { rewrite M3. intros Hx. specialize (Hgl last Hx). unfold gap, range_end in Hgl. lia. }
    { apply Permutation_length in M3. rewrite M3. cbn in Hlen. unfold PAGE_GROUP_SIZE in *. lia. }
    rewrite A1. cbn [mbind option_bind]. exists m2, fh. split; [done|]. split; [|by rewrite A4, M8].
    assert (entries m2 ≡ₚ out ++ [last]) as E2 by (rewrite A3, M3; apply Permutation_cons_append).
    split_and!; [done|by split|lia|lia| | | |done].
    + rewrite Hpages, E2, all_pages_app, Z.sub_diag. unfold all_pages at 3. cbn. by rewrite !app_nil_r.
    + intros a b. rewrite !E2. apply Hap.
    + intros a. rewrite E2. intros [Ha| ->%list_elem_of_singleton]%elem_of_app; [|unfold range_end in *; lia].
      specialize (Hgl a Ha). unfold gap, range_end in *. lia.
Qed.

Lemma finalizeCheckpoint_spec m fh : fsm_ok m → file_ok fh → Forall range_ok (uncheckpointedFreePageRanges m) →
  NoDup (all_pages (uncheckpointedFreePageRanges m ++ entries m)) →
  (∀ p, p ∈ all_pages (uncheckpointedFreePageRanges m ++ entries m) → 0 ≤ p < fileNumPages fh) →
  ∃ m' fh', finalizeCheckpoint std_sort m fh = Some (m', fh') ∧
    merged m m' (mkFile (fileNumPages fh) (pageCapacity fh) (numFrameGroups fh)
      (removedFromFrames fh ++ all_pages (uncheckpointedFreePageRanges m))) fh'
      (uncheckpointedFreePageRanges m ++ entries m) ∧
    uncheckpointedFreePageRanges m' = [].
Proof.
  intros Hm Hfh Hu Hnd Hin. unfold finalizeCheckpoint.
  destruct (evict_all_spec _ m fh Hu) as [b Hb]. rewrite Hb. cbn [uncheckpointedFreePageRanges].
  match goal with |- context [mergePageRanges std_sort ?m1 ?fh1 ?l] =>
    destruct (mergePageRanges_spec m1 fh1 l) as (m' & fh' & E & Hmer & _) end; [| |done..|].
  { destruct Hm as [? ? ?]. by split. } { destruct Hfh as [? ? ?]. by split. }
  rewrite E. cbn [mbind option_bind]. eexists _, _. split; [done|]. split; [|done].
  destruct Hmer as ([? ? ?] & ? & ? & ? & ? & ? & ?). split_and!; [by split|..]; done || lia.
Qed.

End FinalizeSpec.

(** ** Iteration visits the entries in order *)

Definition it_rest (ls : list (list PageRange)) (it : FreeEntryIterator) : list PageRange :=
  drop (freeListIt it) (default [] (ls !! freeListIdx it)) ++ concat (drop (S (freeListIdx it)) ls).

Definition it_valid (ls : list (list PageRange)) (it : FreeEntryIterator) : Prop :=
  ∀ l, ls !! freeListIdx it = Some l → (freeListIt it < length l)%nat.

Lemma skip_levels_spec ls i : ∃ k, skip_empty ls i = (i + k)%nat ∧ (k ≤ length ls)%nat ∧
  concat ls = concat (drop k ls) ∧ (∀ l, ls !! k = Some l → l ≠ []).
Proof.
  revert i. induction ls as [|l ls IH]; intros i; [exists 0%nat; by rewrite Nat.add_0_r|].
  destruct l as [|e l]; [|exists 0%nat; rewrite Nat.add_0_r; cbn; split_and!; [done|lia|done|by intros ? [= <-]]].
  destruct (IH (S i)) as (k & E & Hk & Hc & Hl). exists (S k). cbn. rewrite E.
  split_and!; [lia|lia|done|done].
Qed.

Lemma advance_spec ls idx pos : (idx ≤ length ls)%nat →
  it_rest ls (advanceFreeListIdx ls (mkIt idx pos)) = concat (drop idx ls) ∧
  it_valid ls (advanceFreeListIdx ls (mkIt idx pos)).
Proof.
  intros Hi. unfold advanceFreeListIdx. cbn [freeListIdx freeListIt].
  destruct (skip_levels_spec (drop idx ls) idx) as (k & -> & Hk & Hc & Hl).
  rewrite length_drop in Hk. rewrite drop_drop in Hc. setoid_rewrite lookup_drop in Hl.
  unfold it_rest, it_valid. cbn [freeListIdx freeListIt]. destruct (decide (idx + k < length ls)%nat) as [Hlt|Hge].
  - destruct (lookup_lt_is_Some_2 ls (idx + k) Hlt) as [l El]. rewrite El. cbn [default from_option]. rewrite drop_0. split.
    + rewrite Hc. by rewrite (drop_S _ _ _ El).
    + intros l' [= <-]. specialize (Hl l El). destruct l; [done|cbn; lia].
  - rewrite (lookup_ge_None_2 ls) by lia. split; [|done]. cbn [default]. rewrite drop_nil, Hc, !drop_ge by lia. done.
Qed.

Lemma it_begin_spec ls : it_rest ls (it_begin ls) = concat ls ∧ it_valid ls (it_begin ls).
Proof. unfold it_begin. apply (advance_spec ls 0 0). lia. Qed.

Lemma it_step ls it : it_valid ls it →
  if it_done ls it then it_rest ls it = []
  else ∃ e it', it_deref ls it = Some e ∧ it_next ls it = Some it' ∧ it_valid ls it' ∧ it_rest ls it = e :: it_rest ls it'.
Proof.
  intros Hv. unfold it_done. destruct (decide (length ls ≤ freeListIdx it)%nat) as [Hd|Hd].
  - rewrite bool_decide_true by done. unfold it_rest. rewrite (lookup_ge_None_2 ls), (drop_ge ls) by lia.
    cbn. by rewrite drop_nil.
  - rewrite bool_decide_false by done. destruct (lookup_lt_is_Some_2 ls (freeListIdx it)) as [l El]; [lia|].
    specialize (Hv l El). destruct (lookup_lt_is_Some_2 l _ Hv) as [e Ee].
    unfold it_deref, it_next. rewrite El. cbn [mbind option_bind]. rewrite Ee.
    assert (it_rest ls it = e :: drop (S (freeListIt it)) l ++ concat (drop (S (freeListIdx it)) ls)) as Hr.
    { unfold it_rest. rewrite El. change (default [] (Some l)) with l. by rewrite (drop_S _ _ _ Ee). }
    destruct (decide (S (freeListIt it) = length l)) as [Hlast|Hmid].
    + eexists _, _. split; [done|]. split; [done|].
      destruct (advance_spec ls (S (freeListIdx it)) (S (freeListIt it))) as [E V]; [apply lookup_lt_Some in El; lia|].
      split; [done|]. rewrite E, Hr, (drop_ge l) by lia. done.
    + eexists _, _. split; [done|]. split; [done|]. split.
      * intros l' El'. cbn in *. simplify_eq. lia.
      * rewrite Hr. unfold it_rest. cbn [freeListIdx freeListIt]. rewrite El. done.
Qed.

(** [getEntries] returns the entries between two offsets. *)
Lemma it_advance_spec ls n it : it_valid ls it → (n ≤ length (it_rest ls it))%nat →
  ∃ it', it_advance ls it n = Some it' ∧ it_valid ls it' ∧ it_rest ls it' = drop n (it_rest ls it).
Proof.
  unfold it_advance. generalize 0%nat. revert it. induction n as [|n IH]; intros it i Hv Hn; [by exists it; rewrite drop_0|].
  cbn [seq ofold]. pose proof (it_step ls it Hv) as Hs. destruct (it_done ls it); [rewrite Hs in Hn; cbn in Hn; lia|].
  destruct Hs as (e & it1 & _ & E1 & V1 & R1). rewrite E1. cbn [mbind option_bind]. rewrite R1 in Hn |- *. cbn in Hn.
  by apply IH; [|lia].
Qed.

Theorem getEntries_exact m startOffset endOffset : (startOffset ≤ endOffset ≤ length (entries m))%nat →
  getEntries m startOffset endOffset = Some (take (endOffset - startOffset) (drop startOffset (entries m))).
Proof.
  intros [H1 H2]. unfold getEntries. rewrite decide_True by done. unfold entries in *.
  destruct (it_begin_spec (freeLists m)) as [R0 V0]. rewrite <-R0 in H2 |- *.
  destruct (it_advance_spec (freeLists m) startOffset (it_begin (freeLists m))) as (it & -> & V & R); [done|lia|].
  cbn [mbind option_bind]. rewrite <-R.
  assert (endOffset - startOffset ≤ length (it_rest (freeLists m) it))%nat as Hn by (rewrite R, length_drop; lia).
  clear R R0 V0 H1 H2. revert Hn. generalize (endOffset - startOffset)%nat as n. intros n. revert it V.
  enough (∀ n it ret i, it_valid (freeLists m) it → (n ≤ length (it_rest (freeLists m) it))%nat →
    ∃ it', ofold (λ '(it, ret) _, if it_done (freeLists m) it then None else
      e ← it_deref (freeLists m) it; it ← it_next (freeLists m) it; Some (it, ret ++ [e])) (it, ret) (seq i n) =
      Some (it', ret ++ take n (it_rest (freeLists m) it))) as Haux.
  { intros it V Hn. destruct (Haux n it [] 0%nat V Hn) as [it' ->]. done. }
  clear n. induction n as [|n IH]; intros it ret i Hv Hn; [exists it; cbn; by rewrite app_nil_r|].
  cbn [seq ofold]. pose proof (it_step _ it Hv) as Hs. destruct (it_done _ it); [rewrite Hs in Hn; cbn in Hn; lia|].
  destruct Hs as (e & it1 & E0 & E1 & V1 & R1). rewrite E0. cbn [mbind option_bind]. rewrite E1. cbn [mbind option_bind].
  rewrite R1 in Hn |- *. cbn in Hn. destruct (IH it1 (ret ++ [e]) (S i) V1) as [it' E]; [lia|].
  exists it'. rewrite E. cbn. by rewrite <-app_assoc.
Qed.

(** ** Serialization as a sequence of actions *)

Inductive action := Val (n : nat) (v : Z) | Info (s : string).

Definition run {S} (P : ValueProcessor S) (acts : list action) (s : S) : option S :=
  ofold (λ s a, match a with Val n v => processValue n v s | Info x => processDebuggingInfo x s end) s acts.

Definition entry_actions (e : PageRange) : list action := [Val 4 (startPageIdx e); Val 4 (numPages e)].

Definition fsm_actions (m : FreeSpaceManager) : list action :=
  [Info "page_manager"; Info "numEntries";
   Val 8 (Z.of_nat (length (entries m ++ uncheckpointedFreePageRanges m))); Info "entries"] ++
  ((entries m ++ uncheckpointedFreePageRanges m) ≫= entry_actions).

Lemma run_app {S} (P : ValueProcessor S) l1 l2 s : run P (l1 ++ l2) s = run P l1 s ≫= run P l2.
Proof. apply ofold_app. Qed.

Lemma checkpointed_loop_run {S} (P : ValueProcessor S) ls fuel it n s :
  it_valid ls it → (length (it_rest ls it) ≤ fuel)%nat →
  checkpointed_loop P fuel ls it n s =
    (s' ← run P (it_rest ls it ≫= entry_actions) s; Some (s', n + Z.of_nat (length (it_rest ls it)))).
Proof.
  revert it n s. induction fuel as [|fuel IH]; intros it n s Hv Hlen; cbn [checkpointed_loop].
  all: pose proof (it_step ls it Hv) as Hs; destruct (it_done ls it).
  1, 3: rewrite Hs; cbn; by rewrite Z.add_0_r.
  all: destruct Hs as (e & it1 & E0 & E1 & V1 & R1); rewrite R1 in Hlen |- *; cbn [length] in Hlen.
  { lia. }
  rewrite E0. cbn [mbind option_bind list_bind]. rewrite run_app. unfold run at 2. cbn [entry_actions ofold].
  destruct (processValue 4 (startPageIdx e) s) as [s1|]; cbn [mbind option_bind]; [|done].
  destruct (processValue 4 (numPages e) s1) as [s2|]; cbn [mbind option_bind]; [|done].
  rewrite E1. cbn [mbind option_bind]. rewrite IH by (done || lia).
  destruct (run P _ s2); cbn; [|done]. do 2 f_equal. lia.
Qed.

Lemma uncheckpointed_run {S} (P : ValueProcessor S) l s :
  serializeUncheckpointedEntries P l s = (s' ← run P (l ≫= entry_actions) s; Some (s', Z.of_nat (length l))).
Proof.
  unfold serializeUncheckpointedEntries. f_equal. unfold run. revert s.
  induction l as [|e l IH]; intros s; [done|]. cbn [mbind list_bind ofold entry_actions app].
  destruct (processValue 4 (startPageIdx e) s) as [s1|]; cbn [mbind option_bind]; [|done].
  destruct (processValue 4 (numPages e) s1) as [s2|]; cbn [mbind option_bind]; [|done]. apply IH.
Qed.

Lemma serializeInternal_run {S} (P : ValueProcessor S) m s : fsm_ok m →
  Z.of_nat (length (entries m ++ uncheckpointedFreePageRanges m)) < 2 ^ 64 →
  serializeInternal P m s = run P (fsm_actions m) s.
Proof.
  intros [_ Hc _] Hlen. rewrite length_app in Hlen. unfold serializeInternal, fsm_actions.
  rewrite run_app, bind_app, length_app, Nat2Z.inj_add. unfold run at 2. cbn [ofold].
  rewrite Hc, u64_id by lia.
  destruct (processDebuggingInfo "page_manager" s) as [s1|]; cbn [mbind option_bind]; [|done].
  destruct (processDebuggingInfo "numEntries" s1) as [s2|]; cbn [mbind option_bind]; [|done].
  destruct (processValue 8 _ s2) as [s3|]; cbn [mbind option_bind]; [|done].
  destruct (processDebuggingInfo "entries" s3) as [s4|]; cbn [mbind option_bind]; [|done].
  rewrite run_app. unfold serializeCheckpointedEntries.
  destruct (it_begin_spec (freeLists m)) as [R V]. rewrite checkpointed_loop_run by (rewrite ?R; done).
  rewrite R. change (concat (freeLists m)) with (entries m).
  change (list_bind _ _ entry_actions (entries m)) with (entries m ≫= entry_actions).
  destruct (run P (entries m ≫= entry_actions) s4) as [s5|]; cbn [mbind option_bind]; [|done].
  rewrite uncheckpointed_run.
  change (list_bind _ _ entry_actions (uncheckpointedFreePageRanges m)) with (uncheckpointedFreePageRanges m ≫= entry_actions).
  destruct (run P (uncheckpointedFreePageRanges m ≫= entry_actions) s5) as [s6|]; cbn [mbind option_bind]; [|done].
  rewrite decide_True; [done|]. rewrite u64_id; lia.
Qed.

(** The bytes written, and their number with all debugging information. *)
Definition action_bytes (debug : bool) (a : action) : list Z :=
  match a with Val n v => int_bytes n v | Info s => info_bytes debug s end.
Definition action_size (a : action) : Z :=
  match a with Val n _ => Z.of_nat n | Info s => 8 + Z.of_nat (length (string_bytes s)) end.

Definition fsm_bytes (debug : bool) (m : FreeSpaceManager) : list Z := fsm_actions m ≫= action_bytes debug.

Lemma emits_actions debug acts : emits (run (ValueSerializer debug) acts) (acts ≫= action_bytes debug).
Proof.
  apply emits_ofold. intros [n v|s] _; cbn; auto with cj.
Qed.

Fixpoint total (acts : list action) : Z := match acts with [] => 0 | a :: acts => action_size a + total acts end.

Lemma total_app l1 l2 : total (l1 ++ l2) = total l1 + total l2.
Proof. induction l1; cbn [app total]; lia. Qed.

Lemma total_entries l : total (l ≫= entry_actions) = 8 * Z.of_nat (length l).
Proof. induction l as [|e l IH]; [done|]. cbn [mbind list_bind length]. rewrite total_app. rewrite IH. cbn. lia. Qed.

Lemma bytes_total debug acts : Z.of_nat (length (acts ≫= action_bytes debug)) ≤ total acts.
Proof.
  induction acts as [|a acts IH]; [done|]. cbn [mbind list_bind total]. rewrite length_app.
  assert (Z.of_nat (length (action_bytes debug a)) ≤ action_size a); [|lia].
  destruct a as [n v|s]; cbn; [by rewrite length_int_bytes|].
  destruct debug; cbn [info_bytes]; [rewrite length_app, length_int_bytes; lia|cbn; lia].
Qed.

(** The tracker counts at least as many pages as the bytes fill; it closes a page only when it is nearly
    full. *)
Lemma tracker_run acts t : Forall (λ a, 0 ≤ action_size a ≤ 24) acts →
  0 ≤ numPagesUsed t → 0 ≤ numBytesUsedInPage t ≤ 4096 → numPagesUsed t * 4072 + numBytesUsedInPage t + total acts < 2 ^ 40 →
  ∃ t', run PagesUsedTracker acts t = Some t' ∧ 0 ≤ numPagesUsed t' < 2 ^ 32 - 1 ∧ 0 ≤ numBytesUsedInPage t' ≤ 4096 ∧
    numPagesUsed t * 4096 + numBytesUsedInPage t + total acts ≤ numPagesUsed t' * 4096 + numBytesUsedInPage t'.
Proof.
  intros Ha. revert t. induction Ha as [|a acts Ha Hacts IH]; intros t Hp Hb Ht.
  { exists t. cbn in *. split_and!; done || lia. }
  cbn [total] in Ht.
  assert (0 ≤ total acts) as Htot. { clear -Hacts. induction Hacts; cbn [total]; lia. }
  unfold run. cbn [ofold]. set (t1 := updatePagesUsed t (action_size a)).
  assert (match a with Val n v => @processValue _ PagesUsedTracker n v t | Info x => @processDebuggingInfo _ PagesUsedTracker x t end = Some t1) as Et1
    by (by destruct a).
  rewrite Et1. cbn [mbind option_bind].
  assert (KUZU_PAGE_SIZE = Z.to_nat 4096) as EP by done.
  assert (0 ≤ numPagesUsed t1 ∧ 0 ≤ numBytesUsedInPage t1 ≤ 4096 ∧
    numPagesUsed t1 * 4072 + numBytesUsedInPage t1 ≤ numPagesUsed t * 4072 + numBytesUsedInPage t + action_size a ∧
    numPagesUsed t * 4096 + numBytesUsedInPage t + action_size a ≤ numPagesUsed t1 * 4096 + numBytesUsedInPage t1)
    as (H1 & H2 & H3 & H4).
  { unfold t1, updatePagesUsed. rewrite EP. destruct (decide _); cbn [numPagesUsed numBytesUsedInPage]; [rewrite u32_id by lia|]; lia. }
  destruct (IH t1) as (t' & E & ? & ? & ?); [done|done|lia|]. exists t'. cbn [total]. split_and!; [exact E|lia..].
Qed.

(** ** The page manager

    [live] are the ranges handed out and not freed. Every page of the file is in exactly one of them, or in
    one range that waits for a checkpoint, or in one free range. *)

Record pm_ok (pm : PageManager) (live : list PageRange) : Prop := {
  pm_fsm : fsm_ok (freeSpaceManager pm);
  pm_file : file_ok (fileHandle pm);
  pm_waiting : Forall range_ok (uncheckpointedFreePageRanges (freeSpaceManager pm));
  pm_pages : all_pages (live ++ uncheckpointedFreePageRanges (freeSpaceManager pm) ++ entries (freeSpaceManager pm))
    ≡ₚ seqZ 0 (fileNumPages (fileHandle pm))
}.

Lemma fsm_entries_ok m : fsm_ok m → Forall range_ok (entries m).
Proof. intros Hm. apply Forall_forall. intros x Hx. eapply levels_entry; [apply Hm|exact Hx]. Qed.

Lemma pm_page pm live p : pm_ok pm live →
  p ∈ all_pages (live ++ uncheckpointedFreePageRanges (freeSpaceManager pm) ++ entries (freeSpaceManager pm)) →
  0 ≤ p < fileNumPages (fileHandle pm).
Proof. intros [_ _ _ Hp]. rewrite Hp, elem_of_seqZ. lia. Qed.

Lemma pm_NoDup pm live : pm_ok pm live →
  NoDup (all_pages (live ++ uncheckpointedFreePageRanges (freeSpaceManager pm) ++ entries (freeSpaceManager pm))).
Proof. intros [_ _ _ Hp]. rewrite Hp. apply NoDup_seqZ. Qed.

Lemma file_width fh : file_ok fh → fileNumPages fh ≤ 2 ^ 32 - PAGE_GROUP_SIZE.
Proof. intros [? ? ?]. unfold PAGE_GROUP_SIZE in *. lia. Qed.

(** A range of pages of the file is a proper one. *)
Lemma live_range_ok pm live e live' : pm_ok pm live → all_pages live ≡ₚ pages_of e ++ all_pages live' → 0 < numPages e →
  range_ok e ∧ (∀ p, startPageIdx e ≤ p < startPageIdx e + numPages e → p ∉ all_pages (entries (freeSpaceManager pm))) ∧
  NoDup (all_pages (e :: entries (freeSpaceManager pm))).
Proof.
  intros Hpm Hlive He. pose proof (pm_NoDup pm live Hpm) as Hnd. pose proof (file_width _ (pm_file _ _ Hpm)) as Hw.
  assert (∀ p, startPageIdx e ≤ p < startPageIdx e + numPages e → 0 ≤ p < fileNumPages (fileHandle pm)) as Hin.
  { intros p Hp. apply (pm_page pm live p Hpm). rewrite all_pages_app, elem_of_app, Hlive, elem_of_app. left; left.
    by apply elem_of_seqZ. }
  unfold PAGE_GROUP_SIZE in *. pose proof (Hin (startPageIdx e) ltac:(lia)). pose proof (Hin (startPageIdx e + numPages e - 1) ltac:(lia)).
  rewrite !all_pages_app, Hlive in Hnd. apply NoDup_app in Hnd as (_ & Hd & Hnd). apply NoDup_app in Hnd as (_ & _ & Hnd).
  assert (∀ p, startPageIdx e ≤ p < startPageIdx e + numPages e → p ∉ all_pages (entries (freeSpaceManager pm))) as Hout.
  { intros p Hp Hx. apply (Hd p); [|set_solver]. apply elem_of_app. left. by apply elem_of_seqZ. }
  split_and!; [unfold range_ok; lia|done|]. apply NoDup_all_pages_cons. done.
Qed.

Lemma allocatePageRange_spec pm live n : pm_ok pm live → 0 ≤ n →
  fileNumPages (fileHandle pm) + n ≤ 2 ^ 32 - PAGE_GROUP_SIZE →
  ∃ pm' r, allocatePageRange pm n = Some (pm', r) ∧ pm_ok pm' (r :: live) ∧ numPages r = n ∧
    uncheckpointedFreePageRanges (freeSpaceManager pm') = uncheckpointedFreePageRanges (freeSpaceManager pm) ∧
    (length (entries (freeSpaceManager pm')) ≤ length (entries (freeSpaceManager pm)))%nat.
Proof.
  intros Hpm Hn Hmax. pose proof Hpm as [Hm Hf Hw Hp]. pose proof (pm_NoDup _ _ Hpm) as Hnd.
  unfold allocatePageRange. unfold PAGE_GROUP_SIZE in Hmax. pose proof (ok_pages _ Hf).
  destruct (popFreePages_spec (freeSpaceManager pm) n) as (m' & r & E & Hm' & Hr & Hu & Hlen); [done| |lia|].
  { rewrite !all_pages_app in Hnd. by apply NoDup_app in Hnd as (_ & _ & (_ & _ & Hnd)%NoDup_app). }
  rewrite E. cbn [mbind option_bind]. destruct r as [r|]; cbn [popped] in Hr.
  - destruct Hr as (e & _ & _ & -> & _ & Hperm). eexists _, _. split; [done|].
    split; [|split; [done|]; split; [by cbn|done]]. split; cbn; [done|done|by rewrite Hu|].
    rewrite Hu, <-Hp, !all_pages_app, Hperm. unfold all_pages. cbn [mbind list_bind]. solve_Permutation.
  - destruct Hr as [-> _]. destruct (addNewPages_spec (fileHandle pm) n) as (fh' & E' & Hf' & Hn' & _); [done|done|unfold PAGE_GROUP_SIZE; lia|].
    rewrite E'. rewrite u32_id by lia. rewrite decide_True by lia. eexists _, _. split; [done|].
    split; [|split; [done|]; split; [by cbn|done]]. split; cbn; [done|done|done|].
    rewrite Hn', seqZ_app, Z.add_0_l by lia. rewrite <-Hp, !all_pages_app. unfold all_pages at 1. cbn [mbind list_bind].
    unfold pages_of at 1. cbn. solve_Permutation.
Qed.

Lemma freePageRange_spec pm live e live' : pm_ok pm live → all_pages live ≡ₚ pages_of e ++ all_pages live' →
  0 < numPages e → pm_ok (freePageRange pm e) live'.
Proof.
  intros Hpm Hlive He. destruct (live_range_ok _ _ _ _ Hpm Hlive He) as (Hr & _ & _). destruct Hpm as [[? ? ?] Hf Hw Hp].
  split; cbn; [by split|done|apply Forall_app_2; [done|by constructor]|].
  rewrite <-Hp. unfold entries. cbn [freeLists]. rewrite !all_pages_app, Hlive. unfold all_pages at 3. cbn [mbind list_bind].
  rewrite app_nil_r. solve_Permutation.
Qed.

Lemma freeImmediately_spec pm live e live' : pm_ok pm live → all_pages live ≡ₚ pages_of e ++ all_pages live' →
  0 < numPages e → ∃ pm', freeImmediatelyRewritablePageRange pm e = Some pm' ∧ pm_ok pm' live' ∧
    uncheckpointedFreePageRanges (freeSpaceManager pm') = uncheckpointedFreePageRanges (freeSpaceManager pm).
Proof.
  intros Hpm Hlive He. destruct (live_range_ok _ _ _ _ Hpm Hlive He) as (Hr & Hout & Hnd).
  pose proof Hpm as [Hm Hf Hw Hp]. pose proof (file_width _ Hf) as Hwidth.
  unfold freeImmediatelyRewritablePageRange, evictAndAddFreePages. cbn [evictPages].
  match goal with |- context [addFreePages ?m1 e] =>
    destruct (addFreePages_spec m1 e) as (m' & E & Hm' & Hp' & Hu' & _) end; [by destruct Hm; split|done| | |].
  { apply (fresh_entry e _ (startPageIdx e)); [lia|]. apply Hout. lia. }
  { assert (length (e :: entries (freeSpaceManager pm)) ≤ Z.to_nat (fileNumPages (fileHandle pm)))%nat as Hlen.
    { apply ranges_bounded; [constructor; [done|by apply fsm_entries_ok]|done|]. intros p Hpe.
      apply (pm_page pm live p Hpm). rewrite !all_pages_app, Hlive, !elem_of_app. unfold all_pages in Hpe. cbn [mbind list_bind] in Hpe.
      apply elem_of_app in Hpe as [?|?]; [left; by left|by right; right]. }
    unfold PAGE_GROUP_SIZE in *. unfold entries in *. cbn [length freeLists] in *. pose proof (ok_pages _ Hf). lia. }
  rewrite E. cbn [mbind option_bind]. eexists. split; [done|]. cbn [uncheckpointedFreePageRanges] in Hu'.
  split; [|done]. split; cbn; [done|by destruct Hf; split|by rewrite Hu'|].
  rewrite Hu', Hp', <-Hp, !all_pages_app, Hlive. unfold entries at 1. cbn [freeLists]. unfold all_pages at 3. cbn [mbind list_bind].
  unfold all_pages, entries. solve_Permutation.
Qed.

Lemma rollbackCheckpoint_spec pm live : pm_ok pm live →
  pm_ok (pm_rollbackCheckpoint pm) (uncheckpointedFreePageRanges (freeSpaceManager pm) ++ live).
Proof.
  intros [[? ? ?] Hf Hw Hp]. split; cbn; [by split|done|constructor|]. rewrite <-Hp. unfold entries. cbn [freeLists].
  rewrite !all_pages_app. solve_Permutation.
Qed.

(** The calls of the page manager in any order. [live] after a failed checkpoint contains again what was to
    be freed by it; a caller frees pages it holds. *)
Section PageManagerSteps.
Context (std_sort : list PageRange → list PageRange).
Context (Hsort : ∀ l, std_sort l ≡ₚ l ∧ StronglySorted (λ a b, startPageIdx a ≤ startPageIdx b) (std_sort l)).

Inductive pm_step : PageManager * list PageRange → PageManager * list PageRange → Prop :=
  | step_allocate pm live n pm' r :
      0 ≤ n → fileNumPages (fileHandle pm) + n ≤ 2 ^ 32 - PAGE_GROUP_SIZE →
      allocatePageRange pm n = Some (pm', r) → pm_step (pm, live) (pm', r :: live)
  | step_free pm live e live' :
      all_pages live ≡ₚ pages_of e ++ all_pages live' → 0 < numPages e →
      pm_step (pm, live) (freePageRange pm e, live')
  | step_free_now pm live e live' pm' :
      all_pages live ≡ₚ pages_of e ++ all_pages live' → 0 < numPages e →
      freeImmediatelyRewritablePageRange pm e = Some pm' → pm_step (pm, live) (pm', live')
  | step_finalize pm live pm' :
      pm_finalizeCheckpoint std_sort pm = Some pm' → pm_step (pm, live) (pm', live)
  | step_rollback pm live :
      pm_step (pm, live) (pm_rollbackCheckpoint pm, uncheckpointedFreePageRanges (freeSpaceManager pm) ++ live).

Lemma pm_finalize_spec pm live : pm_ok pm live →
  ∃ pm', pm_finalizeCheckpoint std_sort pm = Some pm' ∧ pm_ok pm' live ∧
    uncheckpointedFreePageRanges (freeSpaceManager pm') = [] ∧
    (∀ a b, a ∈ entries (freeSpaceManager pm') → b ∈ entries (freeSpaceManager pm') → range_end a ≠ startPageIdx b) ∧
    (∀ a, a ∈ entries (freeSpaceManager pm') → range_end a < fileNumPages (fileHandle pm')) ∧
    removedFromFrames (fileHandle pm') =
      removedFromFrames (fileHandle pm) ++ all_pages (uncheckpointedFreePageRanges (freeSpaceManager pm)).
Proof.
  intros Hpm. pose proof Hpm as [Hm Hf Hw Hp]. pose proof (pm_NoDup _ _ Hpm) as Hnd. rewrite all_pages_app in Hnd.
  apply NoDup_app in Hnd as (_ & _ & Hnd). unfold pm_finalizeCheckpoint.
  destruct (finalizeCheckpoint_spec std_sort Hsort (freeSpaceManager pm) (fileHandle pm)) as (m' & fh' & E & Hmer & Hu); [done..| |].
  { intros p Hpe. apply (pm_page pm live p Hpm). rewrite all_pages_app. apply elem_of_app. by right. }
  rewrite E. cbn [mbind option_bind]. destruct Hmer as (Hm' & Hf' & H0 & Hperm & Hap & Hlast & Hrem). cbn in *.
  eexists. split; [done|]. split; [|by cbn]. split; cbn; [done|done|by rewrite Hu|]. rewrite Hu. cbn [app].
  apply (Permutation_app_inv_r (seqZ (fileNumPages fh') (fileNumPages (fileHandle pm) - fileNumPages fh'))).
  rewrite all_pages_app, <-app_assoc, <-Hperm, <-all_pages_app, Hp.
  rewrite <-(Z.add_0_l (fileNumPages fh')) at 2. rewrite <-seqZ_app by lia. f_equiv. lia.
Qed.

Lemma pm_step_ok s s' : pm_step s s' → pm_ok s.1 s.2 → pm_ok s'.1 s'.2.
Proof.
  intros Hs Hpm. destruct Hs as [pm live n pm' r Hn Hmax E|pm live e live' Hl He|pm live e live' pm' Hl He E|pm live pm' E|pm live];
    cbn [fst snd] in *.
  - by destruct (allocatePageRange_spec pm live n) as (? & ? & ? & ? & _); simplify_eq.
  - by eapply freePageRange_spec.
  - by destruct (freeImmediately_spec pm live e live') as (? & ? & ? & _); simplify_eq.
  - by destruct (pm_finalize_spec pm live) as (? & ? & ? & _); simplify_eq.
  - by apply rollbackCheckpoint_spec.
Qed.

Lemma pm_reachable_ok s s' : rtc pm_step s s' → pm_ok s.1 s.2 → pm_ok s'.1 s'.2.
Proof. induction 1; eauto using pm_step_ok. Qed.

End PageManagerSteps.

(** The metadata fits into the pages reserved for it before its size is known. *)
Lemma fsm_actions_small m : Forall (λ a, 0 ≤ action_size a ≤ 24) (fsm_actions m).
Proof.
  unfold fsm_actions. apply Forall_app. split; [repeat constructor; done|].
  apply Forall_forall. intros a (e & Ha & He)%list_elem_of_bind. cbn in Ha. set_unfold.
  destruct Ha as [->|[->|[]]]; done.
Qed.

Lemma total_fsm_actions m :
  total (fsm_actions m) = 61 + 8 * Z.of_nat (length (entries m ++ uncheckpointedFreePageRanges m)).
Proof. unfold fsm_actions. by rewrite total_app, total_entries. Qed.

Lemma estimate_spec m : fsm_ok m → Z.of_nat (length (entries m ++ uncheckpointedFreePageRanges m)) < 2 ^ 32 →
  ∃ k, getMaxNumPagesForSerialization m = Some k ∧ 0 ≤ k < 2 ^ 32 ∧ total (fsm_actions m) ≤ k * 4096.
Proof.
  intros Hm Hlen. unfold getMaxNumPagesForSerialization. rewrite serializeInternal_run by (done || lia).
  pose proof (total_fsm_actions m) as Ht.
  destruct (tracker_run (fsm_actions m) (mkTracker 0 0)) as (t & E & H1 & H2 & H3); [apply fsm_actions_small|done|done|cbn [numPagesUsed numBytesUsedInPage]; lia|].
  cbn [numPagesUsed numBytesUsedInPage] in H3. rewrite E. cbn [mbind option_bind].
  rewrite u32_id by (destruct (decide _); lia). eexists. split; [done|]. destruct (decide _); lia.
Qed.

Lemma serializeMetadata_spec debug pm live w k : pm_ok pm live → writer_ok w →
  getMaxNumPagesForSerialization (freeSpaceManager pm) = Some k →
  fileNumPages (fileHandle pm) + Z.of_nat (getNumPagesToFlush w) + k ≤ 2 ^ 32 - PAGE_GROUP_SIZE →
  ∃ pm' w' r, serializeMetadata debug pm w = Some (pm', w', r) ∧ pm_ok pm' (r :: live) ∧ writer_ok w' ∧
    flush w' = flush w ++ fsm_bytes debug (freeSpaceManager pm').
Proof.
  intros Hpm Hw Hk Hmax. pose proof Hpm as [Hm Hf Hwait Hp].
  assert (∀ pm1 live1, pm_ok pm1 live1 → Z.of_nat (length (entries (freeSpaceManager pm1) ++
    uncheckpointedFreePageRanges (freeSpaceManager pm1))) < 2 ^ 32) as Hbound.
  { intros pm1 live1 Hpm1. pose proof Hpm1 as [Hm1 Hf1 Hwait1 _]. pose proof (pm_NoDup _ _ Hpm1) as Hnd.
    rewrite all_pages_app in Hnd. apply NoDup_app in Hnd as (_ & _ & Hnd).
    assert (length (uncheckpointedFreePageRanges (freeSpaceManager pm1) ++ entries (freeSpaceManager pm1)) ≤
      Z.to_nat (fileNumPages (fileHandle pm1)))%nat as Hlen.
    { apply ranges_bounded; [apply Forall_app_2; [done|by apply fsm_entries_ok]|done|].
      intros p Hpp. apply (pm_page pm1 live1 p Hpm1). rewrite all_pages_app. apply elem_of_app. by right. }
    pose proof (file_width _ Hf1). pose proof (ok_pages _ Hf1). unfold PAGE_GROUP_SIZE in *. rewrite length_app in Hlen |- *. lia. }
  destruct (estimate_spec (freeSpaceManager pm)) as (k' & Ek & Hk0 & Htot); [done|by eapply Hbound|]. simplify_eq.
  unfold serializeMetadata. rewrite Hk. cbn [mbind option_bind].
  pose proof (ok_pages _ Hf). unfold PAGE_GROUP_SIZE in *. rewrite u32_id by lia.
  destruct (allocatePageRange_spec pm live (Z.of_nat (getNumPagesToFlush w) + k)) as (pm' & r & E & Hpm' & Hr & Hu & Hlen);
    [done|lia|unfold PAGE_GROUP_SIZE; lia|].
  rewrite E. cbn [mbind option_bind]. pose proof Hpm' as [Hm' _ _ _]. pose proof (Hbound _ _ Hpm') as Hb'.
  unfold serialize. rewrite serializeInternal_run by (done || lia).
  destruct (emits_actions debug (fsm_actions (freeSpaceManager pm')) w Hw) as (w' & Ew & Hw' & Hfl).
  rewrite Ew. cbn [mbind option_bind]. rewrite decide_True; [by eexists _, _, _|]. rewrite Hr.
  pose proof (writer_pages w Hw) as [_ W1]. pose proof (writer_pages w' Hw') as [W2 _]. rewrite Hfl, length_app in W2.
  pose proof (bytes_total debug (fsm_actions (freeSpaceManager pm'))) as Hbt.
  rewrite total_fsm_actions in Hbt, Htot. rewrite !length_app, Hu in *. unfold getNumPagesToFlush, KUZU_PAGE_SIZE in *. lia.
Qed.

(** Reading back the entries. *)
Lemma deserialize_entries l m r i : fsm_ok m → Forall range_ok l → NoDup (all_pages (l ++ entries m)) →
  Z.of_nat (length l + length (entries m)) < 2 ^ 32 - 1 →
  ∃ m', ofold (λ '(m, r) _, '(start, r) ← deserializeValue 4 r; '(num, r) ← deserializeValue 4 r;
      m ← addFreePages m (mkRange start num); Some (m, r))
    (m, ((l ≫= entry_actions) ≫= action_bytes false) ++ r) (seq i (length l)) = Some (m', r) ∧
    fsm_ok m' ∧ entries m' ≡ₚ l ++ entries m ∧
    uncheckpointedFreePageRanges m' = uncheckpointedFreePageRanges m.
Proof.
  intros Hm Hl. revert m i Hm. induction Hl as [|e l (He1 & He2 & He3) Hl IH]; intros m i Hm Hnd Hlen; [by exists m|].
  cbn [mbind list_bind entry_actions app action_bytes length seq ofold]. rewrite <-!app_assoc.
  rewrite deserializeValue_spec by (cbn; lia). cbn [mbind option_bind].
  rewrite deserializeValue_spec by (cbn; lia). cbn [mbind option_bind].
  cbn [app] in Hnd. apply NoDup_all_pages_cons in Hnd as [Hnd Hd].
  replace (mkRange (startPageIdx e) (numPages e)) with e by (by destruct e).
  destruct (addFreePages_spec m e) as (m1 & E1 & Hm1 & Hp1 & Hu1 & _); [done|done| |cbn in Hlen; lia|].
  { intros Hin. apply (Hd (startPageIdx e)); [lia|]. apply elem_of_all_pages. exists e. split; [set_solver|lia]. }
  rewrite E1. cbn [mbind option_bind].
  destruct (IH m1 (S i)) as (m' & E & Hm' & Hp' & Hu'); [done| | |].
  { rewrite Hp1, <-Permutation_middle. apply NoDup_all_pages_cons. done. }
  { apply Permutation_length in Hp1. rewrite Hp1. cbn [length] in *. lia. }
  exists m'. split; [exact E|]. split; [done|]. split; [|by rewrite Hu'].
  rewrite Hp', Hp1. by rewrite <-Permutation_middle.
Qed.

Lemma entry_bytes_debug debug l : (l ≫= entry_actions) ≫= action_bytes debug = (l ≫= entry_actions) ≫= action_bytes false.
Proof. induction l as [|e l IH]; [done|]. cbn [mbind list_bind entry_actions app action_bytes]. do 2 f_equal. exact IH. Qed.

Lemma fsm_deserialize_spec debug m r : fsm_ok m → Forall range_ok (uncheckpointedFreePageRanges m) →
  NoDup (all_pages (entries m ++ uncheckpointedFreePageRanges m)) →
  Z.of_nat (length (entries m ++ uncheckpointedFreePageRanges m)) < 2 ^ 32 - 1 →
  ∃ m', deserialize debug emptyFSM (fsm_bytes debug m ++ r) = Some (m', r) ∧ fsm_ok m' ∧
    entries m' ≡ₚ entries m ++ uncheckpointedFreePageRanges m ∧ uncheckpointedFreePageRanges m' = [].
Proof.
  intros Hm Hu Hnd Hlen. unfold fsm_bytes, fsm_actions. rewrite bind_app, entry_bytes_debug.
  cbn [mbind list_bind action_bytes]. rewrite app_nil_r, <-!app_assoc. unfold deserialize.
  rewrite validateDebuggingInfo_spec by (cbn; lia). cbn [mbind option_bind].
  rewrite validateDebuggingInfo_spec by (cbn; lia). cbn [mbind option_bind].
  rewrite deserializeValue_spec by (cbn; lia). cbn [mbind option_bind].
  rewrite validateDebuggingInfo_spec by (cbn; lia). cbn [mbind option_bind]. rewrite Nat2Z.id.
  destruct (deserialize_entries (entries m ++ uncheckpointedFreePageRanges m) emptyFSM r 0) as (m' & E & Hm' & Hp & Hu');
    [split; cbn; [intros ? ?; by rewrite lookup_nil|done|lia]|by apply Forall_app_2; [apply fsm_entries_ok|]|
     unfold entries at 2; cbn; by rewrite app_nil_r|unfold entries at 2; cbn [emptyFSM freeLists concat length]; lia|].
  exists m'. split; [exact E|]. split; [done|]. split; [|done]. rewrite Hp. unfold entries at 3. cbn. by rewrite app_nil_r.
Qed.

(** ** An example: a file of 16 pages, of which the first eight are in use, four are free and the last four
    wait for a checkpoint. *)

Definition start_le (a b : PageRange) : Prop := startPageIdx a ≤ startPageIdx b.

#[export] Instance start_le_dec : RelDecision start_le.
Proof. intros a b. unfold start_le. apply _. Defined.

#[export] Instance start_le_trans : Transitive start_le.
Proof. intros a b c. unfold start_le. lia. Qed.

#[export] Instance start_le_total : Total start_le.
Proof. intros a b. unfold start_le. lia. Qed.

Lemma merge_sort_sorts l : merge_sort start_le l ≡ₚ l ∧ StronglySorted (λ a b, startPageIdx a ≤ startPageIdx b) (merge_sort start_le l).
Proof. split; [apply merge_sort_Permutation|]. apply (StronglySorted_merge_sort start_le). Qed.

Definition example_fsm : FreeSpaceManager := mkFSM [[]; []; [mkRange 8 4]] [mkRange 12 4] 1 false.
Definition example_pm : PageManager := mkPM example_fsm (mkFile 16 1024 1 []) 0.

Lemma example_fsm_ok : fsm_ok example_fsm.
Proof.
  split; [|done|done]. intros [|[|[|k]]] l Hl; cbn in Hl; simplify_eq; split; repeat constructor; cbn; lia.
Qed.

Lemma example_pm_ok : pm_ok example_pm [mkRange 0 8].
Proof.
  split; [apply example_fsm_ok|split; cbn; done|repeat constructor; cbn; lia|]. by_eval.
Qed.

(** What a rollback frees becomes allocatable again. *)
Theorem optimistic_rollback_returns_pages pm live ns s : pm_ok pm live →
  ofold (λ s n, if decide (0 < n ∧ fileNumPages (fileHandle s.1) + n ≤ 2 ^ 32 - PAGE_GROUP_SIZE)
    then '(s, _) ← oa_allocatePageRange s n; Some s else None) (pm, []) ns = Some s →
  pm_ok s.1 (s.2 ++ live) ∧ ∃ pm', oa_rollback s = Some (pm', []) ∧ pm_ok pm' live.
Proof.
  intros Hpm.
  enough (∀ ns s0, pm_ok s0.1 (s0.2 ++ live) → Forall (λ e, 0 < numPages e) s0.2 →
    ofold (λ s n, if decide (0 < n ∧ fileNumPages (fileHandle s.1) + n ≤ 2 ^ 32 - PAGE_GROUP_SIZE)
      then '(s, _) ← oa_allocatePageRange s n; Some s else None) s0 ns = Some s →
    pm_ok s.1 (s.2 ++ live) ∧ Forall (λ e, 0 < numPages e) s.2) as Haux.
  { intros E. destruct (Haux ns (pm, [])) as [Hs Hpos]; [done|constructor|done|]. split; [done|].
    clear -Hs Hpos. destruct s as [pm1 l]. unfold oa_rollback. cbn [fst snd] in *. revert pm1 Hs.
    induction Hpos as [|e l He Hl IH]; intros pm1 Hs; [by exists pm1|]. cbn [ofold].
    destruct (freeImmediately_spec pm1 (e :: l ++ live) e (l ++ live)) as (pm2 & -> & H2 & _); [done|done|done|].
    cbn [mbind option_bind]. by apply IH. }
  clear ns. induction ns as [|n ns IH]; intros s0 H0 Hpos E; cbn [ofold] in E; [by simplify_eq|].
  destruct (decide _) as [[Hn Hmax]|]; [|done].
  destruct (allocatePageRange_spec s0.1 (s0.2 ++ live) n) as (pm1 & r & E1 & H1 & Hr & _); [done|lia|done|].
  unfold oa_allocatePageRange in E. rewrite E1 in E. cbn [mbind option_bind] in E. rewrite decide_True in E by done.
  refine (IH _ _ _ E); cbn [fst snd].
  - destruct H1 as [? ? ? Hp]. split; [done..|]. rewrite <-Hp. rewrite !all_pages_app. unfold all_pages. cbn [mbind list_bind].
    rewrite !app_nil_r, bind_app. solve_Permutation.
  - apply Forall_app. split; [done|]. constructor; [lia|constructor].
Qed.

(** C32. Page allocation is safe: after any sequence of allocations, frees (now or at the next checkpoint),
    checkpoints and failed checkpoints of the page manager, every page of the file is in exactly one place
    (a range in use, a range waiting for a checkpoint, or a free range), and a further allocation succeeds
    with a range of the size asked for that shares no page with a range in use. *)
Theorem page_manager_never_shares_pages std_sort pm0 live0 pm live
    (Hsort : ∀ l, std_sort l ≡ₚ l ∧ StronglySorted (λ a b, startPageIdx a ≤ startPageIdx b) (std_sort l))
    (Hinit : pm_ok pm0 live0) (Hrun : rtc (pm_step std_sort) (pm0, live0) (pm, live)) :
  all_pages (live ++ uncheckpointedFreePageRanges (freeSpaceManager pm) ++ entries (freeSpaceManager pm))
    ≡ₚ seqZ 0 (fileNumPages (fileHandle pm)) ∧
  ∀ n, 0 ≤ n → fileNumPages (fileHandle pm) + n ≤ 2 ^ 32 - PAGE_GROUP_SIZE →
    ∃ pm' r, allocatePageRange pm n = Some (pm', r) ∧ numPages r = n ∧ ∀ p, p ∈ pages_of r → p ∉ all_pages live.
Proof.
  pose proof (pm_reachable_ok std_sort Hsort _ _ Hrun Hinit) as Hpm. cbn [fst snd] in Hpm. split; [apply Hpm|].
  intros n Hn Hmax. destruct (allocatePageRange_spec pm live n Hpm Hn Hmax) as (pm' & r & E & Hpm' & Hr & _).
  exists pm', r. split; [done|]. split; [done|]. intros p Hp Hl. pose proof (pm_NoDup _ _ Hpm') as Hnd.
  cbn [app] in Hnd. apply NoDup_all_pages_cons in Hnd as [_ Hd]. apply elem_of_seqZ in Hp. apply (Hd p Hp).
  rewrite all_pages_app. apply elem_of_app. by left.
Qed.

Lemma page_manager_never_shares_pages_witness :
  ∃ pm' r, allocatePageRange (freePageRange example_pm (mkRange 4 4)) 3 = Some (pm', r) ∧ numPages r = 3 ∧
    ∀ p, p ∈ pages_of r → p ∉ all_pages [mkRange 0 4].
Proof.
  refine (proj2 (page_manager_never_shares_pages (merge_sort start_le) example_pm [mkRange 0 8]
    (freePageRange example_pm (mkRange 4 4)) [mkRange 0 4] merge_sort_sorts example_pm_ok _) 3 _ _); [|done|done].
  apply rtc_once, step_free; [by_eval|done].
Defined.

(** A request for pages takes the best fit: the smallest free range that is large enough (of those the
    first in the file) gives its first pages, the rest of it stays free, and no page is lost; nothing is
    returned exactly when every free range is too small. *)
Theorem popFreePages_best_fit m n (Hm : fsm_ok m) (Hnd : NoDup (all_pages (entries m))) (Hn : n < 2 ^ 32) :
  ∃ m' r, popFreePages m n = Some (m', r) ∧ fsm_ok m' ∧
    match r with
    | Some r => ∃ e, e ∈ entries m ∧ n ≤ numPages e ∧ r = mkRange (startPageIdx e) n ∧
        (∀ x, x ∈ entries m → n ≤ numPages x → x = e ∨ entryCmp e x = true) ∧
        all_pages (entries m) ≡ₚ pages_of r ++ all_pages (entries m')
    | None => m' = m ∧ (0 < n → ∀ x, x ∈ entries m → numPages x < n)
    end.
Proof. destruct (popFreePages_spec m n Hm Hnd Hn) as (m' & r & E & Hm' & Hr & _). by exists m', r. Qed.

(** C33. The end of a checkpoint makes the waiting pages free: it succeeds, keeps every page of the file
    accounted for, leaves no two adjacent free ranges and no free range at the end of the file (those pages
    are cut off), and removes exactly the waiting pages from the frames of the buffer manager. *)
Theorem checkpoint_merges_free_pages std_sort pm live
    (Hsort : ∀ l, std_sort l ≡ₚ l ∧ StronglySorted (λ a b, startPageIdx a ≤ startPageIdx b) (std_sort l))
    (Hpm : pm_ok pm live) :
  ∃ pm', pm_finalizeCheckpoint std_sort pm = Some pm' ∧ pm_ok pm' live ∧
    uncheckpointedFreePageRanges (freeSpaceManager pm') = [] ∧
    (∀ a b, a ∈ entries (freeSpaceManager pm') → b ∈ entries (freeSpaceManager pm') → range_end a ≠ startPageIdx b) ∧
    (∀ a, a ∈ entries (freeSpaceManager pm') → range_end a < fileNumPages (fileHandle pm')) ∧
    removedFromFrames (fileHandle pm') =
      removedFromFrames (fileHandle pm) ++ all_pages (uncheckpointedFreePageRanges (freeSpaceManager pm)).
Proof. by apply pm_finalize_spec. Qed.

Lemma checkpoint_merges_free_pages_witness :
  ∃ pm', pm_finalizeCheckpoint (merge_sort start_le) example_pm = Some pm' ∧ fileNumPages (fileHandle pm') = 8 ∧
    pm_ok pm' [mkRange 0 8].
Proof.
  destruct (checkpoint_merges_free_pages (merge_sort start_le) example_pm [mkRange 0 8] merge_sort_sorts example_pm_ok)
    as (pm' & E & Hpm & _).
  exists pm'. split; [done|]. split; [|done]. by vm_compute in E; simplify_eq.
Defined.

(** C34. The metadata of a checkpoint fits: the pages reserved from the estimate, before the allocation itself
    changes the free lists and before they are serialized, are enough for what is then written, in builds
    with and without debugging information; so the assertion of the flush holds. *)
Theorem checkpoint_metadata_fits debug pm live w k (Hpm : pm_ok pm live) (Hw : writer_ok w)
    (Hk : getMaxNumPagesForSerialization (freeSpaceManager pm) = Some k)
    (Hmax : fileNumPages (fileHandle pm) + Z.of_nat (getNumPagesToFlush w) + k ≤ 2 ^ 32 - PAGE_GROUP_SIZE) :
  ∃ pm' w' r, serializeMetadata debug pm w = Some (pm', w', r) ∧
    Z.of_nat (getNumPagesToFlush w') ≤ numPages r ∧ pm_ok pm' (r :: live) ∧
    flush w' = flush w ++ fsm_bytes debug (freeSpaceManager pm').
Proof.
  destruct (serializeMetadata_spec debug pm live w k Hpm Hw Hk Hmax) as (pm' & w' & r & E & H1 & _ & H3).
  exists pm', w', r. split_and!; [done| |done|done]. unfold serializeMetadata in E. rewrite Hk in E. cbn [mbind option_bind] in E.
  destruct (allocatePageRange _ _) as [[? ?]|]; [|done]. cbn [mbind option_bind] in E.
  destruct (serialize _ _ _); [|done]. cbn [mbind option_bind] in E. destruct (decide _); by simplify_eq.
Qed.

Lemma checkpoint_metadata_fits_witness :
  ∃ pm' w' r, serializeMetadata true example_pm emptyWriter = Some (pm', w', r) ∧
    Z.of_nat (getNumPagesToFlush w') ≤ numPages r.
Proof.
  destruct (checkpoint_metadata_fits true example_pm [mkRange 0 8] emptyWriter 1 example_pm_ok) as (pm' & w' & r & E & Hr & _);
    [by left|vm_compute; reflexivity|by vm_compute|].
  exists pm', w', r. exact (conj E Hr).
Defined.

(** C35. The free lists survive a restart: what [serialize] writes after any earlier contents of the writer,
    [deserialize] reads back into a manager with the same free ranges, those that waited for the checkpoint
    included. *)
Theorem free_space_roundtrip debug m w (Hm : fsm_ok m) (Hw : writer_ok w)
    (Hu : Forall range_ok (uncheckpointedFreePageRanges m))
    (Hnd : NoDup (all_pages (entries m ++ uncheckpointedFreePageRanges m)))
    (Hlen : Z.of_nat (length (entries m ++ uncheckpointedFreePageRanges m)) < 2 ^ 32 - 1) :
  ∃ w' m', serialize debug m w = Some w' ∧
    deserialize debug emptyFSM (drop (length (flush w)) (flush w')) = Some (m', []) ∧ fsm_ok m' ∧
    entries m' ≡ₚ entries m ++ uncheckpointedFreePageRanges m ∧ uncheckpointedFreePageRanges m' = [].
Proof.
  unfold serialize. rewrite serializeInternal_run by (done || lia).
  destruct (emits_actions debug (fsm_actions m) w Hw) as (w' & Ew & _ & Hfl).
  destruct (fsm_deserialize_spec debug m []) as (m' & E & H); [done..|]. exists w', m'. split; [done|].
  rewrite Hfl, drop_app_length. rewrite app_nil_r in E. by split.
Qed.

Lemma free_space_roundtrip_witness :
  ∃ w' m', serialize true example_fsm emptyWriter = Some w' ∧
    deserialize true emptyFSM (flush w') = Some (m', []) ∧ entries m' ≡ₚ [mkRange 8 4; mkRange 12 4].
Proof.
  destruct (free_space_roundtrip true example_fsm emptyWriter example_fsm_ok) as (w' & m' & E1 & E2 & _ & Hp & _);
    [by left|repeat constructor; cbn; lia|by_eval|done|].
  exists w', m'. exact (conj E1 (conj E2 Hp)).
Defined.
