(* ===== verification/VersionInfo.v ===== *)
(** Row versions: [VectorVersionInfo] and [VersionInfo] of [src/src/storage/table/version_info.cpp].

    A version is a 64-bit number: the ID of a running transaction (from [START_TRANSACTION_ID] on), the
    timestamp of a commit (below it), or [INVALID_TRANSACTION]. Rows of a chunk are numbered from 0 and
    grouped into vectors of [DEFAULT_VECTOR_CAPACITY]. An operation that throws returns the object as it is
    then, together with the exception; a failed assertion, a null pointer and an access out of range are
    [None]. *)

From S2P Require Import Prelude NullMask MultiwayIntersect SelVector Serialize.
From stdpp Require Import list_numbers.

Definition INVALID_TRANSACTION : Z := 2 ^ 64 - 1.
Definition START_TRANSACTION_ID : Z := 2 ^ 63.

Inductive InsertionStatus := NO_INSERTED | INSERTED_CHECK_VERSION | ALWAYS_INSERTED.
Inductive DeletionStatus := NO_DELETED | DELETED_CHECK_VERSION.

#[export] Instance InsertionStatus_eq_dec : EqDecision InsertionStatus.
Proof. solve_decision. Defined.
#[export] Instance DeletionStatus_eq_dec : EqDecision DeletionStatus.
Proof. solve_decision. Defined.

Record VectorVersionInfo := mkVersions {
  insertedVersions : option (list Z);
  deletedVersions : option (list Z);
  sameInsertionVersion : Z;
  sameDeletionVersion : Z;
  insertionStatus : InsertionStatus;
  deletionStatus : DeletionStatus
}.

#[export] Instance VectorVersionInfo_eq_dec : EqDecision VectorVersionInfo.
Proof. solve_decision. Defined.

Definition createVectorVersionInfo : VectorVersionInfo :=
  mkVersions None None INVALID_TRANSACTION INVALID_TRANSACTION NO_INSERTED NO_DELETED.

(** [initInsertionVersionArray] and [initDeletionVersionArray] allocate this array. *)
Definition initVersionArray : list Z := replicate DEFAULT_VECTOR_CAPACITY INVALID_TRANSACTION.

Definition isSameInsertionVersion (v : VectorVersionInfo) : bool := bool_decide (sameInsertionVersion v ≠ INVALID_TRANSACTION).
Definition isSameDeletionVersion (v : VectorVersionInfo) : bool := bool_decide (sameDeletionVersion v ≠ INVALID_TRANSACTION).

(** [array[i] = x]. *)
Definition write_version (a : list Z) (i : nat) (x : Z) : option (list Z) :=
  if decide (i < length a) then Some (<[i := x]> a) else None.

(** ** One vector *)

Definition vec_append (v : VectorVersionInfo) (transactionID : Z) (startRow numRows : nat) : option VectorVersionInfo :=
  let v := mkVersions (insertedVersions v) (deletedVersions v) (sameInsertionVersion v) (sameDeletionVersion v)
    INSERTED_CHECK_VERSION (deletionStatus v) in
  if decide (transactionID = sameInsertionVersion v) then Some v else
  if negb (isSameInsertionVersion v) && bool_decide (insertedVersions v = None) then
    Some (mkVersions (insertedVersions v) (deletedVersions v) transactionID (sameDeletionVersion v)
      (insertionStatus v) (deletionStatus v))
  else
    '(a, same) ← match insertedVersions v with
      | Some a => Some (a, sameInsertionVersion v)
      | None =>
          a ← ofold (λ a i, write_version a i (sameInsertionVersion v)) initVersionArray (seq 0 startRow);
          Some (a, INVALID_TRANSACTION)
      end;
    a ← ofold (λ a i,
      x ← a !! (startRow + i);
      if decide (x = INVALID_TRANSACTION) then write_version a (startRow + i) transactionID else None)
      a (seq 0 numRows);
    Some (mkVersions (Some a) (deletedVersions v) same (sameDeletionVersion v) (insertionStatus v) (deletionStatus v)).

Definition vec_delete_ (v : VectorVersionInfo) (transactionID : Z) (rowIdx : nat) : option (VectorVersionInfo * Res bool) :=
  let v := mkVersions (insertedVersions v) (deletedVersions v) (sameInsertionVersion v) (sameDeletionVersion v)
    (insertionStatus v) DELETED_CHECK_VERSION in
  if decide (transactionID = sameDeletionVersion v) then Some (v, Ret false) else
  if isSameDeletionVersion v then Some (v, Throw RuntimeException) else
  let a := default initVersionArray (deletedVersions v) in
  let with_array a := mkVersions (insertedVersions v) (Some a) (sameInsertionVersion v) (sameDeletionVersion v)
    (insertionStatus v) (deletionStatus v) in
  x ← a !! rowIdx;
  if decide (x = transactionID) then Some (with_array a, Ret false) else
  if decide (x ≠ INVALID_TRANSACTION) then Some (with_array a, Throw RuntimeException) else
  Some (with_array (<[rowIdx := transactionID]> a), Ret true).

Definition vec_setInsertCommitTS (v : VectorVersionInfo) (commitTS : Z) (startRow numRows : nat) : option VectorVersionInfo :=
  if isSameInsertionVersion v then
    Some (mkVersions (insertedVersions v) (deletedVersions v) commitTS (sameDeletionVersion v)
      (insertionStatus v) (deletionStatus v))
  else
    a ← insertedVersions v;
    a ← ofold (λ a i, write_version a i commitTS) a (seq startRow numRows);
    Some (mkVersions (Some a) (deletedVersions v) (sameInsertionVersion v) (sameDeletionVersion v)
      (insertionStatus v) (deletionStatus v)).

Definition vec_setDeleteCommitTS (v : VectorVersionInfo) (commitTS : Z) (startRow numRows : nat) : option VectorVersionInfo :=
  if isSameDeletionVersion v then
    Some (mkVersions (insertedVersions v) (deletedVersions v) (sameInsertionVersion v) commitTS
      (insertionStatus v) (deletionStatus v))
  else
    a ← deletedVersions v;
    a ← ofold (λ a i, write_version a i commitTS) a (seq startRow numRows);
    Some (mkVersions (insertedVersions v) (Some a) (sameInsertionVersion v) (sameDeletionVersion v)
      (insertionStatus v) (deletionStatus v)).

Definition vec_isDeleted (v : VectorVersionInfo) (startTS transactionID : Z) (rowIdx : nat) : option bool :=
  match deletionStatus v with
  | NO_DELETED => Some false
  | DELETED_CHECK_VERSION =>
      deletion ← (if isSameDeletionVersion v then Some (sameDeletionVersion v)
        else a ← deletedVersions v; a !! rowIdx);
      Some (bool_decide (deletion = transactionID) || bool_decide (deletion ≤ startTS)%Z)
  end.

Definition vec_isInserted (v : VectorVersionInfo) (startTS transactionID : Z) (rowIdx : nat) : option bool :=
  match insertionStatus v with
  | ALWAYS_INSERTED => Some true
  | NO_INSERTED => Some false
  | INSERTED_CHECK_VERSION =>
      insertion ← (if isSameInsertionVersion v then Some (sameInsertionVersion v)
        else a ← insertedVersions v; a !! rowIdx);
      Some (bool_decide (insertion = transactionID) || bool_decide (insertion ≤ startTS)%Z)
  end.

(** [isDeleted] is only asked when [isInserted] holds. *)
Definition inserted_not_deleted (v : VectorVersionInfo) (startTS transactionID : Z) (rowIdx : nat) : option bool :=
  i ← vec_isInserted v startTS transactionID rowIdx;
  if i : bool then negb <$> vec_isDeleted v startTS transactionID rowIdx else Some false.

Definition vec_isSelected (v : VectorVersionInfo) (startTS transactionID : Z) (rowIdx : nat) : option bool :=
  if decide (deletionStatus v = NO_DELETED ∧ insertionStatus v = ALWAYS_INSERTED) then Some true else
  if decide (insertionStatus v = NO_INSERTED) then Some false else
  inserted_not_deleted v startTS transactionID rowIdx.

(** Positions [startOutputPos + i] of the rows that satisfy [sel] are written to the buffer. *)
Definition write_selected (sv : SelectionVector) (startOutputPos numRows : nat) (sel : nat → option bool) :
    option SelectionVector :=
  '(sv, numSelected) ← ofold (λ '(sv, n) i,
      b ← sel i;
      if b : bool then sv ← write_buffer sv n (startOutputPos + i); Some (sv, n + 1) else Some (sv, n))
    (sv, selectedSize sv) (seq 0 numRows);
  setToFilteredSize sv numSelected.

Definition vec_getSelVectorForScan (v : VectorVersionInfo) (startTS transactionID : Z) (sv : SelectionVector)
    (startRow numRows startOutputPos : nat) : option SelectionVector :=
  if decide (deletionStatus v = NO_DELETED ∧ insertionStatus v = ALWAYS_INSERTED) then
    if isUnfiltered sv then setSelSize sv (selectedSize sv + numRows)
    else write_selected sv startOutputPos numRows (λ _, Some true)
  else if decide (insertionStatus v = NO_INSERTED) then Some sv
  else
    sv ← (if isUnfiltered sv then makeDynamic sv else Some sv);
    write_selected sv startOutputPos numRows (λ i, inserted_not_deleted v startTS transactionID (startRow + i)).

Definition vec_getNumDeletions (v : VectorVersionInfo) (startTS transactionID : Z) (startRow numRows : nat) : option nat :=
  if decide (deletionStatus v = NO_DELETED) then Some 0 else
  ofold (λ n i, b ← vec_isDeleted v startTS transactionID (startRow + i); Some (n + Nat.b2n b)) 0 (seq 0 numRows).

(** The rows are reset, and an array without versions is dropped. *)
Definition reset_versions (a : list Z) (startRow numRows : nat) : option (option (list Z)) :=
  a ← ofold (λ a i, write_version a i INVALID_TRANSACTION) a (seq startRow numRows);
  Some (if existsb (λ x, bool_decide (x ≠ INVALID_TRANSACTION)) a then Some a else None).

Definition vec_rollbackInsertions (v : VectorVersionInfo) (startRowInVector numRows : nat) : option VectorVersionInfo :=
  '(same, ins) ← (if isSameInsertionVersion v then Some (INVALID_TRANSACTION, insertedVersions v)
    else match insertedVersions v with
      | Some a => a ← reset_versions a startRowInVector numRows; Some (sameInsertionVersion v, a)
      | None => Some (sameInsertionVersion v, None)
      end);
  let none := bool_decide (ins = None) in
  Some (mkVersions ins (deletedVersions v) same (sameDeletionVersion v)
    (if none then NO_INSERTED else insertionStatus v) (if none then NO_DELETED else deletionStatus v)).

Definition vec_rollbackDeletions (v : VectorVersionInfo) (startRowInVector numRows : nat) : option VectorVersionInfo :=
  '(same, del) ← (if isSameDeletionVersion v then Some (INVALID_TRANSACTION, deletedVersions v)
    else match deletedVersions v with
      | Some a => a ← reset_versions a startRowInVector numRows; Some (sameDeletionVersion v, a)
      | None => Some (sameDeletionVersion v, None)
      end);
  Some (mkVersions (insertedVersions v) del (sameInsertionVersion v) same (insertionStatus v)
    (if decide (del = None) then NO_DELETED else deletionStatus v)).

(** [hasDeletions(transaction)]: [deletedVersions] is read whether or not there is such an array. *)
Definition vec_hasDeletions (v : VectorVersionInfo) (startTS transactionID : Z) : option bool :=
  if isSameDeletionVersion v then
    Some (bool_decide (sameDeletionVersion v ≤ startTS)%Z || bool_decide (sameDeletionVersion v = transactionID))
  else
    a ← deletedVersions v;
    n ← ofold (λ n i, b ← vec_isDeleted v startTS transactionID i; Some (n + Nat.b2n b)) 0 (seq 0 (length a));
    Some (bool_decide (0 < n)).

(** A version to be stored is invalid or the timestamp of a commit. *)
Definition storable (a : option (list Z)) : bool :=
  forallb (λ x, bool_decide (x = INVALID_TRANSACTION) || bool_decide (x < START_TRANSACTION_ID)%Z) (default [] a).

Definition insertion_code (s : InsertionStatus) : Z :=
  match s with NO_INSERTED => 0 | INSERTED_CHECK_VERSION => 1 | ALWAYS_INSERTED => 2 end.
Definition deletion_code (s : DeletionStatus) : Z := match s with NO_DELETED => 0 | DELETED_CHECK_VERSION => 1 end.

Definition vec_serialize (debug : bool) (v : VectorVersionInfo) (w : InMemFileWriter) : option InMemFileWriter :=
  if storable (deletedVersions v) && negb (bool_decide (insertionStatus v = INSERTED_CHECK_VERSION)) then
    w ← writeDebuggingInfo debug w "insertion_status";
    w ← serializeValue 1 w (insertion_code (insertionStatus v));
    w ← writeDebuggingInfo debug w "deletion_status";
    w ← serializeValue 1 w (deletion_code (deletionStatus v));
    match deletionStatus v with
    | NO_DELETED => Some w
    | DELETED_CHECK_VERSION =>
        w ← writeDebuggingInfo debug w "same_deletion_version";
        w ← serializeValue 8 w (sameDeletionVersion v);
        if decide (sameDeletionVersion v = INVALID_TRANSACTION) then
          a ← deletedVersions v;
          w ← writeDebuggingInfo debug w "deleted_versions";
          ofold (serializeValue 8) w a
        else Some w
    end
  else None.

Definition vec_deSerialize (debug : bool) (r : list Z) : option (VectorVersionInfo * list Z) :=
  r ← validateDebuggingInfo debug r "insertion_status";
  '(i, r) ← deserializeValue 1 r;
  ins ← (if decide (i = insertion_code NO_INSERTED) then Some NO_INSERTED
    else if decide (i = insertion_code ALWAYS_INSERTED) then Some ALWAYS_INSERTED else None);
  r ← validateDebuggingInfo debug r "deletion_status";
  '(d, r) ← deserializeValue 1 r;
  if decide (d = deletion_code NO_DELETED) then
    Some (mkVersions None None INVALID_TRANSACTION INVALID_TRANSACTION ins NO_DELETED, r)
  else if decide (d = deletion_code DELETED_CHECK_VERSION) then
    r ← validateDebuggingInfo debug r "same_deletion_version";
    '(same, r) ← deserializeValue 8 r;
    '(del, r) ← (if decide (same = INVALID_TRANSACTION) then
        r ← validateDebuggingInfo debug r "deleted_versions";
        '(a, r) ← ofold (λ '(a, r) (_ : nat), '(x, r) ← deserializeValue 8 r; Some (a ++ [x], r)) ([], r)
          (seq 0 DEFAULT_VECTOR_CAPACITY);
        Some (Some a, r)
      else Some (None, r));
    if storable del then Some (mkVersions None del INVALID_TRANSACTION same ins DELETED_CHECK_VERSION, r) else None
  else None.


(** ** The vectors of a chunk *)

Definition VersionInfo := list (option VectorVersionInfo).

Definition getQuotientRemainder (i divisor : nat) : nat * nat := (i / divisor, i mod divisor).

(** [getVectorVersionInfo]: null if out of range or not created. *)
Definition getVectorVersionInfo (vi : VersionInfo) (vectorIdx : nat) : option VectorVersionInfo :=
  mjoin (vi !! vectorIdx).

Definition getOrCreateVersionInfo (vi : VersionInfo) (vectorIdx : nat) : VersionInfo * VectorVersionInfo :=
  let v := default createVectorVersionInfo (getVectorVersionInfo vi vectorIdx) in
  (<[vectorIdx := Some v]> (vi ++ replicate (vectorIdx + 1 - length vi) None), v).

(** The loops over the vectors of a range of rows: a vector, the first row in it and their number. *)
Definition vector_ranges (startRow numRows : nat) : list (nat * nat * nat) :=
  if decide (numRows = 0) then [] else
  let '(startVectorIdx, startRowIdxInVector) := getQuotientRemainder startRow DEFAULT_VECTOR_CAPACITY in
  let '(endVectorIdx, endRowIdxInVector) := getQuotientRemainder (startRow + numRows - 1) DEFAULT_VECTOR_CAPACITY in
  (λ vectorIdx,
    let startRowIdx := if decide (vectorIdx = startVectorIdx) then startRowIdxInVector else 0 in
    let endRowIdx := if decide (vectorIdx = endVectorIdx) then endRowIdxInVector else DEFAULT_VECTOR_CAPACITY - 1 in
    (vectorIdx, startRowIdx, endRowIdx - startRowIdx + 1)) <$> seq startVectorIdx (endVectorIdx - startVectorIdx + 1).

(** The body of such a loop in the operations that change versions. *)
Definition update_vector (f : VectorVersionInfo → nat → nat → option VectorVersionInfo) (vi : VersionInfo)
    (range : nat * nat * nat) : option VersionInfo :=
  let '(vectorIdx, startRowIdx, numRowsInVector) := range in
  let '(vi, v) := getOrCreateVersionInfo vi vectorIdx in
  v ← f v startRowIdx numRowsInVector;
  Some (<[vectorIdx := Some v]> vi).

Definition append (vi : VersionInfo) (transactionID : Z) (startRow numRows : nat) : option VersionInfo :=
  ofold (update_vector (λ v, vec_append v transactionID)) vi (vector_ranges startRow numRows).

Definition commitInsert (vi : VersionInfo) (startRow numRows : nat) (commitTS : Z) : option VersionInfo :=
  ofold (update_vector (λ v, vec_setInsertCommitTS v commitTS)) vi (vector_ranges startRow numRows).

Definition rollbackInsert (vi : VersionInfo) (startRow numRows : nat) : option VersionInfo :=
  ofold (update_vector vec_rollbackInsertions) vi (vector_ranges startRow numRows).

Definition commitDelete (vi : VersionInfo) (startRow numRows : nat) (commitTS : Z) : option VersionInfo :=
  ofold (update_vector (λ v, vec_setDeleteCommitTS v commitTS)) vi (vector_ranges startRow numRows).

Definition rollbackDelete (vi : VersionInfo) (startRow numRows : nat) : option VersionInfo :=
  ofold (update_vector vec_rollbackDeletions) vi (vector_ranges startRow numRows).

Definition delete_ (vi : VersionInfo) (transactionID : Z) (rowIdx : nat) : option (VersionInfo * Res bool) :=
  let '(vectorIdx, rowIdxInVector) := getQuotientRemainder rowIdx DEFAULT_VECTOR_CAPACITY in
  let '(vi, v) := getOrCreateVersionInfo vi vectorIdx in
  let v := if decide (insertionStatus v = NO_INSERTED)
    then mkVersions (insertedVersions v) (deletedVersions v) (sameInsertionVersion v) (sameDeletionVersion v)
      ALWAYS_INSERTED (deletionStatus v)
    else v in
  '(v, r) ← vec_delete_ v transactionID rowIdxInVector;
  Some (<[vectorIdx := Some v]> vi, r).

Definition isSelected (vi : VersionInfo) (startTS transactionID : Z) (rowIdx : nat) : option bool :=
  let '(vectorIdx, rowIdxInVector) := getQuotientRemainder rowIdx DEFAULT_VECTOR_CAPACITY in
  match getVectorVersionInfo vi vectorIdx with
  | Some v => vec_isSelected v startTS transactionID rowIdxInVector
  | None => Some true
  end.

Definition isDeleted (vi : VersionInfo) (startTS transactionID : Z) (rowInChunk : nat) : option bool :=
  let '(vectorIdx, rowInVector) := getQuotientRemainder rowInChunk DEFAULT_VECTOR_CAPACITY in
  match getVectorVersionInfo vi vectorIdx with
  | Some v => vec_isDeleted v startTS transactionID rowInVector
  | None => Some false
  end.

Definition isInserted (vi : VersionInfo) (startTS transactionID : Z) (rowInChunk : nat) : option bool :=
  let '(vectorIdx, rowInVector) := getQuotientRemainder rowInChunk DEFAULT_VECTOR_CAPACITY in
  match getVectorVersionInfo vi vectorIdx with
  | Some v => vec_isInserted v startTS transactionID rowInVector
  | None => Some true
  end.

Definition getSelVectorToScan (vi : VersionInfo) (startTS transactionID : Z) (sv : SelectionVector)
    (startRow numRows : nat) : option SelectionVector :=
  if decide (numRows = 0) then Some sv else
  sv ← setToUnfilteredSize sv 0;
  '(sv, outputPos) ← ofold (λ '(sv, outputPos) '(vectorIdx, startRowIdx, numRowsInVector),
      sv ← match getVectorVersionInfo vi vectorIdx with
        | None =>
            if isUnfiltered sv then setSelSize sv (selectedSize sv + numRowsInVector)
            else write_selected sv outputPos numRowsInVector (λ _, Some true)
        | Some v => vec_getSelVectorForScan v startTS transactionID sv startRowIdx numRowsInVector outputPos
        end;
      Some (sv, outputPos + numRowsInVector)) (sv, 0) (vector_ranges startRow numRows);
  if decide (outputPos ≤ DEFAULT_VECTOR_CAPACITY) then Some sv else None.

Definition clearVectorInfo (vi : VersionInfo) (vectorIdx : nat) : option VersionInfo :=
  if decide (vectorIdx < length vi) then Some (<[vectorIdx := None]> vi) else None.

(** [hasDeletions()] and [hasDeletions(transaction)]. *)
Definition hasDeletions (vi : VersionInfo) : bool :=
  existsb (λ o, match o with Some v => bool_decide (deletionStatus v = DELETED_CHECK_VERSION) | None => false end) vi.

Definition hasInsertions (vi : VersionInfo) : bool :=
  existsb (λ o, match o with Some v => bool_decide (insertionStatus v = INSERTED_CHECK_VERSION) | None => false end) vi.

Fixpoint hasDeletionsFor (vi : VersionInfo) (startTS transactionID : Z) : option bool :=
  match vi with
  | [] => Some false
  | None :: vi => hasDeletionsFor vi startTS transactionID
  | Some v :: vi =>
      b ← vec_hasDeletions v startTS transactionID;
      if b : bool then Some true else hasDeletionsFor vi startTS transactionID
  end.

Definition getNumDeletions (vi : VersionInfo) (startTS transactionID : Z) (startRow numRows : nat) : option nat :=
  ofold (λ numDeletions '(vectorIdx, rowInVector, numRowsInVector),
    match getVectorVersionInfo vi vectorIdx with
    | Some v => n ← vec_getNumDeletions v startTS transactionID rowInVector numRowsInVector; Some (numDeletions + n)
    | None => Some numDeletions
    end) 0 (vector_ranges startRow numRows).

Definition serialize (debug : bool) (vi : VersionInfo) (w : InMemFileWriter) : option InMemFileWriter :=
  w ← writeDebuggingInfo debug w "vectors_info_size";
  w ← serializeValue 8 w (Z.of_nat (length vi));
  ofold (λ w o,
    w ← writeDebuggingInfo debug w "has_vector_info";
    w ← serializeValue 1 w (match o with Some _ => 1 | None => 0 end);
    match o with
    | Some v => w ← writeDebuggingInfo debug w "vector_info"; vec_serialize debug v w
    | None => Some w
    end) w vi.

Definition deserialize (debug : bool) (r : list Z) : option (VersionInfo * list Z) :=
  r ← validateDebuggingInfo debug r "vectors_info_size";
  '(vectorSize, r) ← deserializeValue 8 r;
  ofold (λ '(vi, r) (_ : nat),
    r ← validateDebuggingInfo debug r "has_vector_info";
    '(b, r) ← deserializeValue 1 r;
    if decide (b = 0%Z) then Some (vi ++ [None], r) else
    r ← validateDebuggingInfo debug r "vector_info";
    '(v, r) ← vec_deSerialize debug r;
    Some (vi ++ [Some v], r)) ([], r) (seq 0 (Z.to_nat vectorSize)).

(** ** The versions of a row

    Rows that are always inserted count as inserted at time 0, rows that are not inserted or not deleted
    have the invalid version. *)

Local Abbreviation CAP := DEFAULT_VECTOR_CAPACITY.

Definition ins_of (v : VectorVersionInfo) (i : nat) : Z :=
  match insertionStatus v with
  | ALWAYS_INSERTED => 0
  | NO_INSERTED => INVALID_TRANSACTION
  | INSERTED_CHECK_VERSION =>
      if isSameInsertionVersion v then sameInsertionVersion v
      else default INVALID_TRANSACTION (a ← insertedVersions v; a !! i)
  end.

Definition del_of (v : VectorVersionInfo) (i : nat) : Z :=
  match deletionStatus v with
  | NO_DELETED => INVALID_TRANSACTION
  | DELETED_CHECK_VERSION =>
      if isSameDeletionVersion v then sameDeletionVersion v
      else default INVALID_TRANSACTION (a ← deletedVersions v; a !! i)
  end.

(** The three representations of the insertions of a vector, and of its deletions. *)
Definition ins_none v := sameInsertionVersion v = INVALID_TRANSACTION ∧ insertedVersions v = None ∧
  insertionStatus v ≠ INSERTED_CHECK_VERSION.
Definition ins_same v := sameInsertionVersion v ≠ INVALID_TRANSACTION ∧ insertedVersions v = None ∧
  insertionStatus v = INSERTED_CHECK_VERSION.
Definition ins_array v a := sameInsertionVersion v = INVALID_TRANSACTION ∧ insertedVersions v = Some a ∧
  insertionStatus v = INSERTED_CHECK_VERSION ∧ length a = CAP.
Definition del_none v := sameDeletionVersion v = INVALID_TRANSACTION ∧ deletedVersions v = None ∧ deletionStatus v = NO_DELETED.
Definition del_same v := sameDeletionVersion v ≠ INVALID_TRANSACTION ∧ deletedVersions v = None ∧
  deletionStatus v = DELETED_CHECK_VERSION.
Definition del_array v a := sameDeletionVersion v = INVALID_TRANSACTION ∧ deletedVersions v = Some a ∧
  deletionStatus v = DELETED_CHECK_VERSION ∧ length a = CAP ∧ Exists (λ x, x ≠ INVALID_TRANSACTION) a.

(** The representation invariant. *)
Definition vec_ok (v : VectorVersionInfo) : Prop :=
  (ins_none v ∨ ins_same v ∨ ∃ a, ins_array v a) ∧ (del_none v ∨ del_same v ∨ ∃ a, del_array v a).

Lemma CAP_pos : 0 < CAP.
Proof. apply Nat.ltb_lt. vm_compute. reflexivity. Qed.

Lemma create_ok : vec_ok createVectorVersionInfo.
Proof. split; left; by split_and!. Qed.

Lemma isSame_ins_true v : isSameInsertionVersion v = true ↔ sameInsertionVersion v ≠ INVALID_TRANSACTION.
Proof. unfold isSameInsertionVersion. apply bool_decide_eq_true. Qed.
Lemma isSame_ins_false v : isSameInsertionVersion v = false ↔ sameInsertionVersion v = INVALID_TRANSACTION.
Proof. unfold isSameInsertionVersion. rewrite bool_decide_eq_false. split; [apply dec_stable|naive_solver]. Qed.
Lemma isSame_del_true v : isSameDeletionVersion v = true ↔ sameDeletionVersion v ≠ INVALID_TRANSACTION.
Proof. unfold isSameDeletionVersion. apply bool_decide_eq_true. Qed.
Lemma isSame_del_false v : isSameDeletionVersion v = false ↔ sameDeletionVersion v = INVALID_TRANSACTION.
Proof. unfold isSameDeletionVersion. rewrite bool_decide_eq_false. split; [apply dec_stable|naive_solver]. Qed.

Lemma ins_of_none v i : ins_none v → ins_of v i = if decide (insertionStatus v = NO_INSERTED) then INVALID_TRANSACTION else 0%Z.
Proof. intros (H1 & H2 & H3). unfold ins_of. destruct (insertionStatus v); done. Qed.
Lemma ins_of_same v i : ins_same v → ins_of v i = sameInsertionVersion v.
Proof. intros (H1 & H2 & H3). unfold ins_of. rewrite H3. by rewrite (proj2 (isSame_ins_true v)). Qed.
Lemma ins_of_array v a i : ins_array v a → ins_of v i = default INVALID_TRANSACTION (a !! i).
Proof. intros (H1 & H2 & H3 & H4). unfold ins_of. rewrite H3, (proj2 (isSame_ins_false v)) by done. by rewrite H2. Qed.
Lemma del_of_none v i : del_none v → del_of v i = INVALID_TRANSACTION.
Proof. intros (H1 & H2 & H3). unfold del_of. by rewrite H3. Qed.
Lemma del_of_same v i : del_same v → del_of v i = sameDeletionVersion v.
Proof. intros (H1 & H2 & H3). unfold del_of. rewrite H3. by rewrite (proj2 (isSame_del_true v)). Qed.
Lemma del_of_array v a i : del_array v a → del_of v i = default INVALID_TRANSACTION (a !! i).
Proof. intros (H1 & H2 & H3 & H4 & H5). unfold del_of. rewrite H3, (proj2 (isSame_del_false v)) by done. by rewrite H2. Qed.

(** Visibility of a row with versions [i] and [d] to a transaction. *)
Definition version_seen (startTS transactionID x : Z) : bool :=
  bool_decide (x = transactionID) || bool_decide (x ≤ startTS)%Z.

(** A snapshot lies below the invalid version, and no transaction has it as its ID. *)
Definition snapshot_ok (startTS transactionID : Z) : Prop :=
  (0 ≤ startTS < INVALID_TRANSACTION)%Z ∧ transactionID ≠ INVALID_TRANSACTION.

Lemma seen_invalid startTS tid : snapshot_ok startTS tid → version_seen startTS tid INVALID_TRANSACTION = false.
Proof.
  intros [? ?]. unfold version_seen. rewrite !bool_decide_false by (done || lia). done.
Qed.

Lemma seen_always startTS tid : snapshot_ok startTS tid → version_seen startTS tid 0 = true.
Proof. intros [? ?]. unfold version_seen. rewrite (bool_decide_true (0 ≤ startTS)%Z) by lia. apply orb_true_r. Qed.

Lemma vec_isInserted_spec v startTS tid i : vec_ok v → snapshot_ok startTS tid → i < CAP →
  vec_isInserted v startTS tid i = Some (version_seen startTS tid (ins_of v i)).
Proof.
  intros [Hv _] Hs Hi. unfold vec_isInserted. destruct Hv as [Hv|[Hv|[a Hv]]].
  - rewrite (ins_of_none v i Hv). destruct Hv as (_ & _ & H3). destruct (insertionStatus v); [|done|].
    + by rewrite seen_invalid.
    + by rewrite seen_always.
  - rewrite (ins_of_same v i Hv). destruct Hv as (H1 & H2 & H3). rewrite H3. by rewrite (proj2 (isSame_ins_true v)).
  - rewrite (ins_of_array v a i Hv). destruct Hv as (H1 & H2 & H3 & H4). rewrite H3, (proj2 (isSame_ins_false v)), H2 by done.
    cbn. destruct (lookup_lt_is_Some_2 a i) as [x Hx]; [lia|]. by rewrite Hx.
Qed.

Lemma vec_isDeleted_spec v startTS tid i : vec_ok v → snapshot_ok startTS tid → i < CAP →
  vec_isDeleted v startTS tid i = Some (version_seen startTS tid (del_of v i)).
Proof.
  intros [_ Hv] Hs Hi. unfold vec_isDeleted. destruct Hv as [Hv|[Hv|[a Hv]]].
  - rewrite (del_of_none v i Hv). destruct Hv as (_ & _ & H3). rewrite H3. by rewrite seen_invalid.
  - rewrite (del_of_same v i Hv). destruct Hv as (H1 & H2 & H3). rewrite H3. by rewrite (proj2 (isSame_del_true v)).
  - rewrite (del_of_array v a i Hv). destruct Hv as (H1 & H2 & H3 & H4 & _). rewrite H3, (proj2 (isSame_del_false v)), H2 by done.
    cbn. destruct (lookup_lt_is_Some_2 a i) as [x Hx]; [lia|]. by rewrite Hx.
Qed.

(** Whether the transaction sees a row with these versions. *)
Definition row_visible (startTS transactionID : Z) (x : Z * Z) : bool :=
  version_seen startTS transactionID x.1 && negb (version_seen startTS transactionID x.2).

Lemma inserted_not_deleted_spec v startTS tid i : vec_ok v → snapshot_ok startTS tid → i < CAP →
  inserted_not_deleted v startTS tid i = Some (row_visible startTS tid (ins_of v i, del_of v i)).
Proof.
  intros Hv Hs Hi. unfold inserted_not_deleted, row_visible. rewrite vec_isInserted_spec by done. cbn.
  destruct (version_seen _ _ (ins_of v i)); [|done]. by rewrite vec_isDeleted_spec.
Qed.

Lemma vec_isSelected_spec v startTS tid i : vec_ok v → snapshot_ok startTS tid → i < CAP →
  vec_isSelected v startTS tid i = Some (row_visible startTS tid (ins_of v i, del_of v i)).
Proof.
  intros Hv Hs Hi. unfold vec_isSelected. destruct (decide _) as [[H1 H2]|_].
  - unfold row_visible, ins_of, del_of. rewrite H1, H2. cbn. by rewrite seen_always, seen_invalid.
  - destruct (decide _) as [H|_]; [|by apply inserted_not_deleted_spec].
    unfold row_visible, ins_of. rewrite H. cbn. by rewrite seen_invalid.
Qed.

(** ** Writing versions *)

Lemma write_versions_spec a x l : Forall (λ i, i < length a) l →
  ∃ a', ofold (λ a i, write_version a i x) a l = Some a' ∧ length a' = length a ∧
    ∀ j, a' !! j = if decide (j ∈ l) then Some x else a !! j.
Proof.
  revert a. induction l as [|i l IH]; intros a Hl; cbn [ofold].
  - exists a. split_and!; [done|done|]. intros j. by rewrite decide_False by apply not_elem_of_nil.
  - apply Forall_cons in Hl as [Hi Hl]. unfold write_version at 2. rewrite decide_True by done. cbn [mbind option_bind].
    destruct (IH (<[i:=x]> a)) as (a' & E & Hlen & Hlk); [by rewrite length_insert|].
    exists a'. rewrite length_insert in Hlen. split_and!; [done|done|]. intros j. rewrite Hlk.
    destruct (decide (j ∈ l)), (decide (j ∈ i :: l)); [done|set_solver| |].
    + assert (j = i) as -> by set_solver. by rewrite list_lookup_insert_eq.
    + rewrite list_lookup_insert_ne; [done|set_solver].
Qed.

Lemma fill_versions_spec a tid s n : s + n ≤ length a → (∀ i, s ≤ i < s + n → a !! i = Some INVALID_TRANSACTION) →
  ∃ a', ofold (λ a i, x ← a !! (s + i); if decide (x = INVALID_TRANSACTION) then write_version a (s + i) tid else None)
      a (seq 0 n) = Some a' ∧ length a' = length a ∧
    ∀ j, a' !! j = if decide (s ≤ j < s + n) then Some tid else a !! j.
Proof.
  induction n as [|n IH]; intros Hlen Hinv.
  - exists a. split_and!; [done|done|]. intros j. by rewrite decide_False by lia.
  - destruct IH as (a' & E & Hl' & Hlk); [lia|intros; apply Hinv; lia|].
    rewrite seq_S, ofold_app, E. cbn [mbind option_bind ofold]. rewrite Hlk, decide_False, Hinv by lia. cbn [mbind option_bind].
    rewrite decide_True by done. unfold write_version. rewrite decide_True by lia. cbn [mbind option_bind].
    eexists. split; [done|]. rewrite length_insert. split; [done|]. intros j.
    destruct (decide (j = s + n)) as [->|Hj].
    + rewrite list_lookup_insert_eq by lia. by rewrite decide_True by lia.
    + rewrite list_lookup_insert_ne, Hlk by done. destruct (decide _), (decide _); done || lia.
Qed.

(** ** Operations on one vector *)

(** Rows from [s] on are free: either the vector is new and [s] is its first row, or the rows before [s]
    have versions and those from [s] on have none of their own. *)
Record vec_ready (v : VectorVersionInfo) (s : nat) : Prop := {
  ready_ins : (insertionStatus v = NO_INSERTED ∧ s = 0) ∨
    (insertionStatus v = INSERTED_CHECK_VERSION ∧
     ∀ a i, insertedVersions v = Some a → s ≤ i < CAP → a !! i = Some INVALID_TRANSACTION);
  ready_del : ∀ i, s ≤ i < CAP → del_of v i = INVALID_TRANSACTION
}.

(** The rows from [s] on have no versions of their own. *)
Record vec_free (v : VectorVersionInfo) (s : nat) : Prop := {
  free_status : insertionStatus v ≠ ALWAYS_INSERTED;
  free_ins : ∀ a i, insertedVersions v = Some a → s ≤ i < CAP → a !! i = Some INVALID_TRANSACTION;
  free_del : ∀ i, s ≤ i < CAP → del_of v i = INVALID_TRANSACTION
}.

Lemma free_ready v s : vec_ok v → vec_free v s → s = 0 ∨ insertionStatus v = INSERTED_CHECK_VERSION → vec_ready v s.
Proof.
  intros Hv [H1 H2 H3] Hs. split; [|done]. destruct (insertionStatus v) eqn:E; [|by right|done].
  destruct Hs as [->|]; [by left|done].
Qed.

Lemma ready_free v s : vec_ok v → vec_ready v s → vec_free v s.
Proof.
  intros [Hv _] [[[H1 ->]|[H1 H2]] H3]; (split; [by rewrite H1| |done]); [|done].
  intros a i Ha. destruct Hv as [(_ & ? & _)|[(_ & ? & _)|[b (_ & _ & ? & _)]]]; congruence.
Qed.

(** A change of one side leaves the other. *)
Definition same_del v v' : Prop := deletedVersions v' = deletedVersions v ∧
  sameDeletionVersion v' = sameDeletionVersion v ∧ deletionStatus v' = deletionStatus v.
Definition same_ins v v' : Prop := insertedVersions v' = insertedVersions v ∧
  sameInsertionVersion v' = sameInsertionVersion v ∧ insertionStatus v' = insertionStatus v.

Lemma same_del_facts v v' : same_del v v' → (∀ i, del_of v' i = del_of v i) ∧
  (vec_ok v → del_none v' ∨ del_same v' ∨ ∃ a, del_array v' a).
Proof.
  intros (H1 & H2 & H3). split; [intros i; unfold del_of, isSameDeletionVersion; by rewrite H1, H2, H3|].
  intros [_ Hv]. unfold del_none, del_same, del_array in *. by rewrite H1, H2, H3.
Qed.

Lemma same_ins_facts v v' : same_ins v v' → (∀ i, ins_of v' i = ins_of v i) ∧
  (vec_ok v → ins_none v' ∨ ins_same v' ∨ ∃ a, ins_array v' a).
Proof.
  intros (H1 & H2 & H3). split; [intros i; unfold ins_of, isSameInsertionVersion; by rewrite H1, H2, H3|].
  intros [Hv _]. unfold ins_none, ins_same, ins_array in *. by rewrite H1, H2, H3.
Qed.

(** What an append to rows [s] to [s + n - 1] does to the versions. *)
Definition appended (v v' : VectorVersionInfo) (tid : Z) (s n : nat) : Prop :=
  vec_ok v' ∧ vec_ready v' (s + n) ∧ same_del v v' ∧
  (∀ i, i < s → ins_of v' i = ins_of v i) ∧ (∀ i, s ≤ i < s + n → ins_of v' i = tid).

(** The vector after an append, with the given representation of the insertions. *)
Definition with_insertions (v : VectorVersionInfo) (ins : option (list Z)) (same : Z) : VectorVersionInfo :=
  mkVersions ins (deletedVersions v) same (sameDeletionVersion v) INSERTED_CHECK_VERSION (deletionStatus v).

Lemma appended_same v tid s n : vec_ok v → vec_ready v s → tid ≠ INVALID_TRANSACTION → (∀ i, i < s → ins_of v i = tid) →
  appended v (with_insertions v None tid) tid s n.
Proof.
  intros Hv [_ Hd] Ht Hold. assert (ins_same (with_insertions v None tid)) as Hi by (by split_and!).
  destruct (same_del_facts v (with_insertions v None tid)) as [Hde Hdc]; [done|].
  split_and!; [split; [by right; left|by apply Hdc]| |done| |].
  - split; [by right|]. intros i ?. rewrite Hde. apply Hd. lia.
  - intros i ?. rewrite (ins_of_same _ _ Hi). symmetry. by apply Hold.
  - intros i ?. by rewrite (ins_of_same _ _ Hi).
Qed.

Lemma appended_array v a tid s n : vec_ok v → vec_ready v s → length a = CAP →
  (∀ i, i < s → a !! i = Some (ins_of v i)) → (∀ i, s ≤ i < s + n → a !! i = Some tid) →
  (∀ i, s + n ≤ i < CAP → a !! i = Some INVALID_TRANSACTION) →
  appended v (with_insertions v (Some a) INVALID_TRANSACTION) tid s n.
Proof.
  intros Hv [_ Hd] Hlen H1 H2 H3.
  assert (ins_array (with_insertions v (Some a) INVALID_TRANSACTION) a) as Hi by (by split_and!).
  destruct (same_del_facts v (with_insertions v (Some a) INVALID_TRANSACTION)) as [Hde Hdc]; [done|].
  split_and!; [split; [right; right; by exists a|by apply Hdc]| |done| |].
  - split; [right; split; [done|]; intros ? i [= <-]; apply H3|]. intros i ?. rewrite Hde. apply Hd. lia.
  - intros i ?. rewrite (ins_of_array _ _ _ Hi). by rewrite H1.
  - intros i ?. rewrite (ins_of_array _ _ _ Hi). by rewrite H2.
Qed.

Lemma vec_append_spec v tid s n : vec_ok v → vec_ready v s → tid ≠ INVALID_TRANSACTION → s + n ≤ CAP →
  ∃ v', vec_append v tid s n = Some v' ∧ appended v v' tid s n.
Proof.
  intros Hv Hready Ht Hn. pose proof Hready as [Hr Hd]. unfold vec_append.
  cbn [sameInsertionVersion insertedVersions insertionStatus deletedVersions sameDeletionVersion deletionStatus].
  destruct (proj1 Hv) as [(A1 & A2 & A3)|[Hs|(a & Ha)]].
  - rewrite decide_False by congruence. rewrite (proj2 (isSame_ins_false _)) by done. rewrite bool_decide_true by done.
    destruct Hr as [[Hr ->]|[? _]]; [|done]. eexists. split; [done|]. rewrite A2. apply appended_same; [done..|lia].
  - pose proof Hs as (A1 & A2 & A3). destruct (decide (tid = sameInsertionVersion v)) as [->|Hne].
    { eexists. split; [done|]. rewrite A2. apply appended_same; [done..|]. intros i _. by apply ins_of_same. }
    rewrite (proj2 (isSame_ins_true _)) by done. cbn [negb andb]. rewrite A2.
    destruct (write_versions_spec initVersionArray (sameInsertionVersion v) (seq 0 s)) as (a & -> & Hla & Hlk).
    { apply Forall_seq. intros i. unfold initVersionArray. rewrite length_replicate. lia. }
    unfold initVersionArray in Hla, Hlk. rewrite length_replicate in Hla. cbn [mbind option_bind].
    assert (∀ i, s ≤ i < CAP → a !! i = Some INVALID_TRANSACTION) as Hfree.
    { intros i Hi. rewrite Hlk, decide_False by (rewrite elem_of_seq; lia). apply lookup_replicate_2. lia. }
    destruct (fill_versions_spec a tid s n) as (a' & -> & Hla' & Hlk'); [lia|intros; apply Hfree; lia|].
    cbn [mbind option_bind]. eexists. split; [done|]. apply appended_array; [done|done|lia| | |]; intros i Hi; rewrite Hlk'.
    + rewrite decide_False, Hlk, decide_True by (rewrite ?elem_of_seq; lia). by rewrite ins_of_same.
    + by rewrite decide_True by lia.
    + rewrite decide_False by lia. apply Hfree. lia.
  - pose proof Ha as (A1 & A2 & A3 & A4). rewrite decide_False by congruence.
    rewrite (bool_decide_false (insertedVersions v = None)), andb_false_r by (by rewrite A2). rewrite A2, A1.
    cbn [mbind option_bind]. destruct Hr as [[? _]|[_ Hr]]; [congruence|].
    destruct (fill_versions_spec a tid s n) as (a' & -> & Hla' & Hlk'); [lia|intros i Hi; apply Hr; [done|lia]|].
    cbn [mbind option_bind]. eexists. split; [done|]. apply appended_array; [done|done|lia| | |]; intros i Hi; rewrite Hlk'.
    + rewrite decide_False by lia. rewrite (ins_of_array v a i Ha).
      destruct (lookup_lt_is_Some_2 a i) as [x ->]; [lia|done].
    + by rewrite decide_True by lia.
    + rewrite decide_False by lia. apply Hr; [done|lia].
Qed.

(** What a deletion returns: true if the row gets the version, false if the transaction had deleted it
    before, an exception if another transaction has. *)
Definition delete_result (d tid : Z) : Res bool :=
  if decide (d = tid) then Ret false else if decide (d = INVALID_TRANSACTION) then Ret true else Throw RuntimeException.

(** The array a deletion works on: the one there is, or a new one. *)
Lemma deletion_array v : vec_ok v → ¬ del_same v →
  sameDeletionVersion v = INVALID_TRANSACTION ∧ length (default initVersionArray (deletedVersions v)) = CAP ∧
  ∀ j, j < CAP → default initVersionArray (deletedVersions v) !! j = Some (del_of v j).
Proof.
  intros [_ [Hd|[Hd|[a Hd]]]] Hn; [|done|].
  - destruct Hd as (B1 & B2 & B3) eqn:E. clear E. rewrite B2. cbn [default from_option]. unfold initVersionArray.
    split_and!; [done|apply length_replicate|]. intros j Hj. rewrite lookup_replicate_2 by done. by rewrite del_of_none.
  - pose proof Hd as (B1 & B2 & B3 & B4 & _). rewrite B2. change (default initVersionArray (Some a)) with a.
    split_and!; [done|done|]. intros j Hj. rewrite (del_of_array v a j Hd).
    destruct (lookup_lt_is_Some_2 a j) as [x Hx]; [by rewrite B4|]. by rewrite Hx.
Qed.

(** The vector with another array of deletions. *)
Definition with_deletions (v : VectorVersionInfo) (a : list Z) : VectorVersionInfo :=
  mkVersions (insertedVersions v) (Some a) (sameInsertionVersion v) (sameDeletionVersion v) (insertionStatus v)
    DELETED_CHECK_VERSION.

Lemma with_deletions_facts v a i x : vec_ok v → sameDeletionVersion v = INVALID_TRANSACTION → length a = CAP →
  a !! i = Some x → x ≠ INVALID_TRANSACTION →
  vec_ok (with_deletions v a) ∧ same_ins v (with_deletions v a) ∧
  ∀ j, del_of (with_deletions v a) j = default INVALID_TRANSACTION (a !! j).
Proof.
  intros Hv Hs Ha Hx Hne. assert (del_array (with_deletions v a) a) as Hda.
  { split_and!; [done..|]. apply Exists_exists. exists x. split; [by eapply list_elem_of_lookup_2|done]. }
  split_and!; [split; [by apply (same_ins_facts v)|right; right; by exists a]|done|]. intros j. by apply del_of_array.
Qed.

Lemma vec_delete_spec v tid i : vec_ok v → tid ≠ INVALID_TRANSACTION → i < CAP →
  ∃ v', vec_delete_ v tid i = Some (v', delete_result (del_of v i) tid) ∧ vec_ok v' ∧ same_ins v v' ∧
    (∀ j, j < CAP → del_of v' j = if decide (j = i ∧ del_of v i = INVALID_TRANSACTION) then tid else del_of v j).
Proof.
  intros Hv Ht Hi. unfold vec_delete_, delete_result.
  cbn [sameInsertionVersion insertedVersions insertionStatus deletedVersions sameDeletionVersion deletionStatus].
  destruct (decide (sameDeletionVersion v = INVALID_TRANSACTION)) as [Hs|Hs].
  - destruct (deletion_array v Hv) as (_ & Hlen & Hlk); [intros (? & _); done|].
    rewrite (decide_False (P := tid = _)), (proj2 (isSame_del_false _)) by (done || congruence).
    set (a := default initVersionArray (deletedVersions v)) in *. rewrite (Hlk i Hi). cbn [mbind option_bind].
    destruct (decide (del_of v i = tid)) as [Hxt|Hxt]; [|destruct (decide (del_of v i = INVALID_TRANSACTION)) as [Hxi|Hxi]].
    + destruct (with_deletions_facts v a i tid) as (H1 & H2 & H3); [done..|by rewrite Hlk, Hxt|done|].
      eexists. split; [done|]. split_and!; [done|done|]. intros j Hj.
      etrans; [exact (H3 j)|]. by rewrite (Hlk j Hj), decide_False by (intros [_ ?]; congruence).
    + rewrite (decide_False (P := _ ≠ _)) by (intros ?; done).
      destruct (with_deletions_facts v (<[i:=tid]> a) i tid) as (H1 & H2 & H3);
        [done|done|by rewrite length_insert|apply list_lookup_insert_eq; by rewrite Hlen|done|].
      eexists. split; [done|]. split_and!; [done|done|]. intros j Hj. etrans; [exact (H3 j)|].
      destruct (decide (j = i ∧ _)) as [[-> _]|Hji]; [by rewrite list_lookup_insert_eq by (by rewrite Hlen)|].
      rewrite list_lookup_insert_ne, (Hlk j Hj) by (intros ->; by apply Hji). done.
    + rewrite (decide_True (P := _ ≠ _)) by done.
      destruct (with_deletions_facts v a i (del_of v i)) as (H1 & H2 & H3); [done..|by apply Hlk|done|].
      eexists. split; [done|]. split_and!; [done|done|]. intros j Hj.
      etrans; [exact (H3 j)|]. by rewrite (Hlk j Hj), decide_False by (intros [_ ?]; done).
  - assert (del_same v) as Hd by (destruct (proj2 Hv) as [[? _]|[?|(? & ? & _)]]; done).
    pose proof Hd as (_ & B2 & B3). rewrite (del_of_same v i Hd).
    destruct (decide (tid = sameDeletionVersion v)) as [->|Hne]; [rewrite decide_True by done|rewrite (decide_False (P := _ = tid)) by done].
    2: rewrite (proj2 (isSame_del_true _)), decide_False by done.
    all: eexists; split; [done|]; split_and!; [split; [apply Hv|right; left; by split_and!]|done|].
    all: intros j Hj; rewrite decide_False by (intros [_ ?]; done); rewrite (del_of_same v j Hd); by (etrans; [apply del_of_same|]).
Qed.

(** ** Commit and rollback of a vector

    The rows of a range get the version [x]; the other rows keep theirs, unless all rows of the vector share
    one version, which is then replaced. *)
Definition changed (f f' : nat → Z) (x : Z) (s n : nat) : Prop :=
  (∀ i, s ≤ i < s + n → f' i = x) ∧
  ∀ i, i < CAP → ¬ (s ≤ i < s + n) → f' i = f i ∨ (f' i = x ∧ ∀ j, j < CAP → f j = f i).

(** Writing [x] to a range of an array of versions. *)
Lemma write_range a x s n : length a = CAP → s + n ≤ CAP →
  ∃ a', ofold (λ a i, write_version a i x) a (seq s n) = Some a' ∧ length a' = CAP ∧
    ∀ j, j < CAP → a' !! j = Some (if decide (s ≤ j < s + n) then x else default INVALID_TRANSACTION (a !! j)).
Proof.
  intros Hlen Hn. destruct (write_versions_spec a x (seq s n)) as (a' & E & Hl & Hlk).
  { apply Forall_seq. intros i. lia. }
  exists a'. split_and!; [done|lia|]. intros j Hj. rewrite Hlk.
  destruct (decide (j ∈ seq s n)) as [Hin|Hin]; rewrite elem_of_seq in Hin.
  - by rewrite decide_True by lia.
  - rewrite decide_False by lia. destruct (lookup_lt_is_Some_2 a j) as [y Hy]; [lia|]. by rewrite Hy.
Qed.

Lemma vec_setInsertCommitTS_spec v ts s n : vec_ok v → insertionStatus v = INSERTED_CHECK_VERSION →
  ts ≠ INVALID_TRANSACTION → s + n ≤ CAP →
  ∃ v', vec_setInsertCommitTS v ts s n = Some v' ∧ vec_ok v' ∧ same_del v v' ∧
    changed (ins_of v) (ins_of v') ts s n ∧ (∀ m, s + n ≤ m → vec_free v m → vec_free v' m).
Proof.
  intros Hv Hst Hts Hn. unfold vec_setInsertCommitTS.
  destruct (proj1 Hv) as [(_ & _ & ?)|[Hs|[a Ha]]]; [done| |].
  - pose proof Hs as (A1 & A2 & A3). rewrite (proj2 (isSame_ins_true v)), A2, A3 by done. set (v' := mkVersions _ _ _ _ _ _).
    assert (ins_same v') as Hs' by (by split_and!). assert (same_del v v') as Hsd by done.
    destruct (same_del_facts v v' Hsd) as [Hde Hdc].
    exists v'. split_and!; [done|split; [by right; left|by apply Hdc]|done| |].
    + split; intros i; [intros _; by rewrite (ins_of_same v' i Hs')|]. intros _ _. right.
      split; [by rewrite (ins_of_same v' i Hs')|]. intros j _. by rewrite !(ins_of_same v _ Hs).
    + intros m Hm [_ _ Hd]. split; [done..|]. intros i Hi. rewrite Hde. by apply Hd.
  - pose proof Ha as (A1 & A2 & A3 & A4). rewrite (proj2 (isSame_ins_false v)), A2, A3 by done. cbn [mbind option_bind].
    destruct (write_range a ts s n A4 Hn) as (a' & -> & Hl' & Hlk'). cbn [mbind option_bind]. set (v' := mkVersions _ _ _ _ _ _).
    assert (ins_array v' a') as Ha' by (by split_and!). assert (same_del v v') as Hsd by done.
    destruct (same_del_facts v v' Hsd) as [Hde Hdc].
    exists v'. split_and!; [done|split; [right; right; by exists a'|by apply Hdc]|done| |].
    + split; intros i.
      * intros Hi. rewrite (ins_of_array v' a' i Ha'), Hlk' by lia. by rewrite decide_True.
      * intros Hi Hi'. left. rewrite (ins_of_array v' a' i Ha'), Hlk', decide_False by done. by rewrite (ins_of_array v a i Ha).
    + intros m Hm [_ Hr Hd]. split; [done| |intros i Hi; rewrite Hde; by apply Hd].
      intros ? i [= <-] Hi. rewrite Hlk', decide_False by lia. by rewrite (Hr a i A2 Hi).
Qed.

Lemma vec_setDeleteCommitTS_spec v ts s n : vec_ok v → deletionStatus v = DELETED_CHECK_VERSION →
  ts ≠ INVALID_TRANSACTION → s + n ≤ CAP →
  ∃ v', vec_setDeleteCommitTS v ts s n = Some v' ∧ vec_ok v' ∧ same_ins v v' ∧
    deletionStatus v' = DELETED_CHECK_VERSION ∧ changed (del_of v) (del_of v') ts s n.
Proof.
  intros Hv Hst Hts Hn. unfold vec_setDeleteCommitTS.
  destruct (proj2 Hv) as [(_ & _ & ?)|[Hs|[a Ha]]]; [congruence| |].
  - pose proof Hs as (A1 & A2 & A3). rewrite (proj2 (isSame_del_true v)), A2, A3 by done. set (v' := mkVersions _ _ _ _ _ _).
    assert (del_same v') as Hs' by (by split_and!). assert (same_ins v v') as Hsi by done.
    destruct (same_ins_facts v v' Hsi) as [_ Hic].
    exists v'. split_and!; [done|split; [by apply Hic|by right; left]|done|done|].
    split; intros i; [intros _; by rewrite (del_of_same v' i Hs')|]. intros _ _. right.
    split; [by rewrite (del_of_same v' i Hs')|]. intros j _. by rewrite !(del_of_same v _ Hs).
  - pose proof Ha as (A1 & A2 & A3 & A4 & A5). rewrite (proj2 (isSame_del_false v)), A2, A3 by done. cbn [mbind option_bind].
    destruct (write_range a ts s n A4 Hn) as (a' & -> & Hl' & Hlk'). cbn [mbind option_bind]. set (v' := mkVersions _ _ _ _ _ _).
    assert (del_array v' a') as Ha'.
    { split_and!; [done..|]. apply Exists_exists in A5 as (x & Hx & Hne). apply list_elem_of_lookup_1 in Hx as [j Hj].
      apply Exists_exists. exists (if decide (s ≤ j < s + n) then ts else x). split; [|by destruct (decide _)].
      apply list_elem_of_lookup_2 with j. pose proof (lookup_lt_Some _ _ _ Hj). rewrite Hlk' by lia. by rewrite Hj. }
    assert (same_ins v v') as Hsi by done. destruct (same_ins_facts v v' Hsi) as [_ Hic].
    exists v'. split_and!; [done|split; [by apply Hic|right; right; by exists a']|done|done|]. split; intros i.
    + intros Hi. rewrite (del_of_array v' a' i Ha'), Hlk' by lia. by rewrite decide_True.
    + intros Hi Hi'. left. rewrite (del_of_array v' a' i Ha'), Hlk', decide_False by done. by rewrite (del_of_array v a i Ha).
Qed.

(** Resetting a range drops the array exactly when no version is left. *)
Lemma reset_versions_spec a s n : length a = CAP → s + n ≤ CAP →
  ∃ o, reset_versions a s n = Some o ∧
    (∀ j, j < CAP → default INVALID_TRANSACTION (b ← o; b !! j) =
      if decide (s ≤ j < s + n) then INVALID_TRANSACTION else default INVALID_TRANSACTION (a !! j)) ∧
    match o with
    | Some b => length b = CAP ∧ Exists (λ x, x ≠ INVALID_TRANSACTION) b
    | None => ∀ j, j < CAP → ¬ (s ≤ j < s + n) → a !! j = Some INVALID_TRANSACTION
    end.
Proof.
  intros Hlen Hn. unfold reset_versions. destruct (write_range a INVALID_TRANSACTION s n Hlen Hn) as (b & -> & Hlb & Hlk).
  cbn [mbind option_bind]. destruct (existsb _ b) eqn:E; eexists; (split; [done|]).
  - split; [intros j Hj; cbn; by rewrite Hlk|]. split; [done|]. apply existsb_exists in E as (x & Hx & Hne).
    apply Exists_exists. exists x. rewrite list_elem_of_In. by apply bool_decide_eq_true in Hne.
  - assert (∀ j, j < CAP → b !! j = Some INVALID_TRANSACTION) as Hall.
    { intros j Hj. destruct (lookup_lt_is_Some_2 b j) as [x Hx]; [lia|]. rewrite Hx. f_equal.
      destruct (decide (x = INVALID_TRANSACTION)) as [|Hne]; [done|].
      assert (existsb (λ x, bool_decide (x ≠ INVALID_TRANSACTION)) b = true); [|congruence].
      apply existsb_exists. exists x. rewrite <-list_elem_of_In. split; [by eapply list_elem_of_lookup_2|by apply bool_decide_eq_true]. }
    split; [intros j Hj; specialize (Hlk j Hj); rewrite Hall in Hlk by done; cbn; by simplify_eq|].
    intros j Hj Hr. specialize (Hlk j Hj). rewrite Hall, decide_False in Hlk by done.
    destruct (lookup_lt_is_Some_2 a j) as [x Hx]; [lia|]. rewrite Hx in *. cbn in Hlk. by simplify_eq.
Qed.

Lemma vec_rollbackDeletions_spec v s n : vec_ok v → s + n ≤ CAP →
  ∃ v', vec_rollbackDeletions v s n = Some v' ∧ vec_ok v' ∧ same_ins v v' ∧
    changed (del_of v) (del_of v') INVALID_TRANSACTION s n.
Proof.
  intros Hv Hn. unfold vec_rollbackDeletions. destruct (proj2 Hv) as [H|[H|[a H]]].
  - pose proof H as (A1 & A2 & A3). rewrite (proj2 (isSame_del_false v)), A2 by done. cbn [mbind option_bind]. set (v' := mkVersions _ _ _ _ _ _).
    assert (del_none v') as H' by (by split_and!). assert (same_ins v v') as Hsi by done.
    exists v'. split_and!; [done|split; [by apply (same_ins_facts v v' Hsi)|by left]|done|].
    split; intros i; [intros _; by apply del_of_none|]. intros _ _. left. by rewrite !del_of_none.
  - pose proof H as (A1 & A2 & A3). rewrite (proj2 (isSame_del_true v)), A2 by done. cbn [mbind option_bind]. set (v' := mkVersions _ _ _ _ _ _).
    assert (del_none v') as H' by (by split_and!). assert (same_ins v v') as Hsi by done.
    exists v'. split_and!; [done|split; [by apply (same_ins_facts v v' Hsi)|by left]|done|].
    split; intros i; [intros _; by apply del_of_none|]. intros _ _. right. split; [by apply del_of_none|].
    intros j _. by rewrite !del_of_same.
  - pose proof H as (A1 & A2 & A3 & A4 & A5). rewrite (proj2 (isSame_del_false v)), A2 by done.
    destruct (reset_versions_spec a s n A4 Hn) as (o & -> & Hlk & Ho). cbn [mbind option_bind]. set (v' := mkVersions _ _ _ _ _ _).
    assert (same_ins v v') as Hsi by done. assert (∀ i, del_of v' i = default INVALID_TRANSACTION (b ← o; b !! i)) as Hde.
    { intros i. destruct o as [b|]; [|by apply del_of_none]. apply del_of_array. split_and!; [done..|apply Ho|apply Ho]. }
    exists v'. split_and!; [done| |done|].
    + split; [by apply (same_ins_facts v v' Hsi)|]. destruct o as [b|]; [right; right; exists b|left]; by split_and!; try apply Ho.
    + split; intros i Hi; rewrite Hde; [rewrite Hlk by lia; by rewrite decide_True|]. intros Hr. left.
      rewrite Hlk, decide_False by done. by rewrite (del_of_array v a i).
Qed.

(** A rollback of insertions: no row it empties is deleted. *)
Definition no_deleted_rollback (v : VectorVersionInfo) (s n : nat) : Prop :=
  ∀ i, i < CAP → del_of v i ≠ INVALID_TRANSACTION → ¬ ins_same v ∧ ins_of v i ≠ INVALID_TRANSACTION ∧ ¬ (s ≤ i < s + n).

(** A vector with deletions has a deleted row. *)
Lemma deleted_row v : vec_ok v → ¬ del_none v → ∃ i, i < CAP ∧ del_of v i ≠ INVALID_TRANSACTION.
Proof.
  intros [_ [H|[H|[a H]]]] Hn; [done| |].
  - exists 0. split; [apply CAP_pos|]. rewrite (del_of_same v 0 H). apply H.
  - pose proof H as (_ & _ & _ & Hl & He). apply Exists_exists in He as (x & Hx & Hne).
    apply list_elem_of_lookup_1 in Hx as [i Hi]. pose proof (lookup_lt_Some _ _ _ Hi). exists i. split; [lia|].
    by rewrite (del_of_array v a i H), Hi.
Qed.

(** What is left after the insertions of a vector are gone. *)
Lemma emptied_ok v v' : vec_ok v → (∀ i, i < CAP → del_of v i = INVALID_TRANSACTION) →
  v' = mkVersions None (deletedVersions v) INVALID_TRANSACTION (sameDeletionVersion v) NO_INSERTED NO_DELETED →
  vec_ok v' ∧ (∀ i, ins_of v' i = INVALID_TRANSACTION) ∧ (∀ i, del_of v' i = del_of v i) ∧ ∀ s, vec_free v' s.
Proof.
  intros Hv Hd ->. assert (del_none v) as Hn.
  { destruct (decide (deletionStatus v = NO_DELETED)) as [E|E].
    - destruct (proj2 Hv) as [H|[(_ & _ & H)|[a (_ & _ & H & _)]]]; [done|congruence..].
    - destruct (deleted_row v Hv) as (i & Hi & Hne); [intros (_ & _ & ?); done|]. by rewrite Hd in Hne. }
  destruct Hn as (A1 & A2 & A3). set (v' := mkVersions _ _ _ _ _ _).
  assert (ins_none v') as Hi' by (by split_and!). assert (del_none v') as Hd' by (by split_and!).
  split_and!; [split; by left|intros i; by rewrite (ins_of_none v' i Hi')| |].
  - intros i. rewrite !del_of_none; done.
  - intros s. split; [done..|]. intros i Hi. by apply del_of_none.
Qed.

Lemma vec_rollbackInsertions_spec v s n : vec_ok v → insertionStatus v ≠ ALWAYS_INSERTED → s + n ≤ CAP →
  no_deleted_rollback v s n →
  ∃ v', vec_rollbackInsertions v s n = Some v' ∧ vec_ok v' ∧ (∀ i, del_of v' i = del_of v i) ∧
    changed (ins_of v) (ins_of v') INVALID_TRANSACTION s n ∧
    (vec_free v (s + n) → vec_free v' s).
Proof.
  intros Hv Hst Hn Hd. unfold vec_rollbackInsertions. destruct (proj1 Hv) as [H|[H|[a H]]].
  - pose proof H as (A1 & A2 & A3). rewrite (proj2 (isSame_ins_false v)), A1, A2 by done. cbn [mbind option_bind].
    edestruct (emptied_ok v) as (B1 & B2 & B3 & B4); [done| |reflexivity|].
    { intros i Hi. apply dec_stable. intros Hne. destruct (Hd i Hi Hne) as (_ & Hx & _). apply Hx.
      rewrite (ins_of_none v i H). by destruct (insertionStatus v). }
    eexists. split_and!; [reflexivity|exact B1|exact B3| |].
    + split; [intros i _; by rewrite B2|]. intros i _ _. left. rewrite B2, (ins_of_none v i H). by destruct (insertionStatus v).
    + intros _. apply B4.
  - pose proof H as (A1 & A2 & A3). rewrite (proj2 (isSame_ins_true v)), A2 by done. cbn [mbind option_bind].
    edestruct (emptied_ok v) as (B1 & B2 & B3 & B4); [done| |reflexivity|].
    { intros i Hi. apply dec_stable. intros Hne. by destruct (Hd i Hi Hne) as (Hx & _ & _). }
    eexists. split_and!; [reflexivity|exact B1|exact B3| |].
    + split; [intros i _; by rewrite B2|]. intros i _ _. right. rewrite B2. split; [done|]. intros j _. by rewrite !ins_of_same.
    + intros _. apply B4.
  - pose proof H as (A1 & A2 & A3 & A4). rewrite (proj2 (isSame_ins_false v)), A2 by done.
    destruct (reset_versions_spec a s n A4 Hn) as (o & -> & Hlk & Ho). cbn [mbind option_bind]. destruct o as [b|].
    + rewrite bool_decide_false by done. cbn. set (v' := mkVersions _ _ _ _ _ _).
      assert (ins_array v' b) as H' by (split_and!; [done..|apply Ho]). assert (same_del v v') as Hsd by done.
      destruct (same_del_facts v v' Hsd) as [Hde Hdc].
      exists v'. split_and!; [done|split; [right; right; by exists b|by apply Hdc]|done| |].
      * split; intros i Hi; rewrite (ins_of_array v' b i H'); cbn [mbind option_bind] in Hlk; [rewrite Hlk by lia; by rewrite decide_True|].
        intros Hr. left. rewrite (ins_of_array v a i H). by rewrite Hlk, decide_False.
      * intros [Hst' Hr Hrd]. split; [done| |].
        -- intros ? i [= <-] Hi. destruct (lookup_lt_is_Some_2 b i) as [x Hx]; [lia|].
           specialize (Hlk i (proj2 Hi)). cbn [mbind option_bind] in Hlk. rewrite Hx in Hlk. change (default INVALID_TRANSACTION (Some x)) with x in Hlk. rewrite Hx, Hlk.
           destruct (decide _) as [|Hr']; [done|]. by rewrite (Hr a i A2) by lia.
        -- intros i Hi. rewrite Hde. apply dec_stable. intros Hne. destruct (decide (i < CAP)) as [Hc|Hc].
           ++ destruct (decide (s + n ≤ i)) as [|Hs]; [by apply Hne, Hrd|]. destruct (Hd i Hc Hne) as (_ & _ & Hx). lia.
           ++ apply Hne, Hrd. lia.
    + rewrite bool_decide_true by done. rewrite A1. edestruct (emptied_ok v) as (B1 & B2 & B3 & B4); [done| |reflexivity|].
      { intros i Hi. apply dec_stable. intros Hne. destruct (Hd i Hi Hne) as (_ & Hx & Hr). apply Hx.
        by rewrite (ins_of_array v a i H), (Ho i Hi Hr). }
      eexists. split_and!; [reflexivity|exact B1|exact B3| |].
      * split; [intros i _; by rewrite B2|]. intros i Hi Hr. left. by rewrite B2, (ins_of_array v a i H), (Ho i Hi Hr).
      * intros _. apply B4.
Qed.

(** ** The loops over the vectors of a chunk *)

#[local] Opaque DEFAULT_VECTOR_CAPACITY.

Lemma row_split r : r = r / CAP * CAP + r mod CAP ∧ r mod CAP < CAP.
Proof. pose proof CAP_pos. split; [|by apply Nat.mod_upper_bound; lia]. rewrite (Nat.div_mod_eq r CAP) at 1. lia. Qed.

Lemma row_unsplit k i : i < CAP → (k * CAP + i) / CAP = k ∧ (k * CAP + i) mod CAP = i.
Proof.
  intros Hi. pose proof CAP_pos. rewrite (Nat.add_comm (k * CAP)). split.
  - rewrite Nat.div_add by lia. by rewrite Nat.div_small.
  - rewrite Nat.Div0.mod_add. by apply Nat.mod_small.
Qed.

Lemma row_eq r k : r / CAP = k → r = k * CAP + r mod CAP.
Proof. intros <-. apply row_split. Qed.

(** The ranges of a loop are the vectors' parts of the rows, each vector once. *)
Lemma vector_ranges_elem s n k s' n' : (k, s', n') ∈ vector_ranges s n →
  0 < n' ∧ s' + n' ≤ CAP ∧ ∀ i, i < CAP → s' ≤ i < s' + n' ↔ s ≤ k * CAP + i < s + n.
Proof.
  unfold vector_ranges, getQuotientRemainder. destruct (decide (n = 0)) as [|Hn]; [by intros ?%elem_of_nil|].
  intros (k' & [= -> -> ->] & Hk)%list_elem_of_fmap.
  apply elem_of_seq in Hk. destruct (row_split s) as [Hs1 Hs2], (row_split (s + n - 1)) as [He1 He2].
  set (qs := s / CAP) in *. set (rs := s mod CAP) in *. set (qe := (s + n - 1) / CAP) in *. set (re := (s + n - 1) mod CAP) in *.
  clearbody qs rs qe re. set (C := CAP) in *. clearbody C.
  assert (∀ a b, a < b → a * C + C ≤ b * C) as Hmul.
  { intros a b Hab. transitivity ((a + 1) * C); [lia|]. apply Nat.mul_le_mono_r. lia. }
  assert (qs ≤ qe). { destruct (decide (qe < qs)) as [Hlt|]; [specialize (Hmul _ _ Hlt)|]; lia. }
  assert (k' = qs ∨ qs * C + C ≤ k' * C) as [->|H1] by (destruct (decide (k' = qs)); [by left|right; apply Hmul; lia]).
  - rewrite (decide_True (P := qs = qs)) by done.
    destruct (decide (qs = qe)) as [->|H2]; [|specialize (Hmul qs qe ltac:(lia))]; (split_and!; [lia..|]); intros i Hi; lia.
  - rewrite (decide_False (P := k' = qs)) by (intros ->; lia).
    destruct (decide (k' = qe)) as [->|H2]; [|specialize (Hmul k' qe ltac:(lia))]; (split_and!; [lia..|]); intros i Hi; lia.
Qed.

Lemma vector_ranges_cover s n r : s ≤ r < s + n → ∃ s' n', (r / CAP, s', n') ∈ vector_ranges s n.
Proof.
  intros Hr. unfold vector_ranges, getQuotientRemainder. rewrite decide_False by lia. eexists _, _.
  apply list_elem_of_fmap. exists (r / CAP). split; [done|]. apply elem_of_seq.
  pose proof CAP_pos. assert (s / CAP ≤ r / CAP) by (apply Nat.Div0.div_le_mono; lia).
  assert (r / CAP ≤ (s + n - 1) / CAP) by (apply Nat.Div0.div_le_mono; lia). lia.
Qed.

Lemma vector_ranges_NoDup s n : NoDup ((fst ∘ fst) <$> vector_ranges s n).
Proof.
  unfold vector_ranges, getQuotientRemainder. destruct (decide _); [constructor|].
  rewrite <-list_fmap_compose. rewrite (list_fmap_ext _ id); [rewrite list_fmap_id; apply NoDup_seq|done].
Qed.

(** The bounds of a vector's part of the rows. *)
Lemma range_bounds k s n s' n' : 0 < n' → s' + n' ≤ CAP → (∀ i, i < CAP → s' ≤ i < s' + n' ↔ s ≤ k * CAP + i < s + n) →
  s' = s - k * CAP ∧ s' + n' = (s + n - k * CAP) `min` CAP ∧ s < k * CAP + CAP ∧ k * CAP < s + n.
Proof.
  intros Hn Hc Hr. pose proof (proj1 (Hr s' ltac:(lia)) ltac:(lia)). pose proof (proj1 (Hr (s' + n' - 1) ltac:(lia)) ltac:(lia)).
  split_and!; [| |lia..].
  - destruct (decide (s - k * CAP < s')) as [Hlt|]; [|lia]. pose proof (proj2 (Hr (s' - 1) ltac:(lia)) ltac:(lia)). lia.
  - destruct (decide (s' + n' < CAP)) as [Hlt|]; [|lia]. destruct (decide (s + n - k * CAP ≤ s' + n')); [lia|].
    pose proof (proj2 (Hr (s' + n') ltac:(lia)) ltac:(lia)). lia.
Qed.

(** The vector an operation works on. *)
Definition vec_at (vi : VersionInfo) (k : nat) : VectorVersionInfo := default createVectorVersionInfo (getVectorVersionInfo vi k).

Lemma get_insert vi k j v : getVectorVersionInfo (<[k := Some v]> (vi ++ replicate (k + 1 - length vi) None)) j =
  if decide (j = k) then Some v else getVectorVersionInfo vi j.
Proof.
  unfold getVectorVersionInfo, VersionInfo in *. destruct (decide (j = k)) as [->|Hne].
  - by rewrite list_lookup_insert_eq by (rewrite length_app, length_replicate; lia).
  - rewrite list_lookup_insert_ne by done. destruct (decide (j < length vi)) as [Hj|Hj].
    + by rewrite lookup_app_l.
    + rewrite lookup_app_r by lia. rewrite (lookup_ge_None_2 vi j) by lia.
      destruct (replicate _ _ !! _) as [o|] eqn:E; [|done]. by apply lookup_replicate_1 in E as [-> _].
Qed.

Lemma update_vector_eq f vi k s n v' : f (vec_at vi k) s n = Some v' →
  ∃ vi', update_vector f vi (k, s, n) = Some vi' ∧
    ∀ j, getVectorVersionInfo vi' j = if decide (j = k) then Some v' else getVectorVersionInfo vi j.
Proof.
  intros E. unfold update_vector, getOrCreateVersionInfo. unfold vec_at in E. rewrite E. cbn [mbind option_bind].
  eexists. split; [done|]. intros j. unfold VersionInfo in *. rewrite list_insert_insert_eq. apply get_insert.
Qed.

Lemma update_vectors f l vi : NoDup ((fst ∘ fst) <$> l) →
  (∀ k s n, (k, s, n) ∈ l → is_Some (f (vec_at vi k) s n)) →
  ∃ vi', ofold (update_vector f) vi l = Some vi' ∧
    (∀ k s n, (k, s, n) ∈ l → getVectorVersionInfo vi' k = f (vec_at vi k) s n) ∧
    (∀ k, k ∉ (fst ∘ fst) <$> l → getVectorVersionInfo vi' k = getVectorVersionInfo vi k).
Proof.
  revert vi. induction l as [|[[k s] n] l IH]; intros vi Hnd Hf.
  { exists vi. split_and!; [done| |done]. intros k s n ?%elem_of_nil. done. }
  apply NoDup_cons in Hnd as [Hk Hnd]. destruct (Hf k s n) as [v' E]; [left|].
  destruct (update_vector_eq f vi k s n v' E) as (vi1 & E1 & Hget).
  assert (∀ j, j ≠ k → vec_at vi1 j = vec_at vi j) as Hat by (intros j Hj; unfold vec_at; by rewrite Hget, decide_False).
  destruct (IH vi1) as (vi' & E' & Hin & Hout); [done| |].
  { intros j s' n' Hj. rewrite Hat; [apply Hf; by right|]. intros ->. apply Hk. by apply (list_elem_of_fmap_2 (fst ∘ fst) l (k, s', n')). }
  exists vi'. split_and!.
  - cbn [ofold]. by rewrite E1.
  - intros j s' n' [Heq|Hj]%elem_of_cons; [injection Heq as -> -> ->|].
    + rewrite Hout, Hget, decide_True by done. done.
    + rewrite (Hin j s' n' Hj). f_equal. apply Hat. intros ->. apply Hk. by apply (list_elem_of_fmap_2 (fst ∘ fst) l (k, s', n')).
  - intros j Hj. rewrite fmap_cons in Hj. apply not_elem_of_cons in Hj as [H1 H2]. by rewrite Hout, Hget, decide_False.
Qed.

(** ** The rows of a chunk

    A row of a vector without version information is always inserted and not deleted. *)
Definition row_of (g : VectorVersionInfo → nat → Z) (d : Z) (vi : VersionInfo) (r : nat) : Z :=
  match getVectorVersionInfo vi (r / CAP) with Some v => g v (r mod CAP) | None => d end.
Definition row_ins : VersionInfo → nat → Z := row_of ins_of 0.
Definition row_del : VersionInfo → nat → Z := row_of del_of INVALID_TRANSACTION.

Definition rows_ok (vi : VersionInfo) : Prop := ∀ k v, getVectorVersionInfo vi k = Some v → vec_ok v.

(** No row from [m] on has a version of its own. *)
Definition rest_free (vi : VersionInfo) (m : nat) : Prop := ∀ k, m < k * CAP + CAP → vec_free (vec_at vi k) (m - k * CAP).

Lemma vec_at_ok vi k : rows_ok vi → vec_ok (vec_at vi k).
Proof. intros H. unfold vec_at. destruct (getVectorVersionInfo vi k) eqn:E; [by eapply H|apply create_ok]. Qed.

Lemma isInserted_row vi startTS tid r : rows_ok vi → snapshot_ok startTS tid →
  isInserted vi startTS tid r = Some (version_seen startTS tid (row_ins vi r)).
Proof.
  intros Hv Hs. unfold isInserted, getQuotientRemainder, row_ins, row_of.
  destruct (getVectorVersionInfo vi (r / CAP)) as [v|] eqn:E; [|by rewrite seen_always].
  apply vec_isInserted_spec; [by eapply Hv|done|apply row_split].
Qed.

Lemma isDeleted_row vi startTS tid r : rows_ok vi → snapshot_ok startTS tid →
  isDeleted vi startTS tid r = Some (version_seen startTS tid (row_del vi r)).
Proof.
  intros Hv Hs. unfold isDeleted, getQuotientRemainder, row_del, row_of.
  destruct (getVectorVersionInfo vi (r / CAP)) as [v|] eqn:E; [|by rewrite seen_invalid].
  apply vec_isDeleted_spec; [by eapply Hv|done|apply row_split].
Qed.

Lemma isSelected_row vi startTS tid r : rows_ok vi → snapshot_ok startTS tid →
  isSelected vi startTS tid r = Some (row_visible startTS tid (row_ins vi r, row_del vi r)).
Proof.
  intros Hv Hs. unfold isSelected, getQuotientRemainder, row_ins, row_del, row_of.
  destruct (getVectorVersionInfo vi (r / CAP)) as [v|] eqn:E.
  - apply vec_isSelected_spec; [by eapply Hv|done|apply row_split].
  - unfold row_visible. cbn. by rewrite seen_always, seen_invalid.
Qed.

(** A loop whose vectors satisfy [Q] row by row. *)
Lemma loop_rows f vi s n (Q : nat → VectorVersionInfo → Prop) : rows_ok vi →
  (∀ k s' n', (k, s', n') ∈ vector_ranges s n → 0 < n' → s' + n' ≤ CAP →
    (∀ i, i < CAP → s' ≤ i < s' + n' ↔ s ≤ k * CAP + i < s + n) →
    ∃ v', f (vec_at vi k) s' n' = Some v' ∧ vec_ok v' ∧ Q k v') →
  ∃ vi', ofold (update_vector f) vi (vector_ranges s n) = Some vi' ∧ rows_ok vi' ∧
    ∀ k, (getVectorVersionInfo vi' k = getVectorVersionInfo vi k ∧ ∀ i, i < CAP → ¬ (s ≤ k * CAP + i < s + n)) ∨
      (∃ v', getVectorVersionInfo vi' k = Some v' ∧ Q k v' ∧ ∃ i, i < CAP ∧ s ≤ k * CAP + i < s + n).
Proof.
  intros Hok Hf.
  assert (∀ k s' n', (k, s', n') ∈ vector_ranges s n → ∃ v', f (vec_at vi k) s' n' = Some v' ∧ vec_ok v' ∧ Q k v') as Hf'.
  { intros k s' n' Hin. destruct (vector_ranges_elem _ _ _ _ _ Hin) as (? & ? & ?). by eapply Hf. }
  destruct (update_vectors f (vector_ranges s n) vi) as (vi' & E & Hin & Hout); [apply vector_ranges_NoDup| |].
  { intros k s' n' H. destruct (Hf' k s' n' H) as (v' & -> & _). done. }
  exists vi'. split; [done|]. assert (∀ k, k ∉ (fst ∘ fst) <$> vector_ranges s n ∨ ∃ s' n', (k, s', n') ∈ vector_ranges s n) as Hk.
  { intros k. destruct (decide (k ∈ (fst ∘ fst) <$> vector_ranges s n)) as [H|H]; [right|by left].
    apply list_elem_of_fmap in H as ([[k' s'] n'] & -> & H). by exists s', n'. }
  split.
  - intros k v Hv. destruct (Hk k) as [H|(s' & n' & H)]; [rewrite Hout in Hv by done; by eapply Hok|].
    destruct (Hf' k s' n' H) as (v' & E' & Hv' & _). rewrite (Hin _ _ _ H), E' in Hv. by simplify_eq.
  - intros k. destruct (Hk k) as [H|(s' & n' & H)].
    + left. split; [by apply Hout|]. intros i Hi Hr. apply H. destruct (vector_ranges_cover s n _ Hr) as (s' & n' & Hc).
      rewrite (proj1 (row_unsplit k i Hi)) in Hc. by apply (list_elem_of_fmap_2 (fst ∘ fst) _ (k, s', n')).
    + right. destruct (Hf' k s' n' H) as (v' & E' & Hv' & HQ). exists v'. split_and!; [by rewrite (Hin _ _ _ H), E'|done|].
      destruct (vector_ranges_elem _ _ _ _ _ H) as (H1 & H2 & H3). exists s'. split; [lia|]. apply H3; lia.
Qed.

Lemma row_ins_at vi k i v : i < CAP → getVectorVersionInfo vi k = Some v → row_ins vi (k * CAP + i) = ins_of v i.
Proof. intros Hi E. unfold row_ins, row_of. destruct (row_unsplit k i Hi) as [-> ->]. by rewrite E. Qed.
Lemma row_del_at vi k i v : i < CAP → getVectorVersionInfo vi k = Some v → row_del vi (k * CAP + i) = del_of v i.
Proof. intros Hi E. unfold row_del, row_of. destruct (row_unsplit k i Hi) as [-> ->]. by rewrite E. Qed.

(** A row whose version is neither 0 nor invalid is in a vector that keeps versions. *)
Definition versioned (x : Z) : Prop := x ≠ 0%Z ∧ x ≠ INVALID_TRANSACTION.

Lemma versioned_vector vi k i : i < CAP → versioned (row_ins vi (k * CAP + i)) →
  ∃ v, getVectorVersionInfo vi k = Some v ∧ vec_at vi k = v ∧ insertionStatus v = INSERTED_CHECK_VERSION.
Proof.
  intros Hi [H1 H2]. unfold row_ins, row_of in *. destruct (row_unsplit k i Hi) as [Hk Hr]. rewrite Hk, Hr in *. unfold vec_at.
  destruct (getVectorVersionInfo vi k) as [v|]; [|done]. exists v. split_and!; [done..|].
  unfold ins_of in *. by destruct (insertionStatus v).
Qed.

(** The last row of a chunk, if it shares its vector with the next, has a version. *)
Definition tail_ok (vi : VersionInfo) (m : nat) : Prop := m mod CAP = 0 ∨ versioned (row_ins vi (m - 1)).

Lemma tail_vector vi m k : tail_ok vi m → k * CAP < m < k * CAP + CAP →
  ∃ v, getVectorVersionInfo vi k = Some v ∧ vec_at vi k = v ∧ insertionStatus v = INSERTED_CHECK_VERSION.
Proof.
  intros [Hm|Hm] Hk.
  - exfalso. replace m with (k * CAP + (m - k * CAP)) in Hm by lia. rewrite (proj2 (row_unsplit k (m - k * CAP) ltac:(lia))) in Hm. lia.
  - replace (m - 1) with (k * CAP + (m - 1 - k * CAP)) in Hm by lia. eapply versioned_vector; [|exact Hm]. lia.
Qed.

Lemma append_rows vi tid m n : rows_ok vi → rest_free vi m → tail_ok vi m → tid ≠ INVALID_TRANSACTION →
  ∃ vi', append vi tid m n = Some vi' ∧ rows_ok vi' ∧ rest_free vi' (m + n) ∧
    (∀ r, m ≤ r < m + n → row_ins vi' r = tid) ∧ (∀ r, r < m → row_ins vi' r = row_ins vi r) ∧
    (∀ r, row_del vi' r = row_del vi r).
Proof.
  intros Hok Hfree Htail Ht. unfold append.
  destruct (loop_rows (λ v, vec_append v tid) vi m n (λ k v', vec_free v' (m + n - k * CAP) ∧
    (∀ i, del_of v' i = del_of (vec_at vi k) i) ∧ (∀ i, k * CAP + i < m → ins_of v' i = ins_of (vec_at vi k) i) ∧
    (∀ i, i < CAP → m ≤ k * CAP + i < m + n → ins_of v' i = tid))) as (vi' & E & Hok' & Hk); [done| |].
  { intros k s' n' Hin Hn Hc Hr. pose proof (vec_at_ok vi k Hok) as Hv.
    destruct (range_bounds k m n s' n' Hn Hc Hr) as (Hs' & He' & Hlt & _).
    destruct (vec_append_spec (vec_at vi k) tid s' n') as (v' & E & Hv' & Hready & Hsd & Hold & Hnew); [done| |done..|].
    { apply free_ready; [done|rewrite Hs'; by apply Hfree|]. destruct (decide (s' = 0)) as [|Hne]; [by left|right].
      destruct (tail_vector vi m k Htail) as (v & _ & -> & ?); [lia|done]. }
    exists v'. split_and!; [done..| | | |].
    - apply ready_free in Hready as [F1 F2 F3]; [|done]. split; [done|intros a i Ha Hi; apply F2; [done|lia]|].
      intros i Hi. apply F3. lia.
    - intros i. by apply (same_del_facts _ _ Hsd).
    - intros i Hi. apply Hold. lia.
    - intros i Hi Hrow. apply Hnew. by apply Hr. }
  exists vi'. split_and!; [done..| | | |].
  - intros k Hlt. destruct (Hk k) as [[Hg Hno]|(v' & Hg & (F & _) & _)]; unfold vec_at; rewrite Hg; [|done].
    fold (vec_at vi k). destruct (Hfree k) as [F1 F2 F3]; [lia|].
    assert (m + n - k * CAP = m - k * CAP) as ->; [|done].
    destruct (decide (n = 0)); [lia|]. destruct (decide (m + n ≤ k * CAP)); [lia|].
    destruct (Hno (m - k * CAP)); lia.
  - intros r Hr. destruct (row_split r) as [Hs Hi]. rewrite Hs. destruct (Hk (r / CAP)) as [[Hg Hno]|(v' & Hg & (_ & _ & _ & Hnew) & _)].
    + destruct (Hno (r mod CAP)); lia.
    + rewrite (row_ins_at _ _ _ v') by done. apply Hnew; [done|lia].
  - intros r Hr. destruct (row_split r) as [Hs Hi]. destruct (Hk (r / CAP)) as [[Hg Hno]|(v' & Hg & (_ & _ & Hold & _) & i & Hi' & Hin)].
    + unfold row_ins, row_of. by rewrite Hg.
    + destruct (tail_vector vi m (r / CAP) Htail) as (v & Hgv & Hat & _); [lia|].
      unfold row_ins, row_of. rewrite Hg, Hgv, Hold by lia. by rewrite Hat.
  - intros r. unfold row_del, row_of. destruct (Hk (r / CAP)) as [[-> Hno]|(v' & -> & (_ & Hde & _) & i & Hi' & Hin)]; [done|].
    rewrite Hde. unfold vec_at. by destruct (getVectorVersionInfo vi (r / CAP)).
Qed.

(** The rows of a range get the version [x]; of the other rows only those of the same owner may get it too. *)
Definition row_change (own : Z → Prop) (x : Z) (s n : nat) (old new : nat → Z) : Prop :=
  (∀ r, s ≤ r < s + n → new r = x) ∧
  (∀ r, ¬ (s ≤ r < s + n) → new r = old r ∨ (own (old r) ∧ new r = x)).

Definition row_vector (vi : VersionInfo) (r : nat) : Prop := is_Some (getVectorVersionInfo vi (r / CAP)).

(** Operations that change the versions [g] of a range and keep the versions [h]. *)
Lemma changed_rows f vi s n x (own : Z → Prop) g d h d' (F : nat → VectorVersionInfo → VectorVersionInfo → Prop) :
  rows_ok vi → (∀ r, s ≤ r < s + n → own (row_of g d vi r) ∧ row_vector vi r) →
  (∀ k v s' n', getVectorVersionInfo vi k = Some v → 0 < n' → s' + n' ≤ CAP →
    (∀ i, i < CAP → s' ≤ i < s' + n' ↔ s ≤ k * CAP + i < s + n) → own (g v s') →
    ∃ v', f v s' n' = Some v' ∧ vec_ok v' ∧ (∀ i, i < CAP → h v' i = h v i) ∧ changed (g v) (g v') x s' n' ∧ F k v v') →
  ∃ vi', ofold (update_vector f) vi (vector_ranges s n) = Some vi' ∧ rows_ok vi' ∧
    (∀ r, row_of h d' vi' r = row_of h d' vi r) ∧ row_change own x s n (row_of g d vi) (row_of g d vi') ∧
    ∀ k, (getVectorVersionInfo vi' k = getVectorVersionInfo vi k ∧ ∀ i, i < CAP → ¬ (s ≤ k * CAP + i < s + n)) ∨
      (∃ v v', getVectorVersionInfo vi k = Some v ∧ getVectorVersionInfo vi' k = Some v' ∧ F k v v' ∧
        ∃ i, i < CAP ∧ s ≤ k * CAP + i < s + n).
Proof.
  intros Hok Hown Hf. set (P k v v' := (∀ i, i < CAP → h v' i = h v i) ∧
    (∀ i, i < CAP → s ≤ k * CAP + i < s + n → g v' i = x) ∧
    (∀ i, i < CAP → ¬ (s ≤ k * CAP + i < s + n) → g v' i = g v i ∨ (own (g v i) ∧ g v' i = x)) ∧ F k v v').
  destruct (loop_rows f vi s n (λ k v', ∃ v, getVectorVersionInfo vi k = Some v ∧ P k v v')) as (vi' & E & Hok' & Hk); [done| |].
  { intros k s' n' _ Hn Hc Hr. destruct (Hown (k * CAP + s')) as [Ho [v Hv]]; [apply Hr; lia|].
    unfold row_of in Ho. destruct (row_unsplit k s' ltac:(lia)) as [Hd Hm]. rewrite Hd, Hm in *. rewrite Hv in Ho.
    destruct (Hf k v s' n' Hv Hn Hc Hr Ho) as (v' & E & Hv' & Hh & [Hin Hout] & HF).
    exists v'. unfold vec_at. rewrite Hv. split_and!; [done..|]. exists v. split; [done|]. split_and!; [done| | |done].
    - intros i Hi Hri. apply Hin, Hr; done.
    - intros i Hi Hri. destruct (Hout i Hi) as [?|[Hx Hall]]; [by rewrite Hr|by left|right; split; [|done]].
      rewrite <-(Hall s' ltac:(lia)). done. }
  exists vi'. split_and!; [done..| | |].
  - intros r. unfold row_of. destruct (Hk (r / CAP)) as [[-> _]|(v' & -> & (v & -> & Hh & _) & _)]; [done|]. apply Hh, row_split.
  - split; intros r Hr; unfold row_of; pose proof (row_split r) as [Hs Hi];
      destruct (Hk (r / CAP)) as [[Hg Hno]|(v' & Hg & (v & Hg' & _ & Hin & Hout & _) & _)]; rewrite Hg, ?Hg'.
    + destruct (Hno (r mod CAP)); lia.
    + apply Hin; [done|lia].
    + by left.
    + apply Hout; [done|lia].
  - intros k. destruct (Hk k) as [?|(v' & Hg' & (v & Hg & _ & _ & _ & HF) & Ht)]; [by left|right]. by exists v, v'.
Qed.

Lemma commitInsert_rows vi s n ts (own : Z → Prop) : rows_ok vi → (∀ x, own x → versioned x) → ts ≠ INVALID_TRANSACTION →
  (∀ r, s ≤ r < s + n → own (row_ins vi r) ∧ row_vector vi r) →
  ∃ vi', commitInsert vi s n ts = Some vi' ∧ rows_ok vi' ∧ (∀ r, row_del vi' r = row_del vi r) ∧
    row_change own ts s n (row_ins vi) (row_ins vi') ∧ (∀ m, s + n ≤ m → rest_free vi m → rest_free vi' m) ∧
    (∀ r, row_vector vi r → row_vector vi' r).
Proof.
  intros Hok Hver Hts Hown.
  destruct (changed_rows (λ v, vec_setInsertCommitTS v ts) vi s n ts own ins_of 0 del_of INVALID_TRANSACTION
    (λ k v v', ∀ m, s + n ≤ m → vec_free v (m - k * CAP) → vec_free v' (m - k * CAP)))
    as (vi' & E & Hok' & Hdel & Hins & Hk); [done..| |].
  { intros k v s' n' Hg Hn Hc Hr Ho. destruct (range_bounds k s n s' n' Hn Hc Hr) as (? & ? & ? & ?).
    destruct (Hver _ Ho) as [V1 V2]. destruct (vec_setInsertCommitTS_spec v ts s' n') as (v' & E & Hv' & Hsd & Hch & Hf); [by eapply Hok| |done..|].
    { unfold ins_of in V1, V2. by destruct (insertionStatus v). }
    exists v'. split_and!; [done..| |done|]; [intros i _; by apply (same_del_facts _ _ Hsd)|]. intros m Hm. apply Hf. lia. }
  exists vi'. split_and!; [done..| |].
  - intros m Hm Hf k Hlt. specialize (Hf k Hlt). unfold vec_at in *.
    destruct (Hk k) as [[-> _]|(v & v' & Hg & -> & HF & _)]; [done|]. rewrite Hg in Hf. by apply HF.
  - intros r [v Hv]. unfold row_vector. destruct (Hk (r / CAP)) as [[-> _]|(? & ? & _ & -> & _)]; [by rewrite Hv|done].
Qed.

(** An operation on deletions keeps the rows from [m] on free. *)
Lemma deletion_rest_free vi vi' own x s n m : (own INVALID_TRANSACTION → x = INVALID_TRANSACTION) → s + n ≤ m →
  row_change own x s n (row_del vi) (row_del vi') →
  (∀ k, getVectorVersionInfo vi' k = getVectorVersionInfo vi k ∨
    ∃ v v', getVectorVersionInfo vi k = Some v ∧ getVectorVersionInfo vi' k = Some v' ∧ same_ins v v') →
  rest_free vi m → rest_free vi' m.
Proof.
  intros Hown Hm [_ Hch] Hk Hf k Hlt. specialize (Hf k Hlt). unfold vec_at in *.
  destruct (Hk k) as [->|(v & v' & Hg & Hg' & S1 & S2 & S3)]; [done|]. rewrite Hg in Hf. rewrite Hg'.
  destruct Hf as [F1 F2 F3]. cbn in F1, F2, F3. split; cbn; [by rewrite S3|by rewrite S1|].
  intros i Hi. destruct (Hch (k * CAP + i)) as [H|[Ho H]]; [lia|..].
  - rewrite (row_del_at vi' k i v'), (row_del_at vi k i v) in H by (done || lia). rewrite H. by apply F3.
  - rewrite (row_del_at vi k i v), (F3 i Hi) in Ho by (done || lia).
    rewrite (row_del_at vi' k i v') in H by (done || lia). rewrite H. by apply Hown.
Qed.

Lemma deletion_rows f vi s n x (own : Z → Prop) : rows_ok vi → (own INVALID_TRANSACTION → x = INVALID_TRANSACTION) →
  (∀ r, s ≤ r < s + n → own (row_del vi r) ∧ row_vector vi r) →
  (∀ v s' n', vec_ok v → s' + n' ≤ CAP → own (del_of v s') →
    ∃ v', f v s' n' = Some v' ∧ vec_ok v' ∧ same_ins v v' ∧ changed (del_of v) (del_of v') x s' n') →
  ∃ vi', ofold (update_vector f) vi (vector_ranges s n) = Some vi' ∧ rows_ok vi' ∧ (∀ r, row_ins vi' r = row_ins vi r) ∧
    row_change own x s n (row_del vi) (row_del vi') ∧ (∀ m, s + n ≤ m → rest_free vi m → rest_free vi' m) ∧
    (∀ r, row_vector vi r → row_vector vi' r).
Proof.
  intros Hok Hx Hown Hf.
  destruct (changed_rows f vi s n x own del_of INVALID_TRANSACTION ins_of 0 (λ _ v v', same_ins v v'))
    as (vi' & E & Hok' & Hins & Hdel & Hk); [done..| |].
  { intros k v s' n' Hg Hn Hc Hr Ho. destruct (Hf v s' n') as (v' & E & Hv' & Hsi & Hch); [by eapply Hok|done..|].
    exists v'. split_and!; [done..| |done|done]. intros i _. by apply (same_ins_facts _ _ Hsi). }
  exists vi'. split_and!; [done..| |].
  - intros m Hm. eapply deletion_rest_free; [exact Hx|done..|]. intros k. destruct (Hk k) as [[-> _]|(v & v' & ? & ? & ? & _)]; [by left|].
    right. by exists v, v'.
  - intros r [v Hv]. unfold row_vector. destruct (Hk (r / CAP)) as [[-> _]|(? & ? & _ & -> & _)]; [by rewrite Hv|done].
Qed.

Lemma commitDelete_rows vi s n ts (own : Z → Prop) : rows_ok vi → (∀ x, own x → x ≠ INVALID_TRANSACTION) → ts ≠ INVALID_TRANSACTION →
  (∀ r, s ≤ r < s + n → own (row_del vi r) ∧ row_vector vi r) →
  ∃ vi', commitDelete vi s n ts = Some vi' ∧ rows_ok vi' ∧ (∀ r, row_ins vi' r = row_ins vi r) ∧
    row_change own ts s n (row_del vi) (row_del vi') ∧ (∀ m, s + n ≤ m → rest_free vi m → rest_free vi' m) ∧
    (∀ r, row_vector vi r → row_vector vi' r).
Proof.
  intros Hok Hver Hts Hown. apply deletion_rows; [done|intros H; by destruct (Hver _ H)|done|].
  intros v s' n' Hv Hc Ho. destruct (vec_setDeleteCommitTS_spec v ts s' n') as (v' & ? & ? & ? & _ & ?); [done| |done..|by exists v'].
  specialize (Hver _ Ho). unfold del_of in Hver. by destruct (deletionStatus v).
Qed.

Lemma rollbackDelete_rows vi s n (own : Z → Prop) : rows_ok vi → (∀ r, s ≤ r < s + n → own (row_del vi r) ∧ row_vector vi r) →
  ∃ vi', rollbackDelete vi s n = Some vi' ∧ rows_ok vi' ∧ (∀ r, row_ins vi' r = row_ins vi r) ∧
    row_change own INVALID_TRANSACTION s n (row_del vi) (row_del vi') ∧ (∀ m, s + n ≤ m → rest_free vi m → rest_free vi' m) ∧
    (∀ r, row_vector vi r → row_vector vi' r).
Proof.
  intros Hok Hown. apply deletion_rows; [done..|]. intros v s' n' Hv Hc _. by apply vec_rollbackDeletions_spec.
Qed.

Lemma rollbackInsert_rows vi s n (own : Z → Prop) : rows_ok vi → (∀ x, own x → x ≠ 0%Z) → own INVALID_TRANSACTION →
  (∀ r, s ≤ r < s + n → own (row_ins vi r) ∧ row_vector vi r) →
  (∀ r, row_del vi r ≠ INVALID_TRANSACTION → ¬ own (row_ins vi r)) →
  ∃ vi', rollbackInsert vi s n = Some vi' ∧ rows_ok vi' ∧ (∀ r, row_del vi' r = row_del vi r) ∧
    row_change own INVALID_TRANSACTION s n (row_ins vi) (row_ins vi') ∧ (rest_free vi (s + n) → rest_free vi' s) ∧
    (∀ r, row_vector vi r → row_vector vi' r).
Proof.
  intros Hok Hver Hinv Hown Hd.
  destruct (changed_rows vec_rollbackInsertions vi s n INVALID_TRANSACTION own ins_of 0 del_of INVALID_TRANSACTION
    (λ k v v', (s + n < k * CAP + CAP → vec_free v (s + n - k * CAP)) → vec_free v' (s - k * CAP)))
    as (vi' & E & Hok' & Hdel & Hins & Hk); [done..| |].
  { intros k v s' n' Hg Hn Hc Hr Ho. destruct (range_bounds k s n s' n' Hn Hc Hr) as (Hs' & He & _).
    assert (insertionStatus v ≠ ALWAYS_INSERTED) as Hst.
    { intros Hst. apply (Hver _ Ho). unfold ins_of. by rewrite Hst. }
    destruct (vec_rollbackInsertions_spec v s' n') as (v' & E & Hv' & Hde & Hch & Hf); [by eapply Hok|done..| |].
    { intros i Hi Hne. rewrite <-(row_del_at vi k i v Hi Hg) in Hne. pose proof (Hd _ Hne) as Hno.
      split_and!.
      - intros Hsame. apply Hno. rewrite (row_ins_at vi k i v Hi Hg), (ins_of_same v i Hsame). by rewrite (ins_of_same v s' Hsame) in Ho.
      - intros Hx. apply Hno. by rewrite (row_ins_at vi k i v Hi Hg), Hx.
      - intros Hx. apply Hno, Hown, Hr; done. }
    exists v'. split_and!; [done..|intros i _; apply Hde|done|]. intros Hfree. rewrite <-Hs'. apply Hf.
    destruct (decide (s + n < k * CAP + CAP)) as [Hlt|Hge].
    - rewrite He. destruct (Hfree Hlt) as [F1 F2 F3]. split; [done|intros a i Ha Hi; apply F2; [done|lia]|intros i Hi; apply F3; lia].
    - split; [done|intros a i _; lia|lia]. }
  exists vi'. split_and!; [done..| |].
  - intros Hf k Hlt. unfold vec_at. destruct (Hk k) as [[-> Hno]|(v & v' & Hg & -> & HF & _)].
    + fold (vec_at vi k). destruct (decide (n = 0)) as [->|Hn]; [rewrite Nat.add_0_r in Hf; by apply Hf|].
      destruct (decide (k * CAP < s + n)) as [Hlt'|Hge].
      * destruct (Hno (s - k * CAP)); lia.
      * replace (s - k * CAP) with (s + n - k * CAP) by lia. apply Hf. pose proof CAP_pos. lia.
    + apply HF. intros Hlt'. specialize (Hf k Hlt'). unfold vec_at in Hf. by rewrite Hg in Hf.
  - intros r [v Hv]. unfold row_vector. destruct (Hk (r / CAP)) as [[-> _]|(? & ? & _ & -> & _)]; [by rewrite Hv|done].
Qed.

(** The vector a deletion finds or makes. *)
Lemma delete_vector vi r : rows_ok vi → row_ins vi r ≠ INVALID_TRANSACTION →
  let v := vec_at vi (r / CAP) in
  let v0 := if decide (insertionStatus v = NO_INSERTED)
    then mkVersions (insertedVersions v) (deletedVersions v) (sameInsertionVersion v) (sameDeletionVersion v)
      ALWAYS_INSERTED (deletionStatus v)
    else v in
  vec_ok v0 ∧ (∀ i, i < CAP → ins_of v0 i = row_ins vi (r / CAP * CAP + i)) ∧
  (∀ i, i < CAP → del_of v0 i = row_del vi (r / CAP * CAP + i)) ∧ (row_vector vi r → v0 = v).
Proof.
  intros Hok Hr. unfold row_vector, vec_at. destruct (getVectorVersionInfo vi (r / CAP)) as [v|] eqn:E; cbn zeta.
  - change (default createVectorVersionInfo (Some v)) with v. rewrite decide_False.
    + split_and!; [by eapply Hok| | |done]; intros i Hi; symmetry; [by apply row_ins_at|by apply row_del_at].
    + intros Hst. apply Hr. unfold row_ins, row_of. rewrite E. unfold ins_of. by rewrite Hst.
  - change (default createVectorVersionInfo None) with createVectorVersionInfo. rewrite decide_True by done.
    assert (∀ i, i < CAP → getVectorVersionInfo vi ((r / CAP * CAP + i) / CAP) = None) as Hn.
    { intros i Hi. by rewrite (proj1 (row_unsplit (r / CAP) i Hi)). }
    split_and!; [split; left; by split_and!| | |by intros [? ?]]; intros i Hi; unfold row_ins, row_del, row_of; by rewrite Hn.
Qed.

Lemma delete_rows vi tid r : rows_ok vi → tid ≠ INVALID_TRANSACTION → row_ins vi r ≠ INVALID_TRANSACTION →
  ∃ vi', delete_ vi tid r = Some (vi', delete_result (row_del vi r) tid) ∧ rows_ok vi' ∧
    (∀ j, row_ins vi' j = row_ins vi j) ∧
    (∀ j, row_del vi' j = if decide (j = r ∧ row_del vi r = INVALID_TRANSACTION) then tid else row_del vi j) ∧
    (∀ m, r < m → tail_ok vi m → rest_free vi m → rest_free vi' m) ∧
    row_vector vi' r ∧ (∀ j, row_vector vi j → row_vector vi' j).
Proof.
  intros Hok Ht Hr. destruct (delete_vector vi r Hok Hr) as (Hv0 & Hi0 & Hd0 & Hex). pose proof (row_split r) as [Hs Hi].
  unfold delete_, getQuotientRemainder, getOrCreateVersionInfo. fold (vec_at vi (r / CAP)). set (v0 := if decide _ then _ else _) in *.
  destruct (vec_delete_spec v0 tid (r mod CAP) Hv0 Ht Hi) as (v' & E & Hv' & Hsi & Hdel). rewrite E. cbn [mbind option_bind].
  rewrite (Hd0 _ Hi), <-Hs. unfold VersionInfo in *. rewrite list_insert_insert_eq. eexists. split; [reflexivity|]. set (vi' := <[_ := _]> _).
  assert (∀ k, getVectorVersionInfo vi' k = if decide (k = r / CAP) then Some v' else getVectorVersionInfo vi k) as Hg
    by (intros k; apply get_insert).
  assert (∀ j, j / CAP = r / CAP → j = r / CAP * CAP + j mod CAP) as Hj by (intros j; apply row_eq).
  split_and!.
  - intros k v. rewrite Hg. destruct (decide (k = r / CAP)); [by intros [= <-]|by apply Hok].
  - intros j. unfold row_ins at 1, row_of at 1. rewrite Hg. destruct (decide (j / CAP = r / CAP)) as [Hk|]; [|done].
    rewrite (proj1 (same_ins_facts _ _ Hsi)), Hi0, <-Hj by (done || apply row_split). done.
  - intros j. unfold row_del at 1, row_of at 1. rewrite Hg. destruct (decide (j / CAP = r / CAP)) as [Hk|Hk].
    + rewrite Hdel, !Hd0, <-Hs, <-Hj by (done || apply row_split). apply decide_ext. split; intros [H1 H2]; (split; [|done]); [|by subst].
      pose proof (Hj j Hk) as Hj'. rewrite H1 in Hj'. by rewrite <-Hs in Hj'.
    + by rewrite decide_False by (intros [-> _]; done).
  - intros m Hm Htail Hf k Hlt. specialize (Hf k Hlt). unfold vec_at. rewrite Hg. destruct (decide (k = r / CAP)) as [->|]; [|done].
    destruct (tail_vector vi m (r / CAP) Htail) as (v & Hgv & Hat & Hst); [lia|]. unfold vec_at in Hf. rewrite Hgv in Hf.
    destruct Hf as [F1 F2 F3]. cbn in F1, F2, F3. assert (v0 = v) as Hv0v by (rewrite <-Hat; apply Hex; by eexists).
    destruct Hsi as (S1 & S2 & S3). rewrite Hv0v in *. split; cbn; [by rewrite S3|by rewrite S1|]. intros i Hi'.
    rewrite Hdel by lia. rewrite decide_False by lia. by apply F3.
  - unfold row_vector. rewrite Hg. rewrite decide_True by done. by eexists.
  - intros j Hv. unfold row_vector. rewrite Hg. destruct (decide (j / CAP = r / CAP)); [by eexists|exact Hv].
Qed.

(** ** Scans *)

Lemma write_selected_spec sv pos n sel (b : nat → bool) : sel_ok sv → state sv = DYNAMIC →
  (∀ i, i < n → sel i = Some (b i)) → selectedSize sv + n ≤ capacity sv →
  ∃ sv', write_selected sv pos n sel = Some sv' ∧ sel_ok sv' ∧ capacity sv' = capacity sv ∧ state sv' = DYNAMIC ∧
    getSelectedPositions sv' = getSelectedPositions sv ++ (Nat.add pos <$> filter (λ i, b i = true) (seq 0 n)).
Proof.
  intros Hok Hst Hsel Hn. pose proof Hok as [Hb H1 H2]. unfold write_selected.
  match goal with |- context [ofold ?f ?b0 ?l] => destruct (ofold_total f
    (λ dn st, length (selectedPositionsBuffer st.1) = capacity sv ∧ capacity st.1 = capacity sv ∧
      st.2 = selectedSize sv + length (filter (λ i, b i = true) dn) ∧
      take st.2 (selectedPositionsBuffer st.1) =
        take (selectedSize sv) (selectedPositionsBuffer sv) ++ (Nat.add pos <$> filter (λ i, b i = true) dn)) l b0)
    as ([sv1 m] & -> & Hl & Hc & Hm & Ht) end.
  - cbn. split_and!; [done..|lia|]. by rewrite app_nil_r.
  - intros dn i rest [sv1 m] El (Hl & Hc & Hm & Ht). cbn [fst snd] in *.
    assert (i = 0 + length dn ∧ length dn < n) as [-> Hlt] by (by eapply seq_middle). cbn [Nat.add] in *.
    pose proof (length_filter (λ i, b i = true) dn). rewrite (Hsel (length dn)) by done. cbn [mbind option_bind].
    destruct (b (length dn)) eqn:E.
    + rewrite write_buffer_Some by lia. cbn [mbind option_bind]. eexists. split; [done|].
      cbn [fst snd selectedPositionsBuffer capacity]. rewrite length_insert, filter_app, filter_cons_True, filter_nil, length_app, fmap_app by done.
      split_and!; [done..|cbn; lia|]. rewrite Nat.add_1_r. rewrite (take_S_r _ _ (pos + length dn)) by (apply list_lookup_insert_eq; lia).
      rewrite take_insert_ge by lia. by rewrite Ht, <-app_assoc.
    + eexists. split; [done|]. cbn [fst snd]. rewrite filter_app, filter_cons_False, filter_nil, app_nil_r by congruence. done.
  - cbn [mbind option_bind fst snd] in *. unfold setToFilteredSize. rewrite Hc.
    pose proof (length_filter (λ i, b i = true) (seq 0 n)) as Hle. rewrite length_seq in Hle.
    rewrite decide_True by lia. eexists. split; [done|]. split_and!; [split; cbn; lia|done..|].
    unfold getSelectedPositions, selectedPositions. cbn [state selectedSize selectedPositionsBuffer]. by rewrite Ht, Hst.
Qed.

(** A vector whose rows are all selected. *)
Lemma select_all sv pos n : sel_ok sv → selectedSize sv + n ≤ capacity sv → (state sv = STATIC → selectedSize sv = pos) →
  ∃ sv', (if isUnfiltered sv then setSelSize sv (selectedSize sv + n) else write_selected sv pos n (λ _, Some true)) = Some sv' ∧
    sel_ok sv' ∧ capacity sv' = capacity sv ∧ getSelectedPositions sv' = getSelectedPositions sv ++ seq pos n ∧
    (state sv' = STATIC → selectedSize sv' = pos + n).
Proof.
  intros Hok Hn Hpos. rewrite isUnfiltered_static. destruct (state sv) eqn:E.
  - destruct (write_selected_spec sv pos n (λ _, Some true) (λ _, true)) as (sv' & E' & Hok' & Hc & Hst & Hp); [done..|].
    rewrite bool_decide_false by done. exists sv'. split_and!; [done..| |congruence]. rewrite Hp. f_equal.
    rewrite filter_all by (by apply Forall_true). rewrite fmap_add_seq. f_equal. lia.
  - rewrite bool_decide_true by done. unfold setSelSize. rewrite E, decide_True by lia. eexists. split; [done|].
    assert (sel_ok (mkSel (selectedSize sv + n) STATIC (selectedPositionsBuffer sv) (capacity sv))) as Hok'
      by (destruct Hok; split; cbn; lia).
    split_and!; [done..| |cbn; intros _; by rewrite Hpos].
    rewrite (static_positions _ Hok'), (static_positions sv) by done. cbn. rewrite seq_app. by rewrite Hpos.
Qed.

(** The rows of a scan a transaction sees, as positions of the output. *)
Definition visible_positions (vi : VersionInfo) (startTS tid : Z) (s n : nat) : list nat :=
  filter (λ p, row_visible startTS tid (row_ins vi (s + p), row_del vi (s + p)) = true) (seq 0 n).

Lemma visible_positions_app vi startTS tid s n m : visible_positions vi startTS tid s (n + m) =
  visible_positions vi startTS tid s n ++ (Nat.add n <$> visible_positions vi startTS tid (s + n) m).
Proof.
  unfold visible_positions. rewrite seq_app, filter_app. f_equal. rewrite (Nat.add_comm 0 n), <-fmap_add_seq, filter_fmap. f_equal.
  apply Prelude.filter_ext_in, Forall_forall. intros i _. by rewrite Nat.add_assoc.
Qed.

(** The state of a scan after [p] rows: the selected positions are the visible ones, and the selection
    vector is unfiltered only if all rows are. *)
Definition scanned (vi : VersionInfo) (startTS tid : Z) (s p : nat) (sv : SelectionVector) : Prop :=
  sel_ok sv ∧ capacity sv = CAP ∧ getSelectedPositions sv = visible_positions vi startTS tid s p ∧
  (state sv = STATIC → selectedSize sv = p).

Lemma scan_vector vi startTS tid s p sv k s' n' : rows_ok vi → snapshot_ok startTS tid → scanned vi startTS tid s p sv →
  k * CAP + s' = s + p → s' + n' ≤ CAP → p + n' ≤ CAP →
  (∀ v, getVectorVersionInfo vi k = Some v → insertionStatus v ≠ NO_INSERTED) →
  ∃ sv', match getVectorVersionInfo vi k with
    | None => if isUnfiltered sv then setSelSize sv (selectedSize sv + n') else write_selected sv p n' (λ _, Some true)
    | Some v => vec_getSelVectorForScan v startTS tid sv s' n' p
    end = Some sv' ∧ scanned vi startTS tid s (p + n') sv'.
Proof.
  intros Hok Hsn (Hsv & Hc & Hp & Hst) Hk Hs' Hn' Hni.
  assert (selectedSize sv ≤ p) as Hsize.
  { rewrite <-(length_positions sv Hsv), Hp. unfold visible_positions. etrans; [apply length_filter|]. by rewrite length_seq. }
  assert (∀ sv', sel_ok sv' → capacity sv' = capacity sv →
    getSelectedPositions sv' = getSelectedPositions sv ++ seq p n' → (state sv' = STATIC → selectedSize sv' = p + n') →
    (∀ i, i < n' → row_visible startTS tid (row_ins vi (s + p + i), row_del vi (s + p + i)) = true) →
    scanned vi startTS tid s (p + n') sv') as Hall.
  { intros sv' H1 H2 H3 H4 H5. split_and!; [done|congruence| |done]. rewrite H3, Hp, visible_positions_app. f_equal.
    unfold visible_positions. rewrite filter_all, fmap_add_seq by (apply Forall_seq; intros i Hi; apply H5; lia). f_equal. lia. }
  assert (∀ i, s + p + i = k * CAP + (s' + i)) as Hrow by lia.
  destruct (getVectorVersionInfo vi k) as [v|] eqn:Hg.
  - pose proof (Hok _ _ Hg) as Hv. unfold vec_getSelVectorForScan. destruct (decide _) as [[D1 D2]|_].
    + destruct (select_all sv p n') as (sv' & E & H1 & H2 & H3 & H4); [done|lia|done|]. exists sv'. split; [done|].
      apply Hall; [done..|]. intros i Hi. rewrite Hrow, (row_ins_at vi k (s' + i) v), (row_del_at vi k (s' + i) v) by (done || lia).
      unfold row_visible, ins_of, del_of. rewrite D1, D2. cbn. by rewrite seen_always, seen_invalid.
    + rewrite decide_False by (by apply Hni).
      assert (∃ sv1, (if isUnfiltered sv then makeDynamic sv else Some sv) = Some sv1 ∧ sel_ok sv1 ∧ state sv1 = DYNAMIC ∧
        capacity sv1 = capacity sv ∧ getSelectedPositions sv1 = getSelectedPositions sv) as (sv1 & -> & K1 & K2 & K3 & K4).
      { rewrite isUnfiltered_static. destruct (state sv) eqn:E; [by exists sv|].
        destruct (makeDynamic_Some sv Hsv) as (sv1 & E1 & ? & ? & ?). exists sv1. split_and!; [done..| |done].
        unfold makeDynamic in E1. destruct (decide _) in E1; by simplify_eq. }
      cbn [mbind option_bind]. pose proof (length_positions sv1 K1) as Hl1. rewrite K4, (length_positions sv Hsv) in Hl1.
      destruct (write_selected_spec sv1 p n' (λ i, inserted_not_deleted v startTS tid (s' + i))
        (λ i, row_visible startTS tid (ins_of v (s' + i), del_of v (s' + i)))) as (sv' & E & L1 & L2 & L3 & L4); [done..| |lia|].
      { intros i Hi. apply inserted_not_deleted_spec; [done..|lia]. }
      exists sv'. split; [done|]. split_and!; [done|congruence| |congruence]. rewrite L4, K4, Hp, visible_positions_app. do 2 f_equal.
      unfold visible_positions. apply Prelude.filter_ext_in, Forall_seq. intros i Hi. cbn beta.
      by rewrite Hrow, (row_ins_at vi k (s' + i) v), (row_del_at vi k (s' + i) v) by (done || lia).
  - destruct (select_all sv p n') as (sv' & E & H1 & H2 & H3 & H4); [done|lia|done|]. exists sv'. split; [done|].
    apply Hall; [done..|]. intros i Hi. rewrite Hrow. unfold row_ins, row_del, row_of. rewrite (proj1 (row_unsplit k (s' + i) ltac:(lia))), Hg.
    unfold row_visible. cbn. by rewrite seen_always, seen_invalid.
Qed.

(** The [j]-th range of a loop and the rows before it. *)
Lemma vector_ranges_nth s n dn k s' n' rest : vector_ranges s n = dn ++ (k, s', n') :: rest →
  k = s / CAP + length dn ∧ 0 < n' ∧ s' + n' ≤ CAP ∧
  k * CAP + s' = s + (n `min` ((s / CAP + length dn) * CAP - s)) ∧
  n `min` ((s / CAP + length dn) * CAP - s) + n' = n `min` ((s / CAP + (length dn + 1)) * CAP - s).
Proof.
  intros El. assert ((k, s', n') ∈ vector_ranges s n) as Hin by (rewrite El; set_solver).
  assert (k = s / CAP + length dn) as Hk.
  { assert (((fst ∘ fst) <$> vector_ranges s n) !! length dn = Some k) as Hlk by (rewrite El, fmap_app; by apply list_lookup_middle; rewrite length_fmap).
    unfold vector_ranges, getQuotientRemainder in Hlk. destruct (decide (n = 0)); [done|].
    rewrite <-list_fmap_compose in Hlk. rewrite (list_fmap_ext _ id), list_fmap_id in Hlk by done.
    by apply lookup_seq in Hlk as [-> _]. }
  destruct (vector_ranges_elem _ _ _ _ _ Hin) as (H1 & H2 & H3). destruct (range_bounds k s n s' n' H1 H2 H3) as (H4 & H5 & H6 & H7).
  rewrite <-Hk, Nat.add_assoc, <-Hk. replace ((k + 1) * CAP) with (k * CAP + CAP) by lia. split_and!; [done..|lia|lia].
Qed.

(** The last vector of a range of rows. *)
Lemma vector_ranges_total s n : n `min` ((s / CAP + length (vector_ranges s n)) * CAP - s) = n.
Proof.
  unfold vector_ranges, getQuotientRemainder. destruct (decide (n = 0)) as [->|Hn]; [done|]. rewrite length_fmap, length_seq.
  pose proof CAP_pos. assert (s / CAP ≤ (s + n - 1) / CAP) by (apply Nat.Div0.div_le_mono; lia).
  replace (s / CAP + ((s + n - 1) / CAP - s / CAP + 1)) with ((s + n - 1) / CAP + 1) by lia.
  destruct (row_split (s + n - 1)) as [He Hr]. rewrite Nat.mul_add_distr_r. lia.
Qed.

Lemma getSelVectorToScan_spec vi startTS tid sv s n : rows_ok vi → snapshot_ok startTS tid → sel_ok sv → capacity sv = CAP →
  0 < n ≤ CAP →
  (∀ k v, s < k * CAP + CAP → k * CAP < s + n → getVectorVersionInfo vi k = Some v → insertionStatus v ≠ NO_INSERTED) →
  ∃ sv', getSelVectorToScan vi startTS tid sv s n = Some sv' ∧ scanned vi startTS tid s n sv'.
Proof.
  intros Hok Hsn Hsv Hc Hn Hni. unfold getSelVectorToScan. rewrite decide_False by lia. unfold setToUnfilteredSize.
  rewrite decide_True by lia. cbn [mbind option_bind].
  match goal with |- context [ofold ?f ?b0 ?l] => destruct (ofold_total f
    (λ dn st, st.2 = n `min` ((s / CAP + length dn) * CAP - s) ∧ scanned vi startTS tid s st.2 st.1) l b0)
    as ([sv1 p] & -> & Hp & Hs1) end.
  - cbn [fst snd]. split; [rewrite Nat.add_0_r; pose proof (row_split s); lia|].
    assert (sel_ok (mkSel 0 STATIC (selectedPositionsBuffer sv) (capacity sv))) as Hok0 by (destruct Hsv; split; cbn; lia).
    split_and!; [done..| |done]. by rewrite static_positions.
  - intros dn [[k s'] n'] rest [sv1 p] El [Hp Hs1]. cbn [fst snd] in *. destruct (vector_ranges_nth _ _ _ _ _ _ _ El) as (Hk & H1 & H2 & H3 & H4).
    assert ((k, s', n') ∈ vector_ranges s n) as Hin by (rewrite El; set_solver).
    destruct (vector_ranges_elem _ _ _ _ _ Hin) as (_ & _ & Hr). destruct (range_bounds k s n s' n' H1 H2 Hr) as (_ & _ & H5 & H6).
    destruct (scan_vector vi startTS tid s p sv1 k s' n') as (sv2 & -> & Hs2); [done..|lia|done|lia|intros v; by apply Hni|].
    cbn [mbind option_bind]. eexists. split; [done|]. rewrite length_app. cbn [fst snd length]. split; [lia|done].
  - cbn [fst snd mbind option_bind] in *. rewrite vector_ranges_total in Hp. subst p. rewrite decide_True by lia. by exists sv1.
Qed.

(** [getNumDeletions] counts the deleted rows. *)
Definition deleted_rows (vi : VersionInfo) (startTS tid : Z) (s n : nat) : list nat :=
  filter (λ r, version_seen startTS tid (row_del vi r) = true) (seq s n).

Lemma vec_getNumDeletions_spec v startTS tid s n : vec_ok v → snapshot_ok startTS tid → s + n ≤ CAP →
  vec_getNumDeletions v startTS tid s n = Some (length (filter (λ i, version_seen startTS tid (del_of v i) = true) (seq s n))).
Proof.
  intros Hv Hs Hn. unfold vec_getNumDeletions. destruct (decide _) as [D|_].
  - unfold del_of. rewrite D, seen_invalid, filter_none by (done || by apply Forall_true). done.
  - match goal with |- ofold ?f ?b0 ?l = _ => destruct (ofold_total f
      (λ dn c, c = length (filter (λ i, version_seen startTS tid (del_of v i) = true) (seq s (length dn)))) l b0) as (c & -> & ->) end.
    + done.
    + intros dn i rest c El ->. assert (i = 0 + length dn ∧ length dn < n) as [-> Hlt] by (by eapply seq_middle).
      cbn [Nat.add]. rewrite vec_isDeleted_spec by (done || lia). cbn [mbind option_bind]. eexists. split; [done|].
      rewrite length_app. cbn [length]. rewrite Nat.add_1_r, seq_S, filter_app, length_app. f_equal.
      by destruct (version_seen startTS tid (del_of v (s + length dn))) eqn:E;
        [rewrite filter_cons_True by done|rewrite filter_cons_False by congruence].
    + by rewrite length_seq.
Qed.

Lemma deleted_rows_app vi startTS tid s n m : length (deleted_rows vi startTS tid s (n + m)) =
  length (deleted_rows vi startTS tid s n) + length (deleted_rows vi startTS tid (s + n) m).
Proof. unfold deleted_rows. by rewrite seq_app, filter_app, length_app. Qed.

(** The deleted rows of a vector. *)
Lemma deleted_rows_vector vi startTS tid k s n : snapshot_ok startTS tid → s + n ≤ CAP →
  length (deleted_rows vi startTS tid (k * CAP + s) n) = match getVectorVersionInfo vi k with
    | Some v => length (filter (λ i, version_seen startTS tid (del_of v i) = true) (seq s n))
    | None => 0
    end.
Proof.
  intros Hs Hn. unfold deleted_rows. rewrite <-fmap_add_seq, filter_fmap, length_fmap.
  destruct (getVectorVersionInfo vi k) as [v|] eqn:Hg.
  - f_equal. apply Prelude.filter_ext_in, Forall_seq. intros i Hi. by rewrite (row_del_at vi k i v) by (done || lia).
  - rewrite filter_none; [done|]. apply Forall_seq. intros i Hi. unfold row_del, row_of.
    rewrite (proj1 (row_unsplit k i ltac:(lia))), Hg. by rewrite seen_invalid.
Qed.

Lemma getNumDeletions_spec vi startTS tid s n : rows_ok vi → snapshot_ok startTS tid →
  getNumDeletions vi startTS tid s n = Some (length (deleted_rows vi startTS tid s n)).
Proof.
  intros Hok Hsn. unfold getNumDeletions.
  match goal with |- ofold ?f ?b0 ?l = _ => destruct (ofold_total f
    (λ dn c, c = length (deleted_rows vi startTS tid s (n `min` ((s / CAP + length dn) * CAP - s)))) l b0) as (c & -> & ->) end.
  - rewrite Nat.add_0_r. replace (n `min` _) with 0 by (pose proof (row_split s); lia). done.
  - intros dn [[k s'] n'] rest c El ->. destruct (vector_ranges_nth _ _ _ _ _ _ _ El) as (Hk & H1 & H2 & H3 & H4).
    rewrite length_app. cbn [length]. rewrite <-H4, deleted_rows_app, <-H3, deleted_rows_vector by done.
    destruct (getVectorVersionInfo vi k) as [v|] eqn:Hg.
    + rewrite vec_getNumDeletions_spec by (done || by eapply Hok). cbn [mbind option_bind]. by eexists.
    + eexists. split; [done|]. lia.
  - by rewrite vector_ranges_total.
Qed.

(** ** Storage *)

(** Versions of a checkpoint: no vector checks insertions, and deletions have committed. *)
Definition vec_storable (v : VectorVersionInfo) : Prop :=
  vec_ok v ∧ insertionStatus v ≠ INSERTED_CHECK_VERSION ∧ storable (deletedVersions v) = true ∧
  (0 ≤ sameDeletionVersion v < 2 ^ 64)%Z ∧ Forall (λ x, 0 ≤ x < 2 ^ 64)%Z (default [] (deletedVersions v)).

Definition vec_bytes (debug : bool) (v : VectorVersionInfo) : list Z :=
  info_bytes debug "insertion_status" ++ int_bytes 1 (insertion_code (insertionStatus v)) ++
  info_bytes debug "deletion_status" ++ int_bytes 1 (deletion_code (deletionStatus v)) ++
  match deletionStatus v with
  | NO_DELETED => []
  | DELETED_CHECK_VERSION =>
      info_bytes debug "same_deletion_version" ++ int_bytes 8 (sameDeletionVersion v) ++
      if decide (sameDeletionVersion v = INVALID_TRANSACTION)
      then info_bytes debug "deleted_versions" ++ (default [] (deletedVersions v) ≫= int_bytes 8) else []
  end.

Lemma vec_serialize_emits debug v : vec_storable v → emits (vec_serialize debug v) (vec_bytes debug v).
Proof.
  intros (Hv & Hi & Hst & _). unfold vec_serialize, vec_bytes.
  assert (storable (deletedVersions v) && negb (bool_decide (insertionStatus v = INSERTED_CHECK_VERSION)) = true) as ->
    by (by rewrite Hst, bool_decide_false).
  apply (emits_bind (λ w, writeDebuggingInfo debug w _)); [auto with cj|].
  apply (emits_bind (λ w, serializeValue 1 w _)); [auto with cj|].
  apply (emits_bind (λ w, writeDebuggingInfo debug w _)); [auto with cj|].
  apply (emits_bind (λ w, serializeValue 1 w _)); [auto with cj|].
  destruct (proj2 Hv) as [(A1 & A2 & A3)|[(A1 & A2 & A3)|[a (A1 & A2 & A3 & _)]]]; rewrite A3; [auto with cj|..].
  - apply (emits_bind (λ w, writeDebuggingInfo debug w _)); [auto with cj|].
    apply (emits_bind (λ w, serializeValue 8 w _)); [auto with cj|].
    destruct (decide (sameDeletionVersion v = INVALID_TRANSACTION)); [done|]. auto with cj.
  - apply (emits_bind (λ w, writeDebuggingInfo debug w _)); [auto with cj|].
    apply (emits_bind (λ w, serializeValue 8 w _)); [auto with cj|].
    destruct (decide (sameDeletionVersion v = INVALID_TRANSACTION)); [|done]. rewrite A2.
    apply (emits_bind (λ w, writeDebuggingInfo debug w _)); [auto with cj|]. apply emits_ofold. auto with cj.
Qed.

(** The array read back. *)
Lemma read_versions a r : Forall (λ x, 0 ≤ x < 2 ^ 64)%Z a →
  ofold (λ '(a, r) (_ : nat), '(x, r) ← deserializeValue 8 r; Some (a ++ [x], r)) ([], (a ≫= int_bytes 8) ++ r)
    (seq 0 (length a)) = Some (a, r).
Proof.
  intros Ha. match goal with |- ofold ?f ?b0 ?l = _ => destruct (ofold_total f
    (λ dn st, st.1 = take (length dn) a ∧ st.2 = (drop (length dn) a ≫= int_bytes 8) ++ r) l b0) as ([a' r'] & -> & H1 & H2) end.
  - by rewrite drop_0.
  - intros dn i rest [a' r'] El [H1 H2]. cbn in H1, H2. subst a' r'. assert (i = 0 + length dn ∧ length dn < length a) as [_ Hlt] by (by eapply seq_middle).
    destruct (lookup_lt_is_Some_2 a (length dn) Hlt) as [x Hx]. rewrite (drop_S a x) by done. rewrite bind_cons, <-app_assoc.
    rewrite deserializeValue_spec by (apply (Forall_lookup_1 _ _ _ _ Ha Hx)). cbn [mbind option_bind]. eexists. split; [done|].
    rewrite length_app. cbn [fst snd length]. rewrite Nat.add_1_r. by rewrite (take_S_r a _ x).
  - cbn in H1, H2. rewrite length_seq in H1, H2. rewrite H1, H2. by rewrite firstn_all, drop_all.
Qed.

Lemma vec_deSerialize_spec debug v r : vec_storable v → vec_deSerialize debug (vec_bytes debug v ++ r) = Some (v, r).
Proof.
  intros (Hv & Hi & Hst & Hsame & Ha). unfold vec_deSerialize, vec_bytes. rewrite <-!app_assoc.
  rewrite validateDebuggingInfo_spec by done. cbn [mbind option_bind].
  rewrite deserializeValue_spec by (by destruct (insertionStatus v)). cbn [mbind option_bind].
  assert (∃ A B C D, v = mkVersions None A INVALID_TRANSACTION B C D ∧ C ≠ INSERTED_CHECK_VERSION) as (A & B & C & D & -> & HC).
  { destruct (proj1 Hv) as [(A1 & A2 & A3)|[(A1 & A2 & A3)|[b (A1 & A2 & A3 & _)]]]; [|done..].
    destruct v; cbn in *. subst. by eexists _, _, _, _. }
  cbn [insertionStatus deletionStatus sameDeletionVersion deletedVersions] in *.
  replace (if decide (insertion_code C = insertion_code NO_INSERTED) then _ else _) with (Some C) by (by destruct C).
  cbn [mbind option_bind]. rewrite validateDebuggingInfo_spec by done. cbn [mbind option_bind].
  rewrite deserializeValue_spec by (by destruct D). cbn [mbind option_bind].
  destruct (proj2 Hv) as [(B1 & B2 & B3)|[(B1 & B2 & B3)|[b (B1 & B2 & B3 & B4 & _)]]];
    cbn [deletionStatus sameDeletionVersion deletedVersions] in *; subst.
  - done.
  - rewrite decide_False, decide_True by done. rewrite <-!app_assoc, validateDebuggingInfo_spec by done. cbn [mbind option_bind].
    rewrite deserializeValue_spec by (exact Hsame). cbn [mbind option_bind]. by rewrite !decide_False by done.
  - rewrite decide_False, decide_True by done. rewrite <-!app_assoc, validateDebuggingInfo_spec by done. cbn [mbind option_bind].
    rewrite deserializeValue_spec by (exact Hsame). cbn [mbind option_bind]. rewrite !decide_True, <-!app_assoc by done.
    rewrite validateDebuggingInfo_spec by done. cbn [mbind option_bind default] in *. unfold id. rewrite <-B4, read_versions by done.
    cbn [mbind option_bind]. by rewrite Hst.
Qed.

Definition vector_bytes (debug : bool) (o : option VectorVersionInfo) : list Z :=
  info_bytes debug "has_vector_info" ++ int_bytes 1 (match o with Some _ => 1 | None => 0 end) ++
  match o with Some v => info_bytes debug "vector_info" ++ vec_bytes debug v | None => [] end.

Definition chunk_storable (vi : VersionInfo) : Prop :=
  Forall (λ o, match o with Some v => vec_storable v | None => True end) vi ∧ (Z.of_nat (length vi) < 2 ^ 64)%Z.

Lemma serialize_emits debug vi : chunk_storable vi → emits (serialize debug vi)
  (info_bytes debug "vectors_info_size" ++ int_bytes 8 (Z.of_nat (length vi)) ++ (vi ≫= vector_bytes debug)).
Proof.
  intros [Hvi _]. unfold serialize.
  apply (emits_bind (λ w, writeDebuggingInfo debug w _)); [auto with cj|].
  apply (emits_bind (λ w, serializeValue 8 w _)); [auto with cj|].
  apply emits_ofold. intros o Ho. rewrite Forall_forall in Hvi. specialize (Hvi o Ho). unfold vector_bytes.
  apply (emits_bind (λ w, writeDebuggingInfo debug w _)); [auto with cj|].
  apply (emits_bind (λ w, serializeValue 1 w _)); [auto with cj|]. destruct o as [v|]; [|auto with cj].
  apply (emits_bind (λ w, writeDebuggingInfo debug w _)); [auto with cj|]. by apply vec_serialize_emits.
Qed.

Lemma deserialize_spec debug vi r : chunk_storable vi → deserialize debug
  ((info_bytes debug "vectors_info_size" ++ int_bytes 8 (Z.of_nat (length vi)) ++ (vi ≫= vector_bytes debug)) ++ r) = Some (vi, r).
Proof.
  intros [Hvi Hlen]. unfold deserialize. rewrite <-!app_assoc, validateDebuggingInfo_spec by done. cbn [mbind option_bind].
  rewrite deserializeValue_spec by (split; [lia|exact Hlen]). cbn [mbind option_bind]. rewrite Nat2Z.id.
  match goal with |- ofold ?f ?b0 ?l = _ => destruct (ofold_total f
    (λ dn st, st.1 = take (length dn) vi ∧ st.2 = (drop (length dn) vi ≫= vector_bytes debug) ++ r) l b0) as ([vi' r'] & -> & H1 & H2) end.
  - by rewrite drop_0.
  - intros dn i rest [vi' r'] El [H1 H2]. cbn in H1, H2. subst vi' r'.
    assert (i = 0 + length dn ∧ length dn < length vi) as [_ Hlt] by (by eapply seq_middle).
    destruct (lookup_lt_is_Some_2 vi (length dn) Hlt) as [o Ho]. pose proof (Forall_lookup_1 _ _ _ _ Hvi Ho) as Hs.
    rewrite (drop_S vi o) by done. rewrite bind_cons. unfold vector_bytes at 1. rewrite <-!app_assoc, validateDebuggingInfo_spec by done.
    cbn [mbind option_bind]. rewrite deserializeValue_spec by (by destruct o). cbn [mbind option_bind].
    rewrite length_app. cbn [length]. rewrite Nat.add_1_r. destruct o as [v|].
    + rewrite decide_False by done. rewrite <-!app_assoc, validateDebuggingInfo_spec by done. cbn [mbind option_bind].
      rewrite vec_deSerialize_spec by done. cbn [mbind option_bind]. eexists. split; [done|]. by rewrite (take_S_r vi _ (Some v)).
    + rewrite decide_True by done. eexists. split; [done|]. by rewrite (take_S_r vi _ None).
  - cbn in H1, H2. rewrite length_seq in H1, H2. rewrite H1, H2. by rewrite firstn_all, drop_all.
Qed.

(** ** What the version information guarantees *)

(** C30. A scan selects exactly the rows its transaction sees. For at most a vector of rows whose vectors all
    hold inserted rows, [getSelVectorToScan] succeeds, and its positions are those of the rows for which
    [isSelected] holds: inserted by the transaction or before its snapshot, and not so deleted. *)
Theorem scan_selects_visible vi startTS tid sv s n (Hok : rows_ok vi) (Hsn : snapshot_ok startTS tid) (Hsv : sel_ok sv)
    (Hcap : capacity sv = DEFAULT_VECTOR_CAPACITY) (Hn : 0 < n ≤ DEFAULT_VECTOR_CAPACITY)
    (Hins : ∀ k v, s < k * DEFAULT_VECTOR_CAPACITY + DEFAULT_VECTOR_CAPACITY → k * DEFAULT_VECTOR_CAPACITY < s + n →
      getVectorVersionInfo vi k = Some v → insertionStatus v ≠ NO_INSERTED) :
  ∃ sv', getSelVectorToScan vi startTS tid sv s n = Some sv' ∧ sel_ok sv' ∧
    getSelectedPositions sv' = filter (λ p, isSelected vi startTS tid (s + p) = Some true) (seq 0 n) ∧
    ∀ r, isSelected vi startTS tid r = Some (version_seen startTS tid (row_ins vi r) && negb (version_seen startTS tid (row_del vi r))).
Proof.
  destruct (getSelVectorToScan_spec vi startTS tid sv s n) as (sv' & E & Hok' & _ & Hp & _); [done..|].
  exists sv'. split_and!; [done..| |intros r; by apply isSelected_row]. rewrite Hp. apply Prelude.filter_ext_in, Forall_true.
  intros p. rewrite isSelected_row by done. split; [by intros ->|by intros [= ->]].
Qed.

(** C31. Deletions conflict per row. [delete_] of an inserted row returns true and stamps the row with the
    transaction when the row was not deleted, returns false when the transaction had deleted it before, and
    throws when another transaction has; in each case all other versions of the chunk stay as they were. *)
Theorem delete_conflicts_exact vi tid r (Hok : rows_ok vi) (Ht : tid ≠ INVALID_TRANSACTION)
    (Hr : row_ins vi r ≠ INVALID_TRANSACTION) :
  ∃ vi', delete_ vi tid r = Some (vi', delete_result (row_del vi r) tid) ∧ rows_ok vi' ∧
    (∀ j, row_ins vi' j = row_ins vi j) ∧ (∀ j, j ≠ r → row_del vi' j = row_del vi j) ∧
    row_del vi' r = (if decide (row_del vi r = INVALID_TRANSACTION) then tid else row_del vi r).
Proof.
  destruct (delete_rows vi tid r Hok Ht Hr) as (vi' & E & Hok' & Hi & Hd & _). exists vi'. split_and!; [done..| |].
  - intros j Hj. rewrite Hd, decide_False; [done|]. by intros [? _].
  - rewrite Hd. apply decide_ext. naive_solver.
Qed.

(** Version information survives a checkpoint: after any earlier contents of the writer, what
    [serialize] writes [deserialize] reads back unchanged. *)
Theorem version_info_roundtrip debug vi w (Hvi : chunk_storable vi) (Hw : writer_ok w) :
  ∃ w', serialize debug vi w = Some w' ∧ deserialize debug (drop (length (flush w)) (flush w')) = Some (vi, []).
Proof.
  destruct (serialize_emits debug vi Hvi w Hw) as (w' & E & _ & Hf). exists w'. split; [done|].
  pose proof (deserialize_spec debug vi [] Hvi) as Hd. rewrite app_nil_r in Hd. by rewrite Hf, drop_app_length.
Qed.

(** A vector of rows that committed at time 3 of which the row 2 was deleted at time 4, and one as a
    checkpoint stores it. *)
Definition sample_vector (status : InsertionStatus) (inserted : Z) : VectorVersionInfo :=
  mkVersions None (Some (<[2 := 4%Z]> initVersionArray)) inserted INVALID_TRANSACTION status DELETED_CHECK_VERSION.

Lemma sample_deletions v : deletedVersions v = Some (<[2 := 4%Z]> initVersionArray) → sameDeletionVersion v = INVALID_TRANSACTION →
  deletionStatus v = DELETED_CHECK_VERSION → del_array v (<[2 := 4%Z]> initVersionArray).
Proof.
  intros H1 H2 H3. split_and!; [done..|by_eval|]. apply Exists_exists. exists 4%Z. split; [|done].
  apply list_elem_of_lookup_2 with 2. by_eval.
Qed.

Lemma sample_vector_ok : rows_ok [Some (sample_vector INSERTED_CHECK_VERSION 3)].
Proof.
  intros [|[|k]] v; cbn; intros [= <-]. split; [right; left; by split_and!|right; right; eexists; by apply sample_deletions].
Qed.

Lemma sample_stored : chunk_storable [Some (sample_vector ALWAYS_INSERTED INVALID_TRANSACTION); None].
Proof.
  split; [|done]. apply Forall_cons. split; [|by apply Forall_singleton]. split; [split|split; [done|]].
  - left; by split_and!.
  - right; right; eexists; by apply sample_deletions.
  - by_eval.
Qed.

Lemma scan_selects_visible_witness :
  ∃ sv', getSelVectorToScan [Some (sample_vector INSERTED_CHECK_VERSION 3)] 5 (START_TRANSACTION_ID + 1)
    (createSelectionVector DEFAULT_VECTOR_CAPACITY) 0 5 = Some sv' ∧ getSelectedPositions sv' = [0; 1; 3; 4].
Proof.
  destruct (scan_selects_visible [Some (sample_vector INSERTED_CHECK_VERSION 3)] 5 (START_TRANSACTION_ID + 1)
    (createSelectionVector DEFAULT_VECTOR_CAPACITY) 0 5) as (sv' & E & _ & Hp & _).
  - exact sample_vector_ok.
  - by_eval.
  - split; by_eval.
  - done.
  - by_eval.
  - intros [|[|k]] v _ _; cbn; intros [= <-]. done.
  - exists sv'. split; [exact E|]. etrans; [exact Hp|]. by_eval.
Defined.

Lemma delete_conflicts_exact_witness :
  ∃ vi', delete_ [Some (sample_vector INSERTED_CHECK_VERSION 3)] (START_TRANSACTION_ID + 1) 2 = Some (vi', Throw RuntimeException).
Proof.
  destruct (delete_conflicts_exact [Some (sample_vector INSERTED_CHECK_VERSION 3)] (START_TRANSACTION_ID + 1) 2 sample_vector_ok)
    as (vi' & E & _); [by_eval|by_eval|]. exists vi'. etrans; [exact E|]. do 2 f_equal.
Defined.

(** [hasDeletions(transaction)] reads the array of deletions of a vector that has only insertions. *)
Theorem hasDeletions_reads_missing_array startTS tid :
  ∃ vi, append [] 9 0 1 = Some vi ∧ hasDeletions vi = false ∧ hasDeletionsFor vi startTS tid = None.
Proof. eexists. split; [vm_compute; reflexivity|]. by split. Qed.

(** Rows after a vector without insertions are selected at the wrong positions: of the four rows from row
    2046 on, [isSelected] holds for the last two and the scan selects the first two. *)
Theorem scan_after_empty_vector :
  ∃ vi0 vi sv', append [] 9 0 5 = Some vi0 ∧ rollbackInsert vi0 0 5 = Some vi ∧
    getSelVectorToScan vi 5 11 (createSelectionVector DEFAULT_VECTOR_CAPACITY) 2046 4 = Some sv' ∧
    getSelectedPositions sv' = [0; 1] ∧ (isSelected vi 5 11 <$> [2046; 2047; 2048; 2049]) = [Some false; Some false; Some true; Some true].
Proof. eexists _, _, _. split; [vm_compute; reflexivity|]. split; [vm_compute; reflexivity|]. split; [vm_compute; reflexivity|]. by_eval. Qed.
