(* ===== verification/NodeGroup.v ===== *)
(** The rows of a node table and their versions: [ChunkedNodeGroup], [NodeGroup], [NodeGroupCollection] and
    [NodeTable] under [src/src/storage/table], with the undo records of [src/src/storage/undo_buffer.cpp].

    Of a chunked group the model keeps its rows' number, position, residency and version information; the
    columns' data is not modelled. A table is seen as the list of the versions of its rows, and the operations
    are proved to be operations of that list. *)

From S2P Require Import Prelude NullMask MultiwayIntersect SelVector Serialize VersionInfo.
From stdpp Require Import list_numbers.

(** ** Transactions as the storage sees them *)

Inductive TransactionType := READ_ONLY | WRITE | CHECKPOINT | DUMMY | RECOVERY.

#[export] Instance TransactionType_eq_dec : EqDecision TransactionType.
Proof. solve_decision. Defined.

Record Transaction := mkTransaction { type : TransactionType; ID : Z; startTS : Z }.

Definition shouldAppendToUndoBuffer (t : Transaction) : bool :=
  bool_decide (type t = WRITE) || bool_decide (type t = RECOVERY).

(** ** The undo buffer

    A record of the model is the record of the code with its type; a memory buffer holds records of
    [sizeof(UndoRecordHeader) + sizeof(VersionRecord)] bytes. *)

Inductive UndoRecordType := INSERT_INFO | DELETE_INFO.

Record VersionRecord := mkRecord {
  recordType : UndoRecordType; rec_startRow : nat; rec_numRows : nat; rec_nodeGroupIdx : nat
}.

Record UndoMemoryBuffer := mkMemoryBuffer { buf_capacity : nat; currentPosition : nat; records : list VersionRecord }.

Definition UndoBuffer := list UndoMemoryBuffer.

(** [sizeof(UndoRecordHeader) + sizeof(VersionRecord)]. *)
Definition VERSION_RECORD_SIZE : nat := 8 + 32.

Definition canFit (b : UndoMemoryBuffer) (size : nat) : bool := bool_decide (currentPosition b + size ≤ buf_capacity b).

(** [createUndoRecord] and the write of the record to the space it returns. A version record fits into a
    buffer of the initial capacity, so that the capacity is never doubled. *)
Definition createVersionInfo (u : UndoBuffer) (r : VersionRecord) : UndoBuffer :=
  let u := match last u with
    | Some b => if canFit b VERSION_RECORD_SIZE then u else u ++ [mkMemoryBuffer KUZU_PAGE_SIZE 0 []]
    | None => [mkMemoryBuffer KUZU_PAGE_SIZE 0 []]
    end in
  match reverse u with
  | b :: u' => reverse (mkMemoryBuffer (buf_capacity b) (currentPosition b + VERSION_RECORD_SIZE) (records b ++ [r]) :: u')
  | [] => u
  end.

(** The order in which [iterate] and [reverseIterate] call back. *)
Definition iterate (u : UndoBuffer) : list VersionRecord := u ≫= records.
Definition reverseIterate (u : UndoBuffer) : list VersionRecord := reverse u ≫= (λ b, reverse (records b)).

(** ** Chunked groups *)

Inductive ResidencyState := IN_MEMORY | ON_DISK.

#[export] Instance ResidencyState_eq_dec : EqDecision ResidencyState.
Proof. solve_decision. Defined.

Record ChunkedNodeGroup := mkChunked {
  residencyState : ResidencyState;
  startRowIdx : nat;
  cg_capacity : nat;
  cg_numRows : nat;
  versionInfo : option VersionInfo
}.

Definition cg_with (c : ChunkedNodeGroup) (numRows : nat) (vi : option VersionInfo) : ChunkedNodeGroup :=
  mkChunked (residencyState c) (startRowIdx c) (cg_capacity c) numRows vi.

Definition isFullOrOnDisk (c : ChunkedNodeGroup) : bool :=
  bool_decide (cg_numRows c = cg_capacity c) || bool_decide (residencyState c = ON_DISK).

Definition cg_append (c : ChunkedNodeGroup) (t : Transaction) (numRowsToAppend : nat) : option (ChunkedNodeGroup * nat) :=
  if decide (residencyState c = ON_DISK) then None else
  let n := numRowsToAppend `min` (cg_capacity c - cg_numRows c) in
  vi ← (if shouldAppendToUndoBuffer t
    then Some <$> append (default [] (versionInfo c)) (ID t) (cg_numRows c) n else Some (versionInfo c));
  Some (cg_with c (cg_numRows c + n) vi, n).

Definition cg_delete_ (c : ChunkedNodeGroup) (t : Transaction) (rowIdxInChunk : nat) : option (ChunkedNodeGroup * Res bool) :=
  '(vi, r) ← delete_ (default [] (versionInfo c)) (ID t) rowIdxInChunk;
  Some (cg_with c (cg_numRows c) (Some vi), r).

Definition cg_isDeleted (c : ChunkedNodeGroup) (t : Transaction) (rowInChunk : nat) : option bool :=
  match versionInfo c with None => Some false | Some vi => isDeleted vi (startTS t) (ID t) rowInChunk end.

Definition cg_isInserted (c : ChunkedNodeGroup) (t : Transaction) (rowInChunk : nat) : option bool :=
  match versionInfo c with
  | None => Some (bool_decide (rowInChunk < cg_numRows c))
  | Some vi => isInserted vi (startTS t) (ID t) rowInChunk
  end.

(** The part of [scan] that selects rows; [skip] is the answer of the zone maps. *)
Definition cg_scan (c : ChunkedNodeGroup) (t : Transaction) (skip : bool) (sv : SelectionVector)
    (rowIdxInGroup numRowsToScan : nat) : option SelectionVector :=
  if decide (rowIdxInGroup + numRowsToScan ≤ cg_numRows c) then
    if skip then setToFilteredSize sv 0 else
    match versionInfo c with
    | Some vi => getSelVectorToScan vi (startTS t) (ID t) sv rowIdxInGroup numRowsToScan
    | None => setToUnfilteredSize sv numRowsToScan
    end
  else None.

(** The operations a version record applies to chunked groups. *)
Definition version_op := ChunkedNodeGroup → nat → nat → Z → option ChunkedNodeGroup.

Definition cg_commitInsert : version_op := λ c startRow numRows commitTS,
  vi ← versionInfo c; vi ← commitInsert vi startRow numRows commitTS; Some (cg_with c (cg_numRows c) (Some vi)).

Definition cg_rollbackInsert : version_op := λ c startRow numRows _,
  if decide (startRow = 0) then Some (cg_with c 0 None) else
  if decide (cg_numRows c ≤ startRow) then Some c else
  vi ← versionInfo c; vi ← rollbackInsert vi startRow numRows; Some (cg_with c startRow (Some vi)).

Definition cg_commitDelete : version_op := λ c startRow numRows commitTS,
  vi ← versionInfo c; vi ← commitDelete vi startRow numRows commitTS; Some (cg_with c (cg_numRows c) (Some vi)).

Definition cg_rollbackDelete : version_op := λ c startRow numRows _,
  vi ← versionInfo c; vi ← rollbackDelete vi startRow numRows; Some (cg_with c (cg_numRows c) (Some vi)).

(** ** Groups of a [GroupCollection] *)

Definition getNumEmptyTrailingGroups {T} (numRows : T → nat) (groups : list T) : nat :=
  match list_find (λ g, numRows g ≠ 0) (reverse groups) with Some (i, _) => i | None => length groups end.

Definition removeTrailingGroups {T} (numGroupsToRemove : nat) (groups : list T) : list T :=
  take (length groups - numGroupsToRemove) groups.

(** ** Node groups *)

Definition CHUNKED_NODE_GROUP_CAPACITY : nat := Z.to_nat 2048.
Definition NODE_GROUP_SIZE : nat := Z.to_nat 131072.

Record NodeGroup := mkNodeGroup {
  nodeGroupIdx : nat;
  chunkedGroups : list ChunkedNodeGroup;
  numRows : nat;
  nextRowToAppend : nat;
  ng_capacity : nat
}.

Definition ng_with (g : NodeGroup) (chunks : list ChunkedNodeGroup) (rows : nat) : NodeGroup :=
  mkNodeGroup (nodeGroupIdx g) chunks rows (nextRowToAppend g) (ng_capacity g).

(** A new group, as the node group collection makes it. *)
Definition newNodeGroup (idx : nat) : NodeGroup := mkNodeGroup idx [] 0 0 NODE_GROUP_SIZE.

Definition moveNextRowToAppend (g : NodeGroup) (n : nat) : NodeGroup :=
  mkNodeGroup (nodeGroupIdx g) (chunkedGroups g) (numRows g) (nextRowToAppend g + n) (ng_capacity g).
Definition getNumRowsLeftToAppend (g : NodeGroup) : nat := ng_capacity g - nextRowToAppend g.
Definition isFull (g : NodeGroup) : bool := bool_decide (numRows g = ng_capacity g).

Definition newChunkedGroup (startRow : nat) : ChunkedNodeGroup :=
  mkChunked IN_MEMORY startRow CHUNKED_NODE_GROUP_CAPACITY 0 None.

(** The loop of [append]; [fuel] bounds its iterations. *)
Fixpoint ng_append_loop (fuel : nat) (t : Transaction) (numRowsBeforeAppend numRowsToAppend numRowsAppended : nat)
    (chunks : list ChunkedNodeGroup) : option (list ChunkedNodeGroup) :=
  if decide (numRowsAppended < numRowsToAppend) then
    match fuel with
    | 0 => None
    | S fuel =>
        let chunks := match last chunks with
          | Some c => if isFullOrOnDisk c then chunks ++ [newChunkedGroup (numRowsBeforeAppend + numRowsAppended)] else chunks
          | None => chunks ++ [newChunkedGroup (numRowsBeforeAppend + numRowsAppended)]
          end in
        c ← last chunks;
        if decide (cg_numRows c ≤ CHUNKED_NODE_GROUP_CAPACITY) then
          let n := (numRowsToAppend - numRowsAppended) `min` (CHUNKED_NODE_GROUP_CAPACITY - cg_numRows c) in
          '(c, _) ← cg_append c t n;
          ng_append_loop fuel t numRowsBeforeAppend numRowsToAppend (numRowsAppended + n)
            (<[length chunks - 1 := c]> chunks)
        else None
    end
  else Some chunks.

Definition ng_append (g : NodeGroup) (t : Transaction) (numRowsToAppend : nat) : option NodeGroup :=
  let chunks := match chunkedGroups g with [] => [newChunkedGroup 0] | _ => chunkedGroups g end in
  chunks ← ng_append_loop numRowsToAppend t (numRows g) numRowsToAppend 0 chunks;
  Some (ng_with g chunks (numRows g + numRowsToAppend)).

(** [None] is [INVALID_CHUNKED_GROUP_IDX]. *)
Definition findChunkedGroupIdxFromRowIdxNoLock (g : NodeGroup) (rowIdx : nat) : option (nat * nat) :=
  match chunkedGroups g with
  | [] => None
  | c :: _ =>
      if decide (rowIdx < startRowIdx c) then None else
      let rowIdx := rowIdx - startRowIdx c in
      if decide (rowIdx < cg_numRows c) then Some (0, rowIdx) else
      let rowIdx := rowIdx - cg_numRows c in
      let chunkedGroupIdx := rowIdx / CHUNKED_NODE_GROUP_CAPACITY + 1 in
      if decide (length (chunkedGroups g) ≤ chunkedGroupIdx) then None
      else Some (chunkedGroupIdx, rowIdx mod CHUNKED_NODE_GROUP_CAPACITY)
  end.

(** [findChunkedGroupFromRowIdx], with the index of the group. *)
Definition findChunkedGroupFromRowIdx (g : NodeGroup) (rowIdx : nat) : option (nat * ChunkedNodeGroup) :=
  '(i, _) ← findChunkedGroupIdxFromRowIdxNoLock g rowIdx; c ← chunkedGroups g !! i; Some (i, c).

Definition ng_delete_ (g : NodeGroup) (t : Transaction) (rowIdxInGroup : nat) : option (NodeGroup * Res bool) :=
  '(i, c) ← findChunkedGroupFromRowIdx g rowIdxInGroup;
  '(c, r) ← cg_delete_ c t (rowIdxInGroup - startRowIdx c);
  Some (ng_with g (<[i := c]> (chunkedGroups g)) (numRows g), r).

Definition ng_isDeleted (g : NodeGroup) (t : Transaction) (offsetInGroup : nat) : option bool :=
  '(_, c) ← findChunkedGroupFromRowIdx g offsetInGroup; cg_isDeleted c t (offsetInGroup - startRowIdx c).

(** [isVisible]: the insertion is only asked for rows that are not deleted. *)
Definition ng_isVisible (g : NodeGroup) (t : Transaction) (rowIdxInGroup : nat) : option bool :=
  match findChunkedGroupFromRowIdx g rowIdxInGroup with
  | None => Some false
  | Some (_, c) =>
      d ← cg_isDeleted c t (rowIdxInGroup - startRowIdx c);
      if d : bool then Some false else cg_isInserted c t (rowIdxInGroup - startRowIdx c)
  end.

(** [hasDeletions]. *)
Fixpoint chunks_hasDeletions (chunks : list ChunkedNodeGroup) (t : Transaction) : option bool :=
  match chunks with
  | [] => Some false
  | c :: chunks =>
      b ← match versionInfo c with None => Some false | Some vi => hasDeletionsFor vi (startTS t) (ID t) end;
      if b : bool then Some true else chunks_hasDeletions chunks t
  end.

(** The loop of [applyFuncToChunkedGroups] over the groups from the first one on. *)
Fixpoint apply_groups (func : version_op) (chunks : list ChunkedNodeGroup) (startRow numRowsLeft : nat) (commitTS : Z) :
    option (list ChunkedNodeGroup) :=
  match chunks with
  | [] => Some []
  | c :: chunks' =>
      if decide (numRowsLeft = 0) then Some chunks else
      let n := numRowsLeft `min` (cg_numRows c - startRow) in
      c ← func c startRow n commitTS;
      chunks' ← apply_groups func chunks' 0 (numRowsLeft - n) commitTS;
      Some (c :: chunks')
  end.

Definition ng_applyFuncToChunkedGroups (func : version_op) (g : NodeGroup) (startRow rows : nat) (commitTS : Z) :
    option NodeGroup :=
  if decide (startRow ≤ numRows g) then
    match findChunkedGroupIdxFromRowIdxNoLock g startRow with
    | None => Some g
    | Some (i, startRowInChunkedGroup) =>
        chunks ← apply_groups func (drop i (chunkedGroups g)) startRowInChunkedGroup rows commitTS;
        Some (ng_with g (take i (chunkedGroups g) ++ chunks) (numRows g))
    end
  else None.

Definition ng_rollbackInsert (g : NodeGroup) (startRow : nat) : NodeGroup :=
  ng_with g (removeTrailingGroups (getNumEmptyTrailingGroups cg_numRows (chunkedGroups g)) (chunkedGroups g)) startRow.

(** ** Node group collections *)

Record NodeGroupCollection := mkCollection { nodeGroups : list NodeGroup; numTotalRows : nat; residency : ResidencyState }.

Definition ngc_with (n : NodeGroupCollection) (groups : list NodeGroup) (total : nat) : NodeGroupCollection :=
  mkCollection groups total (residency n).

(** [pushInsertInfo] without a change of the number of rows. *)
Definition pushInsertInfo (n : NodeGroupCollection) (t : Transaction) (g : NodeGroup) (rows : nat) (u : UndoBuffer) : UndoBuffer :=
  if bool_decide (residency n = ON_DISK) && shouldAppendToUndoBuffer t
  then createVersionInfo u (mkRecord INSERT_INFO (numRows g) rows (nodeGroupIdx g)) else u.

(** The loop that appends rows to the last node group, and to new ones when it is full. *)
Fixpoint ngc_append_loop (fuel : nat) (t : Transaction) (numRowsToAppend numRowsAppended : nat)
    (n : NodeGroupCollection) (u : UndoBuffer) : option (NodeGroupCollection * UndoBuffer) :=
  if decide (numRowsAppended < numRowsToAppend) then
    match fuel with
    | 0 => None
    | S fuel =>
        let groups := match last (nodeGroups n) with
          | Some g => if isFull g then nodeGroups n ++ [newNodeGroup (length (nodeGroups n))] else nodeGroups n
          | None => nodeGroups n ++ [newNodeGroup (length (nodeGroups n))]
          end in
        g ← last groups;
        let rows := (numRowsToAppend - numRowsAppended) `min` getNumRowsLeftToAppend g in
        let u := pushInsertInfo n t g rows u in
        g ← ng_append (moveNextRowToAppend g rows) t rows;
        ngc_append_loop fuel t numRowsToAppend (numRowsAppended + rows)
          (ngc_with n (<[length groups - 1 := g]> groups) (numTotalRows n + rows)) u
    end
  else Some (n, u).

(** [append] of vectors of [rows] rows, and of the chunked groups of another collection. *)
Definition ngc_append (fuel : nat) (n : NodeGroupCollection) (t : Transaction) (rows : nat) (u : UndoBuffer) :
    option (NodeGroupCollection * UndoBuffer) :=
  let n := match nodeGroups n with [] => ngc_with n [newNodeGroup 0] (numTotalRows n) | _ => n end in
  ngc_append_loop fuel t rows 0 n u.

Definition ngc_appendCollection (fuel : nat) (n : NodeGroupCollection) (t : Transaction) (other : NodeGroupCollection)
    (u : UndoBuffer) : option (NodeGroupCollection * UndoBuffer) :=
  ofold (λ '(n, u) g,
    let n := match nodeGroups n with [] => ngc_with n [newNodeGroup 0] (numTotalRows n) | _ => n end in
    ofold (λ '(n, u) c, ngc_append_loop fuel t (cg_numRows c) 0 n u) (n, u) (chunkedGroups g)) (n, u) (nodeGroups other).

Definition ngc_rollbackInsert (n : NodeGroupCollection) (rows : nat) : option NodeGroupCollection :=
  let groups := removeTrailingGroups (getNumEmptyTrailingGroups numRows (nodeGroups n)) (nodeGroups n) in
  if decide (rows ≤ numTotalRows n) then Some (ngc_with n groups (numTotalRows n - rows)) else None.

Definition getNodeGroup (n : NodeGroupCollection) (groupIdx : nat) : option NodeGroup :=
  g ← nodeGroups n !! groupIdx; if decide (nodeGroupIdx g = groupIdx) then Some g else None.

(** ** Node tables *)

(** [getNodeGroupIdxAndOffsetInChunk]: the shift by [NODE_GROUP_SIZE_LOG2] is the division. *)
Definition getNodeGroupIdxAndOffsetInChunk (nodeOffset : nat) : nat * nat :=
  let idx := nodeOffset / NODE_GROUP_SIZE in (idx, nodeOffset - idx * NODE_GROUP_SIZE).

(** [NodeTable::delete_] of a node that is not in the local table: the part on node groups and undo buffer. *)
Definition nt_delete_ (n : NodeGroupCollection) (t : Transaction) (nodeOffset : nat) (u : UndoBuffer) :
    option (NodeGroupCollection * UndoBuffer * Res bool) :=
  let '(idx, row) := getNodeGroupIdxAndOffsetInChunk nodeOffset in
  g ← getNodeGroup n idx;
  '(g, r) ← ng_delete_ g t row;
  let n := ngc_with n (<[idx := g]> (nodeGroups n)) (numTotalRows n) in
  match r with
  | Ret b => Some (n, if shouldAppendToUndoBuffer t then createVersionInfo u (mkRecord DELETE_INFO row 1 idx) else u, Ret b)
  | Throw e => Some (n, u, Throw e)
  end.

Definition nt_isVisible (n : NodeGroupCollection) (t : Transaction) (offset : nat) : option bool :=
  let '(idx, row) := getNodeGroupIdxAndOffsetInChunk offset in
  g ← getNodeGroup n idx; ng_isVisible g t row.

(** The rows of a local node group that are deleted are deleted in the table ([commit], step 2). *)
Definition commit_deleted_row (t : Transaction) (g : NodeGroup) (startOffset : nat) (st : NodeGroupCollection * UndoBuffer) (row : nat) :
    option (NodeGroupCollection * UndoBuffer) :=
  let '(n, u) := st in
  d ← ng_isDeleted g t row;
  if d : bool then
    '(n, u, r) ← nt_delete_ n t (startOffset + row) u;
    match r with Ret true => Some (n, u) | _ => None end
  else Some (n, u).

Definition commit_deletions (t : Transaction) (startNodeOffset : nat) (local : NodeGroupCollection) (n : NodeGroupCollection)
    (u : UndoBuffer) : option (NodeGroupCollection * UndoBuffer) :=
  '(n, u, _) ← ofold (λ '(n, u, numLocalRows) g,
      b ← chunks_hasDeletions (chunkedGroups g) t;
      '(n, u) ← (if b : bool
        then ofold (commit_deleted_row t g (startNodeOffset + numLocalRows)) (n, u) (seq 0 (numRows g)) else Some (n, u));
      Some (n, u, numLocalRows + numRows g)) (n, u, 0) (nodeGroups local);
  Some (n, u).

(** [NodeTable::commit] without the indexes: the local rows are appended and their deletions repeated. *)
Definition nt_commit (fuel : nat) (n : NodeGroupCollection) (t : Transaction) (local : NodeGroupCollection) (u : UndoBuffer) :
    option (NodeGroupCollection * UndoBuffer) :=
  let startNodeOffset := numTotalRows n in
  '(n, u) ← ngc_appendCollection fuel n t local u;
  commit_deletions t startNodeOffset local n u.

(** [NodeTableVersionRecordHandler]. *)
Definition nt_applyFuncToChunkedGroups (func : version_op) (n : NodeGroupCollection) (idx startRow rows : nat) (commitTS : Z) :
    option NodeGroupCollection :=
  g ← getNodeGroup n idx;
  g ← ng_applyFuncToChunkedGroups func g startRow rows commitTS;
  Some (ngc_with n (<[idx := g]> (nodeGroups n)) (numTotalRows n)).

Definition nt_rollbackInsert (n : NodeGroupCollection) (idx startRow rows : nat) : option NodeGroupCollection :=
  if decide (idx < length (nodeGroups n)) then
    n ← nt_applyFuncToChunkedGroups cg_rollbackInsert n idx startRow rows 0;
    g ← getNodeGroup n idx;
    let numRowsToRollback := rows `min` (numRows g - startRow) in
    let n := ngc_with n (<[idx := ng_rollbackInsert g startRow]> (nodeGroups n)) (numTotalRows n) in
    ngc_rollbackInsert n numRowsToRollback
  else if decide (startRow = 0) then Some n else None.

(** [commitVersionInfo] and [rollbackVersionInfo] of [UndoBuffer]; a rolled back operation ignores the
    timestamp. *)
Definition commitVersionInfo (commitTS : Z) (n : NodeGroupCollection) (r : VersionRecord) : option NodeGroupCollection :=
  let func := match recordType r with INSERT_INFO => cg_commitInsert | DELETE_INFO => cg_commitDelete end in
  nt_applyFuncToChunkedGroups func n (rec_nodeGroupIdx r) (rec_startRow r) (rec_numRows r) commitTS.

Definition rollbackVersionInfo (n : NodeGroupCollection) (r : VersionRecord) : option NodeGroupCollection :=
  match recordType r with
  | INSERT_INFO => nt_rollbackInsert n (rec_nodeGroupIdx r) (rec_startRow r) (rec_numRows r)
  | DELETE_INFO => nt_applyFuncToChunkedGroups cg_rollbackDelete n (rec_nodeGroupIdx r) (rec_startRow r) (rec_numRows r) 0
  end.

Definition undo_commit (u : UndoBuffer) (commitTS : Z) (n : NodeGroupCollection) : option NodeGroupCollection :=
  ofold (commitVersionInfo commitTS) n (iterate u).

Definition undo_rollback (u : UndoBuffer) (n : NodeGroupCollection) : option NodeGroupCollection :=
  ofold rollbackVersionInfo n (reverseIterate u).

(** ** Rows

    A row as the table keeps it: the versions of its insertion and deletion, whether its vector has version
    information, and whether its chunk is in memory. *)
Record row := mkRow { r_ins : Z; r_del : Z; r_vec : Prop; r_mem : Prop }.

Definition vi_of (c : ChunkedNodeGroup) : VersionInfo := default [] (versionInfo c).
Definition cg_row (c : ChunkedNodeGroup) (r : nat) : row :=
  mkRow (row_ins (vi_of c) r) (row_del (vi_of c) r) (row_vector (vi_of c) r) (residencyState c = IN_MEMORY).
Definition cg_rows (c : ChunkedNodeGroup) : list row := cg_row c <$> seq 0 (cg_numRows c).

Lemma length_cg_rows c : length (cg_rows c) = cg_numRows c.
Proof. unfold cg_rows. by rewrite length_fmap, length_seq. Qed.

Lemma cg_rows_lookup c r : r < cg_numRows c → cg_rows c !! r = Some (cg_row c r).
Proof. intros Hr. unfold cg_rows. rewrite list_lookup_fmap, lookup_seq_lt by done. done. Qed.

(** The version information of a chunk is well formed, the space after the rows of a chunk in memory is free,
    and the insertions of rows on disk have been checkpointed. *)
Record chunk_ok (c : ChunkedNodeGroup) : Prop := {
  ck_rows : cg_numRows c ≤ cg_capacity c;
  ck_versions : rows_ok (vi_of c);
  ck_memory : residencyState c = IN_MEMORY → cg_capacity c = CHUNKED_NODE_GROUP_CAPACITY ∧ rest_free (vi_of c) (cg_numRows c);
  ck_disk : residencyState c = ON_DISK → ∀ r, row_ins (vi_of c) r = 0%Z
}.

(** Rows are inserted, and rows in memory have versions. *)
Definition strict (r : row) : Prop := r_ins r ≠ INVALID_TRANSACTION ∧ (r_mem r → versioned (r_ins r)).

Definition same_shape (c c' : ChunkedNodeGroup) : Prop :=
  residencyState c' = residencyState c ∧ startRowIdx c' = startRowIdx c ∧ cg_capacity c' = cg_capacity c.

Lemma chunk_capacity_eq : CHUNKED_NODE_GROUP_CAPACITY = DEFAULT_VECTOR_CAPACITY.
Proof. vm_compute. reflexivity. Qed.

Lemma row_vector_Some c r : row_vector (vi_of c) r → versionInfo c = Some (vi_of c).
Proof. unfold row_vector, vi_of. destruct (versionInfo c); [done|]. intros [v Hv]. done. Qed.

Lemma versioned_row_vector vi r : versioned (row_ins vi r) → row_vector vi r.
Proof.
  intros [H1 H2]. unfold row_vector. unfold row_ins, row_of in *. destruct (getVectorVersionInfo vi _); [by eexists|done].
Qed.

Lemma deleted_row_vector vi r : row_del vi r ≠ INVALID_TRANSACTION → row_vector vi r.
Proof. intros H. unfold row_vector. unfold row_del, row_of in *. destruct (getVectorVersionInfo vi _); [by eexists|done]. Qed.

Lemma chunk_tail_ok c : Forall strict (cg_rows c) → residencyState c = IN_MEMORY → tail_ok (vi_of c) (cg_numRows c).
Proof.
  intros Hs Hm. unfold tail_ok. destruct (decide (cg_numRows c = 0)) as [->|]; [left; apply Nat.Div0.mod_0_l|].
  right. by apply (proj2 (Forall_lookup_1 _ _ (cg_numRows c - 1) _ Hs (cg_rows_lookup c (cg_numRows c - 1) ltac:(lia)))).
Qed.

(** ** Operations on a chunk *)

(** The version of an insertion or a deletion may change from [tid] to [x] only. *)
Definition upd (tid x i i' : Z) : Prop := i' = i ∨ (i = tid ∧ i' = x).

Definition row_upd_ins (tid x : Z) (r r' : row) : Prop :=
  upd tid x (r_ins r) (r_ins r') ∧ r_del r' = r_del r ∧ (r_vec r → r_vec r') ∧ (r_mem r' → r_mem r).
Definition row_upd_del (tid x : Z) (r r' : row) : Prop :=
  r_ins r' = r_ins r ∧ upd tid x (r_del r) (r_del r') ∧ (r_vec r → r_vec r') ∧ (r_mem r' → r_mem r).

(** The versions of a row stay. *)
Definition row_keep (r r' : row) : Prop :=
  r_ins r' = r_ins r ∧ r_del r' = r_del r ∧ (r_vec r → r_vec r') ∧ (r_mem r' → r_mem r).

Lemma row_upd_ins_refl tid x r : row_upd_ins tid x r r.
Proof. split_and!; [by left|done..]. Qed.
Lemma row_upd_del_refl tid x r : row_upd_del tid x r r.
Proof. split_and!; [done|by left|done..]. Qed.

Lemma row_change_upd own tid x s n old new : (∀ y, own y → y = tid ∨ y = x) → row_change own x s n old new →
  (∀ r, s ≤ r < s + n → own (old r)) → ∀ r, upd tid x (old r) (new r).
Proof.
  intros Hown [Hin Hout] Hr r. destruct (decide (s ≤ r < s + n)) as [Hrange|Hrange].
  - rewrite (Hin r Hrange). destruct (Hown _ (Hr r Hrange)) as [->| ->]; [by right|by left].
  - destruct (Hout r Hrange) as [?|[Ho ->]]; [by left|]. destruct (Hown _ Ho) as [->| ->]; [by right|by left].
Qed.

(** What an operation on the versions of a range of rows does to a chunk. *)
Definition op_result (c c' : ChunkedNodeGroup) (s n : nat) (R : row → row → Prop) (S : row → Prop) : Prop :=
  chunk_ok c' ∧ same_shape c c' ∧ cg_numRows c' = cg_numRows c ∧ (∀ r, R (cg_row c r) (cg_row c' r)) ∧
  ∀ r, s ≤ r < s + n → S (cg_row c' r).

Lemma cg_commitInsert_spec c tid ts s n : chunk_ok c → versioned tid → versioned ts → s + n ≤ cg_numRows c → 0 < n →
  (∀ r, s ≤ r < s + n → r_ins (cg_row c r) = tid ∨ r_ins (cg_row c r) = ts) →
  ∃ c', cg_commitInsert c s n ts = Some c' ∧ op_result c c' s n (row_upd_ins tid ts) (λ r, r_ins r = ts).
Proof.
  intros Hc Ht Hts Hn Hpos Hr. cbn in Hr. set (own x := x = tid ∨ x = ts).
  assert (∀ x, own x → versioned x) as Hown by (intros x [->| ->]; done).
  destruct (commitInsert_rows (vi_of c) s n ts own) as (vi' & E & Hok & Hdel & Hch & Hfree & Hvec).
  { apply Hc. } { done. } { apply Hts. } { intros r Hrr. split; [by apply Hr|]. apply versioned_row_vector, Hown, Hr, Hrr. }
  unfold cg_commitInsert. rewrite (row_vector_Some c s) by (apply versioned_row_vector, Hown, Hr; lia). cbn [mbind option_bind]. rewrite E.
  cbn [mbind option_bind]. eexists. split; [done|].
  assert (∀ r, upd tid ts (row_ins (vi_of c) r) (row_ins vi' r)) as Hupd by (eapply row_change_upd; [|exact Hch|exact Hr]; done).
  split_and!; [|done|done| |].
  - destruct Hc as [C1 C2 C3 C4]. split; cbn; [done|done| |].
    + intros Hm. destruct (C3 Hm) as (? & ?). split; [done|]. apply Hfree; [lia|done].
    + intros Hd. destruct (Hr s ltac:(lia)) as [Hx|Hx]; rewrite (C4 Hd s) in Hx; subst; [by destruct Ht|by destruct Hts].
  - intros r. split_and!; cbn; [apply Hupd|apply Hdel|apply Hvec|done].
  - intros r Hrr. cbn. by apply (proj1 Hch).
Qed.

(** A chunk whose deletions change. *)
Lemma deletion_result c vi' tid x s n (own : Z → Prop) : chunk_ok c → s + n ≤ cg_numRows c →
  (∀ y, own y → y = tid ∨ y = x) → (∀ r, s ≤ r < s + n → own (row_del (vi_of c) r)) →
  rows_ok vi' → (∀ r, row_ins vi' r = row_ins (vi_of c) r) → row_change own x s n (row_del (vi_of c)) (row_del vi') →
  (∀ m, s + n ≤ m → rest_free (vi_of c) m → rest_free vi' m) → (∀ r, row_vector (vi_of c) r → row_vector vi' r) →
  op_result c (cg_with c (cg_numRows c) (Some vi')) s n (row_upd_del tid x) (λ r, r_del r = x).
Proof.
  intros Hc Hn Hown Hr Hok Hins Hch Hfree Hvec. split_and!; [|done|done| |].
  - destruct Hc as [C1 C2 C3 C4]. split; cbn; [done|done| |].
    + intros Hm. destruct (C3 Hm) as (? & ?). split; [done|]. apply Hfree; [lia|done].
    + intros Hd r. rewrite Hins. by apply C4.
  - intros r. split_and!; cbn; [apply Hins|by eapply row_change_upd|apply Hvec|done].
  - intros r Hrr. cbn. by apply (proj1 Hch).
Qed.

Lemma cg_commitDelete_spec c tid ts s n : chunk_ok c → tid ≠ INVALID_TRANSACTION → ts ≠ INVALID_TRANSACTION →
  s + n ≤ cg_numRows c → 0 < n → (∀ r, s ≤ r < s + n → r_del (cg_row c r) = tid ∨ r_del (cg_row c r) = ts) →
  ∃ c', cg_commitDelete c s n ts = Some c' ∧ op_result c c' s n (row_upd_del tid ts) (λ r, r_del r = ts).
Proof.
  intros Hc Ht Hts Hn Hpos Hr. cbn in Hr. set (own x := x = tid ∨ x = ts).
  assert (∀ x, own x → x ≠ INVALID_TRANSACTION) as Hown by (intros x [->| ->]; done).
  assert (∀ r, s ≤ r < s + n → row_vector (vi_of c) r) as Hv by (intros r Hrr; apply deleted_row_vector, Hown, Hr, Hrr).
  destruct (commitDelete_rows (vi_of c) s n ts own) as (vi' & E & Hok & Hins & Hch & Hfree & Hvec);
    [apply Hc|done|done|intros r Hrr; split; [by apply Hr|by apply Hv]|].
  unfold cg_commitDelete. rewrite (row_vector_Some c s) by (apply Hv; lia). cbn [mbind option_bind]. rewrite E.
  cbn [mbind option_bind]. eexists. split; [done|]. by apply (deletion_result c vi' tid ts s n own).
Qed.

Lemma cg_rollbackDelete_spec c tid x s n : chunk_ok c → s + n ≤ cg_numRows c → 0 < n →
  (∀ r, s ≤ r < s + n → (r_del (cg_row c r) = tid ∨ r_del (cg_row c r) = INVALID_TRANSACTION) ∧ r_vec (cg_row c r)) →
  ∃ c', cg_rollbackDelete c s n x = Some c' ∧
    op_result c c' s n (row_upd_del tid INVALID_TRANSACTION) (λ r, r_del r = INVALID_TRANSACTION).
Proof.
  intros Hc Hn Hpos Hr. cbn in Hr. set (own x := x = tid ∨ x = INVALID_TRANSACTION).
  destruct (rollbackDelete_rows (vi_of c) s n own) as (vi' & E & Hok & Hins & Hch & Hfree & Hvec); [apply Hc|done|].
  unfold cg_rollbackDelete. rewrite (row_vector_Some c s) by (apply Hr; lia). cbn [mbind option_bind]. rewrite E.
  cbn [mbind option_bind]. eexists. split; [done|]. apply (deletion_result c vi' tid INVALID_TRANSACTION s n own); try done.
  intros r Hrr. by apply Hr.
Qed.

Lemma rest_free_del vi m r : rest_free vi m → m ≤ r → row_del vi r = INVALID_TRANSACTION.
Proof.
  intros Hf Hr. destruct (row_split r) as [Hs Hi]. unfold row_del, row_of.
  destruct (getVectorVersionInfo vi (r / DEFAULT_VECTOR_CAPACITY)) as [v|] eqn:E; [|done].
  destruct (Hf (r / DEFAULT_VECTOR_CAPACITY)) as [_ _ H3]; [lia|]. unfold vec_at in H3. rewrite E in H3. apply H3. lia.
Qed.

(** Rows of the transaction [tid], whose insertion may have been rolled back already. *)
Definition own_row (tid : Z) (r : row) : Prop := r_ins r = tid ∨ r_ins r = INVALID_TRANSACTION.

(** The first [s] rows are left after a rollback; of them only rows of the transaction may change. *)
Lemma cg_rollbackInsert_spec c tid x s n : chunk_ok c → residencyState c = IN_MEMORY → versioned tid → s + n = cg_numRows c → 0 < n →
  (∀ r, s ≤ r < s + n → own_row tid (cg_row c r)) →
  (∀ r, r < cg_numRows c → own_row tid (cg_row c r) → r_del (cg_row c r) = INVALID_TRANSACTION) →
  ∃ c', cg_rollbackInsert c s n x = Some c' ∧ chunk_ok c' ∧ same_shape c c' ∧ cg_numRows c' = s ∧
    (∀ r, r < s → row_upd_ins tid INVALID_TRANSACTION (cg_row c r) (cg_row c' r)).
Proof.
  intros Hc Hm Ht Hn Hpos Hr Hdel. unfold own_row in Hr, Hdel. cbn in Hr, Hdel. destruct Hc as [C1 C2 C3 C4]. destruct (C3 Hm) as (M1 & M2).
  unfold cg_rollbackInsert. destruct (decide (s = 0)) as [->|Hs].
  { eexists. split; [done|]. split_and!; [|done|done|lia]. split; cbn; [lia|by intros k v| |congruence]. intros _. split; [done|].
    intros k Hk. unfold vec_at. cbn. by split. }
  rewrite decide_False by lia. set (own x := x = tid ∨ x = INVALID_TRANSACTION).
  assert (∀ y, own y → y ≠ 0%Z) as Hown0 by (intros y [->| ->]; [apply Ht|done]).
  assert (∀ r, own (row_ins (vi_of c) r) → row_vector (vi_of c) r) as Hrv.
  { intros r Ho. apply Hown0 in Ho. unfold row_vector. unfold row_ins, row_of in Ho. destruct (getVectorVersionInfo _ _); [by eexists|done]. }
  destruct (rollbackInsert_rows (vi_of c) s n own) as (vi' & E & Hok & Hd & Hch & Hfree & Hvec).
  { done. } { done. } { by right. } { intros r Hrr. split; [by apply Hr|]. by apply Hrv, Hr. }
  { intros r Hne Ho. apply Hne. destruct (decide (r < cg_numRows c)); [by apply Hdel|]. apply (rest_free_del _ (cg_numRows c)); [done|lia]. }
  rewrite (row_vector_Some c s) by (apply Hrv, Hr; lia). cbn [mbind option_bind]. rewrite E.
  cbn [mbind option_bind]. eexists. split; [done|]. split_and!; [|done|done|].
  - split; cbn; [lia|done| |congruence]. intros _. split; [done|]. apply Hfree. by rewrite Hn.
  - intros r Hlt. split_and!; cbn; [|apply Hd|apply Hvec|done]. by eapply (row_change_upd own); [|exact Hch|exact Hr].
Qed.

(** A row a transaction has just appended. *)
Definition fresh_row (tid : Z) (r : row) : Prop := r_ins r = tid ∧ r_del r = INVALID_TRANSACTION ∧ r_vec r.

Lemma cg_append_spec c t n : chunk_ok c → Forall strict (cg_rows c) → residencyState c = IN_MEMORY → shouldAppendToUndoBuffer t = true → versioned (ID t) →
  cg_numRows c + n ≤ cg_capacity c →
  ∃ c', cg_append c t n = Some (c', n) ∧ chunk_ok c' ∧ same_shape c c' ∧ cg_numRows c' = cg_numRows c + n ∧
    (∀ r, r < cg_numRows c → row_keep (cg_row c r) (cg_row c' r)) ∧
    (∀ r, cg_numRows c ≤ r < cg_numRows c + n → fresh_row (ID t) (cg_row c' r)).
Proof.
  intros Hc Hst Hm Ht Hid Hn. pose proof (chunk_tail_ok c Hst Hm) as Htail. destruct Hc as [C1 C2 C3 C4]. destruct (C3 Hm) as (M1 & M2).
  destruct (append_rows (vi_of c) (ID t) (cg_numRows c) n C2 M2 Htail (proj2 Hid)) as (vi' & E & Hok & Hfree & Hnew & Hold & Hdel).
  unfold cg_append. rewrite decide_False by (by rewrite Hm). rewrite Ht. replace (n `min` _) with n by lia. fold (vi_of c). rewrite E.
  cbn [fmap option_fmap option_map mbind option_bind]. eexists. split; [done|]. split_and!; [|done|done| |].
  - split; cbn; [lia|done| |congruence]. intros _. by split.
  - intros r Hr. split_and!; cbn; [by apply Hold|apply Hdel| |done]. intros _. apply versioned_row_vector. rewrite Hold by done.
    by apply (proj2 (Forall_lookup_1 _ _ r _ Hst (cg_rows_lookup c r Hr))).
  - intros r Hr. split_and!; cbn; [by apply Hnew| |].
    + rewrite Hdel. apply (rest_free_del _ (cg_numRows c)); [done|lia].
    + apply versioned_row_vector. by rewrite Hnew.
Qed.

(** What a deletion does to a row. *)
Definition row_deleted (tid : Z) (r r' : row) : Prop :=
  r_ins r' = r_ins r ∧ r_del r' = (if decide (r_del r = INVALID_TRANSACTION) then tid else r_del r) ∧ r_vec r' ∧
  (r_mem r' → r_mem r).

Lemma cg_delete_spec c t r : chunk_ok c → Forall strict (cg_rows c) → ID t ≠ INVALID_TRANSACTION → r < cg_numRows c →
  ∃ c', cg_delete_ c t r = Some (c', delete_result (r_del (cg_row c r)) (ID t)) ∧ chunk_ok c' ∧ same_shape c c' ∧
    cg_numRows c' = cg_numRows c ∧ row_deleted (ID t) (cg_row c r) (cg_row c' r) ∧
    ∀ j, j ≠ r → row_keep (cg_row c j) (cg_row c' j).
Proof.
  intros Hc Hst Ht Hr. pose proof (chunk_tail_ok c Hst) as Htail. pose proof (proj1 (Forall_lookup_1 _ _ r _ Hst (cg_rows_lookup c r Hr))) as Hri. destruct Hc as [C1 C2 C3 C4].
  destruct (delete_rows (vi_of c) (ID t) r C2 Ht Hri) as (vi' & E & Hok & Hins & Hdel & Hfree & Hvr & Hvec).
  unfold cg_delete_. fold (vi_of c). rewrite E. cbn [mbind option_bind]. eexists. split; [done|]. split_and!; [|done|done| |].
  - split; cbn; [done|done| |intros Hd j; rewrite Hins; by apply C4]. intros Hm. destruct (C3 Hm) as (M1 & M2).
    split; [done|]. apply Hfree; [done|by apply Htail|done].
  - split_and!; cbn; [apply Hins| |done|done]. rewrite Hdel. apply decide_ext. naive_solver.
  - intros j Hj. split_and!; cbn; [apply Hins| |apply Hvec|done]. rewrite Hdel, decide_False; [done|]. by intros [? _].
Qed.

(** What a transaction sees of a chunk. *)
Lemma cg_visible c t r : chunk_ok c → snapshot_ok (startTS t) (ID t) → r < cg_numRows c →
  cg_isDeleted c t r = Some (version_seen (startTS t) (ID t) (r_del (cg_row c r))) ∧
  cg_isInserted c t r = Some (version_seen (startTS t) (ID t) (r_ins (cg_row c r))).
Proof.
  intros Hc Hs Hr. unfold cg_isDeleted, cg_isInserted, cg_row, vi_of. pose proof (ck_versions c Hc) as Hok. unfold vi_of in Hok.
  destruct (versionInfo c) as [vi|]; cbn [r_ins r_del].
  - by rewrite isDeleted_row, isInserted_row.
  - rewrite bool_decide_true by done. unfold row_ins, row_del, row_of. cbn. by rewrite seen_invalid, seen_always.
Qed.

(** ** Chunks of a node group *)

#[export] Instance row_keep_preorder : PreOrder row_keep.
Proof.
  split.
  - intros r. by split_and!.
  - intros r1 r2 r3 (A1 & A2 & A3 & A4) (B1 & B2 & B3 & B4). split_and!; [congruence..|auto|auto].
Qed.

Definition rows_of (l : list ChunkedNodeGroup) : list row := l ≫= cg_rows.

Lemma rows_of_cons c l : rows_of (c :: l) = cg_rows c ++ rows_of l.
Proof. done. Qed.
Lemma rows_of_app l1 l2 : rows_of (l1 ++ l2) = rows_of l1 ++ rows_of l2.
Proof. apply bind_app. Qed.

(** The chunks from row [off] of a group on: each begins where the one before ends, all but the first are in
    memory, all but the last are full or on disk, and [P] holds of the last. *)
Fixpoint chunks_ok (P : ChunkedNodeGroup → Prop) (off : nat) (l : list ChunkedNodeGroup) : Prop :=
  match l with
  | [] => True
  | c :: l' =>
      chunk_ok c ∧ startRowIdx c = off ∧
      match l' with [] => P c | _ => 0 < cg_numRows c ∧ isFullOrOnDisk c = true end ∧
      Forall (λ c, residencyState c = IN_MEMORY) l' ∧ chunks_ok P (off + cg_numRows c) l'
  end.

Definition nonempty (c : ChunkedNodeGroup) : Prop := 0 < cg_numRows c.
Definition closed (c : ChunkedNodeGroup) : Prop := 0 < cg_numRows c ∧ isFullOrOnDisk c = true.

Lemma chunks_ok_mono (P Q : ChunkedNodeGroup → Prop) off l : (∀ c, P c → Q c) → chunks_ok P off l → chunks_ok Q off l.
Proof.
  intros HPQ. revert off. induction l as [|c [|c' l] IH]; intros off; [done|cbn; naive_solver|].
  intros (? & ? & ? & ? & ?). refine (conj _ (conj _ (conj _ (conj _ _)))); [done..|by apply IH].
Qed.

Lemma chunks_ok_snoc P off l c : chunks_ok P off (l ++ [c]) ↔
  chunks_ok closed off l ∧ chunk_ok c ∧ startRowIdx c = off + length (rows_of l) ∧ P c ∧ (l ≠ [] → residencyState c = IN_MEMORY).
Proof.
  revert off. induction l as [|c0 l IH]; intros off.
  - cbn. rewrite Nat.add_0_r. split; [intros (? & ? & ? & _)|intros (_ & ? & ? & ? & _)]; split_and!; try done.
  - rewrite rows_of_cons, length_app, length_cg_rows, <-app_comm_cons. cbn [chunks_ok].
    rewrite IH. destruct l as [|c1 l].
    + cbn. rewrite !Nat.add_0_r, Forall_singleton. split; [intros (? & ? & [? ?] & ? & _ & ? & ? & ? & _)|intros ((? & ? & [? ?] & _) & ? & ? & ? & ?)];
        split_and!; try done; auto.
    + rewrite Forall_app, Forall_singleton, Nat.add_assoc. cbn [app].
      split; [intros (? & ? & [? ?] & [? ?] & ? & ? & ? & ? & _)|intros ((? & ? & [? ?] & ? & ?) & ? & ? & ? & Hm)]; split_and!; try done; auto.
Qed.

(** A chunk in memory that is closed holds a full chunk's rows. *)
Lemma closed_memory c : chunk_ok c → closed c → residencyState c = IN_MEMORY → cg_numRows c = CHUNKED_NODE_GROUP_CAPACITY.
Proof.
  intros Hc [_ Hf] Hm. unfold isFullOrOnDisk in Hf. rewrite Hm, (bool_decide_false (IN_MEMORY = ON_DISK)), orb_false_r in Hf by done.
  apply bool_decide_eq_true in Hf. rewrite Hf. by apply (ck_memory c Hc).
Qed.

Lemma chunk_cap_pos : 0 < CHUNKED_NODE_GROUP_CAPACITY.
Proof. rewrite chunk_capacity_eq. apply CAP_pos. Qed.

#[local] Opaque CHUNKED_NODE_GROUP_CAPACITY NODE_GROUP_SIZE DEFAULT_VECTOR_CAPACITY.

(** The chunk of a row among the chunks in memory. *)
Lemma memory_index l off r : chunks_ok nonempty off l → Forall (λ c, residencyState c = IN_MEMORY) l → r < length (rows_of l) →
  ∃ c, l !! (r / CHUNKED_NODE_GROUP_CAPACITY) = Some c ∧
    startRowIdx c = off + r / CHUNKED_NODE_GROUP_CAPACITY * CHUNKED_NODE_GROUP_CAPACITY ∧
    r mod CHUNKED_NODE_GROUP_CAPACITY < cg_numRows c.
Proof.
  pose proof chunk_cap_pos as Hpos. revert off r. induction l as [|c l IH]; intros off r Hl Hm Hr; [cbn in Hr; lia|].
  rewrite rows_of_cons, length_app, length_cg_rows in Hr. destruct Hl as (Hc & Hoff & Hlast & _ & Hl). apply Forall_cons in Hm as [Hm Hml].
  destruct (ck_memory c Hc Hm) as (Hcap & _). pose proof (ck_rows c Hc).
  destruct (decide (r < cg_numRows c)) as [Hlt|Hge].
  - exists c. rewrite Nat.div_small, Nat.mod_small by lia. cbn. split_and!; [done|lia|done].
  - destruct l as [|c' l]; [cbn in Hr; lia|]. pose proof (closed_memory c Hc Hlast Hm) as Hfull.
    destruct (IH (off + cg_numRows c) (r - cg_numRows c) Hl Hml) as (d & E & Hs & Hmod); [lia|].
    assert (r = (r - cg_numRows c) + 1 * CHUNKED_NODE_GROUP_CAPACITY) as Hr' by lia. exists d. rewrite Hr', Nat.div_add, Nat.Div0.mod_add by lia.
    rewrite Nat.add_1_r. split_and!; [done|lia|done].
Qed.

(** The chunk [find...] returns is the one that holds the row. *)
Lemma find_chunk g r : chunks_ok nonempty 0 (chunkedGroups g) → r < length (rows_of (chunkedGroups g)) →
  ∃ i c, findChunkedGroupIdxFromRowIdxNoLock g r = Some (i, r - startRowIdx c) ∧ chunkedGroups g !! i = Some c ∧
    startRowIdx c ≤ r < startRowIdx c + cg_numRows c.
Proof.
  unfold findChunkedGroupIdxFromRowIdxNoLock. destruct (chunkedGroups g) as [|c l]; intros Hl Hr; [cbn in Hr; lia|].
  rewrite rows_of_cons, length_app, length_cg_rows in Hr. destruct Hl as (Hc & Hoff & Hlast & Hm & Hl). rewrite Hoff.
  rewrite decide_False, Nat.sub_0_r by lia. destruct (decide (r < cg_numRows c)) as [Hlt|Hge].
  - exists 0, c. rewrite Hoff. split_and!; [f_equal; f_equal; lia|done|lia|lia].
  - destruct (memory_index l (0 + cg_numRows c) (r - cg_numRows c) Hl Hm) as (d & E & Hs & Hmod); [lia|].
    pose proof (lookup_lt_Some _ _ _ E) as Hlen. rewrite decide_False by (cbn; lia).
    set (q := (r - cg_numRows c) / CHUNKED_NODE_GROUP_CAPACITY) in *. set (m := (r - cg_numRows c) mod CHUNKED_NODE_GROUP_CAPACITY) in *.
    assert (r - cg_numRows c = q * CHUNKED_NODE_GROUP_CAPACITY + m) as Heq
      by (unfold q, m; rewrite (Nat.div_mod_eq (r - cg_numRows c) CHUNKED_NODE_GROUP_CAPACITY) at 1; lia).
    exists (q + 1), d. split_and!; [do 2 f_equal; lia| |lia|lia]. by rewrite Nat.add_1_r.
Qed.

(** ** Appending to a node group *)

(** The rows after an append: the old ones as they were, then new ones of the transaction. *)
Definition rows_appended (tid : Z) (n : nat) (old rows : list row) : Prop :=
  ∃ old' new, rows = old' ++ new ∧ Forall2 row_keep old old' ∧ Forall (fresh_row tid) new ∧ length new = n.

Lemma Forall2_keep_refl l : Forall2 row_keep l l.
Proof. by apply Forall_Forall2_diag, Forall_true. Qed.

Lemma rows_appended_refl tid l : rows_appended tid 0 l l.
Proof. exists l, []. rewrite app_nil_r. split_and!; [done|apply Forall2_keep_refl|constructor|done]. Qed.

(** The rows of the transaction stay fresh when they are kept. *)
Lemma fresh_keep tid r r' : fresh_row tid r → row_keep r r' → fresh_row tid r'.
Proof. intros (A1 & A2 & A3) (B1 & B2 & B3 & _). split_and!; [congruence..|auto]. Qed.

Lemma rows_appended_trans tid n m l1 l2 l3 : rows_appended tid n l1 l2 → rows_appended tid m l2 l3 → rows_appended tid (n + m) l1 l3.
Proof.
  intros (o1 & n1 & -> & K1 & F1 & L1) (o2 & n2 & -> & K2 & F2 & L2). apply Forall2_app_inv_l in K2 as (p1 & p2 & K2 & K3 & ->).
  exists p1, (p2 ++ n2). split_and!; [by rewrite app_assoc| | |].
  - by etrans.
  - apply Forall_app. split; [|done]. rewrite Forall_forall in F1 |- *. intros r Hr. apply list_elem_of_lookup in Hr as [i Hi].
    destruct (Forall2_lookup_r _ _ _ _ _ K3 Hi) as (r0 & Hr0 & Hk). eapply fresh_keep; [|exact Hk]. apply F1. by eapply list_elem_of_lookup_2.
  - rewrite length_app, L2, <-(Forall2_length _ _ _ K3). lia.
Qed.

Lemma rows_appended_length tid n old rows : rows_appended tid n old rows → length rows = length old + n.
Proof. intros (o & l & -> & K & _ & <-). by rewrite length_app, (Forall2_length _ _ _ K). Qed.

Lemma strict_keep r r' : strict r → row_keep r r' → strict r'.
Proof. intros [H0 Hs] (H1 & _ & _ & H4). unfold strict. rewrite H1. auto. Qed.

Lemma Forall2_strict (R : row → row → Prop) l l' : (∀ r r', R r r' → strict r → strict r') → Forall2 R l l' → Forall strict l → Forall strict l'.
Proof. intros HR H Hs. eapply Forall2_Forall_r; [exact H|]. eapply Forall_impl; [exact Hs|]. cbn. eauto. Qed.

Lemma rows_appended_strict tid n old rows : versioned tid → rows_appended tid n old rows → Forall strict old → Forall strict rows.
Proof.
  intros Ht (o & l & -> & K & F & _) Hs. apply Forall_app. split.
  - eapply (Forall2_strict row_keep); [|exact K|done]. eauto using strict_keep.
  - eapply Forall_impl; [exact F|]. intros r (Hr & _). unfold strict. rewrite Hr. split; [apply Ht|done].
Qed.

(** A chunk before and after its append. *)
Lemma chunk_rows_appended tid n c c' : cg_numRows c' = cg_numRows c + n →
  (∀ r, r < cg_numRows c → row_keep (cg_row c r) (cg_row c' r)) →
  (∀ r, cg_numRows c ≤ r < cg_numRows c + n → fresh_row tid (cg_row c' r)) → rows_appended tid n (cg_rows c) (cg_rows c').
Proof.
  intros Hn Hk Hf. exists (cg_row c' <$> seq 0 (cg_numRows c)), (cg_row c' <$> seq (cg_numRows c) n). split_and!.
  - unfold cg_rows. by rewrite Hn, seq_app, fmap_app.
  - unfold cg_rows. apply Forall2_fmap, Forall_Forall2_diag, Forall_seq. intros r Hr. apply Hk. lia.
  - apply Forall_fmap, Forall_seq. intros r Hr. apply Hf. lia.
  - by rewrite length_fmap, length_seq.
Qed.

Lemma rows_appended_app_l tid n l old rows : rows_appended tid n old rows → rows_appended tid n (l ++ old) (l ++ rows).
Proof.
  intros (o & p & -> & K & F & L). exists (l ++ o), p. split_and!; [by rewrite app_assoc| |done..].
  apply Forall2_app; [apply Forall2_keep_refl|done].
Qed.

(** A chunk that is not closed yet. *)
Definition opened (c : ChunkedNodeGroup) : Prop := residencyState c = ON_DISK → 0 < cg_numRows c.

Lemma new_chunk_ok off : chunk_ok (newChunkedGroup off).
Proof.
  split; cbn; [lia|by intros k v| |done]. intros _. split; [done|]. intros k Hk. unfold vec_at. cbn. by split.
Qed.

(** The last chunk when a row is to be appended. *)
Lemma prepare_chunk chunks off : chunks ≠ [] → chunks_ok opened 0 chunks → off = length (rows_of chunks) →
  ∃ l c, match last chunks with
    | Some c => if isFullOrOnDisk c then chunks ++ [newChunkedGroup off] else chunks
    | None => chunks ++ [newChunkedGroup off]
    end = l ++ [c] ∧ chunks_ok closed 0 l ∧ chunk_ok c ∧ startRowIdx c = length (rows_of l) ∧ residencyState c = IN_MEMORY ∧
    cg_numRows c < CHUNKED_NODE_GROUP_CAPACITY ∧ rows_of (l ++ [c]) = rows_of chunks.
Proof.
  intros Hne Hok ->. destruct (exists_last Hne) as (l & c & ->). rewrite last_snoc.
  apply chunks_ok_snoc in Hok as (Hl & Hc & Hs & Ho & Hm). destruct (isFullOrOnDisk c) eqn:E.
  - exists (l ++ [c]), (newChunkedGroup (length (rows_of (l ++ [c])))). split_and!; [done| |apply new_chunk_ok|done|done|apply chunk_cap_pos|].
    + apply chunks_ok_snoc. split_and!; [done..| |done]. split; [|done]. unfold isFullOrOnDisk in E.
      destruct (residencyState c) eqn:Er; [|by apply Ho]. rewrite (bool_decide_false (IN_MEMORY = ON_DISK)), orb_false_r in E by done.
      apply bool_decide_eq_true in E. rewrite E, (proj1 (ck_memory c Hc Er)). apply chunk_cap_pos.
    + rewrite rows_of_app. unfold rows_of at 2. cbn. by rewrite app_nil_r.
  - unfold isFullOrOnDisk in E. apply orb_false_iff in E as [E1 E2]. apply bool_decide_eq_false in E1, E2.
    assert (residencyState c = IN_MEMORY) as Er by (by destruct (residencyState c)).
    exists l, c. split_and!; [done..| |done]. pose proof (ck_rows c Hc). rewrite (proj1 (ck_memory c Hc Er)) in *. lia.
Qed.

Lemma ng_append_loop_spec fuel t before n a chunks : shouldAppendToUndoBuffer t = true → versioned (ID t) →
  n - a ≤ fuel → a ≤ n → chunks ≠ [] → chunks_ok opened 0 chunks → Forall strict (rows_of chunks) → (a = n → chunks_ok nonempty 0 chunks) →
  before + a = length (rows_of chunks) →
  ∃ chunks', ng_append_loop fuel t before n a chunks = Some chunks' ∧ chunks_ok nonempty 0 chunks' ∧
    rows_appended (ID t) (n - a) (rows_of chunks) (rows_of chunks').
Proof.
  intros Ht Hid. revert a chunks. induction fuel as [|fuel IH]; intros a chunks Hfuel Ha Hne Hok Hst Hfin Hlen; cbn [ng_append_loop].
  { rewrite decide_False by lia. assert (a = n) as -> by lia. exists chunks. rewrite Nat.sub_diag. split_and!; [done|auto|apply rows_appended_refl]. }
  destruct (decide (a < n)) as [Hlt|Hge].
  2:{ assert (a = n) as -> by lia. exists chunks. rewrite Nat.sub_diag. split_and!; [done|auto|apply rows_appended_refl]. }
  destruct (prepare_chunk chunks (before + a) Hne Hok Hlen) as (l & c & E & Hl & Hc & Hs & Hm & Hroom & Hrows). rewrite E.
  rewrite last_snoc. cbn [mbind option_bind]. rewrite decide_True by lia.
  set (k := (n - a) `min` (CHUNKED_NODE_GROUP_CAPACITY - cg_numRows c)).
  assert (Forall strict (cg_rows c)) as Hstc.
  { rewrite <-Hrows, rows_of_app in Hst. apply Forall_app in Hst as [_ Hst]. unfold rows_of in Hst. cbn in Hst. by rewrite app_nil_r in Hst. }
  destruct (cg_append_spec c t k Hc Hstc Hm Ht Hid) as (c' & -> & Hc' & (S1 & S2 & S3) & Hn' & Hkeep & Hnew).
  { rewrite (proj1 (ck_memory c Hc Hm)). lia. }
  cbn [mbind option_bind]. rewrite length_app. cbn [length]. replace (length l + 1 - 1) with (length l + 0) by lia.
  rewrite insert_app_r. cbn [insert list_insert].
  assert (∀ P : ChunkedNodeGroup → Prop, P c' → chunks_ok P 0 (l ++ [c'])) as Hok'.
  { intros P HP. apply chunks_ok_snoc. split_and!; [done|done|by rewrite S2|done|intros _; congruence]. }
  assert (rows_appended (ID t) k (rows_of chunks) (rows_of (l ++ [c']))) as Happ.
  { rewrite <-Hrows, !rows_of_app. apply rows_appended_app_l. unfold rows_of. cbn. rewrite !app_nil_r. by apply chunk_rows_appended. }
  destruct (IH (a + k) (l ++ [c'])) as (chunks' & -> & Hok'' & Happ'); [lia|lia|by destruct l| | | | |].
  - apply Hok'. unfold opened. congruence.
  - by eapply rows_appended_strict.
  - intros _. apply Hok'. unfold nonempty. lia.
  - rewrite (rows_appended_length _ _ _ _ Happ). lia.
  - exists chunks'. split_and!; [done..|]. replace (n - a) with (k + (n - (a + k))) by lia. by eapply rows_appended_trans.
Qed.

(** ** Operations on the rows of a group *)

Definition ng_rows (g : NodeGroup) : list row := rows_of (chunkedGroups g).

Record ng_ok (g : NodeGroup) : Prop := {
  nk_chunks : chunks_ok nonempty 0 (chunkedGroups g);
  nk_rows : numRows g = length (ng_rows g)
}.

(** Fields of a group its row operations keep. *)
Definition same_group (g g' : NodeGroup) : Prop :=
  nodeGroupIdx g' = nodeGroupIdx g ∧ nextRowToAppend g' = nextRowToAppend g ∧ ng_capacity g' = ng_capacity g.

Lemma ng_append_spec g t n : ng_ok g → Forall strict (ng_rows g) → shouldAppendToUndoBuffer t = true → versioned (ID t) → 0 < n →
  ∃ g', ng_append g t n = Some g' ∧ ng_ok g' ∧ same_group g g' ∧ rows_appended (ID t) n (ng_rows g) (ng_rows g').
Proof.
  intros [Hc Hr] Hst Ht Hid Hn. unfold ng_append, ng_rows in *.
  set (chunks := match chunkedGroups g with [] => [newChunkedGroup 0] | _ => chunkedGroups g end).
  assert (chunks ≠ [] ∧ chunks_ok opened 0 chunks ∧ rows_of chunks = rows_of (chunkedGroups g)) as (H1 & H2 & H3).
  { unfold chunks. destruct (chunkedGroups g) as [|c l] eqn:E.
    - split_and!; [done| |done]. cbn. split_and!; [apply new_chunk_ok|done|done|constructor|done].
    - split_and!; [done| |done]. eapply chunks_ok_mono; [|exact Hc]. unfold nonempty, opened. done. }
  destruct (ng_append_loop_spec n t (numRows g) n 0 chunks) as (chunks' & -> & Hok & Happ); [done|done|lia|lia|done|done|by rewrite H3|lia|rewrite H3; lia|].
  rewrite H3, Nat.sub_0_r in Happ. cbn [mbind option_bind]. eexists. split; [done|]. split_and!; [split; cbn|done|done]; [done|].
  change (numRows g + n = length (rows_of chunks')). rewrite (rows_appended_length _ _ _ _ Happ). lia.
Qed.

(** Rows that are related position by position. *)
Definition pointwise (Q : nat → row → row → Prop) (l l' : list row) : Prop :=
  length l' = length l ∧ ∀ j r r', l !! j = Some r → l' !! j = Some r' → Q j r r'.

Lemma pointwise_app Q l1 l1' l2 l2' : pointwise Q l1 l1' → pointwise (λ j, Q (length l1 + j)) l2 l2' → pointwise Q (l1 ++ l2) (l1' ++ l2').
Proof.
  intros [L1 P1] [L2 P2]. split; [rewrite !length_app; lia|]. intros j r r' Hj Hj'. destruct (decide (j < length l1)) as [Hlt|Hge].
  - rewrite lookup_app_l in Hj, Hj' by lia. by eapply P1.
  - rewrite lookup_app_r in Hj by lia. rewrite lookup_app_r in Hj' by lia. rewrite L1 in Hj'.
    replace j with (length l1 + (j - length l1)) by lia. by eapply P2.
Qed.

Lemma pointwise_refl (Q : nat → row → row → Prop) l : (∀ j r, j < length l → Q j r r) → pointwise Q l l.
Proof. intros H. split; [done|]. intros j r r' Hj Hj'. simplify_eq. apply H. by eapply lookup_lt_Some. Qed.

Lemma pointwise_chunk (Q : nat → row → row → Prop) c c' : cg_numRows c' = cg_numRows c →
  (∀ r, r < cg_numRows c → Q r (cg_row c r) (cg_row c' r)) → pointwise Q (cg_rows c) (cg_rows c').
Proof.
  intros Hn H. split; [by rewrite !length_cg_rows|]. intros j r r' Hj Hj'. pose proof (lookup_lt_Some _ _ _ Hj) as Hlt. rewrite length_cg_rows in Hlt.
  rewrite cg_rows_lookup in Hj by done. rewrite cg_rows_lookup in Hj' by lia. simplify_eq. by apply H.
Qed.

(** A chunk is replaced by one of the same shape. *)
Lemma replace_chunk l off i c c' : chunks_ok nonempty off l → l !! i = Some c → chunk_ok c' → same_shape c c' →
  cg_numRows c' = cg_numRows c →
  chunks_ok nonempty off (<[i := c']> l) ∧ Forall2 (λ c c', residencyState c' = residencyState c) l (<[i := c']> l).
Proof.
  intros Hl Hi Hc' (S1 & S2 & S3) Hn. revert off i Hl Hi. induction l as [|d l IH]; intros off i Hl Hi; [done|].
  destruct Hl as (Hd & Ho & Hlast & Hm & Hl). destruct i as [|i]; cbn in Hi; [simplify_eq|].
  - cbn. rewrite Hn. split; [|constructor; [done|by apply Forall_Forall2_diag, Forall_true]]. split_and!; [done|congruence| |done|done].
    destruct l; [unfold nonempty in *; lia|]. unfold isFullOrOnDisk in *. by rewrite Hn, S1, S3.
  - destruct (IH _ i Hl Hi) as [H1 H2]. split; [|by constructor]. cbn.
    refine (conj Hd (conj Ho (conj _ (conj _ H1)))).
    + destruct l as [|e l]; [done|]. by destruct i.
    + eapply Forall2_Forall_r; [exact H2|]. eapply Forall_impl; [exact Hm|]. cbn. congruence.
Qed.

Lemma chunk_start P l off i c : chunks_ok P off l → l !! i = Some c → startRowIdx c = off + length (rows_of (take i l)).
Proof.
  revert off i. induction l as [|d l IH]; intros off i Hl Hi; [done|]. destruct Hl as (Hd & Ho & _ & _ & Hl).
  destruct i as [|i]; cbn in Hi; [simplify_eq; cbn; lia|]. rewrite (IH _ _ Hl Hi). cbn [take]. rewrite rows_of_cons, length_app, length_cg_rows. lia.
Qed.

Lemma chunk_member P l off i c : chunks_ok P off l → l !! i = Some c → chunk_ok c.
Proof.
  revert off i. induction l as [|d l IH]; intros off i Hl Hi; [done|]. destruct Hl as (Hd & Ho & _ & _ & Hl).
  destruct i as [|i]; cbn in Hi; [by simplify_eq|by eapply IH].
Qed.

Lemma replace_rows (Q : nat → row → row → Prop) l off i c c' : chunks_ok nonempty off l → l !! i = Some c →
  cg_numRows c' = cg_numRows c → (∀ r, r < cg_numRows c → Q (startRowIdx c - off + r) (cg_row c r) (cg_row c' r)) →
  (∀ j r, ¬ (startRowIdx c - off ≤ j < startRowIdx c - off + cg_numRows c) → Q j r r) →
  pointwise Q (rows_of l) (rows_of (<[i := c']> l)).
Proof.
  intros Hl Hi Hn Hin Hout.
  pose proof (chunk_start _ _ _ _ _ Hl Hi) as Hs.
  rewrite (insert_take_drop l i c') by (by eapply lookup_lt_Some). rewrite <-(take_drop_middle l i c Hi) at 1.
  rewrite !rows_of_app, !rows_of_cons. apply pointwise_app; [|apply pointwise_app].
  - apply pointwise_refl. intros j r Hj. apply Hout. lia.
  - apply pointwise_chunk; [done|]. intros r Hr. replace (length (rows_of (take i l)) + r) with (startRowIdx c - off + r) by lia. by apply Hin.
  - apply pointwise_refl. intros j r Hj. apply Hout. rewrite length_cg_rows. lia.
Qed.

(** The chunk a row is found in holds it. *)
Lemma ng_locate g k r : ng_ok g → ng_rows g !! k = Some r →
  ∃ i c, findChunkedGroupFromRowIdx g k = Some (i, c) ∧ chunkedGroups g !! i = Some c ∧ chunk_ok c ∧
    startRowIdx c ≤ k < startRowIdx c + cg_numRows c ∧ r = cg_row c (k - startRowIdx c) ∧
    (Forall strict (ng_rows g) → Forall strict (cg_rows c)).
Proof.
  intros [Hc Hn] Hk. pose proof (lookup_lt_Some _ _ _ Hk) as Hlt. destruct (find_chunk g k Hc Hlt) as (i & c & E & Hi & Hr).
  exists i, c. unfold findChunkedGroupFromRowIdx. rewrite E. cbn [mbind option_bind]. rewrite Hi. cbn [mbind option_bind].
  split_and!; [done|done|by eapply chunk_member|lia|lia| |].
  2:{ unfold ng_rows. rewrite <-(take_drop_middle _ _ _ Hi), rows_of_app, rows_of_cons, !Forall_app. by intros (_ & ? & _). }
  pose proof (chunk_start _ _ _ _ _ Hc Hi) as Hs. unfold ng_rows in Hk. rewrite <-(take_drop_middle _ _ _ Hi), rows_of_app, rows_of_cons in Hk.
  rewrite lookup_app_r, lookup_app_l in Hk by (rewrite ?length_cg_rows; lia). cbn in Hs. rewrite <-Hs, cg_rows_lookup in Hk by lia. by simplify_eq.
Qed.

Definition deleted_at (tid : Z) (k j : nat) (r r' : row) : Prop := if decide (j = k) then row_deleted tid r r' else row_keep r r'.

Lemma ng_delete_spec g t k r : ng_ok g → Forall strict (ng_rows g) → ID t ≠ INVALID_TRANSACTION → ng_rows g !! k = Some r →
  ∃ g', ng_delete_ g t k = Some (g', delete_result (r_del r) (ID t)) ∧ ng_ok g' ∧ same_group g g' ∧ numRows g' = numRows g ∧
    pointwise (deleted_at (ID t) k) (ng_rows g) (ng_rows g').
Proof.
  intros Hg Hst Ht Hk. destruct (ng_locate g k r Hg Hk) as (i & c & E & Hi & Hc & Hr & -> & Hstc). destruct Hg as [Hck Hn].
  destruct (cg_delete_spec c t (k - startRowIdx c) Hc (Hstc Hst) Ht) as (c' & E' & Hc' & Hsh & Hn' & Hdel & Hkeep); [lia|].
  unfold ng_delete_. rewrite E. cbn [mbind option_bind]. rewrite E'. cbn [mbind option_bind]. eexists. split; [done|].
  assert (pointwise (deleted_at (ID t) k) (ng_rows g) (rows_of (<[i := c']> (chunkedGroups g)))) as Hp.
  { apply (replace_rows _ _ 0 i c c'); [done..| |].
    - intros j Hj. unfold deleted_at. destruct (decide (startRowIdx c - 0 + j = k)) as [Hjk|Hjk].
      + replace j with (k - startRowIdx c) by lia. done.
      + apply Hkeep. lia.
    - intros j r Hj. unfold deleted_at. rewrite decide_False by lia. done. }
  split_and!; [split|done|done|exact Hp]; [by apply (replace_chunk _ _ _ c)|]. cbn. rewrite Hn. symmetry. apply Hp.
Qed.

Lemma ng_isDeleted_spec g t k r : ng_ok g → snapshot_ok (startTS t) (ID t) → ng_rows g !! k = Some r →
  ng_isDeleted g t k = Some (version_seen (startTS t) (ID t) (r_del r)).
Proof.
  intros Hg Hs Hk. destruct (ng_locate g k r Hg Hk) as (i & c & E & Hi & Hc & Hr & -> & _). unfold ng_isDeleted. rewrite E. cbn [mbind option_bind].
  apply cg_visible; [done..|lia].
Qed.

(** What a transaction sees of a row. *)
Definition sees (t : Transaction) (r : row) : bool := row_visible (startTS t) (ID t) (r_ins r, r_del r).

Lemma ng_isVisible_spec g t k r : ng_ok g → snapshot_ok (startTS t) (ID t) → ng_rows g !! k = Some r → ng_isVisible g t k = Some (sees t r).
Proof.
  intros Hg Hs Hk. destruct (ng_locate g k r Hg Hk) as (i & c & E & Hi & Hc & Hr & -> & _). unfold ng_isVisible. rewrite E.
  destruct (cg_visible c t (k - startRowIdx c) Hc Hs) as [-> ->]; [lia|]. cbn [mbind option_bind]. unfold sees, row_visible. cbn [fst snd].
  destruct (version_seen _ _ (r_del _)); [by rewrite andb_false_r|by rewrite andb_true_r].
Qed.

(** ** Version records on a group *)

Lemma chunks_ok_app P off l1 l2 : chunks_ok P off (l1 ++ l2) → chunks_ok P (off + length (rows_of l1)) l2.
Proof.
  revert off. induction l1 as [|c l1 IH]; intros off; [by rewrite Nat.add_0_r|]. intros (_ & _ & _ & _ & H). apply IH in H.
  by rewrite rows_of_cons, length_app, length_cg_rows, Nat.add_assoc.
Qed.

Lemma chunks_ok_recombine (P : ChunkedNodeGroup → Prop) off l1 l2 l2' : chunks_ok P off (l1 ++ l2) → chunks_ok P (off + length (rows_of l1)) l2' →
  Forall2 (λ c c', residencyState c' = residencyState c) l2 l2' → l2 ≠ [] → chunks_ok P off (l1 ++ l2').
Proof.
  intros Hl Hl2 Hres Hne. revert off Hl Hl2. induction l1 as [|c l1 IH]; intros off Hl Hl2; [by rewrite Nat.add_0_r in Hl2|].
  destruct Hl as (Hc & Ho & Hlast & Hm & Hl). rewrite rows_of_cons, length_app, length_cg_rows, Nat.add_assoc in Hl2.
  refine (conj Hc (conj Ho (conj _ (conj _ (IH _ Hl Hl2))))).
  - destruct l1 as [|d l1]; [|exact Hlast]. cbn in *. by destruct Hres.
  - apply Forall_app in Hm as [Hm1 Hm2]. apply Forall_app. split; [done|]. eapply Forall2_Forall_r; [exact Hres|].
    eapply Forall_impl; [exact Hm2|]. cbn. congruence.
Qed.

Section ApplyFunc.
Context (func : version_op) (ts : Z) (P : row → Prop) (R : row → row → Prop) (S : row → Prop).
Context (HR : ∀ r, R r r).
Context (Hfunc : ∀ c s n, chunk_ok c → s + n ≤ cg_numRows c → 0 < n → (∀ r, s ≤ r < s + n → P (cg_row c r)) →
  ∃ c', func c s n ts = Some c' ∧ op_result c c' s n R S).

Definition applied_at (s n j : nat) (r r' : row) : Prop := R r r' ∧ (s ≤ j < s + n → S r').

Lemma apply_groups_spec l off s n : chunks_ok nonempty off l → s + n ≤ length (rows_of l) →
  (0 < n → ∀ c, head l = Some c → s < cg_numRows c) → (∀ k r, s ≤ k < s + n → rows_of l !! k = Some r → P r) →
  ∃ l', apply_groups func l s n ts = Some l' ∧ chunks_ok nonempty off l' ∧
    Forall2 (λ c c', residencyState c' = residencyState c) l l' ∧ pointwise (applied_at s n) (rows_of l) (rows_of l').
Proof.
  revert off s n. induction l as [|c l IH]; intros off s n Hl Hn Hs HP.
  { exists []. cbn in *. split_and!; [done|done|constructor|]. apply pointwise_refl. cbn. lia. }
  rewrite rows_of_cons, length_app, length_cg_rows in Hn. cbn [apply_groups]. destruct (decide (n = 0)) as [->|Hn0].
  { eexists. split_and!; [done|done|by apply Forall_Forall2_diag, Forall_true|]. apply pointwise_refl. intros j r _. split; [apply HR|lia]. }
  destruct Hl as (Hc & Ho & Hlast & Hm & Hl). specialize (Hs ltac:(lia) c eq_refl). set (n1 := n `min` (cg_numRows c - s)).
  destruct (Hfunc c s n1) as (c' & -> & Hc' & (S1 & S2 & S3) & Hn' & Hall & Hrange); [done|lia|lia| |].
  { intros r Hr. apply (HP r); [lia|]. rewrite rows_of_cons, lookup_app_l by (rewrite length_cg_rows; lia). apply cg_rows_lookup. lia. }
  cbn [mbind option_bind]. destruct (IH (off + cg_numRows c) 0 (n - n1)) as (l' & -> & Hl' & Hres & Hp); [done|lia| | |].
  { intros _ d Hd. destruct l as [|d' l0]; [done|]. cbn in Hd. simplify_eq. destruct Hl as (_ & _ & Hd & _). unfold nonempty in Hd. destruct l0; lia. }
  { intros k r Hk Hlk. apply (HP (cg_numRows c + k)); [lia|]. rewrite rows_of_cons, lookup_app_r, length_cg_rows by (rewrite length_cg_rows; lia).
    by replace (cg_numRows c + k - cg_numRows c) with k by lia. }
  cbn [mbind option_bind]. eexists. split; [done|]. split_and!; [|by constructor|].
  - cbn [chunks_ok]. rewrite Hn'. refine (conj Hc' (conj _ (conj _ (conj _ Hl')))); [congruence| |].
    + destruct Hres; [unfold nonempty in *; lia|]. unfold isFullOrOnDisk in *. by rewrite Hn', S1, S3.
    + eapply Forall2_Forall_r; [exact Hres|]. eapply Forall_impl; [exact Hm|]. cbn. congruence.
  - rewrite !rows_of_cons. apply pointwise_app.
    + apply pointwise_chunk; [done|]. intros r Hr. split; [apply Hall|]. intros Hr'. apply Hrange. lia.
    + rewrite length_cg_rows. destruct Hp as [Hp1 Hp2]. split; [done|]. intros j r r' Hj Hj'. destruct (Hp2 j r r' Hj Hj') as [A1 A2].
      split; [done|]. intros Hr. apply A2. lia.
Qed.

Lemma ng_apply_spec g s n : ng_ok g → s + n ≤ numRows g → 0 < n → (∀ k r, s ≤ k < s + n → ng_rows g !! k = Some r → P r) →
  ∃ g', ng_applyFuncToChunkedGroups func g s n ts = Some g' ∧ ng_ok g' ∧ same_group g g' ∧ numRows g' = numRows g ∧
    pointwise (applied_at s n) (ng_rows g) (ng_rows g').
Proof.
  intros [Hc Hr] Hn Hpos HP. unfold ng_applyFuncToChunkedGroups. rewrite decide_True by lia. unfold ng_rows in *.
  destruct (find_chunk g s Hc) as (i & c & -> & Hi & Hs); [lia|]. pose proof (chunk_start _ _ _ _ _ Hc Hi) as Hst. cbn in Hst.
  set (l := chunkedGroups g) in *. assert (l = take i l ++ drop i l) as Hsplit by (by rewrite take_drop).
  pose proof Hc as Hc0. rewrite Hsplit in Hc0. pose proof (chunks_ok_app _ _ _ _ Hc0) as Hd.
  assert (rows_of l = rows_of (take i l) ++ rows_of (drop i l)) as Hrows by (by rewrite <-rows_of_app, <-Hsplit).
  assert (length (rows_of l) = startRowIdx c + length (rows_of (drop i l))) as Hlen by (rewrite Hrows, length_app; lia).
  destruct (apply_groups_spec (drop i l) (0 + length (rows_of (take i l))) (s - startRowIdx c) n) as (l' & -> & Hl' & Hres & Hp); [done|lia| | |].
  { intros _ d Hd'. rewrite (drop_S _ _ _ Hi) in Hd'. cbn in Hd'. simplify_eq. lia. }
  { intros k r Hk Hlk. apply (HP (startRowIdx c + k)); [lia|]. rewrite Hrows, lookup_app_r, <-Hst by lia. by replace (startRowIdx c + k - startRowIdx c) with k by lia. }
  cbn [mbind option_bind]. eexists. split; [done|].
  assert (pointwise (applied_at s n) (rows_of l) (rows_of (take i l ++ l'))) as Hp'.
  { rewrite rows_of_app, Hrows. apply pointwise_app.
    - apply pointwise_refl. intros j r Hj. split; [apply HR|lia].
    - destruct Hp as [Hp1 Hp2]. split; [done|]. intros j r r' Hj Hj'. destruct (Hp2 j r r' Hj Hj') as [A1 A2]. split; [done|]. intros Hjr. apply A2. lia. }
  split_and!; [split|done|done|exact Hp']; cbn.
  - apply (chunks_ok_recombine _ _ _ (drop i l)); [by rewrite <-Hsplit|done|done|]. by rewrite (drop_S _ _ _ Hi).
  - rewrite Hr. symmetry. apply Hp'.
Qed.
End ApplyFunc.

(** ** Rolling back the last rows of a group *)

Lemma removeTrailing_spec {T} (f : T → nat) l1 l2 : Forall (λ g, f g = 0) l2 → (∀ g, last l1 = Some g → f g ≠ 0) →
  removeTrailingGroups (getNumEmptyTrailingGroups f (l1 ++ l2)) (l1 ++ l2) = l1.
Proof.
  intros H2 H1. unfold removeTrailingGroups, getNumEmptyTrailingGroups. rewrite reverse_app.
  rewrite list_find_app_r by (apply list_find_None, Forall_reverse; eapply Forall_impl; [exact H2|cbn; lia]).
  destruct (list_eq_nil_dec l1) as [->|Hne].
  - cbn. by rewrite Nat.sub_diag.
  - destruct (exists_last Hne) as (l & g & ->). rewrite last_snoc in H1. rewrite reverse_snoc. cbn [list_find].
    rewrite decide_True by (by apply H1). cbn. rewrite length_reverse, length_app.
    replace (length (l ++ [g]) + length l2 - length l2) with (length (l ++ [g])) by lia. apply take_app_length.
Qed.

Lemma rollback_rest l off : chunks_ok nonempty off l →
  apply_groups cg_rollbackInsert l 0 (length (rows_of l)) 0 = Some ((λ c, cg_with c 0 None) <$> l).
Proof.
  revert off. induction l as [|c l IH]; intros off Hl; [done|]. destruct Hl as (_ & _ & Hlast & _ & Hl).
  assert (0 < cg_numRows c) as Hc by (destruct l; unfold nonempty in *; lia). rewrite rows_of_cons, length_app, length_cg_rows. cbn [apply_groups].
  rewrite decide_False by lia. replace ((cg_numRows c + _) `min` _) with (cg_numRows c) by lia.
  change (cg_rollbackInsert c 0 (cg_numRows c) 0%Z) with (Some (cg_with c 0 None)). cbn [mbind option_bind].
  replace (cg_numRows c + length (rows_of l) - cg_numRows c) with (length (rows_of l)) by lia. by rewrite (IH _ Hl).
Qed.

Lemma chunks_ok_closed P off l1 c l2 : chunks_ok P off (l1 ++ c :: l2) →
  chunks_ok closed off l1 ∧ startRowIdx c = off + length (rows_of l1) ∧ (∀ d, last l1 = Some d → cg_numRows d ≠ 0).
Proof.
  intros Hl. assert (∃ Q, chunks_ok Q off (l1 ++ [c])) as [Q HQ].
  { exists (λ _, True). revert off Hl. induction l1 as [|d l1 IH]; intros off; [by intros (? & ? & _)|].
    intros (? & ? & Hlast & Hm & Hl). refine (conj _ (conj _ (conj _ (conj _ (IH _ Hl))))); [done..| |].
    - destruct l1; exact Hlast.
    - apply Forall_app in Hm as [? Hm]. apply Forall_cons in Hm as [? _]. apply Forall_app. split; [done|by apply Forall_singleton]. }
  apply chunks_ok_snoc in HQ as (H1 & _ & H2 & _). split_and!; [done..|]. intros d Hd. apply last_Some in Hd as [l ->].
  apply chunks_ok_snoc in H1 as (_ & _ & _ & [? _] & _). lia.
Qed.

(** The chunks that are left when the rows of [c] from [c']'s on and all later ones are gone. *)
Lemma truncated_chunks (R : row → row → Prop) l1 c c' rest : (∀ r, R r r) → chunks_ok nonempty 0 (l1 ++ c :: rest) → chunk_ok c' → same_shape c c' →
  residencyState c = IN_MEMORY → cg_numRows c' ≤ cg_numRows c → (∀ r, r < cg_numRows c' → R (cg_row c r) (cg_row c' r)) →
  let l := l1 ++ c' :: ((λ c, cg_with c 0 None) <$> rest) in
  let l' := removeTrailingGroups (getNumEmptyTrailingGroups cg_numRows l) l in
  chunks_ok nonempty 0 l' ∧ Forall2 R (rows_of l1 ++ take (cg_numRows c') (cg_rows c)) (rows_of l').
Proof.
  intros HR Hl Hc' (S1 & S2 & S3) Hm Hle Hk. cbn zeta. destruct (chunks_ok_closed _ _ _ _ _ Hl) as (Hl1 & Hst & Hlast).
  assert (Forall (λ c, cg_numRows c = 0) ((λ c, cg_with c 0 None) <$> rest)) as Hz by (apply Forall_fmap; by apply Forall_true).
  destruct (decide (cg_numRows c' = 0)) as [H0|H0].
  - rewrite removeTrailing_spec by (done || by constructor). split; [eapply chunks_ok_mono; [|exact Hl1]; by intros ? [? _]|].
    rewrite H0, take_0, app_nil_r. by apply Forall_Forall2_diag, Forall_true.
  - rewrite cons_middle, app_assoc.
    rewrite removeTrailing_spec; [|done|intros g; rewrite last_snoc; by intros [= <-]]. split.
    + apply chunks_ok_snoc. split_and!; [done|done|congruence|unfold nonempty; lia|congruence].
    + rewrite rows_of_app. apply Forall2_app; [by apply Forall_Forall2_diag, Forall_true|]. unfold rows_of. cbn. rewrite app_nil_r. unfold cg_rows.
      rewrite <-fmap_take, take_seq, Nat.min_l by lia. apply Forall2_fmap, Forall_Forall2_diag, Forall_seq. intros r Hr. apply Hk. lia.
Qed.

Lemma ng_rollback_spec g tid s n : ng_ok g → versioned tid → s + n = numRows g → 0 < n →
  (∀ k r, s ≤ k → ng_rows g !! k = Some r → own_row tid r) →
  (∀ k r, ng_rows g !! k = Some r → own_row tid r → r_del r = INVALID_TRANSACTION) →
  ∃ g1, ng_applyFuncToChunkedGroups cg_rollbackInsert g s n 0 = Some g1 ∧ same_group g g1 ∧ numRows g1 = numRows g ∧
    ng_ok (ng_rollbackInsert g1 s) ∧ Forall2 (row_upd_ins tid INVALID_TRANSACTION) (take s (ng_rows g)) (ng_rows (ng_rollbackInsert g1 s)).
Proof.
  intros [Hc Hr] Ht Hn Hpos Hown Hdel. unfold ng_applyFuncToChunkedGroups. rewrite decide_True by lia. unfold ng_rows in *.
  destruct (find_chunk g s Hc) as (i & c & -> & Hi & Hs); [lia|]. pose proof (chunk_start _ _ _ _ _ Hc Hi) as Hst. cbn in Hst.
  set (l := chunkedGroups g) in *. pose proof (chunk_member _ _ _ _ _ Hc Hi) as Hck. set (rest := drop (S i) l).
  assert (l = take i l ++ c :: rest) as Hsplit by (symmetry; by apply take_drop_middle).
  assert (rows_of l = rows_of (take i l) ++ cg_rows c ++ rows_of rest) as Hrows by (rewrite Hsplit at 1; by rewrite rows_of_app, rows_of_cons).
  assert (length (rows_of l) = startRowIdx c + cg_numRows c + length (rows_of rest)) as Hlen
    by (rewrite Hrows, !length_app, length_cg_rows; lia).
  assert (∀ r, r < cg_numRows c → rows_of l !! (startRowIdx c + r) = Some (cg_row c r)) as Hlk.
  { intros r Hlt. rewrite Hrows, lookup_app_r, lookup_app_l by (rewrite ?length_cg_rows; lia).
    replace (startRowIdx c + r - _) with r by lia. by apply cg_rows_lookup. }
  pose proof Hc as Hc0. rewrite Hsplit in Hc0. pose proof (chunks_ok_app _ _ _ _ Hc0) as Hd. rewrite (drop_S _ _ _ Hi). fold rest.
  assert (residencyState c = IN_MEMORY) as Hm.
  { destruct (residencyState c) eqn:E; [done|]. pose proof (ck_disk c Hck E (s - startRowIdx c)) as Hz.
    destruct (Hown (startRowIdx c + (s - startRowIdx c)) (cg_row c (s - startRowIdx c)) ltac:(lia) (Hlk (s - startRowIdx c) ltac:(lia))) as [Hx|Hx]; cbn in Hx; rewrite Hz in Hx; [by destruct Ht as [? _]|done]. }
  destruct (cg_rollbackInsert_spec c tid 0 (s - startRowIdx c) (cg_numRows c - (s - startRowIdx c))) as (c' & E & Hc' & (S1 & S2 & S3) & Hn' & Hk).
  { done. } { done. } { done. } { lia. } { lia. }
  { intros r Hrr. apply (Hown (startRowIdx c + r)); [lia|apply Hlk; lia]. }
  { intros r Hrr. apply (Hdel (startRowIdx c + r)). by apply Hlk. }
  cbn [apply_groups]. rewrite decide_False by lia. replace (n `min` _) with (cg_numRows c - (s - startRowIdx c)) by lia. rewrite E. cbn [mbind option_bind].
  replace (n - _) with (length (rows_of rest)) by lia. destruct Hd as (_ & _ & _ & _ & Hd). rewrite (rollback_rest _ _ Hd). cbn [mbind option_bind].
  rewrite <-Hn' in Hk. destruct (truncated_chunks (row_upd_ins tid INVALID_TRANSACTION) (take i l) c c' rest) as [T1 T2];
    [apply row_upd_ins_refl|by rewrite <-Hsplit|done|by split_and!|done|lia|done|].
  assert (take s (rows_of l) = rows_of (take i l) ++ take (cg_numRows c') (cg_rows c)) as Htake.
  { rewrite Hrows, take_app_ge, take_app_le by (rewrite ?length_cg_rows; lia). do 2 f_equal. lia. }
  eexists. split_and!; [done..|split|]; [exact T1| |].
  - etrans; [|exact (Forall2_length _ _ _ T2)]. rewrite <-Htake, length_take. cbn [ng_rollbackInsert ng_with numRows]. lia.
  - rewrite Htake. exact T2.
Qed.

(** ** The rows of a table *)

(** Lists of which all but the last have [N] elements. *)
Definition uniform {A} (N : nat) (ls : list (list A)) : Prop :=
  ∀ i l, ls !! i = Some l → length l ≤ N ∧ (S i < length ls → length l = N).

Lemma uniform_cons {A} N (l : list A) ls : uniform N (l :: ls) → length l ≤ N ∧ (ls ≠ [] → length l = N) ∧ uniform N ls.
Proof.
  intros H. destruct (H 0 l eq_refl) as [H1 H2]. split_and!; [done| |].
  - intros Hne. apply H2. destruct ls; [done|]. cbn. lia.
  - intros i l' Hi. destruct (H (S i) l' Hi) as [H3 H4]. split; [done|]. intros Hlt. apply H4. cbn. lia.
Qed.

Lemma join_cons {A} (l : list A) ls : mjoin (l :: ls) = l ++ mjoin ls.
Proof. done. Qed.

Lemma uniform_lookup {A} N (ls : list (list A)) k x : 0 < N → uniform N ls → mjoin ls !! k = Some x →
  ∃ l, ls !! (k / N) = Some l ∧ l !! (k mod N) = Some x.
Proof.
  intros HN. revert k. induction ls as [|l ls IH]; intros k Hu Hk; [done|]. apply uniform_cons in Hu as (H1 & H2 & H3). cbn in Hk.
  destruct (decide (k < length l)) as [Hlt|Hge].
  - rewrite lookup_app_l in Hk by done. exists l. rewrite Nat.div_small, Nat.mod_small by lia. done.
  - rewrite lookup_app_r in Hk by lia. destruct ls as [|l' ls]; [done|]. rewrite H2 in Hk, Hge by done.
    destruct (IH (k - N) H3 Hk) as (m & E1 & E2). exists m. replace k with (k - N + 1 * N) by lia. rewrite Nat.div_add, Nat.Div0.mod_add by lia.
    by rewrite Nat.add_1_r.
Qed.

Lemma uniform_take {A} N (ls : list (list A)) i l : uniform N ls → ls !! i = Some l → length (mjoin (take i ls)) = i * N.
Proof.
  revert i. induction ls as [|m ls IH]; intros i Hu Hi; [done|]. apply uniform_cons in Hu as (H1 & H2 & H3).
  destruct i as [|i]; [done|]. cbn [take]. rewrite join_cons, length_app, (IH i H3 Hi), H2; [done|]. by destruct ls.
Qed.

Definition ngc_rows (n : NodeGroupCollection) : list row := mjoin (ng_rows <$> nodeGroups n).

Record ngc_ok (n : NodeGroupCollection) : Prop := {
  gk_groups : ∀ i g, nodeGroups n !! i = Some g → ng_ok g ∧ nodeGroupIdx g = i ∧ ng_capacity g = NODE_GROUP_SIZE ∧
    numRows g ≤ nextRowToAppend g ≤ NODE_GROUP_SIZE ∧ (S i < length (nodeGroups n) → numRows g = NODE_GROUP_SIZE);
  gk_total : numTotalRows n = length (ngc_rows n);
  gk_disk : residency n = ON_DISK
}.

Lemma group_size_pos : 0 < NODE_GROUP_SIZE.
Proof. apply Nat.ltb_lt. vm_compute. reflexivity. Qed.

Lemma ngc_uniform n : ngc_ok n → uniform NODE_GROUP_SIZE (ng_rows <$> nodeGroups n).
Proof.
  intros Hn i l Hi. apply list_lookup_fmap_Some in Hi as (g & -> & Hg). destruct (gk_groups n Hn i g Hg) as (Hok & _ & _ & Hr & Hf).
  rewrite <-(nk_rows g Hok), length_fmap. split; [lia|done].
Qed.

Lemma ngc_get n i g : ngc_ok n → nodeGroups n !! i = Some g → getNodeGroup n i = Some g ∧ ng_ok g.
Proof.
  intros Hn Hg. destruct (gk_groups n Hn i g Hg) as (Hok & Hi & _). unfold getNodeGroup. rewrite Hg. cbn [mbind option_bind]. by rewrite decide_True.
Qed.

(** The row at an offset of the table. *)
Lemma ngc_locate n k r : ngc_ok n → ngc_rows n !! k = Some r →
  ∃ i row g, getNodeGroupIdxAndOffsetInChunk k = (i, row) ∧ k = i * NODE_GROUP_SIZE + row ∧ nodeGroups n !! i = Some g ∧
    ng_rows g !! row = Some r.
Proof.
  intros Hn Hk. destruct (uniform_lookup _ _ _ _ group_size_pos (ngc_uniform n Hn) Hk) as (l & Hl & Hr).
  apply list_lookup_fmap_Some in Hl as (g & -> & Hg). unfold getNodeGroupIdxAndOffsetInChunk.
  pose proof (Nat.div_mod_eq k NODE_GROUP_SIZE) as Hdiv. exists (k / NODE_GROUP_SIZE), (k mod NODE_GROUP_SIZE), g. split_and!; [f_equal; lia|lia|done..].
Qed.

(** The rows of a group are rows of the table. *)
Lemma ngc_group_row n i g row r : ngc_ok n → nodeGroups n !! i = Some g → ng_rows g !! row = Some r →
  ngc_rows n !! (i * NODE_GROUP_SIZE + row) = Some r.
Proof.
  intros Hn Hg Hr. unfold ngc_rows. rewrite <-(take_drop_middle _ _ _ Hg), fmap_app, fmap_cons, join_app, join_cons.
  rewrite <-(uniform_take NODE_GROUP_SIZE (ng_rows <$> nodeGroups n) i (ng_rows g)) by (by apply ngc_uniform || by rewrite list_lookup_fmap, Hg).
  rewrite <-fmap_take. rewrite lookup_app_r by lia. rewrite lookup_app_l; [|apply lookup_lt_Some in Hr; lia].
  by replace (length _ + row - length _) with row by lia.
Qed.

Lemma ngc_group_strict n i g : nodeGroups n !! i = Some g → Forall strict (ngc_rows n) → Forall strict (ng_rows g).
Proof.
  intros Hg. unfold ngc_rows. rewrite <-(take_drop_middle _ _ _ Hg), fmap_app, fmap_cons, join_app, join_cons, !Forall_app. by intros (_ & ? & _).
Qed.

(** A group is replaced by one with as many rows. *)
Lemma ngc_replace n i g g' (Q Q' : nat → row → row → Prop) : ngc_ok n → nodeGroups n !! i = Some g → ng_ok g' → same_group g g' →
  numRows g' = numRows g → pointwise Q' (ng_rows g) (ng_rows g') →
  (∀ j r r', Q' j r r' → Q (i * NODE_GROUP_SIZE + j) r r') →
  (∀ j r, ¬ (i * NODE_GROUP_SIZE ≤ j < i * NODE_GROUP_SIZE + numRows g) → Q j r r) →
  ngc_ok (ngc_with n (<[i := g']> (nodeGroups n)) (numTotalRows n)) ∧
  pointwise Q (ngc_rows n) (ngc_rows (ngc_with n (<[i := g']> (nodeGroups n)) (numTotalRows n))).
Proof.
  intros Hn Hi Hg' (S1 & S2 & S3) Hrows Hp HQ Hrefl. destruct (gk_groups n Hn i g Hi) as (Hok & Hidx & Hcap & Hr & Hf).
  assert (pointwise Q (ngc_rows n) (ngc_rows (ngc_with n (<[i := g']> (nodeGroups n)) (numTotalRows n)))) as Hpt.
  { unfold ngc_rows. cbn [nodeGroups ngc_with]. rewrite (insert_take_drop _ i g') by (by eapply lookup_lt_Some).
    rewrite <-(take_drop_middle _ _ _ Hi) at 1. rewrite !fmap_app, !fmap_cons, !join_app, !join_cons.
    pose proof (uniform_take NODE_GROUP_SIZE (ng_rows <$> nodeGroups n) i (ng_rows g) (ngc_uniform n Hn)) as Ht.
    rewrite list_lookup_fmap, Hi in Ht. specialize (Ht eq_refl). rewrite <-fmap_take in Ht. pose proof (nk_rows g Hok).
    apply pointwise_app; [|apply pointwise_app].
    - apply pointwise_refl. intros j r Hj. apply Hrefl. lia.
    - destruct Hp as [Hp1 Hp2]. split; [done|]. intros j r r' Hj Hj'. rewrite Ht. by apply HQ, Hp2.
    - apply pointwise_refl. intros j r Hj. apply Hrefl. lia. }
  split; [|done]. split; cbn [nodeGroups ngc_with numTotalRows residency]; [|rewrite (proj1 Hpt); apply Hn|apply Hn].
  intros j h Hj. rewrite length_insert. destruct (decide (i = j)) as [<-|Hne].
  - rewrite list_lookup_insert_eq in Hj by (by eapply lookup_lt_Some). simplify_eq. rewrite S1, S2, S3, Hrows. destruct Hr. by split_and!.
  - rewrite list_lookup_insert_ne in Hj by done. by apply (gk_groups n Hn).
Qed.

Lemma nt_isVisible_spec n t k r : ngc_ok n → snapshot_ok (startTS t) (ID t) → ngc_rows n !! k = Some r → nt_isVisible n t k = Some (sees t r).
Proof.
  intros Hn Hs Hk. destruct (ngc_locate n k r Hn Hk) as (i & row & g & E & -> & Hg & Hr). unfold nt_isVisible. rewrite E.
  destruct (ngc_get n i g Hn Hg) as [-> Hok]. cbn [mbind option_bind]. by apply ng_isVisible_spec.
Qed.

(** The offset of the first row of a record. *)
Definition rec_offset (r : VersionRecord) : nat := rec_nodeGroupIdx r * NODE_GROUP_SIZE + rec_startRow r.

(** A deletion and its record. *)
Definition delete_record (k : nat) (r : VersionRecord) : Prop :=
  recordType r = DELETE_INFO ∧ rec_numRows r = 1 ∧ rec_offset r = k ∧ rec_startRow r < NODE_GROUP_SIZE.

Lemma nt_delete_spec n t k r u : ngc_ok n → Forall strict (ngc_rows n) → shouldAppendToUndoBuffer t = true → ID t ≠ INVALID_TRANSACTION → ngc_rows n !! k = Some r →
  ∃ n' rec, delete_record k rec ∧
    nt_delete_ n t k u = Some (n', match delete_result (r_del r) (ID t) with Ret _ => createVersionInfo u rec | Throw _ => u end,
      delete_result (r_del r) (ID t)) ∧
    ngc_ok n' ∧ pointwise (deleted_at (ID t) k) (ngc_rows n) (ngc_rows n').
Proof.
  intros Hn Hst Ht Hid Hk. destruct (ngc_locate n k r Hn Hk) as (i & row & g & E & -> & Hg & Hr). unfold nt_delete_. rewrite E.
  destruct (ngc_get n i g Hn Hg) as [-> Hok]. cbn [mbind option_bind].
  destruct (ng_delete_spec g t row r Hok (ngc_group_strict n i g Hg Hst) Hid Hr) as (g' & -> & Hok' & Hsame & Hrows & Hp). cbn [mbind option_bind].
  destruct (ngc_replace n i g g' (deleted_at (ID t) (i * NODE_GROUP_SIZE + row)) (deleted_at (ID t) row)) as [H1 H2]; [done..| | |].
  { intros j r1 r2. unfold deleted_at. by destruct (decide (j = row)), (decide (_ = _)); subst; [|lia|lia|]. }
  { intros j r1 Hj. unfold deleted_at. rewrite decide_False; [done|]. intros ->. pose proof (nk_rows g Hok). apply lookup_lt_Some in Hr. lia. }
  destruct (gk_groups n Hn i g Hg) as (_ & _ & _ & Hlim & _). pose proof (nk_rows g Hok). pose proof (lookup_lt_Some _ _ _ Hr).
  eexists _, (mkRecord DELETE_INFO row 1 i). split; [split_and!; [done|done|done|cbn; lia]|]. rewrite Ht.
  destruct (delete_result (r_del r) (ID t)); done.
Qed.

(** The group of a record's rows. *)
Lemma record_group n i s m : ngc_ok n → s + m ≤ NODE_GROUP_SIZE → i * NODE_GROUP_SIZE + s + m ≤ length (ngc_rows n) → 0 < m →
  ∃ g, nodeGroups n !! i = Some g ∧ s + m ≤ numRows g.
Proof.
  intros Hn Hsm Hlen Hm. destruct (lookup_lt_is_Some_2 (ngc_rows n) (i * NODE_GROUP_SIZE + s + m - 1)) as [r Hr]; [lia|].
  destruct (ngc_locate n _ r Hn Hr) as (i' & row & g & _ & Hk & Hg & Hrow). destruct (gk_groups n Hn i' g Hg) as (Hok & _ & _ & Hlim & _).
  pose proof (nk_rows g Hok) as Hrows. pose proof (lookup_lt_Some _ _ _ Hrow) as Hlt.
  assert (∀ a b, a < b → a * NODE_GROUP_SIZE + NODE_GROUP_SIZE ≤ b * NODE_GROUP_SIZE) as Hmul.
  { intros a b Hab. transitivity ((a + 1) * NODE_GROUP_SIZE); [lia|]. apply Nat.mul_le_mono_r. lia. }
  assert (i' = i) as ->.
  { destruct (decide (i' < i)) as [H|H]; [specialize (Hmul _ _ H); lia|]. destruct (decide (i < i')) as [H'|H']; [specialize (Hmul _ _ H'); lia|lia]. }
  exists g. split; [done|lia].
Qed.

Section TableFunc.
Context (func : version_op) (ts : Z) (P : row → Prop) (R : row → row → Prop) (S : row → Prop).
Context (HR : ∀ r, R r r).
Context (Hfunc : ∀ c s n, chunk_ok c → s + n ≤ cg_numRows c → 0 < n → (∀ r, s ≤ r < s + n → P (cg_row c r)) →
  ∃ c', func c s n ts = Some c' ∧ op_result c c' s n R S).

Lemma nt_apply_spec n i s m : ngc_ok n → s + m ≤ NODE_GROUP_SIZE → i * NODE_GROUP_SIZE + s + m ≤ length (ngc_rows n) → 0 < m →
  (∀ k r, i * NODE_GROUP_SIZE + s ≤ k < i * NODE_GROUP_SIZE + s + m → ngc_rows n !! k = Some r → P r) →
  ∃ n', nt_applyFuncToChunkedGroups func n i s m ts = Some n' ∧ ngc_ok n' ∧
    pointwise (applied_at R S (i * NODE_GROUP_SIZE + s) m) (ngc_rows n) (ngc_rows n').
Proof.
  intros Hn Hsm Hlen Hm HP.
  destruct (record_group n i s m Hn Hsm Hlen Hm) as (g & Hg & Hrows). destruct (ngc_get n i g Hn Hg) as [Hget Hok].
  destruct (ng_apply_spec func ts P R S HR Hfunc g s m Hok) as (g' & E & Hok' & Hsame & Hrows' & Hp); [done|done| |].
  { intros k r' Hk' Hlk. apply (HP (i * NODE_GROUP_SIZE + k)); [lia|]. by eapply ngc_group_row. }
  unfold nt_applyFuncToChunkedGroups. rewrite Hget. cbn [mbind option_bind]. rewrite E. cbn [mbind option_bind].
  eexists. split; [done|]. apply (ngc_replace n i g g' _ (applied_at R S s m)); [done..| |].
  - intros j r1 r2 [H1 H2]. split; [done|]. intros Hj. apply H2. lia.
  - intros j r1 Hj. split; [apply HR|lia].
Qed.
End TableFunc.

(** ** Rolling back the last rows of a table *)

(** The rows before, of and after a group. *)
Lemma ngc_rows_split n i g : ngc_ok n → nodeGroups n !! i = Some g →
  ∃ before after, ngc_rows n = before ++ ng_rows g ++ after ∧ length before = i * NODE_GROUP_SIZE ∧
    before = mjoin (ng_rows <$> take i (nodeGroups n)) ∧ after = mjoin (ng_rows <$> drop (S i) (nodeGroups n)).
Proof.
  intros Hn Hg. eexists _, _. split_and!; [|shelve|reflexivity..]. Unshelve.
  - unfold ngc_rows. rewrite <-(take_drop_middle _ _ _ Hg) at 1. by rewrite fmap_app, fmap_cons, join_app, join_cons.
  - pose proof (uniform_take NODE_GROUP_SIZE (ng_rows <$> nodeGroups n) i (ng_rows g) (ngc_uniform n Hn)) as Ht.
    rewrite list_lookup_fmap, Hg in Ht. rewrite fmap_take. by apply Ht.
Qed.

(** The groups that are left when a group is cut off at [s] rows and the later ones are empty. *)
Lemma truncated_groups n i g g' total : ngc_ok n → nodeGroups n !! i = Some g → ng_ok g' → same_group g g' →
  numRows g' ≤ numRows g → mjoin (ng_rows <$> drop (S i) (nodeGroups n)) = [] →
  total = i * NODE_GROUP_SIZE + numRows g' →
  let groups := <[i := g']> (nodeGroups n) in
  let n' := ngc_with n (removeTrailingGroups (getNumEmptyTrailingGroups numRows groups) groups) total in
  ngc_ok n' ∧ ngc_rows n' = mjoin (ng_rows <$> take i (nodeGroups n)) ++ ng_rows g'.
Proof.
  intros Hn Hi Hg' (S1 & S2 & S3) Hle Hafter Htotal. cbn zeta. rewrite (insert_take_drop _ i g') by (by eapply lookup_lt_Some).
  destruct (gk_groups n Hn i g Hi) as (Hok & Hidx & Hcap & Hlim & _). pose proof (lookup_lt_Some _ _ _ Hi) as Hlen.
  destruct (ngc_rows_split n i g Hn Hi) as (before & after & _ & Hb & -> & _).
  assert (Forall (λ g, numRows g = 0) (drop (S i) (nodeGroups n))) as Hz.
  { apply Forall_lookup_2. intros j h Hj. rewrite lookup_drop in Hj. destruct (gk_groups n Hn _ h Hj) as (Hh & _).
    rewrite (nk_rows h Hh). rewrite <-lookup_drop in Hj. apply length_zero_iff_nil. rewrite <-(take_drop_middle _ _ _ Hj), fmap_app, fmap_cons, join_app, join_cons in Hafter.
    by apply app_nil in Hafter as [_ [-> _]%app_nil]. }
  assert (∀ j h, take i (nodeGroups n) !! j = Some h → nodeGroups n !! j = Some h ∧ j < i) as Htake.
  { intros j h Hj. pose proof (lookup_lt_Some _ _ _ Hj) as Hlt. rewrite length_take in Hlt. rewrite lookup_take_lt in Hj by lia. split; [done|lia]. }
  assert (∀ h, last (take i (nodeGroups n)) = Some h → numRows h ≠ 0) as Hlast.
  { intros h Hh. rewrite last_lookup in Hh. apply Htake in Hh as [Hh Hlt]. destruct (gk_groups n Hn _ h Hh) as (_ & _ & _ & _ & Hf).
    rewrite Hf by lia. pose proof group_size_pos. lia. }
  pose proof (nk_rows g' Hg') as Hrows'.
  assert (∀ groups, groups = take i (nodeGroups n) ∧ numRows g' = 0 ∨ groups = take i (nodeGroups n) ++ [g'] →
    ngc_ok (ngc_with n groups total) ∧ ngc_rows (ngc_with n groups total) = mjoin (ng_rows <$> take i (nodeGroups n)) ++ ng_rows g') as Hfin.
  { intros groups Hgr.
    assert (mjoin (ng_rows <$> groups) = mjoin (ng_rows <$> take i (nodeGroups n)) ++ ng_rows g') as Hr.
    { destruct Hgr as [[-> H0]| ->]; [|by rewrite fmap_app, join_app; cbn; rewrite app_nil_r].
      rewrite H0 in Hrows'. symmetry in Hrows'. apply length_zero_iff_nil in Hrows' as ->. by rewrite app_nil_r. }
    split; [|exact Hr]. split; cbn [ngc_with nodeGroups numTotalRows residency]; [|unfold ngc_rows; cbn [ngc_with nodeGroups]; rewrite Hr, length_app; lia|apply Hn].
    intros j h Hj. assert ((take i (nodeGroups n) !! j = Some h) ∨ (j = i ∧ h = g' ∧ length groups = S i)) as [Hj'|(-> & -> & Hlg)].
    { destruct Hgr as [[-> _]| ->]; [by left|]. apply lookup_app_Some in Hj as [?|[Hge Hj]]; [by left|right].
      rewrite length_take, Nat.min_l in Hge, Hj by lia. apply list_lookup_singleton_Some in Hj as [? <-].
      rewrite length_app, length_take, Nat.min_l by lia. cbn. split_and!; [lia|done|lia]. }
    - apply Htake in Hj' as [Hj' Hlt]. destruct (gk_groups n Hn j h Hj') as (A1 & A2 & A3 & A4 & A5). split_and!; [done..|lia|lia|]. intros _. apply A5. lia.
    - rewrite S1, S2, S3. split_and!; [done..|lia|lia|]. lia. }
  destruct (decide (numRows g' = 0)) as [H0|H0].
  - rewrite removeTrailing_spec by (done || by constructor). apply Hfin. by left.
  - rewrite cons_middle, app_assoc, removeTrailing_spec; [|done|intros h; rewrite last_snoc; by intros [= <-]]. apply Hfin. by right.
Qed.

Lemma nt_rollbackInsert_spec n tid i s m : ngc_ok n → versioned tid → 0 < m → s + m ≤ NODE_GROUP_SIZE →
  i * NODE_GROUP_SIZE + s + m = length (ngc_rows n) →
  (∀ k r, i * NODE_GROUP_SIZE + s ≤ k → ngc_rows n !! k = Some r → own_row tid r) →
  (∀ k r, ngc_rows n !! k = Some r → own_row tid r → r_del r = INVALID_TRANSACTION) →
  ∃ n', nt_rollbackInsert n i s m = Some n' ∧ ngc_ok n' ∧
    Forall2 (row_upd_ins tid INVALID_TRANSACTION) (take (i * NODE_GROUP_SIZE + s) (ngc_rows n)) (ngc_rows n').
Proof.
  intros Hn Ht Hm Hsm Hlen Hown Hdel. destruct (record_group n i s m Hn Hsm) as (g & Hg & Hrows); [lia|done|].
  destruct (ngc_get n i g Hn Hg) as [Hget Hok]. destruct (ngc_rows_split n i g Hn Hg) as (before & after & Hsplit & Hb & Hbe & Haf).
  pose proof (nk_rows g Hok) as Hnr. assert (numRows g = s + m ∧ after = []) as [Hnum ->].
  { rewrite Hsplit, !length_app in Hlen. assert (length after = 0) as H0%length_zero_iff_nil by lia. split; [lia|done]. }
  assert (∀ k r, ng_rows g !! k = Some r → ngc_rows n !! (i * NODE_GROUP_SIZE + k) = Some r) as Hlk by (intros k r; by apply ngc_group_row).
  destruct (ng_rollback_spec g tid s m Hok Ht) as (g1 & E & Hsame & Hnum1 & Hok' & Hkeep); [done|done| | |].
  { intros k r Hk Hkr. apply (Hown (i * NODE_GROUP_SIZE + k)); [lia|by apply Hlk]. }
  { intros k r Hkr. apply (Hdel (i * NODE_GROUP_SIZE + k)). by apply Hlk. }
  unfold nt_rollbackInsert. pose proof (lookup_lt_Some _ _ _ Hg) as Hi. rewrite decide_True by done.
  unfold nt_applyFuncToChunkedGroups. rewrite Hget. cbn [mbind option_bind]. rewrite E. cbn [mbind option_bind].
  unfold getNodeGroup. cbn [nodeGroups ngc_with]. rewrite list_lookup_insert_eq by done. cbn [mbind option_bind].
  destruct (gk_groups n Hn i g Hg) as (_ & Hidx & _). rewrite decide_True by (destruct Hsame as [-> _]; done). cbn [mbind option_bind].
  rewrite Hnum1, Hnum. replace (m `min` _) with m by lia. unfold ngc_rollbackInsert. cbn [nodeGroups ngc_with numTotalRows].
  rewrite decide_True by (rewrite (gk_total n Hn); lia). eexists. split; [done|]. rewrite list_insert_insert_eq.
  destruct (truncated_groups n i g (ng_rollbackInsert g1 s) (numTotalRows n - m)) as [T1 T2]; [done|done|done|done|cbn; lia|by symmetry| |].
  { cbn [ng_rollbackInsert ng_with numRows]. rewrite (gk_total n Hn). lia. }
  split; [exact T1|].
  assert (Forall2 (row_upd_ins tid INVALID_TRANSACTION) (take (i * NODE_GROUP_SIZE + s) (ngc_rows n)) (before ++ ng_rows (ng_rollbackInsert g1 s))) as HF.
  { rewrite Hsplit, app_nil_r, take_app_ge by lia. rewrite Hb. replace (_ + s - _) with s by lia.
    apply Forall2_app; [apply Forall_Forall2_diag, Forall_true, row_upd_ins_refl|exact Hkeep]. }
  rewrite Hbe, <-T2 in HF. exact HF.
Qed.

(** ** The undo buffer is a list *)

Lemma createVersionInfo_iterate u r : iterate (createVersionInfo u r) = iterate u ++ [r].
Proof.
  assert (∀ u b, iterate (u ++ [b]) = iterate u ++ records b) as Hsnoc
    by (intros u' b; unfold iterate; rewrite bind_app; cbn; by rewrite app_nil_r).
  unfold createVersionInfo. set (u1 := match last u with Some _ => _ | None => _ end).
  assert (iterate u1 = iterate u ∧ u1 ≠ []) as [Hi Hne].
  { unfold u1. destruct (last u) as [b|] eqn:E; [apply last_Some in E as [l ->]|apply last_None in E as ->; done].
    destruct (canFit b VERSION_RECORD_SIZE); (split; [|by destruct l]); [done|]. rewrite Hsnoc. cbn. by rewrite app_nil_r. }
  destruct (exists_last Hne) as (l & b & E). rewrite E in *. rewrite reverse_snoc, reverse_cons, reverse_involutive.
  rewrite Hsnoc in *. cbn. by rewrite app_assoc, Hi.
Qed.

Lemma reverseIterate_spec u : reverseIterate u = reverse (iterate u).
Proof.
  unfold reverseIterate, iterate. induction u as [|b u IH]; [done|]. rewrite reverse_cons, bind_app, IH.
  change ((b :: u) ≫= records) with (records b ++ (u ≫= records)). rewrite reverse_app. f_equal. cbn. by rewrite app_nil_r.
Qed.

(** Records of insertions one after the other, from row [start] to row [stop] of the table. *)
Fixpoint insert_records (start : nat) (recs : list VersionRecord) (stop : nat) : Prop :=
  match recs with
  | [] => start = stop
  | r :: recs =>
      recordType r = INSERT_INFO ∧ 0 < rec_numRows r ∧ rec_offset r = start ∧
      rec_startRow r + rec_numRows r ≤ NODE_GROUP_SIZE ∧ insert_records (start + rec_numRows r) recs stop
  end.

Lemma insert_records_app a recs1 b recs2 c : insert_records a recs1 b → insert_records b recs2 c → insert_records a (recs1 ++ recs2) c.
Proof.
  revert a. induction recs1 as [|r recs1 IH]; intros a; [by intros ->|]. intros (? & ? & ? & ? & ?) ?. cbn. split_and!; [done..|]. by apply IH.
Qed.

(** ** Appending to a table *)

(** No row of the last group is reserved for an append that was rolled back. *)
Definition appendable (n : NodeGroupCollection) : Prop := ∀ g, last (nodeGroups n) = Some g → nextRowToAppend g = numRows g.

(** The collection after its last group was replaced by a longer one, or a group was added. *)
Lemma ngc_snoc n l g g' tid k total : ngc_ok (ngc_with n (l ++ [g]) total) → ng_ok g' → nodeGroupIdx g' = nodeGroupIdx g →
  ng_capacity g' = ng_capacity g → numRows g' ≤ nextRowToAppend g' ≤ NODE_GROUP_SIZE → rows_appended tid k (ng_rows g) (ng_rows g') →
  ngc_ok (ngc_with n (l ++ [g']) (total + k)) ∧
  rows_appended tid k (ngc_rows (ngc_with n (l ++ [g]) total)) (ngc_rows (ngc_with n (l ++ [g']) (total + k))).
Proof.
  intros Hn Hg' Hidx Hcap Hlim Happ.
  assert (rows_appended tid k (ngc_rows (ngc_with n (l ++ [g]) total)) (ngc_rows (ngc_with n (l ++ [g']) (total + k)))) as Hrows.
  { unfold ngc_rows. cbn [nodeGroups ngc_with]. rewrite !fmap_app, !join_app. apply rows_appended_app_l. cbn. by rewrite !app_nil_r. }
  split; [|done]. split; cbn [nodeGroups ngc_with numTotalRows residency]; [| |apply (gk_disk _ Hn)].
  - intros i h Hh. rewrite length_app. cbn [length]. apply lookup_app_Some in Hh as [Hh|[Hge Hh]].
    + pose proof (lookup_lt_Some _ _ _ Hh). destruct (gk_groups _ Hn i h) as (A1 & A2 & A3 & A4 & A5); [cbn; by apply lookup_app_l_Some|].
      cbn in A5. rewrite length_app in A5. cbn in A5. by split_and!; try apply A4.
    + apply list_lookup_singleton_Some in Hh as [Hi <-]. assert (i = length l) as -> by lia.
      destruct (gk_groups _ Hn (length l) g) as (_ & A2 & A3 & _); [cbn; by apply list_lookup_middle|].
      split_and!; [done|congruence|congruence|lia|lia|lia].
  - rewrite (rows_appended_length _ _ _ _ Hrows). f_equal. apply (gk_total _ Hn).
Qed.

Lemma new_group_ok i : ng_ok (newNodeGroup i).
Proof. by split. Qed.

(** The last group when a row is to be appended. *)
Lemma prepare_group n : ngc_ok n →
  ∃ l g, match last (nodeGroups n) with
    | Some g => if isFull g then nodeGroups n ++ [newNodeGroup (length (nodeGroups n))] else nodeGroups n
    | None => nodeGroups n ++ [newNodeGroup (length (nodeGroups n))]
    end = l ++ [g] ∧ ngc_ok (ngc_with n (l ++ [g]) (numTotalRows n)) ∧
    ngc_rows (ngc_with n (l ++ [g]) (numTotalRows n)) = ngc_rows n ∧ numRows g < NODE_GROUP_SIZE ∧
    (appendable n → nextRowToAppend g = numRows g) ∧ (isFull g = false).
Proof.
  intros Hn. pose proof group_size_pos as Hpos.
  assert ((∀ g, last (nodeGroups n) = Some g → numRows g = NODE_GROUP_SIZE) →
    let groups := nodeGroups n ++ [newNodeGroup (length (nodeGroups n))] in
    ngc_ok (ngc_with n groups (numTotalRows n)) ∧ ngc_rows (ngc_with n groups (numTotalRows n)) = ngc_rows n) as Hnew.
  { intros Hlast. cbn zeta. assert (ngc_rows (ngc_with n (nodeGroups n ++ [newNodeGroup (length (nodeGroups n))]) (numTotalRows n)) = ngc_rows n) as Hr.
    { unfold ngc_rows. cbn [nodeGroups ngc_with]. rewrite fmap_app, join_app. cbn. by rewrite !app_nil_r. }
    split; [|done]. split; cbn [nodeGroups ngc_with numTotalRows residency]; [|rewrite Hr; apply Hn|apply Hn].
    intros i h Hh. rewrite length_app. cbn [length]. apply lookup_app_Some in Hh as [Hh|[Hge Hh]].
    - destruct (gk_groups n Hn i h Hh) as (A1 & A2 & A3 & A4 & A5). split_and!; [done..|lia|lia|]. intros Hi. pose proof (lookup_lt_Some _ _ _ Hh).
      destruct (decide (S i < length (nodeGroups n))); [by apply A5|]. apply Hlast. rewrite last_lookup. by replace (pred _) with i by lia.
    - apply list_lookup_singleton_Some in Hh as [Hi <-]. split_and!; [apply new_group_ok|cbn; lia|done|cbn; lia|cbn; lia|lia]. }
  destruct (last (nodeGroups n)) as [g|] eqn:E.
  - assert (∃ i, nodeGroups n !! i = Some g) as [i Hi] by (rewrite last_lookup in E; by eexists). destruct (gk_groups n Hn i g Hi) as (_ & _ & Hcap & Hlim & _).
    destruct (isFull g) eqn:Ef.
    + apply bool_decide_eq_true in Ef. destruct Hnew as [H1 H2]; [intros ? [= <-]; lia|]. eexists _, _. split_and!; [done|done|done|done|done|].
      apply bool_decide_eq_false. cbn. lia.
    + pose proof E as El. apply last_Some in E as [l El']. exists l, g. rewrite <-El'. split_and!; [done| | | | |done].
      * destruct n; exact Hn.
      * done.
      * apply bool_decide_eq_false in Ef. lia.
      * intros Ha. by apply Ha.
  - destruct Hnew as [H1 H2]; [done|]. eexists _, _. split_and!; [done|done|done|done|done|]. apply bool_decide_eq_false. cbn. lia.
Qed.

(** What an append of rows to a table does. *)
Definition table_appended (tid : Z) (k : nat) (n : NodeGroupCollection) (u : UndoBuffer) (n' : NodeGroupCollection) (u' : UndoBuffer) : Prop :=
  ngc_ok n' ∧ rows_appended tid k (ngc_rows n) (ngc_rows n') ∧
  ∃ recs, iterate u' = iterate u ++ recs ∧ insert_records (length (ngc_rows n)) recs (length (ngc_rows n) + k).

Lemma table_appended_refl tid n u : ngc_ok n → table_appended tid 0 n u n u.
Proof.
  intros Hn. split_and!; [done|apply rows_appended_refl|]. exists []. rewrite app_nil_r. split; [done|cbn; lia].
Qed.

Lemma table_appended_trans tid k m n1 u1 n2 u2 n3 u3 : table_appended tid k n1 u1 n2 u2 → table_appended tid m n2 u2 n3 u3 →
  table_appended tid (k + m) n1 u1 n3 u3.
Proof.
  intros (A1 & A2 & r1 & A3 & A4) (B1 & B2 & r2 & B3 & B4). split_and!; [done|by eapply rows_appended_trans|].
  exists (r1 ++ r2). rewrite B3, A3, app_assoc. split; [done|]. rewrite (rows_appended_length _ _ _ _ A2) in B4. rewrite Nat.add_assoc. by eapply insert_records_app.
Qed.

(** One round of the loop, when the last group has room. *)
Lemma append_round n t k u l g : ngc_ok (ngc_with n (l ++ [g]) (numTotalRows n)) → Forall strict (ngc_rows n) →
  ngc_rows (ngc_with n (l ++ [g]) (numTotalRows n)) = ngc_rows n → shouldAppendToUndoBuffer t = true → versioned (ID t) →
  0 < k ≤ getNumRowsLeftToAppend g →
  ∃ g', ng_append (moveNextRowToAppend g k) t k = Some g' ∧
    table_appended (ID t) k n u (ngc_with n (l ++ [g']) (numTotalRows n + k)) (pushInsertInfo n t g k u) ∧
    numRows g' = numRows g + k ∧ nextRowToAppend g' = nextRowToAppend g + k.
Proof.
  intros Hn Hst Hrows Ht Hid Hk. destruct (gk_groups _ Hn (length l) g) as (Hok & Hidx & Hcap & Hlim & _); [cbn; by apply list_lookup_middle|].
  assert (Forall strict (ng_rows g)) as Hstg.
  { rewrite <-Hrows in Hst. by apply (ngc_group_strict (ngc_with n (l ++ [g]) (numTotalRows n)) (length l)); [apply list_lookup_middle|]. }
  unfold getNumRowsLeftToAppend in Hk.
  destruct (ng_append_spec (moveNextRowToAppend g k) t k) as (g' & E & Hok' & (S1 & S2 & S3) & Happ); [by destruct Hok|done|done|done|lia|].
  cbn in S1, S2, S3. change (ng_rows (moveNextRowToAppend g k)) with (ng_rows g) in Happ.
  pose proof (rows_appended_length _ _ _ _ Happ) as Hlen. pose proof (nk_rows g Hok). pose proof (nk_rows g' Hok').
  destruct (ngc_snoc n l g g' (ID t) k (numTotalRows n) Hn Hok') as [H1 H2]; [done|done|lia|done|]. rewrite Hrows in H2.
  exists g'. split_and!; [done| |lia|lia]. split_and!; [done..|].
  unfold pushInsertInfo. rewrite (gk_disk _ Hn : residency n = ON_DISK), Ht. cbn [bool_decide decide decide_rel ResidencyState_eq_dec].
  eexists [_]. rewrite bool_decide_true by done. cbn [andb]. rewrite createVersionInfo_iterate. split; [done|].
  cbn. rewrite Hidx. split_and!; [done|lia| |lia|done]. unfold rec_offset. cbn. rewrite <-Hrows.
  destruct (ngc_rows_split _ (length l) g Hn) as (before & after & Hsp & Hb & _ & Haf); [cbn; by apply list_lookup_middle|].
  rewrite Hsp, !length_app, Hb, Haf. cbn [nodeGroups ngc_with]. rewrite drop_ge by (rewrite length_app; cbn; lia). cbn. lia.
Qed.

Lemma ng_append_zero g t : ∃ g', ng_append (moveNextRowToAppend g 0) t 0 = Some g' ∧ isFull g' = isFull g ∧
  getNumRowsLeftToAppend g' = getNumRowsLeftToAppend g.
Proof.
  unfold ng_append. cbn [ng_append_loop]. rewrite decide_False by lia. eexists. split; [done|].
  unfold isFull, getNumRowsLeftToAppend. cbn. by rewrite !Nat.add_0_r.
Qed.

(** When all rows of a group that is not full are reserved, the loop makes no progress. *)
Lemma append_stuck fuel t rows a n u g : last (nodeGroups n) = Some g → isFull g = false → getNumRowsLeftToAppend g = 0 → a < rows →
  ngc_append_loop fuel t rows a n u = None.
Proof.
  revert n u g. induction fuel as [|fuel IH]; intros n u g Hl Hf H0 Ha; cbn [ngc_append_loop]; rewrite decide_True by done; [done|].
  rewrite Hl, Hf. cbn [mbind option_bind]. rewrite Hl. cbn [mbind option_bind]. rewrite H0, Nat.min_0_r.
  destruct (ng_append_zero g t) as (g' & -> & Hf' & H0'). cbn [mbind option_bind]. rewrite Nat.add_0_r.
  apply (IH _ _ g'); [|congruence|congruence|done]. cbn [nodeGroups ngc_with]. apply last_Some in Hl as [l ->]. rewrite length_app. cbn [length].
  replace (length l + 1 - 1) with (length l + 0) by lia. rewrite insert_app_r. cbn. apply last_snoc.
Qed.

Lemma ngc_append_loop_total fuel t rows a n u : ngc_ok n → Forall strict (ngc_rows n) → appendable n → shouldAppendToUndoBuffer t = true →
  versioned (ID t) → rows - a ≤ fuel → a ≤ rows →
  ∃ n' u', ngc_append_loop fuel t rows a n u = Some (n', u') ∧ appendable n'.
Proof.
  intros Hn Hst Happ Ht Hid. revert a n u Hn Hst Happ. induction fuel as [|fuel IH]; intros a n u Hn Hst Happ Hfuel Ha; cbn [ngc_append_loop].
  { rewrite decide_False by lia. by exists n, u. }
  destruct (decide (a < rows)) as [Hlt|]; [|by exists n, u].
  destruct (prepare_group n Hn) as (l & g & -> & Hn1 & Hrows & Hg & Hnext & Hfull). rewrite last_snoc. cbn [mbind option_bind].
  specialize (Hnext Happ). destruct (gk_groups _ Hn1 (length l) g) as (_ & _ & Hcap & _); [cbn; by apply list_lookup_middle|].
  set (k := (rows - a) `min` getNumRowsLeftToAppend g).
  assert (0 < k ≤ getNumRowsLeftToAppend g) as Hk by (unfold k, getNumRowsLeftToAppend; lia).
  destruct (append_round n t k u l g) as (g' & -> & (H1 & H2 & _) & Hnum & Hnx); [done..|]. cbn [mbind option_bind].
  rewrite length_app. cbn [length]. replace (length l + 1 - 1) with (length l + 0) by lia. rewrite insert_app_r. cbn [insert list_insert].
  apply IH; [done| |intros h|lia|lia]; [by eapply rows_appended_strict|]. cbn [nodeGroups ngc_with]. rewrite last_snoc. intros [= <-]. lia.
Qed.

Lemma ngc_append_loop_spec fuel t rows a n u n' u' : ngc_ok n → Forall strict (ngc_rows n) → shouldAppendToUndoBuffer t = true →
  versioned (ID t) → a ≤ rows → ngc_append_loop fuel t rows a n u = Some (n', u') → table_appended (ID t) (rows - a) n u n' u'.
Proof.
  intros Hn Hst Ht Hid. revert a n u Hn Hst. induction fuel as [|fuel IH]; intros a n u Hn Hst Ha; cbn [ngc_append_loop];
    (destruct (decide (a < rows)) as [Hlt|]; [|intros [= <- <-]; replace (rows - a) with 0 by lia; by apply table_appended_refl]); [done|].
  destruct (prepare_group n Hn) as (l & g & -> & Hn1 & Hrows & Hg & _ & Hfull). rewrite last_snoc. cbn [mbind option_bind].
  set (k := (rows - a) `min` getNumRowsLeftToAppend g). destruct (decide (getNumRowsLeftToAppend g = 0)) as [H0|H0].
  { assert (k = 0) as -> by lia. destruct (ng_append_zero g t) as (g' & -> & Hf' & H0'). cbn [mbind option_bind].
    rewrite (append_stuck _ _ _ _ _ _ g'); [done| |congruence|congruence|lia]. cbn [nodeGroups ngc_with]. rewrite length_app. cbn [length].
    replace (length l + 1 - 1) with (length l + 0) by lia. rewrite insert_app_r. cbn. apply last_snoc. }
  destruct (append_round n t k u l g) as (g' & -> & Happ & _); [done..|lia|]. cbn [mbind option_bind].
  rewrite length_app. cbn [length]. replace (length l + 1 - 1) with (length l + 0) by lia. rewrite insert_app_r. cbn [insert list_insert].
  intros E. apply IH in E; [|apply Happ|eapply rows_appended_strict; [done|apply Happ|done]|lia].
  replace (rows - a) with (k + (rows - (a + k))) by lia. by eapply table_appended_trans.
Qed.

(** ** The records of a transaction *)

(** The deletions of the transaction are the rows of its delete records. *)
Definition deletes_tracked (tid : Z) (rows : list row) (recs : list VersionRecord) : Prop :=
  (∀ rec, rec ∈ recs → ∃ k r, delete_record k rec ∧ rows !! k = Some r ∧ r_del r = tid ∧ r_vec r) ∧
  (∀ k r, rows !! k = Some r → r_del r = tid → ∃ rec, rec ∈ recs ∧ delete_record k rec).

(** The undo buffer of a transaction whose rows are those from [m] on: deletions of older rows, the
    insertions, then further deletions. *)
Record tx_ok (tid : Z) (rows : list row) (u : UndoBuffer) (m : nat) (D1 I D2 : list VersionRecord) : Prop := {
  tk_records : iterate u = D1 ++ I ++ D2;
  tk_before : Forall (λ rec, rec_offset rec < m) D1;
  tk_inserts : insert_records m I (length rows);
  tk_deletes : deletes_tracked tid rows (D1 ++ D2);
  tk_rows : ∀ k r, rows !! k = Some r → (m ≤ k ↔ r_ins r = tid);
  tk_own : ∀ k r, rows !! k = Some r → m ≤ k → r_del r = INVALID_TRANSACTION ∨ r_del r = tid
}.

(** The rows a list of records covers. *)
Definition covered (ty : UndoRecordType) (recs : list VersionRecord) (k : nat) : Prop :=
  ∃ rec, rec ∈ recs ∧ recordType rec = ty ∧ rec_offset rec ≤ k < rec_offset rec + rec_numRows rec.

Lemma covered_snoc ty recs rec k : covered ty (recs ++ [rec]) k ↔
  covered ty recs k ∨ (recordType rec = ty ∧ rec_offset rec ≤ k < rec_offset rec + rec_numRows rec).
Proof.
  split.
  - intros (x & [Hx| ->%list_elem_of_singleton]%elem_of_app & H1 & H2); [left; by exists x|by right].
  - intros [(x & Hx & H1 & H2)|[H1 H2]]; [exists x|exists rec]; rewrite elem_of_app, list_elem_of_singleton; auto.
Qed.

Lemma insert_records_snoc a recs rec b : insert_records a (recs ++ [rec]) b →
  insert_records a recs (rec_offset rec) ∧ recordType rec = INSERT_INFO ∧ 0 < rec_numRows rec ∧
  rec_startRow rec + rec_numRows rec ≤ NODE_GROUP_SIZE ∧ rec_offset rec + rec_numRows rec = b ∧ a ≤ rec_offset rec.
Proof.
  revert a. induction recs as [|r recs IH]; intros a; cbn.
  - intros (H1 & H2 & H3 & H4 & H5). split_and!; [by symmetry|done..|lia|lia].
  - intros (H1 & H2 & H3 & H4 & H5). destruct (IH _ H5) as (? & ? & ? & ? & ? & ?). split_and!; [done..|lia].
Qed.

Lemma insert_records_elem a recs b rec : insert_records a recs b → rec ∈ recs →
  recordType rec = INSERT_INFO ∧ 0 < rec_numRows rec ∧ rec_startRow rec + rec_numRows rec ≤ NODE_GROUP_SIZE ∧
  a ≤ rec_offset rec ∧ rec_offset rec + rec_numRows rec ≤ b.
Proof.
  revert a. induction recs as [|r recs IH]; intros a; [by intros _ ?%elem_of_nil|]. intros (H1 & H2 & H3 & H4 & H5) Hin.
  assert (∀ c, insert_records c recs b → c ≤ b) as Hle.
  { clear. intros c. revert c. induction recs as [|r recs IH]; intros c; cbn; [lia|]. intros (_ & _ & _ & _ & H). apply IH in H. lia. }
  apply elem_of_cons in Hin as [->|Hin]; [split_and!; [done..|lia|]; rewrite H3; by apply Hle|].
  destruct (IH _ H5 Hin) as (? & ? & ? & ? & ?). split_and!; [done..|lia|lia].
Qed.

Lemma insert_records_covered a recs b k : insert_records a recs b → a ≤ k < b → covered INSERT_INFO recs k.
Proof.
  revert a. induction recs as [|r recs IH]; intros a; cbn; [lia|]. intros (H1 & H2 & H3 & H4 & H5) Hk.
  destruct (decide (k < a + rec_numRows r)) as [Hlt|Hge].
  - exists r. split_and!; [left|done|lia|lia].
  - destruct (IH _ H5) as (rec & Hin & H); [lia|]. exists rec. split; [by right|done].
Qed.

(** *** Commit *)

(** How far a row has been committed. *)
Definition committing (tid ts : Z) (recs : list VersionRecord) (j : nat) (r r' : row) : Prop :=
  upd tid ts (r_ins r) (r_ins r') ∧ upd tid ts (r_del r) (r_del r') ∧ (r_vec r → r_vec r') ∧ (r_mem r' → r_mem r) ∧
  (covered INSERT_INFO recs j → r_ins r' = ts) ∧ (covered DELETE_INFO recs j → r_del r' = ts).

Lemma upd_trans tid x a b c : upd tid x a b → upd tid x b c → upd tid x a c.
Proof. intros [->|[-> ->]] [->|[-> ->]]; unfold upd; auto. Qed.

#[export] Instance row_upd_ins_trans tid x : Transitive (row_upd_ins tid x).
Proof.
  intros a b c (A1 & A2 & A3 & A4) (B1 & B2 & B3 & B4). split_and!; [by eapply upd_trans|congruence|auto|auto].
Qed.

Lemma upd_done tid x a : upd tid x x a → a = x.
Proof. by intros [->|[_ ->]]. Qed.

Lemma committing_ins tid ts recs rec j r r' r'' : recordType rec = INSERT_INFO → committing tid ts recs j r r' →
  applied_at (row_upd_ins tid ts) (λ r, r_ins r = ts) (rec_offset rec) (rec_numRows rec) j r' r'' → committing tid ts (recs ++ [rec]) j r r''.
Proof.
  intros Hty (C1 & C2 & C3 & C4 & C5 & C6) [(A1 & A2 & A3 & A4) A5]. split_and!; [by eapply upd_trans|by rewrite A2|auto|auto| |];
    rewrite covered_snoc; (intros [Hc|[Ht Hr]]); [|by apply A5| |congruence].
  - rewrite (C5 Hc) in A1. by apply upd_done in A1.
  - rewrite A2. auto.
Qed.

Lemma committing_del tid ts recs rec j r r' r'' : recordType rec = DELETE_INFO → committing tid ts recs j r r' →
  applied_at (row_upd_del tid ts) (λ r, r_del r = ts) (rec_offset rec) (rec_numRows rec) j r' r'' → committing tid ts (recs ++ [rec]) j r r''.
Proof.
  intros Hty (C1 & C2 & C3 & C4 & C5 & C6) [(A1 & A2 & A3 & A4) A5]. split_and!; [by rewrite A1|by eapply upd_trans|auto|auto| |];
    rewrite covered_snoc; (intros [Hc|[Ht Hr]]); [|congruence| |by apply A5].
  - rewrite A1. auto.
  - rewrite (C6 Hc) in A2. by apply upd_done in A2.
Qed.

Lemma pointwise_trans (P Q R : nat → row → row → Prop) l1 l2 l3 : (∀ j a b c, P j a b → Q j b c → R j a c) →
  pointwise P l1 l2 → pointwise Q l2 l3 → pointwise R l1 l3.
Proof.
  intros H [L1 P1] [L2 P2]. split; [congruence|]. intros j a c Ha Hc. pose proof (lookup_lt_Some _ _ _ Ha).
  destruct (lookup_lt_is_Some_2 l2 j) as [b Hb]; [lia|]. eauto.
Qed.

(** One record is committed. *)
Lemma commit_record tid ts rows dn rec n : versioned tid → versioned ts → ngc_ok n → pointwise (committing tid ts dn) rows (ngc_rows n) →
  0 < rec_numRows rec → rec_startRow rec + rec_numRows rec ≤ NODE_GROUP_SIZE → rec_offset rec + rec_numRows rec ≤ length rows →
  (∀ k r, rec_offset rec ≤ k < rec_offset rec + rec_numRows rec → rows !! k = Some r →
    match recordType rec with INSERT_INFO => r_ins r = tid | DELETE_INFO => r_del r = tid end) →
  ∃ n', commitVersionInfo ts n rec = Some n' ∧ ngc_ok n' ∧ pointwise (committing tid ts (dn ++ [rec])) rows (ngc_rows n').
Proof.
  intros Ht Hts Hn Hp Hpos Hlim Hlen Hown. unfold commitVersionInfo, rec_offset in *. pose proof (proj1 Hp) as Hl.
  assert (∀ k r', rec_nodeGroupIdx rec * NODE_GROUP_SIZE + rec_startRow rec ≤ k < rec_nodeGroupIdx rec * NODE_GROUP_SIZE + rec_startRow rec + rec_numRows rec →
    ngc_rows n !! k = Some r' → match recordType rec with INSERT_INFO => r_ins r' = tid ∨ r_ins r' = ts | DELETE_INFO => r_del r' = tid ∨ r_del r' = ts end) as HP.
  { intros k r' Hk Hr'. destruct (lookup_lt_is_Some_2 rows k) as [r Hr]; [lia|]. specialize (Hown k r Hk Hr).
    destruct (proj2 Hp k r r' Hr Hr') as (C1 & C2 & _). destruct (recordType rec); rewrite Hown in *; [destruct C1 as [?|[_ ?]]|destruct C2 as [?|[_ ?]]]; auto. }
  destruct (recordType rec) eqn:Ety.
  - destruct (nt_apply_spec cg_commitInsert ts (λ r, r_ins r = tid ∨ r_ins r = ts) (row_upd_ins tid ts) (λ r, r_ins r = ts) (row_upd_ins_refl tid ts))
      with (n := n) (i := rec_nodeGroupIdx rec) (s := rec_startRow rec) (m := rec_numRows rec) as (n' & E & Hn' & Hp');
      [by intros; apply cg_commitInsert_spec|done|done|lia|done|done|].
    exists n'. split_and!; [done..|]. eapply pointwise_trans; [|exact Hp|exact Hp']. intros j a b c. by apply committing_ins.
  - destruct (nt_apply_spec cg_commitDelete ts (λ r, r_del r = tid ∨ r_del r = ts) (row_upd_del tid ts) (λ r, r_del r = ts) (row_upd_del_refl tid ts))
      with (n := n) (i := rec_nodeGroupIdx rec) (s := rec_startRow rec) (m := rec_numRows rec) as (n' & E & Hn' & Hp');
      [by intros; apply cg_commitDelete_spec; [|apply Ht|apply Hts|..]|done|done|lia|done|done|].
    exists n'. split_and!; [done..|]. eapply pointwise_trans; [|exact Hp|exact Hp']. intros j a b c. by apply committing_del.
Qed.

Definition rename (tid x y : Z) : Z := if decide (y = tid) then x else y.

(** The row of a committed transaction carries the time of the commit. *)
Definition committed_row (tid ts : Z) (r r' : row) : Prop :=
  r_ins r' = rename tid ts (r_ins r) ∧ r_del r' = rename tid ts (r_del r) ∧ (r_vec r → r_vec r') ∧ (r_mem r' → r_mem r).

Lemma upd_rename tid x a b : upd tid x a b → (a = tid → b = x) → b = rename tid x a.
Proof. intros Hu Hc. unfold rename. destruct (decide (a = tid)) as [->|Hne]; [by apply Hc|]. destruct Hu as [->|[? _]]; done. Qed.

(** The rows of the records of a transaction. *)
Lemma tx_record_rows tid rows u m D1 I D2 rec : tx_ok tid rows u m D1 I D2 → rec ∈ iterate u →
  0 < rec_numRows rec ∧ rec_startRow rec + rec_numRows rec ≤ NODE_GROUP_SIZE ∧ rec_offset rec + rec_numRows rec ≤ length rows ∧
  (∀ k r, rec_offset rec ≤ k < rec_offset rec + rec_numRows rec → rows !! k = Some r →
    match recordType rec with INSERT_INFO => r_ins r = tid | DELETE_INFO => r_del r = tid end).
Proof.
  intros [T1 T2 T3 T4 T5 _] Hin. rewrite T1, !elem_of_app in Hin. assert (rec ∈ I ∨ rec ∈ D1 ++ D2) as [Hi|Hd] by (rewrite elem_of_app; tauto).
  - destruct (insert_records_elem _ _ _ _ T3 Hi) as (H1 & H2 & H3 & H4 & H5). rewrite H1. split_and!; [done..|].
    intros k r Hk Hr. apply (T5 k r Hr). lia.
  - destruct (proj1 T4 rec Hd) as (k & r & (H1 & H2 & H3 & H4) & Hr & Hdel & _). pose proof (lookup_lt_Some _ _ _ Hr).
    rewrite H1, H2, H3. split_and!; [lia..|]. intros j r' Hj Hr'. assert (j = k) as -> by lia. by simplify_eq.
Qed.

Lemma undo_commit_spec tid ts n u m D1 I D2 : ngc_ok n → tx_ok tid (ngc_rows n) u m D1 I D2 → versioned tid → versioned ts →
  ∃ n', undo_commit u ts n = Some n' ∧ ngc_ok n' ∧ pointwise (λ _, committed_row tid ts) (ngc_rows n) (ngc_rows n').
Proof.
  intros Hn Htx Ht Hts. unfold undo_commit. set (rows := ngc_rows n) in *.
  destruct (ofold_total (commitVersionInfo ts) (λ dn n', ngc_ok n' ∧ pointwise (committing tid ts dn) rows (ngc_rows n')) (iterate u) n)
    as (n' & E & Hn' & Hp).
  { split; [done|]. apply pointwise_refl. intros j r _. split_and!; [by left|by left|done|done|..]; by intros (rec & ?%elem_of_nil & _). }
  { intros dn rec rest n1 El [Hn1 Hp1]. destruct (tx_record_rows _ _ _ _ _ _ _ rec Htx) as (H1 & H2 & H3 & H4); [rewrite El; set_solver|].
    by apply (commit_record tid ts rows dn rec n1). }
  exists n'. split_and!; [done..|]. destruct Hp as [Hl Hp]. split; [done|]. intros j r r' Hr Hr'.
  destruct (Hp j r r' Hr Hr') as (C1 & C2 & C3 & C4 & C5 & C6). destruct Htx as [T1 T2 T3 T4 T5 _].
  split_and!; [apply upd_rename; [done|]|apply upd_rename; [done|]|done..].
  - intros Hi. apply C5. destruct (insert_records_covered _ _ _ j T3) as (rec & Hrec & H).
    { split; [by apply (T5 j r Hr)|by eapply lookup_lt_Some]. }
    exists rec. split; [|done]. rewrite T1, !elem_of_app. auto.
  - intros Hd. apply C6. destruct (proj2 T4 j r Hr Hd) as (rec & Hrec & (H1 & H2 & H3 & H4)). exists rec.
    split_and!; [|done|lia|lia]. rewrite T1. rewrite elem_of_app in Hrec. rewrite !elem_of_app. tauto.
Qed.

(** *** Rollback *)

(** The deletions of a list of records are rolled back. *)
Definition undeleting (tid : Z) (recs : list VersionRecord) (j : nat) (r r' : row) : Prop :=
  row_upd_del tid INVALID_TRANSACTION r r' ∧ (covered DELETE_INFO recs j → r_del r' = INVALID_TRANSACTION).

Lemma rollback_deletes tid n recs : ngc_ok n →
  (∀ rec, rec ∈ recs → ∃ k r, delete_record k rec ∧ ngc_rows n !! k = Some r ∧ (r_del r = tid ∨ r_del r = INVALID_TRANSACTION) ∧ r_vec r) →
  ∃ n', ofold rollbackVersionInfo n recs = Some n' ∧ ngc_ok n' ∧ pointwise (undeleting tid recs) (ngc_rows n) (ngc_rows n').
Proof.
  intros Hn Hrecs. set (rows := ngc_rows n) in *.
  destruct (ofold_total rollbackVersionInfo (λ dn n', ngc_ok n' ∧ pointwise (undeleting tid dn) rows (ngc_rows n')) recs n)
    as (n' & E & Hn' & Hp); [| |by exists n'].
  { split; [done|]. apply pointwise_refl. intros j r _. split; [apply row_upd_del_refl|]. by intros (rec & ?%elem_of_nil & _). }
  intros dn rec rest n1 El [Hn1 Hp1]. destruct (Hrecs rec) as (k & r & (H1 & H2 & H3 & H4) & Hr & Hdel & Hvec); [rewrite El; set_solver|].
  unfold rollbackVersionInfo. rewrite H1, H2. pose proof (lookup_lt_Some _ _ _ Hr). pose proof (proj1 Hp1). unfold rec_offset in H3.
  destruct (nt_apply_spec cg_rollbackDelete 0 (λ r, (r_del r = tid ∨ r_del r = INVALID_TRANSACTION) ∧ r_vec r) (row_upd_del tid INVALID_TRANSACTION)
    (λ r, r_del r = INVALID_TRANSACTION) (row_upd_del_refl tid INVALID_TRANSACTION))
    with (n := n1) (i := rec_nodeGroupIdx rec) (s := rec_startRow rec) (m := 1) as (n' & E & Hn' & Hp');
    [by intros; apply cg_rollbackDelete_spec|done|lia|lia|lia| |].
  { intros j r' Hj Hr'. assert (j = k) as -> by lia. destruct (proj2 Hp1 k r r' Hr Hr') as ((_ & D1 & D2 & _) & _). split; [|by apply D2].
    destruct D1 as [->|[_ ->]]; [done|by right]. }
  exists n'. split_and!; [done..|]. eapply pointwise_trans; [|exact Hp1|exact Hp'].
  intros j a b c [(A1 & A2 & A3 & A4) A5] [(B1 & B2 & B3 & B4) B5]. split.
  - split_and!; [congruence|by eapply upd_trans|auto|auto].
  - rewrite covered_snoc. unfold rec_offset. rewrite H2. intros [Hc|[_ Hc]]; [|by apply B5]. rewrite (A5 Hc) in B2. by apply upd_done in B2.
Qed.

Lemma rollback_inserts tid m I n : ngc_ok n → versioned tid → insert_records m I (length (ngc_rows n)) →
  (∀ k r, ngc_rows n !! k = Some r → m ≤ k → own_row tid r) →
  (∀ k r, ngc_rows n !! k = Some r → own_row tid r → r_del r = INVALID_TRANSACTION) →
  ∃ n', ofold rollbackVersionInfo n (reverse I) = Some n' ∧ ngc_ok n' ∧
    Forall2 (row_upd_ins tid INVALID_TRANSACTION) (take m (ngc_rows n)) (ngc_rows n').
Proof.
  intros Hn Ht. revert n Hn. induction I as [|rec I IH] using rev_ind; intros n Hn Hi Hown Hdel.
  { exists n. cbn in Hi. rewrite Hi, firstn_all. split_and!; [done..|]. apply Forall_Forall2_diag, Forall_true, row_upd_ins_refl. }
  apply insert_records_snoc in Hi as (Hi & H1 & H2 & H3 & H4 & H5). rewrite reverse_snoc. cbn [ofold].
  assert (rollbackVersionInfo n rec = nt_rollbackInsert n (rec_nodeGroupIdx rec) (rec_startRow rec) (rec_numRows rec)) as ->
    by (unfold rollbackVersionInfo; by rewrite H1).
  unfold rec_offset in *. set (off := rec_nodeGroupIdx rec * NODE_GROUP_SIZE + rec_startRow rec) in *.
  destruct (nt_rollbackInsert_spec n tid (rec_nodeGroupIdx rec) (rec_startRow rec) (rec_numRows rec)) as (n1 & -> & Hn1 & Hk1); [done..| |done|].
  { intros k r Hk Hr. apply (Hown k r Hr). lia. }
  cbn [mbind option_bind]. fold off in Hk1. pose proof (Forall2_length _ _ _ Hk1) as Hlen. rewrite length_take, Nat.min_l in Hlen by lia.
  assert (∀ k r', ngc_rows n1 !! k = Some r' → ∃ r, ngc_rows n !! k = Some r ∧ row_upd_ins tid INVALID_TRANSACTION r r') as Hback.
  { intros k r' Hr'. destruct (Forall2_lookup_r _ _ _ _ _ Hk1 Hr') as (r & Hr & Hu). apply lookup_take_Some in Hr as [Hr _]. by exists r. }
  destruct (IH n1 Hn1) as (n' & E & Hn' & Hk'); [by rewrite <-Hlen| | |].
  { intros k r' Hr' Hk. destruct (Hback k r' Hr') as (r & Hr & ([Hu|[_ Hu]] & _)); [|by right]. unfold own_row. rewrite Hu. by apply (Hown k r). }
  { intros k r' Hr' Ho. destruct (Hback k r' Hr') as (r & Hr & (Hu & Hd & _)). rewrite Hd. apply (Hdel k r Hr). unfold own_row in *.
    destruct Hu as [Hu|[Hu _]]; [by rewrite <-Hu|by left]. }
  exists n'. split_and!; [done..|]. apply (Forall2_take _ _ _ m) in Hk1. rewrite take_take, Nat.min_l in Hk1 by lia.
  by etrans.
Qed.

(** The row of a rolled back transaction is as it was before. *)
Definition rolled_back_row (tid : Z) (r r' : row) : Prop :=
  r_ins r' = r_ins r ∧ r_del r' = rename tid INVALID_TRANSACTION (r_del r) ∧ (r_vec r → r_vec r') ∧ (r_mem r' → r_mem r).

Lemma undo_rollback_spec tid n u m D1 I D2 : ngc_ok n → Forall strict (ngc_rows n) → tx_ok tid (ngc_rows n) u m D1 I D2 → versioned tid →
  ∃ n', undo_rollback u n = Some n' ∧ ngc_ok n' ∧ pointwise (λ _, rolled_back_row tid) (take m (ngc_rows n)) (ngc_rows n').
Proof.
  intros Hn Hst Htx Ht. pose proof Htx as [T1 T2 T3 T4 T5 T6]. unfold undo_rollback. rewrite reverseIterate_spec, T1, !reverse_app, <-app_assoc, !ofold_app.
  set (rows := ngc_rows n) in *.
  assert (∀ recs, recs ⊆ D1 ++ D2 → ∀ rec, rec ∈ recs → ∃ k r, delete_record k rec ∧ rows !! k = Some r ∧ r_del r = tid ∧ r_vec r) as Hsub.
  { intros recs Hsub rec Hrec. by apply (proj1 T4), Hsub. }
  destruct (rollback_deletes tid n (reverse D2) Hn) as (n1 & -> & Hn1 & Hp1).
  { intros rec Hrec. rewrite elem_of_reverse in Hrec. destruct (Hsub D2 ltac:(set_solver) rec Hrec) as (k & r & ? & ? & ? & ?). exists k, r. by split_and!; try left. }
  cbn [mbind option_bind]. rewrite ?ofold_app. fold rows in Hp1. pose proof (proj1 Hp1) as L1.
  assert (∀ k r1, ngc_rows n1 !! k = Some r1 → ∃ r, rows !! k = Some r ∧ undeleting tid (reverse D2) k r r1) as Hback1.
  { intros k r1 Hr1. destruct (lookup_lt_is_Some_2 rows k) as [r Hr]; [rewrite <-L1; by eapply lookup_lt_Some|]. exists r. split; [done|]. by apply Hp1. }
  destruct (rollback_inserts tid m I n1 Hn1 Ht) as (n2 & -> & Hn2 & Hk2); [by rewrite L1| | |].
  { intros k r1 Hr1 Hk. destruct (Hback1 k r1 Hr1) as (r & Hr & ((Hi & _) & _)). left. rewrite Hi. by apply (T5 k r Hr). }
  { intros k r1 Hr1 Ho. destruct (Hback1 k r1 Hr1) as (r & Hr & ((Hi & Hd & _) & Hcov)). unfold own_row in Ho. rewrite Hi in Ho.
    pose proof (Forall_lookup_1 _ _ _ _ Hst Hr) as [Hstr _]. destruct Ho as [Ho|Ho]; [|done]. apply (T5 k r Hr) in Ho as Hmk.
    destruct (T6 k r Hr Hmk) as [H0|H0]; [rewrite H0 in Hd; by apply upd_done in Hd|]. destruct (proj2 T4 k r Hr H0) as (rec & Hrec & (R1 & R2 & R3 & R4)).
    apply Hcov. exists rec. split_and!; [|done|lia|lia]. apply elem_of_reverse. apply elem_of_app in Hrec as [Hrec|Hrec]; [|done].
    rewrite Forall_forall in T2. specialize (T2 rec Hrec). lia. }
  cbn [mbind option_bind]. pose proof (Forall2_length _ _ _ Hk2) as L2. rewrite length_take, L1 in L2.
  assert (∀ k r2, ngc_rows n2 !! k = Some r2 → ∃ r r1, rows !! k = Some r ∧ k < m ∧ undeleting tid (reverse D2) k r r1 ∧
    row_upd_ins tid INVALID_TRANSACTION r1 r2) as Hback2.
  { intros k r2 Hr2. destruct (Forall2_lookup_r _ _ _ _ _ Hk2 Hr2) as (r1 & Hr1 & Hu). apply lookup_take_Some in Hr1 as [Hr1 Hlt].
    destruct (Hback1 k r1 Hr1) as (r & Hr & Hun). by exists r, r1. }
  destruct (rollback_deletes tid n2 (reverse D1) Hn2) as (n3 & -> & Hn3 & Hp3).
  { intros rec Hrec. rewrite elem_of_reverse in Hrec. destruct (Hsub D1 ltac:(set_solver) rec Hrec) as (k & r & Hdr & Hr & Hd & Hv).
    rewrite Forall_forall in T2. specialize (T2 rec Hrec). pose proof Hdr as (_ & _ & Hoff & _). pose proof (lookup_lt_Some _ _ _ Hr).
    destruct (lookup_lt_is_Some_2 (ngc_rows n2) k) as [r2 Hr2]; [lia|]. exists k, r2. split_and!; [done|done| |];
      destruct (Hback2 k r2 Hr2) as (r' & r1 & Hr' & _ & ((_ & Hu & Hv1 & _) & _) & (_ & Hu2 & Hv2 & _)); simplify_eq; [|auto].
    rewrite Hu2. destruct Hu as [->|[_ ->]]; auto. }
  exists n3. split_and!; [done..|]. destruct Hp3 as [L3 Hp3]. split; [rewrite length_take; lia|]. intros j r r3 Hr Hr3.
  apply lookup_take_Some in Hr as [Hr Hlt]. destruct (lookup_lt_is_Some_2 (ngc_rows n2) j) as [r2 Hr2]; [rewrite <-L3; by eapply lookup_lt_Some|].
  destruct (Hback2 j r2 Hr2) as (r' & r1 & Hr' & _ & ((A1 & A2 & A3 & A4) & A5) & (B1 & B2 & B3 & B4)). simplify_eq.
  destruct (Hp3 j r2 r3 Hr2 Hr3) as ((C1 & C2 & C3 & C4) & C5). split_and!; [| |auto|auto].
  - rewrite C1. rewrite A1 in B1. destruct B1 as [->|[Hx _]]; [done|]. apply (T5 j r Hr) in Hx. lia.
  - apply upd_rename; [rewrite B2 in C2; by eapply upd_trans|]. intros Hx. destruct (proj2 T4 j r Hr Hx) as (rec & Hrec & (R1 & R2 & R3 & R4)).
    apply elem_of_app in Hrec as [Hrec|Hrec].
    + apply C5. exists rec. rewrite elem_of_reverse. split_and!; [done|done|lia|lia].
    + rewrite B2, A5 in C2; [by apply upd_done in C2|]. exists rec. rewrite elem_of_reverse. split_and!; [done|done|lia|lia].
Qed.

(** *** Deletions and their records *)

Lemma delete_result_Ret d tid b : delete_result d tid = Ret b → d = tid ∨ d = INVALID_TRANSACTION.
Proof. unfold delete_result. destruct (decide _); [auto|]. destruct (decide _); [auto|done]. Qed.

Lemma pointwise_lookup_r Q l l' k r' : pointwise Q l l' → l' !! k = Some r' → ∃ r, l !! k = Some r ∧ Q k r r'.
Proof.
  intros [Hl Hp] Hr'. destruct (lookup_lt_is_Some_2 l k) as [r Hr]; [rewrite <-Hl; by eapply lookup_lt_Some|]. exists r. eauto.
Qed.

Lemma pointwise_lookup_l Q l l' k r : pointwise Q l l' → l !! k = Some r → ∃ r', l' !! k = Some r' ∧ Q k r r'.
Proof.
  intros [Hl Hp] Hr. destruct (lookup_lt_is_Some_2 l' k) as [r' Hr']; [rewrite Hl; by eapply lookup_lt_Some|]. exists r'. eauto.
Qed.

Lemma deleted_at_ins tid k j r r' : deleted_at tid k j r r' → r_ins r' = r_ins r ∧ (r_vec r → r_vec r') ∧ (r_mem r' → r_mem r).
Proof. unfold deleted_at. destruct (decide _); [intros (? & ? & ? & ?)|intros (? & ? & ? & ?)]; auto. Qed.

Lemma deleted_at_strict tid k rows rows' : pointwise (deleted_at tid k) rows rows' → Forall strict rows → Forall strict rows'.
Proof.
  intros Hp Hs. apply Forall_lookup_2. intros j r' Hr'. destruct (pointwise_lookup_r _ _ _ _ _ Hp Hr') as (r & Hr & Hd).
  destruct (deleted_at_ins _ _ _ _ _ Hd) as (H1 & _ & H2). destruct (Forall_lookup_1 _ _ _ _ Hs Hr). unfold strict. rewrite H1. auto.
Qed.

Lemma tracked_delete tid rows rows' recs k r rec b : tid ≠ INVALID_TRANSACTION → deletes_tracked tid rows recs →
  pointwise (deleted_at tid k) rows rows' → rows !! k = Some r → delete_record k rec → delete_result (r_del r) tid = Ret b →
  ∀ recs', (∀ x, x ∈ recs' ↔ x ∈ recs ∨ x = rec) → deletes_tracked tid rows' recs'.
Proof.
  intros Ht [T1 T2] Hp Hk Hrec Hres%delete_result_Ret recs' Hrecs'.
  assert (∃ r', rows' !! k = Some r' ∧ r_del r' = tid ∧ r_vec r') as (rk & Hrk & Hdk & Hvk).
  { destruct (pointwise_lookup_l _ _ _ _ _ Hp Hk) as (r' & Hr' & Hd). unfold deleted_at in Hd. rewrite decide_True in Hd by done.
    destruct Hd as (_ & Hd & Hv & _). exists r'. split_and!; [done| |done]. rewrite Hd. destruct (decide _); [done|]. by destruct Hres. }
  split.
  - intros x [Hx| ->]%Hrecs'; [|by exists k, rk]. destruct (T1 x Hx) as (j & r0 & Hdr & Hj & Hd & Hv).
    destruct (pointwise_lookup_l _ _ _ _ _ Hp Hj) as (r' & Hr' & Hda). exists j, r'. split_and!; [done..| |by apply (deleted_at_ins _ _ _ _ _ Hda)].
    unfold deleted_at in Hda. destruct (decide (j = k)); destruct Hda as (_ & -> & _); [|done]. by rewrite Hd, decide_False.
  - intros j r' Hr' Hd. destruct (decide (j = k)) as [->|Hne]; [exists rec; rewrite Hrecs'; auto|].
    destruct (pointwise_lookup_r _ _ _ _ _ Hp Hr') as (r0 & Hr0 & Hda). unfold deleted_at in Hda. rewrite decide_False in Hda by done.
    destruct Hda as (_ & Hda & _). destruct (T2 j r0 Hr0) as (x & Hx & Hdr); [congruence|]. exists x. rewrite Hrecs'. auto.
Qed.

(** A deletion that throws leaves the deletions of the transaction. *)
Lemma tracked_keep tid rows rows' recs k r e : deletes_tracked tid rows recs → pointwise (deleted_at tid k) rows rows' → rows !! k = Some r →
  delete_result (r_del r) tid = Throw e → deletes_tracked tid rows' recs.
Proof.
  intros [T1 T2] Hp Hk Hres. assert (r_del r ≠ INVALID_TRANSACTION) as Hne.
  { unfold delete_result in Hres. destruct (decide _); [done|]. by destruct (decide _). }
  assert (∀ j r0 r', rows !! j = Some r0 → rows' !! j = Some r' → r_del r' = r_del r0 ∧ (r_vec r0 → r_vec r')) as Hsame.
  { intros j r0 r' H0 H1. pose proof (proj2 Hp j r0 r' H0 H1) as Hd. unfold deleted_at in Hd. destruct (decide (j = k)) as [->|]; [|by destruct Hd as (_ & ? & ? & _)].
    simplify_eq. destruct Hd as (_ & Hd & ? & _). by rewrite decide_False in Hd. }
  split.
  - intros x Hx. destruct (T1 x Hx) as (j & r0 & Hdr & Hj & Hd & Hv). destruct (pointwise_lookup_l _ _ _ _ _ Hp Hj) as (r' & Hr' & _).
    destruct (Hsame j r0 r' Hj Hr') as [H1 H2]. exists j, r'. split_and!; [done|done|congruence|auto].
  - intros j r' Hr' Hd. destruct (pointwise_lookup_r _ _ _ _ _ Hp Hr') as (r0 & Hr0 & _). destruct (Hsame j r0 r' Hr0 Hr') as [H1 _]. apply (T2 j r0 Hr0). congruence.
Qed.

(** ** Committing the rows of a local table *)

Definition group_size (g : NodeGroup) : nat := sum_list (cg_numRows <$> chunkedGroups g).
Definition local_rows (groups : list NodeGroup) : nat := sum_list (group_size <$> groups).

Lemma local_rows_app l1 l2 : local_rows (l1 ++ l2) = local_rows l1 + local_rows l2.
Proof. unfold local_rows. by rewrite fmap_app, sum_list_with_app. Qed.

Lemma ensure_group n : ngc_ok n → ngc_ok (match nodeGroups n with [] => ngc_with n [newNodeGroup 0] (numTotalRows n) | _ => n end) ∧
  ngc_rows (match nodeGroups n with [] => ngc_with n [newNodeGroup 0] (numTotalRows n) | _ => n end) = ngc_rows n.
Proof.
  intros Hn. destruct (nodeGroups n) eqn:En; [|done]. assert (ngc_rows n = []) as Hrows by (unfold ngc_rows; by rewrite En).
  split; [|by rewrite Hrows]. split; [|by rewrite (gk_total n Hn), Hrows|apply (gk_disk n Hn)].
  intros [|i] g Hg; [|done]. injection Hg as <-. destruct (new_group_ok 0). split_and!; [done..|cbn; lia|cbn; lia].
Qed.

Lemma append_chunks_spec fuel t chunks n u n' u' : ngc_ok n → Forall strict (ngc_rows n) → shouldAppendToUndoBuffer t = true →
  versioned (ID t) → ofold (λ '(n, u) c, ngc_append_loop fuel t (cg_numRows c) 0 n u) (n, u) chunks = Some (n', u') →
  table_appended (ID t) (sum_list (cg_numRows <$> chunks)) n u n' u'.
Proof.
  intros Hn Hst Ht Hid. revert n u Hn Hst. induction chunks as [|c chunks IH]; intros n u Hn Hst; cbn [ofold fmap list_fmap sum_list].
  { intros [= <- <-]. by apply table_appended_refl. }
  destruct (ngc_append_loop _ _ _ _ _ _) as [[n1 u1]|] eqn:E; [cbn [mbind option_bind]|done].
  apply ngc_append_loop_spec in E; [|done..|lia]. rewrite Nat.sub_0_r in E. intros E2. eapply table_appended_trans; [exact E|].
  apply IH; [apply E|eapply rows_appended_strict; [done|apply E|done]|done].
Qed.

Lemma appendCollection_spec fuel n t other u n' u' : ngc_ok n → Forall strict (ngc_rows n) → shouldAppendToUndoBuffer t = true →
  versioned (ID t) → ngc_appendCollection fuel n t other u = Some (n', u') →
  table_appended (ID t) (local_rows (nodeGroups other)) n u n' u'.
Proof.
  intros Hn Hst Ht Hid. unfold ngc_appendCollection, local_rows. revert n u Hn Hst.
  induction (nodeGroups other) as [|g groups IH]; intros n u Hn Hst; cbn [ofold fmap list_fmap sum_list].
  { intros [= <- <-]. by apply table_appended_refl. }
  destruct (ensure_group n Hn) as [Hn0 Hrows]. set (n0 := match nodeGroups n with [] => _ | _ => _ end) in *.
  destruct (ofold _ (n0, u) _) as [[n1 u1]|] eqn:E; [cbn [mbind option_bind]|done].
  apply append_chunks_spec in E; [|done|by rewrite Hrows|done..]. intros E2.
  assert (table_appended (ID t) (group_size g) n u n1 u1) as E1 by (unfold table_appended in *; by rewrite <-Hrows).
  eapply table_appended_trans; [exact E1|]. apply IH; [apply E1|eapply rows_appended_strict; [done|apply E1|done]|done].
Qed.

Lemma tracked_appended tid k rows rows' recs : tid ≠ INVALID_TRANSACTION → deletes_tracked tid rows recs → rows_appended tid k rows rows' →
  deletes_tracked tid rows' recs.
Proof.
  intros Ht [T1 T2] (old & new & -> & Hk & Hf & _). split.
  - intros rec Hrec. destruct (T1 rec Hrec) as (j & r & Hdr & Hj & Hd & Hv). destruct (Forall2_lookup_l _ _ _ _ _ Hk Hj) as (r' & Hr' & _ & K2 & K3 & _).
    exists j, r'. split_and!; [done|by apply lookup_app_l_Some|congruence|auto].
  - intros j r' Hr' Hd. apply lookup_app_Some in Hr' as [Hr'|[_ Hr']].
    + destruct (Forall2_lookup_r _ _ _ _ _ Hk Hr') as (r & Hr & _ & K2 & _). apply (T2 j r Hr). congruence.
    + destruct (Forall_lookup_1 _ _ _ _ Hf Hr') as (_ & F2 & _). congruence.
Qed.

(** Appending the rows of a transaction that has none yet. *)
Lemma tx_append t n u k n' u' D : versioned (ID t) → tx_ok (ID t) (ngc_rows n) u (length (ngc_rows n)) D [] [] →
  table_appended (ID t) k n u n' u' → ∃ I, tx_ok (ID t) (ngc_rows n') u' (length (ngc_rows n)) D I [].
Proof.
  intros Hid [T1 T2 T3 T4 T5 T6] (_ & Ha & recs & Hrecs & Hins). exists recs. rewrite app_nil_r in T1.
  split; [by rewrite Hrecs, T1, app_nil_r|done|by rewrite (rows_appended_length _ _ _ _ Ha)|eapply tracked_appended; [apply Hid|done|done]|..];
    intros j r' Hr'; destruct Ha as (old & new & Hrows & Hk & Hf & _); rewrite Hrows in Hr'; apply lookup_app_Some in Hr' as [Hr'|[Hj Hr']];
    rewrite ?(Forall2_length _ _ _ Hk).
  - pose proof (lookup_lt_Some _ _ _ Hr'). destruct (Forall2_lookup_r _ _ _ _ _ Hk Hr') as (r & Hr & K1 & _). rewrite K1. split; [lia|].
    intros Hi. apply (T5 j r Hr) in Hi. apply lookup_lt_Some in Hr. lia.
  - destruct (Forall_lookup_1 _ _ _ _ Hf Hr') as (F1 & _). done.
  - apply lookup_lt_Some in Hr'. lia.
  - destruct (Forall_lookup_1 _ _ _ _ Hf Hr') as (_ & F2 & _). by left.
Qed.

(** A row of the transaction deleted while the local rows are committed, and an older row deleted before. *)
Lemma tx_delete_rows tid rows rows' k m : tid ≠ INVALID_TRANSACTION → pointwise (deleted_at tid k) rows rows' →
  (∀ j r, rows !! j = Some r → (m ≤ j ↔ r_ins r = tid)) → (∀ j r, rows !! j = Some r → m ≤ j → r_del r = INVALID_TRANSACTION ∨ r_del r = tid) →
  (∀ j r, rows' !! j = Some r → (m ≤ j ↔ r_ins r = tid)) ∧ (∀ j r, rows' !! j = Some r → m ≤ j → r_del r = INVALID_TRANSACTION ∨ r_del r = tid).
Proof.
  intros Ht Hp T5 T6. split; intros j r' Hr'; destruct (pointwise_lookup_r _ _ _ _ _ Hp Hr') as (r & Hr & Hd).
  - rewrite (proj1 (deleted_at_ins _ _ _ _ _ Hd)). by apply T5.
  - intros Hj. unfold deleted_at in Hd. destruct (decide (j = k)); destruct Hd as (_ & -> & _); [|by apply (T6 j)].
    destruct (decide _); [by right|by apply (T6 j)].
Qed.

Lemma tx_delete_own tid rows rows' u m D1 I D2 k r rec b : tid ≠ INVALID_TRANSACTION → tx_ok tid rows u m D1 I D2 →
  pointwise (deleted_at tid k) rows rows' → rows !! k = Some r → delete_record k rec → delete_result (r_del r) tid = Ret b →
  tx_ok tid rows' (createVersionInfo u rec) m D1 I (D2 ++ [rec]).
Proof.
  intros Ht [T1 T2 T3 T4 T5 T6] Hp Hk Hrec Hres. destruct (tx_delete_rows _ _ _ _ _ Ht Hp T5 T6) as [H5 H6].
  split; [by rewrite createVersionInfo_iterate, T1, <-!app_assoc|done|by rewrite (proj1 Hp)| |done|done].
  eapply tracked_delete; [done..|]. intros x. set_solver.
Qed.

Lemma tx_delete_old tid rows rows' u m D k r rec b : tid ≠ INVALID_TRANSACTION → tx_ok tid rows u m D [] [] → k < m →
  pointwise (deleted_at tid k) rows rows' → rows !! k = Some r → delete_record k rec → delete_result (r_del r) tid = Ret b →
  tx_ok tid rows' (createVersionInfo u rec) m (D ++ [rec]) [] [].
Proof.
  intros Ht [T1 T2 T3 T4 T5 T6] Hkm Hp Hk Hrec Hres. destruct (tx_delete_rows _ _ _ _ _ Ht Hp T5 T6) as [H5 H6].
  split; [by rewrite createVersionInfo_iterate, T1, !app_nil_r| |by rewrite (proj1 Hp)| |done|done].
  - apply Forall_app. split; [done|]. apply Forall_singleton. by destruct Hrec as (_ & _ & -> & _).
  - eapply tracked_delete; [done..|]. intros x. set_solver.
Qed.

Lemma tx_delete_throw tid rows rows' u m D k r e : tid ≠ INVALID_TRANSACTION → tx_ok tid rows u m D [] [] →
  pointwise (deleted_at tid k) rows rows' → rows !! k = Some r → delete_result (r_del r) tid = Throw e → tx_ok tid rows' u m D [] [].
Proof.
  intros Ht [T1 T2 T3 T4 T5 T6] Hp Hk Hres. destruct (tx_delete_rows _ _ _ _ _ Ht Hp T5 T6) as [H5 H6].
  split; [done|done|by rewrite (proj1 Hp)| |done|done]. by eapply tracked_keep.
Qed.

(** The deletions of a local group that a commit repeats, by row. *)
Definition row_deletion (t : Transaction) (g : NodeGroup) (row : nat) : bool := bool_decide (ng_isDeleted g t row = Some true).
Definition group_deletions (t : Transaction) (g : NodeGroup) : list bool :=
  if decide (chunks_hasDeletions (chunkedGroups g) t = Some true) then row_deletion t g <$> seq 0 (numRows g) else replicate (numRows g) false.
Definition local_deletions (t : Transaction) (groups : list NodeGroup) : list bool := groups ≫= group_deletions t.

Lemma length_group_deletions t g : length (group_deletions t g) = numRows g.
Proof. unfold group_deletions. destruct (decide _); by rewrite ?length_fmap, ?length_seq, ?length_replicate. Qed.

Definition deletion_version (tid : Z) (b : option bool) : Z := if decide (b = Some true) then tid else INVALID_TRANSACTION.

(** The table and the undo buffer while the local rows of a transaction are committed: its rows are those from
    [length old] on, of which those that [flags] names have been deleted; the older ones are as they were. *)
Record own_rows (t : Transaction) (old : list row) (total : nat) (D I : list VersionRecord) (flags : list bool)
    (st : NodeGroupCollection * UndoBuffer) : Prop := {
  ow_table : ngc_ok st.1;
  ow_strict : Forall strict (ngc_rows st.1);
  ow_length : length (ngc_rows st.1) = total;
  ow_old : Forall2 row_keep old (take (length old) (ngc_rows st.1));
  ow_undo : ∃ D2, tx_ok (ID t) (ngc_rows st.1) st.2 (length old) D I D2;
  ow_flags : ∀ i r, ngc_rows st.1 !! (length old + i) = Some r → r_del r = deletion_version (ID t) (flags !! i)
}.

Lemma deleted_at_take tid k m rows rows' : pointwise (deleted_at tid k) rows rows' → m ≤ k → Forall2 row_keep (take m rows) (take m rows').
Proof.
  intros [Hl Hp] Hm. apply Forall2_same_length_lookup. split; [by rewrite !length_take, Hl|]. intros j r r' Hr Hr'.
  apply lookup_take_Some in Hr as [Hr Hj], Hr' as [Hr' _]. specialize (Hp j r r' Hr Hr'). unfold deleted_at in Hp. by rewrite decide_False in Hp by lia.
Qed.

Lemma deletion_version_false tid flags k i : deletion_version tid ((flags ++ replicate k false) !! i) = deletion_version tid (flags !! i).
Proof.
  unfold deletion_version. destruct (decide (i < length flags)) as [Hi|Hi]; [by rewrite lookup_app_l|].
  rewrite lookup_app_r, (lookup_ge_None_2 flags) by lia. destruct (decide (Some false = _)) eqn:E; [done|].
  destruct (replicate k false !! _) as [b|] eqn:Eb; [|done]. apply lookup_replicate in Eb as [-> _]. done.
Qed.

Lemma own_rows_false t old total D I flags k st : own_rows t old total D I flags st → own_rows t old total D I (flags ++ replicate k false) st.
Proof. intros [H1 H2 H3 H4 H5 H6]. split; [done..|]. intros i r Hr. rewrite deletion_version_false. by apply H6. Qed.

Lemma commit_deleted_row_spec t g start old total D I flags st row st' : shouldAppendToUndoBuffer t = true → ID t ≠ INVALID_TRANSACTION →
  own_rows t old total D I flags st → start + row = length old + length flags → start + row < total →
  commit_deleted_row t g start st row = Some st' → own_rows t old total D I (flags ++ [row_deletion t g row]) st'.
Proof.
  intros Ht Hid Hst Hrow Hlt. destruct st as [n u]. unfold commit_deleted_row, row_deletion.
  destruct (ng_isDeleted g t row) as [[]|]; cbn [mbind option_bind]; [|intros [= <-]; by apply (own_rows_false _ _ _ _ _ _ 1)|done].
  rewrite bool_decide_true by done. destruct Hst as [H1 H2 H3 H4 [D2 H5] H6]. cbn [fst snd] in *.
  destruct (lookup_lt_is_Some_2 (ngc_rows n) (start + row)) as [r Hr]; [lia|].
  destruct (nt_delete_spec n t (start + row) r u) as (n1 & rec & Hrec & -> & Hn1 & Hp); [done..|]. cbn [mbind option_bind].
  destruct (delete_result (r_del r) (ID t)) as [[]|] eqn:Eres; [|done..]. intros [= <-]. split; cbn [fst snd].
  - done.
  - by eapply deleted_at_strict.
  - by rewrite (proj1 Hp).
  - etrans; [exact H4|]. eapply deleted_at_take; [exact Hp|lia].
  - exists (D2 ++ [rec]). by eapply tx_delete_own.
  - intros i r' Hr'. destruct (pointwise_lookup_r _ _ _ _ _ Hp Hr') as (r0 & Hr0 & Hd). specialize (H6 i r0 Hr0). unfold deleted_at in Hd.
    destruct (decide (length old + i = start + row)) as [Hi|Hi]; destruct Hd as (_ & -> & _); rewrite H6.
    + replace i with (length flags) by lia. rewrite lookup_app_r, Nat.sub_diag, lookup_ge_None_2 by lia. done.
    + destruct (decide (i < length flags)); [by rewrite lookup_app_l|]. by rewrite !lookup_ge_None_2 by (rewrite ?length_app; cbn; lia).
Qed.

(** One local group. *)
Lemma commit_group_spec t g start old total D I flags st st' : shouldAppendToUndoBuffer t = true → ID t ≠ INVALID_TRANSACTION →
  own_rows t old total D I flags st → start = length old + length flags → start + numRows g ≤ total →
  (b ← chunks_hasDeletions (chunkedGroups g) t;
   if b : bool then ofold (commit_deleted_row t g start) st (seq 0 (numRows g)) else Some st) = Some st' →
  own_rows t old total D I (flags ++ group_deletions t g) st'.
Proof.
  intros Ht Hid Hst Hstart Htot. unfold group_deletions. destruct (chunks_hasDeletions _ _) as [[]|]; cbn [mbind option_bind]; [|..|done].
  - rewrite decide_True by done. intros E.
    eapply (ofold_partial _ (λ dn st, own_rows t old total D I (flags ++ (row_deletion t g <$> dn)) st)) in E; [done|by rewrite app_nil_r|].
    intros dn row rest st1 st2 El Hst1 Estep. rewrite fmap_app, app_assoc.
    assert (seq 0 (numRows g) !! length dn = Some row) as Hrow by (rewrite El; by apply list_lookup_middle). apply lookup_seq in Hrow as [-> Hlt].
    eapply commit_deleted_row_spec; [done..| | |exact Estep]; [rewrite length_app, length_fmap|]; lia.
  - rewrite decide_False by done. intros [= <-]. by apply own_rows_false.
Qed.

Lemma commit_deletions_spec t old groups n u n' u' D I residency' total' : shouldAppendToUndoBuffer t = true → ID t ≠ INVALID_TRANSACTION →
  Forall (λ g, numRows g = group_size g) groups → own_rows t old (length old + local_rows groups) D I [] (n, u) →
  commit_deletions t (length old) (mkCollection groups total' residency') n u = Some (n', u') →
  own_rows t old (length old + local_rows groups) D I (local_deletions t groups) (n', u').
Proof.
  intros Ht Hid Hg Hst. unfold commit_deletions. cbn [nodeGroups]. set (total := length old + local_rows groups) in *.
  destruct (ofold _ _ groups) as [[[n1 u1] k]|] eqn:E; [|done]. cbn. intros [= <- <-].
  eapply (ofold_partial _ (λ dn st, own_rows t old total D I (local_deletions t dn) st.1 ∧ st.2 = local_rows dn ∧ st.2 = length (local_deletions t dn))) in E;
    [apply E|by split_and!|].
  clear E. intros dn g rest [[n2 u2] k2] [[n3 u3] k3] El (Hinv & Hk & Hk'). cbn [fst snd] in *.
  assert (numRows g = group_size g) as Hng by (rewrite El in Hg; apply Forall_app in Hg as [_ Hg]; by inversion Hg).
  assert (local_rows dn + numRows g ≤ local_rows groups) as Hle by (rewrite El, local_rows_app, Hng; cbn; lia).
  assert (local_deletions t (dn ++ [g]) = local_deletions t dn ++ group_deletions t g) as Hdel.
  { unfold local_deletions. rewrite bind_app. cbn. by rewrite app_nil_r. }
  intros Estep. rewrite Hdel, local_rows_app, length_app, length_group_deletions.
  destruct (chunks_hasDeletions (chunkedGroups g) t) as [b|] eqn:Eb; [|done]. cbn [mbind option_bind] in Estep.
  destruct (if b then _ else _) as [[n4 u4]|] eqn:Eb2 in Estep; [|done]. cbn in Estep. injection Estep as <- <- <-.
  split_and!; [|cbn; lia|cbn; lia]. eapply (commit_group_spec _ _ (length old + k2)); [done..|lia|lia|]. by rewrite Eb.
Qed.

Lemma own_rows_appended t n u D k n' u' : Forall strict (ngc_rows n) → versioned (ID t) →
  tx_ok (ID t) (ngc_rows n) u (length (ngc_rows n)) D [] [] → table_appended (ID t) k n u n' u' →
  ∃ I, own_rows t (ngc_rows n) (length (ngc_rows n) + k) D I [] (n', u').
Proof.
  intros Hst Hid Htx Ha. destruct (tx_append t n u k n' u' D Hid Htx Ha) as [I HI]. exists I. destruct Ha as (H1 & H2 & _).
  split; cbn [fst snd]; [done| | | |by exists []|].
  - by eapply rows_appended_strict.
  - by rewrite (rows_appended_length _ _ _ _ H2).
  - destruct H2 as (old & new & -> & Hk & _). by rewrite (Forall2_length _ _ _ Hk), take_app_length.
  - intros i r Hr. destruct H2 as (old & new & Hrows & Hk & Hf & _). rewrite Hrows, (Forall2_length _ _ _ Hk), lookup_app_r in Hr by lia.
    by destruct (Forall_lookup_1 _ _ _ _ Hf Hr) as (_ & -> & _).
Qed.

(** The rows of a local table are appended, and those deleted in it are deleted: the older rows stay. *)
Lemma nt_commit_spec fuel n t local u n' u' D : ngc_ok n → Forall strict (ngc_rows n) → shouldAppendToUndoBuffer t = true → versioned (ID t) →
  Forall (λ g, numRows g = group_size g) (nodeGroups local) → tx_ok (ID t) (ngc_rows n) u (length (ngc_rows n)) D [] [] →
  nt_commit fuel n t local u = Some (n', u') →
  ∃ I, own_rows t (ngc_rows n) (length (ngc_rows n) + local_rows (nodeGroups local)) D I (local_deletions t (nodeGroups local)) (n', u').
Proof.
  intros Hn Hst Ht Hid Hl Htx. unfold nt_commit. rewrite (gk_total n Hn).
  destruct (ngc_appendCollection _ _ _ _ _) as [[n1 u1]|] eqn:E; [cbn [mbind option_bind]|done]. apply appendCollection_spec in E; [|done..].
  destruct (own_rows_appended _ _ _ _ _ _ _ Hst Hid Htx E) as [I HI]. intros Ec. exists I. destruct local as [groups total' res'].
  by eapply commit_deletions_spec; [done|apply Hid|done|exact HI|].
Qed.

(** ** Termination of appends *)

Lemma append_chunks_total fuel t chunks n u : ngc_ok n → Forall strict (ngc_rows n) → appendable n → shouldAppendToUndoBuffer t = true →
  versioned (ID t) → Forall (λ c, cg_numRows c ≤ fuel) chunks →
  ∃ n' u', ofold (λ '(n, u) c, ngc_append_loop fuel t (cg_numRows c) 0 n u) (n, u) chunks = Some (n', u') ∧ appendable n'.
Proof.
  intros Hn Hst Ha Ht Hid Hf. revert n u Hn Hst Ha. induction Hf as [|c chunks Hc _ IH]; intros n u Hn Hst Ha; cbn [ofold]; [eauto|].
  destruct (ngc_append_loop_total fuel t (cg_numRows c) 0 n u) as (n1 & u1 & E & Ha1); [done..|lia|lia|]. rewrite E. cbn [mbind option_bind].
  apply ngc_append_loop_spec in E; [|done..|lia]. apply IH; [apply E|eapply rows_appended_strict; [done|apply E|done]|done].
Qed.

Lemma appendCollection_total fuel n t other u : ngc_ok n → Forall strict (ngc_rows n) → appendable n → shouldAppendToUndoBuffer t = true →
  versioned (ID t) → Forall (λ g, Forall (λ c, cg_numRows c ≤ fuel) (chunkedGroups g)) (nodeGroups other) →
  ∃ n' u', ngc_appendCollection fuel n t other u = Some (n', u') ∧ appendable n'.
Proof.
  intros Hn Hst Ha Ht Hid Hf. unfold ngc_appendCollection. revert n u Hn Hst Ha. induction Hf as [|g groups Hg _ IH]; intros n u Hn Hst Ha; cbn [ofold]; [eauto|].
  destruct (ensure_group n Hn) as [Hn0 Hrows].
  assert (appendable (match nodeGroups n with [] => ngc_with n [newNodeGroup 0] (numTotalRows n) | _ => n end)) as Ha0.
  { destruct (nodeGroups n); [|done]. intros h. cbn. by intros [= <-]. }
  set (n0 := match nodeGroups n with [] => _ | _ => _ end) in *.
  destruct (append_chunks_total fuel t (chunkedGroups g) n0 u) as (n1 & u1 & E & Ha1); [done|by rewrite Hrows|done..|]. rewrite E. cbn [mbind option_bind].
  apply append_chunks_spec in E; [|done|by rewrite Hrows|done..]. apply IH; [apply E| |done].
  eapply rows_appended_strict; [done|apply E|by rewrite Hrows].
Qed.

(** ** Rows reserved by a transaction that is rolled back *)

(** The groups that stay keep the row that is reserved next. *)
Definition keeps_reserved (n n' : NodeGroupCollection) : Prop := ∀ i g', nodeGroups n' !! i = Some g' →
  ∃ g, nodeGroups n !! i = Some g ∧ nextRowToAppend g' = nextRowToAppend g ∧ ng_capacity g' = ng_capacity g.

Lemma keeps_reserved_refl n : keeps_reserved n n.
Proof. intros i g Hg. by exists g. Qed.

Lemma keeps_reserved_trans n1 n2 n3 : keeps_reserved n1 n2 → keeps_reserved n2 n3 → keeps_reserved n1 n3.
Proof. intros H1 H2 i g3 H3. destruct (H2 i g3 H3) as (g2 & Hg2 & A1 & A2). destruct (H1 i g2 Hg2) as (g1 & Hg1 & B1 & B2). exists g1. split_and!; congruence. Qed.

Lemma keeps_reserved_insert n i g g' total : nodeGroups n !! i = Some g → nextRowToAppend g' = nextRowToAppend g → ng_capacity g' = ng_capacity g →
  keeps_reserved n (ngc_with n (<[i := g']> (nodeGroups n)) total).
Proof.
  intros Hg H1 H2 j h. cbn. destruct (decide (j = i)) as [->|Hne].
  - rewrite list_lookup_insert_eq by (by eapply lookup_lt_Some). intros [= <-]. by exists g.
  - rewrite list_lookup_insert_ne by done. intros Hh. by exists h.
Qed.

Lemma getNodeGroup_lookup n i g : getNodeGroup n i = Some g → nodeGroups n !! i = Some g.
Proof. unfold getNodeGroup. destruct (nodeGroups n !! i); [cbn|done]. by destruct (decide _). Qed.

Lemma nt_apply_reserved func n i s k ts n' : nt_applyFuncToChunkedGroups func n i s k ts = Some n' → keeps_reserved n n'.
Proof.
  unfold nt_applyFuncToChunkedGroups. destruct (getNodeGroup n i) as [g|] eqn:Eg; [cbn [mbind option_bind]|done]. apply getNodeGroup_lookup in Eg.
  destruct (ng_applyFuncToChunkedGroups _ _ _ _ _) as [g'|] eqn:E; [cbn [mbind option_bind]|done]. intros [= <-].
  unfold ng_applyFuncToChunkedGroups in E. destruct (decide _); [|done]. destruct (findChunkedGroupIdxFromRowIdxNoLock _ _) as [[j x]|].
  - destruct (apply_groups _ _ _ _ _); [cbn in E|done]. injection E as <-. by apply (keeps_reserved_insert _ _ g).
  - injection E as <-. by apply (keeps_reserved_insert _ _ g).
Qed.

Lemma rollback_record_reserved n rec n' : rollbackVersionInfo n rec = Some n' → keeps_reserved n n'.
Proof.
  unfold rollbackVersionInfo. destruct (recordType rec); [|apply nt_apply_reserved]. unfold nt_rollbackInsert.
  destruct (decide _); [|destruct (decide _); [intros [= <-]; apply keeps_reserved_refl|done]].
  destruct (nt_applyFuncToChunkedGroups _ _ _ _ _ _) as [n1|] eqn:E1; [cbn [mbind option_bind]|done]. apply nt_apply_reserved in E1.
  destruct (getNodeGroup n1 _) as [g|] eqn:Eg; [cbn [mbind option_bind]|done]. apply getNodeGroup_lookup in Eg.
  unfold ngc_rollbackInsert. destruct (decide _); [|done]. intros [= <-]. eapply keeps_reserved_trans; [exact E1|].
  eapply keeps_reserved_trans; [by apply (keeps_reserved_insert n1 _ g (ng_rollbackInsert g (rec_startRow rec)) (numTotalRows n1) Eg)|].
  intros i h. cbn. unfold removeTrailingGroups. intros [Hh _]%lookup_take_Some. by exists h.
Qed.

Lemma undo_rollback_reserved u n n' : undo_rollback u n = Some n' → keeps_reserved n n'.
Proof.
  intros E. eapply (ofold_partial _ (λ _ n', keeps_reserved n n')) in E; [done|apply keeps_reserved_refl|].
  intros _ rec _ n1 n2 _ H1 H2%rollback_record_reserved. by eapply keeps_reserved_trans.
Qed.

Lemma last_group n l g : ngc_ok n → nodeGroups n = l ++ [g] → length (ngc_rows n) = length l * NODE_GROUP_SIZE + numRows g.
Proof.
  intros Hn El. assert (nodeGroups n !! length l = Some g) as Hg by (rewrite El; by apply list_lookup_middle).
  destruct (ngc_rows_split n (length l) g Hn Hg) as (b & a & -> & Hb & _ & ->). destruct (gk_groups n Hn _ _ Hg) as ([_ Hr] & _).
  rewrite El, !length_app, Hb, Hr, (drop_ge (l ++ [g])) by (rewrite length_app; cbn; lia). cbn. lia.
Qed.

(** The last group of a table, found from the number of rows. *)
Lemma last_group_at n i k : ngc_ok n → length (ngc_rows n) = i * NODE_GROUP_SIZE + k → 0 < k < NODE_GROUP_SIZE →
  ∃ g, last (nodeGroups n) = Some g ∧ nodeGroups n !! i = Some g ∧ numRows g = k ∧ ng_capacity g = NODE_GROUP_SIZE.
Proof.
  intros Hn Hlen Hk. destruct (nodeGroups n) as [|h hs _] eqn:En using rev_ind.
  { unfold ngc_rows in Hlen. rewrite En in Hlen. cbn in Hlen. lia. }
  pose proof (last_group n hs h Hn En) as Hl. assert (nodeGroups n !! length hs = Some h) as Hh by (rewrite En; by apply list_lookup_middle).
  destruct (gk_groups n Hn _ _ Hh) as (_ & _ & Hcap & Hlim & _). rewrite Hlen in Hl.
  assert (i = length hs) as -> by nia. exists h. rewrite last_snoc. split_and!; [done|by apply list_lookup_middle|lia|done].
Qed.

(** The append that fills the last group. *)
Lemma fill_last_group n t u l g k : ngc_ok n → Forall strict (ngc_rows n) → nodeGroups n = l ++ [g] → 0 < numRows g < NODE_GROUP_SIZE →
  nextRowToAppend g = numRows g → shouldAppendToUndoBuffer t = true → versioned (ID t) → numRows g + k = NODE_GROUP_SIZE →
  ∃ g' u', ngc_append 1 n t k u = Some (ngc_with n (l ++ [g']) (numTotalRows n + k), u') ∧ nextRowToAppend g' = NODE_GROUP_SIZE ∧
    table_appended (ID t) k n u (ngc_with n (l ++ [g']) (numTotalRows n + k)) u'.
Proof.
  intros Hn Hst El Hg Hnext Ht Hid Hk. assert (nodeGroups n !! length l = Some g) as Hgl by (rewrite El; by apply list_lookup_middle).
  destruct (gk_groups n Hn _ _ Hgl) as (_ & _ & Hcap & _). assert (getNumRowsLeftToAppend g = k) as Hleft by (unfold getNumRowsLeftToAppend; lia).
  assert (ngc_with n (l ++ [g]) (numTotalRows n) = n) as Hn0 by (rewrite <-El; by destruct n).
  destruct (append_round n t k u l g) as (g' & E & Happ & _ & Hnx); [by rewrite Hn0|done|by rewrite Hn0|done|done|lia|].
  exists g', (pushInsertInfo n t g k u). split_and!; [|lia|done]. unfold ngc_append.
  replace (match nodeGroups n with [] => _ | _ => n end) with n by (rewrite El; by destruct l). cbn [ngc_append_loop]. rewrite decide_True by lia.
  rewrite El, last_snoc. unfold isFull. rewrite bool_decide_false by lia. rewrite last_snoc. cbn [mbind option_bind].
  rewrite Nat.sub_0_r, Hleft, Nat.min_id, E. cbn [mbind option_bind]. rewrite decide_False by lia. do 3 f_equal. rewrite length_app. cbn [length].
  replace (length l + 1 - 1) with (length l + 0) by lia. by rewrite insert_app_r.
Qed.

Lemma tx_ok_start t n : tx_ok (ID t) (ngc_rows n) [] (length (ngc_rows n)) [] [] [] ↔ Forall (λ r, r_ins r ≠ ID t ∧ r_del r ≠ ID t) (ngc_rows n).
Proof.
  split.
  - intros [T1 T2 T3 [_ T4] T5 T6]. apply Forall_lookup_2. intros k r Hr. pose proof (lookup_lt_Some _ _ _ Hr). split.
    + intros Hi%(T5 k r Hr). lia.
    + intros Hd. destruct (T4 k r Hr Hd) as (? & ?%elem_of_nil & _). done.
  - intros Hf. split; [done|constructor|done| | |].
    + split; [intros ? ?%elem_of_nil; done|]. intros k r Hr Hd. by destruct (Forall_lookup_1 _ _ _ _ Hf Hr).
    + intros k r Hr. pose proof (lookup_lt_Some _ _ _ Hr). destruct (Forall_lookup_1 _ _ _ _ Hf Hr). split; [lia|done].
    + intros k r Hr Hk. apply lookup_lt_Some in Hr. lia.
Qed.

(** C19. [NodeGroup::rollbackInsert] does not give back the rows reserved by [moveNextRowToAppend]: when a transaction
    that filled up the last node group of a table is rolled back, the table has its old rows again, and no further
    append of rows to it ever returns, whatever the number of iterations. *)
Theorem append_blocked_after_rollback (n : NodeGroupCollection) (t : Transaction) (l : list NodeGroup) (g : NodeGroup) :
  ngc_ok n → Forall strict (ngc_rows n) → nodeGroups n = l ++ [g] → 0 < numRows g < NODE_GROUP_SIZE → nextRowToAppend g = numRows g →
  shouldAppendToUndoBuffer t = true → versioned (ID t) → Forall (λ r, r_ins r ≠ ID t ∧ r_del r ≠ ID t) (ngc_rows n) →
  ∃ n1 u1 n2, ngc_append 1 n t (NODE_GROUP_SIZE - numRows g) [] = Some (n1, u1) ∧ undo_rollback u1 n1 = Some n2 ∧
    pointwise (λ _, row_keep) (ngc_rows n) (ngc_rows n2) ∧
    ∀ fuel t' rows u, 0 < rows → ngc_append fuel n2 t' rows u = None.
Proof.
  intros Hn Hst El Hg Hnext Ht Hid Hown. pose proof (proj2 (tx_ok_start t n) Hown) as Htx.
  destruct (fill_last_group n t [] l g (NODE_GROUP_SIZE - numRows g)) as (g' & u1 & E1 & Hnx & Happ); [done..|lia|]. set (n1 := ngc_with _ _ _) in *.
  destruct (own_rows_appended t n [] [] _ n1 u1 Hst Hid Htx Happ) as (I & [O1 O2 O3 O4 [D2 O5] O6]). cbn [fst snd] in *.
  destruct (undo_rollback_spec (ID t) n1 u1 _ _ _ _ O1 O2 O5 Hid) as (n2 & E2 & Hn2 & Hp). exists n1, u1, n2. split_and!; [done|done| |].
  - apply Forall2_same_length_lookup in O4 as [L4 O4]. split; [by rewrite (proj1 Hp), <-L4|]. intros j r r2 Hr Hr2.
    destruct (pointwise_lookup_r _ _ _ _ _ Hp Hr2) as (r1 & Hr1 & P1 & P2 & P3 & P4). destruct (O4 j r r1 Hr Hr1) as (K1 & K2 & K3 & K4).
    destruct (Forall_lookup_1 _ _ _ _ Hown Hr) as [_ Hd]. split_and!; [congruence| |auto|auto]. rewrite P2, K2. unfold rename. by rewrite decide_False.
  - intros fuel t' rows u Hrows. destruct (last_group_at n2 (length l) (numRows g) Hn2) as (g2 & Hlast & Hi & Hg2 & Hcap2); [|done|].
    { rewrite (proj1 Hp), length_take, O3, (last_group n l g Hn El). lia. }
    destruct (undo_rollback_reserved _ _ _ E2 _ _ Hi) as (h & Hh & Hres & _). unfold n1 in Hh. cbn in Hh. rewrite list_lookup_middle in Hh by done.
    injection Hh as <-. unfold ngc_append. replace (match nodeGroups n2 with [] => _ | _ => n2 end) with n2 by (by destruct (nodeGroups n2)).
    apply (append_stuck _ _ _ _ _ _ g2); [done|apply bool_decide_eq_false; lia|unfold getNumRowsLeftToAppend; lia|done].
Qed.

(** A table of one row on disk, and a transaction. *)
Definition one_row_table : NodeGroupCollection :=
  mkCollection [mkNodeGroup 0 [mkChunked ON_DISK 0 1 1 None] 1 1 NODE_GROUP_SIZE] 1 ON_DISK.
Definition writer : Transaction := mkTransaction WRITE (2 ^ 63 + 1) 1.

Lemma one_row_rows : ngc_rows one_row_table = [mkRow 0 INVALID_TRANSACTION (row_vector [] 0) (ON_DISK = IN_MEMORY)].
Proof. reflexivity. Qed.

Lemma one_row_ok : ngc_ok one_row_table.
Proof.
  split; [|by rewrite one_row_rows|done]. intros [|i] g Hg; [|done]. injection Hg as <-. pose proof group_size_pos. split_and!; cbn [nodeGroupIdx ng_capacity numRows nextRowToAppend]; [|done..|lia|lia|cbn; lia].
  split; [|done]. cbn [chunkedGroups chunks_ok]. split_and!; [|done|unfold nonempty; cbn; lia|done|done].
  split; cbn [cg_numRows cg_capacity residencyState]; [lia|intros k v; by destruct k|done|]. intros _ r. unfold row_ins, row_of, vi_of. cbn. by destruct (r / _).
Qed.

Lemma one_row_strict : Forall strict (ngc_rows one_row_table).
Proof. rewrite one_row_rows. constructor; [|constructor]. split; [done|by intros ?]. Qed.

Lemma one_row_free : Forall (λ r, r_ins r ≠ ID writer ∧ r_del r ≠ ID writer) (ngc_rows one_row_table).
Proof. rewrite one_row_rows. constructor; [|constructor]. done. Qed.

Lemma append_blocked_after_rollback_witness :
  ∃ n1 u1 n2, ngc_append 1 one_row_table writer (NODE_GROUP_SIZE - 1) [] = Some (n1, u1) ∧ undo_rollback u1 n1 = Some n2 ∧
    pointwise (λ _, row_keep) (ngc_rows one_row_table) (ngc_rows n2) ∧
    ∀ fuel t' rows u, 0 < rows → ngc_append fuel n2 t' rows u = None.
Proof.
  apply (append_blocked_after_rollback one_row_table writer [] (mkNodeGroup 0 [mkChunked ON_DISK 0 1 1 None] 1 1 NODE_GROUP_SIZE)).
  - exact one_row_ok.
  - exact one_row_strict.
  - reflexivity.
  - split; [apply Nat.ltb_lt; reflexivity|apply Nat.ltb_lt; vm_compute; reflexivity].
  - reflexivity.
  - reflexivity.
  - split; discriminate.
  - exact one_row_free.
Defined.
