(* ===== verification/LocalTable.v ===== *)
(** The rows that a transaction inserts before it commits: [LocalNodeTable] of
    [src/src/storage/local_storage/local_node_table.cpp], and the commit of such rows to the table.

    Local rows are inserted and deleted as by the dummy transaction: they have no version of their insertion and
    the version 0 for their deletion. The answer of the local primary key index is an argument of [local_insert].
    A local table is seen as the list of its rows, each deleted or not, and [commit] is proved to always succeed
    on a table of which no reserved rows were lost. *)

From stdpp Require Import list_numbers.
From S2P Require Import Prelude NullMask MultiwayIntersect SelVector Serialize VersionInfo NodeGroup.

Definition DUMMY_TRANSACTION : Transaction := mkTransaction DUMMY 0 0.

Record LocalNodeTable := mkLocal { startOffset : nat; localGroups : NodeGroupCollection }.

Definition newLocalNodeTable (table : NodeGroupCollection) : LocalNodeTable :=
  mkLocal (numTotalRows table) (mkCollection [] 0 IN_MEMORY).

Definition ng_isInserted (g : NodeGroup) (t : Transaction) (offsetInGroup : nat) : option bool :=
  '(_, c) ← findChunkedGroupFromRowIdx g offsetInGroup; cg_isInserted c t (offsetInGroup - startRowIdx c).

Definition local_isVisible (l : LocalNodeTable) (t : Transaction) (offset : nat) : option bool :=
  let '(nodeGroupIdx, offsetInGroup) := getNodeGroupIdxAndOffsetInChunk (offset - startOffset l) in
  g ← getNodeGroup (localGroups l) nodeGroupIdx;
  d ← ng_isDeleted g t offsetInGroup;
  if d : bool then Some false else ng_isInserted g t offsetInGroup.

(** [unique] is the answer of [hashIndex->insert]. One row is appended in one iteration of the loop of [append]. *)
Definition local_insert (l : LocalNodeTable) (unique : bool) : option (LocalNodeTable * Res nat) :=
  let nodeOffset := startOffset l + numTotalRows (localGroups l) in
  if unique then
    '(n, _) ← ngc_append 1 (localGroups l) DUMMY_TRANSACTION 1 [];
    Some (mkLocal (startOffset l) n, Ret nodeOffset)
  else Some (l, Throw RuntimeException).

Definition local_delete_ (l : LocalNodeTable) (offset : nat) : option (LocalNodeTable * Res bool) :=
  if decide (startOffset l ≤ offset) then
    let '(nodeGroupIdx, rowIdxInGroup) := getQuotientRemainder (offset - startOffset l) NODE_GROUP_SIZE in
    g ← getNodeGroup (localGroups l) nodeGroupIdx;
    '(g, r) ← ng_delete_ g DUMMY_TRANSACTION rowIdxInGroup;
    Some (mkLocal (startOffset l) (ngc_with (localGroups l) (<[nodeGroupIdx := g]> (nodeGroups (localGroups l))) (numTotalRows (localGroups l))), r)
  else None.

(** [clear] of the local node groups keeps the number of rows. *)
Definition local_clear (l : LocalNodeTable) : LocalNodeTable :=
  mkLocal (startOffset l) (ngc_with (localGroups l) [] (numTotalRows (localGroups l))).

#[local] Opaque CHUNKED_NODE_GROUP_CAPACITY NODE_GROUP_SIZE DEFAULT_VECTOR_CAPACITY.

Local Abbreviation CAP := DEFAULT_VECTOR_CAPACITY.
Local Abbreviation CH := CHUNKED_NODE_GROUP_CAPACITY.

(** ** Lists cut in pieces of one length *)

Lemma uniform_insert {A} N (ls : list (list A)) i l l' : uniform N ls → ls !! i = Some l → length l' = length l → uniform N (<[i := l']> ls).
Proof.
  intros Hu Hi Hl j m Hj. rewrite length_insert. destruct (decide (j = i)) as [->|Hne].
  - rewrite list_lookup_insert_eq in Hj by (by eapply lookup_lt_Some). injection Hj as <-. rewrite Hl. by apply Hu.
  - rewrite list_lookup_insert_ne in Hj by done. by apply Hu.
Qed.

Lemma uniform_join_insert {A} N (ls : list (list A)) i l j x : uniform N ls → ls !! i = Some l → j < length l →
  mjoin (<[i := <[j := x]> l]> ls) = <[i * N + j := x]> (mjoin ls).
Proof.
  intros Hu Hi Hj. rewrite (insert_take_drop _ i) by (by eapply lookup_lt_Some). rewrite <-(take_drop_middle _ _ _ Hi) at 3.
  rewrite !join_app, !join_cons. rewrite <-(uniform_take _ _ _ _ Hu Hi), insert_app_r. f_equal. by rewrite insert_app_l.
Qed.

(** The last piece grows, or a new one begins when it is full. *)
Lemma uniform_last {A} N (ls : list (list A)) l l' : uniform N (ls ++ [l]) → length l' ≤ N → uniform N (ls ++ [l']).
Proof.
  intros Hu Hl i m Hi. rewrite length_app. cbn [length]. apply lookup_app_Some in Hi as [Hi|[Hge Hi]].
  - destruct (Hu i m) as [H1 H2]; [by apply lookup_app_l_Some|]. rewrite length_app in H2. done.
  - apply list_lookup_singleton_Some in Hi as [? <-]. split; [done|lia].
Qed.

Lemma uniform_snoc {A} N (ls : list (list A)) l : uniform N ls → (∀ m, last ls = Some m → length m = N) → length l ≤ N → uniform N (ls ++ [l]).
Proof.
  intros Hu Hlast Hl i m Hi. rewrite length_app. cbn [length]. apply lookup_app_Some in Hi as [Hi|[Hge Hi]].
  - destruct (Hu i m Hi) as [H1 H2]. split; [done|]. intros _. destruct (decide (S i < length ls)); [by apply H2|]. apply Hlast.
    rewrite last_lookup. pose proof (lookup_lt_Some _ _ _ Hi). by replace (pred (length ls)) with i by lia.
  - apply list_lookup_singleton_Some in Hi as [? <-]. split; [done|lia].
Qed.

(** ** Versions of local rows *)

Lemma vec_hasDeletions_spec v startTS tid : vec_ok v → deletionStatus v = DELETED_CHECK_VERSION → snapshot_ok startTS tid →
  ∃ b, vec_hasDeletions v startTS tid = Some b ∧ (b = false → ∀ i, i < CAP → version_seen startTS tid (del_of v i) = false).
Proof.
  intros Hv Hd Hs. unfold vec_hasDeletions. pose proof (proj2 Hv) as [(_ & _ & ?)|[(D1 & D2 & _)|[a (D1 & D2 & _ & D4 & _)]]]; [congruence|..].
  - rewrite (proj2 (isSame_del_true v)) by done. eexists. split; [done|]. intros Hf i _. unfold del_of. rewrite Hd, (proj2 (isSame_del_true v)) by done.
    unfold version_seen. apply orb_false_iff in Hf as [H1 H2]. by rewrite H1, H2.
  - rewrite (proj2 (isSame_del_false v)), D2 by done. cbn [mbind option_bind]. rewrite D4.
    pose proof (vec_getNumDeletions_spec v startTS tid 0 CAP Hv Hs (le_n _)) as E. unfold vec_getNumDeletions in E.
    rewrite decide_False in E by congruence. cbn [Nat.add] in E. rewrite E. cbn [mbind option_bind]. eexists. split; [done|]. intros Hf i Hi. apply bool_decide_eq_false in Hf.
    destruct (version_seen startTS tid (del_of v i)) eqn:Ei; [|done]. exfalso. apply Hf. destruct (filter _ _) as [|] eqn:El; [|cbn; lia].
    assert (i ∈ filter (λ i, version_seen startTS tid (del_of v i) = true) (seq 0 CAP)) as Hin by (apply list_elem_of_filter; split; [done|]; apply elem_of_seq; lia).
    rewrite El in Hin. by apply elem_of_nil in Hin.
Qed.

Lemma hasDeletionsFor_spec vi startTS tid : rows_ok vi → (∀ k v, getVectorVersionInfo vi k = Some v → deletionStatus v = DELETED_CHECK_VERSION) →
  snapshot_ok startTS tid → ∃ b, hasDeletionsFor vi startTS tid = Some b ∧ (b = false → ∀ r, version_seen startTS tid (row_del vi r) = false).
Proof.
  intros Hok Hd Hs. assert (∃ b, hasDeletionsFor vi startTS tid = Some b ∧
    (b = false → ∀ k v, getVectorVersionInfo vi k = Some v → ∀ i, i < CAP → version_seen startTS tid (del_of v i) = false)) as (b & E & Hb).
  { unfold rows_ok, getVectorVersionInfo in *. induction vi as [|[v|] vi IH]; cbn [hasDeletionsFor].
    - exists false. split; [done|]. intros _ k v. by destruct k.
    - destruct (vec_hasDeletions_spec v startTS tid) as ([] & -> & Hv); [by apply (Hok 0)|by apply (Hd 0)|done|by exists true|]. cbn [mbind option_bind].
      destruct IH as (b & -> & Hb); [by intros k; apply (Hok (S k))|by intros k; apply (Hd (S k))|]. exists b. split; [done|].
      intros -> [|k] w; cbn; [intros [= <-]; by apply Hv|]. by apply Hb.
    - destruct IH as (b & -> & Hb); [by intros k; apply (Hok (S k))|by intros k; apply (Hd (S k))|]. exists b. split; [done|].
      intros -> [|k] w; cbn; [done|]. by apply Hb. }
  exists b. split; [done|]. intros -> r. unfold row_del, row_of. destruct (getVectorVersionInfo vi (r / CAP)) as [v|] eqn:Ev; [|by apply seen_invalid].
  apply (Hb eq_refl _ _ Ev). apply row_split.
Qed.

(** The version information of a local chunk of [m] rows. *)
Record local_vi (vi : VersionInfo) (m : nat) : Prop := {
  lv_rows : rows_ok vi;
  lv_ins : ∀ r, row_ins vi r = 0%Z;
  lv_del : ∀ r, row_del vi r = INVALID_TRANSACTION ∨ row_del vi r = 0%Z;
  lv_rest : ∀ r, m ≤ r → row_del vi r = INVALID_TRANSACTION;
  lv_status : ∀ k v, getVectorVersionInfo vi k = Some v → deletionStatus v = DELETED_CHECK_VERSION
}.

Lemma vec_delete_status v tid i v' r : vec_delete_ v tid i = Some (v', r) → deletionStatus v' = DELETED_CHECK_VERSION.
Proof.
  unfold vec_delete_. destruct (decide _); [by intros [= <- _]|]. destruct (isSameDeletionVersion _); [by intros [= <- _]|].
  destruct (_ !! i) as [x|]; [cbn [mbind option_bind]|done]. destruct (decide _); [by intros [= <- _]|]. destruct (decide _); by intros [= <- _].
Qed.

Lemma delete_status vi tid r vi' x : (∀ k v, getVectorVersionInfo vi k = Some v → deletionStatus v = DELETED_CHECK_VERSION) →
  delete_ vi tid r = Some (vi', x) → ∀ k v, getVectorVersionInfo vi' k = Some v → deletionStatus v = DELETED_CHECK_VERSION.
Proof.
  intros Hd. unfold delete_, getQuotientRemainder, getOrCreateVersionInfo. set (v0 := if decide _ then _ else _).
  destruct (vec_delete_ v0 tid _) as [[v1 x1]|] eqn:E; [cbn [mbind option_bind]|done]. apply vec_delete_status in E.
  unfold VersionInfo in *. rewrite list_insert_insert_eq. intros [= <- _] k v. rewrite get_insert. destruct (decide (k = _)); intros Hg; [by injection Hg as <-|by eapply Hd].
Qed.

Lemma local_delete_vi vi m r : local_vi vi m → r < m →
  ∃ vi', delete_ vi 0 r = Some (vi', Ret (bool_decide (row_del vi r = INVALID_TRANSACTION))) ∧ local_vi vi' m ∧
    ∀ j, row_del vi' j = if decide (j = r) then 0%Z else row_del vi j.
Proof.
  intros [H1 H2 H3 H4 H5] Hr. destruct (delete_rows vi 0 r H1) as (vi' & E & Hok & Hins & Hdel & _); [done|by rewrite H2|].
  assert (∀ j, row_del vi' j = if decide (j = r) then 0%Z else row_del vi j) as Hdel'.
  { intros j. rewrite Hdel. destruct (decide (j = r)) as [->|Hne]; [|by rewrite decide_False by (by intros [? _])].
    destruct (H3 r) as [Hx|Hx]; [by rewrite decide_True|]. rewrite decide_False; [done|]. rewrite Hx. by intros [_ ?]. }
  exists vi'. split_and!; [|split|done].
  - rewrite E. do 2 f_equal. unfold delete_result. destruct (H3 r) as [->| ->]; by vm_compute.
  - done.
  - intros j. by rewrite Hins.
  - intros j. rewrite Hdel'. destruct (decide (j = r)); [by right|apply H3].
  - intros j Hj. rewrite Hdel', decide_False by lia. by apply H4.
  - by eapply delete_status.
Qed.

(** ** Local chunks and groups

    The rows of a local table, each deleted or not. *)
Definition cg_flags (c : ChunkedNodeGroup) : list bool :=
  (λ r, bool_decide (row_del (vi_of c) r ≠ INVALID_TRANSACTION)) <$> seq 0 (cg_numRows c).
Definition g_flags (g : NodeGroup) : list bool := mjoin (cg_flags <$> chunkedGroups g).
Definition local_flags (n : NodeGroupCollection) : list bool := mjoin (g_flags <$> nodeGroups n).

Record local_chunk (c : ChunkedNodeGroup) : Prop := {
  lc_memory : residencyState c = IN_MEMORY;
  lc_capacity : cg_capacity c = CH;
  lc_rows : cg_numRows c ≤ CH;
  lc_versions : local_vi (vi_of c) (cg_numRows c)
}.

Definition local_chunks (chunks : list ChunkedNodeGroup) : Prop :=
  (∀ i c, chunks !! i = Some c → local_chunk c ∧ startRowIdx c = i * CH) ∧ uniform CH (cg_flags <$> chunks).

Record local_group (g : NodeGroup) : Prop := {
  lg_chunks : local_chunks (chunkedGroups g);
  lg_rows : numRows g = length (g_flags g);
  lg_next : nextRowToAppend g = numRows g;
  lg_capacity : ng_capacity g = NODE_GROUP_SIZE;
  lg_limit : numRows g ≤ NODE_GROUP_SIZE
}.

Record local_ok (n : NodeGroupCollection) : Prop := {
  lo_groups : ∀ i g, nodeGroups n !! i = Some g → local_group g ∧ nodeGroupIdx g = i;
  lo_uniform : uniform NODE_GROUP_SIZE (g_flags <$> nodeGroups n);
  lo_total : numTotalRows n = length (local_flags n);
  lo_residency : residency n = IN_MEMORY
}.

Lemma length_cg_flags c : length (cg_flags c) = cg_numRows c.
Proof. unfold cg_flags. by rewrite length_fmap, length_seq. Qed.

Lemma local_vi_nil m : local_vi [] m.
Proof.
  assert (∀ k, getVectorVersionInfo [] k = None) as Hn by (by intros []). split.
  - intros k v. by rewrite Hn.
  - intros r. unfold row_ins, row_of. by rewrite Hn.
  - intros r. left. unfold row_del, row_of. by rewrite Hn.
  - intros r _. unfold row_del, row_of. by rewrite Hn.
  - intros k v. by rewrite Hn.
Qed.

Lemma new_local_chunk i : local_chunk (newChunkedGroup i).
Proof. split; [done|done|cbn; lia|apply local_vi_nil]. Qed.

Lemma join_full {A} N (ls : list (list A)) : uniform N ls → (∀ m, last ls = Some m → length m = N) → length (mjoin ls) = length ls * N.
Proof.
  intros Hu Hlast. destruct ls as [|l ls _] using rev_ind; [done|]. rewrite join_app, !length_app. cbn [length].
  pose proof (uniform_take N _ (length ls) l Hu) as Ht. rewrite list_lookup_middle, take_app_length in Ht by done. rewrite Ht by done.
  rewrite last_snoc in Hlast. cbn. rewrite app_nil_r, (Hlast l) by done. lia.
Qed.

(** The chunk an append goes to. *)
Lemma prepare_local chunks before : local_chunks chunks → before = length (mjoin (cg_flags <$> chunks)) →
  ∃ l c, match last chunks with
    | Some c => if isFullOrOnDisk c then chunks ++ [newChunkedGroup (before + 0)] else chunks
    | None => chunks ++ [newChunkedGroup (before + 0)]
    end = l ++ [c] ∧ local_chunks (l ++ [c]) ∧ mjoin (cg_flags <$> l ++ [c]) = mjoin (cg_flags <$> chunks) ∧ cg_numRows c < CH.
Proof.
  intros [Hc Hu] Hb. pose proof chunk_cap_pos as Hpos.
  assert ((∀ c, last chunks = Some c → cg_numRows c = CH) → local_chunks (chunks ++ [newChunkedGroup (before + 0)]) ∧
    mjoin (cg_flags <$> chunks ++ [newChunkedGroup (before + 0)]) = mjoin (cg_flags <$> chunks)) as Hnew.
  { intros Hlast. assert (∀ m, last (cg_flags <$> chunks) = Some m → length m = CH) as Hlast'.
    { intros m. rewrite fmap_last. destruct (last chunks) as [c|]; [|done]. cbn. intros [= <-]. rewrite length_cg_flags. by apply Hlast. }
    split; [|rewrite fmap_app, join_app; cbn; by rewrite app_nil_r]. split.
    - intros i c [Hi|[Hge Hi]]%lookup_app_Some; [by apply Hc|]. apply list_lookup_singleton_Some in Hi as [Hi <-]. split; [apply new_local_chunk|].
      cbn. rewrite Hb, (join_full CH) by done. rewrite length_fmap. replace i with (length chunks) by lia. lia.
    - rewrite fmap_app. apply uniform_snoc; [done..|]. cbn. lia. }
  destruct (last chunks) as [c|] eqn:El.
  - assert (chunks !! pred (length chunks) = Some c) as Hi by (by rewrite <-last_lookup). destruct (Hc _ _ Hi) as [[C1 C2 C3 C4] _].
    unfold isFullOrOnDisk. rewrite C1, C2. cbn. rewrite orb_false_r. case_bool_decide as Hfull.
    + destruct Hnew as [H1 H2]; [by intros ? [= <-]|]. eexists chunks, _. split_and!; [done..|cbn; lia].
    + apply last_Some in El as [l ->]. exists l, c. split_and!; [done|done|done|lia].
  - destruct Hnew as [H1 H2]; [done|]. eexists chunks, _. split_and!; [done..|cbn; lia].
Qed.

(** The rows of the last chunk, and one more. *)
Lemma local_chunk_grows l c : local_chunks (l ++ [c]) → cg_numRows c < CH →
  let c' := cg_with c (cg_numRows c + 1) (versionInfo c) in
  local_chunks (l ++ [c']) ∧ mjoin (cg_flags <$> l ++ [c']) = mjoin (cg_flags <$> l ++ [c]) ++ [false].
Proof.
  intros [Hc Hu] Hlt c'. destruct (Hc (length l) c) as [[C1 C2 C3 C4] Cs]; [by apply list_lookup_middle|].
  assert (cg_flags c' = cg_flags c ++ [false]) as Hf.
  { unfold cg_flags. cbn [cg_numRows c' cg_with]. rewrite Nat.add_1_r, seq_S, fmap_app. cbn. f_equal. f_equal.
    apply bool_decide_eq_false. intros Hne. apply Hne. change (vi_of c') with (vi_of c). apply (lv_rest _ _ C4). lia. }
  split; [split|].
  - intros i d [Hi|[Hge Hi]]%lookup_app_Some; [by apply Hc, lookup_app_l_Some|]. apply list_lookup_singleton_Some in Hi as [Hi <-].
    split; [|cbn; rewrite Cs; f_equal; lia]. destruct C4 as [V1 V2 V3 V4 V5]. split; cbn; [done|done|lia|]. split; [done..| |done].
    intros r Hr. apply V4. lia.
  - rewrite fmap_app in *. eapply uniform_last; [exact Hu|]. rewrite length_cg_flags. cbn. lia.
  - rewrite !fmap_app, !join_app. change (mjoin (cg_flags <$> [c'])) with (cg_flags c' ++ []). change (mjoin (cg_flags <$> [c])) with (cg_flags c ++ []).
    by rewrite !app_nil_r, Hf, app_assoc.
Qed.

Lemma local_chunks_start chunks : local_chunks chunks → let chunks' := match chunks with [] => [newChunkedGroup 0] | _ => chunks end in
  local_chunks chunks' ∧ mjoin (cg_flags <$> chunks') = mjoin (cg_flags <$> chunks).
Proof.
  intros Hc. destruct chunks; [|done]. split; [|done]. split.
  - intros i c [-> <-]%list_lookup_singleton_Some. split; [apply new_local_chunk|done].
  - apply (uniform_snoc CH []); [by intros i l|done|cbn; lia].
Qed.

Lemma local_append_group g : local_group g → numRows g < NODE_GROUP_SIZE →
  ∃ g', ng_append (moveNextRowToAppend g 1) DUMMY_TRANSACTION 1 = Some g' ∧ local_group g' ∧ g_flags g' = g_flags g ++ [false] ∧
    nodeGroupIdx g' = nodeGroupIdx g.
Proof.
  intros [G1 G2 G3 G4 G5] Hlt. unfold ng_append. cbn [chunkedGroups moveNextRowToAppend numRows].
  destruct (local_chunks_start _ G1) as [S1 S2]. set (chunks := match chunkedGroups g with [] => _ | _ => _ end) in *.
  cbn [ng_append_loop]. rewrite decide_True by lia.
  destruct (prepare_local chunks (numRows g) S1) as (l & c & -> & Hl & Hfl & Hrows); [by rewrite S2|]. rewrite last_snoc. cbn [mbind option_bind].
  rewrite decide_True by lia. replace ((1 - 0) `min` (CH - cg_numRows c)) with 1 by lia.
  destruct (proj1 Hl (length l) c) as [[C1 C2 C3 C4] Cs]; [by apply list_lookup_middle|].
  unfold cg_append. rewrite decide_False by congruence. rewrite C2. replace (1 `min` (CH - cg_numRows c)) with 1 by lia. change (shouldAppendToUndoBuffer DUMMY_TRANSACTION) with false. cbn [mbind option_bind].
  destruct (local_chunk_grows l c Hl Hrows) as [H1 H2]. rewrite length_app. cbn [length]. replace (length l + 1 - 1) with (length l + 0) by lia.
  rewrite insert_app_r. cbn [insert list_insert].
  rewrite decide_False by lia. cbn [mbind option_bind]. eexists. split; [done|].
  assert (g_flags (ng_with (moveNextRowToAppend g 1) (l ++ [cg_with c (cg_numRows c + 1) (versionInfo c)]) (numRows g + 1)) = g_flags g ++ [false]) as Hgf.
  { unfold g_flags. cbn [chunkedGroups ng_with]. by rewrite H2, Hfl, S2. }
  split_and!; [|done|done]. split; cbn [chunkedGroups ng_with numRows nextRowToAppend ng_capacity moveNextRowToAppend]; [done| |lia|done|lia].
  rewrite Hgf, length_app, G2. done.
Qed.

(** ** Inserting a row *)

Lemma new_local_group i : local_group (newNodeGroup i).
Proof. split; [|done|done|done|cbn; lia]. split; [done|by intros i' l]. Qed.

(** The group an insertion goes to. *)
Lemma prepare_local_group n : local_ok n →
  let n0 := match nodeGroups n with [] => ngc_with n [newNodeGroup 0] (numTotalRows n) | _ => n end in
  ∃ l g, match last (nodeGroups n0) with
    | Some g => if isFull g then nodeGroups n0 ++ [newNodeGroup (length (nodeGroups n0))] else nodeGroups n0
    | None => nodeGroups n0 ++ [newNodeGroup (length (nodeGroups n0))]
    end = l ++ [g] ∧ local_ok (ngc_with n (l ++ [g]) (numTotalRows n)) ∧
    local_flags (ngc_with n (l ++ [g]) (numTotalRows n)) = local_flags n ∧ numRows g < NODE_GROUP_SIZE.
Proof.
  intros [O1 O2 O3 O4] n0. pose proof group_size_pos as Hpos.
  assert (∀ groups total, (∀ i g, groups !! i = Some g → local_group g ∧ nodeGroupIdx g = i) → uniform NODE_GROUP_SIZE (g_flags <$> groups) →
    (∀ g, last groups = Some g → numRows g = NODE_GROUP_SIZE) → mjoin (g_flags <$> groups) = local_flags n → total = length (local_flags n) →
    local_ok (ngc_with n (groups ++ [newNodeGroup (length groups)]) total) ∧
    local_flags (ngc_with n (groups ++ [newNodeGroup (length groups)]) total) = local_flags n) as Hnew.
  { intros groups total Hg Hu Hlast Hf Ht. assert (local_flags (ngc_with n (groups ++ [newNodeGroup (length groups)]) total) = local_flags n) as Hf'.
    { unfold local_flags at 1. cbn [nodeGroups ngc_with]. rewrite fmap_app, join_app, Hf. cbn. by rewrite app_nil_r. }
    split; [|done]. split; cbn [nodeGroups ngc_with numTotalRows residency]; [| |by rewrite Hf'|done].
    - intros i g [Hi|[Hge Hi]]%lookup_app_Some; [by apply Hg|]. apply list_lookup_singleton_Some in Hi as [Hi <-]. split; [apply new_local_group|cbn; lia].
    - rewrite fmap_app. apply uniform_snoc; [done| |cbn; lia]. intros m. rewrite fmap_last. destruct (last groups) as [g|] eqn:El; [|done]. cbn.
      intros [= <-]. rewrite <-(Hlast g eq_refl). symmetry. apply lg_rows. rewrite last_lookup in El. by apply (Hg _ _ El). }
  destruct (nodeGroups n) as [|g0 gs] eqn:En.
  - change (nodeGroups n0) with [newNodeGroup 0]. cbn [last]. unfold isFull. rewrite bool_decide_false by (cbn; lia).
    exists [], (newNodeGroup 0). split; [done|]. cbn [app]. destruct (Hnew [] (numTotalRows n)) as [H1 H2]; [done|by intros i m|done| |done|].
    { unfold local_flags. by rewrite En. }
    split_and!; [done..|cbn; lia].
  - change (nodeGroups n0) with (nodeGroups n). rewrite En. set (groups := g0 :: gs) in *.
    destruct (last groups) as [g|] eqn:El; [|by apply last_None in El].
    assert (groups !! pred (length groups) = Some g) as Hi by (by rewrite <-last_lookup). destruct (O1 _ _ Hi) as [[G1 G2 G3 G4 G5] Gi].
    assert (mjoin (g_flags <$> groups) = local_flags n) as Hf by (unfold local_flags; by rewrite En).
    unfold isFull. rewrite G4. case_bool_decide as Hfull.
    + destruct (Hnew groups (numTotalRows n)) as [H1 H2]; [done|done|by rewrite El; intros ? [= <-]|done|done|]. eexists groups, _. split_and!; [done..|cbn; lia].
    + pose proof El as El'. apply last_Some in El as [l El]. exists l, g. rewrite <-El. split_and!; [done| |done|lia].
      split; cbn [nodeGroups ngc_with numTotalRows residency]; [done|done|by etrans; [exact O3|rewrite <-Hf]|done].
Qed.

Lemma local_append_spec n : local_ok n →
  ∃ n', ngc_append 1 n DUMMY_TRANSACTION 1 [] = Some (n', []) ∧ local_ok n' ∧ local_flags n' = local_flags n ++ [false].
Proof.
  intros Hn. pose proof (lo_residency n Hn) as Hres. destruct (prepare_local_group n Hn) as (l & g & Hp & Hl & Hf & Hlt). unfold ngc_append.
  set (n0 := match nodeGroups n with [] => _ | _ => _ end) in *. assert (residency n0 = IN_MEMORY ∧ numTotalRows n0 = numTotalRows n) as [Hr0 Ht0]
    by (unfold n0; by destruct (nodeGroups n)).
  destruct (lo_groups _ Hl (length l) g) as [Hg Hgi]; [cbn; by apply list_lookup_middle|]. destruct (local_append_group g Hg Hlt) as (g' & E & Hg' & Hgf & Hidx).
  cbn [ngc_append_loop]. rewrite decide_True by lia. rewrite Hp, last_snoc. cbn [mbind option_bind].
  replace ((1 - 0) `min` getNumRowsLeftToAppend g) with 1.
  2:{ unfold getNumRowsLeftToAppend. rewrite (lg_next g Hg), (lg_capacity g Hg). lia. }
  rewrite E. cbn [mbind option_bind]. rewrite decide_False by lia. unfold pushInsertInfo. rewrite Hr0. cbn [bool_decide decide andb].
  rewrite length_app. cbn [length]. replace (length l + 1 - 1) with (length l + 0) by lia. rewrite insert_app_r. cbn [insert list_insert]. rewrite Ht0.
  eexists. split; [done|]. assert (mjoin (g_flags <$> l ++ [g']) = local_flags n ++ [false]) as Hf'.
  { rewrite <-Hf. unfold local_flags. cbn [nodeGroups ngc_with]. rewrite !fmap_app, !join_app. change (mjoin (g_flags <$> [g'])) with (g_flags g' ++ []).
    change (mjoin (g_flags <$> [g])) with (g_flags g ++ []). by rewrite !app_nil_r, Hgf, app_assoc. }
  split; [|exact Hf']. destruct Hl as [L1 L2 L3 L4]. cbn [nodeGroups ngc_with numTotalRows residency] in *. split; cbn [nodeGroups ngc_with numTotalRows residency].
  - intros i h [Hi|[Hge Hi]]%lookup_app_Some; [by apply L1, lookup_app_l_Some|]. apply list_lookup_singleton_Some in Hi as [Hi <-]. split; [done|]. rewrite Hidx, Hgi. lia.
  - rewrite fmap_app in *. eapply uniform_last; [exact L2|]. rewrite <-(lg_rows g' Hg'). apply (lg_limit g' Hg').
  - change (local_flags (ngc_with n0 (l ++ [g']) (numTotalRows n + 1))) with (mjoin (g_flags <$> l ++ [g'])). rewrite Hf', length_app, (lo_total n Hn). done.
  - done.
Qed.

(** ** Deleting a row *)

Lemma local_find g k b : local_group g → g_flags g !! k = Some b →
  ∃ c, findChunkedGroupFromRowIdx g k = Some (k / CH, c) ∧ chunkedGroups g !! (k / CH) = Some c ∧ local_chunk c ∧
    k - startRowIdx c = k mod CH ∧ cg_flags c !! (k mod CH) = Some b.
Proof.
  intros [[G1 Gu] _ _ _ _] Hk. pose proof chunk_cap_pos as Hpos. destruct (uniform_lookup CH _ k b Hpos Gu Hk) as (fl & Hfl & Hb).
  apply list_lookup_fmap_Some in Hfl as (c & -> & Hc). destruct (G1 _ _ Hc) as [Hlc Hs]. pose proof (Nat.div_mod_eq k CH) as Hdm.
  exists c. split_and!; [|done|done|lia|done]. unfold findChunkedGroupFromRowIdx, findChunkedGroupIdxFromRowIdxNoLock.
  destruct (chunkedGroups g) as [|c0 cs] eqn:Ec; [done|]. destruct (G1 0 c0 eq_refl) as [Hlc0 Hs0]. rewrite Hs0, decide_False, Nat.sub_0_r by lia.
  pose proof (lc_rows c0 Hlc0). apply lookup_lt_Some in Hb. rewrite length_cg_flags in Hb. destruct (decide (k < cg_numRows c0)) as [Hlt|Hge].
  - rewrite (Nat.div_small k) in * by lia. cbn [mbind option_bind]. cbn in Hc. injection Hc as ->. done.
  - assert (cg_numRows c0 = CH ∧ k / CH ≠ 0) as [Hfull Hne].
    { assert (k / CH ≠ 0) as Hne by (intros H0; rewrite H0 in *; cbn in Hc; injection Hc as <-; lia). split; [|done].
      destruct (Gu 0 (cg_flags c0) eq_refl) as [_ Hf]. rewrite length_cg_flags, length_fmap in Hf. apply Hf. apply lookup_lt_Some in Hc. lia. }
    assert ((k - CH) / CH + 1 = k / CH) as Hq.
    { replace k with (k - CH + 1 * CH) at 2 by lia. rewrite Nat.div_add by lia. done. }
    rewrite Hfull, Hq, decide_False by (apply lookup_lt_Some in Hc; lia). cbn [mbind option_bind]. by rewrite Hc.
Qed.

Lemma local_delete_chunk c r b : local_chunk c → cg_flags c !! r = Some b →
  ∃ c', cg_delete_ c DUMMY_TRANSACTION r = Some (c', Ret (negb b)) ∧ local_chunk c' ∧ startRowIdx c' = startRowIdx c ∧ cg_flags c' = <[r := true]> (cg_flags c).
Proof.
  intros [C1 C2 C3 C4] Hr. pose proof (lookup_lt_Some _ _ _ Hr) as Hlt. rewrite length_cg_flags in Hlt.
  apply list_lookup_fmap_Some in Hr as (r' & -> & Hr'). apply lookup_seq in Hr' as [-> _]. cbn [Nat.add].
  destruct (local_delete_vi (vi_of c) _ r C4 Hlt) as (vi' & E & Hvi' & Hdel). unfold cg_delete_. fold (vi_of c). cbn [ID DUMMY_TRANSACTION]. rewrite E. cbn [mbind option_bind].
  exists (cg_with c (cg_numRows c) (Some vi')). split_and!; [|by split|done|].
  - by rewrite bool_decide_not, negb_involutive.
  - apply list_eq_same_length with (length (cg_flags c)); rewrite ?length_insert, ?length_cg_flags; [done..|]. intros j x y Hj Hx Hy.
    apply list_lookup_fmap_Some in Hx as (j' & -> & Hj'). apply lookup_seq in Hj' as [-> _]. cbn [Nat.add]. unfold vi_of at 1. cbn [versionInfo cg_with default].
    cbn. rewrite Hdel. destruct (decide (j = r)) as [->|Hne].
    + rewrite list_lookup_insert_eq in Hy by (by rewrite length_cg_flags). injection Hy as <-. done.
    + rewrite list_lookup_insert_ne in Hy by done. apply list_lookup_fmap_Some in Hy as (j2 & -> & Hj2). by apply lookup_seq in Hj2 as [-> _].
Qed.

Lemma local_delete_group g k b : local_group g → g_flags g !! k = Some b →
  ∃ g', ng_delete_ g DUMMY_TRANSACTION k = Some (g', Ret (negb b)) ∧ local_group g' ∧ nodeGroupIdx g' = nodeGroupIdx g ∧ g_flags g' = <[k := true]> (g_flags g).
Proof.
  intros Hg Hk. destruct (local_find g k b Hg Hk) as (c & E & Hc & Hlc & Hs & Hb). destruct Hg as [[G1 Gu] G2 G3 G4 G5].
  destruct (local_delete_chunk c _ b Hlc Hb) as (c' & E' & Hlc' & Hs' & Hf'). unfold ng_delete_. rewrite E. cbn [mbind option_bind]. rewrite Hs, E'. cbn [mbind option_bind].
  eexists. split; [done|]. pose proof (Nat.div_mod_eq k CH) as Hdm.
  assert ((cg_flags <$> chunkedGroups g) !! (k / CH) = Some (cg_flags c)) as Hcf by (by rewrite list_lookup_fmap, Hc).
  assert (mjoin (cg_flags <$> <[k / CH := c']> (chunkedGroups g)) = <[k := true]> (g_flags g)) as Hfl.
  { rewrite list_fmap_insert, Hf', (uniform_join_insert CH _ _ (cg_flags c)) by (done || by eapply lookup_lt_Some). unfold g_flags. f_equal. lia. }
  split_and!; [|done|done]. split; cbn [chunkedGroups ng_with numRows nextRowToAppend ng_capacity]; [|by unfold g_flags; cbn; rewrite Hfl, length_insert|done|done|done].
  split.
  - intros i d Hd. destruct (decide (i = k / CH)) as [->|Hne].
    + rewrite list_lookup_insert_eq in Hd by (by eapply lookup_lt_Some). injection Hd as <-. split; [done|]. rewrite Hs'. by apply G1.
    + rewrite list_lookup_insert_ne in Hd by done. by apply G1.
  - rewrite list_fmap_insert. eapply uniform_insert; [done|exact Hcf|]. by rewrite Hf', length_insert.
Qed.

(** Deleting row [k] of a local table; [b] says whether it was deleted before. *)
Lemma local_delete_spec l k b : local_ok (localGroups l) → local_flags (localGroups l) !! k = Some b →
  ∃ l', local_delete_ l (startOffset l + k) = Some (l', Ret (negb b)) ∧ startOffset l' = startOffset l ∧ local_ok (localGroups l') ∧
    local_flags (localGroups l') = <[k := true]> (local_flags (localGroups l)).
Proof.
  intros [O1 O2 O3 O4] Hk. set (n := localGroups l) in *. pose proof group_size_pos as Hpos.
  destruct (uniform_lookup NODE_GROUP_SIZE _ k b Hpos O2 Hk) as (fl & Hfl & Hb).
  assert (is_Some (nodeGroups n !! (k / NODE_GROUP_SIZE))) as [g Hg] by (rewrite list_lookup_fmap in Hfl; by destruct (nodeGroups n !! _)).
  rewrite list_lookup_fmap, Hg in Hfl. injection Hfl as <-. destruct (O1 _ _ Hg) as [Hlg Hi].
  destruct (local_delete_group g _ b Hlg Hb) as (g' & E & Hlg' & Hidx & Hgf). unfold local_delete_, getQuotientRemainder.
  rewrite decide_True by lia. replace (startOffset l + k - startOffset l) with k by lia. unfold getNodeGroup. fold n. rewrite Hg. cbn [mbind option_bind].
  rewrite decide_True by done. cbn [mbind option_bind]. rewrite E. cbn [mbind option_bind]. eexists. split; [done|]. pose proof (Nat.div_mod_eq k NODE_GROUP_SIZE) as Hdm.
  assert ((g_flags <$> nodeGroups n) !! (k / NODE_GROUP_SIZE) = Some (g_flags g)) as Hcf by (by rewrite list_lookup_fmap, Hg).
  assert (mjoin (g_flags <$> <[k / NODE_GROUP_SIZE := g']> (nodeGroups n)) = <[k := true]> (local_flags n)) as Hf'.
  { rewrite list_fmap_insert, Hgf, (uniform_join_insert NODE_GROUP_SIZE _ _ (g_flags g)) by (done || by eapply lookup_lt_Some). unfold local_flags. f_equal. lia. }
  split_and!; [done| |exact Hf']. split; cbn [localGroups nodeGroups ngc_with numTotalRows residency]; [| |by etrans; [exact O3|unfold local_flags at 2; cbn; rewrite Hf', length_insert]|done].
  - intros i d Hd. destruct (decide (i = k / NODE_GROUP_SIZE)) as [->|Hne].
    + rewrite list_lookup_insert_eq in Hd by (by eapply lookup_lt_Some). injection Hd as <-. split; [done|]. by rewrite Hidx.
    + rewrite list_lookup_insert_ne in Hd by done. by apply O1.
  - rewrite list_fmap_insert. eapply uniform_insert; [done|exact Hcf|]. by rewrite Hgf, length_insert.
Qed.

(** ** Committing a local table *)

Lemma local_seen startTS tid x : snapshot_ok startTS tid → x = INVALID_TRANSACTION ∨ x = 0%Z →
  version_seen startTS tid x = bool_decide (x ≠ INVALID_TRANSACTION).
Proof.
  intros Hs [->| ->]; [rewrite seen_invalid by done; by rewrite bool_decide_false by (by intros ?)|]. rewrite bool_decide_true by done.
  unfold version_seen. destruct Hs as [[H0 _] _]. rewrite (bool_decide_true (0 ≤ startTS)%Z) by done. apply orb_true_r.
Qed.

Lemma local_isDeleted_spec g t k b : local_group g → snapshot_ok (startTS t) (ID t) → g_flags g !! k = Some b → ng_isDeleted g t k = Some b.
Proof.
  intros Hg Hs Hk. destruct (local_find g k b Hg Hk) as (c & E & Hc & [C1 C2 C3 [V1 V2 V3 V4 V5]] & Hst & Hb). unfold ng_isDeleted. rewrite E. cbn [mbind option_bind].
  rewrite Hst. apply list_lookup_fmap_Some in Hb as (r & -> & Hr). apply lookup_seq in Hr as [-> _]. cbn [Nat.add]. rewrite <-(local_seen (startTS t) (ID t)) by done.
  unfold cg_isDeleted. unfold vi_of in *. destruct (versionInfo c) as [vi|]; cbn [default] in *; [by apply isDeleted_row|].
  f_equal. unfold row_del, row_of. assert (getVectorVersionInfo [] (k mod CH / CAP) = None) as -> by (by destruct (_ / _)). by rewrite seen_invalid.
Qed.

Lemma local_hasDeletions_spec g t : local_group g → snapshot_ok (startTS t) (ID t) →
  ∃ b, chunks_hasDeletions (chunkedGroups g) t = Some b ∧ (b = false → g_flags g = replicate (length (g_flags g)) false).
Proof.
  intros [[G1 _] _ _ _ _] Hs. assert (∀ c, c ∈ chunkedGroups g → local_chunk c) as Hl.
  { intros c [i Hi]%list_elem_of_lookup. by apply (G1 i). }
  clear G1. unfold g_flags. induction (chunkedGroups g) as [|c cs IH]; [by exists false|]. cbn [chunks_hasDeletions].
  assert (∃ b, match versionInfo c with None => Some false | Some vi => hasDeletionsFor vi (startTS t) (ID t) end = Some b ∧
    (b = false → cg_flags c = replicate (length (cg_flags c)) false)) as (b & -> & Hb).
  { destruct (Hl c) as [C1 C2 C3 [V1 V2 V3 V4 V5]]; [set_solver|].
    assert ((∀ r, version_seen (startTS t) (ID t) (row_del (vi_of c) r) = false) → cg_flags c = replicate (length (cg_flags c)) false) as Hf.
    { intros Hr. symmetry. apply replicate_as_elem_of. split; [done|]. intros x (r & -> & _)%list_elem_of_fmap. by rewrite <-(local_seen (startTS t) (ID t)). }
    unfold vi_of in *. destruct (versionInfo c) as [vi|]; cbn [default] in *.
    - destruct (hasDeletionsFor_spec vi (startTS t) (ID t)) as (b & -> & Hb); [done..|]. exists b. split; [done|]. intros ->. by apply Hf, Hb.
    - exists false. split; [done|]. intros _. apply Hf. intros r. unfold row_del, row_of.
      assert (getVectorVersionInfo [] (r / CAP) = None) as -> by (by destruct (_ / _)). by rewrite seen_invalid. }
  cbn [mbind option_bind]. destruct b; [by exists true|]. destruct IH as (b & -> & Hb'); [intros d Hd; apply Hl; set_solver|]. exists b. split; [done|].
  intros ->. rewrite fmap_cons, join_cons, length_app, replicate_add, <-Hb, <-Hb' by done. done.
Qed.

Lemma local_group_deletions g t : local_group g → snapshot_ok (startTS t) (ID t) → group_deletions t g = g_flags g.
Proof.
  intros Hg Hs. unfold group_deletions. rewrite (lg_rows g Hg). destruct (local_hasDeletions_spec g t Hg Hs) as (b & -> & Hb). destruct b.
  - rewrite decide_True by done. apply list_eq_same_length with (length (g_flags g)); [done|by rewrite length_fmap, length_seq|]. intros k x y Hk Hx Hy.
    apply list_lookup_fmap_Some in Hx as (j & -> & Hj). apply lookup_seq in Hj as [-> _]. cbn [Nat.add]. unfold row_deletion.
    rewrite (local_isDeleted_spec g t k y) by done. destruct y; by case_bool_decide.
  - rewrite decide_False by done. symmetry. by apply Hb.
Qed.

Lemma local_group_size g : local_group g → numRows g = group_size g.
Proof.
  intros [_ G2 _ _ _]. rewrite G2. unfold g_flags, group_size. induction (chunkedGroups g) as [|c cs IH]; [done|].
  rewrite fmap_cons, join_cons, length_app, length_cg_flags, IH. done.
Qed.

Lemma local_ok_facts n t : local_ok n → snapshot_ok (startTS t) (ID t) →
  Forall (λ g, numRows g = group_size g) (nodeGroups n) ∧ local_deletions t (nodeGroups n) = local_flags n ∧
  local_rows (nodeGroups n) = length (local_flags n).
Proof.
  intros [O1 _ _ _] Hs. assert (Forall local_group (nodeGroups n)) as Hf by (apply Forall_lookup_2; intros i g Hg; by apply (O1 i)).
  unfold local_flags, local_deletions, local_rows. clear O1. induction Hf as [|g gs Hg _ IH]; [done|]. destruct IH as (I1 & I2 & I3). split_and!.
  - constructor; [by apply local_group_size|done].
  - cbn [mbind list_bind]. rewrite fmap_cons, join_cons, local_group_deletions by done. f_equal. exact I2.
  - rewrite !fmap_cons, join_cons, length_app, <-(lg_rows g Hg), (local_group_size g Hg). cbn. f_equal. exact I3.
Qed.

(** What a transaction sees of its local rows. *)
Lemma local_isVisible_spec l t k b : local_ok (localGroups l) → snapshot_ok (startTS t) (ID t) → local_flags (localGroups l) !! k = Some b →
  local_isVisible l t (startOffset l + k) = Some (negb b).
Proof.
  intros [O1 O2 O3 O4] Hs Hk. set (n := localGroups l) in *. pose proof group_size_pos as Hpos.
  destruct (uniform_lookup NODE_GROUP_SIZE _ k b Hpos O2 Hk) as (fl & Hfl & Hb).
  assert (is_Some (nodeGroups n !! (k / NODE_GROUP_SIZE))) as [g Hg] by (rewrite list_lookup_fmap in Hfl; by destruct (nodeGroups n !! _)).
  rewrite list_lookup_fmap, Hg in Hfl. injection Hfl as <-. destruct (O1 _ _ Hg) as [Hlg Hi]. pose proof (Nat.div_mod_eq k NODE_GROUP_SIZE) as Hdm.
  unfold local_isVisible, getNodeGroupIdxAndOffsetInChunk. replace (startOffset l + k - startOffset l) with k by lia.
  replace (k - k / NODE_GROUP_SIZE * NODE_GROUP_SIZE) with (k mod NODE_GROUP_SIZE) by lia. unfold getNodeGroup. fold n. rewrite Hg. cbn [mbind option_bind].
  rewrite decide_True by done. cbn [mbind option_bind]. rewrite (local_isDeleted_spec g t _ b) by done. cbn [mbind option_bind].
  destruct b; [done|]. destruct (local_find g _ _ Hlg Hb) as (c & E & Hc & [C1 C2 C3 [V1 V2 V3 V4 V5]] & Hst & Hbc). unfold ng_isInserted. rewrite E. cbn [mbind option_bind].
  rewrite Hst. unfold cg_isInserted. apply lookup_lt_Some in Hbc. rewrite length_cg_flags in Hbc. unfold vi_of in *. destruct (versionInfo c) as [vi|]; cbn [default] in *.
  - rewrite isInserted_row, V2 by done. f_equal. unfold version_seen. destruct Hs as [[H0 _] _]. rewrite (bool_decide_true (0 ≤ startTS t)%Z) by done. apply orb_true_r.
  - by rewrite bool_decide_true.
Qed.

Lemma commit_deleted_row_total t g start old total D I flags n u row b : shouldAppendToUndoBuffer t = true → ID t ≠ INVALID_TRANSACTION →
  own_rows t old total D I flags (n, u) → start + row = length old + length flags → start + row < total → ng_isDeleted g t row = Some b →
  ∃ st', commit_deleted_row t g start (n, u) row = Some st'.
Proof.
  intros Ht Hid [H1 H2 H3 _ _ H6] Hrow Hlt Hd. unfold commit_deleted_row. rewrite Hd. cbn [mbind option_bind fst snd] in *. destruct b; [|by eexists].
  destruct (lookup_lt_is_Some_2 (ngc_rows n) (start + row)) as [r Hr]; [lia|].
  assert (r_del r = INVALID_TRANSACTION) as Hrd by (rewrite Hrow in Hr; rewrite (H6 _ _ Hr), lookup_ge_None_2 by lia; done).
  destruct (nt_delete_spec n t (start + row) r u) as (n1 & rec & _ & -> & _); [done..|]. cbn [mbind option_bind]. unfold delete_result.
  rewrite Hrd, decide_False, decide_True by done. by eexists.
Qed.

(** One local group; the rows of the groups before it have the deletions [flags]. *)
Lemma commit_group_total t g start old total D I flags n u : shouldAppendToUndoBuffer t = true → snapshot_ok (startTS t) (ID t) → local_group g →
  own_rows t old total D I flags (n, u) → start = length old + length flags → start + numRows g ≤ total →
  ∃ st', (b ← chunks_hasDeletions (chunkedGroups g) t;
    if b : bool then ofold (commit_deleted_row t g start) (n, u) (seq 0 (numRows g)) else Some (n, u)) = Some st'.
Proof.
  intros Ht Hs Hlg Hst Hstart Hle. pose proof (proj2 Hs) as Hid.
  destruct (local_hasDeletions_spec g t Hlg Hs) as ([] & -> & _); cbn [mbind option_bind]; [|by eexists].
  match goal with |- context [ofold ?f ?b0 ?l] => destruct (ofold_total f
    (λ dn st, own_rows t old total D I (flags ++ (row_deletion t g <$> dn)) st) l b0) as (st' & -> & _) end; [by rewrite app_nil_r| |by eexists].
  intros dn row rest [n1 u1] El Hst1. assert (seq 0 (numRows g) !! length dn = Some row) as Hrow by (rewrite El; by apply list_lookup_middle).
  apply lookup_seq in Hrow as [-> Hlt]. destruct (lookup_lt_is_Some_2 (g_flags g) (0 + length dn)) as [b Hb]; [rewrite <-(lg_rows g Hlg); lia|].
  pose proof (local_isDeleted_spec g t _ b Hlg Hs Hb) as Hd. set (flags' := flags ++ (row_deletion t g <$> dn)) in *.
  assert (start + (0 + length dn) = length old + length flags') as Hpos by (unfold flags'; rewrite length_app, length_fmap; lia).
  destruct (commit_deleted_row_total t g start old total D I flags' n1 u1 (0 + length dn) b) as [st' E]; [done..|lia|done|].
  exists st'. split; [done|]. rewrite fmap_app, app_assoc. eapply commit_deleted_row_spec; [done..|lia|exact E].
Qed.

Lemma commit_deletions_total t old n u D I local : shouldAppendToUndoBuffer t = true → snapshot_ok (startTS t) (ID t) → local_ok local →
  own_rows t old (length old + length (local_flags local)) D I [] (n, u) → ∃ st', commit_deletions t (length old) local n u = Some st'.
Proof.
  intros Ht Hs Hl Hst. pose proof (proj2 Hs) as Hid. unfold commit_deletions. set (total := length old + _) in *.
  assert (∀ g, g ∈ nodeGroups local → local_group g) as Hg by (intros g [i Hi]%list_elem_of_lookup; by apply (lo_groups _ Hl i)).
  match goal with |- context [ofold ?f ?b0 ?l] => destruct (ofold_total f (λ dn st, own_rows t old total D I (local_deletions t dn) st.1 ∧
    st.2 = length (local_deletions t dn)) l b0) as ([[n' u'] k'] & -> & _) end; [by split| |by eexists].
  intros dn g rest [[n1 u1] k] El [Hinv Hk]. cbn [fst snd] in *. assert (g ∈ nodeGroups local) as Hin by (rewrite El; set_solver). pose proof (Hg g Hin) as Hlg.
  assert (local_deletions t (dn ++ [g]) = local_deletions t dn ++ group_deletions t g) as Hdel.
  { unfold local_deletions. rewrite bind_app. cbn. by rewrite app_nil_r. }
  assert (length old + k + numRows g ≤ total) as Hle.
  { unfold total. rewrite <-(proj1 (proj2 (local_ok_facts _ t Hl Hs))), El, Hk. unfold local_deletions.
    rewrite bind_app. cbn [mbind list_bind]. rewrite !length_app, length_group_deletions. lia. }
  destruct (commit_group_total t g (length old + k) old total D I (local_deletions t dn) n1 u1) as [[n2 u2] E]; [done..|lia|done|].
  exists (n2, u2, k + numRows g). destruct (chunks_hasDeletions (chunkedGroups g) t) as [b|] eqn:Eb; [|done]. cbn [mbind option_bind] in E |- *. rewrite E. cbn [mbind option_bind fst snd].
  split; [done|]. rewrite Hdel, length_app, length_group_deletions. split; [|lia]. eapply (commit_group_spec _ _ (length old + k)); [done..|lia|done|]. by rewrite Eb.
Qed.

(** ** The rows reserved for appends stay the rows of the table *)

Definition same_count (g g' : NodeGroup) : Prop := numRows g' = numRows g ∧ nextRowToAppend g' = nextRowToAppend g.

#[export] Instance same_count_preorder : PreOrder same_count.
Proof. split; [done|]. intros g1 g2 g3 [A1 A2] [B1 B2]. split; congruence. Qed.

Definition same_counts (n n' : NodeGroupCollection) : Prop := Forall2 same_count (nodeGroups n) (nodeGroups n').

#[export] Instance same_counts_preorder : PreOrder same_counts.
Proof. split; [intros n|intros n1 n2 n3]; unfold same_counts; [reflexivity|by etrans]. Qed.

Lemma same_counts_insert n i g g' total : nodeGroups n !! i = Some g → numRows g' = numRows g → nextRowToAppend g' = nextRowToAppend g →
  same_counts n (ngc_with n (<[i := g']> (nodeGroups n)) total).
Proof.
  intros Hg H1 H2. unfold same_counts. cbn. rewrite <-(list_insert_id (nodeGroups n) i g Hg) at 1. apply Forall2_insert; [reflexivity|by split].
Qed.

Lemma same_counts_appendable n n' : same_counts n n' → appendable n → appendable n'.
Proof.
  intros Hc Ha g' Hl. unfold same_counts in Hc. rewrite last_lookup, <-(Forall2_length _ _ _ Hc) in Hl. destruct (Forall2_lookup_r _ _ _ _ _ Hc Hl) as (g & Hg & H1 & H2).
  rewrite H1, H2. apply Ha. by rewrite last_lookup.
Qed.

Lemma nt_delete_counts n t k u n' u' r : nt_delete_ n t k u = Some (n', u', r) → same_counts n n'.
Proof.
  unfold nt_delete_, getNodeGroupIdxAndOffsetInChunk. destruct (getNodeGroup _ _) as [g|] eqn:Eg; [cbn [mbind option_bind]|done]. apply getNodeGroup_lookup in Eg.
  destruct (ng_delete_ g t _) as [[g' r']|] eqn:E; [cbn [mbind option_bind]|done]. unfold ng_delete_ in E.
  destruct (findChunkedGroupFromRowIdx _ _) as [[i c]|]; [cbn [mbind option_bind] in E|done]. destruct (cg_delete_ _ _ _) as [[c' x]|]; [cbn [mbind option_bind] in E|done].
  injection E as <- <-. destruct x; intros [= <- _ _]; by eapply same_counts_insert.
Qed.

Lemma nt_apply_counts func n i s k ts n' : nt_applyFuncToChunkedGroups func n i s k ts = Some n' → same_counts n n'.
Proof.
  unfold nt_applyFuncToChunkedGroups. destruct (getNodeGroup n i) as [g|] eqn:Eg; [cbn [mbind option_bind]|done]. apply getNodeGroup_lookup in Eg.
  destruct (ng_applyFuncToChunkedGroups _ _ _ _ _) as [g'|] eqn:E; [cbn [mbind option_bind]|done]. intros [= <-].
  unfold ng_applyFuncToChunkedGroups in E. destruct (decide _); [|done]. destruct (findChunkedGroupIdxFromRowIdxNoLock _ _) as [[j x]|].
  - destruct (apply_groups _ _ _ _ _); [cbn in E|done]. injection E as <-. by eapply same_counts_insert.
  - injection E as <-. by eapply same_counts_insert.
Qed.

Lemma undo_commit_counts u ts n n' : undo_commit u ts n = Some n' → same_counts n n'.
Proof.
  intros E. eapply (ofold_partial _ (λ _ n', same_counts n n')) in E; [done|reflexivity|].
  intros _ rec _ n1 n2 _ H1 H2%nt_apply_counts. by etrans.
Qed.

Lemma commit_deletions_counts t start local n u n' u' : commit_deletions t start local n u = Some (n', u') → same_counts n n'.
Proof.
  unfold commit_deletions. destruct (ofold _ _ _) as [[[n1 u1] k]|] eqn:E; [|done]. cbn. intros [= <- _].
  eapply (ofold_partial _ (λ _ st, same_counts n st.1.1)) in E; [done|reflexivity|]. clear E.
  intros _ g _ [[n2 u2] k2] [[n3 u3] k3] _ H1. cbn [fst snd] in *. destruct (chunks_hasDeletions _ _) as [b|]; [cbn [mbind option_bind]|done].
  destruct b; [|cbn; by intros [= <- _ _]]. destruct (ofold _ _ _) as [[n4 u4]|] eqn:E; [|done]. cbn. intros [= <- _ _].
  eapply (ofold_partial _ (λ _ st, same_counts n st.1)) in E; [done|done|]. clear E. intros _ row _ [n5 u5] [n6 u6] _ H5. cbn [fst] in *. unfold commit_deleted_row.
  destruct (ng_isDeleted _ _ _) as [[]|]; cbn [mbind option_bind]; [|by intros [= <- _]|done].
  destruct (nt_delete_ _ _ _ _) as [[[n7 u7] r]|] eqn:E; [cbn [mbind option_bind]|done]. apply nt_delete_counts in E.
  destruct r as [[]|]; [|done..]. intros [= <- _]. by etrans.
Qed.

(** The commit of a local table succeeds: its rows are appended, deleted or not, as they are in the local table. *)
Lemma nt_commit_local fuel n t local u D : ngc_ok n → Forall strict (ngc_rows n) → appendable n → shouldAppendToUndoBuffer t = true →
  versioned (ID t) → snapshot_ok (startTS t) (ID t) → local_ok local → tx_ok (ID t) (ngc_rows n) u (length (ngc_rows n)) D [] [] →
  CH ≤ fuel → ∃ n' u', nt_commit fuel n t local u = Some (n', u') ∧ appendable n'.
Proof.
  intros Hn Hst Ha Ht Hid Hs Hl Htx Hfuel. destruct (local_ok_facts local t Hl Hs) as (F1 & F2 & F3). unfold nt_commit. rewrite (gk_total n Hn).
  destruct (appendCollection_total fuel n t local u) as (n1 & u1 & E & Ha1); [done..| |].
  { apply Forall_lookup_2. intros i g Hg. apply Forall_lookup_2. intros j c Hc. destruct (lo_groups _ Hl i g Hg) as [[[G1 _] _ _ _ _] _].
    destruct (G1 j c Hc) as [[_ _ C3 _] _]. lia. }
  rewrite E. cbn [mbind option_bind]. apply appendCollection_spec in E; [|done..]. rewrite F3 in E.
  destruct (own_rows_appended _ _ _ _ _ _ _ Hst Hid Htx E) as [I HI].
  destruct (commit_deletions_total t (ngc_rows n) n1 u1 D I local) as ([n2 u2] & E2); [done..|]. exists n2, u2. split; [done|].
  eapply same_counts_appendable; [by eapply commit_deletions_counts|done].
Qed.
