(* ===== verification/ColumnUpdates.v ===== *)
(** Updated values of a column and their versions: [UpdateInfo] of [src/src/storage/table/update_info.cpp],
    [ColumnChunk] of [src/src/storage/table/column_chunk.cpp] as far as it reads and writes values, and the
    records of updates of [src/src/storage/undo_buffer.cpp].

    Versions of a vector form a chain: [prev] owns the older version, [next] points back to the newer one.
    The chains are in a heap of objects. An object is removed from the heap when the code destroys it, and
    addresses are not reused, so that a pointer to a destroyed object has no object; reading through it, a null
    pointer and a failed assertion are [None]. Values are of any type; the data of a chunk is the list of its
    values, in memory or on disk. The theorems show that what transactions read is what a store of snapshots
    holds, and where the code reads through a pointer to a destroyed version. *)

From stdpp Require Import list_numbers.
From S2P Require Import Prelude NullMask MultiwayIntersect SelVector Serialize VersionInfo NodeGroup.

Section Updates.
Context {V : Type}.

(** ** Versions of a vector *)

(** [rowsInVector] is the part of the array that is in use, so its length is [numRowsUpdated]. *)
Record VectorUpdateInfo := mkUpdate {
  version : Z;
  rowsInVector : list nat;
  prev : option nat;
  next : option nat;
  data : list V
}.

(** [fresh] is the next address; a vector without versions has no address. *)
Record UpdateInfo := mkUpdates {
  heap : gmap nat VectorUpdateInfo;
  fresh : nat;
  vectorsInfo : list (option nat)
}.

Definition emptyUpdates : UpdateInfo := mkUpdates ∅ 0 [].

Definition set_next (i : VectorUpdateInfo) (n : option nat) : VectorUpdateInfo :=
  mkUpdate (version i) (rowsInVector i) (prev i) n (data i).
Definition set_prev (i : VectorUpdateInfo) (p : option nat) : VectorUpdateInfo :=
  mkUpdate (version i) (rowsInVector i) p (next i) (data i).
Definition set_version (i : VectorUpdateInfo) (ts : Z) : VectorUpdateInfo :=
  mkUpdate ts (rowsInVector i) (prev i) (next i) (data i).

(** The place of a row among the updated ones. *)
Definition find_row (row : nat) (rows : list nat) : option nat := fst <$> list_find (λ r, r = row) rows.

(** The loop of [getVectorInfo]. *)
Fixpoint search_version (fuel : nat) (h : gmap nat VectorUpdateInfo) (t : Transaction) (current : option nat) :
    option (option nat) :=
  match current with
  | None => Some None
  | Some l =>
      match fuel with
      | 0 => None
      | S fuel =>
          i ← h !! l;
          if decide (version i = ID t) then
            if decide (START_TRANSACTION_ID ≤ version i)%Z then Some (Some l) else None
          else if decide (version i ≤ startTS t)%Z then
            if decide (version i < START_TRANSACTION_ID)%Z then Some (Some l) else None
          else search_version fuel h t (prev i)
      end
  end.

Definition getVectorInfo (u : UpdateInfo) (t : Transaction) (idx : nat) : option (option nat) :=
  match vectorsInfo u !! idx with
  | Some (Some l) => search_version (S (fresh u)) (heap u) t (Some l)
  | _ => Some None
  end.

(** The loop of [getOrCreateVectorInfo]: the version of the transaction, or a conflict. *)
Fixpoint own_version (fuel : nat) (h : gmap nat VectorUpdateInfo) (t : Transaction) (row : nat) (current info : option nat) :
    option (Res (option nat)) :=
  match current with
  | None => Some (Ret info)
  | Some l =>
      match fuel with
      | 0 => None
      | S fuel =>
          i ← h !! l;
          if decide (version i = ID t) then
            if decide (START_TRANSACTION_ID ≤ version i)%Z then own_version fuel h t row (next i) (Some l) else None
          else if decide (startTS t < version i)%Z then
            if decide (row ∈ rowsInVector i) then Some (Throw RuntimeException)
            else own_version fuel h t row (next i) info
          else own_version fuel h t row (next i) info
      end
  end.

(** A new version with a copy of the updates of the version [cur]. *)
Definition new_version (u : UpdateInfo) (t : Transaction) (idx cur : nat) : option UpdateInfo :=
  old ← heap u !! cur;
  let info := mkUpdate (ID t) (rowsInVector old) (Some cur) None (take (length (rowsInVector old)) (data old)) in
  Some (mkUpdates (<[fresh u := info]> (<[cur := set_next old (Some (fresh u))]> (heap u))) (S (fresh u))
    (<[idx := Some (fresh u)]> (vectorsInfo u))).

Definition getOrCreateVectorInfo (u : UpdateInfo) (t : Transaction) (idx row : nat) : option (UpdateInfo * Res nat) :=
  let u := mkUpdates (heap u) (fresh u) (vectorsInfo u ++ replicate (idx + 1 - length (vectorsInfo u)) None) in
  head ← vectorsInfo u !! idx;
  match head with
  | None => Some (mkUpdates (<[fresh u := mkUpdate (ID t) [] None None []]> (heap u)) (S (fresh u))
      (<[idx := Some (fresh u)]> (vectorsInfo u)), Ret (fresh u))
  | Some cur =>
      r ← own_version (S (fresh u)) (heap u) t row (Some cur) None;
      match r with
      | Throw e => Some (u, Throw e)
      | Ret (Some l) => Some (u, Ret l)
      | Ret None => u' ← new_version u t idx cur; Some (u', Ret (fresh u))
      end
  end.

(** [ColumnChunkData::write] of one value, at the end or over a value. *)
Definition write_data (d : list V) (j : nat) (v : V) : option (list V) :=
  if decide (j < length d) then Some (<[j := v]> d) else if decide (j = length d) then Some (d ++ [v]) else None.

Definition update (u : UpdateInfo) (t : Transaction) (idx row : nat) (v : V) : option (UpdateInfo * Res nat) :=
  '(u, r) ← getOrCreateVectorInfo u t idx row;
  match r with
  | Throw e => Some (u, Throw e)
  | Ret l =>
      i ← heap u !! l;
      '(rows, j) ← match find_row row (rowsInVector i) with
        | Some j => Some (rowsInVector i, j)
        | None => if decide (length (rowsInVector i) < DEFAULT_VECTOR_CAPACITY)
            then Some (rowsInVector i ++ [row], length (rowsInVector i)) else None
        end;
      d ← write_data (data i) j v;
      Some (mkUpdates (<[l := mkUpdate (version i) rows (prev i) (next i) d]> (heap u)) (fresh u) (vectorsInfo u), Ret l)
  end.

Definition getNumUpdatedRows (u : UpdateInfo) (t : Transaction) : option nat :=
  ofold (λ n idx,
    o ← getVectorInfo u t idx;
    match o with Some l => i ← heap u !! l; Some (n + length (rowsInVector i)) | None => Some n end)
    0 (seq 0 (length (vectorsInfo u))).

(** The rows of the vector [idx] among [numRows] rows from [startRow] on, as [hasUpdates] and the scans compute them. *)
Definition vector_rows (startRow numRows idx : nat) : nat * nat :=
  let '(startVector, rowInStartVector) := getQuotientRemainder startRow DEFAULT_VECTOR_CAPACITY in
  let '(endVector, rowInEndVector) := getQuotientRemainder (startRow + numRows) DEFAULT_VECTOR_CAPACITY in
  (if decide (idx = startVector) then rowInStartVector else 0,
   if decide (idx = endVector) then rowInEndVector else DEFAULT_VECTOR_CAPACITY).

Definition scanned_vectors (startRow numRows : nat) : list nat :=
  let startVector := fst (getQuotientRemainder startRow DEFAULT_VECTOR_CAPACITY) in
  let endVector := fst (getQuotientRemainder (startRow + numRows) DEFAULT_VECTOR_CAPACITY) in
  seq startVector (endVector + 1 - startVector).

Definition hasUpdates (u : UpdateInfo) (t : Transaction) (startRow numRows : nat) : option bool :=
  ofold (λ found idx,
    if found : bool then Some true else
    o ← getVectorInfo u t idx;
    match o with
    | None => Some false
    | Some l =>
        i ← heap u !! l;
        let '(s, e) := vector_rows startRow numRows idx in
        Some (existsb (λ row, bool_decide (row ∈ rowsInVector i)) (seq s (e + 1 - s)))
    end) false (scanned_vectors startRow numRows).

(** ** Column chunks *)

Record ColumnChunk := mkColumn { base : list V; updateInfo : option UpdateInfo }.

(** [VectorUpdateRecord]: the vector and the address of its version. *)
Definition VectorUpdateRecord : Type := nat * nat.

Definition col_update (c : ColumnChunk) (t : Transaction) (offset : nat) (v : V) (u : list VectorUpdateRecord) :
    option (ColumnChunk * list VectorUpdateRecord * Res unit) :=
  if decide (type t = DUMMY) then
    d ← write_data (base c) offset v; Some (mkColumn d (updateInfo c), u, Ret ())
  else
    let info := default emptyUpdates (updateInfo c) in
    let '(idx, row) := getQuotientRemainder offset DEFAULT_VECTOR_CAPACITY in
    '(info, r) ← update info t idx row v;
    match r with
    | Ret l => Some (mkColumn (base c) (Some info), u ++ [(idx, l)], Ret ())
    | Throw e => Some (mkColumn (base c) (Some info), u, Throw e)
    end.

Definition col_lookup (c : ColumnChunk) (t : Transaction) (row : nat) : option V :=
  b ← base c !! row;
  match updateInfo c with
  | None => Some b
  | Some u =>
      let '(idx, rowInVector) := getQuotientRemainder row DEFAULT_VECTOR_CAPACITY in
      o ← getVectorInfo u t idx;
      match o with
      | None => Some b
      | Some l =>
          i ← heap u !! l;
          match find_row rowInVector (rowsInVector i) with Some j => data i !! j | None => Some b end
      end
  end.

(** The output vector at a position of the vector. *)
Definition write_output (out : list V) (pos : nat) (v : V) : option (list V) :=
  if decide (pos < length out) then Some (<[pos := v]> out) else None.

(** One round of the loop of [scan]: the vector [idx] begins at the position [pos] of the output. *)
Definition scan_vector (u : UpdateInfo) (t : Transaction) (offset len : nat) (st : list V * nat) (idx : nat) : option (list V * nat) :=
  let '(out, pos) := st in
  let '(s, e) := vector_rows offset len idx in
  o ← getVectorInfo u t idx;
  out ← match o with
    | None => Some out
    | Some l =>
        i ← heap u !! l;
        ofold (λ out k, match find_row (k + s) (rowsInVector i) with
          | Some j => v ← data i !! j; write_output out (pos + k) v
          | None => Some out
          end) out (seq 0 (e - s))
    end;
  Some (out, pos + (e - s)).

Definition col_scan (c : ColumnChunk) (t : Transaction) (offset len : nat) : option (list V) :=
  if decide (offset + len ≤ length (base c)) then
    let out := take len (drop offset (base c)) in
    match updateInfo c with
    | None => Some out
    | Some u =>
        fst <$> ofold (scan_vector u t offset len) (out, 0) (scanned_vectors offset len)
    end
  else None.

(** One round of the loop of [scanCommittedUpdates]. *)
Definition commit_scan_vector (u : UpdateInfo) (t : Transaction) (startOffset startRow numRows : nat) (out : list V) (idx : nat) :
    option (list V) :=
  let '(s, e) := vector_rows startRow numRows idx in
  o ← getVectorInfo u t idx;
  match o with
  | None => Some out
  | Some l =>
      i ← heap u !! l;
      ofold (λ out j,
        row ← rowsInVector i !! j;
        if decide ((idx ≠ startRow / DEFAULT_VECTOR_CAPACITY ∧ idx ≠ (startRow + numRows) / DEFAULT_VECTOR_CAPACITY) ∨ s ≤ row < e) then
          v ← data i !! j; write_output out (startOffset + idx * DEFAULT_VECTOR_CAPACITY + row - startRow) v
        else Some out) out (seq 0 (length (rowsInVector i)))
  end.

Definition scanCommittedUpdates (c : ColumnChunk) (t : Transaction) (out : list V) (startOffset startRow numRows : nat) :
    option (list V) :=
  match updateInfo c with
  | None => Some out
  | Some u => ofold (commit_scan_vector u t startOffset startRow numRows) out (scanned_vectors startRow numRows)
  end.

(** [scanCommitted] of a chunk whose residency is the one that is scanned. *)
Definition scanCommitted (c : ColumnChunk) (t : Transaction) (out : list V) (startRow numRows : nat) : option (list V) :=
  if decide (startRow + numRows ≤ length (base c)) then
    scanCommittedUpdates c t (out ++ take numRows (drop startRow (base c))) (length out) startRow numRows
  else None.

(** One round of the loop of [scanUpdates]. *)
Definition collect_vector (u : UpdateInfo) (t : Transaction) (st : list nat * list V) (idx : nat) : option (list nat * list V) :=
  let '(rows, vs) := st in
  o ← getVectorInfo u t idx;
  match o with
  | None => Some (rows, vs)
  | Some l =>
      i ← heap u !! l;
      Some (rows ++ ((λ row, row + idx * DEFAULT_VECTOR_CAPACITY) <$> rowsInVector i),
        vs ++ take (length (rowsInVector i)) (data i))
  end.

(** The updated rows with their values. *)
Definition scanUpdates (c : ColumnChunk) (t : Transaction) : option (list nat * list V) :=
  u ← updateInfo c;
  ofold (collect_vector u t) ([], []) (seq 0 (length (vectorsInfo u))).

(** ** Commit and rollback of updates *)

Definition commitVectorUpdateInfo (commitTS : Z) (u : UpdateInfo) (r : VectorUpdateRecord) : option UpdateInfo :=
  i ← heap u !! r.2;
  Some (mkUpdates (<[r.2 := set_version i commitTS]> (heap u)) (fresh u) (vectorsInfo u)).

(** The destructor of a version destroys the older ones it owns. *)
Fixpoint destroy (fuel : nat) (h : gmap nat VectorUpdateInfo) (o : option nat) : option (gmap nat VectorUpdateInfo) :=
  match o with
  | None => Some h
  | Some l => match fuel with 0 => None | S fuel => i ← h !! l; destroy fuel (delete l h) (prev i) end
  end.

(** [setVectorInfo] and [clearVectorInfo]: the version that was there is destroyed. *)
Definition setVectorInfo (u : UpdateInfo) (idx : nat) (o : option nat) : option UpdateInfo :=
  old ← vectorsInfo u !! idx;
  h ← destroy (S (fresh u)) (heap u) old;
  Some (mkUpdates h (fresh u) (<[idx := o]> (vectorsInfo u))).

Definition rollbackVectorUpdateInfo (t : Transaction) (u : UpdateInfo) (r : VectorUpdateRecord) : option UpdateInfo :=
  let '(idx, l) := r in
  o ← getVectorInfo u t idx;
  if decide (o ≠ Some l) then Some u else
  i ← heap u !! l;
  let moved := mkUpdates (<[l := set_prev i None]> (heap u)) (fresh u) (vectorsInfo u) in
  match next i with
  | Some newer =>
      p ← prev i;
      pi ← heap moved !! p;
      let h := <[p := set_next pi (Some newer)]> (heap moved) in
      ni ← h !! newer;
      h ← destroy (S (fresh u)) h (prev ni);
      Some (mkUpdates (<[newer := set_prev ni (Some p)]> h) (fresh u) (vectorsInfo u))
  | None => setVectorInfo moved idx (prev i)
  end.

Definition col_commit (c : ColumnChunk) (recs : list VectorUpdateRecord) (commitTS : Z) : option ColumnChunk :=
  u ← ofold (commitVectorUpdateInfo commitTS) (default emptyUpdates (updateInfo c)) recs;
  Some (mkColumn (base c) ((λ _, u) <$> updateInfo c)).

Definition col_rollback (c : ColumnChunk) (t : Transaction) (recs : list VectorUpdateRecord) : option ColumnChunk :=
  u ← ofold (rollbackVectorUpdateInfo t) (default emptyUpdates (updateInfo c)) (reverse recs);
  Some (mkColumn (base c) ((λ _, u) <$> updateInfo c)).

End Updates.

(** ** Chains of versions *)

Local Abbreviation CAP := DEFAULT_VECTOR_CAPACITY.
#[local] Opaque DEFAULT_VECTOR_CAPACITY.

Section Chains.
Context {V : Type}.
Implicit Types (h : gmap nat (VectorUpdateInfo (V := V))) (i : VectorUpdateInfo (V := V)) (u : UpdateInfo (V := V)).

Abbreviation entry := (nat * VectorUpdateInfo (V := V))%type.

(** The versions from [o] on, newest first, with their addresses. *)
Fixpoint chain h (o : option nat) (ls : list entry) : Prop :=
  match ls with
  | [] => o = None
  | (l, i) :: ls => o = Some l ∧ h !! l = Some i ∧ chain h (prev i) ls
  end.

Lemma chain_frame h h' o ls : (∀ l, l ∈ ls.*1 → h' !! l = h !! l) → chain h o ls → chain h' o ls.
Proof.
  revert o. induction ls as [|[l i] ls IH]; intros o Hf; [done|]. intros (-> & Hl & Hc). split_and!; [done| |].
  - rewrite Hf; [done|]. cbn. set_solver.
  - apply IH; [|done]. intros l' Hl'. apply Hf. cbn. set_solver.
Qed.

Lemma chain_heap h o ls l i : chain h o ls → (l, i) ∈ ls → h !! l = Some i.
Proof.
  revert o. induction ls as [|[l' i'] ls IH]; intros o Hc Hin; [by apply elem_of_nil in Hin|].
  destruct Hc as (_ & Hl & Hc). apply elem_of_cons in Hin as [[= -> ->]|Hin]; eauto.
Qed.

(** The version a transaction sees. *)
Definition sees_version (t : Transaction) i : Prop := version i = ID t ∨ (version i ≤ startTS t)%Z.
#[local] Instance sees_version_dec t i : Decision (sees_version t i).
Proof. unfold sees_version. apply _. Defined.

Fixpoint seen_version (t : Transaction) (ls : list entry) : option entry :=
  match ls with [] => None | e :: ls => if decide (sees_version t e.2) then Some e else seen_version t ls end.

Lemma seen_version_elem t ls e : seen_version t ls = Some e → e ∈ ls.
Proof. induction ls as [|e' ls IH]; cbn; [done|]. case_decide; intros; simplify_eq; set_solver. Qed.

(** The IDs of transactions are above all timestamps. *)
Definition transaction_ok (t : Transaction) : Prop := (startTS t < START_TRANSACTION_ID ≤ ID t)%Z.

Lemma search_version_spec fuel h t o ls : transaction_ok t → chain h o ls → length ls ≤ fuel →
  search_version fuel h t o = Some (fst <$> seen_version t ls).
Proof.
  intros [H1 H2]. revert fuel o. induction ls as [|[l i] ls IH]; intros fuel o Hc Hf; cbn in *; [subst; by destruct fuel|].
  destruct Hc as (-> & Hl & Hc). destruct fuel as [|fuel]; [lia|]. cbn. rewrite Hl. cbn. unfold sees_version.
  repeat case_decide; try done; try (exfalso; lia); try tauto. apply IH; [done|lia].
Qed.

(** What a version holds for a row of the vector. *)
Definition overlay i (row : nat) : option V := j ← find_row row (rowsInVector i); data i !! j.

Definition shown (t : Transaction) (ls : list entry) (row : nat) : option V := e ← seen_version t ls; overlay e.2 row.

Lemma shown_cons t e ls row : shown t (e :: ls) row = if decide (sees_version t e.2) then overlay e.2 row else shown t ls row.
Proof. unfold shown. cbn. by case_decide. Qed.

Record info_ok i : Prop := {
  io_nodup : NoDup (rowsInVector i);
  io_rows : Forall (λ r, r < CAP) (rowsInVector i);
  io_data : length (data i) = length (rowsInVector i)
}.

Lemma find_row_Some row rows j : find_row row rows = Some j → rows !! j = Some row.
Proof. unfold find_row. intros ([j' r] & (? & -> & _)%list_find_Some & ->)%fmap_Some. done. Qed.

Lemma find_row_None row rows : find_row row rows = None ↔ row ∉ rows.
Proof.
  unfold find_row. rewrite fmap_None, list_find_None, Forall_forall. split; [intros H Hin; by apply (H row Hin)|].
  intros H r Hr ->. done.
Qed.

Lemma find_row_nodup row rows j : NoDup rows → rows !! j = Some row → find_row row rows = Some j.
Proof.
  intros Hn Hj. destruct (find_row row rows) as [k|] eqn:E.
  - apply find_row_Some in E. f_equal. by eapply NoDup_lookup.
  - apply find_row_None in E. destruct E. by eapply list_elem_of_lookup_2.
Qed.

Lemma overlay_is_Some i row : info_ok i → is_Some (overlay i row) ↔ row ∈ rowsInVector i.
Proof.
  intros [_ _ Hd]. unfold overlay. destruct (find_row row (rowsInVector i)) as [j|] eqn:E; cbn.
  - apply find_row_Some in E. split; [intros _; by eapply list_elem_of_lookup_2|intros _].
    apply lookup_lt_is_Some_2. rewrite Hd. by eapply lookup_lt_Some.
  - apply find_row_None in E. split; [by intros []|done].
Qed.

Lemma overlay_nth i j row : info_ok i → rowsInVector i !! j = Some row → overlay i row = data i !! j.
Proof. intros [Hn _ _] Hj. unfold overlay. by rewrite (find_row_nodup _ _ j). Qed.

(** ** The invariant

    At most the newest version of a vector belongs to the writer [w]; the others are committed, in the order of
    their timestamps, none after [ts]. *)
Definition versions_ok (w : option Z) (ts : Z) (vs : list Z) : Prop :=
  ∃ cs, (vs = cs ∨ ∃ x, w = Some x ∧ vs = x :: cs) ∧ StronglySorted Z.gt cs ∧ Forall (λ v, (v ≤ ts)%Z) cs.

(** The newest version has no newer one; but after a rollback it can still point to the one that was destroyed. *)
Definition head_ok (w : option Z) u (e : entry) : Prop :=
  next e.2 = None ∨ (w ≠ Some (version e.2) ∧ ∃ l, next e.2 = Some l ∧ heap u !! l = None ∧ l < fresh u).

Record updates_ok (w : option Z) (ts : Z) u (C : nat → list entry) : Prop := {
  uo_chain idx : chain (heap u) (mjoin (vectorsInfo u !! idx)) (C idx);
  uo_nodup idx : NoDup (C idx).*1;
  uo_apart idx idx' l : l ∈ (C idx).*1 → l ∈ (C idx').*1 → idx = idx';
  uo_info idx : Forall (λ e : entry, info_ok e.2) (C idx);
  uo_versions idx : versions_ok w ts ((λ e : entry, version e.2) <$> C idx);
  uo_fresh l : is_Some (heap u !! l) → l < fresh u;
  uo_head idx e : head (C idx) = Some e → head_ok w u e;
  uo_links idx k e e' : C idx !! k = Some e → C idx !! S k = Some e' → next e'.2 = Some e.1
}.

Lemma uo_lookup w ts u C idx l i : updates_ok w ts u C → (l, i) ∈ C idx → heap u !! l = Some i.
Proof. intros Hu. eapply chain_heap, Hu. Qed.

Lemma uo_bound w ts u C idx l : updates_ok w ts u C → l ∈ (C idx).*1 → l < fresh u.
Proof.
  intros Hu ([l' i] & -> & Hin)%list_elem_of_fmap. apply (uo_fresh _ _ _ _ Hu). eexists. by eapply uo_lookup.
Qed.

Lemma uo_length w ts u C idx : updates_ok w ts u C → length (C idx) ≤ fresh u.
Proof.
  intros Hu. rewrite <-(length_fmap fst (C idx)), <-(length_seq (fresh u) 0). apply submseteq_length, NoDup_submseteq; [apply Hu|].
  intros l Hl. apply elem_of_seq. pose proof (uo_bound _ _ _ _ _ _ Hu Hl). lia.
Qed.

Lemma getVectorInfo_spec w ts u C t idx : updates_ok w ts u C → transaction_ok t →
  getVectorInfo u t idx = Some (fst <$> seen_version t (C idx)).
Proof.
  intros Hu Ht. pose proof (uo_chain _ _ _ _ Hu idx) as Hc. pose proof (uo_length _ _ _ _ idx Hu). unfold getVectorInfo.
  destruct (vectorsInfo u !! idx) as [[l|]|]; cbn in Hc.
  - apply search_version_spec; [done|done|lia].
  - by destruct (C idx) as [|[] ?]; [|destruct Hc].
  - by destruct (C idx) as [|[] ?]; [|destruct Hc].
Qed.

Lemma uo_seen w ts u C t idx e : updates_ok w ts u C → seen_version t (C idx) = Some e → heap u !! e.1 = Some e.2 ∧ info_ok e.2.
Proof.
  intros Hu He%seen_version_elem. destruct e as [l i]. split; [by eapply uo_lookup|].
  pose proof (uo_info _ _ _ _ Hu idx) as Hi. rewrite Forall_forall in Hi. by apply (Hi (l, i)).
Qed.

(** ** What a transaction reads *)

Definition view (b : list V) (C : nat → list entry) (t : Transaction) : list V :=
  imap (λ row v, default v (shown t (C (row / CAP)) (row mod CAP))) b.
#[local] Arguments view : simpl never.

Definition column_ok (w : option Z) (ts : Z) (c : ColumnChunk (V := V)) (C : nat → list entry) : Prop :=
  match updateInfo c with Some u => updates_ok w ts u C | None => ∀ idx, C idx = [] end.

Lemma view_length b C t : length (view b C t) = length b.
Proof. apply length_imap. Qed.

Lemma view_lookup b C t row : view b C t !! row = (λ v, default v (shown t (C (row / CAP)) (row mod CAP))) <$> b !! row.
Proof. apply list_lookup_imap. Qed.

Lemma view_no_updates b C t : (∀ idx, C idx = []) → view b C t = b.
Proof.
  intros HC. apply list_eq. intros k. rewrite view_lookup. destruct (b !! k); cbn; [|done]. by rewrite HC.
Qed.

Lemma col_lookup_view w ts c C t row : column_ok w ts c C → transaction_ok t →
  col_lookup c t row = view (base c) C t !! row.
Proof.
  intros Hc Ht. unfold col_lookup, column_ok in *. rewrite view_lookup.
  destruct (base c !! row) as [b|]; cbn; [|done]. destruct (updateInfo c) as [u|]; [|by rewrite Hc].
  rewrite (getVectorInfo_spec w ts u C) by done. cbn. unfold shown. destruct (seen_version t _) as [e|] eqn:E; cbn; [|done].
  destruct (uo_seen _ _ _ _ _ _ _ Hc E) as [-> Hi]. cbn. unfold overlay.
  destruct (find_row _ _) as [j|] eqn:Ef; cbn; [|done]. apply find_row_Some in Ef.
  destruct (lookup_lt_is_Some_2 (data e.2) j) as [v Hv]; [rewrite (io_data _ Hi); by eapply lookup_lt_Some|]. by rewrite Hv.
Qed.

(** ** Changing the versions of one vector *)

Definition put (C : nat → list entry) (idx : nat) (ls : list entry) : nat → list entry := λ k, if decide (k = idx) then ls else C k.

Lemma put_same C idx ls : put C idx ls idx = ls.
Proof. unfold put. by rewrite decide_True. Qed.

Lemma put_other C idx ls k : k ≠ idx → put C idx ls k = C k.
Proof. intros. unfold put. by rewrite decide_False. Qed.

Record change_ok (w : option Z) (ts : Z) u (old : list entry) u' (idx : nat) (ls : list entry) : Prop := {
  co_others k : k ≠ idx → mjoin (vectorsInfo u' !! k) = mjoin (vectorsInfo u !! k);
  co_frame l : l ∉ old.*1 → l < fresh u → heap u' !! l = heap u !! l;
  co_le : fresh u ≤ fresh u';
  co_fresh l : is_Some (heap u' !! l) → l < fresh u';
  co_chain : chain (heap u') (mjoin (vectorsInfo u' !! idx)) ls;
  co_nodup : NoDup ls.*1;
  co_locs l : l ∈ ls.*1 → l ∈ old.*1 ∨ fresh u ≤ l;
  co_info : Forall (λ e : entry, info_ok e.2) ls;
  co_versions : versions_ok w ts ((λ e : entry, version e.2) <$> ls);
  co_head e : head ls = Some e → head_ok w u' e;
  co_links k e e' : ls !! k = Some e → ls !! S k = Some e' → next e'.2 = Some e.1
}.

Lemma head_ok_mono w u u' e : (∀ l, heap u !! l = None → l < fresh u → heap u' !! l = None) → fresh u ≤ fresh u' →
  head_ok w u e → head_ok w u' e.
Proof. intros Hh Hf [?|(? & l & ? & ? & ?)]; [by left|right]. split; [done|]. exists l. split_and!; [done|by apply Hh|lia]. Qed.

Lemma change_updates w ts u C u' idx ls : updates_ok w ts u C → change_ok w ts u (C idx) u' idx ls →
  updates_ok w ts u' (put C idx ls).
Proof.
  intros Hu Hc.
  assert (∀ k l, k ≠ idx → l ∈ (C k).*1 → (l ∉ (C idx).*1) ∧ l < fresh u) as Hk.
  { intros k l Hk Hl. split; [|by eapply uo_bound]. intros Hl'. apply Hk. by eapply (uo_apart _ _ _ _ Hu). }
  assert (∀ k l, k ≠ idx → l ∈ (C k).*1 → l ∉ ls.*1) as Hls.
  { intros k l Hki Hl Hl'. destruct (Hk k l Hki Hl). destruct (co_locs _ _ _ _ _ _ _ Hc l Hl'); [done|lia]. }
  split.
  - intros k. destruct (decide (k = idx)) as [->|Hki]; [rewrite put_same; apply Hc|rewrite put_other by done].
    rewrite (co_others _ _ _ _ _ _ _ Hc) by done. apply (chain_frame (heap u)); [|apply Hu].
    intros l Hl. destruct (Hk k l Hki Hl). by apply Hc.
  - intros k. unfold put. case_decide; [apply Hc|apply Hu].
  - intros k k' l. unfold put. repeat case_decide; subst; intros Hl Hl'; try done; try (by exfalso; eapply Hls).
    by eapply (uo_apart _ _ _ _ Hu).
  - intros k. unfold put. case_decide; [apply Hc|apply Hu].
  - intros k. unfold put. case_decide; [apply Hc|apply Hu].
  - apply Hc.
  - intros k e. unfold put. case_decide; [apply Hc|]. intros He. apply (head_ok_mono w u); [|apply Hc|by eapply (uo_head _ _ _ _ Hu)].
    intros l Hl Hlt. rewrite (co_frame _ _ _ _ _ _ _ Hc); [done| |done]. intros ([l' i] & -> & Hin)%list_elem_of_fmap.
    apply (uo_lookup _ _ _ _ _ _ _ Hu) in Hin. cbn in Hl. congruence.
  - intros k. unfold put. case_decide; [apply Hc|apply Hu].
Qed.

(** The vector of versions made longer. *)
Definition extend u (idx : nat) : UpdateInfo :=
  mkUpdates (heap u) (fresh u) (vectorsInfo u ++ replicate (idx + 1 - length (vectorsInfo u)) None).

Lemma extend_lookup u idx k : mjoin (vectorsInfo (extend u idx) !! k) = mjoin (vectorsInfo u !! k).
Proof.
  cbn. destruct (decide (k < length (vectorsInfo u))) as [?|Hk]; [by rewrite lookup_app_l|].
  rewrite lookup_app_r, (lookup_ge_None_2 (vectorsInfo u)) by lia.
  destruct (replicate _ _ !! _) eqn:E; [|done]. apply lookup_replicate in E as [-> _]. done.
Qed.

Lemma extend_updates w ts u C idx : updates_ok w ts u C → updates_ok w ts (extend u idx) C.
Proof.
  intros Hu. split; [|apply Hu..]. intros k. rewrite extend_lookup. apply Hu.
Qed.

Lemma extend_idx u idx : idx < length (vectorsInfo (extend u idx)).
Proof. cbn. rewrite length_app, length_replicate. lia. Qed.

Lemma insert_idx (vs : list (option nat)) idx o k : idx < length vs →
  mjoin ((<[idx := o]> vs) !! k) = if decide (k = idx) then o else mjoin (vs !! k).
Proof.
  intros. case_decide; subst; [by rewrite list_lookup_insert_eq|by rewrite list_lookup_insert_ne].
Qed.

Lemma updates_ext w ts u C C' : (∀ k, C k = C' k) → updates_ok w ts u C → updates_ok w ts u C'.
Proof.
  intros HC [H1 H2 H3 H4 H5 H6 H7 H8]. split; try done; intros k.
  3: { intros k' l. rewrite <-!HC. apply H3. }
  all: rewrite <-HC; eauto.
Qed.

(** ** Updates of the writer *)

Lemma versions_head w ts v vs : versions_ok (Some w) ts (v :: vs) → v = w ∨ (v ≤ ts)%Z.
Proof.
  intros (cs & [<-|(x & [= ->] & [= -> ->])] & _ & Hf); [|by left]. right. by apply Forall_cons in Hf as [? _].
Qed.

Lemma versions_push w ts vs : Forall (λ v, (v ≤ ts)%Z) (take 1 vs) → (ts < w)%Z → versions_ok (Some w) ts vs → versions_ok (Some w) ts (w :: vs).
Proof.
  intros Hh Hw (cs & Hvs & Hs & Hf). exists cs. split_and!; [|done|done]. right. exists w. split; [done|].
  destruct Hvs as [->|(x & [= ->] & ->)]; [done|]. cbn in Hh. apply Forall_cons in Hh as [? _]. lia.
Qed.

Section Writer.
Context (t : Transaction) (ts : Z).
Context (Ht : transaction_ok t) (Hts : startTS t = ts).

(** The other transactions, whose snapshots are not later. *)
Definition foreign (t' : Transaction) : Prop := ID t' ≠ ID t ∧ (startTS t' ≤ ts)%Z.

Lemma ts_lt : (ts < ID t)%Z.
Proof. destruct Ht. lia. Qed.

Lemma foreign_blind t' i : foreign t' → version i = ID t → ¬ sees_version t' i.
Proof. intros [H1 H2] Hv [H|H]; [congruence|]. pose proof ts_lt. lia. Qed.

Lemma own_version_head fuel h row l i : 1 < fuel → h !! l = Some i → next i = None → version i = ID t ∨ (version i ≤ ts)%Z →
  own_version fuel h t row (Some l) None = Some (Ret (if decide (version i = ID t) then Some l else None)).
Proof.
  intros Hf Hl Hn Hv. destruct fuel as [|[|fuel]]; [lia..|]. cbn. rewrite Hl. cbn. rewrite Hn. destruct Ht. case_decide.
  - rewrite decide_True by lia. done.
  - rewrite decide_False by lia. done.
Qed.

Lemma own_version_dangling fuel h row l i l' : 1 < fuel → h !! l = Some i → next i = Some l' → h !! l' = None → (version i ≤ ts)%Z →
  own_version fuel h t row (Some l) None = None.
Proof.
  intros Hf Hl Hn Hl' Hv. destruct fuel as [|[|fuel]]; [lia..|]. destruct Ht. cbn. rewrite Hl. cbn. rewrite Hn, decide_False, decide_False, Hl' by lia. done.
Qed.

Definition created u C idx u' (l : nat) i (rest : list entry) : Prop :=
  updates_ok (Some (ID t)) ts u' (put C idx ((l, i) :: rest)) ∧ version i = ID t ∧ next i = None ∧
  (∀ r, overlay i r = shown t (C idx) r) ∧ (∀ t' r, foreign t' → shown t' rest r = shown t' (C idx) r) ∧
  (∀ e, head (C idx) = Some e → version e.2 = ID t → e.1 = l) ∧
  (∀ e, head (C idx) = Some e → version e.2 ≠ ID t → fst <$> head rest = Some e.1).

Lemma first_version u C idx : updates_ok (Some (ID t)) ts u C → C idx = [] → idx < length (vectorsInfo u) →
  let i := mkUpdate (ID t) [] None None [] in
  created u C idx (mkUpdates (<[fresh u := i]> (heap u)) (S (fresh u)) (<[idx := Some (fresh u)]> (vectorsInfo u))) (fresh u) i [].
Proof.
  intros Hu HC Hidx i. unfold created. rewrite HC. split_and!; try done. apply (change_updates _ _ u); [done|]. rewrite HC. split; cbn.
  - intros k Hk. by rewrite insert_idx, decide_False.
  - intros l _ Hl. rewrite lookup_insert_ne; [done|lia].
  - lia.
  - intros l. destruct (decide (l = fresh u)) as [->|]; [lia|]. rewrite lookup_insert_ne by done. intros ?%(uo_fresh _ _ _ _ Hu). lia.
  - rewrite insert_idx, decide_True by done. by rewrite lookup_insert_eq.
  - apply NoDup_singleton.
  - intros l. rewrite list_elem_of_singleton. intros ->. right. lia.
  - apply Forall_singleton. split; cbn; [apply NoDup_nil_2|done|done].
  - exists []. split_and!; [right; eauto|constructor|constructor].
  - intros e [= <-]. by left.
  - intros k e e' _ Hk. done.
Qed.

Lemma own_head u C idx l i rest : updates_ok (Some (ID t)) ts u C → C idx = (l, i) :: rest → version i = ID t →
  created u C idx u l i rest.
Proof.
  intros Hu HC Hv. split_and!; try done.
  - eapply updates_ext, Hu. intros k. unfold put. by case_decide; subst.
  - destruct (uo_head _ _ _ _ Hu idx (l, i)) as [?|[Hw _]]; [by rewrite HC|done|]. by rewrite <-Hv in Hw.
  - intros r. rewrite HC, shown_cons, decide_True; [done|]. by left.
  - intros t' r Hf. rewrite HC, shown_cons, decide_False; [done|]. by apply foreign_blind.
  - rewrite HC. by intros e [= <-].
  - rewrite HC. by intros e [= <-].
Qed.

Lemma next_version u C idx cur old rest : updates_ok (Some (ID t)) ts u C → C idx = (cur, old) :: rest → (version old ≤ ts)%Z →
  next old = None → idx < length (vectorsInfo u) →
  ∃ u' i, new_version u t idx cur = Some u' ∧ created u C idx u' (fresh u) i ((cur, set_next old (Some (fresh u))) :: rest).
Proof.
  intros Hu HC Hv Hn Hidx. assert (heap u !! cur = Some old) as Hcur by (eapply uo_lookup; [done|rewrite HC; set_solver]).
  assert (info_ok old) as Hi. { pose proof (uo_info _ _ _ _ Hu idx) as Hi. rewrite HC in Hi. by apply Forall_cons in Hi as [? _]. }
  pose proof (uo_fresh _ _ _ _ Hu cur ltac:(by eexists)) as Hlt. pose proof ts_lt as Hid. unfold new_version. rewrite Hcur. cbn.
  rewrite take_ge by (rewrite (io_data _ Hi); lia). eexists _, (mkUpdate (ID t) (rowsInVector old) (Some cur) None (data old)).
  split; [done|]. pose proof (uo_nodup _ _ _ _ Hu idx) as Hnd. rewrite HC in Hnd. apply NoDup_cons in Hnd as [Hnd1 Hnd2].
  split_and!; try done.
  2:{ intros r. rewrite HC, shown_cons, decide_True; [done|]. right. cbn. lia. }
  2:{ intros t' r _. by rewrite HC, !shown_cons. }
  2:{ rewrite HC. intros e [= <-]. cbn. lia. }
  2:{ rewrite HC. by intros e [= <-]. }
  apply (change_updates _ _ u); [done|]. rewrite HC. split; cbn.
  - intros k Hk. by rewrite insert_idx, decide_False.
  - intros l Hl Hlf. rewrite !lookup_insert_ne; [done| |lia]. intros ->. set_solver.
  - lia.
  - intros l. destruct (decide (l = fresh u)) as [->|]; [lia|]. rewrite lookup_insert_ne by done.
    destruct (decide (l = cur)) as [->|]; [lia|]. rewrite lookup_insert_ne by done. intros ?%(uo_fresh _ _ _ _ Hu). lia.
  - rewrite insert_idx, decide_True by done. split_and!; [done|by rewrite lookup_insert_eq|done| |].
    + by rewrite lookup_insert_ne, lookup_insert_eq by lia.
    + pose proof (uo_chain _ _ _ _ Hu idx) as Hc. rewrite HC in Hc. destruct Hc as (_ & _ & Hc).
      eapply chain_frame, Hc. intros l Hl. assert (l < fresh u). { eapply uo_bound; [done|]. rewrite HC. cbn. set_solver. }
      rewrite !lookup_insert_ne; [done| |lia]. intros ->. done.
  - apply NoDup_cons. split; [|by apply NoDup_cons]. intros Hin. assert (fresh u < fresh u); [|lia].
    eapply (uo_bound _ _ _ _ idx); [done|]. by rewrite HC.
  - intros l [->|Hl]%elem_of_cons; [right; lia|by left].
  - pose proof (uo_info _ _ _ _ Hu idx) as Hf. rewrite HC in Hf. apply Forall_cons in Hf as [[? ? ?] ?]. by repeat constructor.
  - apply versions_push; [by repeat constructor|done|]. pose proof (uo_versions _ _ _ _ Hu idx) as Hvs. by rewrite HC in Hvs.
  - intros e [= <-]. by left.
  - intros [|[|k]] e e' He Hk; cbn in *; simplify_eq; try done.
    + pose proof (uo_links _ _ _ _ Hu idx 0 (cur, old) e') as Hl. rewrite HC in Hl. by apply Hl.
    + pose proof (uo_links _ _ _ _ Hu idx (S k) e e') as Hl. rewrite HC in Hl. by apply Hl.
Qed.

Lemma getOrCreate_spec u C idx row : updates_ok (Some (ID t)) ts u C → (∀ e, head (C idx) = Some e → next e.2 = None) →
  ∃ u' l i rest, getOrCreateVectorInfo u t idx row = Some (u', Ret l) ∧ created u C idx u' l i rest.
Proof.
  intros Hu Hclean. pose proof (extend_updates _ _ _ _ idx Hu) as Hu'. pose proof (extend_idx u idx) as Hidx.
  pose proof (uo_chain _ _ _ _ Hu' idx) as Hc. unfold getOrCreateVectorInfo. fold (extend u idx). set (u1 := extend u idx) in *.
  destruct (vectorsInfo u1 !! idx) as [o|] eqn:Eo; [|by apply lookup_ge_None in Eo; lia]. cbn in Hc. cbn [mbind option_bind].
  destruct (C idx) as [|[l i] rest] eqn:EC.
  - rewrite Hc. pose proof (first_version u1 C idx Hu' EC Hidx) as H1. unfold created in *. rewrite EC in *. by eexists _, _, _, _.
  - destruct Hc as (-> & Hl & Hc). pose proof (Hclean (l, i) eq_refl) as Hn. cbn in Hn.
    pose proof (uo_versions _ _ _ _ Hu idx) as Hv. rewrite EC in Hv. apply versions_head in Hv.
    pose proof (uo_fresh _ _ _ _ Hu' l ltac:(by eexists)) as Hlt. rewrite (own_version_head _ _ _ l i); [|lia|done..]. cbn. case_decide as Hid.
    + exists u1, l, i, rest. split; [done|]. by apply own_head.
    + destruct Hv as [?|Hv]; [done|]. destruct (next_version u1 C idx l i rest) as (u' & i' & -> & Hcr); try done.
      cbn. by eexists _, _, _, _.
Qed.

Lemma NoDup_snoc (row : nat) rows : NoDup rows → row ∉ rows → NoDup (rows ++ [row]).
Proof. intros. apply NoDup_app. split_and!; [done| |apply NoDup_singleton]. by intros r Hr ->%list_elem_of_singleton. Qed.

(** A row written into a version. *)
Lemma write_row_spec i row v : info_ok i → row < CAP → ∃ rows j d,
  match find_row row (rowsInVector i) with
  | Some j => Some (rowsInVector i, j)
  | None => if decide (length (rowsInVector i) < CAP) then Some (rowsInVector i ++ [row], length (rowsInVector i)) else None
  end = Some (rows, j) ∧ write_data (data i) j v = Some d ∧
  ∀ x p n, let i' := mkUpdate x rows p n d in info_ok i' ∧ ∀ r, overlay i' r = if decide (r = row) then Some v else overlay i r.
Proof.
  intros [Hn Hr Hd] Hrow. destruct (find_row row (rowsInVector i)) as [j|] eqn:E.
  - apply find_row_Some in E as Hj. pose proof (lookup_lt_Some _ _ _ Hj) as Hlt.
    exists (rowsInVector i), j, (<[j := v]> (data i)). split_and!; [done|unfold write_data; by rewrite decide_True by lia|]. intros x p n i'. split; [by split; [..|cbn; rewrite length_insert]|].
    intros r. unfold overlay, i'. cbn [rowsInVector data]. case_decide as Hrr.
    + subst r. rewrite E. cbn. apply list_lookup_insert_eq. lia.
    + destruct (find_row r (rowsInVector i)) as [k|] eqn:Ek; cbn; [|done]. apply find_row_Some in Ek.
      apply list_lookup_insert_ne. intros ->. congruence.
  - apply find_row_None in E as Hni. assert (length (rowsInVector i) < CAP) as Hlt.
    { rewrite <-(length_seq CAP 0). apply (submseteq_length (row :: rowsInVector i)), NoDup_submseteq; [by apply NoDup_cons|].
      rewrite Forall_forall in Hr. intros r [->|Hin]%elem_of_cons; apply elem_of_seq; [lia|]. specialize (Hr r Hin). lia. }
    rewrite decide_True by done. exists (rowsInVector i ++ [row]), (length (rowsInVector i)), (data i ++ [v]).
    split_and!; [done|unfold write_data; by rewrite decide_False, decide_True by lia|]. intros x p n i'. split.
    + split; cbn; [by apply NoDup_snoc|by apply Forall_app_2; [|repeat constructor]|rewrite !length_app; cbn; lia].
    + intros r. unfold overlay, i'. cbn [rowsInVector data]. case_decide as Hrr.
      * subst r. rewrite (find_row_nodup row _ (length (rowsInVector i))); [cbn; by apply list_lookup_middle|by apply NoDup_snoc|by apply list_lookup_middle].
      * destruct (find_row r (rowsInVector i)) as [k|] eqn:Ek.
        -- apply find_row_Some in Ek. pose proof (lookup_lt_Some _ _ _ Ek). rewrite (find_row_nodup r _ k); cbn.
           ++ apply lookup_app_l. lia.
           ++ by apply NoDup_snoc.
           ++ by rewrite lookup_app_l.
        -- rewrite (proj2 (find_row_None r _)); [done|]. apply find_row_None in Ek. rewrite elem_of_app, list_elem_of_singleton. tauto.
Qed.

Lemma put_put C idx ls ls' k : put (put C idx ls) idx ls' k = put C idx ls' k.
Proof. unfold put. by case_decide. Qed.

Lemma replace_head w u C idx l i rest i' : updates_ok w ts u C → C idx = (l, i) :: rest →
  version i' = version i → prev i' = prev i → next i' = next i → info_ok i' →
  updates_ok w ts (mkUpdates (<[l := i']> (heap u)) (fresh u) (vectorsInfo u)) (put C idx ((l, i') :: rest)).
Proof.
  intros Hu HC Hv Hp Hn Hi. pose proof (uo_chain _ _ _ _ Hu idx) as Hc. rewrite HC in Hc. destruct Hc as (Ho & Hl & Hc).
  pose proof (uo_nodup _ _ _ _ Hu idx) as Hnd. rewrite HC in Hnd. pose proof (proj1 (proj1 (NoDup_cons _ _) Hnd)) as Hnl.
  apply (change_updates _ _ u); [done|]. rewrite HC. split; cbn.
  - done.
  - intros l' Hl' _. rewrite lookup_insert_ne; [done|]. set_solver.
  - done.
  - intros l'. destruct (decide (l' = l)) as [->|]; [intros _; apply Hu; eauto|]. rewrite lookup_insert_ne by done. apply Hu.
  - split_and!; [done|apply lookup_insert_eq|]. rewrite Hp. eapply chain_frame, Hc. intros l' Hl'.
    apply lookup_insert_ne. intros ->. done.
  - done.
  - intros l' Hl'. by left.
  - pose proof (uo_info _ _ _ _ Hu idx) as Hf. rewrite HC in Hf. apply Forall_cons in Hf as [_ ?]. by apply Forall_cons.
  - pose proof (uo_versions _ _ _ _ Hu idx) as Hvs. rewrite HC in Hvs. cbn in Hvs. by rewrite Hv.
  - intros e [= <-]. destruct (uo_head _ _ _ _ Hu idx (l, i)) as [?|(? & l' & ? & Hl' & ?)]; [by rewrite HC|left; cbn in *; congruence|].
    right. cbn in *. rewrite Hv, Hn. split; [done|]. exists l'. split_and!; [done| |done]. rewrite lookup_insert_ne; [done|congruence].
  - intros [|k] e e' He He'; cbn in *; simplify_eq.
    + pose proof (uo_links _ _ _ _ Hu idx 0 (l, i) e') as Hk. rewrite HC in Hk. by apply Hk.
    + pose proof (uo_links _ _ _ _ Hu idx (S k) e e') as Hk. rewrite HC in Hk. by apply Hk.
Qed.

(** The effect of an update: the writer reads the new value, the others what they read before. *)
Definition updated u' (C : nat → list entry) (idx row : nat) (v : V) (l : nat) (ls : list entry) : Prop :=
  updates_ok (Some (ID t)) ts u' (put C idx ls) ∧ (∃ i, head ls = Some (l, i) ∧ version i = ID t ∧ next i = None) ∧
  (∀ r, shown t ls r = if decide (r = row) then Some v else shown t (C idx) r) ∧
  (∀ t' r, foreign t' → shown t' ls r = shown t' (C idx) r) ∧
  (∀ e, head (C idx) = Some e → version e.2 = ID t → e.1 = l) ∧
  (∀ e, head (C idx) = Some e → version e.2 ≠ ID t → fst <$> head (tail ls) = Some e.1).

Lemma update_spec u C idx row v : updates_ok (Some (ID t)) ts u C → row < CAP → (∀ e, head (C idx) = Some e → next e.2 = None) →
  ∃ u' l ls, update u t idx row v = Some (u', Ret l) ∧ updated u' C idx row v l ls.
Proof.
  intros Hu Hrow Hclean. destruct (getOrCreate_spec u C idx row Hu Hclean) as (u1 & l & i & rest & E & Hu1 & Hv & Hn & Ho & Hf & He & Hold).
  unfold update. rewrite E. cbn [mbind option_bind].
  assert (heap u1 !! l = Some i) as Hl by (eapply (uo_lookup _ _ _ _ idx); [done|rewrite put_same; set_solver]). rewrite Hl.
  cbn [mbind option_bind]. pose proof (uo_info _ _ _ _ Hu1 idx) as Hi. rewrite put_same in Hi. apply Forall_cons in Hi as [Hi _].
  destruct (write_row_spec i row v Hi Hrow) as (rows & j & d & -> & Hd & Hw). cbn [mbind option_bind]. rewrite Hd. cbn [mbind option_bind].
  destruct (Hw (version i) (prev i) (next i)) as [Hi' Hw']. set (i' := mkUpdate (version i) rows (prev i) (next i) d) in *.
  eexists _, l, ((l, i') :: rest). split; [done|]. split_and!.
  - eapply updates_ext; [apply put_put|]. eapply replace_head; [done|apply put_same|done..].
  - by exists i'.
  - intros r. rewrite shown_cons, decide_True by (by left). by rewrite Hw', Ho.
  - intros t' r Hfo. rewrite shown_cons, decide_False by (by apply foreign_blind). by apply Hf.
  - done.
  - done.
Qed.

(** An update that returns did not meet a pointer to a destroyed version. *)
Lemma update_dangling u C idx row v e l' : updates_ok (Some (ID t)) ts u C → head (C idx) = Some e →
  next e.2 = Some l' → update u t idx row v = None.
Proof.
  intros Hu He Hn. pose proof (extend_updates _ _ _ _ idx Hu) as Hu'. pose proof (uo_chain _ _ _ _ Hu' idx) as Hc.
  destruct (C idx) as [|[l i] rest] eqn:EC; [done|]. injection He as <-. cbn in Hn. destruct Hc as (Ho & Hl & _).
  destruct (uo_head _ _ _ _ Hu' idx (l, i)) as [H|(Hw & l'' & Hn' & Hl'' & _)]; [by rewrite EC|cbn in H; congruence|].
  cbn in Hn', Hw. rewrite Hn in Hn'. injection Hn' as <-.
  unfold update, getOrCreateVectorInfo. fold (extend u idx). set (u1 := extend u idx) in *.
  destruct (vectorsInfo u1 !! idx) as [o|] eqn:Eo; [|done]. cbn in Ho. subst o. cbn [mbind option_bind].
  pose proof (uo_fresh _ _ _ _ Hu' l ltac:(by eexists)) as Hlt.
  pose proof (uo_versions _ _ _ _ Hu idx) as Hv. rewrite EC in Hv. apply versions_head in Hv as [Hv|Hv]; cbn in Hv; [by rewrite Hv in Hw|].
  by rewrite (own_version_dangling _ _ _ l i l') by (lia || done).
Qed.

Lemma update_partial u C idx row v u' r : updates_ok (Some (ID t)) ts u C → row < CAP → update u t idx row v = Some (u', r) →
  ∃ l ls, r = Ret l ∧ updated u' C idx row v l ls.
Proof.
  intros Hu Hrow E. destruct (update_spec u C idx row v Hu Hrow) as (u1 & l & ls & E' & H).
  - intros e He. destruct (next e.2) as [l'|] eqn:En; [|done]. by rewrite (update_dangling u C idx row v e l') in E.
  - rewrite E in E'. injection E' as -> ->. by exists l, ls.
Qed.

(** ** Commit and rollback

    The undo records of the writer name its versions, each the newest of its vector. *)
Definition recs_ok (C : nat → list entry) (recs : list VectorUpdateRecord) : Prop :=
  (∀ idx l, (idx, l) ∈ recs → ∃ i, head (C idx) = Some (l, i) ∧ version i = ID t) ∧
  (∀ idx e, head (C idx) = Some e → version e.2 = ID t → (idx, e.1) ∈ recs).

Lemma updated_recs u' C idx row v l ls recs : updated u' C idx row v l ls → recs_ok C recs →
  recs_ok (put C idx ls) (recs ++ [(idx, l)]).
Proof.
  intros (_ & (i & Hh & Hv & _) & _ & _ & He & _) [H1 H2]. split.
  - intros k l' [Hin|Hin]%elem_of_app; unfold put.
    + destruct (H1 k l' Hin) as (i' & Hh' & Hv'). case_decide; [|by exists i']. subst k. exists i.
      rewrite <-(He _ Hh' Hv') in Hh. by split.
    + apply list_elem_of_singleton in Hin as [= -> ->]. rewrite decide_True by done. by exists i.
  - intros k e. unfold put. case_decide; intros Hk Hve; apply elem_of_app; [right|left; by apply H2].
    subst k. rewrite Hh in Hk. injection Hk as <-. by apply list_elem_of_singleton.
Qed.

Lemma versions_rest ls e : versions_ok (Some (ID t)) ts ((λ e : entry, version e.2) <$> (e :: ls)) →
  Forall (λ e : entry, (version e.2 ≤ ts)%Z) ls.
Proof.
  intros (cs & Hvs & _ & Hf). cbn in Hvs. change (Forall ((λ v, (v ≤ ts)%Z) ∘ (λ e : entry, version e.2)) ls). rewrite <-Forall_fmap.
  destruct Hvs as [<-|(x & _ & [= _ <-])]; [by apply Forall_cons in Hf as [_ ?]|done].
Qed.

(** Only the newest version of a vector can be the writer's. *)
Lemma own_is_head u C idx e : updates_ok (Some (ID t)) ts u C → e ∈ C idx → version e.2 = ID t → head (C idx) = Some e.
Proof.
  intros Hu Hin Hv. pose proof (uo_versions _ _ _ _ Hu idx) as Hvs. destruct (C idx) as [|e' ls]; [by apply elem_of_nil in Hin|].
  apply elem_of_cons in Hin as [->|Hin]; [done|]. apply versions_rest in Hvs. rewrite Forall_forall in Hvs.
  specialize (Hvs e Hin). cbn in Hvs. pose proof ts_lt. lia.
Qed.

Lemma recorded u C recs idx e : updates_ok (Some (ID t)) ts u C → recs_ok C recs → e ∈ C idx → e.1 ∈ recs.*2 ↔ version e.2 = ID t.
Proof.
  intros Hu [H1 H2] Hin. split.
  - intros ([k l] & Hl & (i & Hh & Hv)%H1)%list_elem_of_fmap. cbn in Hl. subst l.
    assert ((e.1, i) ∈ C k) as Hk by (destruct (C k); [done|]; injection Hh as ->; set_solver).
    assert (k = idx) as -> by (eapply (uo_apart _ _ _ _ Hu _ _ e.1); apply list_elem_of_fmap; eexists; (split; [|done]); done).
    destruct e as [l i']. assert (i = i') as <- by (apply (uo_lookup _ _ _ _ _ _ _ Hu) in Hin, Hk; cbn in *; congruence). done.
  - intros Hv. apply list_elem_of_fmap. exists (idx, e.1). split; [done|]. apply H2; [by eapply own_is_head|done].
Qed.

Definition commit_entry (commitTS : Z) (e : entry) : entry :=
  if decide (version e.2 = ID t) then (e.1, set_version e.2 commitTS) else e.

Lemma commit_heap u recs commitTS : (∀ l, l ∈ recs.*2 → is_Some (heap u !! l)) →
  ∃ u', ofold (commitVectorUpdateInfo commitTS) u recs = Some u' ∧ fresh u' = fresh u ∧ vectorsInfo u' = vectorsInfo u ∧
    ∀ l, heap u' !! l = (λ i, if decide (l ∈ recs.*2) then set_version i commitTS else i) <$> heap u !! l.
Proof.
  intros Hl. set (I := λ (done : list (nat * nat)) (u' : UpdateInfo (V := V)), fresh u' = fresh u ∧ vectorsInfo u' = vectorsInfo u ∧
    ∀ l, heap u' !! l = (λ i, if decide (l ∈ done.*2) then set_version i commitTS else i) <$> heap u !! l).
  apply (ofold_total _ I); unfold I.
  - split_and!; [done..|]. intros l. rewrite <-(option_fmap_id (heap u !! l)) at 1. done.
  - intros dn [idx k] rest u1 -> (Hf & Hv & Hh). destruct (Hl k) as [i Hi]; [rewrite fmap_app; set_solver|].
    unfold commitVectorUpdateInfo. cbn [snd]. rewrite Hh, Hi. cbn. eexists. split; [done|]. split_and!; [done..|].
    intros l. rewrite fmap_app. cbn. destruct (decide (l = k)) as [->|Hne].
    + rewrite lookup_insert_eq, Hi. cbn. rewrite (decide_True (P := k ∈ _ ++ [k])) by set_solver. by case_decide.
    + rewrite lookup_insert_ne, Hh by done. destruct (heap u !! l); cbn; [|done]. f_equal. by repeat case_decide; set_solver.
Qed.

Lemma chain_commit h h' commitTS o ls : (∀ e, e ∈ ls → h' !! e.1 = Some (commit_entry commitTS e).2) →
  chain h o ls → chain h' o (commit_entry commitTS <$> ls).
Proof.
  revert o. induction ls as [|[l i] ls IH]; intros o Hh Hc; [done|]. destruct Hc as (-> & Hl & Hc).
  pose proof (Hh (l, i) ltac:(set_solver)) as Hli. cbn. unfold commit_entry in Hli |- *. cbn in *. case_decide; cbn in *.
  - split_and!; [done|done|]. apply IH; [|done]. intros e He. apply Hh. set_solver.
  - split_and!; [done|done|]. apply IH; [|done]. intros e He. apply Hh. set_solver.
Qed.

Lemma commit_fields commitTS e : (commit_entry commitTS e).1 = e.1 ∧ next (commit_entry commitTS e).2 = next e.2 ∧
  (info_ok e.2 → info_ok (commit_entry commitTS e).2) ∧ ∀ r, overlay (commit_entry commitTS e).2 r = overlay e.2 r.
Proof. unfold commit_entry. case_decide; cbn; split_and!; try done. by intros []. Qed.

Lemma commit_versions ls commitTS : (ts < commitTS)%Z → versions_ok (Some (ID t)) ts ((λ e : entry, version e.2) <$> ls) →
  versions_ok None commitTS ((λ e : entry, version e.2) <$> (commit_entry commitTS <$> ls)).
Proof.
  intros Hlt (cs & Hvs & Hs & Hf). pose proof ts_lt.
  assert (∀ ls cs, (λ e : entry, version e.2) <$> ls = cs → Forall (λ v, (v ≤ ts)%Z) cs →
    (λ e : entry, version e.2) <$> (commit_entry commitTS <$> ls) = cs) as Hsame.
  { intros ls' cs' <- Hf'. rewrite Forall_fmap in Hf'. rewrite <-list_fmap_compose. apply list_fmap_ext. intros k e Hk.
    rewrite Forall_lookup in Hf'. specialize (Hf' k e Hk). cbn in *. unfold commit_entry. rewrite decide_False; [done|lia]. }
  assert (Forall (λ v, (v ≤ commitTS)%Z) cs) by (eapply Forall_impl; [done|]; cbn; lia).
  destruct Hvs as [Hvs|(x & [= <-] & Hvs)].
  - exists cs. split_and!; [left; by apply Hsame|done|done].
  - destruct ls as [|e ls]; [done|]. injection Hvs as Hv Hvs. exists (commitTS :: cs). split_and!.
    + left. cbn. rewrite (Hsame ls cs Hvs Hf). f_equal. unfold commit_entry. by rewrite decide_True.
    + constructor; [done|]. eapply Forall_impl; [exact Hf|]. cbn. lia.
    + constructor; [lia|done].
Qed.

Lemma commit_spec u C recs commitTS : updates_ok (Some (ID t)) ts u C → recs_ok C recs → (ts < commitTS)%Z →
  ∃ u', ofold (commitVectorUpdateInfo commitTS) u recs = Some u' ∧ updates_ok None commitTS u' (λ idx, commit_entry commitTS <$> C idx).
Proof.
  intros Hu Hr Hlt. destruct (commit_heap u recs commitTS) as (u' & E & Hf & Hv & Hh).
  { intros l ([idx l'] & -> & (i & Hi & _)%(proj1 Hr))%list_elem_of_fmap. exists i. eapply (uo_lookup _ _ _ _ idx); [done|].
    destruct (C idx); [done|]. injection Hi as ->. set_solver. }
  exists u'. split; [done|].
  assert (∀ idx, (commit_entry commitTS <$> C idx).*1 = (C idx).*1) as Hlocs.
  { intros idx. rewrite <-list_fmap_compose. apply list_fmap_ext. intros k e _. cbn. apply commit_fields. }
  split.
  - intros idx. rewrite Hv. eapply chain_commit, Hu. intros e He. rewrite Hh.
    destruct e as [l i]. cbn [fst]. rewrite (uo_lookup _ _ _ _ _ _ _ Hu He). cbn. pose proof (recorded u C recs idx (l, i) Hu Hr He) as Hrec.
    cbn in Hrec. unfold commit_entry. cbn. f_equal. by repeat case_decide; try tauto.
  - intros idx. rewrite Hlocs. apply Hu.
  - intros idx idx' l. rewrite !Hlocs. apply Hu.
  - intros idx. rewrite Forall_fmap. eapply Forall_impl; [apply Hu|]. intros e He. cbn. by apply commit_fields.
  - intros idx. by apply commit_versions, Hu.
  - intros l. rewrite Hh, Hf, fmap_is_Some. apply Hu.
  - intros idx e' He'. destruct (C idx) as [|e ls] eqn:EC; [done|]. injection He' as <-.
    destruct (uo_head _ _ _ _ Hu idx e) as [Hn|(_ & l & Hn & Hl & Hlf)]; [by rewrite EC|left|right].
    + by rewrite (proj1 (proj2 (commit_fields commitTS e))).
    + split; [done|]. exists l. rewrite (proj1 (proj2 (commit_fields commitTS e))), Hh, Hl, Hf. done.
  - intros idx k e1 e2. rewrite !list_lookup_fmap. intros (e1' & H1 & ->)%fmap_Some (e2' & H2 & ->)%fmap_Some.
    destruct (commit_fields commitTS e1') as (-> & _). destruct (commit_fields commitTS e2') as (_ & -> & _).
    by eapply (uo_links _ _ _ _ Hu).
Qed.

Definition drop_own (ls : list entry) : list entry :=
  match ls with [] => [] | e :: rest => if decide (version e.2 = ID t) then rest else ls end.

Lemma drop_own_sub ls e : e ∈ drop_own ls → e ∈ ls.
Proof. destruct ls as [|e' ls]; [done|]. cbn. case_decide; set_solver. Qed.

Lemma drop_own_versions ls : versions_ok (Some (ID t)) ts ((λ e : entry, version e.2) <$> ls) →
  Forall (λ e : entry, version e.2 ≠ ID t) (drop_own ls) ∧ versions_ok None ts ((λ e : entry, version e.2) <$> drop_own ls).
Proof.
  intros Hvs. pose proof ts_lt. destruct ls as [|e ls]; [split; [done|]; exists []; split_and!; [by left|constructor..]|].
  pose proof (versions_rest ls e Hvs) as Hrest.
  assert (Forall (λ e : entry, version e.2 ≠ ID t) ls) by (eapply Forall_impl; [done|]; cbn; lia).
  destruct Hvs as (cs & Hvs & Hs & Hf). cbn. case_decide as He; destruct Hvs as [Hvs|(x & [= <-] & Hvs)].
  - subst cs. split; [done|]. apply StronglySorted_inv in Hs as [? ?]. apply Forall_cons in Hf as [? ?].
    eexists. split_and!; [by left|done|done].
  - injection Hvs as _ Hvs. split; [done|]. exists cs. split_and!; [by left|done|done].
  - split; [by constructor|]. exists cs. split_and!; [by left|done|done].
  - by injection Hvs as ? _.
Qed.

Lemma destroy_None fuel h : destroy fuel h None = Some h.
Proof. by destruct fuel. Qed.

(** The first record of a vector destroys the version of the writer. *)
Lemma rollback_own u C idx l i rest : updates_ok (Some (ID t)) ts u C → C idx = (l, i) :: rest → version i = ID t →
  ∃ u', rollbackVectorUpdateInfo t u (idx, l) = Some u' ∧ updates_ok (Some (ID t)) ts u' (put C idx rest).
Proof.
  intros Hu HC Hv. unfold rollbackVectorUpdateInfo. rewrite (getVectorInfo_spec _ _ _ _ _ idx Hu Ht), HC. cbn [seen_version snd].
  rewrite decide_True by (by left). cbn [fmap option_fmap option_map fst mbind option_bind]. rewrite decide_False by tauto.
  pose proof (uo_chain _ _ _ _ Hu idx) as Hc. rewrite HC in Hc. destruct Hc as (Ho & Hl & Hc). rewrite Hl. cbn [mbind option_bind].
  destruct (uo_head _ _ _ _ Hu idx (l, i)) as [Hn|[Hw _]]; [by rewrite HC| |by rewrite <-Hv in Hw]. cbn in Hn. rewrite Hn.
  pose proof (uo_nodup _ _ _ _ Hu idx) as Hnd. rewrite HC in Hnd. apply NoDup_cons in Hnd as [Hnl Hnd].
  unfold setVectorInfo. cbn [heap fresh vectorsInfo]. destruct (vectorsInfo u !! idx) as [o|] eqn:Eo; [|done]. cbn in Ho. subst o.
  cbn [mbind option_bind destroy]. rewrite lookup_insert_eq. cbn [mbind option_bind prev set_prev].
  rewrite delete_insert_eq, destroy_None. eexists. split; [done|]. apply (change_updates _ _ u); [done|]. rewrite HC.
  split; cbn.
  - intros k Hk. by rewrite list_lookup_insert_ne.
  - intros l' Hl' _. apply lookup_delete_ne. set_solver.
  - done.
  - intros l' [i' Hi']. apply lookup_delete_Some in Hi' as [_ ?]. apply Hu. eauto.
  - rewrite list_lookup_insert_eq by (by eapply lookup_lt_Some). cbn. eapply chain_frame, Hc. intros l' Hl'.
    apply lookup_delete_ne. intros ->. done.
  - done.
  - intros l' Hl'. left. set_solver.
  - pose proof (uo_info _ _ _ _ Hu idx) as Hf. rewrite HC in Hf. by apply Forall_cons in Hf as [_ ?].
  - pose proof (drop_own_versions _ (uo_versions _ _ _ _ Hu idx)) as [_ (cs & Hcs & ? & ?)]. rewrite HC in Hcs. cbn in Hcs.
    rewrite decide_True in Hcs by done. exists cs. split_and!; [|done|done]. destruct Hcs as [?|(? & ? & _)]; [by left|done].
  - intros e He. right. pose proof (uo_links _ _ _ _ Hu idx 0 (l, i) e) as Hk. rewrite HC in Hk. destruct rest as [|e' rest]; [done|].
    injection He as ->. split.
    + pose proof (uo_versions _ _ _ _ Hu idx) as Hvs. rewrite HC in Hvs. apply versions_rest in Hvs.
      apply Forall_cons in Hvs as [Hle _]. pose proof ts_lt. intros [= Heq]. cbn in *. lia.
    + exists l. split_and!; [by apply Hk|apply lookup_delete_eq|apply Hu; eauto].
  - intros k e e' He He'. pose proof (uo_links _ _ _ _ Hu idx (S k) e e') as Hk. rewrite HC in Hk. by apply Hk.
Qed.

(** The other records of the vector find another version. *)
Lemma rollback_done u C idx l : updates_ok (Some (ID t)) ts u C → l ∉ (C idx).*1 → rollbackVectorUpdateInfo t u (idx, l) = Some u.
Proof.
  intros Hu Hl. unfold rollbackVectorUpdateInfo. rewrite (getVectorInfo_spec _ _ _ _ _ idx Hu Ht). cbn [mbind option_bind].
  rewrite decide_True; [done|]. intros (e & He & ->)%fmap_Some. apply seen_version_elem in He. apply Hl, list_elem_of_fmap. by exists e.
Qed.

Lemma rollback_spec u C recs : updates_ok (Some (ID t)) ts u C → recs_ok C recs →
  ∃ u', ofold (rollbackVectorUpdateInfo t) u (reverse recs) = Some u' ∧ updates_ok None ts u' (λ idx, drop_own (C idx)).
Proof.
  unfold VectorUpdateRecord in *. intros Hu [Hr1 Hr2].
  set (D := λ (done : list (nat * nat)) idx, if decide (idx ∈ done.*1) then drop_own (C idx) else C idx).
  destruct (ofold_total (rollbackVectorUpdateInfo t) (λ done u, updates_ok (Some (ID t)) ts u (D done)) (reverse recs) u) as (u' & E & Hu').
  - done.
  - intros dn [idx l] rest u1 Hrecs Hu1. destruct (Hr1 idx l) as (i & Hh & Hv).
    { rewrite <-elem_of_reverse, Hrecs. set_solver. }
    destruct (C idx) as [|[l' i'] ls] eqn:EC; [done|]. injection Hh as -> ->.
    pose proof (uo_nodup _ _ _ _ Hu idx) as Hnd. rewrite EC in Hnd. apply NoDup_cons in Hnd as [Hnl _].
    assert (∀ k, D (dn ++ [(idx, l)]) k = put (D dn) idx ls k) as HD.
    { intros k. unfold D, put. rewrite fmap_app. cbn. destruct (decide (k = idx)) as [->|].
      - rewrite decide_True by set_solver. rewrite EC. cbn. by rewrite decide_True.
      - by repeat case_decide; set_solver. }
    destruct (decide (idx ∈ dn.*1)) as [Hin|Hnin].
    + assert (D dn idx = ls) as HDi by (unfold D; rewrite decide_True, EC by done; cbn; by rewrite decide_True).
      exists u1. split; [eapply rollback_done; [done|by rewrite HDi]|]. eapply updates_ext, Hu1. intros k. rewrite HD. unfold put.
      case_decide; by subst.
    + assert (D dn idx = (l, i) :: ls) as HDi by (unfold D; by rewrite decide_False).
      destruct (rollback_own u1 (D dn) idx l i ls Hu1 HDi Hv) as (u2 & E2 & Hu2). exists u2. split; [done|].
      eapply updates_ext, Hu2. intros k. by rewrite HD.
  - exists u'. split; [done|]. assert (∀ k, D (reverse recs) k = drop_own (C k)) as HD.
    { intros k. unfold D. case_decide as Hk; [done|]. destruct (C k) as [|e ls] eqn:EC; [done|]. cbn. case_decide as He; [|done].
      destruct Hk. apply list_elem_of_fmap. exists (k, e.1). split; [done|]. apply elem_of_reverse, Hr2; [by rewrite EC|done]. }
    apply (updates_ext _ _ _ _ _ HD) in Hu'. split; try apply Hu'.
    + intros idx. by apply drop_own_versions, Hu.
    + intros idx e He. destruct (uo_head _ _ _ _ Hu' idx e He) as [?|(_ & l & ?)]; [by left|right]. split; [done|by exists l].
Qed.
End Writer.

(** ** Views after the operations *)

Lemma view_ext b C C' t t' :
  (∀ row, shown t (C (row / CAP)) (row mod CAP) = shown t' (C' (row / CAP)) (row mod CAP)) → view b C t = view b C' t'.
Proof. intros H. apply list_eq. intros k. rewrite !view_lookup. by rewrite H. Qed.

Lemma view_update b C t idx row offset ls v : idx = offset / CAP → row = offset mod CAP → offset < length b →
  (∀ r, shown t ls r = if decide (r = row) then Some v else shown t (C idx) r) →
  view b (put C idx ls) t = <[offset := v]> (view b C t).
Proof.
  intros -> -> Hoff Hls. apply list_eq. intros k. destruct (decide (k = offset)) as [->|Hne].
  - rewrite list_lookup_insert_eq by (by rewrite view_length). rewrite view_lookup, put_same, Hls, decide_True by done.
    by destruct (lookup_lt_is_Some_2 b offset) as [x ->].
  - rewrite list_lookup_insert_ne, !view_lookup by done. unfold put. case_decide as Hk; [|done].
    rewrite Hls, decide_False, Hk; [done|]. intros Hm. apply Hne. rewrite (Nat.div_mod_eq k CAP), (Nat.div_mod_eq offset CAP). congruence.
Qed.

(** A transaction whose snapshot is not before the last commit reads the newest versions. *)
Lemma shown_newest w ts u C t idx row : updates_ok w ts u C → (ts ≤ startTS t)%Z → (∀ x, w = Some x → x = ID t) →
  shown t (C idx) row = (e ← head (C idx); overlay e.2 row).
Proof.
  intros Hu Hts Hw. pose proof (uo_versions _ _ _ _ Hu idx) as (cs & Hvs & _ & Hf). destruct (C idx) as [|e ls]; [done|].
  rewrite shown_cons, decide_True; [done|]. destruct Hvs as [<-|(x & Hx & Hvs)]; [|left; injection Hvs as -> _; by apply Hw].
  cbn in Hf. apply Forall_cons in Hf as [? _]. right. lia.
Qed.

Lemma head_fmap {A B} (f : A → B) (l : list A) : head (f <$> l) = f <$> head l.
Proof. by destruct l. Qed.

Lemma view_commit_new u C b t ts t' commitTS u' : updates_ok (Some (ID t)) ts u C → startTS t = ts →
  updates_ok None commitTS u' (λ idx, commit_entry t commitTS <$> C idx) → startTS t' = commitTS →
  view b (λ idx, commit_entry t commitTS <$> C idx) t' = view b C t.
Proof.
  intros Hu Hts Hu' Ht'. apply view_ext. intros row.
  rewrite (shown_newest _ _ _ _ t' (row / CAP) _ Hu') by (lia || done).
  rewrite (shown_newest _ _ _ _ t (row / CAP) _ Hu) by (lia || by intros ? [= ->]).
  rewrite head_fmap. destruct (head (C (row / CAP))) as [e|]; cbn; [|done]. apply commit_fields.
Qed.

Lemma shown_commit_old t ts ls t' commitTS row : transaction_ok t → startTS t = ts → transaction_ok t' → ID t' ≠ ID t →
  (startTS t' ≤ ts < commitTS)%Z → (commitTS < START_TRANSACTION_ID)%Z →
  shown t' (commit_entry t commitTS <$> ls) row = shown t' ls row.
Proof.
  intros Ht Hts Ht' Hid Hle Hlt. induction ls as [|e ls IH]; [done|]. cbn [fmap list_fmap]. rewrite !shown_cons.
  destruct (commit_fields t commitTS e) as (_ & _ & _ & ->).
  assert (sees_version t' (commit_entry t commitTS e).2 ↔ sees_version t' e.2) as Hiff.
  { unfold commit_entry, sees_version, transaction_ok in *. case_decide; cbn; [|done]. lia. }
  destruct (decide (sees_version t' e.2)) as [?|?]; [by rewrite decide_True by tauto|by rewrite decide_False by tauto].
Qed.

Lemma view_commit_old C b t ts t' commitTS : transaction_ok t → startTS t = ts → transaction_ok t' → ID t' ≠ ID t →
  (startTS t' ≤ ts < commitTS)%Z → (commitTS < START_TRANSACTION_ID)%Z →
  view b (λ idx, commit_entry t commitTS <$> C idx) t' = view b C t'.
Proof. intros. apply view_ext. intros row. by eapply shown_commit_old. Qed.

Lemma view_rollback C b t ts t' : transaction_ok t → startTS t = ts → foreign t ts t' →
  view b (λ idx, drop_own t (C idx)) t' = view b C t'.
Proof.
  intros Ht Hts Hf. apply view_ext. intros row. destruct (C (row / CAP)) as [|e ls]; [done|]. cbn [drop_own]. case_decide as He; [|done].
  by rewrite shown_cons, decide_False by (by eapply foreign_blind).
Qed.

(** ** Runs of a column

    One writer at a time updates rows, and commits or rolls back; transactions read at any time. *)
Record column_state := mkColumnState {
  chunk : ColumnChunk (V := V);
  writing : option (Transaction * list VectorUpdateRecord);
  lastID : Z;
  lastTS : Z
}.

Inductive col_action := StartWrite | UpdateRow (row : nat) (v : V) | CommitWrite | RollbackWrite.

(** The state after an action and its outcome: [Throw] is a conflict that [update] reports, [None] an action that does not
    return or cannot be taken. *)
Definition col_exec (st : column_state) (act : col_action) : option (column_state * Res unit) :=
  match act, writing st with
  | StartWrite, None =>
      let id := (lastID st + 1)%Z in
      Some (mkColumnState (chunk st) (Some (mkTransaction WRITE id (lastTS st), [])) id (lastTS st), Ret ())
  | UpdateRow row v, Some (t, recs) =>
      if decide (row < length (base (chunk st))) then
        '(c, recs, outcome) ← col_update (chunk st) t row v recs;
        Some (mkColumnState c (Some (t, recs)) (lastID st) (lastTS st), outcome)
      else None
  | CommitWrite, Some (t, recs) =>
      c ← col_commit (chunk st) recs (lastTS st + 1);
      Some (mkColumnState c None (lastID st) (lastTS st + 1), Ret ())
  | RollbackWrite, Some (t, recs) =>
      c ← col_rollback (chunk st) t recs;
      Some (mkColumnState c None (lastID st) (lastTS st), Ret ())
  | _, _ => None
  end.

Definition col_init (values : list V) : column_state := mkColumnState (mkColumn values None) None START_TRANSACTION_ID 1.

(** The store of snapshots: the values at every timestamp, and those of the writer. *)
Record snapshots := mkSnapshots { history : Z → list V; now : Z; ids : Z; pending : option (Z * list V) }.

Definition snap_exec (a : snapshots) (act : col_action) : option snapshots :=
  match act, pending a with
  | StartWrite, None => Some (mkSnapshots (history a) (now a) (ids a + 1) (Some (ids a + 1, history a (now a))%Z))
  | UpdateRow row v, Some (id, p) =>
      if decide (row < length p) then Some (mkSnapshots (history a) (now a) (ids a) (Some (id, <[row := v]> p))) else None
  | CommitWrite, Some (id, p) =>
      Some (mkSnapshots (λ ts, if decide (ts ≤ now a)%Z then history a ts else p) (now a + 1) (ids a) None)
  | RollbackWrite, Some _ => Some (mkSnapshots (history a) (now a) (ids a) None)
  | _, _ => None
  end.

Definition snap_init (values : list V) : snapshots := mkSnapshots (λ _, values) 1 START_TRANSACTION_ID None.

(** What a transaction reads of the store. *)
Definition snap_read (a : snapshots) (t : Transaction) : list V :=
  match pending a with
  | Some (id, p) => if decide (ID t = id) then p else history a (startTS t)
  | None => history a (startTS t)
  end.

(** The transactions that may read: those of the past, and the writer itself. *)
Definition reader (st : column_state) (t : Transaction) : Prop :=
  transaction_ok t ∧ (startTS t ≤ lastTS st)%Z ∧ ∀ w recs, writing st = Some (w, recs) → ID t = ID w → t = w.

Definition clean (C : nat → list entry) : Prop := ∀ idx e, head (C idx) = Some e → next e.2 = None.

Record simulates (unbroken : bool) (st : column_state) (a : snapshots) (C : nat → list entry) : Prop := {
  sim_column : column_ok (ID ∘ fst <$> writing st) (lastTS st) (chunk st) C;
  sim_now : now a = lastTS st;
  sim_ids : ids a = lastID st;
  sim_lastID : (START_TRANSACTION_ID ≤ lastID st)%Z;
  sim_writer : match writing st, pending a with
    | None, None => True
    | Some (t, recs), Some (id, p) => ID t = id ∧ type t = WRITE ∧ transaction_ok t ∧ startTS t = lastTS st ∧
        recs_ok t C recs ∧ view (base (chunk st)) C t = p
    | _, _ => False
    end;
  sim_history t : transaction_ok t → (startTS t ≤ lastTS st)%Z → (∀ w recs, writing st = Some (w, recs) → ID t ≠ ID w) →
    view (base (chunk st)) C t = history a (startTS t);
  sim_clean : unbroken = true → clean C
}.

Lemma sim_reader b st a C t : simulates b st a C → reader st t → view (base (chunk st)) C t = snap_read a t.
Proof.
  intros H (Ht & Hts & Hw). pose proof (sim_writer _ _ _ _ H) as Hwr. unfold snap_read.
  destruct (writing st) as [[w recs]|] eqn:Ew, (pending a) as [[id p]|]; try done.
  - destruct Hwr as (<- & _ & _ & _ & _ & <-). case_decide as Hid; [by rewrite (Hw w recs eq_refl Hid)|].
    apply H; [done|done|]. rewrite Ew. by intros ? ? [= <- <-].
  - apply H; [done|done|]. by rewrite Ew.
Qed.

Lemma sim_init values : simulates true (col_init values) (snap_init values) (λ _, []).
Proof. split; try done. intros t _ _ _. by rewrite view_no_updates. Qed.

Lemma begin_column id ts c C : column_ok None ts c C → (ts < id)%Z → column_ok (Some id) ts c C ∧
  ∀ idx e, head (C idx) = Some e → version e.2 ≠ id.
Proof.
  unfold column_ok. destruct (updateInfo c) as [u|]; [|intros HC _; split; [done|]; intros idx e; by rewrite HC].
  intros Hu Hlt. assert (∀ idx e, head (C idx) = Some e → version e.2 ≠ id) as Hne.
  { intros idx e He. destruct (uo_versions _ _ _ _ Hu idx) as (cs & [<-|(? & [=] & _)] & _ & Hf).
    destruct (C idx) as [|e' ls]; [done|]. injection He as ->. apply Forall_cons in Hf as [? _]. lia. }
  split; [|done]. destruct Hu as [H1 H2 H3 H4 H5 H6 H7 H8]. split; try done.
  - intros idx. destruct (H5 idx) as (cs & [?|(? & [=] & _)] & ? & ?). exists cs. split_and!; [by left|done|done].
  - intros idx e He. destruct (H7 idx e He) as [?|(_ & l & ?)]; [by left|right]. split; [|by exists l].
    intros [= Heq]. by apply (Hne idx e He).
Qed.

Lemma sim_start b st a C st' o : simulates b st a C → (lastTS st < START_TRANSACTION_ID)%Z → col_exec st StartWrite = Some (st', o) →
  ∃ a', o = Ret () ∧ snap_exec a StartWrite = Some a' ∧ simulates b st' a' C.
Proof.
  intros [H1 H2 H3 H4 H5 H6 H7] Hlt E. cbn in E |- *. destruct (writing st) eqn:Ew; [done|]. destruct (pending a); [done|].
  injection E as <- <-. eexists. split; [done|]. split; [done|]. destruct (begin_column (lastID st + 1) (lastTS st) (chunk st) C) as [Hc Hne]; [done|lia|].
  split; cbn; try done; try lia.
  - rewrite H3, H2. split_and!; [done|done|split; cbn; lia|done| |].
    + split; [by intros ? ? ?%elem_of_nil|]. intros idx e He. by intros ?%(Hne idx e He).
    + apply (H6 (mkTransaction WRITE (lastID st + 1) (lastTS st))); [split; cbn; lia|cbn; lia|done].
  - intros t Ht Hts _. apply H6; [done..|]. by intros ? ? [=].
Qed.

Lemma column_updates w ts c C : column_ok w ts c C → updates_ok w ts (default emptyUpdates (updateInfo c)) C.
Proof.
  unfold column_ok. destruct (updateInfo c) as [u|]; [done|]. intros HC. split; intros idx; try rewrite HC; try done.
  - apply NoDup_nil_2.
  - by intros ? l ?%elem_of_nil.
  - exists []. split_and!; [by left|constructor..].
  - cbn. rewrite lookup_empty. by intros [].
Qed.

Lemma sim_updated b st a C t recs id p row v u' l ls : simulates b st a C → writing st = Some (t, recs) → pending a = Some (id, p) →
  row < length (base (chunk st)) → updated t (lastTS st) u' C (row / CAP) (row mod CAP) v l ls →
  simulates b (mkColumnState (mkColumn (base (chunk st)) (Some u')) (Some (t, recs ++ [(row / CAP, l)])) (lastID st) (lastTS st))
    (mkSnapshots (history a) (now a) (ids a) (Some (id, <[row := v]> p))) (put C (row / CAP) ls).
Proof.
  intros [H1 H2 H3 H4 H5 H6 H7] Ew Ep Hrow Hup. rewrite Ew, Ep in H5. destruct H5 as (<- & Hty & Ht & Hts & Hr & Hp).
  pose proof Hup as (Hu' & (i & Hh & Hv & Hn) & Hown & Hfor & _). split; try done.
  - cbn. split_and!; [done..| |].
    + by eapply updated_recs.
    + rewrite <-Hp. by eapply view_update.
  - intros t' Ht' Hts' Hne. cbn in *. rewrite <-H6; [|done|done|by rewrite Ew; intros ? ? [= <- <-]; eapply Hne].
    apply view_ext. intros r. unfold put. case_decide as Hk; [|done]. rewrite Hk. apply Hfor. split; [by eapply Hne|done].
  - intros Hb idx e. unfold put. case_decide; [|by apply H7]. rewrite Hh. by intros [= <-].
Qed.

Lemma update_writer (c : ColumnChunk (V := V)) t row v recs : type t = WRITE → col_update c t row v recs =
  ('(info, r) ← update (default emptyUpdates (updateInfo c)) t (row / CAP) (row mod CAP) v;
   match r with
   | Ret l => Some (mkColumn (base c) (Some info), recs ++ [(row / CAP, l)], Ret ())
   | Throw e => Some (mkColumn (base c) (Some info), recs, Throw e)
   end).
Proof. intros Hty. unfold col_update. rewrite decide_False by congruence. done. Qed.

Lemma row_lt row : row mod CAP < CAP.
Proof. apply Nat.mod_upper_bound. pose proof CAP_pos. lia. Qed.

Lemma sim_update b st a C row v st' o : simulates b st a C → col_exec st (UpdateRow row v) = Some (st', o) →
  ∃ a' t recs u' l ls, o = Ret () ∧ snap_exec a (UpdateRow row v) = Some a' ∧ writing st' = Some (t, recs) ∧
    fst <$> writing st = Some t ∧
    updated t (lastTS st) u' C (row / CAP) (row mod CAP) v l ls ∧ simulates b st' a' (put C (row / CAP) ls).
Proof.
  intros H E. pose proof (sim_writer _ _ _ _ H) as Hw. cbn in E |- *. destruct (writing st) as [[t recs]|] eqn:Ew; [|done].
  destruct (pending a) as [[id p]|] eqn:Ep; [|done]. destruct Hw as (_ & Hty & Ht & Hts & _ & Hp). case_decide as Hrow; [|done].
  rewrite update_writer in E by done. destruct (update _ _ _ _ _) as [[u' r]|] eqn:Eu; [|done].
  pose proof (sim_column _ _ _ _ H) as Hc. rewrite Ew in Hc. cbn in Hc.
  destruct (update_partial t (lastTS st) Ht Hts _ C _ _ _ _ _ (column_updates _ _ _ _ Hc) (row_lt row) Eu) as (l & ls & -> & Hup).
  injection E as <- <-. rewrite decide_True by (by rewrite <-Hp, view_length). eexists _, t, _, u', l, ls. split_and!; [done..|].
  by eapply sim_updated.
Qed.

Lemma sim_update_total st a C row v a' : simulates true st a C → snap_exec a (UpdateRow row v) = Some a' →
  is_Some (col_exec st (UpdateRow row v)).
Proof.
  intros H E. pose proof (sim_writer _ _ _ _ H) as Hw. cbn in E |- *. destruct (writing st) as [[t recs]|] eqn:Ew; [|by destruct (pending a)].
  destruct (pending a) as [[id p]|] eqn:Ep; [|done]. destruct Hw as (_ & Hty & Ht & Hts & _ & Hp). case_decide as Hrow; [|done].
  rewrite decide_True by (by rewrite <-Hp, view_length in Hrow). rewrite update_writer by done.
  pose proof (sim_column _ _ _ _ H) as Hc. rewrite Ew in Hc. cbn in Hc.
  destruct (update_spec t (lastTS st) Ht Hts _ C (row / CAP) (row mod CAP) v (column_updates _ _ _ _ Hc) (row_lt row)) as (u' & l & ls & -> & _).
  - by apply (sim_clean _ _ _ _ H).
  - cbn. eauto.
Qed.

(** Without a writer a view depends on the snapshot only. *)
Lemma view_committed ts u C b t t' : updates_ok None ts u C → (ts < START_TRANSACTION_ID)%Z → transaction_ok t → transaction_ok t' →
  startTS t = startTS t' → view b C t = view b C t'.
Proof.
  intros Hu Hlt Ht Ht' Hts. apply view_ext. intros row. destruct (uo_versions _ _ _ _ Hu (row / CAP)) as (cs & [<-|(? & [=] & _)] & _ & Hf).
  rewrite Forall_fmap in Hf. induction (C (row / CAP)) as [|e ls IH]; [done|]. apply Forall_cons in Hf as [Hv Hf]. rewrite !shown_cons, IH by done.
  assert (sees_version t e.2 ↔ sees_version t' e.2) as Hiff.
  { unfold sees_version, transaction_ok in *. cbn in Hv. rewrite Hts. lia. }
  destruct (decide (sees_version t' e.2)) as [?|?]; [by rewrite decide_True by tauto|by rewrite decide_False by tauto].
Qed.

(** A transaction with the same snapshot that is not the writer. *)
Definition another (t t' : Transaction) : Transaction := mkTransaction READ_ONLY (ID t + 1) (startTS t').

Lemma another_ok t t' : transaction_ok t → transaction_ok t' → transaction_ok (another t t') ∧ ID (another t t') ≠ ID t.
Proof. unfold transaction_ok. cbn. lia. Qed.

Lemma sim_commit b st a C : simulates b st a C → (lastTS st + 1 < START_TRANSACTION_ID)%Z → is_Some (writing st) →
  ∃ st' a' C', col_exec st CommitWrite = Some (st', Ret ()) ∧ snap_exec a CommitWrite = Some a' ∧ simulates b st' a' C'.
Proof.
  intros [H1 H2 H3 H4 H5 H6 H7] Hlt [[t recs] Ew]. cbn. rewrite Ew in *. destruct (pending a) as [[id p]|] eqn:Ep; [|done].
  destruct H5 as (<- & Hty & Ht & Hts & Hr & Hp). cbn in H1. pose proof (column_updates _ _ _ _ H1) as Hu.
  destruct (commit_spec t (lastTS st) Ht Hts _ C recs (lastTS st + 1) Hu Hr) as (u' & E & Hu'); [lia|].
  unfold col_commit. rewrite E. cbn. eexists _, _, (λ idx, commit_entry t (lastTS st + 1) <$> C idx). split_and!; [done..|].
  split; cbn; try done; try lia.
  - unfold column_ok in *. cbn. destruct (updateInfo (chunk st)); cbn; [done|]. intros idx. by rewrite H1.
  - intros t' Ht' Hts' _. rewrite H2. destruct (another_ok t t' Ht Ht') as [Hao Hne]. case_decide as Hle.
    + rewrite (view_committed _ _ _ _ t' (another t t') Hu') by (done || lia).
      rewrite (view_commit_old C _ t (lastTS st)) by (done || cbn; lia). apply (H6 (another t t')); [done|cbn; lia|]. by intros ? ? [= <- <-].
    + rewrite <-Hp. eapply view_commit_new; [done|done|done|]. lia.
  - intros Hb idx e. rewrite head_fmap. intros (e' & He & ->)%fmap_Some. destruct (commit_fields t (lastTS st + 1) e') as (_ & -> & _).
    by eapply H7.
Qed.

Lemma sim_rollback b st a C t recs : simulates b st a C → (lastTS st < START_TRANSACTION_ID)%Z → writing st = Some (t, recs) →
  ∃ st' a', col_exec st RollbackWrite = Some (st', Ret ()) ∧ snap_exec a RollbackWrite = Some a' ∧ lastTS st' = lastTS st ∧
    writing st' = None ∧ simulates false st' a' (λ idx, drop_own t (C idx)).
Proof.
  intros [H1 H2 H3 H4 H5 H6 _] Hlt Ew. cbn. rewrite Ew in *. destruct (pending a) as [[id p]|] eqn:Ep; [|done].
  destruct H5 as (<- & Hty & Ht & Hts & Hr & Hp). cbn in H1. pose proof (column_updates _ _ _ _ H1) as Hu.
  destruct (rollback_spec t (lastTS st) Ht Hts _ C recs Hu Hr) as (u' & E & Hu').
  unfold col_rollback. rewrite E. cbn. eexists _, _. split_and!; [done..|]. split; cbn; try done.
  - unfold column_ok in *. cbn. destruct (updateInfo (chunk st)); cbn; [done|]. intros idx. by rewrite H1.
  - intros t' Ht' Hts' _. destruct (another_ok t t' Ht Ht') as [Hao Hne].
    rewrite (view_committed _ _ _ _ t' (another t t') Hu') by (done || lia).
    rewrite (view_rollback C _ t (lastTS st)) by done. apply (H6 (another t t')); [done|done|]. by intros ? ? [= <- <-].
Qed.

(** ** Simulation of runs *)

(** The state after a sequence of actions and their outcomes. *)
Fixpoint col_run (st : column_state) (acts : list col_action) : option (column_state * list (Res unit)) :=
  match acts with
  | [] => Some (st, [])
  | act :: acts => '(st, o) ← col_exec st act; '(st, os) ← col_run st acts; Some (st, o :: os)
  end.
Definition snap_run (a : snapshots) (acts : list col_action) : option snapshots := ofold snap_exec a acts.

Lemma exec_lastTS st act st' o : col_exec st act = Some (st', o) → (lastTS st' ≤ lastTS st + 1)%Z.
Proof.
  destruct act; cbn; destruct (writing st) as [[]|]; intros E; simplify_option_eq; cbn; try lia;
    repeat case_match; simplify_eq; cbn; lia.
Qed.

Lemma sim_exec b st a C act st' o : simulates b st a C → (lastTS st + 1 < START_TRANSACTION_ID)%Z → col_exec st act = Some (st', o) →
  ∃ a' C', o = Ret () ∧ snap_exec a act = Some a' ∧ simulates (match act with RollbackWrite => false | _ => b end) st' a' C'.
Proof.
  intros H Hlt E. destruct act as [|row v| |].
  - destruct (sim_start b st a C st' o H) as (a' & ? & ? & ?); [lia|done|]. by exists a', C.
  - destruct (sim_update b st a C row v st' o H E) as (a' & t & recs & u' & l & ls & ? & ? & _ & _ & _ & ?). by exists a', (put C (row / CAP) ls).
  - assert (is_Some (writing st)) as Hw by (cbn in E; destruct (writing st) as [[]|]; [eauto|done]).
    destruct (sim_commit b st a C H Hlt Hw) as (st1 & a' & C' & E' & ? & ?). rewrite E in E'. injection E' as <- ->. by exists a', C'.
  - assert (is_Some (writing st)) as [[t recs] Hw] by (cbn in E; destruct (writing st) as [[]|]; [eauto|done]).
    destruct (sim_rollback b st a C t recs H ltac:(lia) Hw) as (st1 & a' & E' & ? & _ & _ & ?). rewrite E in E'. injection E' as <- ->.
    by eexists a', _.
Qed.

Lemma sim_run acts b st a C st' os : simulates b st a C → (lastTS st + Z.of_nat (length acts) < START_TRANSACTION_ID)%Z →
  col_run st acts = Some (st', os) → ∃ a' C', Forall (λ o, o = Ret ()) os ∧ snap_run a acts = Some a' ∧ simulates false st' a' C' ∧
    (lastTS st' ≤ lastTS st + Z.of_nat (length acts))%Z.
Proof.
  unfold snap_run. revert b st a C os. induction acts as [|act acts IH]; intros b st a C os H Hlt E; cbn in *.
  - injection E as <- <-. exists a, C. split_and!; [constructor|done| |lia]. destruct H. by split.
  - destruct (col_exec st act) as [[st1 o]|] eqn:E1; [|done]. cbn in E. destruct (col_run st1 acts) as [[st2 os2]|] eqn:E2; [|done].
    injection E as <- <-.
    destruct (sim_exec b st a C act st1 o H ltac:(lia) E1) as (a1 & C1 & -> & -> & H1). cbn. pose proof (exec_lastTS _ _ _ _ E1).
    destruct (IH _ st1 a1 C1 os2 H1 ltac:(lia) E2) as (a' & C' & ? & ? & ? & ?). exists a', C'. split_and!; [by constructor|done|done|lia].
Qed.

Lemma sim_run_total acts st a C a' : simulates true st a C → (lastTS st + Z.of_nat (length acts) < START_TRANSACTION_ID)%Z →
  RollbackWrite ∉ acts → snap_run a acts = Some a' → is_Some (col_run st acts).
Proof.
  unfold snap_run. revert st a C. induction acts as [|act acts IH]; intros st a C H Hlt Hnr E; cbn in *; [eauto|].
  destruct (snap_exec a act) as [a1|] eqn:E1; [|done]. cbn in E. assert (is_Some (col_exec st act)) as [[st1 o] E2].
  { pose proof (sim_writer _ _ _ _ H) as Hw. destruct act as [|row v| |].
    - cbn in E1 |- *. destruct (writing st) as [[]|]; [by destruct (pending a)|]. eauto.
    - by eapply sim_update_total.
    - assert (is_Some (writing st)) as Hs by (cbn in E1; destruct (writing st), (pending a); eauto; done).
      destruct (sim_commit true st a C H ltac:(lia) Hs) as (st1 & ? & ? & E' & _). eauto.
    - set_solver. }
  rewrite E2. cbn. destruct (sim_exec true st a C act st1 o H ltac:(lia) E2) as (a2 & C2 & _ & E3 & H2). rewrite E1 in E3. injection E3 as <-.
  pose proof (exec_lastTS _ _ _ _ E2). assert (is_Some (col_run st1 acts)) as [[st2 os] ->]; [|by eexists].
  destruct act; [..|set_solver]; (eapply IH; [done|lia|set_solver|done]).
Qed.

(** ** Scans *)

Lemma div_bounds r : r / CAP * CAP ≤ r < r / CAP * CAP + CAP.
Proof. pose proof CAP_pos. pose proof (Nat.div_mod_eq r CAP). pose proof (row_lt r). lia. Qed.

Lemma vector_rows_spec off n k : off / CAP ≤ k ≤ (off + n) / CAP → ∃ s e, vector_rows off n k = (s, e) ∧ s ≤ e ≤ CAP ∧
  k * CAP + s = off `max` (k * CAP) ∧ k * CAP + e = (off + n) `min` (k * CAP + CAP).
Proof.
  intros [H1 H2]. pose proof CAP_pos. unfold vector_rows, getQuotientRemainder. eexists _, _. split; [done|].
  pose proof (div_bounds off). pose proof (div_bounds (off + n)). pose proof (row_lt off). pose proof (row_lt (off + n)).
  pose proof (Nat.div_mod_eq off CAP). pose proof (Nat.div_mod_eq (off + n) CAP).
  assert (off / CAP * CAP ≤ k * CAP) by (by apply Nat.mul_le_mono_r). assert (k * CAP ≤ (off + n) / CAP * CAP) by (by apply Nat.mul_le_mono_r).
  assert (k ≠ off / CAP → off / CAP * CAP + CAP ≤ k * CAP) as Hs. { intros. assert (S (off / CAP) ≤ k) as Hk by lia. apply (Nat.mul_le_mono_r _ _ CAP) in Hk. lia. }
  assert (k ≠ (off + n) / CAP → k * CAP + CAP ≤ (off + n) / CAP * CAP) as He.
  { intros. assert (S k ≤ (off + n) / CAP) as Hk by lia. apply (Nat.mul_le_mono_r _ _ CAP) in Hk. lia. }
  destruct (decide (k = off / CAP)) as [->|Hk]; destruct (decide (_ = (off + n) / CAP)) as [Hk'|Hk'];
    try specialize (Hs Hk); try specialize (He Hk'); lia.
Qed.

Lemma scanned_elem off n k : k ∈ scanned_vectors off n ↔ off / CAP ≤ k ≤ (off + n) / CAP.
Proof.
  unfold scanned_vectors, getQuotientRemainder. cbn [fst]. rewrite elem_of_seq.
  assert (off / CAP ≤ (off + n) / CAP) by (apply Nat.Div0.div_le_mono; lia). lia.
Qed.

Lemma row_of_vector k j : j < CAP → (k * CAP + j) / CAP = k ∧ (k * CAP + j) mod CAP = j.
Proof.
  intros Hj. pose proof CAP_pos. rewrite (Nat.add_comm (k * CAP)). rewrite Nat.div_add, Nat.Div0.mod_add by lia.
  by rewrite Nat.div_small, Nat.mod_small by lia.
Qed.

(** The values of [w] at the rows of [f], those of [b] at the others. *)
Definition mix (w b : list V) (f : nat → bool) : list V := imap (λ r x, if f r then default x (w !! r) else x) b.

Lemma mix_lookup w b f r : length w = length b → mix w b f !! r = if f r then w !! r else b !! r.
Proof.
  intros Hl. unfold mix. rewrite list_lookup_imap. destruct (b !! r) as [x|] eqn:E; cbn.
  - apply lookup_lt_Some in E. destruct (lookup_lt_is_Some_2 w r) as [y ->]; [lia|]. by destruct (f r).
  - apply lookup_ge_None in E. rewrite (lookup_ge_None_2 w r) by lia. by destruct (f r).
Qed.

Lemma mix_length w b f : length (mix w b f) = length b.
Proof. apply length_imap. Qed.

Lemma mix_ext w b f g : length w = length b → (∀ r, f r = g r ∨ w !! r = b !! r) → mix w b f = mix w b g.
Proof.
  intros Hl Hfg. apply list_eq. intros r. rewrite !mix_lookup by done. destruct (Hfg r) as [->| ->]; [done|]. by destruct (f r), (g r).
Qed.

Definition slice_of (off len : nat) (l : list V) : list V := take len (drop off l).

Lemma slice_lookup off len l j : slice_of off len l !! j = if decide (j < len) then l !! (off + j) else None.
Proof. unfold slice_of. case_decide; [by rewrite lookup_take_lt, lookup_drop|by rewrite lookup_take_ge by lia]. Qed.

Lemma slice_length off len l : off + len ≤ length l → length (slice_of off len l) = len.
Proof. intros. unfold slice_of. rewrite length_take, length_drop. lia. Qed.

Lemma slice_ext off len l l' : (∀ r, off ≤ r < off + len → l !! r = l' !! r) → slice_of off len l = slice_of off len l'.
Proof. intros H. apply list_eq. intros j. rewrite !slice_lookup. case_decide; [|done]. apply H. lia. Qed.

Lemma mix_write w b f g off len n v : length w = length b → off ≤ n < off + len → off + len ≤ length b → w !! n = Some v →
  (∀ r, r ≠ n → f r = g r) → g n = true →
  write_output (slice_of off len (mix w b f)) (n - off) v = Some (slice_of off len (mix w b g)).
Proof.
  intros Hl Hn Hlen Hv Hfg Hg. unfold write_output. assert (length (slice_of off len (mix w b f)) = len) by (by rewrite slice_length by (by rewrite mix_length)).
  rewrite decide_True by lia. f_equal. apply list_eq. intros j. rewrite slice_lookup. destruct (decide (j = n - off)) as [->|Hj].
  - rewrite list_lookup_insert_eq, decide_True, mix_lookup by lia. replace (off + (n - off)) with n by lia. by rewrite Hg.
  - rewrite list_lookup_insert_ne, slice_lookup by done. case_decide; [|done]. by rewrite !mix_lookup, Hfg by (done || lia).
Qed.

Lemma write_output_app (o x : list V) p v : write_output (o ++ x) (length o + p) v = (λ y, o ++ y) <$> write_output x p v.
Proof.
  unfold write_output. rewrite length_app. destruct (decide (p < length x)); [|by rewrite decide_False by lia].
  rewrite decide_True by lia. cbn. by rewrite insert_app_r_alt, Nat.add_comm, Nat.add_sub by lia.
Qed.

Section Scans.
Context (w : option Z) (ts : Z) (u : UpdateInfo (V := V)) (C : nat → list entry) (t : Transaction) (b : list V).
Context (Hu : updates_ok w ts u C) (Ht : transaction_ok t).

Lemma view_overlay k j e : j < CAP → k * CAP + j < length b → seen_version t (C k) = Some e →
  (view b C t !! (k * CAP + j)) = match overlay e.2 j with Some v => Some v | None => b !! (k * CAP + j) end.
Proof.
  intros Hj Hlt He. rewrite view_lookup. destruct (row_of_vector k j Hj) as [-> ->]. unfold shown. rewrite He. cbn [mbind option_bind].
  destruct (lookup_lt_is_Some_2 b (k * CAP + j)) as [x ->]; [done|]. by destruct (overlay e.2 j).
Qed.

Lemma view_base k j : j < CAP → seen_version t (C k) = None → (view b C t !! (k * CAP + j)) = b !! (k * CAP + j).
Proof.
  intros Hj He. rewrite view_lookup. destruct (row_of_vector k j Hj) as [-> ->]. unfold shown. rewrite He. by destruct (b !! _).
Qed.

Lemma overlay_case i j : info_ok i → match find_row j (rowsInVector i) with
  | Some k => ∃ v, data i !! k = Some v ∧ overlay i j = Some v
  | None => overlay i j = None
  end.
Proof.
  intros Hi. unfold overlay. destruct (find_row j (rowsInVector i)) as [k|] eqn:E; [|done]. apply find_row_Some, lookup_lt_Some in E.
  rewrite <-(io_data _ Hi) in E. apply lookup_lt_is_Some in E as [v Hv]. exists v. by rewrite Hv.
Qed.

Abbreviation W := (view b C t).
Abbreviation upto n := (λ r, bool_decide (r < n)).

Lemma scan_rows off len k i l s n : off + len ≤ length b → off ≤ k * CAP + s → k * CAP + s + n ≤ off + len →
  s + n ≤ CAP → seen_version t (C k) = Some (l, i) →
  ofold (λ out m, match find_row (m + s) (rowsInVector i) with
    | Some j => v ← data i !! j; write_output out (k * CAP + s - off + m) v
    | None => Some out
    end) (slice_of off len (mix W b (upto (k * CAP + s)))) (seq 0 n) = Some (slice_of off len (mix W b (upto (k * CAP + s + n)))).
Proof.
  intros Hb Hoff Hlen Hs He. destruct (uo_seen _ _ _ _ _ _ _ Hu He) as [_ Hi]. cbn in Hi.
  assert (length W = length b) as HW by apply view_length.
  induction n as [|n IH]; [cbn; by rewrite Nat.add_0_r|]. rewrite seq_S, ofold_app, IH by lia. cbn [mbind option_bind ofold Nat.add].
  pose proof (view_overlay k (s + n) (l, i) ltac:(lia) ltac:(lia) He) as Hv. cbn in Hv. rewrite Nat.add_assoc in Hv.
  pose proof (overlay_case i (s + n) Hi) as Hc. rewrite (Nat.add_comm n s). destruct (find_row (s + n) (rowsInVector i)) as [j|].
  - destruct Hc as (v & Hd & Ho). rewrite Hd, Ho in *. cbn [mbind option_bind].
    replace (k * CAP + s - off + n) with (k * CAP + s + n - off) by lia.
    rewrite (mix_write _ _ _ (upto (k * CAP + s + S n))); [done|done|lia|lia|done| |by apply bool_decide_true; lia].
    intros r Hr. apply bool_decide_ext. lia.
  - rewrite Hc in Hv. cbn. do 2 f_equal. apply mix_ext; [done|]. intros r. destruct (decide (r = k * CAP + s + n)) as [->|]; [by right|left].
    apply bool_decide_ext. lia.
Qed.

Lemma unseen_rows off len k s e : seen_version t (C k) = None → s ≤ e ≤ CAP →
  slice_of off len (mix W b (upto (k * CAP + s))) = slice_of off len (mix W b (upto (k * CAP + e))).
Proof.
  intros He Hse. f_equal. apply mix_ext; [apply view_length|]. intros r.
  destruct (decide (k * CAP + s ≤ r < k * CAP + e)) as [Hr|Hr]; [right|left; apply bool_decide_ext; lia].
  replace r with (k * CAP + (r - k * CAP)) by lia. apply view_base; [lia|done].
Qed.

Lemma scanned_nth off len dn k rest : scanned_vectors off len = dn ++ k :: rest → k = off / CAP + length dn ∧ off / CAP ≤ k ≤ (off + len) / CAP.
Proof.
  intros E. assert (k ∈ scanned_vectors off len) as Hin by (rewrite E; set_solver). apply scanned_elem in Hin.
  apply (f_equal (.!! length dn)) in E. rewrite list_lookup_middle in E by done. unfold scanned_vectors in E.
  by apply lookup_seq in E as [-> _].
Qed.

Lemma scan_vectors off len : off + len ≤ length b →
  ofold (scan_vector u t off len) (slice_of off len b, 0) (scanned_vectors off len) = Some (slice_of off len W, len).
Proof.
  intros Hb. set (K := λ done : list nat, off / CAP + length done).
  destruct (ofold_total (scan_vector u t off len)
    (λ done '(out, pos), off + pos = off `max` ((off + len) `min` (K done * CAP)) ∧ out = slice_of off len (mix W b (upto (off + pos))))
    (scanned_vectors off len) (slice_of off len b, 0)) as ([out pos] & E & Hpos & ->).
  - unfold K. cbn [length]. pose proof (div_bounds off). split; [lia|]. apply slice_ext. intros r Hr.
    rewrite mix_lookup, bool_decide_false by (apply view_length || lia). done.
  - intros dn k rest [out pos] Hdn [Hpos ->]. apply scanned_nth in Hdn as [Hk Hin]. fold (K dn) in Hk. unfold scan_vector.
    destruct (vector_rows_spec off len k Hin) as (s & e & -> & Hse & Hs & He). rewrite (getVectorInfo_spec _ _ _ _ _ _ Hu Ht).
    cbn [mbind option_bind]. rewrite <-Hk in Hpos. replace (off + pos) with (k * CAP + s) by lia.
    assert (K (dn ++ [k]) = S k) as HK by (unfold K in *; rewrite length_app; cbn; lia).
    destruct (seen_version t (C k)) as [[l i]|] eqn:El; cbn [fmap option_fmap option_map fst mbind option_bind].
    + destruct (uo_seen _ _ _ _ _ _ _ Hu El) as [Hl _]. cbn [fst snd] in Hl. rewrite Hl. cbn [mbind option_bind].
      replace pos with (k * CAP + s - off) by lia. rewrite (scan_rows off len k i l) by (done || lia). cbn [mbind option_bind].
      eexists. split; [done|]. rewrite HK. split; [lia|]. by replace (off + (k * CAP + s - off + (e - s))) with (k * CAP + s + (e - s)) by lia.
    + eexists. split; [done|]. rewrite HK. split; [lia|]. replace (off + (pos + (e - s))) with (k * CAP + e) by lia. by apply unseen_rows.
  - rewrite E. unfold K, scanned_vectors in Hpos. rewrite length_seq in Hpos. cbn [fst getQuotientRemainder] in Hpos.
    assert (off / CAP ≤ (off + len) / CAP) by (apply Nat.Div0.div_le_mono; lia). pose proof (div_bounds (off + len)).
    replace (off / CAP + ((off + len) / CAP + 1 - off / CAP)) with (S ((off + len) / CAP)) in Hpos by lia.
    assert (pos = len) as -> by lia. do 2 f_equal. apply slice_ext. intros r Hr. rewrite mix_lookup, bool_decide_true by (apply view_length || lia). done.
Qed.

(** The rows of the vector [k] among the first [m] updated ones. *)
Abbreviation among k s e rows m := (λ r, bool_decide (r < k * CAP + s) || bool_decide (k * CAP + s ≤ r < k * CAP + e ∧ r - k * CAP ∈ take m rows)).

Lemma commit_record_rows out0 off n k i l s e : off + n ≤ length b → off ≤ k * CAP + s → k * CAP + e ≤ off + n → s ≤ e ≤ CAP →
  vector_rows off n k = (s, e) → seen_version t (C k) = Some (l, i) →
  ofold (λ out j,
    row ← rowsInVector i !! j;
    if decide ((k ≠ off / CAP ∧ k ≠ (off + n) / CAP) ∨ s ≤ row < e) then
      v ← data i !! j; write_output out (length out0 + k * CAP + row - off) v
    else Some out) (out0 ++ slice_of off n (mix W b (upto (k * CAP + s)))) (seq 0 (length (rowsInVector i))) =
  Some (out0 ++ slice_of off n (mix W b (among k s e (rowsInVector i) (length (rowsInVector i))))).
Proof.
  intros Hb Hoff Hlen Hse Hvr He. destruct (uo_seen _ _ _ _ _ _ _ Hu He) as [_ Hi]. cbn in Hi.
  assert (length W = length b) as HW by apply view_length.
  assert (∀ m, m ≤ length (rowsInVector i) → ofold (λ out j,
    row ← rowsInVector i !! j;
    if decide ((k ≠ off / CAP ∧ k ≠ (off + n) / CAP) ∨ s ≤ row < e) then
      v ← data i !! j; write_output out (length out0 + k * CAP + row - off) v
    else Some out) (out0 ++ slice_of off n (mix W b (upto (k * CAP + s)))) (seq 0 m) =
    Some (out0 ++ slice_of off n (mix W b (among k s e (rowsInVector i) m)))) as Hm; [|by apply Hm].
  induction m as [|m IH]; intros Hmle.
  - cbn. do 3 f_equal. apply mix_ext; [done|]. intros r. left. rewrite take_0, (bool_decide_false (_ ∧ _)); [by rewrite orb_false_r|].
    by intros [_ ?%elem_of_nil].
  - rewrite seq_S, ofold_app, IH by lia. cbn [mbind option_bind ofold Nat.add].
    destruct (lookup_lt_is_Some_2 (rowsInVector i) m) as [row Hrow]; [lia|]. rewrite Hrow. cbn [mbind option_bind].
    pose proof (io_rows _ Hi) as Hrs. rewrite Forall_lookup in Hrs. specialize (Hrs m row Hrow).
    assert (∀ r, r - k * CAP ∈ take (S m) (rowsInVector i) ↔ r - k * CAP ∈ take m (rowsInVector i) ∨ r - k * CAP = row) as Htake.
    { intros r. rewrite (take_S_r _ _ row Hrow), elem_of_app, list_elem_of_singleton. done. }
    destruct (decide ((k ≠ off / CAP ∧ k ≠ (off + n) / CAP) ∨ s ≤ row < e)) as [Hd|Hd].
    + assert (s ≤ row < e) as Hr.
      { destruct Hd as [[H1 H2]|]; [|done]. unfold vector_rows, getQuotientRemainder in Hvr. rewrite !decide_False in Hvr by done.
        injection Hvr as <- <-. lia. }
      pose proof (view_overlay k row (l, i) ltac:(lia) ltac:(lia) He) as Hv. cbn [snd] in Hv.
      rewrite (overlay_nth i m row Hi Hrow) in Hv. destruct (lookup_lt_is_Some_2 (data i) m) as [v Hdv]; [rewrite (io_data _ Hi); lia|].
      rewrite Hdv in Hv |- *. cbn [mbind option_bind]. replace (length out0 + k * CAP + row - off) with (length out0 + (k * CAP + row - off)) by lia.
      rewrite write_output_app, (mix_write _ _ _ (among k s e (rowsInVector i) (S m))); [done|done|lia|lia|done| |].
      * intros r Hne. f_equal. apply bool_decide_ext. rewrite Htake. intuition lia.
      * apply orb_true_iff. right. apply bool_decide_true. split; [lia|]. apply Htake. right. lia.
    + cbn. do 3 f_equal. apply mix_ext; [done|]. intros r. left. f_equal. apply bool_decide_ext. rewrite Htake. intuition lia.
Qed.

Lemma among_all k s e l i : s ≤ e ≤ CAP → seen_version t (C k) = Some (l, i) →
  mix W b (among k s e (rowsInVector i) (length (rowsInVector i))) = mix W b (upto (k * CAP + e)).
Proof.
  intros Hse He. destruct (uo_seen _ _ _ _ _ _ _ Hu He) as [_ Hi]. cbn in Hi. rewrite take_ge by done.
  apply mix_ext; [apply view_length|]. intros r. destruct (decide (k * CAP + s ≤ r < k * CAP + e)) as [Hr|Hr].
  - destruct (decide (length b ≤ r)); [right; by rewrite !lookup_ge_None_2 by (rewrite ?view_length; lia)|].
    destruct (decide (r - k * CAP ∈ rowsInVector i)) as [Hin|Hnin].
    + left. rewrite (bool_decide_true (_ ∧ _)), (bool_decide_true (r < k * CAP + e)) by (tauto || lia). apply orb_true_r.
    + right. replace r with (k * CAP + (r - k * CAP)) by lia. rewrite (view_overlay k (r - k * CAP) (l, i)) by (done || lia). cbn [snd].
      destruct (overlay i (r - k * CAP)) eqn:Eo; [|done]. destruct Hnin. apply overlay_is_Some; [done|]. by rewrite Eo.
  - left. rewrite (bool_decide_false (_ ∧ _)), orb_false_r by (by intros [? _]). apply bool_decide_ext. lia.
Qed.

Lemma commit_scan_spec out0 off n : off + n ≤ length b →
  ofold (commit_scan_vector u t (length out0) off n) (out0 ++ slice_of off n b) (scanned_vectors off n) = Some (out0 ++ slice_of off n W).
Proof.
  intros Hb. set (K := λ done : list nat, off / CAP + length done).
  set (bound := λ done, off `max` ((off + n) `min` (K done * CAP))).
  destruct (ofold_total (commit_scan_vector u t (length out0) off n)
    (λ done out, out = out0 ++ slice_of off n (mix W b (upto (bound done)))) (scanned_vectors off n) (out0 ++ slice_of off n b)) as (out & E & ->).
  - f_equal. apply slice_ext. intros r Hr. unfold bound, K. cbn [length]. pose proof (div_bounds off).
    rewrite mix_lookup, bool_decide_false by (apply view_length || lia). done.
  - intros dn k rest out Hdn ->. apply scanned_nth in Hdn as [Hk Hin]. fold (K dn) in Hk. unfold commit_scan_vector.
    destruct (vector_rows_spec off n k Hin) as (s & e & Ev & Hse & Hs & He). rewrite Ev, (getVectorInfo_spec _ _ _ _ _ _ Hu Ht).
    assert (bound dn = k * CAP + s) as -> by (unfold bound; rewrite <-Hk; lia).
    assert (bound (dn ++ [k]) = k * CAP + e) as -> by (unfold bound, K in *; rewrite length_app; cbn; lia). cbn [mbind option_bind].
    destruct (seen_version t (C k)) as [[l i]|] eqn:El; cbn [fmap option_fmap option_map fst].
    + destruct (uo_seen _ _ _ _ _ _ _ Hu El) as [Hl _]. cbn [fst snd] in Hl. rewrite Hl. cbn [mbind option_bind].
      rewrite (commit_record_rows out0 off n k i l s e) by (done || lia). eexists. split; [done|]. by rewrite (among_all k s e l i).
    + eexists. split; [done|]. f_equal. by apply unseen_rows.
  - rewrite E. do 2 f_equal. apply slice_ext. intros r Hr. rewrite mix_lookup, bool_decide_true; [done| |apply view_length].
    unfold bound, K, scanned_vectors. rewrite length_seq. cbn [fst getQuotientRemainder].
    assert (off / CAP ≤ (off + n) / CAP) by (apply Nat.Div0.div_le_mono; lia). pose proof (div_bounds (off + n)).
    replace (off / CAP + ((off + n) / CAP + 1 - off / CAP)) with (S ((off + n) / CAP)) by lia. lia.
Qed.

(** [hasUpdates] also looks at the row after the range. *)
Lemma hasUpdates_spec s n : ∃ found, hasUpdates u t s n = Some found ∧
  (found = true ↔ ∃ r, s ≤ r ≤ s + n ∧ is_Some (shown t (C (r / CAP)) (r mod CAP))).
Proof.
  set (hit := λ k, ∃ r, s ≤ r ≤ s + n ∧ r / CAP = k ∧ is_Some (shown t (C k) (r mod CAP))).
  destruct (ofold_total (λ found idx,
    if found : bool then Some true else
    o ← getVectorInfo u t idx;
    match o with
    | None => Some false
    | Some l =>
        i ← heap u !! l;
        let '(s, e) := vector_rows s n idx in
        Some (existsb (λ row, bool_decide (row ∈ rowsInVector i)) (seq s (e + 1 - s)))
    end) (λ done found, found = true ↔ ∃ k, k ∈ done ∧ hit k) (scanned_vectors s n) false) as (found & E & Hf).
  - split; [done|]. by intros (k & ?%elem_of_nil & _).
  - intros dn k rest found Hdn Hf. apply scanned_nth in Hdn as [_ Hin].
    assert (∀ x : bool, (x = true ↔ hit k) → (found = false → (x = true ↔ ∃ k', k' ∈ dn ++ [k] ∧ hit k'))) as Hx.
    { intros x Hx ->. rewrite Hx. split; [intros; exists k; set_solver|]. intros (k' & [?|Hk']%elem_of_app & ?).
      - assert (false = true) by (apply Hf; eauto). done.
      - apply list_elem_of_singleton in Hk'. by subst. }
    destruct found; [exists true; split; [done|]; split; [|done]; intros _; destruct (proj1 Hf eq_refl) as (k' & ? & ?); exists k'; set_solver|].
    rewrite (getVectorInfo_spec _ _ _ _ _ _ Hu Ht). cbn [mbind option_bind].
    destruct (vector_rows_spec s n k Hin) as (a & e & -> & Hse & Ha & He).
    destruct (seen_version t (C k)) as [[l i]|] eqn:El; cbn [fmap option_fmap option_map fst].
    + destruct (uo_seen _ _ _ _ _ _ _ Hu El) as [Hl Hi]. cbn [fst snd] in Hl, Hi. rewrite Hl. cbn [mbind option_bind]. eexists. split; [done|].
      apply Hx; [|done]. rewrite existsb_exists. unfold hit, shown. rewrite El. cbn [mbind option_bind snd].
      setoid_rewrite (overlay_is_Some i _ Hi). split.
      * intros (row & Hrow%list_elem_of_In%elem_of_seq & Hri%bool_decide_eq_true). exists (k * CAP + row).
        assert (row < CAP) as Hlt by (pose proof (io_rows _ Hi) as Hr; rewrite Forall_forall in Hr; by apply Hr).
        destruct (row_of_vector k row Hlt) as [-> ->]. split_and!; [lia|lia|done|done].
      * intros (r & Hr & <- & Hri). exists (r mod CAP). pose proof (div_bounds r). pose proof (Nat.div_mod_eq r CAP).
        split; [|by apply bool_decide_true]. apply list_elem_of_In, elem_of_seq. lia.
    + eexists. split; [done|]. apply Hx; [|done]. split; [done|]. intros (r & _ & <- & [v Hv]). unfold shown in Hv. by rewrite El in Hv.
  - unfold hasUpdates. exists found. split; [done|]. rewrite Hf. split.
    + intros (k & _ & r & ? & <- & ?). by exists r.
    + intros (r & ? & ?). exists (r / CAP). split; [|by exists r]. apply scanned_elem. split; apply Nat.Div0.div_le_mono; lia.
Qed.

(** ** The scanned updates applied to the base data *)

Definition apply_updates (d : list V) (l : list (nat * V)) : list V := foldl (λ d '(r, v), <[r := v]> d) d l.

Lemma apply_updates_app d l l' : apply_updates d (l ++ l') = apply_updates (apply_updates d l) l'.
Proof. apply foldl_app. Qed.

Lemma mix_insert w' f g n v : length w' = length b → (n < length b → w' !! n = Some v) → (∀ r, r ≠ n → f r = g r) → g n = true →
  <[n := v]> (mix w' b f) = mix w' b g.
Proof.
  intros Hl Hv Hfg Hg. apply list_eq. intros r. rewrite mix_lookup by done. destruct (decide (r = n)) as [->|Hne].
  - rewrite Hg. destruct (decide (n < length b)) as [Hn|Hn].
    + rewrite list_lookup_insert_eq, Hv by (rewrite ?mix_length; done). done.
    + rewrite !lookup_ge_None_2 by (rewrite ?length_insert, ?mix_length; lia). done.
  - rewrite list_lookup_insert_ne, mix_lookup by done. by rewrite Hfg.
Qed.

Lemma apply_vector k l i : seen_version t (C k) = Some (l, i) →
  apply_updates (mix W b (upto (k * CAP))) (zip ((λ row, row + k * CAP) <$> rowsInVector i) (data i)) = mix W b (upto (k * CAP + CAP)).
Proof.
  intros He. destruct (uo_seen _ _ _ _ _ _ _ Hu He) as [_ Hi]. cbn in Hi. rewrite <-(among_all k 0 CAP l i) by (done || lia).
  assert (∀ m, m ≤ length (rowsInVector i) →
    apply_updates (mix W b (upto (k * CAP))) (zip ((λ row, row + k * CAP) <$> take m (rowsInVector i)) (take m (data i))) =
      mix W b (among k 0 CAP (rowsInVector i) m)) as Hm.
  { induction m as [|m IH]; intros Hm.
    - cbn. apply mix_ext; [apply view_length|]. intros r. left. rewrite Nat.add_0_r, take_0, (bool_decide_false (_ ∧ _)); [by rewrite orb_false_r|].
      by intros [_ ?%elem_of_nil].
    - destruct (lookup_lt_is_Some_2 (rowsInVector i) m) as [row Hrow]; [lia|].
      destruct (lookup_lt_is_Some_2 (data i) m) as [v Hv]; [rewrite (io_data _ Hi); lia|].
      rewrite (take_S_r (rowsInVector i) _ row), (take_S_r (data i) _ v), fmap_app, zip_with_app by
        (done || rewrite length_fmap, !length_take, (io_data _ Hi); lia).
      rewrite apply_updates_app, IH by lia. cbn [fmap list_fmap zip_with]. unfold apply_updates. cbn [foldl].
      pose proof (io_rows _ Hi) as Hrs. rewrite Forall_lookup in Hrs. specialize (Hrs m row Hrow). rewrite (Nat.add_comm row).
      apply mix_insert; [apply view_length| | |].
      + intros Hlt. rewrite (view_overlay k row (l, i)) by done. cbn [snd]. by rewrite (overlay_nth i m row Hi Hrow), Hv.
      + intros r Hr. f_equal. apply bool_decide_ext. rewrite elem_of_app, list_elem_of_singleton. intuition lia.
      + apply orb_true_iff. right. apply bool_decide_true. split; [lia|]. apply elem_of_app. right. apply list_elem_of_singleton. lia. }
  rewrite <-Hm by lia. by rewrite (take_ge (rowsInVector i)), (take_ge (data i)) by (rewrite ?(io_data _ Hi); done).
Qed.

Lemma scanUpdates_spec : ∃ rows vs, scanUpdates (mkColumn b (Some u)) t = Some (rows, vs) ∧ length rows = length vs ∧
  apply_updates b (zip rows vs) = W.
Proof.
  unfold scanUpdates. cbn [updateInfo mbind option_bind].
  assert (length W = length b) as HW by apply view_length.
  destruct (ofold_total (collect_vector u t) (λ done '(rows, vs), length rows = length vs ∧ apply_updates b (zip rows vs) = mix W b (upto (length done * CAP)))
    (seq 0 (length (vectorsInfo u))) ([], [])) as ([rows vs] & E & Hl & Happ).
  - split; [done|]. cbn. apply list_eq. intros r. by rewrite mix_lookup.
  - intros dn k rest [rows vs] Hdn [Hl Happ]. assert (k = length dn) as Hk.
    { apply (f_equal (.!! length dn)) in Hdn. rewrite list_lookup_middle in Hdn by done. by apply lookup_seq in Hdn as [-> _]. }
    unfold collect_vector. rewrite (getVectorInfo_spec _ _ _ _ _ _ Hu Ht). cbn [mbind option_bind].
    replace (length (dn ++ [k]) * CAP) with (k * CAP + CAP) by (rewrite length_app, Hk; cbn; lia). rewrite <-Hk in Happ.
    destruct (seen_version t (C k)) as [[l i]|] eqn:El; cbn [fmap option_fmap option_map fst].
    + destruct (uo_seen _ _ _ _ _ _ _ Hu El) as [Hl' Hi]. cbn [fst snd] in Hl', Hi. rewrite Hl'. cbn [mbind option_bind]. eexists. split; [done|].
      rewrite take_ge by (rewrite (io_data _ Hi); done). split; [rewrite !length_app, length_fmap, (io_data _ Hi); lia|].
      rewrite zip_with_app by done. rewrite apply_updates_app, Happ. by apply (apply_vector k l).
    + eexists. split; [done|]. split; [done|]. rewrite Happ. apply mix_ext; [done|]. intros r.
      destruct (decide (k * CAP ≤ r < k * CAP + CAP)) as [Hr|Hr]; [right|left; apply bool_decide_ext; lia].
      replace r with (k * CAP + (r - k * CAP)) by lia. apply view_base; [lia|done].
  - exists rows, vs. split; [exact E|]. split; [done|]. rewrite Happ, length_seq. apply list_eq. intros r. rewrite mix_lookup by done.
    case_bool_decide as Hr; [done|]. pose proof (div_bounds r). rewrite view_lookup. assert (C (r / CAP) = []) as ->; [|by destruct (b !! r)].
    pose proof (uo_chain _ _ _ _ Hu (r / CAP)) as Hc. rewrite lookup_ge_None_2 in Hc.
    + by destruct (C (r / CAP)) as [|[] ?]; [|destruct Hc].
    + assert (length (vectorsInfo u) * CAP ≤ r) by lia. apply Nat.div_le_lower_bound; [pose proof CAP_pos; lia|lia].
Qed.
End Scans.

Lemma run_simulated values acts st os : (Z.of_nat (length acts) + 1 < START_TRANSACTION_ID)%Z → col_run (col_init values) acts = Some (st, os) →
  ∃ a C, Forall (λ o, o = Ret ()) os ∧ snap_run (snap_init values) acts = Some a ∧ simulates false st a C ∧
    (lastTS st ≤ 1 + Z.of_nat (length acts))%Z.
Proof. intros Hl. apply (sim_run acts true _ _ _ st os (sim_init values)). cbn. lia. Qed.

(** After the rollback of a version that replaced an older one, the older one points to an address that is free. *)
Lemma rollback_dangles t ts u C u' C' idx row v l ls l0 i0 : transaction_ok t → startTS t = ts →
  updated t ts u C idx row v l ls → head (C idx) = Some (l0, i0) → version i0 ≠ ID t →
  updates_ok None ts u' C' → C' idx = drop_own t (put C idx ls idx) →
  ∃ i, head (C' idx) = Some (l0, i) ∧ vectorsInfo u' !! idx = Some (Some l0) ∧ heap u' !! l0 = Some i ∧ next i = Some l ∧ heap u' !! l = None.
Proof.
  intros Ht Hts (Hu & (i & Hh & Hv & _) & _ & _ & _ & Hold) H0 Hne Hu' HC'. specialize (Hold _ H0 Hne).
  destruct ls as [|[l1 i1] [|[l2 i2] rest]]; try done. injection Hh as -> ->. injection Hold as ->.
  rewrite put_same in HC'. cbn [drop_own] in HC'. rewrite decide_True in HC' by done.
  pose proof (uo_links _ _ _ _ Hu idx 0 (l, i) (l0, i2)) as Hn. rewrite put_same in Hn. specialize (Hn eq_refl eq_refl). cbn in Hn.
  exists i2. pose proof (uo_chain _ _ _ _ Hu' idx) as Hc. rewrite HC' in Hc. destruct Hc as (Hvec & Hheap & _).
  destruct (uo_head _ _ _ _ Hu' idx (l0, i2)) as [Hx|(_ & l' & Hx & Hfree & _)]; [by rewrite HC'|cbn in Hx; congruence|].
  cbn in Hx. rewrite Hn in Hx. injection Hx as <-. split_and!; [by rewrite HC'| |done..].
  destruct (vectorsInfo u' !! idx) as [[]|]; cbn in Hvec; congruence.
Qed.

Lemma start_shape st st' o : col_exec st StartWrite = Some (st', o) →
  writing st = None ∧ chunk st' = chunk st ∧ lastTS st' = lastTS st ∧ o = Ret () ∧
  writing st' = Some (mkTransaction WRITE (lastID st + 1) (lastTS st), []).
Proof. cbn. destruct (writing st); [done|]. by intros [= <- <-]. Qed.

Lemma sim_infos b st a C : simulates b st a C → updates_ok (ID ∘ fst <$> writing st) (lastTS st) (default emptyUpdates (updateInfo (chunk st))) C.
Proof. intros H. apply column_updates, H. Qed.

Lemma vector_head w ts u C idx l : updates_ok w ts u C → vectorsInfo u !! idx = Some (Some l) → ∃ i, head (C idx) = Some (l, i).
Proof.
  intros Hu Hl. pose proof (uo_chain _ _ _ _ Hu idx) as Hc. rewrite Hl in Hc. cbn in Hc.
  destruct (C idx) as [|[l' i] rest]; [done|]. destruct Hc as ([= ->] & _). by exists i.
Qed.

(** A state in which a vector has a version, an update of it that is rolled back, and the next transaction. *)
Lemma rollback_breaks st a C st1 os1 row v u0 l0 : simulates false st a C → (lastTS st < START_TRANSACTION_ID)%Z →
  updateInfo (chunk st) = Some u0 → vectorsInfo u0 !! (row / CAP) = Some (Some l0) →
  col_run st [StartWrite; UpdateRow row v] = Some (st1, os1) →
  ∃ st2 st3 u i p, col_exec st1 RollbackWrite = Some (st2, Ret ()) ∧ col_exec st2 StartWrite = Some (st3, Ret ()) ∧
    updateInfo (chunk st3) = Some u ∧ vectorsInfo u !! (row / CAP) = Some (Some l0) ∧ heap u !! l0 = Some i ∧ next i = Some p ∧
    heap u !! p = None ∧ ∀ row' v', row' / CAP = row / CAP → col_exec st3 (UpdateRow row' v') = None.
Proof.
  intros H Hlt Hu0 Hv0 E. cbn [col_run] in E.
  destruct (col_exec st StartWrite) as [[s1 o1]|] eqn:E1; [|done]. cbn [mbind option_bind] in E.
  destruct (col_exec s1 (UpdateRow row v)) as [[s2 o2]|] eqn:E2; [|done]. cbn [mbind option_bind] in E. injection E as -> _.
  destruct (start_shape _ _ _ E1) as (Hnw & Hch & Hts1 & -> & Hw1).
  destruct (sim_start _ _ _ _ _ _ H Hlt E1) as (a1 & _ & _ & H1).
  destruct (sim_update _ _ _ _ _ _ _ _ H1 E2) as (a2 & t & recs & u' & l & ls & _ & _ & Hw2 & Hwt & Hup & H2).
  rewrite Hw1 in Hwt. injection Hwt as <-. assert (lastTS st1 = lastTS s1) as Hts2.
  { cbn in E2. rewrite Hw1 in E2. simplify_option_eq. repeat case_match; by simplify_eq. }
  destruct (sim_rollback _ _ _ _ _ _ H2 ltac:(lia) Hw2) as (s3 & a3 & E3 & _ & Hts3 & Hw3 & H3).
  assert (∃ s4, col_exec s3 StartWrite = Some (s4, Ret ())) as [s4 E4] by (cbn; rewrite Hw3; eauto).
  destruct (start_shape _ _ _ E4) as (_ & Hch4 & Hts4 & _ & Hw4). destruct (sim_start _ _ _ _ _ _ H3 ltac:(lia) E4) as (a4 & _ & _ & H4).
  pose proof (sim_infos _ _ _ _ H) as Hi. rewrite Hu0, Hnw in Hi. cbn in Hi. destruct (vector_head _ _ _ _ _ _ Hi Hv0) as [i0 Hh0].
  pose proof (sim_infos _ _ _ _ H3) as Hi3. rewrite Hw3, Hts3, Hts2, Hts1 in Hi3. cbn in Hi3. rewrite Hts1 in Hup.
  pose proof (sim_lastID _ _ _ _ H) as Hid. pose proof (sim_column _ _ _ _ H) as Hcol. rewrite Hnw in Hcol.
  destruct (begin_column (lastID st + 1) (lastTS st) (chunk st) C Hcol ltac:(lia)) as [_ Hne]. specialize (Hne _ _ Hh0).
  assert (transaction_ok (mkTransaction WRITE (lastID st + 1) (lastTS st))) as Ht by (split; cbn; lia).
  destruct (rollback_dangles _ _ _ _ _ _ _ _ _ _ _ _ _ Ht eq_refl Hup Hh0 Hne Hi3 eq_refl)
    as (i & Hhd & Hvec & Hheap & Hnext & Hfree).
  exists s3, s4. destruct (updateInfo (chunk s3)) as [u3|] eqn:Eu3; [|done]. cbn in Hvec, Hheap, Hfree, Hi3.
  exists u3, i, l. rewrite Hch4, Eu3. split_and!; [done..|]. intros row' v' Hrow. cbn. rewrite Hw4. case_decide; [|done].
  pose proof (sim_infos _ _ _ _ H4) as Hi4. rewrite Hw4, Hch4, Eu3 in Hi4. cbn in Hi4.
  rewrite update_writer by done. rewrite Hch4, Eu3. cbn [default from_option id]. rewrite Hrow.
  pose proof (sim_lastID _ _ _ _ H3). assert (transaction_ok (mkTransaction WRITE (lastID s3 + 1) (lastTS s3))) as Ht4 by (split; cbn; lia).
  by rewrite (update_dangling _ _ Ht4 (eq_sym Hts4) _ _ _ _ _ _ _ Hi4 Hhd Hnext).
Qed.

(** C21. A column with versions is a store of snapshots: after every run of writers, one at a time, each transaction reads
    in every row the value of its snapshot, and the writer its own updates; a commit makes them part of the later
    snapshots, a rollback drops them. *)
Theorem updates_refine_snapshots (values : list V) (acts : list col_action) (st : column_state) (os : list (Res unit)) :
  (Z.of_nat (length acts) + 1 < START_TRANSACTION_ID)%Z → col_run (col_init values) acts = Some (st, os) →
  ∃ a, snap_run (snap_init values) acts = Some a ∧
    ∀ t row, reader st t → col_lookup (chunk st) t row = snap_read a t !! row.
Proof.
  intros Hl E. destruct (run_simulated values acts st os Hl E) as (a & C & _ & Ea & H & _). exists a. split; [done|].
  intros t row Hr. erewrite col_lookup_view, <-(sim_reader _ _ _ _ _ H Hr); [done|apply H|apply Hr].
Qed.

(** C22. Scans agree with lookups: what [scan] returns for a range, and what [scanCommitted] appends to its output, are the values
    that [lookup] finds in its rows; and the updates that [scanUpdates] returns, applied to the data of the chunk, give what
    [lookup] finds in all rows. *)
Theorem scans_agree_with_lookup (values : list V) (acts : list col_action) (st : column_state) (os : list (Res unit))
    (t : Transaction) (off len : nat) :
  (Z.of_nat (length acts) + 1 < START_TRANSACTION_ID)%Z → col_run (col_init values) acts = Some (st, os) → reader st t →
  off + len ≤ length (base (chunk st)) →
  (∃ out, mapM (col_lookup (chunk st) t) (seq off len) = Some out ∧ col_scan (chunk st) t off len = Some out ∧
    ∀ before, scanCommitted (chunk st) t before off len = Some (before ++ out)) ∧
  (updateInfo (chunk st) ≠ None → ∃ rows vs, scanUpdates (chunk st) t = Some (rows, vs) ∧
    ∀ row, apply_updates (base (chunk st)) (zip rows vs) !! row = col_lookup (chunk st) t row).
Proof.
  intros Hl E Hr Hlen. destruct (run_simulated values acts st os Hl E) as (a & C & _ & _ & H & _). pose proof (sim_column _ _ _ _ H) as Hc.
  destruct Hr as (Ht & _). set (W := view (base (chunk st)) C t). assert (∀ row, col_lookup (chunk st) t row = W !! row) as HW.
  { intros row. by eapply col_lookup_view. }
  assert (length W = length (base (chunk st))) as HWl by apply view_length. split.
  - exists (slice_of off len W). split_and!.
    + apply mapM_Some_2, Forall2_same_length_lookup_2; [by rewrite length_seq, slice_length by lia|].
      intros k r v [-> Hk]%lookup_seq. rewrite slice_lookup, decide_True, HW by done. done.
    + unfold col_scan. rewrite decide_True by done. unfold column_ok in Hc. destruct (updateInfo (chunk st)) as [u|].
      * pose proof (scan_vectors _ _ u C t _ Hc Ht off len Hlen) as Es.
        change (slice_of off len (base (chunk st))) with (take len (drop off (base (chunk st)))) in Es. by rewrite Es.
      * unfold W. by rewrite view_no_updates.
    + intros before. unfold scanCommitted, scanCommittedUpdates. rewrite decide_True by done. unfold column_ok in Hc.
      destruct (updateInfo (chunk st)) as [u|]; [by apply (commit_scan_spec _ _ u C t _ Hc Ht)|]. unfold W. by rewrite view_no_updates.
  - intros Hn. unfold column_ok in Hc. destruct (chunk st) as [b [u|]] eqn:Ec; [|done].
    destruct (scanUpdates_spec _ _ u C t b Hc Ht) as (rows & vs & Es & _ & Ha). exists rows, vs. split; [done|]. intros row.
    rewrite HW. cbn [base]. by rewrite Ha.
Qed.

(** C23. Updates and commits of a column always return, in whatever order one writer after the other takes them, as long as no
    transaction was rolled back and the timestamps stay below those of running transactions: no assertion fails, no pointer is
    null, and every action succeeds, so no conflict is reported. *)
Theorem updates_return (values : list V) (acts : list col_action) (a : snapshots) :
  (Z.of_nat (length acts) + 1 < START_TRANSACTION_ID)%Z → RollbackWrite ∉ acts → snap_run (snap_init values) acts = Some a →
  ∃ st os, col_run (col_init values) acts = Some (st, os) ∧ Forall (λ o, o = Ret ()) os.
Proof.
  intros Hl Hn E. destruct (sim_run_total acts (col_init values) (snap_init values) (λ _, []) a) as [[st os] Er];
    [apply sim_init|cbn; lia|done|done|]. destruct (run_simulated values acts st os Hl Er) as (_ & _ & Hos & _). by exists st, os.
Qed.

(** C24. A rollback leaves a dangling pointer. Take any run of one writer after the other on any column, after which a vector has
    a version, and a further transaction that updates a row of that vector and is rolled back. The rollback returns, but the
    version that was there before, which is the newest one again, points to the destroyed one as the next, and the next
    transaction cannot update any row of the vector: the update reads through that pointer. *)
Theorem update_after_rollback_dangles (values : list V) (acts : list col_action) (st st1 : column_state) (os os1 : list (Res unit))
    (row : nat) (v : V) (u0 : UpdateInfo) (l0 : nat) :
  (Z.of_nat (length acts) + 1 < START_TRANSACTION_ID)%Z → col_run (col_init values) acts = Some (st, os) →
  updateInfo (chunk st) = Some u0 → vectorsInfo u0 !! (row / CAP) = Some (Some l0) →
  col_run st [StartWrite; UpdateRow row v] = Some (st1, os1) →
  ∃ st2 u i p, col_run st1 [RollbackWrite; StartWrite] = Some (st2, [Ret (); Ret ()]) ∧ updateInfo (chunk st2) = Some u ∧
    vectorsInfo u !! (row / CAP) = Some (Some l0) ∧ heap u !! l0 = Some i ∧ next i = Some p ∧ heap u !! p = None ∧
    ∀ row' v', row' / CAP = row / CAP → col_exec st2 (UpdateRow row' v') = None.
Proof.
  intros Hl E Hu0 Hv0 E1. destruct (run_simulated values acts st os Hl E) as (a & C & _ & _ & H & Hts).
  destruct (rollback_breaks st a C st1 os1 row v u0 l0) as (st2 & st3 & u & i & p & Er & Es & Hu & Hvec & Hh & Hn & Hp & Hupd);
    [done|lia|done|done|done|]. exists st3, u, i, p. split_and!; [|done..]. cbn [col_run]. rewrite Er. cbn [mbind option_bind].
  rewrite Es. done.
Qed.

(** [hasUpdates] finds the updates that the transaction sees in the range, and also one in the row after it. *)
Theorem hasUpdates_one_row_more (w : option Z) (ts : Z) (u : UpdateInfo) (C : nat → list entry) (t : Transaction) (s n : nat) :
  updates_ok w ts u C → transaction_ok t → ∃ found, hasUpdates u t s n = Some found ∧
    (found = true ↔ ∃ r, s ≤ r ≤ s + n ∧ is_Some (shown t (C (r / CAP)) (r mod CAP))).
Proof. intros Hu Ht. by eapply hasUpdates_spec. Qed.
End Chains.

(** ** Concrete runs *)

Definition sample_run : list (col_action (V := Z)) := [StartWrite; UpdateRow 0 10%Z; UpdateRow 2 12%Z; CommitWrite; StartWrite; UpdateRow 2 22%Z].
Definition sample_reader : Transaction := mkTransaction READ_ONLY (2 ^ 63 + 9) 2.

Definition sample_state : column_state := default (col_init []) (fst <$> col_run (col_init [5; 6; 7]%Z) sample_run).

#[local] Opaque START_TRANSACTION_ID.

Lemma sample_runs : col_run (col_init [5; 6; 7]%Z) sample_run = Some (sample_state, replicate 6 (Ret ())).
Proof. vm_compute. reflexivity. Qed.

Lemma sample_reads : reader sample_state sample_reader.
Proof.
  assert (lastTS sample_state = 2%Z) as Hts by (vm_compute; reflexivity).
  assert (fst <$> writing sample_state = Some (mkTransaction WRITE (2 ^ 63 + 2) 2)) as Hw by (vm_compute; reflexivity).
  split; [split; vm_compute; congruence|]. split; [rewrite Hts; cbn; lia|]. intros w recs E Hid. rewrite E in Hw. cbn in Hw.
  injection Hw as ->. cbn in Hid. lia.
Qed.

Lemma updates_refine_snapshots_witness : ∃ a, snap_run (snap_init [5; 6; 7]%Z) sample_run = Some a ∧
  ∀ t row, reader sample_state t → col_lookup (chunk sample_state) t row = snap_read a t !! row.
Proof. apply (updates_refine_snapshots _ _ _ (replicate 6 (Ret ()))); [vm_compute; reflexivity|exact sample_runs]. Defined.

Lemma scans_agree_with_lookup_witness : ∃ out, mapM (col_lookup (chunk sample_state) sample_reader) (seq 1 2) = Some out ∧
  col_scan (chunk sample_state) sample_reader 1 2 = Some out.
Proof.
  destruct (scans_agree_with_lookup [5; 6; 7]%Z sample_run sample_state (replicate 6 (Ret ())) sample_reader 1 2) as [(out & H1 & H2 & _) _];
    [by vm_compute|exact sample_runs|exact sample_reads|vm_compute; lia|]. exists out. exact (conj H1 H2).
Defined.

Lemma updates_return_witness : ∃ st os, col_run (col_init [5; 6; 7]%Z) sample_run = Some (st, os) ∧ Forall (λ o, o = Ret ()) os.
Proof. eapply updates_return; [vm_compute; reflexivity|unfold sample_run; set_solver|vm_compute; reflexivity]. Defined.

(** The column after the first commit of the sample. *)
Definition sample_committed : column_state := default (col_init []) (fst <$> col_run (col_init [5; 6; 7]%Z) (take 4 sample_run)).
Definition sample_updates : UpdateInfo := default emptyUpdates (updateInfo (chunk sample_committed)).
Definition sample_doomed : column_state := default (col_init []) (fst <$> col_run sample_committed [StartWrite; UpdateRow 1 20%Z]).

Lemma update_after_rollback_dangles_witness :
  ∃ st2 u i p, col_run sample_doomed [RollbackWrite; StartWrite] = Some (st2, [Ret (); Ret ()]) ∧ updateInfo (chunk st2) = Some u ∧
    vectorsInfo u !! (1 / DEFAULT_VECTOR_CAPACITY) = Some (Some 0) ∧ heap u !! 0 = Some i ∧ next i = Some p ∧ heap u !! p = None ∧
    ∀ row' v', row' / DEFAULT_VECTOR_CAPACITY = 1 / DEFAULT_VECTOR_CAPACITY → col_exec st2 (UpdateRow row' v') = None.
Proof.
  apply (update_after_rollback_dangles [5; 6; 7]%Z (take 4 sample_run) sample_committed sample_doomed (replicate 4 (Ret ()))
    (replicate 2 (Ret ())) 1 20%Z sample_updates 0); vm_compute; reflexivity.
Defined.
