(* ===== verification/Transactions.v ===== *)
(** Transactions on a node table: [TransactionManager] and [Transaction] of [src/src/transaction], with the parts of
    [NodeTable] (src/src/storage/table/node_table.cpp) and [LocalStorage] that they call.

    A database of the model has one node table. Its operations are those of the manager and of the table, in the
    order in which the manager's mutex serialises them; the write-ahead log, the indexes and checkpoints are not
    modelled. The answers of the indexes and the failure of a commit are arguments. The theorems state what
    transactions see of each other: one writer at a time, snapshots that no other transaction changes, commits that
    become visible as a whole, and rollbacks that leave nothing. *)

From stdpp Require Import list_numbers.
From S2P Require Import Prelude NullMask MultiwayIntersect SelVector Serialize VersionInfo NodeGroup LocalTable.


Record ActiveTransaction := mkActive {
  transaction : Transaction;
  localTable : option LocalNodeTable;
  undoBuffer : UndoBuffer
}.

Record Database := mkDatabase {
  table : NodeGroupCollection;
  activeTransactions : list ActiveTransaction;
  lastTransactionID : Z;
  lastTimestamp : Z
}.

(** ** Operations of a transaction on the table *)

Definition with_local (a : ActiveTransaction) (l : LocalNodeTable) : ActiveTransaction :=
  mkActive (transaction a) (Some l) (undoBuffer a).

Definition getOrCreateLocalTable (n : NodeGroupCollection) (a : ActiveTransaction) : LocalNodeTable :=
  default (newLocalNodeTable n) (localTable a).

Definition isUnCommitted (a : ActiveTransaction) (nodeOffset : nat) : bool :=
  match localTable a with Some l => bool_decide (startOffset l ≤ nodeOffset) | None => false end.

(** [NodeTable::insert]; [pkExists] is the answer of [validatePkNotExists]. *)
Definition nt_insert (n : NodeGroupCollection) (a : ActiveTransaction) (pkExists unique : bool) : option (ActiveTransaction * Res nat) :=
  let l := getOrCreateLocalTable n a in
  if pkExists then Some (with_local a l, Throw RuntimeException) else
  '(l, r) ← local_insert l unique;
  Some (with_local a l, r).

(** [NodeTable::delete_]. *)
Definition nt_delete (n : NodeGroupCollection) (a : ActiveTransaction) (nodeOffset : nat) :
    option (NodeGroupCollection * ActiveTransaction * Res bool) :=
  if isUnCommitted a nodeOffset then
    l ← localTable a;
    '(l, r) ← local_delete_ l nodeOffset;
    Some (n, with_local a l, r)
  else
    '(n, u, r) ← nt_delete_ n (transaction a) nodeOffset (undoBuffer a);
    Some (n, mkActive (transaction a) (localTable a) u, r).

(** [LocalStorage::commit]; [fails] says that the insertion into an index throws, the third step of
    [NodeTable::commit]. *)
Definition ls_commit (fuel : nat) (n : NodeGroupCollection) (a : ActiveTransaction) (fails : bool) :
    option (NodeGroupCollection * ActiveTransaction * Res unit) :=
  match localTable a with
  | None => Some (n, a, Ret ())
  | Some l =>
      '(n, u) ← nt_commit fuel n (transaction a) (localGroups l) (undoBuffer a);
      if fails then Some (n, mkActive (transaction a) (Some l) u, Throw RuntimeException)
      else Some (n, mkActive (transaction a) (Some (local_clear l)) u, Ret ())
  end.

(** [Transaction::commit] and [Transaction::rollback] without the write-ahead log. *)
Definition tx_commit (fuel : nat) (n : NodeGroupCollection) (a : ActiveTransaction) (commitTS : Z) (fails : bool) :
    option (NodeGroupCollection * ActiveTransaction * Res unit) :=
  '(n, a, r) ← ls_commit fuel n a fails;
  match r with
  | Ret _ => n ← undo_commit (undoBuffer a) commitTS n; Some (n, a, Ret ())
  | Throw e => Some (n, a, Throw e)
  end.

Definition tx_rollback (n : NodeGroupCollection) (a : ActiveTransaction) : option (NodeGroupCollection * ActiveTransaction) :=
  let a := mkActive (transaction a) (local_clear <$> localTable a) (undoBuffer a) in
  n ← undo_rollback (undoBuffer a) n; Some (n, a).

(** ** The transaction manager *)

Definition isWriteTransaction (t : Transaction) : bool := bool_decide (type t = WRITE).

Definition hasActiveWriteTransactionNoLock (db : Database) : bool :=
  existsb (λ a, isWriteTransaction (transaction a)) (activeTransactions db).

Definition beginTransaction (enableMultiWrites : bool) (db : Database) (ty : TransactionType) : Database * Res Transaction :=
  let id := u64 (lastTransactionID db + 1) in
  let t := mkTransaction ty id (lastTimestamp db) in
  let started := mkDatabase (table db) (activeTransactions db ++ [mkActive t None []]) id (lastTimestamp db) in
  match ty with
  | READ_ONLY => (started, Ret t)
  | RECOVERY | WRITE =>
      if negb enableMultiWrites && hasActiveWriteTransactionNoLock db then (db, Throw TransactionManagerException)
      else (started, Ret t)
  | _ => (db, Throw TransactionManagerException)
  end.

Definition clearTransactionNoLock (db : Database) (transactionID : Z) : option Database :=
  if existsb (λ a, bool_decide (ID (transaction a) = transactionID)) (activeTransactions db) then
    Some (mkDatabase (table db) (filter (λ a, ID (transaction a) ≠ transactionID) (activeTransactions db))
      (lastTransactionID db) (lastTimestamp db))
  else None.

(** The transaction a pointer of the code points to. *)
Definition findTransaction (db : Database) (id : Z) : option ActiveTransaction :=
  snd <$> list_find (λ a, ID (transaction a) = id) (activeTransactions db).

(** The state after an operation of the transaction [a]. *)
Definition update (db : Database) (n : NodeGroupCollection) (a : ActiveTransaction) (ts : Z) : Database :=
  mkDatabase n ((λ b, if decide (ID (transaction b) = ID (transaction a)) then a else b) <$> activeTransactions db)
    (lastTransactionID db) ts.

Definition commit (fuel : nat) (db : Database) (a : ActiveTransaction) (fails : bool) : option (Database * Res unit) :=
  match type (transaction a) with
  | READ_ONLY => db ← clearTransactionNoLock db (ID (transaction a)); Some (db, Ret ())
  | RECOVERY | WRITE =>
      let commitTS := u64 (lastTimestamp db + 1) in
      '(n, a, r) ← tx_commit fuel (table db) a commitTS fails;
      let db := update db n a commitTS in
      match r with
      | Ret _ => db ← clearTransactionNoLock db (ID (transaction a)); Some (db, Ret ())
      | Throw e => Some (db, Throw e)
      end
  | _ => Some (db, Throw TransactionManagerException)
  end.

Definition rollback (db : Database) (a : ActiveTransaction) : option (Database * Res unit) :=
  match type (transaction a) with
  | READ_ONLY => db ← clearTransactionNoLock db (ID (transaction a)); Some (db, Ret ())
  | RECOVERY | WRITE =>
      '(n, a) ← tx_rollback (table db) a;
      db ← clearTransactionNoLock (update db n a (lastTimestamp db)) (ID (transaction a)); Some (db, Ret ())
  | _ => Some (db, Throw TransactionManagerException)
  end.

(** [stopNewTransactionsAndWaitUntilAllTransactionsLeave]: [idle k] says whether there is no active transaction when
    the loop asks for the [k]-th time. *)
Definition THREAD_SLEEP_TIME_WHEN_WAITING_IN_MICROS : Z := 500.
Definition DEFAULT_CHECKPOINT_WAIT_TIMEOUT_IN_MICROS : Z := 5000000.

Fixpoint waitUntilAllTransactionsLeave (fuel : nat) (timeout : Z) (idle : nat → bool) (k : nat) (numTimesWaited : Z) : option (Res unit) :=
  match fuel with
  | 0 => None
  | S fuel =>
      if idle k then Some (Ret ()) else
      let numTimesWaited := u64 (numTimesWaited + 1) in
      if bool_decide (timeout < u64 (numTimesWaited * THREAD_SLEEP_TIME_WHEN_WAITING_IN_MICROS))%Z
      then Some (Throw TransactionManagerException)
      else waitUntilAllTransactionsLeave fuel timeout idle (S k) numTimesWaited
  end.

(** ** Runs of the database

    The operations clients call; [Commit id fails] and the others are those of the transaction with that ID. *)
Inductive action :=
  | Begin (ty : TransactionType)
  | Insert (id : Z) (pkExists unique : bool)
  | Delete (id : Z) (nodeOffset : nat)
  | Commit (id : Z) (fails : bool)
  | Rollback (id : Z).

Definition actor (act : action) : option Z :=
  match act with Begin _ => None | Insert id _ _ | Delete id _ | Commit id _ | Rollback id => Some id end.

Definition thrown {A} (r : Res A) : bool := match r with Ret _ => false | Throw _ => true end.

(** The state after an operation, and whether it threw. *)
Definition exec (fuel : nat) (db : Database) (act : action) : option (Database * bool) :=
  match act with
  | Begin ty => let '(db, r) := beginTransaction false db ty in Some (db, thrown r)
  | Insert id pkExists unique =>
      a ← findTransaction db id;
      '(a, r) ← nt_insert (table db) a pkExists unique;
      Some (update db (table db) a (lastTimestamp db), thrown r)
  | Delete id nodeOffset =>
      a ← findTransaction db id;
      '(n, a, r) ← nt_delete (table db) a nodeOffset;
      Some (update db n a (lastTimestamp db), thrown r)
  | Commit id fails =>
      a ← findTransaction db id; '(db, r) ← commit fuel db a fails; Some (db, thrown r)
  | Rollback id => a ← findTransaction db id; '(db, r) ← rollback db a; Some (db, thrown r)
  end.

#[local] Opaque CHUNKED_NODE_GROUP_CAPACITY NODE_GROUP_SIZE DEFAULT_VECTOR_CAPACITY.

(** ** Waiting for the transactions to leave *)

Lemma wait_step fuel timeout idle k w : waitUntilAllTransactionsLeave (S fuel) timeout idle k w =
  if idle k then Some (Ret ()) else
  if bool_decide (timeout < u64 (u64 (w + 1) * THREAD_SLEEP_TIME_WHEN_WAITING_IN_MICROS))%Z then Some (Throw TransactionManagerException)
  else waitUntilAllTransactionsLeave fuel timeout idle (S k) (u64 (w + 1)).
Proof. reflexivity. Qed.

Lemma wait_spec timeout idle N k : (0 ≤ timeout)%Z → (timeout + 500 < 2 ^ 64)%Z → (Z.of_nat (k + N) = timeout / 500)%Z →
  waitUntilAllTransactionsLeave (S N) timeout idle k (Z.of_nat k) =
    Some (if existsb idle (seq k (S N)) then Ret () else Throw TransactionManagerException).
Proof.
  intros H0 H1. revert k. induction N as [|N IH]; intros k Hk; pose proof (Z.div_mod timeout 500 ltac:(lia)) as Hdm;
    pose proof (Z.mod_pos_bound timeout 500 ltac:(lia)) as Hmb; rewrite wait_step; (destruct (idle k) eqn:Ei; [cbn; by rewrite Ei|]);
    rewrite (u64_id (Z.of_nat k + 1)) by lia; unfold THREAD_SLEEP_TIME_WHEN_WAITING_IN_MICROS; rewrite u64_id by lia.
  - rewrite bool_decide_true by lia. cbn. by rewrite Ei.
  - rewrite bool_decide_false by lia. replace (Z.of_nat k + 1)%Z with (Z.of_nat (S k)) by lia. rewrite (IH (S k)) by lia.
    change (seq k (S (S N))) with (k :: seq (S k) (S N)). cbn [existsb]. by rewrite Ei.
Qed.

(** ** What a transaction sees of the table *)

Definition visible (n : NodeGroupCollection) (t : Transaction) : list nat :=
  filter (λ k, nt_isVisible n t k = Some true) (seq 0 (numTotalRows n)).

Definition seen (t : Transaction) (rows : list row) (k : nat) : bool := from_option (sees t) false (rows !! k).

Lemma visible_rows n t : ngc_ok n → snapshot_ok (startTS t) (ID t) →
  visible n t = filter (λ k, seen t (ngc_rows n) k = true) (seq 0 (length (ngc_rows n))).
Proof.
  intros Hn Hs. unfold visible. rewrite (gk_total n Hn). apply Prelude.filter_ext_in, Forall_seq. intros k Hk.
  destruct (lookup_lt_is_Some_2 (ngc_rows n) k) as [r Hr]; [lia|]. rewrite (nt_isVisible_spec n t k r) by done. unfold seen. rewrite Hr. cbn. split; intros E; [by injection E|by rewrite E].
Qed.

Lemma filter_seq_more (P : nat → Prop) `{∀ k, Decision (P k)} a b : a ≤ b → (∀ k, a ≤ k → ¬ P k) → filter P (seq 0 b) = filter P (seq 0 a).
Proof.
  intros Hab HP. replace b with (a + (b - a)) by lia. rewrite seq_app, filter_app, (filter_none P (seq (0 + a) _)), app_nil_r; [done|].
  apply Forall_seq. intros k Hk. apply HP. lia.
Qed.

Lemma visible_ext n n' t : ngc_ok n → ngc_ok n' → snapshot_ok (startTS t) (ID t) → (∀ k, seen t (ngc_rows n') k = seen t (ngc_rows n) k) →
  visible n' t = visible n t.
Proof.
  intros Hn Hn' Hs He. rewrite !visible_rows by done. set (b := length (ngc_rows n) `max` length (ngc_rows n')).
  rewrite <-(filter_seq_more _ (length (ngc_rows n)) b), <-(filter_seq_more _ (length (ngc_rows n')) b); try lia.
  - apply Prelude.filter_ext_in, Forall_seq. intros k _. by rewrite He.
  - intros k Hk. unfold seen. by rewrite lookup_ge_None_2.
  - intros k Hk. unfold seen. by rewrite lookup_ge_None_2.
Qed.

(** ** The invariant *)

(** Versions of a row: committed by time [s], or those of the transaction [own]. *)
Definition row_versions (s own : Z) (r : row) : Prop :=
  ((0 ≤ r_ins r ≤ s)%Z ∨ r_ins r = own) ∧ (r_del r = INVALID_TRANSACTION ∨ (0 ≤ r_del r ≤ s)%Z ∨ r_del r = own).

(** The undo buffer and local table of a writer. The transactions in [F] have a commit that failed behind them. *)
Record writer_ok (F : list Z) (n : NodeGroupCollection) (a : ActiveTransaction) : Prop := {
  wr_versions : Forall (row_versions (startTS (transaction a)) (ID (transaction a))) (ngc_rows n);
  wr_undo : ∃ m D I D2, tx_ok (ID (transaction a)) (ngc_rows n) (undoBuffer a) m D I D2 ∧ m ≤ length (ngc_rows n) ∧
    (ID (transaction a) ∉ F → m = length (ngc_rows n) ∧ I = [] ∧ D2 = []);
  wr_local : ∀ l, localTable a = Some l → local_ok (localGroups l) ∧ (ID (transaction a) ∉ F → startOffset l = length (ngc_rows n))
}.

Record active_ok (db : Database) (a : ActiveTransaction) : Prop := {
  ac_id : (START_TRANSACTION_ID < ID (transaction a) ≤ lastTransactionID db)%Z;
  ac_start : (1 ≤ startTS (transaction a) ≤ lastTimestamp db)%Z;
  ac_type : type (transaction a) = READ_ONLY ∨ type (transaction a) = WRITE
}.

Record db_ok (F : list Z) (db : Database) : Prop := {
  db_table : ngc_ok (table db);
  db_strict : Forall strict (ngc_rows (table db));
  db_active : ∀ a, a ∈ activeTransactions db → active_ok db a;
  db_ids : NoDup ((λ a, ID (transaction a)) <$> activeTransactions db);
  db_counters : (START_TRANSACTION_ID ≤ lastTransactionID db < INVALID_TRANSACTION)%Z ∧ (1 ≤ lastTimestamp db < START_TRANSACTION_ID)%Z;
  db_writer : ∀ a, a ∈ activeTransactions db → type (transaction a) = WRITE → writer_ok F (table db) a;
  db_single : ∀ a b, a ∈ activeTransactions db → b ∈ activeTransactions db → type (transaction a) = WRITE → type (transaction b) = WRITE → a = b;
  db_quiet : (∀ a, a ∈ activeTransactions db → type (transaction a) ≠ WRITE) →
    Forall (row_versions (lastTimestamp db) (lastTimestamp db)) (ngc_rows (table db))
}.

Lemma findTransaction_spec db id a : findTransaction db id = Some a → a ∈ activeTransactions db ∧ ID (transaction a) = id.
Proof.
  unfold findTransaction. destruct (list_find _ _) as [[i b]|] eqn:E; [|done]. cbn. intros [= <-]. apply list_find_Some in E as (H1 & H2 & _).
  split; [by eapply list_elem_of_lookup_2|done].
Qed.

Lemma same_id F db a b : db_ok F db → a ∈ activeTransactions db → b ∈ activeTransactions db → ID (transaction a) = ID (transaction b) → a = b.
Proof.
  intros Hdb [i Hi]%list_elem_of_lookup [j Hj]%list_elem_of_lookup Hid. pose proof (db_ids _ _ Hdb) as Hn.
  assert (i = j) as ->; [|congruence]. eapply (NoDup_lookup _ i j (ID (transaction a)) Hn); rewrite list_lookup_fmap; [by rewrite Hi|by rewrite Hj, Hid].
Qed.

Lemma active_snapshot F db a : db_ok F db → a ∈ activeTransactions db → snapshot_ok (startTS (transaction a)) (ID (transaction a)) ∧ versioned (ID (transaction a)).
Proof.
  intros Hdb Ha. destruct (db_active _ _ Hdb a Ha) as [A1 A2 _]. destruct (db_counters _ _ Hdb) as [C1 C2].
  unfold snapshot_ok, versioned, START_TRANSACTION_ID, INVALID_TRANSACTION in *. lia.
Qed.

(** The transactions of the updated state. *)
Lemma update_elem F db n a a' ts b : db_ok F db → a ∈ activeTransactions db → ID (transaction a') = ID (transaction a) →
  b ∈ activeTransactions (update db n a' ts) ↔ b = a' ∨ (b ∈ activeTransactions db ∧ ID (transaction b) ≠ ID (transaction a)).
Proof.
  intros Hdb Ha Hid. cbn. rewrite list_elem_of_fmap. split.
  - intros (c & -> & Hc). destruct (decide _) as [He|Hne]; [by left|]. right. split; [done|]. by rewrite <-Hid.
  - intros [->|[Hb Hne]]; [exists a|exists b]; (split; [|done]); [by rewrite decide_True by done|]. by rewrite decide_False by (by rewrite Hid).
Qed.

Lemma update_ids db n a ts : ((λ a, ID (transaction a)) <$> activeTransactions (update db n a ts)) = ((λ a, ID (transaction a)) <$> activeTransactions db).
Proof. cbn. rewrite <-list_fmap_compose. apply list_fmap_ext. intros i b _. cbn. by destruct (decide _) as [->|]. Qed.

(** An operation of the writer keeps the invariant when it keeps [writer_ok]. *)
Lemma update_ok F F' db a a' n ts : db_ok F db → a ∈ activeTransactions db → type (transaction a) = WRITE → transaction a' = transaction a →
  ngc_ok n → Forall strict (ngc_rows n) → (lastTimestamp db ≤ ts < START_TRANSACTION_ID)%Z → writer_ok F' n a' → db_ok F' (update db n a' ts).
Proof.
  intros Hdb Ha Hw Ht Hn Hs Hts Hwr. assert (∀ b, b ∈ activeTransactions (update db n a' ts) →
    b = a' ∨ (b ∈ activeTransactions db ∧ type (transaction b) ≠ WRITE)) as Hel.
  { intros b Hb. apply (update_elem F db n a a' ts b Hdb Ha) in Hb as [->|[Hb Hne]]; [by left| |by rewrite Ht]. right. split; [done|].
    intros Hbw. apply Hne. by rewrite (db_single _ _ Hdb b a). }
  split; cbn [table lastTransactionID lastTimestamp update]; [done|done| | | | | |].
  - intros b [->|[Hb _]]%Hel; [destruct (db_active _ _ Hdb a Ha) as [A1 A2 A3]|destruct (db_active _ _ Hdb b Hb) as [A1 A2 A3]];
      (split; cbn [lastTransactionID lastTimestamp update]; rewrite ?Ht; [done|lia|done]).
  - pose proof (db_ids _ _ Hdb). by rewrite update_ids.
  - destruct (db_counters _ _ Hdb). split; [done|lia].
  - intros b [->|[Hb Hnw]]%Hel; [by intros _|done].
  - intros b c [->|[Hb Hbw]]%Hel [->|[Hc Hcw]]%Hel; done.
  - intros Hq. exfalso. apply (Hq a'); [|by rewrite Ht]. apply (update_elem F db n a a' ts a' Hdb Ha); [by rewrite Ht|by left].
Qed.

(** A transaction leaves. *)
Lemma leave_ok F db a n ts acts : db_ok F db → a ∈ activeTransactions db → ngc_ok n → Forall strict (ngc_rows n) →
  (lastTimestamp db ≤ ts < START_TRANSACTION_ID)%Z → (∀ b, b ∈ acts ↔ b ∈ activeTransactions db ∧ ID (transaction b) ≠ ID (transaction a)) →
  NoDup ((λ a, ID (transaction a)) <$> acts) →
  (type (transaction a) = WRITE → Forall (row_versions ts ts) (ngc_rows n)) → (type (transaction a) ≠ WRITE → n = table db ∧ ts = lastTimestamp db) →
  db_ok F (mkDatabase n acts (lastTransactionID db) ts).
Proof.
  intros Hdb Ha Hn Hs Hts Hel Hids Hv Hsame. split; cbn [table activeTransactions lastTransactionID lastTimestamp]; [done|done| |done| | | |].
  - intros b [Hb _]%Hel. destruct (db_active _ _ Hdb b Hb) as [A1 A2 A3]. split; cbn; [done|lia|done].
  - destruct (db_counters _ _ Hdb). split; [done|lia].
  - intros b [Hb Hne]%Hel Hbw. destruct (decide (type (transaction a) = WRITE)) as [Haw|Haw].
    + exfalso. apply Hne. by rewrite (db_single _ _ Hdb a b).
    + destruct (Hsame Haw) as [-> _]. by apply Hdb.
  - intros b c [Hb _]%Hel [Hc _]%Hel. by apply Hdb.
  - intros Hq. destruct (decide (type (transaction a) = WRITE)) as [Haw|Haw]; [by apply Hv|]. destruct (Hsame Haw) as [-> ->]. apply Hdb.
    intros b Hb. destruct (decide (ID (transaction b) = ID (transaction a))) as [He|Hne]; [by rewrite (same_id F db b a)|by apply Hq, Hel].
Qed.

Lemma clear_spec db a : a ∈ activeTransactions db → clearTransactionNoLock db (ID (transaction a)) =
  Some (mkDatabase (table db) (filter (λ b, ID (transaction b) ≠ ID (transaction a)) (activeTransactions db)) (lastTransactionID db) (lastTimestamp db)).
Proof.
  intros Ha. unfold clearTransactionNoLock. rewrite (proj2 (existsb_exists _ _)); [done|]. exists a. split; [by apply list_elem_of_In|]. by rewrite bool_decide_true.
Qed.

Lemma filter_ids (P : ActiveTransaction → Prop) `{∀ a, Decision (P a)} acts : NoDup ((λ a, ID (transaction a)) <$> acts) →
  NoDup ((λ a, ID (transaction a)) <$> filter P acts).
Proof. intros Hn. eapply sublist_NoDup; [exact Hn|]. apply fmap_sublist, sublist_filter. Qed.

(** The reader or writer leaves, the writer after its last operation. *)
Lemma clear_reader F db a : db_ok F db → a ∈ activeTransactions db → type (transaction a) ≠ WRITE →
  ∃ db', clearTransactionNoLock db (ID (transaction a)) = Some db' ∧ db_ok F db' ∧ table db' = table db ∧ lastTimestamp db' = lastTimestamp db.
Proof.
  intros Hdb Ha Hw. rewrite clear_spec by done. eexists. split_and!; [done| |done|done]. destruct (db_counters _ _ Hdb).
  eapply leave_ok; [done|exact Ha|apply Hdb|apply Hdb|lia| |by apply filter_ids, Hdb|done|done]. intros b. rewrite list_elem_of_filter. tauto.
Qed.

Lemma clear_writer F db a a' n ts : db_ok F db → a ∈ activeTransactions db → type (transaction a) = WRITE → transaction a' = transaction a →
  ngc_ok n → Forall strict (ngc_rows n) → (lastTimestamp db ≤ ts < START_TRANSACTION_ID)%Z → Forall (row_versions ts ts) (ngc_rows n) →
  ∃ db', clearTransactionNoLock (update db n a' ts) (ID (transaction a')) = Some db' ∧ db_ok F db' ∧ table db' = n ∧ lastTimestamp db' = ts.
Proof.
  intros Hdb Ha Hw Ht Hn Hs Hts Hv. rewrite clear_spec by (apply (update_elem F db n a a' ts a' Hdb Ha); [by rewrite Ht|by left]).
  eexists. split_and!; [done| |done|done]. cbn [table lastTransactionID lastTimestamp update].
  eapply leave_ok; [done|exact Ha|done|done|lia| | |done|done].
  - intros b. rewrite list_elem_of_filter, (update_elem F db n a a' ts b Hdb Ha) by (by rewrite Ht). rewrite Ht. split; [|naive_solver].
    intros [Hne [->|[Hb _]]]; [by rewrite Ht in Hne|done].
  - apply filter_ids. pose proof (db_ids _ _ Hdb). by rewrite update_ids.
Qed.

(** ** What the other transactions see *)

(** A snapshot taken by time [s] by a transaction other than [w]. *)
Definition other (w s : Z) (t : Transaction) : Prop :=
  (0 ≤ startTS t ≤ s)%Z ∧ (START_TRANSACTION_ID < ID t < INVALID_TRANSACTION)%Z ∧ ID t ≠ w.

(** They see the same rows in both tables. *)
Definition blind (w s : Z) (rows rows' : list row) : Prop := ∀ t, other w s t → ∀ k, seen t rows' k = seen t rows k.

#[export] Instance blind_preorder w s : PreOrder (blind w s).
Proof. split; [by intros rows t|]. intros l1 l2 l3 H1 H2 t Ht k. by rewrite (H2 t Ht), (H1 t Ht). Qed.

Lemma other_snapshot w s t : (s < START_TRANSACTION_ID)%Z → other w s t → snapshot_ok (startTS t) (ID t).
Proof. intros Hs (H1 & H2 & _). unfold snapshot_ok, START_TRANSACTION_ID, INVALID_TRANSACTION in *. lia. Qed.

(** The versions others do not see: those of the transaction, those committed later and the invalid one. *)
Definition unseen (w s x : Z) : Prop := x = w ∨ (s < x ≤ START_TRANSACTION_ID)%Z ∨ x = INVALID_TRANSACTION.

Lemma unseen_false w s t x : (s < START_TRANSACTION_ID < w)%Z → other w s t → unseen w s x → version_seen (startTS t) (ID t) x = false.
Proof.
  intros Hs (H1 & H2 & H3) Hx. unfold version_seen, unseen, START_TRANSACTION_ID, INVALID_TRANSACTION in *.
  rewrite !bool_decide_false; [done|lia..].
Qed.

(** Rows whose versions differ only in unseen ones look the same. *)
Definition same_for (w s x y : Z) : Prop := x = y ∨ (unseen w s x ∧ unseen w s y).

Lemma blind_pointwise w s rows rows' : (s < START_TRANSACTION_ID < w)%Z →
  (∀ k r r', rows !! k = Some r → rows' !! k = Some r' → same_for w s (r_ins r) (r_ins r') ∧ same_for w s (r_del r) (r_del r')) →
  (∀ k r, rows !! k = Some r → rows' !! k = None → unseen w s (r_ins r)) → (∀ k r', rows' !! k = Some r' → rows !! k = None → unseen w s (r_ins r')) →
  blind w s rows rows'.
Proof.
  intros Hs Hboth Hgone Hnew t Ht k. assert (∀ x y, same_for w s x y → version_seen (startTS t) (ID t) y = version_seen (startTS t) (ID t) x) as Hv.
  { intros x y [->|[Hx Hy]]; [done|]. by rewrite !(unseen_false w s). }
  unfold seen. destruct (rows !! k) as [r|] eqn:Er, (rows' !! k) as [r'|] eqn:Er'; cbn; [| | |done].
  - destruct (Hboth k r r' Er Er') as [H1 H2]. unfold sees, row_visible. cbn. by rewrite (Hv _ _ H1), (Hv _ _ H2).
  - unfold sees, row_visible. cbn. by rewrite (unseen_false w s) by (done || by eapply Hgone).
  - unfold sees, row_visible. cbn. by rewrite (unseen_false w s) by (done || by eapply Hnew).
Qed.

Lemma blind_deleted w s k rows rows' : (s < START_TRANSACTION_ID < w)%Z → pointwise (deleted_at w k) rows rows' → blind w s rows rows'.
Proof.
  intros Hs [Hl Hp]. apply blind_pointwise; [done| | |].
  - intros j r r' Hr Hr'. specialize (Hp j r r' Hr Hr'). rewrite (proj1 (deleted_at_ins _ _ _ _ _ Hp)). split; [by left|]. unfold deleted_at in Hp.
    destruct (decide (j = k)); destruct Hp as (_ & -> & _); [|by left]. destruct (decide _) as [Hd|]; [|by left]. right. unfold unseen. auto.
  - intros j r Hr Hn. apply lookup_lt_Some in Hr. apply lookup_ge_None in Hn. lia.
  - intros j r Hr Hn. apply lookup_lt_Some in Hr. apply lookup_ge_None in Hn. lia.
Qed.

Lemma blind_own t s old total D I flags st : (s < START_TRANSACTION_ID < ID t)%Z → own_rows t old total D I flags st → blind (ID t) s old (ngc_rows st.1).
Proof.
  intros Hs [_ _ _ Hold [D2 Htx] _]. apply Forall2_same_length_lookup in Hold as [Hl Hold]. rewrite length_take in Hl. apply blind_pointwise; [done| | |].
  - intros j r r' Hr Hr'. pose proof (lookup_lt_Some _ _ _ Hr). destruct (Hold j r r') as (-> & -> & _); [done|by apply lookup_take_Some|]. split; by left.
  - intros j r Hr Hn. apply lookup_lt_Some in Hr. apply lookup_ge_None in Hn. lia.
  - intros j r Hr Hn. apply lookup_ge_None in Hn. left. by apply (tk_rows _ _ _ _ _ _ _ Htx j r Hr).
Qed.

Lemma blind_committed w s ts rows rows' : (s < START_TRANSACTION_ID < w)%Z → (s < ts ≤ START_TRANSACTION_ID)%Z →
  pointwise (λ _, committed_row w ts) rows rows' → blind w s rows rows'.
Proof.
  intros Hs Hts [Hl Hp]. assert (∀ x, same_for w s x (rename w ts x)) as Hre.
  { intros x. unfold rename. destruct (decide (x = w)) as [->|]; [|by left]. right. unfold unseen. auto. }
  apply blind_pointwise; [done| | |].
  - intros j r r' Hr Hr'. destruct (Hp j r r' Hr Hr') as (-> & -> & _). split; apply Hre.
  - intros j r Hr Hn. apply lookup_lt_Some in Hr. apply lookup_ge_None in Hn. lia.
  - intros j r Hr Hn. apply lookup_lt_Some in Hr. apply lookup_ge_None in Hn. lia.
Qed.

Lemma blind_rolled_back w s m rows rows' : (s < START_TRANSACTION_ID < w)%Z → (∀ k r, rows !! k = Some r → (m ≤ k ↔ r_ins r = w)) →
  pointwise (λ _, rolled_back_row w) (take m rows) rows' → blind w s rows rows'.
Proof.
  intros Hs Hm [Hl Hp]. rewrite length_take in Hl. apply blind_pointwise; [done| | |].
  - intros j r r' Hr Hr'. pose proof (lookup_lt_Some _ _ _ Hr'). destruct (Hp j r r') as (-> & -> & _); [apply lookup_take_Some; split; [done|lia]|done|].
    split; [by left|]. unfold rename. destruct (decide _) as [->|]; [|by left]. right. unfold unseen. auto.
  - intros j r Hr Hn. left. apply (Hm j r Hr). apply lookup_lt_Some in Hr. apply lookup_ge_None in Hn. lia.
  - intros j r Hr Hn. apply lookup_lt_Some in Hr. apply lookup_ge_None in Hn. lia.
Qed.

(** ** The operations keep the invariant *)

Lemma writer_facts F db a : db_ok F db → a ∈ activeTransactions db → type (transaction a) = WRITE →
  shouldAppendToUndoBuffer (transaction a) = true ∧ versioned (ID (transaction a)) ∧ snapshot_ok (startTS (transaction a)) (ID (transaction a)) ∧
  (lastTimestamp db < START_TRANSACTION_ID < ID (transaction a))%Z.
Proof.
  intros Hdb Ha Hw. destruct (active_snapshot F db a Hdb Ha). destruct (db_active _ _ Hdb a Ha) as [A1 _ _]. destruct (db_counters _ _ Hdb).
  split_and!; [by unfold shouldAppendToUndoBuffer; rewrite Hw|done|done|lia|lia].
Qed.

Lemma new_local_ok n : local_ok (localGroups (newLocalNodeTable n)).
Proof. split; [done|by intros i l|done|done]. Qed.

Lemma writer_local F n a : ngc_ok n → writer_ok F n a → ID (transaction a) ∉ F →
  local_ok (localGroups (getOrCreateLocalTable n a)) ∧ startOffset (getOrCreateLocalTable n a) = length (ngc_rows n).
Proof.
  intros Hn [_ _ Hl] HF. unfold getOrCreateLocalTable. destruct (localTable a) as [l|]; [destruct (Hl l eq_refl); auto|].
  split; [apply new_local_ok|apply (gk_total n Hn)].
Qed.

Lemma writer_with_local F n a l : writer_ok F n a → local_ok (localGroups l) → (ID (transaction a) ∉ F → startOffset l = length (ngc_rows n)) →
  writer_ok F n (with_local a l).
Proof. intros [W1 W2 W3] Hl Hs. split; [done|done|]. intros l' [= <-]. done. Qed.

Lemma local_insert_spec l unique : local_ok (localGroups l) →
  ∃ l', local_insert l unique = Some (l', if unique then Ret (startOffset l + length (local_flags (localGroups l))) else Throw RuntimeException) ∧
    startOffset l' = startOffset l ∧ local_ok (localGroups l') ∧
    local_flags (localGroups l') = local_flags (localGroups l) ++ (if unique then [false] else []).
Proof.
  intros Hl. unfold local_insert. destruct unique; [|exists l; by rewrite app_nil_r].
  destruct (local_append_spec (localGroups l) Hl) as (n' & -> & Hn' & Hf). cbn. rewrite (lo_total _ Hl). eexists. by split_and!.
Qed.

Lemma insert_ok F n a pkExists unique : ngc_ok n → writer_ok F n a → ID (transaction a) ∉ F →
  ∃ a' r, nt_insert n a pkExists unique = Some (a', r) ∧ transaction a' = transaction a ∧ writer_ok F n a'.
Proof.
  intros Hn Hw HF. destruct (writer_local F n a Hn Hw HF) as [Hl Hs]. unfold nt_insert. destruct pkExists.
  { eexists _, _. split_and!; [done|done|]. by apply writer_with_local. }
  destruct (local_insert_spec _ unique Hl) as (l' & -> & Hs' & Hl' & _). cbn [mbind option_bind]. eexists _, _. split_and!; [done|done|].
  apply writer_with_local; [done..|]. intros _. by rewrite Hs', Hs.
Qed.

(** The rows a transaction may delete: those of its local table, or those of the table. *)
Definition deletable (n : NodeGroupCollection) (a : ActiveTransaction) (k : nat) : Prop :=
  match localTable a with
  | Some l => k < startOffset l + length (local_flags (localGroups l))
  | None => k < length (ngc_rows n)
  end.

Lemma row_versions_deleted s w k rows rows' : pointwise (deleted_at w k) rows rows' → Forall (row_versions s w) rows → Forall (row_versions s w) rows'.
Proof.
  intros Hp Hv. apply Forall_lookup_2. intros j r' Hr'. destruct (pointwise_lookup_r _ _ _ _ _ Hp Hr') as (r & Hr & Hd).
  destruct (Forall_lookup_1 _ _ _ _ Hv Hr) as [V1 V2]. unfold row_versions. rewrite (proj1 (deleted_at_ins _ _ _ _ _ Hd)). split; [done|]. unfold deleted_at in Hd.
  destruct (decide (j = k)); destruct Hd as (_ & -> & _); [|done]. destruct (decide _); auto.
Qed.

Lemma delete_table_ok F n a k u : ngc_ok n → Forall strict (ngc_rows n) → writer_ok F n a → ID (transaction a) ∉ F →
  shouldAppendToUndoBuffer (transaction a) = true → ID (transaction a) ≠ INVALID_TRANSACTION → k < length (ngc_rows n) → u = undoBuffer a →
  ∃ n' u' r, nt_delete_ n (transaction a) k u = Some (n', u', r) ∧ ngc_ok n' ∧ Forall strict (ngc_rows n') ∧
    writer_ok F n' (mkActive (transaction a) (localTable a) u') ∧ pointwise (deleted_at (ID (transaction a)) k) (ngc_rows n) (ngc_rows n') ∧
    ∀ x, ngc_rows n !! k = Some x → r = delete_result (r_del x) (ID (transaction a)).
Proof.
  intros Hn Hs [W1 (m & D & I & D2 & Htx & Hm & HF') W3] HF Ht Hid Hk ->. destruct (lookup_lt_is_Some_2 (ngc_rows n) k Hk) as [x Hx].
  destruct (nt_delete_spec n (transaction a) k x (undoBuffer a)) as (n' & rec & Hrec & E & Hn' & Hp); [done..|]. destruct (HF' HF) as (-> & -> & ->).
  eexists n', _, _. split; [exact E|]. pose proof (proj1 Hp) as Hl. split_and!; [done|by eapply deleted_at_strict| |done|intros y Hy; congruence].
  split; cbn [transaction undoBuffer localTable].
  - by eapply row_versions_deleted.
  - rewrite <-Hl in Htx. destruct (delete_result (r_del x) (ID (transaction a))) as [b|e] eqn:Er.
    + exists (length (ngc_rows n')), (D ++ [rec]), [], []. split_and!; [|done|done]. eapply (tx_delete_old _ _ _ _ _ _ k); [done|exact Htx|lia|done..].
    + exists (length (ngc_rows n')), D, [], []. split_and!; [|done|done]. by eapply tx_delete_throw.
  - intros l Hll. destruct (W3 l Hll) as [L1 L2]. split; [done|]. intros _. rewrite Hl. by apply L2.
Qed.

Lemma delete_ok F n a k s : ngc_ok n → Forall strict (ngc_rows n) → writer_ok F n a → ID (transaction a) ∉ F →
  shouldAppendToUndoBuffer (transaction a) = true → ID (transaction a) ≠ INVALID_TRANSACTION → (s < START_TRANSACTION_ID < ID (transaction a))%Z → deletable n a k →
  ∃ n' a' r, nt_delete n a k = Some (n', a', r) ∧ transaction a' = transaction a ∧ ngc_ok n' ∧ Forall strict (ngc_rows n') ∧ writer_ok F n' a' ∧
    blind (ID (transaction a)) s (ngc_rows n) (ngc_rows n').
Proof.
  intros Hn Hst Hw HF Ht Hid Hs Hk. unfold nt_delete. destruct (isUnCommitted a k) eqn:Eu.
  - unfold isUnCommitted, deletable in *. destruct (localTable a) as [l|] eqn:El; [|done]. apply bool_decide_eq_true in Eu. cbn [mbind option_bind].
    destruct (wr_local _ _ _ Hw l El) as [Hl Hso]. destruct (lookup_lt_is_Some_2 (local_flags (localGroups l)) (k - startOffset l)) as [b Hb]; [lia|].
    destruct (local_delete_spec l (k - startOffset l) b Hl Hb) as (l' & E & Hso' & Hl' & _). replace (startOffset l + (k - startOffset l)) with k in E by lia.
    rewrite E. cbn [mbind option_bind]. eexists _, _, _. split_and!; [done..| |done]. apply writer_with_local; [done|done|]. intros H. by rewrite Hso', Hso.
  - assert (k < length (ngc_rows n)) as Hlt.
    { unfold isUnCommitted, deletable in *. destruct (localTable a) as [l|] eqn:El; [|done]. destruct (wr_local _ _ _ Hw l El) as [_ Hso].
      apply bool_decide_eq_false in Eu. rewrite Hso in Eu by done. lia. }
    destruct (delete_table_ok F n a k _ Hn Hst Hw HF Ht Hid Hlt eq_refl) as (n' & u' & r & -> & H1 & H2 & H3 & H4 & _). cbn [mbind option_bind].
    eexists _, _, _. split_and!; [done..|]. by eapply blind_deleted.
Qed.

(** The deletions a commit of the transaction repeats: those of its local rows. *)
Definition pending (a : ActiveTransaction) : list bool := from_option (λ l, local_flags (localGroups l)) [] (localTable a).

Lemma own_rows_none t n u D : ngc_ok n → Forall strict (ngc_rows n) → tx_ok (ID t) (ngc_rows n) u (length (ngc_rows n)) D [] [] →
  own_rows t (ngc_rows n) (length (ngc_rows n)) D [] [] (n, u).
Proof.
  intros Hn Hs Htx. split; cbn [fst snd]; [done|done|done| |by exists []|].
  - rewrite firstn_all. apply Forall2_keep_refl.
  - intros i r Hr. apply lookup_lt_Some in Hr. lia.
Qed.

(** The rows of the table after the local rows are appended. *)
Lemma ls_commit_spec fuel F n a fails n' a' r : ngc_ok n → Forall strict (ngc_rows n) → writer_ok F n a → ID (transaction a) ∉ F →
  shouldAppendToUndoBuffer (transaction a) = true → versioned (ID (transaction a)) → snapshot_ok (startTS (transaction a)) (ID (transaction a)) →
  ls_commit fuel n a fails = Some (n', a', r) →
  transaction a' = transaction a ∧ (thrown r = true → localTable a' = localTable a) ∧
  ∃ D I, own_rows (transaction a) (ngc_rows n) (length (ngc_rows n) + length (pending a)) D I (pending a) (n', undoBuffer a').
Proof.
  intros Hn Hs [W1 (m & D & I & D2 & Htx & Hm & HF') W3] HF Ht Hid Hsn. destruct (HF' HF) as (-> & -> & ->). unfold ls_commit, pending.
  destruct (localTable a) as [l|] eqn:El; cbn [from_option].
  - destruct (nt_commit _ _ _ _ _) as [[n1 u1]|] eqn:E; [cbn [mbind option_bind]|done]. destruct (W3 l eq_refl) as [Hl _].
    destruct (local_ok_facts _ (transaction a) Hl Hsn) as (F1 & F2 & F3). apply (nt_commit_spec _ _ _ _ _ _ _ D) in E as [I HI]; [|done..].
    rewrite F2, F3 in HI. destruct fails; intros [= <- <- <-]; split_and!; cbn; eauto. done.
  - intros [= <- <- <-]. split_and!; [done|done|]. exists D, []. rewrite Nat.add_0_r. by apply own_rows_none.
Qed.

(** The versions of rows and of the transaction after its rows are appended. *)
Lemma row_versions_own t s old total D I flags st : own_rows t old total D I flags st → Forall (row_versions s (ID t)) old →
  Forall (row_versions s (ID t)) (ngc_rows st.1).
Proof.
  intros [_ _ Hl Hold [D2 Htx] Hfl] Hv. apply Forall_lookup_2. intros k r Hr. destruct (decide (k < length old)) as [Hk|Hk].
  - assert (take (length old) (ngc_rows st.1) !! k = Some r) as Hr' by (by apply lookup_take_Some).
    destruct (Forall2_lookup_r _ _ _ _ _ Hold Hr') as (r0 & Hr0 & K1 & K2 & _). unfold row_versions. rewrite K1, K2. by apply (Forall_lookup_1 _ _ _ _ Hv Hr0).
  - split; [right; apply (tk_rows _ _ _ _ _ _ _ Htx k r Hr); lia|]. destruct (tk_own _ _ _ _ _ _ _ Htx k r Hr) as [?| ?]; [lia|auto..].
Qed.

Lemma commit_throws_ok F n a a' n' total D I flags : writer_ok F n a → own_rows (transaction a) (ngc_rows n) total D I flags (n', undoBuffer a') →
  transaction a' = transaction a → localTable a' = localTable a → writer_ok (ID (transaction a) :: F) n' a'.
Proof.
  intros [W1 _ W3] Ho Ht Hl. split; rewrite ?Ht, ?Hl.
  - by eapply row_versions_own in Ho.
  - destruct Ho as [_ _ H3 Hold [D2 Htx] _]. eexists _, _, _, _. split_and!; [exact Htx| |set_solver]. apply Forall2_length in Hold. rewrite length_take in Hold. cbn in *. lia.
  - intros l Hll. split; [by apply (W3 l Hll)|set_solver].
Qed.

Lemma committed_strict w ts rows rows' : versioned ts → pointwise (λ _, committed_row w ts) rows rows' → Forall strict rows → Forall strict rows'.
Proof.
  intros Hts Hp Hs. apply Forall_lookup_2. intros k r' Hr'. destruct (pointwise_lookup_r _ _ _ _ _ Hp Hr') as (r & Hr & C1 & _ & _ & C4).
  destruct (Forall_lookup_1 _ _ _ _ Hs Hr) as [S1 S2]. unfold strict. rewrite C1. unfold rename. destruct (decide _); [split; [apply Hts|done]|auto].
Qed.

Lemma committed_versions w s ts rows rows' : (0 ≤ s ≤ ts)%Z → pointwise (λ _, committed_row w ts) rows rows' → Forall (row_versions s w) rows →
  Forall (row_versions ts ts) rows'.
Proof.
  intros Hs Hp Hv. apply Forall_lookup_2. intros k r' Hr'. destruct (pointwise_lookup_r _ _ _ _ _ Hp Hr') as (r & Hr & C1 & C2 & _).
  destruct (Forall_lookup_1 _ _ _ _ Hv Hr) as [V1 V2]. unfold row_versions. rewrite C1, C2. unfold rename. destruct (decide (r_ins r = w)), (decide (r_del r = w)); lia.
Qed.

Lemma rolled_back_strict w rows rows' : pointwise (λ _, rolled_back_row w) rows rows' → Forall strict rows → Forall strict rows'.
Proof.
  intros Hp Hs. apply Forall_lookup_2. intros k r' Hr'. destruct (pointwise_lookup_r _ _ _ _ _ Hp Hr') as (r & Hr & C1 & _ & _ & C4).
  destruct (Forall_lookup_1 _ _ _ _ Hs Hr) as [S1 S2]. unfold strict. rewrite C1. auto.
Qed.

Lemma rolled_back_versions w s ts m rows rows' : (0 ≤ s ≤ ts)%Z → (∀ k r, rows !! k = Some r → (m ≤ k ↔ r_ins r = w)) →
  pointwise (λ _, rolled_back_row w) (take m rows) rows' → Forall (row_versions s w) rows → Forall (row_versions ts ts) rows'.
Proof.
  intros Hs Hm Hp Hv. apply Forall_lookup_2. intros k r' Hr'. destruct (pointwise_lookup_r _ _ _ _ _ Hp Hr') as (r & Hr & C1 & C2 & _).
  apply lookup_take_Some in Hr as [Hr Hk]. destruct (Forall_lookup_1 _ _ _ _ Hv Hr) as [V1 V2]. unfold row_versions. rewrite C1, C2.
  assert (r_ins r ≠ w) by (intros H%(Hm k r Hr); lia). unfold rename. destruct (decide (r_del r = w)); [split; [|by left]|]; lia.
Qed.

Lemma commit_ok fuel F db a fails db' r : db_ok F db → a ∈ activeTransactions db → ID (transaction a) ∉ F →
  (lastTimestamp db + 1 < START_TRANSACTION_ID)%Z → commit fuel db a fails = Some (db', r) →
  db_ok (if thrown r then ID (transaction a) :: F else F) db' ∧ blind (ID (transaction a)) (lastTimestamp db) (ngc_rows (table db)) (ngc_rows (table db')).
Proof.
  intros Hdb Ha HF Hlim. unfold commit. destruct (ac_type _ _ (db_active _ _ Hdb a Ha)) as [Hr|Hw].
  { rewrite Hr. destruct (clear_reader F db a) as (db1 & -> & H1 & H2 & H3); [done..|congruence|]. cbn. intros [= <- <-]. split; [done|]. by rewrite H2. }
  rewrite Hw. destruct (writer_facts F db a Hdb Ha Hw) as (Ht & Hid & Hsn & Hs). destruct (db_counters _ _ Hdb) as [_ Hts].
  pose proof (db_writer _ _ Hdb a Ha Hw) as Hwr. rewrite u64_id by (unfold START_TRANSACTION_ID in *; lia). set (ts := (lastTimestamp db + 1)%Z) in *.
  unfold tx_commit. destruct (ls_commit _ _ _ _) as [[[n1 a1] r1]|] eqn:E; [cbn [mbind option_bind]|done].
  destruct (ls_commit_spec fuel F (table db) a fails n1 a1 r1) as (Ht1 & Hl1 & D & I & Ho); [apply Hdb|apply Hdb|done..|].
  pose proof (blind_own _ _ _ _ _ _ _ _ Hs Ho) as Hb1. cbn [fst] in Hb1. pose proof (row_versions_own _ _ _ _ _ _ _ _ Ho (wr_versions _ _ _ Hwr)) as Hv1. cbn [fst] in Hv1.
  destruct r1 as [[]|e]; cbn [mbind option_bind].
  - destruct Ho as [O1 O2 O3 O4 [D2 O5] _]. cbn [fst snd] in *.
    destruct (undo_commit_spec _ ts n1 _ _ _ _ _ O1 O5) as (n2 & -> & Hn2 & Hp2); [done|unfold versioned, START_TRANSACTION_ID, INVALID_TRANSACTION in *; lia|].
    cbn [mbind option_bind]. destruct (db_active _ _ Hdb a Ha) as [_ A2 _].
    destruct (clear_writer F db a a1 n2 ts) as (db2 & -> & H1 & H2 & _); [done..| |lia| |].
    + eapply committed_strict; [|done|done]. unfold versioned, START_TRANSACTION_ID, INVALID_TRANSACTION in *. lia.
    + eapply committed_versions; [|done|done]. lia.
    + cbn. intros [= <- <-]. split; [done|]. rewrite H2. etrans; [exact Hb1|]. eapply blind_committed; [done| |done]. lia.
  - intros [= <- <-]. cbn [thrown]. split; [|done]. destruct Ho as [O1 O2 O3 O4 O5 O6]. cbn [fst snd] in *.
    eapply update_ok; [done|exact Ha|done..|lia|]. eapply (commit_throws_ok F (table db)); [done|by split|done|by apply Hl1].
Qed.

Lemma rollback_ok F db a : db_ok F db → a ∈ activeTransactions db →
  ∃ db', rollback db a = Some (db', Ret ()) ∧ db_ok F db' ∧ blind (ID (transaction a)) (lastTimestamp db) (ngc_rows (table db)) (ngc_rows (table db')).
Proof.
  intros Hdb Ha. unfold rollback. destruct (ac_type _ _ (db_active _ _ Hdb a Ha)) as [Hr|Hw].
  { rewrite Hr. destruct (clear_reader F db a) as (db1 & -> & H1 & H2 & H3); [done..|congruence|]. cbn. eexists. split_and!; [done|done|]. by rewrite H2. }
  rewrite Hw. destruct (writer_facts F db a Hdb Ha Hw) as (Ht & Hid & Hsn & Hs). destruct (db_counters _ _ Hdb) as [_ Hts].
  destruct (db_writer _ _ Hdb a Ha Hw) as [W1 (m & D & I & D2 & Htx & Hm & _) _]. unfold tx_rollback. cbn [undoBuffer transaction].
  destruct (undo_rollback_spec _ (table db) _ _ _ _ _ (db_table _ _ Hdb) (db_strict _ _ Hdb) Htx Hid) as (n' & -> & Hn' & Hp). cbn [mbind option_bind].
  destruct (db_active _ _ Hdb a Ha) as [_ A2 _]. set (a' := mkActive _ _ _).
  destruct (clear_writer F db a a' n' (lastTimestamp db)) as (db2 & -> & H1 & H2 & _); [done..| |lia| |].
  - eapply rolled_back_strict; [done|]. apply Forall_take, Hdb.
  - eapply rolled_back_versions; [|apply (tk_rows _ _ _ _ _ _ _ Htx)|done|done]. lia.
  - cbn. eexists. split_and!; [done|done|]. rewrite H2. eapply blind_rolled_back; [done|apply (tk_rows _ _ _ _ _ _ _ Htx)|done].
Qed.

Lemma begin_ok F db ty db' r : db_ok F db → ty = READ_ONLY ∨ ty = WRITE → (lastTransactionID db + 1 < INVALID_TRANSACTION)%Z →
  beginTransaction false db ty = (db', r) → db_ok F db' ∧ table db' = table db.
Proof.
  intros Hdb Hty Hlim. unfold beginTransaction. destruct (db_counters _ _ Hdb) as [C1 C2].
  rewrite u64_id by (unfold START_TRANSACTION_ID, INVALID_TRANSACTION in *; lia). set (id := (lastTransactionID db + 1)%Z). set (t := mkTransaction ty id (lastTimestamp db)).
  assert ((ty = WRITE → hasActiveWriteTransactionNoLock db = false) →
    db_ok F (mkDatabase (table db) (activeTransactions db ++ [mkActive t None []]) id (lastTimestamp db))) as Hnew.
  { intros Hno. assert (ty = WRITE → ∀ b, b ∈ activeTransactions db → type (transaction b) ≠ WRITE) as Hno'.
    { intros Hw b Hb Hbw. specialize (Hno Hw). unfold hasActiveWriteTransactionNoLock in Hno. apply not_true_iff_false in Hno. apply Hno.
      apply existsb_exists. exists b. split; [by apply list_elem_of_In|]. unfold isWriteTransaction. by rewrite bool_decide_true. }
    split; cbn [table activeTransactions lastTransactionID lastTimestamp]; [apply Hdb|apply Hdb| | | | | |].
    - intros b [Hb| ->%list_elem_of_singleton]%elem_of_app; [destruct (db_active _ _ Hdb b Hb) as [A1 A2 A3]|]; split; cbn; try done; lia.
    - rewrite fmap_app. apply NoDup_app. split_and!; [apply Hdb| |by apply NoDup_singleton].
      intros x (b & -> & Hb)%list_elem_of_fmap. cbn. rewrite list_elem_of_singleton. intros He. destruct (db_active _ _ Hdb b Hb) as [A1 _ _]. lia.
    - lia.
    - intros b [Hb| ->%list_elem_of_singleton]%elem_of_app Hw; [by apply Hdb|]. cbn in Hw. pose proof (db_quiet _ _ Hdb (Hno' Hw)) as Hq. split; [|eexists _, [], [], []; split_and!|].
      + cbn. eapply Forall_impl; [exact Hq|]. intros x [V1 V2]. unfold row_versions. lia.
      + apply (tx_ok_start t). eapply Forall_impl; [exact Hq|]. intros x [V1 V2]. cbn. unfold START_TRANSACTION_ID, INVALID_TRANSACTION in *. lia.
      + done.
      + done.
      + done.
    - intros b c [Hb| ->%list_elem_of_singleton]%elem_of_app [Hc| ->%list_elem_of_singleton]%elem_of_app Hbw Hcw; [by apply Hdb| | |done]; exfalso.
      + by apply (Hno' Hcw b).
      + by apply (Hno' Hbw c).
    - intros Hq. apply Hdb. intros b Hb. apply Hq. set_solver. }
  destruct Hty as [->| ->]; [intros [= <- <-]; split; [by apply Hnew|done]|]. cbn [negb andb]. destruct (hasActiveWriteTransactionNoLock db); intros [= <- <-]; [done|].
  split; [by apply Hnew|done].
Qed.

(** ** Reachable states *)

(** The counters are 64-bit integers: IDs from [START_TRANSACTION_ID] on, timestamps below it. *)
Definition within_limits (db : Database) : Prop :=
  (lastTransactionID db + 1 < INVALID_TRANSACTION)%Z ∧ (lastTimestamp db + 1 < START_TRANSACTION_ID)%Z.

(** What clients do: read-only transactions do not write ([validateManualTransaction]), a transaction whose commit
    failed is rolled back ([runFuncInTransaction]), and only rows that exist are deleted. *)
Definition allowed (F : list Z) (db : Database) (act : action) : Prop :=
  match act with
  | Begin ty => ty = READ_ONLY ∨ ty = WRITE
  | Insert id _ _ => (id ∉ F) ∧ ∃ a, findTransaction db id = Some a ∧ type (transaction a) = WRITE
  | Delete id k => (id ∉ F) ∧ ∃ a, findTransaction db id = Some a ∧ type (transaction a) = WRITE ∧ deletable (table db) a k
  | Commit id _ => (id ∉ F) ∧ is_Some (findTransaction db id)
  | Rollback id => is_Some (findTransaction db id)
  end.

Definition failed (act : action) (threw : bool) (F : list Z) : list Z :=
  match act with Commit id _ => if threw then id :: F else F | _ => F end.

Inductive reach (fuel : nat) : Database → list Z → Prop :=
  | reach_init n : ngc_ok n → Forall strict (ngc_rows n) → Forall (row_versions 1 1) (ngc_rows n) → appendable n →
      reach fuel (mkDatabase n [] START_TRANSACTION_ID 1) []
  | reach_step db F act db' threw : reach fuel db F → within_limits db → allowed F db act → exec fuel db act = Some (db', threw) →
      reach fuel db' (failed act threw F).

Lemma step_ok fuel F db act db' threw : db_ok F db → within_limits db → allowed F db act → exec fuel db act = Some (db', threw) →
  db_ok (failed act threw F) db' ∧ ∀ w, (actor act = Some w ∨ actor act = None) → blind w (lastTimestamp db) (ngc_rows (table db)) (ngc_rows (table db')).
Proof.
  intros Hdb [L1 L2] Hal. destruct act as [ty|id pk un|id k|id fails|id]; cbn [exec actor failed] in *.
  - destruct (beginTransaction false db ty) as [db1 r] eqn:E. intros [= <- _]. apply (begin_ok F) in E as [H1 H2]; [|done..]. split; [done|]. intros w _. by rewrite H2.
  - destruct Hal as (HF & a & Ea & Hw). rewrite Ea. cbn [mbind option_bind]. apply findTransaction_spec in Ea as [Ha <-].
    destruct (insert_ok F (table db) a pk un (db_table _ _ Hdb) (db_writer _ _ Hdb a Ha Hw) HF) as (a' & r & -> & Ht & Hwr). cbn [mbind option_bind]. intros [= <- _].
    split; [|done]. destruct (db_counters _ _ Hdb). eapply update_ok; [done|exact Ha|done|done|apply Hdb|apply Hdb|lia|done].
  - destruct Hal as (HF & a & Ea & Hw & Hk). rewrite Ea. cbn [mbind option_bind]. apply findTransaction_spec in Ea as [Ha <-].
    destruct (writer_facts F db a Hdb Ha Hw) as (Ht & Hid & Hsn & Hs).
    destruct (delete_ok F (table db) a k (lastTimestamp db)) as (n' & a' & r & -> & Ht' & Hn' & Hs' & Hwr & Hb); [apply Hdb|apply Hdb|by apply Hdb|done|done|apply Hid|done|done|].
    cbn [mbind option_bind]. intros [= <- _]. destruct (db_counters _ _ Hdb). split; [eapply update_ok; [done|exact Ha|done..|lia|done]|]. by intros w [[= <-]|?].
  - destruct Hal as (HF & a & Ea). rewrite Ea. cbn [mbind option_bind]. apply findTransaction_spec in Ea as [Ha <-].
    destruct (commit fuel db a fails) as [[db1 r]|] eqn:E; [cbn [mbind option_bind]|done]. intros [= <- <-]. apply (commit_ok fuel F) in E as [H1 H2]; [|done..].
    split; [done|]. by intros w [[= <-]|?].
  - destruct Hal as (a & Ea). rewrite Ea. cbn [mbind option_bind]. apply findTransaction_spec in Ea as [Ha <-].
    destruct (rollback_ok F db a Hdb Ha) as (db1 & -> & H1 & H2). cbn [mbind option_bind]. intros [= <- <-]. split; [done|]. by intros w [[= <-]|?].
Qed.

Lemma reach_ok fuel db F : reach fuel db F → db_ok F db.
Proof.
  induction 1 as [n Hn Hs Hv Ha|db F act db' threw _ IH Hl Hal E].
  - split; cbn [table activeTransactions lastTransactionID lastTimestamp]; [done|done|by intros a ?%elem_of_nil|constructor|by vm_compute; split_and!|
      by intros a ?%elem_of_nil|by intros a b ?%elem_of_nil|done].
  - by apply (step_ok fuel F db act db' threw).
Qed.

(** Steps of other transactions than the one with ID [id]. *)
Inductive others (fuel : nat) (id : Z) : Database → list Z → Database → list Z → Prop :=
  | others_nil db F : others fuel id db F db F
  | others_step db F act db1 threw db2 F2 : within_limits db → allowed F db act → actor act ≠ Some id → exec fuel db act = Some (db1, threw) →
      others fuel id db1 (failed act threw F) db2 F2 → others fuel id db F db2 F2.

(** A transaction stays as it is while others act. *)
Lemma update_stays db n a ts b : b ∈ activeTransactions db → ID (transaction b) ≠ ID (transaction a) → b ∈ activeTransactions (update db n a ts).
Proof. intros Hb Hne. cbn. apply list_elem_of_fmap. exists b. by rewrite decide_False. Qed.

Lemma clear_stays db id db' b : clearTransactionNoLock db id = Some db' → b ∈ activeTransactions db → ID (transaction b) ≠ id → b ∈ activeTransactions db'.
Proof. unfold clearTransactionNoLock. destruct (existsb _ _); [|done]. intros [= <-] Hb Hne. by apply list_elem_of_filter. Qed.

Lemma tx_commit_transaction fuel n a ts fails n' a' r : tx_commit fuel n a ts fails = Some (n', a', r) → transaction a' = transaction a.
Proof.
  unfold tx_commit. destruct (ls_commit _ _ _ _) as [[[n1 a1] r1]|] eqn:E; [cbn [mbind option_bind]|done].
  assert (transaction a1 = transaction a) as Ht.
  { unfold ls_commit in E. destruct (localTable a); [|by injection E as <- <- <-]. destruct (nt_commit _ _ _ _ _) as [[n2 u2]|]; [cbn [mbind option_bind] in E|done].
    destruct fails; by injection E as <- <- <-. }
  destruct r1; [|by intros [= <- <- <-]]. destruct (undo_commit _ _ _); [cbn [mbind option_bind]|done]. by intros [= <- <- <-].
Qed.

Lemma commit_stays fuel db a fails db' r b : commit fuel db a fails = Some (db', r) → b ∈ activeTransactions db → Some (ID (transaction a)) ≠ Some (ID (transaction b)) →
  b ∈ activeTransactions db'.
Proof.
  intros E Hb Hne. assert (ID (transaction b) ≠ ID (transaction a)) as Hne' by congruence. unfold commit in E.
  destruct (type (transaction a)); try (by injection E as <- <-);
    try (destruct (clearTransactionNoLock _ _) eqn:Ec; [|done]; injection E as <- <-; by eapply clear_stays);
    (destruct (tx_commit _ _ _ _ _) as [[[n1 a1] r1]|] eqn:Et; [cbn [mbind option_bind] in E|done]); apply tx_commit_transaction in Et;
    (destruct r1; [destruct (clearTransactionNoLock _ _) eqn:Ec in E; [|done]|]); injection E as <- <-;
    try (eapply clear_stays; [exact Ec| |by rewrite Et]); apply update_stays; (done || by rewrite Et).
Qed.

Lemma rollback_stays db a db' r b : rollback db a = Some (db', r) → b ∈ activeTransactions db → Some (ID (transaction a)) ≠ Some (ID (transaction b)) →
  b ∈ activeTransactions db'.
Proof.
  intros E Hb Hne. assert (ID (transaction b) ≠ ID (transaction a)) as Hne' by congruence. unfold rollback in E.
  destruct (type (transaction a)); try (by injection E as <- <-);
    try (destruct (clearTransactionNoLock _ _) eqn:Ec; [|done]; injection E as <- <-; by eapply clear_stays); unfold tx_rollback in E;
    (destruct (undo_rollback _ _) as [n1|]; [cbn [mbind option_bind] in E|done]); (destruct (clearTransactionNoLock _ _) eqn:Ec in E; [|done]);
    injection E as <- <-; eapply clear_stays; try exact Ec; try done; by apply update_stays.
Qed.

Lemma active_stays fuel db act db' threw b : exec fuel db act = Some (db', threw) → b ∈ activeTransactions db → actor act ≠ Some (ID (transaction b)) →
  b ∈ activeTransactions db'.
Proof.
  intros E Hb Hne. destruct act as [ty|id pk un|id k|id fails|id]; cbn [exec actor] in *.
  - unfold beginTransaction in E. destruct ty; try (injection E as <- _; cbn; set_solver); destruct (_ && _); injection E as <- _; cbn; set_solver.
  - destruct (findTransaction db id) as [a|] eqn:Ea; [cbn [mbind option_bind] in E|done]. apply findTransaction_spec in Ea as [_ <-].
    unfold nt_insert in E. destruct pk; [injection E as <- _; apply update_stays; cbn; congruence|].
    destruct (local_insert _ _) as [[l r]|]; [cbn [mbind option_bind] in E|done]. injection E as <- _. apply update_stays; cbn; congruence.
  - destruct (findTransaction db id) as [a|] eqn:Ea; [cbn [mbind option_bind] in E|done]. apply findTransaction_spec in Ea as [_ <-].
    unfold nt_delete in E. destruct (isUnCommitted a k).
    + destruct (localTable a) as [l|]; [cbn [mbind option_bind] in E|done]. destruct (local_delete_ _ _) as [[l' r]|]; [cbn [mbind option_bind] in E|done].
      injection E as <- _. apply update_stays; cbn; congruence.
    + destruct (nt_delete_ _ _ _ _) as [[[n u] r]|]; [cbn [mbind option_bind] in E|done]. injection E as <- _. apply update_stays; cbn; congruence.
  - destruct (findTransaction db id) as [a|] eqn:Ea; [cbn [mbind option_bind] in E|done]. apply findTransaction_spec in Ea as [_ <-].
    destruct (commit fuel db a fails) as [[db1 r]|] eqn:Ec; [cbn [mbind option_bind] in E|done]. injection E as <- _. by eapply commit_stays.
  - destruct (findTransaction db id) as [a|] eqn:Ea; [cbn [mbind option_bind] in E|done]. apply findTransaction_spec in Ea as [_ <-].
    destruct (rollback db a) as [[db1 r]|] eqn:Ec; [cbn [mbind option_bind] in E|done]. injection E as <- _. by eapply rollback_stays.
Qed.

Lemma step_view fuel F db act db' threw t : db_ok F db → within_limits db → allowed F db act → exec fuel db act = Some (db', threw) →
  (0 ≤ startTS t ≤ lastTimestamp db)%Z → (START_TRANSACTION_ID < ID t < INVALID_TRANSACTION)%Z → actor act ≠ Some (ID t) →
  visible (table db') t = visible (table db) t.
Proof.
  intros Hdb Hl Hal E Hst Hid Hne. destruct (step_ok fuel F db act db' threw Hdb Hl Hal E) as [Hdb' Hb]. destruct (db_counters _ _ Hdb).
  set (w := default (ID t + 1)%Z (actor act)). assert (other w (lastTimestamp db) t) as Ho.
  { split_and!; [lia..|]. unfold w. destruct (actor act) as [x|]; cbn; [|lia]. congruence. }
  apply visible_ext; [apply Hdb|apply Hdb'|eapply other_snapshot; [|exact Ho]; lia|]. apply (Hb w); [|done]. unfold w. by destruct (actor act); [left|right].
Qed.

Lemma others_view fuel id F db F' db' a : db_ok F db → a ∈ activeTransactions db → ID (transaction a) = id → others fuel id db F db' F' →
  a ∈ activeTransactions db' ∧ visible (table db') (transaction a) = visible (table db) (transaction a).
Proof.
  intros Hdb Ha Hid Ho. revert Hdb Ha. induction Ho as [db F|db F act db1 threw db2 F2 Hl Hal Hne E _ IH]; intros Hdb Ha; [done|].
  destruct (db_active _ _ Hdb a Ha) as [A1 A2 _]. destruct (db_counters _ _ Hdb) as [C1 _].
  pose proof (step_view fuel F db act db1 threw (transaction a) Hdb Hl Hal E ltac:(lia) ltac:(lia) ltac:(by rewrite Hid)) as Hv. rewrite <-Hid in Hne.
  destruct IH as [H1 H2]; [by apply (step_ok fuel F db act db1 threw)|by eapply active_stays|]. split; [done|congruence].
Qed.

(** The rows a commit makes visible. *)
Definition inserted_rows (start : nat) (flags : list bool) : list nat := (λ i, start + i) <$> filter (λ i, flags !! i = Some false) (seq 0 (length flags)).

(** A later snapshot sees a committed version when the writer saw it. *)
Lemma committed_seen w s ts idt x : (0 ≤ s < ts)%Z → (ts < START_TRANSACTION_ID < w)%Z → (w < idt < INVALID_TRANSACTION)%Z →
  x = INVALID_TRANSACTION ∨ (0 ≤ x ≤ s)%Z ∨ x = w → version_seen ts idt (rename w ts x) = version_seen s w x.
Proof.
  intros Hs Hts Hid Hx. unfold rename, version_seen, START_TRANSACTION_ID, INVALID_TRANSACTION in *. destruct (decide (x = w)) as [->|Hne].
  - rewrite (bool_decide_true (w = w)) by done. rewrite (bool_decide_true (ts ≤ ts)%Z) by lia. apply orb_true_r.
  - rewrite (bool_decide_false (x = idt)), (bool_decide_false (x = w)) by lia. apply bool_decide_ext. lia.
Qed.

Lemma committed_sees w s ts t r r' : (0 ≤ s < ts)%Z → (ts < START_TRANSACTION_ID < w)%Z → (w < ID t < INVALID_TRANSACTION)%Z → startTS t = ts →
  row_versions s w r → committed_row w ts r r' → sees t r' = sees (mkTransaction WRITE w s) r.
Proof.
  intros Hs Hts Hid Hst [V1 V2] (C1 & C2 & _). unfold sees, row_visible. cbn [fst snd startTS ID].
  rewrite C1, C2, Hst, !(committed_seen w s) by (done || tauto). done.
Qed.

(** The rows of the table after a commit. *)
Lemma commit_rows fuel F db a db' : db_ok F db → a ∈ activeTransactions db → type (transaction a) = WRITE → ID (transaction a) ∉ F →
  (lastTimestamp db + 1 < START_TRANSACTION_ID)%Z → commit fuel db a false = Some (db', Ret ()) →
  lastTimestamp db' = (lastTimestamp db + 1)%Z ∧ ngc_ok (table db') ∧
  ∃ D I n1 u1, own_rows (transaction a) (ngc_rows (table db)) (length (ngc_rows (table db)) + length (pending a)) D I (pending a) (n1, u1) ∧
    Forall (row_versions (startTS (transaction a)) (ID (transaction a))) (ngc_rows n1) ∧
    pointwise (λ _, committed_row (ID (transaction a)) (lastTimestamp db + 1)) (ngc_rows n1) (ngc_rows (table db')).
Proof.
  intros Hdb Ha Hw HF Hlim. destruct (writer_facts F db a Hdb Ha Hw) as (Ht & Hid & Hsn & Hs). destruct (db_counters _ _ Hdb) as [_ Hts].
  pose proof (db_writer _ _ Hdb a Ha Hw) as Hwr. destruct (db_active _ _ Hdb a Ha) as [A1 A2 _]. unfold commit. rewrite Hw, u64_id by (unfold START_TRANSACTION_ID in *; lia).
  set (ts := (lastTimestamp db + 1)%Z) in *. unfold tx_commit. destruct (ls_commit _ _ _ _) as [[[n1 a1] r1]|] eqn:E; [cbn [mbind option_bind]|done].
  destruct (ls_commit_spec fuel F (table db) a false n1 a1 r1) as (Ht1 & _ & D & I & Ho); [apply Hdb|apply Hdb|done..|].
  pose proof (row_versions_own _ _ _ _ _ _ _ _ Ho (wr_versions _ _ _ Hwr)) as Hv1. pose proof Ho as [O1 O2 O3 O4 [D2 O5] O6]. cbn [fst snd] in *.
  destruct r1 as [[]|e]; cbn [mbind option_bind]; [|done].
  destruct (undo_commit_spec _ ts n1 _ _ _ _ _ O1 O5) as (n2 & -> & Hn2 & Hp2); [done|unfold versioned, START_TRANSACTION_ID, INVALID_TRANSACTION in *; lia|].
  cbn [mbind option_bind]. assert (versioned ts) as Hvts by (unfold versioned, START_TRANSACTION_ID, INVALID_TRANSACTION in *; lia).
  destruct (clear_writer F db a a1 n2 ts) as (db2 & -> & _ & H2 & H3); [done..|by eapply committed_strict|lia|eapply committed_versions; [|done|done]; lia|].
  cbn. intros [= <-]. rewrite H2. split_and!; [done|done|]. by exists D, I, n1, (undoBuffer a1).
Qed.

Lemma visible_commit fuel F db a db' t : db_ok F db → a ∈ activeTransactions db → type (transaction a) = WRITE → ID (transaction a) ∉ F →
  (lastTimestamp db + 1 < START_TRANSACTION_ID)%Z → commit fuel db a false = Some (db', Ret ()) → startTS t = lastTimestamp db' →
  (lastTransactionID db < ID t < INVALID_TRANSACTION)%Z →
  visible (table db') t = visible (table db) (transaction a) ++ inserted_rows (length (ngc_rows (table db))) (pending a).
Proof.
  intros Hdb Ha Hw HF Hlim E Hst HidT. destruct (writer_facts F db a Hdb Ha Hw) as (Ht & Hid & Hsn & Hs). destruct (db_counters _ _ Hdb) as [_ Hts].
  destruct (db_active _ _ Hdb a Ha) as [A1 A2 _]. destruct (commit_rows fuel F db a db') as (H3 & Hn2 & D & I & n1 & u1 & [O1 O2 O3 O4 [D2 O5] O6] & Hv1 & Hp2); [done..|].
  cbn [fst snd] in *. rewrite H3 in Hst. set (ts := (lastTimestamp db + 1)%Z) in *.
  assert (snapshot_ok (startTS t) (ID t)) as Hsnt by (unfold snapshot_ok, START_TRANSACTION_ID, INVALID_TRANSACTION in *; lia).
  rewrite (visible_rows (table db') t), (visible_rows (table db)) by (done || apply Hdb). rewrite (proj1 Hp2), O3, seq_app, filter_app. f_equal.
  - apply Prelude.filter_ext_in, Forall_seq. intros k Hk. destruct (lookup_lt_is_Some_2 (ngc_rows (table db)) k) as [r0 Hr0]; [lia|].
    apply Forall2_same_length_lookup in O4 as [L4 O4]. destruct (lookup_lt_is_Some_2 (take (length (ngc_rows (table db))) (ngc_rows n1)) k) as [r1 Hr1]; [rewrite <-L4; lia|].
    destruct (O4 k r0 r1 Hr0 Hr1) as (K1 & K2 & _). apply lookup_take_Some in Hr1 as [Hr1 _]. destruct (pointwise_lookup_l _ _ _ _ _ Hp2 Hr1) as (r2 & Hr2 & Hc).
    unfold seen. rewrite Hr0, Hr2. cbn. rewrite (committed_sees (ID (transaction a)) (startTS (transaction a)) ts t r1 r2); [|lia|lia|lia|done|by apply (Forall_lookup_1 _ _ _ _ Hv1 Hr1)|done].
    unfold sees. cbn. by rewrite K1, K2.
  - unfold inserted_rows. replace (0 + length (ngc_rows (table db))) with (length (ngc_rows (table db)) + 0) by lia. rewrite <-fmap_add_seq, filter_fmap. f_equal.
    apply Prelude.filter_ext_in, Forall_seq. intros i Hi. cbn. destruct (lookup_lt_is_Some_2 (ngc_rows n1) (length (ngc_rows (table db)) + i)) as [r1 Hr1]; [lia|].
    destruct (pointwise_lookup_l _ _ _ _ _ Hp2 Hr1) as (r2 & Hr2 & Hc). unfold seen. rewrite Hr2. cbn.
    rewrite (committed_sees (ID (transaction a)) (startTS (transaction a)) ts t r1 r2); [|lia|lia|lia|done|by apply (Forall_lookup_1 _ _ _ _ Hv1 Hr1)|done].
    unfold sees, row_visible. cbn [fst snd startTS ID]. rewrite (O6 _ _ Hr1), (proj1 (tk_rows _ _ _ _ _ _ _ O5 _ r1 Hr1)) by lia.
    assert (∀ s w, version_seen s w w = true) as Hown by (intros s w; unfold version_seen; by rewrite bool_decide_true).
    destruct (lookup_lt_is_Some_2 (pending a) i) as [b Hb]; [lia|]. rewrite Hb, Hown. unfold deletion_version.
    destruct b; [rewrite decide_True, Hown by done|rewrite decide_False, seen_invalid by done]; split; done.
Qed.

(** ** Deletions by the writer *)

Lemma visible_delete F db a k : db_ok F db → a ∈ activeTransactions db → type (transaction a) = WRITE → ID (transaction a) ∉ F →
  k ∈ visible (table db) (transaction a) → ∃ n' a', nt_delete (table db) a k = Some (n', a', Ret true) ∧
    visible n' (transaction a) = filter (λ j, j ≠ k) (visible (table db) (transaction a)).
Proof.
  intros Hdb Ha Hw HF Hk. destruct (writer_facts F db a Hdb Ha Hw) as (Ht & Hid & Hsn & Hs). pose proof (db_writer _ _ Hdb a Ha Hw) as Hwr.
  rewrite visible_rows in Hk by (done || apply Hdb). apply list_elem_of_filter in Hk as [Hseen Hk]. apply elem_of_seq in Hk as [_ Hk]. cbn in Hk.
  destruct (lookup_lt_is_Some_2 (ngc_rows (table db)) k Hk) as [r Hr]. unfold seen in Hseen. rewrite Hr in Hseen. cbn in Hseen.
  assert (r_del r = INVALID_TRANSACTION) as Hdel.
  { destruct (Forall_lookup_1 _ _ _ _ (wr_versions _ _ _ Hwr) Hr) as [_ [Hd|Hd]]; [done|]. unfold sees, row_visible, version_seen in Hseen. cbn [fst snd] in Hseen.
    apply andb_true_iff in Hseen as [_ Hn]. apply negb_true_iff, orb_false_iff in Hn as [N1 N2]. apply bool_decide_eq_false in N1, N2. lia. }
  unfold nt_delete. assert (isUnCommitted a k = false) as ->.
  { unfold isUnCommitted. destruct (localTable a) as [l|] eqn:El; [|done]. destruct (wr_local _ _ _ Hwr l El) as [_ Hso]. apply bool_decide_eq_false. rewrite Hso by done. lia. }
  destruct (delete_table_ok F (table db) a k _ (db_table _ _ Hdb) (db_strict _ _ Hdb) Hwr HF Ht (proj2 Hsn) Hk eq_refl) as (n' & u' & x & -> & Hn' & _ & _ & Hp & Hres).
  cbn [mbind option_bind]. rewrite (Hres r Hr), Hdel. unfold delete_result. rewrite decide_False, decide_True by (done || intros E; by destruct Hid).
  eexists _, _. split; [done|]. rewrite !visible_rows by (done || apply Hdb). rewrite (proj1 Hp), list_filter_filter. apply Prelude.filter_ext_in, Forall_seq. intros j Hj.
  destruct (lookup_lt_is_Some_2 (ngc_rows (table db)) j) as [r0 Hr0]; [lia|]. destruct (pointwise_lookup_l _ _ _ _ _ Hp Hr0) as (r1 & Hr1 & Hd).
  unfold seen. rewrite Hr0, Hr1. cbn. unfold deleted_at in Hd. unfold sees, row_visible. cbn [fst snd]. destruct (decide (j = k)) as [->|Hne].
  - destruct Hd as (D1 & D2 & _). simplify_eq. rewrite D2, Hdel, decide_True by done. unfold version_seen at 2. rewrite bool_decide_true by done. cbn. rewrite andb_false_r. naive_solver.
  - destruct Hd as (D1 & D2 & _). rewrite D1, D2. naive_solver.
Qed.

(** ** Progress *)

Lemma rollback_deletes_counts u n n' : Forall (λ rec, recordType rec = DELETE_INFO) (iterate u) → undo_rollback u n = Some n' → same_counts n n'.
Proof.
  intros Hd E. unfold undo_rollback in E. rewrite reverseIterate_spec in E.
  eapply (ofold_partial _ (λ _ n', same_counts n n')) in E; [done|reflexivity|]. intros dn rec rest n1 n2 El H1 H2. etrans; [exact H1|].
  assert (recordType rec = DELETE_INFO) as Hrec.
  { rewrite Forall_forall in Hd. apply Hd. rewrite <-(reverse_involutive (iterate u)), elem_of_reverse, El. set_solver. }
  unfold rollbackVersionInfo in H2. rewrite Hrec in H2. by eapply nt_apply_counts.
Qed.

Lemma writer_records F n a : writer_ok F n a → ID (transaction a) ∉ F → Forall (λ rec, recordType rec = DELETE_INFO) (iterate (undoBuffer a)).
Proof.
  intros [_ (m & D & I & D2 & [T1 _ _ [T4 _] _ _] & _ & HF') _] HF. destruct (HF' HF) as (_ & -> & ->). rewrite T1, !app_nil_r in *. rewrite Forall_forall.
  intros rec Hrec. by destruct (T4 rec Hrec) as (k & r & (H & _) & _).
Qed.

Lemma ls_commit_total fuel F n a fails : ngc_ok n → Forall strict (ngc_rows n) → appendable n → writer_ok F n a → ID (transaction a) ∉ F →
  shouldAppendToUndoBuffer (transaction a) = true → versioned (ID (transaction a)) → snapshot_ok (startTS (transaction a)) (ID (transaction a)) →
  CHUNKED_NODE_GROUP_CAPACITY ≤ fuel → ∃ n' a' r, ls_commit fuel n a fails = Some (n', a', r) ∧ appendable n'.
Proof.
  intros Hn Hs Happ [W1 (m & D & I & D2 & Htx & Hm & HF') W3] HF Ht Hid Hsn Hfuel. destruct (HF' HF) as (-> & -> & ->). unfold ls_commit.
  destruct (localTable a) as [l|] eqn:El; [|by eexists _, _, _]. destruct (W3 l eq_refl) as [Hl _].
  destruct (nt_commit_local fuel n (transaction a) (localGroups l) (undoBuffer a) D) as (n' & u' & -> & Ha'); [done..|]. cbn [mbind option_bind].
  destruct fails; by eexists _, _, _.
Qed.

Lemma commit_total fuel F db a fails : db_ok F db → a ∈ activeTransactions db → ID (transaction a) ∉ F → (lastTimestamp db + 1 < START_TRANSACTION_ID)%Z →
  appendable (table db) → CHUNKED_NODE_GROUP_CAPACITY ≤ fuel → ∃ db' r, commit fuel db a fails = Some (db', r) ∧ appendable (table db').
Proof.
  intros Hdb Ha HF Hlim Happ Hfuel. unfold commit. destruct (ac_type _ _ (db_active _ _ Hdb a Ha)) as [Hr|Hw].
  { rewrite Hr. destruct (clear_reader F db a) as (db1 & -> & _ & H2 & _); [done..|congruence|]. cbn. eexists _, _. split; [done|]. by rewrite H2. }
  rewrite Hw. destruct (writer_facts F db a Hdb Ha Hw) as (Ht & Hid & Hsn & Hs). destruct (db_counters _ _ Hdb) as [_ Hts].
  pose proof (db_writer _ _ Hdb a Ha Hw) as Hwr. rewrite u64_id by (unfold START_TRANSACTION_ID in *; lia). set (ts := (lastTimestamp db + 1)%Z) in *.
  unfold tx_commit. destruct (ls_commit_total fuel F (table db) a fails) as (n1 & a1 & r1 & E & Ha1); [apply Hdb|apply Hdb|done..|]. rewrite E. cbn [mbind option_bind].
  destruct (ls_commit_spec fuel F (table db) a fails n1 a1 r1) as (Ht1 & Hl1 & D & I & [O1 O2 O3 O4 [D2 O5] O6]); [apply Hdb|apply Hdb|done..|].
  destruct r1 as [[]|e]; cbn [mbind option_bind fst snd] in *; [|by eexists _, _].
  destruct (undo_commit_spec _ ts n1 _ _ _ _ _ O1 O5) as (n2 & E2 & _); [done|unfold versioned, START_TRANSACTION_ID, INVALID_TRANSACTION in *; lia|].
  rewrite E2. cbn [mbind option_bind]. rewrite clear_spec by (apply (update_elem F db n2 a a1 ts a1 Hdb Ha); [by rewrite Ht1|by left]). cbn.
  eexists _, _. split; [done|]. cbn. eapply same_counts_appendable; [by eapply undo_commit_counts|done].
Qed.

Lemma rollback_appendable F db a db' r : db_ok F db → a ∈ activeTransactions db → ID (transaction a) ∉ F → appendable (table db) →
  rollback db a = Some (db', r) → appendable (table db').
Proof.
  intros Hdb Ha HF Happ. unfold rollback. destruct (ac_type _ _ (db_active _ _ Hdb a Ha)) as [Hr|Hw].
  { rewrite Hr. destruct (clear_reader F db a) as (db1 & -> & _ & H2 & _); [done..|congruence|]. cbn. intros [= <- _]. by rewrite H2. }
  rewrite Hw. unfold tx_rollback. cbn [undoBuffer]. destruct (undo_rollback _ _) as [n'|] eqn:E; [cbn [mbind option_bind]|done].
  rewrite clear_spec by (eapply update_elem; [done|exact Ha|done|by left]). cbn. intros [= <- _]. cbn.
  eapply same_counts_appendable; [|done]. eapply rollback_deletes_counts; [|exact E]. eapply writer_records; [by apply Hdb|done].
Qed.

Lemma exec_total fuel db act : db_ok [] db → within_limits db → allowed [] db act → appendable (table db) → CHUNKED_NODE_GROUP_CAPACITY ≤ fuel →
  ∃ db' threw, exec fuel db act = Some (db', threw) ∧ appendable (table db').
Proof.
  intros Hdb [L1 L2] Hal Happ Hfuel. destruct act as [ty|id pk un|id k|id fails|id]; cbn [exec] in *.
  - destruct (beginTransaction false db ty) as [db1 r] eqn:E. eexists _, _. split; [done|]. apply (begin_ok []) in E as [_ ->]; done.
  - destruct Hal as (HF & a & Ea & Hw). rewrite Ea. cbn [mbind option_bind]. apply findTransaction_spec in Ea as [Ha <-].
    destruct (insert_ok [] (table db) a pk un (db_table _ _ Hdb) (db_writer _ _ Hdb a Ha Hw) HF) as (a' & r & -> & _). cbn [mbind option_bind]. by eexists _, _.
  - destruct Hal as (HF & a & Ea & Hw & Hk). rewrite Ea. cbn [mbind option_bind]. apply findTransaction_spec in Ea as [Ha <-].
    destruct (writer_facts [] db a Hdb Ha Hw) as (Ht & Hid & Hsn & Hs).
    destruct (delete_ok [] (table db) a k (lastTimestamp db)) as (n' & a' & r & E & _); [apply Hdb|apply Hdb|by apply Hdb|done|done|apply Hid|done|done|].
    rewrite E. cbn [mbind option_bind]. eexists _, _. split; [done|]. cbn. eapply same_counts_appendable; [|done]. unfold nt_delete in E. destruct (isUnCommitted a k).
    + destruct (localTable a) as [l|]; [cbn [mbind option_bind] in E|done]. destruct (local_delete_ _ _) as [[l' x]|]; [cbn [mbind option_bind] in E|done].
      injection E as <- <- <-. reflexivity.
    + destruct (nt_delete_ _ _ _ _) as [[[n1 u1] x]|] eqn:E1; [cbn [mbind option_bind] in E|done]. injection E as <- <- <-. by eapply nt_delete_counts.
  - destruct Hal as (HF & a & Ea). rewrite Ea. cbn [mbind option_bind]. apply findTransaction_spec in Ea as [Ha <-].
    destruct (commit_total fuel [] db a fails) as (db' & r & -> & Ha'); [done..|]. cbn [mbind option_bind]. by eexists _, _.
  - destruct Hal as (a & Ea). rewrite Ea. cbn [mbind option_bind]. apply findTransaction_spec in Ea as [Ha _].
    destruct (rollback_ok [] db a Hdb Ha) as (db1 & E & _). rewrite E. cbn [mbind option_bind]. eexists _, _. split; [done|]. eapply (rollback_appendable []); [done|done|set_solver|done|done].
Qed.

Lemma reach_appendable fuel db F : CHUNKED_NODE_GROUP_CAPACITY ≤ fuel → reach fuel db F → F = [] → appendable (table db).
Proof.
  intros Hfuel. induction 1 as [n Hn Hs Hv Ha|db F act db' threw Hr IH Hl Hal E]; intros HF; [done|].
  assert (F = []) as -> by (destruct act; cbn in HF; try done; destruct threw; done). specialize (IH eq_refl). pose proof (reach_ok _ _ _ Hr) as Hdb.
  destruct (exec_total fuel db act) as (db2 & th2 & E2 & H2); [done..|]. rewrite E in E2. by injection E2 as <- <-.
Qed.

(** The writer is gone after its rollback. *)
Lemma rollback_active F db a db' r b : db_ok F db → a ∈ activeTransactions db → type (transaction a) = WRITE → rollback db a = Some (db', r) →
  b ∈ activeTransactions db' → b ∈ activeTransactions db ∧ ID (transaction b) ≠ ID (transaction a).
Proof.
  intros Hdb Ha Hw. unfold rollback. rewrite Hw. unfold tx_rollback. destruct (undo_rollback _ _) as [n'|]; [cbn [mbind option_bind]|done].
  set (a' := mkActive _ _ _). rewrite clear_spec by (apply (update_elem F db n' a a' (lastTimestamp db) a' Hdb Ha); [done|by left]). cbn [mbind option_bind]. intros [= <- _].
  cbn [activeTransactions]. rewrite list_elem_of_filter. intros [Hne Hb]. apply (update_elem F db n' a a' (lastTimestamp db) b Hdb Ha) in Hb as [->|Hb]; done.
Qed.

Lemma rollback_rows F db a db' r : db_ok F db → db_ok F db' → a ∈ activeTransactions db → type (transaction a) = WRITE → rollback db a = Some (db', r) →
  Forall (λ x, r_ins x ≠ ID (transaction a) ∧ r_del x ≠ ID (transaction a)) (ngc_rows (table db')).
Proof.
  intros Hdb Hdb' Ha Hw E. destruct (writer_facts F db a Hdb Ha Hw) as (_ & [_ Hid] & _ & Hs). destruct (db_counters _ _ Hdb') as [_ C2].
  assert (∀ b, b ∈ activeTransactions db' → type (transaction b) ≠ WRITE) as Hq.
  { intros b Hb Hbw. destruct (rollback_active F db a db' r b Hdb Ha Hw E Hb) as [Hb' Hne]. apply Hne. by rewrite (db_single _ _ Hdb a b). }
  eapply Forall_impl; [exact (db_quiet _ _ Hdb' Hq)|]. intros x [V1 V2]. lia.
Qed.

Lemma begin_snapshot multi db ty db' t : beginTransaction multi db ty = (db', Ret t) →
  table db' = table db ∧ t = mkTransaction ty (u64 (lastTransactionID db + 1)) (lastTimestamp db) ∧ startTS t = lastTimestamp db.
Proof. unfold beginTransaction. destruct ty, multi, (hasActiveWriteTransactionNoLock db); cbn; by intros [= <- <-]. Qed.

Lemma clear_lastID db id db' : clearTransactionNoLock db id = Some db' → lastTransactionID db' = lastTransactionID db.
Proof. unfold clearTransactionNoLock. destruct (existsb _ _); [|done]. by intros [= <-]. Qed.

Lemma commit_lastID fuel db a fails db' r : commit fuel db a fails = Some (db', r) → lastTransactionID db' = lastTransactionID db.
Proof.
  unfold commit. destruct (type (transaction a)); try (by intros [= <- _]);
    try (destruct (clearTransactionNoLock _ _) eqn:E; [|done]; intros [= <- _]; by eapply clear_lastID);
    (destruct (tx_commit _ _ _ _ _) as [[[n1 a1] [|]]|]; cbn [mbind option_bind]; [|by intros [= <- _]|done]);
    (destruct (clearTransactionNoLock _ _) eqn:E; [|done]); intros [= <- _]; by apply clear_lastID in E.
Qed.

(** ** The properties of transactions *)

(** C14. Snapshots are stable: while other transactions begin, insert, delete, commit (successfully or not) and roll back,
    an active transaction stays active and the rows of the table it sees stay the same. *)
Theorem snapshot_isolation (fuel : nat) (db db' : Database) (F F' : list Z) (a : ActiveTransaction) :
  reach fuel db F → a ∈ activeTransactions db → others fuel (ID (transaction a)) db F db' F' →
  a ∈ activeTransactions db' ∧ visible (table db') (transaction a) = visible (table db) (transaction a).
Proof. intros Hr Ha Ho. by eapply others_view; [eapply reach_ok| | |]. Qed.

(** C15. A commit becomes visible as a whole: a transaction that begins after it sees exactly the rows the writer saw
    before its commit, and the rows the writer inserted and did not delete. *)
Theorem commit_becomes_visible (fuel : nat) (db db1 db2 : Database) (F : list Z) (a : ActiveTransaction) (ty : TransactionType) (t : Transaction) :
  reach fuel db F → within_limits db → a ∈ activeTransactions db → type (transaction a) = WRITE → ID (transaction a) ∉ F →
  commit fuel db a false = Some (db1, Ret ()) → beginTransaction false db1 ty = (db2, Ret t) →
  visible (table db2) t = visible (table db) (transaction a) ++ inserted_rows (numTotalRows (table db)) (pending a).
Proof.
  intros Hr [L1 L2] Ha Hw HF E Eb. pose proof (reach_ok _ _ _ Hr) as Hdb. rewrite (gk_total _ (db_table _ _ Hdb)).
  destruct (begin_snapshot false db1 ty db2 t Eb) as (-> & -> & Hst). eapply visible_commit; [done..| |].
  - by rewrite Hst.
  - cbn [ID]. rewrite (commit_lastID fuel db a false db1 _ E). destruct (db_counters _ _ Hdb). rewrite u64_id; unfold START_TRANSACTION_ID, INVALID_TRANSACTION in *; lia.
Qed.

(** C16. A rollback always succeeds and leaves nothing of its transaction: no row has a version of it, and every other
    transaction, active or to come, sees the rows it saw before. *)
Theorem rollback_leaves_nothing (fuel : nat) (db : Database) (F : list Z) (a : ActiveTransaction) :
  reach fuel db F → a ∈ activeTransactions db → type (transaction a) = WRITE →
  ∃ db', rollback db a = Some (db', Ret ()) ∧ (a ∉ activeTransactions db') ∧
    Forall (λ r, r_ins r ≠ ID (transaction a) ∧ r_del r ≠ ID (transaction a)) (ngc_rows (table db')) ∧
    ∀ t, other (ID (transaction a)) (lastTimestamp db) t → visible (table db') t = visible (table db) t.
Proof.
  intros Hr Ha Hw. pose proof (reach_ok _ _ _ Hr) as Hdb. destruct (rollback_ok F db a Hdb Ha) as (db' & E & Hdb' & Hb). exists db'. split_and!; [done| | |].
  - intros Hin. by destruct (rollback_active F db a db' _ a Hdb Ha Hw E Hin).
  - by apply (rollback_rows F db a db' (Ret ())).
  - intros t Ht. destruct (db_counters _ _ Hdb). apply visible_ext; [apply Hdb|apply Hdb'|eapply other_snapshot; [|exact Ht]; lia|by apply Hb].
Qed.

(** C18. Where several writers are not enabled ([enableMultiWrites] is false in every call of [beginTransaction]) and the
    counters of transactions and commits are within their limits, there is at most one write transaction in every reachable
    state: beginning one throws [TransactionManagerException] and changes nothing exactly when another one is active, and else
    starts a transaction with a new ID and the last commit as its snapshot. *)
Theorem one_writer (fuel : nat) (db : Database) (F : list Z) : reach fuel db F → within_limits db →
  (∀ a b, a ∈ activeTransactions db → b ∈ activeTransactions db → type (transaction a) = WRITE → type (transaction b) = WRITE → a = b) ∧
  beginTransaction false db WRITE =
    if decide (Exists (λ a, type (transaction a) = WRITE) (activeTransactions db)) then (db, Throw TransactionManagerException)
    else let t := mkTransaction WRITE (lastTransactionID db + 1) (lastTimestamp db) in
      (mkDatabase (table db) (activeTransactions db ++ [mkActive t None []]) (lastTransactionID db + 1) (lastTimestamp db), Ret t).
Proof.
  intros Hr [L1 L2]. pose proof (reach_ok _ _ _ Hr) as Hdb. split; [apply Hdb|]. destruct (db_counters _ _ Hdb) as [C1 _]. unfold beginTransaction.
  rewrite u64_id by (unfold START_TRANSACTION_ID, INVALID_TRANSACTION in *; lia). cbn [negb andb].
  assert (hasActiveWriteTransactionNoLock db = true ↔ Exists (λ a, type (transaction a) = WRITE) (activeTransactions db)) as Hw.
  { unfold hasActiveWriteTransactionNoLock. rewrite existsb_exists, Exists_exists. by setoid_rewrite <-list_elem_of_In; setoid_rewrite bool_decide_eq_true. }
  destruct (hasActiveWriteTransactionNoLock db); [rewrite decide_True by tauto|rewrite decide_False by (intros ?%Hw; done)]; done.
Qed.

(** The deletion of a row the writer sees succeeds, and then the writer sees its other rows and not this one. *)
Theorem writer_deletes_row (fuel : nat) (db : Database) (F : list Z) (a : ActiveTransaction) (k : nat) :
  reach fuel db F → a ∈ activeTransactions db → type (transaction a) = WRITE → ID (transaction a) ∉ F → k ∈ visible (table db) (transaction a) →
  ∃ n' a', nt_delete (table db) a k = Some (n', a', Ret true) ∧
    visible n' (transaction a) = filter (λ j, j ≠ k) (visible (table db) (transaction a)).
Proof. intros Hr Ha Hw HF Hk. by eapply visible_delete; [eapply reach_ok|..]. Qed.

(** C17. As long as no commit failed, every operation returns: no assertion fails and every loop of a commit or rollback ends,
    a loop that appends a chunk after at most [CHUNKED_NODE_GROUP_CAPACITY] iterations. *)
Theorem operations_return (fuel : nat) (db : Database) (act : action) :
  CHUNKED_NODE_GROUP_CAPACITY ≤ fuel → reach fuel db [] → within_limits db → allowed [] db act →
  ∃ db' threw, exec fuel db act = Some (db', threw).
Proof.
  intros Hfuel Hr Hl Hal. destruct (exec_total fuel db act) as (db' & th & E & _); [by eapply reach_ok|done|done|by eapply reach_appendable|done|by eexists _, _].
Qed.

(** C20. Before a checkpoint the manager waits for the transactions to leave: it asks at most [timeout / 500 + 1] times, returns
    when no transaction is active at one of these times, and else throws. *)
Theorem checkpoint_wait_returns (timeout : Z) (idle : nat → bool) : (0 ≤ timeout)%Z → (timeout + 500 < 2 ^ 64)%Z →
  let polls := S (Z.to_nat (timeout / THREAD_SLEEP_TIME_WHEN_WAITING_IN_MICROS)) in
  waitUntilAllTransactionsLeave polls timeout idle 0 0 = Some (if existsb idle (seq 0 polls) then Ret () else Throw TransactionManagerException).
Proof.
  intros H0 H1 polls. apply (wait_spec timeout idle _ 0); [done|done|]. cbn [Nat.add]. pose proof (Z.div_pos timeout 500 H0 ltac:(lia)).
  rewrite Z2Nat.id; [done|]. exact H.
Qed.

(** ** A run: a reader and a writer on a table of one row *)

Definition initial : Database := mkDatabase one_row_table [] START_TRANSACTION_ID 1.
Definition next (fuel : nat) (db : Database) (act : action) : Database := from_option fst db (exec fuel db act).
Definition run_fuel : nat := CHUNKED_NODE_GROUP_CAPACITY.
Definition reader_id : Z := 2 ^ 63 + 1.
Definition writer_id : Z := 2 ^ 63 + 2.
Definition db_reader : Database := next run_fuel initial (Begin READ_ONLY).
Definition db_writer_begun : Database := next run_fuel db_reader (Begin WRITE).
Definition db_inserted : Database := next run_fuel db_writer_begun (Insert writer_id false true).

Lemma exec_next fuel db act b : snd <$> exec fuel db act = Some b → exec fuel db act = Some (next fuel db act, b).
Proof. unfold next. destruct (exec fuel db act) as [[db' x]|]; [|done]. cbn. by intros [= <-]. Qed.

Lemma find_type db id ty : (λ a, type (transaction a)) <$> findTransaction db id = Some ty → ∃ a, findTransaction db id = Some a ∧ type (transaction a) = ty.
Proof. destruct (findTransaction db id) as [a|]; [|done]. cbn. intros [= <-]. by exists a. Qed.

Lemma initial_reach fuel : reach fuel initial [].
Proof.
  apply reach_init; [apply one_row_ok|apply one_row_strict| |].
  - rewrite one_row_rows. constructor; [|constructor]. unfold row_versions. cbn. lia.
  - intros g. cbn. by intros [= <-].
Qed.

Lemma reach_next fuel db F act b : reach fuel db F → within_limits db → allowed F db act → snd <$> exec fuel db act = Some b →
  reach fuel (next fuel db act) (failed act b F).
Proof. intros Hr Hl Hal E. by eapply reach_step; [..|apply exec_next]. Qed.

Lemma reader_reach : reach run_fuel db_reader [].
Proof. apply (reach_next run_fuel initial [] (Begin READ_ONLY) false); [apply initial_reach|by split; vm_compute|by left|by vm_compute]. Qed.

Lemma writer_reach : reach run_fuel db_writer_begun [].
Proof. apply (reach_next run_fuel db_reader [] (Begin WRITE) false); [apply reader_reach|by split; vm_compute|by right|by vm_compute]. Qed.

Lemma insert_allowed : allowed [] db_writer_begun (Insert writer_id false true).
Proof. split; [set_solver|]. apply find_type. by vm_compute. Qed.

Lemma inserted_reach : reach run_fuel db_inserted [].
Proof.
  apply (reach_next run_fuel db_writer_begun [] (Insert writer_id false true) false); [apply writer_reach|by split; vm_compute|apply insert_allowed|by vm_compute].
Qed.

Definition db_committed : Database := next run_fuel db_inserted (Commit writer_id false).

#[local] Opaque initial db_reader db_writer_begun db_inserted db_committed.

Lemma writer_found : ∃ a, findTransaction db_inserted writer_id = Some a ∧ type (transaction a) = WRITE.
Proof. apply find_type. by vm_compute. Qed.

Lemma run_others : others run_fuel reader_id db_reader [] db_committed [].
Proof.
  eapply (others_step _ _ _ _ (Begin WRITE) db_writer_begun false); [by split; vm_compute|by right|done|by apply exec_next; vm_compute|].
  eapply (others_step _ _ _ _ (Insert writer_id false true) db_inserted false); [by split; vm_compute|apply insert_allowed|done|by apply exec_next; vm_compute|].
  eapply (others_step _ _ _ _ (Commit writer_id false) db_committed false); [by split; vm_compute| |done|by apply exec_next; vm_compute|apply others_nil].
  split; [set_solver|]. destruct writer_found as (a & Ha & _). by exists a.
Qed.

Lemma snapshot_isolation_witness : ∃ a, a ∈ activeTransactions db_reader ∧ a ∈ activeTransactions db_committed ∧
  visible (table db_committed) (transaction a) = visible (table db_reader) (transaction a).
Proof.
  destruct (find_type db_reader reader_id READ_ONLY) as (a & Ha & _); [by vm_compute|]. apply findTransaction_spec in Ha as [Ha Hid]. exists a. split; [exact Ha|].
  apply (snapshot_isolation run_fuel db_reader db_committed [] [] a reader_reach Ha). rewrite Hid. exact run_others.
Defined.

Lemma exec_commit fuel db id a fails db' : findTransaction db id = Some a → exec fuel db (Commit id fails) = Some (db', false) →
  commit fuel db a fails = Some (db', Ret ()).
Proof. cbn [exec]. intros ->. cbn [mbind option_bind]. destruct (commit fuel db a fails) as [[db1 [[]|e]]|]; [|done..]. by intros [= ->]. Qed.

Lemma commit_becomes_visible_witness : ∃ a, a ∈ activeTransactions db_inserted ∧ ∃ db2 t, beginTransaction false db_committed READ_ONLY = (db2, Ret t) ∧
  visible (table db2) t = visible (table db_inserted) (transaction a) ++ inserted_rows (numTotalRows (table db_inserted)) (pending a).
Proof.
  destruct writer_found as (a & Hf & Hw). pose proof (findTransaction_spec _ _ _ Hf) as [Ha _]. exists a. split; [exact Ha|]. eexists _, _. split; [reflexivity|].
  apply (commit_becomes_visible run_fuel db_inserted db_committed _ [] a READ_ONLY _ inserted_reach); [by split; vm_compute|exact Ha|exact Hw|apply not_elem_of_nil| |reflexivity].
  by eapply exec_commit; [exact Hf|apply exec_next; vm_compute].
Defined.

Lemma rollback_leaves_nothing_witness : ∃ a, a ∈ activeTransactions db_inserted ∧
  ∃ db', rollback db_inserted a = Some (db', Ret ()) ∧ (a ∉ activeTransactions db') ∧
    Forall (λ r, r_ins r ≠ ID (transaction a) ∧ r_del r ≠ ID (transaction a)) (ngc_rows (table db')) ∧
    ∀ t, other (ID (transaction a)) (lastTimestamp db_inserted) t → visible (table db') t = visible (table db_inserted) t.
Proof.
  destruct writer_found as (a & Hf & Hw). pose proof (findTransaction_spec _ _ _ Hf) as [Ha _]. exists a. split; [exact Ha|].
  apply (rollback_leaves_nothing run_fuel db_inserted [] a inserted_reach Ha Hw).
Defined.

Lemma one_writer_witness : beginTransaction false db_inserted WRITE = (db_inserted, Throw TransactionManagerException).
Proof.
  destruct (one_writer run_fuel db_inserted [] inserted_reach) as [_ ->]; [by split; vm_compute|]. rewrite decide_True; [reflexivity|].
  destruct writer_found as (a & Hf & Hw). apply findTransaction_spec in Hf as [Ha _]. apply Exists_exists. by exists a.
Defined.

Lemma operations_return_witness : ∃ db' threw, exec run_fuel db_writer_begun (Insert writer_id false true) = Some (db', threw).
Proof. apply (operations_return run_fuel db_writer_begun _ (le_n _) writer_reach); [by split; vm_compute|exact insert_allowed]. Defined.

Lemma checkpoint_wait_returns_witness :
  waitUntilAllTransactionsLeave (S (Z.to_nat 10000)) DEFAULT_CHECKPOINT_WAIT_TIMEOUT_IN_MICROS (λ k, 3 =? k) 0 0 = Some (Ret ()).
Proof. exact (checkpoint_wait_returns DEFAULT_CHECKPOINT_WAIT_TIMEOUT_IN_MICROS (λ k, 3 =? k) ltac:(vm_compute; discriminate) ltac:(vm_compute; reflexivity)). Defined.
